(* ===== verification/_CoqProject ===== *)
-Q . S2P
Prelude.v
Numbers.v
CMem.v
Str.v
Spinlock.v
Kalloc.v
Vm.v
Proc.v
Pipe.v
Sleeplock.v
Layout.v
Bio.v
Log.v
Txn.v
Fs.v
FsBlocks.v
FsBmap.v
FsFiles.v
FsDirs.v
File.v
Syscall.v
Sysfile.v
Exec.v
Descriptors.v
Sim.v
Sh.v
Mkfs.v
Ide.v
Boot.v
Seg.v
Trapasm.v
Mp.v
Apic.v
Umalloc.v
Console.v
Tty.v
Trap.v
Ulib.v
User.v
Grep.v
Uthread.v
Bounded.v
WordStack.v
MsgBox.v
