(* ===== verification/Prelude.v ===== *)
(** * A verification library for the xv6 laboratory tree

    The repository is the xv6 teaching kernel with its user programs (src/xv6) and the
    programs of eight laboratories (src/lab-01 ... src/lab-08).  This library translates the
    kernel, from the boot loader and the device drivers to the system calls, its user programs and the
    larger laboratory programs into executable definitions, and proves what makes them correct.

    ** How code is modelled

    A C function that can fail is a computation [K S A] on the state [S] of its component: it returns
    ([Ret]), panics ([Panic]), gives the CPU up ([Sleeps], with a label that says where) or
    does something C leaves undefined ([Undef]: a null pointer, an index outside an array).
    Integers are [Z], wrapped at the width of their C type ([u32], [s32], ...) where the
    code can wrap.  A pointer into an array is an index; a raw address is a number, and raw memory is a map
    from addresses to bytes (CMem).  A blocking function stops where it sleeps, and what it does when it
    runs again is a definition of its own; the concurrent components have a step relation that
    interleaves these pieces.  Hardware is a state that the
    code reads and writes (registers behind ports, descriptor tables, the screen), written from its documentation; what
    the repository does not fix (addresses of symbols, the clock, which pages are left) is an argument.

    Judgements of this file: [wp] (the code returns and the result satisfies), [wlp] (if it returns), [runs]
    (returns or gives the CPU up at a label), [sure] (one of the two does happen).

    ** Parts, files and theorems

    - Memory and strings: CMem is memory; Str is xv6/string.c; Numbers is the conversion of numbers that the console, printf
      and atoi share.  The copying and comparing routines are correct whatever the overlap and on both code paths of memset.
    - Locks: Spinlock is xv6/spinlock.c with mycpu (mutual exclusion over all interleavings of instructions, nesting of
      pushcli); it ends with the class [HasLocks], the list of locks a thread holds, which the rest of the
      kernel uses and which the C routines simulate.  Sleeplock is xv6/sleeplock.c (mutual exclusion, no lost wake-up).
    - Memory management: Kalloc is xv6/kalloc.c (the free list refines a stack of pages); Vm is xv6/vm.c
      (the page-table walks against the hardware's two-level lookup, growth and shrinking of a process).
    - Processes: Proc is xv6/proc.c over an interface to the file system (class [FileOps]); an invariant of the
      process table over all interleavings of all CPUs, no lost wake-up of wait, every branch of wait, exit, kill.
    - Traps: Seg is the descriptor tables (seginit, switchuvm and switchkvm of xv6/vm.c, tvinit and idtinit of xv6/trap.c): user
      code enters the kernel only through the gates, on its own kernel stack.  Trapasm is xv6/trapasm.S, vectors.pl and swtch.S (a
      trap and a context switch give back the registers they saved).  Trap is xv6/trap.c over the class [Devices] (faults of user
      code stay with their process, no killed process returns to user space, the timer preempts).
    - Booting: Boot is xv6/bootmain.c (every segment of the kernel is loaded); Mp is xv6/mp.c (the processors of the BIOS table);
      Apic is xv6/lapic.c, ioapic.c and picirq.c (interrupts are routed as asked, the start-up sequence of a CPU, the date).
    - Devices: Ide is xv6/ide.c with its controller (requests are served in the order of the calls, none is left waiting); Console is
      xv6/console.c, kbd.c and uart.c, and Tty their behaviour together (a line editor, no finished line left unread).
    - Storage: Bio is xv6/bio.c and memide.c and provides the class [Cache]; Log is xv6/log.c over any
      [Cache] (atomic commit under a crash at any write, recovery, space reservation); Txn states
      what log and cache together promise the file system (class [Txn]) and proves it; Layout has the structures
      on disk; Fs is xv6/fs.c over any [Txn]; FsBlocks proves the block allocator, FsBmap the blocks of an inode, FsFiles reading and
      writing, FsDirs directories and paths.  Mkfs is xv6/mkfs.c: its image satisfies what these proofs assume.
    - Pipes and files: Pipe is xv6/pipe.c (a FIFO, no lost wake-up); File is xv6/file.c with pipealloc
      (reference counts) and instantiates [FileOps].
    - System calls: Syscall is the argument fetching of xv6/syscall.c and xv6/sysproc.c; Sysfile is
      xv6/sysfile.c; Exec is xv6/exec.c, forkret and the dispatcher; Descriptors composes them: over every system call
      the counts of the open files are the descriptors of the processes.
    - User programs of xv6: Ulib is ulib.c; User is printf.c, cat, wc, echo, ls, rm, mkdir, ln and kill; Grep is grep.c (the matcher
      against the language of the expression); Umalloc is umalloc.c (blocks never overlap); Sh is sh.c (the parser against a
      grammar, termination); Uthread is uthreadlib.c, uthread_switch.S and uthread.c (every thread runs to its end).
    - Laboratory programs: Sim is lab-07/sim.c (the replacement policies against queues of pages); Bounded is lab-05/buf.c,
      WordStack lab-05/wordstack.c and MsgBox lab-05/msgbox.c and canvas.c (programs that share memory and semaphores).

    ** Fuel

    Loops that are not structural run on fuel that the callers compute from the data: the number of
    buffers in a scan of the cache, of bytes in a copy or in the rest of a path, of pages or sectors in a range, four per character of a
    line in the shell's parser.  The theorems about these functions are total ([wp], or an equation): the
    fuel is enough, since running out of it would be [Undef].  Two loops have fuel as an argument: the walk of mpinit, for which any
    amount above the number of entries is enough, and the loop of cmostime, for which the number of reads until the clock
    stands still is.

    ** Not modelled

    The assembly that changes the mode of the processor (bootasm.S, entry.S, entryother.S), initcode.S and the stubs of usys.S; of
    main.c the order of the initialisers and startothers.  Programs that only make system calls in order to test or show them
    (usertests.c, forktest.c, stressfs.c and the like): their meaning is that of the calls.  The laboratory programs that demonstrate
    facilities of Linux (lab-01, lab-03, lab-04, lab-08, lab-02/sh.c and lab-05/sh.c): they depend on a host that is not here. *)
From stdpp Require Export base tactics numbers list gmap strings.
From Stdlib Require Export ssreflect ZArith Lia.
#[global] Open Scope general_if_scope.

(** ** Machine integers: values are kept in [Z] and wrapped at their width. *)

Declare Scope c_scope.
Delimit Scope c_scope with c.

Definition u8 (x : Z) : Z := (x mod 2 ^ 8)%Z.
Definition u16 (x : Z) : Z := (x mod 2 ^ 16)%Z.
Definition u32 (x : Z) : Z := (x mod 2 ^ 32)%Z.

(** Two's complement reading of the low [w] bits of [x]. *)
Definition sext (w x : Z) : Z :=
  let y := (x mod 2 ^ w)%Z in if (y <? 2 ^ (w - 1))%Z then y else (y - 2 ^ w)%Z.
Definition s16 (x : Z) : Z := sext 16 x.
Definition s32 (x : Z) : Z := sext 32 x.

Notation "a +u b" := (u32 (a + b)%Z) (at level 50, left associativity) : c_scope.
Notation "a -u b" := (u32 (a - b)%Z) (at level 50, left associativity) : c_scope.
Notation "a *u b" := (u32 (a * b)%Z) (at level 40, left associativity) : c_scope.

(** ** Outcomes of kernel code.

    A C function of the kernel either returns, calls [panic] (which never
    returns), gives the CPU up (the thread is suspended in the given state; the
    label says where), or runs into behaviour the C language leaves undefined (a
    null pointer read). *)
Inductive outcome (S A : Type) : Type :=
| Ret (a : A) (s : S)
| Panic (msg : string)
| Sleeps (chan : string) (s : S)
| Undef (msg : string).
Arguments Ret {S A} a s.
Arguments Panic {S A} msg.
Arguments Sleeps {S A} chan s.
Arguments Undef {S A} msg.

Definition K (S A : Type) : Type := S → outcome S A.

Section Monad.
Context {S : Type}.

#[global] Instance K_ret : MRet (K S) := λ A a s, Ret a s.
#[global] Instance K_bind : MBind (K S) := λ A B f m s,
  match m s with
  | Ret a s' => f a s'
  | Panic msg => Panic msg
  | Sleeps c s' => Sleeps c s'
  | Undef msg => Undef msg
  end.

Definition panic {A} (msg : string) : K S A := λ _, Panic msg.
Definition undef {A} (msg : string) : K S A := λ _, Undef msg.
Definition sleeps {A} (chan : string) : K S A := λ s, Sleeps chan s.
Definition get : K S S := λ s, Ret s s.
Definition put (s : S) : K S unit := λ _, Ret tt s.
Definition gets {A} (f : S → A) : K S A := λ s, Ret (f s) s.
Definition modify (f : S → S) : K S unit := λ s, Ret tt (f s).
Definition when (b : bool) (m : K S unit) : K S unit :=
  if b then m else mret tt.

(** [for_break l body] runs [body] on the elements of [l] in order and stops at
    the first one that yields [Some] result ([return] or [break] in the loop). *)
Fixpoint for_break {I R} (l : list I) (body : I → K S (option R)) : K S (option R) :=
  match l with
  | [] => mret None
  | i :: l' =>
      r ← body i;
      match r with
      | Some v => mret (Some v)
      | None => for_break l' body
      end
  end.

(** A loop with no early exit. *)
Fixpoint for_each {I} (l : list I) (body : I → K S unit) : K S unit :=
  match l with
  | [] => mret tt
  | i :: l' => _ ← body i; for_each l' body
  end.

End Monad.

(** [range lo hi] is the sequence of values of [for (i = lo; i < hi; i++)]. *)
Definition range (lo hi : Z) : list Z := seqZ lo (hi - lo).

(** The bytes of a C string: up to the first zero. *)
Fixpoint cstring (l : list Z) : list Z :=
  match l with
  | [] => []
  | c :: l' => if (c =? 0)%Z then [] else c :: cstring l'
  end.

(** Run a computation on a component of a larger state. *)
Definition zoom {S T A} (prj : S → T) (inj : T → S → S) (m : K T A) : K S A :=
  λ s, match m (prj s) with
       | Ret a t => Ret a (inj t s)
       | Panic msg => Panic msg
       | Sleeps c t => Sleeps c (inj t s)
       | Undef msg => Undef msg
       end.

(** ** Total correctness of kernel code *)

(** [wp m s Q]: from [s], [m] returns (no panic, no sleep, no undefined
    behaviour) a value and a state that satisfy [Q]. *)
Definition wp {S A} (m : K S A) (s : S) (Q : A → S → Prop) : Prop :=
  match m s with Ret a s' => Q a s' | _ => False end.

(** [wlp m s Q]: whenever [m] returns from [s], its result satisfies [Q]. *)
Definition wlp {S A} (m : K S A) (s : S) (Q : A → S → Prop) : Prop :=
  match m s with Ret a s' => Q a s' | _ => True end.

#[global] Arguments wp : simpl never.
#[global] Arguments wlp : simpl never.

Section WP.
Context {S : Type}.
Implicit Types (s : S).

Lemma wp_elim {A} (m : K S A) s Q :
  wp m s Q → ∃ a s', m s = Ret a s' ∧ Q a s'.
Proof. rw /wp. destruct (m s); naive_solver. Qed.

Lemma wp_intro {A} (m : K S A) s (Q : A → S → Prop) a s' :
  m s = Ret a s' → Q a s' → wp m s Q.
Proof. rw /wp. by intros ->. Qed.

Lemma wp_result {A} (m : K S A) s (Q : A → S → Prop) a s' : wp m s Q → m s = Ret a s' → Q a s'.
Proof. rw /wp. intros H E. by rewrite E in H. Qed.

(** The state after a run, for concrete runs. *)
Definition state_of {A} (m : K S A) (s : S) : S := match m s with Ret _ s' => s' | _ => s end.
Lemma wp_state_of {A} (m : K S A) s (Q : A → S → Prop) : wp m s Q → ∃ a, Q a (state_of m s).
Proof. rw /wp /state_of. destruct (m s); naive_solver. Qed.

Lemma wp_ret {A} (a : A) s (Q : A → S → Prop) : Q a s → wp (mret a) s Q.
Proof. done. Qed.

Lemma wp_bind {A B} (m : K S A) (f : A → K S B) s Q :
  wp m s (λ a s', wp (f a) s' Q) → wp (m ≫= f) s Q.
Proof. rw /wp /mbind /K_bind. by destruct (m s). Qed.

Lemma wp_mono {A} (m : K S A) s (P Q : A → S → Prop) :
  wp m s P → (∀ a s', P a s' → Q a s') → wp m s Q.
Proof. rw /wp. destruct (m s); naive_solver. Qed.

Lemma wlp_bind {A B} (m : K S A) (f : A → K S B) s Q :
  wlp m s (λ a s', wlp (f a) s' Q) → wlp (m ≫= f) s Q.
Proof. rw /wlp /mbind /K_bind. by destruct (m s). Qed.

Lemma wlp_mono {A} (m : K S A) s (P Q : A → S → Prop) :
  wlp m s P → (∀ a s', P a s' → Q a s') → wlp m s Q.
Proof. rw /wlp. destruct (m s); naive_solver. Qed.

Lemma wp_wlp {A} (m : K S A) s (Q : A → S → Prop) : wp m s Q → wlp m s Q.
Proof. rw /wp /wlp. by destruct (m s). Qed.

Lemma bind_Ret {A B} (m : K S A) (f : A → K S B) s a s' :
  m s = Ret a s' → (m ≫= f) s = f a s'.
Proof. rw /mbind /K_bind. by intros ->. Qed.

Lemma wp_eq {A} (m : K S A) s a s' :
  m s = Ret a s' ↔ wp m s (λ a' s'', a' = a ∧ s'' = s').
Proof. rw /wp. split; [by intros ->|]. destruct (m s); naive_solver. Qed.

Lemma wp_get s (Q : S → S → Prop) : Q s s → wp get s Q.
Proof. done. Qed.
Lemma wp_gets {A} (f : S → A) s (Q : A → S → Prop) : Q (f s) s → wp (gets f) s Q.
Proof. done. Qed.
Lemma wp_put s s' (Q : unit → S → Prop) : Q tt s' → wp (put s') s Q.
Proof. done. Qed.
Lemma wp_modify f s (Q : unit → S → Prop) : Q tt (f s) → wp (modify f) s Q.
Proof. done. Qed.
Lemma wp_when_true (m : K S unit) s Q : wp m s Q → wp (when true m) s Q.
Proof. done. Qed.
Lemma wp_when_false (m : K S unit) s (Q : unit → S → Prop) : Q tt s → wp (when false m) s Q.
Proof. done. Qed.

(** The invariant [J] speaks of the elements already visited. *)
Lemma wp_for_break {I R} (l : list I) (body : I → K S (option R))
    (J : list I → S → Prop) (Q : option R → S → Prop) s :
  J [] s →
  (∀ pre i post s', l = pre ++ i :: post → J pre s' →
     wp (body i) s' (λ r s'', match r with
                              | Some v => Q (Some v) s''
                              | None => J (pre ++ [i]) s''
                              end)) →
  (∀ s', J l s' → Q None s') →
  wp (for_break l body) s Q.
Proof.
  intros H0 Hstep Hend.
  assert (∀ todo pre s', l = pre ++ todo → J pre s' →
            wp (for_break todo body) s' Q) as Hgen.
  { induction todo as [|i todo IH]; intros pre s' Hl HJ; simpl.
    - apply wp_ret, Hend. by rw Hl app_nil_r.
    - apply wp_bind. eapply wp_mono; [eapply Hstep; eassumption|].
      intros [v|] s'' HQ; [done|]. apply (IH (pre ++ [i])); [|done].
      by rw -app_assoc. }
  by apply (Hgen l []).
Qed.

Lemma wp_for_each {I} (l : list I) (body : I → K S unit)
    (J : list I → S → Prop) (Q : unit → S → Prop) s :
  J [] s →
  (∀ pre i post s', l = pre ++ i :: post → J pre s' →
     wp (body i) s' (λ _ s'', J (pre ++ [i]) s'')) →
  (∀ s', J l s' → Q tt s') →
  wp (for_each l body) s Q.
Proof.
  intros H0 Hstep Hend.
  assert (∀ todo pre s', l = pre ++ todo → J pre s' →
            wp (for_each todo body) s' Q) as Hgen.
  { induction todo as [|i todo IH]; intros pre s' Hl HJ; simpl.
    - apply wp_ret, Hend. by rw Hl app_nil_r.
    - apply wp_bind. eapply wp_mono; [eapply Hstep; eassumption|].
      intros [] s'' HJ'. apply (IH (pre ++ [i])); [|done].
      by rw -app_assoc. }
  by apply (Hgen l []).
Qed.

End WP.

(** Running one step of a monadic body. *)
Lemma zoom_Ret {S T A} (prj : S → T) inj (m : K T A) s a t :
  m (prj s) = Ret a t → zoom prj inj m s = Ret a (inj t s).
Proof. rw /zoom. by intros ->. Qed.

Lemma wp_zoom {S T A} (prj : S → T) (inj : T → S → S) (m : K T A) s Q :
  wp m (prj s) (λ a t, Q a (inj t s)) → wp (zoom prj inj m) s Q.
Proof. rw /wp /zoom. by destruct (m (prj s)). Qed.

(** [runs m s Q R]: what holds of the state when [m] returns ([Q]) and when it gives
    the CPU up at [lbl] ([R]); nothing is said of a panic. *)
Definition runs {S A} (lbl : string) (m : K S A) (s : S) (Q : A → S → Prop) (R : S → Prop) : Prop :=
  match m s with
  | Ret a s' => Q a s'
  | Sleeps c s' => c = lbl → R s'
  | _ => True
  end.
#[global] Arguments runs : simpl never.

Section Runs.
Context {S : Type} (lbl : string).
Implicit Types (s : S).

Lemma runs_ret {A} (a : A) s (Q : A → S → Prop) R : Q a s → runs lbl (mret a) s Q R.
Proof. done. Qed.
Lemma runs_bind {A B} (m : K S A) (f : A → K S B) s Q R :
  runs lbl m s (λ a s', runs lbl (f a) s' Q R) R → runs lbl (m ≫= f) s Q R.
Proof. rw /runs /mbind /K_bind. by destruct (m s). Qed.
Lemma runs_mono {A} (m : K S A) s (P Q : A → S → Prop) R :
  runs lbl m s P R → (∀ a s', P a s' → Q a s') → runs lbl m s Q R.
Proof. rw /runs. destruct (m s); naive_solver. Qed.
Lemma runs_gets {A} (f : S → A) s (Q : A → S → Prop) R : Q (f s) s → runs lbl (gets f) s Q R.
Proof. done. Qed.
Lemma runs_modify f s (Q : unit → S → Prop) R : Q tt (f s) → runs lbl (modify f) s Q R.
Proof. done. Qed.
Lemma runs_panic {A} msg s (Q : A → S → Prop) R : runs lbl (panic msg) s Q R.
Proof. done. Qed.
Lemma runs_undef {A} msg s (Q : A → S → Prop) R : runs lbl (undef msg) s Q R.
Proof. done. Qed.
Lemma runs_sleeps {A} s (Q : A → S → Prop) (R : S → Prop) : R s → runs lbl (sleeps lbl) s Q R.
Proof. rw /runs /sleeps. auto. Qed.

Lemma runs_for_each {I} (l : list I) (body : I → K S unit)
    (J : list I → S → Prop) (Q : unit → S → Prop) R s :
  J [] s →
  (∀ pre i post s', l = pre ++ i :: post → J pre s' →
     runs lbl (body i) s' (λ _ s'', J (pre ++ [i]) s'') R) →
  (∀ s', J l s' → Q tt s') →
  runs lbl (for_each l body) s Q R.
Proof.
  intros H0 Hstep Hend.
  assert (∀ todo pre s', l = pre ++ todo → J pre s' →
            runs lbl (for_each todo body) s' Q R) as Hgen.
  { induction todo as [|i todo IH]; intros pre s' Hl HJ; simpl.
    - apply runs_ret, Hend. by rw Hl app_nil_r.
    - apply runs_bind. eapply runs_mono; [eapply Hstep; eassumption|].
      intros [] s'' HJ'. apply (IH (pre ++ [i])); [|done].
      by rw -app_assoc. }
  by apply (Hgen l []).
Qed.

End Runs.

(** The total version: [m] does return ([Q]) or give the CPU up at [lbl] ([R]). *)
Definition sure {S A} (lbl : string) (m : K S A) (s : S) (Q : A → S → Prop) (R : S → Prop) : Prop :=
  match m s with
  | Ret a s' => Q a s'
  | Sleeps c s' => c = lbl ∧ R s'
  | _ => False
  end.
#[global] Arguments sure : simpl never.

Section Sure.
Context {S : Type} (lbl : string).
Implicit Types (s : S).

Lemma sure_ret {A} (a : A) s (Q : A → S → Prop) R : Q a s → sure lbl (mret a) s Q R.
Proof. done. Qed.
Lemma sure_bind {A B} (m : K S A) (f : A → K S B) s Q R :
  sure lbl m s (λ a s', sure lbl (f a) s' Q R) R → sure lbl (m ≫= f) s Q R.
Proof. rw /sure /mbind /K_bind. by destruct (m s). Qed.
Lemma sure_mono {A} (m : K S A) s (P Q : A → S → Prop) R :
  sure lbl m s P R → (∀ a s', P a s' → Q a s') → sure lbl m s Q R.
Proof. rw /sure. destruct (m s); naive_solver. Qed.
Lemma sure_gets {A} (f : S → A) s (Q : A → S → Prop) R : Q (f s) s → sure lbl (gets f) s Q R.
Proof. done. Qed.
Lemma sure_modify f s (Q : unit → S → Prop) R : Q tt (f s) → sure lbl (modify f) s Q R.
Proof. done. Qed.
Lemma sure_sleeps {A} s (Q : A → S → Prop) (R : S → Prop) : R s → sure lbl (sleeps lbl) s Q R.
Proof. rw /sure /sleeps. auto. Qed.
Lemma sure_wp {A} (m : K S A) s (Q : A → S → Prop) R : wp m s Q → sure lbl m s Q R.
Proof. rw /sure /wp. by destruct (m s). Qed.
Lemma sure_runs {A} (m : K S A) s (Q Q' : A → S → Prop) R R' :
  sure lbl m s Q R → runs lbl m s Q' R' →
  sure lbl m s (λ a s', Q a s' ∧ Q' a s') (λ s', R s' ∧ R' s').
Proof. rw /sure /runs. destruct (m s); naive_solver. Qed.

Lemma sure_for_each {I} (l : list I) (body : I → K S unit)
    (J : list I → S → Prop) (Q : unit → S → Prop) R s :
  J [] s →
  (∀ pre i post s', l = pre ++ i :: post → J pre s' →
     sure lbl (body i) s' (λ _ s'', J (pre ++ [i]) s'') R) →
  (∀ s', J l s' → Q tt s') →
  sure lbl (for_each l body) s Q R.
Proof.
  intros H0 Hstep Hend.
  assert (∀ todo pre s', l = pre ++ todo → J pre s' →
            sure lbl (for_each todo body) s' Q R) as Hgen.
  { induction todo as [|i todo IH]; intros pre s' Hl HJ; simpl.
    - apply sure_ret, Hend. by rw Hl app_nil_r.
    - apply sure_bind. eapply sure_mono; [eapply Hstep; eassumption|].
      intros [] s'' HJ'. apply (IH (pre ++ [i])); [|done].
      by rw -app_assoc. }
  by apply (Hgen l []).
Qed.

End Sure.

(** ** Facts on machine integers *)

Create HintDb xv6.
Create Rewrite HintDb xv6.

Lemma u32_small x : (0 ≤ x < 2 ^ 32)%Z → u32 x = x.
Proof. apply Z.mod_small. Qed.
Lemma u32_range x : (0 ≤ u32 x < 2 ^ 32)%Z.
Proof. by apply Z.mod_pos_bound. Qed.
Lemma u8_small x : (0 ≤ x < 256)%Z → u8 x = x.
Proof. apply Z.mod_small. Qed.
Lemma u8_range x : (0 ≤ u8 x < 256)%Z.
Proof. by apply Z.mod_pos_bound. Qed.
#[export] Hint Resolve u32_range u8_range : xv6.
#[export] Hint Rewrite u32_small u8_small using lia : xv6.

Lemma s32_small x : (- 2 ^ 31 ≤ x < 2 ^ 31)%Z → s32 x = x.
Proof.
  intros Hx. rw /s32 /sext. change (32 - 1)%Z with 31%Z.
  destruct (decide (0 ≤ x)%Z).
  - rw Z.mod_small; [lia|]. destruct (Z.ltb_spec x (2 ^ 31)); lia.
  - assert (x mod 2 ^ 32 = x + 2 ^ 32)%Z as ->.
    { symmetry. apply Z.mod_unique_pos with (-1)%Z; lia. }
    destruct (Z.ltb_spec (x + 2 ^ 32) (2 ^ 31)); lia.
Qed.

Lemma u32_idem x : u32 (u32 x) = u32 x.
Proof. apply u32_small, u32_range. Qed.

Lemma mod_add_once x k n : (0 < n)%Z → ((x + k * n) mod n = x mod n)%Z.
Proof. intros. apply Z_mod_plus_full. Qed.

(** ** Facts on bit operations *)

Lemma land_aligned_small k a b :
  (0 ≤ k)%Z → (a mod 2 ^ k = 0)%Z → (0 ≤ b < 2 ^ k)%Z → Z.land a b = 0%Z.
Proof.
  intros Hk Ha Hb. apply Z.bits_inj'. intros n Hn. rw Z.land_spec Z.bits_0.
  destruct (decide (n < k)%Z).
  - rw -(Z.mod_pow2_bits_low a k n) // Ha Z.bits_0 //.
  - rw -(Z.mod_small b (2 ^ k)) // Z.mod_pow2_bits_high; [lia|]. by rw andb_false_r.
Qed.

Lemma lor_aligned_small k a b :
  (0 ≤ k)%Z → (a mod 2 ^ k = 0)%Z → (0 ≤ b < 2 ^ k)%Z → Z.lor a b = (a + b)%Z.
Proof.
  intros Hk Ha Hb. pose proof (Z.add_lor_land a b) as H.
  rw (land_aligned_small k) // in H. lia.
Qed.

Lemma lor_range k a b :
  (0 ≤ k)%Z → (0 ≤ a < 2 ^ k)%Z → (0 ≤ b < 2 ^ k)%Z → (0 ≤ Z.lor a b < 2 ^ k)%Z.
Proof.
  intros Hk Ha Hb. assert (0 ≤ Z.lor a b)%Z as H0 by (apply Z.lor_nonneg; lia).
  split; [done|].
  assert (Z.shiftr (Z.lor a b) k = 0)%Z as Hs.
  { rw Z.shiftr_lor !Z.shiftr_div_pow2 // !Z.div_small //. }
  rw Z.shiftr_div_pow2 // in Hs. apply Z.div_small_iff in Hs; lia.
Qed.

Lemma land_range_l a b : (0 ≤ a)%Z → (0 ≤ Z.land a b ≤ a)%Z.
Proof.
  intros Ha. split; [apply Z.land_nonneg; lia|].
  assert (a = Z.land a b + Z.land a (Z.lnot b))%Z as E3.
  { rw -Z.add_lor_land. rw -{1}(Z.add_0_r a). f_equal.
    - apply Z.bits_inj'. intros n Hn. rw Z.lor_spec !Z.land_spec Z.lnot_spec //.
      by destruct (Z.testbit a n), (Z.testbit b n).
    - symmetry. apply Z.bits_inj'. intros n Hn.
      rw !Z.land_spec Z.lnot_spec // Z.bits_0.
      by destruct (Z.testbit a n), (Z.testbit b n). }
  assert (0 ≤ Z.land a (Z.lnot b))%Z by (apply Z.land_nonneg; lia). lia.
Qed.

(** ** Facts on ranges *)

Lemma elem_of_range lo hi i : i ∈ range lo hi ↔ (lo ≤ i < hi)%Z.
Proof. rw /range elem_of_seqZ. lia. Qed.

Lemma range_nil lo hi : (hi ≤ lo)%Z → range lo hi = [].
Proof. intros. apply seqZ_nil. lia. Qed.

Lemma range_cons lo hi : (lo < hi)%Z → range lo hi = lo :: range (lo + 1) hi.
Proof.
  intros. rw /range seqZ_cons; [lia|]. do 2 f_equal; lia.
Qed.

Lemma range_snoc lo hi : (lo ≤ hi)%Z → range lo (hi + 1) = range lo hi ++ [hi].
Proof.
  intros. rw /range. replace (hi + 1 - lo)%Z with ((hi - lo) + 1)%Z by lia.
  rw seqZ_app; [lia..|]. f_equal.
  replace (lo + (hi - lo))%Z with hi by lia. done.
Qed.

Lemma range_split lo hi pre i post :
  range lo hi = pre ++ i :: post →
  pre = range lo i ∧ post = range (i + 1) hi ∧ (lo ≤ i < hi)%Z.
Proof.
  revert lo. induction pre as [|x pre IH]; intros lo Heq.
  - destruct (decide (lo < hi)%Z); last (rw range_nil in Heq; [lia|done]).
    rw range_cons // in Heq. simplify_eq/=.
    split_and!; [|done|lia..]. rw range_nil; [lia|done].
  - destruct (decide (lo < hi)%Z); last (rw range_nil in Heq; [lia|done]).
    rw range_cons // in Heq. simplify_eq/=.
    destruct (IH (x + 1)%Z) as (->&->&?); [done|].
    split_and!; [|done|lia..]. rw (range_cons x i); [lia|done].
Qed.

(** The loop rule for [for (i = lo; i < hi; i++)], the invariant indexed by [i]. *)
Lemma wp_for_range {S R} lo hi (body : Z → K S (option R))
    (J : Z → S → Prop) (Q : option R → S → Prop) s :
  (lo ≤ hi)%Z →
  J lo s →
  (∀ i s', (lo ≤ i < hi)%Z → J i s' →
     wp (body i) s' (λ r s'', match r with
                              | Some v => Q (Some v) s''
                              | None => J (i + 1)%Z s''
                              end)) →
  (∀ s', J hi s' → Q None s') →
  wp (for_break (range lo hi) body) s Q.
Proof.
  intros Hle H0 Hstep Hend.
  apply (wp_for_break _ _ (λ pre s', J (lo + Z.of_nat (length pre))%Z s')).
  - by rw /= Z.add_0_r.
  - intros pre i post s' Heq HJ.
    apply range_split in Heq as (->&->&?).
    assert (lo + Z.of_nat (length (range lo i)) = i)%Z as Hlen.
    { rw /range length_seqZ. lia. }
    rw Hlen in HJ. eapply wp_mono; [by apply Hstep|].
    intros [v|] s'' HQ; [done|].
    rw length_app Nat2Z.inj_add Z.add_assoc Hlen. done.
  - intros s' HJ. apply Hend. revert HJ. rw /range length_seqZ.
    by replace (lo + Z.of_nat (Z.to_nat (hi - lo)))%Z with hi by lia.
Qed.

(** The same for a loop without [break] that starts at 0. *)
Lemma wp_upto {S} n (body : Z → K S unit) (J : nat → S → Prop) (Q : unit → S → Prop) s :
  J 0%nat s →
  (∀ k s', (k < Z.to_nat n)%nat → J k s' → wp (body (Z.of_nat k)) s' (λ _ s'', J (Datatypes.S k) s'')) →
  (∀ s', J (Z.to_nat n) s' → Q tt s') →
  wp (for_each (range 0 n) body) s Q.
Proof.
  intros H0 Hstep Hend. apply (wp_for_each _ _ (λ pre s', J (length pre) s')); [done| |].
  - intros pre i post s' Heq HJ. apply range_split in Heq as (->&_&?).
    rw /range length_seqZ Z.sub_0_r in HJ. rw length_app /range length_seqZ Z.sub_0_r Nat.add_1_r.
    specialize (Hstep (Z.to_nat i) s'). rw Z2Nat.id in Hstep; [lia|]. apply Hstep; [lia|done].
  - intros s' HJ. apply Hend. by rw /range length_seqZ Z.sub_0_r in HJ.
Qed.

(** A loop over multiples: [for (i = 0; i < hi; i += w)]. *)
Lemma for_break_fmap {S I J R} (f : I → J) (l : list I) (body : J → K S (option R)) s :
  for_break (f <$> l) body s = for_break l (λ i, body (f i)) s.
Proof.
  revert s. induction l as [|i l IH]; intros s; [done|]. simpl. rw /mbind /K_bind.
  destruct (body (f i) s) as [[v|] s'| | |]; [done|apply IH|done..].
Qed.

Lemma wp_for_steps {S R} n (f : Z → Z) (body : Z → K S (option R))
    (J : Z → S → Prop) (Q : option R → S → Prop) s :
  (0 ≤ n)%Z →
  J 0%Z s →
  (∀ i s', (0 ≤ i < n)%Z → J i s' →
     wp (body (f i)) s' (λ r s'', match r with
                                  | Some v => Q (Some v) s''
                                  | None => J (i + 1)%Z s''
                                  end)) →
  (∀ s', J n s' → Q None s') →
  wp (for_break (f <$> range 0 n) body) s Q.
Proof. intros. rw /wp for_break_fmap. by apply (wp_for_range 0 n (λ i, body (f i)) J). Qed.

(** ** Updates of a list by index *)

(** Replacing an element of a list, up to order. *)
Lemma insert_permute {A} (l : list A) i x y : l !! i = Some x → x :: <[i := y]> l ≡ₚ y :: l.
Proof.
  intros Hi. rewrite -{2}(take_drop_middle l i x Hi) (insert_take_drop _ _ y); [exact (lookup_lt_Some _ _ _ Hi)|].
  rewrite -!Permutation_middle. apply Permutation_swap.
Qed.

Lemma alter_slot {A} (f : A → A) (i : nat) (l : list A) p : l !! i = Some p → alter f i l = <[i := f p]> l.
Proof.
  intros Hi. apply lookup_lt_Some in Hi as Hlt. apply list_eq. intros j.
  destruct (decide (i = j)) as [<-|Hne].
  - by rw list_lookup_alter_eq list_lookup_insert_eq // Hi.
  - by rw list_lookup_alter_ne // list_lookup_insert_ne.
Qed.

Lemma alter_again {A} (f : A → A) (i : nat) (l : list A) p :
  (i < length l)%nat → alter f i (<[i := p]> l) = <[i := f p]> l.
Proof.
  intros Hlt. rw (alter_slot _ _ _ p); [by apply list_lookup_insert_eq|].
  by rw list_insert_insert_eq.
Qed.

Lemma alter_alter {A} (f g : A → A) (i : nat) (l : list A) : alter f i (alter g i l) = alter (λ x, f (g x)) i l.
Proof.
  apply list_eq. intros j. destruct (decide (i = j)) as [<-|Hne].
  - rw !list_lookup_alter_eq. by destruct (l !! i).
  - by rw !list_lookup_alter_ne.
Qed.

(** ** Automation *)

(** Case analysis on the boolean tests of the code. *)
Ltac bool_cases :=
  repeat match goal with
  | H : context [(?a <? ?b)%Z] |- _ => destruct (Z.ltb_spec a b)
  | H : context [(?a <=? ?b)%Z] |- _ => destruct (Z.leb_spec a b)
  | H : context [(?a =? ?b)%Z] |- _ => destruct (Z.eqb_spec a b)
  | |- context [(?a <? ?b)%Z] => destruct (Z.ltb_spec a b)
  | |- context [(?a <=? ?b)%Z] => destruct (Z.leb_spec a b)
  | |- context [(?a =? ?b)%Z] => destruct (Z.eqb_spec a b)
  end; simpl in *; try lia.

(** One syntactic step of a monadic body in a [wp] goal. *)
Ltac wp_step :=
  cbv beta;
  lazymatch goal with
  | |- wp (mbind _ _) _ _ => apply wp_bind
  | |- wp (mret _) _ _ => apply wp_ret
  | |- wp get _ _ => apply wp_get
  | |- wp (gets _) _ _ => apply wp_gets
  | |- wp (put _) _ _ => apply wp_put
  | |- wp (modify _) _ _ => apply wp_modify
  | |- wp (when true _) _ _ => apply wp_when_true
  | |- wp (when false _) _ _ => apply wp_when_false
  | |- wp (when ?b _) _ _ => let b' := eval simpl in b in progress change b with b'
  end; cbv beta.
Ltac wp_steps := repeat wp_step.
