(* ===== verification/Numbers.v ===== *)
(** * Numbers as digits (the [printint] of xv6/console.c and xv6/printf.c, [atoi] of xv6/ulib.c).

    The kernel and the C library print numbers with the same loop and different tables of digits.  The lemmas say
    that the digits are at most eleven characters and read back as the number. *)
From S2P Require Import Prelude.
Local Open Scope Z_scope.

Section Digits.
(** The table [digits]. *)
Context (dig : Z → Z).

(** The [do] loop of [printint]: the digits from the last one. *)
Fixpoint printint_digits (fuel : nat) (base x : Z) : list Z :=
  match fuel with
  | O => []
  | S k => dig (x mod base) :: if x / base =? 0 then [] else printint_digits k base (x / base)
  end.

(** The bytes of [buf], in the order they are stored.  [x] has 32 bits: 32 digits are enough in any base. *)
Definition printint_buf (xx base : Z) (sign : bool) : list Z :=
  let neg := sign && (xx <? 0) in
  let x := if neg then u32 (- xx) else u32 xx in
  printint_digits 32 base x ++ (if neg then [45] else []).
End Digits.

(** The sum wraps around as an int. *)
Fixpoint atoi_loop (l : list Z) (n : Z) : Z :=
  match l with
  | [] => n
  | c :: l' => if (48 <=? c) && (c <=? 57) then atoi_loop l' (s32 (n * 10 + c - 48)) else n
  end.
Definition atoi (s : list Z) : Z := atoi_loop s 0.

(** The [atoi] of the C library: white space, a sign, digits. *)
Fixpoint skip_blanks (l : list Z) : list Z :=
  match l with
  | c :: l' => if (c =? 32) || ((9 <=? c) && (c <=? 13)) then skip_blanks l' else l
  | [] => []
  end.
Definition c_atoi (s : list Z) : Z :=
  match skip_blanks s with
  | 45 :: l => s32 (- atoi_loop l 0)
  | 43 :: l => atoi_loop l 0
  | l => atoi_loop l 0
  end.

Lemma s32_range x : - 2 ^ 31 ≤ s32 x < 2 ^ 31.
Proof.
  rw /s32 /sext. pose proof (Z.mod_pos_bound x (2 ^ 32) ltac:(lia)). change (32 - 1) with 31. cbv zeta.
  destruct (Z.ltb_spec (x mod 2 ^ 32) (2 ^ 31)); lia.
Qed.

(** ** Values *)

(** The value of digits, most significant first. *)
Definition dval (c : Z) : Z := if c <? 58 then c - 48 else if c <? 97 then c - 55 else c - 87.
Definition num_of (base : Z) (l : list Z) : Z := foldl (λ a c, a * base + dval c) 0 l.
(** A number with an optional sign. *)
Definition signed_of (l : list Z) : Z := match l with 45 :: l' => - num_of 10 l' | _ => num_of 10 l end.

(** A table of digits: the first ten are the decimal ones. *)
Definition digit_ok (dig : Z → Z) : Prop := ∀ d, 0 ≤ d < 16 → dval (dig d) = d ∧ 48 ≤ dig d < 127 ∧ (d < 10 → dig d = 48 + d).

Section Spec.
Context (dig : Z → Z).
Hypothesis Hdig : digit_ok dig.

Lemma digits_spec base fuel : ∀ x, 2 ≤ base ≤ 16 → 0 ≤ x < base ^ Z.of_nat fuel → (0 < fuel)%nat →
  num_of base (rev (printint_digits dig fuel base x)) = x.
Proof.
  induction fuel as [|fuel IH]; intros x Hb Hx Hf; [lia|]. cbn [printint_digits]. rw /num_of. cbn [rev]. rewrite foldl_app. simpl.
  pose proof (Z.mod_pos_bound x base ltac:(lia)) as Hm. destruct (Hdig (x mod base)) as (->&_&_); [lia|].
  rewrite Nat2Z.inj_succ Z.pow_succ_r in Hx; [lia|]. destruct (Z.eqb_spec (x / base) 0) as [E|Hne].
  - simpl. pose proof (Z.div_mod x base ltac:(lia)) as H. rewrite E in H. lia.
  - rewrite -/(num_of _ _) IH; [done| | |pose proof (Z.div_mod x base ltac:(lia)); lia].
    + split; [apply Z.div_pos; lia|]. apply Z.div_lt_upper_bound; lia.
    + destruct fuel; [|lia]. exfalso. apply Hne, Z.div_small. simpl in Hx. lia.
Qed.

Lemma digits_chars base fuel : ∀ x, 2 ≤ base ≤ 16 →
  Forall (λ c, 48 ≤ c < 127 ∧ (base = 10 → 48 ≤ c ≤ 57)) (printint_digits dig fuel base x).
Proof.
  induction fuel as [|fuel IH]; intros x Hb; cbn [printint_digits]; [constructor|].
  pose proof (Z.mod_pos_bound x base ltac:(lia)) as Hm. destruct (Hdig (x mod base)) as (_&Hd&Hd'); [lia|].
  constructor; [lia|]. destruct (x / base =? 0); [constructor|]. by apply IH.
Qed.

Lemma digits_length base n : ∀ x fuel, 2 ≤ base → 0 ≤ x < base ^ Z.of_nat n → (0 < n)%nat → (length (printint_digits dig fuel base x) ≤ n)%nat.
Proof.
  induction n as [|n IH]; intros x fuel Hb Hx Hn; [lia|]. destruct fuel as [|fuel]; [simpl; lia|]. cbn [printint_digits length].
  rewrite Nat2Z.inj_succ Z.pow_succ_r in Hx; [lia|]. destruct (Z.eqb_spec (x / base) 0) as [|Hne]; [simpl; lia|].
  apply le_n_S, IH; [done| |].
  - split; [apply Z.div_pos; lia|]. apply Z.div_lt_upper_bound; lia.
  - destruct n; [|lia]. exfalso. apply Hne, Z.div_small. simpl in Hx. lia.
Qed.

Lemma signed_digits l : Forall (λ c, 48 ≤ c < 127) l → signed_of l = num_of 10 l.
Proof. intros H. rw /signed_of. destruct H as [|c l Hc Hl]; [done|]. repeat case_match; subst; try done. lia. Qed.

Lemma printint_buf_spec xx base sign :
  - 2 ^ 31 ≤ xx < 2 ^ 31 → (base = 10 ∨ base = 16) →
  (length (printint_buf dig xx base sign) ≤ 11)%nat ∧ Forall (λ c, 0 < c < 127) (printint_buf dig xx base sign) ∧
  (sign = false → num_of base (rev (printint_buf dig xx base sign)) = u32 xx) ∧
  (sign = true → base = 10 → signed_of (rev (printint_buf dig xx base sign)) = xx) ∧
  (0 ≤ xx → base = 10 → Forall (λ c, 48 ≤ c ≤ 57) (printint_buf dig xx base sign)).
Proof.
  intros Hx Hb. rw /printint_buf. cbv zeta. set (neg := sign && (xx <? 0)). set (x := if neg then u32 (- xx) else u32 xx).
  assert (0 ≤ x < 2 ^ 32) as Hx32 by (rw /x; destruct neg; apply u32_range).
  assert (2 ≤ base ≤ 16 ∧ 2 ^ 32 ≤ base ^ Z.of_nat 10 ∧ 2 ^ 32 ≤ base ^ Z.of_nat 32) as (Hb1&Hb2&Hb3) by (destruct Hb as [->| ->]; vm_compute; split_and!; congruence).
  pose proof (digits_spec base 32 x Hb1 ltac:(lia) ltac:(lia)) as Hv. pose proof (digits_chars base 32 x Hb1) as Hd.
  pose proof (digits_length base 10 x 32 ltac:(lia) ltac:(lia) ltac:(lia)) as Hl. set (ds := printint_digits dig 32 base x) in *. clearbody ds.
  split_and!.
  - rewrite length_app. destruct neg; simpl; lia.
  - apply Forall_app. split; [eapply Forall_impl; [exact Hd|]; simpl; intros; lia|]. destruct neg; repeat constructor; lia.
  - intros ->. rewrite app_nil_r Hv. done.
  - intros -> ->. rw /neg. simpl. destruct (Z.ltb_spec xx 0) as [Hneg|Hpos].
    + rewrite rev_app_distr. simpl. rewrite Hv /x /neg. simpl. destruct (Z.ltb_spec xx 0); [|lia]. rewrite u32_small; lia.
    + rewrite app_nil_r. rewrite signed_digits; [apply Forall_rev; eapply Forall_impl; [exact Hd|]; simpl; intros; lia|]. rewrite Hv /x /neg. simpl.
      destruct (Z.ltb_spec xx 0); [lia|]. rewrite u32_small; lia.
  - intros H0 ->. rw /neg. destruct (Z.ltb_spec xx 0); [lia|]. rewrite andb_false_r app_nil_r. eapply Forall_impl; [exact Hd|]. simpl. intros c Hc. by apply Hc.
Qed.
End Spec.

(** Decimal digits and no overflow: [atoi] is the value. *)
Lemma atoi_loop_spec l : ∀ n rest, 0 ≤ n → Forall (λ c, 48 ≤ c ≤ 57) l → foldl (λ a c, a * 10 + dval c) n l < 2 ^ 31 →
  (∀ c, head rest = Some c → c < 48 ∨ 57 < c) → atoi_loop (l ++ rest) n = foldl (λ a c, a * 10 + dval c) n l.
Proof.
  induction l as [|c l IH]; intros n rest Hn Hl Hv Hr; cbn [app atoi_loop foldl] in *.
  - destruct rest as [|c rest]; [done|]. cbn [atoi_loop]. specialize (Hr c eq_refl). by destruct (Z.leb_spec 48 c), (Z.leb_spec c 57); try lia.
  - apply Forall_cons in Hl as [Hc Hl]. destruct (Z.leb_spec 48 c); [|lia]. destruct (Z.leb_spec c 57); [|lia]. cbn [andb].
    assert (n * 10 + dval c = n * 10 + c - 48) as Ed by (rw /dval; destruct (Z.ltb_spec c 58); lia). rewrite Ed in Hv |- *.
    assert (∀ m, 0 ≤ m → m ≤ foldl (λ a c, a * 10 + dval c) m l) as Hmono.
    { clear -Hl. induction Hl as [|c l Hc Hl IH]; intros m Hm; simpl; [lia|]. assert (0 ≤ dval c) by (rw /dval; destruct (Z.ltb_spec c 58); lia).
      specialize (IH (m * 10 + dval c)). lia. }
    specialize (Hmono (n * 10 + c - 48)). rewrite s32_small; [lia|]. apply IH; [lia|done|done|done].
Qed.

Lemma atoi_spec l rest : Forall (λ c, 48 ≤ c ≤ 57) l → num_of 10 l < 2 ^ 31 → (∀ c, head rest = Some c → c < 48 ∨ 57 < c) → atoi (l ++ rest) = num_of 10 l.
Proof. intros. by apply atoi_loop_spec. Qed.
