(* ===== verification/CMem.v ===== *)
(** * Byte-addressed memory of the C programs.

    A memory maps addresses to bytes; an address never written reads as 0 (the
    loader clears the bss).  32-bit words are stored little-endian, as on x86.
    The lemmas say how loads see stores; the components that keep their data in
    raw memory (string.c, kalloc.c, vm.c, umalloc.c) are proved with them. *)
From S2P Require Import Prelude.
Local Open Scope Z_scope.

Definition mem : Type := gmap Z Z.

(** A byte is what the low eight bits hold, whatever the map stores. *)
Definition ld8 (m : mem) (a : Z) : Z := u8 (default 0 (m !! a)).
Definition st8 (a v : Z) (m : mem) : mem := <[a := u8 v]> m.

Definition ld32 (m : mem) (a : Z) : Z :=
  ld8 m a + 2 ^ 8 * ld8 m (a + 1) + 2 ^ 16 * ld8 m (a + 2) + 2 ^ 24 * ld8 m (a + 3).
Definition st32 (a v : Z) (m : mem) : mem :=
  st8 (a + 3) (v / 2 ^ 24) (st8 (a + 2) (v / 2 ^ 16)
    (st8 (a + 1) (v / 2 ^ 8) (st8 a v m))).

Lemma ld8_range m a : 0 ≤ ld8 m a < 256.
Proof. apply u8_range. Qed.

Lemma ld32_range m a : 0 ≤ ld32 m a < 2 ^ 32.
Proof.
  pose proof (ld8_range m a). pose proof (ld8_range m (a + 1)).
  pose proof (ld8_range m (a + 2)). pose proof (ld8_range m (a + 3)).
  rw /ld32. lia.
Qed.
#[export] Hint Resolve ld8_range ld32_range : xv6.

Lemma ld8_st8 m a b v :
  ld8 (st8 a v m) b = if decide (a = b) then u8 v else ld8 m b.
Proof.
  rw /ld8 /st8 lookup_insert. case_decide; [|done]. simpl.
  apply u8_small, u8_range.
Qed.
Lemma ld8_st8_eq m a v : ld8 (st8 a v m) a = u8 v.
Proof. rw ld8_st8 decide_True //. Qed.
Lemma ld8_st8_ne m a b v : a ≠ b → ld8 (st8 a v m) b = ld8 m b.
Proof. intros. rw ld8_st8 decide_False //. Qed.

Lemma ld8_st32_ne m a b v : b < a ∨ a + 4 ≤ b → ld8 (st32 a v m) b = ld8 m b.
Proof. intros. rw /st32 !ld8_st8_ne //; lia. Qed.

Lemma u8_split4 v :
  0 ≤ v < 2 ^ 32 →
  u8 v + 2 ^ 8 * u8 (v / 2 ^ 8) + 2 ^ 16 * u8 (v / 2 ^ 16)
    + 2 ^ 24 * u8 (v / 2 ^ 24) = v.
Proof. rw /u8. intros. Z.div_mod_to_equations. lia. Qed.

Lemma ld32_st32_eq m a v : 0 ≤ v < 2 ^ 32 → ld32 (st32 a v m) a = v.
Proof.
  intros. rw /ld32 /st32 !ld8_st8.
  repeat (case_decide; try lia). by apply u8_split4.
Qed.

Lemma ld32_st32_ne m a b v :
  b + 4 ≤ a ∨ a + 4 ≤ b → ld32 (st32 a v m) b = ld32 m b.
Proof. intros. rw /ld32 !ld8_st32_ne //; lia. Qed.

(** Memories that hold the same bytes; the map may differ in bytes that were
    never written and bytes written with 0. *)
#[global] Instance mem_equiv : Equiv mem := λ m1 m2, ∀ a, ld8 m1 a = ld8 m2 a.
#[global] Instance mem_equivalence : Equivalence (≡@{mem}).
Proof.
  split; rw /equiv /mem_equiv.
  - by intros m a.
  - intros m1 m2 H a. by rw H.
  - intros m1 m2 m3 H1 H2 a. by rw H1 H2.
Qed.

#[global] Instance ld8_proper : Proper ((≡@{mem}) ==> eq ==> eq) ld8.
Proof. intros m1 m2 Hm a ? <-. apply Hm. Qed.
#[global] Instance ld32_proper : Proper ((≡@{mem}) ==> eq ==> eq) ld32.
Proof. intros m1 m2 Hm a ? <-. by rw /ld32 !Hm. Qed.
#[global] Instance st8_proper : Proper (eq ==> eq ==> (≡@{mem}) ==> (≡@{mem})) st8.
Proof. intros a ? <- v ? <- m1 m2 Hm b. rw !ld8_st8. by case_decide. Qed.
#[global] Instance st32_proper : Proper (eq ==> eq ==> (≡@{mem}) ==> (≡@{mem})) st32.
Proof. intros a ? <- v ? <- m1 m2 Hm. rw /st32. by repeat apply st8_proper. Qed.

(** The bytes [m[a .. a+n)]. *)
Definition bytes (m : mem) (a : Z) (n : nat) : list Z :=
  (λ i, ld8 m (a + Z.of_nat i)) <$> seq 0 n.

Lemma length_bytes m a n : length (bytes m a n) = n.
Proof. by rw /bytes length_fmap length_seq. Qed.

Lemma lookup_bytes m a n i :
  (i < n)%nat → bytes m a n !! i = Some (ld8 m (a + Z.of_nat i)).
Proof. intros. rw /bytes list_lookup_fmap lookup_seq_lt //. Qed.
