(* ===== verification/Str.v ===== *)
(** * The kernel's memory and string routines (xv6/string.c).

    Every routine is a function from the memory before the call to the memory
    after it (the pointer the C function returns is its first argument), or to
    the integer it returns.  The theorems: [memset] fills exactly its range on
    both code paths, [memmove] is a simultaneous copy whatever the overlap,
    [memcmp] and [strncmp] are the lexicographic comparison, [strncpy] copies and
    pads, [safestrcpy] always terminates its copy inside the buffer. *)
From S2P Require Import Prelude CMem.
Local Open Scope Z_scope.

(** ** Definitions *)

(** [rep stosb] and [rep stosl] with the direction flag clear. *)
Fixpoint stosb (addr data : Z) (cnt : nat) (m : mem) : mem :=
  match cnt with
  | O => m
  | S k => stosb (addr + 1) data k (st8 addr data m)
  end.

Fixpoint stosl (addr data : Z) (cnt : nat) (m : mem) : mem :=
  match cnt with
  | O => m
  | S k => stosl (addr + 4) data k (st32 addr data m)
  end.

Definition memset (dst c n : Z) (m : mem) : mem :=
  if (Z.rem (s32 dst) 4 =? 0) && (n mod 4 =? 0) then
    let c := Z.land c 0xFF in
    stosl dst (Z.lor (Z.lor (Z.lor (Z.shiftl c 24) (Z.shiftl c 16)) (Z.shiftl c 8)) c)
      (Z.to_nat (n / 4)) m
  else stosb dst c (Z.to_nat n) m.

Fixpoint memcmp_loop (m : mem) (s1 s2 : Z) (n : nat) : Z :=
  match n with
  | O => 0
  | S k =>
      if negb (ld8 m s1 =? ld8 m s2) then ld8 m s1 - ld8 m s2
      else memcmp_loop m (s1 + 1) (s2 + 1) k
  end.
Definition memcmp (m : mem) (v1 v2 n : Z) : Z := memcmp_loop m v1 v2 (Z.to_nat n).

(** [while(n-- > 0) *d++ = *s++;] *)
Fixpoint copy_fwd (d s : Z) (n : nat) (m : mem) : mem :=
  match n with
  | O => m
  | S k => copy_fwd (d + 1) (s + 1) k (st8 d (ld8 m s) m)
  end.

(** [while(n-- > 0) *--d = *--s;], entered with both pointers past the end. *)
Fixpoint copy_bwd (d s : Z) (n : nat) (m : mem) : mem :=
  match n with
  | O => m
  | S k => copy_bwd (d - 1) (s - 1) k (st8 (d - 1) (ld8 m (s - 1)) m)
  end.

Definition memmove (dst src n : Z) (m : mem) : mem :=
  if (src <? dst) && (dst <? src + n) then
    copy_bwd (dst + n) (src + n) (Z.to_nat n) m
  else copy_fwd dst src (Z.to_nat n) m.

Definition memcpy (dst src n : Z) (m : mem) : mem := memmove dst src n m.

Fixpoint strncmp_loop (m : mem) (p q : Z) (n : nat) : Z :=
  match n with
  | O => 0
  | S k =>
      if negb (ld8 m p =? 0) && (ld8 m p =? ld8 m q) then
        strncmp_loop m (p + 1) (q + 1) k
      else ld8 m p - ld8 m q
  end.
Definition strncmp (m : mem) (p q n : Z) : Z := strncmp_loop m p q (Z.to_nat n).

(** First loop of [strncpy]; returns the advanced [s] and the remaining count. *)
Fixpoint strncpy_copy (s t : Z) (n : nat) (m : mem) : mem * Z * nat :=
  match n with
  | O => (m, s, O)
  | S k =>
      let c := ld8 m t in
      let m' := st8 s c m in
      if c =? 0 then (m', s + 1, k) else strncpy_copy (s + 1) (t + 1) k m'
  end.

Fixpoint strncpy_pad (s : Z) (n : nat) (m : mem) : mem :=
  match n with
  | O => m
  | S k => strncpy_pad (s + 1) k (st8 s 0 m)
  end.

Definition strncpy (s t n : Z) (m : mem) : mem :=
  let '(m', s', k) := strncpy_copy s t (Z.to_nat n) m in strncpy_pad s' k m'.

Fixpoint safestrcpy_copy (s t : Z) (n : nat) (m : mem) : mem * Z :=
  match n with
  | O => (m, s)
  | S k =>
      let c := ld8 m t in
      let m' := st8 s c m in
      if c =? 0 then (m', s + 1) else safestrcpy_copy (s + 1) (t + 1) k m'
  end.

Definition safestrcpy (s t n : Z) (m : mem) : mem :=
  if n <=? 0 then m
  else let '(m', s') := safestrcpy_copy s t (Z.to_nat (n - 1)) m in st8 s' 0 m'.

(** [strlen] reads until the first NUL; [fuel] bounds the search. *)
Fixpoint strlen_loop (m : mem) (s n : Z) (fuel : nat) : option Z :=
  match fuel with
  | O => None
  | S k => if ld8 m (s + n) =? 0 then Some n else strlen_loop m s (n + 1) k
  end.
Definition strlen (m : mem) (s : Z) (fuel : nat) : option Z := strlen_loop m s 0 fuel.

(** ** Reference notions *)

(** The C string at [p], read up to its NUL and at most [n] bytes. *)
Fixpoint cstrn (m : mem) (p : Z) (n : nat) : list Z :=
  match n with
  | O => []
  | S k => if ld8 m p =? 0 then [] else ld8 m p :: cstrn m (p + 1) k
  end.

(** Difference of the first bytes that differ, a missing byte counting as 0. *)
Fixpoint lexdiff (l1 l2 : list Z) : Z :=
  match l1, l2 with
  | [], [] => 0
  | [], y :: _ => - y
  | x :: _, [] => x
  | x :: l1', y :: l2' => if x =? y then lexdiff l1' l2' else x - y
  end.

(** ** memset *)

Lemma ld8_stosb a d k m b :
  ld8 (stosb a d k m) b =
  if decide (a ≤ b < a + Z.of_nat k) then u8 d else ld8 m b.
Proof.
  revert a m. induction k as [|k IH]; intros a m; simpl.
  - rw decide_False; [lia|done].
  - rw IH ld8_st8. repeat case_decide; try lia; done.
Qed.

Lemma ld8_stosl a c k m b w :
  (∀ i, 0 ≤ i < 4 → u8 (w / 2 ^ (8 * i)) = c) →
  ld8 (stosl a w k m) b =
  if decide (a ≤ b < a + 4 * Z.of_nat k) then c else ld8 m b.
Proof.
  intros Hw.
  pose proof (Hw 0 ltac:(lia)) as H0. rw Z.div_1_r in H0.
  pose proof (Hw 1 ltac:(lia)) as H1.
  pose proof (Hw 2 ltac:(lia)) as H2. pose proof (Hw 3 ltac:(lia)) as H3.
  revert a m. induction k as [|k IH]; intros a m; cbn [stosl].
  - rw decide_False; [lia|done].
  - rw IH. destruct (decide (a ≤ b < a + 4)).
    + rw decide_False; [lia|]. rw decide_True; [lia|].
      rw /st32 !ld8_st8. repeat case_decide; try done. lia.
    + rw ld8_st32_ne; [lia|]. repeat case_decide; try lia; done.
Qed.

Lemma splat_byte c :
  0 ≤ c < 256 →
  Forall (λ i, u8 (Z.lor (Z.lor (Z.lor (Z.shiftl c 24) (Z.shiftl c 16)) (Z.shiftl c 8)) c
                     / 2 ^ (8 * i)) = c) (range 0 4).
Proof.
  intros Hc. apply elem_of_range in Hc. revert c Hc. rw -Forall_forall.
  apply (bool_decide_unpack _). vm_compute. exact I.
Qed.

Lemma land_255 c : Z.land c 0xFF = u8 c.
Proof. change 0xFF with (Z.ones 8). by rw Z.land_ones. Qed.

Lemma ld8_memset dst c n m b :
  0 ≤ n →
  ld8 (memset dst c n m) b =
  if decide (dst ≤ b < dst + n) then u8 c else ld8 m b.
Proof.
  intros Hn. rw /memset. destruct (_ && _) eqn:Hal.
  - apply andb_prop in Hal as [_ Hn4%Z.eqb_eq].
    rw land_255 (ld8_stosl _ (u8 c)).
    { pose proof (splat_byte (u8 c) (u8_range c)) as HF.
      intros i Hi. rw Forall_forall in HF. by apply HF, elem_of_range. }
    replace (4 * Z.of_nat (Z.to_nat (n / 4))) with n; [done|].
    Z.div_mod_to_equations. lia.
  - rw ld8_stosb. by replace (Z.of_nat (Z.to_nat n)) with n by lia.
Qed.

Lemma ld32_memset dst c n m a :
  0 ≤ n → a + 4 ≤ dst ∨ dst + n ≤ a → ld32 (memset dst c n m) a = ld32 m a.
Proof.
  intros Hn Ha. rw /ld32 !ld8_memset //.
  repeat (rw decide_False; [lia|]). done.
Qed.

Lemma ld32_memset0 dst n m a :
  0 ≤ n → dst ≤ a → a + 4 ≤ dst + n → ld32 (memset dst 0 n m) a = 0.
Proof.
  intros Hn Ha Hb. rw /ld32 !ld8_memset //.
  repeat (rw decide_True; [lia|]). done.
Qed.

(** ** memmove *)

Lemma ld8_copy_fwd d s k m b :
  d ≤ s ∨ s + Z.of_nat k ≤ d →
  ld8 (copy_fwd d s k m) b =
  if decide (d ≤ b < d + Z.of_nat k) then ld8 m (s + (b - d)) else ld8 m b.
Proof.
  revert d s m. induction k as [|k IH]; intros d s m Hds; simpl.
  - rw decide_False; [lia|done].
  - rw IH; [lia|]. destruct (decide (b = d)) as [->|].
    + rw decide_False; [lia|]. rw decide_True; [lia|].
      rw ld8_st8_eq u8_small; [apply ld8_range|]. f_equal; lia.
    + repeat case_decide; try lia.
      * rw ld8_st8_ne; [lia|]. f_equal; lia.
      * rw ld8_st8_ne; [lia|done].
Qed.

Lemma ld8_copy_bwd d s k m b :
  s ≤ d →
  ld8 (copy_bwd d s k m) b =
  if decide (d - Z.of_nat k ≤ b < d) then ld8 m (s - (d - b)) else ld8 m b.
Proof.
  revert d s m. induction k as [|k IH]; intros d s m Hds; simpl.
  - rw decide_False; [lia|done].
  - rw IH; [lia|]. destruct (decide (b = d - 1)) as [->|].
    + rw decide_False; [lia|]. rw decide_True; [lia|].
      rw ld8_st8_eq u8_small; [apply ld8_range|]. f_equal; lia.
    + repeat case_decide; try lia.
      * rw ld8_st8_ne; [lia|]. f_equal; lia.
      * rw ld8_st8_ne; [lia|done].
Qed.

Lemma ld8_memmove dst src n m b :
  0 ≤ n →
  ld8 (memmove dst src n m) b =
  if decide (dst ≤ b < dst + n) then ld8 m (src + (b - dst)) else ld8 m b.
Proof.
  intros Hn. rw /memmove. destruct (_ && _) eqn:Hov.
  - apply andb_prop in Hov as [?%Z.ltb_lt ?%Z.ltb_lt].
    rw ld8_copy_bwd; [lia|]. replace (Z.of_nat (Z.to_nat n)) with n by lia.
    repeat case_decide; try lia. f_equal; lia.
  - apply andb_false_iff in Hov as [?%Z.ltb_ge|?%Z.ltb_ge];
      (rw ld8_copy_fwd; [lia|]); by replace (Z.of_nat (Z.to_nat n)) with n by lia.
Qed.

(** ** Comparison *)

Lemma length_cstrn m p n : (length (cstrn m p n) ≤ n)%nat.
Proof.
  revert p. induction n as [|n IH]; intros p; simpl; [lia|].
  case_match; simpl; [lia|]. specialize (IH (p + 1)). lia.
Qed.

Lemma cstrn_nonzero m p n : Forall (λ c, 0 < c < 256) (cstrn m p n).
Proof.
  revert p. induction n as [|n IH]; intros p; simpl; [constructor|].
  destruct (Z.eqb_spec (ld8 m p) 0); constructor; [|apply IH].
  pose proof (ld8_range m p). lia.
Qed.

Lemma strncmp_loop_lexdiff m p q n :
  strncmp_loop m p q n = lexdiff (cstrn m p n) (cstrn m q n).
Proof.
  revert p q. induction n as [|n IH]; intros p q; simpl; [done|].
  destruct (Z.eqb_spec (ld8 m p) 0) as [->|Hp]; simpl.
  - destruct (Z.eqb_spec (ld8 m q) 0) as [->|]; simpl; lia.
  - destruct (Z.eqb_spec (ld8 m q) 0) as [->|Hq]; simpl.
    + destruct (Z.eqb_spec (ld8 m p) 0); lia.
    + destruct (Z.eqb_spec (ld8 m p) (ld8 m q)); [apply IH|done].
Qed.

Lemma lexdiff_eq0 l1 l2 :
  Forall (λ c, 0 < c < 256) l1 → Forall (λ c, 0 < c < 256) l2 →
  lexdiff l1 l2 = 0 ↔ l1 = l2.
Proof.
  intros H1. revert l2. induction H1 as [|x l1 Hx _ IH]; intros l2 H2.
  - destruct H2 as [|y l2 Hy _]; simpl; [done|]. split; [lia|done].
  - destruct H2 as [|y l2 Hy H2]; simpl; [split; [lia|done]|].
    destruct (Z.eqb_spec x y) as [->|].
    + rw IH //. split; [by intros ->|by intros [=]].
    + split; [lia|by intros [=]].
Qed.

Lemma memcmp_loop_bytes m s1 s2 n :
  memcmp_loop m s1 s2 n = lexdiff (bytes m s1 n) (bytes m s2 n).
Proof.
  revert s1 s2. induction n as [|n IH]; intros s1 s2; [done|].
  rw /bytes. cbn [seq fmap list_fmap lexdiff memcmp_loop]. rw !Z.add_0_r.
  destruct (Z.eqb_spec (ld8 m s1) (ld8 m s2)); [|done]. simpl. rw IH.
  f_equal; rw /bytes -fmap_S_seq -list_fmap_compose; apply list_fmap_ext;
    intros; simpl; f_equal; lia.
Qed.

(** ** Copying strings *)

Lemma ld8_strncpy_pad s k m b :
  ld8 (strncpy_pad s k m) b =
  if decide (s ≤ b < s + Z.of_nat k) then 0 else ld8 m b.
Proof.
  revert s m. induction k as [|k IH]; intros s m; simpl.
  - rw decide_False; [lia|done].
  - rw IH ld8_st8. repeat case_decide; try lia; done.
Qed.

(** Bytes at or past [t] do not see stores below [s + n] when the buffers are
    apart. *)
Definition apart (s t : Z) (n : nat) : Prop :=
  s + Z.of_nat n ≤ t ∨ t + Z.of_nat n ≤ s.

Lemma cstrn_st8 m a v t n :
  a < t ∨ t + Z.of_nat n ≤ a → cstrn (st8 a v m) t n = cstrn m t n.
Proof.
  revert t. induction n as [|n IH]; intros t Ha; simpl; [done|].
  rw ld8_st8_ne; [lia|]. rw IH //. lia.
Qed.

Lemma strncpy_copy_spec s t n m m' s' k :
  strncpy_copy s t n m = (m', s', k) → apart s t n →
  let l := cstrn m t n in
  (s' = s + Z.of_nat (n - k) ∧ (k ≤ n)%nat ∧ (n - k)%nat = Nat.min n (S (length l))) ∧
  ∀ b, ld8 m' b = if decide (s ≤ b < s + Z.of_nat (n - k))
                  then default 0 (l !! Z.to_nat (b - s)) else ld8 m b.
Proof.
  revert s t m. induction n as [|n IH]; intros s t m; simpl.
  - intros [= <- <- <-] _. split; [split_and!; simpl; lia|].
    intros b. rw decide_False; [lia|done].
  - destruct (Z.eqb_spec (ld8 m t) 0) as [Ht|Ht].
    + intros [= <- <- <-] _. split; [split_and!; simpl; lia|].
      intros b. rw ld8_st8 Ht. repeat case_decide; (lia || done).
    + intros Hc Hap. apply IH in Hc as [(->&Hk&Hmin) Hb]; [|rw /apart in Hap |- *; lia].
      rw cstrn_st8 in Hmin Hb; [rw /apart in Hap; lia|]. simpl in *.
      split; [split_and!; lia|]. intros b. rw Hb ld8_st8.
      destruct (decide (b = s)) as [->|].
      * rw decide_False; [lia|]. rw decide_True //. rw decide_True; [lia|].
        rw Z.sub_diag /=. apply u8_small, ld8_range.
      * rw (decide_False (P := s = b)); [lia|].
        repeat case_decide; try lia.
        by replace (Z.to_nat (b - s)) with (S (Z.to_nat (b - (s + 1)))) by lia.
Qed.

Lemma ld8_strncpy s t n m b :
  0 ≤ n → apart s t (Z.to_nat n) →
  ld8 (strncpy s t n m) b =
  if decide (s ≤ b < s + n)
  then default 0 (cstrn m t (Z.to_nat n) !! Z.to_nat (b - s)) else ld8 m b.
Proof.
  intros Hn Hap. rw /strncpy.
  destruct (strncpy_copy s t (Z.to_nat n) m) as [[m' s'] k] eqn:Hc.
  apply strncpy_copy_spec in Hc as [(->&Hk&Hmin) Hb]; [|done].
  rw ld8_strncpy_pad Hb.
  repeat case_decide; try (lia || done).
  rw lookup_ge_None_2 //. lia.
Qed.

Lemma safestrcpy_copy_spec s t n m m' s' :
  safestrcpy_copy s t n m = (m', s') → apart s t n →
  let l := cstrn m t n in
  s' = s + Z.of_nat (Nat.min n (S (length l))) ∧
  ∀ b, ld8 m' b = if decide (s ≤ b < s')
                  then default 0 (l !! Z.to_nat (b - s)) else ld8 m b.
Proof.
  intros Hc Hap.
  assert (∃ k, strncpy_copy s t n m = (m', s', k)) as [k Hk].
  { clear Hap. revert s t m Hc. induction n as [|n IH]; intros s t m; simpl.
    - intros [= <- <-]. eauto.
    - case_match; [intros [= <- <-]; eauto|apply IH]. }
  apply strncpy_copy_spec in Hk as [(->&Hk&Hmin) Hb]; [|done].
  cbv zeta. by rw -Hmin.
Qed.

Lemma ld8_safestrcpy s t n m b :
  0 < n → apart s t (Z.to_nat n) →
  let l := cstrn m t (Z.to_nat (n - 1)) in
  let len := Z.of_nat (length l) in
  (s ≤ b < s + len → l !! Z.to_nat (b - s) = Some (ld8 (safestrcpy s t n m) b)) ∧
  (b = s + len → ld8 (safestrcpy s t n m) b = 0) ∧
  (b < s ∨ s + n ≤ b → ld8 (safestrcpy s t n m) b = ld8 m b).
Proof.
  intros Hn Hap. cbv zeta. rw /safestrcpy.
  destruct (Z.leb_spec n 0); [lia|].
  destruct (safestrcpy_copy s t (Z.to_nat (n - 1)) m) as [m' s'] eqn:Hc.
  apply safestrcpy_copy_spec in Hc as [-> Hb]; [|rw /apart in Hap |- *; lia].
  pose proof (length_cstrn m t (Z.to_nat (n - 1))).
  set (l := cstrn m t (Z.to_nat (n - 1))) in *.
  rw ld8_st8 Hb. split_and!; intros.
  - rw decide_False; [lia|]. rw decide_True; [lia|].
    destruct (l !! Z.to_nat (b - s)) eqn:E; [done|].
    apply lookup_ge_None in E. lia.
  - case_decide; [done|]. rw decide_True; [lia|].
    rw lookup_ge_None_2 //. lia.
  - rw !decide_False //; lia.
Qed.

Lemma strlen_loop_spec m s n k fuel :
  (k < fuel)%nat → (∀ i, n ≤ i < n + Z.of_nat k → ld8 m (s + i) ≠ 0) →
  ld8 m (s + (n + Z.of_nat k)) = 0 → strlen_loop m s n fuel = Some (n + Z.of_nat k).
Proof.
  revert n k. induction fuel as [|fuel IH]; intros n k Hf Hnz Hz; [lia|]. simpl.
  destruct k as [|k].
  - rw Z.add_0_r in Hz. rw Hz Z.add_0_r //.
  - destruct (Z.eqb_spec (ld8 m (s + n)) 0) as [E|_]; [by apply Hnz in E; [|lia]|].
    rw (IH (n + 1) k); [lia| |by rw -Hz; do 2 f_equal; lia|f_equal; lia].
    intros i Hi. apply Hnz. lia.
Qed.

(** ** Main results *)

(** The fast word path and the byte path of [memset] agree: exactly the [n]
    bytes at [dst] become the low byte of [c], no other byte changes. *)
Theorem memset_spec dst c n m :
  0 ≤ n →
  bytes (memset dst c n m) dst (Z.to_nat n) = replicate (Z.to_nat n) (u8 c) ∧
  ∀ b, b < dst ∨ dst + n ≤ b → ld8 (memset dst c n m) b = ld8 m b.
Proof.
  intros Hn. split.
  - apply list_eq_same_length with (Z.to_nat n);
      rw ?length_bytes ?length_replicate //.
    intros i x y Hi. rw lookup_bytes // lookup_replicate ld8_memset //.
    rw decide_True; [lia|]. by intros [= <-] [-> _].
  - intros b Hb. rw ld8_memset //. rw decide_False //. lia.
Qed.

(** [memmove] copies correctly whatever the overlap of its two areas: the
    destination gets the bytes the source had before the call, and nothing outside
    the destination changes. *)
Theorem memmove_spec dst src n m :
  0 ≤ n →
  bytes (memmove dst src n m) dst (Z.to_nat n) = bytes m src (Z.to_nat n) ∧
  ∀ b, b < dst ∨ dst + n ≤ b → ld8 (memmove dst src n m) b = ld8 m b.
Proof.
  intros Hn. split.
  - apply list_eq_same_length with (Z.to_nat n); rw ?length_bytes //.
    intros i x y Hi. rw !lookup_bytes // ld8_memmove //.
    rw decide_True; [lia|]. intros [= <-] [= <-]. f_equal; lia.
  - intros b Hb. rw ld8_memmove //. rw decide_False //. lia.
Qed.

(** [strncmp] is the difference of the first differing bytes of the two strings
    cut at [n]; it is 0 exactly when those strings are equal. *)
Theorem strncmp_spec m p q n :
  strncmp m p q n = lexdiff (cstrn m p (Z.to_nat n)) (cstrn m q (Z.to_nat n)) ∧
  (strncmp m p q n = 0 ↔ cstrn m p (Z.to_nat n) = cstrn m q (Z.to_nat n)).
Proof.
  rw /strncmp strncmp_loop_lexdiff. split; [done|].
  apply lexdiff_eq0; apply cstrn_nonzero.
Qed.

Lemma cstrn_of_bytes m p n l :
  Forall (λ c, c ≠ 0) l → (length l ≤ n)%nat →
  (∀ i, (i < length l)%nat → l !! i = Some (ld8 m (p + Z.of_nat i))) →
  ((length l < n)%nat → ld8 m (p + Z.of_nat (length l)) = 0) →
  cstrn m p n = l.
Proof.
  intros Hl. revert p n. induction Hl as [|c l Hc _ IH]; intros p n Hn Hi Hz.
  - destruct n as [|n]; [done|]. simpl in *.
    rw Z.add_0_r in Hz. rw Hz //. lia.
  - destruct n as [|n]; simpl in *; [lia|].
    pose proof (Hi 0%nat ltac:(lia)) as H0. simpl in H0. rw Z.add_0_r in H0.
    injection H0 as H0. rw -H0. destruct (Z.eqb_spec c 0); [done|]. f_equal.
    apply IH; [lia| |].
    + intros i Hl. pose proof (Hi (S i) ltac:(lia)) as HSi. simpl in HSi.
      rw HSi. do 2 f_equal. lia.
    + intros Hl. rw -Hz; [lia|]. f_equal; lia.
Qed.

(** Reading back what [strncpy] wrote gives the source string cut at [n]; the
    rest of the [n] bytes are zero and no other byte changes. *)
Theorem strncpy_spec s t n m :
  0 ≤ n → apart s t (Z.to_nat n) →
  cstrn (strncpy s t n m) s (Z.to_nat n) = cstrn m t (Z.to_nat n) ∧
  (∀ b, s + Z.of_nat (length (cstrn m t (Z.to_nat n))) ≤ b < s + n →
        ld8 (strncpy s t n m) b = 0) ∧
  ∀ b, b < s ∨ s + n ≤ b → ld8 (strncpy s t n m) b = ld8 m b.
Proof.
  intros Hn Hap. pose proof (length_cstrn m t (Z.to_nat n)) as Hlen.
  split_and!.
  - apply cstrn_of_bytes; [|done| |].
    + eapply Forall_impl; [apply cstrn_nonzero|]. simpl; lia.
    + intros i Hi. rw ld8_strncpy //. rw decide_True; [lia|].
      replace (Z.to_nat (s + Z.of_nat i - s)) with i by lia.
      apply lookup_lt_is_Some in Hi as [x ->]. done.
    + intros Hi. rw ld8_strncpy //. rw decide_True; [lia|].
      rw lookup_ge_None_2 //. lia.
  - intros b Hb. rw ld8_strncpy //. rw decide_True; [lia|].
    rw lookup_ge_None_2 //. lia.
  - intros b Hb. rw ld8_strncpy //. rw decide_False //. lia.
Qed.

(** [safestrcpy] always terminates its copy: reading it back gives the source
    cut at [n - 1], inside the [n] bytes of the destination. *)
Theorem safestrcpy_spec s t n m :
  0 < n → apart s t (Z.to_nat n) →
  cstrn (safestrcpy s t n m) s (Z.to_nat n) = cstrn m t (Z.to_nat (n - 1)) ∧
  ∀ b, b < s ∨ s + n ≤ b → ld8 (safestrcpy s t n m) b = ld8 m b.
Proof.
  intros Hn Hap. pose proof (length_cstrn m t (Z.to_nat (n - 1))) as Hlen. split.
  - apply cstrn_of_bytes; [|lia| |].
    + eapply Forall_impl; [apply cstrn_nonzero|]. simpl; lia.
    + intros i Hi.
      destruct (ld8_safestrcpy s t n m (s + Z.of_nat i) Hn Hap) as [Hs _].
      rw -Hs; [lia|]. f_equal; lia.
    + intros Hi. by apply ld8_safestrcpy.
  - intros b Hb. by apply ld8_safestrcpy.
Qed.

(** [strlen] returns the index of the first zero byte. *)
Theorem strlen_spec m s k fuel :
  (k < fuel)%nat → (∀ i, 0 ≤ i < Z.of_nat k → ld8 m (s + i) ≠ 0) →
  ld8 m (s + Z.of_nat k) = 0 → strlen m s fuel = Some (Z.of_nat k).
Proof.
  intros Hf Hnz Hz. rw /strlen (strlen_loop_spec m s 0 k) //.
Qed.

(** ** Witnesses *)

(** The string "ab" at address 100. *)
Definition demo_str : mem := st8 100 97 (st8 101 98 ∅).

Lemma memset_spec_witness : bytes (memset 8 0x141 8 ∅) 8 8 = replicate 8 0x41.
Proof.
  destruct (memset_spec 8 0x141 8 ∅) as [H _]; [lia|]. exact H.
Defined.

Lemma memmove_spec_witness : bytes (memmove 101 100 2 demo_str) 101 2 = [97; 98].
Proof.
  destruct (memmove_spec 101 100 2 demo_str) as [H _]; [lia|]. exact H.
Defined.

Lemma strncpy_spec_witness : cstrn (strncpy 200 100 14 demo_str) 200 14 = [97; 98].
Proof.
  destruct (strncpy_spec 200 100 14 demo_str) as [H _]; [lia|right; simpl; lia|]. exact H.
Defined.

Lemma safestrcpy_spec_witness : cstrn (safestrcpy 200 100 2 demo_str) 200 2 = [97].
Proof.
  destruct (safestrcpy_spec 200 100 2 demo_str) as [H _]; [lia|right; simpl; lia|]. exact H.
Defined.
