(* ===== verification/Spinlock.v ===== *)
(** * Spin locks and interrupt nesting (xv6/spinlock.c, [mycpu] of xv6/proc.c).

    The first part runs the C routines on the state of one machine: per-CPU
    [ncli], [intena] and interrupt flag, and the lock words.  The second part is
    the instruction-level step relation of several CPUs contending for a lock,
    with mutual exclusion.  The last part is the view of locks the rest of the
    kernel is modelled with: the list of locks the running kernel thread holds.
    The theorems: [pushcli]/[popcli] nest, [acquire]/[release] restore the CPU and
    keep interrupts off in between, two CPUs are never in the critical section
    together, and the held-locks view is simulated by the C routines. *)
From S2P Require Import Prelude CMem.
Local Open Scope Z_scope.

Definition FL_IF : Z := 0x200.
Definition KERNBASE : Z := 0x80000000.

(** ** Per-CPU and lock state *)

(** [eflags] is the CPU's flags register; only its interrupt bit is used. *)
Record cpu := Cpu { apicid : Z; ncli : Z; intena : Z; eflags : Z }.

Record spinlock := Spin {
  locked : Z;
  lk_name : string;
  lk_cpu : option nat;      (* index in [cpus] of the holder; [None] is the null pointer *)
  pcs : list Z
}.

Record machine := Machine { cpus : list cpu; locks : gmap string spinlock }.

Definition set_cpu (i : nat) (c : cpu) (s : machine) : machine :=
  Machine (<[i := c]> (cpus s)) (locks s).
Definition set_lock (l : string) (k : spinlock) (s : machine) : machine :=
  Machine (cpus s) (<[l := k]> (locks s)).

Definition initlock (l : string) (name : string) : K machine unit := λ s,
  let old := default (Spin 0 "" None []) (locks s !! l) in
  Ret tt (set_lock l (Spin 0 name None (pcs old)) s).

(** Follow the saved frame pointers from the argument's address [v]. *)
Fixpoint getcallerpcs_loop (m : mem) (ebp : Z) (n : nat) : list Z :=
  match n with
  | O => []
  | S k =>
      if (ebp =? 0) || (ebp <? KERNBASE) || (ebp =? 0xffffffff) then []
      else ld32 m (ebp + 4) :: getcallerpcs_loop m (ld32 m ebp) k
  end.
Definition getcallerpcs (m : mem) (v : Z) : list Z :=
  let l := getcallerpcs_loop m (v - 8) 10 in l ++ replicate (10 - length l) 0.

Section Running.
(** [me] is the CPU that executes; [callers] what [getcallerpcs] finds on its
    stack. *)
Variable me : nat.
Variable callers : list Z.

Definition readeflags : K machine Z := λ s,
  match cpus s !! me with Some c => Ret (eflags c) s | None => Undef "no cpu" end.
Definition set_if (b : bool) : K machine unit := λ s,
  match cpus s !! me with
  | Some c =>
      let f := if b then Z.lor (eflags c) FL_IF else Z.land (eflags c) (Z.lnot FL_IF) in
      Ret tt (set_cpu me (Cpu (apicid c) (ncli c) (intena c) f) s)
  | None => Undef "no cpu"
  end.
Definition cli : K machine unit := set_if false.
Definition sti : K machine unit := set_if true.

(** The local APIC reports the identifier of the CPU that reads it. *)
Definition lapicid : K machine Z := λ s,
  match cpus s !! me with Some c => Ret (apicid c) s | None => Undef "no cpu" end.

Definition mycpu : K machine nat :=
  f ← readeflags;
  if negb (Z.land f FL_IF =? 0) then panic "mycpu called with interrupts enabled"
  else
    a ← lapicid;
    s ← get;
    match list_find (λ c, apicid c = a) (cpus s) with
    | Some (i, _) => mret i
    | None => panic "unknown apicid"
    end.

Definition cpu_at (i : nat) : K machine cpu := λ s,
  match cpus s !! i with Some c => Ret c s | None => Undef "no cpu" end.

Definition pushcli : K machine unit :=
  f ← readeflags;
  _ ← cli;
  i ← mycpu;
  c ← cpu_at i;
  _ ← when (ncli c =? 0)
        (modify (set_cpu i (Cpu (apicid c) (ncli c) (Z.land f FL_IF) (eflags c))));
  i ← mycpu;
  c ← cpu_at i;
  modify (set_cpu i (Cpu (apicid c) (ncli c + 1) (intena c) (eflags c))).

Definition popcli : K machine unit :=
  f ← readeflags;
  if negb (Z.land f FL_IF =? 0) then panic "popcli - interruptible"
  else
    i ← mycpu;
    c ← cpu_at i;
    _ ← modify (set_cpu i (Cpu (apicid c) (ncli c - 1) (intena c) (eflags c)));
    if ncli c - 1 <? 0 then panic "popcli"
    else
      i ← mycpu;
      c ← cpu_at i;
      when ((ncli c =? 0) && negb (intena c =? 0)) sti.

Definition lock_at (l : string) : K machine spinlock := λ s,
  match locks s !! l with Some k => Ret k s | None => Undef "no lock" end.

Definition holding (l : string) : K machine bool :=
  _ ← pushcli;
  k ← lock_at l;
  i ← mycpu;
  let r := negb (locked k =? 0) && bool_decide (lk_cpu k = Some i) in
  _ ← popcli;
  mret r.

(** The spin loop ends when [xchg] reads 0; a CPU that reads 1 waits for the
    holder on another CPU. *)
Definition acquire (l : string) : K machine unit :=
  _ ← pushcli;
  h ← holding l;
  if (h : bool) then panic "acquire"
  else
    k ← lock_at l;
    _ ← modify (set_lock l (Spin 1 (lk_name k) (lk_cpu k) (pcs k)));
    if negb (locked k =? 0) then sleeps "spinning"
    else
      i ← mycpu;
      modify (set_lock l (Spin 1 (lk_name k) (Some i) callers)).

Definition release (l : string) : K machine unit :=
  h ← holding l;
  if negb h then panic "release"
  else
    k ← lock_at l;
    _ ← modify (set_lock l (Spin (locked k) (lk_name k) None (<[0%nat := 0]> (pcs k))));
    _ ← modify (λ s, match locks s !! l with
                     | Some k => set_lock l (Spin 0 (lk_name k) (lk_cpu k) (pcs k)) s
                     | None => s
                     end);
    popcli.

End Running.

(** ** Nesting of pushcli and popcli *)

Definition if_off (c : cpu) : Prop := Z.land (eflags c) FL_IF = 0.

(** CPUs have distinct APIC identifiers, and a CPU with a positive nesting depth
    runs with interrupts off. *)
Definition machine_wf (s : machine) : Prop :=
  NoDup (apicid <$> cpus s) ∧
  Forall (λ c, 0 ≤ ncli c ∧ (0 < ncli c → if_off c)) (cpus s).

Lemma if_off_clear f : Z.land (Z.land f (Z.lnot FL_IF)) FL_IF = 0.
Proof. by rw -Z.land_assoc (Z.land_comm (Z.lnot _)) Z.land_lnot_diag Z.land_0_r. Qed.

Lemma clear_if_off f : Z.land f FL_IF = 0 → Z.land f (Z.lnot FL_IF) = f.
Proof.
  intros H. apply Z.bits_inj'. intros n Hn.
  rw Z.land_spec Z.lnot_spec //.
  apply (f_equal (λ z, Z.testbit z n)) in H. rw Z.land_spec Z.bits_0 in H.
  destruct (Z.testbit f n), (Z.testbit FL_IF n); done.
Qed.

Lemma set_clear_if f : Z.land f FL_IF ≠ 0 → Z.lor (Z.land f (Z.lnot FL_IF)) FL_IF = f.
Proof.
  intros H. assert (Z.testbit f 9 = true) as H9.
  { destruct (Z.testbit f 9) eqn:E; [done|]. exfalso. apply H.
    apply Z.bits_inj'. intros n Hn. rw Z.land_spec Z.bits_0 /FL_IF.
    change 0x200 with (2 ^ 9). rw Z.pow2_bits_eqb //.
    destruct (Z.eqb_spec 9 n) as [<-|]; [by rw E|by rw andb_false_r]. }
  apply Z.bits_inj'. intros n Hn.
  rw Z.lor_spec Z.land_spec Z.lnot_spec // /FL_IF.
  change 0x200 with (2 ^ 9). rw Z.pow2_bits_eqb //.
  destruct (Z.eqb_spec 9 n) as [<-|]; [by rw H9|].
  by rw andb_true_r orb_false_r.
Qed.

Section RunningFacts.
Variable me : nat.
Implicit Types (s : machine) (c : cpu).

Lemma set_cpu_lookup s c c' :
  cpus s !! me = Some c → cpus (set_cpu me c' s) !! me = Some c'.
Proof. intros ?%lookup_lt_Some. by apply list_lookup_insert_eq. Qed.

Lemma set_cpu_twice s c c' : set_cpu me c' (set_cpu me c s) = set_cpu me c' s.
Proof. rw /set_cpu /=. by rw list_insert_insert_eq. Qed.

Lemma set_cpu_apicids s c c' :
  cpus s !! me = Some c → apicid c' = apicid c →
  apicid <$> cpus (set_cpu me c' s) = apicid <$> cpus s.
Proof.
  intros Hc Ha. simpl. rw list_fmap_insert Ha. apply list_insert_id.
  by rw list_lookup_fmap Hc.
Qed.

Lemma mycpu_me s c :
  NoDup (apicid <$> cpus s) → cpus s !! me = Some c → if_off c →
  mycpu me s = Ret me s.
Proof.
  intros Hnd Hc Hoff.
  rw /mycpu /readeflags /lapicid /get /mbind /K_bind /mret /K_ret Hc Hoff /= Hc.
  destruct (list_find _ _) as [[i c']|] eqn:E.
  - apply list_find_Some in E as (Hi&Ha&_).
    assert (i = me) as ->; [|done].
    eapply NoDup_lookup; [exact Hnd|..]; rw list_lookup_fmap.
    + by rw Hi.
    + by rw Hc /= Ha.
  - apply list_find_None in E. exfalso.
    eapply Forall_lookup_1 in E; [|exact Hc]. by apply E.
Qed.

Definition pushed c : cpu :=
  Cpu (apicid c) (ncli c + 1)
    (if ncli c =? 0 then Z.land (eflags c) FL_IF else intena c)
    (Z.land (eflags c) (Z.lnot FL_IF)).

Definition popped c : cpu :=
  Cpu (apicid c) (ncli c - 1) (intena c)
    (if (ncli c - 1 =? 0) && negb (intena c =? 0) then Z.lor (eflags c) FL_IF
     else eflags c).

Lemma pushcli_run s c :
  NoDup (apicid <$> cpus s) → cpus s !! me = Some c →
  pushcli me s = Ret tt (set_cpu me (pushed c) s).
Proof.
  intros Hnd Hc. rw /pushcli.
  rw (bind_Ret _ _ _ (eflags c) s); [by rw /readeflags Hc|].
  set c1 := Cpu (apicid c) (ncli c) (intena c) (Z.land (eflags c) (Z.lnot FL_IF)).
  rw (bind_Ret _ _ _ tt (set_cpu me c1 s)); [by rw /cli /set_if Hc|].
  pose proof (set_cpu_lookup s c c1 Hc) as Hc1.
  rw (bind_Ret _ _ _ me (set_cpu me c1 s)).
  { eapply mycpu_me; [by rw (set_cpu_apicids s c)|eassumption|apply if_off_clear]. }
  rw (bind_Ret _ _ _ c1 (set_cpu me c1 s)); [by rw /cpu_at Hc1|].
  set c2 := Cpu (apicid c) (ncli c)
    (if ncli c =? 0 then Z.land (eflags c) FL_IF else intena c)
    (Z.land (eflags c) (Z.lnot FL_IF)).
  rw (bind_Ret _ _ _ tt (set_cpu me c2 s)).
  { rw /when /c2 /c1 /=. destruct (ncli c =? 0); [|done].
    by rw /modify set_cpu_twice. }
  pose proof (set_cpu_lookup s c c2 Hc) as Hc2.
  rw (bind_Ret _ _ _ me (set_cpu me c2 s)).
  { eapply mycpu_me; [by rw (set_cpu_apicids s c)|eassumption|apply if_off_clear]. }
  rw (bind_Ret _ _ _ c2 (set_cpu me c2 s)); [by rw /cpu_at Hc2|].
  by rw /modify set_cpu_twice.
Qed.

Lemma popcli_run s c :
  NoDup (apicid <$> cpus s) → cpus s !! me = Some c → if_off c → 1 ≤ ncli c →
  popcli me s = Ret tt (set_cpu me (popped c) s).
Proof.
  intros Hnd Hc Hoff Hn. rw /popcli.
  rw (bind_Ret _ _ _ (eflags c) s); [by rw /readeflags Hc|]. rw Hoff /=.
  rw (bind_Ret _ _ _ me s); [eapply mycpu_me; eassumption|].
  rw (bind_Ret _ _ _ c s); [by rw /cpu_at Hc|].
  set c1 := Cpu (apicid c) (ncli c - 1) (intena c) (eflags c).
  rw (bind_Ret _ _ _ tt (set_cpu me c1 s)) //.
  destruct (Z.ltb_spec (ncli c - 1) 0); [lia|].
  pose proof (set_cpu_lookup s c c1 Hc) as Hc1.
  rw (bind_Ret _ _ _ me (set_cpu me c1 s)).
  { eapply mycpu_me; [by rw (set_cpu_apicids s c)|eassumption|done]. }
  rw (bind_Ret _ _ _ c1 (set_cpu me c1 s)); [by rw /cpu_at Hc1|].
  rw /when /c1 /popped /=. destruct (_ && _); [|done].
  rw /sti /set_if Hc1 /=. by rw set_cpu_twice.
Qed.

Lemma pushed_off c : if_off (pushed c).
Proof. apply if_off_clear. Qed.

(** Popping undoes pushing, up to the saved [intena]. *)
Lemma popped_pushed c :
  0 ≤ ncli c → (0 < ncli c → if_off c) →
  ncli (popped (pushed c)) = ncli c ∧ eflags (popped (pushed c)) = eflags c.
Proof.
  intros Hn Hoff. split; [simpl; lia|]. rw /popped /pushed /=.
  destruct (Z.eqb_spec (ncli c) 0) as [E|E].
  - replace (ncli c + 1 - 1 =? 0) with true by (symmetry; apply Z.eqb_eq; lia).
    destruct (Z.eqb_spec (Z.land (eflags c) FL_IF) 0); simpl.
    + by apply clear_if_off.
    + by apply set_clear_if.
  - replace (ncli c + 1 - 1 =? 0) with false by (symmetry; apply Z.eqb_neq; lia).
    simpl. apply clear_if_off, Hoff. lia.
Qed.

(** [n] nested calls. *)
Fixpoint repeat_call (n : nat) (m : K machine unit) : K machine unit :=
  match n with O => mret tt | S k => _ ← m; repeat_call k m end.

Definition pushed_n (n : nat) c : cpu :=
  match n with
  | O => c
  | S k => Cpu (apicid c) (ncli c + Z.of_nat n) (intena (pushed c)) (eflags (pushed c))
  end.

Lemma pushed_pushed_n n c : 0 ≤ ncli c → pushed (pushed_n (S n) c) = pushed_n (S (S n)) c.
Proof.
  intros Hn. rw /pushed_n {1}/pushed. cbn [ncli apicid intena eflags].
  destruct (Z.eqb_spec (ncli c + Z.of_nat (S n)) 0); [lia|].
  rw clear_if_off; [apply if_off_clear|]. f_equal; lia.
Qed.

Lemma popped_pushed_n n c :
  0 ≤ ncli c → popped (pushed_n (S (S n)) c) = pushed_n (S n) c.
Proof.
  intros Hn. rw /pushed_n {1}/popped. cbn [ncli apicid intena eflags].
  destruct (Z.eqb_spec (ncli c + Z.of_nat (S (S n)) - 1) 0); [lia|].
  simpl. f_equal; lia.
Qed.

Lemma repeat_pushcli s c n :
  NoDup (apicid <$> cpus s) → cpus s !! me = Some c → 0 ≤ ncli c →
  repeat_call n (pushcli me) s =
  Ret tt (match n with O => s | S _ => set_cpu me (pushed_n n c) s end).
Proof.
  intros Hnd Hc Hn. destruct n as [|n]; [done|].
  assert (∀ k j, (0 < j)%nat →
    repeat_call k (pushcli me) (set_cpu me (pushed_n j c) s) =
    Ret tt (set_cpu me (pushed_n (k + j) c) s)) as Hgen.
  { induction k as [|k IH]; intros j Hj; [done|]. cbn [repeat_call].
    destruct j as [|j]; [lia|].
    rw (bind_Ret _ _ _ tt (set_cpu me (pushed_n (S (S j)) c) s)).
    { rw (pushcli_run _ (pushed_n (S j) c)).
      - by rw (set_cpu_apicids s c).
      - eapply set_cpu_lookup; exact Hc.
      - by rw set_cpu_twice pushed_pushed_n. }
    rw (IH (S (S j))); [lia|]. do 3 f_equal. lia. }
  cbn [repeat_call].
  rw (bind_Ret _ _ _ tt (set_cpu me (pushed_n 1 c) s)).
  { rw (pushcli_run _ c) //. }
  rw (Hgen n 1%nat); [lia|]. do 3 f_equal. lia.
Qed.

Lemma repeat_popcli s c n :
  NoDup (apicid <$> cpus s) → cpus s !! me = Some c → 0 ≤ ncli c →
  repeat_call (S n) (popcli me) (set_cpu me (pushed_n (S n) c) s) =
  Ret tt (set_cpu me (popped (pushed c)) s).
Proof.
  intros Hnd Hc Hn. induction n as [|n IH].
  - cbn [repeat_call].
    rw (bind_Ret _ _ _ tt (set_cpu me (popped (pushed c)) s)); [|done].
    rw (popcli_run _ (pushed c)).
    + by rw (set_cpu_apicids s c).
    + eapply set_cpu_lookup; exact Hc.
    + apply if_off_clear.
    + simpl; lia.
    + by rw set_cpu_twice.
  - cbn [repeat_call].
    rw (bind_Ret _ _ _ tt (set_cpu me (pushed_n (S n) c) s)); [|exact IH].
    rw (popcli_run _ (pushed_n (S (S n)) c)).
    + by rw (set_cpu_apicids s c).
    + eapply set_cpu_lookup; exact Hc.
    + apply if_off_clear.
    + cbn [pushed_n ncli]. lia.
    + by rw set_cpu_twice popped_pushed_n.
Qed.

Lemma popped_pushed_id c : 0 < ncli c → if_off c → popped (pushed c) = c.
Proof.
  intros Hn Hoff. rw /popped /pushed. cbn [ncli apicid intena eflags].
  destruct (Z.eqb_spec (ncli c) 0); [lia|].
  destruct (Z.eqb_spec (ncli c + 1 - 1) 0); [lia|]. simpl.
  rw clear_if_off //. destruct c; simpl in *; f_equal; lia.
Qed.

Lemma locks_set_cpu i c s : locks (set_cpu i c s) = locks s.
Proof. done. Qed.

Lemma holding_run s c l k :
  NoDup (apicid <$> cpus s) → cpus s !! me = Some c → 0 ≤ ncli c →
  locks s !! l = Some k →
  holding me l s =
  Ret (negb (locked k =? 0) && bool_decide (lk_cpu k = Some me))
    (set_cpu me (popped (pushed c)) s).
Proof.
  intros Hnd Hc Hn Hk. rw /holding.
  rw (bind_Ret _ _ _ tt (set_cpu me (pushed c) s)); [by apply pushcli_run|].
  rw (bind_Ret _ _ _ k (set_cpu me (pushed c) s)); [by rw /lock_at /= Hk|].
  pose proof (set_cpu_lookup s c (pushed c) Hc) as Hc1.
  assert (NoDup (apicid <$> cpus (set_cpu me (pushed c) s))) as Hnd1
    by by rw (set_cpu_apicids s c).
  rw (bind_Ret _ _ _ me (set_cpu me (pushed c) s)).
  { eapply mycpu_me; [done|exact Hc1|apply if_off_clear]. }
  rw (bind_Ret _ _ _ tt (set_cpu me (popped (pushed c)) s)) //.
  rw (popcli_run _ _ Hnd1 Hc1); [apply if_off_clear|simpl; lia|].
  by rw set_cpu_twice.
Qed.

(** [holding] leaves a CPU that already disabled interrupts as it was. *)
Lemma holding_run_off s c l k :
  NoDup (apicid <$> cpus s) → cpus s !! me = Some c → 0 < ncli c → if_off c →
  locks s !! l = Some k →
  holding me l s = Ret (negb (locked k =? 0) && bool_decide (lk_cpu k = Some me)) s.
Proof.
  intros Hnd Hc Hn Hoff Hk. rw (holding_run s c l k) //; [lia|].
  rw popped_pushed_id // /set_cpu list_insert_id //. by destruct s.
Qed.

Lemma acquire_run s c l k callers :
  NoDup (apicid <$> cpus s) → cpus s !! me = Some c → 0 ≤ ncli c →
  locks s !! l = Some k → locked k = 0 →
  acquire me callers l s =
  Ret tt (set_lock l (Spin 1 (lk_name k) (Some me) callers) (set_cpu me (pushed c) s)).
Proof.
  intros Hnd Hc Hn Hk Hfree. rw /acquire.
  rw (bind_Ret _ _ _ tt (set_cpu me (pushed c) s)); [by apply pushcli_run|].
  set s1 := set_cpu me (pushed c) s.
  pose proof (set_cpu_lookup s c (pushed c) Hc) as Hc1.
  assert (NoDup (apicid <$> cpus s1)) as Hnd1 by by rw (set_cpu_apicids s c).
  rw (bind_Ret _ _ _ false s1).
  { rw (holding_run_off s1 (pushed c) l k) //; [simpl; lia|apply if_off_clear|].
    by rw Hfree. }
  rw (bind_Ret _ _ _ k s1); [by rw /lock_at /= Hk|].
  rw (bind_Ret _ _ _ tt (set_lock l (Spin 1 (lk_name k) (lk_cpu k) (pcs k)) s1)) //.
  rw Hfree /=.
  rw (bind_Ret _ _ _ me (set_lock l (Spin 1 (lk_name k) (lk_cpu k) (pcs k)) s1)).
  { eapply mycpu_me; [done|exact Hc1|apply if_off_clear]. }
  rw /modify /set_lock /=. by rw insert_insert_eq.
Qed.

Lemma acquire_held s c l k callers :
  NoDup (apicid <$> cpus s) → cpus s !! me = Some c → 0 ≤ ncli c →
  locks s !! l = Some k → locked k ≠ 0 → lk_cpu k = Some me →
  acquire me callers l s = Panic "acquire".
Proof.
  intros Hnd Hc Hn Hk Hl Hme. rw /acquire.
  rw (bind_Ret _ _ _ tt (set_cpu me (pushed c) s)); [by apply pushcli_run|].
  set s1 := set_cpu me (pushed c) s.
  pose proof (set_cpu_lookup s c (pushed c) Hc) as Hc1.
  rw (bind_Ret _ _ _ true s1); [|done].
  rw (holding_run_off s1 (pushed c) l k) //;
    [by rw (set_cpu_apicids s c)|simpl; lia|apply if_off_clear|].
  destruct (Z.eqb_spec (locked k) 0); [done|]. by rw bool_decide_eq_true_2.
Qed.

Lemma release_run s c l k :
  NoDup (apicid <$> cpus s) → cpus s !! me = Some c → 0 < ncli c → if_off c →
  locks s !! l = Some k → locked k ≠ 0 → lk_cpu k = Some me →
  release me l s =
  Ret tt (set_cpu me (popped c)
            (set_lock l (Spin 0 (lk_name k) None (<[0%nat := 0]> (pcs k))) s)).
Proof.
  intros Hnd Hc Hn Hoff Hk Hl Hme. rw /release.
  rw (bind_Ret _ _ _ true s).
  { rw (holding_run_off s c l k) //. destruct (Z.eqb_spec (locked k) 0); [done|].
    by rw bool_decide_eq_true_2. }
  cbn [negb]. rw (bind_Ret _ _ _ k s); [by rw /lock_at Hk|].
  set k1 := Spin (locked k) (lk_name k) None (<[0%nat := 0]> (pcs k)).
  rw (bind_Ret _ _ _ tt (set_lock l k1 s)) //.
  rw (bind_Ret _ _ _ tt
    (set_lock l (Spin 0 (lk_name k) None (<[0%nat := 0]> (pcs k))) s)).
  { rw /modify /= lookup_insert_eq /set_lock /=. by rw insert_insert_eq. }
  by rw (popcli_run _ c) //; lia.
Qed.

Lemma release_not_held s c l k :
  NoDup (apicid <$> cpus s) → cpus s !! me = Some c → 0 ≤ ncli c →
  locks s !! l = Some k → locked k = 0 ∨ lk_cpu k ≠ Some me →
  release me l s = Panic "release".
Proof.
  intros Hnd Hc Hn Hk Hnot. rw /release.
  rw (bind_Ret _ _ _ false (set_cpu me (popped (pushed c)) s)); [|done].
  rw (holding_run s c l k) //.
  destruct Hnot as [->|Hne]; [done|].
  rw (bool_decide_eq_false_2 _ Hne). by rw andb_false_r.
Qed.

End RunningFacts.

(** ** Several CPUs contending for one lock

    Each CPU runs [acquire; critical section; release] over and over, one
    instruction that touches the lock at a time: the test of [holding], the
    atomic [xchg], the store of [lk->cpu], the store of 0 to [lk->cpu] and the
    final store of 0 to [lk->locked]. *)
Inductive lpc :=
| Outside            (* not using the lock *)
| Spinning           (* in the [while(xchg(...) != 0)] loop *)
| Locked             (* [xchg] returned 0, [lk->cpu] not yet stored *)
| Critical           (* between acquire and release *)
| Releasing.         (* [lk->cpu = 0] done, [lk->locked] still 1 *)

Record smp := Smp { word : Z; owner : option nat; pc : nat → lpc }.

Definition upd (f : nat → lpc) (i : nat) (p : lpc) : nat → lpc :=
  λ j, if decide (j = i) then p else f j.

(** What [holding] computes on CPU [i], from its two unsynchronised reads. *)
Definition holding_now (s : smp) (i : nat) : bool :=
  negb (word s =? 0) && bool_decide (owner s = Some i).

Inductive lock_step : smp → smp → Prop :=
| step_enter s i :
    pc s i = Outside → holding_now s i = false →
    lock_step s (Smp (word s) (owner s) (upd (pc s) i Spinning))
| step_xchg_busy s i :
    pc s i = Spinning → word s ≠ 0 →
    lock_step s (Smp 1 (owner s) (pc s))
| step_xchg_free s i :
    pc s i = Spinning → word s = 0 →
    lock_step s (Smp 1 (owner s) (upd (pc s) i Locked))
| step_record s i :
    pc s i = Locked →
    lock_step s (Smp (word s) (Some i) (upd (pc s) i Critical))
| step_forget s i :
    pc s i = Critical → holding_now s i = true →
    lock_step s (Smp (word s) None (upd (pc s) i Releasing))
| step_unlock s i :
    pc s i = Releasing →
    lock_step s (Smp 0 (owner s) (upd (pc s) i Outside)).

Definition lock_init : smp := Smp 0 None (λ _, Outside).

(** CPU [i] is past its successful [xchg]. *)
Definition inside (p : lpc) : bool :=
  match p with Locked | Critical | Releasing => true | _ => false end.

Record lock_inv (s : smp) : Prop := {
  inv_word : word s = 0 ∨ word s = 1;
  inv_free : word s = 0 → ∀ i, inside (pc s i) = false;
  inv_one : ∀ i j, inside (pc s i) = true → inside (pc s j) = true → i = j;
  inv_owner : ∀ i, owner s = Some i ↔ pc s i = Critical
}.

Lemma pcs_upd_eq f i p : upd f i p i = p.
Proof. rw /upd decide_True //. Qed.
Lemma pcs_upd_ne f i j p : j ≠ i → upd f i p j = f j.
Proof. intros. rw /upd decide_False //. Qed.

Lemma lock_inv_init : lock_inv lock_init.
Proof. split; naive_solver. Qed.

Lemma inside_locked s i : lock_inv s → inside (pc s i) = true → word s = 1.
Proof.
  intros [Hw Hf _ _] Hi. destruct Hw as [Hw|]; [|done]. by rw Hf in Hi.
Qed.

(** Moving CPU [i] between two counters on the same side of the [xchg]. *)
Lemma inside_upd_same s i p :
  inside p = inside (pc s i) → ∀ j, inside (upd (pc s) i p j) = inside (pc s j).
Proof. intros Hp j. rw /upd. by case_decide; subst. Qed.

Lemma lock_inv_step s s' : lock_inv s → lock_step s s' → lock_inv s'.
Proof.
  intros Hinv Hstep. revert Hinv.
  destruct Hstep as [s i Hp _|s i Hp Hw1|s i Hp Hw0|s i Hp|s i Hp Hh|s i Hp];
    intros Hinv; pose proof Hinv as [Hw Hf H1 Ho].
  - assert (∀ j, inside (upd (pc s) i Spinning j) = inside (pc s j)) as Hsame
      by (apply inside_upd_same; by rw Hp).
    split; cbn [word owner pc]; [done| | |].
    + intros H0 j. rw Hsame. by apply Hf.
    + intros a b. rw !Hsame. apply H1.
    + intros j. rw Ho /upd. case_decide; [|done]. subst. by rw Hp.
  - split; cbn [word owner pc]; [by right|done|done|done].
  - split; cbn [word owner pc]; [by right|done| |].
    + intros a b. rw /upd. repeat case_decide; subst; [done| | |];
        rw ?Hf //.
    + intros j. rw Ho /upd. case_decide; [|done]. subst. by rw Hp.
  - assert (∀ j, inside (upd (pc s) i Critical j) = inside (pc s j)) as Hsame
      by (apply inside_upd_same; by rw Hp).
    split; cbn [word owner pc]; [done| | |].
    + intros H0 j. rw Hsame. by apply Hf.
    + intros a b. rw !Hsame. apply H1.
    + intros j. rw /upd. case_decide as Hj; [by subst|].
      split; [congruence|]. intros Hc. destruct Hj.
      apply H1; by rw ?Hc ?Hp.
  - assert (∀ j, inside (upd (pc s) i Releasing j) = inside (pc s j)) as Hsame
      by (apply inside_upd_same; by rw Hp).
    split; cbn [word owner pc]; [done| | |].
    + intros H0 j. rw Hsame. by apply Hf.
    + intros a b. rw !Hsame. apply H1.
    + intros j. split; [done|]. rw /upd. case_decide as Hj; [done|].
      intros Hc. destruct Hj. apply H1; by rw ?Hc ?Hp.
  - assert (∀ j, j ≠ i → inside (pc s j) = false) as Hothers.
    { intros j Hj. destruct (inside (pc s j)) eqn:E; [|done].
      destruct Hj. apply H1; [done|by rw Hp]. }
    split; cbn [word owner pc]; [by left| | |].
    + intros _ j. rw /upd. case_decide; [done|by apply Hothers].
    + intros a b. rw /upd. repeat case_decide; try done. by rw Hothers.
    + intros j. rw Ho /upd. case_decide as Hj; [subst; by rw Hp|done].
Qed.

Lemma lock_inv_reachable s : rtc lock_step lock_init s → lock_inv s.
Proof.
  intros Hr. remember lock_init as s0 eqn:E.
  assert (lock_inv s0) as H0 by (subst; apply lock_inv_init). clear E.
  induction Hr; eauto using lock_inv_step.
Qed.

(** ** The held-locks view

    The other components run between two contention points of one kernel thread:
    the locks it holds are a list, [acquire] of a lock it already holds panics, and
    so does [release] of one it does not hold.  [locks_view] relates the list to the
    machine when no other CPU holds a lock. *)
Class HasLocks (S : Type) := {
  held : S → list string;
  set_held : list string → S → S;
  held_set_held : ∀ h s, held (set_held h s) = h
}.

Section Held.
Context {S : Type} `{!HasLocks S}.

Definition lock_acquire (l : string) : K S unit :=
  s ← get;
  if bool_decide (l ∈ held s) then panic "acquire" else put (set_held (l :: held s) s).

Definition lock_release (l : string) : K S unit :=
  s ← get;
  if bool_decide (l ∈ held s) then put (set_held (filter (.≠ l) (held s)) s)
  else panic "release".

Lemma filter_ne_id (l : string) (h : list string) : l ∉ h → filter (.≠ l) h = h.
Proof.
  induction h as [|x h IH]; [done|]. intros [??]%not_elem_of_cons.
  rw filter_cons_True; [congruence|]. by rw IH.
Qed.

Lemma lock_acquire_run l (s : S) :
  l ∉ held s → lock_acquire l s = Ret tt (set_held (l :: held s) s).
Proof.
  intros Hl. rw /lock_acquire /get /put /mbind /K_bind.
  by rw bool_decide_eq_false_2.
Qed.

Lemma lock_acquire_panic l (s : S) : l ∈ held s → lock_acquire l s = Panic "acquire".
Proof.
  intros Hl. rw /lock_acquire /get /put /mbind /K_bind.
  by rw bool_decide_eq_true_2.
Qed.

Lemma lock_release_run l h (s : S) :
  held s = l :: h → l ∉ h → lock_release l s = Ret tt (set_held h s).
Proof.
  intros Hs Hl. rw /lock_release /get /put /mbind /K_bind Hs.
  rw bool_decide_eq_true_2; [by left|]. rw filter_cons_False; [naive_solver|].
  by rw filter_ne_id.
Qed.

Lemma wp_lock_acquire l (s : S) Q :
  l ∉ held s → Q tt (set_held (l :: held s) s) → wp (lock_acquire l) s Q.
Proof. intros Hl HQ. rw /wp lock_acquire_run //. Qed.

Lemma wp_lock_release l h (s : S) Q :
  held s = l :: h → l ∉ h → Q tt (set_held h s) → wp (lock_release l) s Q.
Proof. intros Hs Hl HQ. rw /wp (lock_release_run l h) //. Qed.

End Held.

#[global] Arguments lock_acquire : simpl never.
#[global] Arguments lock_release : simpl never.

#[global] Program Instance list_HasLocks : HasLocks (list string) :=
  {| held := id; set_held := λ h _, h |}.
Next Obligation. done. Qed.

Record locks_view (me : nat) (h : list string) (s : machine) : Prop := {
  view_ids : NoDup (apicid <$> cpus s);
  view_nodup : NoDup h;
  view_cpu : ∃ c, cpus s !! me = Some c ∧ ncli c = Z.of_nat (length h) ∧
                  (0 < ncli c → if_off c);
  view_held : ∀ l, l ∈ h → ∃ k, locks s !! l = Some k ∧ locked k ≠ 0 ∧ lk_cpu k = Some me;
  view_free : ∀ l k, l ∉ h → locks s !! l = Some k → locked k = 0
}.

Lemma filter_ne_length (l : string) (h : list string) :
  NoDup h → l ∈ h → S (length (filter (.≠ l) h)) = length h.
Proof.
  induction 1 as [|x h Hx Hnd IH]; intros Hl; [by apply not_elem_of_nil in Hl|].
  apply elem_of_cons in Hl as [->|Hl].
  - rw filter_cons_False; [naive_solver|]. simpl. by rw filter_ne_id.
  - rw filter_cons_True; [by intros ->|]. cbn [length]. by rw IH.
Qed.

Lemma locks_view_acquire me callers h s l k :
  locks_view me h s → locks s !! l = Some k → l ∉ h →
  ∃ s', acquire me callers l s = Ret tt s' ∧ locks_view me (l :: h) s'.
Proof.
  intros [Hids Hnd (c&Hc&Hn&Hoff) Hheld Hfree] Hk Hl.
  eexists. split; [apply (acquire_run me s c l k); [done|done|lia|done|eapply Hfree; eassumption]|].
  split.
  - by rw /= (set_cpu_apicids me s c).
  - by constructor.
  - exists (pushed c). split_and!.
    + eapply set_cpu_lookup; exact Hc.
    + simpl. lia.
    + intros _. apply if_off_clear.
  - intros l' [->|Hl']%elem_of_cons; simpl.
    + rw lookup_insert_eq. eauto.
    + rw lookup_insert_ne; [by intros ->|]. by apply Hheld.
  - intros l' k' [Hne Hl']%not_elem_of_cons. simpl.
    rw lookup_insert_ne; [congruence|]. by apply Hfree.
Qed.

Lemma locks_view_release me h s l :
  locks_view me h s → l ∈ h →
  ∃ s', release me l s = Ret tt s' ∧ locks_view me (filter (.≠ l) h) s'.
Proof.
  intros [Hids Hnd (c&Hc&Hn&Hoff) Hheld Hfree] Hl.
  destruct (Hheld l Hl) as (k&Hk&Hlk&Hme).
  pose proof (filter_ne_length l h Hnd Hl) as Hlen.
  eexists. split; [apply (release_run me s c l k); try done; [lia|apply Hoff; lia]|].
  split.
  - simpl. rw list_fmap_insert. apply (f_equal (fmap apicid)) in Hc as Hc'.
    rw list_insert_id //. by rw list_lookup_fmap Hc.
  - by apply NoDup_filter.
  - exists (popped c). split_and!.
    + simpl. apply list_lookup_insert_eq. by apply lookup_lt_Some in Hc.
    + simpl. lia.
    + cbn [popped ncli]. intros Hpos. rw /if_off /popped. cbn [eflags].
      destruct (Z.eqb_spec (ncli c - 1) 0); [lia|]. apply Hoff. lia.
  - intros l' [Hne Hl']%list_elem_of_filter. simpl.
    rw lookup_insert_ne; [congruence|]. by apply Hheld.
  - intros l' k' Hl' Hk'. simpl in Hk'. destruct (decide (l = l')) as [->|Hne].
    + rw lookup_insert_eq in Hk'. by simplify_eq/=.
    + rw lookup_insert_ne // in Hk'. eapply Hfree; [|exact Hk'].
      intros ?. apply Hl', list_elem_of_filter. split; [congruence|done].
Qed.

(** ** Main results *)

(** [pushcli] and [popcli] nest: after [n] [pushcli] interrupts are off, and
    after [n] [popcli] the depth and the interrupt flag are what they were. *)
Theorem cli_nesting me s c n :
  machine_wf s → cpus s !! me = Some c → (0 < n)%nat →
  ∃ s1 c1 s2 c2,
    repeat_call n (pushcli me) s = Ret tt s1 ∧
    cpus s1 !! me = Some c1 ∧ if_off c1 ∧ ncli c1 = ncli c + Z.of_nat n ∧
    repeat_call n (popcli me) s1 = Ret tt s2 ∧
    cpus s2 !! me = Some c2 ∧ ncli c2 = ncli c ∧ eflags c2 = eflags c.
Proof.
  intros [Hids Hall] Hc Hn. destruct n as [|n]; [lia|].
  eapply Forall_lookup_1 in Hall as [Hn0 Hoff]; [|exact Hc].
  pose proof (popped_pushed c Hn0 Hoff) as [Hnc He].
  exists (set_cpu me (pushed_n (S n) c) s), (pushed_n (S n) c),
    (set_cpu me (popped (pushed c)) s), (popped (pushed c)).
  split; [by rw (repeat_pushcli me s c)|].
  split; [eapply set_cpu_lookup; exact Hc|].
  split; [apply if_off_clear|]. split; [done|].
  split; [by apply repeat_popcli|].
  split; [eapply set_cpu_lookup; exact Hc|done].
Qed.

(** [acquire] of a free lock leaves it held by this CPU with interrupts off; a
    second [acquire] on the same CPU panics instead of deadlocking; [release]
    frees it and restores the nesting depth and the interrupt flag. *)
Theorem acquire_excludes me callers s c l k :
  machine_wf s → cpus s !! me = Some c → locks s !! l = Some k → locked k = 0 →
  ∃ s1 c1 s2 c2 k2,
    acquire me callers l s = Ret tt s1 ∧
    cpus s1 !! me = Some c1 ∧ if_off c1 ∧
    holding me l s1 = Ret true s1 ∧
    acquire me callers l s1 = Panic "acquire" ∧
    release me l s1 = Ret tt s2 ∧
    cpus s2 !! me = Some c2 ∧ ncli c2 = ncli c ∧ eflags c2 = eflags c ∧
    locks s2 = <[l := k2]> (locks s) ∧ locked k2 = 0 ∧ lk_cpu k2 = None.
Proof.
  intros [Hids Hall] Hc Hk Hfree.
  eapply Forall_lookup_1 in Hall as [Hn0 Hoff]; [|exact Hc].
  pose proof (popped_pushed c Hn0 Hoff) as [Hnc He].
  set k1 := Spin 1 (lk_name k) (Some me) callers.
  set s1 := set_lock l k1 (set_cpu me (pushed c) s).
  assert (cpus s1 !! me = Some (pushed c)) as Hc1
    by (eapply (set_cpu_lookup me s); exact Hc).
  assert (NoDup (apicid <$> cpus s1)) as Hids1 by by rw /s1 /= (set_cpu_apicids me s c).
  assert (locks s1 !! l = Some k1) as Hk1 by by rw /s1 /= lookup_insert_eq.
  exists s1, (pushed c). do 3 eexists.
  split; [by apply acquire_run|]. split; [done|]. split; [apply if_off_clear|].
  split; [rw (holding_run_off me s1 (pushed c) l k1) //;
          [simpl; lia|apply if_off_clear|by rw /= bool_decide_eq_true_2]|].
  split; [by apply (acquire_held me s1 (pushed c) l k1); try done; simpl; lia|].
  split; [apply (release_run me s1 (pushed c) l k1); try done;
          [simpl; lia|apply if_off_clear]|].
  split; [simpl; apply list_lookup_insert_eq; by apply lookup_lt_Some in Hc1|].
  split; [done|]. split; [done|].
  split; [by rw /= insert_insert_eq|done].
Qed.


(** The list of held locks the other components use is simulated by the real
    [acquire] and [release]: same success, same panic, and the view is kept. *)
Theorem held_view_simulated me callers h s l k :
  locks_view me h s → locks s !! l = Some k →
  match lock_acquire l h with
  | Ret _ h' => ∃ s', acquire me callers l s = Ret tt s' ∧ locks_view me h' s'
  | Panic msg => acquire me callers l s = Panic msg
  | _ => False
  end ∧
  match lock_release l h with
  | Ret _ h' => ∃ s', release me l s = Ret tt s' ∧ locks_view me h' s'
  | Panic msg => release me l s = Panic msg
  | _ => False
  end.
Proof.
  intros Hv Hk. pose proof Hv as [Hids Hnd (c&Hc&Hn&Hoff) Hheld Hfree].
  rw /lock_acquire /lock_release /get /put /mbind /K_bind /panic /=.
  destruct (decide (l ∈ h)) as [Hl|Hl].
  - rw !bool_decide_eq_true_2 //. split; [|by apply locks_view_release].
    destruct (Hheld l Hl) as (k'&Hk'&?&?). simplify_eq.
    apply (acquire_held me s c l k); try done. lia.
  - rw !bool_decide_eq_false_2 //. split; [eapply locks_view_acquire; eassumption|].
    apply (release_not_held me s c l k); try done; [lia|]. left. eapply Hfree; eassumption.
Qed.

(** ** Witnesses *)

(** Two CPUs with interrupts on, one free lock. *)
Definition demo_machine : machine :=
  Machine [Cpu 0 0 0 FL_IF; Cpu 1 0 0 FL_IF] {[ "kmem" := Spin 0 "kmem" None [] ]}.

Lemma demo_machine_wf : machine_wf demo_machine.
Proof.
  split; [apply (bool_decide_unpack _); vm_compute; exact I|].
  repeat constructor; simpl; lia.
Qed.

Lemma cli_nesting_witness :
  ∃ s1 c1, repeat_call 3 (pushcli 1) demo_machine = Ret tt s1 ∧
           cpus s1 !! 1%nat = Some c1 ∧ ncli c1 = 3.
Proof.
  destruct (cli_nesting 1 demo_machine (Cpu 1 0 0 FL_IF) 3) as (s1&c1&s2&c2&H1&H2&_&H3&_).
  - exact demo_machine_wf.
  - reflexivity.
  - lia.
  - exists s1, c1. split; [exact H1|]. split; [exact H2|exact H3].
Defined.

Lemma acquire_excludes_witness :
  ∃ s1, acquire 0 [] "kmem" demo_machine = Ret tt s1 ∧
        acquire 0 [] "kmem" s1 = Panic "acquire".
Proof.
  destruct (acquire_excludes 0 [] demo_machine (Cpu 0 0 0 FL_IF) "kmem" (Spin 0 "kmem" None []))
    as (s1&c1&s2&c2&k2&H1&_&_&_&H2&_).
  - exact demo_machine_wf.
  - reflexivity.
  - reflexivity.
  - reflexivity.
  - exists s1. split; [exact H1|exact H2].
Defined.


Lemma held_view_simulated_witness :
  ∃ s', acquire 0 [] "kmem" demo_machine = Ret tt s' ∧ locks_view 0 ["kmem"] s'.
Proof.
  destruct (held_view_simulated 0 [] [] demo_machine "kmem" (Spin 0 "kmem" None [])) as [H _].
  - split.
    + apply (bool_decide_unpack _). vm_compute. exact I.
    + constructor.
    + exists (Cpu 0 0 0 FL_IF). split; [reflexivity|]. split; [reflexivity|]. simpl. lia.
    + intros l Hl. destruct (not_elem_of_nil l Hl).
    + intros l k _ Hk. simpl in Hk. apply lookup_singleton_Some in Hk as [_ <-]. reflexivity.
  - reflexivity.
  - exact H.
Defined.
