(* ===== verification/Kalloc.v ===== *)
(** * The physical page allocator (xv6/kalloc.c; address macros of mmu.h and memlayout.h).

    Free pages are linked through their first word; the state is the memory, the
    list head, the [use_lock] flag and the locks the thread holds.  [free_pages s l]
    is the abstract contract: the list threads exactly the pages [l], all distinct,
    aligned and inside the allocator's range.  The theorems: [kalloc] pops and
    [kfree] pushes this list and changes nothing else of memory, a bad address
    panics, [freerange] (so [kinit1], [kinit2]) hands over every whole page of its
    range. *)
From S2P Require Import Prelude CMem Str Spinlock.
Local Open Scope Z_scope.

(** ** Address arithmetic *)

Definition PGSIZE : Z := 4096.
Definition PHYSTOP : Z := 0xE000000.
Definition EXTMEM : Z := 0x100000.
Definition DEVSPACE : Z := 0xFE000000.
Definition KERNLINK : Z := KERNBASE + EXTMEM.

Definition V2P (a : Z) : Z := u32 (a - KERNBASE).
Definition P2V (a : Z) : Z := u32 (a + KERNBASE).

Definition PGROUNDUP (sz : Z) : Z := Z.land (u32 (sz + PGSIZE - 1)) (u32 (Z.lnot (PGSIZE - 1))).
Definition PGROUNDDOWN (a : Z) : Z := Z.land a (u32 (Z.lnot (PGSIZE - 1))).

(** ** State and operations *)

Record kmem_state := Kmem {
  km_mem : mem;
  km_freelist : Z;           (* address of the first free page, 0 if none *)
  km_use_lock : bool;
  km_held : list string
}.

#[global] Program Instance kmem_HasLocks : HasLocks kmem_state :=
  {| held := km_held;
     set_held := λ h s, Kmem (km_mem s) (km_freelist s) (km_use_lock s) h |}.
Next Obligation. done. Qed.

Definition set_mem (m : mem) (s : kmem_state) : kmem_state :=
  Kmem m (km_freelist s) (km_use_lock s) (km_held s).
Definition set_freelist (a : Z) (s : kmem_state) : kmem_state :=
  Kmem (km_mem s) a (km_use_lock s) (km_held s).
Definition upd_mem (f : mem → mem) : K kmem_state unit := modify (λ s, set_mem (f (km_mem s)) s).

Section Kalloc.
(** [end], the first address after the kernel image, fixed by the linker. *)
Variable kend : Z.

Definition kfree (v : Z) : K kmem_state unit :=
  if negb (v mod PGSIZE =? 0) || (v <? kend) || (PHYSTOP <=? V2P v) then panic "kfree"
  else
    _ ← upd_mem (memset v 1 PGSIZE);
    s ← get;
    _ ← when (km_use_lock s) (lock_acquire "kmem");
    _ ← modify (λ s, set_mem (st32 v (km_freelist s) (km_mem s)) s);
    _ ← modify (set_freelist v);
    s ← get;
    when (km_use_lock s) (lock_release "kmem").

Definition kalloc : K kmem_state Z :=
  s ← get;
  _ ← when (km_use_lock s) (lock_acquire "kmem");
  r ← gets km_freelist;
  _ ← when (negb (r =? 0)) (modify (λ s, set_freelist (ld32 (km_mem s) r) s));
  s ← get;
  _ ← when (km_use_lock s) (lock_release "kmem");
  mret r.

(** [for(; p + PGSIZE <= vend; p += PGSIZE) kfree(p);] *)
Fixpoint freerange_loop (fuel : nat) (p vend : Z) : K kmem_state unit :=
  match fuel with
  | O => mret tt
  | S k =>
      if p + PGSIZE <=? vend then _ ← kfree p; freerange_loop k (p + PGSIZE) vend
      else mret tt
  end.

(** At most [vend / PGSIZE] iterations are possible. *)
Definition freerange (vstart vend : Z) : K kmem_state unit :=
  freerange_loop (Z.to_nat (vend / PGSIZE)) (PGROUNDUP vstart) vend.

Definition kinit1 (vstart vend : Z) : K kmem_state unit :=
  _ ← modify (λ s, Kmem (km_mem s) (km_freelist s) false (km_held s));
  freerange vstart vend.

Definition kinit2 (vstart vend : Z) : K kmem_state unit :=
  _ ← freerange vstart vend;
  modify (λ s, Kmem (km_mem s) (km_freelist s) true (km_held s)).

(** ** The free list as a list of pages *)

Definition page_ok (v : Z) : Prop :=
  v mod PGSIZE = 0 ∧ kend ≤ v ∧ KERNBASE ≤ v < KERNBASE + PHYSTOP.

#[global] Instance page_ok_dec v : Decision (page_ok v).
Proof. rw /page_ok. apply _. Defined.

Fixpoint chain (m : mem) (a : Z) (l : list Z) : Prop :=
  match l with
  | [] => a = 0
  | p :: l' => a = p ∧ chain m (ld32 m p) l'
  end.

Record free_pages (s : kmem_state) (l : list Z) : Prop := {
  fp_chain : chain (km_mem s) (km_freelist s) l;
  fp_nodup : NoDup l;
  fp_ok : Forall page_ok l;
  fp_lock : "kmem" ∉ km_held s
}.

(** Distinct pages do not overlap. *)
Lemma pages_apart p q :
  p mod PGSIZE = 0 → q mod PGSIZE = 0 → p ≠ q → p + PGSIZE ≤ q ∨ q + PGSIZE ≤ p.
Proof. rw /PGSIZE. intros. Z.div_mod_to_equations. lia. Qed.

Lemma page_ok_pos p : page_ok p → KERNBASE ≤ p.
Proof. intros (_&_&?). lia. Qed.

Lemma chain_ext m m' a l :
  (∀ p, p ∈ l → ld32 m' p = ld32 m p) → chain m a l → chain m' a l.
Proof.
  revert a. induction l as [|p l IH]; intros a Hm; simpl; [done|].
  intros [-> Hc]. split; [done|]. rw Hm; [by left|].
  apply IH; [|done]. intros q Hq. apply Hm. by right.
Qed.

Lemma page_ok_checks v :
  page_ok v → negb (v mod PGSIZE =? 0) || (v <? kend) || (PHYSTOP <=? V2P v) = false.
Proof.
  rw /page_ok /V2P /KERNBASE /PHYSTOP. intros (Ha&He&Hr).
  rw Ha /=. rw u32_small; [lia|].
  apply orb_false_iff. split; [apply Z.ltb_ge|apply Z.leb_gt]; lia.
Qed.

(** The memory [kfree] leaves: the page is junk, its first word the link. *)
Definition freed (v link : Z) (m : mem) : mem := st32 v link (memset v 1 PGSIZE m).

Lemma ld8_freed v link m a :
  a < v ∨ v + PGSIZE ≤ a → ld8 (freed v link m) a = ld8 m a.
Proof.
  rw /freed /PGSIZE. intros. rw ld8_st32_ne; [lia|].
  rw ld8_memset; [lia|]. rw decide_False //. lia.
Qed.

Lemma ld32_freed_other v link m a :
  a + 4 ≤ v ∨ v + PGSIZE ≤ a → ld32 (freed v link m) a = ld32 m a.
Proof. rw /ld32 /PGSIZE. intros. rw !ld8_freed /PGSIZE //; lia. Qed.

Lemma kfree_run v s :
  page_ok v → "kmem" ∉ km_held s →
  kfree v s = Ret tt (set_freelist v (set_mem (freed v (km_freelist s) (km_mem s)) s)).
Proof.
  intros Hv Hlk. rw /kfree (page_ok_checks v Hv).
  apply wp_eq. destruct s as [m fl [] h]; simpl in Hlk; [|done].
  rw /upd_mem. wp_steps. apply wp_lock_acquire; [done|]. wp_steps.
  by apply (wp_lock_release _ h).
Qed.

Lemma kalloc_run s :
  "kmem" ∉ km_held s →
  kalloc s = Ret (km_freelist s)
    (if km_freelist s =? 0 then s
     else set_freelist (ld32 (km_mem s) (km_freelist s)) s).
Proof.
  intros Hlk. rw /kalloc. apply wp_eq. destruct s as [m fl [] h]; simpl in Hlk |- *.
  - wp_steps. apply wp_lock_acquire; [done|]. wp_steps.
    destruct (fl =? 0); wp_steps; by apply (wp_lock_release _ h).
  - wp_steps. destruct (fl =? 0); by wp_steps.
Qed.

Lemma kfree_pushes v s l :
  free_pages s l → page_ok v → v ∉ l →
  ∃ s', kfree v s = Ret tt s' ∧ free_pages s' (v :: l) ∧
        (∀ a, a < v ∨ v + PGSIZE ≤ a → ld8 (km_mem s') a = ld8 (km_mem s) a) ∧
        km_use_lock s' = km_use_lock s ∧ km_held s' = km_held s.
Proof.
  intros [Hch Hnd Hok Hlk] Hv Hvl.
  eexists. split; [by apply kfree_run|]. split_and!; [|by apply ld8_freed|done..].
  split; [|by constructor|by constructor|done]. simpl. split; [done|].
  rw /freed ld32_st32_eq.
  { destruct l as [|p l]; simpl in Hch; [subst; lia|].
    destruct Hch as [-> _]. apply Forall_cons in Hok as [(_&_&?) _].
    rw /KERNBASE /PHYSTOP in H. lia. }
  eapply chain_ext; [|exact Hch]. intros p Hp. apply ld32_freed_other.
  rw Forall_forall in Hok. destruct (Hok p Hp) as [Hpa _]. destruct Hv as [Hva _].
  assert (p ≠ v) as Hne by (by intros ->).
  pose proof (pages_apart p v Hpa Hva Hne). rw /PGSIZE in H |- *. lia.
Qed.

Lemma kalloc_pops s p l :
  free_pages s (p :: l) →
  kalloc s = Ret p (set_freelist (ld32 (km_mem s) p) s) ∧
  free_pages (set_freelist (ld32 (km_mem s) p) s) l.
Proof.
  intros [[Hp Hch] Hnd Hok Hlk].
  apply NoDup_cons in Hnd as [? Hnd]. apply Forall_cons in Hok as [Hpok Hok].
  split; [|by split].
  rw kalloc_run // Hp. pose proof (page_ok_pos p Hpok) as Hpos.
  rw /KERNBASE in Hpos. destruct (Z.eqb_spec p 0); [lia|done].
Qed.

Lemma kalloc_empty s : free_pages s [] → kalloc s = Ret 0 s.
Proof. intros [Hch _ _ Hlk]. simpl in Hch. by rw kalloc_run // Hch. Qed.

(** ** Initialisation *)

Definition pages_from (p : Z) (n : nat) : list Z := (λ i, p + Z.of_nat i * PGSIZE) <$> seq 0 n.

Lemma pages_from_S p n : pages_from p (S n) = p :: pages_from (p + PGSIZE) n.
Proof.
  rw /pages_from. cbn [seq fmap list_fmap]. f_equal; [lia|].
  rw -fmap_S_seq -list_fmap_compose. apply list_fmap_ext. intros; simpl. lia.
Qed.

Lemma elem_of_pages_from p n v :
  v ∈ pages_from p n ↔ ∃ i, (i < n)%nat ∧ v = p + Z.of_nat i * PGSIZE.
Proof.
  rw /pages_from list_elem_of_fmap. setoid_rewrite elem_of_seq.
  split; intros (i&?&?); exists i; split; done || lia.
Qed.

Lemma freerange_loop_spec fuel n p vend s l :
  n = Z.to_nat ((vend - p) / PGSIZE) → (n ≤ fuel)%nat →
  free_pages s l → Forall page_ok (pages_from p n) →
  (∀ q, q ∈ pages_from p n → q ∉ l) →
  ∃ s', freerange_loop fuel p vend s = Ret tt s' ∧
        free_pages s' (reverse (pages_from p n) ++ l) ∧ km_held s' = km_held s ∧
        km_use_lock s' = km_use_lock s.
Proof.
  revert n p s l. induction fuel as [|fuel IH]; intros n p s l Hn Hle Hfp Hok Hl; simpl.
  - assert (n = 0%nat) as -> by lia. eexists; split_and!; done.
  - destruct (Z.leb_spec (p + PGSIZE) vend) as [Hv|Hv].
    + assert (n = S (Z.to_nat ((vend - (p + PGSIZE)) / PGSIZE))) as Hn1.
      { rw Hn /PGSIZE in Hv |- *. Z.div_mod_to_equations. lia. }
      set n1 := Z.to_nat ((vend - (p + PGSIZE)) / PGSIZE) in Hn1.
      rw Hn1 pages_from_S in Hok Hl. apply Forall_cons in Hok as [Hp Hok].
      destruct (kfree_pushes p s l Hfp Hp) as (s1&Hrun&Hfp1&_&Hu1&Hh1).
      { apply Hl. by left. }
      rw (bind_Ret _ _ _ tt s1) //.
      destruct (IH n1 (p + PGSIZE) s1 (p :: l)) as (s2&Hrun2&Hfp2&Hh2&Hu2);
        [done|lia|done|done| |].
      { intros q Hq [->|Hql]%elem_of_cons; [|by apply (Hl q); [right|]].
        apply elem_of_pages_from in Hq as (i&_&Hq). rw /PGSIZE in Hq. lia. }
      exists s2. split_and!; [done| |congruence|congruence].
      by rw Hn1 pages_from_S reverse_cons -app_assoc.
    + assert (n = 0%nat) as ->.
      { rw Hn /PGSIZE in Hv |- *. Z.div_mod_to_equations. lia. }
      eexists; split_and!; done.
Qed.

Lemma pgmask x :
  0 ≤ x < 2 ^ 32 → Z.land x (u32 (Z.lnot (PGSIZE - 1))) = x / PGSIZE * PGSIZE.
Proof.
  intros Hx. change (u32 (Z.lnot (PGSIZE - 1))) with (Z.shiftl (Z.ones 20) 12).
  change PGSIZE with (2 ^ 12). rw -Z.shiftl_mul_pow2 // -Z.shiftr_div_pow2 //.
  apply Z.bits_inj'. intros n Hn. rw Z.land_spec.
  destruct (decide (n < 12)).
  - rw !Z.shiftl_spec_low //. by rw andb_false_r.
  - rw !Z.shiftl_spec //; [lia|]. replace (n - 12 - - (12)) with n by lia.
    destruct (decide (n < 32)).
    + rw Z.ones_spec_low; [lia|]. by rw andb_true_r.
    + rw Z.ones_spec_high; [lia|]. rw andb_false_r.
      rw -(Z.mod_small x (2 ^ 32)) // Z.mod_pow2_bits_high //. lia.
Qed.

Lemma PGROUNDUP_eq sz :
  0 ≤ sz → sz + PGSIZE - 1 < 2 ^ 32 → PGROUNDUP sz = (sz + PGSIZE - 1) / PGSIZE * PGSIZE.
Proof.
  intros H0 H1. rw /PGROUNDUP u32_small; [rw /PGSIZE in H1 |- *; lia|].
  apply pgmask. rw /PGSIZE in H1 |- *. lia.
Qed.

Lemma PGROUNDDOWN_eq a : 0 ≤ a < 2 ^ 32 → PGROUNDDOWN a = a / PGSIZE * PGSIZE.
Proof. apply pgmask. Qed.

Lemma freerange_spec vstart vend s l :
  KERNBASE ≤ kend ≤ vstart → vstart ≤ vend ≤ KERNBASE + PHYSTOP →
  free_pages s l → (∀ q, q ∈ l → q < vstart ∨ vend ≤ q) →
  ∃ s' l', freerange vstart vend s = Ret tt s' ∧ free_pages s' l' ∧
    (∀ v, v ∈ l' ↔ v ∈ l ∨ v mod PGSIZE = 0 ∧ vstart ≤ v ∧ v + PGSIZE ≤ vend) ∧
    km_held s' = km_held s ∧ km_use_lock s' = km_use_lock s.
Proof.
  intros Hs Hv Hfp Hl. rw /freerange.
  assert (PGROUNDUP vstart = (vstart + PGSIZE - 1) / PGSIZE * PGSIZE) as Hp.
  { apply PGROUNDUP_eq; rw /KERNBASE /PHYSTOP /PGSIZE in Hs Hv |- *; lia. }
  set p := PGROUNDUP vstart in Hp |- *. set n := Z.to_nat ((vend - p) / PGSIZE).
  assert (∀ v, v ∈ pages_from p n ↔
            v mod PGSIZE = 0 ∧ vstart ≤ v ∧ v + PGSIZE ≤ vend) as Hin.
  { intros v. rw elem_of_pages_from /n Hp. clear -Hs Hv.
    rw /KERNBASE /PHYSTOP /PGSIZE in Hs Hv |- *. split.
    - intros (i&Hi&->). split_and!; [|Z.div_mod_to_equations; lia..].
      rw -Z.mul_add_distr_r Z_mod_mult //.
    - intros (Hm&H1&H2).
      exists (Z.to_nat ((v - (vstart + 4096 - 1) / 4096 * 4096) / 4096)).
      Z.div_mod_to_equations. lia. }
  assert (0 ≤ p) by (rw Hp /PGSIZE /KERNBASE in Hs |- *; Z.div_mod_to_equations; lia).
  destruct (freerange_loop_spec (Z.to_nat (vend / PGSIZE)) n p vend s l)
    as (s'&Hrun&Hfp'&Hh&Hu); [done| |done| | |].
  - assert ((vend - p) / PGSIZE ≤ vend / PGSIZE) by (apply Z.div_le_mono; [done|lia]). lia.
  - apply Forall_forall. intros v (Hm&H1&H2)%Hin. rw /PGSIZE in H2.
    split_and!; [done|lia..].
  - intros q (Hm&H1&H2)%Hin Hq. apply Hl in Hq. rw /PGSIZE in H2. lia.
  - exists s', (reverse (pages_from p n) ++ l). split_and!; try done.
    intros v. rw elem_of_app elem_of_reverse Hin. tauto.
Qed.

End Kalloc.

(** ** Main results *)

Lemma not_page_ok_checks kend v :
  0 ≤ v < 2 ^ 32 → ¬ page_ok kend v →
  negb (v mod PGSIZE =? 0) || (v <? kend) || (PHYSTOP <=? V2P v) = true.
Proof.
  intros Hv Hbad. destruct (_ || _ || _) eqn:E; [done|]. exfalso. apply Hbad.
  apply orb_false_iff in E as [[Ha He]%orb_false_iff Hp].
  apply negb_false_iff, Z.eqb_eq in Ha. apply Z.ltb_ge in He. apply Z.leb_gt in Hp.
  split_and!; [done|lia|..];
    rw /V2P /u32 /KERNBASE /PHYSTOP in Hp |- *; Z.div_mod_to_equations; lia.
Qed.

(** C31: the page allocator refines a stack of distinct pages.  [kalloc] pops the
    top page without touching memory and returns 0 exactly on the empty list;
    [kfree] of an acceptable page pushes it and changes no byte outside the page;
    [kfree] of anything else (unaligned, inside the kernel image, beyond physical
    memory) panics. *)
Theorem allocator_refines_stack kend s l :
  free_pages kend s l →
  match l with
  | [] => kalloc s = Ret 0 s
  | p :: l' => ∃ s', kalloc s = Ret p s' ∧ free_pages kend s' l' ∧ km_mem s' = km_mem s
  end ∧
  (∀ v, page_ok kend v → v ∉ l →
     ∃ s', kfree kend v s = Ret tt s' ∧ free_pages kend s' (v :: l) ∧
           ∀ a, a < v ∨ v + PGSIZE ≤ a → ld8 (km_mem s') a = ld8 (km_mem s) a) ∧
  (∀ v, 0 ≤ v < 2 ^ 32 → ¬ page_ok kend v → kfree kend v s = Panic "kfree").
Proof.
  intros Hfp. split_and!.
  - destruct l as [|p l]; [exact (kalloc_empty kend s Hfp)|].
    destruct (kalloc_pops kend s p l Hfp) as [Hrun Hfp']. eauto.
  - intros v Hv Hvl.
    destruct (kfree_pushes kend v s l Hfp Hv Hvl) as (s'&?&?&?&_&_). eauto.
  - intros v Hv Hbad. by rw /kfree not_page_ok_checks.
Qed.

(** The state before [main] calls [kinit1]: cleared bss. *)
Definition kmem_boot : kmem_state := Kmem ∅ 0 false [].

(** After [kinit1(end, P2V(4MB))] and [kinit2(P2V(4MB), P2V(PHYSTOP))] the free
    list holds every page the allocator accepts, each once, and no other. *)
Theorem kinit_frees_every_page kend mid :
  KERNBASE ≤ kend ≤ mid → mid ≤ KERNBASE + PHYSTOP → mid mod PGSIZE = 0 →
  ∃ s l, (kinit1 kend kend mid ≫= λ _, kinit2 kend mid (KERNBASE + PHYSTOP)) kmem_boot
           = Ret tt s ∧
         free_pages kend s l ∧ km_use_lock s = true ∧ ∀ v, v ∈ l ↔ page_ok kend v.
Proof.
  intros Hk Hm Hal.
  destruct (freerange_spec kend kend mid kmem_boot []) as (s1&l1&Hr1&Hfp1&Hl1&Hh1&Hu1).
  { lia. } { lia. } { split; try constructor; simpl; set_solver. } { set_solver. }
  destruct (freerange_spec kend mid (KERNBASE + PHYSTOP) s1 l1)
    as (s2&l2&Hr2&Hfp2&Hl2&Hh2&Hu2); [lia|lia|done| |].
  { intros q [?%not_elem_of_nil|(?&?&?)]%Hl1; [done|]. rw /PGSIZE in H1. lia. }
  exists (Kmem (km_mem s2) (km_freelist s2) true (km_held s2)), l2. split_and!.
  - apply wp_eq. wp_step. rw /kinit1. wp_steps. eapply wp_intro; [exact Hr1|].
    rw /kinit2. wp_steps. eapply wp_intro; [exact Hr2|]. by wp_steps.
  - by destruct Hfp2.
  - done.
  - intros v. rw Hl2 Hl1 elem_of_nil /page_ok /PGSIZE.
    rw /PGSIZE /KERNBASE /PHYSTOP in Hal Hm Hk |- *. Z.div_mod_to_equations. lia.
Qed.

Lemma allocator_refines_stack_witness :
  ∃ s', kalloc (Kmem ∅ KERNLINK false []) = Ret KERNLINK s'.
Proof.
  assert (free_pages KERNLINK (Kmem ∅ KERNLINK false []) [KERNLINK]) as Hfp.
  { split; [split; reflexivity| | |]; simpl.
    - apply NoDup_singleton.
    - apply (bool_decide_unpack _). vm_compute. exact I.
    - apply not_elem_of_nil. }
  destruct (allocator_refines_stack KERNLINK _ _ Hfp) as [(s'&H&_) _].
  exists s'. exact H.
Defined.

Lemma kinit_frees_every_page_witness :
  ∃ s l, (kinit1 KERNLINK KERNLINK (P2V 0x400000)
            ≫= λ _, kinit2 KERNLINK (P2V 0x400000) (KERNBASE + PHYSTOP)) kmem_boot
           = Ret tt s ∧ free_pages KERNLINK s l.
Proof.
  destruct (kinit_frees_every_page KERNLINK (P2V 0x400000)) as (s&l&H1&H2&_).
  - vm_compute. split; intro; discriminate.
  - vm_compute. intro; discriminate.
  - reflexivity.
  - exists s, l. split; [exact H1|exact H2].
Defined.
