(* ===== verification/Vm.v ===== *)
(** * Page tables and user memory (xv6/vm.c; macros of mmu.h).

    The page directory and the page tables live in the pages of [Kalloc]: an entry
    is a 32-bit word of memory, addressed through the kernel's mapping ([P2V]).
    [pte_of] is the two-level walk of the hardware, the contract of the component;
    [pgdir_ok] says that the directory and its tables are distinct pages the
    allocator has handed out.  The theorems: [walkpgdir] finds (or creates) the
    entry without changing any translation, [mappages] installs exactly the
    translations of its range, [allocuvm] maps fresh zeroed pages, [deallocuvm] frees
    them, [uva2ka] respects the user bit. *)
From S2P Require Import Prelude CMem Str Spinlock Kalloc.
Local Open Scope Z_scope.

(** ** Macros *)

Definition NPDENTRIES : Z := 1024.
Definition NPTENTRIES : Z := 1024.
Definition PTXSHIFT : Z := 12.
Definition PDXSHIFT : Z := 22.
Definition PTE_P : Z := 0x001.
Definition PTE_W : Z := 0x002.
Definition PTE_U : Z := 0x004.

Definition PDX (va : Z) : Z := Z.land (Z.shiftr va PDXSHIFT) 0x3FF.
Definition PTX (va : Z) : Z := Z.land (Z.shiftr va PTXSHIFT) 0x3FF.
Definition PGADDR (d t o : Z) : Z :=
  u32 (Z.lor (Z.lor (Z.shiftl d PDXSHIFT) (Z.shiftl t PTXSHIFT)) o).
Definition PTE_ADDR (pte : Z) : Z := Z.land pte (u32 (Z.lnot 0xFFF)).
Definition PTE_FLAGS (pte : Z) : Z := Z.land pte 0xFFF.

Definition bit_set (w flag : Z) : bool := negb (Z.land w flag =? 0).

(** ** Operations *)

Definition load32 (a : Z) : K kmem_state Z := gets (λ s, ld32 (km_mem s) a).
Definition store32 (a v : Z) : K kmem_state unit := upd_mem (st32 a v).

Section Vm.
(** Linker symbols: [kend] is [end], [kdata] is [data]. *)
Variable kend : Z.
Variable kdata : Z.

Definition walkpgdir (pgdir va : Z) (alloc : bool) : K kmem_state Z :=
  let pde := pgdir + 4 * PDX va in
  e ← load32 pde;
  if bit_set e PTE_P then mret (P2V (PTE_ADDR e) + 4 * PTX va)
  else if negb alloc then mret 0
  else
    pgtab ← kalloc;
    if pgtab =? 0 then mret 0
    else
      _ ← upd_mem (memset pgtab 0 PGSIZE);
      _ ← store32 pde (Z.lor (Z.lor (Z.lor (V2P pgtab) PTE_P) PTE_W) PTE_U);
      mret (pgtab + 4 * PTX va).

(** One round of [mappages]: -1 when [walkpgdir] fails. *)
Definition map_page (pgdir a pa perm : Z) : K kmem_state Z :=
  pte ← walkpgdir pgdir a true;
  if pte =? 0 then mret (-1)
  else
    w ← load32 pte;
    if bit_set w PTE_P then panic "remap"
    else
      _ ← store32 pte (Z.lor (Z.lor pa perm) PTE_P);
      mret 0.

(** The [for(;;)] of [mappages]; [n] counts the pages from [a] to [last]. *)
Fixpoint mappages_loop (n : nat) (pgdir a last pa perm : Z) : K kmem_state Z :=
  match n with
  | O => undef "unreachable"
  | S k =>
      r ← map_page pgdir a pa perm;
      if r <? 0 then mret (-1)
      else if a =? last then mret 0
      else mappages_loop k pgdir (u32 (a + PGSIZE)) last (u32 (pa + PGSIZE)) perm
  end.

Definition mappages (pgdir va size pa perm : Z) : K kmem_state Z :=
  let a := PGROUNDDOWN va in
  let last := PGROUNDDOWN (u32 (u32 (va + size) - 1)) in
  mappages_loop (S (Z.to_nat (u32 (last - a) / PGSIZE))) pgdir a last pa perm.

(** [for(; a < oldsz; a += PGSIZE)] of [deallocuvm]. *)
Fixpoint deallocuvm_loop (fuel : nat) (pgdir a oldsz : Z) : K kmem_state unit :=
  if negb (a <? oldsz) then mret tt
  else match fuel with
  | O => undef "out of fuel"
  | S k =>
      pte ← walkpgdir pgdir a false;
      if pte =? 0 then
        let a := u32 (PGADDR (PDX a + 1) 0 0 - PGSIZE) in
        deallocuvm_loop k pgdir (u32 (a + PGSIZE)) oldsz
      else
        w ← load32 pte;
        _ ← (if bit_set w PTE_P then
               let pa := PTE_ADDR w in
               if pa =? 0 then panic "kfree"
               else _ ← kfree kend (P2V pa); store32 pte 0
             else mret tt);
        deallocuvm_loop k pgdir (u32 (a + PGSIZE)) oldsz
  end.

Definition deallocuvm (pgdir oldsz newsz : Z) : K kmem_state Z :=
  if oldsz <=? newsz then mret oldsz
  else
    _ ← deallocuvm_loop (S (Z.to_nat (oldsz / PGSIZE))) pgdir (PGROUNDUP newsz) oldsz;
    mret newsz.

(** [for(; a < newsz; a += PGSIZE)] of [allocuvm]; [true] when every page was
    mapped, [false] when memory ran out and the pages were given back. *)
Fixpoint allocuvm_loop (fuel : nat) (pgdir a oldsz newsz : Z) : K kmem_state bool :=
  if negb (a <? newsz) then mret true
  else match fuel with
  | O => undef "out of fuel"
  | S k =>
      mem ← kalloc;
      if mem =? 0 then
        _ ← deallocuvm pgdir newsz oldsz;
        mret false
      else
        _ ← upd_mem (memset mem 0 PGSIZE);
        r ← mappages pgdir a PGSIZE (V2P mem) (Z.lor PTE_W PTE_U);
        if r <? 0 then
          _ ← deallocuvm pgdir newsz oldsz;
          _ ← kfree kend mem;
          mret false
        else allocuvm_loop k pgdir (u32 (a + PGSIZE)) oldsz newsz
  end.

Definition allocuvm (pgdir oldsz newsz : Z) : K kmem_state Z :=
  if KERNBASE <=? newsz then mret 0
  else if newsz <? oldsz then mret oldsz
  else
    ok ← allocuvm_loop (S (Z.to_nat (newsz / PGSIZE))) pgdir (PGROUNDUP oldsz) oldsz newsz;
    mret (if (ok : bool) then newsz else 0).

Definition freevm (pgdir : Z) : K kmem_state unit :=
  if pgdir =? 0 then panic "freevm: no pgdir"
  else
    _ ← deallocuvm pgdir KERNBASE 0;
    _ ← for_each (range 0 NPDENTRIES) (λ i,
          e ← load32 (pgdir + 4 * i);
          if bit_set e PTE_P then kfree kend (P2V (PTE_ADDR e)) else mret tt);
    kfree kend pgdir.

Record kmap := Kmap { virt : Z; phys_start : Z; phys_end : Z; kperm : Z }.
Definition kmaps : list kmap := [
  Kmap KERNBASE 0 EXTMEM PTE_W;
  Kmap KERNLINK (V2P KERNLINK) (V2P kdata) 0;
  Kmap kdata (V2P kdata) PHYSTOP PTE_W;
  Kmap DEVSPACE DEVSPACE 0 PTE_W ].

Definition setupkvm : K kmem_state Z :=
  pgdir ← kalloc;
  if pgdir =? 0 then mret 0
  else
    _ ← upd_mem (memset pgdir 0 PGSIZE);
    if DEVSPACE <? P2V PHYSTOP then panic "PHYSTOP too high"
    else
      r ← for_break kmaps (λ k,
            r ← mappages pgdir (virt k) (u32 (phys_end k - phys_start k))
                  (phys_start k) (kperm k);
            if r <? 0 then _ ← freevm pgdir; mret (Some 0) else mret None);
      mret (default pgdir r).

Definition inituvm (pgdir init sz : Z) : K kmem_state unit :=
  if PGSIZE <=? sz then panic "inituvm: more than a page"
  else
    mem ← kalloc;
    _ ← upd_mem (memset mem 0 PGSIZE);
    _ ← mappages pgdir 0 PGSIZE (V2P mem) (Z.lor PTE_W PTE_U);
    upd_mem (memmove mem init sz).

(** [readi dst off n] reads [n] bytes at offset [off] of the program's inode into the kernel
    address [dst] (fs.c); [lift] runs the page-table code in the state that [readi] needs. *)
Definition loaduvm {S} (lift : ∀ A, K kmem_state A → K S A) (readi : Z → Z → Z → K S Z) (pgdir addr offset sz : Z)
    : K S Z :=
  if negb (addr mod PGSIZE =? 0) then panic "loaduvm: addr must be page aligned"
  else
    r ← for_break ((λ k, k * PGSIZE) <$> range 0 ((sz + PGSIZE - 1) / PGSIZE)) (λ i,
          pte ← lift Z (walkpgdir pgdir (addr + i) false);
          if pte =? 0 then panic "loaduvm: address should exist"
          else
            w ← lift Z (load32 pte);
            let pa := PTE_ADDR w in
            let n := if sz - i <? PGSIZE then sz - i else PGSIZE in
            r ← readi (P2V pa) (u32 (offset + i)) n;
            mret (if r =? n then None else Some (-1)));
    mret (default 0 r).

Definition clearpteu (pgdir uva : Z) : K kmem_state unit :=
  pte ← walkpgdir pgdir uva false;
  if pte =? 0 then panic "clearpteu"
  else
    w ← load32 pte;
    store32 pte (Z.land w (u32 (Z.lnot PTE_U))).

Definition copyuvm (pgdir sz : Z) : K kmem_state Z :=
  d ← setupkvm;
  if d =? 0 then mret 0
  else
    r ← for_break ((λ k, k * PGSIZE) <$> range 0 ((sz + PGSIZE - 1) / PGSIZE)) (λ i,
          pte ← walkpgdir pgdir i false;
          if pte =? 0 then panic "copyuvm: pte should exist"
          else
            w ← load32 pte;
            if negb (bit_set w PTE_P) then panic "copyuvm: page not present"
            else
              let pa := PTE_ADDR w in
              let flags := PTE_FLAGS w in
              mem ← kalloc;
              if mem =? 0 then mret (Some tt)
              else
                _ ← upd_mem (memmove mem (P2V pa) PGSIZE);
                r ← mappages d i PGSIZE (V2P mem) flags;
                if r <? 0 then _ ← kfree kend mem; mret (Some tt) else mret None);
    match r with
    | None => mret d
    | Some _ => _ ← freevm d; mret 0
    end.

(** [walkpgdir] may return the null pointer, which [uva2ka] dereferences. *)
Definition uva2ka (pgdir uva : Z) : K kmem_state Z :=
  pte ← walkpgdir pgdir uva false;
  if pte =? 0 then undef "uva2ka: null pte dereferenced"
  else
    w ← load32 pte;
    if negb (bit_set w PTE_P) then mret 0
    else if negb (bit_set w PTE_U) then mret 0
    else mret (P2V (PTE_ADDR w)).

(** Bytes stored from an address on. *)
Definition store_bytes (a : Z) (bs : list Z) (m : mem) : mem :=
  (foldl (λ '(m, a) b, (st8 a b m, a + 1)) (m, a) bs).1.

(** [while(len > 0)] of [copyout]: each round finishes a page.  [bs] are the [len] bytes left at [p]. *)
Fixpoint copyout_loop (fuel : nat) (pgdir va : Z) (bs : list Z) : K kmem_state Z :=
  let len := Z.of_nat (length bs) in
  if negb (0 <? len) then mret 0
  else match fuel with
  | O => undef "out of fuel"
  | S k =>
      let va0 := PGROUNDDOWN va in
      pa0 ← uva2ka pgdir va0;
      if pa0 =? 0 then mret (-1)
      else
        let n := PGSIZE - (va - va0) in
        let n := if len <? n then len else n in
        _ ← upd_mem (store_bytes (pa0 + (va - va0)) (take (Z.to_nat n) bs));
        copyout_loop k pgdir (u32 (va0 + PGSIZE)) (drop (Z.to_nat n) bs)
  end.
Definition copyout (pgdir va : Z) (bs : list Z) : K kmem_state Z :=
  copyout_loop (S (S (length bs / Z.to_nat PGSIZE))) pgdir va bs.

End Vm.

(** ** The hardware's view of a page directory *)

Definition ptab (m : mem) (pgdir i : Z) : option Z :=
  let e := ld32 m (pgdir + 4 * i) in
  if bit_set e PTE_P then Some (P2V (PTE_ADDR e)) else None.

(** The page-table entry the MMU uses for [va]; 0 when there is no table. *)
Definition pte_of (m : mem) (pgdir va : Z) : Z :=
  match ptab m pgdir (PDX va) with
  | Some t => ld32 m (t + 4 * PTX va)
  | None => 0
  end.

Definition in_page (p a : Z) : Prop := p ≤ a < p + PGSIZE.

(** [a] is in no page of the directory, of its tables or of the free list. *)
Definition outside (m : mem) (pgdir : Z) (l : list Z) (a : Z) : Prop :=
  ¬ in_page pgdir a ∧ (∀ i t, 0 ≤ i < 1024 → ptab m pgdir i = Some t → ¬ in_page t a) ∧
  ∀ q, q ∈ l → ¬ in_page q a.

Section VmFacts.
Variable kend : Z.

Record pgdir_ok (s : kmem_state) (pgdir : Z) (l : list Z) : Prop := {
  po_free : free_pages kend s l;
  po_page : page_ok kend pgdir;
  po_used : pgdir ∉ l;
  po_tabs : ∀ i t, 0 ≤ i < 1024 → ptab (km_mem s) pgdir i = Some t →
              page_ok kend t ∧ t ∉ l ∧ t ≠ pgdir;
  po_inj : ∀ i j t, 0 ≤ i < 1024 → 0 ≤ j < 1024 →
             ptab (km_mem s) pgdir i = Some t → ptab (km_mem s) pgdir j = Some t → i = j
}.

Lemma PDX_eq va : 0 ≤ va < 2 ^ 32 → PDX va = va / 2 ^ 22.
Proof.
  intros. rw /PDX /PDXSHIFT. change 0x3FF with (Z.ones 10).
  rw Z.land_ones // Z.shiftr_div_pow2 //. apply Z.mod_small.
  Z.div_mod_to_equations. lia.
Qed.
Lemma PTX_eq va : PTX va = (va / 2 ^ 12) mod 1024.
Proof.
  rw /PTX /PTXSHIFT. change 0x3FF with (Z.ones 10).
  rw Z.land_ones // Z.shiftr_div_pow2 //.
Qed.
Lemma PDX_range va : 0 ≤ PDX va < 1024.
Proof.
  rw /PDX. change 0x3FF with (Z.ones 10). rw Z.land_ones //. by apply Z.mod_pos_bound.
Qed.
Lemma PTX_range va : 0 ≤ PTX va < 1024.
Proof. rw PTX_eq. by apply Z.mod_pos_bound. Qed.

(** Directory and table index together identify the page of an address. *)
Lemma same_page va va' :
  0 ≤ va < 2 ^ 32 → 0 ≤ va' < 2 ^ 32 →
  (PDX va' = PDX va ∧ PTX va' = PTX va) ↔ va' / PGSIZE = va / PGSIZE.
Proof.
  intros Hva Hva'. rw !PDX_eq // !PTX_eq. change (2 ^ 12) with PGSIZE.
  assert (∀ x, x / 2 ^ 22 = (x / PGSIZE) / 1024) as Hd.
  { intros x. rw Z.div_div //. }
  rw !Hd. split; [|by intros ->]. intros [E1 E2].
  rw (Z.div_mod (va' / PGSIZE) 1024) // (Z.div_mod (va / PGSIZE) 1024) //.
  by rw E1 E2.
Qed.

Lemma PTE_ADDR_eq w : 0 ≤ w < 2 ^ 32 → PTE_ADDR w = w / PGSIZE * PGSIZE.
Proof. apply pgmask. Qed.

Lemma page_phys p :
  page_ok kend p → 0 ≤ V2P p < PHYSTOP ∧ V2P p mod 2 ^ 12 = 0 ∧ P2V (V2P p) = p.
Proof.
  rw /page_ok /V2P /P2V /KERNBASE /PHYSTOP /PGSIZE. intros (Ha&_&Hr).
  rw u32_small; [lia|]. split_and!; [lia..| |].
  - change (2 ^ 12) with 4096. Z.div_mod_to_equations. lia.
  - rw u32_small; lia.
Qed.

(** An entry that points at a page, with flags in its low bits. *)
Lemma entry_page p f :
  page_ok kend p → 0 ≤ f < 2 ^ 12 →
  0 ≤ Z.lor (V2P p) f < 2 ^ 32 ∧ P2V (PTE_ADDR (Z.lor (V2P p) f)) = p ∧
  PTE_FLAGS (Z.lor (V2P p) f) = f.
Proof.
  intros Hp Hf. destruct (page_phys p Hp) as (Hr&Ha&Hv).
  rw (lor_aligned_small 12) //. rw /PHYSTOP in Hr. split_and!; [lia..| |].
  - rw PTE_ADDR_eq; [lia|]. rw -{2}Hv. f_equal. change PGSIZE with (2 ^ 12).
    Z.div_mod_to_equations. lia.
  - rw /PTE_FLAGS. change 0xFFF with (Z.ones 12). rw Z.land_ones //.
    Z.div_mod_to_equations. lia.
Qed.

Lemma bit_set_odd w : bit_set w PTE_P = Z.odd w.
Proof.
  rw /bit_set /PTE_P. change 0x001 with (Z.ones 1). rw Z.land_ones // Zmod_odd.
  by destruct (Z.odd w).
Qed.

Lemma entry_present p f : bit_set (Z.lor p (Z.lor f PTE_P)) PTE_P = true.
Proof.
  rw bit_set_odd -Z.bit0_odd !Z.lor_spec. by rw !orb_true_r.
Qed.

Lemma ptab_page s pgdir l i t :
  pgdir_ok s pgdir l → 0 ≤ i < 1024 → ptab (km_mem s) pgdir i = Some t → page_ok kend t.
Proof. intros Hok Hi Ht. by apply (po_tabs _ _ _ Hok i t). Qed.

(** A word store inside a page leaves the words of other pages alone. *)
Lemma ld32_page_apart (m : mem) p q a b v :
  page_ok kend p → page_ok kend q → p ≠ q →
  0 ≤ a < 1024 → 0 ≤ b < 1024 →
  ld32 (st32 (p + 4 * a) v m) (q + 4 * b) = ld32 m (q + 4 * b).
Proof.
  intros [Hp _] [Hq _] Hne Ha Hb. apply ld32_st32_ne.
  destruct (pages_apart p q Hp Hq Hne) as [?|?]; rw /PGSIZE in H; lia.
Qed.

Lemma ld32_same_page (m : mem) p a b v :
  a ≠ b → ld32 (st32 (p + 4 * a) v m) (p + 4 * b) = ld32 m (p + 4 * b).
Proof. intros. apply ld32_st32_ne. lia. Qed.

Lemma free_pages_mem s l m' :
  free_pages kend s l → (∀ p, p ∈ l → ld32 m' p = ld32 (km_mem s) p) →
  free_pages kend (set_mem m' s) l.
Proof.
  intros [Hch Hnd Hok Hlk] Hm. split; try done. simpl.
  eapply chain_ext; eassumption.
Qed.

Lemma ld32_memset_page (m : mem) p q b c :
  page_ok kend p → page_ok kend q → p ≠ q → 0 ≤ b < 1024 →
  ld32 (memset p c PGSIZE m) (q + 4 * b) = ld32 m (q + 4 * b).
Proof.
  intros [Hp _] [Hq _] Hne Hb. apply ld32_memset; [done|].
  destruct (pages_apart p q Hp Hq Hne) as [?|?]; rw /PGSIZE in H |- *; lia.
Qed.

(** The memory after [walkpgdir] installed a fresh table [t] at index [d]. *)
Definition with_table (m : mem) (pgdir d t : Z) : mem :=
  st32 (pgdir + 4 * d) (Z.lor (Z.lor (Z.lor (V2P t) PTE_P) PTE_W) PTE_U)
    (memset t 0 PGSIZE m).

Lemma with_table_other m pgdir d t q b :
  page_ok kend pgdir → page_ok kend t → page_ok kend q → 0 ≤ d < 1024 → 0 ≤ b < 1024 →
  q ≠ pgdir → q ≠ t → ld32 (with_table m pgdir d t) (q + 4 * b) = ld32 m (q + 4 * b).
Proof.
  intros. rw /with_table ld32_page_apart //; [congruence|].
  rw ld32_memset_page //. congruence.
Qed.

Lemma with_table_ptab m pgdir d t i :
  page_ok kend pgdir → page_ok kend t → t ≠ pgdir → 0 ≤ d < 1024 → 0 ≤ i < 1024 →
  ptab (with_table m pgdir d t) pgdir i =
  if decide (i = d) then Some t else ptab m pgdir i.
Proof.
  intros Hd Ht Hne Hdr Hi. rw /ptab /with_table.
  assert (Z.lor (Z.lor (Z.lor (V2P t) PTE_P) PTE_W) PTE_U
          = Z.lor (V2P t) (Z.lor (Z.lor PTE_W PTE_U) PTE_P)) as ->.
  { rw -!Z.lor_assoc. done. }
  destruct (entry_page t (Z.lor (Z.lor PTE_W PTE_U) PTE_P) Ht) as (Hr&Hp&_);
    [vm_compute; split; congruence|].
  case_decide as Hid.
  - subst. rw ld32_st32_eq // entry_present. by rw Hp.
  - rw ld32_same_page; [congruence|]. by rw ld32_memset_page.
Qed.

Lemma ld8_with_table m pgdir d t a :
  0 ≤ d < 1024 → ¬ in_page pgdir a → ¬ in_page t a →
  ld8 (with_table m pgdir d t) a = ld8 m a.
Proof.
  rw /in_page /with_table /PGSIZE. intros Hd Ha Hb.
  rw ld8_st32_ne; [lia|]. rw ld8_memset //. rw decide_False //.
Qed.

(** What [walkpgdir] guarantees when it returns the entry [t[PTX va]]. *)
Record walked (s s' : kmem_state) (pgdir va t : Z) (l l' : list Z) : Prop := {
  wk_tab : ptab (km_mem s') pgdir (PDX va) = Some t;
  wk_ok : pgdir_ok s' pgdir l';
  wk_free : l' = l ∨ l = t :: l';
  wk_keep : ∀ i t', 0 ≤ i < 1024 → ptab (km_mem s) pgdir i = Some t' →
    ptab (km_mem s') pgdir i = Some t';
  wk_pte : ∀ va', pte_of (km_mem s') pgdir va' = pte_of (km_mem s) pgdir va';
  wk_mono : ∀ a, outside (km_mem s) pgdir l a → outside (km_mem s') pgdir l' a;
  wk_frame : ∀ a, outside (km_mem s) pgdir l a → ld8 (km_mem s') a = ld8 (km_mem s) a
}.

Lemma walked_fresh s pgdir va t l :
  pgdir_ok s pgdir (t :: l) → ptab (km_mem s) pgdir (PDX va) = None →
  let s' := set_mem (with_table (km_mem s) pgdir (PDX va) t)
              (set_freelist (ld32 (km_mem s) t) s) in
  walked s s' pgdir va t (t :: l) l.
Proof.
  intros Hok Hnone s'. pose proof Hok as [Hfp Hpg Hu Htabs Hinj].
  apply not_elem_of_cons in Hu as [Hpt Hpl].
  pose proof (fp_nodup _ _ _ Hfp) as [Htl Hnd]%NoDup_cons.
  pose proof (fp_ok _ _ _ Hfp) as [Ht Hlok]%Forall_cons.
  rw Forall_forall in Hlok.
  pose proof (PDX_range va) as Hd.
  assert (∀ i, 0 ≤ i < 1024 → ptab (km_mem s') pgdir i =
            if decide (i = PDX va) then Some t else ptab (km_mem s) pgdir i) as Hptab.
  { intros i Hi. apply with_table_ptab; try done. congruence. }
  assert (∀ i t', 0 ≤ i < 1024 → ptab (km_mem s) pgdir i = Some t' → t' ≠ t) as Hnew.
  { intros i t' Hi Ht' ->. destruct (Htabs i t Hi Ht') as (_&Hin&_).
    by apply Hin; left. }
  split.
  - by rw Hptab // decide_True.
  - split.
    + apply free_pages_mem; [by apply (kalloc_pops kend s t l)|].
      intros p Hp. simpl. replace p with (p + 4 * 0) by lia.
      apply with_table_other; try done; [by apply Hlok|set_solver|set_solver].
    + done.
    + done.
    + intros i t' Hi. rw Hptab //. case_decide.
      * intros [= <-]. split_and!; congruence || done.
      * intros Ht'. destruct (Htabs i t' Hi Ht') as (?&?&?). set_solver.
    + intros i j t' Hi Hj. rw !Hptab //. repeat case_decide; subst; try done.
      * intros [= <-] Ht'. by destruct (Hnew j t Hj Ht').
      * intros Ht' [= <-]. by destruct (Hnew i t Hi Ht').
      * by apply Hinj.
  - by right.
  - intros i t' Hi Ht'. rw Hptab //. case_decide; [congruence|done].
  - intros va'. pose proof (PDX_range va') as Hd'. rw /pte_of Hptab //.
    case_decide as E.
    + rw E Hnone. rw /s' /= /with_table ld32_page_apart //; [apply PTX_range|].
      pose proof (PTX_range va'). apply ld32_memset0; rw /PGSIZE; lia.
    + destruct (ptab (km_mem s) pgdir (PDX va')) as [t'|] eqn:Ht'; [|done].
      destruct (Htabs _ t' Hd' Ht') as (?&?&?).
      apply with_table_other; try done; [apply PTX_range|eapply Hnew; eassumption].
  - intros a (Ha1&Ha2&Ha3). split_and!; [done| |set_solver].
    intros i t' Hi. rw Hptab //. case_decide; [|by apply Ha2].
    intros [= <-]. apply Ha3. by left.
  - intros a (Ha1&Ha2&Ha3). apply ld8_with_table; [done..|]. apply Ha3. by left.
Qed.

Lemma walked_existing s pgdir va t l :
  pgdir_ok s pgdir l → ptab (km_mem s) pgdir (PDX va) = Some t →
  walked s s pgdir va t l l.
Proof. intros Hok Ht. split; try done. by left. Qed.

Lemma walkpgdir_wp pgdir va alloc s l :
  pgdir_ok s pgdir l →
  wp (walkpgdir pgdir va alloc) s (λ r s',
    (r = 0 ∧ s' = s ∧ ptab (km_mem s) pgdir (PDX va) = None ∧
       (alloc = true → l = [])) ∨
    (∃ t l', r = t + 4 * PTX va ∧ KERNBASE ≤ r ∧ walked s s' pgdir va t l l' ∧
       (alloc = false → s' = s ∧ l' = l))).
Proof.
  intros Hok. pose proof (PTX_range va) as Hx. rw /walkpgdir /load32. wp_steps.
  destruct (bit_set (ld32 (km_mem s) (pgdir + 4 * PDX va)) PTE_P) eqn:Hb.
  - wp_steps. right.
    assert (ptab (km_mem s) pgdir (PDX va) =
            Some (P2V (PTE_ADDR (ld32 (km_mem s) (pgdir + 4 * PDX va))))) as Ht
      by by rw /ptab Hb.
    eexists _, l. split; [done|].
    split; [|split; [by apply walked_existing|done]].
    apply ptab_page with (s := s) (l := l) in Ht; [|done|apply PDX_range].
    apply page_ok_pos in Ht. lia.
  - assert (ptab (km_mem s) pgdir (PDX va) = None) as Hnone by by rw /ptab Hb.
    destruct alloc; simpl; wp_steps; [|by left].
    destruct l as [|t l].
    + eapply wp_intro; [exact (kalloc_empty kend s (po_free _ _ _ Hok))|].
      simpl. wp_steps. by left.
    + destruct (kalloc_pops kend s t l (po_free _ _ _ Hok)) as [Hrun _].
      eapply wp_intro; [exact Hrun|].
      pose proof (fp_ok _ _ _ (po_free _ _ _ Hok)) as [Ht _]%Forall_cons.
      apply page_ok_pos in Ht as Hpos. rw /KERNBASE in Hpos.
      destruct (Z.eqb_spec t 0); [lia|].
      rw /upd_mem /store32. wp_steps. right. exists t, l.
      split; [done|]. split; [rw /KERNBASE; lia|].
      split; [|done]. by apply walked_fresh.
Qed.

(** Storing a word in the entry of [va] changes the translation of its page only. *)
Lemma store_pte s pgdir l va t v :
  pgdir_ok s pgdir l → 0 ≤ va < 2 ^ 32 → 0 ≤ v < 2 ^ 32 →
  ptab (km_mem s) pgdir (PDX va) = Some t →
  let s' := set_mem (st32 (t + 4 * PTX va) v (km_mem s)) s in
  pgdir_ok s' pgdir l ∧
  (∀ i, 0 ≤ i < 1024 → ptab (km_mem s') pgdir i = ptab (km_mem s) pgdir i) ∧
  (∀ va', 0 ≤ va' < 2 ^ 32 → pte_of (km_mem s') pgdir va' =
     if decide (va' / PGSIZE = va / PGSIZE) then v else pte_of (km_mem s) pgdir va') ∧
  (∀ a, ¬ in_page t a → ld8 (km_mem s') a = ld8 (km_mem s) a).
Proof.
  intros Hok Hva Hv Ht s'. pose proof Hok as [Hfp Hpg Hu Htabs Hinj].
  pose proof (PDX_range va) as Hd. pose proof (PTX_range va) as Hx.
  destruct (Htabs _ t Hd Ht) as (Htok&Htl&Htne).
  assert (∀ i, 0 ≤ i < 1024 → ptab (km_mem s') pgdir i = ptab (km_mem s) pgdir i) as Hptab.
  { intros i Hi. rw /ptab /s' /=. by rw ld32_page_apart. }
  split_and!; [|done| |].
  - split; [|done|done| |].
    + apply free_pages_mem; [done|]. intros p Hp.
      replace p with (p + 4 * 0) by lia. apply ld32_page_apart; try done.
      * pose proof (fp_ok _ _ _ Hfp) as Hall. rw Forall_forall in Hall. by apply Hall.
      * set_solver.
    + intros i t' Hi. rw Hptab //. by apply Htabs.
    + intros i j t' Hi Hj. rw !Hptab //. by apply Hinj.
  - intros va' Hva'. pose proof (PDX_range va') as Hd'. pose proof (PTX_range va').
    rw /pte_of Hptab //. case_decide as E.
    + apply same_page in E as [E1 E2]; [|done|done].
      by rw E1 Ht E2 /s' /= ld32_st32_eq.
    + destruct (ptab (km_mem s) pgdir (PDX va')) as [t'|] eqn:Ht'; [|done].
      rw /s' /=. destruct (decide (t' = t)) as [->|Hne].
      * assert (PDX va' = PDX va) as E1 by eauto.
        apply ld32_same_page. intros E2. apply E, same_page; auto.
      * destruct (Htabs _ t' Hd' Ht') as (?&_&_). apply ld32_page_apart; try done.
        congruence.
  - intros a Ha. apply ld8_st32_ne. rw /in_page /PGSIZE in Ha. lia.
Qed.

(** [m'] is [m] with the [j] pages from [a] mapped to the frames from [pa]. *)
Definition mapped (m m' : mem) (pgdir a pa perm j : Z) : Prop :=
  ∀ va, 0 ≤ va < 2 ^ 32 → pte_of m' pgdir va =
    if decide (a ≤ va < a + j * PGSIZE)
    then Z.lor (Z.lor (pa + (va / PGSIZE * PGSIZE - a)) perm) PTE_P
    else pte_of m pgdir va.

Lemma page_index a va j :
  a mod PGSIZE = 0 → 0 ≤ j →
  va / PGSIZE = (a + j * PGSIZE) / PGSIZE ↔ a + j * PGSIZE ≤ va < a + (j + 1) * PGSIZE.
Proof. rw /PGSIZE. intros. Z.div_mod_to_equations. lia. Qed.

Lemma mapped_snoc m m1 m2 pgdir a pa perm j :
  a mod PGSIZE = 0 → 0 ≤ j → 0 ≤ a → a + (j + 1) * PGSIZE ≤ 2 ^ 32 →
  mapped m m1 pgdir a pa perm j →
  (∀ va, 0 ≤ va < 2 ^ 32 → pte_of m2 pgdir va =
     if decide (va / PGSIZE = (a + j * PGSIZE) / PGSIZE)
     then Z.lor (Z.lor (pa + j * PGSIZE) perm) PTE_P else pte_of m1 pgdir va) →
  mapped m m2 pgdir a pa perm (j + 1).
Proof.
  intros Ha Hj Ha0 Hlim H1 H2 va Hva. rw H2 // H1 //.
  pose proof (page_index a va j Ha Hj) as Hpi.
  destruct (decide (va / PGSIZE = _)) as [E|E].
  - apply Hpi in E as Hr. rw decide_True; [rw /PGSIZE in Hr |- *; lia|].
    do 3 f_equal. rw E /PGSIZE. rw /PGSIZE in Ha. Z.div_mod_to_equations. lia.
  - destruct (decide (a + j * PGSIZE ≤ va < a + (j + 1) * PGSIZE)) as [Hr|Hr];
      [by apply Hpi in Hr|].
    rw /PGSIZE in Hr |- *. repeat case_decide; done || lia.
Qed.

Definition is_table (m : mem) (pgdir q : Z) : Prop :=
  ∃ i, 0 ≤ i < 1024 ∧ ptab m pgdir i = Some q.

(** State reached from [s] (free list [l]) after mapping [j] pages. *)
Record map_inv (s : kmem_state) (l : list Z) (pgdir a pa perm j : Z)
    (s' : kmem_state) (l' : list Z) : Prop := {
  mi_map : mapped (km_mem s) (km_mem s') pgdir a pa perm j;
  mi_ok : pgdir_ok s' pgdir l';
  mi_free : l' `suffix_of` l;
  mi_keep : ∀ i t, 0 ≤ i < 1024 → ptab (km_mem s) pgdir i = Some t →
    ptab (km_mem s') pgdir i = Some t;
  mi_used : ∀ q, q ∈ l → q ∈ l' ∨ is_table (km_mem s') pgdir q;
  mi_frame : ∀ x, outside (km_mem s) pgdir l x →
    outside (km_mem s') pgdir l' x ∧ ld8 (km_mem s') x = ld8 (km_mem s) x
}.

Lemma map_inv_0 s l pgdir a pa perm : pgdir_ok s pgdir l → map_inv s l pgdir a pa perm 0 s l.
Proof. intros. split; try done; [|by left]. intros va Hva. rw decide_False //. lia. Qed.

Lemma walked_suffix s s' pgdir va t l l' l0 :
  walked s s' pgdir va t l l' → l `suffix_of` l0 → l' `suffix_of` l0.
Proof.
  intros Hw Hs. destruct (wk_free _ _ _ _ _ _ _ Hw) as [->|Hl]; [done|].
  etransitivity; [|exact Hs]. rw Hl. by apply suffix_cons_r.
Qed.

Lemma walked_used s s' pgdir va t l l' q :
  walked s s' pgdir va t l l' → q ∈ l ∨ is_table (km_mem s) pgdir q →
  q ∈ l' ∨ is_table (km_mem s') pgdir q.
Proof.
  intros Hw [Hq|(i&Hi&Ht)].
  - destruct (wk_free _ _ _ _ _ _ _ Hw) as [->|Hl]; [by left|]. rw Hl in Hq.
    apply elem_of_cons in Hq as [->|?]; [right|by left].
    exists (PDX va). split; [apply PDX_range|]. apply (wk_tab _ _ _ _ _ _ _ Hw).
  - right. exists i. split; [done|]. by apply (wk_keep _ _ _ _ _ _ _ Hw).
Qed.

Lemma map_page_wp s l pgdir a pa perm j si li :
  a mod PGSIZE = 0 → 0 ≤ a → 0 ≤ j → a + (j + 1) * PGSIZE ≤ 2 ^ 32 →
  0 ≤ pa → pa + j * PGSIZE < 2 ^ 32 → 0 ≤ perm < 2 ^ 32 →
  bit_set (pte_of (km_mem s) pgdir (a + j * PGSIZE)) PTE_P = false →
  map_inv s l pgdir a pa perm j si li →
  wp (map_page pgdir (a + j * PGSIZE) (pa + j * PGSIZE) perm) si (λ r s',
    r = -1 ∧ s' = si ∧ li = [] ∨
    r = 0 ∧ ∃ l', map_inv s l pgdir a pa perm (j + 1) s' l').
Proof.
  intros Ha Ha0 Hj Hlim Hpa0 Hpa Hperm Hfree [Hmap Hok Hsuf Hkeep Hused Hfr].
  set ai := a + j * PGSIZE. assert (0 ≤ ai < 2 ^ 32) as Hai by (rw /ai /PGSIZE in Hlim |- *; lia).
  rw /map_page. wp_step. eapply wp_mono; [apply walkpgdir_wp; eassumption|].
  intros r s1 [(->&->&_&Hl)|(t&l1&->&Hpos&Hw&_)].
  { rw Z.eqb_refl. wp_steps. left. auto. }
  rw /KERNBASE in Hpos. destruct (Z.eqb_spec (t + 4 * PTX ai) 0); [lia|].
  pose proof Hw as [Hwt Hwok _ Hwkeep Hwp Hwm Hwfr]. rw /load32. wp_steps.
  assert (ld32 (km_mem s1) (t + 4 * PTX ai) = pte_of (km_mem s1) pgdir ai) as ->
    by by rw /pte_of Hwt.
  rw Hwp Hmap // (decide_False (P := a ≤ ai < _)); [rw /ai; lia|]. rw Hfree.
  rw /store32 /upd_mem. wp_steps. right. split; [done|]. exists l1.
  set v := Z.lor (Z.lor (pa + j * PGSIZE) perm) PTE_P.
  assert (0 ≤ v < 2 ^ 32) as Hv.
  { apply lor_range; [done|apply lor_range; [done| |done]|vm_compute; split; congruence].
    rw /PGSIZE in Hpa |- *. lia. }
  destruct (store_pte s1 pgdir l1 ai t v Hwok Hai Hv Hwt) as (Hok2&Hpt2&Hpte2&Hfr2).
  split; [|done|eapply walked_suffix; eassumption|..].
  - eapply mapped_snoc; [done|lia|done|done|exact Hmap|].
    intros va Hva. rw Hpte2 // Hwp //.
  - intros i t' Hi Ht'. rw Hpt2 //. auto.
  - intros q Hq%Hused%(walked_used _ _ _ _ _ _ _ _ Hw).
    destruct Hq as [?|(i&Hi&Ht')]; [by left|right]. exists i. by rw Hpt2.
  - intros x [Hx Hx8]%Hfr. pose proof (Hwm x Hx) as Hx1.
    assert (¬ in_page t x) by (destruct Hx1 as (_&H2&_); apply (H2 (PDX ai)); [apply PDX_range|done]).
    split; [|by rw Hfr2 // Hwfr].
    destruct Hx1 as (H1&H2&H3). split_and!; [done| |done].
    intros i t' Hi. rw Hpt2 //. by apply H2.
Qed.

(** [mappages] maps its pages in order until a page table cannot be allocated. *)
Lemma mappages_loop_wp s l pgdir a last pa perm n k : ∀ j si li,
  a mod PGSIZE = 0 → 0 ≤ a → 0 ≤ j → j + Z.of_nat k + 1 = n →
  last = a + (n - 1) * PGSIZE → a + n * PGSIZE ≤ 2 ^ 32 →
  0 ≤ pa → pa + n * PGSIZE ≤ 2 ^ 32 → 0 ≤ perm < 2 ^ 32 →
  (∀ va, a ≤ va < a + n * PGSIZE → bit_set (pte_of (km_mem s) pgdir va) PTE_P = false) →
  map_inv s l pgdir a pa perm j si li →
  wp (mappages_loop (S k) pgdir (a + j * PGSIZE) last (pa + j * PGSIZE) perm) si (λ r s',
    ∃ j' l', map_inv s l pgdir a pa perm j' s' l' ∧
      (r = 0 ∧ j' = n ∨ r = -1 ∧ j ≤ j' < n ∧ l' = [])).
Proof.
  induction k as [|k IH];
    intros j si li Ha Ha0 Hj Hn Hlast Hlim Hpa0 Hpa Hperm Hfree Hinv;
    cbn [mappages_loop]; wp_step;
    (eapply wp_mono; [apply (map_page_wp s l pgdir a pa perm j si li); try done;
      [rw /PGSIZE in Hlim |- *; lia|rw /PGSIZE in Hpa |- *; lia|
       apply Hfree; rw /PGSIZE; lia]|]);
    (intros r s1 [(->&->&->)|(->&l1&Hinv1)]; simpl;
      [wp_steps; exists j, []; split; [done|right; split_and!; done || lia]|]).
  - destruct (Z.eqb_spec (a + j * PGSIZE) last) as [_|Hne].
    + wp_steps. exists (j + 1), l1. split; [done|]. left. split; [done|lia].
    + destruct Hne. rw Hlast. f_equal. f_equal. lia.
  - destruct (Z.eqb_spec (a + j * PGSIZE) last) as [E|_].
    { exfalso. subst last. rw /PGSIZE in E. lia. }
    rw (u32_small (a + _ + _)); [rw /PGSIZE in Hlim |- *; lia|].
    rw (u32_small (pa + _ + _)); [rw /PGSIZE in Hpa |- *; lia|].
    replace (a + j * PGSIZE + PGSIZE) with (a + (j + 1) * PGSIZE) by lia.
    replace (pa + j * PGSIZE + PGSIZE) with (pa + (j + 1) * PGSIZE) by lia.
    eapply wp_mono; [apply (IH (j + 1) s1 l1); try done; lia|].
    intros r s2 (j'&l'&?&Hr). exists j', l'. split; [done|].
    destruct Hr as [?|(?&?&?)]; [by left|right]. split_and!; done || lia.
Qed.

(** Number of pages [mappages] touches. *)
Definition npages (va size : Z) : Z := (va + size - 1) / PGSIZE - va / PGSIZE + 1.

Lemma mappages_wp s l pgdir va size pa perm :
  pgdir_ok s pgdir l → 0 ≤ va → 0 < size → va + size ≤ 2 ^ 32 →
  0 ≤ pa → pa + npages va size * PGSIZE ≤ 2 ^ 32 → 0 ≤ perm < 2 ^ 32 →
  (∀ x, PGROUNDDOWN va ≤ x < PGROUNDDOWN va + npages va size * PGSIZE →
        bit_set (pte_of (km_mem s) pgdir x) PTE_P = false) →
  wp (mappages pgdir va size pa perm) s (λ r s',
    ∃ j l', map_inv s l pgdir (PGROUNDDOWN va) pa perm j s' l' ∧
      (r = 0 ∧ j = npages va size ∨ r = -1 ∧ 0 ≤ j < npages va size ∧ l' = [])).
Proof.
  intros Hok Hva Hsz Hlim Hpa0 Hpa Hperm Hfree. rw /mappages.
  assert (va < 2 ^ 32) as Hva2 by lia.
  assert (PGROUNDDOWN va = va / PGSIZE * PGSIZE) as Ea by (apply PGROUNDDOWN_eq; lia).
  assert (u32 (u32 (va + size) - 1) = va + size - 1) as ->.
  { rw /u32. destruct (decide (va + size = 2 ^ 32)) as [->|]; [done|].
    rw (Z.mod_small (va + size)); [lia|]. apply Z.mod_small. lia. }
  assert (PGROUNDDOWN (va + size - 1) = (va + size - 1) / PGSIZE * PGSIZE) as El
    by (apply PGROUNDDOWN_eq; lia).
  set n := npages va size in Hpa Hfree |- *.
  set a := PGROUNDDOWN va in Ea Hfree |- *.
  assert (0 < n) as Hn0.
  { rw /n /npages. assert (va / PGSIZE ≤ (va + size - 1) / PGSIZE); [|lia].
    apply Z.div_le_mono; [done|lia]. }
  assert (PGROUNDDOWN (va + size - 1) = a + (n - 1) * PGSIZE) as Elast.
  { rw El Ea /n /npages. lia. }
  assert (a mod PGSIZE = 0) as Hal by rw Ea Z_mod_mult //.
  assert (0 ≤ a) as Ha0 by (rw Ea; apply Z.mul_nonneg_nonneg; [by apply Z.div_pos|done]).
  assert (a + n * PGSIZE ≤ 2 ^ 32) as Hlim2.
  { rw Ea /n /npages /PGSIZE in Hlim |- *. Z.div_mod_to_equations. lia. }
  assert (Z.to_nat (u32 (PGROUNDDOWN (va + size - 1) - a) / PGSIZE) = Z.to_nat (n - 1)) as ->.
  { rw Elast u32_small; [rw /PGSIZE in Hlim2 |- *; lia|]. f_equal.
    replace (a + (n - 1) * PGSIZE - a) with ((n - 1) * PGSIZE) by lia.
    by apply Z.div_mul. }
  eapply wp_mono.
  - replace (mappages_loop _ _ a _ pa perm) with
      (mappages_loop (S (Z.to_nat (n - 1))) pgdir (a + 0 * PGSIZE)
         (a + (n - 1) * PGSIZE) (pa + 0 * PGSIZE) perm) by (f_equal; lia).
    apply (mappages_loop_wp s l _ _ _ _ _ n _ 0 s l); try done; [lia|].
    by apply map_inv_0.
  - done.
Qed.

Lemma mappages_remap pgdir va size pa perm s l :
  pgdir_ok s pgdir l → 0 ≤ va < 2 ^ 32 →
  bit_set (pte_of (km_mem s) pgdir (PGROUNDDOWN va)) PTE_P = true →
  mappages pgdir va size pa perm s = Panic "remap".
Proof.
  intros Hok Hva Hp. rw /mappages. cbn [mappages_loop].
  assert (map_page pgdir (PGROUNDDOWN va) pa perm s = Panic "remap") as Hrun;
    [|by rw /mbind /K_bind Hrun].
  set a := PGROUNDDOWN va in Hp |- *.
  destruct (ptab (km_mem s) pgdir (PDX a)) as [t|] eqn:Ht;
    [|by rw /pte_of Ht in Hp].
  rw /pte_of Ht in Hp. rw /map_page.
  rw (bind_Ret _ _ _ (t + 4 * PTX a) s).
  { rw /walkpgdir /load32 /gets /mbind /K_bind. rw /ptab in Ht.
    destruct (bit_set (ld32 (km_mem s) (pgdir + 4 * PDX a)) PTE_P); [|done].
    by injection Ht as ->. }
  apply ptab_page with (s := s) (l := l) in Ht; [|done|apply PDX_range].
  apply page_ok_pos in Ht. pose proof (PTX_range a). rw /KERNBASE in Ht.
  destruct (Z.eqb_spec (t + 4 * PTX a) 0); [lia|].
  by rw /load32 /gets /mbind /K_bind Hp.
Qed.

(** ** Freeing user memory *)

Definition present (m : mem) (pgdir va : Z) : bool := bit_set (pte_of m pgdir va) PTE_P.
Definition frame (m : mem) (pgdir va : Z) : Z := P2V (PTE_ADDR (pte_of m pgdir va)).
Definition aligned (va : Z) : Prop := va mod PGSIZE = 0.

(** The frames of the present pages of [lo, hi) are distinct pages, in use neither
    as page tables nor as free pages. *)
Record user_ok (m : mem) (pgdir : Z) (l : list Z) (lo hi : Z) : Prop := {
  uo_page : ∀ va, lo ≤ va < hi → aligned va → present m pgdir va = true →
    page_ok kend (frame m pgdir va) ∧ frame m pgdir va ∉ l ∧ frame m pgdir va ≠ pgdir ∧
    ∀ i t, 0 ≤ i < 1024 → ptab m pgdir i = Some t → t ≠ frame m pgdir va;
  uo_inj : ∀ va va', lo ≤ va < hi → lo ≤ va' < hi → aligned va → aligned va' →
    present m pgdir va = true → present m pgdir va' = true →
    frame m pgdir va = frame m pgdir va' → va = va'
}.

(** [q] is the frame of a present page of [lo, hi). *)
Definition user_frame (m : mem) (pgdir lo hi q : Z) : Prop :=
  ∃ va, lo ≤ va < hi ∧ aligned va ∧ present m pgdir va = true ∧ q = frame m pgdir va.

Lemma page_disjoint p q x :
  page_ok kend p → page_ok kend q → p ≠ q → in_page p x → ¬ in_page q x.
Proof.
  intros [Hp _] [Hq _] Hne. rw /in_page.
  destruct (pages_apart p q Hp Hq Hne); rw /PGSIZE in H |- *; lia.
Qed.

(** The memory may change in a page that is neither the directory nor a table. *)
Lemma ptab_frame m m' pgdir i :
  page_ok kend pgdir → 0 ≤ i < 1024 →
  (∀ b, 0 ≤ b < 1024 → ld32 m' (pgdir + 4 * b) = ld32 m (pgdir + 4 * b)) →
  ptab m' pgdir i = ptab m pgdir i.
Proof. intros Hp Hi Hm. rw /ptab. by rw Hm. Qed.

Lemma pte_of_frame m m' pgdir va :
  (∀ i, 0 ≤ i < 1024 → ptab m' pgdir i = ptab m pgdir i) →
  (∀ i t b, 0 ≤ i < 1024 → 0 ≤ b < 1024 → ptab m pgdir i = Some t →
            ld32 m' (t + 4 * b) = ld32 m (t + 4 * b)) →
  pte_of m' pgdir va = pte_of m pgdir va.
Proof.
  intros Hd Ht. rw /pte_of Hd; [apply PDX_range|].
  destruct (ptab m pgdir (PDX va)) as [t|] eqn:E; [|done].
  eapply Ht; [apply (PDX_range va)|apply PTX_range|done].
Qed.

Lemma ld32_freed_page (m : mem) p q b link :
  page_ok kend p → page_ok kend q → p ≠ q → 0 ≤ b < 1024 →
  ld32 (freed p link m) (q + 4 * b) = ld32 m (q + 4 * b).
Proof.
  intros [Hp _] [Hq _] Hne Hb. apply ld32_freed_other.
  destruct (pages_apart p q Hp Hq Hne); rw /PGSIZE in H |- *; lia.
Qed.

(** Freeing a page that is in no structure keeps the directory as it is. *)
Lemma kfree_user s pgdir l p :
  pgdir_ok s pgdir l → page_ok kend p → p ∉ l → p ≠ pgdir →
  (∀ i t, 0 ≤ i < 1024 → ptab (km_mem s) pgdir i = Some t → t ≠ p) →
  ∃ s', kfree kend p s = Ret tt s' ∧ pgdir_ok s' pgdir (p :: l) ∧
    (∀ i, 0 ≤ i < 1024 → ptab (km_mem s') pgdir i = ptab (km_mem s) pgdir i) ∧
    (∀ va, pte_of (km_mem s') pgdir va = pte_of (km_mem s) pgdir va) ∧
    (∀ x, ¬ in_page p x → ld8 (km_mem s') x = ld8 (km_mem s) x).
Proof.
  intros Hok Hp Hpl Hpd Htabs. pose proof Hok as [Hfp Hpg Hu Ht Hinj].
  destruct (kfree_pushes kend p s l Hfp Hp Hpl) as (s'&Hrun&Hfp'&Hm&_&_).
  exists s'. split; [done|].
  rw (kfree_run kend p s Hp (fp_lock _ _ _ Hfp)) in Hrun. injection Hrun as <-.
  assert (∀ i, 0 ≤ i < 1024 →
    ptab (freed p (km_freelist s) (km_mem s)) pgdir i = ptab (km_mem s) pgdir i) as Hptab.
  { intros i Hi. apply ptab_frame; [done|done|].
    intros b Hb. by apply ld32_freed_page. }
  split_and!.
  - split; [done|done|set_solver| |].
    + intros i t Hi. simpl. rw Hptab //. intros Hit.
      destruct (Ht i t Hi Hit) as (?&?&?). split; [done|]. split; [|done].
      apply not_elem_of_cons. split; [exact (Htabs i t Hi Hit)|done].
    + intros i j t Hi Hj. simpl. rw !Hptab //. by apply Hinj.
  - done.
  - intros va. apply pte_of_frame; [done|]. intros i t b Hi Hb Hit.
    apply ld32_freed_page; [done|by apply (Ht i t)| |done].
    intros ->. by apply (Htabs i t).
  - intros x Hx. apply Hm. rw /in_page in Hx. lia.
Qed.

(** State reached from [s] when the pages of [lo, a) have been freed. *)
Record dealloc_inv (s : kmem_state) (l : list Z) (pgdir lo a : Z)
    (s' : kmem_state) (l' : list Z) : Prop := {
  di_ok : pgdir_ok s' pgdir l';
  di_ptab : ∀ i, 0 ≤ i < 1024 → ptab (km_mem s') pgdir i = ptab (km_mem s) pgdir i;
  di_pte : ∀ va, 0 ≤ va < 2 ^ 32 → pte_of (km_mem s') pgdir va =
    if decide (lo ≤ va < a ∧ present (km_mem s) pgdir va = true) then 0
    else pte_of (km_mem s) pgdir va;
  di_free : ∀ q, q ∈ l' ↔ q ∈ l ∨ user_frame (km_mem s) pgdir lo a q;
  di_frame : ∀ x, outside (km_mem s) pgdir l x →
    (∀ q, user_frame (km_mem s) pgdir lo a q → ¬ in_page q x) →
    ld8 (km_mem s') x = ld8 (km_mem s) x
}.

Lemma dealloc_inv_0 s l pgdir lo : pgdir_ok s pgdir l → dealloc_inv s l pgdir lo lo s l.
Proof.
  intros Hok. split; try done.
  - intros va Hva. rw decide_False //. lia.
  - intros q. split; [by left|]. intros [?|(va&?&_)]; [done|lia].
Qed.

Lemma present_page m pgdir va va' :
  0 ≤ va < 2 ^ 32 → 0 ≤ va' < 2 ^ 32 → va' / PGSIZE = va / PGSIZE →
  pte_of m pgdir va' = pte_of m pgdir va.
Proof. intros ? ? [E1 E2]%same_page; [|done..]. by rw /pte_of E1 E2. Qed.

(** Nothing is present in [a, a'): the loop may move from [a] to [a']. *)
Lemma dealloc_inv_skip s l pgdir lo a a' s' l' :
  dealloc_inv s l pgdir lo a s' l' → 0 ≤ lo → a ≤ a' → a' ≤ 2 ^ 32 →
  (∀ va, a ≤ va < a' → present (km_mem s) pgdir va = false) →
  dealloc_inv s l pgdir lo a' s' l'.
Proof.
  intros [Hok Hpt Hpte Hfree Hfr] Hlo Haa Hlim Habs.
  assert (∀ q, user_frame (km_mem s) pgdir lo a q ↔ user_frame (km_mem s) pgdir lo a' q) as Huf.
  { intros q. split; intros (va&Hva&Hal&Hp&->); exists va; split_and!; try done; try lia.
    destruct (decide (va < a)); [done|]. rw Habs in Hp; [lia|done]. }
  split; try done.
  - intros va Hva. rw Hpte //. apply decide_ext.
    split; intros [? Hp]; (split; [|done]); [lia|].
    destruct (decide (va < a)); [lia|]. rw Habs in Hp; [lia|done].
  - intros q. by rw Hfree Huf.
  - intros x Hx Hq. apply Hfr; [done|]. intros q Hin. by apply Hq, Huf.
Qed.

(** A present page: its frame goes to the free list, its entry becomes 0. *)
Lemma dealloc_inv_page s l pgdir lo hi a s1 l1 t :
  user_ok (km_mem s) pgdir l lo hi → pgdir_ok s pgdir l → KERNBASE < kend →
  dealloc_inv s l pgdir lo a s1 l1 →
  0 ≤ lo ≤ a → a < hi ≤ KERNBASE → aligned lo → aligned a →
  ptab (km_mem s) pgdir (PDX a) = Some t → present (km_mem s) pgdir a = true →
  PTE_ADDR (pte_of (km_mem s) pgdir a) ≠ 0 ∧
  ∃ s2, kfree kend (frame (km_mem s) pgdir a) s1 = Ret tt s2 ∧
    dealloc_inv s l pgdir lo (a + PGSIZE)
      (set_mem (st32 (t + 4 * PTX a) 0 (km_mem s2)) s2) (frame (km_mem s) pgdir a :: l1).
Proof.
  intros Huo Hok0 Hkend [Hok Hpt Hpte Hfree Hfr] Hlo Hhi Hal0 Hal Ht Hp.
  set p := frame (km_mem s) pgdir a.
  assert (0 ≤ a < 2 ^ 32) as Ha32 by (rw /KERNBASE in Hhi; lia).
  destruct (uo_page _ _ _ _ _ Huo a ltac:(lia) Hal Hp) as (Hpok&Hpl&Hpd&Hptab).
  split.
  { intros E. destruct Hpok as (_&Hk&_). rw /frame E /P2V in Hk.
    change (u32 (0 + KERNBASE)) with KERNBASE in Hk. lia. }
  destruct (kfree_user s1 pgdir l1 p) as (s2&Hrun&Hok2&Hpt2&Hpte2&Hfr2); try done.
  { rw Hfree. intros [?|(va&Hva&Hval&Hvp&E)]; [done|].
    assert (a = va) by (eapply (uo_inj _ _ _ _ _ Huo); done || lia). lia. }
  { intros i t' Hi. rw Hpt //. by apply Hptab. }
  exists s2. split; [done|].
  assert (ptab (km_mem s2) pgdir (PDX a) = Some t) as Ht2.
  { by rw Hpt2 ?Hpt; [apply PDX_range..|]. }
  destruct (store_pte s2 pgdir (p :: l1) a t 0 Hok2 Ha32 ltac:(lia) Ht2)
    as (Hok3&Hpt3&Hpte3&Hfr3).
  split.
  - done.
  - intros i Hi. by rw Hpt3 // Hpt2 // Hpt.
  - intros va Hva. rw Hpte3 // Hpte2 // Hpte //.
    pose proof (page_index a va 0 Hal ltac:(lia)) as Hpi.
    rw /PGSIZE in Hpi |- *. replace (a + 0 * 4096) with a in Hpi by lia.
    destruct (decide (va / 4096 = a / 4096)) as [E|E].
    + rw decide_True //. split; [lia|]. rw /present (present_page _ _ a) //.
    + apply decide_ext. split; intros [? Hvp]; (split; [lia|done]).
  - intros q. rw elem_of_cons Hfree. split.
    + intros [->|[?|(va&?&?&?&->)]]; [right; exists a|by left|right; exists va];
        split_and!; try done; rw /PGSIZE; lia.
    + intros [?|(va&Hva&Hval&Hvp&->)]; [auto|].
      destruct (decide (va < a)) as [Hlt|Hge]; [right; right; exists va; split_and!; done || lia|].
      left. assert (va = a) as ->; [|done].
      rw /aligned /PGSIZE in Hval Hal Hva. Z.div_mod_to_equations. lia.
  - intros x Hx Hq. rw Hfr3.
    { destruct Hx as (_&Hx&_). apply (Hx (PDX a)); [apply PDX_range|done]. }
    rw Hfr2.
    { apply Hq. exists a. split_and!; try done; rw /PGSIZE; lia. }
    apply Hfr; [done|]. intros q (va&?&?&?&->). apply Hq.
    exists va. split_and!; try done; rw /PGSIZE; lia.
Qed.

Definition roundup (n : Z) : Z := (n + PGSIZE - 1) / PGSIZE * PGSIZE.

Lemma roundup_bounds n : n ≤ roundup n < n + PGSIZE ∧ aligned (roundup n).
Proof.
  rw /roundup /aligned. split; [|by apply Z_mod_mult].
  rw /PGSIZE. Z.div_mod_to_equations. lia.
Qed.

(** [PGADDR(PDX(a) + 1, 0, 0)] is the start of the next page table's range, and
    nothing is mapped up to there when [a] has no page table. *)
Lemma next_table m pgdir a :
  0 ≤ a < KERNBASE → ptab m pgdir (PDX a) = None →
  let a' := u32 (u32 (PGADDR (PDX a + 1) 0 0 - PGSIZE) + PGSIZE) in
  a + PGSIZE ≤ a' + a mod PGSIZE ∧ a' ≤ KERNBASE ∧ aligned a' ∧
  ∀ va, a ≤ va < a' → present m pgdir va = false.
Proof.
  rw /KERNBASE. intros Ha Hnone. rw /PGADDR /PDXSHIFT Z.shiftl_0_l !Z.lor_0_r.
  rw Z.shiftl_mul_pow2 // /PGSIZE.
  assert (PDX a = a / 2 ^ 22) as E by (apply PDX_eq; lia).
  rw (u32_small (_ * _)); [rw E; Z.div_mod_to_equations; lia|].
  rw (u32_small (_ - _)); [rw E; Z.div_mod_to_equations; lia|].
  rw u32_small; [rw E; Z.div_mod_to_equations; lia|].
  split_and!.
  - rw E. Z.div_mod_to_equations. lia.
  - rw E. Z.div_mod_to_equations. lia.
  - rw /aligned /PGSIZE E. Z.div_mod_to_equations. lia.
  - intros va Hva. rw /present /pte_of.
    assert (PDX va = PDX a) as ->; [|by rw Hnone].
    rw E in Hva |- *. rw PDX_eq; Z.div_mod_to_equations; lia.
Qed.

Lemma deallocuvm_loop_wp s l pgdir lo hi fuel : ∀ a s1 l1,
  user_ok (km_mem s) pgdir l lo hi → pgdir_ok s pgdir l → KERNBASE < kend →
  0 ≤ lo ≤ a → hi ≤ KERNBASE → aligned lo → aligned a →
  hi ≤ a + Z.of_nat fuel * PGSIZE →
  dealloc_inv s l pgdir lo (Z.min a (roundup hi)) s1 l1 →
  wp (deallocuvm_loop kend fuel pgdir a hi) s1 (λ _ s',
    ∃ a' l', hi ≤ a' ∧ aligned a' ∧ dealloc_inv s l pgdir lo (Z.min a' (roundup hi)) s' l').
Proof.
  destruct (roundup_bounds hi) as [HR HRal].
  induction fuel as [|k IH]; intros a s1 l1 Huo Hok0 Hkend Hlo Hhi Hal0 Hal Hfuel Hinv;
    cbn [deallocuvm_loop]; destruct (Z.ltb_spec a hi) as [Hlt|Hge]; cbn [negb]; try lia;
    try (wp_steps; by eauto).
  rw Z.min_l in Hinv; [lia|]. wp_step.
  assert (0 ≤ a < KERNBASE) as Ha by lia.
  assert (0 ≤ a < 2 ^ 32) as Ha32 by (rw /KERNBASE in Ha; lia).
  assert (a + PGSIZE ≤ roundup hi) as HaR.
  { rw /aligned /PGSIZE in HRal Hal HR |- *. Z.div_mod_to_equations. lia. }
  pose proof Hinv as [Hok Hpt Hpte Hfree Hfr].
  eapply wp_mono; [by apply (walkpgdir_wp pgdir a false s1 l1)|].
  intros r s1' [(->&->&Hnone&_)|(t&l'&->&Hpos&Hw&Hsame)].
  - rw Z.eqb_refl. rw Hpt in Hnone; [apply PDX_range|].
    destruct (next_table _ _ _ Ha Hnone) as (Hn1&Hn2&Hn3&Hn4).
    rw /aligned in Hal. rw Hal in Hn1.
    apply (IH _ s1 l1); try done; [lia|rw /PGSIZE in Hfuel Hn1 |- *; lia|].
    eapply dealloc_inv_skip; [exact Hinv|lia|lia|rw /KERNBASE in Hn2; lia|].
    intros va Hva. apply Hn4. lia.
  - destruct (Hsame eq_refl) as [-> ->]. rw /KERNBASE in Hpos.
    destruct (Z.eqb_spec (t + 4 * PTX a) 0); [lia|].
    pose proof (wk_tab _ _ _ _ _ _ _ Hw) as Ht.
    assert (ld32 (km_mem s1) (t + 4 * PTX a) = pte_of (km_mem s) pgdir a) as Eld.
    { transitivity (pte_of (km_mem s1) pgdir a); [by rw /pte_of Ht|].
      rw Hpte // decide_False //. lia. }
    rw /load32. wp_steps. rw Eld.
    rw u32_small; [rw /KERNBASE /PGSIZE in Hhi |- *; lia|].
    change (bit_set (pte_of (km_mem s) pgdir a) PTE_P) with (present (km_mem s) pgdir a).
    destruct (present (km_mem s) pgdir a) eqn:Hp.
    + rw Hpt in Ht; [apply PDX_range|].
      destruct (dealloc_inv_page s l pgdir lo hi a s1 l1 t) as (Hne&s2&Hrun&Hinv2); try done.
      apply Z.eqb_neq in Hne as ->. wp_steps.
      eapply wp_intro; [exact Hrun|]. simpl. rw /store32 /upd_mem. wp_steps.
      eapply IH; try done; [lia|..|rw Z.min_l; [lia|exact Hinv2]].
      * rw /aligned /PGSIZE in Hal |- *. Z.div_mod_to_equations. lia.
      * rw /PGSIZE in Hfuel |- *. lia.
    + wp_steps. apply (IH _ s1 l1); try done; [rw /PGSIZE; lia|..].
      * rw /aligned /PGSIZE in Hal |- *. Z.div_mod_to_equations. lia.
      * rw /PGSIZE in Hfuel |- *. lia.
      * eapply dealloc_inv_skip; [exact Hinv|lia|lia|rw /KERNBASE /PGSIZE in Hhi HR |- *; lia|].
        intros va Hva. rw -Hp /present. f_equal. apply present_page; [done| |].
        { rw /KERNBASE /PGSIZE in Hhi HR Hva |- *. lia. }
        pose proof (page_index a va 0 Hal ltac:(lia)) as Hpi.
        replace (a + 0 * PGSIZE) with a in Hpi by lia. apply Hpi. lia.
Qed.

Lemma deallocuvm_wp s l pgdir oldsz newsz :
  pgdir_ok s pgdir l → KERNBASE < kend → 0 ≤ newsz < oldsz → oldsz ≤ KERNBASE →
  user_ok (km_mem s) pgdir l (roundup newsz) oldsz →
  wp (deallocuvm kend pgdir oldsz newsz) s (λ r s', r = newsz ∧
    ∃ l', dealloc_inv s l pgdir (roundup newsz) (roundup oldsz) s' l').
Proof.
  intros Hok Hkend Hsz Hmax Huo. rw /deallocuvm.
  destruct (Z.leb_spec oldsz newsz); [lia|].
  destruct (roundup_bounds newsz) as [Hb1 Hal1].
  destruct (roundup_bounds oldsz) as [Hb2 Hal2].
  assert (PGROUNDUP newsz = roundup newsz) as ->.
  { apply PGROUNDUP_eq; rw /KERNBASE /PGSIZE in Hmax |- *; lia. }
  assert (roundup newsz ≤ roundup oldsz) as Hle.
  { apply Z.mul_le_mono_nonneg_r; [done|]. apply Z.div_le_mono; [done|lia]. }
  wp_steps. eapply wp_mono.
  - apply (deallocuvm_loop_wp s l pgdir (roundup newsz) oldsz _ _ s l); try done.
    + rw /PGSIZE in Hb1 |- *. lia.
    + rw /PGSIZE in Hb1 |- *. Z.div_mod_to_equations. lia.
    + rw Z.min_l //. by apply dealloc_inv_0.
  - intros _ s' (a'&l'&Ha&Hal&Hinv). wp_steps. split; [done|]. exists l'.
    rw Z.min_r in Hinv; [|done].
    rw /aligned /PGSIZE in Hal Hal2 Hb2. Z.div_mod_to_equations. lia.
Qed.

(** ** Growing user memory *)

(** The state of [allocuvm] once it took the free page [p] and zeroed it. *)
Lemma take_page s pgdir p l :
  pgdir_ok s pgdir (p :: l) →
  let s' := set_mem (memset p 0 PGSIZE (km_mem s)) (set_freelist (ld32 (km_mem s) p) s) in
  pgdir_ok s' pgdir l ∧
  (∀ i, 0 ≤ i < 1024 → ptab (km_mem s') pgdir i = ptab (km_mem s) pgdir i) ∧
  (∀ va, pte_of (km_mem s') pgdir va = pte_of (km_mem s) pgdir va) ∧
  (∀ x, in_page p x → ld8 (km_mem s') x = 0 ∧ outside (km_mem s') pgdir l x) ∧
  (∀ x, ¬ in_page p x → ld8 (km_mem s') x = ld8 (km_mem s) x).
Proof.
  intros Hok s'. pose proof Hok as [Hfp Hpg Hu Htabs Hinj].
  apply not_elem_of_cons in Hu as [Hpt Hpl].
  pose proof (fp_nodup _ _ _ Hfp) as [Hnin _]%NoDup_cons.
  pose proof (fp_ok _ _ _ Hfp) as [Hp Hlok]%Forall_cons. rw Forall_forall in Hlok.
  assert (∀ i t, 0 ≤ i < 1024 → ptab (km_mem s) pgdir i = Some t → p ≠ t) as Hnew.
  { intros i t Hi Ht ->. destruct (Htabs i t Hi Ht) as (_&Hin&_). by apply Hin; left. }
  assert (∀ i, 0 ≤ i < 1024 → ptab (km_mem s') pgdir i = ptab (km_mem s) pgdir i) as Hptab.
  { intros i Hi. apply ptab_frame; [done|done|]. intros b Hb.
    apply ld32_memset_page; try done. congruence. }
  split_and!; [|done|..].
  - split; [|done|done| |].
    + apply free_pages_mem; [by apply (kalloc_pops kend s p l)|].
      intros q Hq. simpl. replace q with (q + 4 * 0) by lia.
      apply ld32_memset_page; [done|by apply Hlok|by intros ->|done].
    + intros i t Hi. rw Hptab //. intros Ht.
      destruct (Htabs i t Hi Ht) as (?&?&?). set_solver.
    + intros i j t Hi Hj. rw !Hptab //. by apply Hinj.
  - intros va. apply pte_of_frame; [done|]. intros i t b Hi Hb Ht.
    apply ld32_memset_page; [done|by apply (Htabs i t)|by apply (Hnew i)|done].
  - intros x Hx. split.
    { simpl. rw ld8_memset // decide_True //. }
    split_and!.
    + apply (page_disjoint p); try done. congruence.
    + intros i t Hi. rw Hptab //. intros Ht.
      apply (page_disjoint p); [done|by apply (Htabs i t)|by apply (Hnew i)|done].
    + intros q Hq. apply (page_disjoint p); [done|by apply Hlok|by intros ->|done].
  - intros x Hx. simpl. rw ld8_memset // decide_False //.
Qed.

(** The entry of a user page held in frame [p]. *)
Definition user_entry (p : Z) : Z := Z.lor (Z.lor (V2P p) (Z.lor PTE_W PTE_U)) PTE_P.

Lemma user_entry_facts p :
  page_ok kend p → bit_set (user_entry p) PTE_P = true ∧ P2V (PTE_ADDR (user_entry p)) = p.
Proof.
  intros Hp. rw /user_entry -Z.lor_assoc. split; [apply entry_present|].
  destruct (entry_page p (Z.lor (Z.lor PTE_W PTE_U) PTE_P) Hp) as (_&?&_); [|done].
  vm_compute; split; congruence.
Qed.

(** The frame of [va] when the pages from [lo] are held in the frames [ps]. *)
Definition frame_in (lo : Z) (ps : list Z) (va : Z) : option Z :=
  if decide (lo ≤ va) then ps !! Z.to_nat ((va - lo) / PGSIZE) else None.

Lemma frame_in_app lo ps p va :
  aligned lo → frame_in lo (ps ++ [p]) va =
  if decide (va / PGSIZE = (lo + Z.of_nat (length ps) * PGSIZE) / PGSIZE) then Some p
  else frame_in lo ps va.
Proof.
  intros Hal. pose proof (page_index lo va (Z.of_nat (length ps)) Hal ltac:(lia)) as Hpi.
  rw /frame_in. destruct (decide (lo ≤ va)).
  - destruct (decide (va / PGSIZE = _)) as [E|E].
    + apply Hpi in E. replace (Z.to_nat ((va - lo) / PGSIZE)) with (length ps).
      { by rw list_lookup_middle. }
      rw /PGSIZE in E |- *. Z.div_mod_to_equations. lia.
    + destruct (decide (Z.to_nat ((va - lo) / PGSIZE) < length ps)%nat).
      { by rw lookup_app_l. }
      assert (Z.to_nat ((va - lo) / PGSIZE) ≠ length ps).
      { intros E'. apply E, Hpi.
        assert ((va - lo) / PGSIZE = Z.of_nat (length ps)) as E2.
        { rw -E' Z2Nat.id //. apply Z.div_pos; [lia|done]. }
        clear E E' Hpi. rw /PGSIZE in E2 |- *. Z.div_mod_to_equations. lia. }
      rw !(lookup_ge_None_2); [rw length_app /=; lia|lia|done].
  - rw decide_False //. intros E%Hpi. rw /PGSIZE in E. lia.
Qed.

(** State reached from [s] (free list [l]) once the zeroed frames [ps] are mapped
    from [lo]; the frames [held] are allocated and zeroed, not mapped. *)
Record alloc_inv (s : kmem_state) (l : list Z) (pgdir lo : Z) (ps held : list Z)
    (s' : kmem_state) (l' : list Z) : Prop := {
  ai_ok : pgdir_ok s' pgdir l';
  ai_pte : ∀ va, 0 ≤ va < 2 ^ 32 → pte_of (km_mem s') pgdir va =
    match frame_in lo ps va with
    | Some p => user_entry p
    | None => pte_of (km_mem s) pgdir va
    end;
  ai_nodup : NoDup (ps ++ held);
  ai_page : ∀ p, p ∈ ps ++ held → page_ok kend p ∧ p ∈ l;
  ai_zero : ∀ p x, p ∈ ps ++ held → in_page p x →
    ld8 (km_mem s') x = 0 ∧ outside (km_mem s') pgdir l' x;
  ai_keep : ∀ i t, 0 ≤ i < 1024 → ptab (km_mem s) pgdir i = Some t →
    ptab (km_mem s') pgdir i = Some t;
  ai_used : ∀ q, q ∈ l → q ∈ l' ∨ q ∈ ps ++ held ∨ is_table (km_mem s') pgdir q;
  ai_sub : ∀ q, q ∈ l' → q ∈ l;
  ai_frame : ∀ x, outside (km_mem s) pgdir l x →
    outside (km_mem s') pgdir l' x ∧ ld8 (km_mem s') x = ld8 (km_mem s) x
}.

Lemma alloc_inv_nil s l pgdir lo : pgdir_ok s pgdir l → alloc_inv s l pgdir lo [] [] s l.
Proof.
  intros Hok. split; try done; try set_solver.
  - intros va _. rw /frame_in. by case_decide.
  - constructor.
Qed.

(** An allocated page is neither free nor part of the directory. *)
Lemma alloc_inv_apart s l pgdir lo ps held s' l' p :
  alloc_inv s l pgdir lo ps held s' l' → p ∈ ps ++ held →
  p ∉ l' ∧ p ≠ pgdir ∧ ∀ i t, 0 ≤ i < 1024 → ptab (km_mem s') pgdir i = Some t → t ≠ p.
Proof.
  intros Hinv Hp. assert (in_page p p) as Hin by (rw /in_page /PGSIZE; lia).
  destruct (ai_zero _ _ _ _ _ _ _ _ Hinv p p Hp Hin) as [_ (H1&H2&H3)]. split_and!.
  - intros Hl. by apply (H3 p).
  - by intros ->.
  - intros i t Hi Ht ->. by apply (H2 i p).
Qed.

Lemma alloc_inv_take s l pgdir lo ps s1 p l1 :
  alloc_inv s l pgdir lo ps [] s1 (p :: l1) →
  alloc_inv s l pgdir lo ps [p]
    (set_mem (memset p 0 PGSIZE (km_mem s1)) (set_freelist (ld32 (km_mem s1) p) s1)) l1.
Proof.
  intros Hinv. pose proof Hinv as [Hok Hpte Hnd Hpage Hzero Hkeep Hused Hsub Hfr].
  destruct (take_page _ _ _ _ Hok) as (Hok2&Hpt2&Hpte2&Hz2&Hfr2).
  rw app_nil_r in Hnd Hpage Hzero Hused.
  pose proof (fp_ok _ _ _ (po_free _ _ _ Hok)) as [Hp _]%Forall_cons.
  assert (∀ x, outside (km_mem s1) pgdir (p :: l1) x →
    outside (memset p 0 PGSIZE (km_mem s1)) pgdir l1 x ∧ ¬ in_page p x) as Hout.
  { intros x (H1&H2&H3). split; [split_and!; [done| |set_solver]|apply H3; by left].
    intros i t Hi. rw Hpt2 //. by apply H2. }
  split; [done|..].
  - intros va Hva. by rw Hpte2 Hpte.
  - apply NoDup_app. split_and!; [done| |by apply NoDup_singleton].
    intros q Hq ->%list_elem_of_singleton.
    destruct (alloc_inv_apart _ _ _ _ _ _ _ _ p Hinv) as [Hn _]; [by rw app_nil_r|].
    by apply Hn; left.
  - intros q [Hq| ->%list_elem_of_singleton]%elem_of_app; [by apply Hpage|].
    split; [done|]. apply Hsub. by left.
  - intros q x [Hq| ->%list_elem_of_singleton]%elem_of_app Hx; [|by apply Hz2].
    destruct (Hzero q x Hq Hx) as [Hx0 [Ho Hn]%Hout]. split; [by rw Hfr2|done].
  - intros i t Hi Ht. rw Hpt2 //. auto.
  - intros q [[->|Hq]%elem_of_cons|[Hq|(i&Hi&Ht)]]%Hused; [set_solver..|].
    right; right. exists i. by rw Hpt2.
  - intros q Hq. apply Hsub. by right.
  - intros x [Ho Hx]%Hfr. apply Hout in Ho as [Ho Hn]. split; [done|]. by rw Hfr2.
Qed.

(** Mapping some of the held frames. *)
Lemma alloc_inv_map s l pgdir lo ps held ps' held' s2 l2 a pa perm j s3 l3 :
  alloc_inv s l pgdir lo ps held s2 l2 →
  map_inv s2 l2 pgdir a pa perm j s3 l3 → ps ++ held = ps' ++ held' →
  (∀ va, 0 ≤ va < 2 ^ 32 → pte_of (km_mem s3) pgdir va =
     match frame_in lo ps' va with
     | Some p => user_entry p
     | None => pte_of (km_mem s) pgdir va
     end) →
  alloc_inv s l pgdir lo ps' held' s3 l3.
Proof.
  intros [Hok Hpte Hnd Hpage Hzero Hkeep Hused Hsub Hfr].
  intros [Hmap Hok3 Hsuf Hkeep3 Hused3 Hfr3] Eps Hpte'. rw Eps in Hnd Hpage Hzero Hused.
  split; try done.
  - intros q x Hq Hx. destruct (Hzero q x Hq Hx) as [Hx0 Ho].
    destruct (Hfr3 x Ho) as [? ->]. done.
  - auto.
  - intros q [Hq|[Hq|(i&Hi&Ht)]]%Hused.
    + apply Hused3 in Hq as [?|?]; auto.
    + auto.
    + right; right. exists i. auto.
  - intros q Hq. apply Hsub. destruct Hsuf as [k ->]. set_solver.
  - intros x [Ho Hx]%Hfr. destruct (Hfr3 x Ho) as [? ->]. done.
Qed.

Lemma alloc_inv_step s l pgdir lo ps p s2 l2 s3 l3 :
  aligned lo → 0 ≤ lo → alloc_inv s l pgdir lo ps [p] s2 l2 →
  map_inv s2 l2 pgdir (lo + Z.of_nat (length ps) * PGSIZE) (V2P p) (Z.lor PTE_W PTE_U) 1 s3 l3 →
  alloc_inv s l pgdir lo (ps ++ [p]) [] s3 l3.
Proof.
  intros Hal Hlo Hinv Hmi.
  eapply alloc_inv_map; [exact Hinv|exact Hmi|by rw app_nil_r|].
  intros va Hva. rw (mi_map _ _ _ _ _ _ _ _ _ Hmi) //.
  rw (ai_pte _ _ _ _ _ _ _ _ Hinv) // frame_in_app //.
  pose proof (page_index lo va (Z.of_nat (length ps)) Hal ltac:(lia)) as Hpi.
  set a := lo + Z.of_nat (length ps) * PGSIZE in Hpi |- *.
  replace (lo + (Z.of_nat (length ps) + 1) * PGSIZE) with (a + 1 * PGSIZE) in Hpi
    by (rw /a; lia).
  destruct (decide (va / PGSIZE = a / PGSIZE)) as [E|E].
  - rw decide_True; [by apply Hpi|]. rw /user_entry E. do 2 f_equal.
    assert (a mod PGSIZE = 0) as Ha by rw /a Z_mod_plus_full //.
    rw /PGSIZE in Ha |- *. Z.div_mod_to_equations. lia.
  - rw decide_False //. intros ?. by apply E, Hpi.
Qed.

(** The present pages from [lo] are exactly the ones [allocuvm] mapped. *)
Lemma alloc_present s l pgdir lo hi ps held s' l' va :
  alloc_inv s l pgdir lo ps held s' l' → 0 ≤ lo → hi ≤ KERNBASE →
  (∀ x, lo ≤ x < hi → present (km_mem s) pgdir x = false) → lo ≤ va < hi →
  present (km_mem s') pgdir va = true →
  ∃ p, frame_in lo ps va = Some p ∧ p ∈ ps ∧ frame (km_mem s') pgdir va = p.
Proof.
  intros Hinv Hlo Hhi Habs Hva Hp.
  assert (0 ≤ va < 2 ^ 32) as Hv by (rw /KERNBASE in Hhi; lia).
  pose proof (ai_pte _ _ _ _ _ _ _ _ Hinv va Hv) as E.
  destruct (frame_in lo ps va) as [p|] eqn:Ef.
  - assert (p ∈ ps) as Hin.
    { rw /frame_in in Ef. case_decide; [|done]. by apply list_elem_of_lookup_2 in Ef. }
    exists p. split_and!; [done..|]. rw /frame E. apply user_entry_facts.
    apply (ai_page _ _ _ _ _ _ _ _ Hinv). set_solver.
  - rw /present E in Hp. by rw /present in Habs; rw Habs in Hp.
Qed.

Lemma frame_in_mapped s l pgdir lo ps held s' l' va p :
  alloc_inv s l pgdir lo ps held s' l' → 0 ≤ va < 2 ^ 32 → frame_in lo ps va = Some p →
  present (km_mem s') pgdir va = true ∧ frame (km_mem s') pgdir va = p.
Proof.
  intros Hinv Hv Ef. pose proof (ai_pte _ _ _ _ _ _ _ _ Hinv va Hv) as E. rw Ef in E.
  rw /present /frame E. apply user_entry_facts, (ai_page _ _ _ _ _ _ _ _ Hinv).
  rw /frame_in in Ef. case_decide; [|done]. apply list_elem_of_lookup_2 in Ef. set_solver.
Qed.

Lemma alloc_user_ok s l pgdir lo hi ps held s' l' :
  alloc_inv s l pgdir lo ps held s' l' → 0 ≤ lo → hi ≤ KERNBASE → aligned lo →
  (∀ x, lo ≤ x < hi → present (km_mem s) pgdir x = false) →
  user_ok (km_mem s') pgdir l' lo hi.
Proof.
  intros Hinv Hlo Hhi Hal0 Habs. split.
  - intros va Hva Hal Hp.
    destruct (alloc_present _ _ _ _ _ _ _ _ _ _ Hinv Hlo Hhi Habs Hva Hp) as (p&_&Hin&->).
    assert (p ∈ ps ++ held) as Hin' by set_solver.
    destruct (ai_page _ _ _ _ _ _ _ _ Hinv p Hin') as [Hpok _].
    destruct (alloc_inv_apart _ _ _ _ _ _ _ _ _ Hinv Hin') as (?&?&?). done.
  - intros va va' Hva Hva' Hal Hal' Hp Hp' E.
    destruct (alloc_present _ _ _ _ _ _ _ _ _ _ Hinv Hlo Hhi Habs Hva Hp) as (p&F&_&<-).
    destruct (alloc_present _ _ _ _ _ _ _ _ _ _ Hinv Hlo Hhi Habs Hva' Hp') as (p'&F'&_&<-).
    rw -E in F'. rw /frame_in in F F'. do 2 (case_decide; [|done]).
    pose proof (ai_nodup _ _ _ _ _ _ _ _ Hinv) as [Hnd _]%NoDup_app.
    pose proof (NoDup_lookup _ _ _ _ Hnd F F') as Ei. clear F F' E.
    apply Z2Nat.inj in Ei; [|apply Z.div_pos; [lia|done]..].
    rw /aligned /PGSIZE in Hal Hal' Hal0 Ei. Z.div_mod_to_equations. lia.
Qed.

(** State after a failed [allocuvm] gave its pages back ([held] still to free). *)
Record alloc_undone (s : kmem_state) (l : list Z) (pgdir : Z) (held : list Z)
    (s' : kmem_state) (l' : list Z) : Prop := {
  un_ok : pgdir_ok s' pgdir l';
  un_pte : ∀ va, 0 ≤ va < 2 ^ 32 →
    present (km_mem s') pgdir va = present (km_mem s) pgdir va ∧
    (present (km_mem s) pgdir va = true →
     pte_of (km_mem s') pgdir va = pte_of (km_mem s) pgdir va);
  un_used : ∀ q, q ∈ l → q ∈ l' ∨ q ∈ held ∨ is_table (km_mem s') pgdir q;
  un_held : ∀ p, p ∈ held → page_ok kend p ∧ p ∈ l ∧ p ∉ l' ∧ p ≠ pgdir ∧
    ∀ i t, 0 ≤ i < 1024 → ptab (km_mem s') pgdir i = Some t → t ≠ p;
  un_sub : ∀ q, q ∈ l' → q ∈ l;
  un_frame : ∀ x, outside (km_mem s) pgdir l x → ld8 (km_mem s') x = ld8 (km_mem s) x
}.

Lemma frame_in_range lo ps va p :
  frame_in lo ps va = Some p → lo ≤ va < lo + Z.of_nat (length ps) * PGSIZE.
Proof.
  rw /frame_in. case_decide; [|done]. intros Hl%lookup_lt_Some.
  assert ((va - lo) / PGSIZE < Z.of_nat (length ps)) as Hd by lia. clear Hl.
  rw /PGSIZE in Hd |- *. Z.div_mod_to_equations. lia.
Qed.

Lemma frame_in_at lo ps i p :
  ps !! i = Some p → frame_in lo ps (lo + Z.of_nat i * PGSIZE) = Some p.
Proof.
  intros Hi. rw /frame_in decide_True; [rw /PGSIZE; lia|].
  replace (lo + Z.of_nat i * PGSIZE - lo) with (Z.of_nat i * PGSIZE) by lia.
  by rw Z.div_mul // Nat2Z.id.
Qed.

Lemma alloc_undo s l pgdir lo hi ps held s1 l1 s2 l2 :
  alloc_inv s l pgdir lo ps held s1 l1 → dealloc_inv s1 l1 pgdir lo hi s2 l2 →
  0 ≤ lo → aligned lo → lo + Z.of_nat (length ps) * PGSIZE ≤ hi ≤ KERNBASE →
  (∀ x, lo ≤ x < hi → present (km_mem s) pgdir x = false) →
  alloc_undone s l pgdir held s2 l2.
Proof.
  intros Hinv [Hok Hpt Hpte Hfree Hfr] Hlo Hal Hhi Habs.
  assert (∀ q, user_frame (km_mem s1) pgdir lo hi q → q ∈ ps) as Hps.
  { intros q (va&Hva&_&Hp&->).
    by destruct (alloc_present _ _ _ _ _ _ _ _ _ va Hinv Hlo (proj2 Hhi) Habs Hva Hp) as (p&_&?&->). }
  pose proof (ai_nodup _ _ _ _ _ _ _ _ Hinv) as (_&Hdisj&_)%NoDup_app.
  split.
  - done.
  - intros va Hva. rw {1}/present Hpte //.
    pose proof (ai_pte _ _ _ _ _ _ _ _ Hinv va Hva) as E.
    destruct (frame_in lo ps va) as [p|] eqn:Ef.
    + destruct (frame_in_mapped _ _ _ _ _ _ _ _ _ _ Hinv Hva Ef) as [Hp _].
      apply frame_in_range in Ef. rw decide_True; [split; [lia|done]|].
      rw Habs; [lia|]. done.
    + rw decide_False; [|by rw E]. intros [Hr Hp]. rw /present E in Hp.
      rw -/(present _ _ _) Habs // in Hp.
  - intros q [Hq|[[Hq|Hq]%elem_of_app|(i&Hi&Ht)]]%(ai_used _ _ _ _ _ _ _ _ Hinv).
    + left. apply Hfree. by left.
    + left. apply Hfree. right. apply list_elem_of_lookup in Hq as [i Hi].
      apply lookup_lt_Some in Hi as Hlt. apply (frame_in_at lo) in Hi as Ef.
      exists (lo + Z.of_nat i * PGSIZE).
      assert (0 ≤ lo + Z.of_nat i * PGSIZE < 2 ^ 32) as Hv
        by (rw /KERNBASE /PGSIZE in Hhi |- *; lia).
      destruct (frame_in_mapped _ _ _ _ _ _ _ _ _ _ Hinv Hv Ef) as [? ?].
      split_and!; try done; [rw /PGSIZE; lia|rw /PGSIZE in Hhi |- *; lia|].
      rw /aligned Z_mod_plus_full //.
    + auto.
    + right; right. exists i. by rw Hpt.
  - intros p Hp. assert (p ∈ ps ++ held) as Hp' by set_solver.
    destruct (ai_page _ _ _ _ _ _ _ _ Hinv p Hp') as [??].
    destruct (alloc_inv_apart _ _ _ _ _ _ _ _ _ Hinv Hp') as (Hl&?&Ht).
    split_and?; try done.
    + rw Hfree. intros [?|?%Hps]; [done|]. by apply (Hdisj p).
    + intros i t Hi. rw Hpt //. by apply Ht.
  - intros q [Hq|Hq%Hps]%Hfree; [by apply (ai_sub _ _ _ _ _ _ _ _ Hinv)|].
    apply (ai_page _ _ _ _ _ _ _ _ Hinv). set_solver.
  - intros x Hx. destruct (ai_frame _ _ _ _ _ _ _ _ Hinv x Hx) as [Ho <-].
    apply Hfr; [done|]. intros q Hq%Hps. destruct Hx as (_&_&Hx). apply Hx.
    apply (ai_page _ _ _ _ _ _ _ _ Hinv). set_solver.
Qed.

Lemma undone_free s l pgdir p s1 l1 :
  alloc_undone s l pgdir [p] s1 l1 →
  wp (kfree kend p) s1 (λ _ s', ∃ l', alloc_undone s l pgdir [] s' l').
Proof.
  intros [Hok Hpte Hused Hheld Hsub Hfr].
  destruct (Hheld p) as (Hp&Hpl&Hn&Hpd&Ht); [set_solver|].
  destruct (kfree_user s1 pgdir l1 p Hok Hp Hn Hpd Ht) as (s'&Hrun&Hok'&Hpt'&Hpte'&Hfr').
  eapply wp_intro; [exact Hrun|]. exists (p :: l1). split.
  - done.
  - intros va Hva. rw {1}/present !Hpte'. by apply Hpte.
  - intros q [Hq|[Hq|(i&Hi&Hq)]]%Hused; [set_solver..|].
    right; right. exists i. by rw Hpt'.
  - set_solver.
  - intros q [->|Hq]%elem_of_cons; auto.
  - intros x Hx. rw Hfr'; [|by apply Hfr]. destruct Hx as (_&_&Hx). by apply Hx.
Qed.

(** The pages [allocuvm] maps: [hi = roundup newsz], from [lo = roundup oldsz]. *)
Lemma alloc_rollback s l pgdir oldsz newsz ps held s1 l1 :
  alloc_inv s l pgdir (roundup oldsz) ps held s1 l1 → KERNBASE < kend →
  0 ≤ oldsz < newsz → newsz < KERNBASE →
  roundup oldsz + Z.of_nat (length ps) * PGSIZE ≤ roundup newsz →
  (∀ x, roundup oldsz ≤ x < roundup newsz → present (km_mem s) pgdir x = false) →
  wp (deallocuvm kend pgdir newsz oldsz) s1 (λ _ s', ∃ l', alloc_undone s l pgdir held s' l').
Proof.
  intros Hinv Hkend Hsz Hmax Hlen Habs.
  destruct (roundup_bounds oldsz) as [Hb1 Hal1], (roundup_bounds newsz) as [Hb2 Hal2].
  assert (roundup newsz ≤ KERNBASE) as HR.
  { rw /aligned /KERNBASE /PGSIZE in Hal2 Hb2 Hmax |- *. Z.div_mod_to_equations. lia. }
  eapply wp_mono.
  - apply (deallocuvm_wp s1 l1); [apply (ai_ok _ _ _ _ _ _ _ _ Hinv)|done..|lia|].
    eapply alloc_user_ok; [exact Hinv|lia|lia|done|]. intros x Hx. apply Habs. lia.
  - intros _ s2 (_&l2&Hd). exists l2.
    eapply alloc_undo; [exact Hinv|exact Hd|lia|done|lia|done].
Qed.

Lemma allocuvm_loop_wp s l pgdir oldsz newsz fuel : ∀ ps s1 l1,
  KERNBASE < kend → 0 ≤ oldsz ≤ newsz → newsz < KERNBASE →
  (∀ x, roundup oldsz ≤ x < roundup newsz → present (km_mem s) pgdir x = false) →
  alloc_inv s l pgdir (roundup oldsz) ps [] s1 l1 →
  roundup oldsz + Z.of_nat (length ps) * PGSIZE ≤ roundup newsz →
  newsz ≤ roundup oldsz + Z.of_nat (length ps + fuel) * PGSIZE →
  wp (allocuvm_loop kend fuel pgdir (roundup oldsz + Z.of_nat (length ps) * PGSIZE) oldsz newsz)
    s1 (λ r s', ∃ l', if (r : bool)
      then ∃ ps', alloc_inv s l pgdir (roundup oldsz) ps' [] s' l' ∧
           roundup oldsz + Z.of_nat (length ps') * PGSIZE = roundup newsz
      else alloc_undone s l pgdir [] s' l').
Proof.
  destruct (roundup_bounds oldsz) as [Hb1 Hal1], (roundup_bounds newsz) as [Hb2 Hal2].
  induction fuel as [|k IH]; intros ps s1 l1 Hkend Hsz Hmax Habs Hinv Hlen Hfuel;
    set a := roundup oldsz + Z.of_nat (length ps) * PGSIZE in Hlen |- *;
    cbn [allocuvm_loop]; destruct (Z.ltb_spec a newsz) as [Hlt|Hge]; cbn [negb];
    try (rw Nat.add_0_r in Hfuel; lia);
    try (wp_steps; exists l1, ps; split; [done|];
         rw /a /aligned /PGSIZE in Hal1 Hal2 Hlen Hge Hb2 |- *; Z.div_mod_to_equations; lia).
  assert (0 ≤ a ∧ aligned a ∧ a + PGSIZE ≤ roundup newsz ∧ oldsz < newsz) as (Ha0&Hal&Haj&Hgt).
  { rw /a /aligned /PGSIZE in Hal1 Hal2 Hlt Hb2 Hb1 |- *. split_and!; Z.div_mod_to_equations; lia. }
  assert (a + PGSIZE < 2 ^ 32) as Ha32 by (rw /KERNBASE /PGSIZE in Hmax Hlt |- *; lia).
  pose proof (ai_ok _ _ _ _ _ _ _ _ Hinv) as Hok. wp_step. destruct l1 as [|p l1].
  { eapply wp_intro; [exact (kalloc_empty kend s1 (po_free _ _ _ Hok))|].
    rw Z.eqb_refl. wp_step. eapply wp_mono; [eapply (alloc_rollback s l);
      [eassumption|done|lia|done|done|done]|].
    intros _ s2 [l2 ?]. wp_steps. eauto. }
  destruct (kalloc_pops kend s1 p l1 (po_free _ _ _ Hok)) as [Hrun _].
  eapply wp_intro; [exact Hrun|].
  pose proof (fp_ok _ _ _ (po_free _ _ _ Hok)) as [Hp _]%Forall_cons.
  apply page_ok_pos in Hp as Hpos. rw /KERNBASE in Hpos.
  destruct (Z.eqb_spec p 0); [lia|]. rw /upd_mem. wp_steps.
  pose proof (alloc_inv_take _ _ _ _ _ _ _ _ Hinv) as Htake.
  destruct (page_phys p Hp) as (Hphys&_&_).
  assert (npages a PGSIZE = 1) as Hnp.
  { rw /npages /aligned /PGSIZE in Hal |- *. Z.div_mod_to_equations. lia. }
  assert (PGROUNDDOWN a = a) as Ead.
  { rw PGROUNDDOWN_eq; [rw /PGSIZE in Ha32; lia|]. rw /aligned /PGSIZE in Hal |- *.
    Z.div_mod_to_equations. lia. }
  eapply wp_mono.
  { apply (mappages_wp _ l1 pgdir a PGSIZE (V2P p) (Z.lor PTE_W PTE_U));
      rw ?Hnp ?Ead; try done; [apply Htake|lia|lia|rw /PHYSTOP /PGSIZE in Hphys |- *; lia|].
    intros x Hx. cbn [km_mem set_mem set_freelist].
    assert (roundup oldsz ≤ a) by (rw /a /PGSIZE; lia).
    destruct (take_page _ _ _ _ Hok) as (_&_&Hpte2&_). rw Hpte2.
    rw (ai_pte _ _ _ _ _ _ _ _ Hinv); [lia|].
    destruct (frame_in _ ps x) as [q|] eqn:Ef; [apply frame_in_range in Ef; rw -/a in Ef; lia|].
    apply Habs. lia. }
  rw Hnp Ead. intros r s3 (j&l3&Hmi&[(->&->)|(->&Hj&->)]); simpl.
  - rw u32_small; [lia|].
    pose proof (alloc_inv_step _ _ _ _ _ _ _ _ _ _ Hal1 ltac:(lia) Htake Hmi) as Hinv3.
    replace (a + PGSIZE) with (roundup oldsz + Z.of_nat (length (ps ++ [p])) * PGSIZE)
      by (rw length_app /a /=; lia).
    eapply IH; [done..|exact Hinv3| |]; rw length_app /=.
    + rw /a in Haj. lia.
    + rw /PGSIZE in Hfuel |- *. lia.
  - assert (j = 0) as -> by lia.
    assert (alloc_inv s l pgdir (roundup oldsz) ps [p] s3 []) as Hinv3.
    { eapply alloc_inv_map; [exact Htake|exact Hmi|done|]. intros va Hva.
      rw (mi_map _ _ _ _ _ _ _ _ _ Hmi) // decide_False; [lia|].
      by rw (ai_pte _ _ _ _ _ _ _ _ Htake). }
    wp_step. eapply wp_mono; [eapply (alloc_rollback s l);
      [eassumption|done|lia|done|done|done]|].
    intros _ s4 [l4 Hun]. wp_step. eapply wp_mono; [eapply undone_free; exact Hun|].
    intros _ s5 [l5 ?]. wp_steps. eauto.
Qed.

(** A zeroed directory translates nothing. *)
Lemma pgdir_ok_zero s pgdir l :
  free_pages kend s l → page_ok kend pgdir → pgdir ∉ l →
  (∀ i, 0 ≤ i < 1024 → ld32 (km_mem s) (pgdir + 4 * i) = 0) →
  pgdir_ok s pgdir l ∧ ∀ va, pte_of (km_mem s) pgdir va = 0.
Proof.
  intros Hfp Hp Hl Hz.
  assert (∀ i, 0 ≤ i < 1024 → ptab (km_mem s) pgdir i = None) as Hn.
  { intros i Hi. rw /ptab Hz //. }
  split; [split; try done; intros i; intros; by rw Hn in H0 || rw Hn in H1|].
  intros va. rw /pte_of Hn //. apply PDX_range.
Qed.

(** [mappages] on an unmapped range installs exactly the translations of its
    pages (page [k] of the range goes to [pa + k * PGSIZE] with the permissions
    asked for), leaves every other translation and every byte outside the page
    tables and the free pages alone, and keeps the directory well formed; it
    returns -1 exactly when it ran out of memory for a page table, and then the
    pages mapped so far are a prefix of the range. *)
Theorem mappages_installs_range s l pgdir va size pa perm :
  pgdir_ok s pgdir l → 0 ≤ va → 0 < size → va + size ≤ 2 ^ 32 →
  0 ≤ pa → pa + npages va size * PGSIZE ≤ 2 ^ 32 → 0 ≤ perm < 2 ^ 32 →
  (∀ x, PGROUNDDOWN va ≤ x < PGROUNDDOWN va + npages va size * PGSIZE →
        present (km_mem s) pgdir x = false) →
  ∃ r s' j l', mappages pgdir va size pa perm s = Ret r s' ∧
    mapped (km_mem s) (km_mem s') pgdir (PGROUNDDOWN va) pa perm j ∧
    pgdir_ok s' pgdir l' ∧ l' `suffix_of` l ∧
    (∀ x, outside (km_mem s) pgdir l x → ld8 (km_mem s') x = ld8 (km_mem s) x) ∧
    (r = 0 ∧ j = npages va size ∨ r = -1 ∧ 0 ≤ j < npages va size ∧ l' = []).
Proof.
  intros Hok Hva Hsz Hlim Hpa0 Hpa Hperm Hfree.
  destruct (wp_elim _ _ _ (mappages_wp s l pgdir va size pa perm Hok Hva Hsz Hlim Hpa0 Hpa Hperm Hfree))
    as (r&s'&Hrun&j&l'&[Hmap Hok' Hsuf _ _ Hfr]&Hr).
  exists r, s', j, l'. split_and!; try done. intros x Hx. by apply Hfr.
Qed.

(** [deallocuvm] returns the new size, makes every page from the rounded-up new
    size to the old size absent, puts exactly the frames of the pages that were
    present on the free list, and changes no other translation. *)
Theorem deallocuvm_frees_range s l pgdir oldsz newsz :
  pgdir_ok s pgdir l → KERNBASE < kend → 0 ≤ newsz < oldsz → oldsz ≤ KERNBASE →
  user_ok (km_mem s) pgdir l (roundup newsz) oldsz →
  ∃ s' l', deallocuvm kend pgdir oldsz newsz s = Ret newsz s' ∧ pgdir_ok s' pgdir l' ∧
    (∀ q, q ∈ l' ↔ q ∈ l ∨ user_frame (km_mem s) pgdir (roundup newsz) (roundup oldsz) q) ∧
    (∀ va, roundup newsz ≤ va < roundup oldsz → present (km_mem s') pgdir va = false) ∧
    (∀ va, 0 ≤ va < 2 ^ 32 → va < roundup newsz ∨ roundup oldsz ≤ va →
           pte_of (km_mem s') pgdir va = pte_of (km_mem s) pgdir va).
Proof.
  intros Hok Hk Hsz Hmax Huo.
  destruct (wp_elim _ _ _ (deallocuvm_wp s l pgdir oldsz newsz Hok Hk Hsz Hmax Huo))
    as (r&s'&Hrun&->&l'&[Hok' _ Hpte Hfree _]).
  exists s', l'. split_and!; try done.
  - intros va Hva. rw {1}/present Hpte.
    { destruct (roundup_bounds oldsz), (roundup_bounds newsz).
      rw /KERNBASE /PGSIZE in Hmax H H1. lia. }
    destruct (present (km_mem s) pgdir va) eqn:Hp; [by rw decide_True|].
    by rw decide_False; [intros [_ ?]|].
  - intros va Hva Hr. rw Hpte // decide_False //. lia.
Qed.

(** C29: [allocuvm] either grows the process, every new page being mapped, user
    writable and zeroed, in a frame of its own taken from the free list, with
    nothing else changed; or it fails with 0 and gives everything back: the
    translations are the old ones, every free page is free again except the ones
    that became page tables, and no byte in use was touched. *)
Theorem allocuvm_grows_or_restores s l pgdir oldsz newsz :
  pgdir_ok s pgdir l → KERNBASE < kend → 0 ≤ oldsz ≤ newsz → newsz < KERNBASE →
  (∀ x, roundup oldsz ≤ x < roundup newsz → present (km_mem s) pgdir x = false) →
  ∃ r s' l', allocuvm kend pgdir oldsz newsz s = Ret r s' ∧
    (r = newsz ∧ (∃ ps, alloc_inv s l pgdir (roundup oldsz) ps [] s' l' ∧
                   roundup oldsz + Z.of_nat (length ps) * PGSIZE = roundup newsz) ∨
     r = 0 ∧ alloc_undone s l pgdir [] s' l').
Proof.
  intros Hok Hk Hsz Hmax Habs.
  assert (wp (allocuvm kend pgdir oldsz newsz) s (λ r s', ∃ l',
    r = newsz ∧ (∃ ps, alloc_inv s l pgdir (roundup oldsz) ps [] s' l' ∧
                   roundup oldsz + Z.of_nat (length ps) * PGSIZE = roundup newsz) ∨
     r = 0 ∧ alloc_undone s l pgdir [] s' l')) as Hwp.
  { rw /allocuvm. destruct (Z.leb_spec KERNBASE newsz); [lia|].
    destruct (Z.ltb_spec newsz oldsz); [lia|]. wp_step.
    assert (PGROUNDUP oldsz = roundup oldsz) as ->.
    { apply PGROUNDUP_eq; rw /KERNBASE /PGSIZE in Hmax |- *; lia. }
    destruct (roundup_bounds oldsz) as [Hb1 Hal1], (roundup_bounds newsz) as [Hb2 Hal2].
    eapply wp_mono.
    - replace (roundup oldsz) with (roundup oldsz + Z.of_nat (length ([] : list Z)) * PGSIZE)
        by (simpl; lia).
      apply (allocuvm_loop_wp s l pgdir oldsz newsz _ [] s l);
        [done|lia|done|done|by apply alloc_inv_nil|simpl|simpl].
      + rw Z.add_0_r. apply Z.mul_le_mono_nonneg_r; [done|]. apply Z.div_le_mono; [done|lia].
      + rw /PGSIZE in Hb1 |- *. Z.div_mod_to_equations. lia.
    - intros [] s' [l' Hr]; wp_steps; exists l'; [left|right]; auto. }
  destruct (wp_elim _ _ _ Hwp) as (r&s'&Hrun&l'&Hr). by exists r, s', l'.
Qed.

(** [uva2ka] gives the kernel address of the frame of a present user page and 0
    for a page that is absent or closed to the user; an address without a page
    table makes it read through the null pointer [walkpgdir] returns. *)
Theorem uva2ka_branches s l pgdir va :
  pgdir_ok s pgdir l →
  uva2ka pgdir va s =
    match ptab (km_mem s) pgdir (PDX va) with
    | None => Undef "uva2ka: null pte dereferenced"
    | Some _ =>
        let w := pte_of (km_mem s) pgdir va in
        Ret (if bit_set w PTE_P && bit_set w PTE_U then P2V (PTE_ADDR w) else 0) s
    end.
Proof.
  intros Hok. rw /uva2ka.
  destruct (wp_elim _ _ _ (walkpgdir_wp pgdir va false s l Hok)) as (r&s1&Hrun&Hr).
  rw (bind_Ret _ _ _ _ _ Hrun). destruct Hr as [(->&->&->&_)|(t&l'&->&Hpos&Hw&Hs)]; [done|].
  destruct (Hs eq_refl) as [-> ->]. pose proof (wk_tab _ _ _ _ _ _ _ Hw) as Ht.
  rw /pte_of Ht. rw /KERNBASE in Hpos. destruct (Z.eqb_spec (t + 4 * PTX va) 0); [lia|].
  rw /load32 /gets /mbind /K_bind.
  destruct (bit_set (ld32 (km_mem s) _) PTE_P), (bit_set (ld32 (km_mem s) _) PTE_U); done.
Qed.

End VmFacts.

(** ** A machine with a zeroed directory and two free pages *)

Definition demo_mem : mem := st32 (KERNLINK + 0x1000) (KERNLINK + 0x2000) ∅.
Definition demo : kmem_state := Kmem demo_mem (KERNLINK + 0x1000) true [].
Definition demo_free : list Z := [KERNLINK + 0x1000; KERNLINK + 0x2000].

Lemma demo_ok :
  pgdir_ok KERNLINK demo KERNLINK demo_free ∧
  ∀ va, pte_of (km_mem demo) KERNLINK va = 0.
Proof.
  apply pgdir_ok_zero.
  - split; [by vm_compute| | |]; apply (bool_decide_unpack _); vm_compute; exact I.
  - apply (bool_decide_unpack _); vm_compute; exact I.
  - apply (bool_decide_unpack _); vm_compute; exact I.
  - intros i Hi. rw /demo /demo_mem /= ld32_st32_ne; [rw /KERNLINK /KERNBASE /EXTMEM; lia|].
    done.
Qed.

Lemma mappages_installs_range_witness :
  ∃ r s', mappages KERNLINK 0x1234 0x1000 0x5000 PTE_W demo = Ret r s'.
Proof.
  destruct demo_ok as [Hok Hz].
  destruct (mappages_installs_range KERNLINK demo demo_free KERNLINK 0x1234 0x1000 0x5000 PTE_W)
    as (r&s'&j&l'&Hrun&_).
  - exact Hok.
  - lia.
  - lia.
  - lia.
  - lia.
  - vm_compute. intro; discriminate.
  - vm_compute. split; [intro; discriminate|reflexivity].
  - intros x _. unfold present. rewrite Hz. reflexivity.
  - exists r, s'. exact Hrun.
Defined.

Lemma deallocuvm_frees_range_witness :
  ∃ s', deallocuvm (KERNLINK) KERNLINK 0x3000 0x800 demo = Ret 0x800 s'.
Proof.
  destruct demo_ok as [Hok Hz].
  destruct (deallocuvm_frees_range KERNLINK demo demo_free KERNLINK 0x3000 0x800)
    as (s'&l'&Hrun&_).
  - exact Hok.
  - reflexivity.
  - lia.
  - vm_compute. intro; discriminate.
  - split.
    + intros va _ _ Hp. unfold present in Hp. rewrite Hz in Hp. discriminate Hp.
    + intros va va' _ _ _ _ Hp. unfold present in Hp. rewrite Hz in Hp. discriminate Hp.
  - exists s'. exact Hrun.
Defined.

Lemma allocuvm_grows_or_restores_witness :
  ∃ r s', allocuvm KERNLINK KERNLINK 0 0x1000 demo = Ret r s'.
Proof.
  destruct demo_ok as [Hok Hz].
  destruct (allocuvm_grows_or_restores KERNLINK demo demo_free KERNLINK 0 0x1000)
    as (r&s'&l'&Hrun&_).
  - exact Hok.
  - reflexivity.
  - lia.
  - reflexivity.
  - intros x _. unfold present. rewrite Hz. reflexivity.
  - exists r, s'. exact Hrun.
Defined.

Lemma uva2ka_branches_witness :
  uva2ka KERNLINK 0x1000 demo = Undef "uva2ka: null pte dereferenced".
Proof.
  rewrite (uva2ka_branches KERNLINK demo demo_free KERNLINK 0x1000 (proj1 demo_ok)).
  vm_compute. reflexivity.
Defined.
