(* ===== verification/Proc.v ===== *)
(** * Processes (xv6/proc.c, proc.h).

    The process table, the per-CPU current process and the operations on them:
    allocproc, userinit, growproc, fork, exit, wait, sleep, wakeup, kill, yield, the
    scheduler's choice and the switch between a process and the scheduler.  A process
    pointer is an index in the table (the null pointer is [None]); as a sleep channel
    it is the address of the slot.  Kernel stacks, trap frames and contexts live in
    the memory of [Kalloc]; the file system is a parameter with the operations
    proc.c calls ([FileOps]).  [proc_step] interleaves the operations of all CPUs;
    the theorems are the invariant of the table over every interleaving, what fork,
    wait, exit and kill do to it, and that no wake-up of wait is lost. *)
From S2P Require Import Prelude CMem Str Spinlock Kalloc Vm.
Local Open Scope Z_scope.

(** ** Data *)

Definition NPROC : nat := 64.
Definition NOFILE : nat := 16.
Definition KSTACKSIZE : Z := 4096.

Inductive procstate := UNUSED | EMBRYO | SLEEPING | RUNNABLE | RUNNING | ZOMBIE.

#[global] Instance procstate_eq_dec : EqDecision procstate.
Proof. solve_decision. Defined.

Record proc := Proc {
  p_sz : Z;
  p_pgdir : Z;
  p_kstack : Z;
  p_state : procstate;
  p_pid : Z;
  p_parent : option nat;
  p_tf : Z;
  p_context : Z;
  p_chan : Z;
  p_killed : Z;
  p_ofile : list (option nat);
  p_cwd : option nat;
  p_name : list Z
}.

Definition set_sz (v : Z) (p : proc) : proc :=
  Proc v (p_pgdir p) (p_kstack p) (p_state p) (p_pid p) (p_parent p) (p_tf p) (p_context p) (p_chan p) (p_killed p) (p_ofile p) (p_cwd p) (p_name p).
Definition set_pgdir (v : Z) (p : proc) : proc :=
  Proc (p_sz p) v (p_kstack p) (p_state p) (p_pid p) (p_parent p) (p_tf p) (p_context p) (p_chan p) (p_killed p) (p_ofile p) (p_cwd p) (p_name p).
Definition set_kstack (v : Z) (p : proc) : proc :=
  Proc (p_sz p) (p_pgdir p) v (p_state p) (p_pid p) (p_parent p) (p_tf p) (p_context p) (p_chan p) (p_killed p) (p_ofile p) (p_cwd p) (p_name p).
Definition set_state (v : procstate) (p : proc) : proc :=
  Proc (p_sz p) (p_pgdir p) (p_kstack p) v (p_pid p) (p_parent p) (p_tf p) (p_context p) (p_chan p) (p_killed p) (p_ofile p) (p_cwd p) (p_name p).
Definition set_pid (v : Z) (p : proc) : proc :=
  Proc (p_sz p) (p_pgdir p) (p_kstack p) (p_state p) v (p_parent p) (p_tf p) (p_context p) (p_chan p) (p_killed p) (p_ofile p) (p_cwd p) (p_name p).
Definition set_parent (v : option nat) (p : proc) : proc :=
  Proc (p_sz p) (p_pgdir p) (p_kstack p) (p_state p) (p_pid p) v (p_tf p) (p_context p) (p_chan p) (p_killed p) (p_ofile p) (p_cwd p) (p_name p).
Definition set_tf (v : Z) (p : proc) : proc :=
  Proc (p_sz p) (p_pgdir p) (p_kstack p) (p_state p) (p_pid p) (p_parent p) v (p_context p) (p_chan p) (p_killed p) (p_ofile p) (p_cwd p) (p_name p).
Definition set_context (v : Z) (p : proc) : proc :=
  Proc (p_sz p) (p_pgdir p) (p_kstack p) (p_state p) (p_pid p) (p_parent p) (p_tf p) v (p_chan p) (p_killed p) (p_ofile p) (p_cwd p) (p_name p).
Definition set_chan (v : Z) (p : proc) : proc :=
  Proc (p_sz p) (p_pgdir p) (p_kstack p) (p_state p) (p_pid p) (p_parent p) (p_tf p) (p_context p) v (p_killed p) (p_ofile p) (p_cwd p) (p_name p).
Definition set_killed (v : Z) (p : proc) : proc :=
  Proc (p_sz p) (p_pgdir p) (p_kstack p) (p_state p) (p_pid p) (p_parent p) (p_tf p) (p_context p) (p_chan p) v (p_ofile p) (p_cwd p) (p_name p).
Definition set_ofile (v : list (option nat)) (p : proc) : proc :=
  Proc (p_sz p) (p_pgdir p) (p_kstack p) (p_state p) (p_pid p) (p_parent p) (p_tf p) (p_context p) (p_chan p) (p_killed p) v (p_cwd p) (p_name p).
Definition set_cwd (v : option nat) (p : proc) : proc :=
  Proc (p_sz p) (p_pgdir p) (p_kstack p) (p_state p) (p_pid p) (p_parent p) (p_tf p) (p_context p) (p_chan p) (p_killed p) (p_ofile p) v (p_name p).
Definition set_name (v : list Z) (p : proc) : proc :=
  Proc (p_sz p) (p_pgdir p) (p_kstack p) (p_state p) (p_pid p) (p_parent p) (p_tf p) (p_context p) (p_chan p) (p_killed p) (p_ofile p) (p_cwd p) v.

(** A slot of the zero-initialised table. *)
Definition proc0 : proc :=
  Proc 0 0 0 UNUSED 0 None 0 0 0 0 (replicate NOFILE None) None (replicate 16 0).

(** Layout of the structures on the kernel stack (x86.h, proc.h). *)
Definition sizeof_trapframe : Z := 76.
Definition sizeof_context : Z := 20.
Definition tf_eax : Z := 28.
Definition tf_es : Z := 40.
Definition tf_ds : Z := 44.
Definition tf_eip : Z := 56.
Definition tf_cs : Z := 60.
Definition tf_eflags : Z := 64.
Definition tf_esp : Z := 68.
Definition tf_ss : Z := 72.
Definition ctx_ebp : Z := 12.
Definition ctx_eip : Z := 16.

(** What proc.c uses of the file table, the inode cache and the log. *)
Class FileOps (F : Type) := {
  filedup : nat → K F nat;
  fileclose : nat → K F unit;
  idup : nat → K F nat;
  iput : nat → K F unit;
  namei : string → K F (option nat);
  begin_op : K F unit;
  end_op : K F unit
}.

Record kern (F : Type) := Kern {
  procs : list proc;
  nextpid : Z;
  initproc : option nat;
  cpuproc : list (option nat);
  phys : kmem_state;
  khold : list string;
  kfs : F
}.
Arguments Kern {F}.
Arguments procs {F}.
Arguments nextpid {F}.
Arguments initproc {F}.
Arguments cpuproc {F}.
Arguments phys {F}.
Arguments khold {F}.
Arguments kfs {F}.

Section Proc.
Context {F : Type} `{!FileOps F}.

Definition set_procs (v : list proc) (s : kern F) : kern F :=
  Kern v (nextpid s) (initproc s) (cpuproc s) (phys s) (khold s) (kfs s).
Definition set_nextpid (v : Z) (s : kern F) : kern F :=
  Kern (procs s) v (initproc s) (cpuproc s) (phys s) (khold s) (kfs s).
Definition set_initproc (v : option nat) (s : kern F) : kern F :=
  Kern (procs s) (nextpid s) v (cpuproc s) (phys s) (khold s) (kfs s).
Definition set_cpuproc (v : list (option nat)) (s : kern F) : kern F :=
  Kern (procs s) (nextpid s) (initproc s) v (phys s) (khold s) (kfs s).
Definition set_phys (v : kmem_state) (s : kern F) : kern F :=
  Kern (procs s) (nextpid s) (initproc s) (cpuproc s) v (khold s) (kfs s).
Definition set_khold (v : list string) (s : kern F) : kern F :=
  Kern (procs s) (nextpid s) (initproc s) (cpuproc s) (phys s) v (kfs s).
Definition set_kfs (v : F) (s : kern F) : kern F :=
  Kern (procs s) (nextpid s) (initproc s) (cpuproc s) (phys s) (khold s) v.

#[global] Program Instance kern_HasLocks : HasLocks (kern F) :=
  {| held := khold; set_held := set_khold |}.
Next Obligation. done. Qed.

(** The allocator and the page tables run with the locks of the calling thread.  A
    component that blocks keeps its label apart from the ones of proc.c. *)
Definition blocked_in {S A} (c : string) (m : K S A) : K S A := λ s,
  match m s with Sleeps w s' => Sleeps (c +:+ w) s' | r => r end.
Definition in_kmem {A} (m : K kmem_state A) : K (kern F) A :=
  blocked_in "kmem:" (zoom
    (λ s, Kmem (km_mem (phys s)) (km_freelist (phys s)) (km_use_lock (phys s)) (khold s))
    (λ k s, set_khold (km_held k) (set_phys k s)) m).
Definition in_fs {A} (m : K F A) : K (kern F) A := blocked_in "fs:" (zoom kfs set_kfs m).

(** The slot behind a process pointer. *)
Definition proc_at (i : nat) : K (kern F) proc := λ s,
  match procs s !! i with
  | Some p => Ret p s
  | None => Undef "proc out of the table"
  end.
Definition upd_proc (i : nat) (f : proc → proc) : K (kern F) unit :=
  modify (λ s, set_procs (alter f i (procs s)) s).
Definition deref {S A} (o : option A) : K S A :=
  match o with Some a => mret a | None => undef "null pointer" end.

(** Linker symbols: the table, the kernel's text and data, [forkret], [trapret]. *)
Variables ptable_proc kend kdata forkret_addr trapret_addr : Z.
Definition sizeof_proc : Z := 124.
Definition proc_addr (o : option nat) : Z :=
  match o with Some i => ptable_proc + sizeof_proc * Z.of_nat i | None => 0 end.

(** [me] is the CPU that runs the code. *)
Definition myproc (me : nat) : K (kern F) (option nat) :=
  gets (λ s, default None (cpuproc s !! me)).

Definition allocproc : K (kern F) (option nat) :=
  _ ← lock_acquire "ptable";
  ps ← gets procs;
  match list_find (λ p, p_state p = UNUSED) ps with
  | None => _ ← lock_release "ptable"; mret None
  | Some (i, _) =>
      _ ← upd_proc i (set_state EMBRYO);
      n ← gets nextpid;
      _ ← upd_proc i (set_pid n);
      _ ← modify (set_nextpid (s32 (n + 1)));
      _ ← lock_release "ptable";
      k ← in_kmem kalloc;
      _ ← upd_proc i (set_kstack k);
      if k =? 0 then
        _ ← upd_proc i (set_state UNUSED);
        mret None
      else
        let sp := k + KSTACKSIZE - sizeof_trapframe in
        _ ← upd_proc i (set_tf sp);
        let sp := sp - 4 in
        _ ← in_kmem (store32 sp trapret_addr);
        let sp := sp - sizeof_context in
        _ ← upd_proc i (set_context sp);
        _ ← in_kmem (upd_mem (memset sp 0 sizeof_context));
        _ ← in_kmem (store32 (sp + ctx_eip) forkret_addr);
        mret (Some i)
  end.

Definition SEG_UCODE : Z := 3.
Definition SEG_UDATA : Z := 4.
Definition DPL_USER : Z := 0x3.

Definition store16 (a v : Z) : K kmem_state unit :=
  upd_mem (λ m, st8 (a + 1) (u8 (Z.shiftr v 8)) (st8 a (u8 v) m)).

(** [safestrcpy] between two 16-byte names. *)
Definition copy_name (t old : list Z) : list Z :=
  let body := take 15 (cstring t) in
  body ++ 0 :: drop (S (length body)) old.
(** The string "initcode". *)
Definition initcode_name : list Z := [105; 110; 105; 116; 99; 111; 100; 101; 0].

(** [initcode] and [initcode_size] are the first program, linked into the kernel. *)
Definition userinit (initcode initcode_size : Z) : K (kern F) unit :=
  o ← allocproc;
  _ ← modify (set_initproc o);
  i ← deref o;
  pd ← in_kmem (setupkvm kend kdata);
  _ ← upd_proc i (set_pgdir pd);
  if pd =? 0 then panic "userinit: out of memory?"
  else
    _ ← in_kmem (inituvm pd initcode initcode_size);
    _ ← upd_proc i (set_sz PGSIZE);
    p ← proc_at i;
    _ ← in_kmem (upd_mem (memset (p_tf p) 0 sizeof_trapframe));
    _ ← in_kmem (store16 (p_tf p + tf_cs) (Z.lor (Z.shiftl SEG_UCODE 3) DPL_USER));
    _ ← in_kmem (store16 (p_tf p + tf_ds) (Z.lor (Z.shiftl SEG_UDATA 3) DPL_USER));
    _ ← in_kmem (store16 (p_tf p + tf_es) (Z.lor (Z.shiftl SEG_UDATA 3) DPL_USER));
    _ ← in_kmem (store16 (p_tf p + tf_ss) (Z.lor (Z.shiftl SEG_UDATA 3) DPL_USER));
    _ ← in_kmem (store32 (p_tf p + tf_eflags) FL_IF);
    _ ← in_kmem (store32 (p_tf p + tf_esp) PGSIZE);
    _ ← in_kmem (store32 (p_tf p + tf_eip) 0);
    _ ← upd_proc i (λ p, set_name (copy_name initcode_name (p_name p)) p);
    c ← in_fs (namei "/");
    _ ← upd_proc i (set_cwd c);
    _ ← lock_acquire "ptable";
    _ ← upd_proc i (set_state RUNNABLE);
    lock_release "ptable".

(** The task state and the page directory register are the CPU's; the checks are here. *)
Definition switchuvm (p : proc) : K (kern F) unit :=
  if p_kstack p =? 0 then panic "switchuvm: no kstack"
  else if p_pgdir p =? 0 then panic "switchuvm: no pgdir"
  else mret tt.

Definition growproc (me : nat) (n : Z) : K (kern F) Z :=
  o ← myproc me;
  i ← deref o;
  p ← proc_at i;
  let sz := p_sz p in
  r ← (if 0 <? n then
         sz ← in_kmem (allocuvm kend (p_pgdir p) sz (u32 (sz + n)));
         mret (if sz =? 0 then None else Some sz)
       else if n <? 0 then
         sz ← in_kmem (deallocuvm kend (p_pgdir p) sz (u32 (sz + n)));
         mret (if sz =? 0 then None else Some sz)
       else mret (Some sz));
  match r with
  | None => mret (-1)
  | Some sz =>
      _ ← upd_proc i (set_sz sz);
      p ← proc_at i;
      _ ← switchuvm p;
      mret 0
  end.

Definition fork (me : nat) : K (kern F) Z :=
  o ← myproc me;
  cur ← deref o;
  np ← allocproc;
  match np with
  | None => mret (-1)
  | Some i =>
      c ← proc_at cur;
      pd ← in_kmem (copyuvm kend kdata (p_pgdir c) (p_sz c));
      _ ← upd_proc i (set_pgdir pd);
      if pd =? 0 then
        p ← proc_at i;
        _ ← in_kmem (kfree kend (p_kstack p));
        _ ← upd_proc i (set_kstack 0);
        _ ← upd_proc i (set_state UNUSED);
        mret (-1)
      else
        _ ← upd_proc i (set_sz (p_sz c));
        _ ← upd_proc i (set_parent (Some cur));
        p ← proc_at i;
        _ ← in_kmem (upd_mem (memmove (p_tf p) (p_tf c) sizeof_trapframe));
        _ ← in_kmem (store32 (p_tf p + tf_eax) 0);
        _ ← for_each (seq 0 NOFILE) (λ fd,
              match p_ofile c !! fd with
              | Some (Some f) =>
                  f' ← in_fs (filedup f);
                  upd_proc i (λ p, set_ofile (<[fd := Some f']> (p_ofile p)) p)
              | _ => mret tt
              end);
        d ← deref (p_cwd c);
        d' ← in_fs (idup d);
        _ ← upd_proc i (set_cwd (Some d'));
        _ ← upd_proc i (λ p, set_name (copy_name (p_name c) (p_name p)) p);
        p ← proc_at i;
        _ ← lock_acquire "ptable";
        _ ← upd_proc i (set_state RUNNABLE);
        _ ← lock_release "ptable";
        mret (p_pid p)
  end.

(** ** Sleeping and waking up *)

(** The body of the loop of [wakeup1] at a slot. *)
Definition woken (chan : Z) (p : proc) : proc :=
  if bool_decide (p_state p = SLEEPING) && (p_chan p =? chan) then set_state RUNNABLE p else p.

Definition wakeup1 (chan : Z) : K (kern F) unit :=
  modify (λ s, set_procs (woken chan <$> procs s) s).

Definition wakeup (chan : Z) : K (kern F) unit :=
  _ ← lock_acquire "ptable";
  _ ← wakeup1 chan;
  lock_release "ptable".

(** Interrupts are off while a lock is held, and [ncli] counts the held locks; the
    [swtch] to the scheduler suspends the thread. *)
Definition sched (me : nat) : K (kern F) unit :=
  o ← myproc me;
  h ← gets khold;
  if negb (bool_decide ("ptable" ∈ h)) then panic "sched ptable.lock"
  else if negb (Nat.eqb (length h) 1) then panic "sched locks"
  else
    i ← deref o;
    p ← proc_at i;
    if bool_decide (p_state p = RUNNING) then panic "sched running"
    else sleeps "sched".

(** What [sleep] does once it runs again. *)
Definition sleep_return (me : nat) (lk : string) : K (kern F) unit :=
  o ← myproc me;
  i ← deref o;
  _ ← upd_proc i (set_chan 0);
  when (negb (bool_decide (lk = "ptable")))
    (_ ← lock_release "ptable"; lock_acquire lk).

Definition sleep (me : nat) (chan : Z) (lk : option string) : K (kern F) unit :=
  o ← myproc me;
  match o with
  | None => panic "sleep"
  | Some i =>
      match lk with
      | None => panic "sleep without lk"
      | Some lk =>
          _ ← when (negb (bool_decide (lk = "ptable")))
                (_ ← lock_acquire "ptable"; lock_release lk);
          _ ← upd_proc i (set_chan chan);
          _ ← upd_proc i (set_state SLEEPING);
          _ ← sched me;
          sleep_return me lk
      end
  end.

Definition yield (me : nat) : K (kern F) unit :=
  _ ← lock_acquire "ptable";
  o ← myproc me;
  i ← deref o;
  _ ← upd_proc i (set_state RUNNABLE);
  _ ← sched me;
  lock_release "ptable".

(** ** Exit, wait and kill *)

Definition exit (me : nat) : K (kern F) unit :=
  o ← myproc me;
  ini ← gets initproc;
  if bool_decide (o = ini) then panic "init exiting"
  else
    cur ← deref o;
    _ ← for_each (seq 0 NOFILE) (λ fd,
          p ← proc_at cur;
          match p_ofile p !! fd with
          | Some (Some f) =>
              _ ← in_fs (fileclose f);
              upd_proc cur (λ p, set_ofile (<[fd := None]> (p_ofile p)) p)
          | _ => mret tt
          end);
    _ ← in_fs begin_op;
    p ← proc_at cur;
    d ← deref (p_cwd p);
    _ ← in_fs (iput d);
    _ ← in_fs end_op;
    _ ← upd_proc cur (set_cwd None);
    _ ← lock_acquire "ptable";
    p ← proc_at cur;
    _ ← wakeup1 (proc_addr (p_parent p));
    _ ← for_each (seq 0 NPROC) (λ j,
          q ← proc_at j;
          if bool_decide (p_parent q = Some cur) then
            _ ← upd_proc j (set_parent ini);
            when (bool_decide (p_state q = ZOMBIE)) (wakeup1 (proc_addr ini))
          else mret tt);
    _ ← upd_proc cur (set_state ZOMBIE);
    _ ← sched me;
    panic "zombie exit".

(** The scan of [wait]: the first zombie child, or whether there are children. *)
Fixpoint wait_scan (cur : nat) (i : nat) (ps : list proc) (havekids : bool) : nat + bool :=
  match ps with
  | [] => inr havekids
  | p :: ps =>
      if negb (bool_decide (p_parent p = Some cur)) then wait_scan cur (S i) ps havekids
      else if bool_decide (p_state p = ZOMBIE) then inl i
      else wait_scan cur (S i) ps true
  end.

(** The body of [for(;;)]; a wake-up runs it again. *)
Definition wait_loop (me : nat) : K (kern F) Z :=
  o ← myproc me;
  cur ← deref o;
  ps ← gets procs;
  match wait_scan cur 0 ps false with
  | inl i =>
      p ← proc_at i;
      _ ← in_kmem (kfree kend (p_kstack p));
      _ ← upd_proc i (set_kstack 0);
      _ ← in_kmem (freevm kend (p_pgdir p));
      _ ← upd_proc i (set_pid 0);
      _ ← upd_proc i (set_parent None);
      _ ← upd_proc i (λ p, set_name (<[0%nat := 0]> (p_name p)) p);
      _ ← upd_proc i (set_killed 0);
      _ ← upd_proc i (set_state UNUSED);
      _ ← lock_release "ptable";
      mret (p_pid p)
  | inr havekids =>
      c ← proc_at cur;
      if negb havekids || negb (p_killed c =? 0) then
        _ ← lock_release "ptable"; mret (-1)
      else
        _ ← sleep me (proc_addr (Some cur)) (Some "ptable");
        undef "wait: resumed by wait_resume"
  end.

Definition wait (me : nat) : K (kern F) Z :=
  _ ← lock_acquire "ptable";
  wait_loop me.

(** The loop goes round after [sleep] returned. *)
Definition wait_resume (me : nat) : K (kern F) Z :=
  _ ← sleep_return me "ptable";
  wait_loop me.

Definition kill (pid : Z) : K (kern F) Z :=
  _ ← lock_acquire "ptable";
  ps ← gets procs;
  match list_find (λ p, p_pid p = pid) ps with
  | Some (i, p) =>
      _ ← upd_proc i (set_killed 1);
      _ ← when (bool_decide (p_state p = SLEEPING)) (upd_proc i (set_state RUNNABLE));
      _ ← lock_release "ptable";
      mret 0
  | None =>
      _ ← lock_release "ptable";
      mret (-1)
  end.

(** ** The scheduler *)

(** The body of the scheduler's scan at slot [i]: [true] when it switches to it. *)
Definition scheduler_body (me i : nat) : K (kern F) bool :=
  p ← proc_at i;
  if negb (bool_decide (p_state p = RUNNABLE)) then mret false
  else
    _ ← modify (λ s, set_cpuproc (<[me := Some i]> (cpuproc s)) s);
    _ ← switchuvm p;
    _ ← upd_proc i (set_state RUNNING);
    mret true.

(** Back from [swtch]: the CPU has no process any more. *)
Definition scheduler_back (me : nat) : K (kern F) unit :=
  modify (λ s, set_cpuproc (<[me := None]> (cpuproc s)) s).

Definition sys_pscnt : K (kern F) Z :=
  gets (λ s, Z.of_nat (length (filter (λ p, p_state p ≠ UNUSED) (procs s)))).

(** One line of [procdump]: pid, state, name and the saved pcs of a sleeper. *)
Definition state_name (st : procstate) : string :=
  match st with
  | UNUSED => "unused"
  | EMBRYO => "embryo"
  | SLEEPING => "sleep "
  | RUNNABLE => "runble"
  | RUNNING => "run   "
  | ZOMBIE => "zombie"
  end.
Definition procdump : K (kern F) (list (Z * string * list Z * list Z)) :=
  gets (λ s, (λ p,
    let m := km_mem (phys s) in
    (p_pid p, state_name (p_state p), cstring (p_name p),
     if bool_decide (p_state p = SLEEPING)
     then cstring (getcallerpcs m (ld32 m (p_context p + ctx_ebp) + 8))
     else [])) <$> filter (λ p, p_state p ≠ UNUSED) (procs s)).

(** ** Interleavings

    [proc_step] lets any CPU make the next move: an idle CPU's scheduler takes a
    runnable process, or the process of a CPU runs one of the operations; when the
    operation ends in [sched] the CPU goes back to its scheduler. *)
Inductive op :=
| OpFork | OpExit | OpWait | OpWaitResume | OpKill (pid : Z) | OpYield
| OpSleep (chan : Z) (lk : option string) | OpSleepReturn (lk : string)
| OpWakeup (chan : Z) | OpGrow (n : Z).

Definition run_op (me : nat) (o : op) : K (kern F) unit :=
  match o with
  | OpFork => _ ← fork me; mret tt
  | OpExit => exit me
  | OpWait => _ ← wait me; mret tt
  | OpWaitResume => _ ← wait_resume me; mret tt
  | OpKill pid => _ ← kill pid; mret tt
  | OpYield => yield me
  | OpSleep chan lk => sleep me chan lk
  | OpSleepReturn lk => sleep_return me lk
  | OpWakeup chan => wakeup chan
  | OpGrow n => _ ← growproc me n; mret tt
  end.

(** Only [wait] sleeps on the address of a slot of the table. *)
Definition op_ok (o : op) : Prop :=
  match o with OpSleep chan _ => ∀ i, chan ≠ proc_addr (Some i) | _ => True end.

(** [h]: the locks the thread holds at the call. *)
Inductive proc_step (s : kern F) : kern F → Prop :=
| step_dispatch c i h s' :
    cpuproc s !! c = Some None → scheduler_body c i (set_khold h s) = Ret true s' →
    proc_step s s'
| step_return c i o h s' :
    cpuproc s !! c = Some (Some i) → op_ok o →
    run_op c o (set_khold h s) = Ret tt s' → proc_step s s'
| step_switch c i o h s1 s' :
    cpuproc s !! c = Some (Some i) → op_ok o →
    run_op c o (set_khold h s) = Sleeps "sched" s1 →
    scheduler_back c s1 = Ret tt s' → proc_step s s'.

(** ** The invariant of the table *)

Definition live (st : procstate) : bool :=
  match st with SLEEPING | RUNNABLE | RUNNING => true | _ => false end.

(** [p] sleeps in [wait], as the process of slot [i]. *)
Definition waiting (i : nat) (p : proc) : Prop :=
  p_state p = SLEEPING ∧ p_chan p = proc_addr (Some i).

Record table_inv (ps : list proc) (np : Z) (ini : option nat) (cpus : list (option nat)) : Prop := {
  ti_len : length ps = NPROC;
  ti_pid : ∀ i p, ps !! i = Some p → p_state p ≠ UNUSED → 0 < p_pid p < np;
  ti_uniq : ∀ i j p q, ps !! i = Some p → ps !! j = Some q →
    p_state p ≠ UNUSED → p_state q ≠ UNUSED → p_pid p = p_pid q → i = j;
  ti_run : ∀ i p, ps !! i = Some p →
    (p_state p = RUNNING ↔ ∃ c, cpus !! c = Some (Some i));
  ti_cpu : ∀ c i, cpus !! c = Some (Some i) → is_Some (ps !! i);
  ti_one : ∀ c c' i, cpus !! c = Some (Some i) → cpus !! c' = Some (Some i) → c = c';
  ti_parent : ∀ i p j, ps !! i = Some p → p_parent p = Some j →
    j ≠ i ∧ ∃ q, ps !! j = Some q ∧ live (p_state q) = true;
  ti_unused : ∀ i p, ps !! i = Some p → p_state p = UNUSED → p_parent p = None;
  ti_init : ∃ k q, ini = Some k ∧ ps !! k = Some q ∧ live (p_state q) = true ∧
    p_parent q = None;
  ti_wait : ∀ i p j q, ps !! i = Some p → waiting i p →
    ps !! j = Some q → p_parent q = Some i → p_state q ≠ ZOMBIE
}.

Definition ptable_inv (s : kern F) : Prop :=
  table_inv (procs s) (nextpid s) (initproc s) (cpuproc s).

Lemma proc_addr_inj i j : proc_addr (Some i) = proc_addr (Some j) → i = j.
Proof. rw /proc_addr /sizeof_proc. lia. Qed.

(** One slot changes, with the current processes of the CPUs. *)
Lemma table_update ps np ini cpus i p p' np' cpus' :
  table_inv ps np ini cpus → ps !! i = Some p → np ≤ np' →
  (p_state p' ≠ UNUSED → 0 < p_pid p' < np' ∧
     ∀ j q, j ≠ i → ps !! j = Some q → p_state q ≠ UNUSED → p_pid q ≠ p_pid p') →
  (p_state p' = RUNNING ↔ ∃ c, cpus' !! c = Some (Some i)) →
  (∀ j, j ≠ i → (∃ c, cpus' !! c = Some (Some j)) ↔ (∃ c, cpus !! c = Some (Some j))) →
  (∀ c c' j, cpus' !! c = Some (Some j) → cpus' !! c' = Some (Some j) → c = c') →
  (∀ j, p_parent p' = Some j → p_parent p = Some j ∨
     ini ≠ Some i ∧ j ≠ i ∧ ∃ q, ps !! j = Some q ∧ live (p_state q) = true) →
  (p_state p' = UNUSED → p_parent p' = None) →
  (live (p_state p) = true → live (p_state p') = false →
     ini ≠ Some i ∧ ∀ j q, ps !! j = Some q → p_parent q ≠ Some i) →
  (waiting i p' → ∀ j q, j ≠ i → ps !! j = Some q → p_parent q = Some i → p_state q ≠ ZOMBIE) →
  (p_state p' = ZOMBIE → ∀ k q, p_parent p' = Some k → ps !! k = Some q → k ≠ i → ¬ waiting k q) →
  table_inv (<[i := p']> ps) np' ini cpus'.
Proof.
  intros [Hlen Hpid Huq Hrun Hcpu Hone Hpar Hun Hini Hwait] Hi Hnp Cpid Crun Ccpu Cone
    Cpar Cun Clive Cw Cz.
  pose proof (lookup_lt_Some _ _ _ Hi) as Hlt.
  assert (∀ j q, <[i:=p']> ps !! j = Some q → (j = i ∧ q = p') ∨ (j ≠ i ∧ ps !! j = Some q)) as Hl.
  { intros j q [(->&->&_)|[? ?]]%list_lookup_insert_Some; auto. }
  assert (∀ j q, ps !! j = Some q → live (p_state q) = true →
    (∃ k r, ps !! k = Some r ∧ p_parent r = Some j) ∨ ini = Some j →
    ∃ q', <[i:=p']> ps !! j = Some q' ∧ live (p_state q') = true) as Hlive.
  { intros j q Hj Hq Href. destruct (decide (j = i)) as [->|Hne].
    - exists p'. rw list_lookup_insert_eq //. split; [done|]. simplify_eq.
      destruct (live (p_state p')) eqn:E; [done|].
      destruct (Clive Hq eq_refl) as [Hni Hno].
      destruct Href as [(k&r&Hk&Hr)|?]; [by destruct (Hno k r Hk)|done].
    - exists q. rw list_lookup_insert_ne; [congruence|done]. }
  split.
  - by rw length_insert.
  - intros j q [(->&->)|[Hne Hj]]%Hl Hq; [by apply Cpid|].
    destruct (Hpid j q Hj Hq). lia.
  - intros j k q r [(->&->)|[Hj Hq]]%Hl [(->&->)|[Hk Hr]]%Hl Hsq Hsr E; try done.
    + destruct (Cpid Hsq) as [_ Hd]. by destruct (Hd k r Hk Hr Hsr).
    + destruct (Cpid Hsr) as [_ Hd]. by destruct (Hd j q Hj Hq Hsq).
    + eauto.
  - intros j q [(->&->)|[Hne Hj]]%Hl; [done|]. rw Ccpu //. eauto.
  - intros c j Hc. destruct (decide (j = i)) as [->|Hne].
    + by rw list_lookup_insert_eq.
    + rw list_lookup_insert_ne; [congruence|].
      destruct (Ccpu j Hne) as [Hfw _]. destruct Hfw as [c' Hc']; eauto.
  - done.
  - intros j q k [(->&->)|[Hne Hj]]%Hl Hk.
    + destruct (Cpar k Hk) as [Hk'|(_&Hne&q&Hq&Hlv)].
      * destruct (Hpar i p k Hi Hk') as (?&q&Hq&Hlv). split; [done|]. eapply Hlive; eauto.
      * split; [done|]. exists q. rw list_lookup_insert_ne; [congruence|done].
    + destruct (Hpar j q k Hj Hk) as (?&r&Hr&Hlv). split; [done|]. eapply Hlive; eauto.
  - intros j q [(->&->)|[Hne Hj]]%Hl; [done|]. eauto.
  - destruct Hini as (k&q&->&Hk&Hlv&Hnp0). exists k.
    destruct (Hlive k q Hk Hlv) as (q'&Hq'&?); [by right|]. exists q'. split_and!; try done.
    apply Hl in Hq' as [(->&->)|[? ?]]; [|congruence].
    destruct (p_parent p') as [j|] eqn:E; [|done].
    destruct (Cpar j eq_refl) as [?|[? _]]; congruence.
  - intros j q k r [(->&->)|[Hne Hj]]%Hl Hw [(->&->)|[Hne' Hk]]%Hl Hr Hz.
    + destruct Hw as [Hw _]. congruence.
    + by eapply (Cw Hw k r).
    + by apply (Cz Hz j q Hr Hj).
    + by eapply (Hwait j q k r).
Qed.

(** A change that proc.c's invariant does not see. *)
Definition same_core (p p' : proc) : Prop :=
  p_state p' = p_state p ∧ p_pid p' = p_pid p ∧ p_parent p' = p_parent p ∧
  (p_state p = SLEEPING → p_chan p' = p_chan p).

Lemma table_same ps np ini cpus i p p' :
  table_inv ps np ini cpus → ps !! i = Some p → same_core p p' →
  table_inv (<[i := p']> ps) np ini cpus.
Proof.
  intros Hinv Hi (Est&Epid&Epar&Ech). pose proof Hinv as [Hlen Hpid Huq Hrun Hcpu Hone Hpar Hun Hini Hwait].
  eapply table_update; try done; rw ?Est ?Epid ?Epar; eauto; try lia.
  - intros Hst. split; [eauto|]. intros j q Hne Hj Hq E. apply Hne. by apply (Huq j i q p).
  - congruence.
  - intros [Hw1 Hw2] j q _ Hj. rw Est in Hw1. rw Ech // in Hw2. by apply (Hwait i p j q).
  - intros Hz k q Hk Hq _ Hw. by apply (Hwait k q i p).
Qed.

(** Waking a sleeper keeps the invariant; [wakeup1] wakes every one of a channel. *)
Lemma table_wake ps np ini cpus i p :
  table_inv ps np ini cpus → ps !! i = Some p → p_state p = SLEEPING →
  table_inv (<[i := set_state RUNNABLE p]> ps) np ini cpus.
Proof.
  intros Hinv Hi Hst. pose proof Hinv as [Hlen Hpid Huq Hrun Hcpu Hone Hpar Hun Hini Hwait].
  eapply table_update; try done; simpl; eauto; try lia.
  - intros _. split; [apply (Hpid i p); congruence|].
    intros j q Hne Hj Hq E. apply Hne. apply (Huq j i q p); congruence.
  - split; [done|]. intros Hc. apply (Hrun i p Hi) in Hc. congruence.
  - by intros [? _].
Qed.

Lemma woken_sleeping chan p :
  p_state (woken chan p) = SLEEPING → p_state p = SLEEPING ∧ p_chan p ≠ chan ∧ woken chan p = p.
Proof.
  rw /woken. destruct (bool_decide_reflect (p_state p = SLEEPING)); simpl; [|done].
  by destruct (Z.eqb_spec (p_chan p) chan).
Qed.

Lemma woken_fields chan p :
  p_pid (woken chan p) = p_pid p ∧ p_parent (woken chan p) = p_parent p ∧
  p_chan (woken chan p) = p_chan p ∧
  (p_state p ≠ SLEEPING → woken chan p = p) ∧
  live (p_state (woken chan p)) = live (p_state p) ∧
  (p_state (woken chan p) = RUNNING ↔ p_state p = RUNNING) ∧
  (p_state (woken chan p) = UNUSED ↔ p_state p = UNUSED) ∧
  (p_state (woken chan p) = ZOMBIE ↔ p_state p = ZOMBIE).
Proof.
  rw /woken. destruct (bool_decide_reflect (p_state p = SLEEPING)) as [E|E]; simpl; [|done].
  destruct (p_chan p =? chan); simpl; [rw E|]; done.
Qed.

Lemma table_wakeup ps np ini cpus chan :
  table_inv ps np ini cpus → table_inv (woken chan <$> ps) np ini cpus.
Proof.
  intros [Hlen Hpid Huq Hrun Hcpu Hone Hpar Hun Hini Hwait].
  assert (∀ i p', (woken chan <$> ps) !! i = Some p' →
    ∃ p, ps !! i = Some p ∧ p' = woken chan p) as Hl.
  { intros i p'. rw list_lookup_fmap. destruct (ps !! i); naive_solver. }
  split.
  - by rw length_fmap.
  - intros i p' (p&Hi&->)%Hl. destruct (woken_fields chan p) as (->&_&_&_&_&_&->&_). eauto.
  - intros i j p' q' (p&Hi&->)%Hl (q&Hj&->)%Hl.
    destruct (woken_fields chan p) as (->&_&_&_&_&_&->&_).
    destruct (woken_fields chan q) as (->&_&_&_&_&_&->&_). eauto.
  - intros i p' (p&Hi&->)%Hl. destruct (woken_fields chan p) as (_&_&_&_&_&->&_&_). eauto.
  - intros c i Hc. rw list_lookup_fmap. apply fmap_is_Some. eauto.
  - done.
  - intros i p' j (p&Hi&->)%Hl. destruct (woken_fields chan p) as (_&->&_). intros Hj.
    destruct (Hpar i p j Hi Hj) as (?&q&Hq&Hlv). split; [done|]. exists (woken chan q).
    rw list_lookup_fmap Hq. split; [done|].
    by destruct (woken_fields chan q) as (_&_&_&_&->&_).
  - intros i p' (p&Hi&->)%Hl. destruct (woken_fields chan p) as (_&->&_&_&_&_&->&_). eauto.
  - destruct Hini as (k&q&->&Hk&Hlv&?). exists k, (woken chan q).
    rw list_lookup_fmap Hk. destruct (woken_fields chan q) as (_&->&_&_&->&_). done.
  - intros i p' j q' (p&Hi&->)%Hl [Hw1 Hw2] (q&Hj&->)%Hl.
    apply woken_sleeping in Hw1 as (Hs&_&E). rw E in Hw2.
    destruct (woken_fields chan q) as (_&->&_&_&_&_&_&->). by apply (Hwait i p j q).
Qed.

(** ** Running the code on the table *)

Notation RUN := (runs "sched").

Lemma run_in_kmem {A} (m : K kmem_state A) s Q R :
  (∀ a k h, Q a (set_khold h (set_phys k s))) → RUN (in_kmem m) s Q R.
Proof.
  intros HQ. rw /runs /in_kmem /blocked_in /zoom.
  by destruct (m _) as [a k|?|w k|?].
Qed.
Lemma run_in_fs {A} (m : K F A) s Q R :
  (∀ a f, Q a (set_kfs f s)) → RUN (in_fs m) s Q R.
Proof.
  intros HQ. rw /runs /in_fs /blocked_in /zoom.
  by destruct (m _) as [a k|?|w k|?].
Qed.
Lemma run_acquire l s Q R : (∀ h, Q tt (set_khold h s)) → RUN (lock_acquire l) s Q R.
Proof.
  intros HQ. rw /runs /lock_acquire /get /put /mbind /K_bind. case_bool_decide; [done|apply HQ].
Qed.
Lemma run_release l s Q R : (∀ h, Q tt (set_khold h s)) → RUN (lock_release l) s Q R.
Proof.
  intros HQ. rw /runs /lock_release /get /put /mbind /K_bind. case_bool_decide; [apply HQ|done].
Qed.
Lemma run_proc_at i s Q R : (∀ p, procs s !! i = Some p → Q p s) → RUN (proc_at i) s Q R.
Proof. rw /runs /proc_at. destruct (procs s !! i); auto. Qed.
Lemma run_deref {A} (o : option A) (s : kern F) Q R : (∀ a, o = Some a → Q a s) → RUN (deref o) s Q R.
Proof. rw /deref. destruct o; [|done]. intros HQ. apply runs_ret. auto. Qed.
Lemma run_upd i f s (Q : unit → kern F → Prop) R :
  Q tt (set_procs (alter f i (procs s)) s) → RUN (upd_proc i f) s Q R.
Proof. done. Qed.
Lemma run_switchuvm p (s : kern F) (Q : unit → kern F → Prop) R : Q tt s → RUN (switchuvm p) s Q R.
Proof.
  intros HQ. rw /switchuvm. destruct (p_kstack p =? 0); [by apply runs_panic|].
  destruct (p_pgdir p =? 0); [by apply runs_panic|by apply runs_ret].
Qed.
Lemma run_sched me s Q R : R s → RUN (sched me) s Q R.
Proof.
  intros HR. rw /sched. apply runs_bind, runs_gets, runs_bind, runs_gets.
  case_bool_decide; simpl; [|done]. destruct (length (khold s) =? 1)%nat; simpl; [|done].
  apply runs_bind, run_deref. intros i _. apply runs_bind, run_proc_at. intros p _.
  case_bool_decide; [done|]. by apply runs_sleeps.
Qed.

Ltac run_step :=
  lazymatch goal with
  | |- runs _ (mbind _ _) _ _ _ => apply runs_bind
  | |- runs _ (mret _) _ _ _ => apply runs_ret
  | |- runs _ (gets _) _ _ _ => apply runs_gets
  | |- runs _ (modify _) _ _ _ => apply runs_modify
  | |- runs _ (in_kmem _) _ _ _ => apply run_in_kmem; intros ? ? ?
  | |- runs _ (in_fs _) _ _ _ => apply run_in_fs; intros ? ?
  | |- runs _ (lock_acquire _) _ _ _ => apply run_acquire; intros ?
  | |- runs _ (lock_release _) _ _ _ => apply run_release; intros ?
  | |- runs _ (upd_proc _ _) _ _ _ => apply run_upd
  | |- runs _ (panic _) _ _ _ => apply runs_panic
  | |- runs _ (undef _) _ _ _ => apply runs_undef
  | |- runs _ (myproc _) _ _ _ => apply runs_gets
  end; cbv beta.
Ltac run_steps := repeat run_step.

(** Slot [i] of [s] became [p]; the CPUs and the first process are the same. *)
Definition slot_became (s : kern F) (i : nat) (p : proc) (s' : kern F) : Prop :=
  procs s' = <[i := p]> (procs s) ∧ initproc s' = initproc s ∧ cpuproc s' = cpuproc s.

(** [allocproc] takes the first unused slot, or leaves it unused when there is no
    memory for the kernel stack. *)
Definition allocated (s : kern F) (r : option nat) (s' : kern F) : Prop :=
  (r = None ∧ procs s' = procs s ∧ initproc s' = initproc s ∧ cpuproc s' = cpuproc s ∧
     nextpid s' = nextpid s) ∨
  ∃ i p0 p, procs s !! i = Some p0 ∧ p_state p0 = UNUSED ∧ slot_became s i p s' ∧
    nextpid s' = s32 (nextpid s + 1) ∧ p_pid p = nextpid s ∧ p_parent p = p_parent p0 ∧
    p_killed p = p_killed p0 ∧
    (r = None ∧ p_state p = UNUSED ∨ r = Some i ∧ p_state p = EMBRYO).

Lemma allocproc_runs s R : RUN allocproc s (allocated s) R.
Proof.
  rw /allocproc. run_steps.
  destruct (list_find _ _) as [[i p0]|] eqn:Ef; run_steps; [|by left].
  apply list_find_Some in Ef as (Hi&Hst&_). simpl in Hi.
  destruct (a =? 0); run_steps; right; exists i, p0; simpl;
    (eexists; split; [done|]; split; [done|]; split;
     [split_and!; [simpl; rw (alter_slot _ i (procs s) p0) //;
        rw !alter_again; [by apply lookup_lt_Some in Hi..|reflexivity]|done|done]|]);
    split_and!; try done; [left|right]; done.
Qed.

Lemma became_upd s i p0 p f s' :
  procs s !! i = Some p0 → slot_became s i p s' →
  slot_became s i (f p) (set_procs (alter f i (procs s')) s').
Proof.
  intros Hi (E1&E2&E3). split_and!; try done. simpl. rw E1.
  apply alter_again. by apply lookup_lt_Some in Hi.
Qed.

Lemma became_lookup s i p0 p s' :
  procs s !! i = Some p0 → slot_became s i p s' → procs s' !! i = Some p.
Proof. intros Hi (->&_). apply list_lookup_insert_eq. by apply lookup_lt_Some in Hi. Qed.

(** The child while [fork] fills it in. *)
Definition child_of (s : kern F) (cur i : nat) (p0 : proc) (s' : kern F) : Prop :=
  ∃ p, slot_became s i p s' ∧ nextpid s' = s32 (nextpid s + 1) ∧ p_state p = EMBRYO ∧
    p_pid p = nextpid s ∧ p_parent p = Some cur ∧ p_killed p = p_killed p0.

Lemma child_of_upd s cur i p0 f s' :
  procs s !! i = Some p0 →
  (∀ p, p_state (f p) = p_state p ∧ p_pid (f p) = p_pid p ∧ p_parent (f p) = p_parent p ∧
        p_killed (f p) = p_killed p) →
  child_of s cur i p0 s' → child_of s cur i p0 (set_procs (alter f i (procs s')) s').
Proof.
  intros Hi Hf (p&Hb&Hn&Hst&Hpid&Hpar&Hk). exists (f p).
  destruct (Hf p) as (E1&E2&E3&E4). rw E1 E2 E3 E4.
  split; [by apply (became_upd s i p0)|]. done.
Qed.

(** What [fork] does to the table. *)
Definition forked (s : kern F) (cur : nat) (r : Z) (s' : kern F) : Prop :=
  (r = -1 ∧ procs s' = procs s ∧ initproc s' = initproc s ∧ cpuproc s' = cpuproc s ∧
     nextpid s' = nextpid s) ∨
  ∃ i p0 p, procs s !! i = Some p0 ∧ p_state p0 = UNUSED ∧ slot_became s i p s' ∧
    nextpid s' = s32 (nextpid s + 1) ∧ p_pid p = nextpid s ∧ p_killed p = p_killed p0 ∧
    (r = -1 ∧ p_state p = UNUSED ∧ p_parent p = p_parent p0 ∨
     r = p_pid p ∧ p_state p = RUNNABLE ∧ p_parent p = Some cur).

Lemma fork_runs me s R :
  RUN (fork me) s (λ r s', ∃ cur, cpuproc s !! me = Some (Some cur) ∧ forked s cur r s') R.
Proof.
  rw /fork. run_steps. apply run_deref. intros cur Hcur. run_steps.
  assert (cpuproc s !! me = Some (Some cur)) as Hme.
  { destruct (cpuproc s !! me); simplify_eq/=; done. }
  eapply runs_mono; [apply allocproc_runs|].
  intros np s1 [(->&E1&E2&E3&E4)|(i&p0&p&Hi&Hun&Hb&Hn&Hpid&Hpar&Hk&Hr)].
  { run_steps. exists cur. split; [done|]. by left. }
  destruct Hr as [(->&Hst)|(->&Hst)].
  { run_steps. exists cur. split; [done|]. right. exists i, p0, p. split_and!; try done. by left. }
  run_steps. apply run_proc_at. intros c Hc. run_steps. destruct (a =? 0).
  - run_steps. apply run_proc_at. intros p' Hp'. run_steps. exists cur. split; [done|]. right.
    exists i, p0, (set_state UNUSED (set_kstack 0 (set_pgdir a p))).
    split_and!; try done; [|by left].
    do 2 (eapply became_upd; [exact Hi|]). apply (became_upd s i p0 p (set_pgdir a)); done.
  - run_steps. apply run_proc_at. intros p' _. run_steps.
    apply (runs_for_each _ _ _ (λ _ s', child_of s cur i p0 s')).
    + exists (set_parent (Some cur) (set_sz (p_sz c) (set_pgdir a p))).
      split_and!; try done.
      do 2 (eapply became_upd; [exact Hi|]). apply (became_upd s i p0 p (set_pgdir a)); done.
    + intros pre fd post s2 _ Hch. destruct (p_ofile c !! fd) as [[f|]|]; run_steps; try done.
      apply child_of_upd; [done..|]. exact Hch.
    + intros s2 Hch. run_steps. apply run_deref. intros d _. run_steps.
      apply run_proc_at. intros p2 Hp2. run_steps. exists cur. split; [done|]. right.
      match type of Hp2 with procs ?st !! _ = _ => assert (child_of s cur i p0 st) as Hch2 end.
      { do 2 (apply child_of_upd; [done..|]). exact Hch. }
      destruct Hch2 as (p3&Hb3&Hn3&Hst3&Hpid3&Hpar3&Hk3).
      rw (became_lookup s i p0 p3) // in Hp2. injection Hp2 as ->.
      exists i, p0, (set_state RUNNABLE p2). split_and!; try done; [|by right].
      by apply (became_upd s i p0 p2 (set_state RUNNABLE)).
Qed.

(** ** Every operation keeps the invariant *)

(** The next pid does not overflow. *)
Definition pid_room (s : kern F) : Prop := 0 < nextpid s < 2 ^ 31 - 1.

(** The CPU [me] gives up its process. *)
Definition left_cpu (me : nat) (s : kern F) : kern F :=
  set_cpuproc (<[me := None]> (cpuproc s)) s.

Lemma lookup_left (me c : nat) (cpus : list (option nat)) i :
  <[me := None]> cpus !! c = Some (Some i) ↔ c ≠ me ∧ cpus !! c = Some (Some i).
Proof.
  rw list_lookup_insert_Some. split.
  - intros [(_&?&_)|[? ?]]; [done|]. split; [congruence|done].
  - intros [? ?]. right. split; [congruence|done].
Qed.

(** The running process of [me] becomes [p'] and leaves the CPU. *)
Lemma table_leave ps np ini cpus me i p p' :
  table_inv ps np ini cpus → cpus !! me = Some (Some i) → ps !! i = Some p →
  p_pid p' = p_pid p → p_parent p' = p_parent p → p_state p' ≠ RUNNING → p_state p' ≠ UNUSED →
  (live (p_state p') = false →
     ini ≠ Some i ∧ ∀ j q, ps !! j = Some q → p_parent q ≠ Some i) →
  (waiting i p' → ∀ j q, j ≠ i → ps !! j = Some q → p_parent q = Some i → p_state q ≠ ZOMBIE) →
  (p_state p' = ZOMBIE → ∀ k q, p_parent p' = Some k → ps !! k = Some q → k ≠ i → ¬ waiting k q) →
  table_inv (<[i := p']> ps) np ini (<[me := None]> cpus).
Proof.
  intros Hinv Hme Hi Epid Epar Hnr Hnu Hlive Hw Hz.
  pose proof Hinv as [Hlen Hpid Huq Hrun Hcpu Hone Hpar Hun Hini Hwait].
  assert (p_state p = RUNNING) as Hr by (apply (Hrun i p Hi); eauto).
  eapply (table_update ps np ini cpus i p); try done; rw ?Epid ?Epar; eauto; try lia.
  - intros _. split; [apply (Hpid i p); congruence|].
    intros j q Hne Hj Hq E. apply Hne. apply (Huq j i q p); congruence.
  - split; [done|]. intros [c [Hc Hc']%lookup_left]. destruct Hc. eauto.
  - intros j Hne. split; intros [c Hc].
    + apply lookup_left in Hc as [_ ?]. eauto.
    + exists c. apply lookup_left. split; [|done]. intros ->. congruence.
  - intros c c' j [_ ?]%lookup_left [_ ?]%lookup_left. eauto.
Qed.

Lemma current_running s me i :
  ptable_inv s → cpuproc s !! me = Some (Some i) →
  ∃ p, procs s !! i = Some p ∧ p_state p = RUNNING.
Proof.
  intros Hinv Hme. destruct (ti_cpu _ _ _ _ Hinv me i Hme) as [p Hp]. exists p.
  split; [done|]. apply (ti_run _ _ _ _ Hinv i p Hp). eauto.
Qed.

Lemma dispatch_inv s me i h R :
  ptable_inv s → cpuproc s !! me = Some None →
  RUN (scheduler_body me i) (set_khold h s) (λ b s', ptable_inv s') R.
Proof.
  intros Hinv Hme. rw /scheduler_body. run_steps. apply run_proc_at. intros p Hp.
  case_bool_decide as Hst; simpl; run_steps; [|done]. apply run_switchuvm. run_steps.
  rw /ptable_inv /=. simpl in Hp. rw (alter_slot _ _ _ p) //.
  pose proof Hinv as [Hlen Hpid Huq Hrun Hcpu Hone Hpar Hun Hini Hwait].
  assert (∀ c, cpuproc s !! c ≠ Some (Some i)) as Hnone.
  { intros c Hc. assert (p_state p = RUNNING); [|congruence]. apply (Hrun i p Hp). eauto. }
  pose proof (lookup_lt_Some _ _ _ Hme) as Hlt.
  assert (∀ c j, <[me := Some i]> (cpuproc s) !! c = Some (Some j) ↔
            c = me ∧ j = i ∨ cpuproc s !! c = Some (Some j)) as Hl.
  { intros c j. rw list_lookup_insert_Some. split.
    - intros [(->&?&_)|[? ?]]; [left; split; congruence|by right].
    - intros [[-> ->]|Hc]; [by left|]. right. split; [|done]. intros ->. congruence. }
  eapply (table_update (procs s) _ _ (cpuproc s) i p); try done; simpl; eauto; try lia.
  - intros _. split; [apply (Hpid i p); congruence|].
    intros j q Hne Hj Hq E. apply Hne. apply (Huq j i q p); congruence.
  - split; [|done]. intros _. exists me. apply Hl. by left.
  - intros j Hne. split; intros [c Hc]; exists c.
    + apply Hl in Hc as [[_ ?]|?]; [congruence|done].
    + apply Hl. by right.
  - intros c c' j [[-> ->]|Hc]%Hl [[-> Hj]|Hc']%Hl; try done.
    + by destruct (Hnone c').
    + subst. by destruct (Hnone c).
    + eauto.
  - by intros [? _].
Qed.

Lemma fork_inv s me h i R :
  ptable_inv s → pid_room s → cpuproc s !! me = Some (Some i) →
  RUN (fork me) (set_khold h s) (λ _ s', ptable_inv s') R.
Proof.
  intros Hinv Hroom Hme. eapply runs_mono; [apply fork_runs|].
  intros r s' (cur&Hcur&Hf). simpl in Hcur.
  assert (cur = i) as -> by congruence.
  destruct (current_running s me i Hinv Hme) as (pc&Hpc&Hrunning).
  pose proof Hinv as [Hlen Hpid Huq Hrun Hcpu Hone Hpar Hun Hini Hwait].
  destruct Hf as [(_&E1&E2&E3&E4)|(k&p0&p&Hk&Hun0&(E1&E2&E3)&Hn&Hp&_&Hr)].
  { rw /ptable_inv E1 E2 E3 E4. exact Hinv. }
  simpl in *. rw /ptable_inv E1 E2 E3 Hn.
  rw s32_small; [rw /pid_room in Hroom; lia|].
  assert (¬ ∃ c, cpuproc s !! c = Some (Some k)) as Hidle.
  { intros Hc. apply (Hrun k p0 Hk) in Hc. congruence. }
  eapply (table_update (procs s) _ _ (cpuproc s) k p0); try done; eauto; try lia.
  - intros _. rw Hp. split; [rw /pid_room in Hroom; lia|]. intros j q _ Hj Hq E.
    destruct (Hpid j q Hj Hq). lia.
  - split; [|by intros]. intros Hst. destruct Hr as [(_&?&_)|(_&?&_)]; congruence.
  - intros j Hj. destruct Hr as [(_&_&E)|(_&_&E)]; [left; congruence|right].
    rw E in Hj. injection Hj as <-. split_and!; [|congruence|exists pc; by rw Hrunning].
    destruct Hini as (k'&q&->&Hk'&Hlv&_). intros [= ->]. simplify_eq. by rw Hun0 in Hlv.
  - intros Hst. destruct Hr as [(_&_&E)|(_&?&_)]; [|congruence]. rw E. eauto.
  - rw Hun0. done.
  - intros [Hst _]. destruct Hr as [(_&?&_)|(_&?&_)]; congruence.
  - intros Hst. destruct Hr as [(_&?&_)|(_&?&_)]; congruence.
Qed.

(** The current process of [me], as the code reads it. *)
Ltac run_current Hme :=
  run_steps; apply run_deref; intros ?cur Hcur;
  match type of Hcur with
  | default None (cpuproc ?st !! ?me) = Some ?c =>
      change (cpuproc st) with (cpuproc st) in Hcur; cbn in Hcur; rewrite Hme in Hcur;
      injection Hcur as <-
  end; run_steps.

Lemma yield_inv s me h i :
  ptable_inv s → cpuproc s !! me = Some (Some i) →
  RUN (yield me) (set_khold h s) (λ _ s', ptable_inv s') (λ s', ptable_inv (left_cpu me s')).
Proof.
  intros Hinv Hme. destruct (current_running s me i Hinv Hme) as (p&Hp&Hst).
  rw /yield. run_current Hme. apply run_sched. rw /ptable_inv /left_cpu /=.
  rw (alter_slot _ _ _ p) //. apply (table_leave (procs s) _ _ _ me i p); try done. by intros [? _].
Qed.

Lemma sleep_return_inv s me h i lk R :
  ptable_inv s → cpuproc s !! me = Some (Some i) →
  RUN (sleep_return me lk) (set_khold h s)
    (λ _ s', ptable_inv s' ∧ cpuproc s' = cpuproc s) R.
Proof.
  intros Hinv Hme. destruct (current_running s me i Hinv Hme) as (p&Hp&Hst).
  rw /sleep_return. run_current Hme.
  assert (table_inv (alter (set_chan 0) i (procs s)) (nextpid s) (initproc s) (cpuproc s)) as H.
  { rw (alter_slot _ _ _ p) //. apply (table_same _ _ _ _ i p); try done. split_and!; try done. congruence. }
  rw /when. case_bool_decide; simpl; run_steps; done.
Qed.

Lemma sleep_inv s me h i chan lk :
  ptable_inv s → cpuproc s !! me = Some (Some i) →
  (chan = proc_addr (Some i) → ∀ j q, procs s !! j = Some q → p_parent q = Some i →
     p_state q ≠ ZOMBIE) →
  RUN (sleep me chan lk) (set_khold h s) (λ _ s', False) (λ s', ptable_inv (left_cpu me s')).
Proof.
  intros Hinv Hme Hnz. destruct (current_running s me i Hinv Hme) as (p&Hp&Hst).
  rw /sleep. run_steps. cbn. rw Hme /=. destruct lk as [lk|]; [|done].
  assert (table_inv (alter (set_state SLEEPING) i (alter (set_chan chan) i (procs s)))
    (nextpid s) (initproc s) (<[me := None]> (cpuproc s))) as Hgo.
  { rw (alter_slot _ i (procs s) p) // alter_again; [by apply lookup_lt_Some in Hp|].
    apply (table_leave (procs s) _ _ _ me i p); try done. intros [_ Hc] j q _. by apply Hnz. }
  run_steps. rw /when. case_bool_decide; simpl; run_steps; apply run_sched; exact Hgo.
Qed.

Lemma wakeup_inv s h chan R :
  ptable_inv s → RUN (wakeup chan) (set_khold h s) (λ _ s', ptable_inv s') R.
Proof.
  intros Hinv. rw /wakeup /wakeup1. run_steps. rw /ptable_inv /=. by apply table_wakeup.
Qed.

Lemma kill_inv s h pid R :
  ptable_inv s → RUN (kill pid) (set_khold h s) (λ _ s', ptable_inv s') R.
Proof.
  intros Hinv. rw /kill. run_steps. simpl.
  destruct (list_find _ (procs s)) as [[i p]|] eqn:Ef; run_steps; [|done].
  apply list_find_Some in Ef as (Hi&_&_).
  assert (table_inv (<[i := set_killed 1 p]> (procs s)) (nextpid s) (initproc s) (cpuproc s)) as H1.
  { by apply (table_same _ _ _ _ i p). }
  rw /when. case_bool_decide; run_steps; rw /ptable_inv /=; rw (alter_slot _ i (procs s) p) //.
  rw (alter_slot _ i _ (set_killed 1 p)).
  { apply list_lookup_insert_eq. by apply lookup_lt_Some in Hi. }
  eapply table_wake; [done| |done]. apply list_lookup_insert_eq. by apply lookup_lt_Some in Hi.
Qed.

Lemma growproc_inv s me h i n R :
  ptable_inv s → cpuproc s !! me = Some (Some i) →
  RUN (growproc me n) (set_khold h s) (λ _ s', ptable_inv s') R.
Proof.
  intros Hinv Hme. destruct (current_running s me i Hinv Hme) as (p&Hp&Hst).
  rw /growproc. run_current Hme. apply run_proc_at. intros p' Hp'. simpl in Hp'. simplify_eq.
  assert (∀ sz, table_inv (alter (set_sz sz) i (procs s)) (nextpid s) (initproc s) (cpuproc s)) as Hgo.
  { intros sz. rw (alter_slot _ i (procs s) p) //. by apply (table_same _ _ _ _ i p). }
  destruct (0 <? n); [|destruct (n <? 0)]; run_steps;
    try match goal with |- context [if ?b then None else _] => destruct b end;
    run_steps; try done; apply run_proc_at; intros q _; run_steps; apply run_switchuvm; run_steps; apply Hgo.
Qed.

(** ** exit *)

Lemma woken_alter chan f (j : nat) (ps : list proc) :
  (∀ p, woken chan (f p) = f (woken chan p)) →
  woken chan <$> alter f j ps = alter f j (woken chan <$> ps).
Proof.
  intros Hf. apply list_eq. intros k. rw list_lookup_fmap.
  destruct (decide (j = k)) as [<-|Hne].
  - rw !list_lookup_alter_eq list_lookup_fmap. destruct (ps !! j); simpl; [by rw Hf|done].
  - by rw !list_lookup_alter_ne // list_lookup_fmap.
Qed.

(** The table once a child [q] of the exiting process went to [init]. *)
Definition adopted (ini : option nat) (j : nat) (q : proc) (ps : list proc) : list proc :=
  if bool_decide (p_state q = ZOMBIE)
  then woken (proc_addr ini) <$> alter (set_parent ini) j ps
  else alter (set_parent ini) j ps.

Lemma woken_not_waiting k q : ¬ waiting k (woken (proc_addr (Some k)) q).
Proof.
  intros [Hs Hc]. apply woken_sleeping in Hs as (_&Hne&E). by rw E in Hc.
Qed.

Lemma table_adopt ps np k cpus cur j q :
  table_inv ps np (Some k) cpus → k ≠ cur → ps !! j = Some q → p_parent q = Some cur →
  table_inv (adopted (Some k) j q ps) np (Some k) cpus.
Proof.
  intros Hinv Hk Hj Hpq.
  assert (∀ ps' q', table_inv ps' np (Some k) cpus → ps' !! j = Some q' →
    p_parent q' = Some cur → p_state q' = p_state q →
    (p_state q = ZOMBIE → ∀ r, ps' !! k = Some r → ¬ waiting k r) →
    table_inv (<[j := set_parent (Some k) q']> ps') np (Some k) cpus) as Hgo.
  { intros ps' q' Hinv' Hj' Hpq' Est Hnw.
    pose proof Hinv' as [Hlen Hpid Huq Hrun Hcpu Hone Hpar Hun Hini Hwait].
    destruct Hini as (k'&r&[= <-]&Hr&Hlv&Hnone).
    assert (k ≠ j) as Hkj by (intros ->; congruence).
    apply (table_update ps' np (Some k) cpus j q'); simpl; try done; eauto; try lia.
    - intros Hst. split; [eauto|]. intros i p Hne Hi Hp E. apply Hne.
      by apply (Huq i j p q').
    - intros i [= <-]. right. split_and!; [congruence|done|eauto].
    - intros Hst. rw (Hun j q') // in Hpq'.
    - intros Hl Hl'. congruence.
    - intros Hz k' r' [= <-] Hr' _. apply Hnw; [congruence|done]. }
  rw /adopted. case_bool_decide as Hz.
  - rw woken_alter; [intros p; rw /woken /=; by case_match|].
    assert (woken (proc_addr (Some k)) q = q) as Eq
      by (apply (woken_fields (proc_addr (Some k)) q); congruence).
    assert ((woken (proc_addr (Some k)) <$> ps) !! j = Some q) as Hj'.
    { rw list_lookup_fmap Hj. by apply (f_equal Some). }
    rw (alter_slot _ j _ q) //. apply Hgo; try done; [by apply table_wakeup|].
    intros _ r. rw list_lookup_fmap. destruct (ps !! k); [|done].
    intros [= <-]. apply woken_not_waiting.
  - rw (alter_slot _ j _ q) //. by apply Hgo.
Qed.

Lemma adopted_lookup ini j q ps i r :
  ps !! j = Some q → adopted ini j q ps !! i = Some r →
  ∃ p, ps !! i = Some p ∧ p_parent r = (if decide (i = j) then ini else p_parent p) ∧
    p_pid r = p_pid p ∧ (p_state p ≠ SLEEPING → p_state r = p_state p) ∧
    (p_state r = SLEEPING → p_state p = SLEEPING) ∧ p_chan r = p_chan p.
Proof.
  intros Hj. rw /adopted.
  assert (∀ p, alter (set_parent ini) j ps !! i = Some p → ∃ p', ps !! i = Some p' ∧
    p = if decide (i = j) then set_parent ini p' else p') as Ha.
  { intros p. destruct (decide (i = j)) as [->|Hne].
    - rw list_lookup_alter_eq Hj /=. intros [= <-]. eauto.
    - rw list_lookup_alter_ne; [congruence|]. eauto. }
  case_bool_decide.
  - rw list_lookup_fmap. destruct (alter _ _ _ !! i) as [p1|] eqn:E1; [|done].
    intros [= <-]. destruct (Ha p1 eq_refl) as (p'&Hp'&->). exists p'. split; [done|].
    match goal with |- context [woken ?c ?x] => destruct (woken_fields c x) as (->&->&->&Hs&_);
      pose proof (woken_sleeping c x) as Hs2; set w := woken c x in Hs Hs2 |- * end.
    split_and!; try by case_decide.
    + intros Hne. rw Hs; by case_decide.
    + intros Hst. destruct (Hs2 Hst) as (?&_&_). by case_decide.
  - intros Hr. destruct (Ha r Hr) as (p'&Hp'&->). exists p'. split; [done|].
    by case_decide.
Qed.

(** The exiting process [cur] while it gives back its files: only its own slot
    changes, in fields the table invariant does not see. *)
Definition closing (s : kern F) (cur : nat) (s' : kern F) : Prop :=
  ptable_inv s' ∧ cpuproc s' = cpuproc s ∧ initproc s' = initproc s.

(** ... and while it hands its children over, [n] slots visited. *)
Definition handing (s : kern F) (cur n : nat) (s' : kern F) : Prop :=
  closing s cur s' ∧
  (∀ j q, (j < n)%nat → procs s' !! j = Some q → p_parent q ≠ Some cur) ∧
  (∀ k p q, procs s' !! cur = Some p → p_parent p = Some k → procs s' !! k = Some q →
     ¬ waiting k q).

Lemma closing_upd s cur me f s' :
  closing s cur s' → cpuproc s !! me = Some (Some cur) →
  (∀ p, p_state p = RUNNING → same_core p (f p)) →
  closing s cur (set_procs (alter f cur (procs s')) s').
Proof.
  intros (Hinv&E1&E2) Hme Hf. split_and!; try done.
  rw -E1 in Hme. destruct (current_running s' me cur Hinv Hme) as (p&Hp&Hst).
  rw /ptable_inv /= (alter_slot _ _ _ p) //. apply (table_same _ _ _ _ cur p); auto.
Qed.

Lemma exit_reparent_step s cur me j ini s' R :
  cpuproc s !! me = Some (Some cur) → initproc s = ini → Some cur ≠ ini →
  (j < NPROC)%nat → handing s cur j s' →
  RUN (q ← proc_at j;
       if bool_decide (p_parent q = Some cur) then
         _ ← upd_proc j (set_parent ini);
         when (bool_decide (p_state q = ZOMBIE)) (wakeup1 (proc_addr ini))
       else mret tt) s' (λ _ s'', handing s cur (S j) s'') R.
Proof.
  intros Hme Hini Hne Hj ((Hinv&E1&E2)&Hno&Hpw). run_steps. apply run_proc_at. intros q Hq.
  case_bool_decide as Hpar.
  - assert (∀ s'', procs s'' = adopted ini j q (procs s') → cpuproc s'' = cpuproc s' →
      initproc s'' = initproc s' → nextpid s'' = nextpid s' → handing s cur (S j) s'') as Hgo.
    { intros s'' P1 P2 P3 P4.
      destruct (ti_init _ _ _ _ Hinv) as (k&r&Ek&Hr&Hlv&Hrn).
      rw E2 Hini in Ek. subst ini. rw Ek in Hne P1.
      rw /handing /closing. split_and!; [|congruence|congruence| |].
      - rw /ptable_inv P1 P2 P3 P4 E2 Ek. rw /ptable_inv E2 Ek in Hinv.
        apply (table_adopt _ _ _ _ cur); [done|congruence|done|done].
      - intros i p Hi. rw P1. intros (p'&Hp'&Ep&_)%(adopted_lookup _ _ _ _ _ _ Hq).
        rw Ep. case_decide; [congruence|]. apply (Hno i p'); [lia|done].
      - rw P1. intros k' p r' Hp Hk' Hr'.
        destruct (adopted_lookup _ _ _ _ _ _ Hq Hp) as (p1&Hp1&Ep&_&Hs1&_).
        destruct (adopted_lookup _ _ _ _ _ _ Hq Hr') as (r1&Hr1&_&_&_&Hs2&Ec).
        case_decide as Ej.
        { subst j. assert (q = p1) by congruence. subst.
          by destruct (ti_parent _ _ _ _ Hinv cur p1 cur Hq Hpar). }
        intros [Hw1 Hw2]. apply (Hpw k' p1 r1); try congruence. split; [auto|congruence]. }
    run_steps. rw /when /wakeup1 /adopted in Hgo |- *.
    case_bool_decide; run_steps; by apply Hgo.
  - run_steps. split_and!; try done. intros i p Hi Hp.
    destruct (decide (i = j)) as [->|]; [congruence|]. apply (Hno i p); [lia|done].
Qed.

Lemma exit_inv s me h i :
  ptable_inv s → cpuproc s !! me = Some (Some i) →
  RUN (exit me) (set_khold h s) (λ _ s', False) (λ s', ptable_inv (left_cpu me s') ∧
    (∃ p, procs s' !! i = Some p ∧ p_state p = ZOMBIE) ∧
    ∀ j q, procs s' !! j = Some q → p_parent q ≠ Some i).
Proof.
  intros Hinv Hme. rw /exit. run_steps. cbn [cpuproc set_khold initproc]. rw Hme. cbn [default from_option].
  case_bool_decide as Hini; [done|]. change (Some i ≠ initproc s) in Hini.
  run_steps. apply run_deref. intros cur [= <-]. run_steps.
  apply (runs_for_each _ _ _ (λ _ s', closing s i s')); [done| |].
  { intros pre fd post s' _ Hc. run_steps. apply run_proc_at. intros p Hp.
    destruct (p_ofile p !! fd) as [[f|]|]; run_steps; [|done..].
    by apply (closing_upd s i me). }
  intros s1 Hc1. run_steps. apply run_proc_at. intros p1 _. run_steps.
  apply run_deref. intros d _. run_steps.
  match goal with |- runs _ _ (set_khold _ ?st) _ _ => assert (closing s i st) as Hc2 end.
  { by apply (closing_upd s i me). }
  set s2 := set_procs _ _ in Hc2 |- *. clearbody s2. destruct Hc2 as (Hinv2&E1&E2).
  apply run_proc_at. intros p2 Hp2. run_steps. rw /wakeup1. run_steps.
  apply (runs_for_each _ _ _ (λ pre s', handing s i (length pre) s')).
  - rw /handing /closing. split_and!; try done; cbn [procs set_procs set_khold].
    + rw /ptable_inv. by apply table_wakeup.
    + intros j q Hj. simpl in Hj. lia.
    + intros k p q. rw !list_lookup_fmap. change (procs s2 !! i = Some p2) in Hp2.
      rw Hp2. intros [= <-].
      destruct (woken_fields (proc_addr (p_parent p2)) p2) as (_&->&_). intros ->.
      destruct (procs s2 !! k); [|done]. intros [= <-]. apply woken_not_waiting.
  - intros pre j post s' Hl Hh.
    assert (j = length pre) as ->.
    { rw -(Nat.add_0_l (length pre)). apply (f_equal (.!! length pre)) in Hl.
      rw list_lookup_middle // in Hl. by apply lookup_seq in Hl as [-> _]. }
    rw length_app /= Nat.add_1_r. apply (exit_reparent_step s i me); try done.
    apply (f_equal length) in Hl. rw length_app length_seq /= in Hl. lia.
  - rw length_seq. intros s3 ((Hinv3&E3&E4)&Hno&Hpw). run_steps. apply run_sched.
    rw -E3 in Hme. destruct (current_running s3 me i Hinv3 Hme) as (p&Hp&Hst).
    rw /ptable_inv /left_cpu /= (alter_slot _ _ _ p) //.
    assert (∀ j q, procs s3 !! j = Some q → p_parent q ≠ Some i) as Hno'.
    { intros j q Hj. apply (Hno j q); [|done].
      rw -(ti_len _ _ _ _ Hinv3). by apply lookup_lt_Some in Hj. }
    split_and!.
    + apply (table_leave (procs s3) _ _ _ me i p); try done.
      * intros _. split; [congruence|done].
      * by intros [? _].
      * intros _ k q Hk Hq _. by apply (Hpw k p).
    + exists (set_state ZOMBIE p). split; [|done]. apply list_lookup_insert_eq.
      by apply lookup_lt_Some in Hp.
    + intros j q [(->&<-&_)|[_ ?]]%list_lookup_insert_Some; [|by apply (Hno' j)].
      by apply (Hno' j p).
Qed.

(** ** wait *)

Lemma wait_scan_spec cur ps : ∀ i0 hk,
  match wait_scan cur i0 ps hk with
  | inl i => ∃ k p, i = (i0 + k)%nat ∧ ps !! k = Some p ∧ p_parent p = Some cur ∧ p_state p = ZOMBIE
  | inr b => (∀ k p, ps !! k = Some p → p_parent p = Some cur → p_state p ≠ ZOMBIE) ∧
      (b = true ↔ hk = true ∨ ∃ k p, ps !! k = Some p ∧ p_parent p = Some cur)
  end.
Proof.
  induction ps as [|p ps IH]; intros i0 hk; simpl.
  { split; [done|]. split; [by left|]. intros [?|(?&?&?&_)]; done. }
  case_bool_decide as Hp; simpl; [case_bool_decide as Hz|].
  - exists 0%nat, p. split; [lia|done].
  - specialize (IH (S i0) true). destruct (wait_scan cur (S i0) ps true) as [i|b].
    + destruct IH as (k&q&->&?&?&?). exists (S k), q. split; [lia|done].
    + destruct IH as [H1 H2]. split.
      * intros [|k] q; simpl; [intros [= <-] _; done|apply H1].
      * split; [|by intros _; apply H2; left]. intros _. right. exists 0%nat, p. done.
  - specialize (IH (S i0) hk). destruct (wait_scan cur (S i0) ps hk) as [i|b].
    + destruct IH as (k&q&->&?&?&?). exists (S k), q. split; [lia|done].
    + destruct IH as [H1 H2]. split.
      * intros [|k] q; simpl; [intros [= <-] ?; done|apply H1].
      * rw H2. split; intros [?|(k&q&?&?)]; [by left| |by left|].
        -- right. by exists (S k), q.
        -- destruct k as [|k]; simplify_eq/=; right; by exists k, q.
Qed.

Definition reaped (p : proc) : proc :=
  set_state UNUSED (set_killed 0
    (set_name (<[0%nat := 0]> (p_name p)) (set_parent None (set_pid 0 (set_kstack 0 p))))).

(** [wait] either frees the slot of a zombie child and returns its pid, or gives up
    with -1 and an unchanged table (no children, or killed), or goes to sleep. *)
Definition waited (s : kern F) (cur : nat) (r : Z) (s' : kern F) : Prop :=
  (∃ i p, procs s !! i = Some p ∧ p_parent p = Some cur ∧ p_state p = ZOMBIE ∧
     r = p_pid p ∧ slot_became s i (reaped p) s' ∧ nextpid s' = nextpid s) ∨
  (r = -1 ∧ procs s' = procs s ∧ initproc s' = initproc s ∧ cpuproc s' = cpuproc s ∧
   nextpid s' = nextpid s ∧ (∀ k p, procs s !! k = Some p → p_parent p = Some cur → p_state p ≠ ZOMBIE) ∧
   ((∀ k p, procs s !! k = Some p → p_parent p ≠ Some cur) ∨
    ∃ c, procs s !! cur = Some c ∧ p_killed c ≠ 0)).

Lemma wait_loop_runs s me h i :
  ptable_inv s → cpuproc s !! me = Some (Some i) →
  RUN (wait_loop me) (set_khold h s) (waited s i) (λ s', ptable_inv (left_cpu me s')).
Proof.
  intros Hinv Hme. rw /wait_loop. run_current Hme. simpl.
  pose proof (wait_scan_spec i (procs s) 0 false) as Hscan.
  destruct (wait_scan i 0 (procs s) false) as [k|b].
  - destruct Hscan as (k'&p&->&Hk&Hpar&Hz). run_steps. simpl.
    apply run_proc_at. intros p' Hp'. simpl in Hp'. simplify_eq. run_steps.
    left. exists k', p. split_and!; try done. simpl.
    rw (alter_slot _ k' (procs s) p) // !alter_again; [by apply lookup_lt_Some in Hk..|].
    done.
  - destruct Hscan as [Hnz Hb]. run_steps. apply run_proc_at. intros c Hc. simpl in Hc.
    destruct b; simpl; [destruct (Z.eqb_spec (p_killed c) 0); simpl|]; run_steps.
    + eapply runs_mono; [by apply (sleep_inv s me _ i); eauto|]. done.
    + right. split_and!; try done. right. eauto.
    + right. split_and!; try done. left. intros k p Hk Hp.
      destruct Hb as [_ Hb]. discriminate Hb. right. eauto.
Qed.

Lemma waited_inv s cur me r s' :
  ptable_inv s → cpuproc s !! me = Some (Some cur) → waited s cur r s' → ptable_inv s'.
Proof.
  intros Hinv Hme [(i&p&Hi&Hpar&Hz&_&(E1&E2&E3)&E4)|(_&E1&E2&E3&E4&_)];
    rw /ptable_inv E1 E2 E3 E4; [|done].
  pose proof Hinv as [Hlen Hpid Huq Hrun Hcpu Hone Hpar' Hun Hini Hwait].
  apply (table_update (procs s) (nextpid s) _ (cpuproc s) i p); try done; simpl; try lia.
  - split; [done|]. intros Hc. apply (Hrun i p Hi) in Hc. congruence.
  - by rw Hz.
  - by intros [? _].
Qed.

Lemma wait_inv s me h i :
  ptable_inv s → cpuproc s !! me = Some (Some i) →
  RUN (wait me) (set_khold h s) (λ r s', waited s i r s' ∧ ptable_inv s')
    (λ s', ptable_inv (left_cpu me s')).
Proof.
  intros Hinv Hme. rw /wait. run_steps.
  eapply runs_mono; [by apply (wait_loop_runs s me _ i)|].
  intros r s' Hw. split; [done|]. by apply (waited_inv s i me r).
Qed.

Lemma wait_resume_inv s me h i :
  ptable_inv s → cpuproc s !! me = Some (Some i) →
  RUN (wait_resume me) (set_khold h s) (λ _ s', ptable_inv s')
    (λ s', ptable_inv (left_cpu me s')).
Proof.
  intros Hinv Hme. rw /wait_resume. run_steps.
  eapply runs_mono; [by apply (sleep_return_inv s me _ i)|].
  intros [] s1 [Hinv1 E]. rw -E in Hme.
  assert (s1 = set_khold (khold s1) s1) as Es by by destruct s1.
  rw Es. eapply runs_mono; [by apply (wait_loop_runs s1 me _ i)|].
  intros r s' Hw. by apply (waited_inv s1 i me r).
Qed.

(** ** Reachable states *)

Lemma runs_elim {A} (m : K (kern F) A) s Q R :
  RUN m s Q R →
  (∀ a s', m s = Ret a s' → Q a s') ∧ (∀ s', m s = Sleeps "sched" s' → R s').
Proof. rw /runs. destruct (m s); naive_solver. Qed.

Lemma run_op_inv s me h i o :
  ptable_inv s → pid_room s → op_ok o → cpuproc s !! me = Some (Some i) →
  RUN (run_op me o) (set_khold h s) (λ _ s', ptable_inv s') (λ s', ptable_inv (left_cpu me s')).
Proof.
  intros Hinv Hroom Hok Hme.
  assert (∀ A (m : K (kern F) A),
    RUN m (set_khold h s) (λ _ s', ptable_inv s') (λ s', ptable_inv (left_cpu me s')) →
    RUN (_ ← m; mret tt) (set_khold h s) (λ _ s', ptable_inv s')
      (λ s', ptable_inv (left_cpu me s'))) as Hdrop.
  { intros A m Hm. apply runs_bind. eapply runs_mono; [exact Hm|]. intros a s' Hs'. by apply runs_ret. }
  destruct o; simpl; try (apply Hdrop).
  - by apply (fork_inv s me h i).
  - pose proof (exit_inv s me h i Hinv Hme) as He. rw /runs in He |- *.
    destruct (exit me (set_khold h s)); [done|done|by intros; apply He|done].
  - eapply runs_mono; [by apply (wait_inv s me h i)|]. by intros ? ? [_ ?].
  - by apply (wait_resume_inv s me h i).
  - by apply kill_inv.
  - by apply (yield_inv s me h i).
  - eapply runs_mono; [apply (sleep_inv s me h i); [done|done|]|done].
    intros Ec. by destruct (Hok i).
  - eapply runs_mono; [by apply (sleep_return_inv s me h i)|]. by intros ? ? [? _].
  - by apply wakeup_inv.
  - by apply (growproc_inv s me h i).
Qed.

Lemma proc_step_inv s s' : ptable_inv s → pid_room s → proc_step s s' → ptable_inv s'.
Proof.
  intros Hinv Hroom [c i h s1 Hc Hrun|c i o h s1 Hc Hok Hrun|c i o h s1 s2 Hc Hok Hrun Hback].
  - by apply (runs_elim _ _ _ (λ _, True) (dispatch_inv s c i h _ Hinv Hc)) in Hrun.
  - by apply (runs_elim _ _ _ _ (run_op_inv s c h i o Hinv Hroom Hok Hc)) in Hrun.
  - apply (runs_elim _ _ _ _ (run_op_inv s c h i o Hinv Hroom Hok Hc)) in Hrun.
    by injection Hback as <-.
Qed.

(** Steps taken while pids are left. *)
Definition proc_steps : relation (kern F) := rtc (λ a b, pid_room a ∧ proc_step a b).

Lemma proc_steps_inv s s' : ptable_inv s → proc_steps s s' → ptable_inv s'.
Proof.
  intros Hinv Hr. induction Hr as [|a b c [Hroom Hst] _ IH]; [done|].
  apply IH. by apply (proc_step_inv a b).
Qed.

(** ** Progress: the operations do not fail *)

Notation SURE := (sure "sched").

Lemma sure_acquire l s (Q : unit → kern F → Prop) R :
  l ∉ khold s → Q tt (set_khold (l :: khold s) s) → SURE (lock_acquire l) s Q R.
Proof. intros. apply sure_wp. by apply wp_lock_acquire. Qed.
Lemma sure_release l h s (Q : unit → kern F → Prop) R :
  khold s = l :: h → l ∉ h → Q tt (set_khold h s) → SURE (lock_release l) s Q R.
Proof. intros. apply sure_wp. by apply (wp_lock_release l h). Qed.
Lemma sure_proc_at i p s (Q : proc → kern F → Prop) R :
  procs s !! i = Some p → Q p s → SURE (proc_at i) s Q R.
Proof. rw /sure /proc_at. by intros ->. Qed.
Lemma sure_upd i f s (Q : unit → kern F → Prop) R :
  Q tt (set_procs (alter f i (procs s)) s) → SURE (upd_proc i f) s Q R.
Proof. done. Qed.
Lemma sure_deref {A} (o : option A) a (s : kern F) (Q : A → kern F → Prop) R :
  o = Some a → Q a s → SURE (deref o) s Q R.
Proof. by intros ->. Qed.
Lemma sure_in_fs {A} (m : K F A) s (Q : A → kern F → Prop) R :
  wp m (kfs s) (λ a f, Q a (set_kfs f s)) → SURE (in_fs m) s Q R.
Proof. rw /sure /wp /in_fs /blocked_in /zoom. by destruct (m _). Qed.
Lemma sure_sched me i p s (Q : unit → kern F → Prop) (R : kern F → Prop) :
  khold s = ["ptable"] → cpuproc s !! me = Some (Some i) → procs s !! i = Some p →
  p_state p ≠ RUNNING → R s → SURE (sched me) s Q R.
Proof.
  intros Hh Hme Hp Hst HR. rw /sched. apply sure_bind, sure_gets, sure_bind, sure_gets.
  rw Hh Hme. apply sure_bind, (sure_deref _ i); [done|]. apply sure_bind.
  apply (sure_proc_at i p); [done|]. rw bool_decide_eq_false_2 //.
Qed.

(** The file system calls of proc.c return. *)
Class FileOpsTotal : Prop := {
  filedup_total : ∀ n x, wp (filedup n) x (λ _ _, True);
  fileclose_total : ∀ n x, wp (fileclose n) x (λ _ _, True);
  idup_total : ∀ n x, wp (idup n) x (λ _ _, True);
  iput_total : ∀ n x, wp (iput n) x (λ _ _, True);
  begin_op_total : ∀ x, wp begin_op x (λ _ _, True);
  end_op_total : ∀ x, wp end_op x (λ _ _, True)
}.

Lemma sure_in_fs_total {A} (m : K F A) s (Q : A → kern F → Prop) R :
  (∀ x, wp m x (λ _ _, True)) → (∀ a f, Q a (set_kfs f s)) → SURE (in_fs m) s Q R.
Proof. intros Hm HQ. apply sure_in_fs. eapply wp_mono; [apply Hm|]. auto. Qed.

Definition exit_ready (me i : nat) (s : kern F) : Prop :=
  khold s = [] ∧ cpuproc s !! me = Some (Some i) ∧ length (procs s) = NPROC ∧
  ∃ p, procs s !! i = Some p ∧ is_Some (p_cwd p).

Lemma exit_ready_upd me i f s :
  exit_ready me i s → (∀ p, is_Some (p_cwd p) → is_Some (p_cwd (f p))) →
  exit_ready me i (set_procs (alter f i (procs s)) s).
Proof.
  intros (H1&H2&H3&p&Hp&Hc) Hf. split_and!; [done|done|by rw /= length_alter|].
  exists (f p). split; [|auto]. simpl. rw list_lookup_alter_eq Hp. done.
Qed.

Lemma exit_sure me i s :
  FileOpsTotal → initproc s ≠ Some i → exit_ready me i s →
  SURE (exit me) s (λ _ _, False) (λ _, True).
Proof.
  intros HF Hini Hr. rw /exit. apply sure_bind, sure_gets, sure_bind, sure_gets.
  pose proof Hr as (_&Hme&_). rw Hme. rw bool_decide_eq_false_2; [intros E; apply Hini; by rw -E|].
  apply sure_bind, (sure_deref _ i); [done|]. apply sure_bind.
  apply (sure_for_each _ _ _ (λ _ s', exit_ready me i s')); [done| |].
  { intros pre fd post s' _ Hr'. pose proof Hr' as (_&_&_&p&Hp&_).
    apply sure_bind, (sure_proc_at i p); [done|].
    destruct (p_ofile p !! fd) as [[f|]|]; [|by apply sure_ret..].
    apply sure_bind, sure_in_fs_total; [apply fileclose_total|].
    intros _ x. apply sure_upd, exit_ready_upd; [|done]. exact Hr'. }
  clear Hr Hme. intros s1 (Hh&Hme&Hlen&p&Hp&[d Hd]).
  apply sure_bind, sure_in_fs_total; [apply begin_op_total|]. intros _ x1.
  apply sure_bind, (sure_proc_at i p); [done|].
  apply sure_bind, (sure_deref _ d); [done|].
  apply sure_bind, sure_in_fs_total; [apply iput_total|]. intros _ x2.
  apply sure_bind, sure_in_fs_total; [apply end_op_total|]. intros _ x3.
  apply sure_bind, sure_upd, sure_bind, sure_acquire; [rw /= Hh; apply not_elem_of_nil|].
  apply sure_bind, (sure_proc_at i (set_cwd None p)); [by rw /= list_lookup_alter_eq Hp|].
  apply sure_bind, sure_modify, sure_bind.
  apply (sure_for_each _ _ _ (λ _ s', khold s' = ["ptable"] ∧
    cpuproc s' !! me = Some (Some i) ∧ length (procs s') = NPROC)).
  { split_and!; [by rw /= Hh|done|]. cbn [procs set_procs set_khold set_kfs].
    by rw length_fmap length_alter. }
  { intros pre j post s' Hl (Hh'&Hme'&Hlen').
    assert (is_Some (procs s' !! j)) as [q Hq].
    { apply lookup_lt_is_Some. rw Hlen'.
      assert (j ∈ seq 0 NPROC) as Hj by (rw Hl; set_solver). apply elem_of_seq in Hj. lia. }
    apply sure_bind, (sure_proc_at j q); [done|]. case_bool_decide; [|by apply sure_ret].
    apply sure_bind, sure_upd. rw /when. case_bool_decide.
    - apply sure_modify. cbn [khold cpuproc procs set_procs]. by rw length_fmap length_alter.
    - apply sure_ret. cbn [khold cpuproc procs set_procs]. by rw length_alter. }
  intros s' (Hh'&Hme'&Hlen').
  assert (is_Some (procs s' !! i)) as [q Hq].
  { apply lookup_lt_is_Some. apply lookup_lt_Some in Hp. by rw Hlen' -Hlen. }
  apply sure_bind, sure_upd, sure_bind, (sure_sched me i (set_state ZOMBIE q)); try done.
  by rw /= list_lookup_alter_eq Hq.
Qed.

Lemma sure_in_kmem {A} (m : K kmem_state A) s (Q : A → kern F → Prop) R :
  wp m (Kmem (km_mem (phys s)) (km_freelist (phys s)) (km_use_lock (phys s)) (khold s))
    (λ a k, Q a (set_khold (km_held k) (set_phys k s))) → SURE (in_kmem m) s Q R.
Proof. rw /sure /wp /in_kmem /blocked_in /zoom. by destruct (m _). Qed.

(** The memory of a zombie can be given back. *)
Definition reapable (s : kern F) (p : proc) : Prop :=
  wp (_ ← kfree kend (p_kstack p); freevm kend (p_pgdir p))
    (Kmem (km_mem (phys s)) (km_freelist (phys s)) (km_use_lock (phys s)) ["ptable"])
    (λ _ k, km_held k = ["ptable"]).

Lemma wait_sure me i s :
  ptable_inv s → cpuproc s !! me = Some (Some i) → khold s = [] →
  (∀ j p, procs s !! j = Some p → p_parent p = Some i → p_state p = ZOMBIE → reapable s p) →
  SURE (wait me) s (λ _ s', khold s' = []) (λ s', khold s' = ["ptable"] ∧
    ∃ p, procs s' !! i = Some p ∧ waiting i p).
Proof.
  intros Hinv Hme Hh Hre. destruct (current_running s me i Hinv Hme) as (c&Hc&Hrn).
  rw /wait. apply sure_bind, sure_acquire; [rw Hh; apply not_elem_of_nil|]. rw Hh.
  rw /wait_loop. apply sure_bind, sure_gets. cbn [cpuproc set_khold]. rw Hme.
  apply sure_bind, (sure_deref _ i); [done|]. apply sure_bind, sure_gets.
  cbn [procs set_khold]. pose proof (wait_scan_spec i (procs s) 0 false) as Hscan.
  destruct (wait_scan i 0 (procs s) false) as [k|b].
  - destruct Hscan as (k'&p&->&Hk&Hpar&Hz). simpl.
    apply sure_bind, (sure_proc_at k' p); [done|].
    destruct (wp_elim _ _ _ (Hre k' p Hk Hpar Hz)) as ([]&k2&Hrun&Hheld).
    rw /mbind /K_bind in Hrun. destruct (kfree kend (p_kstack p) _) as [[] k1| | |] eqn:Ek; try done.
    apply sure_bind, sure_in_kmem. eapply wp_intro; [exact Ek|].
    apply sure_bind, sure_upd, sure_bind, sure_in_kmem.
    eapply wp_intro; [destruct k1; exact Hrun|].
    do 5 (apply sure_bind, sure_upd).
    apply sure_bind, (sure_release _ []); [done|apply not_elem_of_nil|]. by apply sure_ret.
  - apply sure_bind, (sure_proc_at i c); [done|].
    destruct b; simpl; [destruct (Z.eqb_spec (p_killed c) 0); simpl|];
      try (apply sure_bind, (sure_release _ []); [done|apply not_elem_of_nil|by apply sure_ret]).
    apply sure_bind. rw /sleep. apply sure_bind, sure_gets. cbn [cpuproc set_khold]. rw Hme.
    simpl. apply sure_bind, sure_ret, sure_bind, sure_upd, sure_bind, sure_upd, sure_bind.
    assert (alter (set_state SLEEPING) i
      (alter (set_chan (ptable_proc + sizeof_proc * Z.of_nat i)) i (procs s)) !! i =
      Some (set_state SLEEPING (set_chan (ptable_proc + sizeof_proc * Z.of_nat i) c))) as Hl.
    { by rw !list_lookup_alter_eq Hc. }
    eapply (sure_sched me i); [done|done|exact Hl|done|]. split; [done|].
    eexists. split; [exact Hl|done].
Qed.

(** ** Main results *)

(** C3: the invariant of the process table holds under every interleaving of the
    operations of all CPUs: pids of used slots are distinct and below [nextpid], a
    process is RUNNING exactly when one CPU runs it, parents are live processes, the
    first process never dies, and no process sleeps in [wait] with a zombie child. *)
Theorem process_table_invariant s s' : ptable_inv s → proc_steps s s' → ptable_inv s'.
Proof. apply proc_steps_inv. Qed.


(** [exit] of a process other than the first never returns and never fails: it
    ends in [sched] as a ZOMBIE, no process is its child any more, and the table
    invariant holds (its parent and, if a zombie was handed over, [init] are awake). *)
Theorem exit_hands_over me i s :
  FileOpsTotal → ptable_inv s → exit_ready me i s → initproc s ≠ Some i →
  ∃ s', exit me s = Sleeps "sched" s' ∧ ptable_inv (left_cpu me s') ∧
    (∃ p, procs s' !! i = Some p ∧ p_state p = ZOMBIE) ∧
    ∀ j q, procs s' !! j = Some q → p_parent q ≠ Some i.
Proof.
  intros HF Hinv Hr Hini. pose proof (exit_sure me i s HF Hini Hr) as Hs.
  destruct Hr as (Hh&Hme&_). pose proof (exit_inv s me (khold s) i Hinv Hme) as He.
  assert (set_khold (khold s) s = s) as Es by by destruct s. rw Es in He.
  pose proof (sure_runs _ _ _ _ _ _ _ Hs He) as Hboth. rw /sure in Hboth.
  destruct (exit me s) as [?|?|w s'|?]; try naive_solver.
Qed.

(** [wait] on every branch: with a zombie child it frees that slot and returns
    its pid; without children, or killed, it returns -1 and the table is the same;
    otherwise it gives the CPU up, asleep on its own address. *)
Theorem wait_outcomes me i s :
  ptable_inv s → cpuproc s !! me = Some (Some i) → khold s = [] →
  (∀ j p, procs s !! j = Some p → p_parent p = Some i → p_state p = ZOMBIE → reapable s p) →
  (∃ r s', wait me s = Ret r s' ∧ waited s i r s' ∧ ptable_inv s') ∨
  (∃ s' p, wait me s = Sleeps "sched" s' ∧ procs s' !! i = Some p ∧ waiting i p ∧
     ptable_inv (left_cpu me s')).
Proof.
  intros Hinv Hme Hh Hre. pose proof (wait_sure me i s Hinv Hme Hh Hre) as Hs.
  pose proof (wait_inv s me (khold s) i Hinv Hme) as He.
  assert (set_khold (khold s) s = s) as Es by by destruct s. rw Es in He.
  pose proof (sure_runs _ _ _ _ _ _ _ Hs He) as Hboth. rw /sure in Hboth.
  destruct (wait me s) as [r s'|?|w s'|?]; [left|done|right|done].
  - exists r, s'. naive_solver.
  - destruct Hboth as (->&(_&p&Hp&Hw)&Hi). exists s', p. done.
Qed.

(** [kill] takes the first slot with the pid, used or not.  With pid 0 that is a
    free slot: it returns 0 and leaves [killed] set in a slot the next [fork] may
    take, and neither [allocproc] nor [fork] clears it. *)
Theorem kill_marks_first_match s pid :
  "ptable" ∉ khold s →
  kill pid s =
    match list_find (λ p, p_pid p = pid) (procs s) with
    | None => Ret (-1) s
    | Some (i, p) =>
        Ret 0 (set_procs (<[i := (if bool_decide (p_state p = SLEEPING)
                                  then set_state RUNNABLE (set_killed 1 p)
                                  else set_killed 1 p)]> (procs s)) s)
    end.
Proof.
  intros Hh.
  assert (lock_acquire "ptable" s = Ret tt (set_khold ("ptable" :: khold s) s)) as Ha
    by exact (@lock_acquire_run (kern F) kern_HasLocks "ptable" s Hh).
  assert (∀ s0, khold s0 = "ptable" :: khold s →
    lock_release "ptable" s0 = Ret tt (set_khold (khold s) s0)) as Hr.
  { intros s0 E. exact (@lock_release_run (kern F) kern_HasLocks "ptable" (khold s) s0 E Hh). }
  rw /kill (bind_Ret _ _ _ _ _ Ha). rw /gets {1}/mbind {1}/K_bind. cbn [procs set_khold].
  destruct (list_find _ (procs s)) as [[i p]|] eqn:Ef.
  - apply list_find_Some in Ef as (Hi&_&_). apply lookup_lt_Some in Hi as Hlt.
    assert (upd_proc i (set_killed 1) (set_khold ("ptable" :: khold s) s) = Ret tt
      (set_procs (<[i := set_killed 1 p]> (procs s)) (set_khold ("ptable" :: khold s) s))) as Hu.
    { rw /upd_proc /modify. cbn [procs set_khold]. by rw (alter_slot _ i (procs s) p). }
    rw (bind_Ret _ _ _ _ _ Hu) /when.
    case_bool_decide; rw /mret /K_ret /upd_proc /modify {1}/mbind {1}/K_bind;
      cbn [procs set_khold set_procs];
      rw ?alter_again //; (erewrite bind_Ret; [|apply Hr; reflexivity]); by destruct s.
  - erewrite bind_Ret; [|apply Hr; reflexivity]. by destruct s.
Qed.

End Proc.

(** ** A table with the first process and one child *)

#[local] Instance demo_fileops : FileOps unit := {|
  filedup := λ n, mret n; fileclose := λ _, mret tt; idup := λ n, mret n;
  iput := λ _, mret tt; namei := λ _, mret (Some 0%nat); begin_op := mret tt; end_op := mret tt
|}.

Definition demo_proc (st : procstate) (pid chan : Z) (par : option nat) : proc :=
  Proc 0 0x80200000 0x80201000 st pid par 0 0 chan 0 (replicate NOFILE None) (Some 0%nat) (replicate 16 0).
Definition demo_procs (p q : proc) : list proc := p :: q :: replicate 62 proc0.
Definition demo_kern (p q : proc) (cpus : list (option nat)) : kern unit :=
  Kern (demo_procs p q) 3 (Some 0%nat) cpus (Kmem ∅ 0 true []) [] tt.

Lemma demo_lookup p q i r :
  demo_procs p q !! i = Some r →
  i = 0%nat ∧ r = p ∨ i = 1%nat ∧ r = q ∨ (2 ≤ i)%nat ∧ r = proc0.
Proof.
  destruct i as [|[|i]]; [intros [= <-]; auto..|].
  change (replicate 62 proc0 !! i = Some r → (S (S i) = 0%nat ∧ r = p ∨ S (S i) = 1%nat ∧ r = q ∨
    (2 ≤ S (S i))%nat ∧ r = proc0)). intros [-> _]%lookup_replicate. right. right. split; [lia|done].
Qed.

Lemma demo_inv st0 st1 chan0 cpus :
  live st0 = true → live st1 = true →
  (st0 = RUNNING ↔ ∃ c, cpus !! c = Some (Some 0%nat)) →
  (st1 = RUNNING ↔ ∃ c, cpus !! c = Some (Some 1%nat)) →
  (∀ c i, cpus !! c = Some (Some i) → i = 0%nat ∨ i = 1%nat) →
  (∀ c c' i, cpus !! c = Some (Some i) → cpus !! c' = Some (Some i) → c = c') →
  ptable_inv 0x80110000 (demo_kern (demo_proc st0 1 chan0 None) (demo_proc st1 2 0 (Some 0%nat)) cpus).
Proof.
  intros H0 H1 Hr0 Hr1 Hc Hone.
  split; cbn [procs nextpid initproc cpuproc demo_kern].
  - done.
  - intros i p [(->&->)|[(->&->)|(?&->)]]%demo_lookup; simpl; [lia..|done].
  - intros i j p q [(->&->)|[(->&->)|(?&->)]]%demo_lookup [(->&->)|[(->&->)|(?&->)]]%demo_lookup;
      simpl; try done; lia.
  - intros i p [(->&->)|[(->&->)|(?&->)]]%demo_lookup; simpl; [done..|].
    split; [done|]. intros [c Hi]. destruct (Hc c i Hi); lia.
  - intros c i Hi. destruct (Hc c i Hi) as [->| ->]; simpl; eauto.
  - done.
  - intros i p j [(->&->)|[(->&->)|(?&->)]]%demo_lookup; simpl; [done| |done].
    intros [= <-]. split; [done|]. eexists. split; [done|]. done.
  - intros i p [(->&->)|[(->&->)|(?&->)]]%demo_lookup; simpl; try done.
    intros ->. done.
  - exists 0%nat, (demo_proc st0 1 chan0 None). done.
  - intros i p j q _ _ [(->&->)|[(->&->)|(?&->)]]%demo_lookup; simpl; try done.
    intros _ ->. done.
Qed.

Lemma process_table_invariant_witness :
  ∃ s', ptable_inv (F := unit) 0x80110000 s' ∧ cpuproc s' = [Some 0%nat; Some 1%nat].
Proof.
  set (s := demo_kern (demo_proc RUNNING 1 0 None) (demo_proc RUNNABLE 2 0 (Some 0%nat))
              [Some 0%nat; None]).
  set (s' := demo_kern (demo_proc RUNNING 1 0 None) (demo_proc RUNNING 2 0 (Some 0%nat))
               [Some 0%nat; Some 1%nat]).
  exists s'. split; [|reflexivity].
  apply (process_table_invariant 0x80110000 KERNLINK KERNLINK 0 0 s).
  - apply demo_inv; [reflexivity|reflexivity|split; [exists 0%nat; reflexivity|reflexivity]| | |].
    + split; [discriminate|]. intros [[|[|c]] H]; discriminate.
    + intros [|[|c]] i [= <-]. left. reflexivity.
    + intros [|[|c]] [|[|c']] i H H'; try discriminate H; try discriminate H'; reflexivity.
  - apply (rtc_l _ s s' s'); [|apply rtc_refl]. split; [split; simpl; lia|].
    exact (step_dispatch 0x80110000 KERNLINK KERNLINK 0 0 s 1 1 [] s' eq_refl eq_refl).
Defined.


Lemma demo_fileops_total : FileOpsTotal (F := unit).
Proof. split; intros; exact I. Qed.

Lemma exit_hands_over_witness :
  ∃ s', exit 0x80110000 0 (demo_kern (demo_proc RUNNABLE 1 0 None)
          (demo_proc RUNNING 2 0 (Some 0%nat)) [Some 1%nat]) = Sleeps "sched" s'.
Proof.
  destruct (exit_hands_over 0x80110000 0 1 (demo_kern (demo_proc RUNNABLE 1 0 None)
          (demo_proc RUNNING 2 0 (Some 0%nat)) [Some 1%nat])) as (s'&H&_).
  - exact demo_fileops_total.
  - apply demo_inv; [reflexivity|reflexivity| | | |].
    + split; [discriminate|]. intros [[|c] H]; discriminate.
    + split; [|reflexivity]. exists 0%nat. reflexivity.
    + intros [|c] i [= <-]. right. reflexivity.
    + intros [|c] [|c'] i H H'; try discriminate H; try discriminate H'; reflexivity.
  - split; [reflexivity|]. split; [reflexivity|]. split; [reflexivity|].
    exists (demo_proc RUNNING 2 0 (Some 0%nat)). split; [reflexivity|]. eexists. reflexivity.
  - discriminate.
  - exists s'. exact H.
Defined.

Lemma wait_outcomes_witness :
  (∃ r s', wait 0x80110000 KERNLINK 0 (demo_kern (demo_proc RUNNING 1 0 None)
             (demo_proc RUNNABLE 2 0 (Some 0%nat)) [Some 0%nat]) = Ret r s') ∨
  (∃ s', wait 0x80110000 KERNLINK 0 (demo_kern (demo_proc RUNNING 1 0 None)
             (demo_proc RUNNABLE 2 0 (Some 0%nat)) [Some 0%nat]) = Sleeps "sched" s').
Proof.
  destruct (wait_outcomes 0x80110000 KERNLINK 0 0 (demo_kern (demo_proc RUNNING 1 0 None)
             (demo_proc RUNNABLE 2 0 (Some 0%nat)) [Some 0%nat])) as [(r&s'&H&_)|(s'&p&H&_)].
  - apply demo_inv; [reflexivity|reflexivity| | | |].
    + split; [|reflexivity]. exists 0%nat. reflexivity.
    + split; [discriminate|]. intros [[|c] H]; discriminate.
    + intros [|c] i [= <-]. left. reflexivity.
    + intros [|c] [|c'] i H H'; try discriminate H; try discriminate H'; reflexivity.
  - reflexivity.
  - reflexivity.
  - intros j p [(->&->)|[(->&->)|(?&->)]]%demo_lookup H1 H2; discriminate H2.
  - left. exists r, s'. exact H.
  - right. exists s'. exact H.
Defined.

Lemma kill_marks_first_match_witness :
  ∃ s', kill (F := unit) 0 (demo_kern (demo_proc RUNNING 1 0 None)
      (demo_proc RUNNABLE 2 0 (Some 0%nat)) [Some 0%nat]) = Ret 0 s' ∧
    procs s' !! 2%nat = Some (set_killed 1 proc0).
Proof.
  rewrite kill_marks_first_match; [apply not_elem_of_nil|].
  eexists. split; reflexivity.
Defined.
