(* ===== verification/Pipe.v ===== *)
(** * Pipes (xv6/pipe.c: struct pipe, pipewrite, piperead, pipeclose).

    The ring buffer with its two free-running 32-bit counters, and the threads that
    read and write it.  A call runs under the pipe's lock from [acquire] to the
    [release] or to the [sleep] that gives the lock up; what is left to do when a
    thread wakes up is data ([TWrite], [TRead]), so that [pipe_step] can interleave
    the critical sections of all threads.  The theorems: what is read is, in order,
    what was written, across the wrap of the counters; and no thread sleeps on a
    channel of the pipe once it could proceed. *)
From S2P Require Import Prelude Spinlock.
Local Open Scope Z_scope.

Definition PIPESIZE : Z := 512.

Record pipe := MkPipe {
  data : list Z;
  nread : Z;
  nwrite : Z;
  readopen : Z;
  writeopen : Z
}.

(** The two sleep channels: the addresses of [nread] and [nwrite]. *)
Inductive pchan := CRead | CWrite.
#[global] Instance pchan_eq_dec : EqDecision pchan.
Proof. solve_decision. Defined.

(** What a thread still has to do: nothing, [piperead(p, addr, n)], or
    [pipewrite] of the bytes left. *)
Inductive todo := TIdle | TRead (n : Z) | TWrite (rest : list Z).
Record thread := Thread { asleep : option pchan; work : todo }.

Record psys := Psys { pp : pipe; threads : gmap nat thread; plocks : list string }.

Definition set_pp (p : pipe) (s : psys) : psys := Psys p (threads s) (plocks s).
Definition set_threads (t : gmap nat thread) (s : psys) : psys := Psys (pp s) t (plocks s).

#[global] Program Instance psys_HasLocks : HasLocks psys :=
  {| held := plocks; set_held := λ h s, Psys (pp s) (threads s) h |}.
Next Obligation. done. Qed.

Definition pwoken (c : pchan) (t : thread) : thread :=
  if bool_decide (asleep t = Some c) then Thread None (work t) else t.
Definition pwakeup (c : pchan) : K psys unit :=
  modify (λ s, set_threads (pwoken c <$> threads s) s).

(** [sleep(c, &p->lock)] of thread [i], with [w] to do when it runs again. *)
Definition psleep (i : nat) (c : pchan) (w : todo) : K psys unit :=
  _ ← modify (λ s, set_threads (<[i := Thread (Some c) w]> (threads s)) s);
  lock_release "pipe".

Inductive result := Return (r : Z) | Asleep (w : todo).

Definition is_full (p : pipe) : bool := nwrite p =? u32 (nread p + PIPESIZE).
Definition push (b : Z) (p : pipe) : pipe :=
  MkPipe (<[Z.to_nat (nwrite p mod PIPESIZE) := b]> (data p)) (nread p) (u32 (nwrite p + 1))
    (readopen p) (writeopen p).

(** The [for] of [pipewrite] over the bytes left, its [while] included. *)
Fixpoint pipewrite_loop (i : nat) (killed : bool) (n : Z) (rest : list Z) : K psys result :=
  match rest with
  | [] =>
      _ ← pwakeup CRead;
      _ ← lock_release "pipe";
      mret (Return n)
  | b :: rest' =>
      p ← gets pp;
      if is_full p then
        if (readopen p =? 0) || killed then
          _ ← lock_release "pipe";
          mret (Return (-1))
        else
          _ ← pwakeup CRead;
          _ ← psleep i CWrite (TWrite rest);
          mret (Asleep (TWrite rest))
      else
        _ ← modify (set_pp (push b p));
        pipewrite_loop i killed n rest'
  end.

(** [killed]: [myproc()->killed]; a thread that wakes up re-acquires the lock and
    goes on with the bytes left. *)
Definition pipewrite (i : nat) (killed : bool) (n : Z) (rest : list Z) : K psys result :=
  _ ← lock_acquire "pipe";
  pipewrite_loop i killed n rest.

Definition is_empty (p : pipe) : bool := nread p =? nwrite p.
Definition head (p : pipe) : Z := default 0 (data p !! Z.to_nat (nread p mod PIPESIZE)).
Definition pop (p : pipe) : pipe :=
  MkPipe (data p) (u32 (nread p + 1)) (nwrite p) (readopen p) (writeopen p).

(** The copying [for] of [piperead]. *)
Fixpoint piperead_copy (n : nat) : K psys (list Z) :=
  match n with
  | O => mret []
  | S n' =>
      p ← gets pp;
      if is_empty p then mret []
      else
        _ ← modify (set_pp (pop p));
        l ← piperead_copy n';
        mret (head p :: l)
  end.

(** The bytes go to the caller's buffer. *)
Definition piperead (i : nat) (killed : bool) (n : Z) : K psys (result * list Z) :=
  _ ← lock_acquire "pipe";
  p ← gets pp;
  if is_empty p && negb (writeopen p =? 0) then
    if killed then
      _ ← lock_release "pipe";
      mret (Return (-1), [])
    else
      _ ← psleep i CRead (TRead n);
      mret (Asleep (TRead n), [])
  else
    l ← piperead_copy (Z.to_nat n);
    _ ← pwakeup CWrite;
    _ ← lock_release "pipe";
    mret (Return (Z.of_nat (length l)), l).

(** [true] when the last end was closed and the page is freed. *)
Definition pipeclose (writable : bool) : K psys bool :=
  _ ← lock_acquire "pipe";
  _ ← (if writable then
         _ ← modify (λ s, let p := pp s in
               set_pp (MkPipe (data p) (nread p) (nwrite p) (readopen p) 0) s);
         pwakeup CRead
       else
         _ ← modify (λ s, let p := pp s in
               set_pp (MkPipe (data p) (nread p) (nwrite p) 0 (writeopen p)) s);
         pwakeup CWrite);
  p ← gets pp;
  _ ← lock_release "pipe";
  mret ((readopen p =? 0) && (writeopen p =? 0)).

(** The fields [pipealloc] sets in the page it got. *)
Definition pipe_init (page : list Z) : pipe := MkPipe page 0 0 1 1.

(** ** The bytes in the buffer *)

Definition count (p : pipe) : Z := u32 (nwrite p - nread p).
Definition slot (p : pipe) (k : Z) : Z := default 0 (data p !! Z.to_nat (k mod PIPESIZE)).
Definition contents (p : pipe) : list Z := (λ k, slot p (nread p + k)) <$> range 0 (count p).

Record pipe_ok (p : pipe) : Prop := {
  ok_len : length (data p) = Z.to_nat PIPESIZE;
  ok_read : 0 ≤ nread p < 2 ^ 32;
  ok_write : 0 ≤ nwrite p < 2 ^ 32;
  ok_count : count p ≤ PIPESIZE
}.

Lemma is_empty_count p : pipe_ok p → is_empty p = (count p =? 0).
Proof.
  intros [_ Hr Hw _]. rw /is_empty /count /u32.
  destruct (Z.eqb_spec (nread p) (nwrite p)), (Z.eqb_spec ((nwrite p - nread p) mod 2 ^ 32) 0); try done.
  - rw e Z.sub_diag in n. done.
  - exfalso. Z.div_mod_to_equations. lia.
Qed.

Lemma is_full_count p : pipe_ok p → is_full p = (count p =? PIPESIZE).
Proof.
  intros [_ Hr Hw _]. rw /is_full /count /u32 /PIPESIZE.
  destruct (Z.eqb_spec (nwrite p) ((nread p + 512) mod 2 ^ 32)),
    (Z.eqb_spec ((nwrite p - nread p) mod 2 ^ 32) 512); try done;
    exfalso; Z.div_mod_to_equations; lia.
Qed.

Lemma count_nonneg p : 0 ≤ count p.
Proof. apply u32_range. Qed.

(** The counters wrap at a multiple of the buffer size. *)
Lemma wrap_slot k : u32 k mod PIPESIZE = k mod PIPESIZE.
Proof.
  rw /u32 /PIPESIZE. change (2 ^ 32) with (512 * 2 ^ 23).
  rw Z.rem_mul_r //. rw Z.mul_comm Z_mod_plus_full Z.mod_mod //.
Qed.

Lemma push_ok b p :
  pipe_ok p → is_full p = false →
  pipe_ok (push b p) ∧ contents (push b p) = contents p ++ [b].
Proof.
  intros Hok Hf. pose proof Hok as [Hl Hr Hw Hc]. rw is_full_count // in Hf.
  apply Z.eqb_neq in Hf. pose proof (count_nonneg p) as H0.
  assert (count (push b p) = count p + 1) as Ec.
  { rw /count /push /= /u32 /PIPESIZE in Hc Hf |- *. Z.div_mod_to_equations. lia. }
  split.
  - split; [by rw /push /= length_insert|done|apply u32_range|lia].
  - rw /contents Ec range_snoc // fmap_app /=. f_equal.
    + apply list_fmap_ext. intros j k Hk%list_elem_of_lookup_2.
      apply elem_of_range in Hk. rw /slot /push /=. f_equal.
      apply list_lookup_insert_ne. intros E.
      rw /count /u32 /PIPESIZE in Hc Hk E Hf. Z.div_mod_to_equations. lia.
    + do 2 f_equal. rw /slot /push /=.
      assert ((nread p + count p) mod PIPESIZE = nwrite p mod PIPESIZE) as ->.
      { rw /count -(wrap_slot (nread p + _)) /u32 Zplus_mod_idemp_r.
        replace (nread p + (nwrite p - nread p)) with (nwrite p) by lia.
        by rw (Z.mod_small (nwrite p)). }
      rw list_lookup_insert_eq //. rw Hl.
      assert (0 ≤ nwrite p mod PIPESIZE < PIPESIZE) by by apply Z.mod_pos_bound. lia.
Qed.

Lemma pop_ok p :
  pipe_ok p → is_empty p = false →
  pipe_ok (pop p) ∧ contents p = head p :: contents (pop p).
Proof.
  intros Hok He. pose proof Hok as [Hl Hr Hw Hc]. rw is_empty_count // in He.
  apply Z.eqb_neq in He. pose proof (count_nonneg p) as H0.
  assert (count (pop p) = count p - 1) as Ec.
  { rw /count /pop /= /u32 /PIPESIZE in Hc He |- *. Z.div_mod_to_equations. lia. }
  split.
  - split; [done|apply u32_range|done|lia].
  - rw /contents (range_cons 0); [lia|]. rw fmap_cons. f_equal.
    + by rw /slot /head Z.add_0_r.
    + rw Ec /range. change (0 + 1) with (1 + 0).
      replace (count p - (1 + 0)) with (count p - 1 - 0) by lia.
      rw -(fmap_add_seqZ 1 0) -list_fmap_compose. apply list_fmap_ext.
      intros _ k _. rw /slot /pop /=. do 3 f_equal.
      rw -(Zplus_mod_idemp_l (u32 _)) wrap_slot Zplus_mod_idemp_l. f_equal. lia.
Qed.

(** ** What the two loops do *)

Lemma pipewrite_loop_spec i killed n rest : ∀ s,
  pipe_ok (pp s) → plocks s = ["pipe"] →
  wp (pipewrite_loop i killed n rest) s (λ r s', ∃ done rest',
    rest = done ++ rest' ∧ plocks s' = [] ∧ pipe_ok (pp s') ∧
    contents (pp s') = contents (pp s) ++ done ∧
    nwrite (pp s') = u32 (nwrite (pp s) + Z.of_nat (length done)) ∧
    readopen (pp s') = readopen (pp s) ∧ writeopen (pp s') = writeopen (pp s) ∧
    ((r = Return n ∧ rest' = [] ∧ threads s' = pwoken CRead <$> threads s) ∨
     (r = Return (-1) ∧ is_full (pp s') = true ∧ threads s' = threads s ∧
        (readopen (pp s) = 0 ∨ killed = true)) ∨
     (r = Asleep (TWrite rest') ∧ is_full (pp s') = true ∧ readopen (pp s) ≠ 0 ∧ killed = false ∧
        threads s' = <[i := Thread (Some CWrite) (TWrite rest')]> (pwoken CRead <$> threads s)))).
Proof.
  induction rest as [|b rest IH]; intros s Hok Hl; cbn [pipewrite_loop].
  - rw /pwakeup. wp_steps. apply (wp_lock_release "pipe" []); [done|apply not_elem_of_nil|].
    wp_steps. exists [], []. rw (app_nil_r (contents _)) Z.add_0_r u32_small; [apply Hok|].
    split_and!; try done. by left.
  - wp_steps. destruct (is_full (pp s)) eqn:Hf.
    + destruct (Z.eqb_spec (readopen (pp s)) 0) as [Hr|Hr]; [|destruct killed]; simpl.
      1-2: wp_steps; apply (wp_lock_release "pipe" []); [done|apply not_elem_of_nil|]; wp_steps;
        exists [], (b :: rest); rw (app_nil_r (contents _)) Z.add_0_r u32_small; [apply Hok|];
        split_and!; try done; right; left; auto.
      rw /pwakeup /psleep. wp_steps.
      apply (wp_lock_release "pipe" []); [done|apply not_elem_of_nil|].
      wp_steps. exists [], (b :: rest). rw (app_nil_r (contents _)) Z.add_0_r u32_small; [apply Hok|].
      split_and!; try done. right; right. done.
    + wp_steps. destruct (push_ok b (pp s) Hok Hf) as [Hok' Hc'].
      eapply wp_mono; [apply (IH (set_pp (push b (pp s)) s)); done|].
      intros r s' (d&rest'&->&Hl'&Hokr&Hcr&Hnw&Hro&Hwo&Hcase).
      exists (b :: d), rest'. cbn [pp threads set_pp push nwrite] in *.
      split_and!; try done.
      * by rw Hcr Hc' -app_assoc.
      * rw Hnw /= /u32 Zplus_mod_idemp_l. f_equal. lia.
Qed.

Lemma piperead_copy_spec n : ∀ s,
  pipe_ok (pp s) →
  wp (piperead_copy n) s (λ l s', ∃ p',
    s' = set_pp p' s ∧ pipe_ok p' ∧ contents (pp s) = l ++ contents p' ∧
    readopen p' = readopen (pp s) ∧ writeopen p' = writeopen (pp s) ∧
    length l = Nat.min n (length (contents (pp s)))).
Proof.
  induction n as [|n IH]; intros s Hok; cbn [piperead_copy].
  { wp_steps. exists (pp s). split_and!; try done. by destruct s. }
  wp_steps. destruct (is_empty (pp s)) eqn:He.
  { wp_steps. exists (pp s). split_and!; try done; [by destruct s|].
    rw is_empty_count // in He. apply Z.eqb_eq in He. rw /contents He /=. lia. }
  destruct (pop_ok (pp s) Hok He) as [Hok' Hc]. wp_steps.
  eapply wp_mono; [by apply (IH (set_pp (pop (pp s)) s))|].
  intros l s' (p'&->&Hokp&Hcp&Hr&Hw&Hlen). wp_steps. exists p'.
  cbn [pp set_pp] in *. split_and!; try done.
  - by rw Hc Hcp.
  - rw Hc /= Hlen. lia.
Qed.

(** ** Interleavings *)

(** The pipe and its threads with the history of the bytes written and read. *)
Record hist := Hist { sys : psys; written : list Z; reads : list Z }.

(** The thread is idle once its call returned. *)
Definition after (i : nat) (r : result) (s : psys) : psys :=
  match r with
  | Return _ => set_threads (<[i := Thread None TIdle]> (threads s)) s
  | Asleep _ => s
  end.

Definition reading (t : thread) : bool := match work t with TRead _ => true | _ => false end.
Definition writing (t : thread) : bool := match work t with TWrite _ => true | _ => false end.

(** [calm]: no writer is killed while it writes.  A thread can only start a call
    on an end that is open, and an end is closed only when no thread uses it (the
    reference counts of file.c). *)
Inductive pipe_step (calm : bool) : hist → hist → Prop :=
| step_begin i w s h r :
    threads s !! i = Some (Thread None TIdle) →
    (reading (Thread None w) = true → readopen (pp s) ≠ 0) →
    (writing (Thread None w) = true → writeopen (pp s) ≠ 0) →
    pipe_step calm (Hist s h r) (Hist (set_threads (<[i := Thread None w]> (threads s)) s) h r)
| step_wake i c w s h r :
    threads s !! i = Some (Thread (Some c) w) →
    pipe_step calm (Hist s h r) (Hist (set_threads (<[i := Thread None w]> (threads s)) s) h r)
| step_write i rest killed n res s s' h r :
    threads s !! i = Some (Thread None (TWrite rest)) → (calm = true → killed = false) →
    pipewrite i killed n rest s = Ret res s' →
    pipe_step calm (Hist s h r)
      (Hist (after i res s')
         (h ++ take (Z.to_nat (u32 (nwrite (pp s') - nwrite (pp s)))) rest) r)
| step_read i n killed res l s s' h r :
    threads s !! i = Some (Thread None (TRead n)) →
    piperead i killed n s = Ret (res, l) s' →
    pipe_step calm (Hist s h r) (Hist (after i res s') h (r ++ l))
| step_close_read s s' b h r :
    (∀ i t, threads s !! i = Some t → reading t = false) →
    pipeclose false s = Ret b s' → pipe_step calm (Hist s h r) (Hist s' h r)
| step_close_write s s' b h r :
    (∀ i t, threads s !! i = Some t → writing t = false) →
    pipeclose true s = Ret b s' → pipe_step calm (Hist s h r) (Hist s' h r).

(** A sleeping reader has nothing to read and may still be written to; a sleeping
    writer has no room and may still be read from. *)
Definition sleeps_rightly (p : pipe) (t : thread) : Prop :=
  match asleep t with
  | Some CRead => reading t = true ∧ is_empty p = true ∧ writeopen p ≠ 0
  | Some CWrite => writing t = true ∧ is_full p = true ∧ readopen p ≠ 0
  | None => True
  end.

Record pipe_inv (x : hist) : Prop := {
  pv_ok : pipe_ok (pp (sys x));
  pv_locks : plocks (sys x) = [];
  pv_fifo : written x = reads x ++ contents (pp (sys x))
}.

Lemma length_contents p : pipe_ok p → Z.of_nat (length (contents p)) = count p.
Proof.
  intros _. rw /contents length_fmap /range length_seqZ. pose proof (count_nonneg p). lia.
Qed.

Lemma written_bytes p p' d rest' :
  pipe_ok p → pipe_ok p' → contents p' = contents p ++ d →
  nwrite p' = u32 (nwrite p + Z.of_nat (length d)) →
  take (Z.to_nat (u32 (nwrite p' - nwrite p))) (d ++ rest') = d.
Proof.
  intros Hok Hok' Hc Hn.
  assert (Z.of_nat (length d) ≤ PIPESIZE) as Hd.
  { pose proof (length_contents p' Hok') as E. rw Hc length_app in E.
    pose proof (ok_count _ Hok'). lia. }
  assert (u32 (nwrite p' - nwrite p) = Z.of_nat (length d)) as ->.
  { rw Hn /u32 /PIPESIZE in Hd |- *. pose proof (ok_write _ Hok).
    Z.div_mod_to_equations. lia. }
  by rw Nat2Z.id take_app_length.
Qed.

Lemma pipewrite_run i killed n rest s res s' :
  pipe_ok (pp s) → plocks s = [] → pipewrite i killed n rest s = Ret res s' →
  ∃ d rest', rest = d ++ rest' ∧ plocks s' = [] ∧ pipe_ok (pp s') ∧
    contents (pp s') = contents (pp s) ++ d ∧
    nwrite (pp s') = u32 (nwrite (pp s) + Z.of_nat (length d)) ∧
    readopen (pp s') = readopen (pp s) ∧ writeopen (pp s') = writeopen (pp s) ∧
    ((res = Return n ∧ rest' = [] ∧ threads s' = pwoken CRead <$> threads s) ∨
     (res = Return (-1) ∧ is_full (pp s') = true ∧ threads s' = threads s ∧
        (readopen (pp s) = 0 ∨ killed = true)) ∨
     (res = Asleep (TWrite rest') ∧ is_full (pp s') = true ∧ readopen (pp s) ≠ 0 ∧ killed = false ∧
        threads s' = <[i := Thread (Some CWrite) (TWrite rest')]> (pwoken CRead <$> threads s))).
Proof.
  intros Hok Hl Hrun.
  rw /pipewrite in Hrun. rw (bind_Ret _ _ _ tt (Psys (pp s) (threads s) ["pipe"])) in Hrun.
  { rw (@lock_acquire_run psys psys_HasLocks "pipe" s); [rw /= Hl; apply not_elem_of_nil|].
    by rw /= Hl. }
  destruct (wp_elim _ _ _ (pipewrite_loop_spec i killed n rest (Psys (pp s) (threads s) ["pipe"])
    Hok eq_refl)) as (r&s2&Hrun2&Hpost).
  rw Hrun in Hrun2. injection Hrun2 as <- <-. exact Hpost.
Qed.

Lemma piperead_run i killed n s res l s' :
  pipe_ok (pp s) → plocks s = [] → piperead i killed n s = Ret (res, l) s' →
  plocks s' = [] ∧ pipe_ok (pp s') ∧ contents (pp s) = l ++ contents (pp s') ∧
  readopen (pp s') = readopen (pp s) ∧ writeopen (pp s') = writeopen (pp s) ∧
  ((is_empty (pp s) = true ∧ writeopen (pp s) ≠ 0 ∧ pp s' = pp s ∧
     (res = Return (-1) ∧ threads s' = threads s ∨
      res = Asleep (TRead n) ∧
      threads s' = <[i := Thread (Some CRead) (TRead n)]> (threads s))) ∨
   ((is_empty (pp s) = false ∨ writeopen (pp s) = 0) ∧
     res = Return (Z.of_nat (length l)) ∧ threads s' = pwoken CWrite <$> threads s ∧
     length l = Nat.min (Z.to_nat n) (length (contents (pp s))))).
Proof.
  intros Hok Hl Hrun.
  assert (wp (piperead i killed n) s (λ r s',
    plocks s' = [] ∧ pipe_ok (pp s') ∧ contents (pp s) = r.2 ++ contents (pp s') ∧
    readopen (pp s') = readopen (pp s) ∧ writeopen (pp s') = writeopen (pp s) ∧
    ((is_empty (pp s) = true ∧ writeopen (pp s) ≠ 0 ∧ pp s' = pp s ∧
       (r.1 = Return (-1) ∧ threads s' = threads s ∨
        r.1 = Asleep (TRead n) ∧
        threads s' = <[i := Thread (Some CRead) (TRead n)]> (threads s))) ∨
     ((is_empty (pp s) = false ∨ writeopen (pp s) = 0) ∧
       r.1 = Return (Z.of_nat (length r.2)) ∧ threads s' = pwoken CWrite <$> threads s ∧
       length r.2 = Nat.min (Z.to_nat n) (length (contents (pp s))))))) as Hwp.
  { rw /piperead. wp_step. apply wp_lock_acquire; [rw /= Hl; apply not_elem_of_nil|].
    wp_steps. cbn [pp set_held psys_HasLocks held threads]. rw Hl.
    destruct (is_empty (pp s)) eqn:He, (Z.eqb_spec (writeopen (pp s)) 0) as [Hw|Hw]; simpl;
      try (wp_step; eapply wp_mono;
        [apply (piperead_copy_spec (Z.to_nat n) (Psys (pp s) (threads s) ["pipe"])); exact Hok|];
        intros l' s1 (p'&->&Hokp&Hc&Hr&Hwo&Hlen); rw /pwakeup; wp_steps;
        apply (wp_lock_release "pipe" []); [done|apply not_elem_of_nil|]; wp_steps;
        split_and!; try done; right; split_and!; auto).
    destruct killed.
    - wp_steps. apply (wp_lock_release "pipe" []); [done|apply not_elem_of_nil|].
      wp_steps. split_and!; try done. left. split_and!; auto.
    - rw /psleep. wp_steps. apply (wp_lock_release "pipe" []); [done|apply not_elem_of_nil|].
      wp_steps. split_and!; try done. left. split_and!; auto. }
  rw /wp Hrun in Hwp. exact Hwp.
Qed.

Lemma pipeclose_run w s b s' :
  plocks s = [] → pipeclose w s = Ret b s' →
  plocks s' = [] ∧
  pp s' = (if w then MkPipe (data (pp s)) (nread (pp s)) (nwrite (pp s)) (readopen (pp s)) 0
           else MkPipe (data (pp s)) (nread (pp s)) (nwrite (pp s)) 0 (writeopen (pp s))) ∧
  threads s' = pwoken (if w then CRead else CWrite) <$> threads s ∧
  b = (readopen (pp s') =? 0) && (writeopen (pp s') =? 0).
Proof.
  intros Hl Hrun.
  assert (wp (pipeclose w) s (λ b s', plocks s' = [] ∧
    pp s' = (if w then MkPipe (data (pp s)) (nread (pp s)) (nwrite (pp s)) (readopen (pp s)) 0
           else MkPipe (data (pp s)) (nread (pp s)) (nwrite (pp s)) 0 (writeopen (pp s))) ∧
    threads s' = pwoken (if w then CRead else CWrite) <$> threads s ∧
    b = (readopen (pp s') =? 0) && (writeopen (pp s') =? 0))) as Hwp.
  { rw /pipeclose. wp_step. apply wp_lock_acquire; [rw /= Hl; apply not_elem_of_nil|].
    destruct w; rw /pwakeup; wp_steps;
      (apply (wp_lock_release "pipe" []); [by rw /= Hl|apply not_elem_of_nil|]; wp_steps; done). }
  rw /wp Hrun in Hwp. exact Hwp.
Qed.

Lemma pipe_step_inv calm x y : pipe_inv x → pipe_step calm x y → pipe_inv y.
Proof.
  intros [Hok Hl Hf] Hst. destruct Hst as [| |i rest killed n res s s' h r Ht Hk Hrun|
    i n killed res l s s' h r Ht Hrun|s s' b h r Ht Hrun|s s' b h r Ht Hrun]; simpl in *.
  - by split.
  - by split.
  - destruct (pipewrite_run _ _ _ _ _ _ _ Hok Hl Hrun)
      as (d&rest'&->&Hl'&Hok'&Hc&Hn&_&_&_).
    assert (pp (after i res s') = pp s') as Ep by by destruct res.
    split; simpl; rw ?Ep; [done|by destruct res|].
    rw (written_bytes (pp s) (pp s') d rest') // Hc Hf. by rw app_assoc.
  - destruct (piperead_run _ _ _ _ _ _ _ Hok Hl Hrun) as (Hl'&Hok'&Hc&_).
    assert (pp (after i res s') = pp s') as Ep by by destruct res.
    split; simpl; rw ?Ep; [done|by destruct res|]. by rw Hf Hc app_assoc.
  - destruct (pipeclose_run _ _ _ _ Hl Hrun) as (Hl'&Ep&_&_). split; simpl; rw ?Ep; try done.
    by destruct Hok; split.
  - destruct (pipeclose_run _ _ _ _ Hl Hrun) as (Hl'&Ep&_&_). split; simpl; rw ?Ep; try done.
    by destruct Hok; split.
Qed.

(** ** Sleepers *)

(** Threads in a call use an open end, and sleep only while they cannot proceed. *)
Definition thread_ok (p : pipe) (t : thread) : Prop :=
  (reading t = true → readopen p ≠ 0) ∧ (writing t = true → writeopen p ≠ 0) ∧
  sleeps_rightly p t.
Definition threads_ok (s : psys) : Prop :=
  ∀ i t, threads s !! i = Some t → thread_ok (pp s) t.

Lemma pwoken_awake c t : asleep (pwoken c t) ≠ Some c.
Proof. rw /pwoken. by case_bool_decide. Qed.
Lemma pwoken_work c t : work (pwoken c t) = work t.
Proof. rw /pwoken. by case_bool_decide. Qed.
Lemma pwoken_other c t c' : asleep (pwoken c t) = Some c' → asleep t = Some c' ∧ c' ≠ c.
Proof. rw /pwoken. case_bool_decide; [done|]. simpl. intros E. split; congruence. Qed.

(** The pipe changed so that sleepers on channels other than [c] still sleep rightly. *)
Lemma threads_ok_wake c p p' (ts : gmap nat thread) :
  (∀ i t, ts !! i = Some t → thread_ok p t) →
  (∀ t, (∃ i, ts !! i = Some t) → asleep t ≠ Some c → thread_ok p t → thread_ok p' t) →
  (∀ t, (∃ i, ts !! i = Some t) → thread_ok p t →
     (reading t = true → readopen p' ≠ 0) ∧ (writing t = true → writeopen p' ≠ 0)) →
  ∀ i t, (pwoken c <$> ts) !! i = Some t → thread_ok p' t.
Proof.
  intros Hts Hkeep Hopen i t. rw lookup_fmap.
  destruct (ts !! i) as [t0|] eqn:E; [|done]. intros [= <-].
  rw /pwoken. case_bool_decide as Hc; [|by apply Hkeep; eauto].
  destruct (Hopen t0 ltac:(eauto) (Hts i t0 E)) as [H1 H2]. done.
Qed.

Lemma threads_ok_insert p (ts : gmap nat thread) i t0 :
  (∀ j t, ts !! j = Some t → thread_ok p t) → thread_ok p t0 →
  ∀ j t, <[i := t0]> ts !! j = Some t → thread_ok p t.
Proof. intros Hts H0 j t [(_&<-)|[_ ?]]%lookup_insert_Some; eauto. Qed.

Lemma idle_ok p : thread_ok p (Thread None TIdle).
Proof. done. Qed.

Lemma full_stays p p' d :
  pipe_ok p → pipe_ok p' → contents p' = contents p ++ d →
  is_full p = true → is_full p' = true.
Proof.
  intros Hok Hok' Hc. rw !is_full_count // !Z.eqb_eq. intros E.
  pose proof (length_contents p Hok). pose proof (length_contents p' Hok') as E'.
  rw Hc length_app in E'. pose proof (ok_count _ Hok'). lia.
Qed.

Lemma write_threads_ok s i killed n rest res s' :
  pipe_ok (pp s) → plocks s = [] → threads_ok s →
  threads s !! i = Some (Thread None (TWrite rest)) → killed = false →
  pipewrite i killed n rest s = Ret res s' → threads_ok (after i res s').
Proof.
  intros Hok Hl Hts Hi -> Hrun.
  destruct (pipewrite_run _ _ _ _ _ _ _ Hok Hl Hrun)
    as (d&rest'&->&Hl'&Hok'&Hc&Hn&Hro&Hwo&Hcase).
  pose proof (Hts i _ Hi) as (_&Hwopen&_). specialize (Hwopen eq_refl).
  assert (∀ t, asleep t ≠ Some CRead → thread_ok (pp s) t → thread_ok (pp s') t) as Hkeep.
  { intros t Hne (H1&H2&H3). rw /thread_ok Hro Hwo. split_and!; [done|done|].
    rw /sleeps_rightly in H3 |- *. destruct (asleep t) as [[]|]; [done| |done].
    destruct H3 as (?&?&?). split_and!; [done|by apply (full_stays (pp s) (pp s') d)|congruence]. }
  assert (∀ j t, (pwoken CRead <$> threads s) !! j = Some t → thread_ok (pp s') t) as Hwoken.
  { apply (threads_ok_wake CRead (pp s)); [done|auto|].
    intros t _ (?&?&_). by rw Hro Hwo. }
  destruct Hcase as [(->&->&E)|[(->&_&E&[Hr0|?])|(->&Hf&Hr&_&E)]]; try done;
    rw /threads_ok /after; cbn [threads set_threads pp]; rw ?E.
  - by apply threads_ok_insert.
  - apply threads_ok_insert; [|done]. intros j t Hj.
    pose proof (Hts j t Hj) as Hok_t. apply Hkeep; [|done].
    intros Hs. destruct Hok_t as (Hrd&_&Hsl). rw /sleeps_rightly Hs in Hsl.
    destruct Hsl as (Hrt&_). by apply Hrd.
  - apply threads_ok_insert; [done|]. split_and!; simpl; [done|congruence|].
    split_and!; [done|done|congruence].
Qed.

Lemma read_threads_ok s i killed n res l s' :
  pipe_ok (pp s) → plocks s = [] → threads_ok s →
  threads s !! i = Some (Thread None (TRead n)) →
  piperead i killed n s = Ret (res, l) s' → threads_ok (after i res s').
Proof.
  intros Hok Hl Hts Hi Hrun.
  destruct (piperead_run _ _ _ _ _ _ _ Hok Hl Hrun) as (Hl'&Hok'&Hc&Hro&Hwo&Hcase).
  pose proof (Hts i _ Hi) as (Hropen&_). specialize (Hropen eq_refl).
  destruct Hcase as [(He&Hw&Ep&[(->&E)|(->&E)])|(Hne&->&E&_)];
    rw /threads_ok /after; cbn [threads set_threads pp]; rw ?E ?Ep.
  - by apply threads_ok_insert.
  - apply threads_ok_insert; [done|]. split_and!; simpl; done.
  - apply threads_ok_insert; [|done].
    apply (threads_ok_wake CWrite (pp s)); [done| |].
    + intros t _ Hns (H1&H2&H3). rw /thread_ok Hro Hwo. split_and!; [done|done|].
      rw /sleeps_rightly in H3 |- *. destruct (asleep t) as [[]|]; [|done|done].
      destruct H3 as (?&?&?). destruct Hne; congruence.
    + intros t _ (?&?&_). by rw Hro Hwo.
Qed.

Lemma close_threads_ok s (w : bool) b s' :
  plocks s = [] → threads_ok s →
  (∀ i t, threads s !! i = Some t → (if w then writing t else reading t) = false) →
  pipeclose w s = Ret b s' → threads_ok s'.
Proof.
  intros Hl Hts Huse Hrun. destruct (pipeclose_run _ _ _ _ Hl Hrun) as (_&Ep&E&_).
  rw /threads_ok E. apply (threads_ok_wake _ (pp s)); [done| |].
  - intros t [i Hi] Hns (H1&H2&H3). pose proof (Huse i t Hi) as Hu. rw Ep.
    rw /thread_ok /sleeps_rightly in H1 H2 H3 |- *.
    destruct w; simpl; (split_and!; [done || congruence|done || congruence|]);
      destruct (asleep t) as [[]|]; try done; destruct H3 as (?&?&?); congruence.
  - intros t [i Hi] (H1&H2&_). pose proof (Huse i t Hi) as Hu. rw Ep.
    destruct w; simpl; split; done || congruence.
Qed.

Lemma step_threads_ok x y :
  pipe_inv x → threads_ok (sys x) → pipe_step true x y → threads_ok (sys y).
Proof.
  intros [Hok Hl _] Hts Hst. destruct Hst as [i w s h r Ht Hr Hw|i c w s h r Ht|
    i rest killed n res s s' h r Ht Hk Hrun|i n killed res l s s' h r Ht Hrun|
    s s' b h r Ht Hrun|s s' b h r Ht Hrun]; simpl in *.
  - exact (threads_ok_insert (pp s) (threads s) i _ Hts (conj Hr (conj Hw I))).
  - destruct (Hts i _ Ht) as (H1&H2&_).
    exact (threads_ok_insert (pp s) (threads s) i (Thread None w) Hts (conj H1 (conj H2 I))).
  - apply (write_threads_ok s i killed n rest res s'); auto.
  - apply (read_threads_ok s i killed n res l s'); auto.
  - by apply (close_threads_ok s false b).
  - by apply (close_threads_ok s true b).
Qed.

(** ** Main results *)

(** A fresh pipe: the page [pipealloc] got, both ends open, threads idle. *)
Definition pipe_start (page : list Z) (ts : gmap nat thread) : hist :=
  Hist (Psys (pipe_init page) ts []) [] [].

Lemma pipe_start_inv page ts :
  length page = Z.to_nat PIPESIZE → pipe_inv (pipe_start page ts).
Proof. intros Hp. split; [|done|done]. split; done. Qed.

(** C21: a pipe is a FIFO.  After any interleaving of reads, writes, wake-ups and
    closes, for any number of threads and however often the 32-bit counters wrapped
    around, the bytes read so far followed by the bytes still in the buffer are
    exactly the bytes written, in order; the buffer never holds more than PIPESIZE
    bytes. *)
Theorem pipe_is_fifo page ts calm x :
  length page = Z.to_nat PIPESIZE → rtc (pipe_step calm) (pipe_start page ts) x →
  written x = reads x ++ contents (pp (sys x)) ∧ Z.of_nat (length (contents (pp (sys x)))) ≤ PIPESIZE.
Proof.
  intros Hp Hr.
  assert (pipe_inv x) as [Hok _ Hf].
  { pose proof (pipe_start_inv page ts Hp) as H0. remember (pipe_start page ts) as x0 eqn:E.
    clear E. induction Hr; eauto using pipe_step_inv. }
  split; [done|]. rw length_contents //. apply Hok.
Qed.


(** A writer that is killed when the buffer has become full returns -1 without
    waking the readers: a reader keeps sleeping on a full pipe. *)
Theorem killed_writer_leaves_reader_asleep i n bytes s s' res :
  pipe_ok (pp s) → plocks s = [] → (Z.to_nat PIPESIZE < length bytes)%nat →
  is_empty (pp s) = true → pipewrite i true n bytes s = Ret res s' →
  res = Return (-1) ∧ threads s' = threads s ∧ is_full (pp s') = true.
Proof.
  intros Hok Hl Hlen He Hrun.
  destruct (pipewrite_run _ _ _ _ _ _ _ Hok Hl Hrun)
    as (d&rest'&->&Hl'&Hok'&Hc&Hn&Hro&Hwo&Hcase).
  destruct Hcase as [(_&->&_)|[(->&Hf&E&_)|(_&_&_&?&_)]]; [|done|done].
  exfalso. pose proof (length_contents _ Hok') as E. rw Hc length_app in E.
  pose proof (ok_count _ Hok'). rw app_nil_r in Hlen. rw /PIPESIZE in H Hlen. lia.
Qed.

(** ** Witnesses *)

Definition demo_page : list Z := replicate 512 0.
Definition demo_threads : gmap nat thread :=
  {[ 0%nat := Thread None TIdle; 1%nat := Thread None TIdle ]}.

Lemma demo_steps calm :
  ∃ x, rtc (pipe_step calm) (pipe_start demo_page demo_threads) x ∧ written x = [65; 66] ∧
       reads x = [65] ∧ threads (sys x) !! 0%nat = Some (Thread None TIdle).
Proof.
  eexists. split.
  - eapply rtc_l; [apply (step_begin _ 0 (TWrite [65; 66])); vm_compute; congruence|].
    eapply rtc_l; [eapply (step_write _ 0 [65; 66] false 2); [reflexivity|reflexivity|reflexivity]|].
    eapply rtc_l; [apply (step_begin _ 1 (TRead 1)); vm_compute; congruence|].
    eapply rtc_l; [eapply (step_read _ 1 1 false); reflexivity|].
    apply rtc_refl.
  - vm_compute. done.
Qed.

Lemma pipe_is_fifo_witness :
  ∃ x, written x = [65; 66] ∧ reads x = [65] ∧ [65; 66] = [65] ++ contents (pp (sys x)).
Proof.
  destruct (demo_steps false) as (x&Hr&Hw&Hrd&_). exists x.
  destruct (pipe_is_fifo demo_page demo_threads false x eq_refl Hr) as [H _].
  split; [exact Hw|]. split; [exact Hrd|]. rewrite -Hw -Hrd. exact H.
Defined.


(** A reader asleep on the empty pipe, and a writer of 513 bytes. *)
Definition demo_asleep : psys :=
  Psys (pipe_init demo_page) {[ 0%nat := Thread (Some CRead) (TRead 1) ]} [].

Lemma killed_writer_leaves_reader_asleep_witness :
  ∃ s' res, pipewrite 1 true 513 (replicate 513 65) demo_asleep = Ret res s' ∧
    res = Return (-1) ∧ is_full (pp s') = true ∧
    threads s' !! 0%nat = Some (Thread (Some CRead) (TRead 1)).
Proof.
  destruct (pipewrite 1 true 513 (replicate 513 65) demo_asleep) as [res s'| | |] eqn:E;
    [|vm_compute in E; discriminate E..].
  exists s', res. split; [reflexivity|].
  destruct (killed_writer_leaves_reader_asleep 1 513 (replicate 513 65) demo_asleep s' res)
    as (H1&H2&H3).
  - split; [reflexivity|vm_compute; split; congruence..|vm_compute; congruence].
  - reflexivity.
  - rewrite length_replicate. vm_compute. lia.
  - reflexivity.
  - exact E.
  - split; [exact H1|]. split; [exact H3|]. rewrite H2. reflexivity.
Defined.
