(* ===== verification/Sleeplock.v ===== *)
(** * Sleep locks (xv6/sleeplock.c, sleeplock.h).

    [initsleeplock], [acquiresleep], [releasesleep] and [holdingsleep] with their
    inner spinlock, and the processes that use the lock.  A process is identified by
    its pid; one that found the lock taken sleeps on it ([Sleeping]) until
    [releasesleep] wakes it up, and then runs the loop of [acquiresleep] again.
    [sleep_step] interleaves the critical sections of all processes.  The theorems:
    mutual exclusion, no lost wake-up, and [holdingsleep] is accurate. *)
From S2P Require Import Prelude Spinlock.
Local Open Scope Z_scope.

Record sleeplock := Sleeplock { sl_locked : Z; sl_name : string; sl_pid : Z }.

Inductive user := Outside | Sleeping | Awake | Inside.
#[global] Instance user_eq_dec : EqDecision user.
Proof. solve_decision. Defined.

Record slsys := Slsys { sl : sleeplock; users : gmap Z user; slheld : list string }.

#[global] Program Instance slsys_HasLocks : HasLocks slsys :=
  {| held := slheld; set_held := λ h s, Slsys (sl s) (users s) h |}.
Next Obligation. done. Qed.

Definition set_sl (l : sleeplock) (s : slsys) : slsys := Slsys l (users s) (slheld s).
Definition set_user (pid : Z) (u : user) (s : slsys) : slsys :=
  Slsys (sl s) (<[pid := u]> (users s)) (slheld s).

Definition initsleeplock (name : string) (s : slsys) : slsys :=
  set_sl (Sleeplock 0 name 0) s.

(** [wakeup(lk)]: every process asleep on the lock runs again. *)
Definition wake (u : user) : user := if bool_decide (u = Sleeping) then Awake else u.

(** [me] is [myproc()->pid].  [false]: the process went to sleep on the lock, with
    the inner lock released; it calls [acquiresleep] again when it wakes up. *)
Definition acquiresleep (me : Z) : K slsys bool :=
  _ ← lock_acquire "sleep lock";
  l ← gets sl;
  if negb (sl_locked l =? 0) then
    _ ← modify (set_user me Sleeping);
    _ ← lock_release "sleep lock";
    mret false
  else
    _ ← modify (set_sl (Sleeplock 1 (sl_name l) me));
    _ ← lock_release "sleep lock";
    _ ← modify (set_user me Inside);
    mret true.

Definition releasesleep (me : Z) : K slsys unit :=
  _ ← lock_acquire "sleep lock";
  l ← gets sl;
  _ ← modify (set_sl (Sleeplock 0 (sl_name l) 0));
  _ ← modify (λ s, Slsys (sl s) (wake <$> users s) (slheld s));
  _ ← lock_release "sleep lock";
  modify (set_user me Outside).

Definition holdingsleep (me : Z) : K slsys bool :=
  _ ← lock_acquire "sleep lock";
  l ← gets sl;
  _ ← lock_release "sleep lock";
  mret (negb (sl_locked l =? 0) && (sl_pid l =? me)).

(** ** Interleavings *)

Inductive sleep_step (s : slsys) : slsys → Prop :=
| step_acquire p b s' :
    users s !! p = Some Outside ∨ users s !! p = Some Awake →
    acquiresleep p s = Ret b s' → sleep_step s s'
| step_release p s' :
    users s !! p = Some Inside → releasesleep p s = Ret tt s' → sleep_step s s'
| step_spurious p :
    users s !! p = Some Sleeping → sleep_step s (set_user p Awake s).

Record sleep_inv (s : slsys) : Prop := {
  si_held : slheld s = [];
  si_in : ∀ p, users s !! p = Some Inside ↔ sl_locked (sl s) ≠ 0 ∧ sl_pid (sl s) = p;
  si_sleep : ∀ p, users s !! p = Some Sleeping → sl_locked (sl s) ≠ 0
}.

Lemma acquiresleep_run me s :
  slheld s = [] →
  acquiresleep me s =
    if sl_locked (sl s) =? 0
    then Ret true (Slsys (Sleeplock 1 (sl_name (sl s)) me) (<[me := Inside]> (users s)) [])
    else Ret false (Slsys (sl s) (<[me := Sleeping]> (users s)) []).
Proof.
  intros Hh. destruct s as [l us h]; simpl in *; subst h.
  destruct (sl_locked l =? 0) eqn:E; apply wp_eq; rw /acquiresleep; wp_step;
    (apply wp_lock_acquire; [apply not_elem_of_nil|]); wp_steps; simpl; rw E; simpl; wp_steps;
    (apply (wp_lock_release "sleep lock" []); [done|apply not_elem_of_nil|]); wp_steps; done.
Qed.

Lemma releasesleep_run me s :
  slheld s = [] →
  releasesleep me s =
    Ret tt (Slsys (Sleeplock 0 (sl_name (sl s)) 0) (<[me := Outside]> (wake <$> users s)) []).
Proof. intros Hh. destruct s as [l us h]; simpl in *; subst h. reflexivity. Qed.

Lemma holdingsleep_run me s :
  slheld s = [] →
  holdingsleep me s = Ret (negb (sl_locked (sl s) =? 0) && (sl_pid (sl s) =? me)) s.
Proof. intros Hh. destruct s as [l us h]; simpl in *; subst h. reflexivity. Qed.

Lemma wake_lookup (us : gmap Z user) p u :
  (wake <$> us) !! p = Some u → u ≠ Sleeping ∧ (u = Inside → us !! p = Some Inside).
Proof.
  rw lookup_fmap. destruct (us !! p) as [u0|]; [|done]. intros [= <-].
  rw /wake. case_bool_decide; split; simpl; congruence.
Qed.

Lemma sleep_step_inv s s' : sleep_inv s → sleep_step s s' → sleep_inv s'.
Proof.
  intros [Hh Hin Hsl] [p b s1 Hp Hrun|p s1 Hp Hrun|p Hp].
  - assert (users s !! p ≠ Some Inside) as Hni by (destruct Hp; congruence).
    rw acquiresleep_run // in Hrun. destruct (Z.eqb_spec (sl_locked (sl s)) 0) as [E|E];
      injection Hrun as <- <-; split; simpl; [done| | |done| |].
    + intros q. rw lookup_insert_Some. split.
      * intros [[-> _]|[Hne Hq]]; [done|]. by apply Hin in Hq as [? _].
      * intros [_ ->]. by left.
    + done.
    + intros q. rw lookup_insert_Some. split.
      * intros [[_ ?]|[_ Hq]]; [done|]. by apply Hin.
      * intros Hq. right. apply Hin in Hq. split; [congruence|done].
    + done.
  - rw releasesleep_run // in Hrun. injection Hrun as <-. split; simpl; [done| |].
    + intros q. rw lookup_insert_Some. split; [|by intros [? _]].
      intros [[_ ?]|[Hne Hq]]; [done|]. apply wake_lookup in Hq as [_ Hq].
      specialize (Hq eq_refl). apply Hin in Hq as [_ <-]. apply Hin in Hp as [_ ?]. congruence.
    + intros q. rw lookup_insert_Some. intros [[_ ?]|[_ Hq]]; [done|].
      by apply wake_lookup in Hq as [? _].
  - split; simpl; [done| |].
    + intros q. rw lookup_insert_Some -Hin. split.
      * by intros [[_ ?]|[_ ?]].
      * intros Hq. right. split; [congruence|done].
    + intros q. rw lookup_insert_Some. intros [[_ ?]|[_ Hq]]; [done|]. eauto.
Qed.

(** A fresh lock: nobody inside, nobody asleep. *)
Definition sleep_start (name : string) (us : gmap Z user) : slsys :=
  initsleeplock name (Slsys (Sleeplock 0 "" 0) us []).

Lemma sleep_reachable name us s :
  (∀ p u, us !! p = Some u → u = Outside) → rtc sleep_step (sleep_start name us) s → sleep_inv s.
Proof.
  intros Hus Hr.
  assert (sleep_inv (sleep_start name us)) as H0.
  { split; simpl; [done| |].
    - intros p. split; [by intros ?%Hus|by intros [? _]].
    - by intros p ?%Hus. }
  remember (sleep_start name us) as s0 eqn:E. clear E.
  induction Hr; eauto using sleep_step_inv.
Qed.

(** C22: sleep locks give mutual exclusion and lose no wake-up: under every
    interleaving at most one process is inside, it is the one [holdingsleep]
    answers true for, and whenever the lock is free nobody sleeps on it. *)
Theorem sleeplock_correct name us s :
  (∀ p u, us !! p = Some u → u = Outside) → rtc sleep_step (sleep_start name us) s →
  (∀ p q, users s !! p = Some Inside → users s !! q = Some Inside → p = q) ∧
  (∀ p, holdingsleep p s = Ret (bool_decide (users s !! p = Some Inside)) s) ∧
  (sl_locked (sl s) = 0 → ∀ p, users s !! p ≠ Some Sleeping).
Proof.
  intros Hus Hr. destruct (sleep_reachable name us s Hus Hr) as [Hh Hin Hsl]. split_and!.
  - intros p q [_ <-]%Hin [_ <-]%Hin. done.
  - intros p. rw holdingsleep_run //. f_equal. symmetry.
    destruct (Z.eqb_spec (sl_locked (sl s)) 0), (Z.eqb_spec (sl_pid (sl s)) p); simpl;
      rw ?bool_decide_eq_true ?bool_decide_eq_false Hin; naive_solver.
  - intros E p Hp. by apply (Hsl p).
Qed.

Lemma sleeplock_correct_witness :
  ∃ s, rtc sleep_step (sleep_start "buffer" {[ 1 := Outside; 2 := Outside ]}) s ∧
       users s !! 1 = Some Inside ∧ users s !! 2 = Some Sleeping ∧
       holdingsleep 1 s = Ret true s.
Proof.
  set (us := {[ 1 := Outside; 2 := Outside ]} : gmap Z user).
  set (s1 := Slsys (Sleeplock 1 "buffer" 1) (<[1 := Inside]> us) []).
  set (s2 := Slsys (Sleeplock 1 "buffer" 1) (<[2 := Sleeping]> (<[1 := Inside]> us)) []).
  assert (rtc sleep_step (sleep_start "buffer" us) s2) as Hr.
  { eapply rtc_l; [apply (step_acquire _ 1 true s1); [left; reflexivity|reflexivity]|].
    eapply rtc_l; [apply (step_acquire _ 2 false s2); [left; reflexivity|reflexivity]|].
    apply rtc_refl. }
  exists s2. split; [exact Hr|]. split; [reflexivity|]. split; [reflexivity|].
  destruct (sleeplock_correct "buffer" us s2) as (_&H&_).
  - intros p u Hp. unfold us in Hp. apply lookup_insert_Some in Hp as [[_ <-]|[_ Hp]]; [reflexivity|].
    apply lookup_singleton_Some in Hp as [_ <-]. reflexivity.
  - exact Hr.
  - exact (H 1).
Defined.
