(* ===== verification/Layout.v ===== *)
(** * Structures on disk blocks (xv6/fs.h, the loads and stores of log.c and fs.c).

    A block is a list of bytes; [slice] and [splice] read and overwrite a part of
    it.  Integers are little-endian.  The structures are those of fs.h, at the
    offsets the compiler gives their fields. *)
From S2P Require Import Prelude.
Local Open Scope Z_scope.

(** ** Parts of a block *)

Definition slice (off n : nat) (d : list Z) : list Z := take n (drop off d).
Definition splice (off : nat) (v d : list Z) : list Z := take off d ++ v ++ drop (off + length v) d.

Lemma length_slice off n d : (off + n ≤ length d)%nat → length (slice off n d) = n.
Proof. intros. rw /slice length_take length_drop. lia. Qed.

Lemma length_splice off v d : (off + length v ≤ length d)%nat → length (splice off v d) = length d.
Proof. intros. rw /splice !length_app length_take length_drop. lia. Qed.

Lemma lookup_splice off v d i :
  (off + length v ≤ length d)%nat →
  splice off v d !! i = if decide (off ≤ i < off + length v)%nat then v !! (i - off)%nat else d !! i.
Proof.
  intros Hlen. rw /splice. assert (length (take off d) = off) as Ht by (rw length_take; lia).
  case_decide as Hi.
  - rw lookup_app_r; [lia|]. rw Ht lookup_app_l //. lia.
  - destruct (decide (i < off)%nat) as [Hlt|Hge].
    + rw lookup_app_l; [lia|]. by rw lookup_take_lt.
    + rw lookup_app_r; [lia|]. rw Ht lookup_app_r; [lia|]. rw lookup_drop. f_equal. lia.
Qed.

Lemma lookup_slice off n d i :
  slice off n d !! i = if decide (i < n)%nat then d !! (off + i)%nat else None.
Proof.
  rw /slice. case_decide.
  - rw lookup_take_lt // lookup_drop //.
  - rw lookup_take_ge //. lia.
Qed.

Lemma slice_splice_eq off v d :
  (off + length v ≤ length d)%nat → slice off (length v) (splice off v d) = v.
Proof.
  intros Hlen. apply list_eq. intros i. rw lookup_slice. case_decide as Hi.
  - rw lookup_splice // decide_True; [lia|]. f_equal. lia.
  - symmetry. apply lookup_ge_None. lia.
Qed.

Lemma slice_splice_ne off v d o n :
  (off + length v ≤ length d)%nat → (o + n ≤ off ∨ off + length v ≤ o)%nat →
  slice o n (splice off v d) = slice o n d.
Proof.
  intros Hlen Hd. apply list_eq. intros i. rw !lookup_slice. case_decide as Hi; [|done].
  rw lookup_splice // decide_False //. lia.
Qed.

(** A part inside the overwritten one. *)
Lemma slice_splice_in off v d o n :
  (off + length v ≤ length d)%nat → (off ≤ o)%nat → (o + n ≤ off + length v)%nat →
  slice o n (splice off v d) = slice (o - off) n v.
Proof.
  intros Hlen Ho Hn. apply list_eq. intros i. rw !lookup_slice. case_decide as Hi; [|done].
  rw lookup_splice // decide_True; [lia|]. f_equal. lia.
Qed.

Lemma slice_all d : slice 0 (length d) d = d.
Proof. rw /slice drop_0. by apply firstn_all. Qed.

(** ** Little-endian integers *)

Fixpoint le (n : nat) (v : Z) : list Z :=
  match n with O => [] | S k => u8 v :: le k (v / 256) end.
Fixpoint unle (l : list Z) : Z :=
  match l with [] => 0 | b :: l' => u8 b + 256 * unle l' end.

Lemma length_le n v : length (le n v) = n.
Proof. revert v. induction n as [|n IH]; intros v; [done|]. simpl. by rw IH. Qed.

Lemma unle_le n : ∀ v, 0 ≤ v < 256 ^ Z.of_nat n → unle (le n v) = v.
Proof.
  induction n as [|n IH]; intros v Hv; simpl; [simpl in Hv; lia|].
  rw Nat2Z.inj_succ Z.pow_succ_r in Hv; [lia|].
  rw IH; [Z.div_mod_to_equations; nia|].
  rw (u8_small (u8 v)); [apply u8_range|]. rw /u8. Z.div_mod_to_equations. lia.
Qed.

Lemma unle_range l : 0 ≤ unle l < 256 ^ Z.of_nat (length l).
Proof.
  induction l as [|b l IH]; [simpl; lia|]. cbn [unle length].
  rw Nat2Z.inj_succ Z.pow_succ_r; [lia|]. pose proof (u8_range b). lia.
Qed.

Lemma le_unle l : Forall (λ b, 0 ≤ b < 256) l → le (length l) (unle l) = l.
Proof.
  induction 1 as [|b l Hb Hl IH]; [done|]. simpl. rw (u8_small b) //.
  assert (u8 (b + 256 * unle l) = b) as -> by (rw /u8; Z.div_mod_to_equations; lia).
  assert ((b + 256 * unle l) / 256 = unle l) as -> by (Z.div_mod_to_equations; lia).
  by rw IH.
Qed.

Definition get16 (o : nat) (d : list Z) : Z := unle (slice o 2 d).
Definition get32 (o : nat) (d : list Z) : Z := unle (slice o 4 d).
Definition put16 (o : nat) (v : Z) (d : list Z) : list Z := splice o (le 2 v) d.
Definition put32 (o : nat) (v : Z) (d : list Z) : list Z := splice o (le 4 v) d.

Lemma length_put16 o v d : (o + 2 ≤ length d)%nat → length (put16 o v d) = length d.
Proof. intros. by apply length_splice. Qed.
Lemma length_put32 o v d : (o + 4 ≤ length d)%nat → length (put32 o v d) = length d.
Proof. intros. by apply length_splice. Qed.

Lemma get32_put32_eq o v d :
  (o + 4 ≤ length d)%nat → 0 ≤ v < 2 ^ 32 → get32 o (put32 o v d) = v.
Proof.
  intros Hl Hv. rw /get32 /put32. change 4%nat with (length (le 4 v)) at 1.
  rw slice_splice_eq //. by apply unle_le.
Qed.
Lemma get32_put32_ne o o' v d :
  (o' + 4 ≤ length d)%nat → (o + 4 ≤ o' ∨ o' + 4 ≤ o)%nat → get32 o (put32 o' v d) = get32 o d.
Proof. intros Hl Hd. rw /get32 /put32 slice_splice_ne //. Qed.

Lemma get16_put16_eq o v d :
  (o + 2 ≤ length d)%nat → 0 ≤ v < 2 ^ 16 → get16 o (put16 o v d) = v.
Proof.
  intros Hl Hv. rw /get16 /put16. change 2%nat with (length (le 2 v)) at 1.
  rw slice_splice_eq //. by apply unle_le.
Qed.

Lemma get32_range o d : (o + 4 ≤ length d)%nat → 0 ≤ get32 o d < 2 ^ 32.
Proof.
  intros. pose proof (unle_range (slice o 4 d)) as Hr. rw length_slice // in Hr.
Qed.

(** ** The super block *)

Record superblock := Superblock {
  sb_size : Z;
  sb_nblocks : Z;
  sb_ninodes : Z;
  sb_nlog : Z;
  sb_logstart : Z;
  sb_inodestart : Z;
  sb_bmapstart : Z
}.

Definition get_superblock (d : list Z) : superblock :=
  Superblock (get32 0 d) (get32 4 d) (get32 8 d) (get32 12 d) (get32 16 d) (get32 20 d) (get32 24 d).
Definition put_superblock (sb : superblock) (d : list Z) : list Z :=
  put32 24 (sb_bmapstart sb) (put32 20 (sb_inodestart sb) (put32 16 (sb_logstart sb)
    (put32 12 (sb_nlog sb) (put32 8 (sb_ninodes sb) (put32 4 (sb_nblocks sb)
      (put32 0 (sb_size sb) d)))))).

(** ** Inodes on disk *)

Definition NDIRECT : Z := 12.
Definition NINDIRECT : Z := 128.
Definition MAXFILE : Z := NDIRECT + NINDIRECT.
(** sizeof(struct dinode), and how many fit a block. *)
Definition DINODE : nat := 64.
Definition IPB : Z := 8.

Record dinode := Dinode {
  di_type : Z;
  di_major : Z;
  di_minor : Z;
  di_nlink : Z;
  di_size : Z;
  di_addrs : list Z
}.

Definition get_dinode (d : list Z) : dinode :=
  Dinode (s16 (get16 0 d)) (s16 (get16 2 d)) (s16 (get16 4 d)) (s16 (get16 6 d)) (get32 8 d)
    ((λ i, get32 (12 + 4 * i) d) <$> seq 0 13).
Definition put_dinode (di : dinode) : list Z :=
  le 2 (di_type di) ++ le 2 (di_major di) ++ le 2 (di_minor di) ++ le 2 (di_nlink di) ++
  le 4 (di_size di) ++ mjoin (le 4 <$> di_addrs di).

Record dinode_ok (di : dinode) : Prop := {
  dk_type : - 2 ^ 15 ≤ di_type di < 2 ^ 15;
  dk_major : - 2 ^ 15 ≤ di_major di < 2 ^ 15;
  dk_minor : - 2 ^ 15 ≤ di_minor di < 2 ^ 15;
  dk_nlink : - 2 ^ 15 ≤ di_nlink di < 2 ^ 15;
  dk_size : 0 ≤ di_size di < 2 ^ 32;
  dk_len : length (di_addrs di) = 13%nat;
  dk_addrs : Forall (λ a, 0 ≤ a < 2 ^ 32) (di_addrs di)
}.

Lemma unle_mod n : ∀ v, unle (le n v) = v mod 256 ^ Z.of_nat n.
Proof.
  induction n as [|n IH]; intros v; [by rw /= Z.mod_1_r|]. cbn [le unle].
  rw IH (u8_small (u8 v)); [apply u8_range|]. rw Nat2Z.inj_succ Z.pow_succ_r; [lia|].
  rw /u8. symmetry. apply Z.rem_mul_r; [done|lia].
Qed.

Lemma short_le v : - 2 ^ 15 ≤ v < 2 ^ 15 → s16 (unle (le 2 v)) = v.
Proof. intros Hv. rw unle_mod /s16 /sext. change (256 ^ Z.of_nat 2) with 65536.
  repeat case_decide; repeat case_match; Z.div_mod_to_equations; lia. Qed.

Lemma length_put_dinode di : length (di_addrs di) = 13%nat → length (put_dinode di) = DINODE.
Proof.
  intros Hl. rw /put_dinode !length_app !length_le length_join. destruct di as [? ? ? ? ? l]. simpl in *.
  do 14 (destruct l as [|? l]; try done).
Qed.

(** An inode that is written to disk reads back as it was. *)
Lemma get_put_dinode di : dinode_ok di → get_dinode (put_dinode di) = di.
Proof.
  intros [H1 H2 H3 H4 H5 Hl Hf]. destruct di as [ty mj mn nl sz l]. simpl in *.
  do 14 (destruct l as [|? l]; try done). clear Hl.
  change (Dinode (s16 (unle (le 2 ty))) (s16 (unle (le 2 mj))) (s16 (unle (le 2 mn))) (s16 (unle (le 2 nl)))
    (unle (le 4 sz)) ((λ a, unle (le 4 a)) <$> [z; z0; z1; z2; z3; z4; z5; z6; z7; z8; z9; z10; z11]) =
    Dinode ty mj mn nl sz [z; z0; z1; z2; z3; z4; z5; z6; z7; z8; z9; z10; z11]).
  rw !short_le // unle_le //. f_equal. generalize dependent [z; z0; z1; z2; z3; z4; z5; z6; z7; z8; z9; z10; z11].
  intros l Hl. induction Hl as [|a l Ha Hl IH]; [done|]. rw fmap_cons unle_le // IH. done.
Qed.

(** ** Directory entries *)

Definition DIRSIZ : Z := 14.
Definition DIRENT : Z := 16.

Record dirent := Dirent { de_inum : Z; de_name : list Z }.
Definition get_dirent (d : list Z) : dirent := Dirent (get16 0 d) (slice 2 14 d).
Definition put_dirent (de : dirent) : list Z := le 2 (de_inum de) ++ de_name de.

Lemma length_put_dirent de : length (de_name de) = 14%nat → length (put_dirent de) = Z.to_nat DIRENT.
Proof. intros H. rw /put_dirent length_app length_le H. done. Qed.

Lemma get_put_dirent de :
  0 ≤ de_inum de < 2 ^ 16 → length (de_name de) = 14%nat → get_dirent (put_dirent de) = de.
Proof.
  intros Hi Hl. destruct de as [n l]. simpl in *. do 15 (destruct l as [|? l]; try done).
  rw /get_dirent /get16. change (slice 0 2 _) with (le 2 n). by rw unle_le.
Qed.
