(* ===== verification/Bio.v ===== *)
(** * The buffer cache and the memory disk (xv6/bio.c, buf.h, memide.c).

    The cache is the array of [NBUF] buffers and the list head, linked in both
    directions by index; the disk is the block array of memide.c with the history
    of the blocks written to it.  [linked] is the invariant of the list.  The
    abstract view ([cabs]): the blocks on disk, the contents of the blocks whose
    buffer is held or pinned, the held buffers and the pinned (B_DIRTY) blocks; the
    class [Cache] states what bread, bwrite and brelse promise in these terms, and
    this file proves that bio.c keeps the promise. *)
From S2P Require Import Prelude Spinlock Sleeplock.
Local Open Scope Z_scope.

(** ** Data *)

Definition BSIZE : Z := 512.
Definition NBUF : nat := 30.
Definition B_VALID : Z := 0x2.
Definition B_DIRTY : Z := 0x4.

(** A disk block: [BSIZE] bytes. *)
Definition block := list Z.
Definition zero_block : block := replicate (Z.to_nat BSIZE) 0.

Record buf := Buf {
  b_flags : Z;
  b_dev : Z;
  b_blockno : Z;
  b_lock : sleeplock;
  b_refcnt : Z;
  b_prev : nat;
  b_next : nat;
  b_data : block
}.

Definition set_flags (v : Z) (b : buf) : buf :=
  Buf v (b_dev b) (b_blockno b) (b_lock b) (b_refcnt b) (b_prev b) (b_next b) (b_data b).
Definition set_lock_of (v : sleeplock) (b : buf) : buf :=
  Buf (b_flags b) (b_dev b) (b_blockno b) v (b_refcnt b) (b_prev b) (b_next b) (b_data b).
Definition set_refcnt (v : Z) (b : buf) : buf :=
  Buf (b_flags b) (b_dev b) (b_blockno b) (b_lock b) v (b_prev b) (b_next b) (b_data b).
Definition set_prev (v : nat) (b : buf) : buf :=
  Buf (b_flags b) (b_dev b) (b_blockno b) (b_lock b) (b_refcnt b) v (b_next b) (b_data b).
Definition set_next (v : nat) (b : buf) : buf :=
  Buf (b_flags b) (b_dev b) (b_blockno b) (b_lock b) (b_refcnt b) (b_prev b) v (b_data b).
Definition set_data (v : block) (b : buf) : buf :=
  Buf (b_flags b) (b_dev b) (b_blockno b) (b_lock b) (b_refcnt b) (b_prev b) (b_next b) v.
Definition recycle (dev blockno : Z) (b : buf) : buf :=
  Buf 0 dev blockno (b_lock b) 1 (b_prev b) (b_next b) (b_data b).

Definition has_flag (b : buf) (f : Z) : bool := negb (Z.land (b_flags b) f =? 0).

(** The disk of memide.c, with the history of its writes. *)
Record disk := Disk { d_size : Z; d_blocks : gmap Z block; d_writes : list (Z * block) }.
Definition rd (d : gmap Z block) (n : Z) : block := default zero_block (d !! n).

(** [bufs]: the [NBUF] buffers and, last, the list head. *)
Record bcache := Bcache { bufs : list buf; bdisk : disk; bheld : list string }.
Definition HEAD : nat := NBUF.

Definition set_bufs (l : list buf) (s : bcache) : bcache := Bcache l (bdisk s) (bheld s).
Definition set_bdisk (d : disk) (s : bcache) : bcache := Bcache (bufs s) d (bheld s).

#[global] Program Instance bcache_HasLocks : HasLocks bcache :=
  {| held := bheld; set_held := λ h s, Bcache (bufs s) (bdisk s) h |}.
Next Obligation. done. Qed.

Definition buf_at (i : nat) : K bcache buf := λ s,
  match bufs s !! i with Some b => Ret b s | None => Undef "no such buffer" end.
Definition upd_buf (i : nat) (f : buf → buf) : K bcache unit :=
  modify (λ s, set_bufs (alter f i (bufs s)) s).

(** ** The memory disk *)

Section Driver.
(** The running process. *)
Variable me : Z.

Definition holdingsleep_of (b : buf) : bool :=
  negb (sl_locked (b_lock b) =? 0) && (sl_pid (b_lock b) =? me).

(** [iderw] of memide.c. *)
Definition iderw (i : nat) : K bcache unit :=
  b ← buf_at i;
  if negb (holdingsleep_of b) then panic "iderw: buf not locked"
  else if Z.land (b_flags b) (Z.lor B_VALID B_DIRTY) =? B_VALID then panic "iderw: nothing to do"
  else if negb (b_dev b =? 1) then panic "iderw: request not for disk 1"
  else
    s ← get;
    let d := bdisk s in
    if d_size d <=? b_blockno b then panic "iderw: block out of range"
    else
      _ ← (if has_flag b B_DIRTY then
             _ ← upd_buf i (λ b, set_flags (Z.land (b_flags b) (Z.lnot B_DIRTY)) b);
             modify (set_bdisk (Disk (d_size d) (<[b_blockno b := b_data b]> (d_blocks d))
                                  (d_writes d ++ [(b_blockno b, b_data b)])))
           else upd_buf i (set_data (rd (d_blocks d) (b_blockno b))));
      upd_buf i (λ b, set_flags (Z.lor (b_flags b) B_VALID) b).

(** ** The buffer cache *)

(** Insert buffer [i] behind the list head. *)
Definition link_front (i : nat) : K bcache unit :=
  h ← buf_at HEAD;
  _ ← upd_buf i (set_next (b_next h));
  _ ← upd_buf i (set_prev HEAD);
  _ ← upd_buf (b_next h) (set_prev i);
  upd_buf HEAD (set_next i).

Definition binit : K bcache unit :=
  _ ← upd_buf HEAD (set_prev HEAD);
  _ ← upd_buf HEAD (set_next HEAD);
  for_each (seq 0 NBUF) (λ i,
    h ← buf_at HEAD;
    _ ← upd_buf i (set_next (b_next h));
    _ ← upd_buf i (set_prev HEAD);
    _ ← upd_buf i (set_lock_of (Sleeplock 0 "buffer" 0));
    _ ← upd_buf (b_next h) (set_prev i);
    upd_buf HEAD (set_next i)).

(** The two scans of [bget]; [fuel] bounds the length of the list. *)
Fixpoint scan (dir : buf → nat) (P : buf → bool) (bs : list buf) (fuel : nat) (i : nat)
    : option nat :=
  match fuel with
  | O => None
  | S k =>
      if Nat.eqb i HEAD then None
      else match bs !! i with
           | Some b => if P b then Some i else scan dir P bs k (dir b)
           | None => None
           end
  end.

(** [acquiresleep(&b->lock)]: the process waits when another one has the buffer. *)
Definition acquiresleep_of (i : nat) : K bcache unit :=
  b ← buf_at i;
  if negb (sl_locked (b_lock b) =? 0) then sleeps "buffer"
  else upd_buf i (set_lock_of (Sleeplock 1 (sl_name (b_lock b)) me)).
Definition releasesleep_of (i : nat) : K bcache unit :=
  upd_buf i (λ b, set_lock_of (Sleeplock 0 (sl_name (b_lock b)) 0) b).

Definition bget (dev blockno : Z) : K bcache nat :=
  _ ← lock_acquire "bcache";
  bs ← gets bufs;
  h ← buf_at HEAD;
  match scan b_next (λ b, (b_dev b =? dev) && (b_blockno b =? blockno)) bs (S NBUF) (b_next h) with
  | Some i =>
      _ ← upd_buf i (λ b, set_refcnt (u32 (b_refcnt b + 1)) b);
      _ ← lock_release "bcache";
      _ ← acquiresleep_of i;
      mret i
  | None =>
      match scan b_prev (λ b, (b_refcnt b =? 0) && negb (has_flag b B_DIRTY)) bs (S NBUF) (b_prev h) with
      | Some i =>
          _ ← upd_buf i (recycle dev blockno);
          _ ← lock_release "bcache";
          _ ← acquiresleep_of i;
          mret i
      | None => panic "bget: no buffers"
      end
  end.

Definition bread (dev blockno : Z) : K bcache nat :=
  i ← bget dev blockno;
  b ← buf_at i;
  _ ← when (negb (has_flag b B_VALID)) (iderw i);
  mret i.

Definition bwrite (i : nat) : K bcache unit :=
  b ← buf_at i;
  if negb (holdingsleep_of b) then panic "bwrite"
  else
    _ ← upd_buf i (λ b, set_flags (Z.lor (b_flags b) B_DIRTY) b);
    iderw i.

Definition brelse (i : nat) : K bcache unit :=
  b ← buf_at i;
  if negb (holdingsleep_of b) then panic "brelse"
  else
    _ ← releasesleep_of i;
    _ ← lock_acquire "bcache";
    _ ← upd_buf i (λ b, set_refcnt (u32 (b_refcnt b - 1)) b);
    b ← buf_at i;
    _ ← when (b_refcnt b =? 0)
          (_ ← upd_buf (b_next b) (set_prev (b_prev b));
           _ ← upd_buf (b_prev b) (set_next (b_next b));
           link_front i);
    lock_release "bcache".

(** What a client does with a buffer it holds: read and write [b->data], set
    B_DIRTY (log.c). *)
Definition bdata (i : nat) : K bcache block := b ← buf_at i; mret (b_data b).
Definition bset (i : nat) (d : block) : K bcache unit := upd_buf i (set_data d).
Definition bnumber (i : nat) : K bcache Z := b ← buf_at i; mret (b_blockno b).
Definition bpin (i : nat) : K bcache unit :=
  upd_buf i (λ b, set_flags (Z.lor (b_flags b) B_DIRTY) b).

End Driver.

(** ** The doubly linked list *)

Definition nxt (bs : list buf) (i : nat) : option nat := b_next <$> bs !! i.
Definition prv (bs : list buf) (i : nat) : option nat := b_prev <$> bs !! i.

(** Neighbours in the path [c] point at each other. *)
Fixpoint linked (bs : list buf) (c : list nat) : Prop :=
  match c with
  | x :: c' => match c' with
               | y :: _ => nxt bs x = Some y ∧ prv bs y = Some x ∧ linked bs c'
               | [] => True
               end
  | [] => True
  end.

(** The cyclic list through the head visits the buffers [l] in this order. *)
Record ring (bs : list buf) (l : list nat) : Prop := {
  ring_nodup : NoDup (HEAD :: l);
  ring_in : ∀ i, i ∈ HEAD :: l → (i < length bs)%nat;
  ring_linked : linked bs (HEAD :: l ++ [HEAD])
}.

Lemma linked_cons bs x y c :
  linked bs (x :: y :: c) ↔ nxt bs x = Some y ∧ prv bs y = Some x ∧ linked bs (y :: c).
Proof. done. Qed.

Lemma linked_app bs c1 x c2 :
  linked bs (c1 ++ x :: c2) ↔ linked bs (c1 ++ [x]) ∧ linked bs (x :: c2).
Proof.
  induction c1 as [|y c1 IH]; [simpl; tauto|].
  destruct c1 as [|z c1]; [simpl; tauto|].
  change ((y :: z :: c1) ++ x :: c2) with (y :: z :: (c1 ++ x :: c2)).
  change ((y :: z :: c1) ++ [x]) with (y :: z :: (c1 ++ [x])).
  rw !linked_cons. change (z :: (c1 ++ x :: c2)) with ((z :: c1) ++ x :: c2).
  rw IH. simpl. tauto.
Qed.

(** Only the [next] of the elements but the last, and the [prev] of the elements
    but the first, matter. *)
Lemma linked_ext bs bs' c1 z :
  (∀ x, x ∈ c1 → nxt bs' x = nxt bs x) → (∀ y, y ∈ tail (c1 ++ [z]) → prv bs' y = prv bs y) →
  linked bs (c1 ++ [z]) → linked bs' (c1 ++ [z]).
Proof.
  induction c1 as [|x c1 IH]; [done|]. intros Hn Hp.
  destruct c1 as [|y c1].
  - intros (H1&H2&_). split_and!; [rw Hn; [by left|done]|rw Hp; [by left|done]|done].
  - change ((x :: y :: c1) ++ [z]) with (x :: y :: (c1 ++ [z])). rw !linked_cons.
    intros (H1&H2&H3). split_and!; [rw Hn; [by left|done]|rw Hp; [by left|done]|].
    change (y :: (c1 ++ [z])) with ((y :: c1) ++ [z]). apply IH; [|intros w Hw|done].
    + intros w Hw. apply Hn. by right.
    + apply Hp. change (tail ((x :: y :: c1) ++ [z])) with (y :: (c1 ++ [z])). by right.
Qed.

Lemma nxt_set_next bs j v x :
  (j < length bs)%nat → nxt (alter (set_next v) j bs) x = if decide (x = j) then Some v else nxt bs x.
Proof.
  intros Hj. rw /nxt. case_decide as E.
  - subst. rw list_lookup_alter_eq. apply lookup_lt_is_Some in Hj as [b ->]. done.
  - rw list_lookup_alter_ne; [congruence|done].
Qed.
Lemma prv_set_prev bs j v x :
  (j < length bs)%nat → prv (alter (set_prev v) j bs) x = if decide (x = j) then Some v else prv bs x.
Proof.
  intros Hj. rw /prv. case_decide as E.
  - subst. rw list_lookup_alter_eq. apply lookup_lt_is_Some in Hj as [b ->]. done.
  - rw list_lookup_alter_ne; [congruence|done].
Qed.
Lemma nxt_alter f bs j x : (∀ b, b_next (f b) = b_next b) → nxt (alter f j bs) x = nxt bs x.
Proof.
  intros Hf. rw /nxt. destruct (decide (x = j)) as [->|Hne].
  - rw list_lookup_alter_eq. destruct (bs !! j); simpl; [by rw Hf|done].
  - rw list_lookup_alter_ne; [congruence|done].
Qed.
Lemma prv_alter f bs j x : (∀ b, b_prev (f b) = b_prev b) → prv (alter f j bs) x = prv bs x.
Proof.
  intros Hf. rw /prv. destruct (decide (x = j)) as [->|Hne].
  - rw list_lookup_alter_eq. destruct (bs !! j); simpl; [by rw Hf|done].
  - rw list_lookup_alter_ne; [congruence|done].
Qed.

(** A change of other fields keeps the list. *)
Lemma ring_alter f bs j l :
  (∀ b, b_next (f b) = b_next b) → (∀ b, b_prev (f b) = b_prev b) →
  ring bs l → ring (alter f j bs) l.
Proof.
  intros Hn Hp [Hnd Hin Hl]. split; [done|by rw length_alter|].
  change (HEAD :: l ++ [HEAD]) with ((HEAD :: l) ++ [HEAD]) in Hl |- *.
  eapply linked_ext; [| |exact Hl]; intros; [by apply nxt_alter|by apply prv_alter].
Qed.

Lemma ring_insert bs l i b b' :
  bs !! i = Some b → b_next b' = b_next b → b_prev b' = b_prev b →
  ring bs l → ring (<[i := b']> bs) l.
Proof.
  intros Hb E1 E2 [Hnd Hin Hl]. pose proof (lookup_lt_Some _ _ _ Hb). split; [done|by rw length_insert|].
  change (HEAD :: l ++ [HEAD]) with ((HEAD :: l) ++ [HEAD]) in Hl |- *.
  eapply linked_ext; [| |exact Hl]; intros x _; rw /nxt /prv;
    (destruct (decide (i = x)) as [<-|Hne]; [rw list_lookup_insert_eq // Hb /=; congruence|
       by rw list_lookup_insert_ne]).
Qed.

(** The list after [link_front i]. *)
Definition fronted (i n : nat) (bs : list buf) : list buf :=
  alter (set_next i) HEAD (alter (set_prev i) n (alter (set_prev HEAD) i (alter (set_next n) i bs))).

Lemma ring_front bs l i :
  ring bs l → i ∉ HEAD :: l → (i < length bs)%nat →
  ∃ n, nxt bs HEAD = Some n ∧ ring (fronted i n bs) (i :: l).
Proof.
  intros [Hnd Hin Hl] Hi Hlt. apply not_elem_of_cons in Hi as [HiH Hil].
  apply NoDup_cons in Hnd as [HHl Hnd].
  destruct (l ++ [HEAD]) as [|n c2] eqn:Ec; [by destruct l|].
  assert (n ∈ HEAD :: l) as Hn.
  { assert (n ∈ l ++ [HEAD]) by (rw Ec; by left). set_solver. }
  exists n. pose proof Hl as (Hnx&_&_). split; [done|].
  assert (n < length bs)%nat as Hnlt by by apply Hin.
  assert (HEAD < length bs)%nat as HHlt by (apply Hin; by left).
  assert (n ≠ i) as Hni by (intros ->; set_solver).
  assert (∀ x, nxt (fronted i n bs) x =
    if decide (x = HEAD) then Some i else if decide (x = i) then Some n else nxt bs x) as En.
  { intros x. rw /fronted nxt_set_next; [by rw !length_alter|]. case_decide; [done|].
    rw (nxt_alter (set_prev i)) // (nxt_alter (set_prev HEAD)) // nxt_set_next //. }
  assert (∀ x, prv (fronted i n bs) x =
    if decide (x = n) then Some i else if decide (x = i) then Some HEAD else prv bs x) as Ep.
  { intros x. rw /fronted (prv_alter (set_next i)) // prv_set_prev; [by rw !length_alter|].
    case_decide; [done|].
    rw prv_set_prev; [by rw length_alter|]. case_decide; [done|]. by rw prv_alter. }
  split.
  - apply NoDup_cons. split; [set_solver|]. by apply NoDup_cons.
  - intros x Hx. rw /fronted !length_alter. apply elem_of_cons in Hx as [->|Hx]; [done|].
    apply elem_of_cons in Hx as [->|Hx]; [done|]. apply Hin. by right.
  - change (HEAD :: (i :: l) ++ [HEAD]) with (HEAD :: i :: (l ++ [HEAD])). rw Ec.
    destruct Hl as (_&_&Hl).
    rw !linked_cons. split_and!.
    { rw En. by case_decide. }
    { rw Ep. repeat case_decide; congruence. }
    { rw En. repeat case_decide; congruence. }
    { rw Ep. by case_decide. }
    rw -Ec in Hl |- *. eapply linked_ext; [| |exact Hl].
    + intros x Hx. rw En. repeat case_decide; subst; done.
    + intros y Hy. rw Ec in Hy. simpl in Hy. rw Ep.
      assert (NoDup (l ++ [HEAD])) as Hnd2.
      { apply NoDup_app. split_and!; [done|set_solver|apply NoDup_singleton]. }
      assert (y ∈ l ++ [HEAD]) as Hyl by (rw Ec; by right).
      rw Ec in Hnd2. apply NoDup_cons in Hnd2 as [Hnc _].
      case_decide; [by subst|]. case_decide; [subst; set_solver|done].
Qed.

(** The list without buffer [i]. *)
Definition unlinked (p n : nat) (bs : list buf) : list buf :=
  alter (set_next n) p (alter (set_prev p) n bs).

Lemma ring_unlink bs l1 i l2 :
  ring bs (l1 ++ i :: l2) →
  ∃ p n, prv bs i = Some p ∧ nxt bs i = Some n ∧ ring (unlinked p n bs) (l1 ++ l2).
Proof.
  intros [Hnd Hin Hl].
  assert (HEAD :: (l1 ++ i :: l2) ++ [HEAD] = (HEAD :: l1) ++ i :: (l2 ++ [HEAD])) as Ec
    by (simpl; by rw -app_assoc).
  rw Ec in Hl. clear Ec. apply linked_app in Hl as [Hl1 Hl2].
  destruct (exists_last (l := HEAD :: l1)) as (c1&p&Ep); [done|].
  destruct (l2 ++ [HEAD]) as [|n c2] eqn:En; [by destruct l2|].
  rw Ep -app_assoc in Hl1. apply linked_app in Hl1 as [Hlp (Hpn&Hpp&_)].
  apply linked_cons in Hl2 as (Hin1&Hnp&Hl2).
  exists p, n. split; [done|]. split; [done|].
  assert (NoDup ((HEAD :: l1) ++ i :: l2)) as Hnd' by done.
  apply NoDup_app in Hnd' as (Hnd1&Hdis&Hnd2). apply NoDup_cons in Hnd2 as [Hil2 Hnd2].
  assert (p ∈ HEAD :: l1) as Hp by (rw Ep; set_solver).
  assert (n ∈ l2 ++ [HEAD]) as Hn by (rw En; by left).
  assert (p < length bs)%nat as Hplt by (apply Hin; set_solver).
  assert (n < length bs)%nat as Hnlt by (apply Hin; set_solver).
  assert (∀ x, nxt (unlinked p n bs) x = if decide (x = p) then Some n else nxt bs x) as Enx.
  { intros x. rw /unlinked nxt_set_next; [by rw length_alter|]. case_decide; [done|].
    by rw nxt_alter. }
  assert (∀ x, prv (unlinked p n bs) x = if decide (x = n) then Some p else prv bs x) as Epv.
  { intros x. rw /unlinked (prv_alter (set_next n)) // prv_set_prev //. }
  split.
  - change (HEAD :: l1 ++ l2) with ((HEAD :: l1) ++ l2). apply NoDup_app. set_solver.
  - intros x Hx. rw /unlinked !length_alter. apply Hin. set_solver.
  - assert (HEAD :: (l1 ++ l2) ++ [HEAD] = c1 ++ p :: n :: c2) as ->.
    { change (HEAD :: (l1 ++ l2) ++ [HEAD]) with ((HEAD :: l1 ++ l2) ++ [HEAD]).
      change (HEAD :: l1 ++ l2) with ((HEAD :: l1) ++ l2). rw -app_assoc En Ep -app_assoc. done. }
    apply linked_app. split.
    + eapply linked_ext; [| |exact Hlp].
      * intros x Hx. rw Enx decide_False //. intros ->.
        rw Ep in Hnd1. apply NoDup_app in Hnd1 as (_&Hd&_). by apply (Hd p Hx); left.
      * intros y Hy. rw Epv decide_False //. intros ->. rw -Ep in Hy. simpl in Hy.
        apply NoDup_cons in Hnd1 as [HH _].
        apply elem_of_app in Hn as [Hn| ->%list_elem_of_singleton]; [|done].
        apply (Hdis n); set_solver.
    + rw linked_cons Enx Epv !decide_True //. split_and!; try done.
      rw -En in Hl2 |- *. eapply linked_ext; [| |exact Hl2].
      * intros x Hx. rw Enx decide_False //. intros ->. apply (Hdis p); set_solver.
      * intros y Hy. rw Epv decide_False //. intros ->. rw En in Hy. simpl in Hy.
        assert (NoDup (l2 ++ [HEAD])) as Hnd3.
        { apply NoDup_app. split_and!; [done| |apply NoDup_singleton].
          intros x Hx ->%list_elem_of_singleton. apply (Hdis HEAD); set_solver. }
        rw En in Hnd3. by apply NoDup_cons in Hnd3 as [? _].
Qed.

(** ** The scans of [bget] *)

(** Following [dir] from [i0] visits [l] and then comes to the head. *)
Fixpoint path (dir : buf → nat) (bs : list buf) (i0 : nat) (l : list nat) : Prop :=
  match l with
  | [] => i0 = HEAD
  | j :: l' => i0 = j ∧ ∃ b, bs !! j = Some b ∧ path dir bs (dir b) l'
  end.

Lemma linked_path_next bs l : ∀ x b,
  linked bs (x :: l ++ [HEAD]) → (∀ i, i ∈ l → (i < length bs)%nat) → bs !! x = Some b →
  path b_next bs (b_next b) l.
Proof.
  induction l as [|j l IH]; intros x b Hl Hin Hb.
  - destruct Hl as (Hn&_). rw /nxt Hb in Hn. by injection Hn.
  - change (x :: (j :: l) ++ [HEAD]) with (x :: j :: (l ++ [HEAD])) in Hl.
    apply linked_cons in Hl as (Hn&_&Hl). rw /nxt Hb in Hn. injection Hn as ->.
    split; [done|]. destruct (lookup_lt_is_Some_2 bs j) as [b' Hb']; [apply Hin; by left|].
    exists b'. split; [done|]. eapply IH; [exact Hl| |done]. intros i Hi. apply Hin. by right.
Qed.

Lemma linked_path_prev bs l : ∀ y b,
  linked bs (HEAD :: l ++ [y]) → (∀ i, i ∈ l → (i < length bs)%nat) → bs !! y = Some b →
  path b_prev bs (b_prev b) (reverse l).
Proof.
  induction l as [|j l IH] using rev_ind; intros y b Hl Hin Hb.
  - destruct Hl as (_&Hp&_). rw /prv Hb in Hp. by injection Hp.
  - rw -app_assoc in Hl. change (HEAD :: l ++ [j] ++ [y]) with ((HEAD :: l) ++ j :: [y]) in Hl.
    apply linked_app in Hl as [Hl (_&Hp&_)]. rw /prv Hb in Hp. injection Hp as ->.
    rw reverse_app /=. split; [done|].
    destruct (lookup_lt_is_Some_2 bs j) as [b' Hb']; [apply Hin; set_solver|].
    exists b'. split; [done|]. eapply IH; [exact Hl| |done]. intros i Hi. apply Hin. set_solver.
Qed.

Lemma scan_spec dir P bs l : ∀ i0 fuel,
  path dir bs i0 l → HEAD ∉ l → (length l < fuel)%nat →
  match scan dir P bs fuel i0 with
  | Some i => ∃ l1 l2 b, l = l1 ++ i :: l2 ∧ bs !! i = Some b ∧ P b = true ∧
      ∀ j bj, j ∈ l1 → bs !! j = Some bj → P bj = false
  | None => ∀ j bj, j ∈ l → bs !! j = Some bj → P bj = false
  end.
Proof.
  induction l as [|j l IH]; intros i0 fuel Hp HH Hf; (destruct fuel as [|k]; [simpl in Hf; lia|]);
    simpl in *.
  - subst i0. rw Nat.eqb_refl. intros j bj Hj. by apply not_elem_of_nil in Hj.
  - destruct Hp as (->&b&Hb&Hp). apply not_elem_of_cons in HH as [HjH HH].
    destruct (Nat.eqb_spec j HEAD); [congruence|]. rw Hb. destruct (P b) eqn:HP.
    + exists [], l, b. split_and!; try done. intros ? ? Hx. by apply not_elem_of_nil in Hx.
    + specialize (IH (dir b) k Hp HH ltac:(lia)). destruct (scan dir P bs k (dir b)) as [i|].
      * destruct IH as (l1&l2&b'&->&Hb'&HP'&Hno). exists (j :: l1), l2, b'.
        split_and!; try done. intros j' bj [->|?]%elem_of_cons Hbj; [congruence|eauto].
      * intros j' bj [->|?]%elem_of_cons Hbj; [congruence|eauto].
Qed.

#[global] Arguments scan : simpl never.

(** ** The abstract cache *)

(** [ca_mem]: the contents of the blocks whose buffer may differ from the disk. *)
Record cabs := Cabs {
  ca_disk : gmap Z block;
  ca_mem : gmap Z block;
  ca_held : gmap nat Z;
  ca_pinned : gset Z;
  ca_writes : list (Z * block)
}.

(** The contents of block [n], through the cache. *)
Definition view (a : cabs) (n : Z) : block := default (rd (ca_disk a) n) (ca_mem a !! n).
Definition held_blocks (a : cabs) : gset Z := list_to_set (map_to_list (ca_held a)).*2.
Definition busy (a : cabs) : gset Z := held_blocks a ∪ ca_pinned a.

(** The effect of the operations on it. *)
Definition take_held (a : cabs) (i : nat) (n : Z) : cabs :=
  Cabs (ca_disk a) (ca_mem a) (<[i := n]> (ca_held a)) (ca_pinned a) (ca_writes a).
Definition set_block (a : cabs) (n : Z) (d : block) : cabs :=
  Cabs (ca_disk a) (<[n := d]> (ca_mem a)) (ca_held a) (ca_pinned a) (ca_writes a).
Definition pin_block (a : cabs) (n : Z) : cabs :=
  Cabs (ca_disk a) (<[n := view a n]> (ca_mem a)) (ca_held a) ({[n]} ∪ ca_pinned a) (ca_writes a).
Definition flush_block (a : cabs) (n : Z) : cabs :=
  Cabs (<[n := view a n]> (ca_disk a)) (delete n (ca_mem a)) (ca_held a)
    (ca_pinned a ∖ {[n]}) (ca_writes a ++ [(n, view a n)]).
Definition drop_held (a : cabs) (i : nat) (n : Z) : cabs :=
  Cabs (ca_disk a) (if decide (n ∈ ca_pinned a) then ca_mem a else delete n (ca_mem a))
    (delete i (ca_held a)) (ca_pinned a) (ca_writes a).

(** What the clients of the cache rely on. *)
Class Cache (S : Type) := {
  c_bread : Z → Z → K S nat;
  c_bwrite : nat → K S unit;
  c_brelse : nat → K S unit;
  c_bdata : nat → K S block;
  c_bset : nat → block → K S unit;
  c_bnumber : nat → K S Z;
  c_bpin : nat → K S unit;
  c_abs : S → cabs → Prop;
  c_size : S → Z;

  bread_law s a n :
    c_abs s a → 0 ≤ n < c_size s → n ∉ held_blocks a →
    n ∈ ca_pinned a ∨ (size (busy a) < NBUF)%nat →
    wp (c_bread 1 n) s (λ i s', ca_held a !! i = None ∧ c_size s' = c_size s ∧
      c_abs s' (take_held a i n));
  bdata_law s a i n :
    c_abs s a → ca_held a !! i = Some n → wp (c_bdata i) s (λ d s', d = view a n ∧ s' = s);
  bset_law s a i n d :
    c_abs s a → ca_held a !! i = Some n → length d = Z.to_nat BSIZE →
    wp (c_bset i d) s (λ _ s', c_size s' = c_size s ∧
      c_abs s' (set_block a n d));
  bnumber_law s a i n :
    c_abs s a → ca_held a !! i = Some n → wp (c_bnumber i) s (λ m s', m = n ∧ s' = s);
  bpin_law s a i n :
    c_abs s a → ca_held a !! i = Some n →
    wp (c_bpin i) s (λ _ s', c_size s' = c_size s ∧
      c_abs s' (pin_block a n));
  bwrite_law s a i n :
    c_abs s a → ca_held a !! i = Some n →
    wp (c_bwrite i) s (λ _ s', c_size s' = c_size s ∧
      c_abs s' (flush_block a n));
  brelse_law s a i n :
    c_abs s a → ca_held a !! i = Some n → n ∈ ca_pinned a ∨ view a n = rd (ca_disk a) n →
    wp (c_brelse i) s (λ _ s', c_size s' = c_size s ∧
      c_abs s' (drop_held a i n));
  abs_mem s a n d : c_abs s a → ca_mem a !! n = Some d → n ∈ busy a;
  abs_len s a n : c_abs s a → length (view a n) = Z.to_nat BSIZE;
  abs_range s a i n : c_abs s a → ca_held a !! i = Some n → 0 ≤ n < c_size s;
  abs_held s a i j n : c_abs s a → ca_held a !! i = Some n → ca_held a !! j = Some n → i = j
}.

(** ** bio.c keeps the promise *)

(** The flag word of a buffer. *)
Definition fl (valid dirty : bool) : Z :=
  (if valid then B_VALID else 0) + (if dirty then B_DIRTY else 0).

Lemma has_valid b v d : b_flags b = fl v d → has_flag b B_VALID = v.
Proof. rw /has_flag. intros ->. by destruct v, d. Qed.
Lemma has_dirty b v d : b_flags b = fl v d → has_flag b B_DIRTY = d.
Proof. rw /has_flag. intros ->. by destruct v, d. Qed.
Lemma fl_set_dirty v d : Z.lor (fl v d) B_DIRTY = fl v true.
Proof. by destruct v, d. Qed.
Lemma fl_clear_dirty v d : Z.land (fl v d) (Z.lnot B_DIRTY) = fl v false.
Proof. by destruct v, d. Qed.
Lemma fl_set_valid v d : Z.lor (fl v d) B_VALID = fl true d.
Proof. by destruct v, d. Qed.
Lemma fl_nothing v d : (Z.land (fl v d) (Z.lor B_VALID B_DIRTY) =? B_VALID) = v && negb d.
Proof. by destruct v, d. Qed.

(** The buffer without its links. *)
Definition core (b : buf) : Z * Z * Z * sleeplock * Z * block :=
  (b_flags b, b_dev b, b_blockno b, b_lock b, b_refcnt b, b_data b).

Section BioAbs.
Variable me : Z.

(** Buffer [b] in slot [i] agrees with the abstract cache. *)
Record buf_ok (a : cabs) (i : nat) (b : buf) : Prop := {
  bk_flags : ∃ v, b_flags b = fl v (bool_decide (b_dev b = 1 ∧ b_blockno b ∈ ca_pinned a)) ∧
                  (b_dev b = 1 → v = true);
  bk_state : match ca_held a !! i with
             | Some n => b_dev b = 1 ∧ b_blockno b = n ∧ sl_locked (b_lock b) = 1 ∧
                         sl_pid (b_lock b) = me ∧ b_refcnt b = 1
             | None => sl_locked (b_lock b) = 0 ∧ b_refcnt b = 0
             end;
  bk_data : b_dev b = 1 → b_data b = view a (b_blockno b)
}.

Record bufs_ok (bs : list buf) (a : cabs) : Prop := {
  bo_buf : ∀ i b, (i < NBUF)%nat → bs !! i = Some b → buf_ok a i b;
  bo_uniq : ∀ i j b b', (i < NBUF)%nat → (j < NBUF)%nat → bs !! i = Some b → bs !! j = Some b' →
    b_dev b = 1 → b_dev b' = 1 → b_blockno b = b_blockno b' → i = j;
  bo_held : ∀ i n, ca_held a !! i = Some n → (i < NBUF)%nat;
  bo_pin : ∀ n, n ∈ ca_pinned a →
    ∃ i b, (i < NBUF)%nat ∧ bs !! i = Some b ∧ b_dev b = 1 ∧ b_blockno b = n;
  bo_mem : ∀ n d, ca_mem a !! n = Some d → n ∈ busy a ∧ length d = Z.to_nat BSIZE;
  bo_disk : ∀ n, length (rd (ca_disk a) n) = Z.to_nat BSIZE
}.

Record bio_abs (s : bcache) (a : cabs) : Prop := {
  ba_len : length (bufs s) = S NBUF;
  ba_ring : ∃ l, ring (bufs s) l ∧ l ≡ₚ seq 0 NBUF;
  ba_locks : bheld s = [];
  ba_disk : d_blocks (bdisk s) = ca_disk a;
  ba_writes : d_writes (bdisk s) = ca_writes a;
  ba_range : ∀ i n, ca_held a !! i = Some n → 0 ≤ n < d_size (bdisk s);
  ba_bufs : bufs_ok (bufs s) a
}.

(** [bufs_ok] does not look at the links. *)
Lemma buf_ok_core a i b b' : core b = core b' → buf_ok a i b → buf_ok a i b'.
Proof.
  rw /core. intros [= E1 E2 E3 E4 E5 E6] [H1 H2 H3].
  split; by rw -?E1 -?E2 -?E3 -?E4 -?E5 -?E6.
Qed.

Lemma bufs_ok_core bs bs' a :
  (∀ i, (i < NBUF)%nat → core <$> bs !! i = core <$> bs' !! i) → bufs_ok bs a → bufs_ok bs' a.
Proof.
  intros Hc [H1 H2 H3 H4 H5 H6].
  assert (∀ i b', (i < NBUF)%nat → bs' !! i = Some b' → ∃ b, bs !! i = Some b ∧ core b = core b') as Hget.
  { intros i b' Hi Hb'. specialize (Hc i Hi). rw Hb' in Hc.
    destruct (bs !! i) as [b|]; [|done]. exists b. split; [done|]. by apply (inj Some) in Hc. }
  assert (∀ b b', core b = core b' → b_dev b = b_dev b' ∧ b_blockno b = b_blockno b') as Hfld.
  { intros b b' [= ]. done. }
  split; try done.
  - intros i b' Hi Hb'. destruct (Hget i b' Hi Hb') as (b&Hb&E).
    eapply buf_ok_core; [exact E|]. eauto.
  - intros i j b1 b2 Hi Hj Hb1 Hb2 D1 D2 EQ.
    destruct (Hget i b1 Hi Hb1) as (c1&Hc1&[F1 F2]%Hfld).
    destruct (Hget j b2 Hj Hb2) as (c2&Hc2&[G1 G2]%Hfld).
    apply (H2 i j c1 c2); congruence.
  - intros n Hn. destruct (H4 n Hn) as (i&b&Hi&Hb&D&E). exists i.
    specialize (Hc i Hi). rw Hb in Hc. destruct (bs' !! i) as [b'|]; [|done].
    exists b'. apply (inj Some), Hfld in Hc as [E1 E2]. split_and!; congruence.
Qed.

Lemma wp_buf_at i b s (Q : buf → bcache → Prop) :
  bufs s !! i = Some b → Q b s → wp (buf_at i) s Q.
Proof. rw /wp /buf_at. by intros ->. Qed.
Lemma wp_upd_buf i f s (Q : unit → bcache → Prop) :
  Q tt (set_bufs (alter f i (bufs s)) s) → wp (upd_buf i f) s Q.
Proof. done. Qed.

Lemma elem_held_blocks a n : n ∈ held_blocks a ↔ ∃ i, ca_held a !! i = Some n.
Proof.
  rw /held_blocks elem_of_list_to_set list_elem_of_fmap. split.
  - intros ([i m]&->&Hm%elem_of_map_to_list). eauto.
  - intros [i Hi]. exists (i, n). split; [done|]. by apply elem_of_map_to_list.
Qed.

(** Some buffer is free when fewer than [NBUF] blocks are held or pinned. *)
Lemma free_buffer bs a :
  bufs_ok bs a → length bs = S NBUF → (size (busy a) < NBUF)%nat →
  ¬ (∀ i b, (i < NBUF)%nat → bs !! i = Some b → (b_refcnt b =? 0) && negb (has_flag b B_DIRTY) = false).
Proof.
  intros [H1 H2 H3 H4 H5 H6] Hlen Hsz Hall.
  set (bn := λ i, from_option b_blockno 0 (bs !! i)).
  assert (∀ i, (i < NBUF)%nat → ∃ b, bs !! i = Some b ∧ b_dev b = 1 ∧ b_blockno b ∈ busy a) as Hb.
  { intros i Hi. destruct (lookup_lt_is_Some_2 bs i) as [b Hb]; [lia|]. exists b.
    split; [done|]. pose proof (H1 i b Hi Hb) as [(v&Hfl&_) Hst _].
    pose proof (Hall i b Hi Hb) as Hf. rw (has_dirty b _ _ Hfl) in Hf.
    destruct (ca_held a !! i) as [n|] eqn:Eh.
    - destruct Hst as (D&E&_). split; [done|]. apply elem_of_union_l, elem_held_blocks. exists i. congruence.
    - destruct Hst as [_ Er]. rw Er in Hf. case_bool_decide as Hp; [|done]. destruct Hp. split; [done|set_solver]. }
  assert (NoDup (bn <$> seq 0 NBUF)) as Hnd.
  { apply NoDup_fmap_2_strong; [|apply NoDup_seq]. intros i j Hi Hj.
    apply elem_of_seq in Hi, Hj. destruct (Hb i ltac:(lia)) as (b&Eb&Db&_).
    destruct (Hb j ltac:(lia)) as (c&Ec&Dc&_). rw /bn Eb Ec /=. intros E.
    apply (H2 i j b c); try done; lia. }
  assert (list_to_set (bn <$> seq 0 NBUF) ⊆ busy a) as Hsub.
  { intros n. rw elem_of_list_to_set list_elem_of_fmap. intros (i&->&Hi%elem_of_seq).
    destruct (Hb i ltac:(lia)) as (b&Eb&_&Hin). by rw /bn Eb. }
  apply subseteq_size in Hsub. rw size_list_to_set // length_fmap length_seq in Hsub. lia.
Qed.

(** A change of the buffer in slot [i] and of the abstract cache. *)
Lemma bufs_ok_upd bs a a' i b b' :
  bufs_ok bs a → (i < NBUF)%nat → bs !! i = Some b →
  buf_ok a' i b' →
  (∀ j c, j ≠ i → (j < NBUF)%nat → bs !! j = Some c → buf_ok a j c → buf_ok a' j c) →
  (∀ j c, j ≠ i → (j < NBUF)%nat → bs !! j = Some c → b_dev c = 1 → b_dev b' = 1 →
     b_blockno c ≠ b_blockno b') →
  (∀ j n, j ≠ i → ca_held a' !! j = Some n → (j < NBUF)%nat) →
  (∀ n, n ∈ ca_pinned a' →
     (n ∈ ca_pinned a ∧ ¬ (b_dev b = 1 ∧ b_blockno b = n)) ∨ (b_dev b' = 1 ∧ b_blockno b' = n)) →
  (∀ n d, ca_mem a' !! n = Some d → n ∈ busy a' ∧ length d = Z.to_nat BSIZE) →
  (∀ n, length (rd (ca_disk a') n) = Z.to_nat BSIZE) →
  bufs_ok (<[i := b']> bs) a'.
Proof.
  intros [H1 H2 H3 H4 H5 H6] Hi Hb Hok Hoth Huq Hheld Hpin Hmem Hdisk.
  pose proof (lookup_lt_Some _ _ _ Hb) as Hlt. split; try done.
  - intros j c Hj [(->&<-&_)|[Hne Hc]]%list_lookup_insert_Some; [done|eauto].
  - intros j k c d Hj Hk [(->&<-&_)|[Hj' Hc]]%list_lookup_insert_Some
      [(->&<-&_)|[Hk' Hd]]%list_lookup_insert_Some Dc Dd E; [done| | |eauto].
    + by destruct (Huq k d (not_eq_sym Hk') Hk Hd Dd Dc).
    + by destruct (Huq j c (not_eq_sym Hj') Hj Hc Dc Dd).
  - intros j n Hn. destruct (decide (j = i)) as [->|Hne]; eauto.
  - intros n [[Hn Hnb]|[D E]]%Hpin.
    + destruct (H4 n Hn) as (j&c&Hj&Hc&D&E). exists j, c.
      rw list_lookup_insert_ne; [intros <-; naive_solver|by split_and!].
    + exists i, b'. by rw list_lookup_insert_eq.
Qed.

Lemma iderw_write i b v s (Q : unit → bcache → Prop) :
  bufs s !! i = Some b → holdingsleep_of me b = true → b_flags b = fl v true → b_dev b = 1 →
  b_blockno b < d_size (bdisk s) →
  Q tt (Bcache (<[i := set_flags (fl true false) b]> (bufs s))
          (Disk (d_size (bdisk s)) (<[b_blockno b := b_data b]> (d_blocks (bdisk s)))
             (d_writes (bdisk s) ++ [(b_blockno b, b_data b)])) (bheld s)) →
  wp (iderw me i) s Q.
Proof.
  intros Hb Hh Hf Hd Hn HQ. pose proof (lookup_lt_Some _ _ _ Hb) as Hlt. rw /iderw.
  apply wp_bind, (wp_buf_at _ b); [done|]. rw Hh Hf fl_nothing andb_false_r Hd /=.
  apply wp_bind, wp_get. rw (proj2 (Z.leb_gt _ _)) // (has_dirty b v true) //.
  do 2 apply wp_bind. apply wp_upd_buf, wp_modify, wp_upd_buf.
  rw (alter_slot _ i (bufs s) b) //= alter_again //= Hf fl_clear_dirty fl_set_valid. exact HQ.
Qed.

Lemma iderw_read i b s (Q : unit → bcache → Prop) :
  bufs s !! i = Some b → holdingsleep_of me b = true → b_flags b = fl false false → b_dev b = 1 →
  b_blockno b < d_size (bdisk s) →
  Q tt (set_bufs (<[i := set_flags (fl true false)
          (set_data (rd (d_blocks (bdisk s)) (b_blockno b)) b)]> (bufs s)) s) →
  wp (iderw me i) s Q.
Proof.
  intros Hb Hh Hf Hd Hn HQ. pose proof (lookup_lt_Some _ _ _ Hb) as Hlt. rw /iderw.
  apply wp_bind, (wp_buf_at _ b); [done|]. rw Hh Hf fl_nothing Hd /=.
  apply wp_bind, wp_get. rw (proj2 (Z.leb_gt _ _)) // (has_dirty b false false) //.
  apply wp_bind, wp_upd_buf, wp_upd_buf.
  rw (alter_slot _ i (bufs s) b) //= alter_again //= Hf fl_set_valid. exact HQ.
Qed.

Definition is_block (dev n : Z) (b : buf) : bool := (b_dev b =? dev) && (b_blockno b =? n).
Definition is_free (b : buf) : bool := (b_refcnt b =? 0) && negb (has_flag b B_DIRTY).
Definition locked_by (b : buf) : buf := set_lock_of (Sleeplock 1 (sl_name (b_lock b)) me) b.

(** What [bget] does to the cache [s] whose list is [l]: it finds the block in
    buffer [i], or recycles the last free buffer of the list. *)
Definition got (s : bcache) (l : list nat) (dev n : Z) (i : nat) (s' : bcache) : Prop :=
  ∃ b, bufs s !! i = Some b ∧ i ∈ l ∧
    ((is_block dev n b = true ∧
      s' = set_bufs (<[i := locked_by (set_refcnt (u32 (b_refcnt b + 1)) b)]> (bufs s)) s) ∨
     ((∀ j c, j ∈ l → bufs s !! j = Some c → is_block dev n c = false) ∧ is_free b = true ∧
      (∃ l1 l2, l = l1 ++ i :: l2 ∧ ∀ j c, j ∈ l2 → bufs s !! j = Some c → is_free c = false) ∧
      s' = set_bufs (<[i := locked_by (recycle dev n b)]> (bufs s)) s)).

Lemma ring_paths bs l :
  ring bs l → ∃ h, bs !! HEAD = Some h ∧ path b_next bs (b_next h) l ∧ path b_prev bs (b_prev h) (reverse l).
Proof.
  intros [Hnd Hin Hl]. destruct (lookup_lt_is_Some_2 bs HEAD) as [h Hh]; [apply Hin; by left|].
  exists h. split_and!; [done| |].
  - eapply linked_path_next; [exact Hl| |done]. intros i Hi. apply Hin. by right.
  - eapply linked_path_prev; [exact Hl| |done]. intros i Hi. apply Hin. by right.
Qed.

(** The lock of a buffer nobody has. *)
Lemma wp_lock_new i b s s0 (Q : nat → bcache → Prop) :
  bufs s0 !! i = Some b → sl_locked (b_lock b) = 0 → bheld s0 = ["bcache"%string] →
  Q i (Bcache (<[i := locked_by b]> (bufs s0)) (bdisk s0) (bheld s)) → bheld s = [] →
  wp (_ ← lock_release "bcache"; _ ← acquiresleep_of me i; mret i) s0 Q.
Proof.
  intros Hb Hl Hh HQ Hs. apply wp_bind, (wp_lock_release _ []); [done|set_solver|].
  rw /acquiresleep_of. apply wp_bind, wp_bind, (wp_buf_at _ b); [done|]. rw Hl /=.
  apply wp_upd_buf, wp_ret. rw /= (alter_slot _ i (bufs s0) b) //. by rw Hs in HQ.
Qed.

Lemma bget_wp s l dev n :
  ring (bufs s) l → bheld s = [] → (length l ≤ NBUF)%nat →
  (∀ i b, i ∈ l → bufs s !! i = Some b → is_free b = true ∨ is_block dev n b = true → sl_locked (b_lock b) = 0) →
  (∃ i b, i ∈ l ∧ bufs s !! i = Some b ∧ (is_free b = true ∨ is_block dev n b = true)) →
  wp (bget me dev n) s (got s l dev n).
Proof.
  intros Hr Hh Hlen Hlk (i0&b0&Hi0&Hb0&Hok).
  destruct (ring_paths _ _ Hr) as (h&HH&Hpn&Hpp). rw /bget.
  assert (HEAD ∉ l) as HHl by (by apply ring_nodup, NoDup_cons in Hr as [? _]).
  apply wp_bind, wp_lock_acquire; [rw /= Hh; set_solver|].
  apply wp_bind, wp_gets, wp_bind, (wp_buf_at _ h); [done|]. cbn [bufs set_held bcache_HasLocks].
  pose proof (scan_spec b_next (is_block dev n) (bufs s) l (b_next h) (S NBUF) Hpn HHl ltac:(lia)) as Hs.
  change (held s) with (bheld s). rw Hh.
  change (λ b, (b_dev b =? dev) && (b_blockno b =? n)) with (is_block dev n).
  destruct (scan b_next (is_block dev n) (bufs s) (S NBUF) (b_next h)) as [i|].
  - destruct Hs as (l1&l2&b&->&Hb&HP&_). apply wp_bind, wp_upd_buf.
    cbn [bufs set_bufs bdisk bheld].
    rw (alter_slot _ i (bufs s) b) //. pose proof (lookup_lt_Some _ _ _ Hb).
    eapply (wp_lock_new _ _ s); [by apply list_lookup_insert_eq| |done| |done].
    + simpl. apply (Hlk i b); [set_solver|done|by right].
    + exists b. split_and!; [done|set_solver|]. left. split; [done|].
      cbn [bufs bdisk]. rw list_insert_insert_eq. by destruct s.
  - pose proof (scan_spec b_prev is_free (bufs s) (reverse l) (b_prev h) (S NBUF) Hpp
      ltac:(by rw elem_of_reverse) ltac:(rw length_reverse; lia)) as Hf.
    change (λ b, (b_refcnt b =? 0) && negb (has_flag b B_DIRTY)) with is_free.
    destruct (scan b_prev is_free (bufs s) (S NBUF) (b_prev h)) as [i|].
    2:{ destruct Hok as [Hok|Hok]; [specialize (Hf i0 b0)|specialize (Hs i0 b0 Hi0 Hb0); congruence].
        rw elem_of_reverse Hok in Hf. by specialize (Hf Hi0 Hb0). }
    destruct Hf as (l1&l2&b&El&Hb&HP&Hno).
    assert (l = reverse l2 ++ i :: reverse l1) as El'.
    { rw -(reverse_involutive l) El reverse_app reverse_cons -app_assoc //. }
    apply wp_bind, wp_upd_buf. cbn [bufs set_bufs bdisk bheld].
    rw (alter_slot _ i (bufs s) b) //. pose proof (lookup_lt_Some _ _ _ Hb).
    eapply (wp_lock_new _ _ s); [by apply list_lookup_insert_eq| |done| |done].
    + simpl. apply (Hlk i b); [set_solver|done|by left].
    + exists b. split_and!; [done|set_solver|]. right. split_and!; [done|done| |].
      * exists (reverse l2), (reverse l1). split; [done|]. intros j c Hj. apply Hno.
        by apply elem_of_reverse.
      * cbn [bufs bdisk]. rw list_insert_insert_eq. by destruct s.
Qed.

Lemma bio_buf s a i :
  bio_abs s a → (i < NBUF)%nat → ∃ b, bufs s !! i = Some b ∧ buf_ok a i b.
Proof.
  intros Ha Hi. destruct (lookup_lt_is_Some_2 (bufs s) i) as [b Hb]; [rw (ba_len _ _ Ha); lia|].
  exists b. split; [done|]. by apply (bo_buf _ _ (ba_bufs _ _ Ha)).
Qed.

(** The locked buffer of a block that was not held. *)
Lemma bufs_ok_take bs a i b b' n :
  bufs_ok bs a → (i < NBUF)%nat → bs !! i = Some b → ca_held a !! i = None →
  (is_block 1 n b = true ∨
   (∀ j c, (j < NBUF)%nat → bs !! j = Some c → is_block 1 n c = false) ∧ is_free b = true) →
  core b' = (fl true (bool_decide (n ∈ ca_pinned a)), 1, n, Sleeplock 1 (sl_name (b_lock b)) me, 1, view a n) →
  bufs_ok (<[i := b']> bs) (take_held a i n).
Proof.
  intros Hok Hi Hb Hnone Hcase Hcore. pose proof Hok as [H1 H2 H3 H4 H5 H6].
  rw /core in Hcore. injection Hcore as E1 E2 E3 E4 E5 E6.
  apply (bufs_ok_upd bs a _ i b); try done.
  - split; simpl.
    + exists true. rw E1 E2 E3. split; [|done]. f_equal. apply bool_decide_ext. tauto.
    + rw lookup_insert_eq E2 E3 E4 E5. done.
    + intros _. by rw E6 E3.
  - intros j c Hne Hj Hc [B1 B2 B3]. split; simpl; [done| |done].
    rw lookup_insert_ne; [congruence|done].
  - intros j c Hne Hj Hc Dc _ EQ. rw E3 in EQ. destruct Hcase as [Hc1|[Hc1 _]].
    + rw /is_block in Hc1. apply Hne, (H2 j i c b); try done; lia.
    + specialize (Hc1 j c Hj Hc). rw /is_block in Hc1. lia.
  - intros j m Hne. simpl. rw lookup_insert_ne; [congruence|apply H3].
  - simpl. intros m Hm. destruct (decide (m = n)) as [->|Hmn]; [by right|]. left. split; [done|].
    intros [D E]. destruct Hcase as [Hc1|[_ Hfr]]; [rw /is_block in Hc1; lia|].
    destruct (H1 i b Hi Hb) as [(v&Hfl&_) _ _]. rw /is_free (has_dirty b _ _ Hfl) in Hfr.
    rw bool_decide_eq_true_2 in Hfr; [by rw E|]. by rw andb_false_r in Hfr.
  - simpl. intros m d Hm. destruct (H5 m d Hm) as [Hb' Hl]. split; [|done].
    rw /busy in Hb' |- *. apply elem_of_union in Hb' as [Hx|Hx]; [|set_solver].
    apply elem_of_union_l. apply elem_held_blocks in Hx as [j Hj]. apply elem_held_blocks.
    exists j. simpl. rw lookup_insert_ne //. congruence.
Qed.

Lemma perm_seq_elem (l : list nat) i : l ≡ₚ seq 0 NBUF → i ∈ l ↔ (i < NBUF)%nat.
Proof. intros ->. rw elem_of_seq. lia. Qed.

(** A buffer no one holds is not locked; so are the free ones and those of [n]. *)
Lemma not_held_unlocked s a i b n :
  bio_abs s a → (i < NBUF)%nat → bufs s !! i = Some b → n ∉ held_blocks a →
  is_free b = true ∨ is_block 1 n b = true →
  ca_held a !! i = None ∧ sl_locked (b_lock b) = 0 ∧ b_refcnt b = 0.
Proof.
  intros Ha Hi Hb Hn Hc. destruct (bo_buf _ _ (ba_bufs _ _ Ha) i b Hi Hb) as [_ Hst _].
  destruct (ca_held a !! i) as [m|] eqn:Eh; [|tauto]. destruct Hst as (D&E&_&_&R).
  destruct Hc as [Hc|Hc]; [rw /is_free R in Hc; done|].
  destruct Hn. apply elem_held_blocks. exists i. rw Eh. f_equal. rw /is_block in Hc. lia.
Qed.

Lemma block_or_free s a n :
  bio_abs s a → n ∈ ca_pinned a ∨ (size (busy a) < NBUF)%nat →
  ∃ i b, (i < NBUF)%nat ∧ bufs s !! i = Some b ∧ (is_free b = true ∨ is_block 1 n b = true).
Proof.
  intros Ha [Hp|Hsz].
  - destruct (bo_pin _ _ (ba_bufs _ _ Ha) n Hp) as (i&b&Hi&Hb&D&E). exists i, b.
    split_and!; try done. right. rw /is_block. lia.
  - pose proof (free_buffer _ _ (ba_bufs _ _ Ha) (ba_len _ _ Ha) Hsz) as Hf.
    destruct (decide (Exists (λ i, from_option is_free false (bufs s !! i) = true) (seq 0 NBUF))) as [Hx|Hx].
    + apply Exists_exists in Hx as (i&Hi%elem_of_seq&Hx).
      destruct (bufs s !! i) as [b|] eqn:Hb; [|done]. exists i, b. split_and!; [lia|done|by left].
    + destruct Hf. intros i b Hi Hb. apply not_Exists_Forall in Hx; [|apply _].
      rewrite Forall_forall in Hx. specialize (Hx i). rw elem_of_seq in Hx.
      apply not_true_is_false. intros Hfree. apply Hx; [lia|]. by rw Hb.
Qed.

Lemma bread_wp s a n :
  bio_abs s a → 0 ≤ n < d_size (bdisk s) → n ∉ held_blocks a →
  n ∈ ca_pinned a ∨ (size (busy a) < NBUF)%nat →
  wp (bread me 1 n) s (λ i s', ca_held a !! i = None ∧ d_size (bdisk s') = d_size (bdisk s) ∧
    bio_abs s' (take_held a i n)).
Proof.
  intros Ha Hn Hnh Hroom. pose proof Ha as [Hlen (l&Hr&Hl) Hh Hd Hw Hrg Hbs].
  rw /bread. apply wp_bind. eapply wp_mono; [apply (bget_wp s l); [done|done| | |]|].
  { by rw Hl length_seq. }
  { intros i b Hi Hb Hc. apply perm_seq_elem in Hi; [|done].
      by apply (not_held_unlocked s a i b n) in Hc as (_&?&_). }
  { destruct (block_or_free s a n Ha Hroom) as (i&b&Hi&Hb&Hc). exists i, b.
      split_and!; try done. by apply perm_seq_elem. }
  intros i s' (b&Hb&Hi&Hc). apply perm_seq_elem in Hi; [|done].
  assert (ca_held a !! i = None ∧ sl_locked (b_lock b) = 0 ∧ b_refcnt b = 0) as (Hnone&Hlk&Href).
  { apply (not_held_unlocked s a i b n); try done. naive_solver. }
  pose proof (lookup_lt_Some _ _ _ Hb) as Hlt.
  assert (∀ b', b_next b' = b_next b → b_prev b' = b_prev b → ∃ l, ring (<[i := b']> (bufs s)) l ∧ l ≡ₚ seq 0 NBUF) as Hring.
  { intros b' E1 E2. exists l. split; [|done]. by apply (ring_insert _ _ _ b). }
  assert (∀ j m, ca_held (take_held a i n) !! j = Some m → 0 ≤ m < d_size (bdisk s)) as Hrg'.
  { intros j m. simpl. intros [[_ <-]|[_ Hj]]%lookup_insert_Some; [done|eauto]. }
  destruct (bo_buf _ _ Hbs i b Hi Hb) as [(v&Hfl&Hv) _ Hdat].
  destruct Hc as [[Hblk ->]|(Hno&Hfree&_&->)].
  - assert (b_dev b = 1 ∧ b_blockno b = n) as [D E] by (rw /is_block in Hblk; lia).
    apply wp_bind, (wp_buf_at _ (locked_by (set_refcnt (u32 (b_refcnt b + 1)) b))).
    { by apply list_lookup_insert_eq. }
    rw (has_valid _ v (bool_decide (b_dev b = 1 ∧ b_blockno b ∈ ca_pinned a))) // Hv //. apply wp_bind, wp_when_false, wp_ret.
    split_and!; try done. split; try done; simpl; [by rw length_insert|by apply Hring|].
    apply (bufs_ok_take _ _ _ b); try done; [by left|].
    rw /core /= Hfl Hv // D E Hdat // E Href /=. repeat f_equal. apply bool_decide_ext. tauto.
  - apply wp_bind, (wp_buf_at _ (locked_by (recycle 1 n b))).
    { by apply list_lookup_insert_eq. }
    apply wp_bind, wp_when_true.
    apply (iderw_read i (locked_by (recycle 1 n b))); try done; [by apply list_lookup_insert_eq| |exact (proj2 Hn)|].
    { rw /holdingsleep_of /= Z.eqb_refl //. }
    apply wp_ret. split_and!; try done.
    assert (∀ j c, (j < NBUF)%nat → bufs s !! j = Some c → is_block 1 n c = false) as Hno'.
    { intros j c Hj. apply Hno. by apply perm_seq_elem. }
    assert (n ∉ ca_pinned a) as Hnp.
    { intros Hp. destruct (bo_pin _ _ Hbs n Hp) as (j&c&Hj&Hcj&D&E).
      specialize (Hno' j c Hj Hcj). rw /is_block in Hno'. lia. }
    split; try done; simpl; rw list_insert_insert_eq; [by rw length_insert|by apply Hring|].
    apply (bufs_ok_take _ _ _ b); try done; [by right|].
    rw /core /= bool_decide_eq_false_2 // Hd. f_equal. rw /view.
    destruct (ca_mem a !! n) as [d|] eqn:Em; [|done].
    destruct (bo_mem _ _ Hbs n d Em) as [Hx _]. set_solver.
Qed.

Lemma held_buf s a i n :
  bio_abs s a → ca_held a !! i = Some n →
  (i < NBUF)%nat ∧ ∃ b, bufs s !! i = Some b ∧ holdingsleep_of me b = true ∧
    core b = (fl true (bool_decide (n ∈ ca_pinned a)), 1, n, b_lock b, 1, view a n) ∧
    sl_locked (b_lock b) = 1 ∧ sl_pid (b_lock b) = me.
Proof.
  intros Ha Hi. pose proof (bo_held _ _ (ba_bufs _ _ Ha) i n Hi) as Hlt. split; [done|].
  destruct (bio_buf s a i Ha Hlt) as (b&Hb&[(v&Hfl&Hv) Hst Hd]). exists b. rw Hi in Hst.
  destruct Hst as (D&E&L&P&R). split_and!; try done.
  - by rw /holdingsleep_of L P Z.eqb_refl.
  - rw /core Hfl Hv // D E R Hd // E. repeat f_equal. apply bool_decide_ext. tauto.
Qed.

(** A change of block [n], held in buffer [i], and of nothing else. *)
Lemma bufs_ok_touch bs a a' i b b' n :
  bufs_ok bs a → bs !! i = Some b → ca_held a !! i = Some n → ca_held a' = ca_held a →
  sl_locked (b_lock b') = 1 → sl_pid (b_lock b') = me →
  core b' = (fl true (bool_decide (n ∈ ca_pinned a')), 1, n, b_lock b', 1, view a' n) →
  (∀ m, m ≠ n → ca_mem a' !! m = ca_mem a !! m ∧ rd (ca_disk a') m = rd (ca_disk a) m) →
  (∀ m, m ≠ n → m ∈ ca_pinned a' ↔ m ∈ ca_pinned a) →
  (∀ d, ca_mem a' !! n = Some d → length d = Z.to_nat BSIZE) →
  length (rd (ca_disk a') n) = Z.to_nat BSIZE →
  bufs_ok (<[i := b']> bs) a'.
Proof.
  intros Hok Hb Hi Hheld L P Hcore Hview Hpin Hmem Hdisk. pose proof Hok as [H1 H2 H3 H4 H5 H6].
  rw /core in Hcore. injection Hcore as E1 E2 E3 E5 E6.
  assert (Hlt := H3 i n Hi). destruct (H1 i b Hlt Hb) as [_ Hst _]. rw Hi in Hst.
  destruct Hst as (D&E&_).
  assert (∀ j c, j ≠ i → (j < NBUF)%nat → bs !! j = Some c → b_dev c = 1 → b_blockno c ≠ n) as Hoth.
  { intros j c Hne Hj Hc Dc EQ. apply Hne, (H2 j i c b); try done. by rw EQ. }
  apply (bufs_ok_upd bs a _ i b); try done.
  - split.
    + exists true. rw E1 E2 E3. split; [|done]. f_equal. apply bool_decide_ext. tauto.
    + rw Hheld Hi. by split_and!.
    + intros _. by rw E6 E3.
  - intros j c Hne Hj Hc [(v&B1&Bv) B2 B3]. split; [| by rw Hheld |].
    + exists v. split; [|done]. rw B1. f_equal. apply bool_decide_ext.
      split; intros [Dc Hm]; (split; [done|]); specialize (Hpin _ (Hoth j c Hne Hj Hc Dc)); tauto.
    + intros Dc. rw B3 // /view. by destruct (Hview _ (Hoth j c Hne Hj Hc Dc)) as [-> ->].
  - intros j c Hne Hj Hc Dc _. rw E3. eauto.
  - intros j m _ Hm. rw Hheld in Hm. eauto.
  - intros m Hm. destruct (decide (m = n)) as [->|Hne]; [by right|].
    left. rw -Hpin //. split; [done|]. rw E. naive_solver.
  - intros m d Hm. destruct (decide (m = n)) as [->|Hne].
    + split; [|eauto]. apply elem_of_union_l, elem_held_blocks. exists i. by rw Hheld.
    + destruct (Hview m Hne) as [Em _]. rw Em in Hm. destruct (H5 m d Hm) as [Hx Hl].
      split; [|done]. rw /busy /held_blocks Hheld in Hx |- *. apply elem_of_union in Hx as [?|?]; [set_solver|].
      apply elem_of_union_r, Hpin; done.
  - intros m. destruct (decide (m = n)) as [->|Hne]; [done|].
    destruct (Hview m Hne) as [_ ->]. done.
Qed.

Lemma view_len s a n : bio_abs s a → length (view a n) = Z.to_nat BSIZE.
Proof.
  intros Ha. rw /view. destruct (ca_mem a !! n) as [d|] eqn:E.
  - by destruct (bo_mem _ _ (ba_bufs _ _ Ha) n d E).
  - apply (bo_disk _ _ (ba_bufs _ _ Ha)).
Qed.

(** The cache after such a change. *)
Lemma bio_touch s a a' i b b' n d' :
  bio_abs s a → bufs s !! i = Some b → ca_held a !! i = Some n → ca_held a' = ca_held a →
  b_next b' = b_next b → b_prev b' = b_prev b → b_lock b' = b_lock b →
  core b' = (fl true (bool_decide (n ∈ ca_pinned a')), 1, n, b_lock b', 1, view a' n) →
  (∀ m, m ≠ n → ca_mem a' !! m = ca_mem a !! m ∧ rd (ca_disk a') m = rd (ca_disk a) m) →
  (∀ m, m ≠ n → m ∈ ca_pinned a' ↔ m ∈ ca_pinned a) →
  (∀ d, ca_mem a' !! n = Some d → length d = Z.to_nat BSIZE) →
  length (rd (ca_disk a') n) = Z.to_nat BSIZE →
  d_size d' = d_size (bdisk s) → d_blocks d' = ca_disk a' → d_writes d' = ca_writes a' →
  bio_abs (Bcache (<[i := b']> (bufs s)) d' (bheld s)) a'.
Proof.
  intros Ha Hb Hi Hheld En Ep El Hcore Hv Hp Hm Hd Es Ed Ew.
  pose proof Ha as [Hlen (l&Hr&Hl) Hh _ _ Hrg Hbs].
  destruct (held_buf s a i n Ha Hi) as (_&b0&Hb0&_&_&L&P).
  assert (b0 = b) as -> by congruence.
  split; simpl; try done.
  - by rw length_insert.
  - exists l. split; [|done]. by apply (ring_insert _ _ _ b).
  - rw Hheld Es. done.
  - apply (bufs_ok_touch _ a _ _ b _ n); try done; congruence.
Qed.

Lemma bset_wp s a i n d :
  bio_abs s a → ca_held a !! i = Some n → length d = Z.to_nat BSIZE →
  wp (bset i d) s (λ _ s', d_size (bdisk s') = d_size (bdisk s) ∧
    bio_abs s' (set_block a n d)).
Proof.
  intros Ha Hi Hd. destruct (held_buf s a i n Ha Hi) as (_&b&Hb&_&Hc&_).
  apply wp_upd_buf. split; [done|]. rw (alter_slot _ i (bufs s) b) //.
  rw /core in Hc. injection Hc as E1 E2 E3 E5 E6.
  apply (bio_touch s a _ i b _ n); try done; simpl.
  - by rw /core /= E1 E2 E3 E5 /view /= lookup_insert_eq.
  - intros m Hm%not_eq_sym. by rw lookup_insert_ne.
  - rw lookup_insert_eq. congruence.
  - apply (bo_disk _ _ (ba_bufs _ _ Ha)).
  - apply (ba_disk _ _ Ha).
  - apply (ba_writes _ _ Ha).
Qed.

Lemma bpin_wp s a i n :
  bio_abs s a → ca_held a !! i = Some n →
  wp (bpin i) s (λ _ s', d_size (bdisk s') = d_size (bdisk s) ∧
    bio_abs s' (pin_block a n)).
Proof.
  intros Ha Hi. destruct (held_buf s a i n Ha Hi) as (_&b&Hb&_&Hc&_).
  apply wp_upd_buf. split; [done|]. rw (alter_slot _ i (bufs s) b) //.
  rw /core in Hc. injection Hc as E1 E2 E3 E5 E6.
  apply (bio_touch s a _ i b _ n); try done; simpl.
  - rw /core /= E1 E2 E3 E5 E6 {2}/view /= lookup_insert_eq fl_set_dirty bool_decide_eq_true_2 //. set_solver.
  - intros m Hm%not_eq_sym. by rw lookup_insert_ne.
  - set_solver.
  - rw lookup_insert_eq. intros ? [= <-]. exact (view_len s a n Ha).
  - apply (bo_disk _ _ (ba_bufs _ _ Ha)).
  - apply (ba_disk _ _ Ha).
  - apply (ba_writes _ _ Ha).
Qed.

Lemma bwrite_wp s a i n :
  bio_abs s a → ca_held a !! i = Some n →
  wp (bwrite me i) s (λ _ s', d_size (bdisk s') = d_size (bdisk s) ∧
    bio_abs s' (flush_block a n)).
Proof.
  intros Ha Hi. destruct (held_buf s a i n Ha Hi) as (_&b&Hb&Hh&Hc&_).
  rw /core in Hc. injection Hc as E1 E2 E3 E5 E6.
  pose proof (lookup_lt_Some _ _ _ Hb) as Hlt. destruct (ba_range _ _ Ha i n Hi) as [_ Hn].
  rw /bwrite. apply wp_bind, (wp_buf_at _ b); [done|]. rw Hh /=. apply wp_bind, wp_upd_buf.
  rw (alter_slot _ i (bufs s) b) // E1 fl_set_dirty.
  apply (iderw_write i (set_flags (fl true true) b) true); try done.
  { by apply list_lookup_insert_eq. } { simpl. by rw E3. }
  split; [done|]. cbn [bufs set_bufs]. rw list_insert_insert_eq.
  apply (bio_touch s a _ i b _ n); try done; simpl.
  - rw /core /= E2 E3 E5 E6 /view /= lookup_delete_eq /rd lookup_insert_eq bool_decide_eq_false_2 //. set_solver.
  - intros m Hm%not_eq_sym. rw lookup_delete_ne // /rd lookup_insert_ne //.
  - set_solver.
  - by rw lookup_delete_eq.
  - rw /rd lookup_insert_eq. exact (view_len s a n Ha).
  - by rw E3 E6 (ba_disk _ _ Ha).
  - by rw E3 E6 (ba_writes _ _ Ha).
Qed.

Lemma view_drop a i n m :
  n ∈ ca_pinned a ∨ view a n = rd (ca_disk a) n → view (drop_held a i n) m = view a m.
Proof.
  intros Hc. rw /view /=. case_decide as Hp; [done|]. destruct Hc as [?|Hc]; [done|].
  destruct (decide (m = n)) as [->|Hne%not_eq_sym].
  - rw lookup_delete_eq. by rw /view in Hc.
  - by rw lookup_delete_ne.
Qed.

Lemma bufs_ok_drop bs a i b b' n :
  bufs_ok bs a → bs !! i = Some b → ca_held a !! i = Some n →
  n ∈ ca_pinned a ∨ view a n = rd (ca_disk a) n →
  core b = (fl true (bool_decide (n ∈ ca_pinned a)), 1, n, b_lock b, 1, view a n) →
  core b' = (fl true (bool_decide (n ∈ ca_pinned a)), 1, n, Sleeplock 0 (sl_name (b_lock b)) 0, 0, view a n) →
  bufs_ok (<[i := b']> bs) (drop_held a i n).
Proof.
  intros Hok Hb Hi Hc Hcb Hcb'. pose proof Hok as [H1 H2 H3 H4 H5 H6].
  rw /core in Hcb, Hcb'. injection Hcb as _ D E _ _. injection Hcb' as E1 E2 E3 E4 E5 E6.
  assert (∀ j c, j ≠ i → (j < NBUF)%nat → bs !! j = Some c → b_dev c = 1 → b_blockno c ≠ n) as Hoth.
  { intros j c Hne Hj Hcj Dc EQ. apply Hne, (H2 j i c b); try done; [eauto|by rw EQ]. }
  apply (bufs_ok_upd bs a _ i b); try done; [eauto|..].
  - split; rw ?view_drop //; simpl.
    + exists true. rw E1 E2 E3. split; [|done]. f_equal. apply bool_decide_ext. tauto.
    + by rw lookup_delete_eq E4 E5.
    + intros _. by rw E6 E3.
  - intros j c Hne Hj Hcj [B1 B2 B3]. split; rw ?view_drop //; simpl.
    rw lookup_delete_ne; [congruence|done].
  - intros j c Hne Hj Hcj Dc _. rw E3. eauto.
  - simpl. intros j m _ [_ Hm]%lookup_delete_Some. eauto.
  - simpl. intros m Hm. destruct (decide (m = n)) as [->|Hne]; [by right|].
    left. split; [done|]. rw E. naive_solver.
  - intros m d Hm. assert (ca_mem a !! m = Some d ∧ (m ≠ n ∨ n ∈ ca_pinned a)) as [Hm' Hmn].
    { simpl in Hm. case_decide; [by auto|]. apply lookup_delete_Some in Hm as [? ?]. auto. }
    destruct (H5 m d Hm') as [Hx Hl]. split; [|done]. rw /busy in Hx |- *.
    apply elem_of_union in Hx as [Hx|Hx]; [|by apply elem_of_union_r].
    destruct (decide (m = n)) as [->|Hne]; [apply elem_of_union_r; simpl; naive_solver|].
    apply elem_of_union_l, elem_held_blocks. apply elem_held_blocks in Hx as [j Hj]. exists j.
    simpl. rw lookup_delete_ne //. congruence.
Qed.

Lemma core_alter f (bs : list buf) (i j : nat) :
  (∀ b, core (f b) = core b) → core <$> alter f j bs !! i = core <$> bs !! i.
Proof.
  intros Hf. destruct (decide (i = j)) as [->|Hne].
  - rw list_lookup_alter_eq. destruct (bs !! j); [|done]. by rw /= Hf.
  - rw list_lookup_alter_ne //. congruence.
Qed.

(** The end of [brelse]: buffer [i] moves to the front of the list. *)
Lemma move_front_wp s l1 i l2 b (Q : unit → bcache → Prop) :
  ring (bufs s) (l1 ++ i :: l2) → bufs s !! i = Some b →
  (∀ bs', ring bs' (i :: l1 ++ l2) → length bs' = length (bufs s) →
     (∀ j, core <$> bs' !! j = core <$> bufs s !! j) → Q tt (set_bufs bs' s)) →
  wp (_ ← upd_buf (b_next b) (set_prev (b_prev b));
      _ ← upd_buf (b_prev b) (set_next (b_next b));
      link_front i) s Q.
Proof.
  intros Hr Hb HQ. pose proof (lookup_lt_Some _ _ _ Hb) as Hlt.
  destruct (ring_unlink _ _ _ _ Hr) as (p&n&Hp&Hn&Hr').
  rw /prv Hb in Hp. rw /nxt Hb in Hn. injection Hp as Ep. injection Hn as En.
  assert (i ∉ HEAD :: l1 ++ l2) as Hi.
  { pose proof (ring_nodup _ _ Hr) as Hnd.
    change (HEAD :: l1 ++ i :: l2) with ((HEAD :: l1) ++ i :: l2) in Hnd.
    apply NoDup_app in Hnd as (_&Hd&[Hi2 _]%NoDup_cons). intros Hin.
    change (HEAD :: l1 ++ l2) with ((HEAD :: l1) ++ l2) in Hin.
    apply elem_of_app in Hin as [Hin|Hin]; [|done]. apply (Hd i Hin). by left. }
  destruct (ring_front _ _ _ Hr' Hi) as (h&Hh&Hr2); [by rw /unlinked !length_alter|].
  apply wp_bind, wp_upd_buf, wp_bind, wp_upd_buf. rw Ep En. cbn [bufs set_bufs].
  rw -/(unlinked p n (bufs s)) /link_front. rw /nxt in Hh.
  destruct (unlinked p n (bufs s) !! HEAD) as [hb|] eqn:EH; [|done].
  apply wp_bind, (wp_buf_at _ hb); [done|]. injection Hh as ->.
  do 3 apply wp_bind, wp_upd_buf. apply wp_upd_buf.
  apply (HQ (fronted i h (unlinked p n (bufs s)))); [done| |].
  - by rw /fronted /unlinked !length_alter.
  - intros j. by rw /fronted /unlinked !core_alter.
Qed.

Lemma brelse_wp s a i n l1 l2 :
  bio_abs s a → ca_held a !! i = Some n → n ∈ ca_pinned a ∨ view a n = rd (ca_disk a) n →
  ring (bufs s) (l1 ++ i :: l2) → l1 ++ i :: l2 ≡ₚ seq 0 NBUF →
  wp (brelse me i) s (λ _ s', bdisk s' = bdisk s ∧ bio_abs s' (drop_held a i n) ∧
    ring (bufs s') (i :: l1 ++ l2)).
Proof.
  intros Ha Hi Hc Hr Hl. destruct (held_buf s a i n Ha Hi) as (Hlt&b&Hb&Hh&Hcore&_).
  pose proof Ha as [Hlen _ Hheld Hd Hw Hrg Hbs]. pose proof (lookup_lt_Some _ _ _ Hb) as Hlt'.
  pose proof Hcore as E. rw /core in E. injection E as E1 E2 E3 E5 E6.
  rw /brelse. apply wp_bind, (wp_buf_at _ b); [done|]. rw Hh /=.
  apply wp_bind, wp_upd_buf. apply wp_bind, wp_lock_acquire; [rw /= Hheld; set_solver|].
  apply wp_bind, wp_upd_buf. cbn [bufs set_bufs set_held bcache_HasLocks].
  rw (alter_slot _ i (bufs s) b) // alter_again //=. rw E5 Hheld.
  set (b' := set_refcnt _ _). apply wp_bind, (wp_buf_at _ b'); [by apply list_lookup_insert_eq|].
  apply wp_bind, wp_when_true. eapply (move_front_wp _ l1 i l2).
  - by apply (ring_insert _ _ _ b).
  - by apply list_lookup_insert_eq.
  - intros bs' Hr' Hlen' Hcs. apply (wp_lock_release _ []); [done|set_solver|].
    simpl. split; [done|]. split; [|done]. split; simpl; try done.
    + by rw Hlen' /= length_insert.
    + exists (i :: l1 ++ l2). split; [done|]. by rw Permutation_middle.
    + intros j m [_ Hm]%lookup_delete_Some. eauto.
    + eapply bufs_ok_core; [intros j _; symmetry; apply Hcs|]. simpl.
      apply (bufs_ok_drop _ _ _ b); try done. by rw /core /= E1 E2 E3 E6.
Qed.

End BioAbs.

(** bio.c implements the interface, for the process [me]. *)
#[global] Program Instance bio_Cache (me : Z) : Cache bcache := {|
  c_bread := bread me; c_bwrite := bwrite me; c_brelse := brelse me;
  c_bdata := bdata; c_bset := bset; c_bnumber := bnumber; c_bpin := bpin;
  c_abs := bio_abs me; c_size := λ s, d_size (bdisk s)
|}.
Next Obligation. intros me s a n Ha Hn Hh Hr. by apply bread_wp. Qed.
Next Obligation.
  intros me s a i n Ha Hi. destruct (held_buf me s a i n Ha Hi) as (_&b&Hb&_&Hc&_).
  rw /bdata. apply wp_bind, (wp_buf_at _ b); [done|]. apply wp_ret. split; [|done].
  rw /core in Hc. by injection Hc.
Qed.
Next Obligation. intros me s a i n d Ha Hi Hd. by apply bset_wp. Qed.
Next Obligation.
  intros me s a i n Ha Hi. destruct (held_buf me s a i n Ha Hi) as (_&b&Hb&_&Hc&_).
  rw /bnumber. apply wp_bind, (wp_buf_at _ b); [done|]. apply wp_ret. split; [|done].
  rw /core in Hc. by injection Hc.
Qed.
Next Obligation. intros me s a i n Ha Hi. by apply bpin_wp. Qed.
Next Obligation. intros me s a i n Ha Hi. by apply bwrite_wp. Qed.
Next Obligation.
  intros me s a i n Ha Hi Hc. destruct (ba_ring _ _ _ Ha) as (l&Hr&Hl).
  assert (i ∈ l) as Hil.
  { rw Hl elem_of_seq. pose proof (bo_held _ _ _ (ba_bufs _ _ _ Ha) i n Hi). lia. }
  apply list_elem_of_split in Hil as (l1&l2&->).
  eapply wp_mono; [by apply (brelse_wp me s a i n l1 l2)|].
  intros _ s' (Ed&Ha'&_). by rw Ed.
Qed.
Next Obligation.
  intros me s a n d Ha Hn. by destruct (bo_mem _ _ _ (ba_bufs _ _ _ Ha) n d Hn).
Qed.
Next Obligation. intros me s a n Ha. by apply (view_len me s). Qed.
Next Obligation. intros me s a i n Ha Hi. by apply (ba_range _ _ _ Ha i). Qed.
Next Obligation.
  intros me s a i j n Ha Hi Hj.
  destruct (held_buf me s a i n Ha Hi) as (Li&b&Hb&_&Cb&_).
  destruct (held_buf me s a j n Ha Hj) as (Lj&c&Hc&_&Cc&_).
  rw /core in Cb, Cc. injection Cb as _ D E _ _. injection Cc as _ D' E' _ _.
  apply (bo_uniq _ _ _ (ba_bufs _ _ _ Ha) i j b c); congruence.
Qed.

(** ** The cache at boot *)

Definition zero_buf : buf := Buf 0 0 0 (Sleeplock 0 "" 0) 0 0 0 zero_block.
Definition boot_cache (d : disk) : bcache := Bcache (replicate (S NBUF) zero_buf) d [].

(** The buffers after [binit]: the last one is in front. *)
Definition init_buf (i : nat) : buf :=
  Buf 0 0 0 (Sleeplock 0 "buffer" 0) 0 (if Nat.eqb i (NBUF - 1) then HEAD else S i)
    (if Nat.eqb i 0 then HEAD else i - 1)%nat zero_block.
Definition init_bufs : list buf :=
  (init_buf <$> seq 0 NBUF) ++ [Buf 0 0 0 (Sleeplock 0 "" 0) 0 0 (NBUF - 1) zero_block].

Lemma binit_run d : binit (boot_cache d) = Ret tt (Bcache init_bufs d []).
Proof. vm_compute. reflexivity. Qed.

Lemma init_ring : ring init_bufs (reverse (seq 0 NBUF)).
Proof.
  split.
  - apply (bool_decide_unpack _). vm_compute. exact I.
  - intros i. change (length init_bufs) with 31%nat. rw elem_of_cons elem_of_reverse
      elem_of_seq /HEAD /NBUF. lia.
  - vm_compute. repeat split.
Qed.

(** The cache that [binit] leaves: nothing held, nothing pinned. *)
Definition clean (d : disk) : cabs := Cabs (d_blocks d) ∅ ∅ ∅ (d_writes d).

Lemma init_abs me d :
  (∀ n, length (rd (d_blocks d) n) = Z.to_nat BSIZE) → bio_abs me (Bcache init_bufs d []) (clean d).
Proof.
  intros Hd. assert (∀ i b, (i < NBUF)%nat → init_bufs !! i = Some b →
    b_flags b = 0 ∧ b_dev b = 0 ∧ sl_locked (b_lock b) = 0 ∧ b_refcnt b = 0) as Hb.
  { intros i b Hi. rw /init_bufs lookup_app_l; [by rw length_fmap length_seq|].
    rw list_lookup_fmap lookup_seq_lt //=. by intros [= <-]. }
  split; try done.
  - exists (reverse (seq 0 NBUF)). split; [apply init_ring|apply reverse_Permutation].
  - split; try done.
    + intros i b Hi Hbi. destruct (Hb i b Hi Hbi) as (E1&E2&E3&E4). split; simpl.
      * exists false. rw E1 E2 bool_decide_eq_false_2 //. intros [? _]. done.
      * by rw lookup_empty.
      * by rw E2.
    + intros i j b c Hi Hj Hbi Hbj D. destruct (Hb i b Hi Hbi). naive_solver lia.
Qed.

(** ** Theorems *)

(** Binit: from the zeroed cache of the boot the list holds every buffer once, in both
    directions, and the cache represents the disk with no buffer held or pinned. *)
Theorem binit_establishes_cache (me : Z) (d : disk)
  (Hd : ∀ n, length (rd (d_blocks d) n) = Z.to_nat BSIZE) :
  wp binit (boot_cache d) (λ _ s,
    ring (bufs s) (reverse (seq 0 NBUF)) ∧ bdisk s = d ∧ bio_abs me s (clean d)).
Proof.
  rw /wp binit_run. split_and!; [apply init_ring|done|by apply init_abs].
Qed.

(** Bread: when the block is not already held and a buffer is left for it (the block
    is pinned, or fewer than NBUF blocks are held or pinned), bread returns a buffer no one
    holds, locked and with the current contents of the block (the pinned version if
    there is one, else what is on the disk); every other block keeps its contents, and nothing is
    written to the disk. *)
Theorem bread_returns_block (me : Z) (s : bcache) (a : cabs) (n : Z)
  (Ha : bio_abs me s a) (Hn : 0 ≤ n < d_size (bdisk s)) (Hh : n ∉ held_blocks a)
  (Hroom : n ∈ ca_pinned a ∨ (size (busy a) < NBUF)%nat) :
  wp (bread me 1 n) s (λ i s',
    ca_held a !! i = None ∧ bio_abs me s' (take_held a i n) ∧
    wp (bdata i) s' (λ data _, data = view a n)).
Proof.
  eapply wp_mono; [exact (bread_wp me s a n Ha Hn Hh Hroom)|]. intros i s' (Hi&_&Ha'). split_and!; try done.
  eapply wp_mono; [apply (bdata_law (Cache := bio_Cache me) s' _ i n Ha')|].
  - by rw /= lookup_insert_eq.
  - by intros d ? [-> _].
Qed.

(** Bget replaces the least recently used buffer: it returns the buffer that caches the
    block when there is one, and otherwise recycles the free buffer (no references, not
    B_DIRTY) closest to the tail of the list, every buffer behind it being in use; the
    buffer it returns is locked by the caller, and no other buffer changes. *)
Theorem bget_takes_cached_or_lru (me : Z) (s : bcache) (l : list nat) (dev n : Z)
  (Hr : ring (bufs s) l) (Hh : bheld s = []) (Hlen : (length l ≤ NBUF)%nat)
  (Hlk : ∀ i b, i ∈ l → bufs s !! i = Some b →
     is_free b = true ∨ is_block dev n b = true → sl_locked (b_lock b) = 0)
  (Hex : ∃ i b, i ∈ l ∧ bufs s !! i = Some b ∧ (is_free b = true ∨ is_block dev n b = true)) :
  wp (bget me dev n) s (got me s l dev n).
Proof. by apply bget_wp. Qed.

(** Brelse: the buffer is unlocked and moves to the front of the list, the others keep
    their order; the blocks keep their contents as long as the buffer was written or is pinned. *)
Theorem brelse_moves_to_front (me : Z) (s : bcache) (a : cabs) (i : nat) (n : Z) (l1 l2 : list nat)
  (Ha : bio_abs me s a) (Hi : ca_held a !! i = Some n)
  (Hc : n ∈ ca_pinned a ∨ view a n = rd (ca_disk a) n)
  (Hr : ring (bufs s) (l1 ++ i :: l2)) (Hl : l1 ++ i :: l2 ≡ₚ seq 0 NBUF) :
  wp (brelse me i) s (λ _ s', ring (bufs s') (i :: l1 ++ l2) ∧ bdisk s' = bdisk s ∧
    bio_abs me s' (drop_held a i n) ∧ ∀ m, view (drop_held a i n) m = view a m).
Proof.
  eapply wp_mono; [exact (brelse_wp me s a i n l1 l2 Ha Hi Hc Hr Hl)|]. intros _ s' (Hd&Ha'&Hr').
  split_and!; try done. intros m. by apply view_drop.
Qed.

(** Bwrite puts the contents of the held buffer on the disk, as one block write, and
    unpins it. *)
Theorem bwrite_reaches_disk (me : Z) (s : bcache) (a : cabs) (i : nat) (n : Z)
  (Ha : bio_abs me s a) (Hi : ca_held a !! i = Some n) :
  wp (bwrite me i) s (λ _ s', d_blocks (bdisk s') = <[n := view a n]> (ca_disk a) ∧
    d_writes (bdisk s') = ca_writes a ++ [(n, view a n)] ∧
    bio_abs me s' (flush_block a n)).
Proof.
  eapply wp_mono; [exact (bwrite_wp me s a i n Ha Hi)|]. intros _ s' [_ Ha'].
  split_and!; [apply (ba_disk _ _ _ Ha')|apply (ba_writes _ _ _ Ha')|done].
Qed.

(** ** Witnesses *)

Definition demo_disk : disk := Disk 1000 ∅ [].

Lemma demo_disk_len n : length (rd (d_blocks demo_disk) n) = Z.to_nat BSIZE.
Proof. rw /demo_disk /rd lookup_empty. reflexivity. Qed.

Lemma binit_establishes_cache_witness :
  (∀ n, length (rd (d_blocks demo_disk) n) = Z.to_nat BSIZE) ∧
  wp binit (boot_cache demo_disk) (λ _ s,
    ring (bufs s) (reverse (seq 0 NBUF)) ∧ bdisk s = demo_disk ∧ bio_abs 1 s (clean demo_disk)).
Proof. split; [exact demo_disk_len|]. apply (binit_establishes_cache 1 demo_disk demo_disk_len). Defined.

Definition demo_cache : bcache := Bcache init_bufs demo_disk [].

Lemma demo_abs : bio_abs 1 demo_cache (clean demo_disk).
Proof. apply init_abs, demo_disk_len. Qed.

Lemma bread_returns_block_witness :
  wp (bread 1 1 7) demo_cache (λ i s',
    ca_held (clean demo_disk) !! i = None ∧ bio_abs 1 s' (take_held (clean demo_disk) i 7) ∧
    wp (bdata i) s' (λ data _, data = zero_block)).
Proof.
  apply (bread_returns_block 1 demo_cache (clean demo_disk) 7 demo_abs).
  - vm_compute. split; congruence.
  - apply (bool_decide_unpack _). vm_compute. exact I.
  - right. vm_compute. lia.
Defined.

Lemma bget_takes_cached_or_lru_witness :
  wp (bget 1 1 7) demo_cache (got 1 demo_cache (reverse (seq 0 NBUF)) 1 7).
Proof.
  apply (bget_takes_cached_or_lru 1 demo_cache (reverse (seq 0 NBUF)) 1 7).
  - exact init_ring.
  - reflexivity.
  - vm_compute. lia.
  - intros i b Hi Hb _. destruct (bo_buf _ _ _ (ba_bufs _ _ _ demo_abs) i b) as [_ Hst _].
    + rw elem_of_reverse elem_of_seq in Hi. lia.
    + exact Hb.
    + exact (proj1 Hst).
  - exists 0%nat, (init_buf 0). split; [|split; [reflexivity|by left]].
    apply (bool_decide_unpack _). vm_compute. exact I.
Defined.

(** The cache in which block 7 was read into the last buffer. *)
Definition demo_held : bcache :=
  match bread 1 1 7 demo_cache with Ret _ s => s | _ => demo_cache end.
Definition demo_held_abs : cabs := take_held (clean demo_disk) 0 7.

Lemma demo_held_ok : bio_abs 1 demo_held demo_held_abs ∧ ring (bufs demo_held) (reverse (seq 0 NBUF)).
Proof.
  split.
  - pose proof (bread_wp 1 demo_cache (clean demo_disk) 7 demo_abs) as H.
    rw /wp /demo_held in H |- *. destruct (bread 1 1 7 demo_cache) as [i s| | |] eqn:E;
      [|destruct H..]; try (apply (bool_decide_unpack _); vm_compute; exact I);
      try (right; vm_compute; lia); try (vm_compute; split; congruence).
    assert (i = 0%nat) as ->.
    { pose proof (f_equal (λ o, match o with Ret i _ => i | _ => 1%nat end) E) as E'.
      vm_compute in E'. congruence. }
    apply H; [vm_compute; split; congruence|apply (bool_decide_unpack _); vm_compute; exact I|].
    right. vm_compute. lia.
  - split.
    + apply (bool_decide_unpack _). vm_compute. exact I.
    + intros i Hi. rw elem_of_cons elem_of_reverse elem_of_seq /HEAD /NBUF in Hi.
      change (length (bufs demo_held)) with 31%nat. lia.
    + vm_compute. repeat split.
Qed.

Lemma brelse_moves_to_front_witness :
  wp (brelse 1 0) demo_held (λ _ s', ring (bufs s') (0%nat :: reverse (seq 1 29) ++ []) ∧
    bdisk s' = bdisk demo_held ∧
    bio_abs 1 s' (drop_held demo_held_abs 0 7) ∧
    ∀ m, view (drop_held demo_held_abs 0 7) m = view demo_held_abs m).
Proof.
  apply (brelse_moves_to_front 1 demo_held demo_held_abs 0 7 (reverse (seq 1 29)) []).
  - exact (proj1 demo_held_ok).
  - reflexivity.
  - right. reflexivity.
  - exact (proj2 demo_held_ok).
  - apply (bool_decide_unpack _). vm_compute. exact I.
Defined.

Lemma bwrite_reaches_disk_witness :
  wp (bwrite 1 0) demo_held (λ _ s', d_blocks (bdisk s') = {[7 := zero_block]} ∧
    d_writes (bdisk s') = [(7, zero_block)] ∧
    bio_abs 1 s' (flush_block demo_held_abs 7)).
Proof.
  apply (bwrite_reaches_disk 1 demo_held demo_held_abs 0 7).
  - exact (proj1 demo_held_ok).
  - reflexivity.
Defined.
