(* ===== verification/Log.v ===== *)
(** * The write-ahead log (xv6/log.c).

    The log runs on any buffer cache that keeps the promises of [Cache].  Its state
    is the in-memory [struct log], the cache, the locks held and the processes
    asleep on [&log].  [recovered] is the disk that recovery makes of a disk on which
    the machine stopped.  The theorems: a commit is atomic whatever block write
    it stops after; recovery installs the committed transaction, and can itself be
    interrupted; log_write absorbs a block already logged; begin_op reserves
    space for what is admitted, and a process that waits for the log is woken. *)
From S2P Require Import Prelude Spinlock Layout Bio.
Local Open Scope Z_scope.

Definition MAXOPBLOCKS : Z := 10.
Definition LOGSIZE : Z := MAXOPBLOCKS * 3.

(** ** Data *)

(** [struct log], with the fields [n] and [block] of its header. *)
Record log := Log {
  l_start : Z;
  l_size : Z;
  l_outstanding : Z;
  l_committing : bool;
  l_dev : Z;
  l_n : Z;
  l_block : list Z
}.

Definition set_place (start size dev : Z) (l : log) : log :=
  Log start size (l_outstanding l) (l_committing l) dev (l_n l) (l_block l).
Definition set_outstanding (v : Z) (l : log) : log :=
  Log (l_start l) (l_size l) v (l_committing l) (l_dev l) (l_n l) (l_block l).
Definition set_committing (v : bool) (l : log) : log :=
  Log (l_start l) (l_size l) (l_outstanding l) v (l_dev l) (l_n l) (l_block l).
Definition set_n (v : Z) (l : log) : log :=
  Log (l_start l) (l_size l) (l_outstanding l) (l_committing l) (l_dev l) v (l_block l).
Definition set_block_at (i : nat) (v : Z) (l : log) : log :=
  Log (l_start l) (l_size l) (l_outstanding l) (l_committing l) (l_dev l) (l_n l) (<[i := v]> (l_block l)).

(** The log before [initlog]. *)
Definition log0 : log := Log 0 0 0 false 0 0 (replicate (Z.to_nat LOGSIZE) 0).

Record lsys (S : Type) := Lsys {
  lg : log;
  lcache : S;
  lheld : list string;
  lsleep : gset nat
}.
Arguments Lsys {_} _ _ _ _.
Arguments lg {_} _.
Arguments lcache {_} _.
Arguments lheld {_} _.
Arguments lsleep {_} _.

#[global] Program Instance lsys_HasLocks S : HasLocks (lsys S) :=
  {| held := lheld; set_held := λ h s, Lsys (lg s) (lcache s) h (lsleep s) |}.
Next Obligation. done. Qed.

(** ** Operations *)

Section Ops.
Context {S : Type} `{!Cache S}.

Definition incache {A} (m : K S A) : K (lsys S) A :=
  zoom lcache (λ c s, Lsys (lg s) c (lheld s) (lsleep s)) m.
Definition upd_log (f : log → log) : K (lsys S) unit :=
  modify (λ s, Lsys (f (lg s)) (lcache s) (lheld s) (lsleep s)).
(** [log.lh.block[i]]. *)
Definition lh_block (i : Z) : K (lsys S) Z := λ s,
  match l_block (lg s) !! Z.to_nat i with
  | Some b => Ret b s
  | None => Undef "log.lh.block: index out of bounds"
  end.
Definition set_lh_block (i v : Z) : K (lsys S) unit :=
  s ← get;
  if Nat.ltb (Z.to_nat i) (length (l_block (lg s))) then upd_log (set_block_at (Z.to_nat i) v)
  else undef "log.lh.block: index out of bounds".

(** [wakeup(&log)], and [sleep(&log, &log.lock)] by process [me]: the caller's loop
    runs again when it is woken. *)
Definition wakeup_log : K (lsys S) unit :=
  modify (λ s, Lsys (lg s) (lcache s) (lheld s) ∅).
Definition sleep_log {A} (me : nat) : K (lsys S) A :=
  _ ← lock_release "log";
  _ ← modify (λ s, Lsys (lg s) (lcache s) (lheld s) ({[me]} ∪ lsleep s));
  sleeps "log".

(** [readsb] of fs.c. *)
Definition readsb (dev : Z) : K S superblock :=
  i ← c_bread dev 1;
  d ← c_bdata i;
  _ ← c_brelse i;
  mret (get_superblock d).

Definition install_trans : K (lsys S) unit :=
  n ← gets (λ s, l_n (lg s));
  for_each (range 0 n) (λ tail,
    l ← gets lg;
    lbuf ← incache (c_bread (l_dev l) (u32 (l_start l + tail + 1)));
    b ← lh_block tail;
    dbuf ← incache (c_bread (l_dev l) (u32 b));
    d ← incache (c_bdata lbuf);
    _ ← incache (c_bset dbuf d);
    _ ← incache (c_bwrite dbuf);
    _ ← incache (c_brelse lbuf);
    incache (c_brelse dbuf)).

(** The fields of the on-disk header. *)
Definition head_n (d : block) : Z := s32 (get32 0 d).
Definition head_block (d : block) (i : Z) : Z := s32 (get32 (4 + 4 * Z.to_nat i) d).

Definition read_head : K (lsys S) unit :=
  l ← gets lg;
  buf ← incache (c_bread (l_dev l) (u32 (l_start l)));
  d ← incache (c_bdata buf);
  _ ← upd_log (set_n (head_n d));
  _ ← for_each (range 0 (head_n d)) (λ i, set_lh_block i (head_block d i));
  incache (c_brelse buf).

(** The stores of [write_head] into the block. *)
Definition fill_head (n : Z) (bs : list Z) (d : block) : block :=
  foldl (λ d i, put32 (4 + 4 * i) (default 0 (bs !! i)) d) (put32 0 n d) (seq 0 (Z.to_nat n)).

Definition write_head : K (lsys S) unit :=
  l ← gets lg;
  buf ← incache (c_bread (l_dev l) (u32 (l_start l)));
  d ← incache (c_bdata buf);
  if LOGSIZE <? l_n l then undef "log.lh.block: index out of bounds"
  else
    _ ← incache (c_bset buf (fill_head (l_n l) (l_block l) d));
    _ ← incache (c_bwrite buf);
    incache (c_brelse buf).

Definition recover_from_log : K (lsys S) unit :=
  _ ← read_head;
  _ ← install_trans;
  _ ← upd_log (set_n 0);
  write_head.

(** The size check of [initlog] is of a constant: the header has 124 bytes. *)
Definition sizeof_logheader : Z := 4 + 4 * LOGSIZE.
Definition initlog (dev : Z) : K (lsys S) unit :=
  if BSIZE <=? sizeof_logheader then panic "initlog: too big logheader"
  else
    sb ← incache (readsb dev);
    _ ← upd_log (set_place (s32 (sb_logstart sb)) (s32 (sb_nlog sb)) dev);
    recover_from_log.

(** The test of [begin_op]: the process has to wait. *)
Definition must_wait (l : log) : bool :=
  l_committing l || (LOGSIZE <? l_n l + (l_outstanding l + 1) * MAXOPBLOCKS).

Definition begin_op (me : nat) : K (lsys S) unit :=
  _ ← lock_acquire "log";
  l ← gets lg;
  if must_wait l then sleep_log me
  else
    _ ← upd_log (λ l, set_outstanding (l_outstanding l + 1) l);
    lock_release "log".

Definition write_log : K (lsys S) unit :=
  n ← gets (λ s, l_n (lg s));
  for_each (range 0 n) (λ tail,
    l ← gets lg;
    to ← incache (c_bread (l_dev l) (u32 (l_start l + tail + 1)));
    b ← lh_block tail;
    from ← incache (c_bread (l_dev l) (u32 b));
    d ← incache (c_bdata from);
    _ ← incache (c_bset to d);
    _ ← incache (c_bwrite to);
    _ ← incache (c_brelse from);
    incache (c_brelse to)).

Definition commit : K (lsys S) unit :=
  n ← gets (λ s, l_n (lg s));
  when (0 <? n)
    (_ ← write_log;
     _ ← write_head;
     _ ← install_trans;
     _ ← upd_log (set_n 0);
     write_head).

(** [end_op] up to the release of the lock: whether to commit. *)
Definition end_op_start : K (lsys S) bool :=
  _ ← lock_acquire "log";
  _ ← upd_log (λ l, set_outstanding (l_outstanding l - 1) l);
  l ← gets lg;
  if l_committing l then panic "log.committing"
  else
    r ← (if l_outstanding l =? 0 then
           _ ← upd_log (set_committing true); mret true
         else _ ← wakeup_log; mret false);
    _ ← lock_release "log";
    mret r.
(** The end of [end_op], after the commit. *)
Definition end_op_finish : K (lsys S) unit :=
  _ ← lock_acquire "log";
  _ ← upd_log (set_committing false);
  _ ← wakeup_log;
  lock_release "log".

Definition end_op : K (lsys S) unit :=
  do_commit ← end_op_start;
  when do_commit (_ ← commit; end_op_finish).

(** The loop of [log_write]: the first of the [n] slots with block [b], or [n]. *)
Fixpoint find_slot (bs : list Z) (b : Z) (n : nat) (i : nat) : nat :=
  match n with
  | O => i
  | Datatypes.S k =>
      match bs !! i with
      | Some b' => if u32 b' =? b then i else find_slot bs b k (Datatypes.S i)
      | None => i
      end
  end.

Definition log_write (buf : nat) : K (lsys S) unit :=
  l ← gets lg;
  if (LOGSIZE <=? l_n l) || (l_size l - 1 <=? l_n l) then panic "too big a transaction"
  else if l_outstanding l <? 1 then panic "log_write outside of trans"
  else
    _ ← lock_acquire "log";
    bno ← incache (c_bnumber buf);
    let i := Z.of_nat (find_slot (l_block l) bno (Z.to_nat (l_n l)) 0) in
    _ ← set_lh_block i (s32 bno);
    _ ← when (i =? l_n l) (upd_log (set_n (l_n l + 1)));
    _ ← incache (c_bpin buf);
    lock_release "log".

End Ops.

(** ** The header block *)

(** The block numbers a header block lists. *)
Definition hdr (d : block) : list Z :=
  (λ i, head_block d (Z.of_nat i)) <$> seq 0 (Z.to_nat (head_n d)).

Definition small (b : Z) : Prop := 0 ≤ b < 2 ^ 31.

Lemma fill_loop bs d k :
  length d = Z.to_nat BSIZE → (k ≤ 127)%nat → Forall small bs →
  let d' := foldl (λ d i, put32 (4 + 4 * i) (default 0 (bs !! i)) d) d (seq 0 k) in
  length d' = Z.to_nat BSIZE ∧ get32 0 d' = get32 0 d ∧
  ∀ i, (i < k)%nat → get32 (4 + 4 * i) d' = default 0 (bs !! i).
Proof.
  intros Hd Hk Hbs. change (Z.to_nat BSIZE) with 512%nat in *.
  induction k as [|k IH]; [split_and!; try done; lia|].
  rw seq_S foldl_app. destruct IH as (L&E0&Ei); [lia|]. cbn [foldl Nat.add] in *.
  set (d1 := foldl _ _ _) in *. split_and!.
  - rw length_put32 //. lia.
  - rw get32_put32_ne //; lia.
  - intros i Hi. destruct (decide (i = k)) as [->|Hne].
    + rw get32_put32_eq //; [lia|]. destruct (bs !! k) as [b|] eqn:Eb; simpl; [|lia].
      rewrite Forall_lookup in Hbs. destruct (Hbs k b Eb). lia.
    + rw get32_put32_ne; [lia|lia|]. apply Ei. lia.
Qed.

Section Header.
Context (n : nat) (bs : list Z) (d : block).
Hypothesis Hn : (n ≤ length bs)%nat.
Hypothesis Hlen : (length bs ≤ 127)%nat.
Hypothesis Hbs : Forall small bs.
Hypothesis Hd : length d = Z.to_nat BSIZE.

Lemma fill_head_facts :
  length (fill_head (Z.of_nat n) bs d) = Z.to_nat BSIZE ∧
  head_n (fill_head (Z.of_nat n) bs d) = Z.of_nat n ∧
  hdr (fill_head (Z.of_nat n) bs d) = take n bs.
Proof.
  assert (length (put32 0 (Z.of_nat n) d) = Z.to_nat BSIZE) as Hp.
  { rw length_put32 // Hd. change (Z.to_nat BSIZE) with 512%nat. lia. }
  destruct (fill_loop bs (put32 0 (Z.of_nat n) d) n Hp ltac:(lia) Hbs) as (L&E0&Ei).
  rw get32_put32_eq in E0; [rw Hd; change (Z.to_nat BSIZE) with 512%nat; lia|lia|].
  rw /hdr /head_n /fill_head !Nat2Z.id E0 s32_small; [lia|]. split_and!; try done.
  apply list_eq. intros i. rw list_lookup_fmap Nat2Z.id. destruct (decide (i < n)%nat) as [Hi|Hi].
  - rw lookup_seq_lt // lookup_take_lt //= /head_block Nat2Z.id Ei //.
    destruct (lookup_lt_is_Some_2 bs i) as [b Eb]; [lia|]. rw Eb /=. f_equal. apply s32_small.
    destruct (proj1 (Forall_lookup _ _) Hbs i b Eb). lia.
  - rw lookup_seq_ge; [lia|]. rw lookup_take_ge //. lia.
Qed.
End Header.

(** ** What recovery makes of a disk *)

Definition apply_writes (D : gmap Z block) (W : list (Z * block)) : gmap Z block :=
  foldl (λ D w, <[w.1 := w.2]> D) D W.

(** The blocks of the header, copied from the log to their home. *)
Definition replay (start : Z) (bs : list Z) (D : gmap Z block) : gmap Z block :=
  apply_writes D (imap (λ i b, (b, rd D (start + 1 + Z.of_nat i))) bs).
Definition recovered (start : Z) (D : gmap Z block) : gmap Z block :=
  replay start (hdr (rd D start)) D.

Lemma apply_writes_app D W1 W2 : apply_writes D (W1 ++ W2) = apply_writes (apply_writes D W1) W2.
Proof. apply foldl_app. Qed.

Lemma rd_insert D n d m : rd (<[n := d]> D) m = if decide (n = m) then d else rd D m.
Proof.
  rw /rd. case_decide as E.
  - subst. by rw lookup_insert_eq.
  - by rw lookup_insert_ne.
Qed.

Lemma rd_apply_ne D W m : m ∉ W.*1 → rd (apply_writes D W) m = rd D m.
Proof.
  induction W as [|[n d] W IH] using rev_ind; intros Hm; [done|].
  rw apply_writes_app /= rd_insert decide_False.
  - rw fmap_app in Hm. set_solver.
  - apply IH. rw fmap_app in Hm. set_solver.
Qed.

Lemma rd_apply_in D W m d :
  NoDup W.*1 → (m, d) ∈ W → rd (apply_writes D W) m = d.
Proof.
  induction W as [|[n e] W IH] using rev_ind; intros Hnd Hm; [by apply not_elem_of_nil in Hm|].
  rw apply_writes_app /= rd_insert. rw fmap_app in Hnd. apply NoDup_app in Hnd as (Hnd&Hdis&_).
  apply elem_of_app in Hm as [Hm|Hm].
  - rw decide_False; [|by apply IH]. intros ->. apply (Hdis m); [|by left].
    apply list_elem_of_fmap. by exists (m, d).
  - apply list_elem_of_singleton in Hm as [= -> ->]. by rw decide_True.
Qed.

Lemma fst_imap {A} (f : nat → Z → A) bs : (imap (λ i b, (b, f i b)) bs).*1 = bs.
Proof.
  apply list_eq. intros i. rw list_lookup_fmap list_lookup_imap. by destruct (bs !! i).
Qed.

Lemma rd_replay_in start bs D i b :
  NoDup bs → bs !! i = Some b → rd (replay start bs D) b = rd D (start + 1 + Z.of_nat i).
Proof.
  intros Hnd Hi. apply rd_apply_in; [by rw fst_imap|].
  apply list_elem_of_lookup. exists i. by rw list_lookup_imap Hi.
Qed.

Lemma rd_replay_out start bs D m : m ∉ bs → rd (replay start bs D) m = rd D m.
Proof. intros Hm. apply rd_apply_ne. by rw fst_imap. Qed.

Lemma rd_recovered_clean start D m : head_n (rd D start) = 0 → rd (recovered start D) m = rd D m.
Proof. intros E. rw /recovered /hdr E. done. Qed.

(** ** The operations in terms of the abstract cache *)

(** The idle cache after the block writes [W]. *)
Definition wrote (a : cabs) (W : list (Z * block)) : cabs :=
  Cabs (apply_writes (ca_disk a) W) (foldl (λ m w, delete w.1 m) (ca_mem a) W) ∅
    (ca_pinned a ∖ list_to_set W.*1) (ca_writes a ++ W).

Lemma wrote_nil a : ca_held a = ∅ → wrote a [] = a.
Proof. destruct a. rw /wrote /=. intros ->. f_equal; [set_solver|by rw app_nil_r]. Qed.

Lemma wrote_app a W1 W2 : wrote (wrote a W1) W2 = wrote a (W1 ++ W2).
Proof.
  rw /wrote /= -apply_writes_app !foldl_app -app_assoc fmap_app list_to_set_app_L.
  f_equal. set_solver.
Qed.

Lemma foldl_delete_lookup (W : list (Z * block)) (M : gmap Z block) m :
  foldl (λ m w, delete w.1 m) M W !! m = if decide (m ∈ W.*1) then None else M !! m.
Proof.
  revert M. induction W as [|w W IH]; intros M; simpl; [done|]. rw IH.
  destruct (decide (m = w.1)) as [->|Hne].
  - rw lookup_delete_eq. repeat case_decide; try done; set_solver.
  - rw lookup_delete_ne; [congruence|]. apply decide_ext. set_solver.
Qed.

Lemma view_wrote_ne a W m : m ∉ W.*1 → view (wrote a W) m = view a m.
Proof. intros Hm. rw /view /= foldl_delete_lookup decide_False // rd_apply_ne //. Qed.

Lemma view_wrote_in a W m : m ∈ W.*1 → view (wrote a W) m = rd (apply_writes (ca_disk a) W) m.
Proof. intros Hm. rw /view /= foldl_delete_lookup decide_True //. Qed.

Lemma held_blocks_take a i n :
  ca_held a !! i = None → held_blocks (take_held a i n) = {[n]} ∪ held_blocks a.
Proof.
  intros Hi. apply set_eq. intros m. rw elem_of_union elem_of_singleton !elem_held_blocks /=. split.
  - intros [j [[_ ->]|[_ Hj]]%lookup_insert_Some]; eauto.
  - intros [->|[j Hj]]; [exists i; apply lookup_insert_eq|]. exists j. rw lookup_insert_ne //. congruence.
Qed.

Lemma held_blocks_none a : ca_held a = ∅ → held_blocks a = ∅.
Proof. intros E. apply set_eq. intros n. rw elem_held_blocks E. set_solver. Qed.

Section Wp.
Context {S : Type} `{!Cache S}.
Implicit Types s : lsys S.

Definition with_cache s (c : S) : lsys S := Lsys (lg s) c (lheld s) (lsleep s).

Lemma wp_incache {A} (m : K S A) s (Q : A → lsys S → Prop) :
  wp m (lcache s) (λ a c, Q a (with_cache s c)) → wp (incache m) s Q.
Proof. intros H. by apply (wp_zoom lcache). Qed.

(** A state whose cache represents [a], the rest as in [s]. *)
Definition now s (a : cabs) s' : Prop :=
  ∃ c, s' = with_cache s c ∧ c_abs c a ∧ c_size c = c_size (lcache s).

Lemma now_refl s a : c_abs (lcache s) a → now s a s.
Proof. exists (lcache s). by destruct s. Qed.

Lemma now_trans s a s' a' s'' : now s a s' → now s' a' s'' → now s a' s''.
Proof. intros (c&->&_&E) (c'&->&Ha'&E'). exists c'. split_and!; [done|done|]. by rw E'. Qed.

Lemma l_bread s a s1 n (Q : nat → lsys S → Prop) :
  now s a s1 → 0 ≤ n < c_size (lcache s) → n ∉ held_blocks a →
  n ∈ ca_pinned a ∨ (size (busy a) < NBUF)%nat →
  (∀ i s2, ca_held a !! i = None → now s (take_held a i n) s2 → Q i s2) →
  wp (incache (c_bread 1 n)) s1 Q.
Proof.
  intros (c&->&Ha&E) Hn Hh Hr HQ. apply wp_incache.
  eapply wp_mono; [apply (bread_law c a n Ha); [by rw E|done|done]|].
  intros i c' (Hi&E'&Ha'). apply HQ; [done|]. exists c'. split_and!; [done|done|congruence].
Qed.

Lemma l_bdata s a s1 i n (Q : block → lsys S → Prop) :
  now s a s1 → ca_held a !! i = Some n → Q (view a n) s1 → wp (incache (c_bdata i)) s1 Q.
Proof.
  intros (c&->&Ha&E) Hi HQ. apply wp_incache. eapply wp_mono; [by apply (bdata_law c a i n)|].
  by intros ? ? [-> ->].
Qed.

Lemma l_bset s a s1 i n d (Q : unit → lsys S → Prop) :
  now s a s1 → ca_held a !! i = Some n → length d = Z.to_nat BSIZE →
  (∀ s2, now s (set_block a n d) s2 → Q tt s2) → wp (incache (c_bset i d)) s1 Q.
Proof.
  intros (c&->&Ha&E) Hi Hd HQ. apply wp_incache. eapply wp_mono; [by apply (bset_law c a i n d)|].
  intros [] c' [E' Ha']. apply HQ. exists c'. split_and!; [done|done|congruence].
Qed.

Lemma l_bwrite s a s1 i n (Q : unit → lsys S → Prop) :
  now s a s1 → ca_held a !! i = Some n →
  (∀ s2, now s (flush_block a n) s2 → Q tt s2) → wp (incache (c_bwrite i)) s1 Q.
Proof.
  intros (c&->&Ha&E) Hi HQ. apply wp_incache. eapply wp_mono; [by apply (bwrite_law c a i n)|].
  intros [] c' [E' Ha']. apply HQ. exists c'. split_and!; [done|done|congruence].
Qed.

Lemma l_brelse s a s1 i n (Q : unit → lsys S → Prop) :
  now s a s1 → ca_held a !! i = Some n → n ∈ ca_pinned a ∨ view a n = rd (ca_disk a) n →
  (∀ s2, now s (drop_held a i n) s2 → Q tt s2) → wp (incache (c_brelse i)) s1 Q.
Proof.
  intros (c&->&Ha&E) Hi Hc HQ. apply wp_incache. eapply wp_mono; [by apply (brelse_law c a i n)|].
  intros [] c' [E' Ha']. apply HQ. exists c'. split_and!; [done|done|congruence].
Qed.

Lemma now_len s a s1 n : now s a s1 → length (view a n) = Z.to_nat BSIZE.
Proof. intros (c&_&Ha&_). exact (abs_len c a n Ha). Qed.

Lemma now_mem s a s1 n : now s a s1 → n ∉ busy a → ca_mem a !! n = None.
Proof.
  intros (c&_&Ha&_) Hn. destruct (ca_mem a !! n) as [d|] eqn:E; [|done].
  destruct Hn. exact (abs_mem c a n d Ha E).
Qed.

(** The end of the two copy loops, once both buffers are there: [ti] gets what is in
    [fi] and is written. *)
Lemma copy_tail_wp s a a2 s1 ti fi t f (Q : unit → lsys S → Prop) :
  ca_held a = ∅ → now s a2 s1 → t ≠ f →
  ca_disk a2 = ca_disk a → ca_mem a2 = ca_mem a → ca_pinned a2 = ca_pinned a → ca_writes a2 = ca_writes a →
  ca_held a2 !! ti = Some t → ca_held a2 !! fi = Some f → delete ti (delete fi (ca_held a2)) = ∅ →
  f ∈ ca_pinned a ∨ ca_mem a !! f = None →
  (∀ s2, now s (wrote a [(t, view a f)]) s2 → Q tt s2) →
  wp (d ← incache (c_bdata fi); _ ← incache (c_bset ti d); _ ← incache (c_bwrite ti);
      _ ← incache (c_brelse fi); incache (c_brelse ti)) s1 Q.
Proof.
  intros Ha0 H1 Hne Ed Em Ep Ew Ht Hf Hdel Hpf HQ.
  assert (view a2 f = view a f) as Ev by by rw /view Ed Em.
  apply wp_bind, (l_bdata s a2 _ _ f); [done|done|]. rw Ev.
  apply wp_bind, (l_bset s a2 _ _ t); [done|done|rw -Ev; exact (now_len s a2 s1 f H1)|]. intros s2 H2.
  apply wp_bind. eapply (l_bwrite s); [exact H2|exact Ht|]. intros s3 H3.
  assert (ca_mem (flush_block (set_block a2 t (view a f)) t) = delete t (ca_mem a)) as Em3.
  { by rw /= delete_insert_eq Em. }
  assert (ca_pinned (flush_block (set_block a2 t (view a f)) t) = ca_pinned a ∖ {[t]}) as Ep3 by by rw /= Ep.
  apply wp_bind. eapply (l_brelse s); [exact H3|exact Hf| |].
  { destruct Hpf as [Hp|Hm]; [left; rw Ep3; set_solver|right]. rw /view Em3 lookup_delete_ne // Hm //. }
  intros s4 H4. assert (ti ≠ fi) by (intros ->; congruence).
  assert (ca_mem (drop_held (flush_block (set_block a2 t (view a f)) t) fi f) = delete t (ca_mem a)) as Em4.
  { rw /drop_held. cbn [ca_mem]. rw Em3 Ep3. case_decide as Hd; [done|].
    apply delete_id. rw lookup_delete_ne //. destruct Hpf as [Hp|Hm]; [set_solver|done]. }
  eapply (l_brelse s _ _ _ t); [exact H4|rw /= lookup_delete_ne; [congruence|exact Ht]| |].
  { right. by rw /view Em4 lookup_delete_eq. }
  intros s5 H5. apply HQ. replace (wrote a [(t, view a f)]) with
    (drop_held (drop_held (flush_block (set_block a2 t (view a f)) t) fi f) ti t); [done|].
  rw {1}/drop_held Em4. rw /wrote. f_equal.
  - by rw /= /view /= lookup_insert_eq /= Ed.
  - rw /= Ep. case_decide; [set_solver|]. by rw (delete_id _ t (lookup_delete_eq _ _)).
  - done.
  - rw /= Ep. set_solver.
  - by rw /= /view /= lookup_insert_eq /= Ew.
Qed.

(** A log of [l_size] blocks from [l_start], on a disk of [sz] blocks, whose header lists
    distinct blocks outside the log. *)
Definition in_log (l : log) (m : Z) : Prop := l_start l ≤ m < l_start l + l_size l.
Definition txn (l : log) : list Z := take (Z.to_nat (l_n l)) (l_block l).

Record log_wf (l : log) (sz : Z) : Prop := {
  wf_dev : l_dev l = 1;
  wf_start : 0 < l_start l;
  wf_end : l_start l + l_size l ≤ sz;
  wf_sz : sz ≤ 2 ^ 31;
  wf_n : 0 ≤ l_n l < l_size l;
  wf_max : l_n l ≤ LOGSIZE;
  wf_len : length (l_block l) = Z.to_nat LOGSIZE;
  wf_small : Forall small (l_block l);
  wf_nodup : NoDup (txn l);
  wf_home : ∀ b, b ∈ txn l → 0 ≤ b < sz ∧ ¬ in_log l b
}.

(** The cache between operations: no buffer held, no block of the log pinned. *)
Definition idle (l : log) (a : cabs) : Prop :=
  ca_held a = ∅ ∧ (∀ m, m ∈ ca_pinned a → ¬ in_log l m) ∧ (size (ca_pinned a) < NBUF)%nat.

Lemma idle_wrote l a W : idle l a → idle l (wrote a W).
Proof.
  intros (_&Hp&Hs). split_and!; [done|set_solver|].
  eapply Nat.le_lt_trans; [|exact Hs]. apply subseteq_size. set_solver.
Qed.

Lemma busy_idle a : ca_held a = ∅ → busy a = ca_pinned a.
Proof. intros E. rw /busy held_blocks_none //. set_solver. Qed.

Lemma busy_take a i n : ca_held a = ∅ → busy (take_held a i n) = {[n]} ∪ ca_pinned a.
Proof.
  intros E. rw /busy held_blocks_take; [by rw E|]. rw held_blocks_none //. set_solver.
Qed.

Lemma size_union_one (n : Z) (X : gset Z) : (size ({[n]} ∪ X) ≤ 1 + size X)%nat.
Proof. rw size_union_alt size_singleton. apply Nat.add_le_mono_l, subseteq_size. set_solver. Qed.

(** Two breads, the second of a block that is pinned when the cache may be full. *)
Lemma two_breads_wp s a s1 n1 n2 (m : K (lsys S) Z) (k : nat → nat → K (lsys S) unit) (Q : unit → lsys S → Prop) :
  now s a s1 → ca_held a = ∅ → n1 ≠ n2 →
  0 ≤ n1 < c_size (lcache s) → 0 ≤ n2 < c_size (lcache s) → c_size (lcache s) ≤ 2 ^ 31 →
  (size (ca_pinned a) + 1 < NBUF)%nat ∨ (n2 ∈ ca_pinned a ∧ (size (ca_pinned a) < NBUF)%nat) →
  (∀ s', lg s' = lg s → m s' = Ret n2 s') →
  (∀ i j s2, i ≠ j → now s (take_held (take_held a i n1) j n2) s2 → wp (k i j) s2 Q) →
  wp (i ← incache (c_bread 1 (u32 n1)); b ← m; j ← incache (c_bread 1 (u32 b)); k i j) s1 Q.
Proof.
  intros H1 Hh Hne Hn1 Hn2 Hsz Hroom Hm HQ. rw u32_small; [lia|].
  apply wp_bind, (l_bread s a s1 n1); [done|done|rw held_blocks_none //; set_solver| |].
  { right. rw busy_idle //. destruct Hroom as [?|[_ ?]]; lia. }
  intros i s2 Hi H2. apply wp_bind, (wp_intro m s2 _ n2 s2).
  { apply Hm. destruct H2 as (c&->&_). done. }
  rw u32_small; [lia|].
  apply wp_bind, (l_bread s _ _ n2 _ H2); [done| | |].
  { rw held_blocks_take // held_blocks_none //. set_solver. }
  { destruct Hroom as [Hr|[Hr _]]; [right|by left]. rw busy_take //.
    eapply Nat.le_lt_trans; [apply size_union_one|]. lia. }
  intros j s3 Hj H3. apply HQ; [|done]. intros <-. by rw /= lookup_insert_eq in Hj.
Qed.

Lemma lh_block_run (l : log) (tail : nat) b s :
  lg s = l → l_block l !! tail = Some b → lh_block (Z.of_nat tail) s = Ret b s.
Proof. rw /lh_block Nat2Z.id. by intros -> ->. Qed.

Lemma txn_lookup l (i : nat) b : txn l !! i = Some b → l_block l !! i = Some b ∧ (i < Z.to_nat (l_n l))%nat.
Proof. rw /txn lookup_take_Some. tauto. Qed.

(** The block writes of [write_log] and of [install_trans]. *)
Definition log_writes (start : Z) (bs : list Z) (v : Z → block) : list (Z * block) :=
  imap (λ i b, (start + 1 + Z.of_nat i, v b)) bs.
Definition home_writes (start : Z) (bs : list Z) (v : Z → block) : list (Z * block) :=
  imap (λ i b, (b, v (start + 1 + Z.of_nat i))) bs.

Lemma imap_take_snoc {A B} (f : nat → A → B) (l : list A) (k : nat) x :
  l !! k = Some x → imap f (take (Datatypes.S k) l) = imap f (take k l) ++ [f k x].
Proof.
  intros Hk. rw (take_S_r _ _ x) // imap_app /=. rw length_take.
  pose proof (lookup_lt_Some _ _ _ Hk). by replace (k `min` length l)%nat with k by lia; rw Nat.add_0_r.
Qed.

Lemma log_writes_keys start bs v m :
  m ∈ (log_writes start bs v).*1 ↔ start + 1 ≤ m < start + 1 + Z.of_nat (length bs).
Proof.
  rw list_elem_of_fmap. split.
  - intros ([m' d]&->&Hm). apply elem_of_lookup_imap in Hm as (i&b&[= -> ->]&Hi%lookup_lt_Some).
    simpl. lia.
  - intros Hm. destruct (lookup_lt_is_Some_2 bs (Z.to_nat (m - start - 1))) as [b Hb]; [lia|].
    exists (m, v b). split; [done|]. apply elem_of_lookup_imap. eexists _, b. split; [|exact Hb].
    f_equal. lia.
Qed.

Lemma home_writes_keys start bs v : (home_writes start bs v).*1 = bs.
Proof. apply fst_imap. Qed.

Lemma txn_slot l sz (k : nat) :
  log_wf l sz → (k < Z.to_nat (l_n l))%nat → ∃ b, txn l !! k = Some b ∧ l_block l !! k = Some b.
Proof.
  intros Hwf Hk. destruct (lookup_lt_is_Some_2 (l_block l) k) as [b Hb].
  - rw (wf_len _ _ Hwf). pose proof (wf_max _ _ Hwf). lia.
  - exists b. split; [|done]. by rw /txn lookup_take_lt.
Qed.

Lemma txn_length l sz : log_wf l sz → length (txn l) = Z.to_nat (l_n l).
Proof.
  intros Hwf. rw /txn length_take (wf_len _ _ Hwf). pose proof (wf_max _ _ Hwf). lia.
Qed.

Lemma write_log_wp s a :
  log_wf (lg s) (c_size (lcache s)) → c_abs (lcache s) a → idle (lg s) a →
  (∀ b, b ∈ txn (lg s) → b ∈ ca_pinned a) →
  wp write_log s (λ _ s', now s (wrote a (log_writes (l_start (lg s)) (txn (lg s)) (view a))) s').
Proof.
  intros Hwf Ha Hidle Hpin. pose proof Hidle as (Hh&Hplog&Hsz). set (l := lg s) in *.
  rw /write_log. apply wp_bind, wp_gets. change (l_n (lg s)) with (l_n l).
  apply (wp_upto _ _ (λ k s', now s (wrote a (log_writes (l_start l) (take k (txn l)) (view a))) s')).
  { rw /= wrote_nil //. by apply now_refl. }
  2:{ intros s'. by rw -(txn_length l _ Hwf) firstn_all. }
  intros k s1 Hk H1. destruct (txn_slot l _ k Hwf Hk) as (b&Hb&Hlb).
  destruct (wf_home _ _ Hwf b) as [Hbr Hbl]; [exact (list_elem_of_lookup_2 _ _ _ Hb)|].
  pose proof (wf_start _ _ Hwf) as Hst. pose proof (wf_end _ _ Hwf) as Hen. pose proof (wf_n _ _ Hwf) as Hnn.
  set (t := l_start l + Z.of_nat k + 1).
  assert (in_log l t) as Ht by (rw /in_log /t; lia).
  set (W := log_writes _ _ _) in *.
  assert (b ∉ W.*1) as HbW.
  { rw /W log_writes_keys. intros Hx. apply Hbl. rw /in_log. rw length_take in Hx. lia. }
  assert (b ∈ ca_pinned (wrote a W)) as Hbp.
  { rw /=. apply elem_of_difference. split; [apply Hpin; exact (list_elem_of_lookup_2 _ _ _ Hb)|].
    by rw elem_of_list_to_set. }
  apply wp_bind, wp_gets. assert (lg s1 = l) as El by (destruct H1 as (?&->&_); done).
  rw El (wf_dev _ _ Hwf). apply (two_breads_wp s (wrote a W) s1 t b); try done.
  - congruence.
  - rw /t. lia.
  - apply (wf_sz _ _ Hwf).
  - right. split; [done|]. apply (idle_wrote l a W Hidle).
  - intros s' E'. by apply (lh_block_run l).
  - intros i j s2 Hij H2. apply (copy_tail_wp s (wrote a W) (take_held (take_held (wrote a W) i t) j b) s2 i j t b); try done.
    + congruence.
    + rw /= lookup_insert_ne; [congruence|]. by rw lookup_insert_eq.
    + by rw /= lookup_insert_eq.
    + by rw /= delete_insert_id ?lookup_insert_ne ?delete_insert_id.
    + by left.
    + intros s3 H3. rw wrote_app in H3. rw /log_writes (imap_take_snoc _ _ _ b) //.
      rw view_wrote_ne // in H3. rw /t in H3. by replace (l_start l + Z.of_nat k + 1) with (l_start l + 1 + Z.of_nat k) in H3 by lia.
Qed.

Lemma install_trans_wp s a :
  log_wf (lg s) (c_size (lcache s)) → c_abs (lcache s) a → idle (lg s) a →
  (∀ b, b ∈ txn (lg s) → b ∈ ca_pinned a) ∨ (size (ca_pinned a) + 1 < NBUF)%nat →
  wp install_trans s (λ _ s', now s (wrote a (home_writes (l_start (lg s)) (txn (lg s)) (view a))) s').
Proof.
  intros Hwf Ha Hidle Hpin. pose proof Hidle as (Hh&Hplog&Hsz). set (l := lg s) in *.
  rw /install_trans. apply wp_bind, wp_gets. change (l_n (lg s)) with (l_n l).
  apply (wp_upto _ _ (λ k s', now s (wrote a (home_writes (l_start l) (take k (txn l)) (view a))) s')).
  { rw /= wrote_nil //. by apply now_refl. }
  2:{ intros s'. by rw -(txn_length l _ Hwf) firstn_all. }
  intros k s1 Hk H1. destruct (txn_slot l _ k Hwf Hk) as (b&Hb&Hlb).
  destruct (wf_home _ _ Hwf b) as [Hbr Hbl]; [exact (list_elem_of_lookup_2 _ _ _ Hb)|].
  pose proof (wf_start _ _ Hwf) as Hst. pose proof (wf_end _ _ Hwf) as Hen. pose proof (wf_n _ _ Hwf) as Hnn.
  set (t := l_start l + Z.of_nat k + 1).
  assert (in_log l t) as Ht by (rw /in_log /t; lia).
  set (W := home_writes _ _ _) in *.
  assert (W.*1 = take k (txn l)) as EW by apply home_writes_keys.
  assert (t ∉ W.*1) as HtW.
  { rw EW. intros Hx. destruct (wf_home _ _ Hwf t) as [_ []]; [|done].
    apply elem_of_take in Hx as (j&Hj&_). exact (list_elem_of_lookup_2 _ _ _ Hj). }
  assert (b ∉ take k (txn l)) as Hbk.
  { intros (i&Hi)%list_elem_of_lookup. apply lookup_take_Some in Hi as [Hi Hik].
    pose proof (NoDup_lookup _ _ _ _ (wf_nodup _ _ Hwf) Hi Hb). lia. }
  pose proof (idle_wrote l a W Hidle) as (HhW&HpW&HsW).
  assert (t ∉ busy (wrote a W)) as Htb.
  { rw busy_idle //. intros Hx. by apply (HpW t). }
  apply wp_bind, wp_gets. assert (lg s1 = l) as El by (destruct H1 as (?&->&_); done).
  rw El (wf_dev _ _ Hwf). apply (two_breads_wp s (wrote a W) s1 t b); try done.
  - congruence.
  - rw /t. lia.
  - apply (wf_sz _ _ Hwf).
  - destruct Hpin as [Hpin|Hroom].
    + right. split; [|done]. simpl. apply elem_of_difference. rw EW elem_of_list_to_set.
      split; [apply Hpin; exact (list_elem_of_lookup_2 _ _ _ Hb)|done].
    + left. eapply Nat.le_lt_trans; [|exact Hroom]. apply Nat.add_le_mono_r, subseteq_size. set_solver.
  - intros s' E'. by apply (lh_block_run l).
  - intros i j s2 Hij H2.
    apply (copy_tail_wp s (wrote a W) (take_held (take_held (wrote a W) i t) j b) s2 j i b t); try done.
    + congruence.
    + by rw /= lookup_insert_eq.
    + rw /= lookup_insert_ne; [congruence|]. by rw lookup_insert_eq.
    + rw /= delete_delete delete_insert_id ?lookup_insert_ne ?delete_insert_id //.
    + right. exact (now_mem s (wrote a W) s1 t H1 Htb).
    + intros s3 H3. rw wrote_app in H3. rw /home_writes (imap_take_snoc _ _ _ b) //.
      rw view_wrote_ne // in H3. rw /t in H3.
      by replace (l_start l + Z.of_nat k + 1) with (l_start l + 1 + Z.of_nat k) in H3 by lia.
Qed.

(** One block read, changed and written. *)
Lemma write_head_wp s a :
  log_wf (lg s) (c_size (lcache s)) → c_abs (lcache s) a → idle (lg s) a →
  wp write_head s (λ _ s', now s (wrote a [(l_start (lg s),
    fill_head (l_n (lg s)) (l_block (lg s)) (view a (l_start (lg s))))]) s').
Proof.
  intros Hwf Ha (Hh&Hplog&Hsz). set (l := lg s) in *. set (h := fill_head _ _ _).
  pose proof (wf_start _ _ Hwf) as Hst. pose proof (wf_end _ _ Hwf) as Hen. pose proof (wf_n _ _ Hwf) as Hnn.
  pose proof (wf_sz _ _ Hwf) as Hs31. pose proof (wf_max _ _ Hwf) as Hmax.
  assert (l_start l ∉ ca_pinned a) as Hnp by (intros Hx; apply (Hplog _ Hx); rw /in_log; lia).
  assert (length h = Z.to_nat BSIZE) as Lh.
  { destruct (fill_head_facts (Z.to_nat (l_n l)) (l_block l) (view a (l_start l))) as (L&_).
    - rw (wf_len _ _ Hwf). lia.
    - rw (wf_len _ _ Hwf) /LOGSIZE /MAXOPBLOCKS. lia.
    - apply (wf_small _ _ Hwf).
    - exact (abs_len _ a _ Ha).
    - by rw Z2Nat.id in L; [lia|]. }
  rw /write_head. apply wp_bind, wp_gets. change (lg s) with l.
  rw (wf_dev _ _ Hwf) u32_small; [lia|].
  apply wp_bind, (l_bread s a s); [by apply now_refl|lia|rw held_blocks_none //; set_solver|right; by rw busy_idle|].
  intros i s1 Hi H1. assert (ca_held (take_held a i (l_start l)) !! i = Some (l_start l)) as Hi1 by by rw /= lookup_insert_eq.
  apply wp_bind, (l_bdata s _ s1 i (l_start l) _ H1 Hi1). rw (proj2 (Z.ltb_ge _ _) Hmax).
  change (view (take_held a i (l_start l)) (l_start l)) with (view a (l_start l)).
  apply wp_bind, (l_bset s _ s1 i (l_start l) _ _ H1 Hi1 Lh). intros s2 H2.
  apply wp_bind, (l_bwrite s _ s2 i (l_start l) _ H2 Hi1). intros s3 H3.
  eapply (l_brelse s _ s3 i (l_start l)); [exact H3|exact Hi1| |].
  { right. by rw /view /= lookup_delete_eq. }
  intros s4 H4. assert (∀ a', a' = wrote a [(l_start l, h)] → now s a' s4 → now s (wrote a [(l_start l, h)]) s4)
    as Hfin by (by intros ? ->). refine (Hfin _ _ H4).
  rw /wrote /drop_held /=. f_equal.
  - by rw /view /= lookup_insert_eq.
  - case_decide; [set_solver|]. rw delete_insert_eq. by apply delete_id, lookup_delete_eq.
  - rw Hh. by apply delete_insert_id.
  - set_solver.
  - by rw /view /= lookup_insert_eq.
Qed.

Definition with_log s (l : log) : lsys S := Lsys l (lcache s) (lheld s) (lsleep s).

Lemma now_log s a s' l : now s a s' → now (with_log s l) a (with_log s' l).
Proof. intros (c&->&Ha&E). by exists c. Qed.
Lemma now_lg s a s' : now s a s' → lg s' = lg s ∧ c_abs (lcache s') a ∧ c_size (lcache s') = c_size (lcache s).
Proof. by intros (c&->&Ha&E). Qed.

Lemma log_wf_clear l sz : log_wf l sz → log_wf (set_n 0 l) sz.
Proof. intros []. split; try done; simpl; try lia; [apply NoDup_nil_2|set_solver]. Qed.

(** The block writes of [commit]. *)
Definition commit_head (l : log) (a : cabs) : block :=
  fill_head (l_n l) (l_block l) (view a (l_start l)).
Definition commit_trace (l : log) (a : cabs) : list (Z * block) :=
  log_writes (l_start l) (txn l) (view a) ++ [(l_start l, commit_head l a)] ++
  ((λ b, (b, view a b)) <$> txn l) ++ [(l_start l, fill_head 0 (l_block l) (commit_head l a))].

Lemma NoDup_log_writes start bs v : NoDup (log_writes start bs v).*1.
Proof.
  assert ((log_writes start bs v).*1 = (λ i, start + 1 + Z.of_nat i) <$> seq 0 (length bs)) as ->.
  { apply list_eq. intros i. rw !list_lookup_fmap list_lookup_imap.
    destruct (bs !! i) as [b|] eqn:E.
    - rw lookup_seq_lt //. by apply lookup_lt_Some in E.
    - rw lookup_seq_ge //. by apply lookup_ge_None in E. }
  apply NoDup_fmap_2_strong; [intros; lia|apply NoDup_seq].
Qed.

Lemma log_writes_rd D start bs v (i : nat) b :
  bs !! i = Some b → rd (apply_writes D (log_writes start bs v)) (start + 1 + Z.of_nat i) = v b.
Proof.
  intros Hi. apply rd_apply_in; [apply NoDup_log_writes|]. apply elem_of_lookup_imap. by eexists i, b.
Qed.

(** After [write_log] and [write_head] the log holds the transaction. *)
Lemma home_writes_logged l a sz :
  log_wf l sz →
  let W := log_writes (l_start l) (txn l) (view a) ++ [(l_start l, commit_head l a)] in
  home_writes (l_start l) (txn l) (view (wrote a W)) = (λ b, (b, view a b)) <$> txn l.
Proof.
  intros Hwf W. apply list_eq. intros i. rw list_lookup_imap list_lookup_fmap.
  destruct (txn l !! i) as [b|] eqn:Hi; [|done]. simpl. do 2 f_equal.
  assert (l_start l + 1 + Z.of_nat i ∈ (log_writes (l_start l) (txn l) (view a)).*1) as Hin.
  { apply log_writes_keys. pose proof (lookup_lt_Some _ _ _ Hi). lia. }
  rw view_wrote_in /W ?fmap_app ?elem_of_app; [by left|].
  rw apply_writes_app rd_apply_ne; [|by apply log_writes_rd].
  simpl. rw list_elem_of_singleton. lia.
Qed.

Lemma commit_wp s a :
  log_wf (lg s) (c_size (lcache s)) → c_abs (lcache s) a → idle (lg s) a →
  (∀ b, b ∈ txn (lg s) → b ∈ ca_pinned a) → 0 < l_n (lg s) →
  wp commit s (λ _ s', now (with_log s (set_n 0 (lg s))) (wrote a (commit_trace (lg s) a)) s').
Proof.
  intros Hwf Ha Hidle Hpin Hn. rw /commit. apply wp_bind, wp_gets.
  rw (proj2 (Z.ltb_lt 0 _) Hn). apply wp_when_true, wp_bind.
  eapply wp_mono; [exact (write_log_wp s a Hwf Ha Hidle Hpin)|]. intros [] s1 H1. set (l := lg s) in *.
  destruct (now_lg _ _ _ H1) as (E1&Ha1&Z1). change (lg s1 = l) in E1. set (W1 := log_writes _ _ _) in *.
  assert (l_start l ∉ W1.*1) as HsW by (rw log_writes_keys; lia).
  apply wp_bind. eapply wp_mono; [apply (write_head_wp s1 (wrote a W1)); rw ?E1 ?Z1 //; by apply idle_wrote|].
  rw E1 view_wrote_ne // -/(commit_head l a). intros [] s2 H2. rw wrote_app in H2.
  destruct (now_lg _ _ _ H2) as (E2&Ha2&Z2). rw E1 in E2. set (W2 := W1 ++ _) in *.
  apply wp_bind. eapply wp_mono; [apply (install_trans_wp s2 (wrote a W2)); rw ?E2 ?Z2 ?Z1 //; [by apply idle_wrote|]|].
  { left. intros b Hb. apply elem_of_difference. split; [by apply Hpin|].
    destruct (wf_home _ _ Hwf b Hb) as [_ Hbl]. rw elem_of_list_to_set /W2 fmap_app elem_of_app log_writes_keys.
    pose proof (wf_n _ _ Hwf). rw (txn_length l _ Hwf) /= list_elem_of_singleton.
    intros [?|?]; apply Hbl; rw /in_log; lia. }
  rw E2 (home_writes_logged l a _ Hwf). intros [] s3 H3. rw wrote_app in H3.
  pose proof (now_trans _ _ _ _ _ (now_trans _ _ _ _ _ H1 H2) H3) as Hs3.
  destruct (now_lg _ _ _ H3) as (E3&Ha3&Z3). rw E2 in E3. apply wp_bind, wp_modify. set (W3 := W2 ++ _) in *.
  eapply wp_mono; [apply (write_head_wp _ (wrote a W3)); simpl; rw ?E3 ?Z3 ?Z2 ?Z1; [by apply log_wf_clear|done|by apply idle_wrote]|].
  simpl. rw E3. intros [] s4 H4. rw wrote_app in H4.
  assert (view (wrote a W3) (l_start l) = commit_head l a) as Ev.
  { assert (l_start l ∉ ((λ b, (b, view a b)) <$> txn l).*1) as Hno.
    { rw -list_fmap_compose list_fmap_id. intros Hx. destruct (wf_home _ _ Hwf _ Hx) as [_ []].
      pose proof (wf_n _ _ Hwf). rw /in_log. lia. }
    rw view_wrote_in; [rw /W3 /W2 !fmap_app !elem_of_app /= list_elem_of_singleton; auto|].
    rw /W3 apply_writes_app rd_apply_ne // /W2 apply_writes_app /= rd_insert decide_True //. }
  simpl in H4. rw Ev in H4.
  assert (W3 ++ [(l_start l, fill_head 0 (l_block l) (commit_head l a))] = commit_trace l a) as <-
    by (rw /W3 /W2 /commit_trace -!app_assoc //).
  eapply now_trans; [|exact H4]. exact (now_log _ _ _ (set_n 0 l) Hs3).
Qed.

(** A header block on disk that lists distinct home blocks. *)
Record head_wf (l : log) (sz : Z) (d : block) : Prop := {
  hw_n : 0 ≤ head_n d < l_size l;
  hw_max : head_n d ≤ LOGSIZE;
  hw_nodup : NoDup (hdr d);
  hw_home : ∀ b, b ∈ hdr d → 0 ≤ b < sz ∧ ¬ in_log l b
}.

(** The place of the log and its in-memory header, whatever the header holds. *)
Record place_wf (l : log) (sz : Z) : Prop := {
  pw_dev : l_dev l = 1;
  pw_start : 0 < l_start l;
  pw_size : 0 < l_size l;
  pw_end : l_start l + l_size l ≤ sz;
  pw_sz : sz ≤ 2 ^ 31;
  pw_len : length (l_block l) = Z.to_nat LOGSIZE;
  pw_small : Forall small (l_block l)
}.

(** The in-memory header after [read_head]. *)
Definition loaded (d : block) (l : log) : log :=
  Log (l_start l) (l_size l) (l_outstanding l) (l_committing l) (l_dev l) (head_n d)
    (hdr d ++ drop (length (hdr d)) (l_block l)).

Lemma length_hdr d : length (hdr d) = Z.to_nat (head_n d).
Proof. by rw /hdr length_fmap length_seq. Qed.

Lemma loaded_wf l sz d : place_wf l sz → head_wf l sz d → log_wf (loaded d l) sz ∧ txn (loaded d l) = hdr d.
Proof.
  intros [] []. pose proof (length_hdr d) as Lh.
  assert (txn (loaded d l) = hdr d) as Et by (rw /txn /= take_app_length' //).
  split; [|done]. split; rw ?Et //=.
  - rw length_app length_drop. lia.
  - apply Forall_app. split; [|by apply Forall_drop]. apply Forall_forall. intros b Hb.
    destruct (hw_home0 b Hb) as [Hr _]. rw /small. lia.
Qed.

Lemma read_head_wp s a :
  place_wf (lg s) (c_size (lcache s)) → c_abs (lcache s) a → idle (lg s) a →
  head_wf (lg s) (c_size (lcache s)) (view a (l_start (lg s))) →
  wp read_head s (λ _ s', now (with_log s (loaded (view a (l_start (lg s))) (lg s))) a s').
Proof.
  intros Hp Ha (Hh&Hplog&Hsz) Hd. set (l := lg s) in *. set (d := view a (l_start l)) in *.
  destruct Hp as [Pd Ps Pz Pe Psz Pl Psm]. destruct Hd as [Dn Dmax Dnd Dh].
  assert (l_start l ∉ ca_pinned a) as Hnp by (intros Hx; apply (Hplog _ Hx); rw /in_log; lia).
  rw /read_head. apply wp_bind, wp_gets. change (lg s) with l. rw Pd u32_small; [lia|].
  apply wp_bind, (l_bread s a s); [by apply now_refl|lia|rw held_blocks_none //; set_solver|right; by rw busy_idle|].
  intros i s1 Hi H1. assert (ca_held (take_held a i (l_start l)) !! i = Some (l_start l)) as Hi1 by by rw /= lookup_insert_eq.
  apply wp_bind, (l_bdata s _ s1 i (l_start l) _ H1 Hi1).
  change (view (take_held a i (l_start l)) (l_start l)) with d.
  apply wp_bind, wp_modify, wp_bind. destruct (now_lg _ _ _ H1) as (E1&_&_). change (lg s1 = l) in E1.
  apply (wp_upto _ _ (λ k s', s' = with_log s1 (Log (l_start l) (l_size l) (l_outstanding l) (l_committing l) (l_dev l)
    (head_n d) (take k (hdr d) ++ drop k (l_block l))))).
  { rw /with_log E1. done. }
  { intros k s2 Hk ->. rw /set_lh_block. apply wp_bind, wp_get. simpl. rw Nat2Z.id.
    assert (k < length (hdr d))%nat as Hkh by by rw length_hdr.
    assert (length (take k (hdr d)) = k) as Lk by (rw length_take; lia).
    assert (Nat.ltb k (length (take k (hdr d) ++ drop k (l_block l))) = true) as ->.
    { apply Nat.ltb_lt. rw length_app length_drop Lk. lia. }
    apply wp_modify. rw /with_log /set_block_at /=. f_equal. f_equal.
    destruct (lookup_lt_is_Some_2 (l_block l) k) as [x Hx]; [lia|].
    rw (drop_S _ x) // insert_app_r_alt; [lia|]. rw Lk Nat.sub_diag /=.
    rw (take_S_r _ _ (head_block d (Z.of_nat k))); [by rw /hdr list_lookup_fmap lookup_seq_lt|].
    by rw -app_assoc. }
  intros s2 ->. set (l' := Log _ _ _ _ _ _ _).
  assert (l' = loaded d l) as El. { rw /l' /loaded length_hdr -(length_hdr d) firstn_all //. }
  pose proof (now_log _ _ _ l' H1) as H2.
  eapply (l_brelse _ _ _ i (l_start l)); [exact H2|exact Hi1| |].
  { right. rw /view /=. rw (now_mem s a s) //; [by apply now_refl|by rw busy_idle]. }
  intros s3 H3. rw -El. assert (drop_held (take_held a i (l_start l)) i (l_start l) = a) as Ea.
  { destruct a as [D M H P W]. rw /drop_held /=. simpl in *. f_equal.
    - rw decide_False //. apply delete_id. apply (now_mem s (Cabs D M H P W) s); [by apply now_refl|by rw busy_idle].
    - by apply delete_insert_id. }
  by rw Ea in H3.
Qed.

(** The block writes of [recover_from_log]. *)
Definition recover_trace (l : log) (a : cabs) : list (Z * block) :=
  let d := view a (l_start l) in
  home_writes (l_start l) (hdr d) (view a) ++ [(l_start l, fill_head 0 (l_block (loaded d l)) d)].

Lemma recover_wp s a :
  place_wf (lg s) (c_size (lcache s)) → c_abs (lcache s) a → ca_held a = ∅ → ca_pinned a = ∅ →
  head_wf (lg s) (c_size (lcache s)) (view a (l_start (lg s))) →
  wp recover_from_log s (λ _ s',
    now (with_log s (set_n 0 (loaded (view a (l_start (lg s))) (lg s)))) (wrote a (recover_trace (lg s) a)) s').
Proof.
  intros Hp Ha Hh Hpin Hd. set (l := lg s) in *. set (d := view a (l_start l)) in *.
  assert (idle l a) as Hidle by (rw /idle Hpin; split_and!; [done|set_solver|rw size_empty /NBUF; lia]).
  destruct (loaded_wf l _ d Hp Hd) as [Hwf Et].
  rw /recover_from_log. apply wp_bind. eapply wp_mono; [by apply (read_head_wp s a)|].
  change (lg s) with l. change (view a (l_start l)) with d. intros [] s1 H1.
  destruct (now_lg _ _ _ H1) as (E1&Ha1&Z1). simpl in E1, Z1.
  apply wp_bind. eapply wp_mono; [apply (install_trans_wp s1 a); rw ?E1 ?Z1 //|].
  { right. rw Hpin size_empty. rw /NBUF. lia. }
  rw E1 Et. intros [] s2 H2. change (l_start (loaded d l)) with (l_start l) in *. set (W := home_writes _ _ _) in *.
  destruct (now_lg _ _ _ H2) as (E2&Ha2&Z2). rw E1 in E2. apply wp_bind, wp_modify.
  eapply wp_mono; [apply (write_head_wp _ (wrote a W)); simpl; rw ?E2 ?Z2 ?Z1; [by apply log_wf_clear|done|exact (idle_wrote l a W Hidle)]|].
  simpl. rw E2 /=. intros [] s3 H3. rw wrote_app in H3.
  rw view_wrote_ne in H3.
  { rw /W home_writes_keys. intros Hx. destruct (hw_home _ _ _ Hd _ Hx) as [_ []].
    pose proof (pw_size _ _ Hp). rw /in_log. lia. }
  eapply now_trans; [|exact H3].
  exact (now_log _ _ _ _ (now_trans _ _ _ _ _ H1 H2)).
Qed.

End Wp.

(** ** Crashes *)

(** The disk [D] after the first [k] writes of [W]. *)
Definition crash (D : gmap Z block) (W : list (Z * block)) (k : nat) : gmap Z block :=
  apply_writes D (take k W).

Lemma elem_take {A} (x : A) k l : x ∈ take k l → x ∈ l.
Proof. intros (i&Hi&_)%elem_of_take. exact (list_elem_of_lookup_2 _ _ _ Hi). Qed.

Lemma take_app_le {A} (k : nat) (l1 l2 : list A) : (k ≤ length l1)%nat → take k (l1 ++ l2) = take k l1.
Proof. intros Hk. rw take_app. by replace (k - length l1)%nat with 0%nat by lia; rw take_0 app_nil_r. Qed.

(** A log holding the transaction [bs] with contents [v], and its header, below any
    writes to home blocks. *)
Lemma recovered_logged l D bs (v : Z → block) W H m :
  NoDup bs → (∀ b, b ∈ bs → ¬ in_log l b) → (length bs < Z.to_nat (l_size l))%nat →
  hdr H = bs → (∀ w, w ∈ W → w.1 ∈ bs ∧ w.2 = v w.1) → ¬ in_log l m →
  let D' := apply_writes (apply_writes (apply_writes D (log_writes (l_start l) bs v)) [(l_start l, H)]) W in
  rd D' (l_start l) = H ∧
  rd (recovered (l_start l) D') m = if decide (m ∈ bs) then v m else rd D m.
Proof.
  intros Hnd Hhome Hlen HH HW Hm D'.
  assert (∀ x, in_log l x → x ∉ W.*1) as HWl.
  { intros x Hx ([n d]&->&Hw)%list_elem_of_fmap. destruct (HW _ Hw) as [Hb _]. by apply (Hhome n). }
  assert (rd D' (l_start l) = H) as Es.
  { rw /D' rd_apply_ne; [apply HWl; rw /in_log; lia|]. by rw /= rd_insert decide_True. }
  split; [done|]. rw /recovered Es HH. case_decide as Hin.
  - apply list_elem_of_lookup in Hin as [i Hi]. rw (rd_replay_in _ _ _ i) //.
    pose proof (lookup_lt_Some _ _ _ Hi). rw /D' rd_apply_ne; [apply HWl; rw /in_log; lia|].
    rw /= rd_insert decide_False; [lia|]. by apply log_writes_rd.
  - rw rd_replay_out // /D' rd_apply_ne.
    { intros ([n d]&->&Hw)%list_elem_of_fmap. by destruct (HW _ Hw). }
    rw /= rd_insert decide_False; [intros <-; apply Hm; rw /in_log; lia|].
    apply rd_apply_ne. rw log_writes_keys. intros Hx. apply Hm. rw /in_log. lia.
Qed.

(** A header is on disk that lists nothing: the home blocks are what they are. *)
Lemma fill_zero bs d : length d = Z.to_nat BSIZE → head_n (fill_head 0 bs d) = 0.
Proof.
  intros Hd. rw /head_n /fill_head /= get32_put32_eq //.
  rw Hd. change (Z.to_nat BSIZE) with 512%nat. lia.
Qed.

Lemma head_wf_zero l sz d : 0 < l_size l → head_n d = 0 → head_wf l sz d.
Proof.
  intros Hl E. split; rw /hdr ?E //=; [apply NoDup_nil_2|]. intros b Hb. by apply not_elem_of_nil in Hb.
Qed.

Section Commit.
Context (l : log) (sz : Z) (a : cabs).
Hypothesis Hwf : log_wf l sz.
Hypothesis Hclean : head_n (rd (ca_disk a) (l_start l)) = 0.
Hypothesis Hrest : ∀ m, m ∉ txn l → view a m = rd (ca_disk a) m.
Hypothesis Hlen : ∀ n, length (view a n) = Z.to_nat BSIZE.

Lemma commit_head_facts :
  length (commit_head l a) = Z.to_nat BSIZE ∧ head_n (commit_head l a) = l_n l ∧ hdr (commit_head l a) = txn l.
Proof.
  destruct (fill_head_facts (Z.to_nat (l_n l)) (l_block l) (view a (l_start l))) as (L&N&H).
  - rw (wf_len _ _ Hwf). pose proof (wf_max _ _ Hwf). lia.
  - rw (wf_len _ _ Hwf) /LOGSIZE /MAXOPBLOCKS. lia.
  - apply (wf_small _ _ Hwf).
  - apply Hlen.
  - pose proof (wf_n _ _ Hwf). rw Z2Nat.id in L, N, H; [lia..|]. done.
Qed.

(** A crash before the header is written. *)
Lemma crash_before k m :
  (k ≤ length (txn l))%nat → ¬ in_log l m →
  let D := crash (ca_disk a) (commit_trace l a) k in
  head_n (rd D (l_start l)) = 0 ∧ rd (recovered (l_start l) D) m = rd (ca_disk a) m.
Proof.
  intros Hk Hm D. set (W1 := log_writes (l_start l) (txn l) (view a)).
  assert (D = apply_writes (ca_disk a) (take k W1)) as ->.
  { rw /D /crash /commit_trace take_app_le //. by rw /log_writes length_imap. }
  assert (∀ x, x ∉ W1.*1 → rd (apply_writes (ca_disk a) (take k W1)) x = rd (ca_disk a) x) as Hx.
  { intros x Hx. apply rd_apply_ne. rw fmap_take. intros Hin. by apply elem_take in Hin. }
  pose proof (wf_n _ _ Hwf). pose proof (txn_length l sz Hwf).
  assert (rd (apply_writes (ca_disk a) (take k W1)) (l_start l) = rd (ca_disk a) (l_start l)) as Es.
  { apply Hx. rw log_writes_keys. lia. }
  rw Es. split; [done|]. rw rd_recovered_clean; [by rw Es|]. apply Hx. rw log_writes_keys.
  intros ?. apply Hm. rw /in_log. lia.
Qed.

(** A crash once the header is written. *)
Lemma crash_after k m :
  (length (txn l) < k)%nat → ¬ in_log l m →
  let D := crash (ca_disk a) (commit_trace l a) k in
  (rd D (l_start l) = commit_head l a ∨ head_n (rd D (l_start l)) = 0) ∧
  rd (recovered (l_start l) D) m = view a m.
Proof.
  intros Hk Hm D. set (W1 := log_writes (l_start l) (txn l) (view a)).
  set (W3 := (λ b, (b, view a b)) <$> txn l). set (n := length (txn l)) in *.
  assert (length W1 = n) as L1 by by rw /W1 /log_writes length_imap.
  assert (length W3 = n) as L3 by by rw /W3 length_fmap.
  pose proof (wf_n _ _ Hwf). pose proof (txn_length l sz Hwf) as Hnl. destruct commit_head_facts as (CL&CN&CH).
  assert (∀ W, (∀ w, w ∈ W → w ∈ W3) → let D' := apply_writes (apply_writes (apply_writes (ca_disk a) W1) [(l_start l, commit_head l a)]) W in
    rd D' (l_start l) = commit_head l a ∧ rd (recovered (l_start l) D') m = view a m) as Hmain.
  { intros W HW D'. destruct (recovered_logged l (ca_disk a) (txn l) (view a) W (commit_head l a) m) as [E1 E2];
      try done; [apply (wf_nodup _ _ Hwf)|apply (wf_home _ _ Hwf)|lia| |].
    { intros w Hw%HW. apply list_elem_of_fmap in Hw as (b&->&Hb). done. }
    split; [done|]. rw E2. case_decide; [done|]. by rw Hrest. }
  destruct (decide (k ≤ n + 1 + n)%nat) as [Hle|Hgt].
  - assert (D = apply_writes (apply_writes (apply_writes (ca_disk a) W1) [(l_start l, commit_head l a)]) (take (k - n - 1) W3)) as ->.
    { rw /D /crash /commit_trace -/W1 -/W3 take_app L1 take_ge; [by rw L1; lia|].
      change ([(l_start l, commit_head l a)] ++ W3 ++ [(l_start l, fill_head 0 (l_block l) (commit_head l a))])
        with ((l_start l, commit_head l a) :: (W3 ++ [(l_start l, fill_head 0 (l_block l) (commit_head l a))])).
      replace (k - n)%nat with (Datatypes.S (k - n - 1)) at 1 by lia. rw /= take_app_le; [lia|].
      by rw apply_writes_app. }
    destruct (Hmain (take (k - n - 1) W3)) as [E1 E2]; [intros w; apply elem_take|]. split; [by left|done].
  - set (D3 := apply_writes (apply_writes (apply_writes (ca_disk a) W1) [(l_start l, commit_head l a)]) W3).
    assert (D = <[l_start l := fill_head 0 (l_block l) (commit_head l a)]> D3) as ->.
    { rw /D /crash take_ge; [|rw /commit_trace -/W1 -/W3 !apply_writes_app //].
      rw /commit_trace -/W1 -/W3 !length_app L1 L3 /=. lia. }
    assert (head_n (rd (<[l_start l := fill_head 0 (l_block l) (commit_head l a)]> D3) (l_start l)) = 0) as E0.
    { by rw rd_insert decide_True // fill_zero. }
    split; [by right|]. rw rd_recovered_clean // rd_insert decide_False.
    { intros <-. apply Hm. rw /in_log. lia. }
    rw /D3. destruct (decide (m ∈ txn l)) as [Hin|Hout].
    + apply rd_apply_in; [rw /W3 -list_fmap_compose list_fmap_id; apply (wf_nodup _ _ Hwf)|].
      apply list_elem_of_fmap. by exists m.
    + rw rd_apply_ne; [by rw /W3 -list_fmap_compose list_fmap_id|]. rw /= rd_insert decide_False.
      { intros <-. apply Hm. rw /in_log. lia. }
      rw rd_apply_ne ?Hrest // log_writes_keys. intros ?. apply Hm. rw /in_log. lia.
Qed.

End Commit.

Section Recover.
Context (l : log) (sz : Z) (D : gmap Z block) (bs : list Z).
Local Notation start := (l_start l).
Local Notation d := (rd D start).
Local Notation W := (home_writes start (hdr d) (rd D) ++ [(start, fill_head 0 bs d)]).
Hypothesis Hl : 0 < l_size l.
Hypothesis Hd : head_wf l sz d.
Hypothesis Hlen : length d = Z.to_nat BSIZE.

Lemma rd_recovered_home m (i : nat) :
  (hdr d !! i = Some m → rd (recovered start D) m = rd D (start + 1 + Z.of_nat i)) ∧
  (m ∉ hdr d → rd (recovered start D) m = rd D m).
Proof.
  split; [apply rd_replay_in, (hw_nodup _ _ _ Hd)|apply rd_replay_out].
Qed.

Lemma in_log_not_home x : in_log l x → x ∉ (home_writes start (hdr d) (rd D)).*1.
Proof. intros Hx. rw home_writes_keys. intros Hin. by apply (hw_home _ _ _ Hd x Hin). Qed.

(** Recovery stopped after [k] writes, or complete: recovering again gives the same. *)
Lemma recover_crash k m :
  ¬ in_log l m →
  (rd (crash D W k) start = d ∨ head_n (rd (crash D W k) start) = 0) ∧
  rd (recovered start (crash D W k)) m = rd (recovered start D) m.
Proof.
  intros Hm. set (W1 := home_writes start (hdr d) (rd D)).
  assert (∀ x, in_log l x → x ∉ W1.*1) as HWl by apply in_log_not_home.
  assert (in_log l start) as Hst by (rw /in_log; lia).
  destruct (decide (k ≤ length (hdr d))%nat) as [Hle|Hgt].
  - assert (crash D (W1 ++ [(start, fill_head 0 bs d)]) k = apply_writes D (take k W1)) as ->.
    { rw /crash take_app_le //. by rw /home_writes length_imap. }
    assert (∀ x, in_log l x → rd (apply_writes D (take k W1)) x = rd D x) as Hx.
    { intros x Hx%HWl. apply rd_apply_ne. rw fmap_take. intros Hin. by apply elem_take in Hin. }
    rw (Hx _ Hst). split; [by left|]. rw /recovered (Hx _ Hst) -/(recovered start D).
    destruct (decide (m ∈ hdr d)) as [[i Hi]%list_elem_of_lookup|Hout].
    + rw (rd_replay_in _ _ _ i); [apply (hw_nodup _ _ _ Hd)|done|].
      rw (proj1 (rd_recovered_home m i) Hi) Hx //. pose proof (hw_n _ _ _ Hd).
      pose proof (lookup_lt_Some _ _ _ Hi) as Hlt. rw length_hdr in Hlt. rw /in_log. lia.
    + rw rd_replay_out // (proj2 (rd_recovered_home m 0) Hout) rd_apply_ne //.
      rw fmap_take. intros Hin. apply elem_take in Hin. by rw /W1 home_writes_keys in Hin.
  - assert (crash D (W1 ++ [(start, fill_head 0 bs d)]) k = <[start := fill_head 0 bs d]> (apply_writes D W1)) as ->.
    { rw /crash take_ge; [|rw apply_writes_app //]. rw length_app /home_writes length_imap /=. lia. }
    assert (head_n (rd (<[start := fill_head 0 bs d]> (apply_writes D W1)) start) = 0) as E0.
    { by rw rd_insert decide_True // fill_zero. }
    split; [by right|]. rw rd_recovered_clean // rd_insert decide_False; [congruence|done].
Qed.

End Recover.

(** ** log_write, begin_op and end_op *)

(** The in-memory header after [log_write] of block [n]. *)
Definition logged (n : Z) (l : log) : log :=
  if decide (n ∈ txn l) then l else set_n (l_n l + 1) (set_block_at (Z.to_nat (l_n l)) n l).

Lemma find_slot_spec bs b n : ∀ i,
  (i + n ≤ length bs)%nat →
  (∃ j x, (i ≤ j < i + n)%nat ∧ bs !! j = Some x ∧ u32 x = b ∧ find_slot bs b n i = j) ∨
  (find_slot bs b n i = i + n)%nat ∧ ∀ j x, (i ≤ j < i + n)%nat → bs !! j = Some x → u32 x ≠ b.
Proof.
  induction n as [|n IH]; intros i Hi; simpl; [right; split; [lia|intros; lia]|].
  destruct (lookup_lt_is_Some_2 bs i) as [x Hx]; [lia|]. rw Hx.
  destruct (Z.eqb_spec (u32 x) b) as [E|E].
  - left. exists i, x. split_and!; try done; lia.
  - destruct (IH (S i)) as [(j&y&Hj&Hy&Ey&Ef)|[Ef Hno]]; [lia| |].
    + left. exists j, y. split_and!; try done; lia.
    + right. split; [lia|]. intros j y Hj Hy. destruct (decide (j = i)) as [->|Hne]; [congruence|].
      apply (Hno j); [lia|done].
Qed.

Lemma find_slot_txn l sz n :
  log_wf l sz → small n →
  let i := find_slot (l_block l) n (Z.to_nat (l_n l)) 0 in
  (n ∈ txn l → (i < Z.to_nat (l_n l))%nat ∧ l_block l !! i = Some n) ∧
  (n ∉ txn l → i = Z.to_nat (l_n l)).
Proof.
  intros Hwf [Hn1 Hn2]. pose proof (wf_max _ _ Hwf). pose proof (wf_len _ _ Hwf) as Hlen.
  assert (∀ (j : nat) x, l_block l !! j = Some x → u32 x = x) as Hu.
  { intros j x Hx. destruct (proj1 (Forall_lookup _ _) (wf_small _ _ Hwf) j x Hx). apply u32_small. lia. }
  destruct (find_slot_spec (l_block l) n (Z.to_nat (l_n l)) 0) as [(j&x&Hj&Hx&Ex&Ef)|[Ef Hno]]; [lia| |];
    rw Ef; split; intros Hin.
  - rw (Hu j x Hx) in Ex. subst x. split; [lia|done].
  - rw (Hu j x Hx) in Ex. subst x. destruct Hin. rw /txn. apply elem_of_take. exists j. split; [done|lia].
  - apply elem_of_take in Hin as (j&Hj&Hjn). destruct (Hno j n); [lia|done|]. apply u32_small. lia.
  - done.
Qed.

Lemma logged_txn l sz n :
  log_wf l sz → l_n l < LOGSIZE → txn (logged n l) = if decide (n ∈ txn l) then txn l else txn l ++ [n].
Proof.
  intros Hwf Hn. rw /logged. case_decide; [done|]. rw /txn /=.
  pose proof (wf_n _ _ Hwf). pose proof (wf_len _ _ Hwf).
  replace (Z.to_nat (l_n l + 1)) with (S (Z.to_nat (l_n l))) by lia.
  rw (take_S_r _ _ n); [apply list_lookup_insert_eq; lia|]. by rw take_insert_ge.
Qed.

Lemma logged_wf l sz n :
  log_wf l sz → l_n l < LOGSIZE → l_n l < l_size l - 1 → 0 ≤ n < sz → ¬ in_log l n →
  log_wf (logged n l) sz.
Proof.
  intros Hwf Hn Hs Hr Hl. pose proof (logged_txn l sz n Hwf Hn) as Et. pose proof (wf_sz _ _ Hwf).
  rw /logged in Et |- *. case_decide; [done|]. pose proof Hwf as [].
  split; rw ?Et; simpl; try done; try lia.
  - by rw length_insert.
  - apply Forall_insert; [done|]. rw /small. lia.
  - apply NoDup_app. split_and!; [done|set_solver|apply NoDup_singleton].
  - intros b [Hb| ->%list_elem_of_singleton]%elem_of_app; [by apply wf_home0|done].
Qed.

Section LogWrite.
Context {S : Type} `{!Cache S}.

Lemma log_write_wp (s : lsys S) a buf n :
  log_wf (lg s) (c_size (lcache s)) → c_abs (lcache s) a → ca_held a !! buf = Some n →
  lheld s = [] → 1 ≤ l_outstanding (lg s) → l_n (lg s) < LOGSIZE → l_n (lg s) < l_size (lg s) - 1 →
  wp (log_write buf) s (λ _ s', now (with_log s (logged n (lg s))) (pin_block a n) s').
Proof.
  intros Hwf Ha Hbuf Hh Hout Hn Hs. set (l := lg s) in *. rw /log_write.
  pose proof (abs_range _ _ _ _ Ha Hbuf) as Hr. pose proof (wf_sz _ _ Hwf). pose proof (wf_n _ _ Hwf).
  apply wp_bind, wp_gets. change (lg s) with l.
  rw (proj2 (Z.leb_gt _ _) Hn) (proj2 (Z.leb_gt _ _) Hs) (proj2 (Z.ltb_ge _ _) Hout) /=.
  apply wp_bind, wp_lock_acquire; [by rw /= Hh; apply not_elem_of_nil|].
  apply wp_bind, wp_incache. eapply wp_mono; [by apply (bnumber_law _ a buf n)|]. intros ? ? [-> ->].
  rw s32_small; [lia|]. destruct (find_slot_txn l _ n Hwf) as [Hin Hout']; [rw /small; lia|].
  set (i := find_slot (l_block l) n (Z.to_nat (l_n l)) 0) in *.
  assert (i < length (l_block l))%nat as Hi.
  { rw (wf_len _ _ Hwf). destruct (decide (n ∈ txn l)) as [?|Hx]; [destruct Hin; [done|lia]|].
    rw (Hout' Hx). lia. }
  apply wp_bind. rw /set_lh_block. apply wp_bind, wp_get. simpl. rw -/l Nat2Z.id (proj2 (Nat.ltb_lt _ _) Hi).
  apply wp_modify, wp_bind. rw /with_cache /=.
  assert (∀ l' (s1 : lsys S), lg s1 = l' → lcache s1 = lcache s → lheld s1 = ["log"%string] → lsleep s1 = lsleep s →
    wp (_ ← incache (c_bpin buf); lock_release "log") s1 (λ _ s', now (with_log s l') (pin_block a n) s')) as Hend.
  { intros l' s1 E1 E2 E3 E4. apply wp_bind, wp_incache. rw E2.
    eapply wp_mono; [by apply (bpin_law _ a buf n)|]. intros [] c [Ec Hc].
    apply (wp_lock_release _ []); [done|apply not_elem_of_nil|]. exists c. rw /with_cache /with_log /= E1 E4 Hh //. }
  destruct (decide (n ∈ txn l)) as [Hx|Hx]; rw /logged.
  - destruct (Hin Hx) as [Hlt Hib]. rw decide_True // (proj2 (Z.eqb_neq _ _)); [lia|]. apply wp_when_false.
    apply Hend; try done; simpl; [|by rw Hh]. rw /set_block_at list_insert_id // -/l. by destruct l.
  - rw decide_False // (Hout' Hx) Z2Nat.id; [lia|]. rw Z.eqb_refl. apply wp_when_true, wp_modify.
    apply Hend; try done. simpl. by rw Hh.
Qed.

End LogWrite.

(** ** Concurrent file system calls *)

(** The log, the calls in progress with the number of blocks each has added to the
    log, and the process that commits (and whether the commit has ended). *)
Record ops (S : Type) := Ops {
  o_sys : lsys S;
  o_ops : gmap nat Z;
  o_commit : option (nat * bool)
}.
Arguments Ops {_} _ _ _.
Arguments o_sys {_} _.
Arguments o_ops {_} _.
Arguments o_commit {_} _.

(** What a process does next: begin_op, log_write of a block, the first part of end_op, commit,
    the last part of end_op. *)
Inductive act := Begin (p : nat) | Write (p : nat) (n : Z) | End (p : nat) | Commit (p : nat) | Finish (p : nat).

Section Concurrent.
Context {S : Type}.
Implicit Types o : ops S.

(** A step; [None] when it is not the process's turn, or the code panics.  The effect of
    log_write on the log is [logged], that of commit is [set_n 0]. *)
Definition op_step (x : act) o : option (ops S) :=
  let s := o_sys o in
  match x with
  | Begin p =>
      if bool_decide (o_ops o !! p = None ∧ p ∉ lsleep s ∧ fst <$> o_commit o ≠ Some p) then
        match begin_op p s with
        | Ret _ s' => Some (Ops s' (<[p := 0]> (o_ops o)) (o_commit o))
        | Sleeps _ s' => Some (Ops s' (o_ops o) (o_commit o))
        | _ => None
        end
      else None
  | Write p n =>
      u ← o_ops o !! p;
      let u' := if decide (n ∈ txn (lg s)) then u else u + 1 in
      if (u' <=? MAXOPBLOCKS) && negb ((LOGSIZE <=? l_n (lg s)) || (l_size (lg s) - 1 <=? l_n (lg s))
            || (l_outstanding (lg s) <? 1)) then
        Some (Ops (with_log s (logged n (lg s))) (<[p := u']> (o_ops o)) (o_commit o))
      else None
  | End p =>
      _ ← o_ops o !! p;
      match end_op_start s with
      | Ret r s' => Some (Ops s' (delete p (o_ops o)) (if r then Some (p, false) else o_commit o))
      | _ => None
      end
  | Commit p =>
      if bool_decide (o_commit o = Some (p, false)) then
        Some (Ops (with_log s (set_n 0 (lg s))) (o_ops o) (Some (p, true)))
      else None
  | Finish p =>
      if bool_decide (o_commit o = Some (p, true)) then
        match end_op_finish s with Ret _ s' => Some (Ops s' (o_ops o) None) | _ => None end
      else None
  end.

Definition ops_step o o' : Prop := ∃ x, op_step x o = Some o'.
Fixpoint op_run (xs : list act) o : option (ops S) :=
  match xs with [] => Some o | x :: xs' => o' ← op_step x o; op_run xs' o' end.

Lemma op_run_rtc xs : ∀ o o', op_run xs o = Some o' → rtc ops_step o o'.
Proof.
  induction xs as [|x xs IH]; simpl; intros o o' H; [simplify_eq; apply rtc_refl|].
  destruct (op_step x o) as [o1|] eqn:E; [|done]. apply (rtc_l _ _ o1); [by exists x|]. by apply IH.
Qed.

(** The log of a system that has just booted. *)
Definition ops_init o : Prop :=
  lheld (o_sys o) = [] ∧ lsleep (o_sys o) = ∅ ∧ o_ops o = ∅ ∧ o_commit o = None ∧
  l_outstanding (lg (o_sys o)) = 0 ∧ l_committing (lg (o_sys o)) = false ∧ l_n (lg (o_sys o)) = 0.

(** The space still promised to the calls in progress. *)
Definition reserved (m : gmap nat Z) : Z := map_fold (λ _ u acc, MAXOPBLOCKS - u + acc) 0 m.

Lemma reserved_insert m p u : m !! p = None → reserved (<[p := u]> m) = MAXOPBLOCKS - u + reserved m.
Proof. intros Hp. rw /reserved map_fold_insert_L //. intros. lia. Qed.
Lemma reserved_delete m p u : m !! p = Some u → reserved m = MAXOPBLOCKS - u + reserved (delete p m).
Proof. intros Hp. rw -(insert_delete_id m p u) // reserved_insert ?lookup_delete_eq // delete_insert_id ?lookup_delete_eq //. Qed.

Lemma reserved_bound m :
  (∀ p u, m !! p = Some u → 0 ≤ u ≤ MAXOPBLOCKS) → 0 ≤ reserved m ≤ MAXOPBLOCKS * Z.of_nat (size m).
Proof.
  induction m as [|p u m Hp IH] using map_ind; intros Hu; [rw /reserved map_fold_empty map_size_empty; lia|].
  rw reserved_insert // map_size_insert_None //. destruct (Hu p u); [by apply lookup_insert_eq|].
  destruct IH; [|lia]. intros q v Hq. apply (Hu q). rw lookup_insert_ne //. congruence.
Qed.

Record ops_inv o : Prop := {
  oi_held : lheld (o_sys o) = [];
  oi_out : l_outstanding (lg (o_sys o)) = Z.of_nat (size (o_ops o));
  oi_com : l_committing (lg (o_sys o)) = true ↔ o_commit o ≠ None;
  oi_excl : o_commit o ≠ None → o_ops o = ∅;
  oi_used : ∀ p u, o_ops o !! p = Some u → 0 ≤ u ≤ MAXOPBLOCKS;
  oi_n : 0 ≤ l_n (lg (o_sys o));
  oi_room : l_n (lg (o_sys o)) + reserved (o_ops o) ≤ LOGSIZE;
  oi_idle : o_ops o = ∅ → o_commit o = None → l_n (lg (o_sys o)) = 0;
  oi_done : ∀ p, o_commit o = Some (p, true) → l_n (lg (o_sys o)) = 0;
  oi_wake : lsleep (o_sys o) ≠ ∅ → o_commit o ≠ None ∨ o_ops o ≠ ∅
}.

Lemma ops_init_inv o : ops_init o → ops_inv o.
Proof.
  intros (H1&H2&H3&H4&H5&H6&H7). split; rw ?H2 ?H3 ?H4 ?H5 ?H6 ?H7 //.
Qed.

Lemma begin_op_run p (s : lsys S) :
  lheld s = [] → begin_op p s =
    if must_wait (lg s) then Sleeps "log" (Lsys (lg s) (lcache s) [] ({[p]} ∪ lsleep s))
    else Ret tt (Lsys (set_outstanding (l_outstanding (lg s) + 1) (lg s)) (lcache s) [] (lsleep s)).
Proof.
  destruct s as [l c h z]. simpl. intros ->. rw /begin_op /mbind /K_bind /gets /=.
  destruct (must_wait l); reflexivity.
Qed.

Lemma end_op_start_run (s : lsys S) :
  lheld s = [] → l_committing (lg s) = false → end_op_start s =
    let l := set_outstanding (l_outstanding (lg s) - 1) (lg s) in
    if l_outstanding l =? 0 then Ret true (Lsys (set_committing true l) (lcache s) [] (lsleep s))
    else Ret false (Lsys l (lcache s) [] ∅).
Proof.
  destruct s as [[st sz out com dev n bs] c h z]. simpl. intros -> ->.
  cbv -[Z.eqb Z.sub empty]. destruct (Z.eqb (Z.sub out 1) 0); reflexivity.
Qed.

Lemma end_op_finish_run (s : lsys S) :
  lheld s = [] → end_op_finish s = Ret tt (Lsys (set_committing false (lg s)) (lcache s) [] ∅).
Proof. destruct s as [l c h z]. simpl. intros ->. reflexivity. Qed.

Lemma begin_inv (p : nat) o o' : op_step (Begin p) o = Some o' → ops_inv o → ops_inv o'.
Proof.
  intros Hs [I1 I2 I3 I4 I5 I6 I7 I8 I9 I10].
  destruct o as [s m c]; simpl in *.
  case_bool_decide as Hg; [|done]. destruct Hg as (Hp&_&Hc). rw begin_op_run // in Hs.
  rw /must_wait in Hs. destruct (l_committing (lg s)) eqn:Ec; simpl in Hs.
  { simplify_eq. split; simpl; try done; [by rw Ec|]. intros _. left. by apply I3. }
  assert (c = None) as ->. { destruct c; [|done]. destruct I3 as [_ I3]. by specialize (I3 ltac:(done)). }
  destruct (Z.ltb_spec LOGSIZE (l_n (lg s) + (l_outstanding (lg s) + 1) * MAXOPBLOCKS)) as [Hw|Hw]; simplify_eq.
  - split; simpl; try done; [by rw Ec|]. intros _. right. intros ->. rw I8 // I2 map_size_empty in Hw. done.
  - destruct (reserved_bound m I5). split; simpl; try done.
    + rw map_size_insert_None // I2. lia.
    + by rw Ec.
    + intros q u [[_ <-]|[_ Hq]]%lookup_insert_Some; [done|eauto].
    + rw reserved_insert //. rw I2 in Hw. lia.
    + intros Hx. by apply insert_non_empty in Hx.
    + intros _. right. apply insert_non_empty.
Qed.

Lemma write_inv (p : nat) (n : Z) o o' : op_step (Write p n) o = Some o' → ops_inv o → ops_inv o'.
Proof.
  intros Hs [I1 I2 I3 I4 I5 I6 I7 I8 I9 I10].
  destruct o as [s m c]; simpl in *.
  destruct (m !! p) as [u|] eqn:Ep; [|done]. simpl in Hs.
  set (u' := if decide _ then _ else _) in Hs. destruct (_ && _) eqn:Hg; [|done]. simplify_eq.
  destruct (I5 p u Ep). assert (m ≠ ∅) as Hne by (intros ->; done).
  assert (c = None) as -> by (destruct c; [by destruct Hne, I4|done]).
  assert (l_n (logged n (lg s)) + reserved (<[p := u']> m) = l_n (lg s) + reserved m ∧ 0 ≤ u' ∧
    l_outstanding (logged n (lg s)) = l_outstanding (lg s) ∧ l_committing (logged n (lg s)) = l_committing (lg s) ∧
    0 ≤ l_n (logged n (lg s))) as (Er&Hu&Eo&Ec&Hn).
  { rw (reserved_delete m p u) // -insert_delete_eq reserved_insert ?lookup_delete_eq // /u' /logged.
    case_decide; simpl; split_and!; try done; lia. }
  split; simpl; rw ?Eo ?Ec ?Er //.
  - rw map_size_insert_Some //.
  - intros q v [[_ <-]|[_ Hq]]%lookup_insert_Some; [lia|eauto].
  - intros Hx. by apply insert_non_empty in Hx.
  - intros _. right. apply insert_non_empty.
Qed.

Lemma end_inv (p : nat) o o' : op_step (End p) o = Some o' → ops_inv o → ops_inv o'.
Proof.
  intros Hs [I1 I2 I3 I4 I5 I6 I7 I8 I9 I10].
  destruct o as [s m c]; simpl in *.
  destruct (m !! p) as [u|] eqn:Ep; [|done]. simpl in Hs.
  assert (m ≠ ∅) as Hne by (intros ->; done).
  assert (c = None) as -> by (destruct c; [by destruct Hne, I4|done]).
  assert (l_committing (lg s) = false) as Ec by (destruct (l_committing (lg s)); [by destruct I3 as [[] _]|done]).
  rw end_op_start_run // in Hs. simpl in Hs.
  assert (size m = Datatypes.S (size (delete p m))) as Hsz.
  { rw -{1}(insert_delete_id m p u) // map_size_insert_None ?lookup_delete_eq //. }
  pose proof (reserved_delete m p u Ep) as Hrd. destruct (I5 p u Ep).
  assert (∀ q v, delete p m !! q = Some v → 0 ≤ v ≤ MAXOPBLOCKS) as Hu
    by (intros q v [_ Hq]%lookup_delete_Some; eauto).
  destruct (reserved_bound _ Hu).
  destruct (Z.eqb_spec (l_outstanding (lg s) - 1) 0) as [E0|E0]; simplify_eq.
  - assert (delete p m = ∅) as Hem by (apply map_size_empty_inv; lia).
    split; simpl; try done; try lia. intros _. by left.
  - assert (delete p m ≠ ∅) as Hem. { intros Hx. rw Hx map_size_empty in Hsz. lia. }
    split; simpl; try done; lia.
Qed.

Lemma commit_inv (p : nat) o o' : op_step (Commit p) o = Some o' → ops_inv o → ops_inv o'.
Proof.
  intros Hs [I1 I2 I3 I4 I5 I6 I7 I8 I9 I10].
  destruct o as [s m c]; simpl in *.
  case_bool_decide as Hg; [|done]. simplify_eq. pose proof (I4 ltac:(done)) as ->.
  split; simpl; try done; [by rw I3|by left].
Qed.

Lemma finish_inv (p : nat) o o' : op_step (Finish p) o = Some o' → ops_inv o → ops_inv o'.
Proof.
  intros Hs [I1 I2 I3 I4 I5 I6 I7 I8 I9 I10].
  destruct o as [s m c]; simpl in *.
  case_bool_decide as Hg; [|done]. rw end_op_finish_run // in Hs. simplify_eq. pose proof (I4 ltac:(done)) as ->.
  split; simpl; try done. intros _ _. by apply (I9 p).
Qed.

Lemma op_step_inv x o o' : op_step x o = Some o' → ops_inv o → ops_inv o'.
Proof. destruct x; eauto using begin_inv, write_inv, end_inv, commit_inv, finish_inv. Qed.

Lemma ops_reach_inv o o' : ops_init o → rtc ops_step o o' → ops_inv o'.
Proof.
  intros Hi Hr. assert (ops_inv o) as Ho by by apply ops_init_inv.
  clear Hi. induction Hr as [|o o1 o' [x Hx] _ IH]; [done|]. apply IH. by apply (op_step_inv x o).
Qed.

End Concurrent.

(** ** Boot *)

Section Boot.
Context {S : Type} `{!Cache S}.

(** No buffer held, none pinned: the cache shows the disk. *)
Lemma view_quiet (c : S) a n : c_abs c a → ca_held a = ∅ → n ∉ ca_pinned a → view a n = rd (ca_disk a) n.
Proof.
  intros Ha Hh Hn. rw /view. destruct (ca_mem a !! n) as [d|] eqn:E; [|done].
  apply (abs_mem c a n d) in E; [|done]. by rw busy_idle in E.
Qed.

Lemma mem_quiet (c : S) a : c_abs c a → ca_held a = ∅ → ca_pinned a = ∅ → ca_mem a = ∅.
Proof.
  intros Ha Hh Hp. apply map_empty. intros n. destruct (ca_mem a !! n) as [d|] eqn:E; [|done].
  apply (abs_mem c a n d) in E; [|done]. rw busy_idle // Hp in E. set_solver.
Qed.

Lemma readsb_wp (c : S) a :
  c_abs c a → 1 < c_size c → ca_held a = ∅ → ca_pinned a = ∅ →
  wp (readsb 1) c (λ sb c', sb = get_superblock (rd (ca_disk a) 1) ∧ c_abs c' a ∧ c_size c' = c_size c).
Proof.
  intros Ha Hsz Hh Hp. rw /readsb. apply wp_bind.
  eapply wp_mono; [apply (bread_law c a 1 Ha)|].
  - lia.
  - by rw held_blocks_none.
  - right. rw busy_idle // Hp size_empty /NBUF. lia.
  - intros i c1 (Hi&E1&H1).
    assert (ca_held (take_held a i 1) !! i = Some 1) as Hi1 by by rw /= lookup_insert_eq.
    apply wp_bind. eapply wp_mono; [exact (bdata_law c1 _ i 1 H1 Hi1)|]. intros ? ? [-> ->].
    change (view (take_held a i 1) 1) with (view a 1).
    assert (view a 1 = rd (ca_disk a) 1) as Ev by (apply (view_quiet c); [done|done|rw Hp; set_solver]). rw Ev.
    apply wp_bind. eapply wp_mono; [apply (brelse_law c1 _ i 1 H1 Hi1)|].
    + right. exact Ev.
    + intros [] c2 [E2 H2]. apply wp_ret. split_and!; [done| |congruence].
      assert (drop_held (take_held a i 1) i 1 = a) as <-; [|done].
      pose proof (mem_quiet c a Ha Hh Hp) as Em. destruct a as [D M H P W]. rw /drop_held /=. simpl in *. subst.
      f_equal; by apply delete_insert_id.
Qed.

Lemma initlog_wp (s : lsys S) a sb :
  c_abs (lcache s) a → 1 < c_size (lcache s) → ca_held a = ∅ → ca_pinned a = ∅ →
  sb = get_superblock (rd (ca_disk a) 1) →
  let l := set_place (s32 (sb_logstart sb)) (s32 (sb_nlog sb)) 1 (lg s) in
  place_wf l (c_size (lcache s)) → head_wf l (c_size (lcache s)) (rd (ca_disk a) (l_start l)) →
  wp (initlog 1) s (λ _ s',
    now (with_log s (set_n 0 (loaded (view a (l_start l)) l))) (wrote a (recover_trace l a)) s').
Proof.
  intros Ha Hsz Hh Hp -> l Hpl Hhd. rw /initlog /=. apply wp_bind, wp_incache.
  eapply wp_mono; [by apply (readsb_wp _ a)|]. intros sb c (->&Hc&Ec).
  apply wp_bind, wp_modify. eapply wp_mono; [apply (recover_wp _ a); simpl; rw ?Ec //|].
  - rw (view_quiet (lcache s)) //. rw Hp. set_solver.
  - intros [] s' H'. destruct H' as (c'&->&Hc'&Ec'). exists c'. split_and!; [done|done|].
    simpl in *. congruence.
Qed.

End Boot.

(** ** Theorems *)

Section Claims.
Context {S : Type} `{!Cache S}.

(** The state in which [commit] runs: a transaction is logged in memory and its blocks are
    pinned, nothing is held, and the header on disk is empty. *)
Record ready (s : lsys S) (a : cabs) : Prop := {
  rdy_wf : log_wf (lg s) (c_size (lcache s));
  rdy_abs : c_abs (lcache s) a;
  rdy_held : ca_held a = ∅;
  rdy_pinned : ca_pinned a = list_to_set (txn (lg s));
  rdy_room : (Z.to_nat (l_n (lg s)) < NBUF)%nat;
  rdy_n : 0 < l_n (lg s);
  rdy_clean : head_n (rd (ca_disk a) (l_start (lg s))) = 0
}.

Lemma ready_idle s a : ready s a → idle (lg s) a ∧ (∀ b, b ∈ txn (lg s) → b ∈ ca_pinned a) ∧
  (∀ m, m ∉ txn (lg s) → view a m = rd (ca_disk a) m) ∧ (∀ n, length (view a n) = Z.to_nat BSIZE).
Proof.
  intros [Hwf Ha Hh Hp Hr Hn Hc]. split_and!.
  - split_and!; [done| |].
    + intros m Hm. rw Hp elem_of_list_to_set in Hm. by apply (wf_home _ _ Hwf).
    + rw Hp size_list_to_set; [apply (wf_nodup _ _ Hwf)|]. by rw (txn_length _ _ Hwf).
  - intros b Hb. by rw Hp elem_of_list_to_set.
  - intros m Hm. apply (view_quiet (lcache s)); [done|done|]. by rw Hp elem_of_list_to_set.
  - intros n. exact (abs_len _ a n Ha).
Qed.

(** What a crash after [k] block writes leaves, for the home blocks. *)
Lemma commit_crash s a k m :
  ready s a → ¬ in_log (lg s) m →
  let l := lg s in
  let D := crash (ca_disk a) (commit_trace l a) k in
  head_wf l (c_size (lcache s)) (rd D (l_start l)) ∧
  rd (recovered (l_start l) D) m =
    if decide (k ≤ Z.to_nat (l_n l))%nat then rd (ca_disk a) m else view a m.
Proof.
  intros Hrdy Hm l D. destruct (ready_idle s a Hrdy) as (Hi&Hp&Hrest&Hlen).
  pose proof Hrdy as [Hwf Ha Hh _ Hr Hn Hc]. pose proof (txn_length _ _ Hwf) as Ht. rw -Ht.
  pose proof (wf_n _ _ Hwf) as Hnn.
  destruct (commit_head_facts l _ a Hwf Hlen) as (_&CN&CH). case_decide as Hk.
  - destruct (crash_before l _ a Hwf Hc k m Hk Hm) as [E1 E2]. split; [|done].
    apply head_wf_zero; [rw /l; lia|done].
  - destruct (crash_after l _ a Hwf Hrest Hlen k m (proj1 (Nat.nle_gt _ _) Hk) Hm) as [[E1|E1] E2]; (split; [|done]).
    + rw E1. pose proof Hwf as []. split; rw ?CN ?CH //.
    + apply head_wf_zero; [rw /l; lia|done].
Qed.

(** What recovery leaves on the disk, complete or stopped after [k] writes. *)
Lemma recover_disk (l : log) sz (c : S) a k m :
  c_abs c a → ca_held a = ∅ → ca_pinned a = ∅ → 0 < l_size l →
  head_wf l sz (rd (ca_disk a) (l_start l)) → ¬ in_log l m →
  let D := crash (ca_disk a) (recover_trace l a) k in
  head_wf l sz (rd D (l_start l)) ∧
  rd (recovered (l_start l) D) m = rd (recovered (l_start l) (ca_disk a)) m.
Proof.
  intros Ha Hh Hp Hl Hd Hm D.
  assert (∀ n, view a n = rd (ca_disk a) n) as Hv.
  { intros n. apply (view_quiet c); [done|done|]. rw Hp. set_solver. }
  assert (recover_trace l a = home_writes (l_start l) (hdr (rd (ca_disk a) (l_start l))) (rd (ca_disk a)) ++
    [(l_start l, fill_head 0 (l_block (loaded (rd (ca_disk a) (l_start l)) l)) (rd (ca_disk a) (l_start l)))]) as Et.
  { rw /recover_trace Hv. f_equal. apply imap_ext. intros i b _. by rw Hv. }
  rw /D Et. destruct (recover_crash l sz (ca_disk a) (l_block (loaded (rd (ca_disk a) (l_start l)) l))
    Hl Hd ltac:(rw -Hv; exact (abs_len c a _ Ha)) k m Hm) as [[E|E] E2]; (split; [|done]).
  - by rw E.
  - by apply head_wf_zero.
Qed.

Lemma recover_final (l : log) sz (c : S) a m :
  c_abs c a → ca_held a = ∅ → ca_pinned a = ∅ → 0 < l_size l →
  head_wf l sz (rd (ca_disk a) (l_start l)) → ¬ in_log l m →
  head_n (rd (apply_writes (ca_disk a) (recover_trace l a)) (l_start l)) = 0 ∧
  rd (apply_writes (ca_disk a) (recover_trace l a)) m = rd (recovered (l_start l) (ca_disk a)) m.
Proof.
  intros Ha Hh Hp Hl Hd Hm.
  assert (head_n (rd (apply_writes (ca_disk a) (recover_trace l a)) (l_start l)) = 0) as E0.
  { rw /recover_trace apply_writes_app /= rd_insert decide_True // fill_zero //. }
  split; [done|]. rw -(rd_recovered_clean (l_start l)) //.
  destruct (recover_disk l sz c a (length (recover_trace l a)) m) as [_ <-]; try done.
  by rw /crash take_ge.
Qed.

(** C1: commit is atomic.  It writes the blocks of the transaction to the log, the header, the blocks to
    their home, and the empty header; when the machine stops after any number k of these
    writes, the header on disk is well-formed and recovery makes every home block what it was before the
    transaction, if the header was not yet written (k <= n), and what the transaction
    wrote, if it was.  When commit returns all blocks are home, none is pinned and the log is empty. *)
Theorem commit_atomic (s : lsys S) (a : cabs) (Hrdy : ready s a) :
  let l := lg s in
  wp commit s (λ _ s', ∃ a',
    c_abs (lcache s') a' ∧ lg s' = set_n 0 l ∧ ca_held a' = ∅ ∧ ca_pinned a' = ∅ ∧
    ca_writes a' = ca_writes a ++ commit_trace l a ∧
    ca_disk a' = apply_writes (ca_disk a) (commit_trace l a) ∧
    (∀ m, ¬ in_log l m → rd (ca_disk a') m = view a m) ∧
    ∀ k m, ¬ in_log l m →
      let D := crash (ca_disk a) (commit_trace l a) k in
      head_wf l (c_size (lcache s)) (rd D (l_start l)) ∧
      rd (recovered (l_start l) D) m =
        if decide (k ≤ Z.to_nat (l_n l))%nat then rd (ca_disk a) m else view a m).
Proof.
  intros l. destruct (ready_idle s a Hrdy) as (Hi&Hp&Hrest&Hlen).
  pose proof Hrdy as [Hwf Ha Hh Hpin Hr Hn Hc].
  eapply wp_mono; [by apply (commit_wp s a)|]. intros [] s' H'.
  destruct (now_lg _ _ _ H') as (El&Ha'&_). eexists. split; [exact Ha'|]. split_and!; try done.
  - apply set_eq. intros b. rw /= Hpin /commit_trace !fmap_app -list_fmap_compose list_fmap_id !list_to_set_app_L. set_solver.
  - intros m Hm. simpl.
    assert (head_n (rd (apply_writes (ca_disk a) (commit_trace l a)) (l_start l)) = 0) as E0.
    { destruct (commit_head_facts l _ a Hwf Hlen) as (CL&_).
      rw /commit_trace !apply_writes_app /= rd_insert decide_True // fill_zero //. }
    rw -(rd_recovered_clean (l_start l)) //.
    destruct (commit_crash s a (length (commit_trace l a)) m Hrdy Hm) as [_ E].
    rw decide_False in E.
    { rw /commit_trace !length_app /log_writes length_imap length_fmap -(txn_length _ _ Hwf) /l /=. lia. }
    by rw /crash take_ge in E.
  - intros k m Hm. by apply commit_crash.
Qed.

(** C4: recovery is idempotent.  recover_from_log installs the transaction of the log:
    afterwards the log is empty and every home block has its recovered contents; when the machine
    stops after any number of its writes, the header on disk is well-formed and recovering again gives the same blocks. *)
Theorem recovery_idempotent (s : lsys S) (a : cabs)
  (Hp : place_wf (lg s) (c_size (lcache s))) (Ha : c_abs (lcache s) a)
  (Hheld : ca_held a = ∅) (Hpin : ca_pinned a = ∅)
  (Hhead : head_wf (lg s) (c_size (lcache s)) (rd (ca_disk a) (l_start (lg s)))) :
  let l := lg s in
  wp recover_from_log s (λ _ s', ∃ a',
    c_abs (lcache s') a' ∧ l_n (lg s') = 0 ∧ ca_held a' = ∅ ∧ ca_pinned a' = ∅ ∧
    ca_writes a' = ca_writes a ++ recover_trace l a ∧
    (∀ m, ¬ in_log l m → head_n (rd (ca_disk a') (l_start l)) = 0 ∧
       rd (ca_disk a') m = rd (recovered (l_start l) (ca_disk a)) m) ∧
    ∀ k m, ¬ in_log l m →
      let D := crash (ca_disk a) (recover_trace l a) k in
      head_wf l (c_size (lcache s)) (rd D (l_start l)) ∧
      rd (recovered (l_start l) D) m = rd (recovered (l_start l) (ca_disk a)) m).
Proof.
  intros l. pose proof (pw_size _ _ Hp) as Hl.
  assert (view a (l_start l) = rd (ca_disk a) (l_start l)) as Ev.
  { apply (view_quiet (lcache s)); [done|done|]. rw Hpin. set_solver. }
  eapply wp_mono; [apply (recover_wp s a); try done; by rw Ev|]. intros [] s' H'.
  destruct (now_lg _ _ _ H') as (El&Ha'&_). eexists. split; [exact Ha'|].
  split_and!; [by rw El|done|rw /= Hpin; set_solver|done| |].
  - intros m Hm. by apply (recover_final l (c_size (lcache s)) (lcache s)).
  - intros k m Hm. by apply (recover_disk l _ (lcache s)).
Qed.

(** C2: the file system after a crash.  The machine stops after k block writes of a commit and boots again with an
    empty cache: initlog leaves on the disk the home blocks as they were before
    the transaction or as the transaction wrote them, all of them alike, and an
    empty log. *)
Theorem boot_after_crash (s : lsys S) (a : cabs) (k : nat) (b : lsys S) (W : list (Z * block))
  (Hrdy : ready s a)
  (Hc : c_abs (lcache b) (Cabs (crash (ca_disk a) (commit_trace (lg s) a) k) ∅ ∅ ∅ W))
  (Hsize : c_size (lcache b) = c_size (lcache s)) (Hsz : 1 < c_size (lcache b))
  (Hlog : lg b = log0)
  (Hstart : sb_logstart (get_superblock (rd (crash (ca_disk a) (commit_trace (lg s) a) k) 1)) = l_start (lg s))
  (Hnlog : sb_nlog (get_superblock (rd (crash (ca_disk a) (commit_trace (lg s) a) k) 1)) = l_size (lg s)) :
  wp (initlog 1) b (λ _ s', ∃ a',
    c_abs (lcache s') a' ∧ l_n (lg s') = 0 ∧ l_start (lg s') = l_start (lg s) ∧
    ∀ m, ¬ in_log (lg s) m → rd (ca_disk a') m =
      if decide (k ≤ Z.to_nat (l_n (lg s)))%nat then rd (ca_disk a) m else view a m).
Proof.
  set (D := crash (ca_disk a) (commit_trace (lg s) a) k) in *. pose proof (rdy_wf _ _ Hrdy) as Hwf.
  pose proof Hwf as []. set (l := set_place (l_start (lg s)) (l_size (lg s)) 1 log0).
  assert (s32 (l_start (lg s)) = l_start (lg s) ∧ s32 (l_size (lg s)) = l_size (lg s)) as [E1 E2]
    by (split; apply s32_small; lia).
  assert (∀ m, ¬ in_log (lg s) m → head_wf l (c_size (lcache b)) (rd D (l_start l)) ∧ rd (recovered (l_start l) D) m =
      if decide (k ≤ Z.to_nat (l_n (lg s)))%nat then rd (ca_disk a) m else view a m) as Hcr.
  { intros m Hm. destruct (commit_crash s a k m Hrdy Hm) as [[H1 H2 H3 H4] E]. split; [|exact E]. rw Hsize.
    split; try done. }
  assert (¬ in_log (lg s) (-1)) as Hm1 by (rw /in_log; lia).
  eapply wp_mono; [eapply (initlog_wp b _ _ Hc); try done; cbn [ca_disk]; rw Hstart Hnlog E1 E2 Hlog -/l|].
  - split; rw /= ?Hsize //; try lia. apply (Forall_replicate _ 30 0). rw /small. lia.
  - apply (Hcr (-1) Hm1).
  - cbn [ca_disk]. rw Hstart Hnlog E1 E2 Hlog -/l. intros [] s' H'. destruct (now_lg _ _ _ H') as (El&Ha'&_).
    eexists. split; [exact Ha'|]. split_and!; [by rw El|by rw El|]. intros m Hm.
    destruct (Hcr m Hm) as [Hh Hrec].
    destruct (recover_final l (c_size (lcache b)) (lcache b) (Cabs D ∅ ∅ ∅ W) m) as [_ E]; try done.
    + simpl. lia.
    + by rw /= E.
Qed.

End Claims.

(** Log_write on every branch.  In a transaction with room in the log it pins the block, keeps its contents, and
    appends its number to the header, or leaves the header as it is when the block is already there (absorption); the
    header stays a list of distinct home blocks.  A full log or no transaction in progress is a panic. *)
Theorem log_write_branches {S} `{!Cache S} (s : lsys S) (buf : nat) :
  let l := lg s in
  (LOGSIZE ≤ l_n l ∨ l_size l - 1 ≤ l_n l → log_write buf s = Panic "too big a transaction") ∧
  (l_n l < LOGSIZE → l_n l < l_size l - 1 → l_outstanding l < 1 →
     log_write buf s = Panic "log_write outside of trans") ∧
  (∀ a n, log_wf l (c_size (lcache s)) → c_abs (lcache s) a → ca_held a !! buf = Some n → ¬ in_log l n →
     lheld s = [] → l_n l < LOGSIZE → l_n l < l_size l - 1 → 1 ≤ l_outstanding l →
     wp (log_write buf) s (λ _ s',
       c_abs (lcache s') (pin_block a n) ∧ lheld s' = [] ∧ log_wf (lg s') (c_size (lcache s)) ∧
       txn (lg s') = (if decide (n ∈ txn l) then txn l else txn l ++ [n]) ∧
       ∀ m, view (pin_block a n) m = view a m)).
Proof.
  intros l. split_and!.
  - intros Hfull. rw /log_write /mbind /K_bind /gets /=. rw -/l.
    assert ((LOGSIZE <=? l_n l) || (l_size l - 1 <=? l_n l) = true) as -> by (destruct Hfull; lia). done.
  - intros H1 H2 H3. rw /log_write /mbind /K_bind /gets /=. rw -/l.
    rw (proj2 (Z.leb_gt _ _) H1) (proj2 (Z.leb_gt _ _) H2) (proj2 (Z.ltb_lt _ _) H3) //.
  - intros a n Hwf Ha Hb Hl Hh H1 H2 H3. eapply wp_mono; [by apply (log_write_wp s a buf n)|].
    intros [] s' H'. destruct (now_lg _ _ _ H') as (El&Ha'&_). simpl in El. rw El.
    split_and!; [done|by destruct H' as (c&->&_)| |exact (logged_txn l _ n Hwf H1)|].
    + apply logged_wf; try done. by apply (abs_range _ _ _ _ Ha Hb).
    + intros m. rw /view /=. destruct (decide (m = n)) as [->|Hne]; [by rw lookup_insert_eq|].
      rw lookup_insert_ne //. congruence.
Qed.


(** The log of the file system mkfs makes: LOGSIZE blocks, one of them the header. *)
Definition boot_log : log := set_place 2 LOGSIZE 1 log0.
Definition boot_ops {S} (c : S) : ops S := Ops (Lsys boot_log c [] ∅) ∅ None.

(** Three calls; the first two log their ten blocks and the third nine. *)
Definition full_run : list act :=
  [Begin 1; Begin 2; Begin 3] ++ (Write 1 ∘ Z.of_nat <$> seq 100 10) ++
  (Write 2 ∘ Z.of_nat <$> seq 110 10) ++ (Write 3 ∘ Z.of_nat <$> seq 120 9).

(** The log of mkfs is one block short.  begin_op admits three calls at a time, each entitled to MAXOPBLOCKS
    blocks, as if the log held LOGSIZE of them; but mkfs gives the log LOGSIZE blocks including its header,
    so the thirtieth block, within the share of its call, is a panic. *)
Theorem log_one_block_short {S} `{!Cache S} (c : S) (buf : nat) :
  ∃ o, op_run full_run (boot_ops c) = Some o ∧ o_ops o !! 3%nat = Some 9 ∧ 9 < MAXOPBLOCKS ∧
    l_n (lg (o_sys o)) < LOGSIZE ∧ log_write buf (o_sys o) = Panic "too big a transaction".
Proof. eexists. split; [vm_compute; reflexivity|]. by split_and!. Qed.

(** ** Witnesses *)

(** A disk with the super block of mkfs. *)
Definition fs_disk : disk :=
  Disk 1000 {[ 1 := put_superblock (Superblock 1000 941 200 30 2 32 58) zero_block ]} [].
Definition fs_cache : bcache := Bcache init_bufs fs_disk [].

Lemma fs_cache_abs : bio_abs 1 fs_cache (clean fs_disk).
Proof.
  apply init_abs. intros n. rw /rd /=. destruct (decide (n = 1)) as [->|Hne]; [by rw lookup_singleton_eq|].
  rw lookup_singleton_ne; [congruence|done].
Qed.

(** A transaction: block 40 is filled with sevens. *)
Definition sevens : block := replicate (Z.to_nat BSIZE) 7.
Definition change_40 : K bcache unit :=
  i ← bread 1 1 40; _ ← bset i sevens; _ ← bpin i; brelse 1 i.

Definition txn_abs : cabs := Cabs (d_blocks fs_disk) {[ 40 := sevens ]} ∅ {[ 40 ]} [].
Definition txn_log : log := Log 2 30 0 true 1 1 (40 :: replicate 29 0).

Lemma txn_abs_eq i :
  drop_held (pin_block (set_block (take_held (clean fs_disk) i 40) 40 sevens) 40) i 40 = txn_abs.
Proof.
  assert (view (set_block (take_held (clean fs_disk) i 40) 40 sevens) 40 = sevens) as Ev.
  { by rw /view /set_block /take_held /clean /ca_mem lookup_insert_eq. }
  rw /drop_held /txn_abs /pin_block Ev. cbn [ca_disk ca_mem ca_held ca_pinned ca_writes set_block take_held clean].
  destruct (decide (40 ∈ {[40]} ∪ ∅)) as [Hd|Hd]; [|destruct Hd; set_solver].
  rw (delete_insert_id (∅ : gmap nat Z)); [apply lookup_empty|]. rw insert_insert_eq union_empty_r_L. reflexivity.
Qed.

Lemma change_40_wp : wp change_40 fs_cache (λ _ s, d_size (bdisk s) = 1000 ∧ bio_abs 1 s txn_abs).
Proof.
  rw /change_40. apply wp_bind. eapply wp_mono; [apply (bread_wp 1 fs_cache (clean fs_disk) 40 fs_cache_abs)|].
  - split; [lia|reflexivity].
  - by rw held_blocks_none.
  - right. rw busy_idle; [done|]. vm_compute. lia.
  - intros i s1 (Hi&E1&H1).
    assert (∀ a, ca_held a = <[i := 40]> ∅ → ca_held a !! i = Some 40) as Hheld
      by (intros a ->; apply lookup_insert_eq).
    apply wp_bind. eapply wp_mono; [apply (bset_wp 1 s1 _ i 40 sevens H1); [by apply Hheld|reflexivity]|].
    intros [] s2 [E2 H2]. apply wp_bind. eapply wp_mono; [apply (bpin_wp 1 s2 _ i 40 H2); by apply Hheld|].
    intros [] s3 [E3 H3].
    eapply wp_mono; [apply (brelse_law (Cache := bio_Cache 1) s3 _ i 40 H3); [by apply Hheld|left; set_solver]|].
    intros [] s4 [E4 H4]. simpl in E4. split; [by rw E4 E3 E2 E1|]. rw -(txn_abs_eq i). exact H4.
Qed.

Definition txn_cache : bcache := state_of change_40 fs_cache.

Lemma txn_cache_abs : d_size (bdisk txn_cache) = 1000 ∧ bio_abs 1 txn_cache txn_abs.
Proof.
  destruct (wp_state_of _ _ _ change_40_wp) as [r H]. exact H.
Qed.
#[global] Opaque txn_cache.
Definition txn_sys : lsys bcache := Lsys txn_log txn_cache [] ∅.

Lemma txn_log_wf : log_wf txn_log 1000.
Proof.
  assert (txn txn_log = [40]) as Et by reflexivity. split; rewrite ?Et.
  1-6: rewrite /txn_log /LOGSIZE /MAXOPBLOCKS /=; lia.
  - reflexivity.
  - apply Forall_cons. split; [rewrite /small; lia|]. apply Forall_replicate. rewrite /small. lia.
  - apply NoDup_singleton.
  - intros b ->%list_elem_of_singleton. split; [lia|]. rewrite /in_log /=. lia.
Qed.

Lemma txn_ready : ready (Cache0 := bio_Cache 1) txn_sys txn_abs.
Proof.
  destruct txn_cache_abs as [Hsz Ha]. split.
  - change (log_wf txn_log (d_size (bdisk txn_cache))). rewrite Hsz. exact txn_log_wf.
  - exact Ha.
  - reflexivity.
  - change (ca_pinned txn_abs = list_to_set [40]). set_solver.
  - change (1 < NBUF)%nat. rewrite /NBUF. lia.
  - reflexivity.
  - vm_compute. reflexivity.
Qed.

Lemma commit_atomic_witness :
  wp (commit (Cache0 := bio_Cache 1)) txn_sys
    (λ _ s', ∃ a', bio_abs 1 (lcache s') a' ∧ rd (ca_disk a') 40 = sevens).
Proof.
  pose proof (commit_atomic (Cache0 := bio_Cache 1) txn_sys txn_abs txn_ready) as Hwp. cbv zeta in Hwp.
  eapply wp_mono; [exact Hwp|].
  intros [] s' (a'&Ha'&_&_&_&_&_&Hm&_). exists a'. split; [exact Ha'|].
  transitivity (view txn_abs 40); [|vm_compute; reflexivity].
  apply Hm. change (¬ 2 ≤ 40 < 2 + 30). lia.
Defined.

(** The disk on which the machine stopped once the header of this transaction was written. *)
Definition crashed_disk : disk :=
  Disk 1000 (crash (d_blocks fs_disk) (commit_trace txn_log txn_abs) 2) [].
Definition crashed_cache : bcache := Bcache init_bufs crashed_disk [].
Definition crashed_sys (l : log) : lsys bcache := Lsys l crashed_cache [] ∅.

Lemma crashed_cache_abs : bio_abs 1 crashed_cache (clean crashed_disk).
Proof.
  apply init_abs. intros n.
  change (d_blocks crashed_disk) with
    (<[2 := commit_head txn_log txn_abs]> (<[3 := view txn_abs 40]> (d_blocks fs_disk))).
  rewrite rd_insert rd_insert. destruct (decide (2 = n)); [vm_compute; reflexivity|].
  destruct (decide (3 = n)); [vm_compute; reflexivity|].
  exact (bo_disk _ _ _ (ba_bufs _ _ _ fs_cache_abs) n).
Qed.

Lemma boot_after_crash_witness :
  wp (initlog (Cache0 := bio_Cache 1) 1) (crashed_sys log0)
    (λ _ s', ∃ a', bio_abs 1 (lcache s') a' ∧ rd (ca_disk a') 40 = sevens).
Proof.
  destruct txn_cache_abs as [Hsz _].
  pose proof (boot_after_crash (Cache0 := bio_Cache 1) txn_sys txn_abs 2 (crashed_sys log0) [] txn_ready crashed_cache_abs) as Hwp.
  eapply wp_mono; [apply Hwp|].
  - change (1000 = d_size (bdisk txn_cache)). symmetry. exact Hsz.
  - change (1 < 1000). lia.
  - reflexivity.
  - vm_compute. reflexivity.
  - vm_compute. reflexivity.
  - intros [] s' (a'&Ha'&_&_&Hm). exists a'. split; [exact Ha'|].
    transitivity (view txn_abs 40); [|vm_compute; reflexivity].
    apply (Hm 40). change (¬ 2 ≤ 40 < 2 + 30). lia.
Defined.

Lemma boot_log_wf : place_wf boot_log 1000.
Proof.
  split.
  1-5: rewrite /boot_log /LOGSIZE /MAXOPBLOCKS /=; lia.
  - reflexivity.
  - apply Forall_replicate. rewrite /small. lia.
Qed.

Lemma recovery_idempotent_witness :
  wp (recover_from_log (Cache0 := bio_Cache 1)) (crashed_sys boot_log)
    (λ _ s', l_n (lg s') = 0 ∧ ∃ a', bio_abs 1 (lcache s') a' ∧
       rd (ca_disk a') 40 = rd (recovered 2 (d_blocks crashed_disk)) 40).
Proof.
  pose proof (recovery_idempotent (Cache0 := bio_Cache 1) (crashed_sys boot_log) (clean crashed_disk)) as Hwp.
  cbv zeta in Hwp. eapply wp_mono; [apply Hwp|].
  - exact boot_log_wf.
  - exact crashed_cache_abs.
  - reflexivity.
  - reflexivity.
  - assert (hdr (rd (d_blocks crashed_disk) 2) = [40]) as Eh by (vm_compute; reflexivity).
    change (head_wf boot_log 1000 (rd (d_blocks crashed_disk) 2)). split; rewrite ?Eh.
    + change (0 ≤ 1 < 30). lia.
    + change (1 ≤ 30). lia.
    + apply NoDup_singleton.
    + intros b ->%list_elem_of_singleton. split; [lia|]. change (¬ 2 ≤ 40 < 2 + 30). lia.
  - intros [] s' (a'&Ha'&Hn&_&_&_&Hm&_). split; [exact Hn|]. exists a'. split; [exact Ha'|].
    destruct (Hm 40) as [_ E]; [change (¬ 2 ≤ 40 < 2 + 30); lia|exact E].
Defined.

