(* ===== verification/Txn.v ===== *)
(** * The interface between the file system and the log.

    fs.c works on buffers: bread, changes of [b->data], log_write and brelse, inside a
    transaction.  [Txn] states what these promise together, in terms of the
    current contents of every block, the buffers held (and whether one was changed since
    its last log_write) and the set of logged blocks.  The log over any
    buffer cache is an instance. *)
From S2P Require Import Prelude Spinlock Layout Bio Log.
Local Open Scope Z_scope.

(** The disk as the file system sees it: its size, the number of blocks the log can hold, and
    the blocks outside the log. *)
Record tconf := Tconf { tc_size : Z; tc_cap : nat; tc_home : Z → Prop }.

(** Contents of the blocks, with one changed. *)
Definition upd (v : Z → block) (n : Z) (d : block) : Z → block := λ m, if decide (m = n) then d else v m.

Lemma upd_eq v n d : upd v n d n = d.
Proof. rw /upd decide_True //. Qed.
Lemma upd_ne v n d m : m ≠ n → upd v n d m = v m.
Proof. intros. rw /upd decide_False //. Qed.

Definition hblocks (h : gmap nat (Z * bool)) : gset Z := list_to_set (map_to_list (fst <$> h)).*2.

Lemma elem_hblocks h n : n ∈ hblocks h ↔ ∃ i b, h !! i = Some (n, b).
Proof.
  rw /hblocks elem_of_list_to_set list_elem_of_fmap. split.
  - intros ([i m]&->&Hm%elem_of_map_to_list). rw lookup_fmap fmap_Some in Hm.
    destruct Hm as ([m' b]&Hm&->). by exists i, b.
  - intros (i&b&Hi). exists (i, n). split; [done|]. apply elem_of_map_to_list. by rw lookup_fmap Hi.
Qed.

Lemma hblocks_empty : hblocks ∅ = ∅.
Proof. apply set_eq. intros n. rw elem_hblocks. set_solver. Qed.

Lemma hblocks_insert h i n b : h !! i = None → hblocks (<[i := (n, b)]> h) = {[n]} ∪ hblocks h.
Proof.
  intros Hi. apply set_eq. intros m. rw elem_of_union elem_of_singleton !elem_hblocks. split.
  - intros (j&c&[[_ [= -> ->]]|[_ Hj]]%lookup_insert_Some); [by left|right; eauto].
  - intros [->|(j&c&Hj)]; [exists i, b; apply lookup_insert_eq|]. exists j, c.
    rw lookup_insert_ne //. congruence.
Qed.

Class Txn (T : Type) := {
  t_bread : Z → Z → K T nat;
  t_bdata : nat → K T block;
  t_bset : nat → block → K T unit;
  t_log_write : nat → K T unit;
  t_brelse : nat → K T unit;
  t_abs : T → tconf → (Z → block) → gmap nat (Z * bool) → gset Z → Prop;

  t_bread_law s c v h L n :
    t_abs s c v h L → 0 ≤ n < tc_size c → n ∉ hblocks h →
    n ∈ L ∨ (size (hblocks h ∪ L) < NBUF)%nat →
    wp (t_bread 1 n) s (λ i s', h !! i = None ∧ t_abs s' c v (<[i := (n, false)]> h) L);
  t_bdata_law s c v h L i n b :
    t_abs s c v h L → h !! i = Some (n, b) → wp (t_bdata i) s (λ d s', d = v n ∧ s' = s);
  t_bset_law s c v h L i n b d :
    t_abs s c v h L → h !! i = Some (n, b) → length d = Z.to_nat BSIZE →
    wp (t_bset i d) s (λ _ s', t_abs s' c (upd v n d) (<[i := (n, true)]> h) L);
  t_log_write_law s c v h L i n b :
    t_abs s c v h L → h !! i = Some (n, b) → tc_home c n → (size L < tc_cap c)%nat →
    wp (t_log_write i) s (λ _ s', t_abs s' c v (<[i := (n, false)]> h) ({[n]} ∪ L));
  t_brelse_law s c v h L i n :
    t_abs s c v h L → h !! i = Some (n, false) → wp (t_brelse i) s (λ _ s', t_abs s' c v (delete i h) L);
  t_len s c v h L n : t_abs s c v h L → length (v n) = Z.to_nat BSIZE;
  t_ext s c v v' h L : t_abs s c v h L → (∀ n, v n = v' n) → t_abs s c v' h L
}.

(** ** The log is such an interface *)

Section LogTxn.
Context {S : Type} `{!Cache S}.

(** A transaction is in progress in [s]. *)
Record log_abs (s : lsys S) (c : tconf) (v : Z → block) (h : gmap nat (Z * bool)) (L : gset Z) (a : cabs) : Prop := {
  la_abs : c_abs (lcache s) a;
  la_size : c_size (lcache s) = tc_size c;
  la_wf : log_wf (lg s) (tc_size c);
  la_free : lheld s = [];
  la_out : 1 ≤ l_outstanding (lg s);
  la_pinned : ca_pinned a = L;
  la_logged : L = list_to_set (txn (lg s));
  la_view : ∀ n, view a n = v n;
  la_held : ca_held a = fst <$> h;
  la_clean : ∀ i n, h !! i = Some (n, false) → n ∈ L ∨ v n = rd (ca_disk a) n;
  la_cap : Z.of_nat (tc_cap c) = Z.min LOGSIZE (l_size (lg s) - 1);
  la_home : ∀ n, tc_home c n → ¬ in_log (lg s) n
}.

Definition log_tabs (s : lsys S) c v h L : Prop := ∃ a, log_abs s c v h L a.

Lemma held_fmap (h : gmap nat (Z * bool)) i n b : h !! i = Some (n, b) → (fst <$> h) !! i = Some n.
Proof. intros E. by rw lookup_fmap E. Qed.

Lemma held_blocks_fmap a h : ca_held a = fst <$> h → held_blocks a = hblocks h.
Proof. intros E. by rw /held_blocks E. Qed.

Lemma log_bread_law s c v h L n :
  log_tabs s c v h L → 0 ≤ n < tc_size c → n ∉ hblocks h →
  n ∈ L ∨ (size (hblocks h ∪ L) < NBUF)%nat →
  wp (incache (c_bread 1 n)) s (λ i s', h !! i = None ∧ log_tabs s' c v (<[i := (n, false)]> h) L).
Proof.
  intros [a Ha] Hn Hh Hr. destruct Ha as [H1 H2 H3 H4 H5 H6 H7 H8 H9 H10 H11 H12].
  apply wp_incache. eapply wp_mono; [apply (bread_law (lcache s) a n H1)|].
  - by rw H2.
  - by rw (held_blocks_fmap a h).
  - rw /busy (held_blocks_fmap a h) // H6. done.
  - intros i c' (Hi&E&Ha'). rw H9 lookup_fmap fmap_None in Hi. split; [done|].
    exists (take_held a i n). split; simpl; try done; [congruence|by rw fmap_insert H9|].
    intros j m [[-> [= ->]]|[_ Hj]]%lookup_insert_Some; [|eauto].
    destruct (decide (m ∈ L)) as [|Hm]; [by left|right]. rw -H8 /view.
    destruct (ca_mem a !! m) as [d|] eqn:Em; [|done].
    apply (abs_mem _ a m d H1) in Em. rw /busy (held_blocks_fmap a h) // H6 in Em. set_solver.
Qed.

Lemma log_bset_law s c v h L i n b d :
  log_tabs s c v h L → h !! i = Some (n, b) → length d = Z.to_nat BSIZE →
  wp (incache (c_bset i d)) s (λ _ s', log_tabs s' c (upd v n d) (<[i := (n, true)]> h) L).
Proof.
  intros [a Ha] Hi Hd. destruct Ha as [H1 H2 H3 H4 H5 H6 H7 H8 H9 H10 H11 H12].
  assert (ca_held a !! i = Some n) as Hia by (rw H9; by apply (held_fmap h i n b)).
  apply wp_incache. eapply wp_mono; [exact (bset_law _ a i n d H1 Hia Hd)|].
  intros [] c' [E Ha']. exists (set_block a n d). split; simpl; try done.
  - congruence.
  - intros m. rw /view /=. destruct (decide (m = n)) as [->|Hne]; [by rw upd_eq lookup_insert_eq|].
    rw upd_ne // lookup_insert_ne; [congruence|]. apply H8.
  - rw fmap_insert /= H9. symmetry. apply insert_id. by rw -H9.
  - intros j m [[-> [=]]|[Hij Hj]]%lookup_insert_Some. rw upd_ne; [|by apply (H10 j)].
    intros ->. apply Hij. apply (abs_held _ a i j n H1 Hia). rw H9. exact (held_fmap h j n false Hj).
Qed.

Lemma log_log_write_law s c v h L i n b :
  log_tabs s c v h L → h !! i = Some (n, b) → tc_home c n → (size L < tc_cap c)%nat →
  wp (log_write i) s (λ _ s', log_tabs s' c v (<[i := (n, false)]> h) ({[n]} ∪ L)).
Proof.
  intros [a Ha] Hi Hhome Hcap. destruct Ha as [H1 H2 H3 H4 H5 H6 H7 H8 H9 H10 H11 H12].
  assert (ca_held a !! i = Some n) as Hia by (rw H9; by apply (held_fmap h i n b)).
  assert (Z.of_nat (size L) = l_n (lg s)) as Hn.
  { pose proof (wf_n _ _ H3). rw H7 size_list_to_set; [apply (wf_nodup _ _ H3)|]. rw (txn_length _ _ H3). lia. }
  assert (l_n (lg s) < LOGSIZE ∧ l_n (lg s) < l_size (lg s) - 1) as [Hn1 Hn2] by lia.
  assert (0 ≤ n < tc_size c) as Hr by (rw -H2; by apply (abs_range _ a i)).
  eapply wp_mono; [apply (log_write_wp s a i n); try done; by rw H2|].
  intros [] s' H'. destruct (now_lg _ _ _ H') as (El&Ha'&Es). simpl in El, Es.
  exists (pin_block a n). pose proof (logged_txn (lg s) _ n H3 Hn1) as Et.
  assert (l_outstanding (logged n (lg s)) = l_outstanding (lg s) ∧ l_size (logged n (lg s)) = l_size (lg s) ∧
    l_start (logged n (lg s)) = l_start (lg s)) as (Eo&Ez&Est) by (rw /logged; by case_decide).
  split; simpl; rw ?El ?Eo ?Ez //.
  - congruence.
  - apply logged_wf; try done. by apply H12.
  - by destruct H' as (c'&->&_).
  - by rw H6.
  - rw Et H7. case_decide; [|rw list_to_set_app_L; set_solver].
    assert (n ∈ (list_to_set (txn (lg s)) : gset Z)) by by apply elem_of_list_to_set. set_solver.
  - intros m. rw -H8 /view /=. destruct (decide (m = n)) as [->|Hne]; [by rw lookup_insert_eq|].
    rw lookup_insert_ne //. congruence.
  - rw fmap_insert /= H9. symmetry. apply insert_id. by rw -H9.
  - intros j m [[-> [= ->]]|[Hij Hj]]%lookup_insert_Some; [left; set_solver|].
    destruct (H10 j m Hj); [left; set_solver|by right].
  - intros m Hm. specialize (H12 m Hm). rw /in_log Est Ez in H12 |- *. done.
Qed.

Lemma log_brelse_law s c v h L i n :
  log_tabs s c v h L → h !! i = Some (n, false) →
  wp (incache (c_brelse i)) s (λ _ s', log_tabs s' c v (delete i h) L).
Proof.
  intros [a Ha] Hi. destruct Ha as [H1 H2 H3 H4 H5 H6 H7 H8 H9 H10 H11 H12].
  assert (ca_held a !! i = Some n) as Hia by (rw H9; by apply (held_fmap h i n false)).
  assert (n ∈ ca_pinned a ∨ view a n = rd (ca_disk a) n) as Hc by (rw H6 H8; eauto).
  apply wp_incache. eapply wp_mono; [exact (brelse_law _ a i n H1 Hia Hc)|].
  intros [] c' [E Ha']. exists (drop_held a i n). split; simpl; try done.
  - congruence.
  - intros m. rw -H8. by apply view_drop.
  - by rw fmap_delete H9.
  - intros j m [_ Hj]%lookup_delete_Some. eauto.
Qed.

#[global] Program Instance log_Txn : Txn (lsys S) := {|
  t_bread := λ dev n, incache (c_bread dev n);
  t_bdata := λ i, incache (c_bdata i);
  t_bset := λ i d, incache (c_bset i d);
  t_log_write := log_write;
  t_brelse := λ i, incache (c_brelse i);
  t_abs := log_tabs
|}.
Next Obligation. intros. by apply log_bread_law. Qed.
Next Obligation.
  intros s c v h L i n b [a Ha] Hi. destruct Ha as [H1 H2 H3 H4 H5 H6 H7 H8 H9 H10 H11 H12].
  apply wp_incache. eapply wp_mono; [apply (bdata_law _ a i n H1)|].
  - rw H9. by apply (held_fmap h i n b).
  - intros d c' [-> ->]. rw H8. by destruct s.
Qed.
Next Obligation. intros s c v h L i n b d Ha Hi Hd. by apply (log_bset_law s c v h L i n b). Qed.
Next Obligation. intros s c v h L i n b Ha Hi Hh Hc. by apply (log_log_write_law s c v h L i n b). Qed.
Next Obligation. intros s c v h L i n Ha Hi. by apply (log_brelse_law s c v h L i n). Qed.
Next Obligation. intros s c v h L n [a Ha]. rw -(la_view _ _ _ _ _ _ Ha n). exact (abs_len _ a n (la_abs _ _ _ _ _ _ Ha)). Qed.
Next Obligation.
  intros s c v v' h L [a Ha] Hv. destruct Ha as [H1 H2 H3 H4 H5 H6 H7 H8 H9 H10 H11 H12].
  exists a. split; try done; [by intros; rw H8|]. intros i n Hi. rw -Hv. eauto.
Qed.

End LogTxn.
