(* ===== verification/Fs.v ===== *)
(** * The file system: blocks, inodes, directories and paths (xv6/fs.c, fs.h, file.h, stat.h).

    fs.c over any transaction layer that keeps the promises of [Txn].  The state is
    that layer, the super block, the cache of in-memory inodes (by index, as the
    code has pointers into the array) and the spinlocks held.  A copy to or
    from the caller's memory is a list of bytes; a path is the list of its bytes before the terminating zero.
    Operations that find an inode locked by another process sleep. *)
From S2P Require Import Prelude Str Spinlock Sleeplock Layout Bio Log Txn.
Local Open Scope Z_scope.

(** ** Data *)

Definition NINODE : nat := 50.
Definition NDEV : Z := 10.
Definition ROOTDEV : Z := 1.
Definition ROOTINO : Z := 1.
Definition T_DIR : Z := 1.
Definition T_FILE : Z := 2.
Definition T_DEV : Z := 3.
Definition BPB : Z := BSIZE * 8.

(** [struct inode]; [i_din] are its fields that copy the disk inode. *)
Record inode := Inode {
  i_dev : Z;
  i_inum : Z;
  i_ref : Z;
  i_lock : sleeplock;
  i_valid : bool;
  i_din : dinode
}.

Definition set_ref (v : Z) (ip : inode) : inode :=
  Inode (i_dev ip) (i_inum ip) v (i_lock ip) (i_valid ip) (i_din ip).
Definition set_ilock (v : sleeplock) (ip : inode) : inode :=
  Inode (i_dev ip) (i_inum ip) (i_ref ip) v (i_valid ip) (i_din ip).
Definition set_valid (v : bool) (ip : inode) : inode :=
  Inode (i_dev ip) (i_inum ip) (i_ref ip) (i_lock ip) v (i_din ip).
Definition set_din (v : dinode) (ip : inode) : inode :=
  Inode (i_dev ip) (i_inum ip) (i_ref ip) (i_lock ip) (i_valid ip) v.
(** The entry that [iget] recycles. *)
Definition claim (dev inum : Z) (ip : inode) : inode :=
  Inode dev inum 1 (i_lock ip) false (i_din ip).

Definition set_type (v : Z) (di : dinode) : dinode :=
  Dinode v (di_major di) (di_minor di) (di_nlink di) (di_size di) (di_addrs di).
Definition set_nlink (v : Z) (di : dinode) : dinode :=
  Dinode (di_type di) (di_major di) (di_minor di) v (di_size di) (di_addrs di).
Definition set_size (v : Z) (di : dinode) : dinode :=
  Dinode (di_type di) (di_major di) (di_minor di) (di_nlink di) v (di_addrs di).
Definition set_addr (k : Z) (v : Z) (di : dinode) : dinode :=
  Dinode (di_type di) (di_major di) (di_minor di) (di_nlink di) (di_size di)
    (<[Z.to_nat k := v]> (di_addrs di)).
Definition set_dev (major minor : Z) (di : dinode) : dinode :=
  Dinode (di_type di) major minor (di_nlink di) (di_size di) (di_addrs di).
Definition addr (di : dinode) (k : Z) : Z := default 0 (di_addrs di !! Z.to_nat k).

Record stat := Stat { st_type : Z; st_dev : Z; st_ino : Z; st_nlink : Z; st_size : Z }.

Record fsys (T : Type) := Fsys {
  ft : T;
  fsb : superblock;
  finodes : list inode;
  fheld : list string
}.
Arguments Fsys {_} _ _ _ _.
Arguments ft {_} _.
Arguments fsb {_} _.
Arguments finodes {_} _.
Arguments fheld {_} _.

#[global] Program Instance fsys_HasLocks T : HasLocks (fsys T) :=
  {| held := fheld; set_held := λ h s, Fsys (ft s) (fsb s) (finodes s) h |}.
Next Obligation. done. Qed.

(** Where the structures are. *)
Definition BBLOCK (b : Z) (sb : superblock) : Z := b / BPB + sb_bmapstart sb.
Definition IBLOCK (i : Z) (sb : superblock) : Z := i / IPB + sb_inodestart sb.

(** ** Blocks *)

(** Bit [bi] of a bitmap block. *)
Definition bit_mask (bi : Z) : Z := Z.shiftl 1 (bi mod 8).
Definition byte_of (d : block) (bi : Z) : Z := default 0 (d !! Z.to_nat (bi / 8)).
Definition bit_clear (d : block) (bi : Z) : bool := Z.land (byte_of d bi) (bit_mask bi) =? 0.
Definition set_bit (d : block) (bi : Z) : block :=
  <[Z.to_nat (bi / 8) := u8 (Z.lor (byte_of d bi) (bit_mask bi))]> d.
Definition clear_bit (d : block) (bi : Z) : block :=
  <[Z.to_nat (bi / 8) := u8 (Z.land (byte_of d bi) (Z.lnot (bit_mask bi)))]> d.

(** The inner loop of [balloc]: the first clear bit, for blocks below [size]. *)
Definition find_free (d : block) (b size : Z) : option Z :=
  snd <$> list_find (λ bi, bit_clear d bi = true) (range 0 (Z.min BPB (size - b))).

Section Ops.
Context {T : Type} `{!Txn T}.
(** The running process and its current directory. *)
Context (me : Z) (cwd : nat).
(** The device switch table of file.c: the routines of console.c. *)
Context (dev_read : Z → option (nat → Z → K (fsys T) (Z * list Z))).
Context (dev_write : Z → option (nat → list Z → Z → K (fsys T) Z)).

Definition intx {A} (m : K T A) : K (fsys T) A :=
  zoom ft (λ t s, Fsys t (fsb s) (finodes s) (fheld s)) m.
Definition inode_at (ip : nat) : K (fsys T) inode := λ s,
  match finodes s !! ip with Some i => Ret i s | None => Undef "no such inode" end.
Definition upd_inode (ip : nat) (f : inode → inode) : K (fsys T) unit :=
  modify (λ s, Fsys (ft s) (fsb s) (alter f ip (finodes s)) (fheld s)).
Definition upd_din (ip : nat) (f : dinode → dinode) : K (fsys T) unit :=
  upd_inode ip (λ i, set_din (f (i_din i)) i).

Definition bzero (dev bno : Z) : K (fsys T) unit :=
  bp ← intx (t_bread dev bno);
  _ ← intx (t_bset bp zero_block);
  _ ← intx (t_log_write bp);
  intx (t_brelse bp).

Definition balloc (dev : Z) : K (fsys T) Z :=
  sb ← gets fsb;
  r ← for_break ((λ k, k * BPB) <$> range 0 ((sb_size sb + BPB - 1) / BPB)) (λ b,
    bp ← intx (t_bread dev (BBLOCK b sb));
    d ← intx (t_bdata bp);
    match find_free d b (sb_size sb) with
    | Some bi =>
        _ ← intx (t_bset bp (set_bit d bi));
        _ ← intx (t_log_write bp);
        _ ← intx (t_brelse bp);
        _ ← bzero dev (b + bi);
        mret (Some (b + bi))
    | None =>
        _ ← intx (t_brelse bp);
        mret None
    end);
  match r with
  | Some b => mret b
  | None => panic "balloc: out of blocks"
  end.

Definition bfree (dev b : Z) : K (fsys T) unit :=
  sb ← gets fsb;
  bp ← intx (t_bread dev (BBLOCK b sb));
  d ← intx (t_bdata bp);
  if bit_clear d (b mod BPB) then panic "freeing free block"
  else
    _ ← intx (t_bset bp (clear_bit d (b mod BPB)));
    _ ← intx (t_log_write bp);
    intx (t_brelse bp).

(** ** Inodes *)

(** [readsb(dev, &sb)] of [iinit]; the locks are initialised and the super block is printed. *)
Definition iinit (dev : Z) : K (fsys T) unit :=
  _ ← modify (λ s, Fsys (ft s) (fsb s)
        ((λ ip, set_ilock (Sleeplock 0 "inode" 0) ip) <$> finodes s) (fheld s));
  bp ← intx (t_bread dev 1);
  d ← intx (t_bdata bp);
  _ ← intx (t_brelse bp);
  modify (λ s, Fsys (ft s) (get_superblock d) (finodes s) (fheld s)).

(** Offset of inode [inum] in its block. *)
Definition ioff (inum : Z) : nat := Z.to_nat (inum mod IPB) * DINODE.
Definition disk_inode (d : block) (inum : Z) : dinode := get_dinode (slice (ioff inum) DINODE d).

(** The loop of [iget]: the entry with a reference to the inode, else the first free one. *)
Fixpoint iget_scan (l : list inode) (dev inum : Z) (i : nat) (empty : option nat) : nat + option nat :=
  match l with
  | [] => inr empty
  | ip :: l' =>
      if (0 <? i_ref ip) && (i_dev ip =? dev) && (i_inum ip =? inum) then inl i
      else iget_scan l' dev inum (S i)
             (match empty with None => if i_ref ip =? 0 then Some i else None | _ => empty end)
  end.

Definition iget (dev inum : Z) : K (fsys T) nat :=
  _ ← lock_acquire "icache";
  l ← gets finodes;
  match iget_scan l dev inum 0 None with
  | inl i =>
      _ ← upd_inode i (λ ip, set_ref (s32 (i_ref ip + 1)) ip);
      _ ← lock_release "icache";
      mret i
  | inr None => panic "iget: no inodes"
  | inr (Some i) =>
      _ ← upd_inode i (claim dev inum);
      _ ← lock_release "icache";
      mret i
  end.

Definition ialloc (dev type : Z) : K (fsys T) nat :=
  sb ← gets fsb;
  r ← for_break (range 1 (sb_ninodes sb)) (λ inum,
    bp ← intx (t_bread dev (IBLOCK inum sb));
    d ← intx (t_bdata bp);
    if di_type (disk_inode d inum) =? 0 then
      _ ← intx (t_bset bp (splice (ioff inum) (put_dinode (Dinode type 0 0 0 0 (replicate 13 0))) d));
      _ ← intx (t_log_write bp);
      _ ← intx (t_brelse bp);
      i ← iget dev inum;
      mret (Some i)
    else
      _ ← intx (t_brelse bp);
      mret None);
  match r with
  | Some i => mret i
  | None => panic "ialloc: no inodes"
  end.

Definition iupdate (ip : nat) : K (fsys T) unit :=
  sb ← gets fsb;
  i ← inode_at ip;
  bp ← intx (t_bread (i_dev i) (IBLOCK (i_inum i) sb));
  d ← intx (t_bdata bp);
  _ ← intx (t_bset bp (splice (ioff (i_inum i)) (put_dinode (i_din i)) d));
  _ ← intx (t_log_write bp);
  intx (t_brelse bp).

Definition idup (ip : nat) : K (fsys T) nat :=
  _ ← lock_acquire "icache";
  _ ← upd_inode ip (λ i, set_ref (s32 (i_ref i + 1)) i);
  _ ← lock_release "icache";
  mret ip.

(** [acquiresleep(&ip->lock)] and [releasesleep(&ip->lock)]. *)
Definition acquire_ilock (ip : nat) : K (fsys T) unit :=
  i ← inode_at ip;
  if negb (sl_locked (i_lock i) =? 0) then sleeps "inode"
  else upd_inode ip (set_ilock (Sleeplock 1 (sl_name (i_lock i)) me)).
Definition release_ilock (ip : nat) : K (fsys T) unit :=
  upd_inode ip (λ i, set_ilock (Sleeplock 0 (sl_name (i_lock i)) 0) i).

Definition ilock (ip : nat) : K (fsys T) unit :=
  sb ← gets fsb;
  i ← inode_at ip;
  if i_ref i <? 1 then panic "ilock"
  else
    _ ← acquire_ilock ip;
    i ← inode_at ip;
    when (negb (i_valid i))
      (bp ← intx (t_bread (i_dev i) (IBLOCK (i_inum i) sb));
       d ← intx (t_bdata bp);
       _ ← upd_inode ip (set_din (disk_inode d (i_inum i)));
       _ ← intx (t_brelse bp);
       _ ← upd_inode ip (set_valid true);
       when (di_type (disk_inode d (i_inum i)) =? 0) (panic "ilock: no type")).

Definition iunlock (ip : nat) : K (fsys T) unit :=
  i ← inode_at ip;
  if negb (negb (sl_locked (i_lock i) =? 0) && (sl_pid (i_lock i) =? me)) || (i_ref i <? 1)
  then panic "iunlock"
  else release_ilock ip.

(** ** Inode content *)

Definition bmap (ip : nat) (bn : Z) : K (fsys T) Z :=
  i ← inode_at ip;
  if bn <? NDIRECT then
    if addr (i_din i) bn =? 0 then
      a ← balloc (i_dev i);
      _ ← upd_din ip (set_addr bn a);
      mret a
    else mret (addr (i_din i) bn)
  else
    let bn := bn - NDIRECT in
    if bn <? NINDIRECT then
      ind ← (if addr (i_din i) NDIRECT =? 0 then
               a ← balloc (i_dev i);
               _ ← upd_din ip (set_addr NDIRECT a);
               mret a
             else mret (addr (i_din i) NDIRECT));
      bp ← intx (t_bread (i_dev i) ind);
      d ← intx (t_bdata bp);
      let a := get32 (4 * Z.to_nat bn) d in
      r ← (if a =? 0 then
             a' ← balloc (i_dev i);
             _ ← intx (t_bset bp (put32 (4 * Z.to_nat bn) a' d));
             _ ← intx (t_log_write bp);
             mret a'
           else mret a);
      _ ← intx (t_brelse bp);
      mret r
    else panic "bmap: out of range".

Definition itrunc (ip : nat) : K (fsys T) unit :=
  i ← inode_at ip;
  _ ← for_each (range 0 NDIRECT) (λ k,
        i ← inode_at ip;
        when (negb (addr (i_din i) k =? 0))
          (_ ← bfree (i_dev i) (addr (i_din i) k);
           upd_din ip (set_addr k 0)));
  i ← inode_at ip;
  _ ← when (negb (addr (i_din i) NDIRECT =? 0))
        (bp ← intx (t_bread (i_dev i) (addr (i_din i) NDIRECT));
         _ ← for_each (range 0 NINDIRECT) (λ j,
               d ← intx (t_bdata bp);
               let a := get32 (4 * Z.to_nat j) d in
               when (negb (a =? 0)) (bfree (i_dev i) a));
         _ ← intx (t_brelse bp);
         _ ← bfree (i_dev i) (addr (i_din i) NDIRECT);
         upd_din ip (set_addr NDIRECT 0));
  _ ← upd_din ip (set_size 0);
  iupdate ip.

Definition iput (ip : nat) : K (fsys T) unit :=
  _ ← acquire_ilock ip;
  i ← inode_at ip;
  _ ← when (i_valid i && (di_nlink (i_din i) =? 0))
        (_ ← lock_acquire "icache";
         i ← inode_at ip;
         _ ← lock_release "icache";
         when (i_ref i =? 1)
           (_ ← itrunc ip;
            _ ← upd_din ip (set_type 0);
            _ ← iupdate ip;
            upd_inode ip (set_valid false)));
  _ ← release_ilock ip;
  _ ← lock_acquire "icache";
  _ ← upd_inode ip (λ i, set_ref (s32 (i_ref i - 1)) i);
  lock_release "icache".

Definition iunlockput (ip : nat) : K (fsys T) unit := _ ← iunlock ip; iput ip.

Definition stati (ip : nat) : K (fsys T) stat :=
  i ← inode_at ip;
  mret (Stat (di_type (i_din i)) (i_dev i) (i_inum i) (di_nlink (i_din i)) (di_size (i_din i))).

(** The copy loop of [readi]: [left] bytes from offset [off]; the bytes in the order
    of the copy.  An iteration copies at least one byte. *)
Fixpoint readi_loop (fuel : nat) (ip : nat) (off left : Z) : K (fsys T) (list Z) :=
  match fuel with
  | O => undef "readi: loop"
  | S k =>
      if left <=? 0 then mret []
      else
        i ← inode_at ip;
        b ← bmap ip (off / BSIZE);
        bp ← intx (t_bread (i_dev i) b);
        let m := Z.min left (BSIZE - off mod BSIZE) in
        d ← intx (t_bdata bp);
        _ ← intx (t_brelse bp);
        rest ← readi_loop k ip (off + m) (left - m);
        mret (slice (Z.to_nat (off mod BSIZE)) (Z.to_nat m) d ++ rest)
  end.

(** The value returned and the bytes copied to [dst]. *)
Definition readi (ip : nat) (off n : Z) : K (fsys T) (Z * list Z) :=
  i ← inode_at ip;
  let di := i_din i in
  if di_type di =? T_DEV then
    if (di_major di <? 0) || (NDEV <=? di_major di) then mret (-1, [])
    else match dev_read (di_major di) with
         | None => mret (-1, [])
         | Some f => f ip n
         end
  else if (di_size di <? off) || (u32 (off + n) <? off) then mret (-1, [])
  else
    let n := if di_size di <? u32 (off + n) then di_size di - off else n in
    bytes ← readi_loop (S (Z.to_nat n)) ip off n;
    mret (s32 n, bytes).

Fixpoint writei_loop (fuel : nat) (ip : nat) (src : list Z) (off left : Z) : K (fsys T) Z :=
  match fuel with
  | O => undef "writei: loop"
  | S k =>
      if left <=? 0 then mret off
      else
        i ← inode_at ip;
        b ← bmap ip (off / BSIZE);
        bp ← intx (t_bread (i_dev i) b);
        let m := Z.min left (BSIZE - off mod BSIZE) in
        d ← intx (t_bdata bp);
        _ ← intx (t_bset bp (splice (Z.to_nat (off mod BSIZE)) (take (Z.to_nat m) src) d));
        _ ← intx (t_log_write bp);
        _ ← intx (t_brelse bp);
        writei_loop k ip (drop (Z.to_nat m) src) (off + m) (left - m)
  end.

(** [src] are the [n] bytes at the caller's address. *)
Definition writei (ip : nat) (src : list Z) (off n : Z) : K (fsys T) Z :=
  i ← inode_at ip;
  let di := i_din i in
  if di_type di =? T_DEV then
    if (di_major di <? 0) || (NDEV <=? di_major di) then mret (-1)
    else match dev_write (di_major di) with
         | None => mret (-1)
         | Some f => f ip src n
         end
  else if (di_size di <? off) || (u32 (off + n) <? off) then mret (-1)
  else if MAXFILE * BSIZE <? u32 (off + n) then mret (-1)
  else
    off' ← writei_loop (S (Z.to_nat n)) ip src off n;
    i ← inode_at ip;
    _ ← when ((0 <? n) && (di_size (i_din i) <? off'))
          (_ ← upd_din ip (set_size off');
           iupdate ip);
    mret (s32 n).

(** ** Directories *)

Definition namecmp (s t : list Z) : Z :=
  lexdiff (cstring (take (Z.to_nat DIRSIZ) s)) (cstring (take (Z.to_nat DIRSIZ) t)).

(** The loop of [dirlookup]: the entry and its offset. *)
Definition dirlookup (dp : nat) (name : list Z) : K (fsys T) (option (nat * Z)) :=
  i ← inode_at dp;
  if negb (di_type (i_din i) =? T_DIR) then panic "dirlookup not DIR"
  else
    for_break ((λ k, k * DIRENT) <$> range 0 ((di_size (i_din i) + DIRENT - 1) / DIRENT)) (λ off,
      r ← readi dp off DIRENT;
      if negb (r.1 =? DIRENT) then panic "dirlookup read"
      else
        let de := get_dirent r.2 in
        if de_inum de =? 0 then mret None
        else if namecmp name (de_name de) =? 0 then
          ip ← iget (i_dev i) (de_inum de);
          mret (Some (ip, off))
        else mret None).

(** [strncpy(de.name, name, DIRSIZ)]. *)
Definition pad_name (name : list Z) : list Z :=
  let s := cstring (take (Z.to_nat DIRSIZ) name) in s ++ replicate (Z.to_nat DIRSIZ - length s) 0.

Definition dirlink (dp : nat) (name : list Z) (inum : Z) : K (fsys T) Z :=
  found ← dirlookup dp name;
  match found with
  | Some (ip, _) => _ ← iput ip; mret (-1)
  | None =>
      i ← inode_at dp;
      let slots := (λ k, k * DIRENT) <$> range 0 ((di_size (i_din i) + DIRENT - 1) / DIRENT) in
      r ← for_break slots (λ off,
            r ← readi dp off DIRENT;
            if negb (r.1 =? DIRENT) then panic "dirlink read"
            else if de_inum (get_dirent r.2) =? 0 then mret (Some off)
            else mret None);
      let off := default (Z.of_nat (length slots) * DIRENT) r in
      n ← writei dp (put_dirent (Dirent (u16 inum) (pad_name name))) off DIRENT;
      if negb (n =? DIRENT) then panic "dirlink" else mret 0
  end.

(** ** Paths *)

Definition SLASH : Z := 47.

Fixpoint skip_slashes (path : list Z) : list Z :=
  match path with c :: p => if c =? SLASH then skip_slashes p else path | [] => [] end.
Fixpoint take_elem (path : list Z) : list Z * list Z :=
  match path with
  | c :: p => if c =? SLASH then ([], path) else let '(e, r) := take_elem p in (c :: e, r)
  | [] => ([], [])
  end.

(** The rest of the path and the name, or nothing left to remove. *)
Definition skipelem (path : list Z) : option (list Z * list Z) :=
  let path := skip_slashes path in
  match path with
  | [] => None
  | _ =>
      let '(s, path) := take_elem path in
      Some (skip_slashes path, take (Z.to_nat DIRSIZ) s)
  end.

(** The loop of [namex]; every round takes an element off the path. *)
Fixpoint namex_loop (fuel : nat) (ip : nat) (path : list Z) (nameiparent : bool) (name : list Z)
    : K (fsys T) (option (nat * list Z)) :=
  match fuel with
  | O => undef "namex: loop"
  | S k =>
      match skipelem path with
      | None =>
          if nameiparent then _ ← iput ip; mret None
          else mret (Some (ip, name))
      | Some (path, name) =>
          _ ← ilock ip;
          i ← inode_at ip;
          if negb (di_type (i_din i) =? T_DIR) then _ ← iunlockput ip; mret None
          else if nameiparent && bool_decide (path = []) then
            _ ← iunlock ip; mret (Some (ip, name))
          else
            next ← dirlookup ip name;
            match next with
            | None => _ ← iunlockput ip; mret None
            | Some (next, _) => _ ← iunlockput ip; namex_loop k next path nameiparent name
            end
      end
  end.

Definition namex (path : list Z) (nameiparent : bool) : K (fsys T) (option (nat * list Z)) :=
  ip ← (match path with
        | c :: _ => if c =? SLASH then iget ROOTDEV ROOTINO else idup cwd
        | [] => idup cwd
        end);
  namex_loop (S (length path)) ip path nameiparent [].

Definition namei (path : list Z) : K (fsys T) (option nat) :=
  r ← namex path false; mret (fst <$> r).
(** The inode of the parent directory and the last element. *)
Definition nameiparent (path : list Z) : K (fsys T) (option (nat * list Z)) := namex path true.

End Ops.
