(* ===== verification/FsBlocks.v ===== *)
(** * The block allocator of the file system (xv6/fs.c: bzero, balloc, bfree).

    [used v sb b] is the bit of block [b] in the free bit map.  [balloc] takes the
    first free block, marks it and clears it; [bfree] clears its mark; neither touches another bit.
    The rules for the operations of the transaction layer on the state of fs.c are here too. *)
From S2P Require Import Prelude Spinlock Sleeplock Layout Bio Log Txn Fs.
Local Open Scope Z_scope.

(** ** Bits *)

(** Bit [bi] of a bitmap block, as a boolean. *)
Definition bit (d : block) (bi : Z) : bool := Z.testbit (byte_of d bi) (bi mod 8).

Lemma mask_testbit bi k : 0 ≤ k → Z.testbit (bit_mask bi) k = (bi mod 8 =? k).
Proof.
  intros Hk. pose proof (Z.mod_pos_bound bi 8 ltac:(lia)). rw /bit_mask Z.shiftl_1_l Z.pow2_bits_eqb //. lia.
Qed.

Lemma bit_clear_bit d bi : bit_clear d bi = negb (bit d bi).
Proof.
  rw /bit_clear /bit. pose proof (Z.mod_pos_bound bi 8 ltac:(lia)) as Hm.
  destruct (Z.testbit (byte_of d bi) (bi mod 8)) eqn:E; simpl.
  - apply Z.eqb_neq. intros Hz. apply (f_equal (λ x, Z.testbit x (bi mod 8))) in Hz.
    rw Z.land_spec E mask_testbit ?Z.eqb_refl ?Z.testbit_0_l // in Hz. lia.
  - apply Z.eqb_eq, Z.bits_inj'. intros k Hk. rw Z.land_spec Z.testbit_0_l mask_testbit //.
    destruct (Z.eqb_spec (bi mod 8) k) as [<-|]; [by rw E|by rw andb_false_r].
Qed.

Lemma u8_testbit x k : 0 ≤ k < 8 → Z.testbit (u8 x) k = Z.testbit x k.
Proof. intros Hk. rw /u8 Z.mod_pow2_bits_low //. lia. Qed.

(** Two bits of a block are in the same byte or in different ones. *)
Lemma byte_insert d bi bj x :
  0 ≤ bi → 0 ≤ bj → bi / 8 < Z.of_nat (length d) →
  byte_of (<[Z.to_nat (bi / 8) := x]> d) bj = if decide (bj / 8 = bi / 8) then x else byte_of d bj.
Proof.
  intros Hi Hj Hlen. assert (0 ≤ bi / 8 ∧ 0 ≤ bj / 8) as [? ?] by (split; apply Z.div_pos; lia).
  rw /byte_of. case_decide as E.
  - rw E list_lookup_insert_eq //. lia.
  - rw list_lookup_insert_ne //. lia.
Qed.

Lemma same_bit bi bj : bj / 8 = bi / 8 → (bi mod 8 =? bj mod 8) = (bi =? bj).
Proof.
  intros E. pose proof (Z.div_mod bi 8 ltac:(lia)). pose proof (Z.div_mod bj 8 ltac:(lia)).
  destruct (Z.eqb_spec (bi mod 8) (bj mod 8)), (Z.eqb_spec bi bj); try done; congruence || lia.
Qed.

Lemma bit_set d bi bj :
  0 ≤ bi → 0 ≤ bj → bi / 8 < Z.of_nat (length d) →
  bit (set_bit d bi) bj = (bi =? bj) || bit d bj.
Proof.
  intros Hi Hj Hlen. rw /bit /set_bit byte_insert //. pose proof (Z.mod_pos_bound bj 8 ltac:(lia)) as Hm.
  case_decide as E.
  - rw u8_testbit // Z.lor_spec mask_testbit; [lia|]. rw same_bit // /byte_of E orb_comm //.
  - destruct (Z.eqb_spec bi bj); [congruence|done].
Qed.

Lemma bit_cleared d bi bj :
  0 ≤ bi → 0 ≤ bj → bi / 8 < Z.of_nat (length d) →
  bit (clear_bit d bi) bj = negb (bi =? bj) && bit d bj.
Proof.
  intros Hi Hj Hlen. rw /bit /clear_bit byte_insert //. pose proof (Z.mod_pos_bound bj 8 ltac:(lia)) as Hm.
  case_decide as E.
  - rw u8_testbit // Z.land_spec Z.lnot_spec; [lia|]. rw mask_testbit; [lia|]. rw same_bit // /byte_of E andb_comm //.
  - destruct (Z.eqb_spec bi bj); [congruence|done].
Qed.

Lemma find_free_spec d b size :
  match find_free d b size with
  | Some bi => 0 ≤ bi < BPB ∧ b + bi < size ∧ bit d bi = false ∧ ∀ k, 0 ≤ k < bi → bit d k = true
  | None => ∀ k, 0 ≤ k < BPB → b + k < size → bit d k = true
  end.
Proof.
  rw /find_free. destruct (list_find _ _) as [[j bi]|] eqn:E; simpl.
  - apply list_find_Some in E as (Hj&Hc&Hlt). rw bit_clear_bit in Hc.
    rw /range lookup_seqZ in Hj.
    split_and!; [lia..|by destruct (bit d bi)|]. intros k Hk.
    assert (¬ bit_clear d k = true) as Hn.
    { apply (Hlt (Z.to_nat k)); [|lia]. rw /range lookup_seqZ. lia. }
    rw bit_clear_bit in Hn. by destruct (bit d k).
  - apply list_find_None in E. intros k Hk Hs. rewrite Forall_forall in E.
    assert (¬ bit_clear d k = true) as Hn by (apply E, elem_of_range; lia).
    rw bit_clear_bit in Hn. by destruct (bit d k).
Qed.

(** ** The layout of the disk *)

(** The first block that can hold data. *)
Definition dstart (sb : superblock) : Z := sb_bmapstart sb + sb_size sb / BPB + 1.

Record geom (c : tconf) (sb : superblock) : Prop := {
  g_size : sb_size sb ≤ tc_size c;
  g_small : sb_size sb < 2 ^ 31;
  g_ninodes : 0 < sb_ninodes sb < 2 ^ 16;
  g_istart : 1 < sb_inodestart sb;
  g_bmap : sb_inodestart sb + sb_ninodes sb / IPB + 1 ≤ sb_bmapstart sb;
  g_data : dstart sb ≤ sb_size sb;
  g_home : ∀ n, sb_inodestart sb ≤ n < sb_size sb → tc_home c n;
  g_cap : (28 ≤ tc_cap c)%nat
}.

Definition used (v : Z → block) (sb : superblock) (b : Z) : bool := bit (v (BBLOCK b sb)) (b mod BPB).
Definition is_data (sb : superblock) (b : Z) : Prop := dstart sb ≤ b < sb_size sb.

(** Everything before the data blocks is marked in use. *)
Definition meta_used (v : Z → block) (sb : superblock) : Prop := ∀ b, 0 ≤ b < dstart sb → used v sb b = true.

(** The bitmap blocks. *)
Definition bm (sb : superblock) : gset Z :=
  list_to_set ((λ k, k + sb_bmapstart sb) <$> range 0 (sb_size sb / BPB + 1)).

Lemma elem_bm sb n : n ∈ bm sb ↔ sb_bmapstart sb ≤ n < dstart sb.
Proof.
  rw /bm elem_of_list_to_set list_elem_of_fmap /dstart. split.
  - intros (k&->&Hk%elem_of_range). lia.
  - intros Hn. exists (n - sb_bmapstart sb). rw elem_of_range. lia.
Qed.

Lemma bblock_bm sb b : 0 ≤ b < sb_size sb → BBLOCK b sb ∈ bm sb.
Proof.
  intros Hb. rw elem_bm /BBLOCK /dstart. change BPB with 4096.
  assert (0 ≤ b / 4096 ≤ sb_size sb / 4096) by (split; [apply Z.div_pos; lia|apply Z.div_le_mono; lia]). lia.
Qed.

(** Blocks of the bitmap, of inodes and of data are different. *)
Lemma bblock_range c sb b :
  geom c sb → 0 ≤ b < sb_size sb →
  sb_inodestart sb < BBLOCK b sb < dstart sb ∧ 0 ≤ BBLOCK b sb < tc_size c ∧ tc_home c (BBLOCK b sb).
Proof.
  intros [] Hb. pose proof (bblock_bm sb b Hb) as Hn. rw elem_bm in Hn.
  assert (0 ≤ sb_ninodes sb / IPB) by (apply Z.div_pos; [lia|done]).
  split_and!; try lia. apply g_home0. lia.
Qed.

(** ** The operations of the transaction layer *)

Lemma size_pos c sb : geom c sb → 0 < sb_size sb.
Proof.
  intros []. rw /dstart in g_data0. assert (0 ≤ sb_ninodes sb / IPB) by (apply Z.div_pos; [lia|done]).
  change BPB with 4096 in *. Z.div_mod_to_equations. lia.
Qed.

Lemma dstart_pos c sb : geom c sb → sb_inodestart sb < dstart sb ∧ 1 < dstart sb.
Proof.
  intros Hg. pose proof (size_pos c sb Hg). destruct Hg. rw /dstart.
  assert (0 ≤ sb_ninodes sb / IPB) by (apply Z.div_pos; [lia|done]).
  assert (0 ≤ sb_size sb / BPB) by (apply Z.div_pos; [lia|done]). lia.
Qed.

Section Rules.
Context {T : Type} `{!Txn T}.
Implicit Types s : fsys T.

Definition with_ft s (t : T) : fsys T := Fsys t (fsb s) (finodes s) (fheld s).

(** The state [s] with another transaction layer, which represents the blocks [v], the held
    buffers [h] and the logged blocks [L]. *)
Definition fnow s (c : tconf) (v : Z → block) (h : gmap nat (Z * bool)) (L : gset Z) s' : Prop :=
  ∃ t, s' = with_ft s t ∧ t_abs t c v h L.

Lemma fnow_refl s c v h L : t_abs (ft s) c v h L → fnow s c v h L s.
Proof. exists (ft s). by destruct s. Qed.
Lemma fnow_abs s c v h L s' :
  fnow s c v h L s' → t_abs (ft s') c v h L ∧ fsb s' = fsb s ∧ finodes s' = finodes s ∧ fheld s' = fheld s.
Proof. by intros (t&->&H). Qed.
Lemma fnow_trans s c v h L s1 c' v' h' L' s2 : fnow s c v h L s1 → fnow s1 c' v' h' L' s2 → fnow s c' v' h' L' s2.
Proof. intros (t&->&_) (t'&->&H). by exists t'. Qed.
Lemma fnow_ext s c v v' h L s' : fnow s c v h L s' → (∀ n, v n = v' n) → fnow s c v' h L s'.
Proof. intros (t&->&H) Hv. exists t. split; [done|]. by apply (t_ext t c v). Qed.
Lemma fnow_len s c v h L s' n : fnow s c v h L s' → length (v n) = Z.to_nat BSIZE.
Proof. intros (t&->&H). exact (t_len t c v h L n H). Qed.

Lemma wp_intx {A} (m : K T A) s (Q : A → fsys T → Prop) :
  wp m (ft s) (λ a t, Q a (with_ft s t)) → wp (intx m) s Q.
Proof. intros H. by apply (wp_zoom ft). Qed.

Lemma f_bread s c v h L s1 n (Q : nat → fsys T → Prop) :
  fnow s c v h L s1 → 0 ≤ n < tc_size c → n ∉ hblocks h → (size (hblocks h ∪ L) < NBUF)%nat →
  (∀ i s2, h !! i = None → fnow s c v (<[i := (n, false)]> h) L s2 → Q i s2) →
  wp (intx (t_bread 1 n)) s1 Q.
Proof.
  intros (t&->&Ha) Hn Hh Hr HQ. apply wp_intx.
  eapply wp_mono; [apply (t_bread_law t c v h L n Ha Hn Hh); by right|].
  intros i t' [Hi Ha']. apply HQ; [done|]. by exists t'.
Qed.

Lemma f_bdata s c v h L s1 i n b (Q : block → fsys T → Prop) :
  fnow s c v h L s1 → h !! i = Some (n, b) → Q (v n) s1 → wp (intx (t_bdata i)) s1 Q.
Proof.
  intros (t&->&Ha) Hi HQ. apply wp_intx. eapply wp_mono; [exact (t_bdata_law t c v h L i n b Ha Hi)|].
  by intros ? ? [-> ->].
Qed.

Lemma f_brelse s c v h L s1 i n (Q : unit → fsys T → Prop) :
  fnow s c v h L s1 → h !! i = Some (n, false) →
  (∀ s2, fnow s c v (delete i h) L s2 → Q tt s2) → wp (intx (t_brelse i)) s1 Q.
Proof.
  intros (t&->&Ha) Hi HQ. apply wp_intx. eapply wp_mono; [exact (t_brelse_law t c v h L i n Ha Hi)|].
  intros [] t' Ha'. apply HQ. by exists t'.
Qed.

(** The three calls that end every change of a block: [d] replaces the contents of the
    held block [n], which is logged and released. *)
Lemma f_finish {A} s c v h L s1 i n d (k : K (fsys T) A) (Q : A → fsys T → Prop) :
  fnow s c v (<[i := (n, false)]> h) L s1 → h !! i = None → length d = Z.to_nat BSIZE →
  tc_home c n → (size L < tc_cap c)%nat →
  (∀ s2, fnow s c (upd v n d) h ({[n]} ∪ L) s2 → wp k s2 Q) →
  wp (_ ← intx (t_bset i d); _ ← intx (t_log_write i); _ ← intx (t_brelse i); k) s1 Q.
Proof.
  intros (t&->&Ha) Hi Hd Hh Hc HQ.
  apply wp_bind, wp_intx. eapply wp_mono; [apply (t_bset_law t c v _ L i n false d Ha); [apply lookup_insert_eq|done]|].
  intros [] t1 H1. rw insert_insert_eq in H1.
  apply wp_bind, wp_intx. eapply wp_mono; [apply (t_log_write_law t1 c _ _ L i n true H1); [apply lookup_insert_eq|done|done]|].
  intros [] t2 H2. rw insert_insert_eq in H2.
  apply wp_bind, wp_intx. eapply wp_mono; [apply (t_brelse_law t2 c _ _ _ i n H2); apply lookup_insert_eq|].
  intros [] t3 H3. rw delete_insert_id // in H3. apply HQ. by exists t3.
Qed.

Lemma f_finish_last s c v h L s1 i n d (Q : unit → fsys T → Prop) :
  fnow s c v (<[i := (n, false)]> h) L s1 → h !! i = None → length d = Z.to_nat BSIZE →
  tc_home c n → (size L < tc_cap c)%nat →
  (∀ s2, fnow s c (upd v n d) h ({[n]} ∪ L) s2 → Q tt s2) →
  wp (_ ← intx (t_bset i d); _ ← intx (t_log_write i); intx (t_brelse i)) s1 Q.
Proof.
  intros H1 Hi Hd Hh Hc HQ. pose proof (f_finish s c v h L s1 i n d (mret tt) Q H1 Hi Hd Hh Hc) as H.
  rw /wp /mbind /K_bind in H |- *. destruct (intx (t_bset i d) s1) as [[] s2| | |]; [|by apply H..].
  destruct (intx (t_log_write i) s2) as [[] s3| | |]; [|by apply H..].
  destruct (intx (t_brelse i) s3) as [[] s4| | |]; by apply H.
Qed.

(** The same when the caller keeps the buffer. *)
Lemma f_log {A} s c v h L s1 i n d (k : K (fsys T) A) (Q : A → fsys T → Prop) :
  fnow s c v (<[i := (n, false)]> h) L s1 → length d = Z.to_nat BSIZE →
  tc_home c n → (size L < tc_cap c)%nat →
  (∀ s2, fnow s c (upd v n d) (<[i := (n, false)]> h) ({[n]} ∪ L) s2 → wp k s2 Q) →
  wp (_ ← intx (t_bset i d); _ ← intx (t_log_write i); k) s1 Q.
Proof.
  intros (t&->&Ha) Hd Hh Hc HQ.
  apply wp_bind, wp_intx. eapply wp_mono; [apply (t_bset_law t c v _ L i n false d Ha); [apply lookup_insert_eq|done]|].
  intros [] t1 H1. rw insert_insert_eq in H1.
  apply wp_bind, wp_intx. eapply wp_mono; [apply (t_log_write_law t1 c _ _ L i n true H1); [apply lookup_insert_eq|done|done]|].
  intros [] t2 H2. rw insert_insert_eq in H2. apply HQ. by exists t2.
Qed.

Lemma wp_inode_at s ip i (Q : inode → fsys T → Prop) :
  finodes s !! ip = Some i → Q i s → wp (inode_at ip) s Q.
Proof. rw /wp /inode_at. by intros ->. Qed.

(** At most one buffer held and at most 28 blocks logged: a buffer is free. *)
Definition calm (h : gmap nat (Z * bool)) (L : gset Z) : Prop := (size (hblocks h) ≤ 1 ∧ size L ≤ 28)%nat.

Lemma calm_room h L : calm h L → (size (hblocks h ∪ L) < NBUF)%nat.
Proof.
  intros [H1 H2]. rw /NBUF. rw size_union_alt.
  assert (size (L ∖ hblocks h) ≤ size L)%nat by (apply subseteq_size; set_solver). lia.
Qed.

Lemma calm_empty L : (size L ≤ 28)%nat → calm ∅ L.
Proof. intros. split; [|done]. rw hblocks_empty size_empty. lia. Qed.

Lemma hblocks_one i n b : hblocks (<[i := (n, b)]> ∅) = {[n]}.
Proof. rw hblocks_insert // hblocks_empty. set_solver. Qed.

(** ** Allocation *)

Lemma bzero_wp s c v h L s1 n (Q : unit → fsys T → Prop) :
  fnow s c v h L s1 → 0 ≤ n < tc_size c → n ∉ hblocks h → tc_home c n →
  calm h L → (size L < tc_cap c)%nat →
  (∀ s2, fnow s c (upd v n zero_block) h ({[n]} ∪ L) s2 → Q tt s2) → wp (bzero 1 n) s1 Q.
Proof.
  intros H1 Hn Hh Hhome Hcalm Hcap HQ. rw /bzero.
  apply wp_bind, (f_bread s c v h L); [done..|by apply calm_room|]. intros i s2 Hi H2.
  by apply (f_finish_last s c v h L s2 i n).
Qed.

(** The blocks after block [r] is allocated. *)
Definition alloc_view (v : Z → block) (sb : superblock) (r : Z) : Z → block :=
  upd (upd v (BBLOCK r sb) (set_bit (v (BBLOCK r sb)) (r mod BPB))) r zero_block.

(** The blocks of one bitmap block. *)
Lemma bblock_split v sb k bi :
  0 ≤ bi < BPB →
  let r := k * BPB + bi in
  BBLOCK r sb = BBLOCK (k * BPB) sb ∧ r mod BPB = bi ∧ used v sb r = bit (v (BBLOCK (k * BPB) sb)) bi.
Proof.
  intros Hbi r. assert (r / BPB = k ∧ r mod BPB = bi ∧ k * BPB / BPB = k) as (E1&E2&E3).
  { rw /r. change BPB with 4096 in *. Z.div_mod_to_equations. lia. }
  rw /used /BBLOCK E1 E2 E3. done.
Qed.

(** One round of [balloc]: the search in one bitmap block. *)
Lemma balloc_round s c v h L s1 k bi (Q : option Z → fsys T → Prop) :
  let sb := fsb s in
  let r := k * BPB + bi in
  let n := BBLOCK (k * BPB) sb in
  geom c sb → is_data sb r → used v sb r = false → 0 ≤ bi < BPB → 0 ≤ k →
  (∀ m, m ∈ hblocks h → is_data sb m ∧ used v sb m = true) → (size (hblocks h) ≤ 1)%nat →
  (size (L ∪ bm sb) + 1 ≤ 28)%nat →
  (∀ s2, fnow s c (alloc_view v sb r) h ({[r]} ∪ ({[BBLOCK r sb]} ∪ L)) s2 → Q (Some r) s2) →
  ∀ i, h !! i = None → fnow s c v (<[i := (n, false)]> h) L s1 →
  wp (_ ← intx (t_bset i (set_bit (v n) bi)); _ ← intx (t_log_write i); _ ← intx (t_brelse i);
      _ ← bzero 1 r; mret (Some r)) s1 Q.
Proof.
  intros sb r n Hg Hr Hu Hbi Hk Hheld Hh1 Hroom HQ i Hi H1. pose proof Hg as [].
  destruct (bblock_split v sb k bi Hbi) as (Eb&Em&_). fold r n in Eb, Em.
  assert (size L ≤ size (L ∪ bm sb))%nat as HL by (apply subseteq_size; set_solver).
  assert (0 ≤ r) as Hr0 by (rw /r; change BPB with 4096; lia).
  assert (0 ≤ r < sb_size sb) as Hrs by (destruct Hr; lia).
  destruct (bblock_range c sb r Hg Hrs) as (Hb1&Hb2&Hb3). rw Eb in Hb1, Hb2, Hb3.
  assert (size ({[n]} ∪ L) ≤ size (L ∪ bm sb))%nat as HnL.
  { apply subseteq_size. pose proof (bblock_bm sb r Hrs) as Hin. rw Eb in Hin. set_solver. }
  apply (f_finish s c v h L s1 i n); try done; [|lia|].
  { rw /set_bit length_insert. exact (fnow_len s c v _ L s1 _ H1). }
  intros s2 H2. apply wp_bind. rw /is_data in Hr.
  apply (bzero_wp s c _ h _ s2 r _ H2); [lia| |apply g_home0; lia|split; [done|lia]|lia|].
  - intros Hin. destruct (Hheld _ Hin) as [_ Hx]. congruence.
  - intros s3 H3. apply wp_ret, HQ. by rw /alloc_view Em Eb.
Qed.

Lemma balloc_wp s c v h L s1 (Q : Z → fsys T → Prop) :
  let sb := fsb s in
  geom c sb → fnow s c v h L s1 → meta_used v sb →
  (∃ b, 0 ≤ b < sb_size sb ∧ used v sb b = false) →
  (∀ n, n ∈ hblocks h → is_data sb n ∧ used v sb n = true) → (size (hblocks h) ≤ 1)%nat →
  (size (L ∪ bm sb) + 1 ≤ 28)%nat →
  (∀ r s2, is_data sb r → used v sb r = false → (∀ b, 0 ≤ b < r → used v sb b = true) →
     fnow s c (alloc_view v sb r) h ({[r]} ∪ ({[BBLOCK r sb]} ∪ L)) s2 → Q r s2) →
  wp (balloc 1) s1 Q.
Proof.
  intros sb Hg H1 Hmeta (b0&Hb0&Hfree) Hheld Hh1 Hroom HQ.
  assert (size L ≤ size (L ∪ bm sb))%nat as HL by (apply subseteq_size; set_solver).
  rw /balloc. apply wp_bind, wp_gets. assert (fsb s1 = sb) as -> by (by destruct H1 as (?&->&_)).
  assert (0 ≤ (sb_size sb + BPB - 1) / BPB ∧ sb_size sb ≤ (sb_size sb + BPB - 1) / BPB * BPB < sb_size sb + BPB) as [Hm1 Hm2]
    by (change BPB with 4096; Z.div_mod_to_equations; lia).
  assert (∀ k b, k * BPB ≤ b < (k + 1) * BPB → used v sb b = bit (v (BBLOCK (k * BPB) sb)) (b - k * BPB)) as Hbit.
  { intros k b Hb. destruct (bblock_split v sb k (b - k * BPB)) as (_&_&E); [lia|]. by rw Zplus_minus in E. }
  apply wp_bind, (wp_for_steps _ _ _ (λ k s', fnow s c v h L s' ∧ ∀ b, 0 ≤ b < k * BPB → b < sb_size sb → used v sb b = true)).
  - done.
  - split; [done|]. lia.
  - intros k s2 Hk [H2 Hbelow].
    assert (0 ≤ k * BPB < sb_size sb) as Hkr by (change BPB with 4096 in *; lia).
    destruct (bblock_range c sb _ Hg Hkr) as (Hbm&Hbr&Hbh).
    apply wp_bind, (f_bread s c v h L); [done|done| |by apply calm_room; split; [|lia]|].
    { intros Hin. destruct (Hheld _ Hin) as [[? _] _]. lia. }
    intros i s3 Hi H3. apply wp_bind, (f_bdata s c v _ L _ i (BBLOCK (k * BPB) sb) false _ H3); [apply lookup_insert_eq|].
    pose proof (find_free_spec (v (BBLOCK (k * BPB) sb)) (k * BPB) (sb_size sb)) as Hff.
    destruct (find_free _ _ _) as [bi|].
    + destruct Hff as (Hbi&Hbs&Hb&Hlow).
      assert (used v sb (k * BPB + bi) = false) as Hur by (rw (Hbit k); [lia|]; by replace (k * BPB + bi - k * BPB) with bi by lia).
      assert (is_data sb (k * BPB + bi)) as Hr.
      { split; [|done]. destruct (decide (k * BPB + bi < dstart sb)) as [Hlt|]; [|lia]. rw Hmeta in Hur; [lia|done]. }
      apply (balloc_round s c v h L s3 k bi); try done; [lia|].
      intros s4 H4. apply wp_ret, HQ; try done. intros b Hb'.
      destruct (decide (b < k * BPB)) as [|Hge]; [apply Hbelow; lia|]. rw (Hbit k); [lia|]. apply Hlow. lia.
    + apply wp_bind, (f_brelse s c v _ L _ i (BBLOCK (k * BPB) sb) _ H3); [apply lookup_insert_eq|].
      intros s4 H4. rw delete_insert_id // in H4. apply wp_ret. split; [done|]. intros b Hb Hbs.
      destruct (decide (b < k * BPB)) as [|Hge]; [apply Hbelow; lia|]. rw (Hbit k); [lia|]. apply Hff; lia.
  - intros s2 [_ Hall]. rw Hall in Hfree; [lia..|done].
Qed.

(** The blocks after block [b] is freed. *)
Definition free_view (v : Z → block) (sb : superblock) (b : Z) : Z → block :=
  upd v (BBLOCK b sb) (clear_bit (v (BBLOCK b sb)) (b mod BPB)).

Lemma bfree_wp s c v h L s1 b (Q : unit → fsys T → Prop) :
  let sb := fsb s in
  geom c sb → fnow s c v h L s1 → 0 ≤ b < sb_size sb → used v sb b = true →
  (∀ n, n ∈ hblocks h → is_data sb n) → calm h L → (size L < 28)%nat →
  (∀ s2, fnow s c (free_view v sb b) h ({[BBLOCK b sb]} ∪ L) s2 → Q tt s2) → wp (bfree 1 b) s1 Q.
Proof.
  intros sb Hg H1 Hb Hu Hheld Hcalm HL HQ. rw /bfree. apply wp_bind, wp_gets.
  assert (fsb s1 = sb) as -> by (by destruct H1 as (?&->&_)).
  destruct (bblock_range c sb b Hg Hb) as (Hb1&Hb2&Hb3). pose proof (g_cap _ _ Hg).
  apply wp_bind, (f_bread s c v h L); [done|done| |by apply calm_room|].
  { intros Hin. destruct (Hheld _ Hin). lia. }
  intros i s2 Hi H2. apply wp_bind, (f_bdata s c v _ L _ i (BBLOCK b sb) false _ H2); [apply lookup_insert_eq|].
  rw bit_clear_bit. rw /used in Hu. rw Hu /=.
  apply (f_finish_last s c v h L s2 i (BBLOCK b sb)); try done; [|lia].
  rw /clear_bit length_insert. exact (fnow_len s c v h L s1 _ H1).
Qed.

Lemma bfree_panics s c v h L s1 b :
  let sb := fsb s in
  geom c sb → fnow s c v h L s1 → 0 ≤ b < sb_size sb → used v sb b = false →
  (∀ n, n ∈ hblocks h → is_data sb n) → calm h L → bfree 1 b s1 = Panic "freeing free block".
Proof.
  intros sb Hg H1 Hb Hu Hheld Hcalm. rw /bfree (bind_Ret _ _ _ _ _ (eq_refl : gets fsb s1 = Ret (fsb s1) s1)).
  assert (fsb s1 = sb) as -> by (by destruct H1 as (?&->&_)).
  destruct (bblock_range c sb b Hg Hb) as (Hb1&Hb2&Hb3).
  assert (wp (bp ← intx (t_bread 1 (BBLOCK b sb)); intx (t_bdata bp)) s1 (λ d _, d = v (BBLOCK b sb))) as Hwp.
  { apply wp_bind, (f_bread s c v h L); [done|done| |by apply calm_room|].
    { intros Hin. destruct (Hheld _ Hin). lia. }
    intros i s2 Hi H2. by apply (f_bdata s c v _ L _ i (BBLOCK b sb) false _ H2); [apply lookup_insert_eq|]. }
  rw /wp /mbind /K_bind in Hwp |- *. destruct (intx (t_bread 1 _) s1) as [bp s2| | |]; [|done..].
  destruct (intx (t_bdata bp) s2) as [d s3| | |]; [|done..]. subst d.
  rw bit_clear_bit. rw /used in Hu. by rw Hu.
Qed.

Lemma balloc_panics s c v h L s1 :
  let sb := fsb s in
  geom c sb → fnow s c v h L s1 → (∀ b, 0 ≤ b < sb_size sb → used v sb b = true) →
  (∀ n, n ∈ hblocks h → is_data sb n) → calm h L → balloc 1 s1 = Panic "balloc: out of blocks".
Proof.
  intros sb Hg H1 Hall Hheld Hcalm. rw /balloc (bind_Ret _ _ _ _ _ (eq_refl : gets fsb s1 = Ret (fsb s1) s1)).
  assert (fsb s1 = sb) as -> by (by destruct H1 as (?&->&_)).
  match goal with |- (mbind _ ?m) s1 = _ => assert (wp m s1 (λ r _, r = None)) as Hwp end.
  { assert (0 ≤ (sb_size sb + BPB - 1) / BPB ∧ (sb_size sb + BPB - 1) / BPB * BPB < sb_size sb + BPB) as [Hm1 Hm2]
      by (pose proof (size_pos c sb Hg); change BPB with 4096; Z.div_mod_to_equations; lia).
    apply (wp_for_steps _ _ _ (λ k s', fnow s c v h L s')); [done|done| |done].
    intros k s2 Hk H2. assert (0 ≤ k * BPB < sb_size sb) as Hkr by (change BPB with 4096 in *; lia).
    destruct (bblock_range c sb _ Hg Hkr) as (Hbm&Hbr&Hbh).
    apply wp_bind, (f_bread s c v h L); [done|done| |by apply calm_room|].
    { intros Hin. destruct (Hheld _ Hin). lia. }
    intros i s3 Hi H3. apply wp_bind, (f_bdata s c v _ L _ i (BBLOCK (k * BPB) sb) false _ H3); [apply lookup_insert_eq|].
    pose proof (find_free_spec (v (BBLOCK (k * BPB) sb)) (k * BPB) (sb_size sb)) as Hff.
    destruct (find_free _ _ _) as [bi|].
    - destruct Hff as (Hbi&Hbs&Hb&_). destruct (bblock_split v sb k bi Hbi) as (_&_&E).
      rw Hall in E; [lia|congruence].
    - apply wp_bind, (f_brelse s c v _ L _ i (BBLOCK (k * BPB) sb) _ H3); [apply lookup_insert_eq|].
      intros s4 H4. rw delete_insert_id // in H4. }
  apply wp_elim in Hwp as (r&s2&E&->). by rw (bind_Ret _ _ _ _ _ E).
Qed.

End Rules.

(** ** What the operations do to the bitmap *)

Section Views.
Context (c : tconf) (sb : superblock) (v : Z → block).
Hypothesis Hg : geom c sb.
Hypothesis Hlen : ∀ n, length (v n) = Z.to_nat BSIZE.

Lemma mod_byte b : (b mod BPB) / 8 < Z.of_nat (length (v (BBLOCK b sb))).
Proof.
  rw Hlen. change (Z.of_nat (Z.to_nat BSIZE)) with 512. change BPB with 4096.
  Z.div_mod_to_equations. lia.
Qed.

(** Blocks with the same bit are the same. *)
Lemma same_block b r :
  0 ≤ b → 0 ≤ r → BBLOCK b sb = BBLOCK r sb → (r mod BPB =? b mod BPB) = (b =? r).
Proof.
  intros Hb Hr E. rw /BBLOCK in E. assert (b / BPB = r / BPB) as Ed by lia.
  pose proof (Z.div_mod b BPB ltac:(done)). pose proof (Z.div_mod r BPB ltac:(done)).
  destruct (Z.eqb_spec (r mod BPB) (b mod BPB)), (Z.eqb_spec b r); try done; [|congruence].
  rw Ed in H. lia.
Qed.

Lemma used_alloc r b :
  is_data sb r → 0 ≤ b < sb_size sb → used (alloc_view v sb r) sb b = (b =? r) || used v sb b.
Proof.
  intros Hr Hb. rw /is_data in Hr. rw /used /alloc_view.
  destruct (bblock_range c sb b Hg Hb) as (Hb1&_&_). rw upd_ne; [lia|].
  destruct (decide (BBLOCK b sb = BBLOCK r sb)) as [E|Hne].
  - assert (0 ≤ r) by (destruct Hg; lia).
    rw E upd_eq bit_set; [apply Z.mod_pos_bound; done|apply Z.mod_pos_bound; done|apply mod_byte|].
    rw -(same_block b r) //; lia.
  - rw upd_ne //. destruct (Z.eqb_spec b r); [congruence|done].
Qed.

Lemma used_free r b :
  0 ≤ r < sb_size sb → 0 ≤ b < sb_size sb → used (free_view v sb r) sb b = negb (b =? r) && used v sb b.
Proof.
  intros Hr Hb. rw /used /free_view.
  destruct (decide (BBLOCK b sb = BBLOCK r sb)) as [E|Hne].
  - rw E upd_eq bit_cleared; [apply Z.mod_pos_bound; done|apply Z.mod_pos_bound; done|apply mod_byte|].
    rw -(same_block b r) //; lia.
  - rw upd_ne //. destruct (Z.eqb_spec b r); [congruence|done].
Qed.

Lemma alloc_other r n : n ≠ r → n ∉ bm sb → 0 ≤ r < sb_size sb → alloc_view v sb r n = v n.
Proof.
  intros Hn Hbm Hr. rw /alloc_view upd_ne // upd_ne //. intros ->. apply Hbm. by apply bblock_bm.
Qed.
Lemma alloc_zero r : alloc_view v sb r r = zero_block.
Proof. apply upd_eq. Qed.
Lemma free_other r n : n ∉ bm sb → 0 ≤ r < sb_size sb → free_view v sb r n = v n.
Proof. intros Hbm Hr. rw /free_view upd_ne //. intros ->. apply Hbm. by apply bblock_bm. Qed.

End Views.

(** ** A small file system image *)

(** The image mkfs makes for no files: super block, one inode (the root directory), the
    bitmap with 60 blocks in use and the block of the root directory. *)
Definition img_sb : superblock := Superblock 1000 941 200 30 2 32 58.
Definition img_root : dinode := Dinode T_DIR 0 0 1 512 (59 :: replicate 12 0).
Definition img_dir : block :=
  put_dirent (Dirent 1 (46 :: replicate 13 0)) ++ put_dirent (Dirent 1 (46 :: 46 :: replicate 12 0)) ++ replicate 480 0.
Definition image : disk :=
  Disk 1000 (<[1 := put_superblock img_sb zero_block]>
            (<[32 := splice 64 (put_dinode img_root) zero_block]>
            (<[58 := replicate 7 255 ++ 15 :: replicate 504 0]>
            {[ 59 := img_dir ]}))) [].
Definition img_v : Z → block := rd (d_blocks image).
Definition img_conf : tconf := Tconf 1000 29 (λ n, ¬ (2 ≤ n < 32)).
Definition img_log : log := Log 2 30 1 false 1 0 (replicate 30 0).
Definition img_cache : bcache := Bcache init_bufs image [].
Definition img_txn : lsys bcache := Lsys img_log img_cache [] ∅.

Lemma img_len n : length (img_v n) = Z.to_nat BSIZE.
Proof.
  rw /img_v /image. cbn [d_blocks]. rewrite !rd_insert.
  repeat (match goal with |- context [decide ?P] => destruct (decide P); [vm_compute; reflexivity|] end).
  reflexivity.
Qed.

Lemma img_cache_abs : bio_abs 1 img_cache (clean image).
Proof. apply init_abs. exact img_len. Qed.

Lemma img_log_wf : log_wf img_log 1000.
Proof.
  split.
  1-6: rewrite /img_log /LOGSIZE /MAXOPBLOCKS /=; lia.
  - reflexivity.
  - apply Forall_replicate. rewrite /small. lia.
  - apply NoDup_nil_2.
  - intros b Hb. by apply not_elem_of_nil in Hb.
Qed.

Lemma img_abs : t_abs (Txn := log_Txn (Cache0 := bio_Cache 1)) img_txn img_conf img_v ∅ ∅.
Proof.
  exists (clean image). split.
  - exact img_cache_abs.
  - reflexivity.
  - exact img_log_wf.
  - reflexivity.
  - change (1 ≤ 1). lia.
  - reflexivity.
  - reflexivity.
  - intros n. reflexivity.
  - reflexivity.
  - intros i n Hi. rewrite lookup_empty in Hi. congruence.
  - reflexivity.
  - intros n Hn. exact Hn.
Qed.

Lemma img_geom : geom img_conf img_sb.
Proof.
  split; rewrite /img_conf /img_sb; cbn [sb_size sb_ninodes sb_inodestart sb_bmapstart tc_size tc_home tc_cap]; try lia.
  - change (32 + 25 + 1 ≤ 58). lia.
  - change (59 ≤ 1000). lia.
Qed.

Lemma img_meta : meta_used img_v img_sb.
Proof.
  intros b Hb. change (dstart img_sb) with 59 in Hb.
  assert (Forall (λ b, used img_v img_sb b = true) (range 0 59)) as Hall
    by (apply (bool_decide_unpack _); vm_compute; exact I).
  rewrite Forall_forall in Hall. apply Hall, elem_of_range. lia.
Qed.

(** ** Theorems *)

(** The free blocks. *)
Definition free_block (v : Z → block) (sb : superblock) (b : Z) : Prop := is_data sb b ∧ used v sb b = false.

Section Claims.
Context {T : Type} `{!Txn T}.

(** Balloc takes the least free block out of the set of free blocks, zeroes it, and leaves every
    other block and every other mark as it was; with no free block it panics. *)
Theorem balloc_takes_least_free (s : fsys T) (c : tconf) (v : Z → block) (L : gset Z)
  (Hg : geom c (fsb s)) (Ha : t_abs (ft s) c v ∅ L) (Hm : meta_used v (fsb s))
  (Hroom : (size (L ∪ bm (fsb s)) + 1 ≤ 28)%nat) :
  let sb := fsb s in
  ((∃ b, free_block v sb b) →
   wp (balloc 1) s (λ r s', free_block v sb r ∧ (∀ b, free_block v sb b → r ≤ b) ∧
     ∃ v' L', t_abs (ft s') c v' ∅ L' ∧ meta_used v' sb ∧ v' r = zero_block ∧
       (∀ b, free_block v' sb b ↔ free_block v sb b ∧ b ≠ r) ∧
       (∀ n, n ∉ bm sb → n ≠ r → v' n = v n))) ∧
  ((∀ b, ¬ free_block v sb b) → balloc 1 s = Panic "balloc: out of blocks").
Proof.
  cbv zeta. assert (size L ≤ size (L ∪ bm (fsb s)))%nat as HL by (apply subseteq_size; set_solver).
  assert (∀ n, length (v n) = Z.to_nat BSIZE) as Hlen by (intros n; exact (t_len _ _ _ _ _ n Ha)).
  assert (∀ b, is_data (fsb s) b → 0 ≤ b < sb_size (fsb s)) as Hpos.
  { intros b [? ?]. pose proof (dstart_pos c (fsb s) Hg). lia. }
  split.
  - intros (b&Hb&Hu). apply (balloc_wp s c v ∅ L s); [done|by apply fnow_refl|done| | | |done|].
    + exists b. eauto.
    + rw hblocks_empty. set_solver.
    + rw hblocks_empty size_empty. lia.
    + intros r s2 Hr Hur Hlow H2. split; [done|]. split.
      { intros x [Hx Hxu]. destruct (decide (r ≤ x)) as [|Hlt]; [done|]. specialize (Hpos x Hx). rw Hlow in Hxu; [lia|done]. }
      destruct (fnow_abs _ _ _ _ _ _ H2) as [Ha2 _]. eexists _, _. split; [exact Ha2|]. split_and!.
      * intros x Hx. assert (0 ≤ x < sb_size (fsb s)) as Hxr by (rw /is_data in Hr; lia).
        rw (used_alloc c (fsb s) v Hg Hlen r x Hr Hxr) Hm //. by rw orb_true_r.
      * apply alloc_zero.
      * intros x. rw /free_block. split.
        -- intros [Hx Hxu]. rw (used_alloc c (fsb s) v Hg Hlen r x Hr (Hpos x Hx)) in Hxu.
           apply orb_false_iff in Hxu as [He Hxu]. apply Z.eqb_neq in He. done.
        -- intros [[Hx Hxu] Hne]. split; [done|]. rw (used_alloc c (fsb s) v Hg Hlen r x Hr (Hpos x Hx)) Hxu. lia.
      * intros n Hn Hne. apply alloc_other; try done. by apply Hpos.
  - intros Hnone. apply (balloc_panics s c v ∅ L); [done|by apply fnow_refl| | |].
    + intros b Hb. destruct (decide (b < dstart (fsb s))) as [|Hge]; [apply Hm; lia|].
      destruct (used v (fsb s) b) eqn:E; [done|]. destruct (Hnone b). split; [split; lia|done].
    + rw hblocks_empty. set_solver.
    + apply calm_empty. lia.
Qed.

(** Bfree puts a block in use back into the set of free blocks and changes nothing but its mark; freeing a
    free block is a panic. *)
Theorem bfree_returns_block (s : fsys T) (c : tconf) (v : Z → block) (L : gset Z) (b : Z)
  (Hg : geom c (fsb s)) (Ha : t_abs (ft s) c v ∅ L) (Hm : meta_used v (fsb s))
  (Hb : is_data (fsb s) b) (HL : (size L < 28)%nat) :
  let sb := fsb s in
  (used v sb b = true →
   wp (bfree 1 b) s (λ _ s', ∃ v' L', t_abs (ft s') c v' ∅ L' ∧ meta_used v' sb ∧
     (∀ x, free_block v' sb x ↔ free_block v sb x ∨ x = b) ∧ (∀ n, n ∉ bm sb → v' n = v n))) ∧
  (used v sb b = false → bfree 1 b s = Panic "freeing free block").
Proof.
  cbv zeta. assert (∀ n, length (v n) = Z.to_nat BSIZE) as Hlen by (intros n; exact (t_len _ _ _ _ _ n Ha)).
  pose proof (dstart_pos c (fsb s) Hg) as [_ Hd].
  assert (0 ≤ b < sb_size (fsb s)) as Hbr by (destruct Hb; lia).
  assert (calm ∅ L) as Hc by (apply calm_empty; lia). split.
  - intros Hu. apply (bfree_wp s c v ∅ L s); [done|by apply fnow_refl|done|done|rw hblocks_empty; set_solver|done|done|].
    intros s2 H2. destruct (fnow_abs _ _ _ _ _ _ H2) as [Ha2 _]. eexists _, _. split; [exact Ha2|]. split_and!.
    + intros x Hx. rw /is_data in Hb. rw (used_free (fsb s) v Hlen b x Hbr); [lia|]. rw Hm //.
      destruct (Z.eqb_spec x b); [lia|done].
    + intros x. rw /free_block /is_data. split.
      * intros [Hx Hxu]. rw (used_free (fsb s) v Hlen b x Hbr) in Hxu; [lia|].
        destruct (Z.eqb_spec x b); [by right|left]. by split.
      * intros [[Hx Hxu]| ->]; (split; [done|]).
        -- rw (used_free (fsb s) v Hlen b x Hbr); [lia|]. by rw Hxu andb_false_r.
        -- by rw (used_free (fsb s) v Hlen b b Hbr Hbr) Z.eqb_refl.
    + intros n Hn. by apply free_other.
  - intros Hu. apply (bfree_panics s c v ∅ L); [done|by apply fnow_refl|done|done|rw hblocks_empty; set_solver|done].
Qed.

End Claims.

(** ** Witnesses *)

Definition img_inodes : list inode := replicate NINODE (Inode 0 0 0 (Sleeplock 0 "inode" 0) false (Dinode 0 0 0 0 0 (replicate 13 0))).
Definition img_fs : fsys (lsys bcache) := Fsys img_txn img_sb img_inodes [].

Lemma img_free : free_block img_v img_sb 60.
Proof. split; [split; vm_compute; congruence|vm_compute; reflexivity]. Qed.
Lemma img_taken : is_data img_sb 59 ∧ used img_v img_sb 59 = true.
Proof. split; [split; vm_compute; congruence|vm_compute; reflexivity]. Qed.

Lemma balloc_takes_least_free_witness :
  wp (balloc (Txn0 := log_Txn (Cache0 := bio_Cache 1)) 1) img_fs (λ r s', free_block img_v img_sb r).
Proof.
  destruct (balloc_takes_least_free (Txn0 := log_Txn (Cache0 := bio_Cache 1)) img_fs img_conf img_v ∅) as [Hwp _].
  - exact img_geom.
  - exact img_abs.
  - exact img_meta.
  - vm_compute. lia.
  - eapply wp_mono; [exact (Hwp (ex_intro _ 60 img_free))|].
    intros r s' [Hr _]. exact Hr.
Defined.

Lemma bfree_returns_block_witness :
  wp (bfree (Txn0 := log_Txn (Cache0 := bio_Cache 1)) 1 59) img_fs (λ _ s', ∃ v' L',
    t_abs (Txn := log_Txn (Cache0 := bio_Cache 1)) (ft s') img_conf v' ∅ L' ∧ free_block v' img_sb 59).
Proof.
  destruct (bfree_returns_block (Txn0 := log_Txn (Cache0 := bio_Cache 1)) img_fs img_conf img_v ∅ 59) as [Hwp _].
  - exact img_geom.
  - exact img_abs.
  - exact img_meta.
  - exact (proj1 img_taken).
  - vm_compute. lia.
  - eapply wp_mono; [exact (Hwp (proj2 img_taken))|].
    intros [] s' (v'&L'&Ha&_&Hf&_). exists v', L'. split; [exact Ha|]. apply Hf. by right.
Defined.
