(* ===== verification/FsBmap.v ===== *)
(** * Blocks of inodes (xv6/fs.c: bmap).

    An inode has 141 slots: twelve direct blocks, the indirect block, and the entries of the
    indirect block.  [file_ok] is the invariant of an inode: its blocks are different data blocks in use
    and there is no hole below its size.  [evolves] is what an operation may do to the disk when it works on
    one file.  [bmap_wp]: block [bn] of the file is there afterwards, the bytes of the file are the same and no other
    file is touched. *)
From S2P Require Import Prelude Str Spinlock Sleeplock Layout Bio Log Txn Fs FsBlocks.
Local Open Scope Z_scope.

(** ** The blocks of an inode *)

Definition NSLOT : Z := MAXFILE + 1.
(** The disk block in slot [j]; 0 for none. *)
Definition slot (v : Z → block) (di : dinode) (j : Z) : Z :=
  if j <=? NDIRECT then addr di j
  else if addr di NDIRECT =? 0 then 0
  else get32 (4 * Z.to_nat (j - NDIRECT - 1)) (v (addr di NDIRECT)).
(** The slot of block [bn] of the file. *)
Definition fslot (bn : Z) : Z := if bn <? NDIRECT then bn else bn + 1.

Record file_ok (v : Z → block) (sb : superblock) (di : dinode) : Prop := {
  fo_len : length (di_addrs di) = 13%nat;
  fo_data : ∀ j, 0 ≤ j < NSLOT → slot v di j ≠ 0 → is_data sb (slot v di j) ∧ used v sb (slot v di j) = true;
  fo_inj : ∀ j k, 0 ≤ j < NSLOT → 0 ≤ k < NSLOT → slot v di j ≠ 0 → slot v di j = slot v di k → j = k;
  fo_size : 0 ≤ di_size di ≤ MAXFILE * BSIZE;
  fo_dense : ∀ bn, 0 ≤ bn → bn * BSIZE < di_size di → slot v di (fslot bn) ≠ 0
}.

(** The block [bn] of the file; a block that is not there is zero. *)
Definition fblock (v : Z → block) (di : dinode) (bn : Z) : block :=
  if slot v di (fslot bn) =? 0 then zero_block else v (slot v di (fslot bn)).
Definition fbyte (v : Z → block) (di : dinode) (k : Z) : Z :=
  default 0 (fblock v di (k / BSIZE) !! Z.to_nat (k mod BSIZE)).
Definition contents (v : Z → block) (di : dinode) : list Z := fbyte v di <$> range 0 (di_size di).

Definition same_meta (di di' : dinode) : Prop :=
  di_type di' = di_type di ∧ di_major di' = di_major di ∧ di_minor di' = di_minor di ∧
  di_nlink di' = di_nlink di ∧ di_size di' = di_size di.

(** From ([v], [di]) to ([v'], [di']): blocks were added to the inode and its blocks written; no other
    file lost or changed a block. *)
Record evolves (sb : superblock) (v : Z → block) (di : dinode) (v' : Z → block) (di' : dinode) : Prop := {
  ev_meta : same_meta di di';
  ev_keep : ∀ j, 0 ≤ j < NSLOT → slot v di j ≠ 0 → slot v' di' j = slot v di j;
  ev_new : ∀ j, 0 ≤ j < NSLOT → slot v' di' j = slot v di j ∨
    is_data sb (slot v' di' j) ∧ used v sb (slot v' di' j) = false;
  ev_used : ∀ b, is_data sb b →
    used v' sb b = true ↔ used v sb b = true ∨ ∃ j, 0 ≤ j < NSLOT ∧ slot v' di' j = b;
  ev_frame : ∀ n, n ∉ bm sb → (is_data sb n → used v sb n = true) →
    (∀ j, 0 ≤ j < NSLOT → slot v di j = n → ¬ is_data sb n) → v' n = v n
}.

Lemma fslot_range bn : 0 ≤ bn < MAXFILE → 0 ≤ fslot bn < NSLOT ∧ fslot bn ≠ NDIRECT.
Proof.
  rw /fslot /NSLOT. change MAXFILE with 140. change NDIRECT with 12. destruct (Z.ltb_spec bn 12); lia.
Qed.
Lemma fslot_inj bn bn' : fslot bn = fslot bn' → bn = bn'.
Proof. rw /fslot. change NDIRECT with 12. destruct (Z.ltb_spec bn 12), (Z.ltb_spec bn' 12); lia. Qed.

(** *** Counting *)

Section Counting.
Context (sb : superblock).
Implicit Types (v : Z → block) (di : dinode).

Definition free_list v : list Z := filter (λ b, used v sb b = false) (range 0 (sb_size sb)).

(** Blocks that can still be allocated and blocks a transaction may log, with the indirect block counted once. *)
Definition pot v di : nat := (length (free_list v) + if (addr di NDIRECT =? 0)%Z then 0 else 1)%nat.
Definition weight (L : gset Z) di : nat :=
  if addr di NDIRECT =? 0 then S (size (L ∪ bm sb)) else size ({[addr di NDIRECT]} ∪ (L ∪ bm sb)).

Lemma weight_size L di : (size (L ∪ bm sb) ≤ weight L di)%nat.
Proof. rw /weight. destruct (_ =? 0); [lia|]. apply subseteq_size. set_solver. Qed.
Lemma size_logged L : (size L ≤ size (L ∪ bm sb))%nat.
Proof. apply subseteq_size. set_solver. Qed.
Lemma size_add n (X : gset Z) : (size ({[n]} ∪ X) ≤ S (size X))%nat.
Proof. rw size_union_alt size_singleton. assert (size (X ∖ {[n]}) ≤ size X)%nat by (apply subseteq_size; set_solver). lia. Qed.

Lemma weight_step L di L' di' r :
  (addr di NDIRECT ≠ 0 → addr di' NDIRECT = addr di NDIRECT) →
  (∀ n, n ∈ L' → n ∈ L ∨ n ∈ bm sb ∨ n = r ∨ n = addr di' NDIRECT ∧ addr di' NDIRECT ≠ 0) →
  (weight L' di' ≤ S (weight L di))%nat.
Proof.
  intros Hi HL. rw /weight. destruct (Z.eqb_spec (addr di' NDIRECT) 0) as [E'|Hne'], (Z.eqb_spec (addr di NDIRECT) 0) as [E|Hne].
  - assert (size (L' ∪ bm sb) ≤ size ({[r]} ∪ (L ∪ bm sb)))%nat as Hs by (apply subseteq_size; set_solver).
    pose proof (size_add r (L ∪ bm sb)). lia.
  - by rw Hi in E'.
  - assert (size ({[addr di' NDIRECT]} ∪ (L' ∪ bm sb)) ≤ size ({[addr di' NDIRECT]} ∪ ({[r]} ∪ (L ∪ bm sb))))%nat as Hs
      by (apply subseteq_size; set_solver).
    pose proof (size_add r (L ∪ bm sb)). pose proof (size_add (addr di' NDIRECT) ({[r]} ∪ (L ∪ bm sb))). lia.
  - rw Hi // in HL |- *. assert (size ({[addr di NDIRECT]} ∪ (L' ∪ bm sb)) ≤ size ({[r]} ∪ ({[addr di NDIRECT]} ∪ (L ∪ bm sb))))%nat as Hs
      by (apply subseteq_size; set_solver).
    pose proof (size_add r ({[addr di NDIRECT]} ∪ (L ∪ bm sb))). lia.
Qed.
End Counting.

Section Pure.
Context (c : tconf) (sb : superblock).
Hypothesis Hg : geom c sb.
Implicit Types (v : Z → block) (di : dinode).

Lemma data_pos b : is_data sb b → 0 < b < sb_size sb ∧ b ∉ bm sb.
Proof.
  intros [H1 H2]. destruct (dstart_pos c sb Hg) as [H3 H4]. split; [lia|]. rw elem_bm. lia.
Qed.

Lemma evolves_refl v di : file_ok v sb di → evolves sb v di v di.
Proof.
  intros Hok. split; [done|done|by left| |done]. intros b Hb. split; [by left|]. intros [|(j&Hj&<-)]; [done|].
  apply (fo_data _ _ _ Hok j Hj). apply data_pos in Hb. lia.
Qed.

Lemma evolves_trans v di v1 di1 v2 di2 : evolves sb v di v1 di1 → evolves sb v1 di1 v2 di2 → evolves sb v di v2 di2.
Proof.
  intros [M1 K1 N1 U1 F1] [M2 K2 N2 U2 F2]. split.
  - rw /same_meta in M1, M2 |- *. intuition congruence.
  - intros j Hj H0. rw K2 // K1 //.
  - intros j Hj. destruct (N2 j Hj) as [E|[Hd E]]; [rw E; by apply N1|]. right. split; [done|].
    destruct (used v sb _) eqn:Eu; [|done]. assert (used v1 sb (slot v2 di2 j) = true) by (apply U1; auto). congruence.
  - intros b Hb. rw (U2 b Hb) (U1 b Hb). split; [|tauto]. intros [[?|(j&Hj&E)]|?]; [by left| |by right].
    right. exists j. split; [done|]. rw K2 //. apply data_pos in Hb. lia.
  - intros n Hn Hu Hs. etrans; [apply F2; [done|intros Hd; apply U1; auto|]|by apply F1].
    intros j Hj E Hd. destruct (N1 j Hj) as [E1|[_ E1]]; [apply (Hs j Hj); congruence|]. rw E Hu // in E1.
Qed.

(** *** A slot takes a free block *)

Record took v di v' di' (j r : Z) : Prop := {
  tk_slot : ∀ k, 0 ≤ k < NSLOT → slot v' di' k = if k =? j then r else slot v di k;
  tk_used : ∀ b, 0 ≤ b < sb_size sb → used v' sb b = (b =? r) || used v sb b;
  tk_zero : v' r = zero_block;
  tk_frame : ∀ n, n ≠ r → n ∉ bm sb → (NDIRECT < j → n ≠ slot v di NDIRECT) → v' n = v n;
  tk_ind : NDIRECT < j → slot v di NDIRECT ≠ 0;
  tk_meta : same_meta di di';
  tk_addrs : length (di_addrs di') = length (di_addrs di)
}.

Lemma took_ok v di v' di' j r :
  file_ok v sb di → is_data sb r → used v sb r = false → 0 ≤ j < NSLOT → slot v di j = 0 → took v di v' di' j r →
  file_ok v' sb di' ∧ evolves sb v di v' di'.
Proof.
  intros [Hlen Hdata Hinj Hsize Hdense] Hr Hur Hj Hj0 [Hs Hu Hz Hf Hi Hm Ha]. destruct (data_pos r Hr) as [Hrp Hrb].
  assert (∀ b, is_data sb b → 0 ≤ b < sb_size sb) as Hp by (intros b Hb; apply data_pos in Hb; lia).
  assert (∀ k, 0 ≤ k < NSLOT → slot v di k = r → False) as Hnr.
  { intros k Hk E. destruct (Hdata k Hk) as [_ Hx]; [lia|]. congruence. }
  split; split; try done.
  - congruence.
  - intros k Hk. rw Hs //. destruct (Z.eqb_spec k j) as [->|].
    + intros _. split; [done|]. rw Hu; [lia|]. by rw Z.eqb_refl.
    + intros H0. destruct (Hdata k Hk H0) as [Hd Hx]. split; [done|]. rw Hu; [by apply Hp|]. by rw Hx orb_true_r.
  - intros k l Hk Hl. rw !Hs //. destruct (Z.eqb_spec k j) as [->|Hkj], (Z.eqb_spec l j) as [->|Hlj]; try done.
    + intros _ E. exfalso. by apply (Hnr l).
    + intros _ E. exfalso. by apply (Hnr k).
    + intros H0 E. by apply Hinj.
  - destruct Hm as (_&_&_&_&->). done.
  - intros bn Hbn Hlt. destruct Hm as (_&_&_&_&Es). rw Es in Hlt. specialize (Hdense bn Hbn Hlt).
    assert (0 ≤ fslot bn < NSLOT) as Hfs.
    { apply fslot_range. change BSIZE with 512 in *. lia. }
    rw Hs //. destruct (_ =? j); [lia|done].
  - intros k Hk H0. rw Hs //. destruct (Z.eqb_spec k j) as [->|]; [congruence|done].
  - intros k Hk. rw Hs //. destruct (Z.eqb_spec k j) as [->|]; [by right|by left].
  - intros b Hb. rw Hu; [by apply Hp|]. split.
    + intros [E%Z.eqb_eq|]%orb_true_iff; [|by left]. right. exists j. split; [done|]. rw Hs // Z.eqb_refl. done.
    + intros [->|(k&Hk&E)]; [apply orb_true_r|]. rw Hs // in E. destruct (k =? j); [subst b; by rw Z.eqb_refl|].
      subst b. destruct (Hdata k Hk) as [_ Hx]; [apply data_pos in Hb; lia|]. by rw Hx orb_true_r.
  - intros n Hn Hun Hsl. apply Hf; [|done|].
    + intros ->. rw Hun // in Hur.
    + intros Hj12 ->. assert (0 ≤ NDIRECT < NSLOT) as H12 by done.
      apply (Hsl NDIRECT H12 eq_refl). by apply Hdata, Hi.
Qed.

Lemma get32_zero o : get32 o zero_block = 0.
Proof.
  rw /get32 /slice /zero_block drop_replicate take_replicate.
  generalize (4 `min` (Z.to_nat BSIZE - o))%nat. intros n. induction n as [|n IH]; [done|]. by rw /= IH.
Qed.

Lemma addr_set k j r di :
  length (di_addrs di) = 13%nat → 0 ≤ j ≤ NDIRECT → 0 ≤ k ≤ NDIRECT →
  addr (set_addr j r di) k = if k =? j then r else addr di k.
Proof.
  intros Hl Hj Hk. change NDIRECT with 12 in *. rw /addr /set_addr /=. destruct (Z.eqb_spec k j) as [->|Hne].
  - rw list_lookup_insert_eq //. lia.
  - rw list_lookup_insert_ne //. lia.
Qed.

Lemma slot_low v di k : k ≤ NDIRECT → slot v di k = addr di k.
Proof. intros Hk. rw /slot. by destruct (Z.leb_spec k NDIRECT); [|lia]. Qed.
Lemma slot_high v di k : NDIRECT < k →
  slot v di k = if addr di NDIRECT =? 0 then 0 else get32 (4 * Z.to_nat (k - NDIRECT - 1)) (v (addr di NDIRECT)).
Proof. intros Hk. rw /slot. by destruct (Z.leb_spec k NDIRECT); [lia|]. Qed.

(** The indirect block is a data block in use. *)
Lemma indirect_used v di : file_ok v sb di → addr di NDIRECT ≠ 0 →
  is_data sb (addr di NDIRECT) ∧ used v sb (addr di NDIRECT) = true.
Proof. intros Hok H0. rw -(slot_low v di NDIRECT) in H0 |- *; [done|]. by apply (fo_data _ _ _ Hok). Qed.

Lemma took_low v di j r :
  file_ok v sb di → (∀ n, length (v n) = Z.to_nat BSIZE) → is_data sb r → used v sb r = false →
  0 ≤ j ≤ NDIRECT → addr di j = 0 → took v di (alloc_view v sb r) (set_addr j r di) j r.
Proof.
  intros Hok Hlen Hr Hur Hj H0. destruct (data_pos r Hr) as [Hrp Hrb]. pose proof (fo_len _ _ _ Hok) as Hl. split.
  - intros k Hk. destruct (Z.leb_spec k NDIRECT) as [Hlow|Hhigh].
    + rw !slot_low //. apply addr_set; [done..|lia].
    + rw !slot_high // !addr_set //. destruct (Z.eqb_spec k j); [lia|]. destruct (Z.eqb_spec NDIRECT j) as [<-|Hne].
      * destruct (Z.eqb_spec r 0); [lia|]. rw alloc_zero get32_zero H0. done.
      * destruct (Z.eqb_spec (addr di NDIRECT) 0) as [|Hi]; [done|]. destruct (indirect_used v di Hok Hi) as [Hd Hu].
        rw alloc_other //; [congruence|by apply data_pos|lia].
  - intros b Hb. by apply (used_alloc c).
  - apply alloc_zero.
  - intros n Hn Hbm _. apply alloc_other; [done|done|lia].
  - lia.
  - done.
  - rw /set_addr /= length_insert. done.
Qed.

(** The blocks after the indirect block got entry [r]. *)
Definition link_view v di (j r : Z) : Z → block :=
  upd (alloc_view v sb r) (addr di NDIRECT) (put32 (4 * Z.to_nat (j - NDIRECT - 1)) r (v (addr di NDIRECT))).

Lemma took_high v di j r :
  file_ok v sb di → (∀ n, length (v n) = Z.to_nat BSIZE) → is_data sb r → used v sb r = false →
  NDIRECT < j < NSLOT → addr di NDIRECT ≠ 0 → slot v di j = 0 → took v di (link_view v di j r) di j r.
Proof.
  intros Hok Hlen Hr Hur Hj Hi H0. destruct (data_pos r Hr) as [Hrp Hrb]. destruct (indirect_used v di Hok Hi) as [Hd Hu].
  assert (addr di NDIRECT ≠ r) as Hne by congruence. destruct (data_pos _ Hd) as [Hip Hib].
  assert (∀ k, NDIRECT < k < NSLOT → (4 * Z.to_nat (k - NDIRECT - 1) + 4 ≤ length (v (addr di NDIRECT)))%nat) as Ho.
  { intros k Hk. rw Hlen. change NSLOT with 141 in Hk. change NDIRECT with 12 in *. change (Z.to_nat BSIZE) with 512%nat. lia. }
  split.
  - intros k Hk. destruct (Z.leb_spec k NDIRECT) as [Hlow|Hhigh].
    + rw !slot_low //. destruct (Z.eqb_spec k j); [lia|done].
    + rw !slot_high //. destruct (Z.eqb_spec (addr di NDIRECT) 0); [done|]. rw /link_view upd_eq.
      destruct (Z.eqb_spec k j) as [->|Hkj].
      * apply get32_put32_eq; [by apply Ho|]. destruct Hg. lia.
      * apply get32_put32_ne; [by apply Ho|]. lia.
  - intros b Hb. rewrite -(used_alloc c sb v Hg Hlen r b Hr Hb). rw /used /link_view upd_ne //.
    intros E. apply Hib. rw -E. by apply bblock_bm.
  - rw /link_view upd_ne; [congruence|]. apply alloc_zero.
  - intros n Hn Hbm Hx. rw /link_view upd_ne; [rw slot_low // in Hx; apply Hx; lia|]. apply alloc_other; [done|done|lia].
  - intros _. by rw slot_low.
  - done.
  - done.
Qed.

Lemma took_fblock v di v' di' j r bn :
  file_ok v sb di → is_data sb r → used v sb r = false → 0 ≤ j < NSLOT → slot v di j = 0 → took v di v' di' j r →
  0 ≤ bn < MAXFILE → fblock v' di' bn = fblock v di bn.
Proof.
  intros Hok Hr Hur Hj H0 Ht Hbn. destruct (fslot_range bn Hbn) as [Hf Hf12]. destruct (data_pos r Hr) as [Hrp _].
  rw /fblock (tk_slot _ _ _ _ _ _ Ht) //. destruct (Z.eqb_spec (fslot bn) j) as [<-|Hne].
  - rw H0 /=. destruct (Z.eqb_spec r 0); [lia|]. by apply Ht.
  - destruct (Z.eqb_spec (slot v di (fslot bn)) 0) as [|Hs]; [done|]. destruct (fo_data _ _ _ Hok _ Hf Hs) as [Hd Hu].
    apply (tk_frame _ _ _ _ _ _ Ht); [congruence|by apply data_pos|]. intros _ E. apply Hf12, (fo_inj _ _ _ Hok); done.
Qed.

Lemma took_meta_used v di v' di' j r : is_data sb r → took v di v' di' j r → meta_used v sb → meta_used v' sb.
Proof.
  intros Hr Ht Hm b Hb. destruct (data_pos r Hr) as [Hrp _]. destruct Hr as [Hr1 Hr2].
  rw (tk_used _ _ _ _ _ _ Ht); [lia|]. rw Hm // orb_true_r. done.
Qed.

(** *** Free blocks *)

Lemma took_free v di v' di' j r :
  is_data sb r → used v sb r = false → took v di v' di' j r → length (free_list sb v) = S (length (free_list sb v')).
Proof.
  intros Hr Hur Ht. destruct (data_pos r Hr) as [Hrp _].
  assert (∀ w, NoDup (free_list sb w)) as Hnd by (intros w; apply NoDup_filter, NoDup_seqZ).
  assert (free_list sb v ≡ₚ r :: free_list sb v') as Hp; [|by rw (Permutation_length Hp)].
  assert (∀ b, 0 ≤ b < sb_size sb → used v' sb b = false ↔ used v sb b = false ∧ b ≠ r) as Hu.
  { intros b Hb. rw (tk_used _ _ _ _ _ _ Ht) // orb_false_iff Z.eqb_neq. tauto. }
  apply NoDup_Permutation; [done| |].
  - apply NoDup_cons. split; [|done]. rw list_elem_of_filter. intros [Hx Hin%elem_of_range]. apply Hu in Hx; [tauto|lia].
  - intros b. rw elem_of_cons !list_elem_of_filter elem_of_range. destruct (decide (b = r)) as [->|Hne].
    + split; [by left|]. intros _. split; [done|lia].
    + split; [intros [Hx Hb]; right; split; [by apply Hu|done]|]. intros [|[Hx Hb]]; [done|]. split; [|done]. by apply Hu in Hx as [? _].
Qed.

Lemma free_some v : (0 < length (free_list sb v))%nat → ∃ b, 0 ≤ b < sb_size sb ∧ used v sb b = false.
Proof.
  intros Hl. destruct (free_list sb v) as [|b l] eqn:E; [simpl in Hl; lia|]. exists b.
  assert (b ∈ free_list sb v) as Hb by (rw E; left). rw /free_list list_elem_of_filter elem_of_range in Hb. tauto.
Qed.

End Pure.

(** ** The operations *)

Section Ops.
Context {T : Type} `{!Txn T}.
Context (s : fsys T) (ip : nat) (i : inode) (c : tconf).
Hypothesis Hg : geom c (fsb s).
Hypothesis Hip : finodes s !! ip = Some i.
Hypothesis Hdev : i_dev i = 1.

(** [s] with another disk inode in memory. *)
Definition with_din (di : dinode) : fsys T := Fsys (ft s) (fsb s) (<[ip := set_din di i]> (finodes s)) (fheld s).

(** The operations on the inode run in such states. *)
Definition inow v di h L s1 : Prop := fnow (with_din di) c v h L s1.

Lemma inow_inode v di h L s1 : inow v di h L s1 → finodes s1 !! ip = Some (set_din di i).
Proof.
  intros (t&->&_). simpl. apply list_lookup_insert_eq. exact (lookup_lt_Some _ _ _ Hip).
Qed.
Lemma wp_inode v di h L s1 (Q : inode → fsys T → Prop) :
  inow v di h L s1 → Q (set_din di i) s1 → wp (inode_at ip) s1 Q.
Proof. intros H HQ. eapply wp_inode_at; [exact (inow_inode v di h L s1 H)|done]. Qed.
Lemma wp_upd_din v di h L s1 f (Q : unit → fsys T → Prop) :
  inow v di h L s1 → (∀ s2, inow v (f di) h L s2 → Q tt s2) → wp (upd_din ip f) s1 Q.
Proof.
  intros (t&->&Ha) HQ. rw /upd_din /upd_inode. apply wp_modify, HQ. exists t. split; [|done].
  rw /with_ft /with_din /=. f_equal. rw (alter_slot _ ip _ (set_din di i)).
  - apply list_lookup_insert_eq. exact (lookup_lt_Some _ _ _ Hip).
  - by rw list_insert_insert_eq.
Qed.

(** What [bmap] leaves: block [bn] of the file is disk block [r]. *)
Record bmapped v di L bn (r : Z) v' di' L' : Prop := {
  bp_ok : file_ok v' (fsb s) di';
  bp_meta : meta_used v' (fsb s);
  bp_ev : evolves (fsb s) v di v' di';
  bp_slot : slot v' di' (fslot bn) = r;
  bp_pos : r ≠ 0;
  bp_block : ∀ k, 0 ≤ k < MAXFILE → fblock v' di' k = fblock v di k;
  bp_pot : (pot (fsb s) v di ≤ S (pot (fsb s) v' di'))%nat;
  bp_weight : (weight (fsb s) ({[r]} ∪ L') di' ≤ S (weight (fsb s) L di))%nat;
  bp_same : slot v di (fslot bn) ≠ 0 → v' = v ∧ di' = di ∧ L' = L
}.

Lemma bmapped_same v di L bn r :
  file_ok v (fsb s) di → meta_used v (fsb s) → slot v di (fslot bn) = r → r ≠ 0 → bmapped v di L bn r v di L.
Proof.
  intros Hok Hm E H0. split; try done.
  - by apply (evolves_refl c).
  - lia.
  - apply (weight_step (fsb s) L di _ di r); [done|]. set_solver.
Qed.

(** Allocation with room in the log, while [h] is held. *)
Lemma alloc_block v di h L s1 (Q : Z → fsys T → Prop) :
  inow v di h L s1 → meta_used v (fsb s) → (0 < length (free_list (fsb s) v))%nat →
  (∀ n, n ∈ hblocks h → is_data (fsb s) n ∧ used v (fsb s) n = true) → (size (hblocks h) ≤ 1)%nat →
  (size (L ∪ bm (fsb s)) + 1 ≤ 28)%nat →
  (∀ r s2, is_data (fsb s) r → used v (fsb s) r = false →
     inow (alloc_view v (fsb s) r) di h ({[r]} ∪ ({[BBLOCK r (fsb s)]} ∪ L)) s2 → Q r s2) →
  wp (balloc 1) s1 Q.
Proof.
  intros H1 Hm Hf Hh Hh1 Hr HQ. apply (balloc_wp (with_din di) c v h L s1); try done.
  - by apply free_some.
  - intros r s2 Hd Hu _ H2. by apply HQ.
Qed.

Lemma inow_len v di h L s1 n : inow v di h L s1 → length (v n) = Z.to_nat BSIZE.
Proof. apply fnow_len. Qed.

(** A low slot of the inode takes a block. *)
Lemma fill_low v di L s1 j (Q : Z → fsys T → Prop) :
  inow v di ∅ L s1 → file_ok v (fsb s) di → meta_used v (fsb s) → 0 ≤ j ≤ NDIRECT → addr di j = 0 →
  (0 < length (free_list (fsb s) v))%nat → (size (L ∪ bm (fsb s)) + 1 ≤ 28)%nat →
  (∀ r s2, is_data (fsb s) r → used v (fsb s) r = false → took (fsb s) v di (alloc_view v (fsb s) r) (set_addr j r di) j r →
     inow (alloc_view v (fsb s) r) (set_addr j r di) ∅ ({[r]} ∪ ({[BBLOCK r (fsb s)]} ∪ L)) s2 → Q r s2) →
  wp (a ← balloc 1; _ ← upd_din ip (set_addr j a); mret a) s1 Q.
Proof.
  intros H1 Hok Hm Hj H0 Hf Hr HQ.
  apply wp_bind, (alloc_block v di ∅ L s1); [done|done|done| |rw hblocks_empty size_empty; lia|done|].
  { intros n Hn. rw hblocks_empty in Hn. set_solver. }
  intros r s2 Hd Hu H2. apply wp_bind. eapply wp_upd_din; [exact H2|]. intros s3 H3. apply wp_ret.
  apply HQ; try done. apply (took_low c); try done. intros n. exact (inow_len _ _ _ _ _ n H1).
Qed.

(** A free block taken: what it does to the two counts. *)
Lemma took_bmapped v di L bn r v' di' L' :
  file_ok v (fsb s) di → meta_used v (fsb s) → (∀ n, length (v n) = Z.to_nat BSIZE) → 0 ≤ bn < MAXFILE →
  is_data (fsb s) r → used v (fsb s) r = false → slot v di (fslot bn) = 0 → took (fsb s) v di v' di' (fslot bn) r →
  addr di' NDIRECT = addr di NDIRECT →
  (∀ n, n ∈ L' → n ∈ L ∨ n ∈ bm (fsb s) ∨ n = r ∨ n = addr di' NDIRECT ∧ addr di' NDIRECT ≠ 0) →
  bmapped v di L bn r v' di' L'.
Proof.
  intros Hok Hm Hlen Hbn Hd Hu H0 Ht Hi HL. destruct (fslot_range bn Hbn) as [Hf _].
  destruct (took_ok c (fsb s) Hg v di v' di' _ r Hok Hd Hu Hf H0 Ht) as [Hok' Hev]. split; try done.
  - exact (took_meta_used c (fsb s) Hg v di v' di' _ r Hd Ht Hm).
  - rw (tk_slot _ _ _ _ _ _ _ Ht) // Z.eqb_refl. done.
  - apply (data_pos c (fsb s) Hg) in Hd. lia.
  - intros k Hk. by apply (took_fblock c (fsb s) Hg v di v' di' (fslot bn) r).
  - rw /pot (took_free c (fsb s) Hg v di v' di' _ r Hd Hu Ht) Hi. lia.
  - apply (weight_step (fsb s) L di _ di' r); [done|]. intros n [->%elem_of_singleton|Hn]%elem_of_union; [tauto|]. by apply HL.
Qed.

(** Before the entry of the indirect block is read, that block is there. *)
Record prepared v di L v1 di1 L1 : Prop := {
  pr_ok : file_ok v1 (fsb s) di1;
  pr_meta : meta_used v1 (fsb s);
  pr_ev : evolves (fsb s) v di v1 di1;
  pr_block : ∀ k, 0 ≤ k < MAXFILE → fblock v1 di1 k = fblock v di k;
  pr_pot : pot (fsb s) v di = pot (fsb s) v1 di1;
  pr_weight : (weight (fsb s) L1 di1 ≤ weight (fsb s) L di)%nat;
  pr_ind : addr di1 NDIRECT ≠ 0;
  pr_slot : ∀ j, 0 ≤ j < NSLOT → j ≠ NDIRECT → slot v1 di1 j = slot v di j;
  pr_same : addr di NDIRECT ≠ 0 → v1 = v ∧ di1 = di ∧ L1 = L
}.

Lemma prepare v di L s1 (Q : Z → fsys T → Prop) :
  inow v di ∅ L s1 → file_ok v (fsb s) di → meta_used v (fsb s) →
  addr di NDIRECT ≠ 0 ∨ (2 ≤ pot (fsb s) v di)%nat ∧ (weight (fsb s) L di ≤ 28)%nat →
  (∀ v1 di1 L1 s2, prepared v di L v1 di1 L1 → inow v1 di1 ∅ L1 s2 → Q (addr di1 NDIRECT) s2) →
  wp (if addr di NDIRECT =? 0 then a ← balloc 1; _ ← upd_din ip (set_addr NDIRECT a); mret a else mret (addr di NDIRECT)) s1 Q.
Proof.
  intros H1 Hok Hm Hroom HQ. destruct (Z.eqb_spec (addr di NDIRECT) 0) as [E|Hne].
  - destruct Hroom as [|[Hpot Hw]]; [done|]. rw /pot E in Hpot. rw /weight E in Hw. simpl in Hpot, Hw.
    apply (fill_low v di L s1); [done..|lia|lia|]. intros r s2 Hd Hu Ht H2.
    assert (0 ≤ NDIRECT < NSLOT) as H12 by done. assert (slot v di NDIRECT = 0) as Es by (by rw slot_low).
    assert (addr (set_addr NDIRECT r di) NDIRECT = r) as Er by (rewrite addr_set; [apply Hok|done|done|by rewrite Z.eqb_refl]).
    destruct (data_pos c (fsb s) Hg r Hd) as [Hrp _].
    destruct (took_ok c (fsb s) Hg _ _ _ _ _ r Hok Hd Hu H12 Es Ht) as [Hok' Hev].
    pose proof (λ H, HQ _ _ _ s2 H H2) as HQ'. rw Er in HQ'. apply HQ'.
    split; try done.
    + exact (took_meta_used c (fsb s) Hg _ _ _ _ _ r Hd Ht Hm).
    + intros k Hk. by apply (took_fblock c (fsb s) Hg _ _ _ _ NDIRECT r).
    + rw /pot E Er (took_free c (fsb s) Hg _ _ _ _ _ r Hd Hu Ht). destruct (Z.eqb_spec r 0); simpl; lia.
    + rw /weight E Er. destruct (Z.eqb_spec r 0); [lia|]. simpl. etrans; [|apply (size_add r)]. apply subseteq_size.
      pose proof (bblock_bm (fsb s) r ltac:(lia)). set_solver.
    + lia.
    + intros j Hj Hne. rw (tk_slot _ _ _ _ _ _ _ Ht) //. by destruct (Z.eqb_spec j NDIRECT).
  - apply wp_ret. apply (HQ v di L); [|done]. split; try done. by apply (evolves_refl c).
Qed.

(** The indirect part of [bmap], once the indirect block is there. *)
Lemma prepared_bmapped v di L v1 di1 L1 bn r v' di' L' :
  prepared v di L v1 di1 L1 → NDIRECT ≤ bn < MAXFILE → bmapped v1 di1 L1 bn r v' di' L' → bmapped v di L bn r v' di' L'.
Proof.
  intros [P1 P2 P3 P4 P5 P6 P7 P8 P9] Hbn [B1 B2 B3 B4 B5 B6 B7 B8 B9]. split; try done.
  - exact (evolves_trans c (fsb s) Hg _ _ _ _ _ _ P3 B3).
  - intros k Hk. rw B6 // P4 //.
  - lia.
  - lia.
  - intros Hs. destruct P9 as (->&->&->); [|by apply B9]. intros E. apply Hs.
    rw /fslot. destruct (Z.ltb_spec bn NDIRECT); [lia|]. rw slot_high; [lia|]. by rw E.
Qed.

(** Block [bn] through the indirect block. *)
Lemma bmap_entry v di L v1 di1 L1 s1 bn (Q : Z → fsys T → Prop) :
  prepared v di L v1 di1 L1 → inow v1 di1 ∅ L1 s1 → NDIRECT ≤ bn < MAXFILE → (size L1 ≤ 28)%nat →
  slot v di (fslot bn) ≠ 0 ∨ (2 ≤ pot (fsb s) v di)%nat ∧ (weight (fsb s) L di + 2 ≤ 28)%nat →
  (∀ r v' di' L' s2, bmapped v di L bn r v' di' L' → inow v' di' ∅ L' s2 → Q r s2) →
  wp (bp ← intx (t_bread 1 (addr di1 NDIRECT));
      d ← intx (t_bdata bp);
      let a := get32 (4 * Z.to_nat (bn - NDIRECT)) d in
      r ← (if a =? 0 then
             a' ← balloc 1;
             _ ← intx (t_bset bp (put32 (4 * Z.to_nat (bn - NDIRECT)) a' d));
             _ ← intx (t_log_write bp);
             mret a'
           else mret a);
      _ ← intx (t_brelse bp);
      mret r) s1 Q.
Proof.
  intros Hp H1 Hbn HL Hroom HQ. pose proof Hp as [Hok Hm Hev Hblk Hpot Hw Hi Hsl Hsame]. set (ind := addr di1 NDIRECT) in *.
  destruct (indirect_used (fsb s) v1 di1 Hok Hi) as [Hid Hiu]. fold ind in Hid, Hiu.
  destruct (data_pos c (fsb s) Hg _ Hid) as [Hipos Hibm]. pose proof Hg as [].
  assert (fslot bn = bn + 1) as Ef by (rw /fslot; by destruct (Z.ltb_spec bn NDIRECT); [lia|]).
  assert (0 ≤ fslot bn < NSLOT ∧ fslot bn ≠ NDIRECT) as [Hf Hf12] by (apply fslot_range; change NDIRECT with 12 in *; lia).
  assert (slot v1 di1 (fslot bn) = get32 (4 * Z.to_nat (bn - NDIRECT)) (v1 ind)) as Es.
  { rw Ef slot_high; [lia|]. fold ind. destruct (Z.eqb_spec ind 0); [done|]. by replace (bn + 1 - NDIRECT - 1) with (bn - NDIRECT) by lia. }
  apply wp_bind, (f_bread (with_din di1) c v1 ∅ L1); [done|lia|rw hblocks_empty; set_solver| |].
  { apply calm_room, calm_empty. done. }
  intros bp s2 Hbp H2. apply wp_bind. eapply f_bdata; [exact H2|apply lookup_insert_eq|]. cbv zeta. rewrite -Es.
  destruct (Z.eqb_spec (slot v1 di1 (fslot bn)) 0) as [E0|Hne].
  - rw Hsl // in E0. destruct Hroom as [|[Hpot2 Hw2]]; [done|]. pose proof (weight_size (fsb s) L1 di1).
    apply wp_bind, wp_bind. apply (alloc_block v1 di1 (<[bp := (ind, false)]> ∅) L1 s2); [done|done| | | |lia|].
    + rw Hpot /pot in Hpot2. destruct (_ =? 0); lia.
    + intros n. rw hblocks_one elem_of_singleton. by intros ->.
    + rw hblocks_one size_singleton. lia.
    + intros r s3 Hd Hu H3. assert (r ≠ ind) as Hri by congruence. destruct (data_pos c (fsb s) Hg r Hd) as [Hrp Hrb].
      assert (∀ n, length (v1 n) = Z.to_nat BSIZE) as Hlen by (intros n; exact (inow_len _ _ _ _ _ n H1)).
      assert (size ({[r]} ∪ ({[BBLOCK r (fsb s)]} ∪ L1)) ≤ S (size (L1 ∪ bm (fsb s))))%nat as Hsz.
      { etrans; [|apply (size_add r)]. apply subseteq_size. pose proof (bblock_bm (fsb s) r ltac:(lia)). set_solver. }
      eapply f_log; [exact H3| |apply g_home; destruct Hid, (dstart_pos c (fsb s) Hg); lia|lia|].
      { rw length_put32 //. rw Hlen. change NDIRECT with 12 in *. change MAXFILE with 140 in *. change (Z.to_nat BSIZE) with 512%nat. lia. }
      intros s4 H4. apply wp_ret. apply wp_bind. eapply f_brelse; [exact H4|apply lookup_insert_eq|].
      intros s5 H5. rw delete_insert_id // in H5. apply wp_ret.
      replace (bn - NDIRECT) with (fslot bn - NDIRECT - 1) in H5 by lia. refine (HQ r (link_view (fsb s) v1 di1 (fslot bn) r) di1 _ s5 _ H5).
      apply (prepared_bmapped v di L v1 di1 L1); [done|done|]. apply took_bmapped; try done; [change NDIRECT with 12 in Hbn; lia|by rw Hsl| |].
      * apply (took_high c); try done; [lia|]. by rw Hsl.
      * fold ind. pose proof (bblock_bm (fsb s) r ltac:(lia)). set_solver.
  - apply wp_bind, wp_ret, wp_bind. eapply f_brelse; [exact H2|apply lookup_insert_eq|].
    intros s3 H3. rw delete_insert_id // in H3. apply wp_ret. apply (HQ _ v1 di1 L1); [|done].
    apply (prepared_bmapped v di L v1 di1 L1); [done|done|]. by apply bmapped_same.
Qed.


Lemma bmap_wp v di L s1 bn (Q : Z → fsys T → Prop) :
  inow v di ∅ L s1 → file_ok v (fsb s) di → meta_used v (fsb s) → 0 ≤ bn < MAXFILE → (size L ≤ 28)%nat →
  slot v di (fslot bn) ≠ 0 ∨ (2 ≤ pot (fsb s) v di)%nat ∧ (weight (fsb s) L di + 2 ≤ 28)%nat →
  (∀ r v' di' L' s2, bmapped v di L bn r v' di' L' → inow v' di' ∅ L' s2 → Q r s2) →
  wp (bmap ip bn) s1 Q.
Proof.
  intros H1 Hok Hm Hbn HL Hroom HQ. rw /bmap. apply wp_bind, (wp_inode v di ∅ L s1 _ H1). cbn [i_din i_dev set_din]. rw Hdev.
  destruct (Z.ltb_spec bn NDIRECT) as [Hlow|Hhigh].
  - assert (fslot bn = bn) as Ef by (rw /fslot; by destruct (Z.ltb_spec bn NDIRECT); [|lia]). rw Ef slot_low in Hroom; [lia|].
    destruct (Z.eqb_spec (addr di bn) 0) as [E|Hne].
    + destruct Hroom as [|[Hpot Hw]]; [done|]. pose proof (weight_size (fsb s) L di).
      assert (0 < length (free_list (fsb s) v))%nat by (rw /pot in Hpot; destruct (_ =? 0); lia).
      apply (fill_low v di L s1); [done|done|done|lia|done|done|lia|]. intros r s2 Hd Hu Ht H2.
      refine (HQ r _ _ _ s2 _ H2). apply took_bmapped; try done.
      * intros n. exact (inow_len _ _ _ _ _ n H1).
      * rw Ef slot_low //. lia.
      * by rw Ef.
      * rewrite addr_set; [apply Hok|lia|done|]. destruct (Z.eqb_spec NDIRECT bn); [lia|done].
      * destruct (data_pos c (fsb s) Hg r Hd) as [Hrp _]. pose proof (bblock_bm (fsb s) r ltac:(lia)). set_solver.
    + apply wp_ret, (HQ _ v di L); [|done]. apply bmapped_same; try done. rw Ef slot_low //. lia.
  - cbv zeta. destruct (Z.ltb_spec (bn - NDIRECT) NINDIRECT) as [Hn|Hn]; [|change MAXFILE with (NDIRECT + NINDIRECT) in Hbn; lia].
    assert (fslot bn = bn + 1) as Ef by (rw /fslot; by destruct (Z.ltb_spec bn NDIRECT); [lia|]).
    apply wp_bind, (prepare v di L s1); [done|done|done| |].
    { destruct Hroom as [Hs|[? ?]]; [left|right; split; [done|lia]]. intros E. apply Hs. rw Ef slot_high; [lia|]. by rw E. }
    intros v1 di1 L1 s2 Hp H2. apply (bmap_entry v di L v1 di1 L1); [done|done|lia| |done|done].
    pose proof (weight_size (fsb s) L1 di1). pose proof (size_logged (fsb s) L1). pose proof (pr_weight _ _ _ _ _ _ Hp).
    destruct (decide (addr di NDIRECT = 0)) as [E|Hne]; [|by destruct (pr_same _ _ _ _ _ _ Hp Hne) as (_&_&->)].
    destruct Hroom as [Hs|[? ?]]; [|lia]. destruct Hs. rw Ef slot_high; [lia|]. by rw E.
Qed.
End Ops.
