(* ===== verification/FsFiles.v ===== *)
(** * Contents of inodes (xv6/fs.c: readi, writei, iupdate).

    [contents] are the bytes of a file.  The theorems: [readi] returns the
    bytes of its range and changes nothing; [writei] replaces the bytes of its range, grows the file, allocates
    what it needs and touches no block of another file; the inode on disk follows. *)
From S2P Require Import Prelude Str Spinlock Sleeplock Layout Bio Log Txn Fs FsBlocks FsBmap.
Local Open Scope Z_scope.

Lemma u32_wraps off n : 0 ≤ off < 2 ^ 32 → 0 ≤ n < 2 ^ 32 → (u32 (off + n) <? off) = (2 ^ 32 <=? off + n).
Proof. intros Ho Hn. rw /u32. destruct (Z.leb_spec (2 ^ 32) (off + n)), (Z.ltb_spec ((off + n) mod 2 ^ 32) off); try done; Z.div_mod_to_equations; lia. Qed.

Lemma range_app lo mid hi : lo ≤ mid ≤ hi → range lo hi = range lo mid ++ range mid hi.
Proof.
  intros H. rw /range. replace (hi - lo) with ((mid - lo) + (hi - mid)) by lia. rw seqZ_app; [lia..|].
  do 2 f_equal. lia.
Qed.

(** ** Files and blocks that do not change *)

Section Frames.
Context (c : tconf) (sb : superblock).
Hypothesis Hg : geom c sb.
Implicit Types (v : Z → block) (di : dinode).

(** Two inodes that share no block. *)
Definition apart v di di2 : Prop :=
  ∀ j k, 0 ≤ j < NSLOT → 0 ≤ k < NSLOT → slot v di j ≠ 0 → slot v di j ≠ slot v di2 k.

Lemma file_frame v v' di :
  file_ok v sb di → (∀ b, is_data sb b → used v sb b = true → used v' sb b = true) →
  (∀ j, 0 ≤ j < NSLOT → slot v di j ≠ 0 → v' (slot v di j) = v (slot v di j)) →
  file_ok v' sb di ∧ (∀ j, 0 ≤ j < NSLOT → slot v' di j = slot v di j) ∧ (∀ bn, 0 ≤ bn < MAXFILE → fblock v' di bn = fblock v di bn).
Proof.
  intros Hok Hu Hv. assert (0 ≤ NDIRECT < NSLOT) as H12 by done.
  assert (∀ j, 0 ≤ j < NSLOT → slot v' di j = slot v di j) as Hs.
  { intros j Hj. destruct (Z.leb_spec j NDIRECT) as [Hlow|Hhigh]; [by rw !slot_low|]. rw !slot_high //.
    destruct (Z.eqb_spec (addr di NDIRECT) 0) as [|Hne]; [done|]. pose proof (Hv NDIRECT H12) as Hx. rw slot_low // in Hx. by rw Hx. }
  split_and!; [|done|].
  - destruct Hok as [Hlen Hdata Hinj Hsize Hdense]. split; try done.
    + intros j Hj. rw Hs //. intros Hj0. destruct (Hdata j Hj Hj0) as [Hx Hy]. split; [done|by apply Hu].
    + intros j k Hj Hk. rw !Hs //. by apply Hinj.
    + intros k Hk Hlt. rw Hs; [|by apply Hdense]. apply fslot_range. change BSIZE with 512 in *. lia.
  - intros bn Hbn. destruct (fslot_range bn Hbn) as [Hf _]. rw /fblock Hs //. destruct (Z.eqb_spec (slot v di (fslot bn)) 0); [done|]. by apply Hv.
Qed.

Lemma contents_ext v v' di : file_ok v sb di → (∀ bn, 0 ≤ bn < MAXFILE → fblock v' di bn = fblock v di bn) → contents v' di = contents v di.
Proof.
  intros Hok Hb. rw /contents. apply list_fmap_ext. intros k q Hq%list_elem_of_lookup_2%elem_of_range. rw /fbyte Hb //.
  pose proof (fo_size _ _ _ Hok). change BSIZE with 512 in *. change MAXFILE with 140 in *. Z.div_mod_to_equations; lia.
Qed.

(** What happens to one file leaves the files apart from it as they are, and apart. *)
Lemma evolves_others v di v' di' di2 :
  evolves sb v di v' di' → file_ok v sb di → file_ok v sb di2 → apart v di di2 →
  file_ok v' sb di2 ∧ apart v' di' di2 ∧ (∀ bn, 0 ≤ bn < MAXFILE → fblock v' di2 bn = fblock v di2 bn).
Proof.
  intros Hev Hok Hok2 Ha. assert (∀ j, 0 ≤ j < NSLOT → slot v di2 j ≠ 0 → v' (slot v di2 j) = v (slot v di2 j)) as Hv.
  { intros j Hj H0. destruct (fo_data _ _ _ Hok2 j Hj H0) as [Hd Hu]. apply (ev_frame _ _ _ _ _ Hev); [by apply (data_pos c sb Hg)|done|].
    intros k Hk E _. by apply (Ha k j Hk Hj); rewrite E. }
  destruct (file_frame v v' di2 Hok2) as (Hok'&Hs&Hb); [|done|].
  { intros b Hb Hu. apply (ev_used _ _ _ _ _ Hev b Hb). by left. }
  split_and!; [done| |done]. intros j k Hj Hk H0 E. rw Hs // in E.
  destruct (ev_new _ _ _ _ _ Hev j Hj) as [En|[Hd En]]; [apply (Ha j k Hj Hk); congruence|].
  rw E in En, H0. destruct (fo_data _ _ _ Hok2 k Hk H0). congruence.
Qed.

(** *** The blocks of inodes *)

(** The blocks after inode [inum] is written to disk. *)
Definition inode_view v (inum : Z) di : Z → block :=
  upd v (IBLOCK inum sb) (splice (ioff inum) (put_dinode di) (v (IBLOCK inum sb))).

Lemma iblock_range inum : 0 ≤ inum < sb_ninodes sb → sb_inodestart sb ≤ IBLOCK inum sb < sb_bmapstart sb.
Proof. intros Hi. rw /IBLOCK. pose proof (g_bmap _ _ Hg). change IPB with 8 in *. Z.div_mod_to_equations; lia. Qed.

Lemma iblock_other inum b : 0 ≤ inum < sb_ninodes sb → is_data sb b ∨ b ∈ bm sb → b ≠ IBLOCK inum sb.
Proof.
  intros Hi Hb ->. pose proof (iblock_range inum Hi). assert (sb_bmapstart sb ≤ IBLOCK inum sb); [|lia].
  destruct Hb as [[Hd ?]|Hb%elem_bm]; [|lia]. pose proof (size_pos c sb Hg). rw /dstart in Hd.
  assert (0 ≤ sb_size sb / BPB) by (apply Z.div_pos; [lia|done]). lia.
Qed.

Lemma inode_view_used v inum di b : 0 ≤ inum < sb_ninodes sb → 0 ≤ b < sb_size sb → used (inode_view v inum di) sb b = used v sb b.
Proof. intros Hi Hb. rw /used /inode_view upd_ne //. apply iblock_other; [done|]. right. by apply bblock_bm. Qed.

Lemma inode_view_file v inum di di2 :
  0 ≤ inum < sb_ninodes sb → file_ok v sb di2 →
  file_ok (inode_view v inum di) sb di2 ∧ (∀ j, 0 ≤ j < NSLOT → slot (inode_view v inum di) di2 j = slot v di2 j) ∧
  (∀ bn, 0 ≤ bn < MAXFILE → fblock (inode_view v inum di) di2 bn = fblock v di2 bn).
Proof.
  intros Hi Hok. apply file_frame; [done| |].
  - intros b Hb Hu. rw inode_view_used //. apply (data_pos c sb Hg) in Hb. lia.
  - intros j Hj H0. destruct (fo_data _ _ _ Hok j Hj H0) as [Hd _]. rw /inode_view upd_ne //. apply iblock_other; auto.
Qed.

Lemma ioff_room inum : 0 ≤ inum → (ioff inum + DINODE ≤ Z.to_nat BSIZE)%nat.
Proof.
  intros Hi. rw /ioff. pose proof (Z.mod_pos_bound inum IPB ltac:(done)). change IPB with 8 in *. change (Z.to_nat BSIZE) with 512%nat.
  change DINODE with 64%nat. lia.
Qed.

Lemma disk_inode_view v inum di n :
  0 ≤ inum → 0 ≤ n → dinode_ok di → (∀ b, length (v b) = Z.to_nat BSIZE) →
  disk_inode (inode_view v inum di (IBLOCK n sb)) n = if n =? inum then di else disk_inode (v (IBLOCK n sb)) n.
Proof.
  intros Hi Hn Hdi Hlen. pose proof (ioff_room inum Hi) as Hr. pose proof (length_put_dinode di (dk_len _ Hdi)) as Hl.
  rw /disk_inode /inode_view /upd. destruct (Z.eqb_spec n inum) as [->|Hne].
  - rewrite decide_True // -Hl slice_splice_eq; [rewrite Hl Hlen; lia|]. by apply get_put_dinode.
  - case_decide as E; [|done]. rewrite E slice_splice_ne //; rewrite Hl; [rewrite Hlen; lia|].
    rw /IBLOCK /ioff in E |- *. change IPB with 8 in *. change DINODE with 64%nat. Z.div_mod_to_equations; lia.
Qed.

(** The other fields of an inode fit their two bytes. *)
Definition shorts di : Prop :=
  Forall (λ x, - 2 ^ 15 ≤ x < 2 ^ 15) [di_type di; di_major di; di_minor di; di_nlink di].

Lemma file_dinode_ok v di : file_ok v sb di → shorts di → dinode_ok di.
Proof.
  intros Hok Hs. rw /shorts !Forall_cons in Hs. destruct Hs as (?&?&?&?&_). pose proof (fo_size _ _ _ Hok) as Hsz.
  change (MAXFILE * BSIZE) with 71680 in Hsz. pose proof (fo_len _ _ _ Hok) as Hl. split; [done..|lia|done|].
  apply Forall_lookup. intros k a Ha. pose proof (lookup_lt_Some _ _ _ Ha) as Hk.
  assert (slot v di (Z.of_nat k) = a) as E.
  { rw slot_low; [change NDIRECT with 12; lia|]. rw /addr Nat2Z.id Ha. done. }
  destruct (decide (a = 0)) as [->|Hne]; [lia|]. rewrite -E in Hne.
  destruct (fo_data _ _ _ Hok (Z.of_nat k)) as [[Hd1 Hd2] _]; [change NSLOT with 141; lia|done|].
  rewrite E in Hd1, Hd2. destruct (dstart_pos c sb Hg). destruct Hg. lia.
Qed.

(** *** Contents *)

Lemma length_file_contents v di : length (contents v di) = Z.to_nat (di_size di).
Proof. rw /contents length_fmap /range length_seqZ. lia. Qed.

Lemma contents_slice v di off n : 0 ≤ off → 0 ≤ n → off + n ≤ di_size di →
  slice (Z.to_nat off) (Z.to_nat n) (contents v di) = fbyte v di <$> range off (off + n).
Proof.
  intros Ho Hn Hs. rw /contents (range_app 0 off (di_size di)); [lia|]. rw (range_app off (off + n)); [lia|].
  rw !fmap_app /slice drop_app_length'; [rw length_fmap /range length_seqZ; lia|].
  rw take_app_length'; [rw length_fmap /range length_seqZ; lia|done].
Qed.

(** Bytes replaced in the range of [src], with the size of the file the larger of the two ends. *)
Lemma contents_replace v di v' di' off (src : list Z) :
  0 ≤ off ≤ di_size di → di_size di' = Z.max (di_size di) (off + Z.of_nat (length src)) →
  (∀ q, 0 ≤ q < di_size di' →
    fbyte v' di' q = if (off <=? q) && (q <? off + Z.of_nat (length src)) then default 0 (src !! Z.to_nat (q - off)) else fbyte v di q) →
  contents v' di' = take (Z.to_nat off) (contents v di) ++ src ++ drop (Z.to_nat off + length src) (contents v di).
Proof.
  intros Ho Hs Hb. set (n := Z.of_nat (length src)) in *. rw {1}/contents (range_app 0 off); [lia|]. rw (range_app off (off + n)); [lia|].
  rw !fmap_app. f_equal; [|f_equal].
  - rw /contents (range_app 0 off (di_size di)); [lia|]. rw fmap_app take_app_length'; [rw length_fmap /range length_seqZ; lia|].
    apply list_fmap_ext. intros k q Hq%list_elem_of_lookup_2%elem_of_range. rw Hb; [lia|]. destruct (Z.leb_spec off q); [lia|done].
  - apply list_eq. intros k. rw list_lookup_fmap /range. destruct (decide (k < length src)%nat) as [Hk|Hk].
    + rw lookup_seqZ_lt; [lia|]. simpl. rw Hb; [lia|]. destruct (Z.leb_spec off (off + Z.of_nat k)), (Z.ltb_spec (off + Z.of_nat k) (off + n)); try lia.
      simpl. replace (Z.to_nat _) with k by lia. destruct (lookup_lt_is_Some_2 src k Hk) as [x ->]. done.
    + rw lookup_seqZ_ge; [lia|]. symmetry. apply lookup_ge_None. lia.
  - destruct (Z.leb_spec (di_size di) (off + n)) as [Hge|Hlt].
    + rw Hs Z.max_r // range_nil; [lia|]. symmetry. apply drop_ge. rw length_file_contents. lia.
    + rw Hs Z.max_l; [lia|]. rw /contents (range_app 0 (off + n) (di_size di)); [lia|]. rw fmap_app drop_app_length'; [rw length_fmap /range length_seqZ; lia|].
      apply list_fmap_ext. intros k q Hq%list_elem_of_lookup_2%elem_of_range. rw Hb; [lia|]. destruct (Z.ltb_spec q (off + n)); [lia|by rw andb_false_r].
Qed.
End Frames.

(** ** Operations *)

Section Files.
Context {T : Type} `{!Txn T}.
Context (s : fsys T) (ip : nat) (i : inode) (c : tconf).
Hypothesis Hg : geom c (fsb s).
Hypothesis Hip : finodes s !! ip = Some i.
Hypothesis Hdev : i_dev i = 1.
Notation inow := (inow s ip i c).

(** *** Bytes of a block *)

Lemma fblock_len v di h L s1 bn : inow v di h L s1 → length (fblock v di bn) = Z.to_nat BSIZE.
Proof. intros H. rw /fblock. destruct (_ =? 0); [done|]. exact (inow_len s ip i c _ _ _ _ _ _ H). Qed.

Lemma block_bytes v di off m :
  0 ≤ off → 0 ≤ m ≤ BSIZE - off mod BSIZE → length (fblock v di (off / BSIZE)) = Z.to_nat BSIZE →
  slice (Z.to_nat (off mod BSIZE)) (Z.to_nat m) (fblock v di (off / BSIZE)) = fbyte v di <$> range off (off + m).
Proof.
  intros Ho Hm Hl. change BSIZE with 512 in *. pose proof (Z.mod_pos_bound off 512 ltac:(lia)).
  apply list_eq. intros k. rw list_lookup_fmap /range. destruct (decide (k < Z.to_nat m)%nat) as [Hk|Hk].
  - rw lookup_seqZ_lt; [lia|]. rw lookup_slice. case_decide; [|lia]. simpl. rw /fbyte. change BSIZE with 512.
    replace ((off + Z.of_nat k) / 512) with (off / 512) by (Z.div_mod_to_equations; lia).
    replace (Z.to_nat ((off + Z.of_nat k) mod 512)) with (Z.to_nat (off mod 512) + k)%nat by (Z.div_mod_to_equations; lia).
    destruct (lookup_lt_is_Some_2 (fblock v di (off / 512)) (Z.to_nat (off mod 512) + k)) as [x E]; [rw Hl; lia|]. by rewrite E.
  - rw lookup_seqZ_ge; [lia|]. rw lookup_slice. case_decide; [lia|done].
Qed.

(** *** Reading *)

Lemma readi_loop_wp v di L s1 fuel off left (Q : list Z → fsys T → Prop) :
  inow v di ∅ L s1 → file_ok v (fsb s) di → meta_used v (fsb s) → (size L ≤ 28)%nat →
  0 ≤ off → off + left ≤ di_size di → 0 ≤ left < Z.of_nat fuel →
  (∀ s2, inow v di ∅ L s2 → Q (fbyte v di <$> range off (off + left)) s2) →
  wp (readi_loop fuel ip off left) s1 Q.
Proof.
  intros H1 Hok Hm HL. revert off left s1 Q H1. induction fuel as [|fuel IH]; intros off left s1 Q H1 Ho Hs Hf HQ; [lia|].
  cbn [readi_loop]. destruct (Z.leb_spec left 0) as [Hz|Hpos].
  { apply wp_ret. replace (range off (off + left)) with (@nil Z) in HQ by (symmetry; apply range_nil; lia). by apply HQ. }
  apply wp_bind, (wp_inode s ip i c Hip v di ∅ L s1 _ H1). cbn [i_dev set_din]. rw Hdev.
  set (bn := off / BSIZE). pose proof (fo_size _ _ _ Hok) as Hsz.
  assert (0 ≤ bn < MAXFILE ∧ bn * BSIZE < di_size di) as [Hbn Hb1] by (rw /bn; change BSIZE with 512 in *; change MAXFILE with 140 in *; Z.div_mod_to_equations; lia).
  pose proof (fo_dense _ _ _ Hok bn ltac:(lia) Hb1) as Hslot.
  apply wp_bind, (bmap_wp s ip i c Hg Hip Hdev v di L s1 bn); [done..|by left|].
  intros r v' di' L' s2 Hb H2. destruct (bp_same _ _ _ _ _ _ _ _ _ Hb Hslot) as (->&->&->).
  pose proof (bp_slot _ _ _ _ _ _ _ _ _ Hb) as Er. pose proof (bp_pos _ _ _ _ _ _ _ _ _ Hb) as Hr0.
  assert (0 ≤ fslot bn < NSLOT) as Hfs by (by apply fslot_range).
  destruct (fo_data _ _ _ Hok _ Hfs Hslot) as [Hd Hu]. rw Er in Hd. destruct (data_pos c (fsb s) Hg r Hd) as [Hrp _]. pose proof (g_size _ _ Hg).
  apply wp_bind, (f_bread _ c v ∅ L s2 r _ H2); [lia|rw hblocks_empty; set_solver|by apply calm_room, calm_empty|].
  intros bp s3 Hbp H3. cbv zeta. set (m := Z.min left (BSIZE - off mod BSIZE)).
  assert (0 < m ≤ left ∧ m ≤ BSIZE - off mod BSIZE) as [Hm1 Hm2].
  { pose proof (Z.mod_pos_bound off BSIZE ltac:(done)). lia. }
  apply wp_bind. eapply f_bdata; [exact H3|apply lookup_insert_eq|].
  apply wp_bind. eapply f_brelse; [exact H3|apply lookup_insert_eq|]. intros s4 H4. rw delete_insert_id // in H4.
  apply wp_bind, (IH (off + m) (left - m)); [done|lia..|]. intros s5 H5. apply wp_ret.
  assert (fblock v di bn = v r) as Eb by (rw /fblock Er; destruct (Z.eqb_spec r 0); done).
  rewrite -Eb block_bytes; [lia..|exact (fblock_len v di ∅ L s1 bn H1)|]. rewrite -fmap_app.
  replace (off + m + (left - m)) with (off + left) by lia. rewrite -range_app; [lia|]. by apply HQ.
Qed.

(** *** Writing a block of the file *)

Lemma slot_write v di bn d j :
  file_ok v (fsb s) di → 0 ≤ bn < MAXFILE → slot v di (fslot bn) ≠ 0 → 0 ≤ j < NSLOT →
  slot (upd v (slot v di (fslot bn)) d) di j = slot v di j.
Proof.
  intros Hok Hbn H0 Hj. destruct (fslot_range bn Hbn) as [Hf Hf12]. destruct (Z.leb_spec j NDIRECT) as [Hlow|Hhigh]; [by rw !slot_low|].
  rw (slot_high _ _ j) // (slot_high v _ j) //. destruct (Z.eqb_spec (addr di NDIRECT) 0); [done|]. rw upd_ne //. intros E. apply Hf12.
  apply (fo_inj _ _ _ Hok); [done..|]. rewrite (slot_low v di NDIRECT); [done|]. congruence.
Qed.

Lemma used_write v di bn d b :
  file_ok v (fsb s) di → 0 ≤ bn < MAXFILE → slot v di (fslot bn) ≠ 0 → 0 ≤ b < sb_size (fsb s) →
  used (upd v (slot v di (fslot bn)) d) (fsb s) b = used v (fsb s) b.
Proof.
  intros Hok Hbn H0 Hb. destruct (fslot_range bn Hbn) as [Hf _]. destruct (fo_data _ _ _ Hok _ Hf H0) as [Hd _].
  rw /used upd_ne //. intros E. apply (data_pos c (fsb s) Hg) in Hd as [_ Hn]. apply Hn. rw -E. by apply bblock_bm.
Qed.

Lemma free_list_ext sb v v' :
  (∀ b, 0 ≤ b < sb_size sb → used v' sb b = used v sb b) → free_list sb v' = free_list sb v.
Proof.
  intros H. rw /free_list.
  assert (∀ b, b ∈ range 0 (sb_size sb) → used v' sb b = used v sb b) as Hr by (intros b Hb%elem_of_range; by apply H).
  clear H. induction (range 0 (sb_size sb)) as [|b l IH]; [done|]. rw !filter_cons IH; [intros b' Hb'; apply Hr; by right|].
  rw Hr; [by left|done].
Qed.

Lemma write_ok v di bn d :
  file_ok v (fsb s) di → 0 ≤ bn < MAXFILE → slot v di (fslot bn) ≠ 0 →
  let v' := upd v (slot v di (fslot bn)) d in
  file_ok v' (fsb s) di ∧ evolves (fsb s) v di v' di ∧ (meta_used v (fsb s) → meta_used v' (fsb s)) ∧
  pot (fsb s) v' di = pot (fsb s) v di ∧
  (∀ k, 0 ≤ k < MAXFILE → fblock v' di k = if k =? bn then d else fblock v di k).
Proof.
  intros Hok Hbn H0 v'. destruct (fslot_range bn Hbn) as [Hf Hf12]. destruct (fo_data _ _ _ Hok _ Hf H0) as [Hd Hu].
  assert (∀ j, 0 ≤ j < NSLOT → slot v' di j = slot v di j) as Hs by (intros j Hj; by apply slot_write).
  assert (∀ b, 0 ≤ b < sb_size (fsb s) → used v' (fsb s) b = used v (fsb s) b) as Hus by (intros b Hb; by apply used_write).
  assert (∀ b, is_data (fsb s) b → 0 < b < sb_size (fsb s)) as Hp by (intros b Hb; by apply (data_pos c (fsb s) Hg)).
  split_and!.
  - destruct Hok as [Hlen Hdata Hinj Hsize Hdense]. split; try done.
    + intros j Hj. rw Hs //. intros Hj0. destruct (Hdata j Hj Hj0) as [Hx Hy]. split; [done|]. rw Hus //. specialize (Hp _ Hx). lia.
    + intros j k Hj Hk. rw !Hs //. by apply Hinj.
    + intros k Hk Hlt. rw Hs; [|by apply Hdense]. apply fslot_range. change BSIZE with 512 in *. lia.
  - split; try done.
    + intros j Hj _. by apply Hs.
    + intros j Hj. left. by apply Hs.
    + intros b Hb. rw Hus; [specialize (Hp b Hb); lia|]. split; [by left|]. intros [|(j&Hj&<-)]; [done|]. rw Hs // in Hb |- *.
      apply (fo_data _ _ _ Hok j Hj). specialize (Hp _ Hb). lia.
    + intros n Hn Hun Hsl. rw /v' upd_ne //. intros ->. by apply (Hsl _ Hf eq_refl).
  - intros Hm b Hb. destruct Hg. rw Hus; [lia|]. by apply Hm.
  - rw /pot. do 2 f_equal. by apply free_list_ext.
  - intros k Hk. destruct (fslot_range k Hk) as [Hfk _]. rw /fblock Hs //. destruct (Z.eqb_spec k bn) as [->|Hne].
    + destruct (Z.eqb_spec (slot v di (fslot bn)) 0); [done|]. by rw /v' upd_eq.
    + destruct (Z.eqb_spec (slot v di (fslot k)) 0); [done|]. rw /v' upd_ne //. intros E. apply Hne, fslot_inj.
      by apply (fo_inj _ _ _ Hok).
Qed.

(** *** Writing *)

(** The blocks of the file that [left] bytes from [off] touch. *)
Definition rounds (off left : Z) : nat :=
  if left <=? 0 then 0%nat else Z.to_nat ((off + left - 1) / BSIZE - off / BSIZE + 1).

Lemma rounds_step off left m :
  0 ≤ off → 0 < left → m = Z.min left (BSIZE - off mod BSIZE) → rounds off left = S (rounds (off + m) (left - m)).
Proof.
  intros Ho Hl ->. rw /rounds. change BSIZE with 512. pose proof (Z.mod_pos_bound off 512 ltac:(lia)).
  destruct (Z.leb_spec left 0); [lia|]. destruct (Z.leb_spec (left - Z.min left (512 - off mod 512)) 0).
  - assert ((off + left - 1) / 512 = off / 512) as -> by (Z.div_mod_to_equations; lia). lia.
  - rw Z.min_r; [lia|]. replace (off + (512 - off mod 512) + (left - (512 - off mod 512)) - 1) with (off + left - 1) by lia.
    assert ((off + (512 - off mod 512)) / 512 = off / 512 + 1) as -> by (Z.div_mod_to_equations; lia).
    assert (off / 512 + 1 ≤ (off + left - 1) / 512) by (Z.div_mod_to_equations; lia). lia.
Qed.

(** The blocks of [n] bytes from [off] are there. *)
Definition present v di (off n : Z) : Prop := ∀ bn, off / BSIZE ≤ bn → bn * BSIZE < off + n → slot v di (fslot bn) ≠ 0.

Lemma present_step v di v1 di1 off left m :
  evolves (fsb s) v di v1 di1 → 0 ≤ off → off + left ≤ MAXFILE * BSIZE → 0 ≤ m → present v di off left → present v1 di1 (off + m) (left - m).
Proof.
  intros Hev Ho Hmax Hm Hp bn Hbn Hlt.
  assert (slot v di (fslot bn) ≠ 0) as Hs; [apply Hp; [|lia]; etrans; [|exact Hbn]; apply Z.div_le_mono; [done|lia]|].
  assert (0 ≤ fslot bn < NSLOT) as Hfs.
  { apply fslot_range. change BSIZE with 512 in *. change MAXFILE with 140 in *. Z.div_mod_to_equations; lia. }
  by rewrite (ev_keep _ _ _ _ _ Hev).
Qed.

(** What a write of the bytes [src] at [off] leaves. *)
Record written v di (L : gset Z) off (src : list Z) v' di' (L' : gset Z) : Prop := {
  wr_ok : file_ok v' (fsb s) di';
  wr_meta : meta_used v' (fsb s);
  wr_ev : evolves (fsb s) v di v' di';
  wr_byte : ∀ q, 0 ≤ q < MAXFILE * BSIZE →
    fbyte v' di' q = if (off <=? q) && (q <? off + Z.of_nat (length src)) then default 0 (src !! Z.to_nat (q - off)) else fbyte v di q;
  wr_slots : src ≠ [] → present v' di' off (Z.of_nat (length src));
  wr_same : present v di off (Z.of_nat (length src)) → di' = di;
  wr_weight : (weight (fsb s) L' di' ≤ rounds off (Z.of_nat (length src)) + weight (fsb s) L di)%nat
}.

(** One block of a write: [bmap] and the copy into the block. *)
Record wrote v di L off (src : list Z) v' di' L' : Prop := {
  wo_ok : file_ok v' (fsb s) di';
  wo_meta : meta_used v' (fsb s);
  wo_ev : evolves (fsb s) v di v' di';
  wo_byte : ∀ q, 0 ≤ q < MAXFILE * BSIZE →
    fbyte v' di' q = if (off <=? q) && (q <? off + Z.of_nat (length src)) then default 0 (src !! Z.to_nat (q - off)) else fbyte v di q;
  wo_slot : slot v' di' (fslot (off / BSIZE)) ≠ 0;
  wo_same : slot v di (fslot (off / BSIZE)) ≠ 0 → di' = di;
  wo_weight : (weight (fsb s) L' di' ≤ S (weight (fsb s) L di))%nat;
  wo_pot : (pot (fsb s) v di ≤ S (pot (fsb s) v' di'))%nat
}.

Lemma splice_byte v di v' di' off (src : list Z) :
  0 ≤ off → off mod BSIZE + Z.of_nat (length src) ≤ BSIZE →
  (∀ k, 0 ≤ k < MAXFILE → length (fblock v di k) = Z.to_nat BSIZE) →
  (∀ k, 0 ≤ k < MAXFILE → fblock v' di' k =
    if k =? off / BSIZE then splice (Z.to_nat (off mod BSIZE)) src (fblock v di k) else fblock v di k) →
  ∀ q, 0 ≤ q < MAXFILE * BSIZE →
    fbyte v' di' q = if (off <=? q) && (q <? off + Z.of_nat (length src)) then default 0 (src !! Z.to_nat (q - off)) else fbyte v di q.
Proof.
  intros Ho Hl Hlen Hb q Hq. rw /fbyte. change BSIZE with 512 in *. change MAXFILE with 140 in *.
  assert (0 ≤ q / 512 < 140) as Hq1 by (Z.div_mod_to_equations; lia). rw Hb //. specialize (Hlen _ Hq1).
  pose proof (Z.mod_pos_bound off 512 ltac:(lia)). pose proof (Z.mod_pos_bound q 512 ltac:(lia)).
  destruct (Z.eqb_spec (q / 512) (off / 512)) as [E|Hne].
  - rw lookup_splice; [rw Hlen; lia|]. case_decide.
    + destruct (Z.leb_spec off q), (Z.ltb_spec q (off + Z.of_nat (length src))); simpl; try (Z.div_mod_to_equations; lia).
      do 2 f_equal. Z.div_mod_to_equations; lia.
    + destruct (Z.leb_spec off q), (Z.ltb_spec q (off + Z.of_nat (length src))); simpl; try done. Z.div_mod_to_equations; lia.
  - destruct (Z.leb_spec off q), (Z.ltb_spec q (off + Z.of_nat (length src))); simpl; try done. Z.div_mod_to_equations; lia.
Qed.

Lemma write_block_wp {A} v di L s1 off src (k : K (fsys T) A) (Q : A → fsys T → Prop) :
  inow v di ∅ L s1 → file_ok v (fsb s) di → meta_used v (fsb s) →
  0 ≤ off → off / BSIZE < MAXFILE → off mod BSIZE + Z.of_nat (length src) ≤ BSIZE →
  (weight (fsb s) L di + 2 ≤ 28)%nat → (slot v di (fslot (off / BSIZE)) ≠ 0 ∨ (2 ≤ pot (fsb s) v di)%nat) →
  (∀ v' di' L' s2, wrote v di L off src v' di' L' → inow v' di' ∅ L' s2 → wp k s2 Q) →
  wp (i ← inode_at ip; b ← bmap ip (off / BSIZE); bp ← intx (t_bread (i_dev i) b); d ← intx (t_bdata bp);
      _ ← intx (t_bset bp (splice (Z.to_nat (off mod BSIZE)) src d)); _ ← intx (t_log_write bp); _ ← intx (t_brelse bp); k) s1 Q.
Proof.
  intros H1 Hok Hm Ho Hb Hl Hw Hp HQ. apply wp_bind, (wp_inode s ip i c Hip v di ∅ L s1 _ H1). cbn [i_dev set_din]. rw Hdev.
  set (bn := off / BSIZE) in *. assert (0 ≤ bn < MAXFILE) as Hbn by (split; [by apply Z.div_pos|done]).
  pose proof (size_logged (fsb s) L) as Hw1. pose proof (weight_size (fsb s) L di) as Hw2.
  apply wp_bind, (bmap_wp s ip i c Hg Hip Hdev v di L s1 bn); [done..|lia|destruct Hp; [by left|by right]|].
  intros r v1 di1 L1 s2 [Bok Bm Bev Bs Bpos Bb Bpot Bw Bsame] H2. destruct (fslot_range bn Hbn) as [Hfs _].
  assert (slot v1 di1 (fslot bn) ≠ 0) as Hs by (by rw Bs). destruct (fo_data _ _ _ Bok _ Hfs Hs) as [Hd _]. rw Bs in Hd.
  destruct (data_pos c (fsb s) Hg r Hd) as [Hrp Hrb]. pose proof (g_size _ _ Hg) as Hgs. pose proof (g_cap _ _ Hg) as Hgc.
  assert (size L1 ≤ 27)%nat as HL1.
  { pose proof (weight_size (fsb s) ({[r]} ∪ L1) di1). assert (size L1 ≤ size ({[r]} ∪ L1 ∪ bm (fsb s)))%nat by (apply subseteq_size; set_solver). lia. }
  apply wp_bind, (f_bread _ c v1 ∅ L1 s2 r _ H2); [lia|rw hblocks_empty; set_solver|apply calm_room, calm_empty; lia|].
  intros bp s3 Hbp H3. apply wp_bind. eapply f_bdata; [exact H3|apply lookup_insert_eq|].
  assert (∀ n, length (v1 n) = Z.to_nat BSIZE) as Hv by (intros n; exact (inow_len s ip i c _ _ _ _ _ _ H2)).
  pose proof (Z.mod_pos_bound off BSIZE ltac:(done)) as Hmod.
  eapply f_finish; [exact H3|done| | |lia|].
  - rewrite length_splice; rewrite Hv //. change BSIZE with 512 in *. lia.
  - apply (g_home _ _ Hg). destruct (dstart_pos c _ Hg), Hd. destruct Hg. lia.
  - intros s4 H4. destruct (write_ok v1 di1 bn (splice (Z.to_nat (off mod BSIZE)) src (v1 r)) Bok Hbn Hs) as (Wok&Wev&Wm&Wp&Wb).
    rw Bs in Wok, Wev, Wm, Wp, Wb. refine (HQ _ di1 _ s4 _ H4). split; [done|by apply Wm|exact (evolves_trans c _ Hg _ _ _ _ _ _ Bev Wev)| | |intros Hx; by apply Bsame|done|lia].
    + apply splice_byte; [done|done| |].
      * intros q _. exact (fblock_len v di ∅ L s1 q H1).
      * intros q Hq. rewrite Wb //. rewrite Bb //. fold bn. destruct (Z.eqb_spec q bn) as [->|]; [|done].
        do 2 f_equal. rw -Bb //. rw /fblock Bs. destruct (Z.eqb_spec r 0); done.
    + fold bn. rewrite (ev_keep _ _ _ _ _ Wev) //.
Qed.

Lemma writei_loop_wp v di L s1 fuel off src (Q : Z → fsys T → Prop) :
  inow v di ∅ L s1 → file_ok v (fsb s) di → meta_used v (fsb s) →
  0 ≤ off → off + Z.of_nat (length src) ≤ MAXFILE * BSIZE → (length src < fuel)%nat →
  (weight (fsb s) L di + rounds off (Z.of_nat (length src)) + 1 ≤ 28)%nat →
  (present v di off (Z.of_nat (length src)) ∨
   (rounds off (Z.of_nat (length src)) + 1 ≤ pot (fsb s) v di)%nat) →
  (∀ v' di' L' s2, written v di L off src v' di' L' → inow v' di' ∅ L' s2 → Q (off + Z.of_nat (length src)) s2) →
  wp (writei_loop fuel ip src off (Z.of_nat (length src))) s1 Q.
Proof.
  revert v di L s1 off src Q. induction fuel as [|fuel IH]; intros v di L s1 off src Q H1 Hok Hm Ho Hmax Hf Hw Hp HQ; [lia|].
  cbn [writei_loop]. set (left := Z.of_nat (length src)) in *. destruct (Z.leb_spec left 0) as [Hz|Hpos].
  { apply wp_ret. replace off with (off + left) by lia. apply (HQ v di L s1); [|done]. destruct src; [|simpl in *; lia].
    split; [done|done|by apply (evolves_refl c)| | |done|]; simpl.
    - intros q Hq. destruct (Z.leb_spec off q), (Z.ltb_spec q (off + Z.of_nat 0)); done || lia.
    - done.
    - rw /rounds /=. lia. }
  cbv zeta. set (m := Z.min left (BSIZE - off mod BSIZE)). pose proof (Z.mod_pos_bound off BSIZE ltac:(done)).
  rewrite (rounds_step off left m) // in Hw, Hp.
  assert (Z.of_nat (length (take (Z.to_nat m) src)) = m) as Em by (rw length_take; lia).
  assert (Z.of_nat (length (drop (Z.to_nat m) src)) = left - m) as Ed by (rw length_drop; lia).
  apply (write_block_wp v di L s1 off (take (Z.to_nat m) src)); [done..| |lia|lia| |].
  { change BSIZE with 512 in *. change MAXFILE with 140 in *. Z.div_mod_to_equations; lia. }
  { destruct Hp as [Hp|Hp]; [left|right; lia]. apply Hp; [lia|]. change BSIZE with 512 in *. Z.div_mod_to_equations; lia. }
  intros v1 di1 L1 s2 [Ok1 M1 Ev1 By1 Sl1 Sa1 We1 Po1] H2. rewrite -Ed.
  apply (IH v1 di1 L1 s2 (off + m) (drop (Z.to_nat m) src)); rewrite ?Ed; [done..|lia|lia|rewrite length_drop; lia|lia| |].
  - destruct Hp as [Hp|Hp]; [left|right; lia]. apply (present_step v di); [done..|lia|done].
  - intros v2 di2 L2 s3 [Ok2 M2 Ev2 By2 Sl2 Sa2 We2] H3. replace (off + m + (left - m)) with (off + left) by lia.
    apply (HQ v2 di2 L2 s3); [|done]. rw Ed in By2, Sl2, Sa2, We2. rw Em in By1. split; [done|done|exact (evolves_trans c _ Hg _ _ _ _ _ _ Ev1 Ev2)| | | |].
    + intros q Hq. rewrite By2 // By1 //. fold left. rewrite lookup_drop.
      destruct (Z.leb_spec (off + m) q), (Z.ltb_spec q (off + m + (left - m))), (Z.leb_spec off q), (Z.ltb_spec q (off + left)), (Z.ltb_spec q (off + m));
        simpl; try lia; try done.
      * do 2 f_equal. lia.
      * rewrite lookup_take_lt; [lia|done].
    + intros _ bn Hbn Hlt. destruct (decide (bn = off / BSIZE)) as [->|Hne].
      * assert (0 ≤ fslot (off / BSIZE) < NSLOT) as Hfs.
        { apply fslot_range. change BSIZE with 512 in *. change MAXFILE with 140 in *. Z.div_mod_to_equations; lia. }
        rewrite (ev_keep _ _ _ _ _ Ev2) //.
      * apply Sl2; [| |lia]; change BSIZE with 512 in *; [|Z.div_mod_to_equations; lia].
        intros E. rewrite E in Ed. simpl in Ed. fold left in Hlt. Z.div_mod_to_equations; lia.
    + intros Hall. fold left in Hall. assert (off / BSIZE * BSIZE < off + left) as Hlt by (change BSIZE with 512 in *; Z.div_mod_to_equations; lia).
      rewrite Sa2; [|apply Sa1, Hall; [lia|done]]. apply (present_step v di); [done..|lia|done].
    + fold left. rewrite (rounds_step off left m) //. lia.
Qed.

(** *** iupdate *)

Lemma iupdate_wp v di L s1 (Q : unit → fsys T → Prop) :
  inow v di ∅ L s1 → 0 ≤ i_inum i < sb_ninodes (fsb s) → length (di_addrs di) = 13%nat → (size L ≤ 27)%nat →
  (∀ s2, inow (inode_view (fsb s) v (i_inum i) di) di ∅ ({[IBLOCK (i_inum i) (fsb s)]} ∪ L) s2 → Q tt s2) →
  wp (iupdate ip) s1 Q.
Proof.
  intros H1 Hi Hl HL HQ. rw /iupdate. apply wp_bind, wp_gets.
  assert (fsb s1 = fsb s) as -> by (by destruct H1 as (t&->&_)).
  apply wp_bind, (wp_inode s ip i c Hip v di ∅ L s1 _ H1). cbn [i_dev i_inum i_din set_din]. rw Hdev.
  pose proof (iblock_range c _ Hg _ Hi) as Hib. pose proof (dstart_pos c _ Hg) as Hds.
  assert (sb_bmapstart (fsb s) ≤ sb_size (fsb s)) as Hbs.
  { pose proof (g_data _ _ Hg). pose proof (size_pos c _ Hg). rw /dstart in H. assert (0 ≤ sb_size (fsb s) / BPB) by (apply Z.div_pos; [lia|done]). lia. }
  pose proof (g_size _ _ Hg) as Hgs. pose proof (g_cap _ _ Hg) as Hgc. pose proof (g_istart _ _ Hg) as Hgi.
  apply wp_bind, (f_bread _ c v ∅ L s1 _ _ H1); [lia|rw hblocks_empty; set_solver|apply calm_room, calm_empty; lia|].
  intros bp s2 Hbp H2. apply wp_bind. eapply f_bdata; [exact H2|apply lookup_insert_eq|].
  eapply f_finish_last; [exact H2|done| | |lia|].
  - rewrite length_splice; [|exact (inow_len s ip i c _ _ _ _ _ _ H1)].
    rewrite (length_put_dinode di Hl) (inow_len s ip i c _ _ _ _ _ _ H1). apply ioff_room. lia.
  - apply (g_home _ _ Hg). lia.
  - intros s3 H3. apply HQ. exact H3.
Qed.

(** *** readi *)

Section Devices.
Context (dev_read : Z → option (nat → Z → K (fsys T) (Z * list Z))).

Definition read_result v di off n : Z * list Z :=
  if (di_size di <? off) || (2 ^ 32 <=? off + n) then (-1, [])
  else let bytes := slice (Z.to_nat off) (Z.to_nat n) (contents v di) in (Z.of_nat (length bytes), bytes).

Lemma readi_wp v di L s1 off n (Q : Z * list Z → fsys T → Prop) :
  inow v di ∅ L s1 → file_ok v (fsb s) di → meta_used v (fsb s) → (size L ≤ 28)%nat → di_type di ≠ T_DEV →
  0 ≤ off < 2 ^ 32 → 0 ≤ n < 2 ^ 32 →
  (∀ s2, inow v di ∅ L s2 → Q (read_result v di off n) s2) → wp (readi dev_read ip off n) s1 Q.
Proof.
  intros H1 Hok Hm HL Ht Ho Hn HQ. rw /readi. apply wp_bind, (wp_inode s ip i c Hip v di ∅ L s1 _ H1). cbn [i_din set_din]. cbv zeta.
  destruct (Z.eqb_spec (di_type di) T_DEV); [done|]. rewrite u32_wraps //. rw /read_result in HQ.
  destruct (Z.ltb_spec (di_size di) off); [apply wp_ret; by apply HQ|]. destruct (Z.leb_spec (2 ^ 32) (off + n)); [apply wp_ret; by apply HQ|].
  cbn [orb] in HQ |- *. assert (u32 (off + n) = off + n) as -> by (rw /u32 Z.mod_small; lia).
  pose proof (fo_size _ _ _ Hok) as Hsz. change (MAXFILE * BSIZE) with 71680 in Hsz.
  set (n1 := if di_size di <? off + n then di_size di - off else n).
  assert (n1 = Z.min n (di_size di - off)) as En by (rw /n1; destruct (Z.ltb_spec (di_size di) (off + n)); lia).
  assert (slice (Z.to_nat off) (Z.to_nat n) (contents v di) = fbyte v di <$> range off (off + n1)) as Es.
  { rewrite -contents_slice; [lia..|]. rw /slice. destruct (decide (n1 = n)) as [->|Hne]; [done|].
    rewrite !take_ge //; rewrite length_drop length_file_contents; lia. }
  apply wp_bind, (readi_loop_wp v di L s1); [done..|lia|lia|lia|]. intros s2 H2. apply wp_ret.
  rewrite Es in HQ. rewrite length_fmap /range length_seqZ in HQ. 
  replace (s32 n1) with (Z.of_nat (Z.to_nat (off + n1 - off))); [by apply HQ|]. rw s32_small; lia.
Qed.
End Devices.

(** *** writei *)

(** The file, the disk and the other files after a write of [src] at [off]. *)
Record rewritten v di off (src : list Z) v' di' : Prop := {
  rn_ok : file_ok v' (fsb s) di';
  rn_meta : meta_used v' (fsb s);
  rn_fields : shorts di → shorts di';
  rn_size : di_size di' = Z.max (di_size di) (off + Z.of_nat (length src));
  rn_contents : contents v' di' =
    take (Z.to_nat off) (contents v di) ++ src ++ drop (Z.to_nat off + length src) (contents v di);
  rn_type : di_type di' = di_type di;
  rn_disk : disk_inode (v (IBLOCK (i_inum i) (fsb s))) (i_inum i) = di →
    disk_inode (v' (IBLOCK (i_inum i) (fsb s))) (i_inum i) = di';
  rn_inodes : ∀ n, 0 ≤ n < sb_ninodes (fsb s) → n ≠ i_inum i →
    disk_inode (v' (IBLOCK n (fsb s))) n = disk_inode (v (IBLOCK n (fsb s))) n;
  rn_others : ∀ di2, file_ok v (fsb s) di2 → apart v di di2 →
    file_ok v' (fsb s) di2 ∧ apart v' di' di2 ∧ contents v' di2 = contents v di2
}.

Lemma evolves_inodes v di v' di' n :
  evolves (fsb s) v di v' di' → 0 ≤ n < sb_ninodes (fsb s) → v' (IBLOCK n (fsb s)) = v (IBLOCK n (fsb s)).
Proof.
  intros Hev Hn. apply (ev_frame _ _ _ _ _ Hev).
  - intros Hb. by apply (iblock_other c _ Hg n _ Hn (or_intror Hb)).
  - intros Hd. by destruct (iblock_other c _ Hg n _ Hn (or_introl Hd)).
  - intros j _ _ Hd. by destruct (iblock_other c _ Hg n _ Hn (or_introl Hd)).
Qed.

Lemma evolves_contents v di v' di' di2 :
  evolves (fsb s) v di v' di' → file_ok v (fsb s) di → file_ok v (fsb s) di2 → apart v di di2 →
  file_ok v' (fsb s) di2 ∧ apart v' di' di2 ∧ contents v' di2 = contents v di2.
Proof.
  intros Hev Hok Hok2 Ha. destruct (evolves_others c _ Hg v di v' di' di2 Hev Hok Hok2 Ha) as (H1&H2&H3).
  split_and!; [done..|]. by apply (contents_ext (fsb s)).
Qed.

Lemma meta_shorts di di' : same_meta di di' → shorts di → shorts di'.
Proof. intros (E1&E2&E3&E4&_). rw /shorts E1 E2 E3 E4. done. Qed.

(** A write inside the file. *)
Lemma rewritten_inside v di L off src v' di' L' :
  file_ok v (fsb s) di → 0 ≤ i_inum i < sb_ninodes (fsb s) → 0 ≤ off → off + Z.of_nat (length src) ≤ di_size di →
  written v di L off src v' di' L' → rewritten v di off src v' di'.
Proof.
  intros Hok Hi Ho Hin [Ok Me Ev By Sl Sa _]. pose proof (fo_size _ _ _ Ok) as Hsz.
  assert (di' = di) as ->.
  { apply Sa. intros bn Hbn Hlt. apply (fo_dense _ _ _ Hok); [|lia]. change BSIZE with 512 in *. Z.div_mod_to_equations; lia. }
  split; [done..|lia| |done| | |].
  - apply contents_replace; [lia..|]. intros q Hq. apply By. lia.
  - intros E. by rw (evolves_inodes v di v' di).
  - intros n Hn _. by rw (evolves_inodes v di v' di).
  - intros di2 Hok2 Ha. by apply (evolves_contents v di).
Qed.

(** A write that makes the file larger; the inode is written to disk. *)
Lemma rewritten_grows v di L off src v' di' L' :
  file_ok v (fsb s) di → shorts di → (∀ b, length (v' b) = Z.to_nat BSIZE) → 0 ≤ i_inum i < sb_ninodes (fsb s) →
  0 ≤ off ≤ di_size di → di_size di < off + Z.of_nat (length src) ≤ MAXFILE * BSIZE → written v di L off src v' di' L' →
  let di1 := set_size (off + Z.of_nat (length src)) di' in
  rewritten v di off src (inode_view (fsb s) v' (i_inum i) di1) di1.
Proof.
  intros Hok Hsh Hlen Hi Ho Hgrow [Ok Me Ev By Sl _ _] di1. pose proof (ev_meta _ _ _ _ _ Ev) as Hme.
  assert (shorts di1) as Hsh1 by exact (meta_shorts di di' Hme Hsh).
  assert (file_ok v' (fsb s) di1) as Ok1.
  { destruct Ok as [Hl Hd Hinj Hs Hdense]. split; [done..|simpl; lia|]. intros bn Hbn Hlt. change (slot v' di' (fslot bn) ≠ 0).
    destruct Hme as (_&_&_&_&Es). destruct (Z.ltb_spec (bn * BSIZE) (di_size di)); [apply Hdense; [done|by rw Es]|].
    apply Sl; [|simpl in Hlt |- *|done]; [by destruct src; [simpl in *; lia|]|].
    change BSIZE with 512 in *. Z.div_mod_to_equations; lia. }
  destruct (inode_view_file c _ Hg v' (i_inum i) di1 di1 Hi Ok1) as (Ok2&Hs2&Hb2).
  pose proof (file_dinode_ok c _ Hg _ _ Ok1 Hsh1) as Hdk.
  split; [done| |done|simpl; lia| |by apply Hme| | |].
  - intros b Hb. destruct Hg. rw (inode_view_used c) //; [lia|]. by apply Me.
  - rw (contents_ext (fsb s) v') //. apply contents_replace; [lia|simpl; lia|]. intros q Hq. simpl in Hq. apply By. lia.
  - intros _. rw disk_inode_view //; [lia..|]. by rw Z.eqb_refl.
  - intros n Hn Hne. rw disk_inode_view //; [lia..|]. destruct (Z.eqb_spec n (i_inum i)); [done|]. by rw (evolves_inodes v di v' di').
  - intros di2 Hok2 Ha. destruct (evolves_contents v di v' di' di2 Ev Hok Hok2 Ha) as (O2&A2&C2).
    destruct (inode_view_file c _ Hg v' (i_inum i) di1 di2 Hi O2) as (O3&S3&B3). split_and!; [done| |].
    + intros j k Hj Hk. rw Hs2 // S3 //. apply (A2 j k Hj Hk).
    + rw (contents_ext (fsb s) v') //.
Qed.

Section WriteDevices.
Context (dev_write : Z → option (nat → list Z → Z → K (fsys T) Z)).

(** Room for the write: in the log, and on the disk when the file grows. *)
Definition room v di (L : gset Z) off n : Prop :=
  (weight (fsb s) L di + rounds off n + 1 ≤ 28)%nat ∧
  (off + n ≤ di_size di ∨ (rounds off n + 1 ≤ pot (fsb s) v di)%nat).

Definition write_bad di off n : bool := (di_size di <? off) || (MAXFILE * BSIZE <? off + n).

Lemma writei_wp v di L s1 off src (Q : Z → fsys T → Prop) :
  inow v di ∅ L s1 → file_ok v (fsb s) di → meta_used v (fsb s) → shorts di →
  0 ≤ i_inum i < sb_ninodes (fsb s) → di_type di ≠ T_DEV →
  0 ≤ off < 2 ^ 32 → Z.of_nat (length src) < 2 ^ 31 → room v di L off (Z.of_nat (length src)) →
  (if write_bad di off (Z.of_nat (length src)) then Q (-1) s1
   else ∀ v' di' L' s2, rewritten v di off src v' di' → (size L' ≤ 28)%nat → inow v' di' ∅ L' s2 → Q (Z.of_nat (length src)) s2) →
  wp (writei dev_write ip src off (Z.of_nat (length src))) s1 Q.
Proof.
  intros H1 Hok Hm Hsh Hi Ht Ho Hn [Hw Hroom] HQ. set (n := Z.of_nat (length src)) in *. rw /writei.
  apply wp_bind, (wp_inode s ip i c Hip v di ∅ L s1 _ H1). cbn [i_din set_din]. cbv zeta.
  destruct (Z.eqb_spec (di_type di) T_DEV); [done|]. rewrite u32_wraps //; [lia|]. rw /write_bad in HQ.
  pose proof (fo_size _ _ _ Hok) as Hsz. change (MAXFILE * BSIZE) with 71680 in *.
  destruct (Z.ltb_spec (di_size di) off) as [|Hin0]; [by apply wp_ret|]. destruct (Z.leb_spec (2 ^ 32) (off + n)) as [|Hov]; [lia|].
  cbn [orb] in HQ |- *. assert (u32 (off + n) = off + n) as -> by (rw /u32 Z.mod_small; lia).
  destruct (Z.ltb_spec 71680 (off + n)) as [|Hmx]; [by apply wp_ret|].
  assert (S (Z.to_nat n) = S (length src)) as -> by lia.
  apply wp_bind, (writei_loop_wp v di L s1); [done..|lia|change (MAXFILE * BSIZE) with 71680; lia|lia|done| |].
  { destruct Hroom as [Hin|Hp]; [left|by right]. intros bn Hbn Hlt. apply (fo_dense _ _ _ Hok); [|lia].
    change BSIZE with 512 in *. Z.div_mod_to_equations; lia. }
  intros v1 di1 L1 s2 Hwr H2. assert (s32 n = n) as -> by (apply s32_small; lia). fold n.
  apply wp_bind, (wp_inode s ip i c Hip v1 di1 ∅ L1 s2 _ H2). cbn [i_din set_din].
  assert (size L1 ≤ 27)%nat as HL1.
  { pose proof (wr_weight _ _ _ _ _ _ _ _ Hwr) as We. fold n in We. pose proof (weight_size (fsb s) L1 di1). pose proof (size_logged (fsb s) L1). lia. }
  destruct (ev_meta _ _ _ _ _ (wr_ev _ _ _ _ _ _ _ _ Hwr)) as (_&_&_&_&->). destruct (Z.ltb_spec (di_size di) (off + n)) as [Hgr|Hin].
  - destruct (Z.ltb_spec 0 n) as [Hn0|]; [|lia]. apply wp_bind, wp_when_true, wp_bind.
    apply (wp_upd_din s ip i c Hip v1 di1 ∅ L1); [done|]. intros s3 H3.
    apply (iupdate_wp v1 (set_size (off + n) di1) L1); [done|done|exact (fo_len _ _ _ (wr_ok _ _ _ _ _ _ _ _ Hwr))|done|].
    intros s4 H4. apply wp_ret. refine (HQ _ _ _ s4 _ _ H4); [|pose proof (size_add (IBLOCK (i_inum i) (fsb s)) L1); lia].
    apply (rewritten_grows v di L off src v1 di1 L1); [done..| |done|lia|change (MAXFILE * BSIZE) with 71680; lia|done].
    intros b. exact (inow_len s ip i c _ _ _ _ _ _ H2).
  - rw andb_false_r. apply wp_bind, wp_when_false, wp_ret. refine (HQ _ _ _ s2 _ _ H2); [|lia].
    by apply (rewritten_inside v di L off src v1 di1 L1); [done|done|lia|lia|].
Qed.

End WriteDevices.
End Files.

(** ** Theorems *)

Section Claims.
Context {T : Type} `{!Txn T}.

(** Inode [i] in slot [ip] is locked by a process in a transaction: its blocks are [v], and [L] of them are logged. *)
Record opened (s : fsys T) (ip : nat) (i : inode) (c : tconf) (v : Z → block) (L : gset Z) : Prop := {
  op_geom : geom c (fsb s);
  op_slot : finodes s !! ip = Some i;
  op_dev : i_dev i = 1;
  op_inum : 0 ≤ i_inum i < sb_ninodes (fsb s);
  op_abs : t_abs (ft s) c v ∅ L;
  op_file : file_ok v (fsb s) (i_din i);
  op_fields : shorts (i_din i);
  op_meta : meta_used v (fsb s);
  op_type : di_type (i_din i) ≠ T_DEV
}.

Lemma opened_inow s ip i c v L : opened s ip i c v L → inow s ip i c v (i_din i) ∅ L s.
Proof.
  intros H. exists (ft s). split; [|apply H]. destruct s as [t sb l h]. rw /with_ft /with_din /=. f_equal.
  symmetry. apply list_insert_id. rw (op_slot _ _ _ _ _ _ H). by destruct i.
Qed.

(** A read returns -1 and no bytes when it starts behind the end of the file or its
    range overflows; else it returns the bytes of the file in its range, cut at the end of the file, and
    their number.  Neither the file nor any block changes. *)
Theorem readi_returns_contents (s : fsys T) ip i c v L dev_read off n
  (Ho : opened s ip i c v L) (HL : (size L ≤ 28)%nat) (Hoff : 0 ≤ off < 2 ^ 32) (Hn : 0 ≤ n < 2 ^ 32) :
  wp (readi dev_read ip off n) s (λ r s', r = read_result v (i_din i) off n ∧ inow s ip i c v (i_din i) ∅ L s').
Proof.
  destruct Ho. apply (readi_wp s ip i c op_geom0 op_slot0 op_dev0 dev_read v (i_din i) L); try done.
  exact (opened_inow s ip i c v L ltac:(done)).
Qed.

(** C13: a write with room in the log and on the disk returns -1 and changes nothing when it starts
    behind the end of the file or ends behind the largest size; else it returns the number of bytes, exactly the bytes of its range are replaced,
    the file grows to hold them, the blocks of the file stay different data blocks in use without a hole, the inode
    on disk is the one in memory, and the other inodes and the files that share no block with it are as before. *)
Theorem writei_replaces_bytes (s : fsys T) ip i c v L dev_write off src
  (Ho : opened s ip i c v L) (Hoff : 0 ≤ off < 2 ^ 32) (Hlen : Z.of_nat (length src) < 2 ^ 31)
  (Hroom : room s v (i_din i) L off (Z.of_nat (length src))) :
  wp (writei dev_write ip src off (Z.of_nat (length src))) s (λ r s',
    if write_bad (i_din i) off (Z.of_nat (length src)) then r = -1 ∧ s' = s
    else r = Z.of_nat (length src) ∧ ∃ v' di' L', rewritten s i v (i_din i) off src v' di' ∧ inow s ip i c v' di' ∅ L' s').
Proof.
  pose proof (opened_inow s ip i c v L Ho) as H1. destruct Ho.
  apply (writei_wp s ip i c op_geom0 op_slot0 op_dev0 dev_write v (i_din i) L); try done.
  destruct (write_bad _ _ _); [done|]. intros v' di' L' s2 Hr _ H2. split; [done|]. by exists v', di', L'.
Qed.

(** C14: the bytes a write stores are the bytes the next read of the same range returns. *)
Theorem write_then_read (s : fsys T) ip i c v L dev_read dev_write off src
  (Ho : opened s ip i c v L) (Hoff : 0 ≤ off ≤ di_size (i_din i))
  (Hmax : off + Z.of_nat (length src) ≤ MAXFILE * BSIZE)
  (Hroom : room s v (i_din i) L off (Z.of_nat (length src))) :
  wp (_ ← writei dev_write ip src off (Z.of_nat (length src)); readi dev_read ip off (Z.of_nat (length src))) s
    (λ r _, r = (Z.of_nat (length src), src)).
Proof.
  pose proof (opened_inow s ip i c v L Ho) as H1. destruct Ho. change (MAXFILE * BSIZE) with 71680 in *.
  apply wp_bind, (writei_wp s ip i c op_geom0 op_slot0 op_dev0 dev_write v (i_din i) L); try done; [lia..|].
  rw /write_bad. change (MAXFILE * BSIZE) with 71680.
  destruct (Z.ltb_spec (di_size (i_din i)) off), (Z.ltb_spec 71680 (off + Z.of_nat (length src))); try lia. cbn [orb].
  intros v' di' L' s2 [Hok Hme Hsh Hsz Hc Hty _ _ _] HL' H2.
  apply (readi_wp s ip i c op_geom0 op_slot0 op_dev0 dev_read v' di' L'); try done; [congruence|lia..|].
  intros s3 _. rw /read_result Hsz. destruct (Z.ltb_spec (Z.max (di_size (i_din i)) (off + Z.of_nat (length src))) off); [lia|].
  destruct (Z.leb_spec (2 ^ 32) (off + Z.of_nat (length src))); [lia|]. cbn [orb]. cbv zeta.
  assert (slice (Z.to_nat off) (Z.to_nat (Z.of_nat (length src))) (contents v' di') = src) as ->; [|done].
  rw Hc /slice Nat2Z.id drop_app_length'; [rw length_take length_file_contents; lia|]. by apply take_app_length.
Qed.
End Claims.

(** ** Witnesses *)

(** The root directory of the image, locked in slot 0. *)
Definition img_inode : inode := Inode 1 1 1 (Sleeplock 1 "inode" 1) true img_root.
Definition img_root_fs : fsys (lsys bcache) := Fsys img_txn img_sb (<[0%nat := img_inode]> img_inodes) [].
#[local] Instance img_Txn : Txn (lsys bcache) := log_Txn (Cache0 := bio_Cache 1).

Lemma img_slot j : 0 ≤ j → slot img_v img_root j = if j =? 0 then 59 else 0.
Proof.
  intros H0. rw /slot. change (addr img_root NDIRECT) with 0. destruct (Z.leb_spec j NDIRECT) as [Hj|Hj]; [|destruct (Z.eqb_spec j 0); [|done]; change NDIRECT with 12 in Hj; lia].
  destruct (Z.eqb_spec j 0) as [->|Hne]; [done|]. rw /addr. change (di_addrs img_root) with (59 :: replicate 12 0).
  destruct (Z.to_nat j) as [|k] eqn:E; [lia|]. change NDIRECT with 12 in Hj. change (default 0 (replicate 12 0 !! k) = 0). rewrite lookup_replicate_2 //. lia.
Qed.

Lemma img_file : file_ok img_v img_sb img_root.
Proof.
  split.
  - reflexivity.
  - intros j Hj0 Hj. rewrite img_slot in Hj; [lia|]. rewrite img_slot; [lia|]. destruct (j =? 0); [|done]. exact img_taken.
  - intros j k Hj Hk. rewrite !img_slot; [lia..|]. destruct (Z.eqb_spec j 0), (Z.eqb_spec k 0); lia.
  - vm_compute. split; congruence.
  - intros bn Hbn Hlt. simpl in Hlt. change BSIZE with 512 in Hlt. assert (bn = 0) as -> by lia. done.
Qed.

Lemma img_opened : opened img_root_fs 0 img_inode img_conf img_v ∅.
Proof.
  split; try done.
  - exact img_geom.
  - exact img_abs.
  - exact img_file.
  - apply (bool_decide_unpack _). vm_compute. exact I.
  - exact img_meta.
Qed.

Lemma img_room : room img_root_fs img_v img_root ∅ 508 10.
Proof. split; [vm_compute; lia|right; vm_compute; lia]. Qed.

Lemma readi_returns_contents_witness :
  wp (readi (λ _, None) 0 16 48) img_root_fs (λ r _, r.1 = 48 ∧ take 4 r.2 = [1; 0; 46; 46]).
Proof.
  eapply wp_mono; [apply (readi_returns_contents img_root_fs 0 img_inode img_conf img_v ∅ (λ _, None) 16 48 img_opened)|].
  - rw size_empty. lia.
  - lia.
  - lia.
  - intros r s' [-> _]. split; vm_compute; reflexivity.
Defined.

Lemma writei_replaces_bytes_witness :
  wp (writei (λ _, None) 0 (replicate 10 7) 508 10) img_root_fs (λ r _, r = 10).
Proof.
  eapply wp_mono; [apply (writei_replaces_bytes img_root_fs 0 img_inode img_conf img_v ∅ (λ _, None) 508 (replicate 10 7) img_opened)|].
  - lia.
  - simpl. lia.
  - exact img_room.
  - intros r s' [Hr _]. exact Hr.
Defined.

Lemma write_then_read_witness :
  wp (_ ← writei (λ _, None) 0 (replicate 10 7) 508 10; readi (λ _, None) 0 508 10) img_root_fs (λ r _, r = (10, replicate 10 7)).
Proof.
  apply (write_then_read img_root_fs 0 img_inode img_conf img_v ∅ (λ _, None) (λ _, None) 508 (replicate 10 7) img_opened).
  - simpl. lia.
  - vm_compute. congruence.
  - exact img_room.
Defined.
