(* ===== verification/FsDirs.v ===== *)
(** * Directories and paths (xv6/fs.c: dirlookup, dirlink, skipelem, namex).

    [dirents] are the entries in the bytes of a directory.  The theorems: [dirlookup] finds the first entry with the name;
    [dirlink] puts the new entry in the first free place or at the end, and a lookup then finds it and every
    other name as before; the elements [skipelem] takes off a path are its parts between slashes. *)
From S2P Require Import Prelude Str Spinlock Sleeplock Layout Bio Log Txn Fs FsBlocks FsBmap FsFiles.
Local Open Scope Z_scope.

(** ** Entries *)

Definition dirents (l : list Z) : list dirent := (λ k, get_dirent (slice (16 * k) 16 l)) <$> seq 0 (length l / 16)%nat.

Lemma length_dirents l : length (dirents l) = (length l / 16)%nat.
Proof. by rw /dirents length_fmap length_seq. Qed.

Lemma slice_app_l o n (l1 l2 : list Z) : (o + n ≤ length l1)%nat → slice o n (l1 ++ l2) = slice o n l1.
Proof. intros H. rw /slice drop_app_le; [lia|]. apply take_app_le. rewrite length_drop. lia. Qed.
Lemma slice_app_r o n (l1 l2 : list Z) : (length l1 ≤ o)%nat → slice o n (l1 ++ l2) = slice (o - length l1) n l2.
Proof. intros H. by rw /slice drop_app_ge. Qed.

Lemma dirents_app l1 l2 n : length l1 = (16 * n)%nat → dirents (l1 ++ l2) = dirents l1 ++ dirents l2.
Proof.
  intros Hl. rw /dirents length_app Hl. rewrite (Nat.mul_comm 16 n) Nat.div_add_l // Nat.div_mul // seq_app fmap_app. f_equal.
  - apply list_fmap_ext. intros k j Hj%list_elem_of_lookup_2%elem_of_seq. rewrite slice_app_l //. lia.
  - replace (0 + n)%nat with (n + 0)%nat by lia. rewrite -(fmap_add_seq n 0). rewrite -list_fmap_compose. apply list_fmap_ext. intros k j Hj. simpl.
    rewrite slice_app_r; [lia|]. f_equal. f_equal. lia.
Qed.

Lemma dirents_one de : 0 ≤ de_inum de < 2 ^ 16 → length (de_name de) = 14%nat → dirents (put_dirent de) = [de].
Proof.
  intros Hi Hl. pose proof (length_put_dirent de Hl) as Hp. change (Z.to_nat DIRENT) with 16%nat in Hp. rw /dirents Hp /=.
  rewrite -Hp slice_all get_put_dirent //.
Qed.

(** Names are compared by their first fourteen bytes. *)
Definition matches (name : list Z) (de : dirent) : Prop := de_inum de ≠ 0 ∧ namecmp name (de_name de) = 0.
#[global] Instance matches_dec name de : Decision (matches name de).
Proof. rw /matches. apply _. Defined.
Definition find_name (name : list Z) (l : list dirent) : option (nat * dirent) := list_find (matches name) l.
Definition first_free (l : list dirent) : option (nat * dirent) := list_find (λ de, de_inum de = 0) l.

(** *** A new entry *)

Lemma length_pad name : length (pad_name name) = 14%nat.
Proof.
  rw /pad_name length_app length_replicate. change (Z.to_nat DIRSIZ) with 14%nat.
  assert (∀ l, length (cstring l) ≤ length l)%nat as Hc by (induction l as [|x l IH]; simpl; [done|destruct (x =? 0); simpl; lia]).
  specialize (Hc (take 14 name)). rewrite length_take in Hc. lia.
Qed.

Lemma dirents_take l n : (16 * n ≤ length l)%nat → dirents (take (16 * n) l) = take n (dirents l).
Proof.
  intros H. rewrite -{2}(take_drop (16 * n) l) (dirents_app _ _ n); [rewrite length_take; lia|].
  rewrite take_app_length' //. rewrite length_dirents length_take Nat.min_l // Nat.mul_comm Nat.div_mul //.
Qed.
Lemma dirents_drop l n : (16 * n ≤ length l)%nat → dirents (drop (16 * n) l) = drop n (dirents l).
Proof.
  intros H. rewrite -{2}(take_drop (16 * n) l) (dirents_app _ _ n); [rewrite length_take; lia|].
  rewrite drop_app_length' //. rewrite length_dirents length_take Nat.min_l // Nat.mul_comm Nat.div_mul //.
Qed.

(** Entry [k] is replaced, or the list grows by it. *)
Definition put_entry (k : nat) (de : dirent) (l : list dirent) : list dirent := take k l ++ de :: drop (S k) l.

Lemma dirents_put l k de :
  (16 * k ≤ length l)%nat → (length l mod 16 = 0)%nat → 0 ≤ de_inum de < 2 ^ 16 → length (de_name de) = 14%nat →
  dirents (take (16 * k) l ++ put_dirent de ++ drop (16 * k + 16) l) = put_entry k de (dirents l).
Proof.
  intros Hk Hm Hi Hl. pose proof (length_put_dirent de Hl) as Hp. change (Z.to_nat DIRENT) with 16%nat in Hp.
  rewrite (dirents_app _ _ k); [rewrite length_take; lia|]. rewrite (dirents_app _ _ 1); [by rewrite Hp|].
  rewrite dirents_take // dirents_one // /put_entry. f_equal. cbn [app]. f_equal.
  destruct (decide (16 * S k ≤ length l)%nat); [replace (16 * k + 16)%nat with (16 * S k)%nat by lia; by apply dirents_drop|].
  rewrite drop_ge; [lia|]. rewrite drop_ge; [|done]. rewrite length_dirents.
  enough (length l / 16 < S k)%nat by lia. apply Nat.Div0.div_lt_upper_bound. lia.
Qed.

(** A lookup after the change: the new name, and the others. *)
Lemma find_put name k de l :
  (k ≤ length l)%nat → find_name name l = None → matches name de → find_name name (put_entry k de l) = Some (k, de).
Proof.
  intros Hk Hf Hd. rw /find_name list_find_Some /put_entry. apply list_find_None in Hf. split_and!; [|done|].
  - apply list_lookup_middle. rewrite length_take. lia.
  - intros j y Hj Hlt. rewrite lookup_app_l in Hj; [rewrite length_take; lia|]. rewrite lookup_take_lt in Hj; [lia|].
    exact (Forall_lookup_1 _ _ _ _ Hf Hj).
Qed.

Lemma find_app name l1 l2 l2' : find_name name l2 = find_name name l2' → find_name name (l1 ++ l2) = find_name name (l1 ++ l2').
Proof.
  rw /find_name. intros E. induction l1 as [|x l1 IH]; [done|]. cbn [app list_find]. case_decide; [done|]. by rewrite IH.
Qed.

Lemma find_put_other name k de l :
  (k ≤ length l)%nat → (∀ d, l !! k = Some d → de_inum d = 0) → ¬ matches name de →
  find_name name (put_entry k de l) = find_name name l.
Proof.
  intros Hk Hfree Hd. rw /put_entry. rewrite -{3}(take_drop k l). apply find_app.
  rw /find_name. cbn [list_find]. rewrite decide_False //. destruct (l !! k) as [d|] eqn:E.
  - rewrite (drop_S _ _ _ E). cbn [list_find]. rewrite decide_False //. intros [H _]. by apply H, Hfree.
  - apply lookup_ge_None in E. rewrite !drop_ge //; lia.
Qed.

Lemma cstring_pad l n : cstring (cstring l ++ replicate n 0) = cstring l.
Proof.
  induction l as [|x l IH]; simpl; [by destruct n|]. destruct (Z.eqb_spec x 0) as [|Hx]; simpl; [by destruct n|].
  rewrite (proj2 (Z.eqb_neq x 0) Hx). by rewrite IH.
Qed.
Lemma lexdiff_refl l : lexdiff l l = 0.
Proof. induction l as [|x l IH]; [done|]. simpl. by rewrite Z.eqb_refl. Qed.

Lemma namecmp_pad name name2 : namecmp name2 (pad_name name) = namecmp name2 name.
Proof.
  rw /namecmp. f_equal. rewrite (take_ge (pad_name name)); [by rewrite length_pad|]. apply cstring_pad.
Qed.

Section Dirs.
Context {T : Type} `{!Txn T}.
Context (s : fsys T) (dp : nat) (i : inode) (c : tconf).
Hypothesis Hg : geom c (fsb s).
Hypothesis Hip : finodes s !! dp = Some i.
Hypothesis Hdev : i_dev i = 1.
Context (dev_read : Z → option (nat → Z → K (fsys T) (Z * list Z))).
Notation inow := (inow s dp i c).

(** The entries of the directory. *)
Definition entries (v : Z → block) (di : dinode) : list dirent := dirents (contents v di).

Lemma read_entry v di a n :
  di_size di = 16 * Z.of_nat n → di_size di ≤ 71680 → (a < n)%nat →
  ∃ de, entries v di !! a = Some de ∧ ∃ l, read_result v di (Z.of_nat a * 16) 16 = (16, l) ∧ get_dirent l = de.
Proof.
  intros Hs Hmax Ha. eexists. split; [|eexists; split; [|reflexivity]].
  - rw /entries /dirents list_lookup_fmap length_file_contents Hs. replace (Z.to_nat (16 * Z.of_nat n)) with (n * 16)%nat by lia.
    rewrite Nat.div_mul // lookup_seq_lt //.
  - rw /read_result Hs. destruct (Z.ltb_spec (16 * Z.of_nat n) (Z.of_nat a * 16)); [lia|]. destruct (Z.leb_spec (2 ^ 32) (Z.of_nat a * 16 + 16)); [lia|].
    cbn [orb]. cbv zeta. rewrite length_slice; [rewrite length_file_contents Hs; lia|]. change (Z.of_nat (Z.to_nat 16)) with 16.
    do 2 f_equal. lia.
Qed.

(** A loop over the entries that stops at the first one with [P]. *)
Lemma dir_scan_wp {R} (g : Z → dirent → K (fsys T) (option R)) (P : dirent → Prop) `{!∀ de, Decision (P de)} msg v di L n : ∀ a s1 (Q : option R → fsys T → Prop),
  inow v di ∅ L s1 → file_ok v (fsb s) di → meta_used v (fsb s) → (size L ≤ 28)%nat → di_type di ≠ T_DEV →
  di_size di = DIRENT * Z.of_nat (a + n) →
  (∀ off de, ¬ P de → g off de = mret None) →
  match list_find P (drop a (entries v di)) with
  | None => ∀ s2, inow v di ∅ L s2 → Q None s2
  | Some (k, de) => ∀ s2, inow v di ∅ L s2 → wp (g (Z.of_nat (a + k) * DIRENT) de) s2 (λ r s3, is_Some r ∧ Q r s3)
  end →
  wp (for_break ((λ k, k * DIRENT) <$> range (Z.of_nat a) (Z.of_nat (a + n))) (λ off,
        r ← readi dev_read dp off DIRENT;
        if negb (r.1 =? DIRENT) then panic msg else g off (get_dirent r.2))) s1 Q.
Proof.
  induction n as [|n IH]; intros a s1 Q H1 Hok Hm HL Ht Hsz Hg0 HQ.
  - rewrite range_nil; [lia|]. simpl. apply wp_ret. rewrite drop_ge in HQ; [|by apply HQ].
    rw /entries length_dirents length_file_contents Hsz. change DIRENT with 16. rewrite Nat.add_0_r.
    replace (Z.to_nat (16 * Z.of_nat a)) with (a * 16)%nat by lia. by rewrite Nat.div_mul.
  - rewrite range_cons; [lia|]. cbn [for_break fmap list_fmap]. change DIRENT with 16 in *. pose proof (fo_size _ _ _ Hok) as Hfs. change (MAXFILE * BSIZE) with 71680 in Hfs.
    apply wp_bind. apply wp_bind. apply (readi_wp s dp i c Hg Hip Hdev dev_read v di L); [done..|lia|lia|]. intros s2 H2.
    destruct (read_entry v di a (a + S n)) as (de&Ed&l&Er&El); [done|lia|lia|]. rewrite Er. cbn [fst snd]. rewrite El Z.eqb_refl. cbn [negb].
    rewrite (drop_S _ _ _ Ed) in HQ. cbn [list_find] in HQ. destruct (decide (P de)) as [HP|HP].
    + rewrite Nat.add_0_r in HQ. eapply wp_mono; [by apply HQ|]. intros [x|] s3 [Hx HQx]; [by apply wp_ret|by destruct Hx].
    + rewrite Hg0 //. apply wp_ret. replace (Z.of_nat a + 1) with (Z.of_nat (S a)) by lia. replace (a + S n)%nat with (S a + n)%nat in * by lia.
      apply IH; try done. destruct (list_find P (drop (S a) (entries v di))) as [[k d]|]; simpl in HQ; [|done].
      by replace (a + S k)%nat with (S a + k)%nat in HQ by lia.
Qed.

Lemma dir_slots n : (16 * Z.of_nat n + 16 - 1) / 16 = Z.of_nat n.
Proof. Z.div_mod_to_equations; lia. Qed.

Lemma dirlookup_wp v di L n name s1 (Q : option (nat * Z) → fsys T → Prop) :
  inow v di ∅ L s1 → file_ok v (fsb s) di → meta_used v (fsb s) → (size L ≤ 28)%nat → di_type di = T_DIR →
  di_size di = DIRENT * Z.of_nat n →
  match find_name name (entries v di) with
  | None => ∀ s2, inow v di ∅ L s2 → Q None s2
  | Some (k, de) => ∀ s2, inow v di ∅ L s2 → wp (iget 1 (de_inum de)) s2 (λ j s3, Q (Some (j, Z.of_nat k * DIRENT)) s3)
  end →
  wp (dirlookup dev_read dp name) s1 Q.
Proof.
  intros H1 Hok Hm HL Ht Hsz HQ. rw /dirlookup. apply wp_bind, (wp_inode s dp i c Hip v di ∅ L s1 _ H1). cbn [i_din i_dev set_din].
  rewrite Ht Z.eqb_refl Hdev. cbn [negb]. rewrite Hsz. change DIRENT with 16 at 1 2 3 4. rewrite dir_slots.
  apply (dir_scan_wp (λ off de, if de_inum de =? 0 then mret None else if namecmp name (de_name de) =? 0 then
    ip ← iget 1 (de_inum de); mret (Some (ip, off)) else mret None) (matches name) _ v di L n 0); try done; [by rewrite Ht| |].
  - intros off de Hd. destruct (Z.eqb_spec (de_inum de) 0); [done|]. destruct (Z.eqb_spec (namecmp name (de_name de)) 0); [|done]. by destruct Hd.
  - rewrite drop_0. rw /find_name in HQ. destruct (list_find (matches name) (entries v di)) as [[k de]|] eqn:Ef; [|done]. intros s2 H2.
    apply list_find_Some in Ef as (_&[Hi Hn]&_). destruct (Z.eqb_spec (de_inum de) 0); [done|]. rewrite Hn Z.eqb_refl.
    apply wp_bind. eapply wp_mono; [by apply HQ|]. intros j s3 Hj. apply wp_ret. split; [by eexists|done].
Qed.

(** Where [dirlink] writes: the first free entry, or the end. *)
Definition link_slot (l : list dirent) : nat := match first_free l with Some (k, _) => k | None => length l end.

Lemma link_slot_le l : (link_slot l ≤ length l)%nat.
Proof. rw /link_slot /first_free. destruct (list_find _ l) as [[k de]|] eqn:E; [|done]. apply list_find_Some in E as (H%lookup_lt_Some&_). lia. Qed.

Section Link.
Context (me : Z) (dev_write : Z → option (nat → list Z → Z → K (fsys T) Z)).

Definition new_entry (name : list Z) (inum : Z) : dirent := Dirent (u16 inum) (pad_name name).

Lemma dirlink_wp v di L n name inum s1 (Q : Z → fsys T → Prop) :
  inow v di ∅ L s1 → file_ok v (fsb s) di → meta_used v (fsb s) → shorts di → 0 ≤ i_inum i < sb_ninodes (fsb s) →
  (size L ≤ 28)%nat → di_type di = T_DIR → di_size di = DIRENT * Z.of_nat n → find_name name (entries v di) = None →
  Z.of_nat (link_slot (entries v di)) * DIRENT < MAXFILE * BSIZE →
  room s v di L (Z.of_nat (link_slot (entries v di)) * DIRENT) DIRENT →
  (∀ v' di' L' s2, rewritten s i v di (Z.of_nat (link_slot (entries v di)) * DIRENT) (put_dirent (new_entry name inum)) v' di' →
    (size L' ≤ 28)%nat → inow v' di' ∅ L' s2 → Q 0 s2) →
  wp (dirlink me dev_read dev_write dp name inum) s1 Q.
Proof.
  intros H1 Hok Hm Hsh Hi HL Ht Hsz Hf Hmax Hroom HQ. rw /dirlink. apply wp_bind, (dirlookup_wp v di L n); try done. rewrite Hf. intros s2 H2.
  apply wp_bind, (wp_inode s dp i c Hip v di ∅ L s2 _ H2). cbn [i_din set_din]. cbv zeta.
  assert (length (entries v di) = n) as Hlen.
  { rw /entries length_dirents length_file_contents Hsz. change DIRENT with 16. replace (Z.to_nat (16 * Z.of_nat n)) with (n * 16)%nat by lia. by apply Nat.div_mul. }
  rewrite Hsz. change ((DIRENT * Z.of_nat n + DIRENT - 1) / DIRENT) with ((16 * Z.of_nat n + 16 - 1) / 16). rewrite dir_slots.
  apply wp_bind, (dir_scan_wp (λ off de, if de_inum de =? 0 then mret (Some off) else mret None) (λ de, de_inum de = 0) _ v di L n 0); try done; [by rewrite Ht| |].
  { intros off de Hd. by destruct (Z.eqb_spec (de_inum de) 0). }
  rewrite drop_0.
  assert (∀ off s3, inow v di ∅ L s3 → off = Z.of_nat (link_slot (entries v di)) * DIRENT →
    wp (n ← writei dev_write dp (put_dirent (new_entry name inum)) off DIRENT; if negb (n =? DIRENT) then panic "dirlink" else mret 0) s3 Q) as Hw.
  { intros off s3 H3 ->. pose proof (length_put_dirent (new_entry name inum) (length_pad name)) as Hl.
    assert (Z.of_nat (length (put_dirent (new_entry name inum))) = DIRENT) as El by (by rewrite Hl).
    apply wp_bind. rewrite -{2}El. apply (writei_wp s dp i c Hg Hip Hdev dev_write v di L s3); rewrite ?El; try done; [by rewrite Ht|change DIRENT with 16 in *; change (MAXFILE * BSIZE) with 71680 in *; lia|].
    rw /write_bad. destruct (Z.ltb_spec (di_size di) (Z.of_nat (link_slot (entries v di)) * DIRENT)) as [Hb|_].
    { rewrite Hsz -Hlen in Hb. pose proof (link_slot_le (entries v di)). change DIRENT with 16 in *. lia. }
    destruct (Z.ltb_spec (MAXFILE * BSIZE) (Z.of_nat (link_slot (entries v di)) * DIRENT + DIRENT)) as [Hb|_].
    { change DIRENT with 16 in *; change (MAXFILE * BSIZE) with 71680 in *; lia. }
    intros v' di' L' s4 Hr HL' H4. apply wp_ret. by apply (HQ v' di' L' s4). }
  destruct (list_find (λ de, de_inum de = 0) (entries v di)) as [[k de]|] eqn:Ef; intros s3 H3.
  - apply list_find_Some in Ef as Hk. destruct Hk as (_&->&_). apply wp_ret. split; [by eexists|]. apply Hw; [done|]. simpl. rw /link_slot /first_free Ef. done.
  - apply Hw; [done|]. rw /link_slot /first_free Ef Hlen. simpl. rewrite length_fmap /range length_seqZ. change DIRENT with 16. lia.
Qed.
End Link.
End Dirs.

(** ** The cache of inodes *)

(** An entry in use for the inode. *)
Definition holds (dev inum : Z) (ip : inode) : bool := (0 <? i_ref ip) && (i_dev ip =? dev) && (i_inum ip =? inum).

Lemma iget_scan_spec l dev inum : ∀ o empty,
  match iget_scan l dev inum o empty with
  | inl j => ∃ k ip, j = (o + k)%nat ∧ l !! k = Some ip ∧ holds dev inum ip = true
  | inr r => Forall (λ ip, holds dev inum ip = false) l ∧
      match empty with
      | Some e => r = Some e
      | None => match r with
                | Some j => ∃ k ip, j = (o + k)%nat ∧ l !! k = Some ip ∧ i_ref ip = 0
                | None => Forall (λ ip, i_ref ip ≠ 0) l
                end
      end
  end.
Proof.
  induction l as [|ip l IH]; intros o empty; [simpl; split; [constructor|by destruct empty]|]. cbn [iget_scan]. fold (holds dev inum ip).
  destruct (holds dev inum ip) eqn:Eh; [by exists 0%nat, ip; rewrite Nat.add_0_r|].
  set (e := match empty with None => if i_ref ip =? 0 then Some o else None | Some _ => empty end). specialize (IH (S o) e).
  destruct (iget_scan l dev inum (S o) e) as [j|r].
  - destruct IH as (k&x&->&Hk&Hx). exists (S k), x. split_and!; [lia|done|done].
  - destruct IH as [Hf Hr]. split; [by constructor|]. rw /e in Hr. destruct empty as [e0|]; [done|].
    destruct (Z.eqb_spec (i_ref ip) 0) as [E|Hne].
    + subst r. exists 0%nat, ip. by rewrite Nat.add_0_r.
    + destruct r as [j|]; [|by constructor]. destruct Hr as (k&x&->&Hk&Hx). exists (S k), x. split_and!; [lia|done|done].
Qed.

(** At most one entry in use for an inode. *)
Definition icache_ok (l : list inode) : Prop :=
  ∀ j k a b, l !! j = Some a → l !! k = Some b → 0 < i_ref a → 0 < i_ref b → i_dev a = i_dev b → i_inum a = i_inum b → j = k.

(** What [iget] makes of entry [j]. *)
Definition got (l : list inode) (dev inum : Z) (j : nat) (ip' : inode) : Prop :=
  ∃ ip, l !! j = Some ip ∧ i_dev ip' = dev ∧ i_inum ip' = inum ∧ i_lock ip' = i_lock ip ∧
    (holds dev inum ip = true ∧ ip' = set_ref (s32 (i_ref ip + 1)) ip ∨
     Forall (λ x, holds dev inum x = false) l ∧ i_ref ip = 0 ∧ ip' = claim dev inum ip).

Lemma got_ok l dev inum j ip' :
  icache_ok l → Forall (λ x, i_ref x < 2 ^ 31 - 1) l → got l dev inum j ip' → icache_ok (<[j := ip']> l) ∧ 0 < i_ref ip'.
Proof.
  intros Hc Hr (ip&Hj&Ed&Ei&_&Hcase). pose proof (lookup_lt_Some _ _ _ Hj) as Hjl.
  assert (0 < i_ref ip') as Hpos.
  { destruct Hcase as [[Hh ->]|(_&_&->)]; [|simpl; lia]. simpl. apply (Forall_lookup_1 _ _ _ _ Hr) in Hj. rw /holds in Hh. simpl in Hj. rewrite s32_small; lia. }
  split; [|done].
  assert (∀ k b, k ≠ j → l !! k = Some b → 0 < i_ref b → i_dev b = dev → i_inum b = inum → False) as Hother.
  { intros k b Hk Hb Hb0 Hbd Hbi. assert (holds dev inum b = true) as Hh by (rw /holds; lia). destruct Hcase as [[Hhj _]|(Hf&_)].
    - apply Hk, (Hc k j b ip Hb Hj); rw /holds in Hhj; lia.
    - by rewrite (Forall_lookup_1 _ _ _ _ Hf Hb) in Hh. }
  intros k m a b Hk Hm Ha Hb Hd Hi. destruct (decide (k = j)) as [->|Hkj], (decide (m = j)) as [->|Hmj]; [done| | |].
  - rewrite list_lookup_insert_eq in Hk; [done|]. rewrite list_lookup_insert_ne in Hm; [congruence|]. injection Hk as ->. destruct (Hother m b Hmj Hm Hb); congruence.
  - rewrite list_lookup_insert_ne in Hk; [congruence|]. rewrite list_lookup_insert_eq in Hm; [done|]. injection Hm as ->. destruct (Hother k a Hkj Hk Ha); congruence.
  - rewrite list_lookup_insert_ne in Hk; [congruence|]. rewrite list_lookup_insert_ne in Hm; [congruence|]. by apply (Hc k m a b).
Qed.

Section Iget.
Context {T : Type}.
Implicit Types s : fsys T.

Lemma iget_wp s dev inum (Q : nat → fsys T → Prop) :
  "icache" ∉ fheld s → Exists (λ ip, holds dev inum ip = true ∨ i_ref ip = 0) (finodes s) →
  (∀ j ip', got (finodes s) dev inum j ip' → Q j (Fsys (ft s) (fsb s) (<[j := ip']> (finodes s)) (fheld s))) →
  wp (iget dev inum) s Q.
Proof.
  intros Hl He HQ. rw /iget. apply wp_bind, wp_lock_acquire; [done|]. apply wp_bind, wp_gets.
  pose proof (iget_scan_spec (finodes s) dev inum 0 None) as Hs. change (finodes (set_held _ s)) with (finodes s).
  assert (∀ j ip f, finodes s !! j = Some ip → got (finodes s) dev inum j (f ip) →
    wp (_ ← upd_inode j f; _ ← lock_release "icache"; mret j) (set_held ("icache" :: held s) s) Q) as Hend.
  { intros j ip f Hj Hg. apply wp_bind, wp_modify. apply wp_bind, (wp_lock_release _ (fheld s)); [done|done|]. apply wp_ret.
    cbn [set_held fsys_HasLocks ft fsb finodes fheld]. rewrite (alter_slot _ j _ ip) //. by apply HQ. }
  destruct (iget_scan _ _ _ _ _) as [j|[j|]].
  - destruct Hs as (k&ip&->&Hk&Hh). apply (Hend _ ip); [done|]. exists ip. rw /holds in Hh |- *. split_and!; [done|simpl; lia..|done|left; split; [lia|done]].
  - destruct Hs as [Hf (k&ip&->&Hk&H0)]. apply (Hend _ ip); [done|]. exists ip. split_and!; try done. by right.
  - destruct Hs as [Hf Hr]. exfalso. apply Exists_exists in He as (ip&Hip&He). rewrite !Forall_forall in Hf, Hr.
    destruct He as [He|He]; [by rewrite Hf in He|by apply (Hr ip)].
Qed.
End Iget.

(** ** Paths *)

(** The parts of a path between slashes, cut to the length of a name. *)
Fixpoint split_path (cur path : list Z) : list (list Z) :=
  match path with
  | [] => match cur with [] => [] | _ => [take 14 cur] end
  | c :: p => if c =? SLASH then match cur with [] => split_path [] p | _ => take 14 cur :: split_path [] p end
              else split_path (cur ++ [c]) p
  end.
Definition elements (path : list Z) : list (list Z) := split_path [] path.

Lemma elements_skip path : elements (skip_slashes path) = elements path.
Proof. rw /elements. induction path as [|c p IH]; [done|]. cbn [skip_slashes split_path]. destruct (c =? SLASH) eqn:E; [done|]. cbn [split_path]. by rewrite E. Qed.

Lemma skip_head path : match skip_slashes path with [] => True | c :: _ => c ≠ SLASH end.
Proof. induction path as [|c p IH]; [done|]. cbn [skip_slashes]. by destruct (Z.eqb_spec c SLASH). Qed.
Lemma skip_length path : (length (skip_slashes path) ≤ length path)%nat.
Proof. induction path as [|c p IH]; [done|]. cbn [skip_slashes]. destruct (c =? SLASH); simpl; lia. Qed.

Lemma split_take path : ∀ cur e r, take_elem path = (e, r) → cur ++ e ≠ [] →
  split_path cur path = take 14 (cur ++ e) :: split_path [] r ∧ (length e + length r = length path)%nat.
Proof.
  induction path as [|c p IH]; intros cur e r; cbn [take_elem split_path].
  - intros [= <- <-] Hne. rewrite app_nil_r in Hne |- *. by destruct cur.
  - destruct (Z.eqb_spec c SLASH) as [->|Hc].
    + intros [= <- <-] Hne. rewrite app_nil_r in Hne |- *. cbn [split_path]. rewrite Z.eqb_refl. by destruct cur.
    + destruct (take_elem p) as [e' r'] eqn:E. intros [= <- <-] _. destruct (IH (cur ++ [c]) e' r' eq_refl) as [E1 E2]; [by destruct cur|].
      rewrite E1 -app_assoc. split; [done|]. simpl. lia.
Qed.

Lemma skipelem_spec path :
  match skipelem path with
  | None => elements path = []
  | Some (rest, name) => elements path = name :: elements rest ∧ (length rest < length path)%nat
  end.
Proof.
  rw /skipelem. rewrite -elements_skip. pose proof (skip_head path) as Hh. pose proof (skip_length path) as Hl.
  destruct (skip_slashes path) as [|c p]; [done|]. destruct (take_elem (c :: p)) as [e r] eqn:E.
  assert (e ≠ []) as He. { cbn [take_elem] in E. destruct (Z.eqb_spec c SLASH); [done|]. destruct (take_elem p). by injection E as <- <-. }
  destruct (split_take (c :: p) [] e r E He) as [E1 E2]. rw /elements in E1 |- *. rewrite E1. fold (elements (skip_slashes r)). rewrite elements_skip. split; [done|].
  pose proof (skip_length r). destruct e; [done|]. simpl in *. lia.
Qed.

(** [namex] takes no more rounds than the path has elements. *)
Lemma namex_fuel {T} `{!Txn T} me dev_read nip : ∀ n m ip path name (s : fsys T),
  (length (elements path) < n)%nat → (length (elements path) < m)%nat →
  namex_loop me dev_read n ip path nip name s = namex_loop me dev_read m ip path nip name s.
Proof.
  induction n as [|n IH]; intros m ip path name s Hn Hm; [lia|]. destruct m as [|m]; [lia|]. cbn [namex_loop].
  pose proof (skipelem_spec path) as Hs. destruct (skipelem path) as [[rest name']|]; [|done]. destruct Hs as [E _]. rewrite E in Hn, Hm. simpl in Hn, Hm.
  rw /mbind /K_bind. destruct (ilock me ip s) as [[] s1| | |]; try done. destruct (inode_at ip s1) as [i s2| | |]; try done.
  destruct (negb _); [done|]. destruct (_ && _); [done|]. destruct (dirlookup dev_read ip name' s2) as [[[nx ?]|] s3| | |]; try done.
  destruct (iunlockput me ip s3) as [[] s4| | |]; try done. apply IH; lia.
Qed.

(** ** Theorems *)

Lemma elements_length path : (length (elements path) ≤ length path)%nat.
Proof.
  rw /elements. assert (∀ cur, length (split_path cur path) ≤ length path + (if cur is [] then 0 else 1))%nat as H; [|specialize (H []); simpl in H; lia].
  induction path as [|c p IH]; intros cur; [by destruct cur|]. cbn [split_path]. destruct (c =? SLASH).
  - specialize (IH []). destruct cur; simpl in *; lia.
  - specialize (IH (cur ++ [c])). destruct cur; simpl in *; lia.
Qed.


(** [iget] returns the entry in use for the inode with one more reference, or a free entry it claims; there is
    still at most one entry in use per inode. *)
Theorem iget_shares_entry {T} (s : fsys T) dev inum
  (Hl : "icache" ∉ fheld s) (He : Exists (λ ip, holds dev inum ip = true ∨ i_ref ip = 0) (finodes s))
  (Hc : icache_ok (finodes s)) (Hr : Forall (λ x, i_ref x < 2 ^ 31 - 1) (finodes s)) :
  wp (iget dev inum) s (λ j s', ∃ ip', got (finodes s) dev inum j ip' ∧ finodes s' = <[j := ip']> (finodes s) ∧
    icache_ok (finodes s') ∧ 0 < i_ref ip').
Proof.
  apply iget_wp; [done|done|]. intros j ip' Hg. exists ip'. destruct (got_ok _ _ _ _ _ Hc Hr Hg). done.
Qed.

Section Claims.
Context {T : Type} `{!Txn T}.
Context (s : fsys T) (dp : nat) (i : inode) (c : tconf) (v : Z → block) (L : gset Z) (n : nat).
Context (dev_read : Z → option (nat → Z → K (fsys T) (Z * list Z))).
Context (dev_write : Z → option (nat → list Z → Z → K (fsys T) Z)).
Notation E := (entries v (i_din i)).

(** An open directory of [n] entries. *)
Record opened_dir : Prop := {
  od_file : opened s dp i c v L;
  od_log : (size L ≤ 28)%nat;
  od_type : di_type (i_din i) = T_DIR;
  od_size : di_size (i_din i) = DIRENT * Z.of_nat n
}.

(** [dirlookup] returns the inode and the offset of the first entry in use with the name, and none when
    there is no such entry; the directory is not changed. *)
Theorem dirlookup_finds_first name (Ho : opened_dir) (Hl : "icache" ∉ fheld s)
  (Hfree : Exists (λ ip, i_ref ip = 0) (finodes s)) :
  wp (dirlookup dev_read dp name) s (λ r s',
    match find_name name E with
    | None => r = None ∧ inow s dp i c v (i_din i) ∅ L s'
    | Some (k, de) => ∃ j ip', r = Some (j, Z.of_nat k * DIRENT) ∧ got (finodes s) 1 (de_inum de) j ip' ∧
        finodes s' = <[j := ip']> (finodes s)
    end).
Proof.
  destruct Ho as [Ho HL Ht Hsz]. pose proof (opened_inow s dp i c v L Ho) as H1. destruct Ho as [Hg Hip Hdev Hi Ha Hok Hsh Hm Hty].
  apply (dirlookup_wp s dp i c Hg Hip Hdev dev_read v (i_din i) L n); try done. destruct (find_name name E) as [[k de]|]; [|done].
  intros s2 (t&->&_). assert (<[dp := set_din (i_din i) i]> (finodes s) = finodes s) as El by (apply list_insert_id; rewrite Hip; by destruct i).
  apply iget_wp; [done| |]; cbn [with_ft with_din finodes]; rewrite El.
  - eapply Exists_impl; [exact Hfree|]. by right.
  - intros j ip' Hgot. by exists j, ip'.
Qed.

(** [dirlink] of a new name puts the entry in the first free place, or at the end; a lookup of the name then finds
    it and a lookup of any other name is as before.  Other files and inodes are not changed. *)
Theorem dirlink_adds_entry me name inum (Ho : opened_dir) (Hnew : find_name name E = None) (Hin : 0 < inum < 2 ^ 16)
  (Hmax : Z.of_nat (link_slot E) * DIRENT < MAXFILE * BSIZE)
  (Hroom : room s v (i_din i) L (Z.of_nat (link_slot E) * DIRENT) DIRENT) :
  wp (dirlink me dev_read dev_write dp name inum) s (λ r s', r = 0 ∧ ∃ v' di' L',
    inow s dp i c v' di' ∅ L' s' ∧
    rewritten s i v (i_din i) (Z.of_nat (link_slot E) * DIRENT) (put_dirent (new_entry name inum)) v' di' ∧
    entries v' di' = put_entry (link_slot E) (new_entry name inum) E ∧
    find_name name (entries v' di') = Some (link_slot E, new_entry name inum) ∧
    (∀ name2, namecmp name2 name ≠ 0 → find_name name2 (entries v' di') = find_name name2 E)).
Proof.
  destruct Ho as [Ho HL Ht Hsz]. pose proof (opened_inow s dp i c v L Ho) as H1. destruct Ho as [Hg Hip Hdev Hi Ha Hok Hsh Hm Hty].
  apply (dirlink_wp s dp i c Hg Hip Hdev dev_read me dev_write v (i_din i) L n); try done. intros v' di' L' s' Hr HL' H'. split; [done|].
  exists v', di', L'. assert (u16 inum = inum) as Eu by (rw /u16 Z.mod_small; lia).
  assert (length E = n ∧ length (contents v (i_din i)) = (16 * n)%nat) as [Hlen Hlc].
  { rw /entries length_dirents length_file_contents Hsz. change DIRENT with 16. replace (Z.to_nat (16 * Z.of_nat n)) with (n * 16)%nat by lia. rewrite Nat.div_mul //. lia. }
  pose proof (link_slot_le E) as Hk.
  assert (entries v' di' = put_entry (link_slot E) (new_entry name inum) E) as Ee.
  { rw {1}/entries (rn_contents _ _ _ _ _ _ _ _ Hr). rewrite (length_put_dirent (new_entry name inum) (length_pad name)). change (Z.to_nat DIRENT) with 16%nat. change DIRENT with 16.
    replace (Z.to_nat (Z.of_nat (link_slot E) * 16)) with (16 * link_slot E)%nat by lia.
    apply dirents_put; [lia|rewrite Hlc Nat.mul_comm; by apply Nat.Div0.mod_mul|simpl; lia|apply length_pad]. }
  rewrite Ee. split_and!; [done|done|done| |].
  - apply find_put; [done|done|]. split; [simpl; lia|]. simpl. rewrite namecmp_pad. apply lexdiff_refl.
  - intros name2 Hne. apply find_put_other; [done| |].
    + intros d Hd. rw /link_slot in Hd. destruct (first_free E) as [[k e]|] eqn:Ef; [|by apply lookup_lt_Some in Hd; lia].
      apply list_find_Some in Ef as (Hk'&H0&_). by simplify_eq.
    + intros [_ Hx]. apply Hne. simpl in Hx. by rewrite namecmp_pad in Hx.
Qed.
End Claims.

(** ** Witnesses *)

#[local] Existing Instance img_Txn.

Lemma img_dir_opened : opened_dir img_root_fs 0 img_inode img_conf img_v ∅ 32.
Proof. split; [exact img_opened|vm_compute; lia|done|done]. Qed.

Lemma img_slots : Exists (λ ip, i_ref ip = 0) (finodes img_root_fs).
Proof. apply Exists_exists. exists (Inode 0 0 0 (Sleeplock 0 "inode" 0) false (Dinode 0 0 0 0 0 (replicate 13 0))). split; [|done]. by right; left. Qed.


Lemma iget_shares_entry_witness : wp (iget 1 1) img_root_fs (λ j s', ∃ ip', got (finodes img_root_fs) 1 1 j ip').
Proof.
  eapply wp_mono; [apply (iget_shares_entry img_root_fs 1 1)|].
  - apply not_elem_of_nil.
  - eapply Exists_impl; [exact img_slots|]. by right.
  - intros j k a b Hj Hk Ha Hb _ _.
    assert (∀ m x, finodes img_root_fs !! m = Some x → 0 < i_ref x → m = 0%nat) as H0.
    { intros [|m] x Hx Hp; [done|]. exfalso. change (replicate 49 (Inode 0 0 0 (Sleeplock 0 "inode" 0) false (Dinode 0 0 0 0 0 (replicate 13 0))) !! m = Some x) in Hx.
      apply lookup_replicate in Hx as [-> _]. simpl in Hp. lia. }
    by rewrite (H0 j a) // (H0 k b).
  - apply (bool_decide_unpack _). vm_compute. exact I.
  - intros j s' (ip'&H&_). by exists ip'.
Defined.

Lemma dirlookup_finds_first_witness :
  wp (dirlookup (λ _, None) 0 [46; 46]) img_root_fs (λ r _, ∃ j, r = Some (j, 16)).
Proof.
  eapply wp_mono; [apply (dirlookup_finds_first img_root_fs 0 img_inode img_conf img_v ∅ 32 (λ _, None) [46; 46] img_dir_opened)|].
  - apply not_elem_of_nil.
  - exact img_slots.
  - intros r s'. assert (find_name [46; 46] (entries img_v (i_din img_inode)) = Some (1%nat, Dirent 1 (46 :: 46 :: replicate 12 0))) as -> by (vm_compute; reflexivity).
    intros (j&ip'&->&_). by exists j.
Defined.

Lemma dirlink_adds_entry_witness :
  wp (dirlink 1 (λ _, None) (λ _, None) 0 [97] 5) img_root_fs (λ r _, r = 0).
Proof.
  assert (link_slot (entries img_v (i_din img_inode)) = 2%nat) as Es by (vm_compute; reflexivity).
  eapply wp_mono; [apply (dirlink_adds_entry img_root_fs 0 img_inode img_conf img_v ∅ 32 (λ _, None) (λ _, None) 1 [97] 5 img_dir_opened)|].
  - vm_compute. reflexivity.
  - lia.
  - rewrite Es. vm_compute. reflexivity.
  - rewrite Es. split; [vm_compute; lia|left; vm_compute; congruence].
  - intros r s' [Hr _]. exact Hr.
Defined.
