(* ===== verification/File.v ===== *)
(** * Open files (xv6/file.c, file.h, pipealloc of pipe.c).

    The table of open files over the file system and the pipes.  A file is its index
    in the table, a pipe the address of its page.  Bytes read from a file are a result and
    bytes to write an argument.  A page [pipeclose] frees is kept in [fl_freed] until the caller
    gives it back to the allocator.  [files_Ops] are the operations proc.c calls ([FileOps]).
    The theorem: the table counts the references to its entries, so an entry in use is
    never handed out again and the last close frees it. *)
From S2P Require Import Prelude Str Spinlock Kalloc Vm Proc Pipe Sleeplock Layout Bio Log Txn Fs FsBlocks.
Local Open Scope Z_scope.

(** ** Data *)

Definition NFILE : nat := 100.
Inductive filetype := FD_NONE | FD_PIPE | FD_INODE.
#[global] Instance filetype_eq_dec : EqDecision filetype.
Proof. solve_decision. Defined.

Record file := File {
  f_type : filetype;
  f_ref : Z;
  f_readable : bool;
  f_writable : bool;
  f_pipe : Z;
  f_ip : nat;
  f_off : Z
}.

Definition file0 : file := File FD_NONE 0 false false 0 0 0.
Definition set_fref (v : Z) (f : file) : file :=
  File (f_type f) v (f_readable f) (f_writable f) (f_pipe f) (f_ip f) (f_off f).
Definition set_ftype (v : filetype) (f : file) : file :=
  File v (f_ref f) (f_readable f) (f_writable f) (f_pipe f) (f_ip f) (f_off f).
Definition set_off (v : Z) (f : file) : file :=
  File (f_type f) (f_ref f) (f_readable f) (f_writable f) (f_pipe f) (f_ip f) v.

Record files (S : Type) := Files {
  fl_fs : fsys (lsys S);
  fl_table : list file;
  fl_pipes : gmap Z psys;
  fl_freed : list Z
}.
Arguments Files {_} _ _ _ _.
Arguments fl_fs {_} _.
Arguments fl_table {_} _.
Arguments fl_pipes {_} _.
Arguments fl_freed {_} _.

Section Ops.
Context {S : Type} `{!Cache S}.

Definition set_fs (v : fsys (lsys S)) (s : files S) : files S := Files v (fl_table s) (fl_pipes s) (fl_freed s).
Definition set_table (v : list file) (s : files S) : files S := Files (fl_fs s) v (fl_pipes s) (fl_freed s).
Definition set_pipes (v : gmap Z psys) (s : files S) : files S := Files (fl_fs s) (fl_table s) v (fl_freed s).
Definition set_freed (v : list Z) (s : files S) : files S := Files (fl_fs s) (fl_table s) (fl_pipes s) v.

#[global] Program Instance files_HasLocks : HasLocks (files S) :=
  {| held := λ s, fheld (fl_fs s);
     set_held := λ h s, set_fs (Fsys (ft (fl_fs s)) (fsb (fl_fs s)) (finodes (fl_fs s)) h) s |}.
Next Obligation. done. Qed.

(** The running process, its slot, its current directory, [myproc()->killed] and the device switch. *)
Context (me : Z) (slot cwd : nat) (killed : bool).
Context (dev_read : Z → option (nat → Z → K (fsys (lsys S)) (Z * list Z))).
Context (dev_write : Z → option (nat → list Z → Z → K (fsys (lsys S)) Z)).

Definition infs {A} (m : K (fsys (lsys S)) A) : K (files S) A := zoom fl_fs set_fs m.
Definition inlog {A} (m : K (lsys S) A) : K (files S) A := infs (intx m).
(** An operation on the pipe in page [p]. *)
Definition inpipe {A} (p : Z) (m : K psys A) : K (files S) A := λ s,
  match fl_pipes s !! p with
  | None => Undef "no such pipe"
  | Some ps => match m ps with
               | Ret a ps' => Ret a (set_pipes (<[p := ps']> (fl_pipes s)) s)
               | Panic msg => Panic msg
               | Sleeps c ps' => Sleeps c (set_pipes (<[p := ps']> (fl_pipes s)) s)
               | Undef msg => Undef msg
               end
  end.
Definition file_at (f : nat) : K (files S) file := λ s,
  match fl_table s !! f with Some x => Ret x s | None => Undef "no such file" end.
Definition upd_file (f : nat) (g : file → file) : K (files S) unit :=
  modify (λ s, set_table (alter g f (fl_table s)) s).

(** ** file.c *)

Definition filealloc : K (files S) (option nat) :=
  _ ← lock_acquire "ftable";
  l ← gets fl_table;
  match list_find (λ f, f_ref f = 0) l with
  | Some (i, _) =>
      _ ← upd_file i (set_fref 1);
      _ ← lock_release "ftable";
      mret (Some i)
  | None =>
      _ ← lock_release "ftable";
      mret None
  end.

Definition filedup (f : nat) : K (files S) nat :=
  _ ← lock_acquire "ftable";
  x ← file_at f;
  if f_ref x <? 1 then panic "filedup"
  else
    _ ← upd_file f (set_fref (s32 (f_ref x + 1)));
    _ ← lock_release "ftable";
    mret f.

Definition fileclose (f : nat) : K (files S) unit :=
  _ ← lock_acquire "ftable";
  x ← file_at f;
  if f_ref x <? 1 then panic "fileclose"
  else
    _ ← upd_file f (set_fref (f_ref x - 1));
    if 0 <? f_ref x - 1 then lock_release "ftable"
    else
      _ ← upd_file f (λ y, set_ftype FD_NONE (set_fref 0 y));
      _ ← lock_release "ftable";
      match f_type x with
      | FD_PIPE =>
          last ← inpipe (f_pipe x) (pipeclose (f_writable x));
          when last (modify (λ s, set_freed (f_pipe x :: fl_freed s) (set_pipes (delete (f_pipe x) (fl_pipes s)) s)))
      | FD_INODE =>
          _ ← inlog (Log.begin_op slot);
          _ ← infs (Fs.iput me (f_ip x));
          inlog Log.end_op
      | FD_NONE => mret tt
      end.

(** The metadata, or nothing for -1. *)
Definition filestat (f : nat) : K (files S) (option stat) :=
  x ← file_at f;
  if bool_decide (f_type x = FD_INODE) then
    _ ← infs (ilock me (f_ip x));
    st ← infs (stati (f_ip x));
    _ ← infs (iunlock me (f_ip x));
    mret (Some st)
  else mret None.

(** A pipe operation that gave the CPU up. *)
Definition from_pipe (r : result) : K (files S) Z :=
  match r with Return v => mret v | Asleep _ => sleeps "pipe" end.

Definition fileread (f : nat) (n : Z) : K (files S) (Z * list Z) :=
  x ← file_at f;
  if negb (f_readable x) then mret (-1, [])
  else match f_type x with
  | FD_PIPE =>
      r ← inpipe (f_pipe x) (piperead slot killed n);
      v ← from_pipe r.1;
      mret (v, r.2)
  | FD_INODE =>
      _ ← infs (ilock me (f_ip x));
      r ← infs (readi dev_read (f_ip x) (f_off x) n);
      _ ← when (0 <? r.1) (upd_file f (λ y, set_off (u32 (f_off y + r.1)) y));
      _ ← infs (iunlock me (f_ip x));
      mret r
  | FD_NONE => panic "fileread"
  end.

(** The most bytes one transaction writes. *)
Definition max_write : Z := ((MAXOPBLOCKS - 1 - 1 - 2) / 2) * 512.

(** The loop of [filewrite] from byte [i] on; every round writes at least one byte. *)
Fixpoint filewrite_loop (fuel : nat) (f ip : nat) (src : list Z) (i n : Z) : K (files S) Z :=
  match fuel with
  | O => undef "filewrite: loop"
  | Datatypes.S k =>
      if negb (i <? n) then mret i
      else
        let n1 := if max_write <? n - i then max_write else n - i in
        _ ← inlog (Log.begin_op slot);
        _ ← infs (ilock me ip);
        x ← file_at f;
        r ← infs (writei dev_write ip (drop (Z.to_nat i) src) (f_off x) n1);
        _ ← when (0 <? r) (upd_file f (λ y, set_off (u32 (f_off y + r)) y));
        _ ← infs (iunlock me ip);
        _ ← inlog Log.end_op;
        if r <? 0 then mret i
        else if negb (r =? n1) then panic "short filewrite"
        else filewrite_loop k f ip src (i + r) n
  end.

Definition filewrite (f : nat) (src : list Z) (n : Z) : K (files S) Z :=
  x ← file_at f;
  if negb (f_writable x) then mret (-1)
  else match f_type x with
  | FD_PIPE =>
      r ← inpipe (f_pipe x) (pipewrite slot killed n src);
      from_pipe r
  | FD_INODE =>
      i ← filewrite_loop (Datatypes.S (Z.to_nat n)) f (f_ip x) src 0 n;
      mret (if i =? n then n else -1)
  | FD_NONE => panic "filewrite"
  end.

(** ** pipealloc of pipe.c *)

(** [pipealloc] up to the call of [kalloc] and after it; [page] is what it returned. *)
Definition pipealloc_files : K (files S) (option (nat * nat)) :=
  f0 ← filealloc;
  match f0 with
  | None => mret None
  | Some f0 =>
      f1 ← filealloc;
      match f1 with
      | None => _ ← fileclose f0; mret None
      | Some f1 => mret (Some (f0, f1))
      end
  end.

Definition pipealloc_finish (f0 f1 : nat) (page : Z) : K (files S) unit :=
  if page =? 0 then
    _ ← fileclose f0;
    fileclose f1
  else
    _ ← modify (λ s, set_pipes (<[page := Psys (pipe_init (replicate (Z.to_nat PIPESIZE) 0)) ∅ []]> (fl_pipes s)) s);
    _ ← upd_file f0 (λ y, File FD_PIPE (f_ref y) true false page (f_ip y) (f_off y));
    upd_file f1 (λ y, File FD_PIPE (f_ref y) false true page (f_ip y) (f_off y)).

(** ** What proc.c uses *)

Definition bytes_of (t : string) : list Z := (λ a, Z.of_N (Ascii.N_of_ascii a)) <$> String.list_ascii_of_string t.

Definition files_Ops : FileOps (files S) := {|
  Proc.filedup := filedup;
  Proc.fileclose := fileclose;
  Proc.idup := λ i, infs (Fs.idup i);
  Proc.iput := λ i, infs (Fs.iput me i);
  Proc.namei := λ p, infs (Fs.namei me cwd dev_read (bytes_of p));
  Proc.begin_op := inlog (Log.begin_op slot);
  Proc.end_op := inlog Log.end_op
|}.

End Ops.

(** ** Reference counts *)

Section Refs.
Context {S : Type} `{!Cache S}.

(** [R] are the pointers to open files. *)
Definition count (i : nat) (R : list nat) : Z := Z.of_nat (length (filter (λ j, j = i) R)).
Record counted (s : files S) (R : list nat) : Prop := {
  ct_ref : ∀ i f, fl_table s !! i = Some f → f_ref f = count i R;
  ct_in : ∀ i, i ∈ R → (i < length (fl_table s))%nat
}.

Lemma count_cons i j R : count i (j :: R) = (if decide (j = i) then 1 else 0) + count i R.
Proof. rw /count filter_cons. case_decide; simpl; lia. Qed.
Lemma count_same i R : count i (i :: R) = 1 + count i R.
Proof. rewrite count_cons. case_decide; [lia|done]. Qed.
Lemma count_other i j R : j ≠ i → count j (i :: R) = count j R.
Proof. intros. rewrite count_cons. case_decide; [congruence|lia]. Qed.
Lemma count_pos i R : 0 < count i R ↔ i ∈ R.
Proof.
  induction R as [|j R IH].
  - split; [done|by intros ?%elem_of_nil].
  - rewrite count_cons elem_of_cons -IH. assert (0 ≤ count i R) by (rw /count; lia). case_decide; naive_solver lia.
Qed.
Lemma refs_nonneg i R : 0 ≤ count i R.
Proof. rw /count. lia. Qed.
Lemma count_le i R : count i R ≤ Z.of_nat (length R).
Proof. rw /count. pose proof (length_filter (λ j, j = i) R). lia. Qed.
Lemma count_permute i R R' : R ≡ₚ R' → count i R = count i R'.
Proof. intros Hp. rw /count. f_equal. by rewrite Hp. Qed.

(** An entry changes its count. *)
Lemma counted_set s R R' i (g : file → file) f s' :
  counted s R → fl_table s !! i = Some f → fl_table s' = alter g i (fl_table s) →
  f_ref (g f) = count i R' → (∀ j, j ≠ i → count j R' = count j R) → (∀ j, j ∈ R' → j ∈ R ∨ j = i) →
  counted s' R'.
Proof.
  intros [H1 H2] Hi E Hg Hj HR. rewrite (alter_slot g i _ f Hi) in E. apply lookup_lt_Some in Hi as Hlt. split; rewrite E.
  - intros j y [(<-&<-&_)|[Hne Hy]]%list_lookup_insert_Some; [done|].
    rewrite Hj; [congruence|]. by apply H1.
  - intros j Hjr. rewrite length_insert. by destruct (HR j Hjr) as [?%H2| ->].
Qed.

Context (s : files S) (R : list nat).
Hypothesis Hlock : "ftable" ∉ held s.
Hypothesis Hc : counted s R.

Lemma file_at_wp i f s1 (Q : file → files S → Prop) : fl_table s1 !! i = Some f → Q f s1 → wp (file_at i) s1 Q.
Proof. rw /wp /file_at. by intros ->. Qed.

Lemma filealloc_wp :
  wp filealloc s (λ r s', match r with
    | Some i => i ∉ R ∧ counted s' (i :: R) ∧ ∀ j, j ≠ i → fl_table s' !! j = fl_table s !! j
    | None => s' = s ∧ ∀ i, (i < length (fl_table s))%nat → i ∈ R
    end).
Proof.
  rw /filealloc. apply wp_bind, wp_lock_acquire; [done|]. apply wp_bind, wp_gets. cbn [fl_table set_held files_HasLocks set_fs].
  destruct (list_find _ _) as [[i f]|] eqn:E.
  - apply list_find_Some in E as (Hi&H0&_). apply wp_bind, wp_modify.
    apply wp_bind, (wp_lock_release "ftable" (held s)); [done|done|]. apply wp_ret.
    assert (count i R = 0) as Hz by (rewrite -(ct_ref _ _ Hc i f Hi); done). split_and!.
    + intros Hin%count_pos. lia.
    + apply (counted_set s R _ i (set_fref 1) f); try done.
      * rewrite count_same Hz. done.
      * intros j Hj. by apply count_other.
      * intros j [->|?]%elem_of_cons; auto.
    + intros j Hj. apply list_lookup_alter_ne. congruence.
  - apply wp_bind, (wp_lock_release "ftable" (held s)); [done|done|]. apply wp_ret. split; [by destruct s as [[]]|].
    intros i Hi. apply list_find_None in E. destruct (lookup_lt_is_Some_2 _ _ Hi) as [f Hf].
    pose proof (proj1 (Forall_lookup _ _) E i f Hf) as Hne. apply count_pos. rewrite -(ct_ref _ _ Hc i f Hf).
    simpl in Hne. rewrite (ct_ref _ _ Hc i f Hf) in Hne |- *. pose proof (refs_nonneg i R). lia.
Qed.

Lemma filedup_wp i :
  i ∈ R → Z.of_nat (length R) < 2 ^ 31 - 1 →
  wp (filedup i) s (λ r s', r = i ∧ counted s' (i :: R) ∧ ∀ j, j ≠ i → fl_table s' !! j = fl_table s !! j).
Proof.
  intros Hi HR. rw /filedup. apply wp_bind, wp_lock_acquire; [done|].
  destruct (lookup_lt_is_Some_2 (fl_table s) i) as [f Hf]; [by apply (ct_in _ _ Hc)|].
  apply wp_bind, (file_at_wp i f); [done|]. pose proof (ct_ref _ _ Hc i f Hf) as Er. apply count_pos in Hi as Hp.
  destruct (Z.ltb_spec (f_ref f) 1); [lia|]. apply wp_bind, wp_modify.
  apply wp_bind, (wp_lock_release "ftable" (held s)); [done|done|]. apply wp_ret. split_and!; [done| |].
  - apply (counted_set s R _ i (set_fref (s32 (f_ref f + 1))) f); try done.
    + rewrite count_same. simpl. pose proof (count_le i R). rewrite s32_small; lia.
    + intros j Hj. by apply count_other.
    + intros j [->|?]%elem_of_cons; auto.
  - intros j Hj. apply list_lookup_alter_ne. congruence.
Qed.

(** Operations of the layers below do not touch the table. *)
Lemma infs_table {A} (m : K (fsys (lsys S)) A) (s1 : files S) : wlp (infs m) s1 (λ _ s2, fl_table s2 = fl_table s1).
Proof. rw /wlp /infs /zoom. by destruct (m (fl_fs s1)). Qed.
Lemma inpipe_table {A} p (m : K psys A) (s1 : files S) : wlp (inpipe p m) s1 (λ _ s2, fl_table s2 = fl_table s1).
Proof. rw /wlp /inpipe. destruct (fl_pipes s1 !! p) as [ps|]; [|done]. by destruct (m ps). Qed.

Context (me : Z) (slot : nat).

Lemma close_tail (x : file) s1 :
  wlp (match f_type x with
       | FD_PIPE =>
           last ← inpipe (f_pipe x) (pipeclose (f_writable x));
           when last (modify (λ s, set_freed (f_pipe x :: fl_freed s) (set_pipes (delete (f_pipe x) (fl_pipes s)) s)))
       | FD_INODE => _ ← inlog (Log.begin_op slot); _ ← infs (Fs.iput me (f_ip x)); inlog Log.end_op
       | FD_NONE => mret tt
       end) s1 (λ _ s2, fl_table s2 = fl_table s1).
Proof.
  destruct (f_type x).
  - done.
  - apply wlp_bind. eapply wlp_mono; [apply inpipe_table|]. intros last s2 E. by destruct last.
  - apply wlp_bind. eapply wlp_mono; [apply infs_table|]. intros [] s2 E2.
    apply wlp_bind. eapply wlp_mono; [apply infs_table|]. intros [] s3 E3.
    eapply wlp_mono; [apply infs_table|]. intros [] s4 E4. congruence.
Qed.

Lemma fileclose_wlp i :
  i ∈ R →
  wlp (fileclose me slot i) s (λ _ s', ∃ R', i :: R' ≡ₚ R ∧ counted s' R' ∧
    (i ∉ R' → ∃ f, fl_table s' !! i = Some f ∧ f_type f = FD_NONE) ∧ ∀ j, j ≠ i → fl_table s' !! j = fl_table s !! j).
Proof.
  intros Hi. destruct (list_elem_of_split R i Hi) as (R1&R2&ER). set (R' := R1 ++ R2).
  assert (i :: R' ≡ₚ R) as Hp by (rewrite ER; apply Permutation_middle).
  assert (count i R = 1 + count i R') as Hci by (by rewrite -(count_permute i _ _ Hp) count_same).
  assert (∀ j, j ≠ i → count j R' = count j R) as Hcj by (intros j Hj; by rewrite -(count_permute j _ _ Hp) count_other).
  assert (∀ j, j ∈ R' → j ∈ R ∨ j = i) as Hsub by (intros j Hj; left; rewrite -Hp; by right).
  destruct (lookup_lt_is_Some_2 (fl_table s) i) as [f Hf]; [by apply (ct_in _ _ Hc)|].
  pose proof (ct_ref _ _ Hc i f Hf) as Er. pose proof (refs_nonneg i R').
  rw /fileclose. apply wlp_bind. rw /wlp lock_acquire_run //. apply wlp_bind. rw /wlp /file_at.
  cbn [fl_table set_held files_HasLocks set_fs]. rewrite Hf.
  destruct (Z.ltb_spec (f_ref f) 1); [lia|]. apply wlp_bind. rw /wlp /upd_file /modify.
  destruct (Z.ltb_spec 0 (f_ref f - 1)).
  - rw (lock_release_run "ftable" (held s)) //. exists R'. split_and!; [done| | |].
    + apply (counted_set s R _ i (set_fref (f_ref f - 1)) f); try done. simpl. lia.
    + intros Hn. destruct Hn. apply count_pos. lia.
    + intros j Hj. apply list_lookup_alter_ne. congruence.
  - set (g := λ y, set_ftype FD_NONE (set_fref 0 (set_fref (f_ref f - 1) y))).
    assert (∀ s', fl_table s' = alter g i (fl_table s) → ∃ R', i :: R' ≡ₚ R ∧ counted s' R' ∧
      (i ∉ R' → ∃ f, fl_table s' !! i = Some f ∧ f_type f = FD_NONE) ∧ ∀ j, j ≠ i → fl_table s' !! j = fl_table s !! j) as Hend.
    { intros s' E. exists R'. split_and!; [done| | |].
      - apply (counted_set s R _ i g f); try done. simpl. lia.
      - intros _. exists (g f). rewrite E list_lookup_alter_eq Hf. done.
      - intros j Hj. rewrite E. apply list_lookup_alter_ne. congruence. }
    apply wlp_bind. rw {1}/wlp /upd_file /modify. apply wlp_bind. rw {1}/wlp (lock_release_run "ftable" (held s)) //.
    eapply wlp_mono; [apply close_tail|]. intros [] s' E. apply Hend. rewrite E. cbn. by rewrite alter_alter.
Qed.
End Refs.

(** ** Theorems *)

(** C7: the file table counts references.  With [R] the pointers to open files: filealloc returns an entry nobody
    points to, or fails when there is none; filedup adds a pointer; fileclose removes one and frees the entry
    with the last one; filedup and fileclose of an entry nobody points to panic. *)
Theorem file_references {S} `{!Cache S} (s : files S) (R : list nat) (me : Z) (slot : nat)
  (Hlock : "ftable" ∉ held s) (Hc : counted s R) (HR : Z.of_nat (length R) < 2 ^ 31 - 1) :
  wp filealloc s (λ r s', match r with
    | Some i => i ∉ R ∧ counted s' (i :: R) ∧ ∀ j, j ≠ i → fl_table s' !! j = fl_table s !! j
    | None => s' = s ∧ ∀ i, (i < length (fl_table s))%nat → i ∈ R
    end) ∧
  (∀ i, i ∈ R →
    wp (filedup i) s (λ r s', r = i ∧ counted s' (i :: R) ∧ ∀ j, j ≠ i → fl_table s' !! j = fl_table s !! j) ∧
    wlp (fileclose me slot i) s (λ _ s', ∃ R', i :: R' ≡ₚ R ∧ counted s' R' ∧
      (i ∉ R' → ∃ f, fl_table s' !! i = Some f ∧ f_type f = FD_NONE) ∧ ∀ j, j ≠ i → fl_table s' !! j = fl_table s !! j)) ∧
  (∀ i, i ∉ R → (i < length (fl_table s))%nat → filedup i s = Panic "filedup" ∧ fileclose me slot i s = Panic "fileclose").
Proof.
  split_and!.
  - by apply filealloc_wp.
  - intros i Hi. split; [by apply filedup_wp|by apply fileclose_wlp].
  - intros i Hi Hlt. destruct (lookup_lt_is_Some_2 _ _ Hlt) as [f Hf]. pose proof (ct_ref _ _ Hc i f Hf) as Er.
    pose proof (refs_nonneg i R). assert (f_ref f < 1) by (destruct (decide (0 < count i R)) as [?%count_pos|]; [done|lia]).
    set (s1 := set_held ("ftable" :: held s) s). assert (file_at i s1 = Ret f s1) as E by (rw /file_at; simpl; by rewrite Hf).
    rw /filedup /fileclose !(bind_Ret _ _ _ _ _ (lock_acquire_run "ftable" s Hlock)) !(bind_Ret _ _ _ _ _ E).
    destruct (Z.ltb_spec (f_ref f) 1); [done|lia].
Qed.

(** ** Witnesses *)

Definition img_files : files bcache :=
  Files img_fs (<[0%nat := File FD_INODE 2 true false 0 0 0]> (replicate NFILE file0)) ∅ [].

Lemma img_counted : counted img_files [0; 0]%nat.
Proof.
  split.
  - intros i f [(<-&<-&_)|[Hne [-> _]%lookup_replicate]]%list_lookup_insert_Some; [reflexivity|].
    rewrite !count_other //; congruence.
  - intros i [->|[->|[]%elem_of_nil]%elem_of_cons]%elem_of_cons; apply Nat.ltb_lt; reflexivity.
Qed.

Lemma file_references_witness :
  wp (filedup 0) img_files (λ r s', counted s' [0; 0; 0]%nat).
Proof.
  destruct (file_references (S := bcache) (Cache0 := bio_Cache 1) img_files [0; 0]%nat 1 0) as (_&H&_).
  - apply not_elem_of_nil.
  - exact img_counted.
  - reflexivity.
  - destruct (H 0%nat) as [Hwp _]; [left|]. eapply wp_mono; [exact Hwp|]. intros r s' (_&Hc&_). exact Hc.
Defined.
