(* ===== verification/Syscall.v ===== *)
(** * System call arguments and the system calls on processes (xv6/syscall.c, sysproc.c).

    The kernel with the clock and the trace flag.  User memory is read through the page directory of the running process, as
    the MMU does; an access to a page that is not there is a trap in the kernel, which panics.
    [argint], [argptr] and [argstr] return nothing for -1.  The system calls of sysproc.c are
    here, those of sysfile.c in [Sysfile].  The theorems: what the argument routines accept
    lies inside the process, and on mapped memory they never trap; [sys_pgcnt] counts the user
    pages of the process. *)
From S2P Require Import Prelude CMem Str Spinlock Kalloc Vm Proc.
Local Open Scope Z_scope.

Record ksys (F : Type) := Ksys {
  kk : kern F;
  ticks : Z;
  trace : Z;
  (** Traced calls: number and result. *)
  traced : list (Z * Z)
}.
Arguments Ksys {_} _ _ _ _.
Arguments kk {_} _.
Arguments ticks {_} _.
Arguments trace {_} _.
Arguments traced {_} _.

(** The byte at a user address, through the page directory. *)
Definition user_byte (m : mem) (pgdir va : Z) : option Z :=
  let e := pte_of m pgdir va in
  if bit_set e PTE_P then Some (ld8 m (P2V (PTE_ADDR e) + va mod PGSIZE)) else None.
(** Where a user byte is stored. *)
Definition user_addr (m : mem) (pgdir va : Z) : option Z :=
  let e := pte_of m pgdir va in
  if bit_set e PTE_P && bit_set e PTE_W then Some (P2V (PTE_ADDR e) + va mod PGSIZE) else None.

Section Ops.
Context {F : Type} `{!FileOps F}.
(** The running CPU and the linker symbols of [Proc]. *)
Context (me : nat) (ptable_proc kend kdata forkret_addr trapret_addr ticks_addr : Z).

Definition set_kk (v : kern F) (s : ksys F) : ksys F := Ksys v (ticks s) (trace s) (traced s).
Definition set_ticks (v : Z) (s : ksys F) : ksys F := Ksys (kk s) v (trace s) (traced s).
Definition set_trace (v : Z) (s : ksys F) : ksys F := Ksys (kk s) (ticks s) v (traced s).
Definition set_traced (v : list (Z * Z)) (s : ksys F) : ksys F := Ksys (kk s) (ticks s) (trace s) v.

Definition inkern {A} (m : K (kern F) A) : K (ksys F) A := zoom kk set_kk m.

#[global] Program Instance ksys_HasLocks : HasLocks (ksys F) :=
  {| held := λ s, khold (kk s); set_held := λ h s, set_kk (set_khold h (kk s)) s |}.
Next Obligation. done. Qed.

(** The running process. *)
Definition curslot : K (kern F) nat := o ← myproc me; deref o.
Definition curproc : K (kern F) proc := i ← curslot; proc_at i.

(** ** syscall.c: arguments *)

(** The four bytes at [addr], as a load of the kernel sees them. *)
Definition user_word (addr : Z) : K (kern F) Z :=
  p ← curproc;
  m ← gets (λ s, km_mem (phys s));
  match mapM (user_byte m (p_pgdir p)) [addr; addr + 1; addr + 2; addr + 3] with
  | Some [a; b; c; d] => mret (a + 2 ^ 8 * b + 2 ^ 16 * c + 2 ^ 24 * d)
  | _ => panic "trap"
  end.

Definition fetchint (addr : Z) : K (kern F) (option Z) :=
  p ← curproc;
  if (p_sz p <=? addr) || (p_sz p <? u32 (addr + 4)) then mret None
  else w ← user_word addr; mret (Some (s32 w)).

(** The loop of [fetchstr] at [s], below [ep]: the bytes before the terminating zero. *)
Fixpoint fetchstr_loop (n : nat) (m : mem) (pgdir s : Z) : K (kern F) (option (list Z)) :=
  match n with
  | O => mret None
  | S k =>
      match user_byte m pgdir s with
      | None => panic "trap"
      | Some c =>
          if c =? 0 then mret (Some [])
          else
            r ← fetchstr_loop k m pgdir (s + 1);
            mret (cons c <$> r)
      end
  end.

(** The address and the string there. *)
Definition fetchstr (addr : Z) : K (kern F) (option (Z * list Z)) :=
  p ← curproc;
  if p_sz p <=? addr then mret None
  else
    m ← gets (λ s, km_mem (phys s));
    r ← fetchstr_loop (Z.to_nat (p_sz p - addr)) m (p_pgdir p) addr;
    mret (pair addr <$> r).

Definition argint (n : Z) : K (kern F) (option Z) :=
  p ← curproc;
  esp ← gets (λ s, ld32 (km_mem (phys s)) (p_tf p + tf_esp));
  fetchint (u32 (esp + 4 + 4 * n)).

Definition argptr (n size : Z) : K (kern F) (option Z) :=
  p ← curproc;
  a ← argint n;
  match a with
  | None => mret None
  | Some i =>
      if (size <? 0) || (p_sz p <=? u32 i) || (p_sz p <? u32 (u32 i + size)) then mret None
      else mret (Some (u32 i))
  end.

Definition argstr (n : Z) : K (kern F) (option (Z * list Z)) :=
  a ← argint n;
  match a with
  | None => mret None
  | Some addr => fetchstr (u32 addr)
  end.

(** ** sysproc.c *)

Definition sys_fork : K (kern F) Z := fork kend kdata forkret_addr trapret_addr me.
Definition sys_exit : K (kern F) Z := _ ← exit ptable_proc me; mret 0.
Definition sys_wait : K (kern F) Z := wait ptable_proc kend me.

Definition sys_kill : K (kern F) Z :=
  a ← argint 0;
  match a with
  | None => mret (-1)
  | Some pid => kill pid
  end.

Definition sys_getpid : K (kern F) Z := p ← curproc; mret (p_pid p).

Definition sys_sbrk : K (kern F) Z :=
  a ← argint 0;
  match a with
  | None => mret (-1)
  | Some n =>
      p ← curproc;
      r ← growproc kend me n;
      if r <? 0 then mret (-1) else mret (s32 (p_sz p))
  end.

(** The loop of [sys_sleep].  The comparison is unsigned. *)
Definition sys_sleep_loop (ticks0 n : Z) : K (ksys F) Z :=
  t ← gets ticks;
  if u32 (t - ticks0) <? u32 n then
    p ← inkern curproc;
    if negb (p_killed p =? 0) then
      _ ← lock_release "time";
      mret (-1)
    else
      _ ← inkern (Proc.sleep me ticks_addr (Some "time"));
      undef "sys_sleep: resumed by sys_sleep_resume"
  else
    _ ← lock_release "time";
    mret 0.
Definition sys_sleep : K (ksys F) Z :=
  a ← inkern (argint 0);
  match a with
  | None => mret (-1)
  | Some n =>
      _ ← lock_acquire "time";
      t ← gets ticks;
      sys_sleep_loop t n
  end.

(** The loop goes round after [sleep] returned. *)
Definition sys_sleep_resume (ticks0 n : Z) : K (ksys F) Z :=
  _ ← inkern (sleep_return me "time");
  sys_sleep_loop ticks0 n.

Definition sys_uptime : K (ksys F) Z :=
  _ ← lock_acquire "time";
  t ← gets ticks;
  _ ← lock_release "time";
  mret (s32 t).

Definition sys_trace : K (ksys F) Z :=
  a ← inkern (argint 0);
  match a with
  | None => mret (-1)
  | Some v => _ ← modify (set_trace v); mret 0
  end.

Definition sys_answer : K (kern F) Z := mret 42.

Definition sys_getppid : K (kern F) Z :=
  p ← curproc;
  i ← deref (p_parent p);
  q ← proc_at i;
  mret (p_pid q).

(** The two loops of [sys_pgcnt]. *)
Definition pgcnt_table (m : mem) (pgtab : Z) : Z :=
  let flag := Z.lor PTE_P PTE_U in
  foldl (λ cnt j, if Z.land (ld32 m (pgtab + 4 * j)) flag =? flag then cnt + 1 else cnt) 0 (range 0 NPTENTRIES).
Definition sys_pgcnt : K (kern F) Z :=
  p ← curproc;
  m ← gets (λ s, km_mem (phys s));
  mret (foldl (λ cnt i,
    let pde := ld32 m (p_pgdir p + 4 * i) in
    if bit_set pde PTE_P then cnt + pgcnt_table m (P2V (PTE_ADDR pde)) else cnt) 0 (range 0 NPDENTRIES)).

End Ops.

(** ** Arguments *)

Section Args.
Context {F : Type} `{!FileOps F} (me i : nat) (p : proc) (s : kern F).
Hypothesis Hcur : cpuproc s !! me = Some (Some i).
Hypothesis Hp : procs s !! i = Some p.
(** The process lies below the kernel and its pages are there. *)
Hypothesis Hsz : 0 ≤ p_sz p ≤ KERNBASE.
Hypothesis Hmap : ∀ va, 0 ≤ va < p_sz p → is_Some (user_byte (km_mem (phys s)) (p_pgdir p) va).

Lemma curproc_wp (Q : proc → kern F → Prop) : Q p s → wp (curproc me) s Q.
Proof.
  intros HQ. rw /wp /curproc /curslot /myproc /mbind /K_bind /Prelude.gets Hcur /= /proc_at Hp. done.
Qed.

(** The word at an address of the process. *)
Definition word_at (addr : Z) : Z :=
  let b k := default 0 (user_byte (km_mem (phys s)) (p_pgdir p) (addr + k)) in
  b 0 + 2 ^ 8 * b 1 + 2 ^ 16 * b 2 + 2 ^ 24 * b 3.

Lemma user_word_wp addr (Q : Z → kern F → Prop) :
  0 ≤ addr → addr + 4 ≤ p_sz p → Q (word_at addr) s → wp (user_word me addr) s Q.
Proof.
  intros H0 H4 HQ. rw /user_word. apply wp_bind, curproc_wp. apply wp_bind, wp_gets. revert HQ. rw /word_at Z.add_0_r.
  destruct (Hmap addr ltac:(lia)) as [a Ea], (Hmap (addr + 1) ltac:(lia)) as [b Eb],
    (Hmap (addr + 2) ltac:(lia)) as [c Ec], (Hmap (addr + 3) ltac:(lia)) as [d Ed].
  rewrite Ea Eb Ec Ed /= Ea Eb Ec Ed /=. done.
Qed.

Lemma fetchint_wp addr (Q : option Z → kern F → Prop) :
  0 ≤ addr < 2 ^ 32 → (addr + 4 ≤ p_sz p → Q (Some (s32 (word_at addr))) s) → (p_sz p < addr + 4 → Q None s) →
  wp (fetchint me addr) s Q.
Proof.
  intros Ha HS HN. rw /fetchint. apply wp_bind, curproc_wp. change KERNBASE with (2 ^ 31) in Hsz.
  destruct (Z.leb_spec (p_sz p) addr); cbn [orb]; [apply wp_ret, HN; lia|].
  rewrite u32_small; [lia|]. destruct (Z.ltb_spec (p_sz p) (addr + 4)); [by apply wp_ret, HN|].
  apply wp_bind, user_word_wp; [lia..|]. by apply wp_ret, HS.
Qed.

(** The address of argument [n]. *)
Definition arg_addr (n : Z) : Z := u32 (ld32 (km_mem (phys s)) (p_tf p + tf_esp) + 4 + 4 * n).

Lemma argint_wp n (Q : option Z → kern F → Prop) :
  (arg_addr n + 4 ≤ p_sz p → Q (Some (s32 (word_at (arg_addr n)))) s) → (p_sz p < arg_addr n + 4 → Q None s) →
  wp (argint me n) s Q.
Proof.
  intros HS HN. rw /argint. apply wp_bind, curproc_wp. apply wp_bind, wp_gets. apply fetchint_wp; [apply u32_range|done|done].
Qed.

Lemma fetchstr_loop_wp n a (Q : option (list Z) → kern F → Prop) :
  0 ≤ a → a + Z.of_nat n = p_sz p →
  (∀ l, (length l < n)%nat → (∀ k c, l !! k = Some c → c ≠ 0 ∧
      user_byte (km_mem (phys s)) (p_pgdir p) (a + Z.of_nat k) = Some c) →
    user_byte (km_mem (phys s)) (p_pgdir p) (a + Z.of_nat (length l)) = Some 0 → Q (Some l) s) →
  Q None s →
  wp (fetchstr_loop n (km_mem (phys s)) (p_pgdir p) a) s Q.
Proof.
  revert a Q. induction n as [|n IH]; intros a Q Ha En HS HN; [done|]. cbn [fetchstr_loop].
  destruct (Hmap a ltac:(lia)) as [c Ec]. rewrite Ec. destruct (Z.eqb_spec c 0) as [->|Hc].
  - apply wp_ret, HS; [simpl; lia|done|]. by rewrite Z.add_0_r.
  - apply wp_bind, (IH (a + 1)); [lia|lia| |by apply wp_ret].
    intros l Hl Hin He. apply wp_ret, HS; [simpl; lia| |].
    + intros [|k] x Hx; [injection Hx as <-; by rewrite Z.add_0_r|]. destruct (Hin k x Hx) as [? E]. split; [done|].
      by replace (a + Z.of_nat (S k)) with (a + 1 + Z.of_nat k) by lia.
    + cbn [length]. by replace (a + Z.of_nat (S (length l))) with (a + 1 + Z.of_nat (length l)) by lia.
Qed.
End Args.

(** ** Counting pages *)

(** How many elements satisfy a test. *)
Definition tally {A} (P : A → bool) (l : list A) : nat := length (filter (λ x, P x = true) l).

Lemma tally_cons {A} (P : A → bool) x l : tally P (x :: l) = ((if P x then 1 else 0) + tally P l)%nat.
Proof. rw /tally filter_cons. by destruct (P x). Qed.
Lemma tally_app {A} (P : A → bool) l1 l2 : tally P (l1 ++ l2) = (tally P l1 + tally P l2)%nat.
Proof. rw /tally filter_app length_app //. Qed.
Lemma tally_fmap {A B} (P : B → bool) (f : A → B) l : tally P (f <$> l) = tally (λ x, P (f x)) l.
Proof. induction l as [|x l IH]; [done|]. by rewrite fmap_cons !tally_cons IH. Qed.
Lemma tally_ext {A} (P Q : A → bool) l : (∀ x, x ∈ l → P x = Q x) → tally P l = tally Q l.
Proof.
  induction l as [|x l IH]; intros H; [done|]. rewrite !tally_cons H; [by left|]. rewrite IH //. intros y Hy. apply H. by right.
Qed.
Lemma tally_none {A} (P : A → bool) l : (∀ x, x ∈ l → P x = false) → tally P l = 0%nat.
Proof.
  induction l as [|x l IH]; intros H; [done|]. rewrite tally_cons H; [by left|]. rewrite IH //. intros y Hy. apply H. by right.
Qed.

Lemma foldl_count {A} (P : A → bool) (l : list A) n :
  foldl (λ cnt j, if P j then cnt + 1 else cnt) n l = n + Z.of_nat (tally P l).
Proof.
  revert n. induction l as [|x l IH]; intros n; simpl; [rw /tally /=; lia|]. rewrite IH tally_cons.
  destruct (P x); lia.
Qed.

(** The flags [sys_pgcnt] looks for. *)
Definition user_page (e : Z) : bool := Z.land e (Z.lor PTE_P PTE_U) =? Z.lor PTE_P PTE_U.

(** The entry of page [k] of the address space. *)
Lemma pte_split m pgdir i j :
  0 ≤ i < 1024 → 0 ≤ j < 1024 →
  pte_of m pgdir ((i * 1024 + j) * PGSIZE) = match ptab m pgdir i with Some t => ld32 m (t + 4 * j) | None => 0 end.
Proof.
  intros Hi Hj. rw /pte_of PTX_eq. rewrite PDX_eq; [rw /PGSIZE; lia|].
  assert ((i * 1024 + j) * PGSIZE / 2 ^ 22 = i ∧ ((i * 1024 + j) * PGSIZE / 2 ^ 12) mod 1024 = j) as [-> ->]; [|done].
  rw /PGSIZE; split.
  - change (2 ^ 22) with (1024 * 4096). Z.div_mod_to_equations. lia.
  - change (2 ^ 12) with 4096. rewrite Z.div_mul //. Z.div_mod_to_equations. lia.
Qed.

Lemma range_shift (a n : Z) : 0 ≤ n → range a (a + n) = (λ j, a + j) <$> range 0 n.
Proof.
  intros Hn. rw /range. apply list_eq. intros k. rewrite list_lookup_fmap. rewrite !Z.add_simpl_l Z.sub_0_r.
  destruct (decide (Z.of_nat k < n)).
  - by rewrite !lookup_seqZ_lt.
  - rewrite !lookup_seqZ_ge //; lia.
Qed.

Lemma pgcnt_sum m pgdir (n : nat) :
  (n ≤ 1024)%nat →
  foldl (λ cnt i, let pde := ld32 m (pgdir + 4 * i) in
    if bit_set pde PTE_P then cnt + pgcnt_table m (P2V (PTE_ADDR pde)) else cnt) 0 (range 0 (Z.of_nat n)) =
  Z.of_nat (tally (λ k, user_page (pte_of m pgdir (k * PGSIZE))) (range 0 (Z.of_nat n * 1024))).
Proof.
  induction n as [|n IH]; intros Hn; [done|]. rewrite Nat2Z.inj_succ /Z.succ range_snoc; [lia|]. rewrite foldl_app IH; [lia|].
  replace ((Z.of_nat n + 1) * 1024) with (Z.of_nat n * 1024 + 1024) by lia.
  assert (range 0 (Z.of_nat n * 1024 + 1024) = range 0 (Z.of_nat n * 1024) ++ range (Z.of_nat n * 1024) (Z.of_nat n * 1024 + 1024)) as ->.
  { rw /range !Z.sub_0_r Z.add_simpl_l. by rewrite seqZ_app; [lia..|]. }
  rewrite tally_app Nat2Z.inj_add range_shift // tally_fmap. cbn [foldl].
  assert (ptab m pgdir (Z.of_nat n) = if bit_set (ld32 m (pgdir + 4 * Z.of_nat n)) PTE_P
    then Some (P2V (PTE_ADDR (ld32 m (pgdir + 4 * Z.of_nat n)))) else None) as Et by done.
  destruct (bit_set (ld32 m (pgdir + 4 * Z.of_nat n)) PTE_P).
  - rw /pgcnt_table foldl_count Z.add_0_l. do 2 f_equal. apply tally_ext. intros j Hj%elem_of_range.
    rewrite pte_split // ?Et //. lia.
  - rewrite (tally_none _ (range 0 1024)); [|simpl; lia].
    intros j Hj%elem_of_range. rewrite pte_split // ?Et //. lia.
Qed.

(** ** Theorems *)

(** C8: the arguments of a system call are checked: on a process whose memory is mapped, argint, argptr and
    argstr never trap and change nothing; argint returns the word of the user stack when it lies inside the process and
    fails otherwise; what argptr accepts lies inside the process; what argstr accepts is a string
    of the process, with its terminating zero inside it. *)
Theorem args_in_process {F} `{!FileOps F} (me i : nat) (p : proc) (s : kern F) (n : Z)
  (Hcur : cpuproc s !! me = Some (Some i)) (Hp : procs s !! i = Some p) (Hsz : 0 ≤ p_sz p ≤ KERNBASE)
  (Hmap : ∀ va, 0 ≤ va < p_sz p → is_Some (user_byte (km_mem (phys s)) (p_pgdir p) va)) :
  wp (argint me n) s (λ r s', s' = s ∧
    r = if arg_addr p s n + 4 <=? p_sz p then Some (s32 (word_at p s (arg_addr p s n))) else None) ∧
  (∀ size, size < 2 ^ 31 →
    wp (argptr me n size) s (λ r s', s' = s ∧ ∀ a, r = Some a → 0 ≤ size ∧ 0 ≤ a < p_sz p ∧ a + size ≤ p_sz p)) ∧
  wp (argstr me n) s (λ r s', s' = s ∧ ∀ a l, r = Some (a, l) → 0 ≤ a ∧ a + Z.of_nat (length l) < p_sz p ∧
    (∀ k c, l !! k = Some c → c ≠ 0 ∧ user_byte (km_mem (phys s)) (p_pgdir p) (a + Z.of_nat k) = Some c) ∧
    user_byte (km_mem (phys s)) (p_pgdir p) (a + Z.of_nat (length l)) = Some 0).
Proof.
  change KERNBASE with (2 ^ 31) in Hsz. split_and!.
  - apply (argint_wp me i p); try done; intros H; (split; [done|]).
    + by rewrite (proj2 (Z.leb_le _ _) H).
    + by rewrite (proj2 (Z.leb_gt _ _) H).
  - intros size Hs. rw /argptr. apply wp_bind, (curproc_wp me i p); try done.
    apply wp_bind, (argint_wp me i p); try done. intros _.
    set (a := u32 (s32 _)). pose proof (u32_range (s32 (word_at p s (arg_addr p s n)))) as Ha. fold a in Ha. clearbody a.
    destruct (Z.ltb_spec size 0); [done|]. destruct (Z.leb_spec (p_sz p) a); [done|]. cbn [orb].
    rewrite u32_small; [lia|]. destruct (Z.ltb_spec (p_sz p) (a + size)); [done|]. apply wp_ret. split; [done|].
    intros b [= <-]. lia.
  - rw /argstr. apply wp_bind, (argint_wp me i p); try done. intros _. rw /fetchstr.
    set (a := u32 (s32 _)). pose proof (u32_range (s32 (word_at p s (arg_addr p s n)))) as Ha. fold a in Ha. clearbody a.
    apply wp_bind, (curproc_wp me i p); try done. destruct (Z.leb_spec (p_sz p) a); [done|].
    apply wp_bind, wp_gets, wp_bind. apply (fetchstr_loop_wp p s); try done; [lia|lia|].
    intros l Hl Hin He. apply wp_ret. split; [done|]. intros b l' [= <- <-]. split_and!; [lia|lia|done|done].
Qed.

(** Sys_pgcnt counts the pages of the address space of the process that are present and accessible to the user. *)
Theorem pgcnt_counts_pages {F} `{!FileOps F} (me i : nat) (p : proc) (s : kern F)
  (Hcur : cpuproc s !! me = Some (Some i)) (Hp : procs s !! i = Some p) :
  wp (sys_pgcnt me) s (λ r s', s' = s ∧
    r = Z.of_nat (tally (λ k, user_page (pte_of (km_mem (phys s)) (p_pgdir p) (k * PGSIZE))) (range 0 (2 ^ 20)))).
Proof.
  rw /sys_pgcnt. apply wp_bind, (curproc_wp me i p); [done..|]. apply wp_bind, wp_gets, wp_ret. split; [done|].
  exact (pgcnt_sum (km_mem (phys s)) (p_pgdir p) 1024 (le_n _)).
Qed.

(** ** Witnesses *)

(** A process of one page, with 100 in its saved stack pointer and 16 as its first argument. *)
Definition tiny_mem : mem :=
  st32 0x80200000 0x201007 (st32 0x80201000 0x202007 (st32 (0x80203000 + tf_esp) 100 (st32 (0x80202000 + 104) 16 ∅))).
Definition tiny_proc : proc :=
  Proc PGSIZE 0x80200000 0 RUNNING 1 None 0x80203000 0 0 0 (replicate NOFILE None) None (replicate 16 0).
#[local] Instance tiny_ops : FileOps unit := {|
  filedup := λ f, mret f; fileclose := λ _, mret tt; idup := λ i, mret i; iput := λ _, mret tt;
  namei := λ _, mret None; begin_op := mret tt; end_op := mret tt |}.
Definition tiny : kern unit := Kern [tiny_proc] 2 (Some 0%nat) [Some 0%nat] (Kmem tiny_mem 0 true []) [] tt.

Lemma tiny_mapped va : 0 ≤ va < PGSIZE → is_Some (user_byte tiny_mem 0x80200000 va).
Proof.
  intros Hva. change PGSIZE with 4096 in Hva. rw /user_byte /pte_of PTX_eq.
  rewrite PDX_eq; [lia|]. rewrite (Z.div_small va (2 ^ 22)); [lia|]. rewrite (Z.div_small va (2 ^ 12)); [lia|].
  rewrite (_ : ptab tiny_mem 0x80200000 0 = Some 0x80201000); [vm_compute; reflexivity|]. cbn iota.
  rewrite (_ : bit_set _ PTE_P = true); [vm_compute; reflexivity|]. eexists. reflexivity.
Qed.

Lemma args_in_process_witness :
  wp (argint 0 0) tiny (λ r s', r = Some 16) ∧ wp (argptr 0 0 100) tiny (λ r s', ∀ a, r = Some a → a + 100 ≤ PGSIZE).
Proof.
  destruct (args_in_process 0 0 tiny_proc tiny 0) as (H1&H2&_).
  - reflexivity.
  - reflexivity.
  - change (0 ≤ 4096 ≤ 2 ^ 31). lia.
  - exact tiny_mapped.
  - split.
    + eapply wp_mono; [exact H1|]. intros r s' [_ E]. rewrite E. vm_compute. reflexivity.
    + eapply wp_mono; [apply H2; lia|]. intros r s' [_ H] a Ha. apply (H a Ha).
Defined.

Lemma tiny_count : sys_pgcnt 0 tiny = Ret 1 tiny.
Proof. vm_compute. reflexivity. Qed.

Lemma pgcnt_counts_pages_witness :
  Z.of_nat (tally (λ k, user_page (pte_of tiny_mem 0x80200000 (k * PGSIZE))) (range 0 (2 ^ 20))) = 1.
Proof.
  pose proof (pgcnt_counts_pages 0 0 tiny_proc tiny eq_refl eq_refl) as H.
  unfold wp in H. rewrite tiny_count in H. destruct H as [_ H]. symmetry. exact H.
Defined.
