(* ===== verification/Sysfile.v ===== *)
(** * The system calls on files (xv6/sysfile.c); exec itself is in [Exec].

    The bodies of the calls between [begin_op] and [end_op] run on the open files
    ([link], [unlink], [create], [open_inode], ...); the [sys_] functions fetch the
    arguments of the running process and its descriptors.  Bytes for the
    user are stored through its page directory.  A call that blocks in the file system stops there.
    Theorems about these calls are in [Descriptors]. *)
From S2P Require Import Prelude CMem Str Spinlock Kalloc Vm Proc Pipe Sleeplock Layout Bio Log Txn Fs File Syscall.
Local Open Scope Z_scope.

Definition O_RDONLY : Z := 0x000.
Definition O_WRONLY : Z := 0x001.
Definition O_RDWR : Z := 0x002.
Definition O_CREATE : Z := 0x200.
Definition MAXARG : Z := 32.

(** Directory names: a dot and two dots. *)
Definition DOT : list Z := [46].
Definition DOTDOT : list Z := [46; 46].

Section Calls.
Context {S : Type} `{!Cache S}.
(** The device switch and the linker symbols. *)
Context (dev_read : Z → option (nat → Z → K (fsys (lsys S)) (Z * list Z))).
Context (dev_write : Z → option (nat → list Z → Z → K (fsys (lsys S)) Z)).
Context (kend kdata : Z).

(** ** On directories *)

Section Dirs.
(** The running process and its current directory. *)
Context (me : Z) (slot cwd : nat).
Notation FSM := (K (fsys (lsys S))).

Definition isdirempty (dp : nat) : FSM bool :=
  i ← inode_at dp;
  r ← for_break ((λ k, (2 + k) * DIRENT) <$> range 0 ((di_size (i_din i) - 2 * DIRENT + DIRENT - 1) / DIRENT)) (λ off,
        r ← readi dev_read dp off DIRENT;
        if negb (r.1 =? DIRENT) then panic "isdirempty: readi"
        else if negb (de_inum (get_dirent r.2) =? 0) then mret (Some tt)
        else mret None);
  mret (bool_decide (r = None)).

(** The inode, locked, or nothing. *)
Definition create (path : list Z) (type major minor : Z) : FSM (option nat) :=
  d ← nameiparent me cwd dev_read path;
  match d with
  | None => mret None
  | Some (dp, name) =>
      _ ← ilock me dp;
      found ← dirlookup dev_read dp name;
      match found with
      | Some (ip, _) =>
          _ ← iunlockput me dp;
          _ ← ilock me ip;
          i ← inode_at ip;
          if (type =? T_FILE) && (di_type (i_din i) =? T_FILE) then mret (Some ip)
          else _ ← iunlockput me ip; mret None
      | None =>
          d ← inode_at dp;
          ip ← ialloc (i_dev d) type;
          _ ← ilock me ip;
          _ ← upd_din ip (λ di, set_nlink 1 (set_dev (s16 major) (s16 minor) di));
          _ ← iupdate ip;
          i ← inode_at ip;
          _ ← when (type =? T_DIR)
                (_ ← upd_din dp (λ di, set_nlink (s16 (di_nlink di + 1)) di);
                 _ ← iupdate dp;
                 d ← inode_at dp;
                 r1 ← dirlink me dev_read dev_write ip DOT (i_inum i);
                 if r1 <? 0 then panic "create dots"
                 else
                   r2 ← dirlink me dev_read dev_write ip DOTDOT (i_inum d);
                   if r2 <? 0 then panic "create dots" else mret tt);
          r ← dirlink me dev_read dev_write dp name (i_inum i);
          if r <? 0 then panic "create: dirlink"
          else
            _ ← iunlockput me dp;
            mret (Some ip)
      end
  end.

(** ** Transactions *)

Notation FM := (K (files S)).
Definition begin : FM unit := inlog (Log.begin_op slot).
Definition finish {A} (r : A) : FM A := _ ← inlog Log.end_op; mret r.

(** The end of [sys_link] when the new name cannot be made. *)
Definition link_bad (ip : nat) : FM Z :=
  _ ← infs (ilock me ip);
  _ ← infs (upd_din ip (λ di, set_nlink (s16 (di_nlink di - 1)) di));
  _ ← infs (iupdate ip);
  _ ← infs (iunlockput me ip);
  finish (-1).

Definition link (old new : list Z) : FM Z :=
  _ ← begin;
  o ← infs (Fs.namei me cwd dev_read old);
  match o with
  | None => finish (-1)
  | Some ip =>
      _ ← infs (ilock me ip);
      i ← infs (inode_at ip);
      if di_type (i_din i) =? T_DIR then
        _ ← infs (iunlockput me ip);
        finish (-1)
      else
        _ ← infs (upd_din ip (λ di, set_nlink (s16 (di_nlink di + 1)) di));
        _ ← infs (iupdate ip);
        _ ← infs (iunlock me ip);
        d ← infs (nameiparent me cwd dev_read new);
        match d with
        | None => link_bad ip
        | Some (dp, name) =>
            _ ← infs (ilock me dp);
            d ← infs (inode_at dp);
            i ← infs (inode_at ip);
            ok ← (if negb (i_dev d =? i_dev i) then mret false
                  else r ← infs (dirlink me dev_read dev_write dp name (i_inum i)); mret (negb (r <? 0)));
            if negb ok then
              _ ← infs (iunlockput me dp);
              link_bad ip
            else
              _ ← infs (iunlockput me dp);
              _ ← infs (Fs.iput me ip);
              finish 0
        end
  end.

Definition unlink_bad (dp : nat) : FM Z :=
  _ ← infs (iunlockput me dp);
  finish (-1).

Definition unlink (path : list Z) : FM Z :=
  _ ← begin;
  d ← infs (nameiparent me cwd dev_read path);
  match d with
  | None => finish (-1)
  | Some (dp, name) =>
      _ ← infs (ilock me dp);
      if (namecmp name DOT =? 0) || (namecmp name DOTDOT =? 0) then unlink_bad dp
      else
        found ← infs (dirlookup dev_read dp name);
        match found with
        | None => unlink_bad dp
        | Some (ip, off) =>
            _ ← infs (ilock me ip);
            i ← infs (inode_at ip);
            if di_nlink (i_din i) <? 1 then panic "unlink: nlink < 1"
            else
              let isdir := di_type (i_din i) =? T_DIR in
              empty ← (if isdir then infs (isdirempty ip) else mret true);
              if isdir && negb empty then
                _ ← infs (iunlockput me ip);
                unlink_bad dp
              else
                n ← infs (writei dev_write dp (replicate (Z.to_nat DIRENT) 0) off DIRENT);
                if negb (n =? DIRENT) then panic "unlink: writei"
                else
                  _ ← when isdir
                        (_ ← infs (upd_din dp (λ di, set_nlink (s16 (di_nlink di - 1)) di));
                         infs (iupdate dp));
                  _ ← infs (iunlockput me dp);
                  _ ← infs (upd_din ip (λ di, set_nlink (s16 (di_nlink di - 1)) di));
                  _ ← infs (iupdate ip);
                  _ ← infs (iunlockput me ip);
                  finish 0
        end
  end.

(** The part of [sys_open] that finds the inode: locked, or the call fails after its [end_op]. *)
Definition open_inode (path : list Z) (omode : Z) : FM (option nat) :=
  _ ← begin;
  if negb (Z.land omode O_CREATE =? 0) then
    o ← infs (create path T_FILE 0 0);
    match o with
    | None => finish None
    | Some ip => mret (Some ip)
    end
  else
    o ← infs (Fs.namei me cwd dev_read path);
    match o with
    | None => finish None
    | Some ip =>
        _ ← infs (ilock me ip);
        i ← infs (inode_at ip);
        if (di_type (i_din i) =? T_DIR) && negb (omode =? O_RDONLY) then
          _ ← infs (iunlockput me ip);
          finish None
        else mret (Some ip)
    end.

(** [sys_open] after the descriptor: when there is none, and when there is. *)
Definition open_fail (ip : nat) (f : option nat) : FM Z :=
  _ ← match f with Some f => File.fileclose me slot f | None => mret tt end;
  _ ← infs (iunlockput me ip);
  finish (-1).
Definition open_done (ip f : nat) (fd omode : Z) : FM Z :=
  _ ← infs (iunlock me ip);
  _ ← inlog Log.end_op;
  let w := negb (Z.land omode O_WRONLY =? 0) in
  _ ← upd_file f (λ y, File FD_INODE (f_ref y) (negb w) (w || negb (Z.land omode O_RDWR =? 0)) (f_pipe y) ip 0);
  mret fd.

(** [sys_mkdir] and [sys_mknod] after their arguments; [None] when those were bad. *)
Definition mknode (args : option (list Z * Z * Z * Z)) : FM Z :=
  o ← (match args with
       | None => mret None
       | Some (path, type, major, minor) => infs (create path type major minor)
       end);
  match o with
  | None => finish (-1)
  | Some ip =>
      _ ← infs (iunlockput me ip);
      finish 0
  end.

(** [sys_chdir] after its argument: the new current directory. *)
Definition chdir (path : option (list Z)) : FM (option nat) :=
  o ← (match path with
       | None => mret None
       | Some path => infs (Fs.namei me cwd dev_read path)
       end);
  match o with
  | None => finish None
  | Some ip =>
      _ ← infs (ilock me ip);
      i ← infs (inode_at ip);
      if negb (di_type (i_din i) =? T_DIR) then
        _ ← infs (iunlockput me ip);
        finish None
      else
        _ ← infs (iunlock me ip);
        _ ← infs (Fs.iput me cwd);
        finish (Some ip)
  end.
End Dirs.

(** ** User memory *)

(** The kernel stores to an address of the process. *)
Fixpoint user_store (pgdir va : Z) (bs : list Z) : K kmem_state unit :=
  match bs with
  | [] => mret tt
  | b :: bs =>
      m ← gets km_mem;
      match user_addr m pgdir va with
      | None => panic "trap"
      | Some a => _ ← upd_mem (st8 a b); user_store pgdir (va + 1) bs
      end
  end.
(** [n] bytes from an address on. *)
Definition user_load (pgdir va n : Z) : K kmem_state (list Z) :=
  m ← gets km_mem;
  match mapM (user_byte m pgdir) ((λ k, va + k) <$> range 0 n) with
  | None => panic "trap"
  | Some bs => mret bs
  end.

(** [struct stat] (stat.h); the bytes between the fields are zero here. *)
Definition put_stat (st : stat) : list Z :=
  le 2 (st_type st) ++ [0; 0] ++ le 4 (st_dev st) ++ le 4 (st_ino st) ++ le 2 (st_nlink st) ++ [0; 0] ++ le 4 (st_size st).
Definition sizeof_stat : Z := 20.

(** ** The calls

    [cpu] is the CPU the process runs on. *)
Context (cpu : nat).
Notation KM := (K (kern (files S))).

(** The running process and its slot. *)
Definition current : KM (nat * proc) := i ← curslot cpu; p ← proc_at i; mret (i, p).

(** [kfree] of the pages [pipeclose] gave up. *)
Definition reclaim : KM unit :=
  ps ← gets (λ s, fl_freed (kfs s));
  _ ← in_fs (modify (set_freed []));
  for_each ps (λ a, in_kmem (kfree kend a)).

Definition close_file (f : nat) : KM unit :=
  c ← current;
  _ ← in_fs (File.fileclose (p_pid c.2) c.1 f);
  reclaim.

Definition argfd (n : Z) : KM (option (Z * nat)) :=
  a ← argint cpu n;
  match a with
  | None => mret None
  | Some fd =>
      if (fd <? 0) || (Z.of_nat NOFILE <=? fd) then mret None
      else
        c ← current;
        mret (pair fd <$> mjoin (p_ofile c.2 !! Z.to_nat fd))
  end.

Definition fdalloc (f : nat) : KM Z :=
  c ← current;
  match list_find (λ o, o = None) (p_ofile c.2) with
  | Some (fd, _) =>
      _ ← upd_proc c.1 (λ p, set_ofile (<[fd := Some f]> (p_ofile p)) p);
      mret (Z.of_nat fd)
  | None => mret (-1)
  end.
(** [myproc()->ofile[fd] = 0]. *)
Definition clear_fd (fd : Z) : KM unit :=
  c ← current;
  upd_proc c.1 (λ p, set_ofile (<[Z.to_nat fd := None]> (p_ofile p)) p).

Definition sys_dup : KM Z :=
  a ← argfd 0;
  match a with
  | None => mret (-1)
  | Some (_, f) =>
      fd ← fdalloc f;
      if fd <? 0 then mret (-1)
      else
        _ ← in_fs (File.filedup f);
        mret fd
  end.

(** The arguments of read and write: the file, the count and the address. *)
Definition rw_args : KM (option (nat * Z * Z)) :=
  a ← argfd 0;
  match a with
  | None => mret None
  | Some (_, f) =>
      o ← argint cpu 2;
      match o with
      | None => mret None
      | Some n =>
          q ← argptr cpu 1 n;
          mret (pair (f, n) <$> q)
      end
  end.

Definition sys_read : KM Z :=
  a ← rw_args;
  match a with
  | None => mret (-1)
  | Some (f, n, p) =>
      c ← current;
      r ← in_fs (fileread (p_pid c.2) c.1 (negb (p_killed c.2 =? 0)) dev_read f n);
      _ ← in_kmem (user_store (p_pgdir c.2) p r.2);
      mret r.1
  end.

Definition sys_write : KM Z :=
  a ← rw_args;
  match a with
  | None => mret (-1)
  | Some (f, n, p) =>
      c ← current;
      bs ← in_kmem (user_load (p_pgdir c.2) p n);
      in_fs (filewrite (p_pid c.2) c.1 (negb (p_killed c.2 =? 0)) dev_write f bs n)
  end.

Definition sys_close : KM Z :=
  a ← argfd 0;
  match a with
  | None => mret (-1)
  | Some (fd, f) =>
      _ ← clear_fd fd;
      _ ← close_file f;
      mret 0
  end.

Definition sys_fstat : KM Z :=
  a ← argfd 0;
  match a with
  | None => mret (-1)
  | Some (_, f) =>
      q ← argptr cpu 1 sizeof_stat;
      match q with
      | None => mret (-1)
      | Some p =>
          c ← current;
          o ← in_fs (filestat (p_pid c.2) f);
          match o with
          | None => mret (-1)
          | Some st => _ ← in_kmem (user_store (p_pgdir c.2) p (put_stat st)); mret 0
          end
      end
  end.

(** A call on paths, with the process and its current directory. *)
Definition on_path {A} (g : Z → nat → nat → K (files S) A) : KM A :=
  c ← current;
  d ← deref (p_cwd c.2);
  in_fs (g (p_pid c.2) c.1 d).

Definition sys_link : KM Z :=
  a ← argstr cpu 0;
  match a with
  | None => mret (-1)
  | Some (_, old) =>
      b ← argstr cpu 1;
      match b with
      | None => mret (-1)
      | Some (_, new) => on_path (λ me slot cwd, link me slot cwd old new)
      end
  end.

Definition sys_unlink : KM Z :=
  a ← argstr cpu 0;
  match a with
  | None => mret (-1)
  | Some (_, path) => on_path (λ me slot cwd, unlink me slot cwd path)
  end.

Definition sys_open : KM Z :=
  a ← argstr cpu 0;
  match a with
  | None => mret (-1)
  | Some (_, path) =>
      b ← argint cpu 1;
      match b with
      | None => mret (-1)
      | Some omode =>
          o ← on_path (λ me slot cwd, open_inode me slot cwd path omode);
          match o with
          | None => mret (-1)
          | Some ip =>
              c ← current;
              x ← in_fs filealloc;
              match x with
              | None => in_fs (open_fail (p_pid c.2) c.1 ip None)
              | Some f =>
                  fd ← fdalloc f;
                  if fd <? 0 then in_fs (open_fail (p_pid c.2) c.1 ip (Some f))
                  else in_fs (open_done (p_pid c.2) ip f fd omode)
              end
          end
      end
  end.

(** [argstr] runs inside the transaction. *)
Definition sys_mkdir : KM Z :=
  _ ← on_path (λ _ slot _, begin slot);
  a ← argstr cpu 0;
  on_path (λ me _ cwd, mknode me cwd ((λ x, (x.2, T_DIR, 0, 0)) <$> a)).

Definition sys_mknod : KM Z :=
  _ ← on_path (λ _ slot _, begin slot);
  a ← argstr cpu 0;
  b ← match a with None => mret None | Some _ => argint cpu 1 end;
  c ← match b with None => mret None | Some _ => argint cpu 2 end;
  on_path (λ me _ cwd, mknode me cwd
    (x ← a; major ← b; minor ← c; Some (x.2, T_DEV, major, minor))).

Definition sys_chdir : KM Z :=
  _ ← on_path (λ _ slot _, begin slot);
  a ← argstr cpu 0;
  o ← on_path (λ me _ cwd, chdir me cwd (snd <$> a));
  match o with
  | None => mret (-1)
  | Some ip =>
      c ← current;
      _ ← upd_proc c.1 (set_cwd (Some ip));
      mret 0
  end.

(** [pipealloc] of pipe.c with its [kalloc]. *)
Definition pipealloc : KM (option (nat * nat)) :=
  c ← current;
  o ← in_fs (pipealloc_files (p_pid c.2) c.1);
  match o with
  | None => mret None
  | Some (f0, f1) =>
      page ← in_kmem kalloc;
      _ ← in_fs (pipealloc_finish (p_pid c.2) c.1 f0 f1 page);
      mret (if page =? 0 then None else Some (f0, f1))
  end.

(** The end of [sys_pipe] without descriptors. *)
Definition pipe_fail (rf wf : nat) : KM Z :=
  _ ← close_file rf;
  _ ← close_file wf;
  mret (-1).
Definition sys_pipe : KM Z :=
  q ← argptr cpu 0 8;
  match q with
  | None => mret (-1)
  | Some fd =>
      o ← pipealloc;
      match o with
      | None => mret (-1)
      | Some (rf, wf) =>
          fd0 ← fdalloc rf;
          if fd0 <? 0 then pipe_fail rf wf
          else
            fd1 ← fdalloc wf;
            if fd1 <? 0 then
              _ ← clear_fd fd0;
              pipe_fail rf wf
            else
              c ← current;
              _ ← in_kmem (user_store (p_pgdir c.2) fd (le 4 fd0));
              _ ← in_kmem (user_store (p_pgdir c.2) (fd + 4) (le 4 fd1));
              mret 0
      end
  end.
End Calls.
