(* ===== verification/Exec.v ===== *)
(** * exec and the system call dispatcher (xv6/exec.c, elf.h, sys_exec, syscall.c, syscall.h).

    [exec] reads the ELF file, builds a new address space and switches the process to it at the
    end; the bytes of the argument strings are those [sys_exec] fetched.  [syscall] runs the call
    the process asks for and leaves its result in the trap frame.  The theorem: exec fails and leaves the
    process table as it was, or changes the image of the calling process only.  What the
    dispatcher keeps is in [Descriptors]. *)
From S2P Require Import Prelude CMem Str Spinlock Kalloc Vm Proc Pipe Sleeplock Layout Bio Log Txn Fs FsBlocks File Syscall Sysfile.
Local Open Scope Z_scope.

(** ** elf.h *)

Definition ELF_MAGIC : Z := 0x464C457F.
Definition ELF_PROG_LOAD : Z := 1.
Definition sizeof_elfhdr : Z := 52.
Definition sizeof_proghdr : Z := 32.

(** The fields exec reads. *)
Record elfhdr := Elfhdr { magic : Z; entry : Z; phoff : Z; phnum : Z }.
Record proghdr := Proghdr { ph_type : Z; ph_off : Z; ph_vaddr : Z; ph_filesz : Z; ph_memsz : Z }.
Definition get_elfhdr (d : list Z) : elfhdr := Elfhdr (get32 0 d) (get32 24 d) (get32 28 d) (get16 44 d).
Definition get_proghdr (d : list Z) : proghdr :=
  Proghdr (get32 0 d) (get32 4 d) (get32 8 d) (get32 16 d) (get32 20 d).

(** The last element of a path. *)
Definition last_elem (path : list Z) : list Z :=
  foldl (λ last c, if c =? 47 then [] else last ++ [c]) [] path.

Section Exec.
Context {S : Type} `{!Cache S}.
Context (dev_read : Z → option (nat → Z → K (fsys (lsys S)) (Z * list Z))).
Context (dev_write : Z → option (nat → list Z → Z → K (fsys (lsys S)) Z)).
Context (kend kdata : Z) (cpu : nat).
Notation KM := (K (kern (files S))).

(** [readi] into kernel memory at [dst]. *)
Definition readi_to (ip : nat) (dst off n : Z) : KM Z :=
  r ← in_fs (infs (readi dev_read ip off n));
  _ ← in_kmem (upd_mem (store_bytes dst r.2));
  mret r.1.

(** The program headers from offset [off] on; the size of the image, or nothing for [goto bad]. *)
Fixpoint load_segments (n : nat) (ip : nat) (pgdir off sz : Z) : KM (option Z) :=
  match n with
  | O => mret (Some sz)
  | Datatypes.S n =>
      r ← in_fs (infs (readi dev_read ip off sizeof_proghdr));
      let ph := get_proghdr r.2 in
      if negb (r.1 =? sizeof_proghdr) then mret None
      else if negb (ph_type ph =? ELF_PROG_LOAD) then load_segments n ip pgdir (u32 (off + sizeof_proghdr)) sz
      else if ph_memsz ph <? ph_filesz ph then mret None
      else if u32 (ph_vaddr ph + ph_memsz ph) <? ph_vaddr ph then mret None
      else
        sz ← in_kmem (allocuvm kend pgdir sz (u32 (ph_vaddr ph + ph_memsz ph)));
        if sz =? 0 then mret None
        else if negb (ph_vaddr ph mod PGSIZE =? 0) then mret None
        else
          r ← loaduvm (@in_kmem (files S)) (readi_to ip) pgdir (ph_vaddr ph) (ph_off ph) (ph_filesz ph);
          if r <? 0 then mret None
          else load_segments n ip pgdir (u32 (off + sizeof_proghdr)) sz
  end.

(** The argument strings below [sp]: the new [sp] and the addresses, last one first. *)
Fixpoint push_args (argv : list (list Z)) (pgdir argc sp : Z) (ptrs : list Z) : KM (option (Z * list Z)) :=
  match argv with
  | [] => mret (Some (sp, ptrs))
  | arg :: argv =>
      if MAXARG <=? argc then mret None
      else
        let sp := Z.land (u32 (sp - (Z.of_nat (length arg) + 1))) (u32 (Z.lnot 3)) in
        r ← in_kmem (copyout pgdir sp (arg ++ [0]));
        if r <? 0 then mret None
        else push_args argv pgdir (argc + 1) sp (sp :: ptrs)
  end.

(** From the user stack to the last [copyout]: the size and the stack pointer. *)
Definition build_stack (pgdir sz : Z) (argv : list (list Z)) : KM (option (Z * Z)) :=
  let sz := PGROUNDUP sz in
  sz ← in_kmem (allocuvm kend pgdir sz (u32 (sz + 2 * PGSIZE)));
  if sz =? 0 then mret None
  else
    _ ← in_kmem (clearpteu pgdir (u32 (sz - 2 * PGSIZE)));
    r ← push_args argv pgdir 0 sz [];
    match r with
    | None => mret None
    | Some (sp, ptrs) =>
        let argc := Z.of_nat (length ptrs) in
        let ustack := [0xffffffff; argc; u32 (sp - (argc + 1) * 4)] ++ reverse ptrs ++ [0] in
        let sp := u32 (sp - (3 + argc + 1) * 4) in
        r ← in_kmem (copyout pgdir sp (mjoin (le 4 <$> ustack)));
        if r <? 0 then mret None else mret (Some (sz, sp))
    end.

(** [bad:]. *)
Definition exec_bad (me : Z) (pgdir : Z) (ip : option nat) : KM Z :=
  _ ← when (negb (pgdir =? 0)) (in_kmem (freevm kend pgdir));
  _ ← match ip with
      | Some ip => _ ← in_fs (infs (iunlockput me ip)); in_fs (inlog Log.end_op)
      | None => mret tt
      end;
  mret (-1).

(** Commit to the user image. *)
Definition exec_commit (i : nat) (path : list Z) (pgdir sz ent sp : Z) : KM Z :=
  _ ← upd_proc i (λ p, set_name (copy_name (last_elem path ++ [0]) (p_name p)) p);
  p ← proc_at i;
  let oldpgdir := p_pgdir p in
  _ ← upd_proc i (set_pgdir pgdir);
  _ ← upd_proc i (set_sz sz);
  _ ← in_kmem (store32 (p_tf p + tf_eip) ent);
  _ ← in_kmem (store32 (p_tf p + tf_esp) sp);
  p ← proc_at i;
  _ ← switchuvm p;
  _ ← in_kmem (freevm kend oldpgdir);
  mret 0.

Definition exec (path : list Z) (argv : list (list Z)) : KM Z :=
  c ← current cpu;
  d ← deref (p_cwd c.2);
  let me := p_pid c.2 in
  _ ← in_fs (begin c.1);
  o ← in_fs (infs (Fs.namei me d dev_read path));
  match o with
  | None => in_fs (finish (-1))
  | Some ip =>
      _ ← in_fs (infs (ilock me ip));
      r ← in_fs (infs (readi dev_read ip 0 sizeof_elfhdr));
      let elf := get_elfhdr r.2 in
      if negb (r.1 =? sizeof_elfhdr) then exec_bad me 0 (Some ip)
      else if negb (magic elf =? ELF_MAGIC) then exec_bad me 0 (Some ip)
      else
        pgdir ← in_kmem (setupkvm kend kdata);
        if pgdir =? 0 then exec_bad me 0 (Some ip)
        else
          l ← load_segments (Z.to_nat (phnum elf)) ip pgdir (phoff elf) 0;
          match l with
          | None => exec_bad me pgdir (Some ip)
          | Some sz =>
              _ ← in_fs (infs (iunlockput me ip));
              _ ← in_fs (inlog Log.end_op);
              st ← build_stack pgdir sz argv;
              match st with
              | None => exec_bad me pgdir None
              | Some (sz, sp) => exec_commit c.1 path pgdir sz (entry elf) sp
              end
          end
  end.

(** The loop of [sys_exec] over the argument vector at [uargv]. *)
Fixpoint exec_args (n : nat) (uargv i : Z) : KM (option (list (list Z))) :=
  match n with
  | O => mret None
  | Datatypes.S n =>
      a ← fetchint cpu (u32 (uargv + 4 * i));
      match a with
      | None => mret None
      | Some uarg =>
          if uarg =? 0 then mret (Some [])
          else
            b ← fetchstr cpu (u32 uarg);
            match b with
            | None => mret None
            | Some (_, arg) =>
                r ← exec_args n uargv (i + 1);
                mret (cons arg <$> r)
            end
      end
  end.

Definition sys_exec : KM Z :=
  a ← argstr cpu 0;
  match a with
  | None => mret (-1)
  | Some (_, path) =>
      b ← argint cpu 1;
      match b with
      | None => mret (-1)
      | Some uargv =>
          argv ← exec_args (Z.to_nat MAXARG) (u32 uargv) 0;
          match argv with
          | None => mret (-1)
          | Some argv => exec path argv
          end
      end
  end.

(** ** syscall.c *)

Context (ptable_proc forkret_addr trapret_addr ticks_addr : Z).
Notation SM := (K (ksys (files S))).

(** The operations proc.c uses, for the running process. *)
Definition ops (c : nat * proc) : FileOps (files S) :=
  files_Ops (p_pid c.2) c.1 (default 0%nat (p_cwd c.2)) dev_read.

Definition syscalls (num : Z) : option (SM Z) :=
  match num with
  | 1 => Some (inkern (c ← current cpu; sys_fork (FileOps0 := ops c) cpu kend kdata forkret_addr trapret_addr))
  | 2 => Some (inkern (c ← current cpu; sys_exit (FileOps0 := ops c) cpu ptable_proc))
  | 3 => Some (inkern (sys_wait cpu ptable_proc kend))
  | 4 => Some (inkern (sys_pipe kend cpu))
  | 5 => Some (inkern (sys_read dev_read cpu))
  | 6 => Some (inkern (sys_kill cpu))
  | 7 => Some (inkern sys_exec)
  | 8 => Some (inkern (sys_fstat cpu))
  | 9 => Some (inkern (sys_chdir dev_read cpu))
  | 10 => Some (inkern (sys_dup cpu))
  | 11 => Some (inkern (sys_getpid cpu))
  | 12 => Some (inkern (sys_sbrk cpu kend))
  | 13 => Some (sys_sleep cpu ticks_addr)
  | 14 => Some sys_uptime
  | 15 => Some (inkern (sys_open dev_read dev_write cpu))
  | 16 => Some (inkern (sys_write dev_write cpu))
  | 17 => Some (inkern (sys_mknod dev_read dev_write cpu))
  | 18 => Some (inkern (sys_unlink dev_read dev_write cpu))
  | 19 => Some (inkern (sys_link dev_read dev_write cpu))
  | 20 => Some (inkern (sys_mkdir dev_read dev_write cpu))
  | 21 => Some (inkern (sys_close kend cpu))
  | 22 => Some (sys_trace cpu)
  | 23 => Some (inkern sys_answer)
  | 24 => Some (inkern (sys_getppid cpu))
  | 25 => Some (inkern sys_pscnt)
  | 26 => Some (inkern (sys_pgcnt cpu))
  | _ => None
  end.

(** The register of the trap frame that has the call number and then the result. *)
Definition get_eax : SM Z := inkern (c ← current cpu; gets (λ s, ld32 (km_mem (phys s)) (p_tf c.2 + tf_eax))).
Definition set_eax (v : Z) : SM unit := inkern (c ← current cpu; in_kmem (store32 (p_tf c.2 + tf_eax) (u32 v))).

(** Pages of pipes that other processes closed on their exit are given back first. *)
Definition syscall : SM unit :=
  _ ← inkern (reclaim kend);
  w ← get_eax;
  let num := s32 w in
  match syscalls num with
  | Some call =>
      v ← call;
      _ ← set_eax v;
      t ← gets trace;
      when (0 <? t) (modify (λ s, set_traced ((num, v) :: traced s) s))
  | None => set_eax (-1)
  end.

(** Where a process starts, with the lock of the table held by the scheduler; [first] is the static variable,
    and the result its new value. *)
Definition forkret (first : bool) : KM bool :=
  _ ← lock_release "ptable";
  _ ← when first
        (_ ← in_fs (infs (iinit ROOTDEV));
         in_fs (inlog (initlog ROOTDEV)));
  mret false.
End Exec.

(** ** exec changes its own process only *)

Section Image.
Context {S : Type} `{!Cache S}.
Implicit Types s : kern (files S).

(** Code that leaves the process table alone. *)
Definition steady {A} (m : K (kern (files S)) A) : Prop := ∀ s, wlp m s (λ _ s', procs s' = procs s ∧ cpuproc s' = cpuproc s).

Lemma steady_bind {A B} (m : K (kern (files S)) A) (f : A → K _ B) : steady m → (∀ a, steady (f a)) → steady (m ≫= f).
Proof.
  intros Hm Hf s. apply wlp_bind. eapply wlp_mono; [apply Hm|]. intros a s' [E1 E2].
  eapply wlp_mono; [apply Hf|]. intros b s'' [E3 E4]. split; congruence.
Qed.
Lemma steady_then {A B} (m : K (kern (files S)) A) (f : A → K _ B) s Q :
  steady m → (∀ a s', procs s' = procs s → wlp (f a) s' Q) → wlp (m ≫= f) s Q.
Proof. intros Hm Hf. apply wlp_bind. eapply wlp_mono; [apply Hm|]. intros a s' [E _]. by apply Hf. Qed.
Lemma steady_ret {A} (a : A) : steady (mret a).
Proof. done. Qed.
Lemma steady_panic {A} t : steady (A := A) (panic t).
Proof. done. Qed.
Lemma steady_kmem {A} (m : K kmem_state A) : steady (in_kmem m).
Proof. intros s. rw /wlp /in_kmem /blocked_in /zoom. by destruct (m _). Qed.
Lemma steady_fs {A} (m : K (files S) A) : steady (in_fs m).
Proof. intros s. rw /wlp /in_fs /blocked_in /zoom. by destruct (m _). Qed.
Lemma steady_for_break {I R} (l : list I) (body : I → K _ (option R)) : (∀ i, steady (body i)) → steady (for_break l body).
Proof.
  intros Hb. induction l as [|i l IH]; [done|]. apply steady_bind; [done|]. intros [v|]; [done|exact IH].
Qed.

Ltac steady_tac := cbv beta;
  lazymatch goal with
  | |- steady (mbind _ _) => apply steady_bind; [steady_tac|intros ?; steady_tac]
  | |- steady (mret _) => apply steady_ret
  | |- steady (panic _) => apply steady_panic
  | |- steady (in_kmem _) => apply steady_kmem
  | |- steady (in_fs _) => apply steady_fs
  | |- steady (for_break _ _) => apply steady_for_break; intros ?; steady_tac
  | |- steady (when ?b _) => destruct b; cbn [when]; steady_tac
  | |- steady (let _ := _ in _) => cbv zeta; steady_tac
  | |- steady (match ?x with _ => _ end) => destruct x; steady_tac
  | |- _ => auto
  end.

Context (dev_read : Z → option (nat → Z → K (fsys (lsys S)) (Z * list Z))) (kend kdata : Z) (cpu : nat).

Lemma steady_segments n ip pd off sz : steady (load_segments dev_read kend n ip pd off sz).
Proof. revert off sz. induction n as [|n IH]; intros off sz; cbn [load_segments]; rw /loaduvm /readi_to; steady_tac. Qed.
Lemma steady_push_args argv pd argc sp ptrs : steady (push_args argv pd argc sp ptrs).
Proof. revert argc sp ptrs. induction argv as [|a argv IH]; intros argc sp ptrs; cbn [push_args]; steady_tac. Qed.
Lemma steady_stack pd sz argv : steady (build_stack kend pd sz argv).
Proof. pose proof steady_push_args. rw /build_stack. steady_tac. Qed.
Lemma steady_bad me pd ip : steady (exec_bad kend me pd ip).
Proof. rw /exec_bad. steady_tac. Qed.

(** What a successful exec does to its slot. *)
Definition new_image (path : list Z) (pgdir sz : Z) (p : proc) : proc :=
  set_sz sz (set_pgdir pgdir (set_name (copy_name (last_elem path ++ [0]) (p_name p)) p)).

Lemma commit_wlp i path pgdir sz ent sp s p :
  procs s !! i = Some p →
  wlp (exec_commit kend i path pgdir sz ent sp) s (λ r s', r = 0 ∧ procs s' = <[i := new_image path pgdir sz p]> (procs s)).
Proof.
  intros Hp. rw /exec_commit. apply wlp_bind. rw {1}/wlp /upd_proc /modify (alter_slot _ _ _ p) //.
  apply lookup_lt_Some in Hp as Hlt.
  apply wlp_bind. rw {1}/wlp /proc_at /= list_lookup_insert_eq //. cbv zeta.
  apply wlp_bind. rw {1}/wlp /upd_proc /modify (alter_slot _ _ _ _ (list_lookup_insert_eq _ _ _ Hlt)) /= list_insert_insert_eq.
  apply wlp_bind. rw {1}/wlp /upd_proc /modify (alter_slot _ _ _ _ (list_lookup_insert_eq _ _ _ Hlt)) /= list_insert_insert_eq.
  apply steady_then; [apply steady_kmem|]. intros [] s1 E1. apply steady_then; [apply steady_kmem|]. intros [] s2 E2.
  apply wlp_bind. rw {1}/wlp /proc_at E2 E1 /= list_lookup_insert_eq //.
  apply steady_then; [rw /switchuvm; steady_tac|]. intros [] s3 E3. apply steady_then; [apply steady_kmem|]. intros [] s4 E4.
  rw /wlp. split; [done|]. by rewrite E4 E3 E2 E1.
Qed.

Lemma bad_wlp me pd ip s : wlp (exec_bad kend me pd ip) s (λ r s', r = -1 ∧ procs s' = procs s).
Proof.
  rw /exec_bad. apply steady_then; [steady_tac|]. intros [] s1 E1.
  apply steady_then; [steady_tac|]. intros [] s2 E2. rw /wlp. split; [done|congruence].
Qed.

Lemma finish_wlp {A} (r : A) s : wlp (in_fs (finish r)) s (λ r' s', r' = r ∧ procs s' = procs s).
Proof. rw /wlp /in_fs /blocked_in /zoom /finish /mbind /K_bind. by destruct (inlog Log.end_op (kfs s)). Qed.

Lemma exec_wlp i p s path argv :
  cpuproc s !! cpu = Some (Some i) → procs s !! i = Some p →
  wlp (exec dev_read kend kdata cpu path argv) s (λ r s',
    r = -1 ∧ procs s' = procs s ∨
    r = 0 ∧ ∃ pgdir sz, pgdir ≠ 0 ∧ procs s' = <[i := new_image path pgdir sz p]> (procs s)).
Proof.
  intros Hc Hp. set (Q := λ r s', _). assert (∀ me pd ip s1, procs s1 = procs s → wlp (exec_bad kend me pd ip) s1 Q) as Hbad.
  { intros me pd ip s1 E. eapply wlp_mono; [apply bad_wlp|]. intros r s2 [-> E2]. left. split; [done|congruence]. }
  rw /exec. apply wlp_bind. rw {1}/wlp /current /curslot /myproc /gets /mbind /K_bind Hc /= /proc_at Hp /=.
  apply wlp_bind. rw {1}/wlp /deref. destruct (p_cwd p) as [d|]; [|done]. cbn [mret K_ret]. cbv zeta.
  apply steady_then; [apply steady_fs|]. intros [] s1 E1. apply steady_then; [apply steady_fs|]. intros [ip|] s2 E2.
  2:{ eapply wlp_mono; [apply finish_wlp|]. intros r s3 [-> E3]. left. split; [done|congruence]. }
  apply steady_then; [apply steady_fs|]. intros [] s3 E3. apply steady_then; [apply steady_fs|]. intros [n hdr] s4 E4. cbn [fst snd].
  assert (procs s4 = procs s) as F4 by congruence. clear E1 E2 E3 E4.
  destruct (negb _); [by apply Hbad|]. destruct (negb _); [by apply Hbad|].
  apply steady_then; [apply steady_kmem|]. intros pd s5 E5. destruct (Z.eqb_spec pd 0) as [|Hpd]; [apply Hbad; congruence|].
  apply steady_then; [apply steady_segments|]. intros [sz|] s6 E6; [|apply Hbad; congruence].
  apply steady_then; [apply steady_fs|]. intros [] s7 E7. apply steady_then; [apply steady_fs|]. intros [] s8 E8.
  apply steady_then; [apply steady_stack|]. intros [[sz' sp]|] s9 E9; [|apply Hbad; congruence].
  assert (procs s9 = procs s) as F9 by congruence. eapply wlp_mono; [apply (commit_wlp i path pd sz' _ sp s9 p); by rewrite F9|].
  intros r s' [-> E']. right. split; [done|]. exists pd, sz'. split; [done|]. by rewrite E' F9.
Qed.
End Image.

(** C6: [exec] is all or nothing.  When it returns, either the result is -1 and the process table is as it was,
    or the result is 0 and the slot of the calling process has the new page directory, the new size and
    the last element of the path as its name, and no other field and no other slot changed. *)
Theorem exec_all_or_nothing {S} `{!Cache S} dev_read kend kdata cpu i p (s : kern (files S)) path argv r s' :
  cpuproc s !! cpu = Some (Some i) → procs s !! i = Some p →
  exec dev_read kend kdata cpu path argv s = Ret r s' →
  r = -1 ∧ procs s' = procs s ∨
  r = 0 ∧ ∃ pgdir sz, pgdir ≠ 0 ∧ procs s' = <[i := new_image path pgdir sz p]> (procs s).
Proof. intros Hc Hp E. pose proof (exec_wlp dev_read kend kdata cpu i p s path argv Hc Hp) as H. by rw /wlp E in H. Qed.

(** ** Witness *)

(** A file system without the file "/x". *)
Definition one_proc : proc := set_cwd (Some 0%nat) (set_state RUNNING (set_pid 1 proc0)).
Definition img_exec : kern (files bcache) :=
  Kern (one_proc :: replicate 63 proc0) 2 (Some 0%nat) [Some 0%nat] (Kmem ∅ 0 true []) [] img_files.
Notation exec_x := (
  exec (Cache0 := bio_Cache 1) (λ _, None) KERNLINK KERNLINK 0 [47; 120] [] img_exec) (only parsing).

Lemma exec_all_or_nothing_witness :
  ∃ r s', exec_x = Ret r s' ∧ (r = -1 ∧ procs s' = procs img_exec ∨
    r = 0 ∧ ∃ pgdir sz, pgdir ≠ 0 ∧ procs s' = <[0%nat := new_image [47; 120] pgdir sz one_proc]> (procs img_exec)).
Proof.
  assert (match exec_x with Ret _ _ => true | _ => false end = true) as H by (vm_compute; reflexivity).
  destruct exec_x as [r s'|?|? ?|?] eqn:E; [|discriminate H..]. exists r, s'. split; [reflexivity|].
  exact (exec_all_or_nothing (Cache0 := bio_Cache 1) (λ _, None) KERNLINK KERNLINK 0 0 one_proc img_exec [47; 120] [] r s'
    eq_refl eq_refl E).
Defined.
