(* ===== verification/Descriptors.v ===== *)
(** * File descriptors and reference counts over the system calls.

    The invariant [fd_inv] ties the process table to the file table: an open file counts
    the descriptors of all processes that refer to it, and a process that does not run yet or
    any more has none.  Most calls are neutral ([neutral]): they change neither
    descriptors nor counts; fork, exit, pipe, dup, open and close move both together.  The theorem is
    that the dispatcher keeps the invariant whatever the call. *)
From S2P Require Import Prelude CMem Str Spinlock Kalloc Vm Proc Pipe Sleeplock Layout Bio Log Txn Fs FsBlocks File Syscall Sysfile Exec.
Local Open Scope Z_scope.

(** ** The invariant *)

Definition idle (st : procstate) : bool :=
  match st with UNUSED | EMBRYO | ZOMBIE => true | _ => false end.

Definition open_fds (ps : list proc) : list nat := (p_ofile <$> ps) ≫= λ l, l ≫= option_list.

(** [x]: a slot [fork] fills in. *)
Definition fd_wf (x : option nat) (ps : list proc) : Prop :=
  length ps = NPROC ∧ ∀ i p, ps !! i = Some p →
    length (p_ofile p) = NOFILE ∧ (x ≠ Some i → idle (p_state p) → p_ofile p = replicate NOFILE None).

Definition fd_but {S} (x : option nat) (s : kern (files S)) : Prop :=
  fd_wf x (procs s) ∧ counted (kfs s) (open_fds (procs s)).
Definition fd_inv {S} (s : kern (files S)) : Prop := fd_but None s.

(** ** Neutral code *)

Notation RUN := (runs "sched").

Section Neutral.
Context {S : Type} `{!Cache S}.
Implicit Types s : kern (files S).

Definition refs (t : list file) : list Z := f_ref <$> t.

Definition fsame s s' : Prop :=
  (refs (fl_table (kfs s')) = refs (fl_table (kfs s)) ∧ cpuproc s' = cpuproc s) ∧
  p_ofile <$> procs s' = p_ofile <$> procs s ∧
  ∀ i p', procs s' !! i = Some p' → idle (p_state p') → ∃ p, procs s !! i = Some p ∧ idle (p_state p).

Lemma fsame_refl s : fsame s s.
Proof. split_and!; [done..|]. intros i p Hp Hi. by exists p. Qed.
Lemma fsame_trans s1 s2 s3 : fsame s1 s2 → fsame s2 s3 → fsame s1 s3.
Proof.
  intros ([E1 E0]&E2&E3) ([F1 F0]&F2&F3). split_and!; [congruence..|].
  intros i p Hp Hi. destruct (F3 i p Hp Hi) as (q&Hq&Hj). by apply (E3 i q).
Qed.

Lemma counted_refs (f f' : files S) R : refs (fl_table f') = refs (fl_table f) → counted f R → counted f' R.
Proof.
  intros E [H1 H2]. assert (length (fl_table f') = length (fl_table f)) as El.
  { rw -(length_fmap f_ref (fl_table f')) -(length_fmap f_ref (fl_table f)). by rewrite -!/(refs _) E. }
  split; [|by rewrite El]. intros i x Hx. assert (refs (fl_table f) !! i = Some (f_ref x)) as Hr.
  { rewrite -E /refs list_lookup_fmap Hx. done. }
  rw /refs list_lookup_fmap in Hr. destruct (fl_table f !! i) as [y|] eqn:Hy; [|done]. injection Hr as <-. by apply H1.
Qed.

Lemma fsame_wf x s s' : fsame s s' → fd_wf x (procs s) → fd_wf x (procs s').
Proof.
  intros (_&E&Hid) [Hl Hw]. split.
  - rw -(length_fmap p_ofile (procs s')) E length_fmap. done.
  - intros i p' Hp'. assert ((p_ofile <$> procs s) !! i = Some (p_ofile p')) as Ho by (rw -E list_lookup_fmap Hp'; done).
    rw list_lookup_fmap in Ho. destruct (procs s !! i) as [p|] eqn:Hp; [|done]. injection Ho as <-.
    destruct (Hw i p Hp) as [? Hn]. split; [done|]. intros Hx Hi. destruct (Hid i p' Hp' Hi) as (q&Hq&Hqi). apply Hn; congruence.
Qed.
Lemma fsame_fds s s' : fsame s s' → open_fds (procs s') = open_fds (procs s).
Proof. intros (_&E&_). rw /open_fds E. done. Qed.
Lemma fsame_inv x s s' : fsame s s' → fd_but x s → fd_but x s'.
Proof.
  intros H [Hw Hc]. split; [exact (fsame_wf x s s' H Hw)|]. rewrite (fsame_fds s s' H). eapply counted_refs; [apply H|done].
Qed.

(** The code from [s] on; [s0] is the state the caller remembers. *)
Definition neutral {A} (m : K (kern (files S)) A) : Prop :=
  ∀ s0 s, fsame s0 s → RUN m s (λ _ s', fsame s0 s') (fsame s0).

Lemma neutral_runs {A} (m : K (kern (files S)) A) s : neutral m → RUN m s (λ _ s', fsame s s') (fsame s).
Proof. intros H. apply H, fsame_refl. Qed.
Lemma neutral_bind {A B} (m : K (kern (files S)) A) (f : A → K _ B) :
  neutral m → (∀ a, neutral (f a)) → neutral (m ≫= f).
Proof. intros Hm Hf s0 s H. apply runs_bind. eapply runs_mono; [by apply Hm|]. intros a s' H'. by apply Hf. Qed.
Lemma neutral_ret {A} (a : A) : neutral (mret a).
Proof. intros s0 s H. by apply runs_ret. Qed.
Lemma neutral_gets {A} (f : kern (files S) → A) : neutral (gets f).
Proof. intros s0 s H. by apply runs_gets. Qed.
Lemma neutral_panic {A} t : neutral (A := A) (panic t).
Proof. intros s0 s H. apply runs_panic. Qed.
Lemma neutral_undef {A} t : neutral (A := A) (undef t).
Proof. intros s0 s H. apply runs_undef. Qed.
Lemma neutral_when b m : neutral m → neutral (when b m).
Proof. intros Hm. destruct b; [done|apply neutral_ret]. Qed.
Lemma neutral_deref {A} (o : option A) : neutral (deref o).
Proof. destruct o; [apply neutral_ret|apply neutral_undef]. Qed.
Lemma neutral_kmem {A} (m : K kmem_state A) : neutral (in_kmem m).
Proof. intros s0 s H. apply run_in_kmem. intros a k h. exact H. Qed.
Lemma neutral_acquire l : neutral (lock_acquire l).
Proof. intros s0 s H. apply run_acquire. intros h. exact H. Qed.
Lemma neutral_release l : neutral (lock_release l).
Proof. intros s0 s H. apply run_release. intros h. exact H. Qed.
Lemma neutral_proc_at i : neutral (proc_at i).
Proof. intros s0 s H. by apply run_proc_at. Qed.
Lemma neutral_sched me : neutral (sched me).
Proof. intros s0 s H. by apply run_sched. Qed.
Lemma neutral_switchuvm p : neutral (switchuvm p).
Proof. intros s0 s H. by apply run_switchuvm. Qed.

(** A change of the table that keeps descriptors and does not make a process idle. *)
Lemma neutral_procs (g : list proc → list proc) :
  (∀ ps, p_ofile <$> g ps = p_ofile <$> ps) →
  (∀ ps i p', g ps !! i = Some p' → idle (p_state p') → ∃ p, ps !! i = Some p ∧ idle (p_state p)) →
  neutral (modify (λ s, set_procs (g (procs s)) s)).
Proof.
  intros Hg Hi s0 s H. apply runs_modify. eapply fsame_trans; [exact H|]. split_and!; [done|done|apply Hg|]. apply Hi.
Qed.
Lemma neutral_upd i (g : proc → proc) :
  (∀ p, p_ofile (g p) = p_ofile p) → (∀ p, idle (p_state (g p)) → idle (p_state p)) → neutral (upd_proc i g).
Proof.
  intros Ho Hs. apply (neutral_procs (alter g i)).
  - intros ps. apply list_eq. intros j. rw !list_lookup_fmap. destruct (decide (i = j)) as [<-|Hne].
    + rw list_lookup_alter_eq. destruct (ps !! i); [|done]. simpl. by rewrite Ho.
    + rw list_lookup_alter_ne //.
  - intros ps j p' Hp' Hid. destruct (decide (i = j)) as [<-|Hne].
    + rw list_lookup_alter_eq in Hp'. destruct (ps !! i) as [p|]; [|done]. injection Hp' as <-. exists p. auto.
    + rw list_lookup_alter_ne // in Hp'. by exists p'.
Qed.
Lemma neutral_wakeup1 chan : neutral (wakeup1 chan).
Proof.
  apply (neutral_procs (fmap (woken chan))).
  - intros ps. rw -list_fmap_compose. apply list_fmap_ext. intros i p _. simpl. rw /woken.
    by destruct (bool_decide _ && _).
  - intros ps i p' Hp' Hi. rw list_lookup_fmap in Hp'. destruct (ps !! i) as [p|]; [|done]. injection Hp' as <-.
    exists p. split; [done|]. move: Hi. rw /woken. destruct (bool_decide _ && _); [done|]. done.
Qed.
Lemma neutral_nextpid n : neutral (modify (set_nextpid n)).
Proof. intros s0 s H. apply runs_modify. exact H. Qed.
Lemma neutral_for_each {I} (l : list I) body : (∀ i, neutral (body i)) → neutral (for_each l body).
Proof. intros Hb. induction l as [|i l IH]; [apply neutral_ret|]. by apply neutral_bind. Qed.
Lemma neutral_for_break {I R} (l : list I) (body : I → K _ (option R)) : (∀ i, neutral (body i)) → neutral (for_break l body).
Proof.
  intros Hb. induction l as [|i l IH]; [apply neutral_ret|]. apply neutral_bind; [done|]. intros [v|]; [apply neutral_ret|done].
Qed.

(** *** Code on the open files that keeps the counts *)

Definition tame {A} (m : K (files S) A) : Prop := ∀ f, wlp m f (λ _ f', refs (fl_table f') = refs (fl_table f)).

Lemma neutral_fs {A} (m : K (files S) A) : tame m → neutral (in_fs m).
Proof.
  intros Hm s0 s H. rw /runs /in_fs /blocked_in /zoom. specialize (Hm (kfs s)). rw /wlp in Hm.
  destruct (m (kfs s)) as [a f|?|w f|?]; try done. eapply fsame_trans; [exact H|].
  split_and!; [exact Hm|done|done|]. intros i p Hp Hi. by exists p.
Qed.
Lemma tame_bind {A B} (m : K (files S) A) (f : A → K _ B) : tame m → (∀ a, tame (f a)) → tame (m ≫= f).
Proof.
  intros Hm Hf s. apply wlp_bind. eapply wlp_mono; [apply Hm|]. intros a s' E.
  eapply wlp_mono; [apply Hf|]. intros b s'' E'. simpl in *. congruence.
Qed.
Lemma tame_ret {A} (a : A) : tame (mret a).
Proof. done. Qed.
Lemma tame_panic {A} t : tame (A := A) (panic t).
Proof. done. Qed.
Lemma tame_undef {A} t : tame (A := A) (undef t).
Proof. done. Qed.
Lemma tame_sleeps {A} t : tame (A := A) (sleeps t).
Proof. done. Qed.
Lemma tame_infs {A} (m : K (fsys (lsys S)) A) : tame (infs m).
Proof. intros f. eapply wlp_mono; [apply infs_table|]. intros a f' E. by rewrite E. Qed.
Lemma tame_inpipe {A} p (m : K psys A) : tame (inpipe p m).
Proof. intros f. eapply wlp_mono; [apply inpipe_table|]. intros a f' E. by rewrite E. Qed.
Lemma tame_file_at i : tame (file_at i).
Proof. intros f. rw /wlp /file_at. by destruct (fl_table f !! i). Qed.
Lemma tame_upd_file i g : (∀ y, f_ref (g y) = f_ref y) → tame (upd_file i g).
Proof.
  intros Hg f. rw /wlp /upd_file /modify. simpl. apply list_eq. intros j. rw /refs !list_lookup_fmap.
  destruct (decide (i = j)) as [<-|Hne].
  - rw list_lookup_alter_eq. destruct (fl_table f !! i); [|done]. simpl. by rewrite Hg.
  - rw list_lookup_alter_ne //.
Qed.
Lemma tame_modify g : (∀ f, fl_table (g f) = fl_table f) → tame (modify g).
Proof. intros Hg f. rw /wlp /modify. by rewrite Hg. Qed.
End Neutral.

(** The rules as a search: [neutral] and [tame] by the shape of the code. *)
Create HintDb neutral.
#[export] Hint Resolve neutral_ret neutral_gets neutral_panic neutral_undef neutral_deref neutral_kmem neutral_acquire
  neutral_release neutral_proc_at neutral_sched neutral_switchuvm neutral_wakeup1 neutral_nextpid neutral_fs
  tame_ret tame_panic tame_undef tame_sleeps tame_infs tame_inpipe tame_file_at : neutral.

Ltac shape m := lazymatch m with match ?x with _ => _ end => x end.
Ltac neutral_step :=
  lazymatch goal with
  | |- neutral (mbind _ _) => apply neutral_bind; [|intros ?]
  | |- tame (mbind _ _) => apply tame_bind; [|intros ?]
  | |- neutral (when _ _) => apply neutral_when
  | |- tame (when ?b _) => destruct b; [|apply tame_ret]; cbn [when]
  | |- neutral (for_each _ _) => apply neutral_for_each; intros ?
  | |- neutral (for_break _ _) => apply neutral_for_break; intros ?
  | |- neutral (upd_proc _ _) => apply neutral_upd; done
  | |- tame (upd_file _ _) => apply tame_upd_file; done
  | |- tame (modify _) => apply tame_modify; done
  | |- neutral (in_fs _) => apply neutral_fs
  | |- neutral (let _ := _ in _) => cbv zeta
  | |- tame (let _ := _ in _) => cbv zeta
  | |- neutral ?m => let x := shape m in destruct x
  | |- tame ?m => let x := shape m in destruct x
  end.
Ltac neutral_tac := cbv beta; first [solve [eauto 3 with neutral nocore] | neutral_step; neutral_tac].

Section Calls.
Context {S : Type} `{!Cache S}.
Context (dev_read : Z → option (nat → Z → K (fsys (lsys S)) (Z * list Z))).
Context (dev_write : Z → option (nat → list Z → Z → K (fsys (lsys S)) Z)).
Context (kend kdata : Z) (cpu : nat).
Implicit Types s : kern (files S).

Lemma tame_inlog {A} (m : K (lsys S) A) : tame (inlog m).
Proof. apply tame_infs. Qed.
#[local] Hint Resolve tame_inlog : neutral.
Lemma tame_fileread me slot killed f n : tame (fileread me slot killed dev_read f n).
Proof. rw /fileread /from_pipe. neutral_tac. Qed.
Lemma tame_filewrite me slot killed f src n : tame (filewrite me slot killed dev_write f src n).
Proof.
  assert (∀ k ip i, tame (filewrite_loop me slot dev_write k f ip src i n)) as Hl.
  { intros k ip. induction k as [|k IH]; intros i; cbn [filewrite_loop]; neutral_tac. }
  rw /filewrite /from_pipe. neutral_tac.
Qed.
Lemma tame_filestat me f : tame (S := S) (filestat me f).
Proof. rw /filestat. neutral_tac. Qed.
Lemma tame_link me slot cwd old new : tame (link dev_read dev_write me slot cwd old new).
Proof. rw /link /link_bad /begin /finish. neutral_tac. Qed.
Lemma tame_unlink me slot cwd path : tame (unlink dev_read dev_write me slot cwd path).
Proof. rw /unlink /unlink_bad /begin /finish. neutral_tac. Qed.
Lemma tame_open_inode me slot cwd path omode : tame (open_inode dev_read dev_write me slot cwd path omode).
Proof. rw /open_inode /begin /finish. neutral_tac. Qed.
Lemma tame_open_done me ip f fd omode : tame (S := S) (open_done me ip f fd omode).
Proof. rw /open_done. neutral_tac. Qed.
Lemma tame_fail_tail me ip : tame (S := S) (_ ← infs (iunlockput me ip); finish (-1)).
Proof. rw /finish. neutral_tac. Qed.
Lemma tame_open_none me slot ip : tame (S := S) (open_fail me slot ip None).
Proof. rw /open_fail /finish. neutral_tac. Qed.
Lemma tame_mknode me cwd args : tame (mknode dev_read dev_write me cwd args).
Proof. rw /mknode /finish. neutral_tac. Qed.
Lemma tame_chdir me cwd path : tame (chdir dev_read me cwd path).
Proof. rw /chdir /finish. neutral_tac. Qed.
#[local] Hint Resolve tame_fileread tame_filewrite tame_filestat tame_link tame_unlink tame_open_inode tame_open_done
  tame_mknode tame_chdir : neutral.

Lemma neutral_current : neutral (S := S) (current cpu).
Proof. rw /current /curslot /myproc. neutral_tac. Qed.
Lemma neutral_fetchint a : neutral (S := S) (fetchint cpu a).
Proof. rw /fetchint /user_word /curproc /curslot /myproc. neutral_tac. Qed.
Lemma neutral_fetchstr a : neutral (S := S) (fetchstr cpu a).
Proof.
  assert (∀ n m pd x, neutral (S := S) (fetchstr_loop n m pd x)) as Hl.
  { intros n m pd. induction n as [|n IH]; intros x; cbn [fetchstr_loop]; neutral_tac. }
  rw /fetchstr /curproc /curslot /myproc. neutral_tac.
Qed.
#[local] Hint Resolve neutral_current neutral_fetchint neutral_fetchstr : neutral.
Lemma neutral_argint n : neutral (S := S) (argint cpu n).
Proof. rw /argint /curproc /curslot /myproc. neutral_tac. Qed.
#[local] Hint Resolve neutral_argint : neutral.
Lemma neutral_argptr n sz : neutral (S := S) (argptr cpu n sz).
Proof. rw /argptr /curproc /curslot /myproc. neutral_tac. Qed.
Lemma neutral_argstr n : neutral (S := S) (argstr cpu n).
Proof. rw /argstr. neutral_tac. Qed.
Lemma neutral_argfd n : neutral (S := S) (argfd cpu n).
Proof. rw /argfd. neutral_tac. Qed.
Lemma neutral_reclaim : neutral (S := S) (reclaim kend).
Proof. rw /reclaim. neutral_tac. Qed.
#[local] Hint Resolve neutral_argptr neutral_argstr neutral_argfd neutral_reclaim : neutral.
Lemma neutral_rw_args : neutral (S := S) (rw_args cpu).
Proof. rw /rw_args. neutral_tac. Qed.
Lemma neutral_on_path {A} (g : Z → nat → nat → K (files S) A) :
  (∀ me slot cwd, tame (g me slot cwd)) → neutral (on_path cpu g).
Proof. intros Hg. rw /on_path. neutral_tac. Qed.
#[local] Hint Resolve neutral_rw_args neutral_on_path : neutral.

(** *** The neutral calls *)

Lemma neutral_read : neutral (sys_read dev_read cpu).
Proof. rw /sys_read. neutral_tac. Qed.
Lemma neutral_write : neutral (sys_write dev_write cpu).
Proof. rw /sys_write. neutral_tac. Qed.
Lemma neutral_fstat : neutral (S := S) (sys_fstat cpu).
Proof. rw /sys_fstat. neutral_tac. Qed.
Lemma neutral_link : neutral (sys_link dev_read dev_write cpu).
Proof. rw /sys_link. neutral_tac. Qed.
Lemma neutral_unlink : neutral (sys_unlink dev_read dev_write cpu).
Proof. rw /sys_unlink. neutral_tac. Qed.
Lemma neutral_mkdir : neutral (sys_mkdir dev_read dev_write cpu).
Proof. rw /sys_mkdir /begin. neutral_tac. Qed.
Lemma neutral_mknod : neutral (sys_mknod dev_read dev_write cpu).
Proof. rw /sys_mknod /begin. neutral_tac. Qed.
Lemma neutral_chdir : neutral (sys_chdir dev_read cpu).
Proof. rw /sys_chdir /begin. neutral_tac. Qed.

Lemma neutral_loaduvm ip pd va off sz :
  neutral (loaduvm (@in_kmem (files S)) (readi_to dev_read ip) pd va off sz).
Proof. rw /loaduvm /readi_to. neutral_tac. Qed.
#[local] Hint Resolve neutral_loaduvm : neutral.
Lemma neutral_segments n ip pd off sz : neutral (load_segments dev_read kend n ip pd off sz).
Proof. revert off sz. induction n as [|n IH]; intros off sz; cbn [load_segments]; neutral_tac. Qed.
Lemma neutral_push_args argv pd argc sp ptrs : neutral (S := S) (push_args argv pd argc sp ptrs).
Proof. revert argc sp ptrs. induction argv as [|a argv IH]; intros argc sp ptrs; cbn [push_args]; neutral_tac. Qed.
#[local] Hint Resolve neutral_segments neutral_push_args : neutral.
Lemma neutral_stack pd sz argv : neutral (S := S) (build_stack kend pd sz argv).
Proof. rw /build_stack. neutral_tac. Qed.
Lemma neutral_exec_bad me pd ip : neutral (S := S) (exec_bad kend me pd ip).
Proof. rw /exec_bad. neutral_tac. Qed.
Lemma neutral_commit i path pd sz ent sp : neutral (S := S) (exec_commit kend i path pd sz ent sp).
Proof. rw /exec_commit. neutral_tac. Qed.
#[local] Hint Resolve neutral_stack neutral_exec_bad neutral_commit : neutral.
Lemma neutral_exec_args n uargv i : neutral (S := S) (exec_args cpu n uargv i).
Proof. revert i. induction n as [|n IH]; intros i; cbn [exec_args]; neutral_tac. Qed.
#[local] Hint Resolve neutral_exec_args : neutral.
Lemma neutral_exec : neutral (sys_exec dev_read kend kdata cpu).
Proof. rw /sys_exec /exec /begin /finish. neutral_tac. Qed.

Lemma neutral_kill : neutral (S := S) (sys_kill cpu).
Proof. rw /sys_kill /kill. neutral_tac. Qed.
Lemma neutral_getpid : neutral (S := S) (sys_getpid cpu).
Proof. rw /sys_getpid /curproc /curslot /myproc. neutral_tac. Qed.
Lemma neutral_getppid : neutral (S := S) (sys_getppid cpu).
Proof. rw /sys_getppid /curproc /curslot /myproc. neutral_tac. Qed.
Lemma neutral_pgcnt : neutral (S := S) (sys_pgcnt cpu).
Proof. rw /sys_pgcnt /curproc /curslot /myproc. neutral_tac. Qed.
Lemma neutral_sbrk : neutral (S := S) (sys_sbrk cpu kend).
Proof. rw /sys_sbrk /growproc /curproc /curslot /myproc. neutral_tac. Qed.
Lemma neutral_sleep me chan lk : neutral (S := S) (Proc.sleep me chan lk).
Proof. rw /Proc.sleep /sleep_return /myproc. neutral_tac. Qed.

(** A slot that was idle may become idle again. *)
Lemma idle_again s0 s i st : fsame s0 s → (∃ p, procs s0 !! i = Some p ∧ idle (p_state p)) →
  fsame s0 (set_procs (alter (set_state st) i (procs s)) s).
Proof.
  intros (E1&E2&E3) Hi. split_and!; [apply E1|apply E1| |].
  - rewrite -E2. apply list_eq. intros j. rw !list_lookup_fmap /=. destruct (decide (i = j)) as [<-|Hne].
    + rw list_lookup_alter_eq. by destruct (procs s !! i).
    + rw list_lookup_alter_ne //.
  - intros j p' Hp' Hid. simpl in Hp'. destruct (decide (i = j)) as [<-|Hne]; [done|].
    rw list_lookup_alter_ne // in Hp'. by apply (E3 j p').
Qed.
Lemma runs_base {A} (m : K (kern (files S)) A) s0 s1 s :
  fsame s0 s1 → RUN m s (λ _ s', fsame s1 s') (fsame s1) → RUN m s (λ _ s', fsame s0 s') (fsame s0).
Proof.
  intros H0. rw /runs. destruct (m s) as [a s'|?|c s'|?]; intros H; [exact (fsame_trans s0 s1 s' H0 H)|done| |done].
  intros Hc. exact (fsame_trans s0 s1 s' H0 (H Hc)).
Qed.

(** Neutral code before the rest. *)
Lemma runs_neutral {A B} (m : K (kern (files S)) A) (f : A → K _ B) s0 s Q (R : kern (files S) → Prop) :
  neutral m → fsame s0 s → (∀ s', fsame s0 s' → R s') → (∀ a s', fsame s0 s' → RUN (f a) s' Q R) → RUN (m ≫= f) s Q R.
Proof.
  intros Hm H0 HR Hf. apply runs_bind. specialize (Hm s0 s H0). revert Hm. rw /runs. destruct (m s) as [a s'|?|c s'|?]; [|done| |done].
  - exact (Hf a s').
  - intros Hm Hc. exact (HR s' (Hm Hc)).
Qed.

Lemma wait_scan_zombie cur i ps b j :
  wait_scan cur i ps b = inl j → ∃ p, ps !! (j - i)%nat = Some p ∧ p_state p = ZOMBIE ∧ (i ≤ j)%nat.
Proof.
  revert i b. induction ps as [|p ps IH]; intros i b; simpl; [done|].
  case_bool_decide; simpl; [case_bool_decide|].
  - intros [= ->]. exists p. by rewrite Nat.sub_diag.
  - intros (q&Hq&Hz&Hle)%IH. exists q. replace (j - i)%nat with (Datatypes.S (j - Datatypes.S i)) by lia. split_and!; [done|done|lia].
  - intros (q&Hq&Hz&Hle)%IH. exists q. replace (j - i)%nat with (Datatypes.S (j - Datatypes.S i)) by lia. split_and!; [done|done|lia].
Qed.

#[local] Hint Resolve neutral_sleep : neutral.
Ltac skip H := eapply runs_neutral; [neutral_tac|exact H|try done|]; clear H; [intros ? ? H].
Lemma neutral_wait addr : neutral (S := S) (sys_wait cpu addr kend).
Proof.
  rw /sys_wait /wait. apply neutral_bind; [neutral_tac|]. intros []. intros s0 s1 H1. eapply runs_base; [exact H1|].
  clear H1. rw /wait_loop /myproc. apply runs_bind, runs_gets. apply runs_bind, run_deref. intros cur _.
  apply runs_bind, runs_gets. destruct (wait_scan cur 0 (procs s1) false) as [i|kids] eqn:E.
  - apply wait_scan_zombie in E as (p&Hp&Hz&_). rw Nat.sub_0_r in Hp. pose proof (fsame_refl s1) as H.
    skip H. skip H. skip H. skip H. skip H. skip H. skip H. skip H.
    apply runs_bind, run_upd. apply (idle_again s1 _ i UNUSED) in H; [|exists p; by rewrite Hz].
    skip H. by apply runs_ret.
  - apply (fun m => neutral_runs m s1). neutral_tac.
Qed.

(** ** Descriptors and counts move together *)

Definition set_fd (fd : nat) (o : option nat) (p : proc) : proc := set_ofile (<[fd := o]> (p_ofile p)) p.

Lemma bind_set {A B} (f : A → list B) (l : list A) i x y : l !! i = Some x → f y ++ (l ≫= f) ≡ₚ f x ++ (<[i := y]> l ≫= f).
Proof. intros Hi. change ((y :: l) ≫= f ≡ₚ (x :: <[i := y]> l) ≫= f). by rewrite (insert_permute l i x y Hi). Qed.

Lemma open_fds_set ps i p fd o o' :
  ps !! i = Some p → p_ofile p !! fd = Some o →
  option_list o' ++ open_fds ps ≡ₚ option_list o ++ open_fds (alter (set_fd fd o') i ps).
Proof.
  intros Hp Ho. rw (alter_slot _ _ _ p) // /open_fds list_fmap_insert.
  set (g := λ l : list (option nat), l ≫= option_list). pose proof (bind_set option_list (p_ofile p) fd o o' Ho) as H1.
  assert ((p_ofile <$> ps) !! i = Some (p_ofile p)) as Hl by (rw list_lookup_fmap Hp; done).
  pose proof (bind_set g (p_ofile <$> ps) i (p_ofile p) (p_ofile (set_fd fd o' p)) Hl) as H2.
  apply (Permutation_app_inv_l (g (p_ofile p))). rewrite (Permutation_app_swap_app (g (p_ofile p)) (option_list o')).
  rewrite (app_assoc (option_list o')) H1 -app_assoc. rewrite (Permutation_app_swap_app (g (p_ofile p)) (option_list o)).
  by rewrite -H2.
Qed.

Lemma counted_permute (f : files S) R R' : R ≡ₚ R' → counted f R → counted f R'.
Proof.
  intros Hp [H1 H2]. split; [|intros i Hi; apply H2; by rewrite Hp].
  intros i x Hx. rewrite -(count_permute i R R' Hp). by apply H1.
Qed.

Lemma open_fds_in ps i p fd f : ps !! i = Some p → p_ofile p !! fd = Some (Some f) → f ∈ open_fds ps.
Proof.
  intros Hp Hf. pose proof (open_fds_set ps i p fd _ None Hp Hf) as H. simpl in H. rewrite H. left.
Qed.

Lemma open_fds_few x ps : fd_wf x ps → Z.of_nat (length (open_fds ps)) < 2 ^ 31 - 2.
Proof.
  intros [Hl Hw]. assert (∀ l : list (option nat), length (l ≫= option_list) ≤ length l)%nat as H1.
  { intros l. induction l as [|o l IH]; [done|]. rw bind_cons length_app. destruct o; simpl; lia. }
  assert (length (open_fds ps) ≤ NOFILE * length ps)%nat as H2; [|rewrite Hl in H2; change (NOFILE * NPROC)%nat with 1024%nat in H2; lia].
  assert (∀ q, q ∈ ps → length (p_ofile q) = NOFILE)%nat as H3.
  { intros q [i Hi]%list_elem_of_lookup. by apply (Hw i q). }
  clear Hl Hw. induction ps as [|q ps IH]; [done|]. rw /open_fds fmap_cons bind_cons length_app.
  pose proof (H1 (p_ofile q)) as Hq. rewrite (H3 q) in Hq; [left|]. cbn [length].
  specialize (IH ltac:(intros r Hr; apply H3; by right)). rw /open_fds in IH. change NOFILE with 16%nat in *. lia.
Qed.

Lemma fd_wf_set x ps i p fd o :
  fd_wf x ps → ps !! i = Some p → (o = None ∨ x = Some i ∨ idle (p_state p) = false) → fd_wf x (alter (set_fd fd o) i ps).
Proof.
  intros [Hl Hw] Hp Ho. rw (alter_slot _ _ _ p) //. split; [by rw length_insert|].
  intros j q [(<-&<-&_)|[Hne Hq]]%list_lookup_insert_Some; [|by apply Hw]. destruct (Hw i p Hp) as [H1 H2].
  split; [simpl; by rw length_insert|]. intros Hx Hi. cbn [set_fd set_ofile p_ofile p_state] in *. destruct Ho as [->|[->|Ho]]; [|done|by rewrite Ho in Hi].
  rewrite (H2 Hx Hi). apply insert_replicate.
Qed.

(** *** Rules *)

Lemma run_fs {A} (m : K (files S) A) s Q (R : kern (files S) → Prop) :
  wlp m (kfs s) (λ a f, Q a (set_kfs f s)) → RUN (in_fs m) s Q R.
Proof. rw /wlp /runs /in_fs /blocked_in /zoom. by destruct (m (kfs s)). Qed.

Lemma run_current s Q (R : kern (files S) → Prop) :
  (∀ i p, cpuproc s !! cpu = Some (Some i) → procs s !! i = Some p → Q (i, p) s) → RUN (current cpu) s Q R.
Proof.
  intros HQ. rw /current /curslot /myproc. apply runs_bind, runs_bind, runs_gets. apply run_deref. intros i Hi.
  apply runs_bind, run_proc_at. intros p Hp. apply runs_ret, HQ; [|done]. destruct (cpuproc s !! cpu); simpl in Hi; congruence.
Qed.

(** With the lock of the file table held the code panics. *)
Lemma locked {A} (m : K (files S) A) (f : files S) (Q : A → files S → Prop) :
  ("ftable" ∉ held f → wlp (_ ← lock_acquire "ftable"; m) f Q) → wlp (_ ← lock_acquire "ftable"; m) f Q.
Proof.
  intros H. destruct (decide ("ftable" ∈ held f)) as [Hi|Hi]; [|auto]. apply wlp_bind. rw /wlp lock_acquire_panic //.
Qed.

Lemma run_filealloc s R Q (W : kern (files S) → Prop) :
  counted (kfs s) R →
  (∀ i f, counted f (i :: R) → Q (Some i) (set_kfs f s)) → Q None s →
  RUN (in_fs filealloc) s Q W.
Proof.
  intros Hc HS HN. apply run_fs. rw /filealloc. apply locked. intros Hl. apply wp_wlp.
  eapply wp_mono; [by apply (filealloc_wp _ R)|]. intros [i|] f; [intros (_&Hi&_); by apply HS|].
  intros [-> _]. by destruct s.
Qed.
Lemma run_filedup s R i Q (W : kern (files S) → Prop) :
  counted (kfs s) R → i ∈ R → Z.of_nat (length R) < 2 ^ 31 - 1 →
  (∀ f, counted f (i :: R) → Q i (set_kfs f s)) → RUN (in_fs (File.filedup i)) s Q W.
Proof.
  intros Hc Hi Hn HQ. apply run_fs. rw /File.filedup. apply locked. intros Hl. apply wp_wlp.
  eapply wp_mono; [by apply (filedup_wp _ R)|]. intros j f (->&Hj&_). by apply HQ.
Qed.
Lemma fileclose_counted me slot (t : files S) R i :
  counted t (i :: R) → wlp (File.fileclose me slot i) t (λ _ t', counted t' R).
Proof.
  intros Hc. rw /File.fileclose. apply locked. intros Hl.
  eapply wlp_mono; [apply (fileclose_wlp _ (i :: R)); [done|done|left]|].
  intros [] f (R'&Hp&Hf&_). eapply counted_permute; [|exact Hf]. exact (Permutation_cons_inv Hp).
Qed.
Lemma run_fileclose me slot s R i Q (W : kern (files S) → Prop) :
  counted (kfs s) (i :: R) → (∀ f, counted f R → Q tt (set_kfs f s)) → RUN (in_fs (File.fileclose me slot i)) s Q W.
Proof. intros Hc HQ. apply run_fs. eapply wlp_mono; [exact (fileclose_counted me slot (kfs s) R i Hc)|]. intros []. apply HQ. Qed.

(** *** The current process *)

Definition on_cpu s : Prop :=
  ∃ i p, cpuproc s !! cpu = Some (Some i) ∧ procs s !! i = Some p ∧ idle (p_state p) = false.

Lemma fsame_slot s s' i p : fsame s s' → procs s !! i = Some p → ∃ p', procs s' !! i = Some p' ∧ p_ofile p' = p_ofile p.
Proof.
  intros (_&E&_) Hp. assert ((p_ofile <$> procs s') !! i = Some (p_ofile p)) as H by (rw E list_lookup_fmap Hp; done).
  rw list_lookup_fmap in H. destruct (procs s' !! i) as [p'|]; [|done]. injection H as E'. by exists p'.
Qed.
Lemma fsame_on_cpu s s' : fsame s s' → on_cpu s → on_cpu s'.
Proof.
  intros H (i&p&Hc&Hp&Hi). destruct (fsame_slot s s' i p H Hp) as (p'&Hp'&_). destruct H as ([_ E]&_&Hid). exists i, p'.
  rewrite E. split_and!; [done..|]. destruct (idle (p_state p')) eqn:Hi'; [|done].
  destruct (Hid i p' Hp') as (q&Hq&Hqi); [by rewrite Hi'|]. simplify_eq. by rewrite Hi in Hqi.
Qed.

Lemma run_argfd n s (Q : option (Z * nat) → kern (files S) → Prop) (R : kern (files S) → Prop) :
  (∀ s', fsame s s' → R s') → (∀ s', fsame s s' → Q None s') →
  (∀ s' fd f i p, fsame s s' → cpuproc s' !! cpu = Some (Some i) → procs s' !! i = Some p →
     p_ofile p !! Z.to_nat fd = Some (Some f) → Q (Some (fd, f)) s') →
  RUN (argfd cpu n) s Q R.
Proof.
  intros HR HN HS. rw /argfd. eapply runs_neutral; [apply neutral_argint|apply fsame_refl|done|]. intros [fd|] s1 H1; [|by apply runs_ret, HN].
  destruct (_ || _); [by apply runs_ret, HN|]. apply runs_bind, run_current. intros i p Hc Hp. apply runs_ret. simpl.
  destruct (p_ofile p !! Z.to_nat fd) as [[f|]|] eqn:E; simpl; [by apply (HS _ _ _ i p)|by apply HN|by apply HN].
Qed.

(** A free descriptor takes the file. *)
Lemma run_fdalloc f s (Q : Z → kern (files S) → Prop) R :
  fd_wf None (procs s) → on_cpu s → Q (-1) s →
  (∀ fd i p, cpuproc s !! cpu = Some (Some i) → procs s !! i = Some p → idle (p_state p) = false →
     p_ofile p !! fd = Some None → fd_wf None (alter (set_fd fd (Some f)) i (procs s)) →
     f :: open_fds (procs s) ≡ₚ open_fds (alter (set_fd fd (Some f)) i (procs s)) →
     Q (Z.of_nat fd) (set_procs (alter (set_fd fd (Some f)) i (procs s)) s)) →
  RUN (fdalloc cpu f) s Q R.
Proof.
  intros Hw (i0&p0&Hc0&Hp0&Hi0) HN HS. rw /fdalloc. apply runs_bind, run_current. intros i p Hc Hp.
  assert (i0 = i) as -> by congruence. assert (p0 = p) as -> by congruence. simpl. destruct (list_find _ _) as [[fd o]|] eqn:E; [|by apply runs_ret].
  apply list_find_Some in E as (Ho&->&_). apply runs_bind, run_upd, runs_ret. apply (HS fd i p); try done.
  - apply (fd_wf_set None _ i p); [done|done|]. by right; right.
  - exact (open_fds_set (procs s) i p fd None (Some f) Hp Ho).
Qed.
Lemma run_clear_fd fd s i p (Q : unit → kern (files S) → Prop) R :
  cpuproc s !! cpu = Some (Some i) → procs s !! i = Some p →
  Q tt (set_procs (alter (set_fd (Z.to_nat fd) None) i (procs s)) s) → RUN (clear_fd cpu fd) s Q R.
Proof.
  intros Hc Hp HQ. rw /clear_fd. apply runs_bind, run_current. intros j q Hc' Hq. simplify_eq. by apply run_upd.
Qed.

(** *** The six calls *)

Lemma keep_inv s : fd_inv s → ∀ s', fsame s s' → fd_inv s'.
Proof. intros Hi s' H. exact (fsame_inv None s s' H Hi). Qed.

Lemma fd_dup s : fd_inv s → on_cpu s → RUN (sys_dup cpu) s (λ _, fd_inv) fd_inv.
Proof.
  intros Hinv Hon. rw /sys_dup. apply runs_bind, run_argfd; [by apply keep_inv| |].
  { intros s1 H1. by apply runs_ret, (keep_inv s). }
  intros s1 fd f i p H1 Hc Hp Ho. destruct (keep_inv s Hinv s1 H1) as [Hw Hcnt]. apply (fsame_on_cpu s s1 H1) in Hon.
  apply runs_bind, run_fdalloc; [done|done|by apply runs_ret|]. intros fd' j q _ _ _ _ Hw' Hperm.
  destruct (Z.ltb_spec (Z.of_nat fd') 0); [lia|].
  apply runs_bind, (run_filedup _ (open_fds (procs s1))); [done| | |].
  - by apply (open_fds_in _ i p (Z.to_nat fd)).
  - pose proof (open_fds_few None _ Hw). lia.
  - intros t Ht. apply runs_ret. split; [done|]. simpl. exact (counted_permute _ _ _ Hperm Ht).
Qed.

Lemma run_reclaim s (Q : unit → kern (files S) → Prop) W : (∀ s', fsame s s' → Q tt s') → RUN (reclaim kend) s Q W.
Proof.
  intros HQ. rw /reclaim. apply runs_bind, runs_gets. apply runs_bind, run_fs. rw /wlp /modify.
  apply (runs_for_each _ _ _ (λ _ s', fsame s s')); [| |exact HQ].
  - split_and!; [done..|]. intros i p Hp Hi. by exists p.
  - intros pre a post s' _ H. apply run_in_kmem. intros [] k h. exact H.
Qed.
Lemma run_close_file f s (R : list nat) (Q : unit → kern (files S) → Prop) W :
  counted (kfs s) (f :: R) → fd_wf None (procs s) →
  (∀ s', fd_wf None (procs s') → open_fds (procs s') = open_fds (procs s) → counted (kfs s') R → Q tt s') →
  RUN (close_file kend cpu f) s Q W.
Proof.
  intros Hc Hw HQ. rw /close_file. apply runs_bind, run_current. intros i p _ _.
  apply runs_bind, (run_fileclose _ _ _ R); [done|]. intros t Ht. apply run_reclaim. intros s' H.
  apply HQ; [exact (fsame_wf None _ s' H Hw)|exact (fsame_fds _ s' H)|]. eapply counted_refs; [apply H|done].
Qed.

Lemma fd_close s : fd_inv s → RUN (sys_close kend cpu) s (λ _, fd_inv) fd_inv.
Proof.
  intros Hinv. rw /sys_close. apply runs_bind, run_argfd; [by apply keep_inv| |].
  { intros s1 H1. by apply runs_ret, (keep_inv s). }
  intros s1 fd f i p H1 Hc Hp Ho. destruct (keep_inv s Hinv s1 H1) as [Hw Hcnt].
  apply runs_bind, (run_clear_fd _ _ i p); [done|done|].
  pose proof (open_fds_set (procs s1) i p _ _ None Hp Ho) as Hperm. simpl in Hperm.
  apply runs_bind. eapply run_close_file.
  - simpl. exact (counted_permute _ _ _ Hperm Hcnt).
  - apply (fd_wf_set None _ i p); [done|done|by left].
  - intros s' Hw' E' Hc'. apply runs_ret. split; [done|]. by rewrite E'.
Qed.

Lemma fd_open s : fd_inv s → on_cpu s → RUN (sys_open dev_read dev_write cpu) s (λ _, fd_inv) fd_inv.
Proof.
  intros Hinv Hon. pose proof (fsame_refl s) as H. pose proof (keep_inv s Hinv) as Hk.
  rw /sys_open. skip H. destruct a as [[? path]|]; [|by apply runs_ret, Hk].
  skip H. destruct a as [omode|]; [|by apply runs_ret, Hk]. skip H. destruct a as [ip|]; [|by apply runs_ret, Hk].
  destruct (Hk _ H) as [Hw Hc]. apply (fsame_on_cpu _ _ H) in Hon. clear Hk H Hinv.
  apply runs_bind, run_current. intros i p _ _. apply runs_bind, (run_filealloc _ _ _ _ Hc).
  - intros f t Ht. apply runs_bind, run_fdalloc; [done|done| |].
    + simpl. apply run_fs. rw /open_fail. apply wlp_bind.
      eapply wlp_mono; [exact (fileclose_counted _ _ _ _ _ Ht)|]. intros [] t' Ht'.
      eapply wlp_mono; [apply tame_fail_tail|]. intros r t'' E. split; [done|]. exact (counted_refs _ _ _ E Ht').
    + intros fd j q _ _ _ _ Hw' Hperm. destruct (Z.ltb_spec (Z.of_nat fd) 0); [lia|]. apply run_fs.
      eapply wlp_mono; [apply tame_open_done|]. intros r t' E. split; [done|].
      eapply counted_refs; [exact E|]. exact (counted_permute _ _ _ Hperm Ht).
  - apply run_fs. eapply wlp_mono; [apply tame_open_none|]. intros r t E. split; [done|]. exact (counted_refs _ _ _ E Hc).
Qed.

Lemma filealloc_counted (t : files S) R :
  counted t R → wlp filealloc t (λ r t', counted t' (option_list r ++ R)).
Proof.
  intros Hc. rw /filealloc. apply locked. intros Hl. apply wp_wlp.
  eapply wp_mono; [by apply (filealloc_wp _ R)|]. intros [i|] f; [by intros (_&Hi&_)|]. by intros [-> _].
Qed.

Lemma pipealloc_files_counted me slot (t : files S) R : counted t R →
  wlp (pipealloc_files me slot) t (λ r t',
    match r with Some (f0, f1) => counted t' (f1 :: f0 :: R) | None => counted t' R end).
Proof.
  intros Hc. rw /pipealloc_files. apply wlp_bind. eapply wlp_mono; [exact (filealloc_counted t R Hc)|].
  intros [f0|] t0 H0; [|done]. apply wlp_bind. eapply wlp_mono; [exact (filealloc_counted t0 _ H0)|].
  intros [f1|] t1 H1; [done|]. apply wlp_bind. eapply wlp_mono; [exact (fileclose_counted me slot t1 R f0 H1)|]. done.
Qed.
Lemma pipealloc_finish_counted me slot f0 f1 page (t : files S) R : counted t (f1 :: f0 :: R) →
  wlp (pipealloc_finish me slot f0 f1 page) t (λ _ t', counted t' (if page =? 0 then R else f1 :: f0 :: R)).
Proof.
  intros Hc. rw /pipealloc_finish. destruct (page =? 0).
  - apply wlp_bind. eapply wlp_mono.
    + apply (fileclose_counted me slot t (f1 :: R) f0). eapply counted_permute; [|exact Hc]. constructor.
    + intros [] t1 H1. exact (fileclose_counted me slot t1 R f1 H1).
  - assert (tame (S := S) (_ ← modify (λ s : files S, set_pipes (<[page := Psys (pipe_init (replicate (Z.to_nat PIPESIZE) 0)) ∅ []]> (fl_pipes s)) s);
      _ ← upd_file f0 (λ y, File FD_PIPE (f_ref y) true false page (f_ip y) (f_off y));
      upd_file f1 (λ y, File FD_PIPE (f_ref y) false true page (f_ip y) (f_off y)))) as Ht by neutral_tac.
    eapply wlp_mono; [apply Ht|]. intros [] t1 E. exact (counted_refs _ _ _ E Hc).
Qed.

(** The table and the CPU are the same and the open files count [R]. *)
Definition only_counts s (R : list nat) s' : Prop := procs s' = procs s ∧ cpuproc s' = cpuproc s ∧ counted (kfs s') R.

Lemma run_pipealloc s R Q (W : kern (files S) → Prop) :
  counted (kfs s) R → (∀ s', only_counts s R s' → Q None s') →
  (∀ f0 f1 s', only_counts s (f1 :: f0 :: R) s' → Q (Some (f0, f1)) s') → RUN (pipealloc cpu) s Q W.
Proof.
  intros Hc HN HS. rw /pipealloc. apply runs_bind, run_current. intros i p _ _.
  apply runs_bind, run_fs. eapply wlp_mono; [exact (pipealloc_files_counted _ _ _ R Hc)|].
  intros [[f0 f1]|] t Ht; [|by apply runs_ret, HN].
  apply runs_bind, run_in_kmem. intros page k h.
  apply runs_bind, run_fs. eapply wlp_mono; [exact (pipealloc_finish_counted _ _ f0 f1 page t R Ht)|].
  intros [] t' Ht'. apply runs_ret. destruct (page =? 0); [by apply HN|by apply HS].
Qed.

Lemma fd_pipe_fail f0 f1 s :
  fd_wf None (procs s) → counted (kfs s) (f0 :: f1 :: open_fds (procs s)) → RUN (pipe_fail kend cpu f0 f1) s (λ _, fd_inv) fd_inv.
Proof.
  intros Hw Hc. rw /pipe_fail. apply runs_bind, (run_close_file _ _ (f1 :: open_fds (procs s))); [done|done|].
  intros s1 Hw1 E1 Hc1. apply runs_bind, (run_close_file _ _ (open_fds (procs s))); [done|done|].
  intros s2 Hw2 E2 Hc2. apply runs_ret. split; [done|]. by rewrite E2 E1.
Qed.

Lemma fd_pipe s : fd_inv s → on_cpu s → RUN (sys_pipe kend cpu) s (λ _, fd_inv) fd_inv.
Proof.
  intros Hinv Hon. pose proof (fsame_refl s) as H. pose proof (keep_inv s Hinv) as Hk.
  rw /sys_pipe. skip H. destruct a as [addr|]; [|by apply runs_ret, Hk]. rename s' into s1.
  destruct (Hk _ H) as [Hw Hc]. apply (fsame_on_cpu _ _ H) in Hon. clear Hk H Hinv.
  apply runs_bind, (run_pipealloc _ _ _ _ Hc).
  { intros s2 (E1&E2&Hc2). apply runs_ret. split; by rewrite E1. }
  intros f0 f1 s2 (E1&E2&Hc2). rewrite -E1 in Hw Hc2. assert (on_cpu s2) as Hon2 by (rw /on_cpu E1 E2; exact Hon).
  apply runs_bind, run_fdalloc; [done|done| |].
  { simpl. apply fd_pipe_fail; [done|]. eapply counted_permute; [|exact Hc2]. constructor. }
  intros fd0 i p Hci Hp Hi Ho Hw3 Hperm3. destruct (Z.ltb_spec (Z.of_nat fd0) 0); [lia|].
  set (s3 := set_procs _ s2). assert (procs s3 !! i = Some (set_fd fd0 (Some f0) p)) as Hp3.
  { simpl. rw list_lookup_alter_eq Hp. done. }
  assert (on_cpu s3) as Hon3 by (exists i, (set_fd fd0 (Some f0) p); done).
  apply runs_bind, run_fdalloc; [done|done| |].
  - simpl. apply runs_bind, (run_clear_fd _ _ i (set_fd fd0 (Some f0) p)); [done|done|]. rewrite Nat2Z.id.
    assert (p_ofile (set_fd fd0 (Some f0) p) !! fd0 = Some (Some f0)) as Ho3.
    { cbn [set_fd set_ofile p_ofile]. apply list_lookup_insert_eq. exact (lookup_lt_Some _ _ _ Ho). }
    pose proof (open_fds_set (procs s3) i _ fd0 _ None Hp3 Ho3) as Hperm4.
    apply fd_pipe_fail; [apply (fd_wf_set None _ i _ fd0 None Hw3 Hp3); by left|].
    eapply counted_permute; [|exact Hc2]. etrans; [|apply perm_swap]. constructor. exact (Permutation_trans Hperm3 Hperm4).
  - intros fd1 j q _ _ _ _ Hw4 Hperm4. destruct (Z.ltb_spec (Z.of_nat fd1) 0); [lia|].
    set (s4 := set_procs _ s3). assert (fd_inv s4) as H4.
    { split; [done|]. eapply counted_permute; [|exact Hc2]. etrans; [|exact Hperm4]. constructor. exact Hperm3. }
    pose proof (fsame_refl s4) as Hs. pose proof (keep_inv s4 H4) as Hk. clearbody s4.
    skip Hs. skip Hs. skip Hs. by apply runs_ret, Hk.
Qed.

(** *** fork and exit *)

Context (o : FileOps (files S)).
(** What the operations of the class are in this kernel ([files_Ops]). *)
Hypothesis Hdup : ∀ f, Proc.filedup f = File.filedup f.
Hypothesis Hclose : ∀ f, ∃ me slot, Proc.fileclose f = File.fileclose me slot f.
Hypothesis Hidup : ∀ i, tame (Proc.idup i).
Hypothesis Hiput : ∀ i, tame (Proc.iput i).
Hypothesis Hbegin : tame Proc.begin_op.
Hypothesis Hend : tame Proc.end_op.
#[local] Hint Resolve Hidup Hiput Hbegin Hend : neutral.

(** The slot [allocproc] returns was free. *)
Lemma run_allocproc fr tr s (Q : option nat → kern (files S) → Prop) R :
  (∀ s', fsame s s' → R s') → (∀ s', fsame s s' → Q None s') →
  (∀ i p s', procs s !! i = Some p → idle (p_state p) → fsame s s' → Q (Some i) s') →
  RUN (allocproc fr tr) s Q R.
Proof.
  intros HR HN HS. rw /allocproc. apply runs_bind, run_acquire. intros h. set (s1 := set_khold h s).
  assert (fsame s s1) as H by apply (fsame_refl s). apply runs_bind, runs_gets.
  destruct (list_find _ _) as [[i p]|] eqn:E; [|skip H; by apply runs_ret, HN].
  apply list_find_Some in E as (Hp&Hu&_). simpl in Hp.
  assert (∃ p, procs s !! i = Some p ∧ idle (p_state p)) as Hi by (exists p; by rewrite Hu).
  apply runs_bind, run_upd. apply (idle_again s _ i EMBRYO) in H; [|done].
  skip H. skip H. skip H. skip H. skip H. skip H.
  destruct (_ =? 0).
  - apply runs_bind, run_upd. apply (idle_again s _ i UNUSED) in H; [|done]. by apply runs_ret, HN.
  - skip H. skip H. skip H. skip H. skip H. apply runs_ret. apply (HS i p); [done|by rewrite Hu|done].
Qed.

(** Code that never gives the CPU up. *)
Definition quiet {A} (m : K (kern (files S)) A) : Prop := ∀ s, RUN m s (λ _ _, True) (λ _, False).
Lemma runs_quiet {A B} (m : K (kern (files S)) A) (f : A → K _ B) s0 s Q (R : kern (files S) → Prop) :
  quiet m → neutral m → fsame s0 s → (∀ a s', fsame s0 s' → RUN (f a) s' Q R) → RUN (m ≫= f) s Q R.
Proof.
  intros Hq Hm H0 Hf. apply runs_bind. specialize (Hm s0 s H0). specialize (Hq s). revert Hm Hq. rw /runs.
  destruct (m s) as [a s'|?|c s'|?]; [intros H _; exact (Hf a s' H)|done| |done]. intros _ Hn Hc. by destruct Hn.
Qed.
Ltac quiet_tac :=
  intros ?; lazymatch goal with
  | |- runs _ (deref _) _ _ _ => by apply run_deref
  | |- runs _ (in_fs _) _ _ _ => by apply run_in_fs
  | |- runs _ (in_kmem _) _ _ _ => by apply run_in_kmem
  | |- runs _ (proc_at _) _ _ _ => by apply run_proc_at
  | |- runs _ (lock_acquire _) _ _ _ => by apply run_acquire
  | |- runs _ (lock_release _) _ _ _ => by apply run_release
  | |- runs _ (upd_proc _ _) _ _ _ => by apply run_upd
  end.
Ltac pass H := eapply runs_quiet; [quiet_tac|neutral_tac|exact H|]; clear H; [intros ? ? H].

(** While [fork] copies the descriptors of [c] to slot [i]. *)
Record copying (c : proc) (i : nat) (fds : list nat) s : Prop := {
  cp_inv : fd_but (Some i) s;
  cp_from : ∀ fd f, p_ofile c !! fd = Some (Some f) → f ∈ open_fds (procs s);
  cp_to : ∃ p, procs s !! i = Some p ∧ ∀ fd, (fd < NOFILE)%nat → fd ∉ fds → p_ofile p !! fd = Some None
}.

Lemma copy_fd c i pre fd s R :
  copying c i pre s → fd ∉ pre → (fd < NOFILE)%nat →
  RUN (match p_ofile c !! fd with
       | Some (Some f) =>
           f' ← in_fs (Proc.filedup f);
           upd_proc i (λ p, set_ofile (<[fd := Some f']> (p_ofile p)) p)
       | _ => mret tt
       end) s (λ _, copying c i (pre ++ [fd])) R.
Proof.
  intros [[Hw Hc] Hfrom (p&Hp&Hto)] Hfd Hlt.
  assert (copying c i (pre ++ [fd]) s) as Hskip.
  { split; [done|done|]. exists p. split; [done|]. intros k Hk Hn. apply Hto; [done|]. intros Hin. apply Hn, elem_of_app. by left. }
  destruct (p_ofile c !! fd) as [[f|]|] eqn:Ef; [|by apply runs_ret|by apply runs_ret].
  apply runs_bind. rewrite Hdup. apply (run_filedup _ (open_fds (procs s))); [done|by apply (Hfrom fd)| |].
  { pose proof (open_fds_few _ _ Hw). lia. }
  intros t Ht. apply run_upd. pose proof (open_fds_set (procs s) i p fd None (Some f) Hp (Hto fd Hlt Hfd)) as Hperm.
  split.
  - split; [apply (fd_wf_set _ _ i p); auto|]. exact (counted_permute _ _ _ Hperm Ht).
  - intros k g Hg. change (g ∈ open_fds (alter (set_fd fd (Some f)) i (procs s))). simpl in Hperm. rewrite -Hperm. right. by apply (Hfrom k).
  - exists (set_fd fd (Some f) p). split; [simpl; rw list_lookup_alter_eq Hp; done|].
    intros k Hk Hn. cbn [set_fd set_ofile p_ofile]. rw list_lookup_insert_ne; [|apply Hto; [done|]].
    + intros ->. apply Hn, elem_of_app. right. left.
    + intros Hin. apply Hn, elem_of_app. by left.
Qed.

Lemma copying_start s s1 s2 cur c i p :
  fd_inv s → fsame s s1 → fsame s s2 → procs s1 !! cur = Some c → procs s !! i = Some p → idle (p_state p) →
  copying c i [] s2.
Proof.
  intros Hinv H1 H2 Hc Hp Hi. destruct (keep_inv s Hinv s2 H2) as [[Hl Hw] Hcnt]. split.
  - split; [|done]. split; [done|]. intros j q Hq. destruct (Hw j q Hq) as [? Hn]. auto.
  - intros fd f Hf. rewrite (fsame_fds s s2 H2) -(fsame_fds s s1 H1). by apply (open_fds_in _ cur c fd).
  - destruct (fsame_slot s s2 i p H2 Hp) as (p'&Hp'&E). exists p'. split; [done|]. intros fd Hfd _.
    destruct Hinv as [[_ Hs] _]. destruct (Hs i p Hp) as [_ Hn]. rewrite E Hn //. by apply lookup_replicate_2.
Qed.

(** The new process runs: it may have descriptors. *)
Lemma awake s s' i p : fd_but (Some i) s → procs s !! i = Some p → fsame s s' →
  fd_inv (set_procs (alter (set_state RUNNABLE) i (procs s')) s').
Proof.
  intros Hb Hp H. destruct (fsame_inv (Some i) s s' H Hb) as [[Hl Hw] Hc].
  destruct (fsame_slot s s' i p H Hp) as (p'&Hp'&_). destruct (Hw i p' Hp') as [Hlen _].
  assert (p_ofile <$> alter (set_state RUNNABLE) i (procs s') = p_ofile <$> procs s') as E.
  { rw (alter_slot _ _ _ p') // list_fmap_insert. apply list_insert_id. rw list_lookup_fmap Hp'. done. }
  split; [split|].
  - simpl. by rw length_alter.
  - intros j q Hq. simpl in Hq. rw (alter_slot _ _ _ p') // in Hq.
    apply list_lookup_insert_Some in Hq as [(<-&<-&_)|[Hne Hq]]; [done|]. destruct (Hw j q Hq) as [? Hn]. split; [done|].
    intros _. apply Hn. congruence.
  - rw /open_fds /= E. exact Hc.
Qed.

Lemma fd_fork fr tr s : fd_inv s → RUN (sys_fork cpu kend kdata fr tr) s (λ _, fd_inv) fd_inv.
Proof.
  intros Hinv. pose proof (keep_inv s Hinv) as Hk. rw /sys_fork /fork /myproc. apply runs_bind, runs_gets.
  apply runs_bind, run_deref. intros cur _. apply runs_bind, run_allocproc; [done|by intros; apply runs_ret, Hk|].
  intros i p0 s1 Hp0 Hi0 H. pose proof H as H1. apply runs_bind, run_proc_at. intros c Hcur. skip H. skip H.
  destruct (_ =? 0).
  { skip H. skip H. skip H. apply runs_bind, run_upd. apply (idle_again s _ i UNUSED) in H; [|by exists p0]. by apply runs_ret, Hk. }
  skip H. skip H. skip H. skip H. skip H.
  apply runs_bind, (runs_for_each _ _ _ (copying c i)); [by apply (copying_start s s1 _ cur c i p0)| |].
  { intros pre fd post sx E HJ. apply copy_fd; [done| |].
    - assert (NoDup (pre ++ fd :: post)) as Hnd by (rewrite -E; apply NoDup_seq).
      apply NoDup_app in Hnd as (_&Hd&_). intros Hin. apply (Hd fd Hin). left.
    - assert (fd ∈ seq 0 NOFILE) as Hin by (rewrite E; apply elem_of_app; right; left). apply elem_of_seq in Hin. lia. }
  intros s3 [Hb _ (p&Hp&_)]. pose proof (fsame_refl s3) as H3.
  pass H3. pass H3. pass H3. pass H3. pass H3. pass H3.
  apply runs_bind, run_upd. apply (awake s3 _ i p Hb Hp) in H3.
  pose proof (keep_inv _ H3) as Hk'. match type of H3 with fd_inv ?x => pose proof (fsame_refl x) as H4 end.
  pass H4. by apply runs_ret, Hk'.
Qed.

(** While [exit] closes the descriptors of slot [cur]. *)
Definition closing (cur : nat) (fds : list nat) s : Prop :=
  fd_inv s ∧ ∀ p, procs s !! cur = Some p → ∀ fd, fd ∈ fds → (fd < NOFILE)%nat → p_ofile p !! fd = Some None.

Lemma close_fd cur pre fd s R :
  closing cur pre s →
  RUN (p ← proc_at cur;
       match p_ofile p !! fd with
       | Some (Some f) =>
           _ ← in_fs (Proc.fileclose f);
           upd_proc cur (λ p, set_ofile (<[fd := None]> (p_ofile p)) p)
       | _ => mret tt
       end) s (λ _, closing cur (pre ++ [fd])) R.
Proof.
  intros [[Hw Hc] Hcl]. apply runs_bind, run_proc_at. intros p Hp. destruct (proj2 Hw cur p Hp) as [Hlen _].
  destruct (p_ofile p !! fd) as [[f|]|] eqn:Ef.
  - destruct (Hclose f) as (me&slot&->). pose proof (open_fds_set (procs s) cur p fd (Some f) None Hp Ef) as Hperm. simpl in Hperm.
    apply runs_bind, (run_fileclose _ _ _ (open_fds (alter (set_fd fd None) cur (procs s)))).
    { exact (counted_permute _ _ _ Hperm Hc). }
    intros t Ht. apply run_upd. split; [split; [apply (fd_wf_set None _ cur p); auto|done]|].
    intros q Hq k Hk Hlt. simpl in Hq. rw list_lookup_alter_eq Hp in Hq. injection Hq as <-.
    cbn [set_fd set_ofile p_ofile]. destruct (decide (fd = k)) as [<-|Hne].
    + apply list_lookup_insert_eq. lia.
    + rw list_lookup_insert_ne //. apply (Hcl p Hp); [|done]. apply elem_of_app in Hk as [?|?%list_elem_of_singleton]; [done|congruence].
  - apply runs_ret. split; [done|]. intros q Hq k Hk Hlt. simplify_eq. apply elem_of_app in Hk as [?| ->%list_elem_of_singleton]; auto.
  - apply runs_ret. split; [done|]. intros q Hq k Hk Hlt. simplify_eq. apply elem_of_app in Hk as [?| ->%list_elem_of_singleton]; [auto|].
    apply lookup_ge_None in Ef. lia.
Qed.

(** A process without descriptors may end. *)
Lemma asleep s s' i : closing i (seq 0 NOFILE) s → fsame s s' →
  fd_inv (set_procs (alter (set_state ZOMBIE) i (procs s')) s').
Proof.
  intros [Hb Hcl] H. destruct (fsame_inv None s s' H Hb) as [[Hl Hw] Hc].
  assert (p_ofile <$> alter (set_state ZOMBIE) i (procs s') = p_ofile <$> procs s') as E.
  { apply list_eq. intros j. rw !list_lookup_fmap. destruct (decide (i = j)) as [<-|Hne].
    - rw list_lookup_alter_eq. by destruct (procs s' !! i).
    - rw list_lookup_alter_ne //. }
  split; [split|].
  - simpl. by rw length_alter.
  - intros j q Hq. simpl in Hq. destruct (decide (i = j)) as [<-|Hne]; [|rw list_lookup_alter_ne // in Hq; by apply Hw].
    rw list_lookup_alter_eq in Hq. destruct (procs s' !! i) as [p'|] eqn:Hp'; [|done]. injection Hq as <-.
    destruct (Hw i p' Hp') as [Hlen _]. split; [done|]. intros _ _. cbn [set_state p_ofile].
    destruct (lookup_lt_is_Some_2 (procs s) i) as [p Hp].
    { rw -(length_fmap p_ofile (procs s)) -(proj1 (proj2 H)) length_fmap. exact (lookup_lt_Some _ _ _ Hp'). }
    destruct (fsame_slot s s' i p H Hp) as (q&Hq&Eq). assert (q = p') as -> by congruence. rewrite Eq in Hlen |- *.
    apply list_eq. intros fd. destruct (decide (fd < NOFILE)%nat) as [Hlt|Hge].
    + rewrite (Hcl p Hp fd) //; [apply elem_of_seq; lia|]. symmetry. by apply lookup_replicate_2.
    + rewrite (lookup_ge_None_2 (p_ofile p)); [lia|]. symmetry. apply lookup_ge_None_2. rewrite length_replicate. lia.
  - rw /open_fds /= E. exact Hc.
Qed.

Lemma fd_exit addr s : fd_inv s → RUN (sys_exit cpu addr) s (λ _, fd_inv) fd_inv.
Proof.
  intros Hinv. rw /sys_exit /Proc.exit /myproc. apply runs_bind, runs_bind, runs_gets. apply runs_bind, runs_gets.
  case_bool_decide; [apply runs_panic|]. apply runs_bind, run_deref. intros cur _.
  apply runs_bind, (runs_for_each _ _ _ (closing cur)).
  - split; [done|]. intros p Hp fd []%elem_of_nil.
  - intros pre fd post s1 _ Hcl. by apply close_fd.
  - intros s1 Hcl. pose proof (fsame_refl s1) as H1. pose proof (keep_inv s1 (proj1 Hcl)) as Hk.
    skip H1. skip H1. skip H1. skip H1. skip H1. skip H1. skip H1. skip H1. skip H1. skip H1.
    apply runs_bind, run_upd. apply (asleep s1 _ cur Hcl) in H1.
    apply runs_bind, run_sched. done.
Qed.
End Calls.

(** ** The dispatcher *)

Section Dispatch.
Context {S : Type} `{!Cache S}.
Context (dev_read : Z → option (nat → Z → K (fsys (lsys S)) (Z * list Z))).
Context (dev_write : Z → option (nat → list Z → Z → K (fsys (lsys S)) Z)).
Context (kend kdata : Z) (cpu : nat) (ptable_proc forkret_addr trapret_addr ticks_addr : Z).
Implicit Types s : ksys (files S).

Lemma run_inkern {A} (m : K (kern (files S)) A) s Q R :
  RUN m (kk s) (λ a k, Q a (set_kk k s)) (λ k, R (set_kk k s)) → RUN (inkern m) s Q R.
Proof. rw /runs /inkern /zoom. by destruct (m (kk s)). Qed.

(** Neutral code with the clock and the trace flag. *)
Definition kneutral {A} (m : K (ksys (files S)) A) : Prop :=
  ∀ (s0 : kern (files S)) s, fsame s0 (kk s) → RUN m s (λ _ s', fsame s0 (kk s')) (λ s', fsame s0 (kk s')).
Lemma kneutral_bind {A B} (m : K (ksys (files S)) A) (f : A → K _ B) :
  kneutral m → (∀ a, kneutral (f a)) → kneutral (m ≫= f).
Proof. intros Hm Hf s0 s H. apply runs_bind. eapply runs_mono; [by apply Hm|]. intros a s' H'. by apply Hf. Qed.
Lemma kneutral_ret {A} (a : A) : kneutral (mret a).
Proof. intros s0 s H. by apply runs_ret. Qed.
Lemma kneutral_gets {A} (f : ksys (files S) → A) : kneutral (gets f).
Proof. intros s0 s H. by apply runs_gets. Qed.
Lemma kneutral_undef {A} t : kneutral (A := A) (undef t).
Proof. intros s0 s H. apply runs_undef. Qed.
Lemma kneutral_inkern {A} (m : K (kern (files S)) A) : neutral m → kneutral (inkern m).
Proof. intros Hm s0 s H. apply run_inkern. by apply Hm. Qed.
Lemma kneutral_modify g : (∀ s, kk (g s) = kk s) → kneutral (modify g).
Proof. intros Hg s0 s H. apply runs_modify. by rewrite Hg. Qed.
Lemma kneutral_acquire l : kneutral (lock_acquire l).
Proof.
  intros s0 s H. rw /runs /lock_acquire /get /put /mbind /K_bind. case_bool_decide; [done|]. exact H.
Qed.
Lemma kneutral_release l : kneutral (lock_release l).
Proof.
  intros s0 s H. rw /runs /lock_release /get /put /mbind /K_bind. case_bool_decide; [|done]. exact H.
Qed.

Lemma kneutral_uptime : kneutral sys_uptime.
Proof.
  rw /sys_uptime. apply kneutral_bind; [apply kneutral_acquire|]. intros []. apply kneutral_bind; [apply kneutral_gets|]. intros t.
  apply kneutral_bind; [apply kneutral_release|]. intros []. apply kneutral_ret.
Qed.
Lemma kneutral_trace : kneutral (sys_trace cpu).
Proof.
  rw /sys_trace. apply kneutral_bind; [apply kneutral_inkern, neutral_argint|]. intros [v|]; [|apply kneutral_ret].
  apply kneutral_bind; [by apply kneutral_modify|]. intros []. apply kneutral_ret.
Qed.
Lemma kneutral_sleep : kneutral (sys_sleep cpu ticks_addr).
Proof.
  rw /sys_sleep. apply kneutral_bind; [apply kneutral_inkern, neutral_argint|]. intros [n|]; [|apply kneutral_ret].
  apply kneutral_bind; [apply kneutral_acquire|]. intros []. apply kneutral_bind; [apply kneutral_gets|]. intros t0.
  rw /sys_sleep_loop. apply kneutral_bind; [apply kneutral_gets|]. intros t. destruct (_ <? _).
  - apply kneutral_bind; [apply kneutral_inkern; rw /curproc /curslot /myproc; neutral_tac|]. intros p. destruct (negb _).
    + apply kneutral_bind; [apply kneutral_release|]. intros []. apply kneutral_ret.
    + apply kneutral_bind; [apply kneutral_inkern, neutral_sleep|]. intros []. apply kneutral_undef.
  - apply kneutral_bind; [apply kneutral_release|]. intros []. apply kneutral_ret.
Qed.

Definition kinv s : Prop := fd_inv (kk s).
Lemma kneutral_inv {A} (m : K (ksys (files S)) A) s : kneutral m → kinv s → RUN m s (λ _, kinv) kinv.
Proof.
  intros Hm Hi. specialize (Hm (kk s) s (fsame_refl _)). revert Hm. rw /runs.
  destruct (m s) as [a s'|?|c s'|?]; [|done| |done].
  - intros H. exact (keep_inv (kk s) Hi _ H).
  - intros H Hc. exact (keep_inv (kk s) Hi _ (H Hc)).
Qed.

(** Every entry of the table. *)
Lemma fd_call num call s :
  syscalls dev_read dev_write kend kdata cpu ptable_proc forkret_addr trapret_addr ticks_addr num = Some call →
  kinv s → on_cpu cpu (kk s) → RUN call s (λ _, kinv) kinv.
Proof.
  intros E Hi Hon. assert (∀ m : K (kern (files S)) Z, RUN m (kk s) (λ _, fd_inv) fd_inv → RUN (inkern m) s (λ _, kinv) kinv) as Hk.
  { intros m Hm. apply run_inkern. exact Hm. }
  assert (∀ m : K (kern (files S)) Z, neutral m → RUN (inkern m) s (λ _, kinv) kinv) as Hn.
  { intros m Hm. apply kneutral_inv; [by apply kneutral_inkern|done]. }
  assert (∀ c : nat * proc, (∀ f, ∃ me slot, Proc.fileclose (FileOps := ops dev_read c) f = File.fileclose me slot f)) as Hcl by eauto.
  assert (∀ (g : nat * proc → K (kern (files S)) Z), (∀ c, RUN (g c) (kk s) (λ _, fd_inv) fd_inv) →
    RUN (inkern (c ← current cpu; g c)) s (λ _, kinv) kinv) as Hc.
  { intros g Hg. apply Hk. apply runs_bind, run_current. intros i p _ _. apply Hg. }
  unfold syscalls in E; repeat case_match; simplify_eq.
  all: first
    [ apply Hn; first [apply neutral_read|apply neutral_write|apply neutral_fstat|apply neutral_link|apply neutral_unlink
        |apply neutral_mkdir|apply neutral_mknod|apply neutral_chdir|apply neutral_exec|apply neutral_kill|apply neutral_getpid
        |apply neutral_getppid|apply neutral_pgcnt|apply neutral_sbrk|apply neutral_wait|apply neutral_gets|apply neutral_ret]
    | apply kneutral_inv; [first [apply kneutral_uptime|apply kneutral_trace|apply kneutral_sleep]|done]
    | apply Hk; first [by apply fd_pipe|by apply fd_dup|by apply fd_open|by apply fd_close]
    | apply Hc; intros c; apply fd_fork; [done|intros i; apply tame_infs|done]
    | apply Hc; intros c; apply fd_exit; [apply Hcl|intros i; apply tame_infs|apply tame_infs..|done] ].
Qed.

Lemma neutral_eax v : kneutral (get_eax cpu) ∧ kneutral (set_eax cpu v).
Proof.
  split; apply kneutral_inkern; apply neutral_bind; intros; first [apply neutral_current|apply neutral_gets|apply neutral_kmem].
Qed.

Lemma fd_syscall s :
  kinv s → on_cpu cpu (kk s) →
  RUN (syscall dev_read dev_write kend kdata cpu ptable_proc forkret_addr trapret_addr ticks_addr) s (λ _, kinv) kinv.
Proof.
  intros Hi Hon. rw /syscall. apply runs_bind, run_inkern, run_reclaim. intros k1 H1.
  apply runs_bind, run_inkern, runs_bind, run_current. intros i p _ _. apply runs_gets. cbv zeta.
  match goal with |- RUN _ ?x _ _ => set (s1 := x) end.
  assert (kinv s1) as Hi1 by exact (keep_inv (kk s) Hi k1 H1). assert (on_cpu cpu (kk s1)) as Hon1 by exact (fsame_on_cpu cpu _ _ H1 Hon).
  clearbody s1. destruct (syscalls _ _ _ _ _ _ _ _ _ _) as [call|] eqn:E; [|apply kneutral_inv; [apply neutral_eax|done]].
  apply runs_bind. eapply runs_mono; [exact (fd_call _ call s1 E Hi1 Hon1)|]. intros v s2 H2.
  apply runs_bind. eapply runs_mono; [apply kneutral_inv; [apply neutral_eax|done]|]. intros [] s3 H3.
  apply runs_bind, runs_gets. destruct (0 <? trace s3); [by apply runs_modify|by apply runs_ret].
Qed.
End Dispatch.

(** ** dup on every branch *)

Section Dup.
Context {S : Type} `{!Cache S} (cpu i : nat) (p : proc) (s : kern (files S)).
Hypothesis Hcur : cpuproc s !! cpu = Some (Some i).
Hypothesis Hp : procs s !! i = Some p.

Lemma current_wp (Q : nat * proc → kern (files S) → Prop) : Q (i, p) s → wp (current cpu) s Q.
Proof. intros HQ. rw /wp /current /curslot /myproc /mbind /K_bind /gets Hcur /= /proc_at Hp. done. Qed.

(** The file behind a descriptor number. *)
Definition fd_file (fd : Z) : option nat :=
  if (fd <? 0) || (Z.of_nat NOFILE <=? fd) then None else mjoin (p_ofile p !! Z.to_nat fd).

Lemma argfd_wp n (Q : option (Z * nat) → kern (files S) → Prop) :
  0 ≤ p_sz p ≤ KERNBASE →
  (∀ va, 0 ≤ va < p_sz p → is_Some (user_byte (km_mem (phys s)) (p_pgdir p) va)) →
  arg_addr p s n + 4 ≤ p_sz p →
  (let fd := s32 (word_at p s (arg_addr p s n)) in Q (pair fd <$> fd_file fd) s) →
  wp (argfd cpu n) s Q.
Proof.
  intros Hsz Hmap Harg HQ. rw /argfd. apply wp_bind, (argint_wp cpu i p); [done..| |lia]. intros _.
  set (fd := s32 _) in *. rw /fd_file in HQ. cbv zeta in HQ. destruct (_ || _); [by apply wp_ret|].
  apply wp_bind, current_wp. by apply wp_ret.
Qed.

Lemma wp_in_fs {A} (m : K (files S) A) s1 (Q : A → kern (files S) → Prop) :
  wp m (kfs s1) (λ a t, Q a (set_kfs t s1)) → wp (in_fs m) s1 Q.
Proof. rw /wp /in_fs /blocked_in /zoom. by destruct (m (kfs s1)). Qed.

Lemma fdalloc_wp f (Q : Z → kern (files S) → Prop) :
  match list_find (λ o, o = None) (p_ofile p) with
  | Some (k, _) => Q (Z.of_nat k) (set_procs (<[i := set_fd k (Some f) p]> (procs s)) s)
  | None => Q (-1) s
  end → wp (fdalloc cpu f) s Q.
Proof.
  intros HQ. rw /fdalloc. apply wp_bind, current_wp. cbn [fst snd]. destruct (list_find _ _) as [[k o]|]; [|by apply wp_ret].
  apply wp_bind, wp_modify, wp_ret. rw (alter_slot _ _ _ p) //.
Qed.
End Dup.

(** ** Theorems *)


(** Dup on every branch, for a process whose memory is mapped.  With a descriptor that is not open, or when all are
    taken, it returns -1 and nothing changes; otherwise it returns the least free descriptor, which
    now refers to the same file, no other slot changes, and the file counts one reference more. *)
Theorem dup_takes_least_descriptor {S} `{!Cache S} (cpu i : nat) (p : proc) (s : kern (files S))
  (Hcur : cpuproc s !! cpu = Some (Some i)) (Hp : procs s !! i = Some p) (Hsz : 0 ≤ p_sz p ≤ KERNBASE)
  (Hmap : ∀ va, 0 ≤ va < p_sz p → is_Some (user_byte (km_mem (phys s)) (p_pgdir p) va))
  (Harg : arg_addr p s 0 + 4 ≤ p_sz p) (Hinv : fd_inv s) (Hlock : "ftable" ∉ held (kfs s)) :
  wp (sys_dup cpu) s (λ r s',
    match fd_file p (s32 (word_at p s (arg_addr p s 0))), list_find (λ o, o = None) (p_ofile p) with
    | Some f, Some (k, _) =>
        r = Z.of_nat k ∧ procs s' = <[i := set_fd k (Some f) p]> (procs s) ∧ counted (kfs s') (f :: open_fds (procs s))
    | _, _ => r = -1 ∧ s' = s
    end).
Proof.
  rw /sys_dup. apply wp_bind, (argfd_wp cpu i p); [done..|]. cbv zeta. set (fd := s32 _).
  destruct (fd_file p fd) as [f|] eqn:Ef; [|by apply wp_ret]. cbn [fmap option_fmap option_map].
  apply wp_bind, (fdalloc_wp cpu i p); [done..|]. destruct (list_find _ _) as [[k o]|] eqn:Ek; [|by apply wp_ret].
  destruct (Z.ltb_spec (Z.of_nat k) 0); [lia|]. destruct Hinv as [Hw Hc]. apply wp_bind, wp_in_fs.
  eapply wp_mono; [apply (filedup_wp (kfs s) (open_fds (procs s)) Hlock Hc f)|].
  - rw /fd_file in Ef. destruct (_ || _); [done|]. apply (open_fds_in _ i p (Z.to_nat fd)); [done|].
    destruct (p_ofile p !! Z.to_nat fd) as [o'|]; [|done]. simpl in Ef. by rewrite Ef.
  - pose proof (open_fds_few None _ Hw). lia.
  - intros f' t (_&Ht&_). by apply wp_ret.
Qed.

(** ** Witnesses *)

Definition two_fds : proc :=
  set_ofile (Some 0%nat :: Some 0%nat :: replicate 14 None) (set_state RUNNING (set_pid 1 proc0)).
Definition img_kern : kern (files bcache) :=
  Kern (two_fds :: replicate 63 proc0) 2 (Some 0%nat) [Some 0%nat] (Kmem ∅ 0 true []) [] img_files.

Lemma img_fd_inv : fd_inv img_kern.
Proof.
  split; [split|].
  - reflexivity.
  - intros [|i] p Hp; [injection Hp as <-; split; [reflexivity|done]|]. apply lookup_replicate in Hp as [-> _]. split; reflexivity.
  - exact img_counted.
Qed.


(** A process with a page of memory whose system call argument is 0. *)
Definition dup_proc : proc := set_ofile (p_ofile two_fds) (set_tf 0x80204000 tiny_proc).
Definition img_dup : kern (files bcache) :=
  Kern (dup_proc :: replicate 63 proc0) 2 (Some 0%nat) [Some 0%nat] (Kmem tiny_mem 0 true []) [] img_files.

Lemma img_dup_inv : fd_inv img_dup.
Proof.
  split; [split|].
  - reflexivity.
  - intros [|i] p Hp; [injection Hp as <-; split; [reflexivity|done]|]. apply lookup_replicate in Hp as [-> _]. split; reflexivity.
  - exact img_counted.
Qed.

Lemma dup_takes_least_descriptor_witness :
  wp (sys_dup 0) img_dup (λ r s', r = 2 ∧ counted (kfs s') [0; 0; 0]%nat).
Proof.
  eapply wp_mono; [apply (dup_takes_least_descriptor (Cache0 := bio_Cache 1) 0 0 dup_proc img_dup)|].
  - reflexivity.
  - reflexivity.
  - change (0 ≤ 4096 ≤ 2 ^ 31). lia.
  - exact tiny_mapped.
  - vm_compute. discriminate.
  - exact img_dup_inv.
  - apply not_elem_of_nil.
  - intros r s'. rewrite (_ : fd_file dup_proc _ = Some 0%nat); [vm_compute; reflexivity|]. intros (E&_&Hc). split; [exact E|exact Hc].
Defined.
