(* ===== verification/Sim.v ===== *)
(** * The paging simulator (lab-07/sim.c).

    The simulator replays accesses to pages of processes on a machine with eight
    frames and sixteen blocks of secondary storage, with FIFO ([-f]) or LRU ([-l])
    replacement, and prints the page tables and the two memories.  [main] is split at
    its comments; a loop that looks for the first entry with a property and breaks is
    [list_find].  An index outside an array is undefined.  The theorems: the machine
    neither loses nor duplicates a page, FIFO is a queue of pages, LRU keeps the
    order of use when the frames fill up without a repeated access, and does not
    otherwise. *)
From S2P Require Import Prelude.
From stdpp Require Import pretty.
From Stdlib Require Import Ascii Sorted.
Local Open Scope Z_scope.

(** ** Data *)

Definition MAX_PROCESOS : nat := 100.
Definition MEMORIA_VIRTUAL : nat := 64.
Definition MEMORIA_FISICA : nat := 32.
Definition TAMANIO_PAGINA : nat := 4.
Definition ALMACENAMIENTO_SECUNDARIO : nat := 64.

Definition MARCOS : nat := MEMORIA_FISICA / TAMANIO_PAGINA.
Definition BLOQUES : nat := ALMACENAMIENTO_SECUNDARIO / TAMANIO_PAGINA.
Definition PAGINAS : nat := MEMORIA_VIRTUAL / TAMANIO_PAGINA.

Record pagina_t := Pagina { pg_pid : Z; pg_pagina : Z }.
#[global] Instance pagina_eq_dec : EqDecision pagina_t.
Proof. solve_decision. Defined.

Record proceso_t := Proceso { pr_pid : Z; tabla_paginas : list Z }.

Record sim := Sim {
  procesos : list proceso_t;
  memoriaFisica : list pagina_t;
  memoriaSecundaria : list pagina_t;
  indiceRAM : nat;
  indiceDISCO : nat;
  tiempo : Z;
  tiempoRAM : list Z;
  salida : string
}.

Definition set_procesos (v : list proceso_t) (s : sim) : sim :=
  Sim v (memoriaFisica s) (memoriaSecundaria s) (indiceRAM s) (indiceDISCO s) (tiempo s) (tiempoRAM s) (salida s).
Definition set_fisica (v : list pagina_t) (s : sim) : sim :=
  Sim (procesos s) v (memoriaSecundaria s) (indiceRAM s) (indiceDISCO s) (tiempo s) (tiempoRAM s) (salida s).
Definition set_secundaria (v : list pagina_t) (s : sim) : sim :=
  Sim (procesos s) (memoriaFisica s) v (indiceRAM s) (indiceDISCO s) (tiempo s) (tiempoRAM s) (salida s).
Definition set_indiceRAM (v : nat) (s : sim) : sim :=
  Sim (procesos s) (memoriaFisica s) (memoriaSecundaria s) v (indiceDISCO s) (tiempo s) (tiempoRAM s) (salida s).
Definition set_indiceDISCO (v : nat) (s : sim) : sim :=
  Sim (procesos s) (memoriaFisica s) (memoriaSecundaria s) (indiceRAM s) v (tiempo s) (tiempoRAM s) (salida s).
Definition set_tiempo (v : Z) (s : sim) : sim :=
  Sim (procesos s) (memoriaFisica s) (memoriaSecundaria s) (indiceRAM s) (indiceDISCO s) v (tiempoRAM s) (salida s).
Definition set_tiempoRAM (v : list Z) (s : sim) : sim :=
  Sim (procesos s) (memoriaFisica s) (memoriaSecundaria s) (indiceRAM s) (indiceDISCO s) (tiempo s) v (salida s).
Definition set_salida (v : string) (s : sim) : sim :=
  Sim (procesos s) (memoriaFisica s) (memoriaSecundaria s) (indiceRAM s) (indiceDISCO s) (tiempo s) (tiempoRAM s) v.

Definition libre : pagina_t := Pagina (-1) (-1).

(** The declarations and the initialisation loops; the page table of an unused entry is never
    initialised. *)
Definition inicial : sim :=
  Sim (replicate MAX_PROCESOS (Proceso (-1) [])) (replicate MARCOS libre) (replicate BLOQUES libre)
    0 0 0 (replicate MARCOS 0) "".

(** ** One access *)

Definition NL : string := String "010"%char EmptyString.

Definition escribir (t : string) : K sim unit := modify (λ s, set_salida (salida s +:+ t) s).

(** Elements of arrays. *)
Definition elem {A} (l : list A) (i : nat) : K sim A :=
  match l !! i with Some x => mret x | None => undef "array index" end.

(** [procesos[pid-1]]. *)
Definition proceso_de (pid : Z) : K sim proceso_t :=
  if pid <? 1 then undef "array index" else ps ← gets procesos; elem ps (Z.to_nat (pid - 1)).
Definition guardar (pid : Z) (p : proceso_t) : K sim unit :=
  modify (λ s, set_procesos (<[Z.to_nat (pid - 1) := p]> (procesos s)) s).
(** [proceso.tabla_paginas[pagina-1] = marco]. *)
Definition con_entrada (p : proceso_t) (pagina marco : Z) : K sim proceso_t :=
  if (pagina <? 1) || (Z.of_nat PAGINAS <? pagina) then undef "array index"
  else mret (Proceso (pr_pid p) (<[Z.to_nat (pagina - 1) := marco]> (tabla_paginas p))).

(** The process is created on its first access; the result is the local copy. *)
Definition recuperar (pid : Z) : K sim proceso_t :=
  p ← proceso_de pid;
  _ ← when (pr_pid p =? -1) (guardar pid (Proceso pid (replicate PAGINAS (-1))));
  proceso_de pid.

Definition es (pid pagina : Z) (m : pagina_t) : bool := (pg_pid m =? pid) && (pg_pagina m =? pagina).
Definition buscar (l : list pagina_t) (pid pagina : Z) : option nat :=
  fst <$> list_find (λ m, es pid pagina m = true) l.

Definition siguiente (i n : nat) : nat := (i + 1) mod n.

(** The body of the loop of [-f]; [false] is the [break] when secondary storage is full. *)
Definition acceso_fifo (pid pagina : Z) : K sim bool :=
  proceso ← recuperar pid;
  s ← get;
  let enRAM := buscar (memoriaFisica s) pid pagina in
  let enDISCO := buscar (memoriaSecundaria s) pid pagina in
  let hayLugar := buscar (memoriaFisica s) (-1) (-1) in
  let i := indiceRAM s in
  match enRAM, enDISCO, hayLugar with
  | Some _, _, _ => mret true
  | None, None, Some _ =>
      proceso ← con_entrada proceso pagina (Z.of_nat i + 1);
      _ ← modify (set_fisica (<[i := Pagina (pr_pid proceso) pagina]> (memoriaFisica s)));
      _ ← guardar pid proceso;
      _ ← modify (set_indiceRAM (siguiente i MARCOS));
      mret true
  | None, None, None =>
      d ← elem (memoriaSecundaria s) (indiceDISCO s);
      if negb (pg_pid d =? -1) then
        _ ← escribir ("Memoria secundaria llena." +:+ NL);
        mret false
      else
        m ← elem (memoriaFisica s) i;
        _ ← modify (set_secundaria (<[indiceDISCO s := m]> (memoriaSecundaria s)));
        _ ← modify (set_indiceDISCO (siguiente (indiceDISCO s) BLOQUES));
        proceso ← con_entrada proceso pagina (Z.of_nat i + 1);
        _ ← modify (set_fisica (<[i := Pagina (pr_pid proceso) pagina]> (memoriaFisica s)));
        _ ← guardar pid proceso;
        _ ← modify (set_indiceRAM (siguiente i MARCOS));
        mret true
  | None, Some j, None =>
      d ← elem (memoriaSecundaria s) j;
      m ← elem (memoriaFisica s) i;
      _ ← modify (set_secundaria (<[j := m]> (memoriaSecundaria s)));
      proceso ← con_entrada proceso pagina (Z.of_nat i + 1);
      _ ← guardar pid proceso;
      _ ← modify (set_fisica (<[i := d]> (memoriaFisica s)));
      _ ← modify (set_indiceRAM (siguiente i MARCOS));
      mret true
  | None, Some _, Some _ => mret true
  end.

(** The loops over [tiempoRAM]: the greatest time, and the first frame with the least one. *)
Definition maximo (l : list Z) : Z :=
  foldl (λ max t, if max <? t then t else max) (default 0 (l !! 0%nat)) l.
Definition minimo (l : list Z) : nat :=
  fst (foldl (λ '(im, min, i) t, if t <? min then (i, t, S i) else (im, min, S i))
         (0%nat, default 0 (l !! 0%nat), 0%nat) l).1.

(** The page is in block [j] of secondary storage: it changes places with the least recently used one. *)
Definition intercambio_lru (proceso : proceso_t) (pid pagina : Z) (j : nat) : K sim bool :=
  s ← get;
  let im := minimo (tiempoRAM s) in
  d ← elem (memoriaSecundaria s) j;
  m ← elem (memoriaFisica s) im;
  _ ← modify (set_secundaria (<[j := m]> (memoriaSecundaria s)));
  proceso ← con_entrada proceso pagina (Z.of_nat im + 1);
  _ ← guardar pid proceso;
  _ ← modify (set_fisica (<[im := d]> (memoriaFisica s)));
  _ ← modify (set_tiempoRAM (Z.succ <$> <[im := maximo (tiempoRAM s) + 1]> (tiempoRAM s)));
  mret true.

Definition acceso_lru (pid pagina : Z) : K sim bool :=
  proceso ← recuperar pid;
  s ← get;
  let enRAM := buscar (memoriaFisica s) pid pagina in
  let enDISCO := buscar (memoriaSecundaria s) pid pagina in
  let hayLugar := buscar (memoriaFisica s) (-1) (-1) in
  let ts := tiempoRAM s in
  let max := maximo ts in
  let im := minimo ts in
  match enRAM, enDISCO, hayLugar with
  | Some i, _, _ =>
      _ ← modify (set_tiempoRAM (<[i := max + 1]> ts));
      mret true
  | None, None, Some i =>
      proceso ← con_entrada proceso pagina (Z.of_nat i + 1);
      _ ← modify (set_fisica (<[i := Pagina (pr_pid proceso) pagina]> (memoriaFisica s)));
      _ ← modify (set_tiempoRAM (<[i := tiempo s]> ts));
      _ ← modify (set_tiempo (tiempo s + 1));
      _ ← guardar pid proceso;
      mret true
  | None, None, None =>
      d ← elem (memoriaSecundaria s) (indiceDISCO s);
      if negb (pg_pid d =? -1) then
        _ ← escribir ("Memoria secundaria llena." +:+ NL);
        mret false
      else
        m ← elem (memoriaFisica s) im;
        _ ← modify (set_secundaria (<[indiceDISCO s := m]> (memoriaSecundaria s)));
        _ ← modify (set_indiceDISCO (siguiente (indiceDISCO s) BLOQUES));
        proceso ← con_entrada proceso pagina (Z.of_nat im + 1);
        _ ← modify (set_tiempoRAM (Z.succ <$> <[im := max + 1]> ts));
        _ ← modify (set_fisica (<[im := Pagina (pr_pid proceso) pagina]> (memoriaFisica s)));
        _ ← guardar pid proceso;
        mret true
  | None, Some j, None =>
      intercambio_lru proceso pid pagina j
  | None, Some _, Some _ => mret true
  end.

(** ** The program *)

(** [while (scanf("%d\n%d", &pid, &pagina) != EOF)] on the numbers of the input.  A last number
    alone is a process with the page of the access before it; [pagina] is not initialised. *)
Fixpoint bucle (acceso : Z → Z → K sim bool) (pagina : option Z) (entrada : list Z) : K sim unit :=
  match entrada with
  | [] => mret tt
  | [pid] =>
      match pagina with
      | Some pagina => _ ← acceso pid pagina; mret tt
      | None => undef "pagina is not initialised"
      end
  | pid :: pagina :: entrada' =>
      sigue ← acceso pid pagina;
      if (sigue : bool) then bucle acceso (Some pagina) entrada' else mret tt
  end.

Definition imprimir_tabla (p : proceso_t) : string :=
  if pr_pid p =? -1 then ""
  else "Proceso " +:+ pretty (pr_pid p) +:+ ": " +:+
       foldr (λ e r, (if e =? -1 then "- " else pretty e +:+ " ") +:+ r) NL (tabla_paginas p).
Definition imprimir_memoria (titulo : string) (l : list pagina_t) : string :=
  titulo +:+
  foldr (λ m r, (if (pg_pid m =? -1) && (pg_pagina m =? -1) then "- "
                 else pretty (pg_pid m) +:+ "." +:+ pretty (pg_pagina m) +:+ " ") +:+ r) NL l.

Definition imprimir : K sim unit :=
  s ← get;
  escribir (foldr (λ p r, imprimir_tabla p +:+ r)
    (imprimir_memoria "Memoria fisica: " (memoriaFisica s) +:+
     imprimir_memoria "Memoria secundaria: " (memoriaSecundaria s)) (procesos s)).

(** The exit status; error messages go to another stream. *)
Definition EXIT_SUCCESS : Z := 0.
Definition EXIT_FAILURE : Z := 1.

Definition main (args : list string) (entrada : list Z) : K sim Z :=
  match args with
  | [_; a] =>
      match a with
      | String "-"%char (String opcion _) =>
          if bool_decide (opcion = "f"%char) then
            _ ← bucle acceso_fifo None entrada; _ ← imprimir; mret EXIT_SUCCESS
          else if bool_decide (opcion = "l"%char) then
            _ ← bucle acceso_lru None entrada; _ ← imprimir; mret EXIT_SUCCESS
          else mret EXIT_FAILURE
      | _ => mret EXIT_FAILURE
      end
  | _ => mret EXIT_FAILURE
  end.

(** ** The replacement policies *)

(** The pages in frames, from the next victim on, and those in secondary storage. *)
Definition cola : Type := list pagina_t * list pagina_t.

Definition sustituir (x y : pagina_t) (d : list pagina_t) : list pagina_t :=
  (λ z, if decide (z = x) then y else z) <$> d.

(** An access to [x] under a policy that reorders the pages with [usar] on a hit; nothing when both
    memories are full. *)
Definition politica (usar : pagina_t → list pagina_t → list pagina_t) (c : cola) (x : pagina_t) : option cola :=
  let '(q, d) := c in
  if decide (x ∈ q) then Some (usar x q, d)
  else if decide (length q < MARCOS)%nat then Some (q ++ [x], d)
  else match q with
       | [] => None
       | y :: q' =>
           if decide (x ∈ d) then Some (q' ++ [x], sustituir x y d)
           else if decide (length d < BLOQUES)%nat then Some (q' ++ [x], d ++ [y])
           else None
       end.

Definition usar_fifo (x : pagina_t) (q : list pagina_t) : list pagina_t := q.
Definition usar_lru (x : pagina_t) (q : list pagina_t) : list pagina_t := filter (.≠ x) q ++ [x].

(** The accesses in order, up to the first one that finds both memories full. *)
Fixpoint correr (usar : pagina_t → list pagina_t → list pagina_t) (c : cola) (l : list pagina_t) : cola :=
  match l with
  | [] => c
  | x :: l' => match politica usar c x with Some c' => correr usar c' l' | None => c end
  end.

(** The input of a list of accesses. *)
Definition entrada_de (l : list pagina_t) : list Z := l ≫= λ x, [pg_pid x; pg_pagina x].

(** ** The machine *)

Definition valida (x : pagina_t) : Prop :=
  1 ≤ pg_pid x ≤ Z.of_nat MAX_PROCESOS ∧ 1 ≤ pg_pagina x ≤ Z.of_nat PAGINAS.

(** Every page in a frame is in its page table. *)
Record tablas (ps : list proceso_t) (ram : list pagina_t) : Prop := {
  tb_len : length ps = MAX_PROCESOS;
  tb_proc : ∀ i p, ps !! i = Some p →
    pr_pid p = -1 ∨ pr_pid p = Z.of_nat i + 1 ∧ length (tabla_paginas p) = PAGINAS;
  tb_entry : ∀ f x, ram !! f = Some x → ∃ p, ps !! Z.to_nat (pg_pid x - 1) = Some p ∧ pr_pid p = pg_pid x ∧
    tabla_paginas p !! Z.to_nat (pg_pagina x - 1) = Some (Z.of_nat f + 1)
}.

(** The frames hold [ram] and secondary storage [dsk], each filled from its start. *)
Record maquina (s : sim) (ram dsk : list pagina_t) : Prop := {
  mq_fis : memoriaFisica s = ram ++ replicate (MARCOS - length ram) libre;
  mq_ram : (length ram ≤ MARCOS)%nat;
  mq_sec : memoriaSecundaria s = dsk ++ replicate (BLOQUES - length dsk) libre;
  mq_dsk : (length dsk ≤ BLOQUES)%nat;
  mq_fill : (length ram < MARCOS)%nat → dsk = [];
  mq_disco : indiceDISCO s = (length dsk mod BLOQUES)%nat;
  mq_nodup : NoDup (ram ++ dsk);
  mq_valid : Forall valida (ram ++ dsk);
  mq_tablas : tablas (procesos s) ram
}.

(** *** Lists that are filled from their start *)

Lemma llena_lookup (n : nat) (l : list pagina_t) i x :
  valida x → (l ++ replicate n libre) !! i = Some x → l !! i = Some x.
Proof.
  intros Hv Hi. apply lookup_app_Some in Hi as [Hi|[_ Hi]]; [done|].
  apply lookup_replicate in Hi as [-> _]. destruct Hv as [[? _] _]. simpl in *. lia.
Qed.

Lemma llenar (n : nat) (l : list pagina_t) x :
  (length l < n)%nat →
  <[length l := x]> (l ++ replicate (n - length l) libre) = (l ++ [x]) ++ replicate (n - length (l ++ [x])) libre.
Proof.
  intros Hlt. rewrite -{1}(Nat.add_0_r (length l)) insert_app_r length_app /=.
  replace (n - length l)%nat with (S (n - (length l + 1)))%nat by lia. by rewrite -app_assoc.
Qed.

Lemma es_true pid pag m : es pid pag m = true ↔ m = Pagina pid pag.
Proof.
  rw /es. destruct m as [a b]. simpl. split.
  - intros H. bool_cases. by subst.
  - intros [= -> ->]. by rw !Z.eqb_refl.
Qed.

Lemma buscar_Some (l : list pagina_t) pid pag i :
  buscar l pid pag = Some i ↔ l !! i = Some (Pagina pid pag) ∧ ∀ j, (j < i)%nat → l !! j ≠ Some (Pagina pid pag).
Proof.
  rw /buscar fmap_Some. split.
  - intros ([i' m]&(Hi&Hm&Hlt)%list_find_Some&->). simpl. apply es_true in Hm as ->. split; [done|].
    intros j Hj Hx. by apply (Hlt j _ Hx Hj), es_true.
  - intros [Hi Hlt]. exists (i, Pagina pid pag). split; [|done]. apply list_find_Some. split_and!; [done|by apply es_true|].
    intros j y Hy Hj ->%es_true. by apply (Hlt j).
Qed.

Lemma buscar_None (l : list pagina_t) pid pag : buscar l pid pag = None ↔ Pagina pid pag ∉ l.
Proof.
  rw /buscar fmap_None list_find_None. split.
  - rewrite Forall_forall. intros H Hin. by apply (H _ Hin), es_true.
  - intros Hn. apply Forall_forall. by intros x Hx ->%es_true.
Qed.

Lemma llena_elem (n : nat) (l : list pagina_t) x : valida x → x ∈ l ++ replicate n libre ↔ x ∈ l.
Proof.
  intros Hv. split; [|set_solver]. rewrite !list_elem_of_lookup. intros [i Hi]. exists i. by apply (llena_lookup n).
Qed.

(** The search for a free frame. *)
Lemma buscar_libre (n : nat) (l : list pagina_t) :
  Forall valida l → (length l ≤ n)%nat →
  buscar (l ++ replicate (n - length l) libre) (-1) (-1) = if decide (length l < n)%nat then Some (length l) else None.
Proof.
  intros Hv Hn. rewrite Forall_forall in Hv. assert (libre ∉ l) as Hl.
  { intros Hin. destruct (Hv _ Hin) as [[? _] _]. simpl in *. lia. }
  case_decide as Hlt.
  - apply buscar_Some. split.
    + rw lookup_app_r // Nat.sub_diag lookup_replicate. split; [done|lia].
    + intros j Hj. rw lookup_app_l //. intros Hx%list_elem_of_lookup_2. done.
  - apply buscar_None. replace (n - length l)%nat with 0%nat by lia. by rw app_nil_r.
Qed.

(** *** Page tables *)

Lemma tablas_sub ps ram ram' :
  tablas ps ram → (∀ f y, ram' !! f = Some y → ram !! f = Some y) → tablas ps ram'.
Proof. intros [H1 H2 H3] Hsub. split; [done..|]. intros f x Hx. by apply H3, Hsub. Qed.

(** The frame [f] gets the page [x] of process [p]. *)
Lemma tablas_put ps ram ram' p f x :
  tablas ps ram → valida x → ps !! Z.to_nat (pg_pid x - 1) = Some p → pr_pid p = pg_pid x →
  (∀ g y, ram' !! g = Some y → y = x ∧ g = f ∨ y ≠ x ∧ ram !! g = Some y) → Forall valida ram' →
  tablas (<[Z.to_nat (pg_pid x - 1) :=
    Proceso (pr_pid p) (<[Z.to_nat (pg_pagina x - 1) := Z.of_nat f + 1]> (tabla_paginas p))]> ps) ram'.
Proof.
  intros [H1 H2 H3] [Hx1 Hx2] Hp Epid Hram Hvalid. rewrite Forall_forall in Hvalid.
  assert (length (tabla_paginas p) = PAGINAS) as Hlen by (destruct (H2 _ _ Hp) as [|[_ ?]]; [lia|done]).
  apply lookup_lt_Some in Hp as Hlt. split.
  - by rw length_insert.
  - intros i q [(<-&<-&_)|[_ Hq]]%list_lookup_insert_Some; [right|by apply H2]. simpl. rw length_insert. split; [lia|done].
  - intros g y Hy. destruct (Hram g y Hy) as [[-> ->]|[Hne Hg]].
    + eexists. split; [by apply list_lookup_insert_eq|]. split; [done|]. simpl. apply list_lookup_insert_eq. lia.
    + destruct (H3 g y Hg) as (q&Hq&Eq&Et).
      destruct (decide (pg_pid y = pg_pid x)) as [E|Hn].
      * assert (q = p) as -> by (rw E in Hq; congruence).
        eexists. rw E. split; [by apply list_lookup_insert_eq|]. split; [done|]. simpl.
        rw list_lookup_insert_ne //. intros E'.
        destruct (Hvalid y) as [_ ?]; [by eapply list_elem_of_lookup_2|]. apply Hne. destruct x, y; simpl in *. f_equal; lia.
      * exists q. split; [|done]. rw list_lookup_insert_ne //.
        destruct (Hvalid y) as [? _]; [by eapply list_elem_of_lookup_2|]. lia.
Qed.

Lemma proceso_de_wp s pid p (Q : proceso_t → sim → Prop) :
  1 ≤ pid → procesos s !! Z.to_nat (pid - 1) = Some p → Q p s → wp (proceso_de pid) s Q.
Proof.
  intros H1 Hp HQ. rw /proceso_de. destruct (Z.ltb_spec pid 1); [lia|]. apply wp_bind, wp_gets. by rw /elem Hp.
Qed.

Lemma recuperar_wp s ram pid (Q : proceso_t → sim → Prop) :
  1 ≤ pid ≤ Z.of_nat MAX_PROCESOS → tablas (procesos s) ram → Forall valida ram →
  (∀ p ps, tablas ps ram → ps !! Z.to_nat (pid - 1) = Some p → pr_pid p = pid → Q p (set_procesos ps s)) →
  wp (recuperar pid) s Q.
Proof.
  intros Hpid Ht Hv HQ. rewrite Forall_forall in Hv. destruct (lookup_lt_is_Some_2 (procesos s) (Z.to_nat (pid - 1))) as [p Hp].
  { rw (tb_len _ _ Ht). lia. }
  rw /recuperar. apply wp_bind, (proceso_de_wp s pid p); [lia|done|].
  destruct (tb_proc _ _ Ht _ _ Hp) as [E|[E Hlen]].
  - rw E /=. apply wp_bind, wp_modify. set (q := Proceso pid (replicate PAGINAS (-1))).
    apply lookup_lt_Some in Hp as Hlt. eapply proceso_de_wp; [lia|by apply list_lookup_insert_eq|].
    apply HQ; [|by apply list_lookup_insert_eq|done]. destruct Ht as [T1 T2 T3]. split.
    + by rw length_insert.
    + intros i r [(<-&<-&_)|[_ Hr]]%list_lookup_insert_Some; [right|by apply T2]. split; [simpl; lia|done].
    + intros f x Hx. destruct (T3 f x Hx) as (r&Hr&Er&Et). exists r. split; [|done].
      rw list_lookup_insert_ne //. intros E'. rw -E' Hp in Hr. injection Hr as ->.
      destruct (Hv x) as [? _]; [by eapply list_elem_of_lookup_2|]. lia.
  - assert (pr_pid p =? -1 = false) as -> by lia. apply wp_bind, wp_when_false.
    apply (proceso_de_wp s pid p); [lia|done|]. specialize (HQ p (procesos s) Ht Hp). destruct s. apply HQ. simpl in *. lia.
Qed.

(** *** One access *)

(** What an access does to the frames and to secondary storage when [v] is the victim. *)
Definition paso (ram dsk : list pagina_t) (x : pagina_t) (v : nat) : option (list pagina_t * list pagina_t) :=
  if decide (x ∈ ram) then Some (ram, dsk)
  else if decide (length ram < MARCOS)%nat then Some (ram ++ [x], dsk)
  else match ram !! v with
       | None => None
       | Some y =>
           if decide (x ∈ dsk) then Some (<[v := x]> ram, sustituir x y dsk)
           else if decide (length dsk < BLOQUES)%nat then Some (<[v := x]> ram, dsk ++ [y])
           else None
       end.

Lemma sustituir_insert (d : list pagina_t) j x y : NoDup d → d !! j = Some x → sustituir x y d = <[j := y]> d.
Proof.
  intros Hnd Hj. apply list_eq. intros k. rw /sustituir list_lookup_fmap.
  destruct (decide (k = j)) as [->|Hne].
  - rw list_lookup_insert_eq; [by eapply lookup_lt_Some|]. by rw Hj /= decide_True.
  - rw list_lookup_insert_ne //. destruct (d !! k) as [z|] eqn:Ez; [|done]. simpl. rw decide_False //.
    intros ->. by apply Hne, (NoDup_lookup d k j x).
Qed.

(** The page [x] comes into a free frame, a full one, from outside or from secondary storage. *)
Lemma maquina_fill s ram dsk x s' :
  maquina s ram dsk → valida x → x ∉ ram → (length ram < MARCOS)%nat →
  memoriaFisica s' = <[length ram := x]> (memoriaFisica s) →
  memoriaSecundaria s' = memoriaSecundaria s → indiceDISCO s' = indiceDISCO s →
  tablas (procesos s') (ram ++ [x]) → maquina s' (ram ++ [x]) dsk.
Proof.
  intros [] Hx Hn Hlt E1 E2 E3 Ht. rewrite mq_fill0 // in mq_sec0 mq_disco0 mq_nodup0 mq_valid0 |- *.
  rewrite app_nil_r in mq_nodup0 mq_valid0. split; try done.
  - by rw E1 mq_fis0 llenar.
  - rw length_app /=. lia.
  - by rw E2 mq_sec0.
  - simpl. lia.
  - by rw E3 mq_disco0.
  - rewrite app_nil_r. apply NoDup_app. split_and!; [done| |apply NoDup_singleton]. set_solver.
  - rewrite app_nil_r. apply Forall_app. by split; [|apply Forall_singleton].
Qed.

Lemma maquina_swap s ram dsk x y v j s' :
  maquina s ram dsk → valida x → x ∉ ram → length ram = MARCOS → ram !! v = Some y → dsk !! j = Some x →
  memoriaFisica s' = <[v := x]> (memoriaFisica s) →
  memoriaSecundaria s' = <[j := y]> (memoriaSecundaria s) → indiceDISCO s' = indiceDISCO s →
  tablas (procesos s') (<[v := x]> ram) → maquina s' (<[v := x]> ram) (sustituir x y dsk).
Proof.
  intros [] Hx Hn Hfull Hv Hj E1 E2 E3 Ht. apply lookup_lt_Some in Hv as Hvl. apply lookup_lt_Some in Hj as Hjl.
  assert (NoDup dsk) as Hnd by (by apply NoDup_app in mq_nodup0 as (_&_&?)).
  rewrite (sustituir_insert dsk j x y Hnd Hj).
  assert (<[v := x]> ram ++ <[j := y]> dsk ≡ₚ ram ++ dsk) as Hp.
  { apply (Permutation_cons_inv (a := x)), (Permutation_cons_inv (a := y)).
    pose proof (insert_permute ram v y x Hv) as P1. pose proof (insert_permute dsk j x y Hj) as P2.
    trans ((x :: ram) ++ (y :: dsk)).
    - rewrite -P1 -P2. simpl. by rewrite -Permutation_middle.
    - simpl. rewrite -Permutation_middle. apply Permutation_swap. }
  split; try done.
  - rw E1 mq_fis0 insert_app_l //. by rw length_insert.
  - by rw length_insert.
  - rw E2 mq_sec0 insert_app_l //. by rw length_insert.
  - by rw length_insert.
  - rw length_insert. lia.
  - by rw E3 mq_disco0 length_insert.
  - by rewrite Hp.
  - by rewrite Hp.
Qed.

Lemma maquina_evict s ram dsk x y v s' :
  maquina s ram dsk → valida x → x ∉ ram → x ∉ dsk → length ram = MARCOS → ram !! v = Some y → (length dsk < BLOQUES)%nat →
  memoriaFisica s' = <[v := x]> (memoriaFisica s) →
  memoriaSecundaria s' = <[indiceDISCO s := y]> (memoriaSecundaria s) →
  indiceDISCO s' = siguiente (indiceDISCO s) BLOQUES →
  tablas (procesos s') (<[v := x]> ram) → maquina s' (<[v := x]> ram) (dsk ++ [y]).
Proof.
  intros [] Hx Hn Hd Hfull Hv Hlt E1 E2 E3 Ht. apply lookup_lt_Some in Hv as Hvl.
  rewrite Nat.mod_small // in mq_disco0.
  assert (<[v := x]> ram ++ dsk ++ [y] ≡ₚ x :: ram ++ dsk) as Hp.
  { rewrite app_assoc -Permutation_cons_append app_comm_cons.
    by rewrite (insert_permute ram v y x Hv). }
  split; try done.
  - rw E1 mq_fis0 insert_app_l //. by rw length_insert.
  - by rw length_insert.
  - by rw E2 mq_sec0 mq_disco0 llenar.
  - rw length_app /=. lia.
  - rw length_insert. lia.
  - rw E3 mq_disco0 /siguiente length_app //.
  - rewrite Hp. apply NoDup_cons. split; [set_solver|done].
  - rewrite Hp. by apply Forall_cons.
Qed.

Section Acceso.
Context (s : sim) (ram dsk : list pagina_t) (x : pagina_t).
Hypothesis Hm : maquina s ram dsk.
Hypothesis Hx : valida x.

Lemma en_ram : match buscar (memoriaFisica s) (pg_pid x) (pg_pagina x) with
               | Some i => ram !! i = Some x | None => x ∉ ram end.
Proof.
  destruct (buscar _ _ _) as [i|] eqn:E.
  - apply buscar_Some in E as [E _]. rewrite (mq_fis _ _ _ Hm) in E. apply llena_lookup in E; by destruct x.
  - apply buscar_None in E. rewrite (mq_fis _ _ _ Hm) in E. destruct x. by rewrite llena_elem in E.
Qed.

Lemma en_disco : match buscar (memoriaSecundaria s) (pg_pid x) (pg_pagina x) with
                 | Some i => dsk !! i = Some x | None => x ∉ dsk end.
Proof.
  destruct (buscar _ _ _) as [i|] eqn:E.
  - apply buscar_Some in E as [E _]. rewrite (mq_sec _ _ _ Hm) in E. apply llena_lookup in E; by destruct x.
  - apply buscar_None in E. rewrite (mq_sec _ _ _ Hm) in E. destruct x. by rewrite llena_elem in E.
Qed.

Lemma ram_valida : Forall valida ram.
Proof. pose proof (mq_valid _ _ _ Hm) as H. by apply Forall_app in H as [? _]. Qed.

Lemma hay_lugar :
  buscar (memoriaFisica s) (-1) (-1) = if decide (length ram < MARCOS)%nat then Some (length ram) else None.
Proof. rewrite (mq_fis _ _ _ Hm). apply buscar_libre; [apply ram_valida|apply (mq_ram _ _ _ Hm)]. Qed.

Lemma con_entrada_wp p f s1 (Q : proceso_t → sim → Prop) :
  Q (Proceso (pr_pid p) (<[Z.to_nat (pg_pagina x - 1) := f]> (tabla_paginas p))) s1 →
  wp (con_entrada p (pg_pagina x) f) s1 Q.
Proof.
  intros HQ. destruct Hx as [_ Hp]. rw /con_entrada. destruct (Z.ltb_spec (pg_pagina x) 1); [lia|].
  destruct (Z.ltb_spec (Z.of_nat PAGINAS) (pg_pagina x)); [lia|]. done.
Qed.

Lemma elem_wp {A} (l : list A) i a s1 (Q : A → sim → Prop) : l !! i = Some a → Q a s1 → wp (elem l i) s1 Q.
Proof. rw /elem. by intros ->. Qed.

(** The pages in frames after the access, for the page tables. *)
Lemma tablas_fill ps p : 
  tablas ps ram → x ∉ ram → ps !! Z.to_nat (pg_pid x - 1) = Some p → pr_pid p = pg_pid x →
  tablas (<[Z.to_nat (pg_pid x - 1) :=
    Proceso (pr_pid p) (<[Z.to_nat (pg_pagina x - 1) := Z.of_nat (length ram) + 1]> (tabla_paginas p))]> ps) (ram ++ [x]).
Proof.
  intros Ht Hn Hp E. apply (tablas_put ps ram); try done.
  - intros g y [Hg|[Hg Hy]]%lookup_app_Some.
    + right. split; [|done]. intros ->. by apply Hn, (list_elem_of_lookup_2 _ g).
    + left. apply list_lookup_singleton_Some in Hy as [? <-]. split; [done|lia].
  - apply Forall_app. by split; [apply ram_valida|apply Forall_singleton].
Qed.

Lemma tablas_victim ps p v :
  tablas ps ram → x ∉ ram → (v < length ram)%nat → ps !! Z.to_nat (pg_pid x - 1) = Some p → pr_pid p = pg_pid x →
  tablas (<[Z.to_nat (pg_pid x - 1) :=
    Proceso (pr_pid p) (<[Z.to_nat (pg_pagina x - 1) := Z.of_nat v + 1]> (tabla_paginas p))]> ps) (<[v := x]> ram).
Proof.
  intros Ht Hn Hv Hp E. apply (tablas_put ps ram); try done.
  - intros g y [(<-&->&_)|[Hne Hy]]%list_lookup_insert_Some; [by left|right].
    split; [|done]. intros ->. by apply Hn, (list_elem_of_lookup_2 _ g).
  - apply Forall_insert; [apply ram_valida|done].
Qed.

(** The machine after an access whose victim is [v]; [ok] says whether the run goes on. *)
Definition tras (v : nat) (ok : bool) (s' : sim) : Prop :=
  match paso ram dsk x v with
  | Some (ram', dsk') => ok = true ∧ maquina s' ram' dsk'
  | None => ok = false ∧ maquina s' ram dsk
  end.

Section Tras.
Context (ps : list proceso_t) (p : proceso_t) (v : nat) (s' : sim).
Hypothesis Ht : tablas ps ram.
Hypothesis Hp : ps !! Z.to_nat (pg_pid x - 1) = Some p.
Hypothesis Ep : pr_pid p = pg_pid x.
(** The process table with frame [f] in the entry of [x]. *)
Let anotado (f : nat) : list proceso_t :=
  <[Z.to_nat (pg_pid x - 1) :=
    Proceso (pr_pid p) (<[Z.to_nat (pg_pagina x - 1) := Z.of_nat f + 1]> (tabla_paginas p))]> ps.

Lemma tras_hit i :
  ram !! i = Some x → memoriaFisica s' = memoriaFisica s →
  memoriaSecundaria s' = memoriaSecundaria s → indiceDISCO s' = indiceDISCO s → procesos s' = ps → tras v true s'.
Proof.
  intros Hi E1 E2 E3 E4. rw /tras /paso decide_True; [by eapply list_elem_of_lookup_2|].
  split; [done|]. destruct Hm. split; congruence || done.
Qed.

Lemma tras_fill :
  x ∉ ram → (length ram < MARCOS)%nat → memoriaFisica s' = <[length ram := x]> (memoriaFisica s) →
  memoriaSecundaria s' = memoriaSecundaria s → indiceDISCO s' = indiceDISCO s →
  procesos s' = anotado (length ram) → tras v true s'.
Proof.
  intros Hn Hlt E1 E2 E3 E4. rw /tras /paso decide_False // decide_True //.
  split; [done|]. apply (maquina_fill s); try done. rw E4. by apply tablas_fill.
Qed.

Lemma tras_swap y j :
  x ∉ ram → ¬ (length ram < MARCOS)%nat → ram !! v = Some y → dsk !! j = Some x →
  memoriaFisica s' = <[v := x]> (memoriaFisica s) → memoriaSecundaria s' = <[j := y]> (memoriaSecundaria s) →
  indiceDISCO s' = indiceDISCO s → procesos s' = anotado v → tras v true s'.
Proof.
  intros Hn Hlt Hv Hj E1 E2 E3 E4. pose proof (mq_ram _ _ _ Hm). apply lookup_lt_Some in Hv as Hvl.
  rw /tras /paso decide_False // decide_False // Hv decide_True; [by eapply list_elem_of_lookup_2|].
  split; [done|]. apply (maquina_swap s ram dsk x y v j); try done; [lia|]. rw E4. by apply tablas_victim.
Qed.

Lemma tras_evict y :
  x ∉ ram → ¬ (length ram < MARCOS)%nat → ram !! v = Some y → x ∉ dsk → (length dsk < BLOQUES)%nat →
  memoriaFisica s' = <[v := x]> (memoriaFisica s) →
  memoriaSecundaria s' = <[indiceDISCO s := y]> (memoriaSecundaria s) →
  indiceDISCO s' = siguiente (indiceDISCO s) BLOQUES → procesos s' = anotado v → tras v true s'.
Proof.
  intros Hn Hlt Hv Hd Hdl E1 E2 E3 E4. pose proof (mq_ram _ _ _ Hm). apply lookup_lt_Some in Hv as Hvl.
  rw /tras /paso decide_False // decide_False // Hv decide_False // decide_True //.
  split; [done|]. apply (maquina_evict s ram dsk x y v); try done; [lia|]. rw E4. by apply tablas_victim.
Qed.

Lemma tras_full :
  x ∉ ram → ¬ (length ram < MARCOS)%nat → x ∉ dsk → ¬ (length dsk < BLOQUES)%nat →
  memoriaFisica s' = memoriaFisica s → memoriaSecundaria s' = memoriaSecundaria s →
  indiceDISCO s' = indiceDISCO s → procesos s' = ps → tras v false s'.
Proof.
  intros Hn Hlt Hd Hdl E1 E2 E3 E4. rw /tras /paso decide_False // decide_False //.
  assert (maquina s' ram dsk) by (destruct Hm; split; congruence || done).
  destruct (ram !! v); [|done]. by rw decide_False // decide_False.
Qed.
End Tras.

(** The block of secondary storage at [indiceDISCO] is free unless the storage is full. *)
Lemma disco_libre :
  ∃ d, memoriaSecundaria s !! indiceDISCO s = Some d ∧ (pg_pid d = -1 ↔ (length dsk < BLOQUES)%nat).
Proof.
  destruct Hm. rw mq_sec0 mq_disco0. destruct (decide (length dsk < BLOQUES)%nat) as [Hlt|Hge].
  - rw Nat.mod_small //. exists libre. split; [|done]. rw lookup_app_r // Nat.sub_diag lookup_replicate. split; [done|lia].
  - replace (length dsk) with BLOQUES by lia. rw Nat.Div0.mod_same.
    destruct dsk as [|d dsk']; [by destruct Hge; apply Nat.ltb_lt|]. exists d. split; [done|].
    apply Forall_app in mq_valid0 as [_ Hv]. apply Forall_cons in Hv as [[? _] _]. lia.
Qed.

Lemma frame_at v : ¬ (length ram < MARCOS)%nat → (v < MARCOS)%nat →
  ∃ y, ram !! v = Some y ∧ memoriaFisica s !! v = Some y.
Proof.
  intros Hf Hv. destruct (lookup_lt_is_Some_2 ram v) as [y Hy]; [lia|]. exists y. split; [done|].
  rw (mq_fis _ _ _ Hm). by apply lookup_app_l_Some.
Qed.

Lemma acceso_fifo_wp :
  ((length ram < MARCOS)%nat → indiceRAM s = length ram) → (indiceRAM s < MARCOS)%nat →
  wp (acceso_fifo (pg_pid x) (pg_pagina x)) s (λ ok s', tras (indiceRAM s) ok s' ∧
    (x ∈ ram ∨ ok = false → indiceRAM s' = indiceRAM s) ∧
    (x ∉ ram → ok = true → indiceRAM s' = siguiente (indiceRAM s) MARCOS)).
Proof.
  intros Hfill Hi. rw /acceso_fifo. pose proof Hx as [Hpid _].
  apply wp_bind, (recuperar_wp s ram); [done|apply Hm|apply ram_valida|].
  intros p ps Ht Hp Ep. apply wp_bind, wp_get. cbn [memoriaFisica memoriaSecundaria indiceRAM indiceDISCO set_procesos].
  pose proof en_ram as Hr. destruct (buscar (memoriaFisica s) (pg_pid x) (pg_pagina x)) as [i|].
  { apply wp_ret. split; [by apply (tras_hit ps _ _ Ht i)|]. split; [done|]. intros Hn. destruct Hn. by eapply list_elem_of_lookup_2. }
  pose proof en_disco as Hd. rw hay_lugar. case_decide as Hlt.
  - rw (mq_fill _ _ _ Hm Hlt) in Hd. destruct (buscar _ _ _) as [j|]; [done|].
    apply wp_bind, con_entrada_wp. wp_steps. split; [|split; [|done]; intros [|]; done].
    rw Hfill //. apply (tras_fill ps p); try done. rw Ep. by destruct x.
  - destruct (frame_at _ Hlt Hi) as (y&Hy&Hy').
    destruct (buscar (memoriaSecundaria s) _ _) as [j|].
    + apply wp_bind, (elem_wp _ _ x). { rw (mq_sec _ _ _ Hm). by apply lookup_app_l_Some. }
      apply wp_bind, (elem_wp _ _ y); [done|]. wp_step. wp_step. apply wp_bind, con_entrada_wp. wp_steps.
      split; [|split; [|done]; intros [|]; done]. by apply (tras_swap ps p _ _ Ht Hp Ep y j).
    + destruct disco_libre as (d&Ed&Hfree). apply wp_bind, (elem_wp _ _ d); [done|].
      destruct (Z.eqb_spec (pg_pid d) (-1)) as [E|E]; cbn [negb].
      * apply wp_bind, (elem_wp _ _ y); [done|]. do 4 wp_step. apply wp_bind, con_entrada_wp. wp_steps.
        split; [|split; [|done]; intros [|]; done]. apply (tras_evict ps p _ _ Ht Hp Ep y); try done; [by apply Hfree|].
        rw Ep. by destruct x.
      * rw /escribir. wp_steps. split; [|split; done]. apply (tras_full ps); try done. intros ?. by apply E, Hfree.
Qed.
Lemma acceso_lru_wp :
  (minimo (tiempoRAM s) < MARCOS)%nat →
  wp (acceso_lru (pg_pid x) (pg_pagina x)) s (λ ok s', tras (minimo (tiempoRAM s)) ok s' ∧
    (∀ i, ram !! i = Some x → tiempoRAM s' = <[i := maximo (tiempoRAM s) + 1]> (tiempoRAM s)) ∧
    (x ∉ ram → (length ram < MARCOS)%nat →
       tiempoRAM s' = <[length ram := tiempo s]> (tiempoRAM s) ∧ tiempo s' = tiempo s + 1) ∧
    (x ∉ ram → ¬ (length ram < MARCOS)%nat → ok = true →
       tiempoRAM s' = Z.succ <$> <[minimo (tiempoRAM s) := maximo (tiempoRAM s) + 1]> (tiempoRAM s))).
Proof.
  intros Hi. rw /acceso_lru. pose proof Hx as [Hpid _].
  apply wp_bind, (recuperar_wp s ram); [done|apply Hm|apply ram_valida|].
  intros p ps Ht Hp Ep. apply wp_bind, wp_get.
  cbn [memoriaFisica memoriaSecundaria indiceRAM indiceDISCO tiempoRAM tiempo set_procesos].
  pose proof en_ram as Hr. destruct (buscar (memoriaFisica s) (pg_pid x) (pg_pagina x)) as [i|].
  { assert (x ∈ ram) by (by eapply list_elem_of_lookup_2). wp_steps. split; [by apply (tras_hit ps _ _ Ht i)|].
    split; [|done]. intros j Hj. pose proof (mq_nodup _ _ _ Hm) as Hnd. apply NoDup_app in Hnd as [Hnd _].
    by rw (NoDup_lookup ram j i x Hnd Hj Hr). }
  assert (∀ i, ram !! i ≠ Some x) as Hne by (intros i Hi'; by apply Hr, (list_elem_of_lookup_2 _ i)).
  pose proof en_disco as Hd. rw hay_lugar. case_decide as Hlt.
  - rw (mq_fill _ _ _ Hm Hlt) in Hd. destruct (buscar _ _ _) as [j|]; [done|].
    apply wp_bind, con_entrada_wp. wp_steps. split; [|naive_solver].
    apply (tras_fill ps p); try done. rw Ep. by destruct x.
  - destruct (frame_at _ Hlt Hi) as (y&Hy&Hy').
    destruct (buscar (memoriaSecundaria s) _ _) as [j|].
    + rw /intercambio_lru. apply wp_bind, wp_get. apply wp_bind, (elem_wp _ _ x). { rw (mq_sec _ _ _ Hm). by apply lookup_app_l_Some. }
      apply wp_bind, (elem_wp _ _ y); [done|]. wp_step. wp_step. apply wp_bind, con_entrada_wp. wp_steps.
      split; [|naive_solver]. by apply (tras_swap ps p _ _ Ht Hp Ep y j).
    + destruct disco_libre as (d&Ed&Hfree). apply wp_bind, (elem_wp _ _ d); [done|].
      destruct (Z.eqb_spec (pg_pid d) (-1)) as [E|E]; cbn [negb].
      * apply wp_bind, (elem_wp _ _ y); [done|]. do 4 wp_step. apply wp_bind, con_entrada_wp. wp_steps.
        split; [|naive_solver]. apply (tras_evict ps p _ _ Ht Hp Ep y); try done; [by apply Hfree|].
        rw Ep. by destruct x.
      * rw /escribir. wp_steps. split; [|naive_solver]. apply (tras_full ps); try done. intros ?. by apply E, Hfree.
Qed.
End Acceso.

(** ** FIFO *)

(** The frames from [indiceRAM] on, in the order in which they were filled. *)
Definition cola_fifo (s : sim) (c : cola) : Prop :=
  ∃ ram, maquina s ram c.2 ∧ c.1 = drop (indiceRAM s) ram ++ take (indiceRAM s) ram ∧
    (indiceRAM s < MARCOS)%nat ∧ ((length ram < MARCOS)%nat → indiceRAM s = length ram).

(** Replacing the oldest page of a full memory. *)
Lemma rotar (i : nat) (ram : list pagina_t) x y :
  ram !! i = Some y → length ram = MARCOS →
  drop i ram ++ take i ram = y :: (drop (S i) ram ++ take i ram) ∧
  drop (siguiente i MARCOS) (<[i := x]> ram) ++ take (siguiente i MARCOS) (<[i := x]> ram) =
  (drop (S i) ram ++ take i ram) ++ [x].
Proof.
  intros Hi Hlen. apply lookup_lt_Some in Hi as Hlt. split; [by rw (drop_S _ y)|].
  rw insert_take_drop // /siguiente. assert (length (take i ram) = i) as Ht by (rw length_take; lia).
  destruct (decide (i + 1 < MARCOS)%nat) as [Hs|Hs].
  - rw Nat.mod_small //. rewrite drop_app_ge; [lia|]. rewrite Ht take_app_ge; [lia|]. rewrite Ht.
    replace (i + 1 - i)%nat with 1%nat by lia. simpl. rewrite take_0. by rewrite app_assoc.
  - replace (i + 1)%nat with MARCOS by lia. rw Nat.Div0.mod_same drop_0 take_0 app_nil_r.
    rewrite (drop_ge ram (S i)); [lia|]. done.
Qed.

Lemma fifo_step s c x :
  cola_fifo s c → valida x →
  wp (acceso_fifo (pg_pid x) (pg_pagina x)) s (λ ok s',
    match politica usar_fifo c x with
    | Some c' => ok = true ∧ cola_fifo s' c'
    | None => ok = false ∧ cola_fifo s' c
    end).
Proof.
  destruct c as [q dsk]. intros (ram&Hm&Hq&Hi&Hfill) Hx. simpl in Hm, Hq. 
  eapply wp_mono; [by apply (acceso_fifo_wp s ram dsk x)|]. intros ok s' (Ht&Hstay&Hnext).
  assert (x ∈ q ↔ x ∈ ram) as Hin.
  { rewrite Hq -{3}(take_drop (indiceRAM s) ram) !elem_of_app. tauto. }
  assert (length q = length ram) as Hlq by (rw Hq length_app length_drop length_take; lia).
  rw /tras /paso in Ht. rw /politica. destruct (decide (x ∈ q)) as [Hxq|Hxq].
  { rw (decide_True (P := x ∈ ram)) in Ht; [by apply Hin|]. destruct Ht as [-> Hm']. split; [done|].
    exists ram. rw /usar_fifo Hstay; [left; by apply Hin|done]. }
  rw (decide_False (P := x ∈ ram)) in Ht; [by intros ?%Hin|]. assert (x ∉ ram) as Hxr by (by intros ?%Hin).
  rw Hlq. case_decide as Hlt.
  { destruct Ht as [-> Hm']. split; [done|]. specialize (Hnext Hxr eq_refl). exists (ram ++ [x]).
    rw Hnext Hfill //. rw Hfill // in Hq. rw drop_all take_ge // app_nil_l in Hq. cbn [fst snd]. rw Hq length_app.
    split; [done|]. rw /siguiente. destruct (decide (length ram + 1 < MARCOS)%nat) as [Hs|Hs].
    - rw Nat.mod_small //. rewrite drop_ge ?take_ge ?length_app /=; try lia. split_and!; [done|lia|done].
    - assert (length ram + 1 = MARCOS)%nat as -> by lia. rw Nat.Div0.mod_same drop_0 take_0 app_nil_r. split_and!; [done|by apply Nat.ltb_lt|cbn [length]; lia]. }
  destruct (lookup_lt_is_Some_2 ram (indiceRAM s)) as [y Hy]; [lia|]. rw Hy in Ht.
  assert (length ram = MARCOS) as Hfull by (pose proof (mq_ram _ _ _ Hm); lia).
  destruct (rotar (indiceRAM s) ram x y Hy Hfull) as [R1 R2]. rewrite -Hq in R1. rewrite R1.
  assert (∀ d', maquina s' (<[indiceRAM s := x]> ram) d' → ok = true → cola_fifo s' ((drop (S (indiceRAM s)) ram ++ take (indiceRAM s) ram) ++ [x], d')) as Hput.
  { intros d' Hm' Hok. specialize (Hnext Hxr Hok). exists (<[indiceRAM s := x]> ram). rw Hnext R2. split_and!; try done.
    - rw /siguiente. apply Nat.mod_upper_bound. done.
    - rw length_insert. lia. }
  repeat case_decide; destruct Ht as [-> Hm']; (split; [done|]); [by apply Hput..|].
  exists ram. rw Hstay; [by right|]. rw -R1. done.
Qed.

(** ** LRU *)

Definition hora (ts : list Z) (f : nat) : Z := default 0 (ts !! f).

Lemma minimo_spec (ts : list Z) :
  ts ≠ [] → (minimo ts < length ts)%nat ∧ ∀ g, (g < length ts)%nat → hora ts (minimo ts) ≤ hora ts g.
Proof.
  intros Hne. set (f := λ '(im, min, i) t, if (t : Z) <? min then (i, t, S i) else (im : nat, min, S i)).
  assert (∀ suf pre im min, (pre ++ suf) !! im = Some min → (∀ g t, pre !! g = Some t → min ≤ t) →
    let r := foldl f (im, min, length pre) suf in
    (pre ++ suf) !! r.1.1 = Some r.1.2 ∧ ∀ g t, (pre ++ suf) !! g = Some t → r.1.2 ≤ t) as Hgen.
  { induction suf as [|t suf IH]; intros pre im min Him Hpre; simpl.
    - rewrite app_nil_r in Him |- *. done.
    - specialize (IH (pre ++ [t])). rewrite length_app Nat.add_1_r -app_assoc in IH.
      destruct (Z.ltb_spec t min) as [Hlt|Hge]; apply IH.
      + by rewrite lookup_app_r // Nat.sub_diag.
      + intros g t' [Hg|[_ Hg]]%lookup_app_Some; [specialize (Hpre g t' Hg); lia|].
        apply list_lookup_singleton_Some in Hg as [_ ->]. lia.
      + done.
      + intros g t' [Hg|[_ Hg]]%lookup_app_Some; [by apply (Hpre g)|].
        apply list_lookup_singleton_Some in Hg as [_ ->]. lia. }
  destruct ts as [|t ts]; [done|].
  destruct (Hgen (t :: ts) [] 0%nat t eq_refl) as [H1 H2]; [done|].
  change (minimo (t :: ts)) with (foldl f (0%nat, t, 0%nat) (t :: ts)).1.1.
  split; [by eapply lookup_lt_Some|]. intros g Hg. rw /hora H1 /=.
  destruct (lookup_lt_is_Some_2 (t :: ts) g Hg) as [t' Ht']. rw Ht'. by apply (H2 g).
Qed.

Lemma maximo_ge (ts : list Z) g : (g < length ts)%nat → hora ts g ≤ maximo ts.
Proof.
  intros Hg. rw /maximo. generalize (default 0 (ts !! 0%nat)). revert g Hg.
  assert (∀ l m, m ≤ foldl (λ max t, if max <? t then t else max) m l) as Hmono.
  { induction l as [|t l IH]; intros m; simpl; [lia|]. specialize (IH (if m <? t then t else m)). bool_cases. }
  induction ts as [|t ts IH]; intros g Hg m; simpl in *; [lia|]. destruct g as [|g].
  - rw /hora /=. pose proof (Hmono ts (if m <? t then t else m)). bool_cases.
  - apply (IH g). lia.
Qed.

(** [x] was used before [y]. *)
Definition antes (ts : list Z) (ram : list pagina_t) (x y : pagina_t) : Prop :=
  ∀ f g, ram !! f = Some x → ram !! g = Some y → hora ts f < hora ts g.

Definition cola_lru (s : sim) (c : cola) : Prop :=
  ∃ ram, maquina s ram c.2 ∧ c.1 ≡ₚ ram ∧ length (tiempoRAM s) = MARCOS ∧
    StronglySorted (antes (tiempoRAM s) ram) c.1 ∧
    ((length ram < MARCOS)%nat → ∀ f, (f < length ram)%nat → hora (tiempoRAM s) f < tiempo s).

Lemma sorted_weaken {A} (R R' : A → A → Prop) l :
  StronglySorted R l → (∀ x y, x ∈ l → y ∈ l → R x y → R' x y) → StronglySorted R' l.
Proof.
  induction 1 as [|x l Hs IH Hf]; intros HR; constructor.
  - apply IH. intros a b Ha Hb. apply HR; by right.
  - rewrite Forall_forall in Hf. apply Forall_forall. intros y Hy. apply HR; [by left|by right|by apply Hf].
Qed.

Lemma sorted_snoc {A} (R : A → A → Prop) l x :
  StronglySorted R l → (∀ y, y ∈ l → R y x) → StronglySorted R (l ++ [x]).
Proof.
  induction 1 as [|y l Hs IH Hf]; intros HR; simpl.
  - repeat constructor.
  - constructor; [apply IH; intros z Hz; apply HR; by right|]. apply Forall_app. split; [done|].
    apply Forall_singleton, HR. by left.
Qed.

Lemma sorted_filter {A} (R : A → A → Prop) (P : A → Prop) `{∀ x, Decision (P x)} l :
  StronglySorted R l → StronglySorted R (filter P l).
Proof.
  induction 1 as [|x l Hs IH Hf]; [constructor|]. rewrite filter_cons. case_decide; [|done].
  constructor; [done|]. rewrite Forall_forall in Hf. apply Forall_forall. intros y [_ Hy]%list_elem_of_filter. by apply Hf.
Qed.

(** The first page is the one in the frame with the least time. *)
Lemma minimo_first ts ram y q :
  y :: q ≡ₚ ram → NoDup ram → length ram = MARCOS → length ts = MARCOS → StronglySorted (antes ts ram) (y :: q) →
  ram !! minimo ts = Some y.
Proof.
  intros Hp Hnd Hr Ht Hs. apply StronglySorted_inv in Hs as [_ Hs]. rewrite Forall_forall in Hs.
  destruct (minimo_spec ts) as [Hlt Hmin]; [by intros ->|].
  destruct (lookup_lt_is_Some_2 ram (minimo ts)) as [z Hz]; [lia|]. rw Hz. f_equal.
  assert (z ∈ y :: q) as Hin by (rewrite Hp; by eapply list_elem_of_lookup_2).
  apply elem_of_cons in Hin as [->|Hin]; [done|]. exfalso.
  assert (y ∈ ram) as [f Hf]%list_elem_of_lookup by (rewrite -Hp; by left).
  pose proof (Hs z Hin f (minimo ts) Hf Hz). apply lookup_lt_Some in Hf. specialize (Hmin f). lia.
Qed.

(** A fresh greatest time for frame [f] makes its page the last one. *)
Lemma antes_fresh ts ram f x t :
  (f < length ram)%nat → length ts = MARCOS → (length ram ≤ MARCOS)%nat → NoDup (<[f := x]> ram) →
  (∀ g, (g < length ram)%nat → g ≠ f → hora ts g < t) →
  (∀ y, y ≠ x → y ∈ <[f := x]> ram → antes (<[f := t]> ts) (<[f := x]> ram) y x) ∧
  (∀ y z, y ≠ x → z ≠ x → antes ts ram y z → antes (<[f := t]> ts) (<[f := x]> ram) y z).
Proof.
  intros Hf Ht Hr Hnd Hmax. split.
  - intros y Hy _ g h Hg Hh. assert (h = f) as ->.
    { apply (NoDup_lookup _ h f x Hnd Hh). by apply list_lookup_insert_eq. }
    assert (g ≠ f) as Hgf by (intros ->; rw list_lookup_insert_eq // in Hg; congruence).
    rw list_lookup_insert_ne // in Hg. apply lookup_lt_Some in Hg.
    rw /hora list_lookup_insert_ne // list_lookup_insert_eq; [lia|]. by apply Hmax.
  - intros y z Hy Hz Ha g h Hg Hh.
    assert (g ≠ f) as Hgf by (intros ->; rw list_lookup_insert_eq // in Hg; congruence).
    assert (h ≠ f) as Hhf by (intros ->; rw list_lookup_insert_eq // in Hh; congruence).
    rw !list_lookup_insert_ne // in Hg, Hh. rw /hora !list_lookup_insert_ne //. by apply Ha.
Qed.

Lemma antes_succ ts ram x y : length ts = MARCOS → (length ram ≤ MARCOS)%nat → antes ts ram x y → antes (Z.succ <$> ts) ram x y.
Proof.
  intros Ht Hr Ha f g Hf Hg. specialize (Ha f g Hf Hg). apply lookup_lt_Some in Hf, Hg. revert Ha.
  rw /hora !list_lookup_fmap. destruct (lookup_lt_is_Some_2 ts f) as [? ->]; [lia|].
  destruct (lookup_lt_is_Some_2 ts g) as [? ->]; [lia|]. simpl. lia.
Qed.

Lemma usar_permute q x : NoDup q → x ∈ q → usar_lru x q ≡ₚ q.
Proof.
  intros Hnd Hx. apply NoDup_Permutation; [|done|].
  - apply NoDup_app. split_and!; [by apply NoDup_filter| |apply NoDup_singleton].
    intros y [Hy _]%list_elem_of_filter. set_solver.
  - intros y. rewrite elem_of_app list_elem_of_filter list_elem_of_singleton. destruct (decide (y = x)); naive_solver.
Qed.

(** The three ways in which the order of use changes. *)
Lemma lru_hit s s' ram q dsk i x :
  maquina s' ram dsk → q ≡ₚ ram → NoDup ram → length ram = MARCOS → length (tiempoRAM s) = MARCOS →
  StronglySorted (antes (tiempoRAM s) ram) q → ram !! i = Some x →
  tiempoRAM s' = <[i := maximo (tiempoRAM s) + 1]> (tiempoRAM s) → cola_lru s' (usar_lru x q, dsk).
Proof.
  intros Hm Hp Hnd Hr Ht Hs Hi E. assert (x ∈ q) as Hx by (rewrite Hp; by eapply list_elem_of_lookup_2).
  apply lookup_lt_Some in Hi as Hlt.
  destruct (antes_fresh (tiempoRAM s) ram i x (maximo (tiempoRAM s) + 1)) as [F1 F2]; try done; [lia|by rw list_insert_id| |].
  { intros g Hg _. pose proof (maximo_ge (tiempoRAM s) g). lia. }
  rw list_insert_id // in F1, F2.
  exists ram. cbn [fst snd]. rewrite E length_insert. split_and!; try done; [|rw /usar_lru|lia].
  - rewrite usar_permute //. by rewrite Hp.
  - apply sorted_snoc.
    + apply (sorted_weaken (antes (tiempoRAM s) ram)); [by apply sorted_filter|].
      intros a b [Ha _]%list_elem_of_filter [Hb _]%list_elem_of_filter. by apply F2.
    + intros y [Hy Hyq]%list_elem_of_filter. apply F1; [done|]. by rewrite -Hp.
Qed.

Lemma lru_fill s s' ram q dsk x :
  maquina s' (ram ++ [x]) dsk → q ≡ₚ ram → x ∉ ram → (length ram < MARCOS)%nat → length (tiempoRAM s) = MARCOS →
  StronglySorted (antes (tiempoRAM s) ram) q → (∀ f, (f < length ram)%nat → hora (tiempoRAM s) f < tiempo s) →
  tiempoRAM s' = <[length ram := tiempo s]> (tiempoRAM s) → tiempo s' = tiempo s + 1 → cola_lru s' (q ++ [x], dsk).
Proof.
  intros Hm Hp Hx Hr Ht Hs Hmax E1 E2. exists (ram ++ [x]). cbn [fst snd]. rewrite E1 E2 length_insert.
  assert (∀ g y, (ram ++ [x]) !! g = Some y → y ≠ x → ram !! g = Some y ∧ (g < length ram)%nat) as Hold.
  { intros g y [Hg|[_ Hg]]%lookup_app_Some Hy; [split; [done|by eapply lookup_lt_Some]|].
    by apply list_lookup_singleton_Some in Hg as [_ ->]. }
  assert (∀ y, y ∈ q → y ≠ x) as Hne by (intros y Hy ->; by rewrite Hp in Hy).
  split_and!; try done; [by rewrite Hp|apply sorted_snoc|].
  - apply (sorted_weaken (antes (tiempoRAM s) ram)); [done|]. intros a b Ha Hb Hab f g Hf Hg.
    apply Hold in Hf as [Hf ?]; [|by apply Hne]. apply Hold in Hg as [Hg ?]; [|by apply Hne].
    rw /hora !list_lookup_insert_ne; [lia..|]. by apply Hab.
  - intros y Hy f g Hf Hg. apply Hold in Hf as [Hf Hlt]; [|by apply Hne].
    assert (g = length ram) as ->.
    { apply lookup_app_Some in Hg as [Hg|[? Hg]]; [by destruct Hx; eapply list_elem_of_lookup_2|].
      apply list_lookup_singleton_Some in Hg as [? _]. lia. }
    rw /hora list_lookup_insert_ne; [lia|]. rw list_lookup_insert_eq; [lia|]. by apply Hmax.
  - intros _ f Hf. rewrite length_app /= in Hf. rw /hora.
    destruct (decide (f = length ram)) as [->|Hn].
    + rw list_lookup_insert_eq /=; lia.
    + rw list_lookup_insert_ne //. specialize (Hmax f). rw /hora in Hmax. lia.
Qed.

Lemma lru_evict s s' ram y q dsk x :
  let im := minimo (tiempoRAM s) in
  maquina s' (<[im := x]> ram) dsk → y :: q ≡ₚ ram → NoDup ram → x ∉ ram → length ram = MARCOS → length (tiempoRAM s) = MARCOS →
  StronglySorted (antes (tiempoRAM s) ram) (y :: q) →
  tiempoRAM s' = Z.succ <$> <[im := maximo (tiempoRAM s) + 1]> (tiempoRAM s) → cola_lru s' (q ++ [x], dsk).
Proof.
  intros im Hm Hp Hnd Hx Hr Ht Hs E. pose proof (minimo_first _ _ _ _ Hp Hnd Hr Ht Hs) as Him. fold im in Him.
  apply lookup_lt_Some in Him as Hlt.
  assert (<[im := x]> ram ≡ₚ q ++ [x]) as Hp'.
  { apply (Permutation_cons_inv (a := y)). rewrite (insert_permute ram im y x Him) -Hp.
    rewrite app_comm_cons. by rewrite -Permutation_cons_append. }
  assert (NoDup (<[im := x]> ram)) as Hnd'.
  { pose proof (mq_nodup _ _ _ Hm) as H. by apply NoDup_app in H as [? _]. }
  destruct (antes_fresh (tiempoRAM s) ram im x (maximo (tiempoRAM s) + 1)) as [F1 F2]; try done; [lia| |].
  { intros g Hg _. pose proof (maximo_ge (tiempoRAM s) g). lia. }
  apply StronglySorted_inv in Hs as [Hs _].
  assert (∀ z, z ∈ q → z ≠ x) as Hne by (intros z Hz ->; apply Hx; rewrite -Hp; by right).
  exists (<[im := x]> ram). cbn [fst snd]. rewrite E length_fmap !length_insert. split_and!; try done; [|lia].
  assert (∀ a b, antes (<[im := maximo (tiempoRAM s) + 1]> (tiempoRAM s)) (<[im := x]> ram) a b →
    antes (Z.succ <$> <[im := maximo (tiempoRAM s) + 1]> (tiempoRAM s)) (<[im := x]> ram) a b) as Hsucc.
  { intros a b. apply antes_succ; rewrite length_insert; lia. }
  apply sorted_snoc.
  - apply (sorted_weaken (antes (tiempoRAM s) ram)); [done|]. intros a b Ha Hb Hab. apply Hsucc, F2; auto.
  - intros z Hz. apply Hsucc, F1; [by apply Hne|]. rewrite Hp'. set_solver.
Qed.

(** The pages of both memories, in any order. *)
Definition contenido (s : sim) (c : cola) : Prop := ∃ ram, maquina s ram c.2 ∧ c.1 ≡ₚ ram.

Lemma lru_step s c x :
  cola_lru s c → valida x → ((length c.1 < MARCOS)%nat → x ∉ c.1) →
  wp (acceso_lru (pg_pid x) (pg_pagina x)) s (λ ok s',
    match politica usar_lru c x with
    | Some c' => ok = true ∧ cola_lru s' c'
    | None => ok = false ∧ contenido s' c
    end).
Proof.
  destruct c as [q dsk]. intros (ram&Hm&Hp&Hts&Hs&Hfill) Hx Hnew. cbn [fst snd] in *.
  pose proof (mq_nodup _ _ _ Hm) as Hnd. apply NoDup_app in Hnd as [Hnd _].
  pose proof (mq_ram _ _ _ Hm) as Hmax. assert (length q = length ram) as Hlq by (by rewrite Hp).
  destruct (minimo_spec (tiempoRAM s)) as [Hmin _]; [by intros E; rw E in Hts|].
  eapply wp_mono; [apply (acceso_lru_wp s ram dsk x); [done|done|lia]|]. intros ok s' (Ht&Hhit&Hfree&Hevict).
  rw /tras /paso in Ht. rw /politica. destruct (decide (x ∈ q)) as [Hxq|Hxq].
  { assert (x ∈ ram) as Hxr by (by rewrite -Hp). rw (decide_True (P := x ∈ ram)) // in Ht.
    apply list_elem_of_lookup in Hxr as [i Hi]. destruct Ht as [-> Hm']. split; [done|].
    apply (lru_hit s s' ram q dsk i x); try done; [|by apply Hhit]. destruct (decide (length ram < MARCOS)%nat); [|lia].
    destruct Hnew; [lia|done]. }
  assert (x ∉ ram) as Hxr by (by rewrite -Hp). rw (decide_False (P := x ∈ ram)) // Hlq in Ht |- *.
  destruct (decide (length ram < MARCOS)%nat) as [Hlt|Hge].
  { destruct Ht as [-> Hm'], (Hfree Hxr Hlt) as [E1 E2]. split; [done|].
    by apply (lru_fill s s' ram q dsk x); auto. }
  destruct q as [|y q]; [simpl in *; rewrite -Hlq in Hge; by destruct Hge; apply Nat.ltb_lt|].
  assert (length ram = MARCOS) as Hfull by lia.
  rw (minimo_first _ _ _ _ Hp Hnd Hfull Hts Hs) in Ht.
  repeat case_decide; destruct Ht as [-> Hm']; (split; [done|]); [by apply (lru_evict s s' ram y q); auto..|by exists ram].
Qed.

(** ** Runs *)

Section Correr.
Context (acceso : Z → Z → K sim bool) (usar : pagina_t → list pagina_t → list pagina_t).
Context (R Fin : sim → cola → Prop) (apto : cola → list pagina_t → Prop).
Hypothesis Hfin : ∀ s c, R s c → Fin s c.
Hypothesis Hstep : ∀ s c x l, R s c → valida x → apto c (x :: l) →
  wp (acceso (pg_pid x) (pg_pagina x)) s (λ ok s',
    match politica usar c x with
    | Some c' => ok = true ∧ R s' c' ∧ apto c' l
    | None => ok = false ∧ Fin s' c
    end).

Lemma bucle_wp l c s pg :
  R s c → Forall valida l → apto c l → wp (bucle acceso pg (entrada_de l)) s (λ _ s', Fin s' (correr usar c l)).
Proof.
  revert c s pg. induction l as [|x l IH]; intros c s pg HR Hl Ha; [by apply wp_ret, Hfin|].
  apply Forall_cons in Hl as [Hx Hl].
  change (entrada_de (x :: l)) with (pg_pid x :: pg_pagina x :: entrada_de l). cbn [bucle correr].
  apply wp_bind. eapply wp_mono; [by apply (Hstep s c x l)|]. intros ok s' H.
  destruct (politica usar c x) as [c'|].
  - destruct H as (->&HR'&Ha'). by apply IH.
  - by destruct H as [-> H].
Qed.
End Correr.

(** The frames of the first accesses are all different. *)
Definition apto_lru (c : cola) (l : list pagina_t) : Prop :=
  NoDup c.1 ∧ ((length c.1 < MARCOS)%nat → NoDup (c.1 ++ take (MARCOS - length c.1) l)).

Lemma apto_step c x l c' : apto_lru c (x :: l) → politica usar_lru c x = Some c' → apto_lru c' l.
Proof.
  destruct c as [q d]. intros [Hnd Ha]. rw /apto_lru /politica. cbn [fst snd] in *.
  destruct (decide (x ∈ q)) as [Hx|Hx].
  { intros [= <-]. cbn [fst]. pose proof (usar_permute q x Hnd Hx) as Hp.
    split; [by rewrite Hp|]. rewrite (Permutation_length Hp). intros Hlt. specialize (Ha Hlt).
    destruct (MARCOS - length q)%nat as [|n] eqn:E; [lia|]. apply NoDup_app in Ha as (_&Ha&_). destruct (Ha x Hx). by left. }
  assert (∀ q', NoDup q' → x ∉ q' → NoDup (q' ++ [x])) as Hsnoc.
  { intros q' Hq Hn. apply NoDup_app. split_and!; [done| |apply NoDup_singleton].
    intros y Hy ->%list_elem_of_singleton. done. }
  destruct (decide (length q < MARCOS)%nat) as [Hlt|Hge].
  - intros [= <-]. cbn [fst]. split; [by apply Hsnoc|]. intros _. specialize (Ha Hlt). rewrite length_app /=.
    replace (MARCOS - length q)%nat with (S (MARCOS - (length q + 1)))%nat in Ha by lia. by rewrite -app_assoc.
  - destruct q as [|y q]; [done|]. apply NoDup_cons in Hnd as [_ Hnd].
    assert (apto_lru (q ++ [x], d) l ∧ ∀ d', apto_lru (q ++ [x], d') l) as [_ Hr].
    { rw /apto_lru. cbn [fst]. rewrite length_app /=. simpl in Hge. split; [|intros d']; (split; [apply Hsnoc; [done|intros ?; apply Hx; by right]|lia]). }
    repeat case_decide; intros [= <-]; apply Hr || done.
Qed.

Lemma maquina_inicial : maquina inicial [] [].
Proof.
  split.
  - reflexivity.
  - apply Nat.leb_le. reflexivity.
  - reflexivity.
  - apply Nat.leb_le. reflexivity.
  - reflexivity.
  - reflexivity.
  - apply NoDup_nil_2.
  - apply Forall_nil_2.
  - split.
    + reflexivity.
    + intros i p [-> _]%lookup_replicate. by left.
    + intros f x Hx. by rewrite lookup_nil in Hx.
Qed.

Lemma maquina_salida s ram dsk t : maquina s ram dsk → maquina (set_salida t s) ram dsk.
Proof. by intros []. Qed.

Lemma imprimir_wp s (Q : unit → sim → Prop) : (∀ t, Q tt (set_salida t s)) → wp imprimir s Q.
Proof. intros HQ. rw /imprimir /escribir. wp_steps. apply HQ. Qed.

(** *** No page is lost *)

Lemma paso_conserva ram dsk x v ram' dsk' :
  paso ram dsk x v = Some (ram', dsk') → NoDup (ram ++ dsk) →
  x ∈ ram' ∧ (∀ y, y ∈ ram' ++ dsk' ↔ y = x ∨ y ∈ ram ++ dsk).
Proof.
  rw /paso. intros Hp Hnd. destruct (decide (x ∈ ram)) as [Hx|Hx]; [naive_solver set_solver|].
  destruct (decide (length ram < MARCOS)%nat); [naive_solver set_solver|].
  destruct (ram !! v) as [y|] eqn:Hv; [|done]. pose proof (insert_permute ram v y x Hv) as P.
  assert (x ∈ <[v := x]> ram) as Hin.
  { apply (list_elem_of_lookup_2 _ v), list_lookup_insert_eq. by eapply lookup_lt_Some. }
  assert (∀ z, z ∈ y :: <[v := x]> ram ↔ z ∈ x :: ram) as Hz by (intros z; by rewrite P).
  apply NoDup_app in Hnd as (Hnr&Hdis&Hnd). destruct (decide (x ∈ dsk)) as [Hxd|Hxd].
  - injection Hp as <- <-. split; [done|]. intros z. apply list_elem_of_lookup in Hxd as [j Hj].
    rewrite (sustituir_insert dsk j x y Hnd Hj). pose proof (insert_permute dsk j x y Hj) as P'.
    assert (z ∈ x :: <[j := y]> dsk ↔ z ∈ y :: dsk) as Hz' by (by rewrite P').
    specialize (Hz z). rewrite !elem_of_app. rewrite !elem_of_cons in Hz, Hz'.
    assert (y ∈ <[j := y]> dsk).
    { apply (list_elem_of_lookup_2 _ j), list_lookup_insert_eq. by eapply lookup_lt_Some. }
    assert (y ∈ ram) by (by eapply list_elem_of_lookup_2).
    destruct (decide (z = x)), (decide (z = y)); naive_solver.
  - destruct (decide (length dsk < BLOQUES)%nat); [|done]. injection Hp as <- <-. split; [done|]. intros z.
    specialize (Hz z). rewrite !elem_of_app list_elem_of_singleton. rewrite !elem_of_cons in Hz.
    assert (y ∈ ram) by (by eapply list_elem_of_lookup_2). naive_solver.
Qed.

(** Both memories are full when an access finds no room. *)
Lemma paso_lleno ram dsk x v :
  paso ram dsk x v = None → (v < MARCOS)%nat → (length ram ≤ MARCOS)%nat →
  x ∉ ram ++ dsk ∧ (MARCOS + BLOQUES ≤ length (ram ++ dsk))%nat.
Proof.
  rw /paso. intros Hp Hv Hr. destruct (decide (x ∈ ram)) as [|Hx]; [done|].
  destruct (decide (length ram < MARCOS)%nat); [done|].
  destruct (lookup_lt_is_Some_2 ram v) as [y Hy]; [lia|]. rewrite Hy in Hp.
  destruct (decide (x ∈ dsk)); [done|]. destruct (decide (length dsk < BLOQUES)%nat); [done|].
  rewrite elem_of_app length_app. split; [naive_solver|lia].
Qed.

Section Conservar.
Context (acceso : Z → Z → K sim bool) (I : sim → list pagina_t → Prop) (victima : sim → nat).
Hypothesis Hv : ∀ s ram, I s ram → (victima s < MARCOS)%nat.
Hypothesis Hstep : ∀ s ram dsk x, maquina s ram dsk → I s ram → valida x →
  wp (acceso (pg_pid x) (pg_pagina x)) s (λ ok s', tras ram dsk x (victima s) ok s' ∧
    ∀ ram' dsk', paso ram dsk x (victima s) = Some (ram', dsk') → I s' ram').

(** After the accesses [pre], with at most 24 different pages in all. *)
Lemma conservar_wp l pre s ram dsk pg :
  maquina s ram dsk → I s ram → Forall valida l → (∀ y, y ∈ ram ++ dsk ↔ y ∈ pre) →
  (length (remove_dups (pre ++ l)) ≤ MARCOS + BLOQUES)%nat → (∀ x, last pre = Some x → x ∈ ram) →
  wp (bucle acceso pg (entrada_de l)) s (λ _ s', ∃ ram' dsk', maquina s' ram' dsk' ∧
    (∀ y, y ∈ ram' ++ dsk' ↔ y ∈ pre ++ l) ∧ ∀ x, last (pre ++ l) = Some x → x ∈ ram').
Proof.
  revert pre s ram dsk pg. induction l as [|x l IH]; intros pre s ram dsk pg Hm HI Hl Hin Hsz Hlast.
  { apply wp_ret. exists ram, dsk. by rewrite app_nil_r. }
  apply Forall_cons in Hl as [Hx Hl].
  change (entrada_de (x :: l)) with (pg_pid x :: pg_pagina x :: entrada_de l). cbn [bucle].
  apply wp_bind. eapply wp_mono; [by apply (Hstep s ram dsk x)|]. intros ok s' [Ht HI']. rw /tras in Ht.
  pose proof (mq_nodup _ _ _ Hm) as Hnd.
  destruct (paso ram dsk x (victima s)) as [[ram' dsk']|] eqn:E.
  - destruct Ht as [-> Hm']. destruct (paso_conserva _ _ _ _ _ _ E Hnd) as [Hxr Hall].
    assert (pre ++ x :: l = (pre ++ [x]) ++ l) as Eq by (by rewrite -app_assoc). rewrite Eq in Hsz |- *.
    apply (IH _ s' ram' dsk'); try done; [by apply (HI' _ _ eq_refl)| |].
    + intros y. rewrite Hall Hin elem_of_app list_elem_of_singleton. tauto.
    + intros y. rewrite last_snoc. by intros [= <-].
  - exfalso. destruct (paso_lleno _ _ _ _ E) as [Hn Hlen]; [by eapply Hv|apply Hm|].
    assert (length (x :: ram ++ dsk) ≤ length (remove_dups (pre ++ x :: l)))%nat; [|simpl in *; lia].
    apply submseteq_length, NoDup_submseteq; [by apply NoDup_cons|]. intros y Hy.
    apply elem_of_remove_dups. rewrite elem_of_app. apply elem_of_cons in Hy as [->|Hy]; [right; by left|left; by apply Hin].
Qed.
End Conservar.

Lemma conservar_fifo l :
  Forall valida l → (length (remove_dups l) ≤ MARCOS + BLOQUES)%nat →
  wp (bucle acceso_fifo None (entrada_de l)) inicial (λ _ s, ∃ ram dsk, maquina s ram dsk ∧
    (∀ y, y ∈ ram ++ dsk ↔ y ∈ l) ∧ ∀ x, last l = Some x → x ∈ ram).
Proof.
  intros Hl Hsz. apply (conservar_wp acceso_fifo
    (λ s ram, (indiceRAM s < MARCOS)%nat ∧ ((length ram < MARCOS)%nat → indiceRAM s = length ram)) indiceRAM)
    with (pre := []) (ram := []) (dsk := []); try done.
  - by intros s ram [? _].
  - intros s ram dsk x Hm [Hi Hfill] Hx. eapply wp_mono; [by apply (acceso_fifo_wp s ram dsk x)|].
    intros ok s' (Ht&Hstay&Hnext). split; [done|]. intros ram' dsk' E. rw /tras E in Ht. destruct Ht as [-> Hm'].
    rw /paso in E. destruct (decide (x ∈ ram)) as [Hin|Hin].
    { injection E as <- <-. rw Hstay //. by left. }
    specialize (Hnext Hin eq_refl). split.
    { rw Hnext /siguiente. apply Nat.mod_upper_bound. done. }
    intros Hlt. rw Hnext. destruct (decide (length ram < MARCOS)%nat) as [Hr|Hr].
    + injection E as <- <-. rewrite length_app in Hlt |- *. cbn [length] in *. rw /siguiente Hfill // Nat.mod_small; lia.
    + destruct (ram !! indiceRAM s) as [y|]; [|done]. exfalso.
      repeat case_decide; simplify_eq/=; rewrite length_insert in Hlt; done.
  - apply maquina_inicial.
  - by split; [apply Nat.ltb_lt|].
Qed.

Lemma conservar_lru l :
  Forall valida l → (length (remove_dups l) ≤ MARCOS + BLOQUES)%nat →
  wp (bucle acceso_lru None (entrada_de l)) inicial (λ _ s, ∃ ram dsk, maquina s ram dsk ∧
    (∀ y, y ∈ ram ++ dsk ↔ y ∈ l) ∧ ∀ x, last l = Some x → x ∈ ram).
Proof.
  intros Hl Hsz. apply (conservar_wp acceso_lru (λ s _, length (tiempoRAM s) = MARCOS) (λ s, minimo (tiempoRAM s)))
    with (pre := []) (ram := []) (dsk := []); try done.
  - intros s ram E. rewrite -E. apply minimo_spec. intros E'. by rewrite E' in E.
  - intros s ram dsk x Hm Hts Hx. destruct (minimo_spec (tiempoRAM s)) as [Hmin _]; [intros E'; by rewrite E' in Hts|].
    eapply wp_mono; [apply (acceso_lru_wp s ram dsk x); [done|done|lia]|].
    intros ok s' (Ht&Hhit&Hfree&Hevict). split; [done|]. intros ram' dsk' E. rw /tras E in Ht. destruct Ht as [-> Hm'].
    destruct (decide (x ∈ ram)) as [[i Hi]%list_elem_of_lookup|Hn].
    + by rewrite (Hhit i Hi) length_insert.
    + destruct (decide (length ram < MARCOS)%nat) as [Hr|Hr].
      * destruct (Hfree Hn Hr) as [-> _]. by rewrite length_insert.
      * rewrite (Hevict Hn Hr eq_refl) length_fmap length_insert. done.
  - apply maquina_inicial.
Qed.

(** ** Theorems *)

(** C33: with [-f] the frames are a queue of pages: for every input the run ends, and the frames from
    [indiceRAM] on hold the pages the queue policy keeps, secondary storage the pages it evicted, in its order. *)
Theorem fifo_is_queue (l : list pagina_t) (Hl : Forall valida l) :
  wp (main ["sim"; "-f"] (entrada_de l)) inicial (λ st s,
    st = EXIT_SUCCESS ∧ cola_fifo s (correr usar_fifo ([], []) l)).
Proof.
  change (main ["sim"; "-f"] (entrada_de l)) with
    (_ ← bucle acceso_fifo None (entrada_de l); _ ← imprimir; mret EXIT_SUCCESS).
  apply wp_bind. eapply wp_mono.
  { apply (bucle_wp acceso_fifo usar_fifo cola_fifo cola_fifo (λ _ _, True)) with (c := ([], [])); [done| | |done|done].
    - intros s c x l' HR Hx _. eapply wp_mono; [by apply fifo_step|]. intros ok s' H. by destruct (politica usar_fifo c x); naive_solver.
    - exists []. split; [apply maquina_inicial|]. split; [done|]. split; [by apply Nat.ltb_lt|done]. }
  intros [] s (ram&Hm&H). apply wp_bind, imprimir_wp. intros t. apply wp_ret. split; [done|].
  exists ram. split; [by apply maquina_salida|done].
Qed.

(** With [-l], when the frames fill up without a repeated access, the pages in the frames and in
    secondary storage are those of a least recently used policy. *)
Theorem lru_keeps_order (l : list pagina_t) (Hl : Forall valida l) (Hd : NoDup (take MARCOS l)) :
  wp (main ["sim"; "-l"] (entrada_de l)) inicial (λ st s,
    st = EXIT_SUCCESS ∧ contenido s (correr usar_lru ([], []) l)).
Proof.
  change (main ["sim"; "-l"] (entrada_de l)) with
    (_ ← bucle acceso_lru None (entrada_de l); _ ← imprimir; mret EXIT_SUCCESS).
  apply wp_bind. eapply wp_mono.
  { apply (bucle_wp acceso_lru usar_lru cola_lru contenido apto_lru) with (c := ([], [])).
    - intros s c (ram&Hm&Hp&_). by exists ram.
    - intros s c x l' HR Hx Ha. eapply wp_mono; [apply lru_step; [done..|]|].
      + intros Hlt Hin. destruct Ha as [_ Ha]. specialize (Ha Hlt).
        destruct (MARCOS - length c.1)%nat eqn:E; [lia|]. apply NoDup_app in Ha as (_&Ha&_). destruct (Ha x Hin). by left.
      + intros ok s' H. pose proof (apto_step c x l') as Hs.
        destruct (politica usar_lru c x) as [c'|]; [|done]. destruct H. split_and!; [done..|by apply Hs].
    - exists []. split; [apply maquina_inicial|]. split_and!; [done|done|constructor|]. cbn [length]. lia.
    - done.
    - split; [apply NoDup_nil_2|]. by rewrite app_nil_l Nat.sub_0_r. }
  intros [] s (ram&Hm&H). apply wp_bind, imprimir_wp. intros t. apply wp_ret. split; [done|].
  exists ram. split; [by apply maquina_salida|done].
Qed.

(** With either policy, as long as the input has at most 24 different pages, every page accessed is
    in exactly one frame or block, no other page is, the last page accessed is in a frame, and every page in a
    frame has that frame in the page table of its process. *)
Theorem pages_conserved (opcion : string) (l : list pagina_t) (Hop : opcion = "-f" ∨ opcion = "-l")
  (Hl : Forall valida l) (Hsz : (length (remove_dups l) ≤ MARCOS + BLOQUES)%nat) :
  wp (main ["sim"; opcion] (entrada_de l)) inicial (λ st s, st = EXIT_SUCCESS ∧
    ∃ ram dsk, maquina s ram dsk ∧ (∀ y, y ∈ ram ++ dsk ↔ y ∈ l) ∧ ∀ x, last l = Some x → x ∈ ram).
Proof.
  assert (∃ acceso, main ["sim"; opcion] (entrada_de l) =
    (_ ← bucle acceso None (entrada_de l); _ ← imprimir; mret EXIT_SUCCESS) ∧
    wp (bucle acceso None (entrada_de l)) inicial (λ _ s, ∃ ram dsk, maquina s ram dsk ∧
      (∀ y, y ∈ ram ++ dsk ↔ y ∈ l) ∧ ∀ x, last l = Some x → x ∈ ram)) as (acceso&->&Hwp).
  { destruct Hop as [-> | ->].
    - exists acceso_fifo. split; [reflexivity|]. apply conservar_fifo; done.
    - exists acceso_lru. split; [reflexivity|]. apply conservar_lru; done. }
  apply wp_bind. eapply wp_mono; [exact Hwp|]. intros [] s (ram&dsk&Hm&H). apply wp_bind, imprimir_wp. intros t.
  apply wp_ret. split; [done|]. exists ram, dsk. split; [by apply maquina_salida|done].
Qed.

(** Page [k] of process 1. *)
Definition pg (k : Z) : pagina_t := Pagina 1 k.
(** Page 1 is accessed three times before the frames are full, and page 9 needs a frame. *)
Definition lru_mal : list pagina_t := pg 1 :: pg 1 :: (pg <$> seqZ 1 9).

(** The clock of [-l] is not advanced by an access to a page in a frame, so a page loaded later can
    look older: on this input the simulator evicts page 2 and keeps page 1, which is the least recently used one. *)
Theorem lru_evicts_recent :
  wp (main ["sim"; "-l"] (entrada_de lru_mal)) inicial (λ _ s,
    pg 2 ∈ memoriaSecundaria s ∧ pg 1 ∈ memoriaFisica s) ∧
  pg 1 ∈ (correr usar_lru ([], []) lru_mal).2 ∧ pg 2 ∈ (correr usar_lru ([], []) lru_mal).1.
Proof.
  split; [|split].
  - rw /wp. set (r := main _ _ _). vm_compute in r. split; apply (bool_decide_unpack _); vm_compute; exact I.
  - apply (bool_decide_unpack _). vm_compute. exact I.
  - apply (bool_decide_unpack _). vm_compute. exact I.
Qed.

(** The page table entry of an evicted page is left as it was: after nine accesses with [-f] the table of
    the process says that pages 1 and 9 are both in frame 1, though page 1 is in secondary storage. *)
Theorem evicted_page_keeps_entry :
  wp (main ["sim"; "-f"] (entrada_de (pg <$> seqZ 1 9))) inicial (λ _ s,
    pg 1 ∈ memoriaSecundaria s ∧ memoriaFisica s !! 0%nat = Some (pg 9) ∧
    ∃ p, procesos s !! 0%nat = Some p ∧ tabla_paginas p !! 0%nat = Some 1 ∧ tabla_paginas p !! 8%nat = Some 1).
Proof.
  rw /wp. set (r := main _ _ _). vm_compute in r. split; [|split].
  - apply (bool_decide_unpack _). vm_compute. exact I.
  - reflexivity.
  - eexists. split; [reflexivity|]. split; reflexivity.
Qed.

(** ** Witnesses *)

Lemma pg_valida n : (n ≤ 16)%nat → Forall valida (pg <$> seqZ 1 (Z.of_nat n)).
Proof.
  intros Hn. apply Forall_fmap, Forall_forall. intros k Hk%elem_of_seqZ. change (1 ≤ 1 ≤ 100 ∧ 1 ≤ k ≤ 16). lia.
Qed.

Lemma fifo_is_queue_witness :
  wp (main ["sim"; "-f"] (entrada_de (pg <$> seqZ 1 9))) inicial (λ st s,
    cola_fifo s (pg <$> seqZ 2 8, [pg 1])).
Proof.
  eapply wp_mono; [exact (fifo_is_queue (pg <$> seqZ 1 9) (pg_valida 9 ltac:(lia)))|]. intros st s [_ H]. exact H.
Defined.

Lemma lru_keeps_order_witness :
  wp (main ["sim"; "-l"] (entrada_de ((pg <$> seqZ 1 8) ++ [pg 1; pg 9]))) inicial (λ st s,
    contenido s ((pg <$> seqZ 3 6) ++ [pg 1; pg 9], [pg 2])).
Proof.
  eapply wp_mono; [apply (lru_keeps_order ((pg <$> seqZ 1 8) ++ [pg 1; pg 9]))|].
  - apply Forall_app. split; [apply (pg_valida 8); lia|]. repeat constructor; vm_compute; congruence.
  - apply (bool_decide_unpack _). vm_compute. exact I.
  - intros st s [_ H]. exact H.
Defined.

Lemma pages_conserved_witness :
  wp (main ["sim"; "-l"] (entrada_de lru_mal)) inicial (λ st s, ∃ ram dsk, maquina s ram dsk ∧ pg 9 ∈ ram ∧ pg 2 ∈ ram ++ dsk).
Proof.
  eapply wp_mono; [apply (pages_conserved "-l" lru_mal)|].
  - by right.
  - apply Forall_cons. split; [vm_compute; split; split; congruence|].
    apply Forall_cons. split; [vm_compute; split; split; congruence|]. apply (pg_valida 9). lia.
  - vm_compute. lia.
  - intros st s (_&ram&dsk&Hm&Hin&Hlast). exists ram, dsk. split; [exact Hm|]. split.
    + apply Hlast. reflexivity.
    + apply Hin. apply (bool_decide_unpack _). vm_compute. exact I.
Defined.
