(* ===== verification/Sh.v ===== *)
(** * The shell of xv6 (xv6/sh.c).

    The parser works on positions in the line buffer, as the code does with pointers
    ([ps] is the state, [es] the end of the line); a command is the tree of the C
    structures, its words pairs of positions.  [panic] ends the shell's child.  The
    recursion of the parser and its loops run on fuel.  The theorems: the parser returns exactly the commands of
    a grammar on the tokens of the line, it always ends, and after [nulterminate] every word of the
    command is a C string of the buffer. *)
From S2P Require Import Prelude.
Local Open Scope Z_scope.

(** ** Commands *)

Definition MAXARGS : nat := 10.
Definition O_RDONLY : Z := 0x000.
Definition O_WRONLY : Z := 0x001.
Definition O_RDWR : Z := 0x002.
Definition O_CREATE : Z := 0x200.

(** A word: where it starts and where it ends in the buffer. *)
Definition word : Type := nat * nat.

Inductive cmd :=
| EXEC (argv : list word)
| REDIR (c : cmd) (file : word) (mode fd : Z)
| PIPE (left right : cmd)
| LIST (left right : cmd)
| BACK (c : cmd).

(** ** Characters *)

Definition whitespace : list Z := [32; 9; 13; 10; 11].
(** Less, bar, greater, ampersand, semicolon and the parentheses. *)
Definition LT : Z := 60.
Definition BAR : Z := 124.
Definition GT : Z := 62.
Definition AMP : Z := 38.
Definition SEMI : Z := 59.
Definition LPAR : Z := 40.
Definition RPAR : Z := 41.
Definition symbols : list Z := [LT; BAR; GT; AMP; SEMI; LPAR; RPAR].

Definition strchr (s : list Z) (c : Z) : bool := bool_decide (c ∈ s).

Section Parser.
(** The bytes of the line before the terminating zero. *)
Context (buf : list Z).
Definition es : nat := length buf.
Definition ch (s : nat) : Z := default 0 (buf !! s).

(** The loop that advances [s] while it is before [es] and [p] holds of the character there. *)
Fixpoint skip (p : Z → bool) (fuel : nat) (s : nat) : nat :=
  match fuel with
  | O => s
  | S k => if (s <? es)%nat && p (ch s) then skip p k (S s) else s
  end.
Definition skip_white (s : nat) : nat := skip (strchr whitespace) es s.
Definition word_char (c : Z) : bool := negb (strchr whitespace c) && negb (strchr symbols c).

(** What [gettoken] returns: 0 at the end, the symbol, ['+'] for [>>] or ['a'] for a word. *)
Definition PLUS : Z := 43.
Definition WORD : Z := 97.

(** The token, [*q] and [*eq]. *)
Definition gettoken : K nat (Z * word) := λ s,
  let s := skip_white s in
  let q := s in
  let '(ret, s) :=
    if ch s =? 0 then (0, s)
    else if strchr [BAR; LPAR; RPAR; SEMI; AMP; LT] (ch s) then (ch s, S s)
    else if ch s =? GT then
      if ch (S s) =? GT then (PLUS, S (S s)) else (GT, S s)
    else (WORD, skip word_char es s) in
  Ret (ret, (q, s)) (skip_white s).

Definition peek (toks : list Z) : K nat bool := λ s,
  let s := skip_white s in Ret (negb (ch s =? 0) && strchr toks (ch s)) s.

(** ** The parser *)

Definition redir_of (tok : Z) (c : cmd) (w : word) : cmd :=
  if tok =? LT then REDIR c w O_RDONLY 0
  else if tok =? GT then REDIR c w (Z.lor O_WRONLY O_CREATE) 1
  else if tok =? PLUS then REDIR c w (Z.lor O_WRONLY O_CREATE) 1
  else c.

(** The redirections found, in order; [parseredirs] wraps them around the command it gets. *)
Fixpoint parseredirs (fuel : nat) : K nat (list (Z * word)) :=
  match fuel with
  | O => undef "parseredirs: loop"
  | S k =>
      b ← peek [LT; GT];
      if (b : bool) then
        t ← gettoken;
        w ← gettoken;
        if negb (w.1 =? WORD) then panic "missing file for redirection"
        else
          rs ← parseredirs k;
          mret ((t.1, w.2) :: rs)
      else mret []
  end.
Definition wrap (c : cmd) (rs : list (Z * word)) : cmd := foldl (λ c r, redir_of r.1 c r.2) c rs.

(** The [while] of [parseexec]: the words of [cmd->argv] and the redirections wrapped around it. *)
Fixpoint parseargs (fuel : nat) (argc : nat) : K nat (list word * list (Z * word)) :=
  match fuel with
  | O => undef "parseexec: loop"
  | S k =>
      b ← peek [BAR; RPAR; AMP; SEMI];
      if (b : bool) then mret ([], [])
      else
        t ← gettoken;
        if t.1 =? 0 then mret ([], [])
        else if negb (t.1 =? WORD) then panic "syntax"
        else if (MAXARGS <=? S argc)%nat then panic "too many args"
        else
          rs ← parseredirs (S es);
          r ← parseargs k (S argc);
          mret (t.2 :: r.1, rs ++ r.2)
  end.

(** [while(peek(ps, es, "&"))] of [parseline]: how often. *)
Fixpoint parseback (fuel : nat) : K nat nat :=
  match fuel with
  | O => undef "parseline: loop"
  | S k =>
      b ← peek [AMP];
      if (b : bool) then _ ← gettoken; n ← parseback k; mret (S n) else mret O
  end.

Fixpoint parseline (fuel : nat) : K nat cmd :=
  match fuel with
  | O => undef "parseline"
  | S k =>
      c ← parsepipe k;
      n ← parseback (S es);
      let c := Nat.iter n BACK c in
      b ← peek [SEMI];
      if (b : bool) then _ ← gettoken; r ← parseline k; mret (LIST c r) else mret c
  end
with parsepipe (fuel : nat) : K nat cmd :=
  match fuel with
  | O => undef "parsepipe"
  | S k =>
      c ← parseexec k;
      b ← peek [BAR];
      if (b : bool) then _ ← gettoken; r ← parsepipe k; mret (PIPE c r) else mret c
  end
with parseexec (fuel : nat) : K nat cmd :=
  match fuel with
  | O => undef "parseexec"
  | S k =>
      b ← peek [LPAR];
      if (b : bool) then parseblock k
      else
        rs ← parseredirs (S es);
        r ← parseargs (S es) 0;
        mret (wrap (EXEC r.1) (rs ++ r.2))
  end
with parseblock (fuel : nat) : K nat cmd :=
  match fuel with
  | O => undef "parseblock"
  | S k =>
      b ← peek [LPAR];
      if negb b then panic "parseblock"
      else
        _ ← gettoken;
        c ← parseline k;
        b ← peek [RPAR];
        if negb b then panic "syntax - missing )"
        else
          _ ← gettoken;
          rs ← parseredirs (S es);
          mret (wrap c rs)
  end.

(** Every call of a parsing function takes a character off the line or is one of four nested calls. *)
Definition parse_fuel : nat := 4 * es + 5.

Definition parsecmd : K nat cmd :=
  c ← parseline parse_fuel;
  _ ← peek [];
  s ← get;
  if negb (Nat.eqb s es) then panic "syntax" else mret c.

(** The positions [nulterminate] writes a zero to, in order. *)
Fixpoint nul_positions (c : cmd) : list nat :=
  match c with
  | EXEC argv => argv.*2
  | REDIR c w _ _ => nul_positions c ++ [w.2]
  | PIPE l r | LIST l r => nul_positions l ++ nul_positions r
  | BACK c => nul_positions c
  end.

(** The buffer with its terminating zero after [nulterminate]. *)
Definition nulterminate (c : cmd) : list Z := foldl (λ b p, <[p := 0]> b) (buf ++ [0]) (nul_positions c).

End Parser.

(** ** Running commands *)

(** The system calls of the child, in order. *)
Inductive action :=
| AExec (argv : list (list Z))
| AClose (fd : Z)
| AOpen (file : list Z) (mode : Z)
| APrint (fd : Z) (msg : string)
| AExit.

(** The C string at a position of the buffer. *)
Definition string_at (b : list Z) (p : nat) : list Z := cstring (drop p b).

(** [can_open] says whether [open] succeeds; [exec] returns only when it fails, and then the child exits. *)
Fixpoint runcmd (can_open : list Z → Z → bool) (b : list Z) (c : cmd) : list action :=
  match c with
  | EXEC [] => [AExit]
  | EXEC argv => [AExec ((λ w, string_at b w.1) <$> argv); AExit]
  | REDIR c w mode fd =>
      AClose fd :: AOpen (string_at b w.1) mode ::
      (if can_open (string_at b w.1) mode then [] else [APrint 1 "error"]) ++ runcmd can_open b c
  | LIST l _ => APrint 2 "list not implemented" :: runcmd can_open b l
  | PIPE l _ => APrint 2 "pipe not implemented" :: runcmd can_open b l
  | BACK c => APrint 2 "background not implemented" :: runcmd can_open b c
  end.

(** ** The main loop *)

Definition NL : Z := 10.
Definition CR : Z := 13.
Definition NBUF : nat := 100.

(** [gets] of ulib.c: the bytes read, and what is left of the input. *)
Fixpoint gets_loop (n : nat) (input : list Z) : list Z * list Z :=
  match n, input with
  | O, _ | _, [] => ([], input)
  | S k, c :: input' =>
      if (c =? NL) || (c =? CR) then ([c], input')
      else let '(l, rest) := gets_loop k input' in (c :: l, rest)
  end.
Definition gets (max : nat) (input : list Z) : list Z * list Z := gets_loop (max - 1) input.

(** The line in the buffer, and [None] for -1. *)
Definition getcmd (nbuf : nat) (input : list Z) : option (list Z * list Z) :=
  let '(l, rest) := gets nbuf input in
  match l with
  | [] => None
  | c :: _ => if c =? 0 then None else Some (l, rest)
  end.

Inductive sh_event :=
| EChdir (path : list Z)
| EChild (calls : list action).

(** The child that runs a line; the diagnostic of [parsecmd] before its panic is left out. *)
Definition child (can_open : list Z → Z → bool) (b : list Z) : list action :=
  match parsecmd b 0%nat with
  | Ret c _ => runcmd can_open (nulterminate b c) c
  | Panic msg => [APrint 2 msg; AExit]
  | _ => []
  end.

(** One round of the loop of [main] on the C string in the buffer; [fork] succeeds. *)
Definition is_cd (b : list Z) : bool := bool_decide (take 3 b = [99; 100; 32]).
Definition round (can_open : list Z → Z → bool) (b : list Z) : sh_event :=
  if is_cd b then EChdir (drop 3 (removelast b)) else EChild (child can_open b).

(** A round takes a byte of the input. *)
Fixpoint main_loop (fuel : nat) (can_open : list Z → Z → bool) (input : list Z) : list sh_event :=
  match fuel with
  | O => []
  | S k => match getcmd NBUF input with
           | None => []
           | Some (l, rest) => round can_open (cstring l) :: main_loop k can_open rest
           end
  end.
Definition main (can_open : list Z → Z → bool) (input : list Z) : list sh_event :=
  main_loop (S (length input)) can_open input.

(** ** Tokens *)

Inductive token := TSym (c : Z) | TWord (w : word).
Definition strip (t : Z * word) : token := if t.1 =? WORD then TWord t.2 else TSym t.1.

(** The first token is one of these symbols; the first character of [>>] is that of [>]. *)
Definition starts (cs : list Z) (ts : list token) : bool :=
  match ts with
  | TSym c :: _ => strchr cs c || ((c =? PLUS) && strchr cs GT)
  | _ => false
  end.

Section Tokens.
Context (buf : list Z).
Notation es := (es buf).
Notation ch := (ch buf).

(** The tokens of the line from a position on. *)
Fixpoint lex (fuel : nat) (s : nat) : list (Z * word) :=
  match fuel with
  | O => []
  | S k => match gettoken buf s with
           | Ret t s' => if t.1 =? 0 then [] else t :: lex k s'
           | _ => []
           end
  end.
Definition tokens (s : nat) : list token := strip <$> lex (S es) s.

Hypothesis Hnul : Forall (λ c, c ≠ 0) buf.

Lemma ch_zero s : (s ≤ es)%nat → ch s = 0 ↔ s = es.
Proof.
  intros Hs. rw /Sh.ch /Sh.es. split.
  - intros E. destruct (buf !! s) as [c|] eqn:Ec; [|apply lookup_ge_None in Ec; rw /Sh.es in Hs; lia].
    by destruct (proj1 (Forall_lookup _ _) Hnul _ _ Ec).
  - intros ->. by rw lookup_ge_None_2.
Qed.

Lemma skip_range p fuel s : (s ≤ es)%nat → (s ≤ skip buf p fuel s ≤ es)%nat.
Proof.
  revert s. induction fuel as [|k IH]; intros s Hs; simpl; [lia|].
  destruct (Nat.ltb_spec s es); simpl; [|lia]. destruct (p (ch s)); [|lia]. specialize (IH (S s)). lia.
Qed.

Lemma skip_pass p fuel s i : (s ≤ i < skip buf p fuel s)%nat → p (ch i) = true.
Proof.
  revert s. induction fuel as [|k IH]; intros s Hi; simpl in Hi; [lia|].
  destruct (Nat.ltb_spec s es); simpl in Hi; [|lia]. destruct (p (ch s)) eqn:E; [|lia].
  destruct (decide (i = s)) as [->|]; [done|]. apply (IH (S s)). lia.
Qed.

Lemma skip_stop p fuel s : (s ≤ es)%nat → (es - s ≤ fuel)%nat → skip buf p fuel s = es ∨ p (ch (skip buf p fuel s)) = false.
Proof.
  revert s. induction fuel as [|k IH]; intros s Hs Hf; simpl; [left; lia|].
  destruct (Nat.ltb_spec s es); simpl; [|left; lia]. destruct (p (ch s)) eqn:E; [apply IH; lia|by right].
Qed.

Lemma skip_id p fuel s : s = es ∨ p (ch s) = false → skip buf p fuel s = s.
Proof.
  intros H. destruct fuel as [|k]; [done|]. simpl. destruct (Nat.ltb_spec s es); simpl; [|done].
  destruct H as [->|E]; [lia|]. by rewrite E.
Qed.

Lemma white_range s : (s ≤ es)%nat → (s ≤ skip_white buf s ≤ es)%nat.
Proof. apply skip_range. Qed.
Lemma white_stop s : (s ≤ es)%nat → skip_white buf s = es ∨ strchr whitespace (ch (skip_white buf s)) = false.
Proof. intros. apply skip_stop; lia. Qed.
Lemma white_idem s : (s ≤ es)%nat → skip_white buf (skip_white buf s) = skip_white buf s.
Proof. intros. by apply skip_id, white_stop. Qed.

(** A word character is not zero. *)
Lemma word_start s : (s < es)%nat → word_char (ch s) = true → (s < skip buf word_char es s)%nat.
Proof.
  intros Hs Hw. assert (∃ k, es = S k) as [k E] by (exists (es - 1)%nat; lia). rewrite E. simpl.
  destruct (Nat.ltb_spec s es); [|lia]. rewrite Hw /=. pose proof (skip_range word_char k (S s)). lia.
Qed.

(** A word [w]: its characters, and what follows it. *)
Definition word_at (w : word) : Prop :=
  (w.1 < w.2 ≤ es)%nat ∧ (∀ i, (w.1 ≤ i < w.2)%nat → word_char (ch i) = true) ∧ (w.2 = es ∨ word_char (ch w.2) = false).

(** The token that starts at a character. *)
Definition token_at (r : nat) (t : Z * word) : Prop :=
  t.1 = WORD ∧ word_at t.2 ∧ word_char (ch r) = true ∨
  t.1 = PLUS ∧ ch r = GT ∨
  t.1 = ch r ∧ ch r ∈ symbols.

(** What [gettoken] finds: the end of the line, or a token of at least one character. *)
Lemma gettoken_spec s : (s ≤ es)%nat →
  ∃ t s', gettoken buf s = Ret t s' ∧ (s' ≤ es)%nat ∧
  (t.1 = 0 ∧ skip_white buf s = es ∧ s' = es ∨
   t.1 ≠ 0 ∧ (skip_white buf s < es)%nat ∧ (s < s')%nat ∧ token_at (skip_white buf s) t).
Proof.
  intros Hs. rw /gettoken. pose proof (white_range s Hs) as Hr. pose proof (white_stop s Hs) as Hw.
  set (r := skip_white buf s) in *.
  destruct (Z.eqb_spec (ch r) 0) as [E|E].
  { apply ch_zero in E; [|lia]. exists (0, (r, r)), es. assert (skip_white buf r = es) as -> by (rewrite E; apply skip_id; by left).
    split; [done|]. split; [done|]. by left. }
  assert (r < es)%nat as Hlt by (rewrite ch_zero in E; lia). destruct Hw as [Hw|Hw]; [lia|].
  assert (∀ e, (r < e ≤ es)%nat → (s < skip_white buf e ≤ es)%nat) as Hend.
  { intros e He. pose proof (white_range e). lia. }
  destruct (strchr [BAR; LPAR; RPAR; SEMI; AMP; LT] (ch r)) eqn:Esym.
  { do 2 eexists. split; [done|]. specialize (Hend (S r)). split; [lia|]. right. split_and!; [done|done|lia|].
    right. right. split; [done|]. apply bool_decide_eq_true in Esym. rw /symbols. set_solver. }
  destruct (Z.eqb_spec (ch r) GT) as [Eg|Eg].
  { destruct (Z.eqb_spec (ch (S r)) GT) as [Eg2|].
    - assert (S r < es)%nat as Hlt2.
      { destruct (decide (S r < es)%nat); [done|]. assert (S r = es) as E2 by lia.
        rewrite E2 (proj2 (ch_zero es (le_n _)) eq_refl) in Eg2. done. }
      do 2 eexists. split; [done|]. specialize (Hend (S (S r))). split; [lia|]. right. split_and!; [done|done|lia|].
      right. by left.
    - do 2 eexists. split; [done|]. specialize (Hend (S r)). split; [lia|]. right. split_and!; [done|done|lia|].
      right. right. rewrite Eg. split; [done|]. rw /symbols. set_solver. }
  assert (word_char (ch r) = true) as Hwc.
  { rw /word_char Hw /=. apply negb_true_iff, bool_decide_eq_false. apply bool_decide_eq_false in Esym.
    rw /symbols. intros Hin. set_solver. }
  do 2 eexists. split; [done|]. pose proof (word_start r Hlt Hwc) as Hws.
  pose proof (skip_range word_char es r) as Hsr. specialize (Hend (skip buf word_char es r)). split; [lia|].
  right. split_and!; [done|done|lia|]. left. split; [done|]. split; [|done]. split_and!; cbn [fst snd]; [lia..| |].
  - intros i Hi. by apply (skip_pass word_char es r).
  - apply skip_stop; lia.
Qed.

Lemma lex_fuel f1 f2 s : (s ≤ es)%nat → (es - s < f1)%nat → (es - s < f2)%nat → lex f1 s = lex f2 s.
Proof.
  revert f2 s. induction f1 as [|f1 IH]; intros f2 s Hs H1 H2; [lia|]. destruct f2 as [|f2]; [lia|]. simpl.
  destruct (gettoken_spec s Hs) as (t&s'&->&Hs'&[(E&_)|(E&Hlt&Hss&_)]).
  - by rewrite E.
  - destruct (Z.eqb_spec t.1 0); [done|]. f_equal. apply IH; lia.
Qed.

(** ** The tokens ahead *)

(** The position [s] is in the line, and the tokens from there on are [ts]. *)
Definition ahead (s : nat) (ts : list token) : Prop := (s ≤ es)%nat ∧ tokens s = ts.

Lemma ahead_step s : (s ≤ es)%nat →
  ∃ t s', gettoken buf s = Ret t s' ∧ (s' ≤ es)%nat ∧
  (t.1 = 0 ∧ skip_white buf s = es ∧ s' = es ∧ tokens s = [] ∨
   t.1 ≠ 0 ∧ (skip_white buf s < es)%nat ∧ tokens s = strip t :: tokens s' ∧ token_at (skip_white buf s) t).
Proof.
  intros Hs. destruct (gettoken_spec s Hs) as (t&s'&E&Hs'&H). exists t, s'. split; [done|]. split; [done|].
  rw /tokens. cbn [lex]. rewrite E. destruct H as [(E0&Hr&->)|(E0&Hr&Hlt&Ht)].
  - left. by rewrite E0.
  - right. destruct (Z.eqb_spec t.1 0); [done|]. split_and!; [done|done| |done].
    change (strip t :: (strip <$> lex es s') = strip t :: (strip <$> lex (S es) s')).
    do 2 f_equal. apply lex_fuel; lia.
Qed.

Lemma tokens_white s : (s ≤ es)%nat → tokens (skip_white buf s) = tokens s.
Proof. intros Hs. rw /tokens. cbn [lex]. rw /gettoken. by rewrite white_idem. Qed.

Lemma wp_gettoken s ts (Q : Z * word → nat → Prop) :
  ahead s ts →
  match ts with
  | [] => ∀ w s', ahead s' [] → Q (0, w) s'
  | a :: ts' => ∀ t s', strip t = a → t.1 ≠ 0 → ahead s' ts' → Q t s'
  end → wp (gettoken buf) s Q.
Proof.
  intros [Hs Ht] HQ. destruct (ahead_step s Hs) as ([r w]&s'&E&Hs'&H). rw /wp E.
  destruct H as [(E0&Hr&Es&Et)|(E0&Hr&Et&_)]; rewrite -Ht Et in HQ; clear ts Ht.
  - simpl in E0. subst. apply HQ. split; [done|]. destruct (ahead_step es) as (t&s'&E'&_&H); [done|].
    destruct H as [(_&_&_&?)|(_&Hlt&_)]; [done|]. pose proof (white_range es). lia.
  - by apply HQ.
Qed.

Lemma token_first r t cs : token_at r t → cs ⊆ symbols → strchr cs (ch r) = starts cs [strip t].
Proof.
  intros Ht Hcs. rw /strip. destruct Ht as [(E&_&Hw)|[(E&Hr)|(E&Hr)]]; rewrite E; cbn [starts].
  - rw Z.eqb_refl. apply bool_decide_eq_false. intros Hin. rw /word_char in Hw. apply andb_true_iff in Hw as [_ Hw].
    apply negb_true_iff, bool_decide_eq_false in Hw. by apply Hw, Hcs.
  - change (PLUS =? WORD) with false. cbn iota. rewrite Hr Z.eqb_refl andb_true_l.
    assert (strchr cs PLUS = false) as ->; [|done]. apply bool_decide_eq_false. intros Hin%Hcs.
    rewrite !elem_of_cons elem_of_nil in Hin. rw /PLUS /LT /BAR /GT /AMP /SEMI /LPAR /RPAR in Hin. lia.
  - assert (ch r ≠ WORD ∧ ch r ≠ PLUS) as [N1 N2].
    { rewrite !elem_of_cons elem_of_nil in Hr. rw /WORD /PLUS. rw /LT /BAR /GT /AMP /SEMI /LPAR /RPAR in Hr. lia. }
    destruct (Z.eqb_spec (ch r) WORD); [done|]. destruct (Z.eqb_spec (ch r) PLUS); [done|]. by rewrite andb_false_l orb_false_r.
Qed.

Lemma wp_peek s ts cs (Q : bool → nat → Prop) :
  ahead s ts → cs ⊆ symbols → (∀ s', ahead s' ts → Q (starts cs ts) s') → wp (peek buf cs) s Q.
Proof.
  intros [Hs Ht] Hcs HQ. rw /wp /peek. pose proof (white_range s Hs) as Hr.
  assert (ahead (skip_white buf s) ts) as Ha by (split; [lia|by rewrite tokens_white]). specialize (HQ _ Ha).
  destruct (ahead_step s Hs) as (t&s'&_&_&H). destruct H as [(_&E&_&Et)|(_&Hlt&Et&Htok)]; rewrite -Ht Et in HQ; clear Ha ts Ht.
  - rewrite E in HQ |- *. by rewrite (proj2 (ch_zero es (le_n _)) eq_refl).
  - assert (ch (skip_white buf s) ≠ 0) as Hne by (rewrite ch_zero; lia).
    destruct (Z.eqb_spec (ch (skip_white buf s)) 0); [done|]. cbn [negb andb].
    rewrite (token_first _ t) //.
Qed.

Lemma tokens_words s w : (s ≤ es)%nat → TWord w ∈ tokens s → word_at w.
Proof.
  remember (es - s)%nat as n eqn:En. revert s En. induction n as [n IH] using (well_founded_induction lt_wf).
  intros s -> Hs. destruct (ahead_step s Hs) as (t&s'&E&Hs'&H).
  destruct (gettoken_spec s Hs) as (t2&s2&E2&_&H2). rewrite E in E2. injection E2 as <- <-.
  destruct H as [(_&_&_&->)|(E0&Hlt&->&Ht)]; [by intros ?%elem_of_nil|].
  destruct H2 as [(?&_)|(_&_&Hss&_)]; [done|]. intros [Ew|Hin]%elem_of_cons; [|by apply (IH (es - s')%nat ltac:(lia) s')].
  rw /strip in Ew. destruct (Z.eqb_spec t.1 WORD) as [Eq|]; [|done]. injection Ew as ->.
  destruct Ht as [(_&Hw&_)|[(Ep&_)|(Ep&Hin)]]; [done|by rewrite Eq in Ep|].
  rewrite -Ep Eq in Hin. rewrite !elem_of_cons elem_of_nil in Hin. rw /WORD /LT /BAR /GT /AMP /SEMI /LPAR /RPAR in Hin. lia.
Qed.

Lemma tokens_end s : (s ≤ es)%nat → tokens s = [] ↔ skip_white buf s = es.
Proof.
  intros Hs. destruct (ahead_step s Hs) as (t&s'&_&_&[(_&Hr&_&->)|(_&Hr&->&_)]); [done|]. split; [done|lia].
Qed.

Lemma tokens_length s : (s ≤ es)%nat → (length (tokens s) ≤ es - s)%nat.
Proof.
  remember (es - s)%nat as n eqn:En. revert s En. induction n as [n IH] using (well_founded_induction lt_wf).
  intros s -> Hs. destruct (ahead_step s Hs) as (t&s'&E&Hs'&H).
  destruct (gettoken_spec s Hs) as (t2&s2&E2&_&H2). rewrite E in E2. injection E2 as <- <-.
  destruct H as [(_&_&_&->)|(E0&Hlt&->&Ht)]; [simpl; lia|].
  destruct H2 as [(?&_)|(_&_&Hss&_)]; [done|]. cbn [length]. specialize (IH (es - s')%nat ltac:(lia) s' eq_refl Hs'). lia.
Qed.
End Tokens.

(** ** The grammar *)

Definition is_op (c : Z) : Prop := c = LT ∨ c = GT ∨ c = PLUS.
Definition redir_tokens (rs : list (Z * word)) : list token := rs ≫= λ r, [TSym r.1; TWord r.2].

(** The parts of a simple command. *)
Inductive item := IWord (w : word) | IRedir (r : Z * word).
Definition item_tokens (l : list item) : list token :=
  l ≫= λ i, match i with IWord w => [TWord w] | IRedir r => [TSym r.1; TWord r.2] end.
Definition item_words (l : list item) : list word := omap (λ i, match i with IWord w => Some w | _ => None end) l.
Definition item_redirs (l : list item) : list (Z * word) := omap (λ i, match i with IRedir r => Some r | _ => None end) l.

Inductive line : list token → cmd → Prop :=
| line_one ts n c : pipe ts c → line (ts ++ replicate n (TSym AMP)) (Nat.iter n BACK c)
| line_list ts n c ts' c' : pipe ts c → line ts' c' →
    line (ts ++ replicate n (TSym AMP) ++ TSym SEMI :: ts') (LIST (Nat.iter n BACK c) c')
with pipe : list token → cmd → Prop :=
| pipe_one ts c : simple ts c → pipe ts c
| pipe_more ts c ts' c' : simple ts c → pipe ts' c' → pipe (ts ++ TSym BAR :: ts') (PIPE c c')
with simple : list token → cmd → Prop :=
| simple_exec l : (length (item_words l) < MAXARGS)%nat → Forall (λ r, is_op r.1) (item_redirs l) →
    simple (item_tokens l) (wrap (EXEC (item_words l)) (item_redirs l))
| simple_block ts c rs : line ts c → Forall (λ r, is_op r.1) rs →
    simple (TSym LPAR :: ts ++ TSym RPAR :: redir_tokens rs) (wrap c rs).

Scheme line_mut := Induction for line Sort Prop
  with pipe_mut := Induction for pipe Sort Prop
  with simple_mut := Induction for simple Sort Prop.
Combined Scheme grammar_ind from line_mut, pipe_mut, simple_mut.

(** [m] returns with [Q] or panics. *)
Definition settles {S A} (m : K S A) (s : S) (Q : A → S → Prop) : Prop :=
  match m s with Ret a s' => Q a s' | Panic _ => True | _ => False end.
#[global] Arguments settles : simpl never.

Section Settles.
Context {S : Type}.
Lemma settles_wp {A} (m : K S A) s (Q : A → S → Prop) : wp m s Q → settles m s Q.
Proof. rw /wp /settles. by destruct (m s). Qed.
Lemma settles_bind {A B} (m : K S A) (f : A → K S B) s Q :
  settles m s (λ a s', settles (f a) s' Q) → settles (m ≫= f) s Q.
Proof. rw /settles /mbind /K_bind. by destruct (m s). Qed.
Lemma settles_mono {A} (m : K S A) s (P Q : A → S → Prop) :
  settles m s P → (∀ a s', P a s' → Q a s') → settles m s Q.
Proof. rw /settles. destruct (m s); naive_solver. Qed.
Lemma settles_ret {A} (a : A) s (Q : A → S → Prop) : Q a s → settles (mret a) s Q.
Proof. done. Qed.
Lemma settles_panic {A} msg s (Q : A → S → Prop) : settles (panic msg) s Q.
Proof. done. Qed.
End Settles.

Lemma redir_items_tokens rs l : item_tokens ((IRedir <$> rs) ++ l) = redir_tokens rs ++ item_tokens l.
Proof. induction rs as [|r rs IH]; [done|]. simpl. by rewrite IH. Qed.
Lemma redir_items_words rs l : item_words ((IRedir <$> rs) ++ l) = item_words l.
Proof. induction rs as [|r rs IH]; [done|]. exact IH. Qed.
Lemma redir_items_redirs rs l : item_redirs ((IRedir <$> rs) ++ l) = rs ++ item_redirs l.
Proof. induction rs as [|r rs IH]; [done|]. by apply (f_equal (cons r)). Qed.

Lemma item_word_tokens w l : item_tokens (IWord w :: l) = TWord w :: item_tokens l.
Proof. done. Qed.
Lemma item_word_words w l : item_words (IWord w :: l) = w :: item_words l.
Proof. done. Qed.
Lemma item_word_redirs w l : item_redirs (IWord w :: l) = item_redirs l.
Proof. done. Qed.

Section Sound.
Context (buf : list Z).
Hypothesis Hnul : Forall (λ c, c ≠ 0) buf.
Notation ahead := (ahead buf).

Lemma settles_peek s ts cs (Q : bool → nat → Prop) :
  ahead s ts → cs ⊆ symbols → (∀ s', ahead s' ts → Q (starts cs ts) s') → settles (peek buf cs) s Q.
Proof. intros Ha Hc HQ. exact (settles_wp _ _ _ (wp_peek buf Hnul s ts cs Q Ha Hc HQ)). Qed.

Lemma settles_gettoken s ts (Q : Z * word → nat → Prop) :
  ahead s ts →
  match ts with
  | [] => ∀ w s', ahead s' [] → Q (0, w) s'
  | a :: ts' => ∀ t s', strip t = a → t.1 ≠ 0 → ahead s' ts' → Q t s'
  end → settles (gettoken buf) s Q.
Proof. intros Ha HQ. exact (settles_wp _ _ _ (wp_gettoken buf Hnul s ts Q Ha HQ)). Qed.

Lemma strip_sym t c : strip t = TSym c → t.1 = c.
Proof. rw /strip. destruct (t.1 =? WORD); congruence. Qed.
Lemma strip_word t w : strip t = TWord w → t = (WORD, w).
Proof. rw /strip. destruct (Z.eqb_spec t.1 WORD); [|done]. intros [= <-]. destruct t. simpl in *. congruence. Qed.

(** Tokens that start with one of the symbols. *)
Lemma starts_inv cs ts : starts cs ts = true → ∃ c ts', ts = TSym c :: ts' ∧ (c ∈ cs ∨ c = PLUS ∧ GT ∈ cs).
Proof.
  destruct ts as [|[c|w] ts']; [done| |done]. cbn [starts]. intros H. exists c, ts'. split; [done|].
  apply orb_true_iff in H as [H|H]; [left; by apply bool_decide_eq_true in H|right].
  apply andb_true_iff in H as [H1 H2]. apply bool_decide_eq_true in H2. split; [lia|done].
Qed.

Lemma parseredirs_settles fuel s ts :
  ahead s ts → (length ts < fuel)%nat →
  settles (parseredirs buf fuel) s (λ rs s', ∃ ts', ts = redir_tokens rs ++ ts' ∧ Forall (λ r, is_op r.1) rs ∧
    ahead s' ts' ∧ starts [LT; GT] ts' = false).
Proof.
  revert s ts. induction fuel as [|k IH]; intros s ts Ha Hf; [lia|]. cbn [parseredirs].
  apply settles_bind, (settles_peek s ts); [done|rw /symbols; set_solver|]. intros s1 H1.
  destruct (starts [LT; GT] ts) eqn:E.
  - destruct (starts_inv _ _ E) as (c&ts1&->&Hc). apply settles_bind, (settles_gettoken s1 _ _ H1).
    intros t s2 Et _ H2. apply strip_sym in Et.
    apply settles_bind, (settles_gettoken s2 _ _ H2). destruct ts1 as [|[c'|w] ts2].
    + intros w s3 _. apply settles_panic.
    + intros t' s3 Et' _ _. apply strip_sym in Et' as Ec. rw /strip in Et'. destruct (Z.eqb_spec t'.1 WORD); [done|].
      apply settles_panic.
    + intros t' s3 Et' _ H3. apply strip_word in Et' as ->. cbn [fst snd]. rewrite Z.eqb_refl. cbn [negb].
      apply settles_bind. eapply settles_mono; [apply (IH s3 ts2 H3); simpl in Hf; lia|].
      intros rs s4 (ts'&->&Hrs&H4&Hn). apply settles_ret. exists ts'. rewrite Et. split_and!; [done| |done|done].
      apply Forall_cons. split; [|done]. simpl. rw /is_op. set_solver.
  - apply settles_ret. by exists ts.
Qed.

(** The argument loop stops before the end of the line or one of these. *)
Definition ends (ts : list token) : Prop := ts = [] ∨ starts [BAR; RPAR; AMP; SEMI] ts = true.

Lemma parseargs_settles fuel argc s ts :
  ahead s ts → (length ts < fuel)%nat → (length ts ≤ es buf)%nat → (argc < MAXARGS)%nat →
  settles (parseargs buf fuel argc) s (λ r s', ∃ l ts', ts = item_tokens l ++ ts' ∧
    r = (item_words l, item_redirs l) ∧ Forall (λ r, is_op r.1) (item_redirs l) ∧
    (argc + length (item_words l) < MAXARGS)%nat ∧ ahead s' ts' ∧ ends ts').
Proof.
  revert argc s ts. induction fuel as [|k IH]; intros argc s ts Ha Hf Hes Hargc; [lia|]. cbn [parseargs].
  apply settles_bind, (settles_peek s ts); [done|rw /symbols; set_solver|]. intros s1 H1.
  destruct (starts [BAR; RPAR; AMP; SEMI] ts) eqn:E.
  { apply settles_ret. exists [], ts. rw /ends. simpl. split_and!; auto; lia. }
  apply settles_bind, (settles_gettoken s1 _ _ H1). destruct ts as [|[c|w] ts1].
  - intros w s2 H2. apply settles_ret. exists [], []. rw /ends. simpl. split_and!; auto; lia.
  - intros t s2 Et Hne _. apply strip_sym in Et as Ec. rw /strip in Et.
    destruct (Z.eqb_spec t.1 0); [done|]. destruct (Z.eqb_spec t.1 WORD); [done|]. apply settles_panic.
  - intros t s2 Et _ H2. apply strip_word in Et as ->. cbn [fst snd]. change (WORD =? 0) with false.
    rewrite Z.eqb_refl. cbn iota. cbn [negb]. destruct (Nat.leb_spec MAXARGS (S argc)); [apply settles_panic|].
    cbn [length] in Hf, Hes. apply settles_bind. eapply settles_mono; [apply (parseredirs_settles _ s2 ts1 H2); lia|].
    intros rs s3 (ts2&->&Hrs&H3&_). rewrite length_app in Hf, Hes. apply settles_bind.
    eapply settles_mono; [apply (IH (S argc) s3 ts2 H3); lia|].
    intros r s4 (l&ts'&->&->&Hl&Hlen&H4&Hends). apply settles_ret. exists (IWord w :: (IRedir <$> rs) ++ l), ts'.
    rewrite item_word_tokens item_word_words item_word_redirs.
    rewrite redir_items_tokens redir_items_words redir_items_redirs. rewrite Forall_app. cbn [length].
    split_and!; try done; [simpl; by rewrite -app_assoc|lia].
Qed.

(** The parsing functions return commands of the grammar and leave the rest of the line, given fuel for the tokens ahead. *)
Definition parses (m : K nat cmd) (level : nat) (G : list token → cmd → Prop) (fuel : nat) : Prop :=
  ∀ s ts, ahead s ts → (4 * length ts + level ≤ fuel)%nat → (length ts ≤ es buf)%nat →
  settles m s (λ c s', ∃ ts1 ts2, ts = ts1 ++ ts2 ∧ G ts1 c ∧ ahead s' ts2).

Lemma parseback_settles fuel s ts :
  ahead s ts → (length ts < fuel)%nat →
  settles (parseback buf fuel) s (λ n s', ∃ ts', ts = replicate n (TSym AMP) ++ ts' ∧ ahead s' ts').
Proof.
  revert s ts. induction fuel as [|k IH]; intros s ts Ha Hf; [lia|]. cbn [parseback].
  apply settles_bind, (settles_peek s ts); [done|rw /symbols; set_solver|]. intros s1 H1.
  destruct (starts [AMP] ts) eqn:E; [|apply settles_ret; by exists ts].
  destruct (starts_inv _ _ E) as (c&ts1&->&Hc). apply settles_bind, (settles_gettoken s1 _ _ H1).
  intros t s2 Et _ H2. cbn [length] in Hf. apply settles_bind. eapply settles_mono; [apply (IH s2 ts1 H2); lia|].
  intros n s3 (ts'&->&H3). apply settles_ret. exists ts'. split; [|done]. simpl. do 2 f_equal.
  destruct Hc as [Hc|[_ Hc]]; apply list_elem_of_singleton in Hc; done.
Qed.

(** The one-token case of [peek]: the symbol is there and is taken, or it is not. *)
Lemma starts_one c ts : (c =? GT) = false → starts [c] ts = true → ∃ ts', ts = TSym c :: ts'.
Proof.
  intros Hc (c'&ts'&->&[->%list_elem_of_singleton|[_ Hg%list_elem_of_singleton]])%starts_inv; [by exists ts'|]. lia.
Qed.

Lemma parse_sound fuel :
  parses (parseline buf fuel) 5 line fuel ∧ parses (parsepipe buf fuel) 4 pipe fuel ∧
  parses (parseexec buf fuel) 3 simple fuel ∧
  (∀ s ts, ahead s (TSym LPAR :: ts) → (4 * length (TSym LPAR :: ts) + 2 ≤ fuel)%nat → (length ts < es buf)%nat →
   settles (parseblock buf fuel) s (λ c s', ∃ ts1 ts2, TSym LPAR :: ts = ts1 ++ ts2 ∧ simple ts1 c ∧ ahead s' ts2)).
Proof.
  induction fuel as [|k (IHl&IHp&IHe&IHb)]; [split_and!; intros s ts _ Hf; lia|]. split_and!; intros s ts Ha Hf Hes.
  - cbn [parseline]. apply settles_bind. eapply settles_mono; [apply (IHp s ts Ha); lia|].
    intros c s1 (ts1&ts2&->&Hp&H1). rewrite length_app in Hf, Hes.
    apply settles_bind. eapply settles_mono; [apply (parseback_settles _ s1 ts2 H1); lia|].
    intros n s2 (ts3&->&H2). apply settles_bind, (settles_peek s2 ts3); [done|rw /symbols; set_solver|]. intros s3 H3.
    destruct (starts [SEMI] ts3) eqn:E.
    + destruct (starts_one SEMI _ eq_refl E) as [ts4 ->]. apply settles_bind, (settles_gettoken s3 _ _ H3).
      intros t s4 _ _ H4. rewrite length_app in Hf, Hes. cbn [length] in Hf, Hes.
      apply settles_bind. eapply settles_mono; [apply (IHl s4 ts4 H4); lia|].
      intros c' s5 (ts5&ts6&->&Hl&H5). apply settles_ret. exists (ts1 ++ replicate n (TSym AMP) ++ TSym SEMI :: ts5), ts6.
      split_and!; [by rewrite -!app_assoc|by apply line_list|done].
    + apply settles_ret. exists (ts1 ++ replicate n (TSym AMP)), ts3. split_and!; [by rewrite app_assoc|by apply line_one|done].
  - cbn [parsepipe]. apply settles_bind. eapply settles_mono; [apply (IHe s ts Ha); lia|].
    intros c s1 (ts1&ts2&->&Hs&H1). rewrite length_app in Hf, Hes.
    apply settles_bind, (settles_peek s1 ts2); [done|rw /symbols; set_solver|]. intros s2 H2.
    destruct (starts [BAR] ts2) eqn:E.
    + destruct (starts_one BAR _ eq_refl E) as [ts3 ->]. apply settles_bind, (settles_gettoken s2 _ _ H2).
      intros t s3 _ _ H3. cbn [length] in Hf, Hes. apply settles_bind. eapply settles_mono; [apply (IHp s3 ts3 H3); lia|].
      intros c' s4 (ts4&ts5&->&Hp&H4). apply settles_ret. exists (ts1 ++ TSym BAR :: ts4), ts5.
      split_and!; [by rewrite -app_assoc|by apply pipe_more|done].
    + apply settles_ret. exists ts1, ts2. split_and!; [done|by apply pipe_one|done].
  - cbn [parseexec]. apply settles_bind, (settles_peek s ts); [done|rw /symbols; set_solver|]. intros s1 H1.
    destruct (starts [LPAR] ts) eqn:E.
    + destruct (starts_one LPAR _ eq_refl E) as [ts1 ->]. cbn [length] in Hf, Hes. apply (IHb s1 ts1 H1); cbn [length]; lia.
    + apply settles_bind. eapply settles_mono; [apply (parseredirs_settles _ s1 ts H1); lia|].
      intros rs s2 (ts1&->&Hrs&H2&_). rewrite length_app in Hf, Hes.
      apply settles_bind. eapply settles_mono; [apply (parseargs_settles _ 0 s2 ts1 H2); [lia..|by apply Nat.ltb_lt]|].
      intros r s3 (l&ts2&->&->&Hl&Hlen&H3&_). apply settles_ret. exists (redir_tokens rs ++ item_tokens l), ts2.
      split_and!; [by rewrite app_assoc| |done].
      pose proof (simple_exec ((IRedir <$> rs) ++ l)) as Hs.
      rewrite redir_items_tokens redir_items_words redir_items_redirs Forall_app in Hs. by apply Hs.
  - cbn [parseblock]. apply settles_bind, (settles_peek s _ _ _ Ha); [rw /symbols; set_solver|]. intros s1 H1.
    change (starts [LPAR] (TSym LPAR :: ts)) with true. cbn [negb]. apply settles_bind, (settles_gettoken s1 _ _ H1).
    intros t s2 _ _ H2. cbn [length] in Hf. apply settles_bind. eapply settles_mono; [apply (IHl s2 ts H2); lia|].
    intros c s3 (ts1&ts2&->&Hl&H3). rewrite length_app in Hf, Hes.
    apply settles_bind, (settles_peek s3 ts2); [done|rw /symbols; set_solver|]. intros s4 H4.
    destruct (starts [RPAR] ts2) eqn:E; [|apply settles_panic]. cbn [negb].
    destruct (starts_one RPAR _ eq_refl E) as [ts3 ->]. apply settles_bind, (settles_gettoken s4 _ _ H4).
    intros t' s5 _ _ H5. cbn [length] in Hf, Hes.
    apply settles_bind. eapply settles_mono; [apply (parseredirs_settles _ s5 ts3 H5); lia|].
    intros rs s6 (ts4&->&Hrs&H6&_). apply settles_ret. exists (TSym LPAR :: ts1 ++ TSym RPAR :: redir_tokens rs), ts4.
    split_and!; [by rewrite /= -app_assoc|by apply simple_block|done].
Qed.
End Sound.

(** *** Every command of the grammar is parsed *)

Section Complete.
Context (buf : list Z).
Hypothesis Hnul : Forall (λ c, c ≠ 0) buf.
Notation ahead := (ahead buf).

(** What may follow a construct: the end of the line or one of these symbols. *)
Definition follow (cs : list Z) (ts : list token) : Prop := ts = [] ∨ ∃ c ts', ts = TSym c :: ts' ∧ c ∈ cs.

Lemma follow_mono cs cs' ts : cs ⊆ cs' → follow cs ts → follow cs' ts.
Proof. intros Hs [->|(c&ts'&->&Hc)]; [by left|right]. exists c, ts'. split; [done|]. by apply Hs. Qed.

Lemma follow_starts cs cs' ts :
  follow cs ts → PLUS ∉ cs → (∀ c, c ∈ cs → c ∉ cs') → starts cs' ts = false.
Proof.
  intros [->|(c&ts'&->&Hc)] Hp Hd; [done|]. cbn [starts]. apply orb_false_iff. split; [by apply bool_decide_eq_false, Hd|].
  apply andb_false_iff. left. apply Z.eqb_neq. congruence.
Qed.

Lemma wp_peek' s ts cs (Q : bool → nat → Prop) :
  ahead s ts → cs ⊆ symbols → (∀ s', ahead s' ts → Q (starts cs ts) s') → wp (peek buf cs) s Q.
Proof. by apply wp_peek. Qed.
Lemma wp_sym s c ts (Q : Z * word → nat → Prop) :
  ahead s (TSym c :: ts) → (∀ w s', ahead s' ts → Q (c, w) s') → wp (gettoken buf) s Q.
Proof.
  intros Ha HQ. apply (wp_gettoken buf Hnul s _ _ Ha). intros [r w] s' Et _ H'. apply strip_sym in Et. simpl in Et. subst. by apply HQ.
Qed.
Lemma wp_word s w ts (Q : Z * word → nat → Prop) :
  ahead s (TWord w :: ts) → (∀ s', ahead s' ts → Q (WORD, w) s') → wp (gettoken buf) s Q.
Proof.
  intros Ha HQ. apply (wp_gettoken buf Hnul s _ _ Ha). intros t s' Et _ H'. apply strip_word in Et as ->. by apply HQ.
Qed.

Lemma parseredirs_wp rs fuel s rest :
  Forall (λ r, is_op r.1) rs → ahead s (redir_tokens rs ++ rest) → starts [LT; GT] rest = false → (length rs < fuel)%nat →
  wp (parseredirs buf fuel) s (λ rs' s', rs' = rs ∧ ahead s' rest).
Proof.
  revert fuel s. induction rs as [|[op w] rs IH]; intros fuel s Hop Ha Hr Hf; (destruct fuel as [|k]; [simpl in Hf; lia|]); cbn [parseredirs].
  - apply wp_bind, (wp_peek' s rest); [done|rw /symbols; set_solver|]. intros s1 H1. rewrite Hr. by apply wp_ret.
  - apply Forall_cons in Hop as [Ho Hop]. cbn [fst] in Ho.
    change (redir_tokens ((op, w) :: rs) ++ rest) with (TSym op :: TWord w :: redir_tokens rs ++ rest) in Ha.
    apply wp_bind, (wp_peek' s _ _ _ Ha); [rw /symbols; set_solver|]. intros s1 H1.
    assert (starts [LT; GT] (TSym op :: TWord w :: redir_tokens rs ++ rest) = true) as ->.
    { destruct Ho as [->|[->| ->]]; reflexivity. }
    apply wp_bind, (wp_sym s1 _ _ _ H1). intros w' s2 H2. apply wp_bind, (wp_word s2 _ _ _ H2). intros s3 H3. cbn [fst snd].
    rewrite Z.eqb_refl. cbn [negb]. apply wp_bind. eapply wp_mono; [apply (IH k s3 Hop H3 Hr); simpl in Hf; lia|].
    intros rs' s4 [-> H4]. by apply wp_ret.
Qed.

(** Items start with their redirections. *)
Lemma items_split l : ∃ rs l', l = (IRedir <$> rs) ++ l' ∧ (l' = [] ∨ ∃ w l'', l' = IWord w :: l'').
Proof.
  induction l as [|[w|r] l (rs&l'&->&IH)].
  - exists [], []. auto.
  - exists [], (IWord w :: (IRedir <$> rs) ++ l'). eauto.
  - by exists (r :: rs), l'.
Qed.

Definition ENDS : list Z := [BAR; RPAR; AMP; SEMI].
(** Symbols are different characters. *)
Ltac sym := unfold ENDS, symbols, PLUS, LT, BAR, GT, AMP, SEMI, LPAR, RPAR in *; set_solver by lia.

Lemma items_starts cs l rest :
  follow ENDS rest → l = [] ∨ (∃ w l', l = IWord w :: l') → (∀ c, c ∈ ENDS → c ∉ cs) → starts cs (item_tokens l ++ rest) = false.
Proof.
  intros Hr [->|(w&l'&->)] Hd; [|done]. apply (follow_starts ENDS); [done| |done].
  sym.
Qed.

Lemma parseargs_wp l fuel argc s rest :
  l = [] ∨ (∃ w l', l = IWord w :: l') → Forall (λ r, is_op r.1) (item_redirs l) → ahead s (item_tokens l ++ rest) →
  follow ENDS rest → (length (item_tokens l) < fuel)%nat → (length (item_tokens l) ≤ es buf)%nat →
  (argc + length (item_words l) < MAXARGS)%nat →
  wp (parseargs buf fuel argc) s (λ r s', r = (item_words l, item_redirs l) ∧ ahead s' rest).
Proof.
  remember (length l) as n eqn:En. revert l En fuel argc s. induction n as [n IH] using (well_founded_induction lt_wf).
  intros l -> fuel argc s Hl Hop Ha Hr Hf Hes Hargc. destruct fuel as [|k]; [lia|]. cbn [parseargs].
  apply wp_bind, (wp_peek' s _ _ _ Ha); [rw /symbols; set_solver|]. intros s1 H1.
  destruct Hl as [->|(w&l1&->)].
  - cbn [item_tokens mbind list_bind app] in *. destruct Hr as [->|(c&ts&->&Hc)].
    + cbn [starts]. apply wp_bind, (wp_gettoken buf Hnul s1 _ _ H1). intros w s2 H2. by apply wp_ret.
    + assert (starts [BAR; RPAR; AMP; SEMI] (TSym c :: ts) = true) as ->; [|by apply wp_ret].
      cbn [starts]. apply orb_true_iff. left. by apply bool_decide_eq_true.
  - rewrite item_word_tokens in Ha, H1, Hf, Hes |- *. rewrite item_word_redirs in Hop. rewrite item_word_words in Hargc.
    cbn [starts app length] in *. apply wp_bind, (wp_word s1 _ _ _ H1). intros s2 H2. cbn [fst snd].
    change (WORD =? 0) with false. rewrite Z.eqb_refl. cbn iota. cbn [negb].
    destruct (Nat.leb_spec MAXARGS (S argc)); [lia|].
    destruct (items_split l1) as (rs&l2&->&Hl2).
    rewrite redir_items_redirs Forall_app in Hop. destruct Hop as [Hop1 Hop2].
    rewrite redir_items_tokens -app_assoc in H2. rewrite redir_items_words in Hargc.
    rewrite redir_items_tokens length_app in Hf, Hes.
    assert (length rs ≤ length (redir_tokens rs))%nat as Hrs by (clear; induction rs; simpl in *; lia).
    apply wp_bind. eapply wp_mono; [apply (parseredirs_wp rs _ s2 _ Hop1 H2); [|lia]|].
    { apply items_starts; [done|done|]. sym. }
    intros rs' s3 [-> H3]. apply wp_bind. eapply wp_mono.
    { apply (IH (length l2)) with (l := l2); try done; [|lia..]. simpl. rewrite length_app. lia. }
    intros r s4 [-> H4]. apply wp_ret. split; [|done].
    by rewrite item_word_words item_word_redirs redir_items_words redir_items_redirs.
Qed.

Lemma parseback_wp n fuel s rest :
  ahead s (replicate n (TSym AMP) ++ rest) → starts [AMP] rest = false → (n < fuel)%nat →
  wp (parseback buf fuel) s (λ n' s', n' = n ∧ ahead s' rest).
Proof.
  revert fuel s. induction n as [|n IH]; intros fuel s Ha Hr Hf; (destruct fuel as [|k]; [lia|]); cbn [parseback].
  - apply wp_bind, (wp_peek' s rest); [done|rw /symbols; set_solver|]. intros s1 H1. rewrite Hr. by apply wp_ret.
  - cbn [replicate app] in Ha. apply wp_bind, (wp_peek' s _ _ _ Ha); [rw /symbols; set_solver|]. intros s1 H1.
    change (starts [AMP] _) with true. cbn iota. apply wp_bind, (wp_sym s1 _ _ _ H1). intros w s2 H2.
    apply wp_bind. eapply wp_mono; [apply (IH k s2 H2 Hr); lia|]. intros n' s3 [-> H3]. by apply wp_ret.
Qed.

Definition parsed (m : nat → K nat cmd) (level : nat) (cs : list Z) (ts : list token) (c : cmd) : Prop :=
  ∀ fuel s rest, ahead s (ts ++ rest) → follow cs rest → (4 * length (ts ++ rest) + level ≤ fuel)%nat →
  (length (ts ++ rest) ≤ es buf)%nat → wp (m fuel) s (λ c' s', c' = c ∧ ahead s' rest).

Lemma amps_follow n rest : follow [RPAR; SEMI] rest → follow [RPAR; AMP; SEMI] (replicate n (TSym AMP) ++ rest).
Proof.
  intros Hr. destruct n as [|n]; [by apply (follow_mono [RPAR; SEMI]); [set_solver|]|].
  right. exists AMP, (replicate n (TSym AMP) ++ rest). split; [done|set_solver].
Qed.

(** The part of [parseline] after its pipeline. *)
Lemma line_wp ts n c fuel s rest (Q : cmd → nat → Prop) :
  parsed (parsepipe buf) 4 [RPAR; AMP; SEMI] ts c →
  ahead s (ts ++ replicate n (TSym AMP) ++ rest) → follow [RPAR; SEMI] rest →
  (4 * length (ts ++ replicate n (TSym AMP) ++ rest) + 4 ≤ fuel)%nat →
  (length (ts ++ replicate n (TSym AMP) ++ rest) ≤ es buf)%nat →
  (∀ s', ahead s' rest → wp (b ← peek buf [SEMI];
     if (b : bool) then _ ← gettoken buf; r ← parseline buf fuel; mret (LIST (Nat.iter n BACK c) r)
     else mret (Nat.iter n BACK c)) s' Q) →
  wp (parseline buf (S fuel)) s Q.
Proof.
  intros Hp Ha Hr Hf Hes HQ. cbn [parseline]. apply wp_bind.
  eapply wp_mono; [apply (Hp fuel s _ Ha); [by apply amps_follow|lia|lia]|].
  intros c' s1 [-> H1]. rewrite !length_app length_replicate in Hes.
  apply wp_bind. eapply wp_mono; [apply (parseback_wp n _ s1 rest H1); [|lia]|].
  { apply (follow_starts [RPAR; SEMI]); [done|..]; sym. }
  intros n' s2 [-> H2]. by apply HQ.
Qed.

Lemma parse_complete :
  (∀ ts c, line ts c → parsed (parseline buf) 5 [RPAR] ts c) ∧
  (∀ ts c, pipe ts c → parsed (parsepipe buf) 4 [RPAR; AMP; SEMI] ts c) ∧
  (∀ ts c, simple ts c → parsed (parseexec buf) 3 ENDS ts c).
Proof.
  apply grammar_ind; rw /parsed.
  - intros ts n c _ IH [|fuel] s rest Ha Hr Hf Hes; [lia|]. rewrite -app_assoc in Ha, Hf, Hes.
    apply (line_wp ts n c fuel s rest); try done; [by apply (follow_mono [RPAR]); [set_solver|]|lia|].
    intros s' H'. apply wp_bind, (wp_peek' s' _ _ _ H'); [rw /symbols; set_solver|]. intros s1 H1.
    rewrite (follow_starts [RPAR] _ _ Hr); [sym|sym|].
    by apply wp_ret.
  - intros ts n c ts' c' _ IH _ IHl [|fuel] s rest Ha Hr Hf Hes; [lia|].
    rewrite -!app_assoc in Ha, Hf, Hes. cbn [app] in Ha, Hf, Hes.
    apply (line_wp ts n c fuel s (TSym SEMI :: ts' ++ rest)); try done; [by right; exists SEMI, (ts' ++ rest); set_solver|lia|].
    intros s' H'. apply wp_bind, (wp_peek' s' _ _ _ H'); [rw /symbols; set_solver|]. intros s1 H1.
    change (starts [SEMI] _) with true. cbn iota. apply wp_bind, (wp_sym s1 _ _ _ H1). intros w s2 H2.
    rewrite !length_app /= length_app in Hf, Hes.
    apply wp_bind. eapply wp_mono; [apply (IHl fuel s2 rest H2 Hr); rewrite length_app; lia|].
    intros c2 s3 [-> H3]. by apply wp_ret.
  - intros ts c _ IH [|fuel] s rest Ha Hr Hf Hes; [lia|]. cbn [parsepipe]. apply wp_bind.
    eapply wp_mono; [apply (IH fuel s rest Ha); [by apply (follow_mono [RPAR; AMP; SEMI]); [rw /ENDS; set_solver|]|lia|lia]|].
    intros c' s1 [-> H1]. apply wp_bind, (wp_peek' s1 _ _ _ H1); [rw /symbols; set_solver|]. intros s2 H2.
    rewrite (follow_starts [RPAR; AMP; SEMI] _ _ Hr); [sym|sym|].
    by apply wp_ret.
  - intros ts c ts' c' _ IH _ IHp [|fuel] s rest Ha Hr Hf Hes; [lia|]. cbn [parsepipe].
    rewrite -app_assoc in Ha, Hf, Hes. cbn [app] in Ha, Hf, Hes. apply wp_bind.
    eapply wp_mono; [apply (IH fuel s _ Ha); [right; exists BAR, (ts' ++ rest); rw /ENDS; set_solver|lia|lia]|].
    intros c2 s1 [-> H1]. apply wp_bind, (wp_peek' s1 _ _ _ H1); [rw /symbols; set_solver|]. intros s2 H2.
    change (starts [BAR] _) with true. cbn iota. apply wp_bind, (wp_sym s2 _ _ _ H2). intros w s3 H3.
    rewrite !length_app /= length_app in Hf, Hes.
    apply wp_bind. eapply wp_mono; [apply (IHp fuel s3 rest H3 Hr); rewrite length_app; lia|].
    intros c3 s4 [-> H4]. by apply wp_ret.
  - intros l Hlen Hop [|fuel] s rest Ha Hr Hf Hes; [lia|]. cbn [parseexec].
    apply wp_bind, (wp_peek' s _ _ _ Ha); [rw /symbols; set_solver|]. intros s1 H1.
    destruct (items_split l) as (rs&l'&->&Hl'). rewrite redir_items_redirs in Hop |- *. apply Forall_app in Hop as [Hop1 Hop2].
    rewrite redir_items_words in Hlen |- *. rewrite redir_items_tokens -app_assoc in Ha, H1, Hf, Hes |- *.
    assert (length rs ≤ length (redir_tokens rs))%nat as Hrs by (clear; induction rs; simpl in *; lia).
    assert (starts [LPAR] (redir_tokens rs ++ item_tokens l' ++ rest) = false) as ->.
    { destruct rs as [|[op w] rs]; [|apply Forall_cons in Hop1 as [Ho _]; cbn [fst] in Ho; by destruct Ho as [->|[->| ->]]].
      apply items_starts; [done|done|]. sym. }
    rewrite !length_app in Hf, Hes. apply wp_bind. eapply wp_mono; [apply (parseredirs_wp rs _ s1 _ Hop1 H1); [|lia]|].
    { apply items_starts; [done|done|]. sym. }
    intros rs' s2 [-> H2]. apply wp_bind. eapply wp_mono; [apply (parseargs_wp l' _ 0 s2 rest); try done; lia|].
    intros r s3 [-> H3]. by apply wp_ret.
  - intros ts c rs _ IH Hop [|fuel] s rest Ha Hr Hf Hes; [lia|]. cbn [parseexec].
    rewrite /= -app_assoc in Ha, Hf, Hes. cbn [app] in Ha, Hf, Hes.
    apply wp_bind, (wp_peek' s _ _ _ Ha); [rw /symbols; set_solver|]. intros s1 H1. change (starts [LPAR] _) with true. cbn iota.
    destruct fuel as [|fuel]; [lia|]. cbn [parseblock].
    apply wp_bind, (wp_peek' s1 _ _ _ H1); [rw /symbols; set_solver|]. intros s2 H2. change (starts [LPAR] _) with true. cbn [negb].
    apply wp_bind, (wp_sym s2 _ _ _ H2). intros w s3 H3.
    assert (length rs ≤ length (redir_tokens rs))%nat as Hrs by (clear; induction rs; simpl in *; lia).
    rewrite !length_app /= !length_app in Hf, Hes.
    apply wp_bind. eapply wp_mono; [apply (IH fuel s3 _ H3); [right; exists RPAR, (redir_tokens rs ++ rest); set_solver|..];
      rewrite !length_app /= !length_app; lia|].
    intros c' s4 [-> H4]. apply wp_bind, (wp_peek' s4 _ _ _ H4); [rw /symbols; set_solver|]. intros s5 H5.
    change (starts [RPAR] _) with true. cbn [negb]. apply wp_bind, (wp_sym s5 _ _ _ H5). intros w' s6 H6.
    apply wp_bind. eapply wp_mono; [apply (parseredirs_wp rs _ s6 rest Hop H6); [|lia]|].
    { apply (follow_starts ENDS); [done|..]; sym. }
    intros rs' s7 [-> H7]. by apply wp_ret.
Qed.
End Complete.

(** ** Words and the buffer *)

Fixpoint cmd_words (c : cmd) : list word :=
  match c with
  | EXEC argv => argv
  | REDIR c w _ _ => cmd_words c ++ [w]
  | PIPE l r | LIST l r => cmd_words l ++ cmd_words r
  | BACK c => cmd_words c
  end.

Lemma nul_words c : nul_positions c = (cmd_words c).*2.
Proof. induction c as [argv|c IH w m fd|l IHl r IHr|l IHl r IHr|c IH]; simpl; by rewrite ?fmap_app ?IH ?IHl ?IHr. Qed.

Lemma wrap_words c rs w : w ∈ cmd_words (wrap c rs) → w ∈ cmd_words c ∨ w ∈ rs.*2.
Proof.
  revert c. induction rs as [|[op w'] rs IH]; intros c; [by left|]. change (wrap c ((op, w') :: rs)) with (wrap (redir_of op c w') rs).
  intros [Hw|Hw]%IH; [|right; by right].
  assert (w ∈ cmd_words c ++ [w']) as [?| ->%list_elem_of_singleton]%elem_of_app; [|by left|right; by left].
  rw /redir_of in Hw. repeat case_match; try done. apply elem_of_app. by left.
Qed.

Lemma redirs_tokens rs w : w ∈ rs.*2 → TWord w ∈ redir_tokens rs.
Proof. induction rs as [|[op w'] rs IH]; [by intros ?%elem_of_nil|]. intros [->|Hw]%elem_of_cons; [right; by left|]. right. right. by apply IH. Qed.

Lemma items_tokens l w : w ∈ item_words l ∨ w ∈ (item_redirs l).*2 → TWord w ∈ item_tokens l.
Proof.
  induction l as [|[w'|[op w']] l IH]; [by intros [?%elem_of_nil|?%elem_of_nil]| |]; intros [Hw|Hw].
  - apply elem_of_cons in Hw as [->|Hw]; [by left|right; by apply IH; left].
  - right. by apply IH; right.
  - right. right. by apply IH; left.
  - apply elem_of_cons in Hw as [->|Hw]; [right; by left|]. right. right. by apply IH; right.
Qed.

Lemma iter_back_words n c : cmd_words (Nat.iter n BACK c) = cmd_words c.
Proof. by induction n. Qed.

(** The words of a command are words of the line. *)
Lemma grammar_words :
  (∀ ts c, line ts c → ∀ w, w ∈ cmd_words c → TWord w ∈ ts) ∧
  (∀ ts c, pipe ts c → ∀ w, w ∈ cmd_words c → TWord w ∈ ts) ∧
  (∀ ts c, simple ts c → ∀ w, w ∈ cmd_words c → TWord w ∈ ts).
Proof.
  apply grammar_ind.
  - intros ts n c _ IH w. rewrite iter_back_words elem_of_app. auto.
  - intros ts n c ts' c' _ IH _ IH' w. cbn [cmd_words]. rewrite iter_back_words !elem_of_app elem_of_cons. naive_solver.
  - auto.
  - intros ts c ts' c' _ IH _ IH' w. cbn [cmd_words]. rewrite !elem_of_app elem_of_cons. naive_solver.
  - intros l _ _ w [Hw|Hw]%wrap_words; apply items_tokens; auto.
  - intros ts c rs _ IH _ w [Hw|Hw]%wrap_words; rewrite elem_of_cons elem_of_app elem_of_cons; [auto|].
    do 3 right. by apply redirs_tokens.
Qed.

Lemma zeros_lookup (ps : list nat) (b : list Z) i :
  foldl (λ b p, <[p := 0]> b) b ps !! i = (if decide (i ∈ ps) then (λ _, 0) <$> b !! i else b !! i).
Proof.
  revert b. induction ps as [|p ps IH]; intros b; [done|]. cbn [foldl].
  rewrite IH. destruct (decide (i = p)) as [->|Hne].
  - rewrite (decide_True (P := p ∈ p :: ps)); [by left|].
    assert (<[p := 0]> b !! p = (λ _, 0) <$> b !! p) as E.
    { destruct (b !! p) as [x|] eqn:Eb; [rewrite list_lookup_insert_eq; [exact (lookup_lt_Some _ _ _ Eb)|done]|].
      rewrite list_insert_ge; [by apply lookup_ge_None|]. by rewrite Eb. }
    rewrite E. case_decide; [|done]. by destruct (b !! p).
  - rewrite list_lookup_insert_ne; [congruence|]. destruct (decide (i ∈ ps)) as [Hi|Hi], (decide (i ∈ p :: ps)) as [Hj|Hj]; try done; set_solver.
Qed.

Lemma cstring_prefix (l : list Z) n :
  l !! n = Some 0 → (∀ i c, (i < n)%nat → l !! i = Some c → c ≠ 0) → cstring l = take n l.
Proof.
  revert n. induction l as [|c l IH]; intros n Hn Hlt; [done|]. destruct n as [|n].
  - injection Hn as ->. done.
  - simpl. destruct (Z.eqb_spec c 0) as [->|]; [exfalso; apply (Hlt 0%nat 0); [lia|done..]|]. f_equal. apply IH; [done|].
    intros i c' Hi Hc'. apply (Hlt (S i)); [lia|done].
Qed.

Lemma cstring_id (l : list Z) : Forall (λ c, c ≠ 0) l → cstring l = l.
Proof. induction 1 as [|c l Hc _ IH]; [done|]. simpl. destruct (Z.eqb_spec c 0); [done|]. by rewrite IH. Qed.

Lemma parseline_ahead buf : Forall (λ c, c ≠ 0) buf → ahead buf 0 (tokens buf 0) ∧ (length (tokens buf 0) ≤ es buf)%nat.
Proof. intros Hnul. split; [split; [lia|done]|]. pose proof (tokens_length buf Hnul 0). lia. Qed.

(** The end of [parsecmd]: nothing but white space may be left. *)
Lemma parse_end buf s ts (c : cmd) : Forall (λ c, c ≠ 0) buf → ahead buf s ts →
  (_ ← peek buf []; s ← get; if negb (Nat.eqb s (es buf)) then panic "syntax" else mret c) s =
  if decide (ts = []) then Ret c (es buf) else Panic "syntax".
Proof.
  intros Hnul [Hs Ht]. rw /mbind /K_bind /peek /get. pose proof (tokens_end buf Hnul s Hs) as He. rewrite Ht in He.
  case_decide as Hn.
  - by rewrite (proj1 He Hn) Nat.eqb_refl.
  - destruct (Nat.eqb_spec (skip_white buf s) (es buf)); [tauto|done].
Qed.

Section Parse.
Context (buf : list Z).
Hypothesis Hnul : Forall (λ c, c ≠ 0) buf.

Lemma parsecmd_settles : settles (parsecmd buf) 0%nat (λ c _, line (tokens buf 0) c).
Proof.
  destruct (parseline_ahead buf Hnul) as [Ha Hlen].
  destruct (parse_sound buf Hnul (parse_fuel buf)) as [Hs _]. rw /parsecmd. apply settles_bind.
  eapply settles_mono; [apply (Hs 0%nat _ Ha); [rw /parse_fuel; lia|done]|].
  intros c s (ts1&ts2&Et&Hl&H2). rw /settles (parse_end buf s ts2 c Hnul H2). case_decide as Hn; [|done].
  by rewrite Et Hn app_nil_r.
Qed.

Lemma parsecmd_complete c : line (tokens buf 0) c → ∃ s, parsecmd buf 0%nat = Ret c s.
Proof.
  intros Hl. destruct (parseline_ahead buf Hnul) as [Ha Hlen]. destruct (parse_complete buf Hnul) as [Hc _].
  pose proof (Hc _ _ Hl (parse_fuel buf) 0%nat []) as Hwp. rewrite app_nil_r in Hwp.
  assert (4 * length (tokens buf 0) + 5 ≤ parse_fuel buf)%nat as Hf by (rw /parse_fuel; lia).
  specialize (Hwp Ha (or_introl eq_refl) Hf Hlen). apply wp_elim in Hwp as (c'&s'&E&->&H2).
  rw /parsecmd (bind_Ret _ _ _ _ _ E) (parse_end buf s' [] c Hnul H2). eauto.
Qed.

Lemma line_parsed c : (∃ s, parsecmd buf 0%nat = Ret c s) → line (tokens buf 0) c.
Proof. intros [s E]. pose proof parsecmd_settles as H. by rw /settles E in H. Qed.
End Parse.

(** ** Theorems *)

(** C32: the parser always ends, in a command or in a panic, and it returns a command exactly when
    the grammar gives that command to the tokens of the line. *)
Theorem parsecmd_grammar (buf : list Z) (Hnul : Forall (λ c, c ≠ 0) buf) :
  ((∃ c s, parsecmd buf 0%nat = Ret c s) ∨ ∃ msg, parsecmd buf 0%nat = Panic msg) ∧
  ∀ c, (∃ s, parsecmd buf 0%nat = Ret c s) ↔ line (tokens buf 0) c.
Proof.
  split.
  - pose proof (parsecmd_settles buf Hnul) as H. rw /settles in H. destruct (parsecmd buf 0%nat); eauto; done.
  - intros c. split; [by apply line_parsed|by apply parsecmd_complete].
Qed.

(** After nulterminate every word of the command, argument or file name, is the C string at its start
    in the buffer, with exactly the characters of the word. *)
Theorem nulterminate_words (buf : list Z) (Hnul : Forall (λ c, c ≠ 0) buf) (c : cmd)
  (Hc : ∃ s, parsecmd buf 0%nat = Ret c s) (w : word) (Hw : w ∈ cmd_words c) :
  string_at (nulterminate buf c) w.1 = take (w.2 - w.1) (drop w.1 buf).
Proof.
  assert (∀ w, w ∈ cmd_words c → word_at buf w) as Hat.
  { intros w' Hw'. apply (tokens_words buf Hnul 0); [lia|]. destruct grammar_words as [Hg _].
    apply (Hg _ c); [|done]. by apply line_parsed. }
  destruct (Hat w Hw) as ((Hlt&Hes)&Hin&_). rw /es in Hes.
  assert (∀ i, (w.1 ≤ i < w.2)%nat → nulterminate buf c !! i = buf !! i) as Hsame.
  { intros i Hi. rw /nulterminate zeros_lookup nul_words decide_False; [|rewrite lookup_app_l //; lia].
    intros (w'&->&Hw')%list_elem_of_fmap. destruct (Hat w' Hw') as (_&_&[E|E]); [rw /es in E; lia|].
    by rewrite Hin in E. }
  assert (nulterminate buf c !! w.2 = Some 0) as Hend.
  { rw /nulterminate zeros_lookup nul_words decide_True; [by apply list_elem_of_fmap_2|].
    destruct (lookup_lt_is_Some_2 (buf ++ [0]) w.2) as [x ->]; [rewrite length_app /=; lia|done]. }
  rw /string_at (cstring_prefix _ (w.2 - w.1)).
  - rewrite lookup_drop. by replace (w.1 + (w.2 - w.1))%nat with w.2 by lia.
  - intros i x Hi. rewrite lookup_drop Hsame; [lia|]. apply (proj1 (Forall_lookup _ _) Hnul).
  - apply list_eq. intros i. destruct (decide (i < w.2 - w.1)%nat).
    + rewrite !lookup_take_lt // !lookup_drop. apply Hsame. lia.
    + rewrite !lookup_take_ge //; lia.
Qed.

Lemma gets_split n input l rest :
  gets_loop n input = (l, rest) →
  input = l ++ rest ∧ (length l ≤ n)%nat ∧ ((n = 0)%nat ∨ input = [] ∨ l ≠ []) ∧
  (∀ c l', l = l' ++ [c] → c = NL ∨ c = CR ∨ length l = n ∨ rest = []) ∧
  (∀ i c, l !! i = Some c → (S i < length l)%nat → c ≠ NL ∧ c ≠ CR).
Proof.
  revert input l rest. induction n as [|n IH]; intros input l rest; simpl.
  { intros [= <- <-]. split_and!; try done; [by left|]. by intros c [] ?. }
  destruct input as [|c input]; [intros [= <- <-]; split_and!; try done; [simpl; lia|by right; left|by intros c [] ?]|].
  destruct ((c =? NL) || (c =? CR)) eqn:E.
  - intros [= <- <-]. split_and!; [done|simpl; lia|by do 2 right| |].
    + intros c' l' El. destruct l' as [|x l']; [|by destruct l']. injection El as <-. bool_cases; auto.
    + intros i c' _ Hi. simpl in Hi. lia.
  - destruct (gets_loop n input) as [l0 r0] eqn:El. intros [= <- <-].
    destruct (IH _ _ _ El) as (->&Hlen&Hne&Hlast&Hin). split_and!; [done|simpl; lia|by do 2 right| |].
    + intros c' [|x l'] El'; [|injection El' as <- ->; destruct (Hlast c' l' eq_refl) as [|[|[|]]]; auto; right; right; left; simpl; lia].
      injection El' as -> ->. destruct Hne as [->|[Hne|Hne]]; [by do 2 right; left| |done].
      destruct (app_eq_nil _ _ Hne) as [_ ->]. auto.
    + intros [|i] c' Hc Hi; [injection Hc as <-; bool_cases; auto|]. apply (Hin i); [done|simpl in Hi; lia].
Qed.

(** On input without zero bytes the shell runs one command per line: the loop ends, the lines it handles are,
    joined, the whole input, and each is the text up to a line end or 99 bytes of it. *)
Theorem main_reads_lines (can_open : list Z → Z → bool) (input : list Z) (Hnul : Forall (λ c, c ≠ 0) input) :
  ∃ ls, main can_open input = round can_open <$> ls ∧ mjoin ls = input ∧
    Forall (λ l, l ≠ [] ∧ (length l ≤ 99)%nat ∧
      (∀ i c, l !! i = Some c → (S i < length l)%nat → c ≠ NL ∧ c ≠ CR)) ls ∧
    ∀ l, l ∈ removelast ls → last l = Some NL ∨ last l = Some CR ∨ length l = 99%nat.
Proof.
  rw /main. assert (length input < S (length input))%nat as Hf by lia. revert Hf. generalize (S (length input)) as fuel.
  intros fuel. revert input Hnul. induction fuel as [|k IH]; intros input Hnul Hf; [lia|]. cbn [main_loop].
  rw /getcmd /gets. destruct (gets_loop (NBUF - 1) input) as [l rest] eqn:El.
  destruct (gets_split _ _ _ _ El) as (->&Hlen&Hne&Hlast&Hin). apply Forall_app in Hnul as [Hl Hrest].
  destruct l as [|c l].
  { destruct Hne as [?|[E|?]]; [done| |done]. simpl in E. subst rest. exists []. split_and!; try done. by intros l ?%elem_of_nil. }
  apply Forall_cons in Hl as [Hc Hl]. destruct (Z.eqb_spec c 0); [done|]. rewrite length_app in Hf. cbn [length] in Hf.
  destruct (IH rest Hrest ltac:(lia)) as (ls&->&<-&Hls&Hends).
  assert (cstring (c :: l) = c :: l) as Ec by (apply cstring_id; by constructor).
  exists ((c :: l) :: ls). rewrite Ec. split_and!; [done|done| |].
  - apply Forall_cons. split; [|done]. split_and!; [done|exact Hlen|exact Hin].
  - intros l' Hl'. destruct ls as [|l2 ls]; [by apply elem_of_nil in Hl'|]. apply elem_of_cons in Hl' as [->|Hl']; [|by apply Hends].
    destruct (exists_last (l := c :: l)) as (l0&x&E); [done|]. rewrite E last_snoc. rewrite E in Hlast.
    destruct (Hlast x l0 eq_refl) as [->|[->|[Hn|Hn]]]; auto.
    apply Forall_cons in Hls as [(?&_) _]. by destruct l2.
Qed.

(** ** Witnesses *)

(** The line [cat < a | (b c)&]. *)
Definition line_bytes : list Z := [99; 97; 116; 32; 60; 32; 97; 32; 124; 32; 40; 98; 32; 99; 41; 38].
Definition line_cmd : cmd :=
  BACK (PIPE (REDIR (EXEC [(0, 3)%nat]) (6, 7)%nat O_RDONLY 0) (EXEC [(11, 12)%nat; (13, 14)%nat])).

Lemma line_nul : Forall (λ c, c ≠ 0) line_bytes.
Proof. repeat constructor; congruence. Qed.
Lemma line_runs : ∃ s, parsecmd line_bytes 0%nat = Ret line_cmd s.
Proof. eexists. vm_compute. reflexivity. Qed.

Lemma parsecmd_grammar_witness : line (tokens line_bytes 0) line_cmd.
Proof. apply (parsecmd_grammar line_bytes line_nul). exact line_runs. Defined.

Lemma nulterminate_words_witness : string_at (nulterminate line_bytes line_cmd) 0 = [99; 97; 116].
Proof.
  apply (nulterminate_words line_bytes line_nul line_cmd line_runs (0, 3)%nat).
  apply (bool_decide_unpack _). vm_compute. exact I.
Defined.

Lemma main_reads_lines_witness :
  ∃ ls, main (λ _ _, true) (line_bytes ++ [NL; 99; 100; 32; 47; NL]) = round (λ _ _, true) <$> ls ∧
    mjoin ls = line_bytes ++ [NL; 99; 100; 32; 47; NL].
Proof.
  destruct (main_reads_lines (λ _ _, true) (line_bytes ++ [NL; 99; 100; 32; 47; NL])) as (ls&E&Ej&_).
  - apply Forall_app. split; [exact line_nul|]. repeat constructor; vm_compute; congruence.
  - exists ls. split; [exact E|exact Ej].
Defined.
