(* ===== verification/Mkfs.v ===== *)
(** * Making a file system (xv6/mkfs.c).

    The program that writes the image of a file system: super block, inodes, a root directory with the files given to it,
    and the bitmap.  The image is the blocks of the file it writes, on a little-endian host; what the program prints is left out.  The theorem says that the kernel finds what
    was put in: the super block describes the layout, every inode satisfies the invariant the file system code is
    proved with ([file_ok]), files share no block, their contents are the bytes of the files, and the bitmap marks
    exactly the blocks in use. *)
From S2P Require Import Prelude Str Spinlock Sleeplock Layout Bio Log Txn Fs FsBlocks FsBmap FsFiles FsDirs.
Local Open Scope Z_scope.

(** ** Layout *)

Definition FSSIZE : Z := 1000.
Definition NINODES : Z := 200.
Definition nbitmap : Z := FSSIZE / (BSIZE * 8) + 1.
Definition ninodeblocks : Z := NINODES / IPB + 1.
Definition nlog : Z := LOGSIZE.
Definition nmeta : Z := 2 + nlog + ninodeblocks + nbitmap.
Definition nblocks : Z := FSSIZE - nmeta.

(** Intel byte order, stored and read again. *)
Definition xshort (x : Z) : Z := unle (le 2 x).
Definition xint (x : Z) : Z := unle (le 4 x).

Definition mk_sb : superblock :=
  Superblock (xint FSSIZE) (xint nblocks) (xint NINODES) (xint nlog) (xint 2) (xint (2 + nlog)) (xint (2 + nlog + ninodeblocks)).

(** The blocks of the image, how many there are, and the counters. *)
Record mkfs := Mkfs { m_img : gmap Z block; m_len : Z; freeinode : Z; freeblock : Z }.
Notation M := (K mkfs).

(** ** Blocks and inodes *)

Definition wsect (sec : Z) (buf : block) : M unit :=
  modify (λ s, Mkfs (<[sec := buf]> (m_img s)) (Z.max (m_len s) (sec + 1)) (freeinode s) (freeblock s)).
(** A block after the end cannot be read. *)
Definition rsect (sec : Z) : M block :=
  s ← get;
  if m_len s <=? sec then panic "read" else mret (rd (m_img s) sec).

Definition winode (inum : Z) (di : dinode) : M unit :=
  let bn := IBLOCK inum mk_sb in
  d ← rsect bn;
  wsect bn (splice (ioff inum) (put_dinode di) d).
Definition rinode (inum : Z) : M dinode :=
  let bn := IBLOCK inum mk_sb in
  d ← rsect bn;
  mret (disk_inode d inum).

Definition mk_ialloc (type : Z) : M Z :=
  s ← get;
  let inum := freeinode s in
  _ ← put (Mkfs (m_img s) (m_len s) (inum + 1) (freeblock s));
  _ ← winode inum (Dinode (xshort type) 0 0 (xshort 1) (xint 0) (replicate 13 0));
  mret inum.

(** [freeblock++] *)
Definition take_block : M Z :=
  s ← get;
  _ ← put (Mkfs (m_img s) (m_len s) (freeinode s) (freeblock s + 1));
  mret (freeblock s).

(** The bitmap: the first [used] blocks. *)
Definition mark (b : block) (i : Z) : block :=
  <[Z.to_nat (i / 8) := u8 (Z.lor (default 0 (b !! Z.to_nat (i / 8))) (Z.shiftl 1 (i mod 8)))]> b.
Definition mk_balloc (used : Z) : M unit :=
  if BSIZE * 8 <=? used then panic "assert"
  else wsect (sb_bmapstart mk_sb) (foldl mark zero_block (range 0 used)).

(** The block for block [fbn] of the file, taken when there is none. *)
Definition block_for (di : dinode) (fbn : Z) : M (dinode * Z) :=
  if fbn <? NDIRECT then
    di ← (if xint (addr di fbn) =? 0 then x ← take_block; mret (set_addr fbn (xint x) di) else mret di);
    mret (di, xint (addr di fbn))
  else
    di ← (if xint (addr di NDIRECT) =? 0 then x ← take_block; mret (set_addr NDIRECT (xint x) di) else mret di);
    indirect ← rsect (xint (addr di NDIRECT));
    let o := (4 * Z.to_nat (fbn - NDIRECT))%nat in
    indirect ← (if get32 o indirect =? 0 then
                  x ← take_block;
                  let indirect := put32 o (xint x) indirect in
                  _ ← wsect (xint (addr di NDIRECT)) indirect;
                  mret indirect
                else mret indirect);
    mret (di, xint (get32 o indirect)).

Fixpoint iappend_loop (fuel : nat) (di : dinode) (off : Z) (p : list Z) : M (dinode * Z) :=
  match fuel with
  | O => undef "iappend"
  | S k =>
      match p with
      | [] => mret (di, off)
      | _ =>
          let fbn := off / BSIZE in
          if MAXFILE <=? fbn then panic "assert"
          else
            r ← block_for di fbn;
            let '(di, x) := r in
            let n1 := Z.min (Z.of_nat (length p)) ((fbn + 1) * BSIZE - off) in
            buf ← rsect x;
            _ ← wsect x (splice (Z.to_nat (off - fbn * BSIZE)) (take (Z.to_nat n1) p) buf);
            iappend_loop k di (off + n1) (drop (Z.to_nat n1) p)
      end
  end.
Definition iappend (inum : Z) (p : list Z) : M unit :=
  di ← rinode inum;
  r ← iappend_loop (S (length p)) di (xint (di_size di)) p;
  let '(di, off) := r in
  winode inum (set_size (xint off) di).

(** ** The program *)

(** [strncpy] into the fourteen bytes of a name, which were cleared. *)
Definition name14 (name : list Z) : list Z := take 14 name ++ replicate (14 - length name) 0.
Definition dir_entry (inum : Z) (name : list Z) : list Z := put_dirent (Dirent (xshort inum) (name14 name)).
Arguments dir_entry : simpl never.

(** The file is read in blocks. *)
Fixpoint append_file (fuel : nat) (inum : Z) (b : list Z) : M unit :=
  match fuel with
  | O => undef "mkfs"
  | S k =>
      match take (Z.to_nat BSIZE) b with
      | [] => mret tt
      | buf => _ ← iappend inum buf; append_file k inum (drop (Z.to_nat BSIZE) b)
      end
  end.

Definition SLASH_CH : Z := 47.
(** A leading underscore is skipped. *)
Definition strip (name : list Z) : list Z := match name with 95 :: name' => name' | _ => name end.
Definition add_file (rootino : Z) (f : list Z * list Z) : M unit :=
  let '(name, b) := f in
  if bool_decide (SLASH_CH ∈ name) then panic "assert"
  else
    let name := strip name in
    inum ← mk_ialloc T_FILE;
    _ ← iappend rootino (dir_entry inum name);
    append_file (S (length b)) inum b.

(** [files]: the names and contents of the files named on the command line. *)
Definition main (files : list (list Z * list Z)) : M unit :=
  _ ← for_each (range 0 FSSIZE) (λ i, wsect i zero_block);
  _ ← wsect 1 (put_superblock mk_sb zero_block);
  rootino ← mk_ialloc T_DIR;
  if negb (rootino =? ROOTINO) then panic "assert"
  else
    _ ← iappend rootino (dir_entry rootino [46]);
    _ ← iappend rootino (dir_entry rootino [46; 46]);
    _ ← for_each files (add_file rootino);
    di ← rinode rootino;
    let off := xint (di_size di) in
    let off := (off / BSIZE + 1) * BSIZE in
    _ ← winode rootino (set_size (xint off) di);
    s ← get;
    mk_balloc (freeblock s).

Definition mkfs0 : mkfs := Mkfs ∅ 0 1 nmeta.

(** ** What the kernel will see *)

Lemma mk_sb_eq : mk_sb = img_sb.
Proof. reflexivity. Qed.
Lemma xint_id x : 0 ≤ x < 2 ^ 32 → xint x = x.
Proof. intros H. by apply unle_le. Qed.
Definition bits (used : Z) : block := foldl mark zero_block (range 0 used).

Lemma bits_succ n : 0 ≤ n → bits (n + 1) = set_bit (bits n) n.
Proof.
  intros Hn. rw /bits (range_app 0 n); [lia|]. rw foldl_app /range.
  replace (n + 1 - n) with 1 by lia. done.
Qed.
Lemma length_bits n : 0 ≤ n → length (bits n) = Z.to_nat BSIZE.
Proof.
  revert n. apply natlike_ind; [done|]. intros n Hn IH. rw -Z.add_1_r bits_succ //. rw /set_bit length_insert. done.
Qed.
Lemma lookup_replicate_default n k : default 0 (replicate n 0 !! k) = 0.
Proof. destruct (replicate n 0 !! k) as [x|] eqn:E; [|done]. by apply lookup_replicate in E as [-> _]. Qed.
Lemma bit_bits n b : 0 ≤ n ≤ BSIZE * 8 → 0 ≤ b → bit (bits n) b = (b <? n).
Proof.
  intros [Hn Hm] Hb. revert n Hn Hm. apply (natlike_ind (λ n, n ≤ BSIZE * 8 → bit (bits n) b = (b <? n))).
  - intros _. destruct (Z.ltb_spec b 0); [lia|]. change (bits 0) with zero_block. by rw /bit /byte_of /zero_block lookup_replicate_default Z.bits_0.
  - intros n Hn IH Hm. rw -Z.add_1_r bits_succ // bit_set //.
    + rw length_bits //. change BSIZE with 512 in *. Z.div_mod_to_equations; lia.
    + rw IH; [lia|]. destruct (Z.eqb_spec n b), (Z.ltb_spec b n), (Z.ltb_spec b (n + 1)); simpl; done || lia.
Qed.

(** The blocks [v] of the disk, were the bitmap written now. *)
Record seen (s : mkfs) (v : Z → block) : Prop := {
  sn_len : m_len s = FSSIZE;
  sn_free : nmeta ≤ freeblock s ≤ FSSIZE;
  sn_block : ∀ n, v n = if n =? sb_bmapstart img_sb then bits (freeblock s) else rd (m_img s) n;
  sn_size : ∀ n, length (v n) = Z.to_nat BSIZE;
  sn_zero : ∀ n, freeblock s ≤ n → v n = zero_block
}.

Lemma seen_used s v b : seen s v → 0 ≤ b < FSSIZE → used v img_sb b = (b <? freeblock s).
Proof.
  intros H Hb. rw /used. change FSSIZE with 1000 in *. assert (b mod BPB = b ∧ BBLOCK b img_sb = 58) as [-> ->].
  { rw /BBLOCK. change BPB with 4096. change (sb_bmapstart img_sb) with 58. Z.div_mod_to_equations; lia. }
  rw (sn_block _ _ H). change (58 =? sb_bmapstart img_sb) with true. cbn match. apply bit_bits; [|lia].
  pose proof (sn_free _ _ H). change nmeta with 59 in *. change FSSIZE with 1000 in *. change BSIZE with 512. lia.
Qed.
Lemma seen_meta s v : seen s v → meta_used v img_sb.
Proof.
  intros H b Hb. change (dstart img_sb) with 59 in Hb. rw (seen_used s) //; [change FSSIZE with 1000; lia|].
  pose proof (sn_free _ _ H). change nmeta with 59 in *. apply Z.ltb_lt. lia.
Qed.
Lemma seen_data s v : seen s v → freeblock s < FSSIZE → is_data img_sb (freeblock s) ∧ used v img_sb (freeblock s) = false.
Proof.
  intros H Hf. pose proof (sn_free _ _ H) as Hn. change nmeta with 59 in Hn. change FSSIZE with 1000 in *. split; [rw /is_data; change (dstart img_sb) with 59; change (sb_size img_sb) with 1000; lia|].
  rw (seen_used s) //; [change FSSIZE with 1000; lia|]. apply Z.ltb_irrefl.
Qed.

Lemma take_block_wp s v (Q : Z → mkfs → Prop) :
  seen s v → freeblock s < FSSIZE →
  (∀ s', freeblock s' = freeblock s + 1 → freeinode s' = freeinode s → seen s' (alloc_view v img_sb (freeblock s)) → Q (freeblock s) s') →
  wp take_block s Q.
Proof.
  intros H Hf HQ. rw /take_block. apply wp_bind, wp_get, wp_bind, wp_put, wp_ret, HQ; [done..|].
  destruct H as [Hl Hfr Hb Hs Hz]. change nmeta with 59 in *. change FSSIZE with 1000 in *. set (r := freeblock s) in *.
  assert (r mod BPB = r ∧ BBLOCK r img_sb = 58) as [E1 E2].
  { rw /BBLOCK. change BPB with 4096. change (sb_bmapstart img_sb) with 58. Z.div_mod_to_equations; lia. }
  assert (∀ n, alloc_view v img_sb r n = if n =? 58 then bits (r + 1) else v n) as Hv.
  { intros n. rw /alloc_view E1 E2 (Hb 58). change (58 =? sb_bmapstart img_sb) with true. cbn match. rw -bits_succ; [lia|].
    rw /upd. destruct (Z.eqb_spec n 58) as [->|Hn]; repeat case_decide; try lia; try done. subst n. by rw Hz; [lia|]. }
  split; simpl; [done|change nmeta with 59; change FSSIZE with 1000; lia| | |].
  - intros n. rw Hv. change (sb_bmapstart img_sb) with 58 in *. rw Hb. by destruct (n =? 58).
  - intros n. rw Hv. destruct (n =? 58); [apply length_bits; lia|done].
  - intros n Hn. rw Hv. destruct (Z.eqb_spec n 58); [lia|]. apply Hz. lia.
Qed.

Lemma rsect_wp s v n (Q : block → mkfs → Prop) :
  seen s v → 0 ≤ n < FSSIZE → n ≠ sb_bmapstart img_sb → Q (v n) s → wp (rsect n) s Q.
Proof.
  intros H Hn H58 HQ. rw /rsect. apply wp_bind, wp_get. rw (sn_len _ _ H). destruct (Z.leb_spec FSSIZE n); [lia|].
  apply wp_ret. rw (sn_block _ _ H) in HQ. by destruct (Z.eqb_spec n (sb_bmapstart img_sb)).
Qed.

Lemma wsect_wp s v n d (Q : unit → mkfs → Prop) :
  seen s v → 0 ≤ n < freeblock s → n ≠ sb_bmapstart img_sb → length d = Z.to_nat BSIZE →
  (∀ s', freeblock s' = freeblock s → freeinode s' = freeinode s → seen s' (upd v n d) → Q tt s') →
  wp (wsect n d) s Q.
Proof.
  intros [Hl Hfr Hb Hs Hz] Hn H58 Hd HQ. apply wp_modify, HQ; [done..|]. split; simpl; [lia|done| | |].
  - intros m. rw rd_insert. destruct (decide (n = m)) as [<-|Hne].
    + rw upd_eq. by destruct (Z.eqb_spec n 58).
    + rw upd_ne //. congruence.
  - intros m. rw /upd. by case_decide.
  - intros m Hm. rw upd_ne; [lia|]. by apply Hz.
Qed.

(** ** Blocks of a file *)

(** The file has its first [nb] blocks, and the indirect block or not. *)
Definition tight (v : Z → block) (di : dinode) (nb : Z) (ind : bool) : Prop :=
  (∀ bn, 0 ≤ bn < MAXFILE → slot v di (fslot bn) ≠ 0 ↔ bn < nb) ∧ (slot v di NDIRECT ≠ 0 ↔ ind = true).
(** The blocks of the disk such a file takes. *)
Definition has_ind (nb : Z) : bool := NDIRECT <? nb.
Definition cost (nb : Z) : Z := nb + if has_ind nb then 1 else 0.

Lemma tight_took v di v' di' nb ind j r :
  took img_sb v di v' di' j r → r ≠ 0 → tight v di nb ind →
  (j = NDIRECT → tight v' di' nb true) ∧ (0 ≤ nb < MAXFILE → j = fslot nb → tight v' di' (nb + 1) ind).
Proof.
  intros Ht Hr [H1 H2]. assert (0 ≤ NDIRECT < NSLOT) as H12 by done. split.
  - intros ->. split.
    + intros bn Hbn. destruct (fslot_range bn Hbn) as [Hf Hn]. rewrite (tk_slot _ _ _ _ _ _ _ Ht _ Hf).
      destruct (Z.eqb_spec (fslot bn) NDIRECT); [done|]. by apply H1.
    + rewrite (tk_slot _ _ _ _ _ _ _ Ht _ H12) Z.eqb_refl. done.
  - intros Hnb ->. split.
    + intros bn Hbn. destruct (fslot_range bn Hbn) as [Hf _]. rewrite (tk_slot _ _ _ _ _ _ _ Ht _ Hf).
      destruct (Z.eqb_spec (fslot bn) (fslot nb)) as [->%fslot_inj|Hne]; [split; [lia|done]|].
      rw H1 //. assert (bn ≠ nb) by congruence. lia.
    + rewrite (tk_slot _ _ _ _ _ _ _ Ht _ H12). destruct (fslot_range nb Hnb) as [_ Hn].
      destruct (Z.eqb_spec NDIRECT (fslot nb)); [congruence|done].
Qed.

(** The state while an inode is in memory. *)
Record live (s : mkfs) (v : Z → block) (di : dinode) (nb : Z) (ind : bool) : Prop := {
  lv_seen : seen s v;
  lv_ok : file_ok v img_sb di;
  lv_tight : tight v di nb ind
}.

(** From ([s], [v], [di]) to ([s1], [v1], [di1]) with [n] blocks taken: the bytes of the file did not change. *)
Record gained (s : mkfs) v di (n : Z) (s1 : mkfs) v1 di1 : Prop := {
  gn_ev : evolves img_sb v di v1 di1;
  gn_block : ∀ k, 0 ≤ k < MAXFILE → fblock v1 di1 k = fblock v di k;
  gn_free : freeblock s1 = freeblock s + n;
  gn_inode : freeinode s1 = freeinode s
}.

Lemma gained_refl s v di : file_ok v img_sb di → gained s v di 0 s v di.
Proof. intros H. split; [by apply (evolves_refl img_conf _ img_geom)|done|lia|done]. Qed.
Lemma gained_trans s v di n s1 v1 di1 m s2 v2 di2 :
  gained s v di n s1 v1 di1 → gained s1 v1 di1 m s2 v2 di2 → gained s v di (n + m) s2 v2 di2.
Proof.
  intros [E1 B1 F1 I1] [E2 B2 F2 I2].
  split; [exact (evolves_trans _ _ img_geom _ _ _ _ _ _ E1 E2)|intros k Hk; by rw B2 // B1|lia|congruence].
Qed.

(** A slot takes the next free block. *)
Lemma took_gained s v di nb ind j v1 di1 s1 :
  live s v di nb ind → freeblock s < FSSIZE → 0 ≤ j < NSLOT → slot v di j = 0 → took img_sb v di v1 di1 j (freeblock s) →
  seen s1 v1 → freeblock s1 = freeblock s + 1 → freeinode s1 = freeinode s →
  gained s v di 1 s1 v1 di1 ∧ (j = NDIRECT → live s1 v1 di1 nb true) ∧ (0 ≤ nb < MAXFILE → j = fslot nb → live s1 v1 di1 (nb + 1) ind).
Proof.
  intros [Hs Hok Ht] Hf Hj H0 Htk Hs1 Ef Ei. destruct (seen_data s v Hs Hf) as [Hd Hu].
  destruct (took_ok _ _ img_geom _ _ _ _ _ _ Hok Hd Hu Hj H0 Htk) as [Ok1 Ev1].
  assert (freeblock s ≠ 0) as Hr by (apply (data_pos _ _ img_geom) in Hd; lia).
  destruct (tight_took _ _ _ _ nb ind _ _ Htk Hr Ht) as [T1 T2]. split_and!.
  - split; [done| |done..]. intros k Hk. exact (took_fblock _ _ img_geom _ _ _ _ _ _ _ Hok Hd Hu Hj H0 Htk Hk).
  - intros E. split; auto.
  - intros Hnb E. split; auto.
Qed.

Lemma slot_range v di j : file_ok v img_sb di → 0 ≤ j < NSLOT → slot v di j = 0 ∨ nmeta ≤ slot v di j < FSSIZE.
Proof. intros Hok Hj. destruct (decide (slot v di j = 0)) as [|H0]; [by left|]. right. by apply (fo_data _ _ _ Hok). Qed.
Lemma slot_below s v di nb ind j : live s v di nb ind → 0 ≤ j < NSLOT → slot v di j ≠ 0 → nmeta ≤ slot v di j < freeblock s.
Proof.
  intros [Hs Hok _] Hj H0. destruct (fo_data _ _ _ Hok j Hj H0) as [Hd Hu]. split; [apply Hd|].
  rw (seen_used s) // in Hu; [|by apply Z.ltb_lt]. apply (data_pos _ _ img_geom) in Hd. change FSSIZE with (sb_size img_sb). lia.
Qed.
Lemma xint_slot v di j : file_ok v img_sb di → 0 ≤ j < NSLOT → xint (slot v di j) = slot v di j.
Proof.
  intros Hok Hj. apply xint_id. destruct (slot_range v di j Hok Hj) as [->|H]; [lia|]. change nmeta with 59 in H. change FSSIZE with 1000 in H. lia.
Qed.

Lemma fslot_low bn : bn < NDIRECT → fslot bn = bn.
Proof. intros H. rw /fslot. by destruct (Z.ltb_spec bn NDIRECT); [|lia]. Qed.
Lemma fslot_high bn : NDIRECT ≤ bn → fslot bn = bn + 1.
Proof. intros H. rw /fslot. by destruct (Z.ltb_spec bn NDIRECT); [lia|]. Qed.

(** A direct block or the indirect block is taken. *)
Lemma take_low s v di nb ind j (Q : dinode → mkfs → Prop) :
  live s v di nb ind → 0 ≤ j ≤ NDIRECT → slot v di j = 0 → freeblock s < FSSIZE →
  (∀ s1 v1, let di1 := set_addr j (freeblock s) di in
    gained s v di 1 s1 v1 di1 → (j = NDIRECT → live s1 v1 di1 nb true) →
    (0 ≤ nb < MAXFILE → j = fslot nb → live s1 v1 di1 (nb + 1) ind) → Q di1 s1) →
  wp (x ← take_block; mret (set_addr j (xint x) di)) s Q.
Proof.
  intros Hl Hj H0 Hf HQ. pose proof (lv_seen _ _ _ _ _ Hl) as Hs. destruct (seen_data s v Hs Hf) as [Hd Hu].
  apply wp_bind, (take_block_wp s v); [done..|]. intros s1 Ef Ei Hs1. apply wp_ret.
  assert (0 ≤ j < NSLOT) as Hj' by (change NSLOT with 141; change NDIRECT with 12 in Hj; lia).
  rw xint_id; [apply (data_pos _ _ img_geom) in Hd; change (sb_size img_sb) with 1000 in Hd; lia|].
  pose proof (took_low _ _ img_geom v di j _ (lv_ok _ _ _ _ _ Hl) (sn_size _ _ Hs) Hd Hu Hj) as Htk.
  rewrite -(slot_low v di j ltac:(lia)) in Htk.
  destruct (took_gained s v di nb ind j _ _ s1 Hl Hf Hj' H0 (Htk H0) Hs1 Ef Ei) as (G1&G2&G3).
  exact (HQ s1 _ G1 G2 G3).
Qed.

(** The indirect block gets the entry for block [nb] of the file. *)
Lemma take_high s v di nb (Q : block → mkfs → Prop) :
  live s v di nb true → NDIRECT ≤ nb < MAXFILE → freeblock s < FSSIZE →
  let o := (4 * Z.to_nat (nb - NDIRECT))%nat in
  let ind := v (addr di NDIRECT) in
  (∀ s1 v1 d, gained s v di 1 s1 v1 di → live s1 v1 di (nb + 1) true → d = v1 (addr di NDIRECT) → Q d s1) →
  wp (x ← take_block; let d := put32 o (xint x) ind in _ ← wsect (addr di NDIRECT) d; mret d) s Q.
Proof.
  intros Hl Hnb Hf o ind HQ. pose proof (lv_seen _ _ _ _ _ Hl) as Hs. destruct (seen_data s v Hs Hf) as [Hd Hu].
  assert (0 ≤ NDIRECT < NSLOT) as H12 by done. pose proof (lv_ok _ _ _ _ _ Hl) as Hok.
  destruct (lv_tight _ _ _ _ _ Hl) as [Hsl [_ Hi]]. specialize (Hi eq_refl). destruct (slot_below _ _ _ _ _ _ Hl H12 Hi) as [Hb1 Hb2].
  rewrite slot_low // in Hi, Hb1, Hb2.
  assert (0 ≤ nb < MAXFILE) as Hnb' by (change NDIRECT with 12 in Hnb; lia). destruct (fslot_range nb Hnb') as [Hfs _].
  assert (slot v di (fslot nb) = 0) as H0.
  { destruct (decide (slot v di (fslot nb) = 0)) as [|Hne]; [done|]. apply Hsl in Hne; [lia|done]. }
  apply wp_bind, (take_block_wp s v); [done..|]. intros s1 Ef Ei Hs1.
  rw xint_id; [apply (data_pos _ _ img_geom) in Hd; change (sb_size img_sb) with 1000 in Hd; lia|].
  change nmeta with 59 in Hb1. change FSSIZE with 1000 in Hf. 
  apply wp_bind, (wsect_wp s1 _ _ _ _ Hs1); [lia|change (sb_bmapstart img_sb) with 58; lia| |].
  { rw /put32 length_splice; rw (sn_size _ _ Hs) // length_le. change (Z.to_nat BSIZE) with 512%nat. change NDIRECT with 12 in *. change MAXFILE with 140 in *. lia. }
  intros s2 Ef2 Ei2 Hs2. apply wp_ret.
  assert (o = (4 * Z.to_nat (fslot nb - NDIRECT - 1))%nat) as Eo by (rw fslot_high; lia).
  pose proof (took_high _ _ img_geom v di (fslot nb) _ Hok (sn_size _ _ Hs) Hd Hu) as Htk.
  rewrite /link_view -Eo in Htk.
  assert (NDIRECT < fslot nb < NSLOT) as Hj by (rewrite (fslot_high nb) in Hfs |- *; lia).
  destruct (took_gained s v di nb true _ _ _ s2 Hl Hf Hfs H0 (Htk Hj Hi H0) Hs2 ltac:(lia) ltac:(congruence)) as (G1&_&G3).
  apply (HQ s2 _ _ G1 (G3 Hnb' eq_refl)). by rw upd_eq.
Qed.

Lemma has_ind_spec nb : has_ind nb = true ↔ NDIRECT < nb.
Proof. apply Z.ltb_lt. Qed.
Lemma cost_step nb : cost (nb + 1) = cost nb + (if nb =? NDIRECT then 2 else 1).
Proof.
  rw /cost /has_ind. change NDIRECT with 12. destruct (Z.ltb_spec 12 nb), (Z.ltb_spec 12 (nb + 1)), (Z.eqb_spec nb 12); lia.
Qed.

Section BlockFor.
Context (s : mkfs) (v : Z → block) (di : dinode) (nb fbn : Z).
Hypothesis (Hl : live s v di nb (has_ind nb)) (Hfbn : 0 ≤ fbn ≤ nb) (Hmax : fbn < MAXFILE).
Let nb' := Z.max nb (fbn + 1).
Hypothesis Hroom : freeblock s + (cost nb' - cost nb) ≤ FSSIZE.

Definition block_post (r : dinode * Z) (s1 : mkfs) : Prop :=
  ∃ v1, live s1 v1 r.1 nb' (has_ind nb') ∧ gained s v di (cost nb' - cost nb) s1 v1 r.1 ∧ r.2 = slot v1 r.1 (fslot fbn).

Lemma slot_there : fbn < nb → slot v di (fslot fbn) ≠ 0 ∧ nb' = nb ∧ cost nb' - cost nb = 0.
Proof.
  intros Hlt. assert (nb' = nb) as -> by lia. split_and!; [|done|lia]. apply (lv_tight _ _ _ _ _ Hl); lia.
Qed.
Lemma slot_missing : fbn = nb → slot v di (fslot fbn) = 0 ∧ nb' = nb + 1.
Proof.
  intros E. split; [|lia]. destruct (decide (slot v di (fslot fbn) = 0)) as [|Hne]; [done|].
  apply (lv_tight _ _ _ _ _ Hl) in Hne; lia.
Qed.

Lemma block_direct : fbn < NDIRECT → wp (block_for di fbn) s block_post.
Proof.
  intros Hd. rw /block_for. destruct (Z.ltb_spec fbn NDIRECT); [|lia]. pose proof (lv_ok _ _ _ _ _ Hl) as Hok.
  assert (0 ≤ fbn < NSLOT) as Hj by (change NSLOT with 141; change NDIRECT with 12 in *; lia).
  pose proof (xint_slot v di fbn Hok Hj) as Ex. rewrite slot_low in Ex; [lia|]. rw Ex.
  apply wp_bind. destruct (decide (fbn = nb)) as [E|Hne].
  - destruct (slot_missing E) as [H0 En]. rewrite fslot_low // in H0. rewrite -(slot_low v di fbn); [lia|]. rw H0.
    assert (cost nb' - cost nb = 1) as Ec.
    { rw En cost_step. destruct (Z.eqb_spec nb NDIRECT); lia. }
    apply (take_low s v di nb _ fbn _ Hl); [lia|done|lia|]. intros s1 v1 di1 G1 _ G2. rw fslot_low in G2; [lia|].
    specialize (G2 ltac:(lia) E). apply wp_ret. exists v1. cbn [fst snd]. rw Ec En fslot_low //.
    assert (has_ind (nb + 1) = has_ind nb) as -> by (rw /has_ind; destruct (Z.ltb_spec NDIRECT nb), (Z.ltb_spec NDIRECT (nb + 1)); lia).
    split_and!; [done..|]. rewrite -(slot_low v1 di1 fbn); [lia|]. apply xint_slot; [exact (lv_ok _ _ _ _ _ G2)|done].
  - destruct slot_there as (H0&En&Ec); [lia|]. rewrite fslot_low // in H0. rewrite -(slot_low v di fbn); [lia|].
    destruct (Z.eqb_spec (slot v di fbn) 0); [done|]. apply wp_ret, wp_ret. exists v. cbn [fst snd]. rw Ec En fslot_low // Ex.
    split_and!; [done|by apply gained_refl|]. by rw slot_low; [lia|].
Qed.

(** The indirect block is there. *)
Lemma block_indirect (Q : dinode → mkfs → Prop) :
  NDIRECT ≤ fbn →
  (∀ s1 v1 di1, live s1 v1 di1 nb true → gained s v di (if has_ind nb then 0 else 1) s1 v1 di1 → Q di1 s1) →
  wp (if xint (addr di NDIRECT) =? 0 then x ← take_block; mret (set_addr NDIRECT (xint x) di) else mret di) s Q.
Proof.
  intros Hi HQ. assert (0 ≤ NDIRECT < NSLOT) as H12 by done. pose proof (lv_ok _ _ _ _ _ Hl) as Hok.
  pose proof (xint_slot v di NDIRECT Hok H12) as Ex. rewrite slot_low // in Ex. rw Ex -(slot_low v di NDIRECT) //.
  pose proof (proj2 (lv_tight _ _ _ _ _ Hl)) as Ht. destruct (has_ind nb) eqn:E.
  - destruct (Z.eqb_spec (slot v di NDIRECT) 0) as [E0|_]; [by apply Ht in E0|]. apply wp_ret, (HQ s v di); [done|]. by apply gained_refl.
  - destruct (Z.eqb_spec (slot v di NDIRECT) 0) as [E0|H0]; [|by apply Ht in H0].
    apply (take_low s v di nb false NDIRECT _ Hl); [done..| |].
    + rw /has_ind in E. apply Z.ltb_ge in E. assert (nb = NDIRECT) as En by lia. pose proof Hroom as Hr. rw /nb' in Hr. replace (Z.max nb (fbn + 1)) with (nb + 1) in Hr by lia.
      rw cost_step in Hr. destruct (Z.eqb_spec nb NDIRECT); lia.
    + intros s1 v1 di1 G1 G2 _. apply (HQ s1 v1 di1); auto.
Qed.

Lemma block_for_wp : wp (block_for di fbn) s block_post.
Proof.
  destruct (Z.ltb_spec fbn NDIRECT) as [Hd|Hi]; [by apply block_direct|]. rw /block_for. destruct (Z.ltb_spec fbn NDIRECT); [lia|].
  assert (0 ≤ NDIRECT < NSLOT) as H12 by done. apply wp_bind, block_indirect; [done|]. intros s1 v1 di1 L1 G1.
  pose proof (lv_ok _ _ _ _ _ L1) as Ok1. pose proof (proj2 (proj2 (lv_tight _ _ _ _ _ L1)) eq_refl) as Hi0.
  pose proof (xint_slot v1 di1 NDIRECT Ok1 H12) as Ex. destruct (slot_below _ _ _ _ _ _ L1 H12 Hi0) as [Hb1 Hb2].
  pose proof (sn_free _ _ (lv_seen _ _ _ _ _ L1)) as Hfr. rewrite slot_low // in Ex, Hb1, Hb2, Hi0.
  change nmeta with 59 in *. apply wp_bind. rw Ex. apply (rsect_wp s1 v1); [by apply L1|lia|change (sb_bmapstart img_sb) with 58; lia|].
  assert (∀ v2 di2, addr di2 NDIRECT ≠ 0 → get32 (4 * Z.to_nat (fbn - NDIRECT)) (v2 (addr di2 NDIRECT)) = slot v2 di2 (fslot fbn)) as Hget.
  { intros v2 di2 Ha. rw fslot_high // slot_high; [lia|]. destruct (Z.eqb_spec (addr di2 NDIRECT) 0); [done|]. do 2 f_equal. lia. }
  destruct (fslot_range fbn) as [Hfs _]; [lia|]. pose proof (gn_free _ _ _ _ _ _ _ G1) as Gf.
  apply wp_bind. rw Hget //. destruct (lv_tight _ _ _ _ _ L1) as [Ht _]. destruct (Z.eqb_spec (slot v1 di1 (fslot fbn)) 0) as [E0|H0].
  - assert (fbn = nb) as En by (destruct (Z.ltb_spec fbn nb) as [Hlt|]; [apply Ht in Hlt; [done|lia]|lia]).
    assert (nb' = nb + 1) as En' by lia. assert (has_ind nb' = true) as Eh by (apply has_ind_spec; lia).
    assert (cost nb' - cost nb = (if has_ind nb then 0 else 1) + 1) as Ec.
    { rw En' cost_step /has_ind. destruct (Z.eqb_spec nb NDIRECT), (Z.ltb_spec NDIRECT nb); lia. }
    rewrite En. apply (take_high s1 v1 di1 nb); [done|lia|lia|].
    intros s2 v2 d G2 L2 ->. apply wp_ret. exists v2. cbn [fst snd]. rewrite Eh Ec En'.
    split_and!; [done|exact (gained_trans _ _ _ _ _ _ _ _ _ _ _ G1 G2)|]. rewrite -En Hget //. apply xint_slot; [apply L2|done].
  - apply Ht in H0; [|lia]. assert (nb' = nb) as En' by lia. assert (has_ind nb = true) as Eh by (apply has_ind_spec; lia).
    apply wp_ret, wp_ret. exists v1. cbn [fst snd]. rewrite En' Eh Hget // in G1 |- *. replace (cost nb - cost nb) with 0 by lia.
    split_and!; [done..|]. by apply xint_slot.
Qed.
End BlockFor.

(** ** Appending *)

(** The blocks of [n] bytes. *)
Definition nblk (n : Z) : Z := (n + (BSIZE - 1)) / BSIZE.

Lemma nblk_step off n1 :
  0 ≤ off → 0 < n1 ≤ (off / BSIZE + 1) * BSIZE - off →
  off / BSIZE ≤ nblk off ∧ Z.max (nblk off) (off / BSIZE + 1) = nblk (off + n1).
Proof. intros Ho Hn. rw /nblk. change BSIZE with 512 in *. Z.div_mod_to_equations; lia. Qed.
Lemma cost_mono a b : a ≤ b → cost a ≤ cost b.
Proof. intros H. rw /cost /has_ind. destruct (Z.ltb_spec NDIRECT a), (Z.ltb_spec NDIRECT b); lia. Qed.
Lemma nblk_mono a b : a ≤ b → nblk a ≤ nblk b.
Proof. intros H. apply Z.div_le_mono; [done|lia]. Qed.

Definition bcost (n : Z) : Z := cost (nblk n).
Lemma bcost_mono a b : a ≤ b → bcost a ≤ bcost b.
Proof. intros H. by apply cost_mono, nblk_mono. Qed.

(** The bytes [p] at [off]; the blocks for them were taken. *)
Record appended (s : mkfs) v di off (p : list Z) (s1 : mkfs) v1 di1 : Prop := {
  ap_live : let e := off + Z.of_nat (length p) in live s1 v1 di1 (nblk e) (has_ind (nblk e));
  ap_ev : evolves img_sb v di v1 di1;
  ap_byte : ∀ q, 0 ≤ q < MAXFILE * BSIZE →
    fbyte v1 di1 q = if (off <=? q) && (q <? off + Z.of_nat (length p)) then default 0 (p !! Z.to_nat (q - off)) else fbyte v di q;
  ap_free : freeblock s1 = freeblock s + (bcost (off + Z.of_nat (length p)) - bcost off);
  ap_inode : freeinode s1 = freeinode s
}.

Lemma appended_nil s v di off :
  live s v di (nblk off) (has_ind (nblk off)) → appended s v di off [] s v di.
Proof.
  intros H. split; simpl; rewrite ?Z.add_0_r; [done|by apply (evolves_refl _ _ img_geom), H| |lia|done].
  intros q Hq. destruct (Z.leb_spec off q), (Z.ltb_spec q off); done || lia.
Qed.
Lemma appended_app s v di off p s1 v1 di1 p' s2 v2 di2 :
  0 ≤ off → appended s v di off p s1 v1 di1 → appended s1 v1 di1 (off + Z.of_nat (length p)) p' s2 v2 di2 →
  appended s v di off (p ++ p') s2 v2 di2.
Proof.
  intros Ho [L1 E1 B1 F1 I1] [L2 E2 B2 F2 I2].
  assert (off + Z.of_nat (length (p ++ p')) = off + Z.of_nat (length p) + Z.of_nat (length p')) as E by (rewrite length_app; lia).
  split; rewrite ?E; [done|exact (evolves_trans _ _ img_geom _ _ _ _ _ _ E1 E2)| |lia|congruence].
  intros q Hq. rewrite B2 // B1 //. clear -Ho Hq. set (n := Z.of_nat (length p)). set (m := Z.of_nat (length p')).
  destruct (Z.leb_spec (off + n) q), (Z.ltb_spec q (off + n + m)), (Z.leb_spec off q), (Z.ltb_spec q (off + n)); simpl; try lia; try done.
  - rewrite lookup_app_r; [lia|]. do 2 f_equal. lia.
  - by rewrite lookup_app_l; [lia|].
Qed.

(** One round of the loop: a block and the copy into it. *)
Lemma append_block s v di off p {A} (f : dinode → M A) (Q : A → mkfs → Prop) :
  live s v di (nblk off) (has_ind (nblk off)) → 0 ≤ off → p ≠ [] → off + Z.of_nat (length p) ≤ MAXFILE * BSIZE →
  Z.of_nat (length p) ≤ (off / BSIZE + 1) * BSIZE - off →
  freeblock s + (bcost (off + Z.of_nat (length p)) - bcost off) ≤ FSSIZE →
  (∀ s1 v1 di1, appended s v di off p s1 v1 di1 → wp (f di1) s1 Q) →
  wp (r ← block_for di (off / BSIZE); let '(di, x) := r in
      buf ← rsect x; _ ← wsect x (splice (Z.to_nat (off - off / BSIZE * BSIZE)) p buf); f di) s Q.
Proof.
  intros Hl Ho Hp Hmax Hlen Hroom HQ. set (fbn := off / BSIZE) in *. assert (0 < Z.of_nat (length p)) by (destruct p; [done|simpl; lia]).
  destruct (nblk_step off (Z.of_nat (length p)) Ho) as [Hle Enb]; [lia|]. fold fbn in Hle, Enb.
  assert (0 ≤ fbn < MAXFILE) as Hf. { rw /fbn. change BSIZE with 512 in *. change MAXFILE with 140 in *. Z.div_mod_to_equations; lia. }
  apply wp_bind, (wp_mono _ _ (block_post s v di (nblk off) fbn)).
  - apply block_for_wp; [done|lia|lia|]. by rewrite Enb.
  - intros [di1 x] s1 (v1&L1&G1&Ex). cbn [fst snd] in *. rewrite Enb in L1, G1. destruct (fslot_range fbn Hf) as [Hfs _].
    assert (slot v1 di1 (fslot fbn) ≠ 0) as Hs by (apply (lv_tight _ _ _ _ _ L1); lia).
    destruct (slot_below _ _ _ _ _ _ L1 Hfs Hs) as [Hx1 Hx2]. pose proof (sn_free _ _ (lv_seen _ _ _ _ _ L1)) as Hfr.
    rewrite -Ex in Hx1, Hx2. change nmeta with 59 in *. pose proof (lv_seen _ _ _ _ _ L1) as Hsn.
    assert (x ≠ sb_bmapstart img_sb) as H58 by (change (sb_bmapstart img_sb) with 58; lia).
    apply wp_bind, (rsect_wp s1 v1); [done|lia|done|].
    apply wp_bind, (wsect_wp s1 v1); [done|lia|done| |].
    { rewrite length_splice; rewrite (sn_size _ _ Hsn) //. pose proof (Z.mul_div_le off BSIZE ltac:(done)) as Hle2. fold fbn in Hle2. change BSIZE with 512 in *. lia. }
    intros s2 Ef Ei Hsn2. rewrite Ex in Hsn2.
    apply (HQ s2 (upd v1 (slot v1 di1 (fslot fbn)) (splice (Z.to_nat (off - fbn * BSIZE)) p (v1 (slot v1 di1 (fslot fbn))))) di1).
    destruct (write_ok img_fs _ img_geom v1 di1 fbn (splice (Z.to_nat (off - fbn * BSIZE)) p (v1 (slot v1 di1 (fslot fbn)))) (lv_ok _ _ _ _ _ L1) Hf Hs) as (Wok&Wev&_&_&Wb).
    destruct G1 as [Gev Gb Gf Gi]. split.
    + split; [done..|]. destruct (lv_tight _ _ _ _ _ L1) as [T1 T2]. split.
      * intros bn Hbn. destruct (fslot_range bn Hbn) as [Hbs _]. rewrite (slot_write img_fs) //; [apply L1|by apply T1].
      * rewrite (slot_write img_fs) //. apply L1.
    + exact (evolves_trans _ _ img_geom _ _ _ _ _ _ Gev Wev).
    + replace (off - fbn * BSIZE) with (off mod BSIZE) in Wb |- * by (rw /fbn; change BSIZE with 512; Z.div_mod_to_equations; lia).
      apply splice_byte; [done|rw /fbn in Hlen; change BSIZE with 512 in *; Z.div_mod_to_equations; lia| |].
      * intros k _. rw /fblock. destruct (_ =? 0); [done|]. apply (sn_size _ _ (lv_seen _ _ _ _ _ Hl)).
      * intros k Hk. rewrite Wb // Gb //. fold fbn. destruct (Z.eqb_spec k fbn) as [->|]; [|done]. f_equal.
        rewrite -Gb // /fblock. by destruct (Z.eqb_spec (slot v1 di1 (fslot fbn)) 0).
    + rw /bcost. lia.
    + congruence.
Qed.

Lemma iappend_loop_wp fuel : ∀ s v di off p,
  live s v di (nblk off) (has_ind (nblk off)) → 0 ≤ off → off + Z.of_nat (length p) ≤ MAXFILE * BSIZE → (length p < fuel)%nat →
  freeblock s + (bcost (off + Z.of_nat (length p)) - bcost off) ≤ FSSIZE →
  wp (iappend_loop fuel di off p) s (λ r s1, r.2 = off + Z.of_nat (length p) ∧ ∃ v1, appended s v di off p s1 v1 r.1).
Proof.
  induction fuel as [|fuel IH]; intros s v di off p Hl Ho Hmax Hf Hroom; [lia|]. cbn [iappend_loop].
  destruct (decide (p = [])) as [->|Hp].
  { apply wp_ret. split; [simpl; lia|]. exists v. by apply appended_nil. }
  set (n1 := Z.min (Z.of_nat (length p)) ((off / BSIZE + 1) * BSIZE - off)).
  assert (0 < Z.of_nat (length p)) by (destruct p; [done|simpl; lia]).
  assert (off / BSIZE < MAXFILE ∧ 0 < n1 ≤ Z.of_nat (length p)) as [Hfb Hn].
  { rw /n1. change BSIZE with 512 in *. change MAXFILE with 140 in *. Z.div_mod_to_equations; lia. }
  replace (match p with [] => mret (di, off) | _ :: _ => _ end) with
    (if MAXFILE <=? off / BSIZE then panic "assert"
     else r ← block_for di (off / BSIZE); let '(di, x) := r in
          buf ← rsect x; _ ← wsect x (splice (Z.to_nat (off - off / BSIZE * BSIZE)) (take (Z.to_nat n1) p) buf);
          iappend_loop fuel di (off + n1) (drop (Z.to_nat n1) p)) by (by destruct p).
  destruct (Z.leb_spec MAXFILE (off / BSIZE)); [lia|].
  assert (Z.of_nat (length (take (Z.to_nat n1) p)) = n1) as Et by (rewrite length_take; lia).
  assert (Z.of_nat (length (drop (Z.to_nat n1) p)) = Z.of_nat (length p) - n1) as Ed by (rewrite length_drop; lia).
  pose proof (bcost_mono (off + n1) (off + Z.of_nat (length p)) ltac:(lia)).
  apply (append_block s v di off (take (Z.to_nat n1) p) (λ di, iappend_loop fuel di (off + n1) (drop (Z.to_nat n1) p))); rewrite ?Et; [done..| |lia|lia|lia|].
  { intros E. rewrite E in Et. simpl in Et. lia. }
  intros s1 v1 di1 A1. pose proof (ap_live _ _ _ _ _ _ _ _ A1) as L1. pose proof (ap_free _ _ _ _ _ _ _ _ A1) as F1. rewrite Et in L1, F1.
  refine (wp_mono _ _ _ _ (IH s1 v1 di1 (off + n1) (drop (Z.to_nat n1) p) L1 ltac:(lia) ltac:(lia) ltac:(lia) _) _).
  { rewrite Ed. replace (off + n1 + (Z.of_nat (length p) - n1)) with (off + Z.of_nat (length p)) by lia. lia. }
  intros r s2 [Er (v2&A2)]. rewrite Ed in Er. split; [lia|]. exists v2. rewrite -(take_drop (Z.to_nat n1) p).
  eapply appended_app; [done|exact A1|]. by rewrite Et.
Qed.

(** ** The files on the disk *)

(** Inode [di] holds the bytes [data]; the rest of its last block is zero. *)
Record mfile (v : Z → block) (t : Z) (data : list Z) (di : dinode) : Prop := {
  mf_ok : file_ok v img_sb di;
  mf_meta : di_type di = t ∧ di_major di = 0 ∧ di_minor di = 0 ∧ di_nlink di = 1;
  mf_size : di_size di = Z.of_nat (length data);
  mf_tight : let nb := nblk (Z.of_nat (length data)) in tight v di nb (has_ind nb);
  mf_byte : ∀ q, 0 ≤ q < MAXFILE * BSIZE → fbyte v di q = default 0 (data !! Z.to_nat q)
}.

Lemma fbyte_ext v v' di di' q :
  (∀ bn, 0 ≤ bn < MAXFILE → fblock v' di' bn = fblock v di bn) → 0 ≤ q < MAXFILE * BSIZE → fbyte v' di' q = fbyte v di q.
Proof.
  intros Hb Hq. rw /fbyte Hb //. change BSIZE with 512 in *. change MAXFILE with 140 in *. Z.div_mod_to_equations; lia.
Qed.
Lemma tight_ext v v' di di' nb ind :
  (∀ j, 0 ≤ j < NSLOT → slot v' di' j = slot v di j) → tight v di nb ind → tight v' di' nb ind.
Proof.
  intros Hs [H1 H2]. split; [intros bn Hbn|]; rw Hs //; [by apply fslot_range|by apply H1].
Qed.

Lemma mfile_contents v t data di : mfile v t data di → contents v di = data.
Proof.
  intros H. rw /contents (mf_size _ _ _ _ H). apply list_eq. intros k. rw list_lookup_fmap /range.
  pose proof (fo_size _ _ _ (mf_ok _ _ _ _ H)) as Hs. rw (mf_size _ _ _ _ H) in Hs.
  destruct (decide (k < length data)%nat) as [Hk|Hk].
  - rw lookup_seqZ_lt; [lia|]. simpl. rw (mf_byte _ _ _ _ H); [lia|]. destruct (lookup_lt_is_Some_2 data k Hk) as [x Hx].
    replace (Z.to_nat (0 + Z.of_nat k)) with k by lia. by rw Hx.
  - rw lookup_seqZ_ge; [lia|]. symmetry. apply lookup_ge_None. lia.
Qed.

Lemma apart_sym v di di2 : apart v di di2 → apart v di2 di.
Proof. intros H j k Hj Hk H0 E. apply (H k j Hk Hj); congruence. Qed.

(** Blocks of the file did not change. *)
Lemma mfile_frame v v' t data di :
  mfile v t data di → (∀ b, is_data img_sb b → used v img_sb b = true → used v' img_sb b = true) →
  (∀ j, 0 ≤ j < NSLOT → slot v di j ≠ 0 → v' (slot v di j) = v (slot v di j)) →
  mfile v' t data di ∧ ∀ j, 0 ≤ j < NSLOT → slot v' di j = slot v di j.
Proof.
  intros [Hok Hm Hsz Ht Hb] Hu Hv. destruct (file_frame _ _ _ _ Hok Hu Hv) as (Ok'&Hs&Hbl). split; [|done].
  split; [done..| |].
  - exact (tight_ext _ _ _ _ _ _ Hs Ht).
  - intros q Hq. rw (fbyte_ext v v' di di) //. by apply Hb.
Qed.

(** The files [fs], type and bytes, in the inodes [D]. *)
Record files (v : Z → block) (fs : list (Z * list Z)) (D : list dinode) : Prop := {
  fl_len : length D = length fs;
  fl_file : ∀ k t data di, fs !! k = Some (t, data) → D !! k = Some di → mfile v t data di;
  fl_apart : ∀ k l a b, k ≠ l → D !! k = Some a → D !! l = Some b → apart v a b
}.

Lemma files_lookup v fs D k di : files v fs D → D !! k = Some di → ∃ t data, fs !! k = Some (t, data) ∧ mfile v t data di.
Proof.
  intros H Hk. destruct (lookup_lt_is_Some_2 fs k) as [[t data] Hf].
  { rw -(fl_len _ _ _ H). exact (lookup_lt_Some _ _ _ Hk). }
  exists t, data. split; [done|]. exact (fl_file _ _ _ H _ _ _ _ Hf Hk).
Qed.

Lemma files_frame v v' fs D :
  files v fs D → (∀ b, is_data img_sb b → used v img_sb b = true → used v' img_sb b = true) →
  (∀ k di j, D !! k = Some di → 0 ≤ j < NSLOT → slot v di j ≠ 0 → v' (slot v di j) = v (slot v di j)) →
  files v' fs D.
Proof.
  intros H Hu Hv. assert (∀ k di, D !! k = Some di → ∀ j, 0 ≤ j < NSLOT → slot v' di j = slot v di j) as Hs.
  { intros k di Hk. destruct (files_lookup _ _ _ _ _ H Hk) as (t&data&_&Hm). apply (mfile_frame v v' t data di Hm Hu).
    intros j. by apply (Hv k). }
  split; [apply H|..].
  - intros k t data di Hf Hk. apply (mfile_frame v); [by apply (fl_file _ _ _ H k)|done|]. intros j. by apply (Hv k).
  - intros k l a b Hkl Ha Hb i j Hi Hj. rw (Hs k a) // (Hs l b) //. by apply (fl_apart _ _ _ H k l).
Qed.

(** File [k] changes, the others stay. *)
Lemma files_evolve v fs D k di v1 di1 f :
  files v fs D → D !! k = Some di → evolves img_sb v di v1 di1 →
  ∀ di2, (∀ j, slot v1 di2 j = slot v1 di1 j) → mfile v1 f.1 f.2 di2 → files v1 (<[k := f]> fs) (<[k := di2]> D).
Proof.
  intros H Hk Hev di2 Hs2 Hm2. destruct (files_lookup _ _ _ _ _ H Hk) as (t&data&Hf&Hm). pose proof (lookup_lt_Some _ _ _ Hk) as Hlk.
  pose proof (lookup_lt_Some _ _ _ Hf) as Hlf. pose proof (mf_ok _ _ _ _ Hm) as Hok.
  assert (∀ l b, l ≠ k → D !! l = Some b →
    (∀ t' d', mfile v t' d' b → mfile v1 t' d' b) ∧ (∀ j, 0 ≤ j < NSLOT → slot v1 b j = slot v b j) ∧ apart v1 di2 b) as Hoth.
  { intros l b Hl Hb. destruct (files_lookup _ _ _ _ _ H Hb) as (t1&d1&_&Hm1).
    assert (apart v di b) as Ha by exact (fl_apart _ _ _ H k l _ _ (not_eq_sym Hl) Hk Hb).
    destruct (evolves_others _ _ img_geom v di v1 di1 b Hev Hok (mf_ok _ _ _ _ Hm1) Ha) as (_&Ha1&_).
    assert (∀ t' d', mfile v t' d' b → mfile v1 t' d' b ∧ ∀ j, 0 ≤ j < NSLOT → slot v1 b j = slot v b j) as Hfr.
    { intros t' d' Hm'. apply (mfile_frame v); [done| |].
      - intros x Hx Hu. apply (ev_used _ _ _ _ _ Hev x Hx). by left.
      - intros j Hj H0. destruct (fo_data _ _ _ (mf_ok _ _ _ _ Hm1) j Hj H0) as [Hd Hu].
        apply (ev_frame _ _ _ _ _ Hev); [by apply (data_pos _ _ img_geom)|done|]. intros i Hi E _. apply (Ha i j Hi Hj); congruence. }
    split_and!; [intros ?? Hx; by apply Hfr|by apply (Hfr t1 d1)|]. intros i j Hi Hj. rw Hs2. by apply Ha1. }
  split.
  - rw !length_insert. apply H.
  - intros l t' d' b Hfl Hb. destruct (decide (l = k)) as [->|Hl].
    + rw list_lookup_insert_eq // in Hfl. rw list_lookup_insert_eq // in Hb. by simplify_eq.
    + rewrite list_lookup_insert_ne in Hfl; [congruence|]. rewrite list_lookup_insert_ne in Hb; [congruence|].
      apply (Hoth l b Hl Hb). exact (fl_file _ _ _ H _ _ _ _ Hfl Hb).
  - intros i j a b Hij Ha Hb.
    apply list_lookup_insert_Some in Ha as [(<-&<-&_)|[Hi Ha]]; apply list_lookup_insert_Some in Hb as [(<-&<-&_)|[Hj Hb]]; [done|..].
    + by apply (Hoth j b (not_eq_sym Hj)).
    + apply apart_sym. by apply (Hoth i a (not_eq_sym Hi)).
    + destruct (Hoth i a (not_eq_sym Hi) Ha) as (_&S1&_), (Hoth j b (not_eq_sym Hj) Hb) as (_&S2&_). intros x y Hx Hy. rw S1 // S2 //.
      by apply (fl_apart _ _ _ H i j).
Qed.

(** *** Inodes on the disk *)

Definition dinode_at (v : Z → block) (n : Z) : dinode := disk_inode (v (IBLOCK n img_sb)) n.
Definition no_inode : dinode := Dinode 0 0 0 0 0 (replicate 13 0).

Lemma iblock_bounds n : 0 ≤ n < NINODES → 32 ≤ IBLOCK n img_sb < 58.
Proof. intros H. exact (iblock_range _ _ img_geom n H). Qed.

Lemma rinode_wp s v n (Q : dinode → mkfs → Prop) :
  seen s v → 0 ≤ n < NINODES → Q (dinode_at v n) s → wp (rinode n) s Q.
Proof.
  intros Hs Hn HQ. pose proof (iblock_bounds n Hn) as Hb. rw /rinode mk_sb_eq.
  apply wp_bind, (rsect_wp s v); [done|change FSSIZE with 1000; lia|change (sb_bmapstart img_sb) with 58; lia|]. by apply wp_ret.
Qed.
Lemma winode_wp s v n di (Q : unit → mkfs → Prop) :
  seen s v → 0 ≤ n < NINODES → length (di_addrs di) = 13%nat →
  (∀ s', freeblock s' = freeblock s → freeinode s' = freeinode s → seen s' (inode_view img_sb v n di) → Q tt s') →
  wp (winode n di) s Q.
Proof.
  intros Hs Hn Hl HQ. pose proof (iblock_bounds n Hn) as Hb. rw /winode mk_sb_eq. pose proof (sn_free _ _ Hs) as Hf. change nmeta with 59 in Hf.
  apply wp_bind, (rsect_wp s v); [done|change FSSIZE with 1000; lia|change (sb_bmapstart img_sb) with 58; lia|].
  apply (wsect_wp s v); [done|lia|change (sb_bmapstart img_sb) with 58; lia| |done].
  rewrite length_splice; rewrite (sn_size _ _ Hs) // length_put_dinode //. apply ioff_room. lia.
Qed.

(** The blocks the files take. *)
Fixpoint blocks_of (fs : list (Z * list Z)) : Z :=
  match fs with [] => 0 | f :: fs => bcost (Z.of_nat (length f.2)) + blocks_of fs end.

Lemma blocks_of_app fs gs : blocks_of (fs ++ gs) = blocks_of fs + blocks_of gs.
Proof. induction fs as [|f fs IH]; [done|]. simpl. lia. Qed.
Lemma blocks_of_insert fs k f g : fs !! k = Some f →
  blocks_of (<[k := g]> fs) = blocks_of fs + (bcost (Z.of_nat (length g.2)) - bcost (Z.of_nat (length f.2))).
Proof.
  revert k. induction fs as [|h fs IH]; intros [|k] Hk; simplify_eq/=; [lia|]. rw (IH k) //. lia.
Qed.

(** What is on the disk before the data. *)
Definition low_blocks (v : Z → block) : Prop :=
  v 1 = put_superblock img_sb zero_block ∧ ∀ n, n = 0 ∨ 2 ≤ n < 32 → v n = zero_block.

(** The state between the operations: the files [fs] are on the disk, in inodes 1, 2, ... *)
Record built (s : mkfs) (v : Z → block) (fs : list (Z * list Z)) (D : list dinode) : Prop := {
  bu_seen : seen s v;
  bu_inodes : freeinode s = 1 + Z.of_nat (length fs);
  bu_room : Z.of_nat (length fs) < NINODES;
  bu_types : Forall (λ f, 0 ≤ f.1 < 4) fs;
  bu_free : freeblock s = nmeta + blocks_of fs;
  bu_files : files v fs D;
  bu_disk : ∀ n, 0 ≤ n < NINODES → dinode_at v n = if n =? 0 then no_inode else default no_inode (D !! Z.to_nat (n - 1));
  bu_low : low_blocks v
}.

Lemma inode_view_files v n di fs D : 0 ≤ n < NINODES → files v fs D → files (inode_view img_sb v n di) fs D.
Proof.
  intros Hn H. apply (files_frame v); [done| |].
  - intros b Hb Hu. rw (inode_view_used _ _ img_geom) //. apply (data_pos _ _ img_geom) in Hb. lia.
  - intros k di2 j Hk Hj H0. destruct (files_lookup _ _ _ _ _ H Hk) as (t&data&_&Hm).
    destruct (fo_data _ _ _ (mf_ok _ _ _ _ Hm) j Hj H0) as [Hd _]. rw /inode_view upd_ne //.
    apply (iblock_other _ _ img_geom); auto.
Qed.
Lemma inode_view_low v n di : 0 ≤ n < NINODES → low_blocks v → low_blocks (inode_view img_sb v n di).
Proof.
  intros Hn [H1 H2]. pose proof (iblock_bounds n Hn). split; [|intros m Hm]; rw /inode_view upd_ne; [lia|done|lia|by apply H2].
Qed.
Lemma dinode_at_view v m di n :
  0 ≤ m → 0 ≤ n → dinode_ok di → (∀ b, length (v b) = Z.to_nat BSIZE) →
  dinode_at (inode_view img_sb v m di) n = if n =? m then di else dinode_at v n.
Proof. intros Hm Hn Hd Hl. by apply disk_inode_view. Qed.

Lemma mfile_shorts v t data di : mfile v t data di → 0 ≤ t < 4 → shorts di.
Proof.
  intros H Ht. destruct (mf_meta _ _ _ _ H) as (E1&E2&E3&E4). rw /shorts E1 E2 E3 E4. repeat constructor; lia.
Qed.

Lemma evolves_low v di v1 di1 : file_ok v img_sb di → evolves img_sb v di v1 di1 → low_blocks v → low_blocks v1.
Proof.
  intros Hok Hev [H1 H2]. assert (∀ n, 0 ≤ n < 32 → v1 n = v n) as Hn.
  { intros n Hn. apply (ev_frame _ _ _ _ _ Hev).
    - rw elem_bm. change (sb_bmapstart img_sb) with 58. lia.
    - intros [Hd _]. change (dstart img_sb) with 59 in Hd. lia.
    - intros j _ _ [Hd _]. change (dstart img_sb) with 59 in Hd. lia. }
  split; [|intros m Hm]; rw Hn; [lia|done|lia|by apply H2].
Qed.

Lemma mfile_append s v t data di p s1 v1 di1 :
  mfile v t data di → Z.of_nat (length data) + Z.of_nat (length p) ≤ MAXFILE * BSIZE →
  appended s v di (Z.of_nat (length data)) p s1 v1 di1 →
  mfile v1 t (data ++ p) (set_size (Z.of_nat (length data) + Z.of_nat (length p)) di1).
Proof.
  intros H Hmax [L1 E1 B1 _ _]. assert (Z.of_nat (length (data ++ p)) = Z.of_nat (length data) + Z.of_nat (length p)) as El by (rewrite length_app; lia).
  destruct (ev_meta _ _ _ _ _ E1) as (M1&M2&M3&M4&_). destruct (mf_meta _ _ _ _ H) as (N1&N2&N3&N4).
  destruct L1 as [_ Ok1 T1]. split.
  - destruct Ok1 as [Hl Hd Hi _ _]. split; [done..| |]; cbn [di_size set_size]; [lia|]. intros bn Hbn Hlt.
    apply (proj1 T1 bn); [change BSIZE with 512 in *; lia|]. rw /nblk. change BSIZE with 512 in *. Z.div_mod_to_equations; lia.
  - cbn [di_type di_major di_minor di_nlink set_size]. split_and!; congruence.
  - by rw El.
  - rw El. exact T1.
  - intros q Hq. change (fbyte v1 (set_size (Z.of_nat (length data) + Z.of_nat (length p)) di1) q) with (fbyte v1 di1 q).
    rw B1 // (mf_byte _ _ _ _ H) //. destruct (Z.leb_spec (Z.of_nat (length data)) q), (Z.ltb_spec q (Z.of_nat (length data) + Z.of_nat (length p))); simpl.
    + rewrite lookup_app_r; [lia|]. do 2 f_equal. lia.
    + rewrite !(proj2 (lookup_ge_None _ _)) //; rewrite ?length_app; lia.
    + rewrite lookup_app_l //. lia.
    + lia.
Qed.

(** An inode without blocks joins. *)
Lemma files_snoc v fs D t di :
  files v fs D → mfile v t [] di → (∀ j, slot v di j = 0) → files v (fs ++ [(t, [])]) (D ++ [di]).
Proof.
  intros H Hm H0. pose proof (fl_len _ _ _ H) as Hl.
  assert (∀ b, apart v di b) as Ha by (intros b j k _ _ Hne; by rw H0 in Hne).
  split.
  - rewrite !length_app Hl. done.
  - intros k t' data b [[Hk Hf]|[Hk Hf]]%lookup_snoc_Some [[Hj Hb]|[Hj <-]]%lookup_snoc_Some; simplify_eq; try lia.
    + exact (fl_file _ _ _ H _ _ _ _ Hf Hb).
    + done.
  - intros k l a b Hkl [[Hk Hx]|[Hk <-]]%lookup_snoc_Some [[Hj Hy]|[Hj <-]]%lookup_snoc_Some; [by apply (fl_apart _ _ _ H k l)|by apply apart_sym|done..].
Qed.

Definition is_built fs (s : mkfs) : Prop := ∃ v D, built s v fs D.

(** A new inode. *)
Lemma ialloc_wp s fs t :
  is_built fs s → Z.of_nat (length fs) + 1 < NINODES → 0 ≤ t < 4 →
  wp (mk_ialloc t) s (λ r s', r = 1 + Z.of_nat (length fs) ∧ is_built (fs ++ [(t, [])]) s').
Proof.
  intros (v&D&[Hs Hi Hr Hty Hf Hfl Hd Hlo]) Hroom Ht. rw /mk_ialloc. apply wp_bind, wp_get, wp_bind, wp_put, wp_bind.
  set (n := freeinode s) in *. set (di := Dinode (xshort t) 0 0 (xshort 1) (xint 0) (replicate 13 0)).
  assert (0 ≤ n < NINODES) as Hn by lia. assert (di = Dinode t 0 0 1 0 (replicate 13 0)) as Edi.
  { rw /di. f_equal. apply unle_le. lia. }
  apply (winode_wp _ v); [by destruct Hs|done|done|]. cbn [freeblock freeinode]. intros s1 Ef Ei Hs1. apply wp_ret. split; [lia|].
  assert (dinode_ok di) as Hok by (rw Edi; split; cbn; first [lia|done|repeat constructor; lia]).
  pose proof (fl_len _ _ _ Hfl) as Hlen. assert (∀ w j, slot w di j = 0) as Hs0.
  { intros w j. assert (∀ k, addr di k = 0) as Ha by (intros k; rw /addr /di; apply lookup_replicate_default).
    rw /slot !Ha. by destruct (j <=? NDIRECT). }
  exists (inode_view img_sb v n di), (D ++ [di]). split.
  - done.
  - rewrite length_app /=. lia.
  - rewrite length_app /=. lia.
  - apply Forall_app. auto.
  - rw blocks_of_app Ef Hf /=. change (bcost (Z.of_nat 0)) with 0. lia.
  - apply files_snoc; [by apply inode_view_files| |intros j; apply Hs0]. rw Edi in Hs0 |- *. split.
    + split; [done|intros j _ H0; by rw Hs0 in H0|intros j k _ _ H0; by rw Hs0 in H0|done|]. cbn [di_size]. intros bn. change BSIZE with 512. lia.
    + done.
    + done.
    + split; [intros bn Hbn|]; rw Hs0; [|done]. split; [done|]. change (nblk (Z.of_nat (length []))) with 0. lia.
    + intros q Hq. rw /fbyte /fblock Hs0 /=. apply lookup_replicate_default.
  - intros m Hm. rw dinode_at_view //; [lia|by apply Hm|apply Hs|]. rw Hd //. destruct (Z.eqb_spec m n) as [->|Hne].
    + destruct (Z.eqb_spec n 0); [lia|]. rewrite lookup_app_r; [lia|]. by replace (Z.to_nat (n - 1) - length D)%nat with 0%nat by lia.
    + destruct (Z.eqb_spec m 0); [done|]. destruct (decide (m < n)); [by rewrite lookup_app_l; [lia|]|].
      rewrite !(proj2 (lookup_ge_None _ _)) //; rewrite ?length_app /=; lia.
  - by apply inode_view_low.
Qed.

(** Bytes are appended to file [k]. *)
Lemma iappend_wp s fs k t data p :
  is_built fs s → fs !! k = Some (t, data) → Z.of_nat (length data) + Z.of_nat (length p) ≤ MAXFILE * BSIZE →
  nmeta + blocks_of (<[k := (t, data ++ p)]> fs) ≤ FSSIZE →
  wp (iappend (1 + Z.of_nat k) p) s (λ _ s', is_built (<[k := (t, data ++ p)]> fs) s').
Proof.
  intros (v&D&[Hs Hi Hr Hty Hf Hfl Hd Hlo]) Hk Hmax Hroom. set (n := 1 + Z.of_nat k). pose proof (lookup_lt_Some _ _ _ Hk) as Hlt.
  assert (0 ≤ n < NINODES) as Hn by lia. destruct (lookup_lt_is_Some_2 D k) as [di HD]; [by rw (fl_len _ _ _ Hfl)|].
  pose proof (fl_file _ _ _ Hfl _ _ _ _ Hk HD) as Hm. assert (dinode_at v n = di) as Edi.
  { rw Hd //. destruct (Z.eqb_spec n 0); [lia|]. replace (Z.to_nat (n - 1)) with k by lia. by rw HD. }
  assert (Z.of_nat (length (data ++ p)) = Z.of_nat (length data) + Z.of_nat (length p)) as El by (rewrite length_app; lia).
  rewrite (blocks_of_insert fs k (t, data)) // in Hroom. cbn [snd] in Hroom. rw El in Hroom.
  rw /iappend. apply wp_bind, (rinode_wp s v); [done..|]. rw Edi (mf_size _ _ _ _ Hm). change (MAXFILE * BSIZE) with 71680 in Hmax.
  rw xint_id; [lia|]. apply wp_bind. refine (wp_mono _ _ _ _ (iappend_loop_wp _ s v di _ p _ _ _ _ _) _); try lia.
  { split; [done|apply Hm|apply Hm]. }
  { done. }
  intros [di1 off] s1 [Eo (v1&A1)]. cbn [fst snd] in *. rw Eo xint_id; [lia|]. pose proof (mfile_append _ _ _ _ _ _ _ _ _ Hm Hmax A1) as Hm1.
  set (di2 := set_size _ di1) in *. pose proof (ap_ev _ _ _ _ _ _ _ _ A1) as Ev1.
  pose proof (files_evolve v fs D k di v1 di1 (t, data ++ p) Hfl HD Ev1 di2 (λ j, eq_refl) Hm1) as Fl1.
  pose proof (lv_seen _ _ _ _ _ (ap_live _ _ _ _ _ _ _ _ A1)) as Hs1.
  assert (dinode_ok di2) as Hok2.
  { apply (file_dinode_ok _ _ img_geom v1); [apply Hm1|]. apply (mfile_shorts _ _ _ _ Hm1). exact (proj1 (Forall_lookup _ _) Hty _ _ Hk). }
  apply (winode_wp s1 v1); [done..|apply Hok2|]. intros s2 Ef Ei Hs2. exists (inode_view img_sb v1 n di2), (<[k := di2]> D). split.
  - done.
  - rw length_insert Ei (ap_inode _ _ _ _ _ _ _ _ A1) //.
  - by rw length_insert.
  - apply Forall_insert; [done|]. exact (proj1 (Forall_lookup _ _) Hty _ _ Hk).
  - rewrite (blocks_of_insert fs k (t, data)) // Ef (ap_free _ _ _ _ _ _ _ _ A1) Hf. cbn [snd]. rw El. lia.
  - by apply inode_view_files.
  - intros m Hm'. rw dinode_at_view //; [lia|by apply Hm'|apply Hs1|].
    assert (dinode_at v1 m = dinode_at v m) as -> by (by rewrite /dinode_at (evolves_inodes img_fs _ img_geom _ _ _ _ m Ev1 Hm')).
    rw Hd //. destruct (Z.eqb_spec m n) as [->|Hne].
    + destruct (Z.eqb_spec n 0); [lia|]. replace (Z.to_nat (n - 1)) with k by lia. rewrite list_lookup_insert_eq //. by rw (fl_len _ _ _ Hfl).
    + destruct (Z.eqb_spec m 0); [done|]. rewrite list_lookup_insert_ne //. lia.
  - apply inode_view_low; [done|]. exact (evolves_low _ _ _ _ (mf_ok _ _ _ _ Hm) Ev1 Hlo).
Qed.

(** ** The program *)

Lemma append_file_wp fuel : ∀ s fs k t data b,
  is_built fs s → fs !! k = Some (t, data) → Z.of_nat (length data) + Z.of_nat (length b) ≤ MAXFILE * BSIZE → (length b < fuel)%nat →
  nmeta + blocks_of (<[k := (t, data ++ b)]> fs) ≤ FSSIZE →
  wp (append_file fuel (1 + Z.of_nat k) b) s (λ _ s', is_built (<[k := (t, data ++ b)]> fs) s').
Proof.
  induction fuel as [|fuel IH]; intros s fs k t data b Hb Hk Hmax Hf Hroom; [lia|]. cbn [append_file].
  destruct (decide (b = [])) as [->|Hne].
  { rewrite take_nil. apply wp_ret. by rewrite app_nil_r list_insert_id. }
  set (c := Z.to_nat BSIZE) in *. assert (0 < length (take c b))%nat as Hc by (destruct b; [done|simpl; lia]).
  replace (match take c b with [] => mret tt | _ :: _ => _ end) with (_ ← iappend (1 + Z.of_nat k) (take c b); append_file fuel (1 + Z.of_nat k) (drop c b))
    by (by destruct (take c b); [simpl in Hc; lia|]).
  assert (data ++ b = (data ++ take c b) ++ drop c b) as Ed by (rewrite -app_assoc take_drop //). rewrite Ed in Hroom |- *.
  assert (length b = length (take c b) + length (drop c b))%nat as El by (rewrite -{1}(take_drop c b) length_app //). pose proof (lookup_lt_Some _ _ _ Hk) as Hlt.
  apply wp_bind. refine (wp_mono _ _ _ _ (iappend_wp s fs k t data (take c b) Hb Hk ltac:(lia) _) _).
  { etrans; [|exact Hroom]. rewrite !(blocks_of_insert fs k (t, data)) //. cbn [snd].
    pose proof (bcost_mono (Z.of_nat (length (data ++ take c b))) (Z.of_nat (length ((data ++ take c b) ++ drop c b)))) as Hm.
    rewrite !length_app in Hm |- *. lia. }
  intros _ s1 Hb1. rewrite -(list_insert_insert_eq fs k _ (t, data ++ take c b)) in Hroom |- *. refine (IH s1 _ k t _ _ Hb1 _ _ _ Hroom).
  - by rewrite list_lookup_insert_eq.
  - rewrite length_app. lia.
  - lia.
Qed.

Lemma length_name14 name : length (name14 name) = 14%nat.
Proof. rewrite /name14 length_app length_take length_replicate. lia. Qed.
Lemma length_dir_entry n name : length (dir_entry n name) = 16%nat.
Proof. exact (length_put_dirent (Dirent (xshort n) (name14 name)) (length_name14 name)). Qed.

(** The bytes of the directory for the files from inode [n] on. *)
Fixpoint dir_bytes (n : Z) (fl : list (list Z * list Z)) : list Z :=
  match fl with [] => [] | f :: fl => dir_entry n (strip f.1) ++ dir_bytes (n + 1) fl end.
Definition as_files (fl : list (list Z * list Z)) : list (Z * list Z) := (λ f, (T_FILE, f.2)) <$> fl.
(** A file mkfs can take. *)
Definition fits (f : list Z * list Z) : Prop := SLASH_CH ∉ f.1 ∧ Z.of_nat (length f.2) ≤ MAXFILE * BSIZE.

Lemma length_dir_bytes fl n : length (dir_bytes n fl) = (16 * length fl)%nat.
Proof. revert n. induction fl as [|f fl IH]; intros n; [done|]. cbn [dir_bytes]. rewrite length_app length_dir_entry IH. simpl. lia. Qed.
Lemma bcost_pos n : 0 ≤ n → 0 ≤ bcost n.
Proof. intros H. change 0 with (bcost 0). by apply bcost_mono. Qed.
Lemma blocks_of_pos fs : 0 ≤ blocks_of fs.
Proof. induction fs as [|f fs IH]; [done|]. simpl. pose proof (bcost_pos (Z.of_nat (length f.2))). lia. Qed.

Lemma add_file_wp s d fs f :
  is_built ((T_DIR, d) :: fs) s → fits f → Z.of_nat (length fs) + 2 < NINODES → Z.of_nat (length d) + 16 ≤ MAXFILE * BSIZE →
  let n := 2 + Z.of_nat (length fs) in
  let r := (T_DIR, d ++ dir_entry n (strip f.1)) :: fs ++ [(T_FILE, f.2)] in
  nmeta + blocks_of r ≤ FSSIZE → wp (add_file ROOTINO f) s (λ _ s', is_built r s').
Proof.
  intros Hb [Hs Hl] Hn Hd n r Hroom. destruct f as [name b]. cbn [fst snd] in *. rw /add_file. rewrite bool_decide_false //.
  apply wp_bind. refine (wp_mono _ _ _ _ (ialloc_wp s _ T_FILE Hb _ _) _); [simpl; lia|done|].
  intros i s1 [Ei Hb1]. assert (i = n) as -> by (simpl in Ei; lia). cbn [app] in Hb1.
  pose proof (bcost_pos (Z.of_nat (length b)) ltac:(lia)) as Hbp.
  apply wp_bind. refine (wp_mono _ _ _ _ (iappend_wp s1 _ 0 T_DIR d (dir_entry n (strip name)) Hb1 eq_refl _ _) _).
  - rewrite length_dir_entry. lia.
  - rewrite /r /= !blocks_of_app /= in Hroom |- *. change (bcost (Z.of_nat 0)) with 0. lia.
  - intros _ s2 Hb2. cbn [insert list_insert] in Hb2. set (fs2 := (T_DIR, _) :: _) in Hb2.
    assert (<[S (length fs) := (T_FILE, [] ++ b)]> fs2 = r) as Er.
    { rewrite /fs2 /r /= -{1}(Nat.add_0_r (length fs)) insert_app_r //. }
    rewrite -Er in Hroom |- *. replace n with (1 + Z.of_nat (S (length fs))) by lia.
    refine (append_file_wp _ s2 fs2 (S (length fs)) T_FILE [] b Hb2 _ _ _ Hroom); [|simpl; lia|lia].
    rewrite /fs2 /=. by apply list_lookup_middle.
Qed.

Lemma add_files_wp fl : ∀ s d fs,
  is_built ((T_DIR, d) :: fs) s → Forall fits fl → Z.of_nat (length fs) + Z.of_nat (length fl) + 1 < NINODES →
  let r := (T_DIR, d ++ dir_bytes (2 + Z.of_nat (length fs)) fl) :: fs ++ as_files fl in
  Z.of_nat (length d) + 16 * Z.of_nat (length fl) ≤ MAXFILE * BSIZE → nmeta + blocks_of r ≤ FSSIZE →
  wp (for_each fl (add_file ROOTINO)) s (λ _ s', is_built r s').
Proof.
  induction fl as [|f fl IH]; intros s d fs Hb Hfit Hn r Hd Hroom; cbn [for_each].
  { apply wp_ret. by rewrite /r /= !app_nil_r. }
  apply Forall_cons in Hfit as [Hf Hfit]. cbn [length] in Hn, Hd. set (n := 2 + Z.of_nat (length fs)) in *.
  assert (r = (T_DIR, (d ++ dir_entry n (strip f.1)) ++ dir_bytes (2 + Z.of_nat (length (fs ++ [(T_FILE, f.2)]))) fl) :: (fs ++ [(T_FILE, f.2)]) ++ as_files fl) as Er.
  { rewrite /r /= -!app_assoc length_app. cbn [length app]. by replace (2 + Z.of_nat (length fs + 1)) with (n + 1) by lia. }
  rewrite Er in Hroom |- *. apply wp_bind. refine (wp_mono _ _ _ _ (add_file_wp s d fs f Hb Hf _ _ _) _); [lia|lia| |].
  - etrans; [|exact Hroom]. cbn [blocks_of snd]. rewrite !blocks_of_app. pose proof (blocks_of_pos (as_files fl)).
    assert (∀ l1 l2 : list Z, bcost (Z.of_nat (length l1)) ≤ bcost (Z.of_nat (length (l1 ++ l2)))) as Hm
      by (intros l1 l2; apply bcost_mono; rewrite length_app; lia).
    specialize (Hm (d ++ dir_entry n (strip f.1)) (dir_bytes (2 + Z.of_nat (length (fs ++ [(T_FILE, f.2)]))) fl)).
    fold n. lia.
  - intros _ s1 Hb1. apply IH; [done|done|rewrite length_app; cbn [length]; lia|rewrite length_app length_dir_entry; lia|exact Hroom].
Qed.

(** ** The image *)

(** The entries of the root directory. *)
Fixpoint file_entries (n : Z) (fl : list (list Z * list Z)) : list dirent :=
  match fl with [] => [] | f :: fl => Dirent n (name14 (strip f.1)) :: file_entries (n + 1) fl end.
Definition root_entries (fl : list (list Z * list Z)) : list dirent :=
  Dirent 1 (name14 [46]) :: Dirent 1 (name14 [46; 46]) :: file_entries 2 fl.
Definition root_bytes (fl : list (list Z * list Z)) : list Z := dir_entry 1 [46] ++ dir_entry 1 [46; 46] ++ dir_bytes 2 fl.
(** The size the root directory gets at the end. *)
Definition root_size (fl : list (list Z * list Z)) : Z := (Z.of_nat (length (root_bytes fl)) / BSIZE + 1) * BSIZE.
(** The blocks in use. *)
Definition used_blocks (fl : list (list Z * list Z)) : Z :=
  nmeta + blocks_of ((T_DIR, root_bytes fl) :: as_files fl).

(** The disk [v] holds the files [fl]. *)
Record formatted (v : Z → block) (fl : list (list Z * list Z)) : Prop := {
  fm_super : get_superblock (v 1) = img_sb;
  fm_log : ∀ n, 2 ≤ n < 32 → v n = zero_block;
  fm_used : ∀ b, 0 ≤ b < FSSIZE → used v img_sb b = (b <? used_blocks fl);
  fm_root : let di := dinode_at v 1 in
    di_type di = T_DIR ∧ di_nlink di = 1 ∧ di_size di = root_size fl ∧
    entries v di = root_entries fl ++ replicate (Z.to_nat (root_size fl) / 16 - length (root_entries fl)) (Dirent 0 (replicate 14 0)) ∧
    (Z.of_nat (length fl) mod 32 ≠ 30 → file_ok v img_sb di);
  fm_file : ∀ i f, fl !! i = Some f → let di := dinode_at v (2 + Z.of_nat i) in
    di_type di = T_FILE ∧ di_nlink di = 1 ∧ file_ok v img_sb di ∧ contents v di = f.2;
  fm_apart : ∀ m n, 1 ≤ m ≤ 1 + Z.of_nat (length fl) → 1 ≤ n ≤ 1 + Z.of_nat (length fl) → m ≠ n →
    apart v (dinode_at v m) (dinode_at v n);
  fm_rest : ∀ n, 1 + Z.of_nat (length fl) < n < NINODES → dinode_at v n = no_inode
}.

Lemma clear_wp s (Hs : m_img s = ∅ ∧ m_len s = 0) :
  wp (for_each (range 0 FSSIZE) (λ i, wsect i zero_block)) s
    (λ _ s', (∀ n, rd (m_img s') n = zero_block) ∧ m_len s' = FSSIZE ∧ freeinode s' = freeinode s ∧ freeblock s' = freeblock s).
Proof.
  apply (wp_for_each _ _ (λ pre s', (∀ n, rd (m_img s') n = zero_block) ∧ m_len s' = Z.of_nat (length pre) ∧
    freeinode s' = freeinode s ∧ freeblock s' = freeblock s)).
  - destruct Hs as [E1 E2]. rw E1 E2. done.
  - intros pre i post s' El (H1&H2&H3&H4). assert (i = Z.of_nat (length pre)) as ->.
    { assert (range 0 FSSIZE !! length pre = Some i) as Hi by (rw El; by apply list_lookup_middle).
      rw /range in Hi. apply lookup_seqZ in Hi as [-> _]. lia. }
    apply wp_modify. cbn [m_img m_len freeinode freeblock]. split_and!; [|rewrite length_app /=; lia|done..].
    intros n. rw rd_insert. by destruct (decide _).
  - done.
Qed.

Lemma zero_inode n : 0 ≤ n → disk_inode zero_block n = no_inode.
Proof.
  intros Hn. pose proof (ioff_room n Hn) as Hr. change (Z.to_nat BSIZE) with 512%nat in Hr. change DINODE with 64%nat in Hr.
  rw /disk_inode /slice /zero_block drop_replicate take_replicate. change DINODE with 64%nat. change (Z.to_nat BSIZE) with 512%nat.
  by replace (64 `min` (512 - ioff n))%nat with 64%nat by lia.
Qed.

Lemma start_built s :
  (∀ n, rd (m_img s) n = zero_block) → m_len s = FSSIZE → freeinode s = 1 → freeblock s = nmeta →
  wp (wsect 1 (put_superblock mk_sb zero_block)) s (λ _ s', is_built [] s').
Proof.
  intros Hz Hl Hi Hf.
  assert (seen s (λ n, if n =? sb_bmapstart img_sb then bits (freeblock s) else zero_block)) as Hs.
  { change nmeta with 59 in Hf. split; [done|rw Hf; done| | |].
    - intros n. by rw Hz.
    - intros n. destruct (_ =? _); [|done]. apply length_bits. lia.
    - intros n Hn. change (sb_bmapstart img_sb) with 58. destruct (Z.eqb_spec n 58); [lia|done]. }
  apply (wsect_wp s _ _ _ _ Hs); [rw Hf; done|done|vm_compute; reflexivity|]. intros s' Ef Ei Hs'. eexists _, []. split; [exact Hs'|..].
  - by rw Ei Hi.
  - done.
  - constructor.
  - by rw Ef Hf.
  - split; [done|..]; intros; simplify_eq.
  - intros n Hn. rw /dinode_at. pose proof (iblock_bounds n Hn). rw upd_ne; [lia|].
    destruct (Z.eqb_spec (IBLOCK n img_sb) (sb_bmapstart img_sb)) as [E|_]; [change (sb_bmapstart img_sb) with 58 in E; lia|].
    rw zero_inode; [lia|]. by destruct (n =? 0).
  - split; [by rw upd_eq|]. intros n Hn. rw upd_ne; [lia|]. change (sb_bmapstart img_sb) with 58. destruct (Z.eqb_spec n 58); [lia|done].
Qed.

(** *** The end of the program *)

Lemma mfile_padded v t data di R :
  mfile v t data di → Z.of_nat (length data) ≤ R ≤ MAXFILE * BSIZE →
  contents v (set_size R di) = data ++ replicate (Z.to_nat R - length data) 0.
Proof.
  intros H HR. rw /contents. apply list_eq. intros k. rw list_lookup_fmap /range. cbn [di_size set_size].
  destruct (decide (k < Z.to_nat R)%nat) as [Hk|Hk].
  - rw lookup_seqZ_lt; [lia|]. simpl. change (fbyte v (set_size R di)) with (fbyte v di). rw (mf_byte _ _ _ _ H); [lia|].
    replace (Z.to_nat (0 + Z.of_nat k)) with k by lia. destruct (decide (k < length data)%nat) as [Hd|Hd].
    + rewrite lookup_app_l //. by destruct (lookup_lt_is_Some_2 data k Hd) as [x ->].
    + rewrite lookup_app_r; [lia|]. rewrite (proj2 (lookup_ge_None data k)); [lia|]. rewrite lookup_replicate_2 //. lia.
  - rw lookup_seqZ_ge; [lia|]. symmetry. apply lookup_ge_None. rewrite length_app length_replicate. lia.
Qed.

Lemma dirents_dir_entry n name : 0 ≤ n < 2 ^ 16 → dirents (dir_entry n name) = [Dirent n (name14 name)].
Proof.
  intros Hn. rw /dir_entry. assert (xshort n = n) as -> by (by apply unle_le). apply dirents_one; [done|apply length_name14].
Qed.
Lemma dirents_dir_bytes fl n : 0 ≤ n → n + Z.of_nat (length fl) < 2 ^ 16 → dirents (dir_bytes n fl) = file_entries n fl.
Proof.
  revert n. induction fl as [|f fl IH]; intros n Hn Hl; [done|]. cbn [dir_bytes file_entries length] in *.
  rewrite (dirents_app _ _ 1); [apply length_dir_entry|]. rewrite dirents_dir_entry; [lia|]. rewrite IH; [lia..|done].
Qed.
Lemma length_root_bytes fl : length (root_bytes fl) = (16 * (2 + length fl))%nat.
Proof. rewrite /root_bytes length_app length_dir_entry length_app length_dir_entry length_dir_bytes. lia. Qed.
Lemma length_file_entries fl n : length (file_entries n fl) = length fl.
Proof. revert n. induction fl as [|f fl IH]; intros n; [done|]. simpl. by rw IH. Qed.
Lemma dirents_zero n : dirents (replicate (16 * n) 0) = replicate n (Dirent 0 (replicate 14 0)).
Proof.
  induction n as [|n IH]; [done|]. replace (16 * S n)%nat with (16 + 16 * n)%nat by lia. rewrite replicate_add (dirents_app _ _ 1) // IH. done.
Qed.
Lemma dirents_root fl n :
  Z.of_nat (length fl) < NINODES → dirents (root_bytes fl ++ replicate (16 * n) 0) = root_entries fl ++ replicate n (Dirent 0 (replicate 14 0)).
Proof.
  intros Hl. change NINODES with 200 in Hl. rewrite (dirents_app _ _ (2 + length fl)); [apply length_root_bytes|]. rewrite dirents_zero. f_equal.
  rewrite /root_bytes (dirents_app (dir_entry 1 [46]) _ 1); [apply length_dir_entry|].
  rewrite (dirents_app (dir_entry 1 [46; 46]) _ 1); [apply length_dir_entry|]. rewrite !dirents_dir_entry //. rewrite dirents_dir_bytes //. lia.
Qed.

Lemma root_padding fl : (Z.to_nat (root_size fl) - length (root_bytes fl) = 16 * (Z.to_nat (root_size fl) / 16 - length (root_entries fl)))%nat.
Proof.
  assert (length (root_entries fl) = 2 + length fl)%nat as -> by (rewrite /root_entries; cbn [length]; by rewrite length_file_entries).
  rewrite /root_size length_root_bytes. change BSIZE with 512. set (q := Z.of_nat _ / 512).
  assert (0 ≤ q) by (apply Z.div_pos; lia). assert (Z.to_nat ((q + 1) * 512) = (32 * Z.to_nat (q + 1)) * 16)%nat as -> by lia.
  rewrite Nat.div_mul //. lia.
Qed.

Section Finish.
Context (s : mkfs) (v w : Z → block) (fl : list (list Z * list Z)) (D : list dinode) (di : dinode).
Let fs : list (Z * list Z) := (T_DIR, root_bytes fl) :: as_files fl.
Let di2 : dinode := set_size (root_size fl) di.
Hypothesis (Hb : built s v fs D) (Hdi : D !! 0%nat = Some di) (Hfl : Z.of_nat (length fl) + 1 < NINODES).
Hypothesis Hw : ∀ n, w n = inode_view img_sb v 1 di2 n.

Lemma root_size_room : Z.of_nat (length (root_bytes fl)) ≤ root_size fl ≤ MAXFILE * BSIZE.
Proof using Hfl.
  rw /root_size. rewrite length_root_bytes. change NINODES with 200 in Hfl. change BSIZE with 512. change MAXFILE with 140. Z.div_mod_to_equations; lia.
Qed.

Lemma root_mfile : mfile v T_DIR (root_bytes fl) di.
Proof using Hb Hdi. exact (fl_file _ _ _ (bu_files _ _ _ _ Hb) 0 _ _ _ eq_refl Hdi). Qed.

Lemma finish_files : files w fs D.
Proof using Hb Hw.
  assert (0 ≤ 1 < NINODES) as H1 by done. pose proof (inode_view_files v 1 di2 fs D H1 (bu_files _ _ _ _ Hb)) as H.
  apply (files_frame _ w _ _ H); [|done]. intros b _. by rw /used Hw.
Qed.
Lemma finish_dinode n : 0 ≤ n < NINODES → dinode_at w n = if n =? 1 then di2 else dinode_at v n.
Proof using Hb Hdi Hfl Hw.
  intros Hn. rw /dinode_at Hw. apply disk_inode_view; [done|lia| |apply (bu_seen _ _ _ _ Hb)].
  pose proof root_mfile as Hm. pose proof root_size_room as HR. change (MAXFILE * BSIZE) with 71680 in HR.
  destruct (file_dinode_ok _ _ img_geom v di (mf_ok _ _ _ _ Hm)) as [? ? ? ? ? ? ?]; [by apply (mfile_shorts _ _ _ _ Hm)|].
  by split; cbn [di2 set_size di_type di_major di_minor di_nlink di_size di_addrs]; try done; lia.
Qed.
Lemma finish_other i f : fl !! i = Some f → ∃ e, D !! S i = Some e ∧ dinode_at w (2 + Z.of_nat i) = e ∧ mfile w T_FILE f.2 e.
Proof using Hb Hdi Hfl Hw.
  intros Hf. assert (fs !! S i = Some (T_FILE, f.2)) as Hi by (rewrite /fs /= /as_files list_lookup_fmap Hf //).
  pose proof (lookup_lt_Some _ _ _ Hf). pose proof finish_files as Hfi.
  destruct (lookup_lt_is_Some_2 D (S i)) as [e He]; [rewrite (fl_len _ _ _ Hfi); exact (lookup_lt_Some _ _ _ Hi)|].
  exists e. split_and!; [done| |exact (fl_file _ _ _ Hfi _ _ _ _ Hi He)].
  rw finish_dinode; [lia|]. destruct (Z.eqb_spec (2 + Z.of_nat i) 1); [lia|]. rw (bu_disk _ _ _ _ Hb); [lia|].
  destruct (Z.eqb_spec (2 + Z.of_nat i) 0); [lia|]. replace (Z.to_nat (2 + Z.of_nat i - 1)) with (S i) by lia. by rw He.
Qed.

(** Inode [n] has the blocks of [D]. *)
Lemma finish_slots n : 1 ≤ n ≤ 1 + Z.of_nat (length fl) →
  ∃ e, D !! Z.to_nat (n - 1) = Some e ∧ ∀ j, slot w (dinode_at w n) j = slot w e j.
Proof using Hb Hdi Hfl Hw.
  intros Hn. destruct (decide (n = 1)) as [->|Hne]; [exists di; split; [done|]; by rw finish_dinode|].
  destruct (lookup_lt_is_Some_2 fl (Z.to_nat (n - 2))) as [f Hf]; [lia|]. destruct (finish_other _ _ Hf) as (e&He&Ed&_).
  exists e. split; [by replace (Z.to_nat (n - 1)) with (S (Z.to_nat (n - 2))) by lia|].
  replace (2 + Z.of_nat (Z.to_nat (n - 2))) with n in Ed by lia. by rw Ed.
Qed.

Lemma finish_root_ok : Z.of_nat (length fl) mod 32 ≠ 30 → file_ok w img_sb di2.
Proof using Hb Hdi Hfl Hw.
  intros Hmod. pose proof (fl_file _ _ _ finish_files 0 _ _ _ eq_refl Hdi) as Hm. pose proof root_size_room as HR.
  destruct (mf_ok _ _ _ _ Hm) as [Hl Hd Hi _ _]. split; [done..|change (di_size di2) with (root_size fl); lia|].
  intros bn Hbn Hlt. change (slot w di (fslot bn) ≠ 0). change (di_size di2) with (root_size fl) in Hlt.
  apply (proj1 (mf_tight _ _ _ _ Hm)); [change BSIZE with 512 in HR, Hlt; change MAXFILE with 140 in HR |- *; lia|]. rw /nblk. rewrite length_root_bytes.
  rw /root_size in Hlt. rewrite length_root_bytes in Hlt. change BSIZE with 512 in *. Z.div_mod_to_equations; lia.
Qed.

Lemma finish_formatted : formatted w fl.
Proof using Hb Hdi Hfl Hw.
  pose proof finish_files as Hfi. pose proof (bu_low _ _ _ _ Hb) as Hlo. assert (0 ≤ 1 < NINODES) as H1 by done.
  pose proof (inode_view_low v 1 di2 H1 Hlo) as [L1 L2]. pose proof root_size_room as HR. split.
  - rw Hw L1. vm_compute. reflexivity.
  - intros n Hn. rw Hw. apply L2. by right.
  - intros b Hbb. rw /used Hw. fold (used (inode_view img_sb v 1 di2) img_sb b). rw (inode_view_used _ _ img_geom) //.
    rw (seen_used s) //; [apply Hb|]. by rw (bu_free _ _ _ _ Hb).
  - cbv zeta. rw finish_dinode //. cbn [Z.eqb Pos.eqb]. pose proof (fl_file _ _ _ Hfi 0 _ _ _ eq_refl Hdi) as Hm.
    destruct (mf_meta _ _ _ _ Hm) as (M1&_&_&M4). split_and!; [done..| |exact finish_root_ok].
    rewrite /entries (mfile_padded _ _ _ _ _ Hm HR). rewrite -dirents_root; [lia|]. do 3 f_equal.
    apply root_padding.
  - intros i f Hf. destruct (finish_other i f Hf) as (e&_&->&Hm). destruct (mf_meta _ _ _ _ Hm) as (M1&_&_&M4).
    split_and!; [done|done|apply Hm|exact (mfile_contents _ _ _ _ Hm)].
  - intros m n Hm Hn Hne. destruct (finish_slots m Hm) as (a&Ha&Sa), (finish_slots n Hn) as (b&Hbb&Sb).
    intros j k Hj Hk. rw Sa Sb. refine (fl_apart _ _ _ Hfi _ _ _ _ _ Ha Hbb j k Hj Hk). lia.
  - intros n Hn. rw finish_dinode; [lia|]. destruct (Z.eqb_spec n 1); [lia|]. rw (bu_disk _ _ _ _ Hb); [lia|].
    destruct (Z.eqb_spec n 0); [lia|]. rewrite (proj2 (lookup_ge_None _ _)) //. rewrite (fl_len _ _ _ Hfi) /fs /= length_fmap. lia.
Qed.
End Finish.

(** The first two entries. *)
Lemma dots_wp s {A} (k : M A) (Q : A → mkfs → Prop) :
  is_built [(T_DIR, [])] s → (∀ s', is_built [(T_DIR, dir_entry 1 [46] ++ dir_entry 1 [46; 46])] s' → wp k s' Q) →
  wp (_ ← iappend ROOTINO (dir_entry ROOTINO [46]); _ ← iappend ROOTINO (dir_entry ROOTINO [46; 46]); k) s Q.
Proof.
  intros B HQ. change ROOTINO with (1 + Z.of_nat 0).
  apply wp_bind. refine (wp_mono _ _ _ _ (iappend_wp s _ 0 T_DIR [] (dir_entry 1 [46]) B eq_refl _ _) _); [done..|]. intros _ s1 B1.
  apply wp_bind. refine (wp_mono _ _ _ _ (iappend_wp s1 _ 0 T_DIR (dir_entry 1 [46]) (dir_entry 1 [46; 46]) B1 eq_refl _ _) _); [done..|].
  intros _ s2 B2. by apply HQ.
Qed.

(** The size of the root directory, and the bitmap. *)
Lemma mkfs_finish_wp s fl :
  is_built ((T_DIR, root_bytes fl) :: as_files fl) s → Z.of_nat (length fl) + 1 < NINODES →
  wp (di ← rinode ROOTINO;
      let off := xint (di_size di) in
      let off := (off / BSIZE + 1) * BSIZE in
      _ ← winode ROOTINO (set_size (xint off) di);
      s ← get;
      mk_balloc (freeblock s)) s (λ _ s', m_len s' = FSSIZE ∧ formatted (rd (m_img s')) fl).
Proof.
  intros (v&D&B) Hn. pose proof (bu_seen _ _ _ _ B) as Hs. pose proof (bu_files _ _ _ _ B) as Hf.
  destruct (lookup_lt_is_Some_2 D 0) as [di HD]; [rewrite (fl_len _ _ _ Hf); simpl; lia|].
  pose proof (fl_file _ _ _ Hf 0 _ _ _ eq_refl HD) as Hm. assert (dinode_at v ROOTINO = di) as Ed.
  { rw (bu_disk _ _ _ _ B) //. change (ROOTINO =? 0) with false. cbn match. change (Z.to_nat (ROOTINO - 1)) with 0%nat. by rw HD. }
  pose proof (root_size_room fl Hn) as HR. change (MAXFILE * BSIZE) with 71680 in HR.
  apply wp_bind, (rinode_wp s v); [done..|]. rw Ed (mf_size _ _ _ _ Hm). cbv zeta. rw (xint_id (Z.of_nat _)); [lia|].
  fold (root_size fl). rw xint_id; [lia|]. apply wp_bind, (winode_wp s v); [done|done|exact (fo_len _ _ _ (mf_ok _ _ _ _ Hm))|].
  intros s1 Ef Ei [S1 S2 S3 S4 S5]. apply wp_bind, wp_get. rw /mk_balloc. change FSSIZE with 1000 in *. change nmeta with 59 in *.
  destruct (Z.leb_spec (BSIZE * 8) (freeblock s1)) as [Hbad|_]; [change (BSIZE * 8) with 4096 in Hbad; lia|]. apply wp_modify.
  cbn [m_img m_len]. rw mk_sb_eq. change (sb_bmapstart img_sb) with 58 in *. split; [lia|].
  apply (finish_formatted s v _ fl D di B HD Hn). intros n. rewrite rd_insert S3. destruct (decide (58 = n)) as [<-|Hne]; [done|].
  destruct (Z.eqb_spec n 58); [congruence|done].
Qed.

(** ** Theorems *)

(** C35: Mkfs puts the files it is given on the disk as the kernel expects them.  For files without a slash in their
    name and of at most 140 blocks, at most 198 of them, and a thousand blocks in all: the program finishes; the
    super block describes the layout and the log is empty; each file has an inode of its own that satisfies the
    invariant of the file system code, with its bytes as contents; the root directory has the entries for "." and ".." and for
    each file, then free entries; no two inodes share a block; the bitmap marks exactly the
    blocks taken; the remaining inodes are free.  (The inode of the root directory has a hole, and does not satisfy
    the invariant, when its entries fill their last block: 30 files, 62 files, ...) *)
Theorem mkfs_formats fl (Hfit : Forall fits fl) (Hn : Z.of_nat (length fl) + 1 < NINODES) (Hroom : used_blocks fl ≤ FSSIZE) :
  wp (main fl) mkfs0 (λ _ s, m_len s = FSSIZE ∧ formatted (rd (m_img s)) fl).
Proof.
  rw /main. apply wp_bind. refine (wp_mono _ _ _ _ (clear_wp mkfs0 (conj eq_refl eq_refl)) _). intros _ s1 (Z1&Z2&Z3&Z4).
  apply wp_bind. refine (wp_mono _ _ _ _ (start_built s1 Z1 Z2 Z3 Z4) _). intros _ s2 B2.
  apply wp_bind. refine (wp_mono _ _ _ _ (ialloc_wp s2 [] T_DIR B2 _ _) _); [done..|]. intros r s3 [-> B3]. cbn [app] in B3.
  change (negb (1 + Z.of_nat (length (@nil (Z * list Z))) =? ROOTINO)) with false. cbn match. change (1 + Z.of_nat (length (@nil (Z * list Z)))) with (1 + Z.of_nat 0).
  apply dots_wp; [done|]. intros s4 B4. apply wp_bind. refine (wp_mono _ _ _ _ (add_files_wp fl s4 _ [] B4 Hfit _ _ _) _).
  - simpl. lia.
  - change NINODES with 200 in Hn. change (Z.of_nat (length (dir_entry 1 [46] ++ dir_entry 1 [46; 46]))) with 32. change (MAXFILE * BSIZE) with 71680. lia.
  - rewrite -app_assoc. exact Hroom.
  - intros _ s5 B5. rewrite -app_assoc in B5. by apply mkfs_finish_wp.
Qed.

(** Two files, one with more than twelve blocks. *)
Definition two_files : list (list Z * list Z) := [([95; 108; 115], replicate 100 7); ([114], replicate 7000 9)].
Lemma two_files_fit : Forall fits two_files ∧ used_blocks two_files ≤ FSSIZE.
Proof.
  split; [|vm_compute; discriminate].
  repeat constructor; cbn [fst snd]; first [by apply (bool_decide_unpack _); vm_compute|rewrite length_replicate; done].
Qed.

Lemma mkfs_formats_witness : wp (main two_files) mkfs0 (λ _ s, m_len s = FSSIZE ∧ formatted (rd (m_img s)) two_files).
Proof. exact (mkfs_formats two_files (proj1 two_files_fit) eq_refl (proj2 two_files_fit)). Defined.

(** The root directory of thirty files fills its block: its size says it has two, and there is one. *)
Theorem root_hole :
  wp (main (replicate 30 ([97], []))) mkfs0 (λ _ s, let v := rd (m_img s) in let di := dinode_at v ROOTINO in
    di_size di = 2 * BSIZE ∧ slot v di (fslot 1) = 0).
Proof. vm_compute. split; reflexivity. Qed.
