(* ===== verification/Ide.v ===== *)
(** * The disk driver (xv6/ide.c).

    Requests wait in a list linked through [qnext]; the first one is with the controller, and the interrupt of the
    controller finishes it and starts the next.  The controller is an ATA controller as the driver uses it: registers
    behind ports, one command at a time, an interrupt when it is done, and an error bit.  A step of the system is
    the part of [iderw] up to its sleep, the rest of it, the interrupt handler, the end of a command, or the work of the
    owner of a buffer.  The theorems: in every run the requests are done in the order of the calls, and reads and writes give
    what doing them one after the other on the disk gives; a request that waits is always on its way. *)
From S2P Require Import Prelude Spinlock Sleeplock Bio.
Local Open Scope Z_scope.

(** ** The controller *)

Definition IDE_BSY : Z := 0x80.
Definition IDE_DRDY : Z := 0x40.
Definition IDE_DF : Z := 0x20.
Definition IDE_ERR : Z := 0x01.
Definition IDE_CMD_READ : Z := 0x20.
Definition IDE_CMD_WRITE : Z := 0x30.
Definition IDE_CMD_RDMUL : Z := 0xc4.
Definition IDE_CMD_WRMUL : Z := 0xc5.
Definition SECTOR_SIZE : Z := 512.
Definition FSSIZE : Z := 1000.

(** A command in progress: for a sector of a drive. *)
Inductive command := CRead (drive sector : Z) | CWrite (drive sector : Z).
(** [a_has1]: there is a second drive; [a_fifo]: what goes through the data port; [a_bits]: the error bits of the last command. *)
Record ata := Ata {
  a_disk : gmap (Z * Z) block;
  a_has1 : bool;
  a_regs : gmap Z Z;
  a_cmd : option command;
  a_fifo : list Z;
  a_bits : Z;
  a_irq : bool
}.
Definition sector_at (d : gmap (Z * Z) block) (k : Z * Z) : block := default zero_block (d !! k).

Definition reg (a : ata) (port : Z) : Z := default 0 (a_regs a !! port).
Definition drive_of (a : ata) : Z := Z.land (Z.shiftr (reg a 0x1f6) 4) 1.
Definition lba_of (a : ata) : Z :=
  Z.lor (reg a 0x1f3) (Z.lor (Z.shiftl (reg a 0x1f4) 8) (Z.lor (Z.shiftl (reg a 0x1f5) 16) (Z.shiftl (Z.land (reg a 0x1f6) 0x0f) 24))).

(** A write to the command register starts a command; the other ports are registers. *)
Definition outb (port v : Z) (a : ata) : ata :=
  if port =? 0x1f7 then
    let c := if v =? IDE_CMD_READ then Some (CRead (drive_of a) (lba_of a))
             else if v =? IDE_CMD_WRITE then Some (CWrite (drive_of a) (lba_of a)) else None in
    Ata (a_disk a) (a_has1 a) (a_regs a) c [] 0 (a_irq a)
  else Ata (a_disk a) (a_has1 a) (<[port := u8 v]> (a_regs a)) (a_cmd a) (a_fifo a) (a_bits a) (a_irq a).
Definition outsl (data : list Z) (a : ata) : ata :=
  Ata (a_disk a) (a_has1 a) (a_regs a) (a_cmd a) (a_fifo a ++ data) (a_bits a) (a_irq a).
(** The status register; an absent drive reads as 0. *)
Definition status (a : ata) : Z :=
  if (drive_of a =? 1) && negb (a_has1 a) then 0
  else match a_cmd a with Some _ => IDE_BSY | None => Z.lor IDE_DRDY (a_bits a) end.

(** The end of a command, with the interrupt; [bits] when it failed. *)
Definition complete (a : ata) : option ata :=
  match a_cmd a with
  | None => None
  | Some (CRead d k) => Some (Ata (a_disk a) (a_has1 a) (a_regs a) None (sector_at (a_disk a) (d, k)) 0 true)
  | Some (CWrite d k) => Some (Ata (<[(d, k) := a_fifo a]> (a_disk a)) (a_has1 a) (a_regs a) None [] 0 true)
  end.
Definition complete_error (bits : Z) (a : ata) : option ata :=
  match a_cmd a with
  | None => None
  | Some _ => Some (Ata (a_disk a) (a_has1 a) (a_regs a) None [] bits true)
  end.

(** ** The driver *)

(** A buffer with its link. *)
Record dbuf := DBuf { d_buf : buf; d_qnext : option nat }.
(** The process in [iderw] for a buffer. *)
Inductive waiter := Idle | Asleep | Woken.
#[global] Instance waiter_eq_dec : EqDecision waiter.
Proof. solve_decision. Defined.
Record ide := Ide {
  i_bufs : list dbuf;
  i_wait : list waiter;
  idequeue : option nat;
  havedisk1 : bool;
  i_hw : ata;
  i_held : list string
}.
Notation M := (K ide).

#[global] Program Instance ide_HasLocks : HasLocks ide :=
  {| held := i_held; set_held := λ h s, Ide (i_bufs s) (i_wait s) (idequeue s) (havedisk1 s) (i_hw s) h |}.
Next Obligation. done. Qed.

Definition dbuf_at (i : nat) : M dbuf := λ s, match i_bufs s !! i with Some b => Ret b s | None => Undef "no such buffer" end.
Definition upd_dbuf (i : nat) (f : dbuf → dbuf) : M unit :=
  modify (λ s, Ide (alter f i (i_bufs s)) (i_wait s) (idequeue s) (havedisk1 s) (i_hw s) (i_held s)).
Definition in_buf (f : buf → buf) (b : dbuf) : dbuf := DBuf (f (d_buf b)) (d_qnext b).
Definition set_qnext (n : option nat) (b : dbuf) : dbuf := DBuf (d_buf b) n.
Definition set_wait (i : nat) (w : waiter) : M unit :=
  modify (λ s, Ide (i_bufs s) (<[i := w]> (i_wait s)) (idequeue s) (havedisk1 s) (i_hw s) (i_held s)).
Definition set_queue (q : option nat) : M unit :=
  modify (λ s, Ide (i_bufs s) (i_wait s) q (havedisk1 s) (i_hw s) (i_held s)).
Definition on_hw (f : ata → ata) : M unit :=
  modify (λ s, Ide (i_bufs s) (i_wait s) (idequeue s) (havedisk1 s) (f (i_hw s)) (i_held s)).

(** [-1] is [false].  While the controller is busy the processor spins. *)
Definition idewait (checkerr : bool) : M bool :=
  s ← get;
  let r := status (i_hw s) in
  if negb (Z.land r (Z.lor IDE_BSY IDE_DRDY) =? IDE_DRDY) then sleeps "idewait"
  else if checkerr && negb (Z.land r (Z.lor IDE_DF IDE_ERR) =? 0) then mret false
  else mret true.

(** Interrupts are routed by the I/O APIC. *)
Definition ideinit : M unit :=
  _ ← idewait false;
  _ ← on_hw (outb 0x1f6 (Z.lor 0xe0 (Z.shiftl 1 4)));
  _ ← for_break (seq 0 1000) (λ _,
        s ← get;
        if negb (status (i_hw s) =? 0) then
          _ ← put (Ide (i_bufs s) (i_wait s) (idequeue s) true (i_hw s) (i_held s));
          mret (Some tt)
        else mret None);
  on_hw (outb 0x1f6 (Z.lor 0xe0 (Z.shiftl 0 4))).

Definition idestart (b : option nat) : M unit :=
  match b with
  | None => panic "idestart"
  | Some i =>
      d ← dbuf_at i;
      let b := d_buf d in
      if FSSIZE <=? b_blockno b then panic "incorrect blockno"
      else
        let sector_per_block := BSIZE / SECTOR_SIZE in
        let sector := b_blockno b * sector_per_block in
        let read_cmd := if sector_per_block =? 1 then IDE_CMD_READ else IDE_CMD_RDMUL in
        let write_cmd := if sector_per_block =? 1 then IDE_CMD_WRITE else IDE_CMD_WRMUL in
        if 7 <? sector_per_block then panic "idestart"
        else
          _ ← idewait false;
          _ ← on_hw (outb 0x3f6 0);
          _ ← on_hw (outb 0x1f2 sector_per_block);
          _ ← on_hw (outb 0x1f3 (Z.land sector 0xff));
          _ ← on_hw (outb 0x1f4 (Z.land (Z.shiftr sector 8) 0xff));
          _ ← on_hw (outb 0x1f5 (Z.land (Z.shiftr sector 16) 0xff));
          _ ← on_hw (outb 0x1f6 (Z.lor 0xe0 (Z.lor (Z.shiftl (Z.land (b_dev b) 1) 4) (Z.land (Z.shiftr sector 24) 0x0f))));
          if has_flag b B_DIRTY then
            _ ← on_hw (outb 0x1f7 write_cmd);
            on_hw (outsl (b_data b))
          else on_hw (outb 0x1f7 read_cmd)
  end.

(** [insl]: the bytes the controller has. *)
Definition insl : M (list Z) :=
  s ← get;
  let a := i_hw s in
  _ ← on_hw (λ a, Ata (a_disk a) (a_has1 a) (a_regs a) (a_cmd a) (drop (Z.to_nat BSIZE) (a_fifo a)) (a_bits a) (a_irq a));
  mret (take (Z.to_nat BSIZE) (a_fifo a)).

(** [wakeup(b)] *)
Definition wakeup (i : nat) : M unit :=
  s ← get;
  when (bool_decide (i_wait s !! i = Some Asleep)) (set_wait i Woken).

Definition ideintr : M unit :=
  _ ← lock_acquire "ide";
  q ← gets idequeue;
  match q with
  | None => lock_release "ide"
  | Some i =>
      d ← dbuf_at i;
      _ ← set_queue (d_qnext d);
      _ ← (if has_flag (d_buf d) B_DIRTY then mret tt
           else
             ok ← idewait true;
             when ok (data ← insl; upd_dbuf i (in_buf (set_data data))));
      _ ← upd_dbuf i (in_buf (λ b, set_flags (Z.lor (b_flags b) B_VALID) b));
      _ ← upd_dbuf i (in_buf (λ b, set_flags (Z.land (b_flags b) (Z.lnot B_DIRTY)) b));
      _ ← wakeup i;
      q ← gets idequeue;
      _ ← (match q with Some _ => idestart q | None => mret tt end);
      lock_release "ide"
  end.

(** The last buffer of the list that starts at [i]. *)
Fixpoint last_of (fuel : nat) (bs : list dbuf) (i : nat) : option nat :=
  match fuel with
  | O => None
  | S k =>
      match bs !! i with
      | Some d => match d_qnext d with Some j => last_of k bs j | None => Some i end
      | None => None
      end
  end.

(** The loop of [iderw]: [false] when the process went to sleep, with the lock released. *)
Definition iderw_wait (i : nat) : M bool :=
  d ← dbuf_at i;
  if negb (Z.land (b_flags (d_buf d)) (Z.lor B_VALID B_DIRTY) =? B_VALID) then
    _ ← set_wait i Asleep;
    _ ← lock_release "ide";
    mret false
  else
    _ ← set_wait i Idle;
    _ ← lock_release "ide";
    mret true.

Definition iderw (me : Z) (i : nat) : M bool :=
  d ← dbuf_at i;
  let b := d_buf d in
  if negb (holdingsleep_of me b) then panic "iderw: buf not locked"
  else if Z.land (b_flags b) (Z.lor B_VALID B_DIRTY) =? B_VALID then panic "iderw: nothing to do"
  else
    s ← get;
    if negb (b_dev b =? 0) && negb (havedisk1 s) then panic "iderw: ide disk 1 not present"
    else
      _ ← lock_acquire "ide";
      _ ← upd_dbuf i (set_qnext None);
      s ← get;
      _ ← (match idequeue s with
           | None => set_queue (Some i)
           | Some h =>
               match last_of (S (length (i_bufs s))) (i_bufs s) h with
               | Some l => upd_dbuf l (set_qnext (Some i))
               | None => undef "idequeue"
               end
           end);
      s ← get;
      _ ← when (bool_decide (idequeue s = Some i)) (idestart (Some i));
      iderw_wait i.
(** The process runs again after [sleep]. *)
Definition iderw_resume (i : nat) : M bool :=
  _ ← lock_acquire "ide";
  iderw_wait i.

(** ** The system *)

Inductive req := RRead (k : Z * Z) | RWrite (k : Z * Z) (data : block).
Definition key_of (b : buf) : Z * Z := (Z.land (b_dev b) 1, b_blockno b).
Definition req_of (b : buf) : req := if has_flag b B_DIRTY then RWrite (key_of b) (b_data b) else RRead (key_of b).

(** What happens in a step: a request is made; the controller does a command; the handler finishes a request, which leaves
    [data] in its buffer. *)
Inductive label := LCall (i : nat) (r : req) | LServe | LDone (i : nat) (data : block) | LTau.

Definition with_hw (a : ata) (s : ide) : ide := Ide (i_bufs s) (i_wait s) (idequeue s) (havedisk1 s) a (i_held s).
(** The interrupt is taken. *)
Definition ack (a : ata) : ata := Ata (a_disk a) (a_has1 a) (a_regs a) (a_cmd a) (a_fifo a) (a_bits a) false.

Definition buf_ok (b : buf) : Prop :=
  (∃ v d, b_flags b = fl v d) ∧ 0 ≤ b_blockno b < FSSIZE ∧ length (b_data b) = Z.to_nat BSIZE.

(** What goes on by itself: a process that was woken, the handler, the controller. *)
Inductive inner (s : ide) : label → ide → Prop :=
| I_resume i r s' : i_wait s !! i = Some Woken → iderw_resume i s = Ret r s' → inner s LTau s'
| I_intr i d s' : a_irq (i_hw s) = true → idequeue s = Some i → ideintr (with_hw (ack (i_hw s)) s) = Ret tt s' →
    i_bufs s' !! i = Some d → inner s (LDone i (b_data (d_buf d))) s'
| I_device a : complete (i_hw s) = Some a → inner s LServe (with_hw a s).
Inductive istep (s : ide) : label → ide → Prop :=
| I_inner l s' : inner s l s' → istep s l s'
| I_call me i d r s' : i_wait s !! i = Some Idle → i_bufs s !! i = Some d →
    iderw me i s = Ret r s' → istep s (LCall i (req_of (d_buf d))) s'
| I_owner i d b : i_wait s !! i = Some Idle → i_bufs s !! i = Some d → buf_ok b →
    istep s LTau (Ide (<[i := DBuf b (d_qnext d)]> (i_bufs s)) (i_wait s) (idequeue s) (havedisk1 s) (i_hw s) (i_held s)).
Inductive iruns (s : ide) : list label → ide → Prop :=
| R_nil : iruns s [] s
| R_snoc tr s1 l s2 : iruns s tr s1 → istep s1 l s2 → iruns s (tr ++ [l]) s2.

(** ** The list of requests *)

Fixpoint chain (bs : list dbuf) (h : option nat) (q : list nat) : Prop :=
  match q with
  | [] => h = None
  | i :: q' => h = Some i ∧ ∃ d, bs !! i = Some d ∧ chain bs (d_qnext d) q'
  end.

Lemma chain_last bs q : ∀ i fuel, chain bs (Some i) (i :: q) → (length q < fuel)%nat → last_of fuel bs i = last (i :: q).
Proof.
  induction q as [|j q IH]; intros i [|fuel] H Hf; simpl in Hf; try lia; cbn [chain last_of] in *.
  - destruct H as (_&d&->&->). done.
  - destruct H as (_&d&->&E&d2&H2&H3). rw E. rewrite IH; [|lia|done]. split; [done|]. by exists d2.
Qed.
Arguments last_of : simpl never.
Lemma chain_frame bs bs' h q :
  (∀ j d, j ∈ q → bs !! j = Some d → ∃ d', bs' !! j = Some d' ∧ d_qnext d' = d_qnext d) → chain bs h q → chain bs' h q.
Proof.
  revert h. induction q as [|i q IH]; intros h Hb; [done|]. intros (->&d&Hd&Hq). split; [done|].
  destruct (Hb i d ltac:(by left) Hd) as (d'&Hd'&E). exists d'. split; [done|]. rw E. apply IH; [|done].
  intros j e Hj He. apply Hb; [by right|done].
Qed.
Lemma chain_snoc bs h q l i d :
  chain bs h (q ++ [l]) → l ∉ q → i ≠ l → bs !! i = Some d → d_qnext d = None →
  chain (alter (set_qnext (Some i)) l bs) h ((q ++ [l]) ++ [i]).
Proof.
  revert h. induction q as [|j q IH]; intros h H Hl Hil Hd Hn; cbn [app chain] in *.
  - destruct H as (->&e&He&_). split; [done|]. exists (set_qnext (Some i) e). rewrite list_lookup_alter_eq He. split; [done|].
    split; [done|]. exists d. split; [|done]. rewrite list_lookup_alter_ne //. congruence.
  - destruct H as (->&e&He&Hq). apply not_elem_of_cons in Hl as [Hlj Hl]. split; [done|]. exists e.
    rewrite list_lookup_alter_ne; [congruence|]. split; [done|]. by apply IH.
Qed.
Lemma chain_some bs h q i : chain bs h q → h = Some i → ∃ q', q = i :: q'.
Proof. destruct q as [|j q]; [by intros ->|]. intros [-> _] [= ->]. by exists q. Qed.
Lemma chain_in bs h q i : chain bs h q → i ∈ q → is_Some (bs !! i).
Proof.
  revert h. induction q as [|j q IH]; intros h H Hi; [by apply not_elem_of_nil in Hi|]. destruct H as (_&d&Hd&Hq).
  apply elem_of_cons in Hi as [->|Hi]; [by exists d|]. exact (IH _ Hq Hi).
Qed.

(** ** The invariant *)

Definition cmd_of (b : buf) : command :=
  let k := key_of b in if has_flag b B_DIRTY then CWrite k.1 k.2 else CRead k.1 k.2.

(** A request that waits. *)
Definition pending (hd1 : bool) (b : buf) : Prop :=
  b_flags b ≠ fl true false ∧ (b_dev b ≠ 0 → hd1 = true).

(** The controller and the first request: the command is in progress, or done and its interrupt not taken. *)
Definition serving (a : ata) (b : buf) : Prop :=
  (a_cmd a = Some (cmd_of b) ∧ a_irq a = false ∧ (has_flag b B_DIRTY = true → a_fifo a = b_data b)) ∨
  (a_cmd a = None ∧ a_irq a = true ∧ (has_flag b B_DIRTY = false → a_fifo a = sector_at (a_disk a) (key_of b))).
Definition hw_ok (a : ata) : Prop :=
  (drive_of a = 1 → a_has1 a = true) ∧ a_bits a = 0 ∧ ∀ k, length (sector_at (a_disk a) k) = Z.to_nat BSIZE.

Record inv (s : ide) (q : list nat) : Prop := {
  iv_len : length (i_wait s) = length (i_bufs s);
  iv_held : i_held s = [];
  iv_chain : chain (i_bufs s) (idequeue s) q;
  iv_nodup : NoDup q;
  iv_wait : ∀ i, match i_wait s !! i with
            | Some Asleep => i ∈ q
            | Some Woken => i ∉ q ∧ ∀ d, i_bufs s !! i = Some d → b_flags (d_buf d) = fl true false
            | _ => i ∉ q
            end;
  iv_bufs : ∀ i d, i_bufs s !! i = Some d → buf_ok (d_buf d) ∧ (i ∈ q → pending (havedisk1 s) (d_buf d));
  iv_hd1 : havedisk1 s = true → a_has1 (i_hw s) = true;
  iv_hw : hw_ok (i_hw s);
  iv_serving : match q with
               | [] => a_cmd (i_hw s) = None ∧ a_irq (i_hw s) = false
               | i :: _ => ∀ d, i_bufs s !! i = Some d → serving (i_hw s) (d_buf d)
               end
}.

(** *** Commands *)

Definition task_regs (b : buf) (a : ata) : ata :=
  let sector := b_blockno b in
  outb 0x1f6 (Z.lor 0xe0 (Z.lor (Z.shiftl (Z.land (b_dev b) 1) 4) (Z.land (Z.shiftr sector 24) 0x0f)))
    (outb 0x1f5 (Z.land (Z.shiftr sector 16) 0xff) (outb 0x1f4 (Z.land (Z.shiftr sector 8) 0xff)
    (outb 0x1f3 (Z.land sector 0xff) (outb 0x1f2 1 (outb 0x3f6 0 a))))).
(** The controller after [idestart]. *)
Definition started (b : buf) (a : ata) : ata :=
  if has_flag b B_DIRTY then outsl (b_data b) (outb 0x1f7 IDE_CMD_WRITE (task_regs b a)) else outb 0x1f7 IDE_CMD_READ (task_regs b a).

Lemma regs_decode_all :
  forallb (λ d, forallb (λ n,
    let r3 := u8 (Z.land n 0xff) in let r4 := u8 (Z.land (Z.shiftr n 8) 0xff) in let r5 := u8 (Z.land (Z.shiftr n 16) 0xff) in
    let r6 := u8 (Z.lor 0xe0 (Z.lor (Z.shiftl d 4) (Z.land (Z.shiftr n 24) 0x0f))) in
    (Z.land (Z.shiftr r6 4) 1 =? d) && (Z.lor r3 (Z.lor (Z.shiftl r4 8) (Z.lor (Z.shiftl r5 16) (Z.shiftl (Z.land r6 0x0f) 24))) =? n))
    (range 0 FSSIZE)) [0; 1] = true.
Proof. vm_compute. reflexivity. Qed.

Lemma land_1 x : Z.land x 1 = 0 ∨ Z.land x 1 = 1.
Proof.
  assert (Z.land x 1 = x mod 2) as -> by exact (Z.land_ones x 1 ltac:(lia)). pose proof (Z.mod_pos_bound x 2 ltac:(lia)). lia.
Qed.
Lemma reg_outb p v a r : (p =? 0x1f7) = false → reg (outb p v a) r = if r =? p then u8 v else reg a r.
Proof.
  intros Hp. rw /outb Hp /reg. cbn [a_regs]. destruct (Z.eqb_spec r p) as [->|Hne]; [by rewrite lookup_insert_eq|].
  rewrite lookup_insert_ne //. congruence.
Qed.

Lemma task_decode b a : 0 ≤ b_blockno b < FSSIZE →
  drive_of (task_regs b a) = Z.land (b_dev b) 1 ∧ lba_of (task_regs b a) = b_blockno b.
Proof.
  intros Hb. pose proof (proj1 (forallb_forall _ _) regs_decode_all (Z.land (b_dev b) 1)) as H.
  assert (In (Z.land (b_dev b) 1) [0; 1]) as Hd by (destruct (land_1 (b_dev b)) as [->| ->]; simpl; auto).
  specialize (H Hd). pose proof (proj1 (forallb_forall _ _) H (b_blockno b)) as H2. cbv zeta beta in H2.
  assert (In (b_blockno b) (range 0 FSSIZE)) as Hr by (by apply list_elem_of_In, elem_of_range).
  specialize (H2 Hr). apply andb_true_iff in H2 as [E1%Z.eqb_eq E2%Z.eqb_eq].
  rw /drive_of /lba_of /task_regs. cbv zeta. by rewrite !reg_outb.
Qed.

Lemma started_spec b a : 0 ≤ b_blockno b < FSSIZE →
  a_disk (started b a) = a_disk a ∧ a_has1 (started b a) = a_has1 a ∧ a_bits (started b a) = 0 ∧ a_irq (started b a) = a_irq a ∧
  drive_of (started b a) = Z.land (b_dev b) 1 ∧ a_cmd (started b a) = Some (cmd_of b) ∧
  (has_flag b B_DIRTY = true → a_fifo (started b a) = b_data b).
Proof.
  intros Hb. destruct (task_decode b a Hb) as [Ed El]. rw /started /cmd_of /key_of. destruct (has_flag b B_DIRTY);
    cbn [outb outsl Z.eqb Pos.eqb IDE_CMD_READ IDE_CMD_WRITE a_cmd a_fifo a_bits a_disk a_has1 a_irq fst snd app];
    rewrite Ed El; split_and!; done.
Qed.

(** *** Ready *)

Lemma idewait_ready s c (Q : bool → ide → Prop) :
  a_cmd (i_hw s) = None → hw_ok (i_hw s) → Q true s → wp (idewait c) s Q.
Proof.
  intros Hc (Hd&Hb&_) HQ. rw /idewait. apply wp_bind, wp_get. rw /status Hc Hb.
  destruct (Z.eqb_spec (drive_of (i_hw s)) 1) as [E|E]; cbn [andb]; [rewrite (Hd E); cbn [negb]|]; destruct c; by apply wp_ret.
Qed.

Lemma wp_dbuf_at s i d (Q : dbuf → ide → Prop) : i_bufs s !! i = Some d → Q d s → wp (dbuf_at i) s Q.
Proof. intros H HQ. by rw /wp /dbuf_at H. Qed.

Lemma wp_on_hw s f (Q : unit → ide → Prop) : Q tt (with_hw (f (i_hw s)) s) → wp (on_hw f) s Q.
Proof. intros HQ. by apply wp_modify. Qed.
(** Port accesses one after the other. *)
Lemma wp_on_hw_seq s a f {A} (m : M A) (Q : A → ide → Prop) :
  wp m (with_hw (f a) s) Q → wp (_ ← on_hw f; m) (with_hw a s) Q.
Proof. intros HQ. by apply wp_bind, wp_on_hw. Qed.

Lemma idestart_wp s i d (Q : unit → ide → Prop) :
  i_bufs s !! i = Some d → 0 ≤ b_blockno (d_buf d) < FSSIZE → a_cmd (i_hw s) = None → hw_ok (i_hw s) →
  Q tt (with_hw (started (d_buf d) (i_hw s)) s) → wp (idestart (Some i)) s Q.
Proof.
  intros Hi Hb Hc Hh HQ. rw /idestart. apply wp_bind, (wp_dbuf_at s i d); [done|]. cbv zeta.
  destruct (Z.leb_spec FSSIZE (b_blockno (d_buf d))); [lia|]. change (BSIZE / SECTOR_SIZE) with 1. rewrite Z.mul_1_r.
  cbn [Z.ltb Z.compare Pos.compare Pos.compare_cont Z.eqb Pos.eqb]. apply wp_bind, idewait_ready; [done|done|].
  assert (s = with_hw (i_hw s) s) as Es by (by destruct s). rewrite {1}Es. do 6 apply wp_on_hw_seq.
  rw /started in HQ. fold (task_regs (d_buf d) (i_hw s)). destruct (has_flag (d_buf d) B_DIRTY); [apply wp_on_hw_seq|]; by apply wp_on_hw.
Qed.

Lemma done_flag b v d : b_flags b = fl v d → (Z.land (b_flags b) (Z.lor B_VALID B_DIRTY) =? B_VALID) = v && negb d.
Proof. intros ->. by destruct v, d. Qed.

(** The requests of the buffers in the list. *)
Definition reqs (bs : list dbuf) (q : list nat) : list (nat * req) := omap (λ i, (λ d, (i, req_of (d_buf d))) <$> bs !! i) q.
Definition same_bufs (bs bs' : list dbuf) : Prop := ∀ j, d_buf <$> bs' !! j = d_buf <$> bs !! j.

Lemma reqs_app bs q q' : reqs bs (q ++ q') = reqs bs q ++ reqs bs q'.
Proof. apply omap_app. Qed.
Lemma reqs_ext bs bs' q : (∀ j, j ∈ q → d_buf <$> bs' !! j = d_buf <$> bs !! j) → reqs bs' q = reqs bs q.
Proof.
  intros H. induction q as [|i q IH]; [done|]. pose proof (H i ltac:(by left)) as E.
  assert (reqs bs' q = reqs bs q) as E2 by (apply IH; intros j Hj; apply H; by right). rewrite /reqs in E2 |- *. cbn [omap list_omap].
  rewrite E2. destruct (bs' !! i) as [d'|], (bs !! i) as [d|]; simplify_eq/=; [|done]. by rewrite E.
Qed.
Lemma same_alter bs i f : (∀ d, d_buf (f d) = d_buf d) → same_bufs bs (alter f i bs).
Proof.
  intros Hf j. destruct (decide (i = j)) as [->|Hne]; [|by rewrite list_lookup_alter_ne].
  rewrite list_lookup_alter_eq. destruct (bs !! j) as [d|]; [|done]. simpl. by rewrite Hf.
Qed.
Lemma same_trans bs bs1 bs2 : same_bufs bs bs1 → same_bufs bs1 bs2 → same_bufs bs bs2.
Proof. intros H1 H2 j. by rewrite H2 H1. Qed.
Lemma same_lookup bs bs' i d' : same_bufs bs bs' → bs' !! i = Some d' → ∃ d, bs !! i = Some d ∧ d_buf d' = d_buf d.
Proof.
  intros H Hi. specialize (H i). rewrite Hi in H. destruct (bs !! i) as [d|]; [|done]. exists d. split; [done|]. by injection H.
Qed.

(** *** The end of [iderw] *)

Lemma iderw_wait_wp s i d v y (Q : bool → ide → Prop) :
  i_bufs s !! i = Some d → b_flags (d_buf d) = fl v y → i_held s = ["ide"] →
  Q (v && negb y) (Ide (i_bufs s) (<[i := if v && negb y then Idle else Asleep]> (i_wait s)) (idequeue s) (havedisk1 s) (i_hw s) []) →
  wp (iderw_wait i) s Q.
Proof.
  intros Hi Hf Hh HQ. rw /iderw_wait. apply wp_bind, (wp_dbuf_at s i d); [done|]. rewrite (done_flag _ v y Hf).
  destruct (v && negb y); cbn [negb]; apply wp_bind, wp_modify; apply wp_bind, (wp_lock_release _ []); try done; try apply not_elem_of_nil; by apply wp_ret.
Qed.

(** The new request at the end of the list. *)
Lemma enqueue_chain bs h q i d :
  chain bs h q → NoDup q → i ∉ q → bs !! i = Some d →
  let bs1 := alter (set_qnext None) i bs in
  match h with
  | None => chain bs1 (Some i) [i] ∧ q = []
  | Some j => ∃ l, last_of (S (length bs)) bs1 j = Some l ∧ chain (alter (set_qnext (Some i)) l bs1) (Some j) (q ++ [i])
  end.
Proof.
  intros Hc Hnd Hi Hd bs1. assert (bs1 !! i = Some (set_qnext None d)) as Hi1 by (rw /bs1 list_lookup_alter_eq Hd; done).
  assert (chain bs1 h q) as Hc1.
  { apply (chain_frame bs); [|done]. intros j e Hj He. exists e. split; [|done]. rw /bs1 list_lookup_alter_ne //. congruence. }
  destruct h as [j|].
  - destruct (chain_some _ _ _ _ Hc eq_refl) as [q' ->]. destruct (last (j :: q')) as [l|] eqn:El; [|by apply last_None in El].
    exists l. split.
    + rewrite (chain_last bs1 q'); [done| |exact El]. assert (length (j :: q') ≤ length bs)%nat; [|simpl in *; lia].
      rewrite -(length_seq (length bs) 0). apply submseteq_length, NoDup_submseteq; [done|].
      intros x Hx. apply elem_of_seq. destruct (chain_in _ _ _ _ Hc Hx) as [e He]. apply lookup_lt_Some in He. lia.
    + apply last_Some in El as [q0 E]. rewrite E in Hc1, Hnd, Hi |- *. apply (chain_snoc _ _ _ _ _ (set_qnext None d)); [done| | |done|done].
      * apply NoDup_app in Hnd as (_&Hx&_). intros Hl. apply (Hx l Hl). by left.
      * intros ->. apply Hi. apply elem_of_app. right. by left.
  - destruct q as [|k q]; [|by destruct Hc]. split; [|done]. split; [done|]. by exists (set_qnext None d).
Qed.

(** *** A request is made *)

Lemma started_serving a b : hw_ok a → 0 ≤ b_blockno b < FSSIZE → (b_dev b ≠ 0 → a_has1 a = true) → a_irq a = false →
  hw_ok (started b a) ∧ serving (started b a) b.
Proof.
  intros (_&_&Hs) Hb Hd Hi. destruct (started_spec b a Hb) as (E1&E2&E3&E4&E5&E6&E7). split.
  - split_and!; [|done|by rw E1]. rw E5 E2. intros Hx. apply Hd. intros E0. by rw E0 in Hx.
  - left. rw E4. done.
Qed.

Lemma enqueue_inv s q i d s' :
  inv s q → i_wait s !! i = Some Idle → i_bufs s !! i = Some d → pending (havedisk1 s) (d_buf d) →
  same_bufs (i_bufs s) (i_bufs s') → length (i_bufs s') = length (i_bufs s) → chain (i_bufs s') (idequeue s') (q ++ [i]) →
  i_wait s' = <[i := Asleep]> (i_wait s) → havedisk1 s' = havedisk1 s → i_held s' = [] →
  i_hw s' = (match q with [] => started (d_buf d) (i_hw s) | _ => i_hw s end) → inv s' (q ++ [i]).
Proof.
  intros H Hw Hd Hp Hsame Hlen Hch Ew Eh Ehd Ehw. pose proof (iv_wait _ _ H i) as Hi. rw Hw in Hi. pose proof (iv_bufs _ _ H i d Hd) as [[Hf [Hb Hdl]] _].
  assert (hw_ok (i_hw s') ∧ a_has1 (i_hw s') = a_has1 (i_hw s) ∧ match q ++ [i] with [] => a_cmd (i_hw s') = None ∧ a_irq (i_hw s') = false
    | j :: _ => ∀ e, i_bufs s' !! j = Some e → serving (i_hw s') (d_buf e) end) as (Hok&Hh1&Hserv).
  { pose proof (iv_serving _ _ H) as Hs. destruct q as [|j q]; rw Ehw.
    - destruct Hs as [Hc Hirq]. destruct (started_serving (i_hw s) (d_buf d) (iv_hw _ _ H) Hb) as [H1 H2]; [|done|].
      + intros Hx. apply (iv_hd1 _ _ H), Hp, Hx.
      + split_and!; [done|by apply started_spec|]. intros e He. destruct (same_lookup _ _ _ _ Hsame He) as (d0&Hd0&E). rw E. by simplify_eq.
    - split_and!; [apply H|done|]. intros e He. destruct (same_lookup _ _ _ _ Hsame He) as (d0&Hd0&E). rw E. by apply Hs. }
  split; [|done|done| | | |by rw Eh Hh1; apply H|done|done].
  - rw Ew length_insert Hlen. apply H.
  - apply NoDup_app. split_and!; [apply H| |apply NoDup_singleton]. intros x Hx ->%list_elem_of_singleton. done.
  - intros j. rw Ew. destruct (decide (j = i)) as [->|Hne].
    + rewrite list_lookup_insert_eq; [exact (lookup_lt_Some _ _ _ Hw)|]. apply elem_of_app. right. by left.
    + rewrite list_lookup_insert_ne; [congruence|]. pose proof (iv_wait _ _ H j) as Hj.
      assert (j ∈ q ++ [i] ↔ j ∈ q) as Hin by (rewrite elem_of_app list_elem_of_singleton; tauto).
      destruct (i_wait s !! j) as [[]|]; rw Hin; [done|done| |done]. destruct Hj as [Hj1 Hj2]. split; [done|].
      intros e He. destruct (same_lookup _ _ _ _ Hsame He) as (d0&Hd0&E). rw E. by apply Hj2.
  - intros j e He. destruct (same_lookup _ _ _ _ Hsame He) as (d0&Hd0&E). rw E Eh. destruct (iv_bufs _ _ H j d0 Hd0) as [H1 H2].
    split; [done|]. intros [Hj| ->%list_elem_of_singleton]%elem_of_app; [by apply H2|]. by simplify_eq.
Qed.

Lemma iderw_wp me s q i d :
  inv s q → i_wait s !! i = Some Idle → i_bufs s !! i = Some d → holdingsleep_of me (d_buf d) = true → pending (havedisk1 s) (d_buf d) →
  wp (iderw me i) s (λ r s', r = false ∧ inv s' (q ++ [i]) ∧ same_bufs (i_bufs s) (i_bufs s') ∧
    a_disk (i_hw s') = a_disk (i_hw s) ∧ a_irq (i_hw s') = a_irq (i_hw s)).
Proof.
  intros H Hw Hd Hhold Hp. pose proof (iv_bufs _ _ H i d Hd) as [[(v&y&Hf) [Hb Hdl]] _]. destruct Hp as [Hp1 Hp2].
  assert (v && negb y = false) as Hvy by (destruct v, y; done). pose proof (iv_wait _ _ H i) as Hi. rw Hw in Hi.
  rw /iderw. apply wp_bind, (wp_dbuf_at s i d); [done|]. rw Hhold /=. rewrite (done_flag _ v y Hf) Hvy. apply wp_bind, wp_get.
  replace (negb (b_dev (d_buf d) =? 0) && negb (havedisk1 s)) with false by (destruct (Z.eqb_spec (b_dev (d_buf d)) 0) as [|Hne]; [done|by rw Hp2]).
  apply wp_bind, wp_lock_acquire; [rw /= (iv_held _ _ H); apply not_elem_of_nil|]. rw /= (iv_held _ _ H). apply wp_bind, wp_modify, wp_bind, wp_get.
  cbn [i_bufs i_wait idequeue havedisk1 i_hw i_held]. pose proof (enqueue_chain _ _ _ i d (iv_chain _ _ H) (iv_nodup _ _ H) Hi Hd) as Hch.
  set (bs1 := alter (set_qnext None) i (i_bufs s)) in *. assert (same_bufs (i_bufs s) bs1) as Hs1 by (by apply same_alter).
  assert (length bs1 = length (i_bufs s)) as Hl1 by (apply length_alter). rewrite Hl1.
  assert (bs1 !! i = Some (set_qnext None d)) as Hi1 by (rw /bs1 list_lookup_alter_eq Hd; done).
  destruct (idequeue s) as [j|] eqn:Eq.
  - destruct Hch as (l&El&Hch). rewrite El. apply wp_bind, wp_modify, wp_bind, wp_get. cbn [i_bufs i_wait idequeue havedisk1 i_hw i_held].
    assert (q ≠ [] ∧ j ≠ i) as [Hq Hji].
    { destruct (chain_some _ _ _ _ (iv_chain _ _ H) Eq) as [q' ->]. split; [done|]. intros ->. apply Hi. by left. }
    rewrite bool_decide_false; [congruence|]. apply wp_bind, wp_when_false.
    set (bs2 := alter (set_qnext (Some i)) l bs1) in *. assert (same_bufs (i_bufs s) bs2) as Hs2 by (eapply same_trans; [exact Hs1|by apply same_alter]).
    destruct (bs2 !! i) as [d2|] eqn:Ei2; [|specialize (Hs2 i); rewrite Ei2 Hd in Hs2; done].
    destruct (same_lookup _ _ _ _ Hs2 Ei2) as (d0&Hd0&Ed). simplify_eq.
    apply (iderw_wait_wp _ i d2 v y); [done|by rw Ed|done|]. rewrite Hvy. cbn [i_bufs i_wait idequeue havedisk1 i_hw i_held].
    split; [done|]. split; [|done]. apply (enqueue_inv s q i d); try done; [by rw /bs2 length_alter|]. simpl. by destruct q.
  - destruct Hch as [Hch ->]. apply wp_bind, wp_modify, wp_bind, wp_get. cbn [i_bufs i_wait idequeue havedisk1 i_hw i_held].
    rewrite bool_decide_true //. destruct (iv_serving _ _ H) as [Hc Hirq].
    apply wp_bind, wp_when_true, (idestart_wp _ i (set_qnext None d)); [done|done|done|apply H|].
    cbn [d_buf set_qnext]. apply (iderw_wait_wp _ i (set_qnext None d) v y); [done..|]. rewrite Hvy. cbn [with_hw i_bufs i_wait idequeue havedisk1 i_hw i_held].
    destruct (started_spec (d_buf d) (i_hw s) Hb) as (E1&_&_&E4&_). split_and!; [done| |done|done|done].
    by apply (enqueue_inv s [] i d).
Qed.

(** *** A request is done *)

(** What the handler leaves in the buffer. *)
Definition finished (b : buf) (x : block) : buf := set_flags (fl true false) (set_data x b).
Definition answer (a : ata) (b : buf) : block := if has_flag b B_DIRTY then b_data b else sector_at (a_disk a) (key_of b).

Lemma finish_flags v y : Z.land (Z.lor (fl v y) B_VALID) (Z.lnot B_DIRTY) = fl true false.
Proof. by destruct v, y. Qed.

(** The rest of the handler, with the next request started. *)
Definition next_hw (bs : list dbuf) (q : list nat) (a : ata) : ata :=
  match q with [] => a | k :: _ => match bs !! k with Some d => started (d_buf d) a | None => a end end.

Lemma dequeue_inv s i q d x s' :
  inv s (i :: q) → i_bufs s !! i = Some d → a_irq (i_hw s) = true → length x = Z.to_nat BSIZE →
  i_bufs s' = <[i := DBuf (finished (d_buf d) x) (d_qnext d)]> (i_bufs s) → i_wait s' = <[i := Woken]> (i_wait s) →
  idequeue s' = d_qnext d → havedisk1 s' = havedisk1 s → i_held s' = [] →
  (∃ f, i_hw s' = next_hw (i_bufs s) q (Ata (a_disk (i_hw s)) (a_has1 (i_hw s)) (a_regs (i_hw s)) None f 0 false)) → inv s' q.
Proof.
  intros H Hd Hirq Hx Eb Ew Eq Eh Ehd [f Ehw]. pose proof (iv_chain _ _ H) as (_&d0&Hd0&Hch). simplify_eq.
  pose proof (iv_nodup _ _ H) as [Hiq Hnd]%NoDup_cons. pose proof (lookup_lt_Some _ _ _ Hd) as Hlt.
  assert (∀ j e, i_bufs s' !! j = Some e → (j = i ∧ e = DBuf (finished (d_buf d) x) (d_qnext d)) ∨ (j ≠ i ∧ i_bufs s !! j = Some e)) as Hlk.
  { intros j e He. rw Eb in He. apply list_lookup_insert_Some in He as [(->&<-&_)|[Hne He]]; [by left|right; split; [congruence|done]]. }
  pose proof (iv_hw _ _ H) as (Hdr&_&Hsec). set (a0 := Ata _ _ _ None f 0 false) in *.
  assert (hw_ok a0) as Hok0 by (split_and!; done).
  assert (hw_ok (i_hw s') ∧ a_has1 (i_hw s') = a_has1 (i_hw s) ∧ match q with [] => a_cmd (i_hw s') = None ∧ a_irq (i_hw s') = false
    | j :: _ => ∀ e, i_bufs s' !! j = Some e → serving (i_hw s') (d_buf e) end) as (Hok&Hh1&Hserv).
  { rw Ehw. destruct q as [|k q]; [done|]. destruct Hch as (_&e&He&_). cbn [next_hw]. rw He.
    destruct (iv_bufs _ _ H k e He) as [(_&Hb&_) Hp]. destruct (Hp ltac:(right; by left)) as [_ Hp2].
    destruct (started_serving a0 (d_buf e) Hok0 Hb) as [H1 H2]; [intros Hz; by apply (iv_hd1 _ _ H), Hp2|done|].
    destruct (started_spec (d_buf e) a0 Hb) as (_&Es&_). split_and!; [done|exact Es|]. intros e' [[-> _]|[_ He']]%Hlk; [exfalso; apply Hiq; by left|]. by simplify_eq. }
  split; [|done| |done| | |by rw Eh Hh1; apply H|done|done].
  - rw Ew Eb !length_insert. apply H.
  - rw Eq. apply (chain_frame (i_bufs s)); [|done]. intros j e Hj He. exists e. split; [|done]. rw Eb.
    rewrite list_lookup_insert_ne //. intros ->. done.
  - intros j. rw Ew. destruct (decide (j = i)) as [->|Hne].
    + pose proof (iv_wait _ _ H i) as Hw. rewrite list_lookup_insert_eq; [by rw (iv_len _ _ H)|]. split; [done|].
      intros e [[_ ->]|[? _]]%Hlk; [|done]. done.
    + rewrite list_lookup_insert_ne; [congruence|]. pose proof (iv_wait _ _ H j) as Hj.
      destruct (i_wait s !! j) as [[]|]; rewrite ?elem_of_cons in Hj; [tauto|by destruct Hj| |tauto].
      destruct Hj as [Hj1 Hj2]. split; [tauto|]. intros e [[-> _]|[_ He]]%Hlk; [done|]. by apply Hj2.
  - intros j e [[-> ->]|[Hne He]]%Hlk.
    + destruct (iv_bufs _ _ H i d Hd) as [(_&Hb&_) _]. split; [|done]. split; [by exists true, false|done].
    + destruct (iv_bufs _ _ H j e He) as [H1 H2]. rw Eh. split; [done|]. intros Hj. apply H2. by right.
Qed.

Lemma next_hw_same s q0 q a : inv s q0 → a_disk (next_hw (i_bufs s) q a) = a_disk a ∧ a_irq (next_hw (i_bufs s) q a) = a_irq a.
Proof.
  intros H. destruct q as [|k q]; [done|]. cbn [next_hw]. destruct (i_bufs s !! k) as [e|] eqn:He; [|done].
  destruct (iv_bufs _ _ H k e He) as [(_&Hb&_) _]. destruct (started_spec (d_buf e) a Hb) as (E1&_&_&E4&_). done.
Qed.

Lemma alter_twice {A} (f g : A → A) i e (l : list A) : (i < length l)%nat → alter g i (alter f i (<[i := e]> l)) = <[i := g (f e)]> l.
Proof.
  intros Hi. rewrite (alter_slot f i _ e); [by apply list_lookup_insert_eq|]. rewrite list_insert_insert_eq.
  rewrite (alter_slot g i _ (f e)); [by apply list_lookup_insert_eq|]. by rewrite list_insert_insert_eq.
Qed.

Lemma ideintr_wp s i q d :
  inv s (i :: q) → i_bufs s !! i = Some d → a_irq (i_hw s) = true →
  wp ideintr (with_hw (ack (i_hw s)) s) (λ _ s', inv s' q ∧ a_disk (i_hw s') = a_disk (i_hw s) ∧ a_irq (i_hw s') = false ∧
    i_bufs s' = <[i := DBuf (finished (d_buf d) (answer (i_hw s) (d_buf d))) (d_qnext d)]> (i_bufs s) ∧
    i_wait s' = <[i := Woken]> (i_wait s)).
Proof.
  intros H Hd Hirq. pose proof (iv_chain _ _ H) as (Eq&d0&Hd0&Hch). simplify_eq. destruct (iv_hw _ _ H) as (Hdr&Hbits&Hsec).
  destruct (iv_serving _ _ H d Hd) as [(_&Hx&_)|(Hc&_&Hfifo)]; [congruence|]. destruct (iv_bufs _ _ H i d Hd) as [((v&y&Hf)&Hb&Hdl) _].
  rw /ideintr. apply wp_bind, wp_lock_acquire; [rw /= (iv_held _ _ H); apply not_elem_of_nil|]. rw /= (iv_held _ _ H).
  apply wp_bind, wp_gets. cbn [idequeue]. rw Eq. apply wp_bind, (wp_dbuf_at _ i d); [done|]. apply wp_bind, wp_modify.
  cbn [i_bufs i_wait idequeue havedisk1 i_hw i_held].
  set (x := answer (i_hw s) (d_buf d)). set (a1 := λ f, Ata (a_disk (i_hw s)) (a_has1 (i_hw s)) (a_regs (i_hw s)) None f 0 false).
  set (st := λ b a, Ide (<[i := DBuf b (d_qnext d)]> (i_bufs s)) (i_wait s) (d_qnext d) (havedisk1 s) a ["ide"]).
  assert (ack (i_hw s) = a1 (a_fifo (i_hw s))) as Ea by (rw /ack /a1 Hc Hbits; done).
  apply wp_bind, (wp_mono _ _ (λ _ s1, ∃ f, s1 = st (set_data x (d_buf d)) (a1 f))).
  - destruct (has_flag (d_buf d) B_DIRTY) eqn:Ey; rw /x /answer Ey.
    + apply wp_ret. exists (a_fifo (i_hw s)). rw /st -Ea. f_equal. symmetry. apply list_insert_id. rw Hd. f_equal. by destruct d as [[]].
    + apply wp_bind, idewait_ready; [by rw Ea|by rw Ea; split_and!|]. apply wp_when_true. apply wp_bind, wp_bind, wp_get, wp_bind, wp_modify, wp_ret.
      apply wp_modify. cbn [i_bufs i_wait idequeue havedisk1 i_hw i_held]. rw Ea. exists (drop (Z.to_nat BSIZE) (a_fifo (i_hw s))).
      rw /st /a1. cbn [a_disk a_has1 a_regs a_cmd a_fifo a_bits a_irq]. rewrite Hfifo // take_ge; [by rw Hsec|]. by rewrite (alter_slot _ i _ d).
  - intros _ s1 [f ->]. apply wp_bind, wp_modify, wp_bind, wp_modify. rw /st. cbn [i_bufs i_wait idequeue havedisk1 i_hw i_held].
    rewrite alter_twice; [exact (lookup_lt_Some _ _ _ Hd)|].
    assert (∀ g, g = DBuf (set_data x (d_buf d)) (d_qnext d) → in_buf (λ b, set_flags (Z.land (b_flags b) (Z.lnot B_DIRTY)) b)
      (in_buf (λ b, set_flags (Z.lor (b_flags b) B_VALID) b) g) = DBuf (finished (d_buf d) x) (d_qnext d)) as Eg.
    { intros g ->. rewrite /in_buf /finished /set_flags /set_data /=. by rewrite Hf finish_flags. }
    rewrite (Eg _ eq_refl). clear Eg.
    pose proof (iv_wait _ _ H i) as Hw. apply wp_bind, wp_bind, wp_get. cbn [i_wait].
    assert (i_wait s !! i = Some Asleep) as Hwi.
    { destruct (i_wait s !! i) as [[]|]; [|done|destruct Hw as [Hw _]|]; by destruct Hw; left. }
    rewrite Hwi bool_decide_true //. apply wp_when_true, wp_modify. cbn [i_bufs i_wait idequeue havedisk1 i_hw i_held].
    assert (length x = Z.to_nat BSIZE) as Hx by (rw /x /answer; by destruct (has_flag (d_buf d) B_DIRTY)).
    apply wp_bind, wp_gets. cbn [idequeue].
    set (bs' := <[i := DBuf (finished (d_buf d) x) (d_qnext d)]> (i_bufs s)). apply wp_bind.
    apply (wp_mono _ _ (λ _ s2, s2 = Ide bs' (<[i := Woken]> (i_wait s)) (d_qnext d) (havedisk1 s) (next_hw (i_bufs s) q (a1 f)) ["ide"])).
    + destruct q as [|k q]; cbn [chain] in Hch; [rw Hch; by apply wp_ret|]. destruct Hch as (Ek&e&He&_). rw Ek.
      destruct (iv_bufs _ _ H k e He) as [(_&Hbk&_) _]. assert (i ≠ k) as Hik by (intros ->; pose proof (iv_nodup _ _ H) as [Hn _]%NoDup_cons; apply Hn; by left).
      apply (idestart_wp _ k e); [rw /bs' /=; by rewrite list_lookup_insert_ne|done|done|by split_and!|]. rw /with_hw /next_hw He. done.
    + intros _ s2 ->. apply (wp_lock_release _ []); [done|apply not_elem_of_nil|]. cbn [set_held ide_HasLocks i_bufs i_wait idequeue havedisk1 i_hw].
      destruct (next_hw_same s (i :: q) q (a1 f) H) as [En1 En2].
      split_and!; [|done..]. apply (dequeue_inv s i q d x); try done. by exists f.
Qed.

(** ** One request after the other *)

Definition serve (r : req) (D : gmap (Z * Z) block) : gmap (Z * Z) block := match r with RRead _ => D | RWrite k x => <[k := x]> D end.
Definition result (r : req) (D : gmap (Z * Z) block) : block := match r with RRead k => sector_at D k | RWrite _ x => x end.

(** A disk with a queue of requests; [ad_served]: the first one has been done. *)
Record adisk := ADisk { ad_disk : gmap (Z * Z) block; ad_queue : list (nat * req); ad_served : bool }.
Inductive astep : adisk → label → adisk → Prop :=
| A_call D Q b i r : astep (ADisk D Q b) (LCall i r) (ADisk D (Q ++ [(i, r)]) b)
| A_serve D i r Q : astep (ADisk D ((i, r) :: Q) false) LServe (ADisk (serve r D) ((i, r) :: Q) true)
| A_done D i r Q : astep (ADisk D ((i, r) :: Q) true) (LDone i (result r D)) (ADisk D Q false)
| A_tau A : astep A LTau A.

Definition abs (s : ide) (q : list nat) : adisk := ADisk (a_disk (i_hw s)) (reqs (i_bufs s) q) (a_irq (i_hw s)).

Lemma req_result a b : result (req_of b) (a_disk a) = answer a b.
Proof. rw /req_of /answer. by destruct (has_flag b B_DIRTY). Qed.
Lemma reqs_cons bs i q d : bs !! i = Some d → reqs bs (i :: q) = (i, req_of (d_buf d)) :: reqs bs q.
Proof. intros H. rewrite /reqs. cbn [omap list_omap]. by rewrite H. Qed.

Lemma resume_wp s q i :
  inv s q → i_wait s !! i = Some Woken →
  wp (iderw_resume i) s (λ r s', r = true ∧ inv s' q ∧ abs s' q = abs s q ∧ i_wait s' = <[i := Idle]> (i_wait s)).
Proof.
  intros H Hw. pose proof (iv_wait _ _ H i) as Hi. rw Hw in Hi. destruct Hi as [Hi Hfl].
  destruct (lookup_lt_is_Some_2 (i_bufs s) i) as [d Hd]; [rw -(iv_len _ _ H); exact (lookup_lt_Some _ _ _ Hw)|].
  rw /iderw_resume. apply wp_bind, wp_lock_acquire; [rw /= (iv_held _ _ H); apply not_elem_of_nil|]. rw /= (iv_held _ _ H).
  apply (iderw_wait_wp _ i d true false); [done|by apply Hfl|done|]. cbn [andb negb i_bufs i_wait idequeue havedisk1 i_hw i_held].
  split_and!; [done| |done|done]. destruct H as [H1 H2 H3 H4 H5 H6 H7 H8 H9]. split; try done; cbn [i_bufs i_wait idequeue havedisk1 i_hw i_held].
  - by rewrite length_insert.
  - intros j. destruct (decide (j = i)) as [->|Hne]; [|rewrite list_lookup_insert_ne; [congruence|apply H5]].
    rewrite list_lookup_insert_eq //. exact (lookup_lt_Some _ _ _ Hw).
Qed.

Lemma device_step s q a : inv s q → complete (i_hw s) = Some a →
  inv (with_hw a s) q ∧ astep (abs s q) LServe (abs (with_hw a s) q) ∧ a_irq (i_hw s) = false ∧ a_irq a = true ∧ q ≠ [].
Proof.
  intros H Hc. pose proof (iv_serving _ _ H) as Hs. pose proof (iv_hw _ _ H) as (Hdr&Hb&Hsec). destruct q as [|i q].
  { destruct Hs as [Hs _]. rw /complete Hs in Hc. done. }
  destruct (chain_in _ _ _ i (iv_chain _ _ H)) as [d Hd]; [by left|]. destruct (Hs d Hd) as [(Hcmd&Hirq&Hff)|(Hx&_)]; [|rw /complete Hx in Hc; done].
  destruct (iv_bufs _ _ H i d Hd) as [(_&_&Hdl) _]. rewrite /complete Hcmd in Hc. 
  assert (a_disk a = serve (req_of (d_buf d)) (a_disk (i_hw s)) ∧ a_cmd a = None ∧ a_irq a = true ∧ a_has1 a = a_has1 (i_hw s) ∧ a_regs a = a_regs (i_hw s) ∧ a_bits a = 0 ∧
    (has_flag (d_buf d) B_DIRTY = false → a_fifo a = sector_at (a_disk a) (key_of (d_buf d)))) as (E1&E2&E3&E4&E5&E6&E7).
  { rw /cmd_of /req_of in Hc |- *. destruct (has_flag (d_buf d) B_DIRTY); simplify_eq/=; [by rewrite Hff|]. done. }
  split_and!; [|rw /abs (reqs_cons _ _ _ d) //; cbn [with_hw i_hw i_bufs]; rw E1 Hirq E3 ; constructor|done|done|done].
  destruct H as [H1 H2 H3 H4 H5 H6 H7 H8 H9]. split; try done; cbn [with_hw i_bufs i_wait idequeue havedisk1 i_hw i_held].
  - by rw E4.
  - split_and!; [rw /drive_of /reg E5 E4; exact Hdr|done|]. intros k. rw E1 /serve /req_of. destruct (has_flag (d_buf d) B_DIRTY); [|done].
    rw /sector_at. destruct (decide (k = key_of (d_buf d))) as [->|Hne]; [by rewrite lookup_insert_eq|]. rewrite lookup_insert_ne; [congruence|apply Hsec].
  - intros d' Hd'. simplify_eq. right. done.
Qed.

Lemma intr_step s q i d s' :
  inv s q → a_irq (i_hw s) = true → idequeue s = Some i → ideintr (with_hw (ack (i_hw s)) s) = Ret tt s' → i_bufs s' !! i = Some d →
  ∃ q', q = i :: q' ∧ inv s' q' ∧ astep (abs s q) (LDone i (b_data (d_buf d))) (abs s' q') ∧ a_irq (i_hw s') = false ∧ i_wait s' = <[i := Woken]> (i_wait s).
Proof.
  intros H Hirq Hq Hr Hd. destruct (chain_some _ _ _ _ (iv_chain _ _ H) Hq) as [q' ->]. exists q'. split; [done|].
  destruct (chain_in _ _ _ i (iv_chain _ _ H)) as [e He]; [by left|].
  destruct (wp_result _ _ _ _ _ (ideintr_wp s i q' e H He Hirq) Hr) as (Hi&Ed&Ei&Eb&Ew). rw Eb in Hd.
  pose proof (lookup_lt_Some _ _ _ He) as Hlt. rewrite list_lookup_insert_eq // in Hd. simplify_eq. split_and!; [done| |done|done].
  rw /abs Ed Ei Eb Hirq (reqs_cons _ _ _ e) // (reqs_ext (i_bufs s)).
  - intros j Hj. rewrite list_lookup_insert_ne //. pose proof (iv_nodup _ _ H) as [Hn _]%NoDup_cons. congruence.
  - cbn [d_buf finished b_data set_flags set_data]. rw -req_result. constructor.
Qed.

Lemma inner_refines s q l s' : inv s q → inner s l s' → ∃ q', inv s' q' ∧ astep (abs s q) l (abs s' q').
Proof.
  intros H [i r s1 Hw Hr|i d s1 Hirq Hq Hr Hd|a Ha].
  - destruct (wp_result _ _ _ _ _ (resume_wp s q i H Hw) Hr) as (_&H1&E&_). exists q. split; [done|]. rw E. constructor.
  - destruct (intr_step s q i d s1 H Hirq Hq Hr Hd) as (q'&_&H1&Ha&_). by exists q'.
  - destruct (device_step s q a H Ha) as (H1&H2&_). by exists q.
Qed.

Lemma call_guards me s i d r s' :
  i_bufs s !! i = Some d → buf_ok (d_buf d) → iderw me i s = Ret r s' →
  holdingsleep_of me (d_buf d) = true ∧ pending (havedisk1 s) (d_buf d).
Proof.
  intros Hd ((v&y&Hf)&_) Hr. rewrite /iderw /mbind /K_bind /dbuf_at Hd in Hr. cbv zeta in Hr.
  destruct (holdingsleep_of me (d_buf d)); [|done]. cbn [negb] in Hr. rewrite (done_flag _ v y Hf) in Hr.
  destruct (v && negb y) eqn:Evy; [done|]. rewrite {1}/get in Hr.
  split; [done|]. split; [rewrite Hf; by destruct v, y|]. intros Hdev. destruct (havedisk1 s); [done|].
  destruct (Z.eqb_spec (b_dev (d_buf d)) 0); [done|]. done.
Qed.

Lemma step_refines s q l s' : inv s q → istep s l s' → ∃ q', inv s' q' ∧ astep (abs s q) l (abs s' q').
Proof.
  intros H [l1 s1 Hin|me i d r s1 Hw Hd Hr|i d b Hw Hd Hb].
  - exact (inner_refines s q l1 s1 H Hin).
  - destruct (call_guards me s i d r s1 Hd (proj1 (iv_bufs _ _ H i d Hd)) Hr) as [Hh Hp].
    destruct (wp_result _ _ _ _ _ (iderw_wp me s q i d H Hw Hd Hh Hp) Hr) as (_&H1&Hsame&Ed&Ei). exists (q ++ [i]). split; [done|].
    rw /abs Ed Ei reqs_app (reqs_ext (i_bufs s) (i_bufs s1) q); [intros j _; apply Hsame|].
    rw (reqs_ext (i_bufs s) (i_bufs s1) [i]); [intros j _; apply Hsame|]. rw (reqs_cons _ i [] d) //. constructor.
  - pose proof (iv_wait _ _ H i) as Hi. rw Hw in Hi. pose proof (lookup_lt_Some _ _ _ Hd) as Hlt. exists q. split.
    + destruct H as [H1 H2 H3 H4 H5 H6 H7 H8 H9]. split; try done; cbn [i_bufs i_wait idequeue havedisk1 i_hw i_held].
      * by rewrite length_insert.
      * apply (chain_frame (i_bufs s)); [|done]. intros j e Hj He. exists e. split; [|done]. rewrite list_lookup_insert_ne //. by intros ->.
      * intros j. specialize (H5 j). destruct (decide (j = i)) as [->|Hne]; [by rw Hw|].
        destruct (i_wait s !! j) as [[]|]; [done|done| |done]. rewrite list_lookup_insert_ne; [congruence|done].
      * intros j e He. apply list_lookup_insert_Some in He as [(->&<-&_)|[Hne He]]; [by split|by apply H6].
      * destruct q as [|k q]; [done|]. intros e He. apply list_lookup_insert_Some in He as [(->&_&_)|[Hne He]]; [exfalso; apply Hi; by left|by apply H9].
    + assert (reqs (<[i := DBuf b (d_qnext d)]> (i_bufs s)) q = reqs (i_bufs s) q) as E.
      { apply reqs_ext. intros j Hj. rewrite list_lookup_insert_ne //. by intros ->. }
      rw /abs /= E. constructor.
Qed.

(** *** Runs *)

Definition calls (tr : list label) : list (nat * req) := omap (λ l, match l with LCall i r => Some (i, r) | _ => None end) tr.
Definition dones (tr : list label) : list (nat * block) := omap (λ l, match l with LDone i x => Some (i, x) | _ => None end) tr.

(** The requests done one after the other: what they return, and the disk after them. *)
Fixpoint exec (D : gmap (Z * Z) block) (l : list (nat * req)) : list (nat * block) * gmap (Z * Z) block :=
  match l with
  | [] => ([], D)
  | (i, r) :: l => let '(out, D') := exec (serve r D) l in ((i, result r (serve r D)) :: out, D')
  end.

Lemma exec_snoc D l i r :
  exec D (l ++ [(i, r)]) = ((exec D l).1 ++ [(i, result r (serve r (exec D l).2))], serve r (exec D l).2).
Proof.
  revert D. induction l as [|[j u] l IH]; intros D; [done|]. cbn [app exec]. rewrite IH. destruct (exec (serve u D) l). done.
Qed.

(** After a trace: the calls are those done and those in the queue. *)
Record explains (D0 : gmap (Z * Z) block) (tr : list label) (A : adisk) (l : list (nat * req)) : Prop := {
  ex_calls : calls tr = l ++ ad_queue A;
  ex_dones : dones tr = (exec D0 l).1;
  ex_disk : ad_disk A = match ad_queue A with
            | (_, r) :: _ => if ad_served A then serve r (exec D0 l).2 else (exec D0 l).2
            | [] => (exec D0 l).2
            end;
  ex_served : ad_queue A = [] → ad_served A = false
}.

Lemma explains_step D0 tr A l lb A' : explains D0 tr A l → astep A lb A' → ∃ l', explains D0 (tr ++ [lb]) A' l'.
Proof.
  intros [E1 E2 E3 E4] Hs. destruct Hs as [D Q b i r|D i r Q|D i r Q|A]; cbn [ad_queue ad_disk ad_served] in *.
  - exists l. split; rewrite /calls /dones ?omap_app -/(calls tr) -/(dones tr) ?E1 ?E2 /= ?app_nil_r ?app_assoc //.
    + destruct Q as [|[j u] Q]; [|done]. rewrite E4 //.
    + by destruct Q.
  - exists l. split; rewrite /calls /dones ?omap_app -/(calls tr) -/(dones tr) ?E1 ?E2 /= ?app_nil_r //. by rewrite E3.
  - exists (l ++ [(i, r)]). split; rewrite /calls /dones ?omap_app -/(calls tr) -/(dones tr) ?E1 ?E2 /= ?app_nil_r //.
    + by rewrite -app_assoc.
    + by rewrite exec_snoc E3.
    + rewrite exec_snoc E3. by destruct Q as [|[]].
  - exists l. split; rewrite /calls /dones ?omap_app -/(calls tr) -/(dones tr) ?E1 ?E2 /= ?app_nil_r //.
Qed.

Lemma runs_explained s0 tr s : inv s0 [] → iruns s0 tr s → ∃ q l, inv s q ∧ explains (a_disk (i_hw s0)) tr (abs s q) l.
Proof.
  intros H Hr. induction Hr as [|tr s1 lb s2 Hr IH Hs].
  - exists [], []. split; [done|]. destruct (iv_serving _ _ H) as [_ Hi]. split; try done. 
  - destruct IH as (q&l&H1&He). destruct (step_refines _ _ _ _ H1 Hs) as (q2&H2&Ha). destruct (explains_step _ _ _ _ _ _ He Ha) as [l2 He2].
    by exists q2, l2.
Qed.

(** *** Progress *)

Definition count (w : waiter) (l : list waiter) : Z := Z.of_nat (length (filter (.= w) l)).
(** The steps the driver and the controller still have to take: three for a request in the list, one of them done when its
    interrupt is pending, and one for a process that was woken. *)
Definition left_to_do (s : ide) : Z :=
  3 * count Asleep (i_wait s) + count Woken (i_wait s) - (if a_irq (i_hw s) then 1 else 0).

Lemma count_insert w l i x y : l !! i = Some x →
  count w (<[i := y]> l) = count w l - (if decide (x = w) then 1 else 0) + (if decide (y = w) then 1 else 0).
Proof.
  rw /count. revert i. induction l as [|z l IH]; intros [|i] Hi; simplify_eq/=; rewrite ?filter_cons.
  - repeat case_decide; simpl; lia.
  - specialize (IH i Hi). repeat case_decide; simpl; lia.
Qed.
Lemma waiters_pos w l i : l !! i = Some w → 0 < count w l.
Proof.
  intros H. rw /count. assert (w ∈ filter (.= w) l) as Hin by (apply list_elem_of_filter; split; [done|exact (list_elem_of_lookup_2 _ _ _ H)]).
  destruct (filter _ l); [by apply not_elem_of_nil in Hin|simpl; lia].
Qed.
Lemma queued_asleep s q i : inv s q → i ∈ q → i_wait s !! i = Some Asleep.
Proof. intros H Hi. pose proof (iv_wait _ _ H i) as Hw. destruct (i_wait s !! i) as [[]|]; [done|done|by destruct Hw|done]. Qed.

Lemma left_nonneg s q : inv s q → 0 ≤ left_to_do s.
Proof.
  intros H. rw /left_to_do. assert (0 ≤ count Woken (i_wait s) ∧ 0 ≤ count Asleep (i_wait s)) as [??] by (rw /count; lia).
  destruct (a_irq (i_hw s)) eqn:E; [|lia]. pose proof (iv_serving _ _ H) as Hs. destruct q as [|i q]; [destruct Hs; congruence|].
  pose proof (waiters_pos Asleep _ i (queued_asleep s _ i H ltac:(by left))). lia.
Qed.

Lemma inner_decreases s q l s' : inv s q → inner s l s' → left_to_do s' < left_to_do s.
Proof.
  intros H [i r s1 Hw Hr|i d s1 Hirq Hq Hr Hd|a Ha]; rw /left_to_do.
  - destruct (wp_result _ _ _ _ _ (resume_wp s q i H Hw) Hr) as (_&_&E&Ew). injection E as _ _ Ei. rw Ew Ei !(count_insert _ _ i Woken) //. simpl. lia.
  - destruct (intr_step s q i d s1 H Hirq Hq Hr Hd) as (q'&->&_&_&Ei&Ew). rw Ew Ei Hirq !(count_insert _ _ i Asleep);
      [exact (queued_asleep s _ i H ltac:(by left))..|]. simpl. lia.
  - destruct (device_step s q a H Ha) as (_&_&E1&E2&_). simpl. rw E1 E2. lia.
Qed.

Lemma inner_enabled s q i : inv s q → i_wait s !! i = Some Asleep ∨ i_wait s !! i = Some Woken → ∃ l s', inner s l s'.
Proof.
  intros H [Hw|Hw].
  - pose proof (iv_wait _ _ H i) as Hi. rw Hw in Hi. destruct q as [|j q]; [by apply not_elem_of_nil in Hi|].
    destruct (chain_in _ _ _ j (iv_chain _ _ H)) as [d Hd]; [by left|].
    destruct (iv_serving _ _ H d Hd) as [(Hc&_)|(_&Hirq&_)].
    + destruct (complete (i_hw s)) as [a|] eqn:E; [|rw /complete Hc in E; by destruct (cmd_of (d_buf d))]. exists LServe, (with_hw a s). exact (I_device s a E).
    + destruct (wp_elim _ _ _ (ideintr_wp s j q d H Hd Hirq)) as ([]&s'&Hr&_&_&_&Eb&_). destruct (iv_chain _ _ H) as [Hq _].
      eexists _, s'. apply (I_intr s j (DBuf (finished (d_buf d) (answer (i_hw s) (d_buf d))) (d_qnext d))); [done..|].
      rw Eb. apply list_lookup_insert_eq. exact (lookup_lt_Some _ _ _ Hd).
  - destruct (wp_elim _ _ _ (resume_wp s q i H Hw)) as (r&s'&Hr&_). exists LTau, s'. exact (I_resume s i r s' Hw Hr).
Qed.

(** *** Start *)

(** The machine before [ideinit]: the controller is idle and the first drive selected. *)
Definition boot (bs : list dbuf) (has1 : bool) (D : gmap (Z * Z) block) : ide :=
  Ide bs (replicate (length bs) Idle) None false (Ata D has1 ∅ None [] 0 false) [].

Lemma drive_set a v : drive_of (outb 0x1f6 (Z.lor 0xe0 (Z.shiftl v 4)) a) = Z.land (Z.shiftr (u8 (Z.lor 0xe0 (Z.shiftl v 4))) 4) 1.
Proof. rw /drive_of. by rewrite reg_outb. Qed.

Lemma ideinit_wp bs has1 D :
  Forall (λ d, buf_ok (d_buf d)) bs → (∀ k, length (sector_at D k) = Z.to_nat BSIZE) →
  wp ideinit (boot bs has1 D) (λ _ s, inv s [] ∧ havedisk1 s = has1 ∧ a_disk (i_hw s) = D).
Proof.
  intros Hb HD. rw /ideinit. apply wp_bind, idewait_ready; [done|by split_and!|]. apply wp_bind, wp_on_hw.
  set (s1 := with_hw (outb 0x1f6 (Z.lor 0xe0 (Z.shiftl 1 4)) (i_hw (boot bs has1 D))) (boot bs has1 D)).
  set (fin := λ h, Ide bs (replicate (length bs) Idle) None h (i_hw s1) []).
  apply wp_bind, (wp_mono _ _ (λ _ s, s = fin has1)).
  - destruct has1.
    + rewrite -(take_drop 1 (seq 0 1000)). cbn [take drop seq app for_break]. apply wp_bind, wp_bind, wp_get.
      change (status (i_hw s1)) with 0x40. cbn [Z.eqb negb]. apply wp_bind, wp_put, wp_ret, wp_ret. done.
    + apply (wp_for_break _ _ (λ _ s, s = s1)); [done| |].
      * intros pre x post s Hx ->. apply wp_bind, wp_get. change (status (i_hw s1)) with 0. by apply wp_ret.
      * by intros s ->.
  - intros _ s ->. apply wp_modify. cbn [fin i_bufs i_wait idequeue havedisk1 i_hw i_held]. split_and!; [|done|done].
    split; cbn [i_bufs i_wait idequeue havedisk1 i_hw i_held]; try done.
    + by rewrite length_replicate.
    + by apply NoDup_nil_2.
    + intros i. destruct (replicate (length bs) Idle !! i) as [w|] eqn:E; [|apply not_elem_of_nil].
      apply lookup_replicate in E as [-> _]. apply not_elem_of_nil.
    + intros i d Hd. split; [|intros Hi; by apply not_elem_of_nil in Hi]. exact (proj1 (Forall_lookup _ _) Hb i d Hd).
Qed.

(** ** Theorems *)


(** C24: a request that waits is always on its way.  In every run, as long as a process is in [iderw] the driver, the
    controller or a process that was woken has a step to take, and every such step brings the end nearer: the number
    [left_to_do] falls and is never negative, so that all requests are done after at most that many steps. *)
Theorem ide_never_stuck bs has1 D (Hb : Forall (λ d, buf_ok (d_buf d)) bs) (HD : ∀ k, length (sector_at D k) = Z.to_nat BSIZE) :
  wp ideinit (boot bs has1 D) (λ _ s1, ∀ tr s i w, iruns s1 tr s → i_wait s !! i = Some w → w ≠ Idle →
    (∃ l s', inner s l s') ∧ ∀ l s', inner s l s' → 0 ≤ left_to_do s' < left_to_do s).
Proof.
  refine (wp_mono _ _ _ _ (ideinit_wp bs has1 D Hb HD) _). intros _ s1 (H&_). intros tr s i w Hr Hw Hne.
  destruct (runs_explained s1 tr s H Hr) as (q&l&Hq&_). split.
  - apply (inner_enabled s q i Hq). destruct w; [done|by left|by right].
  - intros lb s' Hi. split; [|exact (inner_decreases s q lb s' Hq Hi)]. destruct (inner_refines s q lb s' Hq Hi) as (q'&Hq'&_). exact (left_nonneg s' q' Hq').
Qed.

(** A read that fails is reported as done.  When the controller ends the only request, a read, with an error, the handler does
    not take any data and still marks the buffer valid: the process gets the bytes that were in the buffer before. *)
Theorem failed_read_marked_valid s i d bits a (H : inv s [i]) (Hd : i_bufs s !! i = Some d) (Hr : has_flag (d_buf d) B_DIRTY = false)
  (Ha : complete_error bits (i_hw s) = Some a) (Hbits : bits = IDE_ERR ∨ bits = IDE_DF) :
  wp ideintr (with_hw (ack a) s) (λ _ s', i_bufs s' !! i = Some (DBuf (set_flags (fl true false) (d_buf d)) (d_qnext d)) ∧ i_wait s' !! i = Some Woken).
Proof.
  destruct (iv_chain _ _ H) as (Eq&d0&Hd0&Hch). simplify_eq. cbn [chain] in Hch. pose proof (queued_asleep s [i] i H ltac:(by left)) as Hw.
  destruct (iv_hw _ _ H) as (Hdr&_). destruct (iv_bufs _ _ H i d Hd) as [((v&y&Hf)&_) _]. pose proof (lookup_lt_Some _ _ _ Hd) as Hlt.
  assert (a_cmd a = None ∧ a_regs a = a_regs (i_hw s) ∧ a_has1 a = a_has1 (i_hw s) ∧ a_bits a = bits) as (E1&E2&E3&E4).
  { rw /complete_error in Ha. destruct (a_cmd (i_hw s)); by simplify_eq. }
  rw /ideintr. apply wp_bind, wp_lock_acquire; [rw /= (iv_held _ _ H); apply not_elem_of_nil|]. rw /= (iv_held _ _ H).
  apply wp_bind, wp_gets. cbn [idequeue]. rw Eq. apply wp_bind, (wp_dbuf_at _ i d); [done|]. apply wp_bind, wp_modify. rw Hr.
  cbn [i_bufs i_wait idequeue havedisk1 i_hw i_held]. apply wp_bind, wp_bind.
  apply (wp_mono _ _ (λ r s1, r = false ∧ s1 = Ide (i_bufs s) (i_wait s) (d_qnext d) (havedisk1 s) (ack a) ["ide"])).
  { rw /idewait. apply wp_bind, wp_get. cbn [i_hw]. rw /status. cbn [ack a_cmd a_bits a_has1]. rw E1 E3 E4.
    change (drive_of (ack a)) with (drive_of a). assert (drive_of a = drive_of (i_hw s)) as -> by (rw /drive_of /reg E2; done).
    destruct (Z.eqb_spec (drive_of (i_hw s)) 1) as [E|E]; cbn [andb]; [rewrite (Hdr E); cbn [negb]|]; destruct Hbits as [->| ->]; by apply wp_ret. }
  intros r s1 [-> ->]. apply wp_when_false. apply wp_bind, wp_modify, wp_bind, wp_modify. cbn [i_bufs i_wait idequeue havedisk1 i_hw i_held].
  rewrite -{1}(list_insert_id (i_bufs s) i d) // alter_twice //. apply wp_bind, wp_bind, wp_get. cbn [i_wait]. rewrite Hw bool_decide_true //.
  apply wp_when_true, wp_modify. cbn [i_bufs i_wait idequeue havedisk1 i_hw i_held]. apply wp_bind, wp_gets. cbn [idequeue]. rw Hch. apply wp_bind, wp_ret.
  apply (wp_lock_release _ []); [done|apply not_elem_of_nil|]. cbn [set_held ide_HasLocks i_bufs i_wait]. split.
  - rewrite list_lookup_insert_eq //. f_equal. rewrite /in_buf /set_flags /=. by rewrite Hf finish_flags ?Hch.
  - apply list_lookup_insert_eq. by rw (iv_len _ _ H).
Qed.

(** *** A run *)

(** Process 7 writes block 5 of the first drive and process 8 reads it. *)
Definition demo_buf (flags pid : Z) (x : Z) : dbuf := DBuf (Buf flags 0 5 (Sleeplock 1 "buffer" pid) 1 0 0 (replicate 512 x)) None.
Definition demo_bufs : list dbuf := [demo_buf (fl true true) 7 9; demo_buf (fl false false) 8 0].
Definition demo1 : ide := state_of ideinit (boot demo_bufs true ∅).
Definition demo2 : ide := state_of (iderw 7 0) demo1.
Definition demo3 : ide := state_of (iderw 8 1) demo2.
Definition serve_one (s : ide) : ide := with_hw (default (i_hw s) (complete (i_hw s))) s.
Definition intr_one (s : ide) : ide := state_of ideintr (with_hw (ack (i_hw s)) s).
Definition demo4 : ide := intr_one (serve_one demo3).
Definition demo5 : ide := intr_one (serve_one demo4).

Lemma demo_buf_ok v d pid x : buf_ok (d_buf (demo_buf (fl v d) pid x)).
Proof. split; [by exists v, d|]. split; done. Qed.
Lemma demo_bufs_ok : Forall (λ d, buf_ok (d_buf d)) demo_bufs ∧ ∀ k, length (sector_at ∅ k) = Z.to_nat BSIZE.
Proof.
  split; [|done]. constructor; [apply demo_buf_ok|]. constructor; [apply demo_buf_ok|constructor].
Qed.

Lemma demo_run : ∃ tr, iruns demo1 tr demo5 ∧ calls tr = [(0%nat, RWrite (0, 5) (replicate 512 9)); (1%nat, RRead (0, 5))] ∧
  dones tr = [(0%nat, replicate 512 9); (1%nat, replicate 512 9)].
Proof.
  exists ([] ++ [LCall 0 (RWrite (0, 5) (replicate 512 9))] ++ [LCall 1 (RRead (0, 5))] ++ [LServe] ++ [LDone 0 (replicate 512 9)] ++ [LServe] ++ [LDone 1 (replicate 512 9)]).
  rewrite !app_assoc. split; [|split; reflexivity].
  eapply R_snoc; [eapply R_snoc; [eapply R_snoc; [eapply R_snoc; [eapply R_snoc; [eapply R_snoc; [apply R_nil|]|]|]|]|]|].
  - refine (I_call demo1 7 0 (demo_buf (fl true true) 7 9) false demo2 _ _ _); [vm_compute; reflexivity..].
  - refine (I_call demo2 8 1 (demo_buf (fl false false) 8 0) false demo3 _ _ _); [vm_compute; reflexivity..].
  - apply I_inner. refine (I_device demo3 (i_hw (serve_one demo3)) _). vm_compute. reflexivity.
  - apply I_inner. refine (I_intr (serve_one demo3) 0 (DBuf (finished (d_buf (demo_buf 0 7 9)) (replicate 512 9)) (Some 1%nat)) demo4 _ _ _ _); vm_compute; reflexivity.
  - apply I_inner. refine (I_device demo4 (i_hw (serve_one demo4)) _). vm_compute. reflexivity.
  - apply I_inner. refine (I_intr (serve_one demo4) 1 (DBuf (finished (d_buf (demo_buf 0 8 0)) (replicate 512 9)) None) demo5 _ _ _ _); vm_compute; reflexivity.
Qed.


Lemma ide_never_stuck_witness :
  wp ideinit (boot demo_bufs true ∅) (λ _ s1, ∀ tr s i w, iruns s1 tr s → i_wait s !! i = Some w → w ≠ Idle →
    (∃ l s', inner s l s') ∧ ∀ l s', inner s l s' → 0 ≤ left_to_do s' < left_to_do s).
Proof. exact (ide_never_stuck demo_bufs true ∅ (proj1 demo_bufs_ok) (proj2 demo_bufs_ok)). Defined.

(** The read alone. *)
Definition read_bufs : list dbuf := [demo_buf (fl false false) 8 0].
Definition reading : ide := state_of (iderw 8 0) (state_of ideinit (boot read_bufs false ∅)).
Lemma reading_inv : inv reading [0%nat].
Proof.
  destruct (wp_state_of _ _ _ (ideinit_wp read_bufs false ∅ (Forall_cons_2 (λ d, buf_ok (d_buf d)) _ _ (demo_buf_ok false false 8 0) (Forall_nil_2 _)) (proj2 demo_bufs_ok))) as (u&H&_).
  destruct (wp_state_of _ _ _ (iderw_wp 8 _ [] 0 (demo_buf (fl false false) 8 0) H eq_refl eq_refl eq_refl ltac:(by split))) as (r&_&H2&_). exact H2.
Qed.
Definition broken : ata := default (i_hw reading) (complete_error IDE_ERR (i_hw reading)).
Lemma reading_state : i_bufs reading !! 0%nat = Some (demo_buf (fl false false) 8 0) ∧ complete_error IDE_ERR (i_hw reading) = Some broken.
Proof. split; vm_compute; reflexivity. Qed.
Lemma failed_read_marked_valid_witness :
  wp ideintr (with_hw (ack broken) reading)
    (λ _ s', i_bufs s' !! 0%nat = Some (DBuf (set_flags (fl true false) (d_buf (demo_buf (fl false false) 8 0))) None) ∧ i_wait s' !! 0%nat = Some Woken).
Proof.
  exact (failed_read_marked_valid reading 0 (demo_buf (fl false false) 8 0) IDE_ERR broken reading_inv
    (proj1 reading_state) eq_refl (proj2 reading_state) (or_introl eq_refl)).
Defined.
