(* ===== verification/Boot.v ===== *)
(** * The boot loader (xv6/bootmain.c, elf.h).

    [bootmain] on physical memory and the disk controller of [Ide]: sectors are read by polling, the
    kernel's ELF file starts at sector 1.  The theorems: [readseg] copies the bytes asked for and
    changes nothing outside the sectors around them; and a kernel whose segments lie in increasing order,
    each above the rest of the sector before it and off the scratch page, is in memory at
    its physical addresses, the part not in the file cleared, when its entry point is called. *)
From S2P Require Import Prelude CMem Str Spinlock Layout Kalloc Vm Sleeplock Bio Ide.
Local Open Scope Z_scope.

Definition SECTSIZE : Z := 512.
Definition ELF_MAGIC : Z := 0x464C457F.

(** Offsets in [struct elfhdr] and [struct proghdr]. *)
Definition elf_entry : Z := 24.
Definition elf_phoff : Z := 28.
Definition elf_phnum : Z := 44.
Definition sizeof_proghdr : Z := 32.
Definition ph_off : Z := 4.
Definition ph_paddr : Z := 12.
Definition ph_filesz : Z := 16.
Definition ph_memsz : Z := 20.

Record machine := Mach { b_hw : ata; b_mem : mem }.
Local Notation M := (K machine).

Definition on_ata (f : ata → ata) : M unit := modify (λ s, Mach (f (b_hw s)) (b_mem s)).
Definition upd_memory (f : mem → mem) : M unit := modify (λ s, Mach (b_hw s) (f (b_mem s))).

(** While the processor spins the controller ends the command it has. *)
Definition waitdisk : M unit :=
  s ← get;
  let a := default (b_hw s) (complete (b_hw s)) in
  if negb (Z.land (status a) 0xC0 =? 0x40) then sleeps "waitdisk"
  else put (Mach a (b_mem s)).

(** [insl(0x1F0, dst, SECTSIZE/4)]: the next bytes of the controller go to [dst]. *)
Definition insl (dst : Z) : M unit :=
  s ← get;
  let a := b_hw s in
  _ ← on_ata (λ a, Ata (a_disk a) (a_has1 a) (a_regs a) (a_cmd a) (drop (Z.to_nat SECTSIZE) (a_fifo a)) (a_bits a) (a_irq a));
  upd_memory (store_bytes dst (take (Z.to_nat SECTSIZE) (a_fifo a))).

Definition readsect (dst offset : Z) : M unit :=
  _ ← waitdisk;
  _ ← on_ata (Ide.outb 0x1F2 1);
  _ ← on_ata (Ide.outb 0x1F3 offset);
  _ ← on_ata (Ide.outb 0x1F4 (Z.shiftr offset 8));
  _ ← on_ata (Ide.outb 0x1F5 (Z.shiftr offset 16));
  _ ← on_ata (Ide.outb 0x1F6 (Z.lor (Z.shiftr offset 24) 0xE0));
  _ ← on_ata (Ide.outb 0x1F7 0x20);
  _ ← waitdisk;
  insl dst.

(** [for(; pa < epa; pa += SECTSIZE, offset++) readsect(pa, offset);] *)
Fixpoint readseg_loop (fuel : nat) (pa epa offset : Z) : M unit :=
  match fuel with
  | O => if pa <? epa then undef "readseg: fuel" else mret tt
  | S k =>
      if pa <? epa then
        _ ← readsect pa offset;
        readseg_loop k (u32 (pa + SECTSIZE)) epa (u32 (offset + 1))
      else mret tt
  end.

(** The range has at most this many sectors. *)
Definition readseg (pa count offset : Z) : M unit :=
  let epa := u32 (pa + count) in
  let pa := u32 (pa - offset mod SECTSIZE) in
  let offset := u32 (offset / SECTSIZE + 1) in
  readseg_loop (Z.to_nat ((epa - pa + SECTSIZE - 1) / SECTSIZE)) pa epa offset.

Definition ELF : Z := 0x10000.
Definition ld16 (m : mem) (a : Z) : Z := ld8 m a + 2 ^ 8 * ld8 m (a + 1).
Definition field32 (a : Z) : M Z := gets (λ s, ld32 (b_mem s) a).

(** The loop over [n] program headers from [ph] on. *)
Fixpoint load_headers (n : nat) (ph : Z) : M unit :=
  match n with
  | O => mret tt
  | S n =>
      pa ← field32 (ph + ph_paddr);
      filesz ← field32 (ph + ph_filesz);
      off ← field32 (ph + ph_off);
      _ ← readseg pa filesz off;
      memsz ← field32 (ph + ph_memsz);
      filesz ← field32 (ph + ph_filesz);
      _ ← when (filesz <? memsz) (upd_memory (stosb (pa + filesz) 0 (Z.to_nat (memsz - filesz))));
      load_headers n (ph + sizeof_proghdr)
  end.

(** The entry point that is called, or nothing when the file is not an ELF file. *)
Definition bootmain : M (option Z) :=
  _ ← readseg ELF 4096 0;
  magic ← field32 ELF;
  if negb (magic =? ELF_MAGIC) then mret None
  else
    phoff ← field32 (ELF + elf_phoff);
    phnum ← gets (λ s, ld16 (b_mem s) (ELF + elf_phnum));
    _ ← load_headers (Z.to_nat phnum) (ELF + phoff);
    entry ← field32 (ELF + elf_entry);
    mret (Some entry).

(** ** Reading sectors *)

Lemma ld8_store_bytes bs a m b :
  ld8 (store_bytes a bs m) b = if decide (a ≤ b < a + Z.of_nat (length bs)) then u8 (default 0 (bs !! Z.to_nat (b - a))) else ld8 m b.
Proof.
  rw /store_bytes. revert a m. induction bs as [|x bs IH]; intros a m; cbn [foldl length].
  - rewrite decide_False; [lia|done].
  - rewrite IH. destruct (decide (b = a)) as [->|Hne].
    + rewrite decide_False; [lia|]. rewrite decide_True; [lia|]. rewrite ld8_st8_eq Z.sub_diag //.
    + destruct (decide (a + 1 ≤ b < a + 1 + Z.of_nat (length bs))) as [Hin|Hout].
      * rewrite decide_True; [lia|]. replace (Z.to_nat (b - a)) with (S (Z.to_nat (b - (a + 1)))) by lia. done.
      * rewrite decide_False; [lia|]. apply ld8_st8_ne. congruence.
Qed.

Lemma lor_above a b k : 0 ≤ k → 0 ≤ a < 2 ^ k → Z.lor a (Z.shiftl b k) = a + 2 ^ k * b.
Proof.
  intros Hk Ha. rewrite Z.shiftl_mul_pow2 // Z.lor_comm (lor_aligned_small k) //; [|lia]. apply Z.mod_mul. apply Z.pow_nonzero; lia.
Qed.

Lemma top_nibble_all : forallb (λ x, (Z.land (u8 (Z.lor x 0xE0)) 0x0f =? x) && (Z.land (Z.shiftr (u8 (Z.lor x 0xE0)) 4) 1 =? 0)) (range 0 16) = true.
Proof. vm_compute. reflexivity. Qed.
Lemma top_nibble x : 0 ≤ x < 16 → Z.land (u8 (Z.lor x 0xE0)) 0x0f = x ∧ Z.land (Z.shiftr (u8 (Z.lor x 0xE0)) 4) 1 = 0.
Proof.
  intros Hx. pose proof (proj1 (forallb_forall _ _) top_nibble_all x) as H. cbv beta in H.
  assert (In x (range 0 16)) as Hr by (by apply list_elem_of_In, elem_of_range).
  by apply andb_true_iff in H as [E1%Z.eqb_eq E2%Z.eqb_eq].
Qed.

Lemma lba_bytes o : 0 ≤ o < 2 ^ 28 →
  Z.lor (u8 o) (Z.lor (Z.shiftl (u8 (Z.shiftr o 8)) 8) (Z.lor (Z.shiftl (u8 (Z.shiftr o 16)) 16)
    (Z.shiftl (Z.land (u8 (Z.lor (Z.shiftr o 24) 0xE0)) 0x0f) 24))) = o.
Proof.
  intros Ho. rewrite !Z.shiftr_div_pow2 //. destruct (top_nibble (o / 2 ^ 24)) as [-> _]; [Z.div_mod_to_equations; lia|].
  rewrite (_ : Z.shiftl (o / 2 ^ 24) 24 = Z.shiftl (Z.shiftl (o / 2 ^ 24) 8) 16); [by rewrite Z.shiftl_shiftl|].
  rewrite -Z.shiftl_lor. rewrite (_ : ∀ x, Z.shiftl x 16 = Z.shiftl (Z.shiftl x 8) 8); [intros; by rewrite Z.shiftl_shiftl|].
  rewrite -Z.shiftl_lor !lor_above; try (done || apply u8_range). rw /u8. Z.div_mod_to_equations. lia.
Qed.

(** The first drive is selected, and the controller has no command and no error. *)
Definition idle (a : ata) : Prop := a_cmd a = None ∧ a_bits a = 0 ∧ drive_of a = 0.
Definition sectors_full (D : gmap (Z * Z) block) : Prop := ∀ k, length (sector_at D (0, k)) = Z.to_nat SECTSIZE.

Lemma waitdisk_idle a m : idle a → waitdisk (Mach a m) = Ret tt (Mach a m).
Proof.
  intros (Hc&Hb&Hd). rw /waitdisk /mbind /K_bind. cbn [get b_hw b_mem]. rw /complete Hc. cbn [default]. rw /status Hc Hb Hd. done.
Qed.

(** The registers before the command. *)
Definition addressed (off : Z) (a : ata) : ata :=
  Ide.outb 0x1F6 (Z.lor (Z.shiftr off 24) 0xE0) (Ide.outb 0x1F5 (Z.shiftr off 16) (Ide.outb 0x1F4 (Z.shiftr off 8)
    (Ide.outb 0x1F3 off (Ide.outb 0x1F2 1 a)))).
Lemma addressed_decode off a : 0 ≤ off < 2 ^ 28 → drive_of (addressed off a) = 0 ∧ lba_of (addressed off a) = off.
Proof.
  intros Ho. rw /drive_of /lba_of /addressed. rewrite !reg_outb //. cbn [Z.eqb Pos.eqb]. split; [|by apply lba_bytes].
  apply top_nibble. rewrite Z.shiftr_div_pow2 //. Z.div_mod_to_equations. lia.
Qed.

Lemma readsect_run a m dst off : idle a → sectors_full (a_disk a) → 0 ≤ off < 2 ^ 28 →
  ∃ a', readsect dst off (Mach a m) = Ret tt (Mach a' (store_bytes dst (sector_at (a_disk a) (0, off)) m)) ∧ idle a' ∧ a_disk a' = a_disk a.
Proof.
  intros Hi Hs Ho. destruct (addressed_decode off a Ho) as [Ed El]. set (a1 := Ata (a_disk a) (a_has1 a) (a_regs (addressed off a)) (Some (CRead 0 off)) [] 0 (a_irq a)).
  assert (Ide.outb 0x1F7 0x20 (addressed off a) = a1) as E1.
  { rw {1}/Ide.outb. change (0x1F7 =? 0x1f7) with true. change (0x20 =? IDE_CMD_READ) with true. cbv iota. by rewrite Ed El. }
  set (a2 := Ata (a_disk a) (a_has1 a) (a_regs (addressed off a)) None (sector_at (a_disk a) (0, off)) 0 true).
  assert (waitdisk (Mach a1 m) = Ret tt (Mach a2 m)) as E2.
  { rw /waitdisk /mbind /K_bind. cbn [get b_hw b_mem]. change (default a1 (complete a1)) with a2. rw /status.
    change (drive_of a2) with (drive_of (addressed off a)). rewrite Ed. done. }
  rw /readsect. rewrite (bind_Ret _ _ _ _ _ (waitdisk_idle a m Hi)). do 5 (erewrite bind_Ret; [|reflexivity]). cbn [b_hw b_mem].
  erewrite bind_Ret; [|reflexivity]. cbn [b_hw b_mem]. fold (addressed off a). rewrite E1 (bind_Ret _ _ _ _ _ E2).
  rw /insl. erewrite bind_Ret; [|reflexivity]. erewrite bind_Ret; [|reflexivity]. cbn [b_hw b_mem a2 a_fifo].
  eexists. split; [rw /upd_memory /modify; cbn [b_hw b_mem]; rewrite take_ge; [by rewrite Hs|reflexivity]|]. done.
Qed.

(** Byte [o] of the file that starts at sector 1. *)
Definition file_byte (D : gmap (Z * Z) block) (o : Z) : Z := u8 (default 0 (sector_at D (0, o / SECTSIZE + 1) !! Z.to_nat (o mod SECTSIZE))).

(** Memory [m'] is [m] with [n] bytes of the file, from offset [o] on, at address [a]. *)
Definition copied (D : gmap (Z * Z) block) (a n o : Z) (m m' : mem) : Prop :=
  ∀ b, ld8 m' b = if decide (a ≤ b < a + n) then file_byte D (o + (b - a)) else ld8 m b.

Lemma sector_copied D dst k m : sectors_full D → copied D dst SECTSIZE (k * SECTSIZE) m (store_bytes dst (sector_at D (0, k + 1)) m).
Proof.
  intros Hs b. rewrite ld8_store_bytes Hs. rw /SECTSIZE. replace (Z.of_nat (Z.to_nat 512)) with 512 by lia.
  case_decide as Hb; [|done]. rw /file_byte /SECTSIZE. rewrite (_ : (k * 512 + (b - dst)) / 512 = k).
  { Z.div_mod_to_equations. lia. }
  rewrite (_ : (k * 512 + (b - dst)) mod 512 = b - dst) //. Z.div_mod_to_equations. lia.
Qed.
Lemma copied_app D a n1 n2 o m m1 m2 : 0 ≤ n1 → 0 ≤ n2 → copied D a n1 o m m1 → copied D (a + n1) n2 (o + n1) m1 m2 → copied D a (n1 + n2) o m m2.
Proof.
  intros H1 H2 C1 C2 b. rewrite C2 C1. destruct (decide (a + n1 ≤ b < a + n1 + n2)).
  - rewrite decide_True; [lia|]. f_equal. lia.
  - destruct (decide (a ≤ b < a + n1)); [rewrite decide_True; [lia|done]|rewrite decide_False; [lia|done]].
Qed.

Lemma readseg_loop_run n : ∀ a m pa epa k, idle a → sectors_full (a_disk a) → 0 ≤ pa → pa + 512 * Z.of_nat n < 2 ^ 32 →
  epa ≤ pa + 512 * Z.of_nat n → pa + 512 * (Z.of_nat n - 1) < epa → 0 ≤ k → k + Z.of_nat n + 1 < 2 ^ 28 →
  ∃ a' m', readseg_loop n pa epa (k + 1) (Mach a m) = Ret tt (Mach a' m') ∧ idle a' ∧ a_disk a' = a_disk a ∧
    copied (a_disk a) pa (512 * Z.of_nat n) (k * 512) m m'.
Proof.
  induction n as [|n IH]; intros a m pa epa k Hi Hs H0 Hw He1 He2 Hk0 Hk; cbn [readseg_loop].
  - destruct (Z.ltb_spec pa epa); [lia|]. exists a, m. split; [done|]. split; [done|]. split; [done|]. intros b. rewrite decide_False; [lia|done].
  - destruct (Z.ltb_spec pa epa); [|lia]. destruct (readsect_run a m pa (k + 1) Hi Hs) as (a1&E1&Hi1&Hd1); [lia|].
    rewrite (bind_Ret _ _ _ _ _ E1). rewrite !u32_small; [rw /SECTSIZE; lia..|].
    destruct (IH a1 (store_bytes pa (sector_at (a_disk a) (0, k + 1)) m) (pa + SECTSIZE) epa (k + 1)) as (a2&m2&E2&Hi2&Hd2&C2);
      rw /SECTSIZE; try done; try lia; [by rewrite Hd1|].
    exists a2, m2. split; [exact E2|]. split; [done|]. split; [congruence|]. rewrite Hd1 in C2. rewrite (_ : 512 * Z.of_nat (S n) = 512 + 512 * Z.of_nat n); [lia|].
    apply (copied_app _ _ _ _ _ m (store_bytes pa (sector_at (a_disk a) (0, k + 1)) m)); [lia..|by apply sector_copied|].
    by rewrite (_ : k * 512 + 512 = (k + 1) * 512); [lia|].
Qed.

(** The sectors a segment of [count] bytes at offset [off] needs. *)
Definition nsect (count off : Z) : Z := (off mod 512 + count + 511) / 512.

Lemma readseg_run a m pa count off : idle a → sectors_full (a_disk a) → 0 ≤ pa - off mod 512 → 0 ≤ count → 0 ≤ off →
  pa + count + 512 < 2 ^ 32 → off + count + 1024 < 2 ^ 32 →
  ∃ a' m', readseg pa count off (Mach a m) = Ret tt (Mach a' m') ∧ idle a' ∧ a_disk a' = a_disk a ∧
    copied (a_disk a) (pa - off mod 512) (512 * nsect count off) (off / 512 * 512) m m'.
Proof.
  intros Hi Hs Hlo Hc Ho Hw Hk. pose proof (Z.mod_pos_bound off 512 ltac:(lia)) as Hm. rw /readseg /SECTSIZE. cbv zeta.
  assert (0 ≤ off / 512 ≤ off) as Hd by (Z.div_mod_to_equations; lia).
  rewrite !u32_small; [lia..|]. set (low := pa - off mod 512).
  rewrite (_ : (pa + count - low + 512 - 1) / 512 = nsect count off); [rw /nsect /low; f_equal; lia|].
  assert (0 ≤ nsect count off) as Hn by (apply Z.div_pos; lia).
  assert (512 * nsect count off ≤ off mod 512 + count + 511 < 512 * nsect count off + 512) as Hb by (rw /nsect; Z.div_mod_to_equations; lia).
  assert (off / 512 + nsect count off + 1 < 2 ^ 28) as H28. { Z.div_mod_to_equations; lia. }
  destruct (readseg_loop_run (Z.to_nat (nsect count off)) a m low (pa + count) (off / 512) Hi Hs) as (a'&m'&E&Hi'&Hd'&C); try lia.
  rewrite Z2Nat.id // in C. by exists a', m'.
Qed.

(** ** Segments *)

Record segment := Seg { s_pa : Z; s_off : Z; s_filesz : Z; s_memsz : Z }.
(** What loading it writes, and where its own bytes end. *)
Definition seg_lo (g : segment) : Z := s_pa g - s_off g mod 512.
Definition seg_hi (g : segment) : Z := Z.max (seg_lo g + 512 * nsect (s_filesz g) (s_off g)) (s_pa g + s_memsz g).
Definition seg_end (g : segment) : Z := s_pa g + Z.max (s_filesz g) (s_memsz g).

Record seg_ok (g : segment) : Prop := {
  so_off : 0 ≤ s_off g;
  so_filesz : 0 ≤ s_filesz g;
  so_lo : 0 ≤ seg_lo g;
  so_top : s_pa g + s_filesz g + 512 < 2 ^ 32;
  so_file : s_off g + s_filesz g + 1024 < 2 ^ 32;
  so_scratch : seg_hi g ≤ ELF ∨ ELF + 4096 ≤ seg_lo g
}.

(** The program header at [ph] describes [g]. *)
Definition header_at (m : mem) (ph : Z) (g : segment) : Prop :=
  ld32 m (ph + ph_paddr) = s_pa g ∧ ld32 m (ph + ph_off) = s_off g ∧
  ld32 m (ph + ph_filesz) = s_filesz g ∧ ld32 m (ph + ph_memsz) = s_memsz g.
Fixpoint headers_at (m : mem) (ph : Z) (gs : list segment) : Prop :=
  match gs with [] => True | g :: gs => header_at m ph g ∧ headers_at m (ph + sizeof_proghdr) gs end.

(** The segment is in memory. *)
Definition loaded (D : gmap (Z * Z) block) (m : mem) (g : segment) : Prop :=
  ∀ k, (0 ≤ k < s_filesz g → ld8 m (s_pa g + k) = file_byte D (s_off g + k)) ∧ (s_filesz g ≤ k < s_memsz g → ld8 m (s_pa g + k) = 0).

Definition same_on (lo hi : Z) (m m' : mem) : Prop := ∀ b, lo ≤ b < hi → ld8 m' b = ld8 m b.
Lemma header_same m m' ph g : same_on ph (ph + 32) m m' → header_at m ph g → header_at m' ph g.
Proof.
  intros H (H1&H2&H3&H4). assert (∀ o, 0 ≤ o ≤ 28 → ld32 m' (ph + o) = ld32 m (ph + o)) as E.
  { intros o Ho. rw /ld32 !H //; lia. }
  rw /header_at !E; rw /ph_paddr /ph_off /ph_filesz /ph_memsz; try lia. done.
Qed.
Lemma headers_same gs m m' ph : same_on ph (ph + 32 * Z.of_nat (length gs)) m m' → headers_at m ph gs → headers_at m' ph gs.
Proof.
  revert ph. induction gs as [|g gs IH]; intros ph H; [done|]. cbn [headers_at length] in *. intros [Hg Hgs]. split.
  - apply (header_same m); [|done]. intros b Hb. apply H. lia.
  - apply IH; [|done]. rw /sizeof_proghdr. intros b Hb. apply H. lia.
Qed.

Lemma ld32_ext_on m m' a : same_on a (a + 4) m m' → ld32 m' a = ld32 m a.
Proof. intros H. rw /ld32 !H //; lia. Qed.

(** One round of the loop. *)
Lemma load_one a m ph g n : idle a → sectors_full (a_disk a) → seg_ok g → header_at m ph g → ELF ≤ ph → ph + 32 ≤ ELF + 4096 →
  ∃ a' m', load_headers (S n) ph (Mach a m) = load_headers n (ph + sizeof_proghdr) (Mach a' m') ∧ idle a' ∧ a_disk a' = a_disk a ∧
    loaded (a_disk a) m' g ∧ ∀ b, b < seg_lo g ∨ seg_hi g ≤ b → ld8 m' b = ld8 m b.
Proof.
  intros Hi Hs [So Sf Sl St Sfile Ssc] Hh Hp1 Hp2. pose proof Hh as (E1&E2&E3&E4).
  destruct (readseg_run a m (s_pa g) (s_filesz g) (s_off g)) as (a1&m1&R&Hi1&Hd1&C1); try done.
  assert (header_at m1 ph g) as (F1&F2&F3&F4).
  { apply (header_same m); [|done]. intros b Hb. rewrite C1. rw /seg_hi in Ssc. fold (seg_lo g). rewrite decide_False; [|done]. lia. }
  pose proof (Z.mod_pos_bound (s_off g) 512 ltac:(lia)) as Hm.
  assert (s_off g mod 512 + s_filesz g ≤ 512 * nsect (s_filesz g) (s_off g)) as Hn by (rw /nsect; Z.div_mod_to_equations; lia).
  assert (∀ k, 0 ≤ k < s_filesz g → ld8 m1 (s_pa g + k) = file_byte (a_disk a) (s_off g + k)) as Hfile.
  { intros k Hk. rewrite C1. rewrite decide_True; [lia|]. f_equal. rewrite (Z.div_mod (s_off g) 512) //. Z.div_mod_to_equations. lia. }
  set (m2 := if s_filesz g <? s_memsz g then stosb (s_pa g + s_filesz g) 0 (Z.to_nat (s_memsz g - s_filesz g)) m1 else m1).
  exists a1, m2. split; [|split; [done|split; [done|split]]].
  - cbn [load_headers]. do 3 (erewrite bind_Ret; [|reflexivity]). cbn [b_mem]. rewrite E1 E2 E3. rewrite (bind_Ret _ _ _ _ _ R).
    do 2 (erewrite bind_Ret; [|reflexivity]). cbn [b_mem]. rewrite F3 F4. rw /m2. destruct (s_filesz g <? s_memsz g); by erewrite bind_Ret.
  - intros k. rw /m2. destruct (Z.ltb_spec (s_filesz g) (s_memsz g)).
    + rewrite !ld8_stosb. split; intros Hk; [rewrite decide_False; [lia|by apply Hfile]|rewrite decide_True; [lia|done]].
    + split; [apply Hfile|lia].
  - intros b Hb. rw /seg_hi in Hb. assert (ld8 m1 b = ld8 m b) as Eb. { rewrite C1. fold (seg_lo g). rewrite decide_False; [|done]. lia. }
    rw /m2. destruct (Z.ltb_spec (s_filesz g) (s_memsz g)); [|done]. rewrite ld8_stosb. rewrite decide_False; [|done]. rw /seg_lo in Hb. lia.
Qed.

(** Segments in increasing order: the sectors of one start above the bytes of those before. *)
Fixpoint increasing (gs : list segment) : Prop :=
  match gs with [] => True | g :: gs => Forall (λ h, seg_end g ≤ seg_lo h) gs ∧ increasing gs end.

Lemma loaded_same D m m' g : 0 ≤ s_filesz g → same_on (s_pa g) (seg_end g) m m' → loaded D m g → loaded D m' g.
Proof.
  intros H0 H Hl k. destruct (Hl k) as [H1 H2]. rw /seg_end in H. split; intros Hk; (rewrite H; [lia|]); auto.
Qed.

Lemma load_headers_run gs : ∀ a m ph, idle a → sectors_full (a_disk a) → Forall seg_ok gs → increasing gs → headers_at m ph gs →
  ELF ≤ ph → ph + 32 * Z.of_nat (length gs) ≤ ELF + 4096 →
  ∃ a' m', load_headers (length gs) ph (Mach a m) = Ret tt (Mach a' m') ∧ idle a' ∧ a_disk a' = a_disk a ∧
    Forall (loaded (a_disk a) m') gs ∧ ∀ b, (∀ g, g ∈ gs → b < seg_lo g ∨ seg_hi g ≤ b) → ld8 m' b = ld8 m b.
Proof.
  induction gs as [|g gs IH]; intros a m ph Hi Hs Hok Hinc Hh Hp1 Hp2.
  { exists a, m. by split_and!. }
  apply Forall_cons in Hok as [Hg Hok]. destruct Hinc as [Hlt Hinc]. cbn [headers_at length] in Hh, Hp2. destruct Hh as [Hh Hhs].
  cbn [length]. destruct (load_one a m ph g (length gs)) as (a1&m1&E&Hi1&Hd1&L1&O1); try done; [lia|]. rewrite E.
  assert (same_on ELF (ELF + 4096) m m1) as Hsc. { intros b Hb. apply O1. destruct (so_scratch _ Hg); lia. }
  destruct (IH a1 m1 (ph + sizeof_proghdr)) as (a2&m2&E2&Hi2&Hd2&L2&O2); rw /sizeof_proghdr; try done; try lia; [by rewrite Hd1| |].
  { apply (headers_same gs m); [|done]. rw /sizeof_proghdr. intros b Hb. apply Hsc. lia. }
  rewrite Hd1 in L2. exists a2, m2. split; [exact E2|]. split; [done|]. split; [congruence|]. split.
  - constructor; [|done]. apply (loaded_same _ m1); [by apply so_filesz| |done]. intros b Hb. apply O2. intros h Hh'. left. rewrite Forall_forall in Hlt.
    pose proof (Hlt h Hh'). lia.
  - intros b Hb. rewrite O2; [intros h Hh'; apply Hb; by right|]. apply O1, Hb. by left.
Qed.

(** ** Theorems *)

(** The words of the ELF file. *)
Definition file32 (D : gmap (Z * Z) block) (o : Z) : Z :=
  file_byte D o + 2 ^ 8 * file_byte D (o + 1) + 2 ^ 16 * file_byte D (o + 2) + 2 ^ 24 * file_byte D (o + 3).
Definition file16 (D : gmap (Z * Z) block) (o : Z) : Z := file_byte D o + 2 ^ 8 * file_byte D (o + 1).
(** The program headers of the file. *)
Definition file_segment (D : gmap (Z * Z) block) (o : Z) : segment :=
  Seg (file32 D (o + ph_paddr)) (file32 D (o + ph_off)) (file32 D (o + ph_filesz)) (file32 D (o + ph_memsz)).
Definition file_segments (D : gmap (Z * Z) block) : list segment :=
  (λ k, file_segment D (file32 D elf_phoff + sizeof_proghdr * Z.of_nat k)) <$> seq 0 (Z.to_nat (file16 D elf_phnum)).

Lemma file_segments_headers D m o n : (∀ k, 0 ≤ k < 4096 → ld8 m (ELF + k) = file_byte D k) → 0 ≤ o → o + 32 * Z.of_nat n ≤ 4096 →
  headers_at m (ELF + o) ((λ k, file_segment D (o + sizeof_proghdr * Z.of_nat k)) <$> seq 0 n).
Proof.
  intros Hm. revert o. induction n as [|n IH]; intros o Ho Hn; [done|]. cbn [seq fmap list_fmap headers_at].
  assert (∀ k, 0 ≤ k ≤ 28 → ld32 m (ELF + o + k) = file32 D (o + k)) as E.
  { intros k Hk. rw /ld32 /file32 -!Z.add_assoc !Hm //; lia. }
  split.
  - rw /header_at /file_segment. cbn [s_pa s_off s_filesz s_memsz]. rw /sizeof_proghdr Z.add_0_r /ph_paddr /ph_off /ph_filesz /ph_memsz.
    rewrite !E; try lia.
  - rewrite -fmap_S_seq -list_fmap_compose. rewrite (list_fmap_ext _ (λ k, file_segment D (o + sizeof_proghdr + sizeof_proghdr * Z.of_nat k))).
    { intros i k _. cbn. f_equal. rw /sizeof_proghdr. lia. }
    rewrite -Z.add_assoc. apply IH; rw /sizeof_proghdr; lia.
Qed.

(** C28: The boot loader loads the kernel.  From an ELF file at sector 1 whose program headers are in its first page and whose segments lie in increasing order, off the scratch page, [bootmain] ends in a jump to the
    entry point of the file, with every segment in memory at its physical address: the bytes of the
    file, and zeros for the rest of its memory. *)
Theorem bootmain_loads_kernel a m (D := a_disk a) (gs := file_segments D)
    (Hi : idle a) (Hs : sectors_full D) (Hmagic : file32 D 0 = ELF_MAGIC)
    (Hph : file32 D elf_phoff + 32 * Z.of_nat (length gs) ≤ 4096) (Hok : Forall seg_ok gs) (Hinc : increasing gs) :
  wp bootmain (Mach a m) (λ r s', r = Some (file32 D elf_entry) ∧ Forall (loaded D (b_mem s')) gs).
Proof.
  destruct (readseg_run a m ELF 4096 0 Hi Hs) as (a1&m1&R&Hi1&Hd1&C1); [rw /ELF; try change (0 mod 512) with 0; lia..|].
  assert (∀ k, 0 ≤ k < 4096 → ld8 m1 (ELF + k) = file_byte D k) as Hm1.
  { intros k Hk. rewrite C1. change (512 * nsect 4096 0) with 4096. rewrite decide_True; [change (0 mod 512) with 0; lia|]. f_equal. change (0 mod 512) with 0. change (0 / 512 * 512) with 0. lia. }
  assert (∀ k, 0 ≤ k ≤ 4092 → ld32 m1 (ELF + k) = file32 D k) as E32. { intros k Hk. rw /ld32 /file32 -!Z.add_assoc !Hm1 //; lia. }
  assert (length gs = Z.to_nat (file16 D elf_phnum)) as Hlen by by rewrite length_fmap length_seq.
  assert (0 ≤ file32 D elf_phoff) as Hoff. { rewrite -E32 //. apply ld32_range. }
  destruct (load_headers_run gs a1 m1 (ELF + file32 D elf_phoff)) as (a2&m2&E2&Hi2&Hd2&L2&O2); [done|by rewrite Hd1|done|done| |lia|lia|].
  { rewrite Hlen in Hph. by apply file_segments_headers. }
  rw /bootmain. apply wp_bind. apply (wp_intro _ _ _ _ _ R). apply wp_bind, wp_gets. cbn [b_mem].
  rewrite -{1}(Z.add_0_r ELF) E32 // Hmagic Z.eqb_refl. cbn [negb]. apply wp_bind, wp_gets. cbn [b_mem]. apply wp_bind, wp_gets. cbn [b_mem].
  rewrite E32 //. rewrite (_ : ld16 m1 (ELF + elf_phnum) = file16 D elf_phnum).
  { rw /ld16 /file16 -Z.add_assoc !Hm1 //. }
  rewrite -Hlen. apply wp_bind, (wp_intro _ _ _ _ _ E2), wp_bind, wp_gets, wp_ret. cbn [b_mem]. split; [|by rewrite Hd1 in L2].
  f_equal. rewrite -E32 //. apply ld32_ext_on. intros b Hb. apply O2. intros g Hg. rewrite Forall_forall in Hok.
  rw /elf_entry in Hb. destruct (so_scratch _ (Hok g Hg)); lia.
Qed.

(** ** Witness *)

(** A kernel with its text at 1MB and its data a page above. *)
Definition elf_header : list Z :=
  le 4 ELF_MAGIC ++ replicate 12 0 ++ le 2 2 ++ le 2 3 ++ le 4 1 ++ le 4 0x10000c ++ le 4 52 ++ le 4 0 ++ le 4 0 ++
  le 2 52 ++ le 2 32 ++ le 2 2 ++ le 2 0 ++ le 2 0 ++ le 2 0.
Definition prog_header (off pa filesz memsz : Z) : list Z :=
  le 4 1 ++ le 4 off ++ le 4 (pa + 0x80000000) ++ le 4 pa ++ le 4 filesz ++ le 4 memsz ++ le 4 7 ++ le 4 16.
Definition kernel_sector : block :=
  let l := elf_header ++ prog_header 0x1000 0x100000 600 600 ++ prog_header 0x2010 0x101010 20 5000 in
  l ++ replicate (512 - length l) 0.
Definition kernel_disk : gmap (Z * Z) block := {[ (0, 1) := kernel_sector; (0, 9) := replicate 512 0x90 ]}.
Definition kernel_ata : ata := Ata kernel_disk false ∅ None [] 0 false.

Lemma kernel_disk_full : sectors_full kernel_disk.
Proof.
  intros k. rw /sector_at /kernel_disk. destruct (decide ((0, k) = (0, 1))) as [->|H1]; [rewrite lookup_insert_eq; vm_compute; reflexivity|].
  rewrite lookup_insert_ne; [congruence|]. destruct (decide ((0, k) = (0, 9))) as [->|H2]; [rewrite lookup_insert_eq; vm_compute; reflexivity|].
  rewrite lookup_insert_ne; [congruence|]. by rewrite lookup_empty.
Qed.
Lemma kernel_segments : file_segments kernel_disk = [Seg 0x100000 0x1000 600 600; Seg 0x101010 0x2010 20 5000].
Proof. vm_compute. reflexivity. Qed.
Lemma kernel_segs_ok : Forall seg_ok (file_segments kernel_disk).
Proof. rewrite kernel_segments. repeat constructor; vm_compute; try congruence; by right. Qed.

Lemma bootmain_loads_kernel_witness :
  wp bootmain (Mach kernel_ata ∅) (λ r s', r = Some 0x10000c ∧ ld8 (b_mem s') 0x100000 = file_byte kernel_disk 0x1000).
Proof.
  refine (wp_mono _ _ _ _ (bootmain_loads_kernel kernel_ata ∅ _ kernel_disk_full _ _ kernel_segs_ok _) _).
  - split; [reflexivity|split; reflexivity].
  - vm_compute. reflexivity.
  - vm_compute. discriminate.
  - change (a_disk kernel_ata) with kernel_disk. rewrite kernel_segments. split; [repeat constructor; vm_compute; discriminate|repeat constructor].
  - intros r s' [-> Hl]. split; [vm_compute; reflexivity|]. change (a_disk kernel_ata) with kernel_disk in Hl. rewrite kernel_segments in Hl.
    apply Forall_cons in Hl as [Hl _]. apply (Hl 0). split; vm_compute; congruence.
Defined.
