(* ===== verification/Seg.v ===== *)
(** * Segments, gates and the way into the kernel (xv6/vm.c, mmu.h, trap.c, x86.h).

    The descriptor tables of mmu.h as the 64-bit words the processor reads, and the code that
    fills and loads them: seginit, kvmalloc, switchkvm and switchuvm of vm.c, tvinit and idtinit of trap.c.
    The processor's side is written from its manual: how an interrupt or an [int]
    instruction goes through a gate ([deliver]), and when an I/O instruction is allowed
    ([io_allowed]).  The theorem: once a CPU is set up and has switched to a process, code at user
    level can raise vector 64 and no other, every way into the kernel starts at its vector's code
    on the kernel stack of the process, and no port is open to user code. *)
From S2P Require Import Prelude CMem Spinlock Kalloc Vm Proc.
Local Open Scope Z_scope.

(** ** mmu.h *)

Definition SEG_KCODE : Z := 1.
Definition SEG_KDATA : Z := 2.
Definition SEG_TSS : Z := 5.
Definition NSEGS : Z := 6.
Definition STA_X : Z := 0x8.
Definition STA_W : Z := 0x2.
Definition STA_R : Z := 0x2.
Definition STS_T32A : Z := 0x9.
Definition STS_IG32 : Z := 0xE.
Definition STS_TG32 : Z := 0xF.
Definition T_SYSCALL : Z := 64.

(** A structure of bit fields is the list of their widths and values, the lowest bits first. *)
Fixpoint pack (l : list (Z * Z)) : Z :=
  match l with
  | [] => 0
  | (w, v) :: l => v mod 2 ^ w + 2 ^ w * pack l
  end.

(** [struct segdesc] and [struct gatedesc], eight bytes each. *)
Definition segdesc (lim_15_0 base_15_0 base_23_16 type s dpl p lim_19_16 avl rsv1 db g base_31_24 : Z) : Z :=
  pack [(16, lim_15_0); (16, base_15_0); (8, base_23_16); (4, type); (1, s); (2, dpl); (1, p); (4, lim_19_16);
        (1, avl); (1, rsv1); (1, db); (1, g); (8, base_31_24)].
Definition gatedesc (off_15_0 cs args rsv1 type s dpl p off_31_16 : Z) : Z :=
  pack [(16, off_15_0); (16, cs); (5, args); (3, rsv1); (4, type); (1, s); (2, dpl); (1, p); (16, off_31_16)].

Definition SEG (type base lim dpl : Z) : Z :=
  segdesc (Z.land (Z.shiftr lim 12) 0xffff) (Z.land (u32 base) 0xffff) (Z.land (Z.shiftr (u32 base) 16) 0xff)
    type 1 dpl 1 (Z.shiftr (u32 lim) 28) 0 0 1 1 (Z.shiftr (u32 base) 24).
(** [SEG16(type, base, lim, dpl)], then its field [s]. *)
Definition SEG16 (type base lim dpl s : Z) : Z :=
  segdesc (Z.land lim 0xffff) (Z.land (u32 base) 0xffff) (Z.land (Z.shiftr (u32 base) 16) 0xff)
    type s dpl 1 (Z.shiftr (u32 lim) 16) 0 0 1 0 (Z.shiftr (u32 base) 24).
Definition SETGATE (istrap : bool) (sel off d : Z) : Z :=
  gatedesc (Z.land (u32 off) 0xffff) sel 0 0 (if istrap then STS_TG32 else STS_IG32) 0 d 1 (Z.shiftr (u32 off) 16).

(** The fields of the task state the kernel sets, and its size. *)
Record taskstate := Ts { esp0 : Z; ss0 : Z; iomb : Z }.
Definition sizeof_ts : Z := 104.

(** ** State *)

(** The registers lgdt, lidt (base and limit), ltr and lcr3 load. *)
Record cregs := Cregs { gdtr : Z * Z; idtr : Z * Z; tr : Z; cr3 : Z }.

Record hw := Hw {
  h_mach : machine;
  h_gdt : list (list Z);        (* cpus[i].gdt *)
  h_ts : list taskstate;        (* cpus[i].ts *)
  h_idt : list Z;
  h_regs : list cregs;
  h_kpgdir : Z;
  h_phys : kmem_state
}.

Section Hw.
(** Addresses the linker chose, and the code of each vector. *)
Variables (gdt_addr ts_addr : nat → Z) (idt_addr : Z) (vectors : Z → Z) (kend kdata : Z).
(** The CPU that runs. *)
Variable me : nat.
Notation M := (K hw).

Definition on_mach {A} : K machine A → M A :=
  zoom h_mach (λ v s, Hw v (h_gdt s) (h_ts s) (h_idt s) (h_regs s) (h_kpgdir s) (h_phys s)).
Definition on_phys {A} : K kmem_state A → M A :=
  zoom h_phys (λ v s, Hw (h_mach s) (h_gdt s) (h_ts s) (h_idt s) (h_regs s) (h_kpgdir s) v).
Definition set_gdt (i : nat) (n d : Z) : M unit :=
  modify (λ s, Hw (h_mach s) (alter (λ g, <[Z.to_nat n := d]> g) i (h_gdt s)) (h_ts s) (h_idt s) (h_regs s) (h_kpgdir s) (h_phys s)).
Definition upd_ts (i : nat) (f : taskstate → taskstate) : M unit :=
  modify (λ s, Hw (h_mach s) (h_gdt s) (alter f i (h_ts s)) (h_idt s) (h_regs s) (h_kpgdir s) (h_phys s)).
Definition set_idt (n d : Z) : M unit :=
  modify (λ s, Hw (h_mach s) (h_gdt s) (h_ts s) (<[Z.to_nat n := d]> (h_idt s)) (h_regs s) (h_kpgdir s) (h_phys s)).
Definition upd_regs (f : cregs → cregs) : M unit :=
  modify (λ s, Hw (h_mach s) (h_gdt s) (h_ts s) (h_idt s) (alter f me (h_regs s)) (h_kpgdir s) (h_phys s)).
Definition set_kpgdir (v : Z) : M unit :=
  modify (λ s, Hw (h_mach s) (h_gdt s) (h_ts s) (h_idt s) (h_regs s) v (h_phys s)).

(** ** Descriptors as the processor reads them *)

(** Bits [lo .. lo + w) of a word. *)
Definition field (lo w x : Z) : Z := (x / 2 ^ lo) mod 2 ^ w.
Definition seg_type (d : Z) : Z := field 40 4 d.
Definition seg_s (d : Z) : Z := field 44 1 d.
Definition seg_dpl (d : Z) : Z := field 45 2 d.
Definition seg_p (d : Z) : Z := field 47 1 d.
Definition seg_base (d : Z) : Z := field 16 24 d + 2 ^ 24 * field 56 8 d.
(** The limit in bytes: the last offset inside. *)
Definition seg_limit (d : Z) : Z :=
  let l := field 0 16 d + 2 ^ 16 * field 48 4 d in
  if field 55 1 d =? 0 then l else l * 4096 + 4095.
Definition gate_off (g : Z) : Z := field 0 16 g + 2 ^ 16 * field 48 16 g.
Definition gate_sel (g : Z) : Z := field 16 16 g.

(** The descriptor a selector names, through the descriptor-table register: none past the limit. *)
Definition descriptor (s : hw) (sel : Z) : option Z :=
  r ← h_regs s !! me;
  g ← h_gdt s !! me;
  if bool_decide ((gdtr r).1 = gdt_addr me) && (sel / 8 * 8 + 7 <=? (gdtr r).2) then g !! Z.to_nat (sel / 8) else None.

(** ** x86.h *)

(** The operand in memory: the limit and the two halves of the address. *)
Definition pseudo (p size : Z) : Z * Z := (u16 p + 2 ^ 16 * u16 (Z.shiftr (u32 p) 16), u16 (size - 1)).
Definition lgdt (p size : Z) : M unit := upd_regs (λ r, Cregs (pseudo p size) (idtr r) (tr r) (cr3 r)).
Definition lidt (p size : Z) : M unit := upd_regs (λ r, Cregs (gdtr r) (pseudo p size) (tr r) (cr3 r)).
(** The task segment must be available (type 9); the processor marks it busy (type 11). *)
Definition ltr (sel : Z) : M unit :=
  s ← get;
  match descriptor s (u16 sel) with
  | Some d =>
      if (seg_type d =? STS_T32A) && (seg_s d =? 0) && (seg_p d =? 1) then
        _ ← set_gdt me (u16 sel / 8) (d + 2 ^ 41);
        upd_regs (λ r, Cregs (gdtr r) (idtr r) (u16 sel) (cr3 r))
      else undef "ltr: not an available task segment"
  | None => undef "ltr: no descriptor"
  end.
Definition lcr3 (v : Z) : M unit := upd_regs (λ r, Cregs (gdtr r) (idtr r) (tr r) (u32 v)).

(** ** vm.c *)

Definition seginit : M unit :=
  c ← on_mach (mycpu me);
  _ ← set_gdt c SEG_KCODE (SEG (Z.lor STA_X STA_R) 0 0xffffffff 0);
  _ ← set_gdt c SEG_KDATA (SEG STA_W 0 0xffffffff 0);
  _ ← set_gdt c SEG_UCODE (SEG (Z.lor STA_X STA_R) 0 0xffffffff DPL_USER);
  _ ← set_gdt c SEG_UDATA (SEG STA_W 0 0xffffffff DPL_USER);
  lgdt (gdt_addr c) (8 * NSEGS).

Definition switchkvm : M unit :=
  pd ← gets h_kpgdir;
  lcr3 (V2P pd).

Definition kvmalloc : M unit :=
  pd ← on_phys (setupkvm kend kdata);
  _ ← set_kpgdir pd;
  switchkvm.

Definition switchuvm (o : option proc) : M unit :=
  match o with
  | None => panic "switchuvm: no process"
  | Some p =>
      if p_kstack p =? 0 then panic "switchuvm: no kstack"
      else if p_pgdir p =? 0 then panic "switchuvm: no pgdir"
      else
        _ ← on_mach (pushcli me);
        c ← on_mach (mycpu me);
        _ ← set_gdt c SEG_TSS (SEG16 STS_T32A (ts_addr c) (sizeof_ts - 1) 0 1);
        c ← on_mach (mycpu me);
        _ ← set_gdt c SEG_TSS (SEG16 STS_T32A (ts_addr c) (sizeof_ts - 1) 0 0);
        c ← on_mach (mycpu me);
        _ ← upd_ts c (λ t, Ts (esp0 t) (Z.shiftl SEG_KDATA 3) (iomb t));
        c ← on_mach (mycpu me);
        _ ← upd_ts c (λ t, Ts (u32 (p_kstack p + KSTACKSIZE)) (ss0 t) (iomb t));
        c ← on_mach (mycpu me);
        _ ← upd_ts c (λ t, Ts (esp0 t) (ss0 t) 0xFFFF);
        _ ← ltr (Z.shiftl SEG_TSS 3);
        _ ← lcr3 (V2P (p_pgdir p));
        on_mach (popcli me)
  end.

(** ** trap.c *)

Definition tvinit : M unit :=
  _ ← for_each (range 0 256) (λ i, set_idt i (SETGATE false (Z.shiftl SEG_KCODE 3) (vectors i) 0));
  _ ← set_idt T_SYSCALL (SETGATE true (Z.shiftl SEG_KCODE 3) (vectors T_SYSCALL) DPL_USER);
  on_mach (initlock "tickslock" "time").

Definition idtinit : M unit := lidt idt_addr (8 * 256).

(** ** The processor *)

Definition gate (s : hw) (vec : Z) : option Z :=
  r ← h_regs s !! me;
  if bool_decide ((idtr r).1 = idt_addr) && (vec * 8 + 7 <=? (idtr r).2) then h_idt s !! Z.to_nat vec else None.
(** The task state the task register names. *)
Definition task (s : hw) : option (Z * taskstate) :=
  r ← h_regs s !! me;
  d ← descriptor s (tr r);
  t ← h_ts s !! me;
  if (seg_type d =? 11) && (seg_s d =? 0) && (seg_p d =? 1) && (seg_base d =? ts_addr me) then Some (d, t) else None.

(** A handler in a conforming segment (bit 42) runs at the privilege of the interrupted code.  Where the handler starts: privilege, code, stack ([None]: the interrupted one), and whether
    interrupts stay as they were. *)
Record entry := Entry { e_cpl : Z; e_cs : Z; e_eip : Z; e_stack : option (Z * Z); e_keep_if : bool }.
Inductive delivery := Enter (e : entry) | Fault (vec : Z).

(** Exceptions of the processor: invalid task state, segment not present, general protection. *)
Definition T_TSS : Z := 10.
Definition T_SEGNP : Z := 11.
Definition T_GPFLT : Z := 13.

(** Vector [vec] at privilege [cpl], from an [int] instruction ([soft]) or from the hardware. *)
Definition deliver (s : hw) (cpl : Z) (soft : bool) (vec : Z) : delivery :=
  match gate s vec with
  | None => Fault T_GPFLT
  | Some g =>
      if negb ((seg_type g =? STS_IG32) || (seg_type g =? STS_TG32)) || negb (seg_s g =? 0) then Fault T_GPFLT
      else if soft && (seg_dpl g <? cpl) then Fault T_GPFLT
      else if seg_p g =? 0 then Fault T_SEGNP
      else
        match descriptor s (gate_sel g) with
        | None => Fault T_GPFLT
        | Some d =>
            if (seg_s d =? 0) || (seg_type d <? 8) || (cpl <? seg_dpl d) then Fault T_GPFLT
            else if seg_p d =? 0 then Fault T_SEGNP
            else
              let e pl st := Enter (Entry pl (gate_sel g) (gate_off g) st (seg_type g =? STS_TG32)) in
              if (seg_dpl d =? cpl) || (field 42 1 d =? 1) then e cpl None
              else
                match task s with
                | None => Fault T_TSS
                | Some (_, t) =>
                    match descriptor s (ss0 t) with
                    | Some k =>
                        if (seg_s k =? 1) && (Z.land (seg_type k) 0xA =? 2) && (seg_dpl k =? seg_dpl d) && (seg_p k =? 1)
                        then e (seg_dpl d) (Some (ss0 t, esp0 t)) else Fault T_TSS
                    | None => Fault T_TSS
                    end
                end
        end
  end.

(** [in] and [out] on a port, with the I/O privilege [iopl] of eflags and [bitmap] the bytes of the
    task segment from its I/O map on. *)
Definition io_allowed (s : hw) (cpl iopl : Z) (bitmap : Z → bool) (port : Z) : bool :=
  if cpl <=? iopl then true
  else
    match task s with
    | None => false
    | Some (d, t) => (iomb t + port / 8 + 1 <=? seg_limit d) && negb (bitmap port)
    end.
End Hw.

(** ** Reading fields back *)

Lemma field_here w v l : 0 ≤ w → field 0 w (pack ((w, v) :: l)) = v mod 2 ^ w.
Proof.
  intros Hw. rw /field Z.div_1_r /= (Z.mul_comm (2 ^ w)) Z.mod_add; [|by apply Z.mod_mod; lia].
  pose proof (Z.pow_pos_nonneg 2 w). lia.
Qed.

Lemma field_skip lo w w0 v l : 0 ≤ w0 ≤ lo → field lo w (pack ((w0, v) :: l)) = field (lo - w0) w (pack l).
Proof.
  intros Hw. rw /field /=. f_equal. pose proof (Z.pow_pos_nonneg 2 w0 ltac:(lia) ltac:(lia)) as Hp.
  replace (2 ^ lo) with (2 ^ w0 * 2 ^ (lo - w0)) by (rewrite -Z.pow_add_r; [lia..|f_equal; lia]).
  rewrite -Z.div_div; [lia|apply Z.pow_pos_nonneg; lia|]. f_equal.
  rewrite (Z.mul_comm (2 ^ w0)) Z.div_add; [lia|]. rewrite Z.div_small; [by apply Z.mod_pos_bound|lia].
Qed.

(** Two fields that follow each other. *)
Lemma field_two lo w w' x : 0 ≤ lo → 0 ≤ w → 0 ≤ w' → field lo (w + w') x = field lo w x + 2 ^ w * field (lo + w) w' x.
Proof.
  intros. rw /field. rewrite (Z.pow_add_r 2 w w') // (Z.pow_add_r 2 lo w) //.
  assert (2 ^ w ≠ 0) by (apply Z.pow_nonzero; lia). assert (0 < 2 ^ w') by (apply Z.pow_pos_nonneg; lia).
  assert (0 < 2 ^ lo) by (apply Z.pow_pos_nonneg; lia). assert (0 < 2 ^ w) by (apply Z.pow_pos_nonneg; lia).
  rewrite (Z.rem_mul_r _ (2 ^ w) (2 ^ w')) //. by rewrite Z.div_div; [lia..|].
Qed.

Ltac fields := rw /seg_type /seg_s /seg_dpl /seg_p /gate_sel;
  repeat first [rewrite field_here; [lia|]|rewrite field_skip; [lia|]; simpl (_ - _)].

Lemma halves x : 0 ≤ x < 2 ^ 32 → Z.land x 0xffff + 2 ^ 16 * Z.shiftr x 16 = x.
Proof. intros. rewrite (Z.land_ones x 16) // Z.shiftr_div_pow2 //. Z.div_mod_to_equations. lia. Qed.

Lemma gate_fields istrap sel off d : 0 ≤ sel < 2 ^ 16 → 0 ≤ off < 2 ^ 32 → 0 ≤ d < 4 →
  let g := SETGATE istrap sel off d in
  seg_type g = (if istrap then STS_TG32 else STS_IG32) ∧ seg_s g = 0 ∧ seg_dpl g = d ∧ seg_p g = 1 ∧
  gate_sel g = sel ∧ gate_off g = off.
Proof.
  intros Hs Ho Hd g. rw /g /SETGATE /gatedesc (u32_small off) // /gate_off. fields.
  assert (0 ≤ Z.shiftr off 16 < 2 ^ 16). { rewrite Z.shiftr_div_pow2 //. Z.div_mod_to_equations. lia. }
  rewrite (Z.mod_small d) // (Z.mod_small sel) // (Z.mod_small (Z.shiftr _ _)) // (Z.mod_small (Z.land _ _)).
  { rewrite (Z.land_ones off 16) //. by apply Z.mod_pos_bound. }
  rewrite halves //. repeat split. by destruct istrap.
Qed.

(** The flat segments of [seginit]. *)
Definition flat (type dpl : Z) : Z := SEG type 0 0xffffffff dpl.
Lemma flat_fields type dpl : type = 2 ∨ type = 10 → dpl = 0 ∨ dpl = 3 →
  let d := flat type dpl in
  seg_type d = type ∧ seg_s d = 1 ∧ seg_dpl d = dpl ∧ seg_p d = 1 ∧ field 42 1 d = 0 ∧ seg_base d = 0 ∧ seg_limit d = 2 ^ 32 - 1.
Proof. intros [-> | ->] [-> | ->]; vm_compute; auto 10. Qed.

(** The descriptor of a task segment before and after [ltr]. *)
Definition tss (type base : Z) : Z := SEG16 type base (sizeof_ts - 1) 0 0.
Lemma tss_busy base : tss 9 base + 2 ^ 41 = tss 11 base.
Proof. rw /tss /SEG16 /segdesc. cbn [pack]. change (9 mod 2 ^ 4) with 9. change (11 mod 2 ^ 4) with 11. lia. Qed.
Lemma tss_fields type base : 0 ≤ type < 16 → 0 ≤ base < 2 ^ 32 →
  let d := tss type base in
  seg_type d = type ∧ seg_s d = 0 ∧ seg_p d = 1 ∧ seg_base d = base ∧ seg_limit d = 103.
Proof.
  intros Ht Hb d. rw /d /tss /SEG16 /segdesc /seg_base /seg_limit (u32_small base) //.
  rewrite (field_two 16 16 8) //. fields.
  rewrite (Z.land_ones base 16) // !Z.shiftr_div_pow2 // (Z.land_ones (base / _) 8) // (Z.mod_small type) //.
  repeat split. Z.div_mod_to_equations. lia.
Qed.

(** ** A CPU that is set up *)

Section Ready.
Variables (gdt_addr ts_addr : nat → Z) (idt_addr : Z) (vectors : Z → Z) (kend kdata : Z).
Variable me : nat.
Hypothesis Hgdt : 0 ≤ gdt_addr me < 2 ^ 32.
Hypothesis Hts : 0 ≤ ts_addr me < 2 ^ 32.
Hypothesis Hidt : 0 ≤ idt_addr < 2 ^ 32.
Hypothesis Hvec : ∀ i, 0 ≤ vectors i < 2 ^ 32.

Definition kernel_gate (i : Z) : Z :=
  if i =? T_SYSCALL then SETGATE true 8 (vectors i) DPL_USER else SETGATE false 8 (vectors i) 0.
Definition gdt_with (d0 d5 : Z) : list Z := [d0; flat 10 0; flat 2 0; flat 10 3; flat 2 3; d5].

(** CPU [me] as the kernel's C code needs it: known to [mycpu], with its arrays. *)
Record cpu_there (s : hw) : Prop := {
  ct_ids : NoDup (apicid <$> cpus (h_mach s));
  ct_cpu : ∃ c, cpus (h_mach s) !! me = Some c ∧ 0 ≤ ncli c ∧ (0 < ncli c → if_off c);
  ct_gdt : ∃ g, h_gdt s !! me = Some g ∧ length g = 6%nat;
  ct_ts : is_Some (h_ts s !! me);
  ct_idt : length (h_idt s) = 256%nat;
  ct_regs : is_Some (h_regs s !! me)
}.
Record cpu_ready (s : hw) : Prop := {
  cr_there : cpu_there s;
  cr_gdt : ∃ d0 d5, h_gdt s !! me = Some (gdt_with d0 d5);
  cr_idt : h_idt s = kernel_gate <$> range 0 256;
  cr_regs : ∃ r, h_regs s !! me = Some r ∧ gdtr r = (gdt_addr me, 47) ∧ idtr r = (idt_addr, 2047)
}.
(** ... and runs process [p]. *)
Record runs_proc (p : proc) (s : hw) : Prop := {
  rp_ready : cpu_ready s;
  rp_gdt : ∃ d0, h_gdt s !! me = Some (gdt_with d0 (tss 11 (ts_addr me)));
  rp_ts : h_ts s !! me = Some (Ts (u32 (p_kstack p + KSTACKSIZE)) 16 0xffff);
  rp_regs : ∃ r, h_regs s !! me = Some r ∧ tr r = 40 ∧ cr3 r = V2P (p_pgdir p)
}.

Lemma pseudo_run p n : 0 ≤ p < 2 ^ 32 → pseudo p n = (p, u16 (n - 1)).
Proof using Type.
  intros Hp. clear - Hp. rw /pseudo u32_small // Z.shiftr_div_pow2 // /u16. f_equal. Z.div_mod_to_equations. lia.
Qed.

Definition with_idt (l : list Z) (s : hw) : hw :=
  Hw (h_mach s) (h_gdt s) (h_ts s) l (h_regs s) (h_kpgdir s) (h_phys s).
Lemma fill_idt f l s :
  for_each l (λ i, set_idt i (f i)) s = Ret tt (with_idt (foldl (λ t i, <[Z.to_nat i := f i]> t) (h_idt s) l) s).
Proof using Type. revert s. induction l as [|i l IH]; intros s; [by destruct s|]. cbn [for_each foldl]. rw /mbind /K_bind /set_idt /modify IH //. Qed.
Lemma fold_fill (f : Z → Z) (l : list Z) n : (n ≤ length l)%nat →
  foldl (λ t i, <[Z.to_nat i := f i]> t) l (range 0 (Z.of_nat n)) = (f <$> range 0 (Z.of_nat n)) ++ drop n l.
Proof using Type.
  induction n as [|n IH]; intros Hn; [done|]. replace (Z.of_nat (S n)) with (Z.of_nat n + 1) by lia.
  rewrite range_snoc; [lia|]. rewrite foldl_app IH; [lia|]. rewrite fmap_app /= Nat2Z.id.
  assert (length (f <$> range 0 (Z.of_nat n)) = n) as El. { rewrite length_fmap /range length_seqZ. lia. }
  rewrite -app_assoc /= insert_app_r_alt; [lia|]. rewrite El Nat.sub_diag. f_equal.
  destruct (lookup_lt_is_Some_2 l n ltac:(lia)) as [x Hx]. by rewrite (drop_S l x n Hx).
Qed.

Definition with_mach (m : machine) (s : hw) : hw :=
  Hw m (h_gdt s) (h_ts s) (h_idt s) (h_regs s) (h_kpgdir s) (h_phys s).
Lemma tvinit_run s : length (h_idt s) = 256%nat →
  ∃ lk, tvinit vectors s = Ret tt (with_idt (kernel_gate <$> range 0 256) (with_mach (set_lock "tickslock" lk (h_mach s)) s)).
Proof using Type.
  intros Hl. rw /tvinit /mbind /K_bind fill_idt (fold_fill _ _ 256); [lia|]. rewrite drop_ge; [lia|]. rewrite app_nil_r.
  cbn [set_idt modify]. eexists. rw /on_mach /zoom /initlock /with_idt /with_mach /=. do 2 f_equal.
Qed.

Lemma mycpu_hw s c : cpu_there s → cpus (h_mach s) !! me = Some c → if_off c → on_mach (mycpu me) s = Ret me s.
Proof using Type. intros Ht Hc Ho. rw /on_mach /zoom (mycpu_me me (h_mach s) c (ct_ids _ Ht) Hc Ho). by destruct s. Qed.

(** What a CPU's own code leaves of the other CPUs. *)
Record only (s s' : hw) : Prop := {
  on_cpus : ∀ j, me ≠ j → cpus (h_mach s') !! j = cpus (h_mach s) !! j;
  on_gdt : ∀ j, me ≠ j → h_gdt s' !! j = h_gdt s !! j;
  on_ts : ∀ j, me ≠ j → h_ts s' !! j = h_ts s !! j;
  on_regs : ∀ j, me ≠ j → h_regs s' !! j = h_regs s !! j;
  on_idt : h_idt s' = h_idt s;
  on_ids : apicid <$> cpus (h_mach s') = apicid <$> cpus (h_mach s)
}.

Lemma only_trans s1 s2 s3 : only s1 s2 → only s2 s3 → only s1 s3.
Proof using Type. intros [A B C D E F] [A' B' C' D' E' F']. split; intros; by rewrite ?A' ?A ?B' ?B ?C' ?C ?D' ?D ?E' ?E ?F' ?F. Qed.

Lemma seginit_wp s c : cpu_there s → cpus (h_mach s) !! me = Some c → if_off c →
  wp (seginit gdt_addr me) s (λ _ s', only s s' ∧ h_mach s' = h_mach s ∧ cpu_there s' ∧
    (∃ d0 d5, h_gdt s' !! me = Some (gdt_with d0 d5)) ∧
    ∃ r, h_regs s !! me = Some r ∧ h_regs s' !! me = Some (Cregs (gdt_addr me, 47) (idtr r) (tr r) (cr3 r))).
Proof using Hgdt.
  intros Ht Hc Ho. destruct (ct_gdt _ Ht) as (g&Hg&Hl). destruct (ct_regs _ Ht) as [r Hr].
  apply wp_bind. rw {1}/wp (mycpu_hw s c) //. do 4 apply wp_bind, wp_modify. apply wp_modify. cbn [h_gdt h_regs h_idt h_mach h_ts h_kpgdir h_phys].
  destruct g as [|d0 [|d1 [|d2 [|d3 [|d4 [|d5 [|]]]]]]]; try done.
  split; [|split; [done|split]].
  - split; try done; intros j Hj; cbn [h_gdt h_regs]; by rewrite !list_lookup_alter_ne.
  - split; cbn [h_gdt h_regs h_idt h_mach h_ts]; try apply Ht; rewrite !list_lookup_alter_eq ?Hg ?Hr; by eexists.
  - rewrite !list_lookup_alter_eq Hr Hg pseudo_run //. split; [by exists d0, d5|]. by exists r.
Qed.

Lemma idtinit_wp s : cpu_there s →
  wp (idtinit idt_addr me) s (λ _ s', only s s' ∧ h_mach s' = h_mach s ∧ cpu_there s' ∧ h_gdt s' = h_gdt s ∧
    ∃ r, h_regs s !! me = Some r ∧ h_regs s' !! me = Some (Cregs (gdtr r) (idt_addr, 2047) (tr r) (cr3 r))).
Proof using Hidt.
  intros Ht. destruct (ct_regs _ Ht) as [r Hr]. apply wp_modify. split; [|split; [done|split]].
  - split; try done; intros j Hj; cbn [h_gdt h_regs]; by rewrite !list_lookup_alter_ne.
  - split; cbn [h_gdt h_regs h_idt h_mach h_ts]; try apply Ht; rewrite !list_lookup_alter_eq ?Hr; by eexists.
  - split; [done|]. exists r. cbn [h_regs]. rewrite list_lookup_alter_eq Hr pseudo_run //.
Qed.

Lemma switchkvm_wp s : cpu_there s →
  wp (switchkvm me) s (λ _ s', only s s' ∧ h_mach s' = h_mach s ∧ cpu_there s' ∧ h_gdt s' = h_gdt s ∧
    ∃ r, h_regs s !! me = Some r ∧ h_regs s' !! me = Some (Cregs (gdtr r) (idtr r) (tr r) (V2P (h_kpgdir s)))).
Proof using Type.
  intros Ht. destruct (ct_regs _ Ht) as [r Hr]. apply wp_bind, wp_gets, wp_modify. split; [|split; [done|split]].
  - split; try done; intros j Hj; cbn [h_gdt h_regs]; by rewrite !list_lookup_alter_ne.
  - split; cbn [h_gdt h_regs h_idt h_mach h_ts]; try apply Ht; rewrite !list_lookup_alter_eq ?Hr; by eexists.
  - split; [done|]. exists r. cbn [h_regs]. rewrite list_lookup_alter_eq Hr /= u32_small //. rw /V2P. apply u32_range.
Qed.

(** [seginit] and [idtinit] make a CPU ready once the gates are there. *)
Lemma enter_wp s c : cpu_there s → cpus (h_mach s) !! me = Some c → if_off c → h_idt s = kernel_gate <$> range 0 256 →
  wp (_ ← seginit gdt_addr me; idtinit idt_addr me) s (λ _ s', only s s' ∧ h_mach s' = h_mach s ∧ cpu_ready s').
Proof using Hgdt Hidt.
  intros Ht Hc Ho Hi. apply wp_bind. refine (wp_mono _ _ _ _ (seginit_wp s c Ht Hc Ho) _).
  intros _ s1 (O1&M1&T1&G1&r&_&R1). refine (wp_mono _ _ _ _ (idtinit_wp s1 T1) _).
  intros _ s2 (O2&M2&T2&G2&r2&Hr2&R2). simplify_eq/=. split; [|split; [congruence|]].
  - exact (only_trans _ _ _ O1 O2).
  - split; [done|by rewrite G2|rewrite (on_idt _ _ O2) (on_idt _ _ O1) //|]. eexists. split; [exact R2|done].
Qed.

(** The state [switchuvm] reaches. *)
Definition switched (p : proc) (c : cpu) (s : hw) : hw :=
  Hw (set_cpu me c (h_mach s)) (alter (λ g, <[5%nat := tss 11 (ts_addr me)]> g) me (h_gdt s))
    (alter (λ _, Ts (u32 (p_kstack p + KSTACKSIZE)) 16 0xffff) me (h_ts s)) (h_idt s)
    (alter (λ r, Cregs (gdtr r) (idtr r) 40 (V2P (p_pgdir p))) me (h_regs s)) (h_kpgdir s) (h_phys s).

Lemma alter_ext {A} (f g : A → A) i (l : list A) : (∀ x, f x = g x) → alter f i l = alter g i l.
Proof using Type. intros E. revert i. induction l as [|x l IH]; intros [|i]; cbn; [done..| |]; f_equal; [apply E|apply IH]. Qed.

Lemma ltr_run s g r : h_gdt s !! me = Some g → h_regs s !! me = Some r → gdtr r = (gdt_addr me, 47) →
  g !! 5%nat = Some (tss 9 (ts_addr me)) →
  ltr gdt_addr me 40 s =
    Ret tt (Hw (h_mach s) (alter (λ g, <[5%nat := tss 11 (ts_addr me)]> g) me (h_gdt s)) (h_ts s) (h_idt s)
      (alter (λ r, Cregs (gdtr r) (idtr r) 40 (cr3 r)) me (h_regs s)) (h_kpgdir s) (h_phys s)).
Proof using Hts.
  intros Hg Hr Er H5. assert (descriptor gdt_addr me s (u16 40) = Some (tss 9 (ts_addr me))) as Ed.
  { rw /descriptor Hr /mbind /option_bind Hg Er bool_decide_true //. }
  rw /ltr /mbind /K_bind. cbn [get]. rewrite Ed.
  destruct (tss_fields 9 (ts_addr me)) as (->&->&->&_&_); [lia|done|]. change (9 =? STS_T32A) with true. rewrite !Z.eqb_refl. cbn [andb]. by rewrite -tss_busy.
Qed.

Lemma switchuvm_run s p : cpu_ready s → p_kstack p ≠ 0 → p_pgdir p ≠ 0 →
  ∃ c, cpus (h_mach s) !! me = Some c ∧ switchuvm gdt_addr ts_addr me (Some p) s = Ret tt (switched p (popped (pushed c)) s).
Proof using Hts.
  intros Hr Hk Hp. destruct (ct_cpu _ (cr_there _ Hr)) as (c&Hc&Hn&Ho). exists c. split; [done|].
  destruct (cr_regs _ Hr) as (r&Er&Eg&_). destruct (cr_gdt _ Hr) as (d0&d5&Hg). pose proof (ct_ids _ (cr_there _ Hr)) as Hids.
  set (m1 := set_cpu me (pushed c) (h_mach s)).
  assert (cpus m1 !! me = Some (pushed c)) as Hc1 by exact (set_cpu_lookup me (h_mach s) c _ Hc).
  assert (NoDup (apicid <$> cpus m1)) as Hids1 by by rewrite (set_cpu_apicids me (h_mach s) c).
  assert (∀ g t i q kp ph, on_mach (mycpu me) (Hw m1 g t i q kp ph) = Ret me (Hw m1 g t i q kp ph)) as Hmy.
  { intros. rw /on_mach /zoom /= (mycpu_me me m1 (pushed c)) //. apply pushed_off. }
  rw /switchuvm. destruct (Z.eqb_spec (p_kstack p) 0); [done|]. destruct (Z.eqb_spec (p_pgdir p) 0); [done|].
  rewrite (bind_Ret _ _ _ tt (Hw m1 (h_gdt s) (h_ts s) (h_idt s) (h_regs s) (h_kpgdir s) (h_phys s))).
  { by rw /on_mach /zoom (pushcli_run me (h_mach s) c). }
  do 5 (rewrite (bind_Ret _ _ _ _ _ (Hmy _ _ _ _ _ _)); erewrite bind_Ret; [|reflexivity]). cbn [h_gdt h_ts h_idt h_regs h_kpgdir h_phys h_mach].
  rewrite !alter_alter. erewrite bind_Ret.
  2:{ eapply ltr_run; [by rewrite list_lookup_alter_eq Hg|exact Er|done|reflexivity]. }
  cbn [h_gdt h_ts h_idt h_regs h_kpgdir h_phys h_mach]. erewrite bind_Ret; [|reflexivity].
  cbn [h_gdt h_ts h_idt h_regs h_kpgdir h_phys h_mach]. rewrite !alter_alter.
  rw /on_mach /zoom /= (popcli_run me m1 (pushed c)) //; [apply pushed_off|simpl; lia|].
  rw /switched /m1 set_cpu_twice. do 2 f_equal; apply alter_ext.
  - intros g. change (Z.to_nat SEG_TSS) with 5%nat. cbn [compose]. by rewrite !list_insert_insert_eq.
  - intros r'. cbn [compose gdtr idtr tr]. rewrite u32_small //. rw /V2P. apply u32_range.
Qed.

Lemma switchuvm_wp s p : cpu_ready s → p_kstack p ≠ 0 → p_pgdir p ≠ 0 →
  wp (switchuvm gdt_addr ts_addr me (Some p)) s (λ _ s', only s s' ∧ runs_proc p s').
Proof using Hts.
  intros Hr Hk Hp. destruct (switchuvm_run s p Hr Hk Hp) as (c&Hc&E). apply (wp_intro _ _ _ _ _ E).
  destruct (ct_cpu _ (cr_there _ Hr)) as (c'&Hc'&Hn&Ho). simplify_eq. destruct (popped_pushed c Hn Ho) as [En Ef].
  assert (apicid <$> cpus (set_cpu me (popped (pushed c)) (h_mach s)) = apicid <$> cpus (h_mach s)) as Ei by by apply (set_cpu_apicids me _ c).
  destruct (cr_regs _ Hr) as (r&Er&Eg&Edt). destruct (cr_gdt _ Hr) as (d0&d5&Hg). destruct (ct_ts _ (cr_there _ Hr)) as [t Ht].
  assert (h_gdt (switched p (popped (pushed c)) s) !! me = Some (gdt_with d0 (tss 11 (ts_addr me)))) as Hg'.
  { rw /switched list_lookup_alter_eq Hg //. }
  split; [split; try done; intros j Hj; cbn [switched h_mach h_gdt h_ts h_regs]; try by rewrite list_lookup_alter_ne|].
  { rw /set_cpu /=. by rewrite list_lookup_insert_ne. }
  assert (h_regs (switched p (popped (pushed c)) s) !! me = Some (Cregs (gdtr r) (idtr r) 40 (V2P (p_pgdir p)))) as Hr'.
  { rw /switched list_lookup_alter_eq Er //. }
  assert (h_ts (switched p (popped (pushed c)) s) !! me = Some (Ts (u32 (p_kstack p + KSTACKSIZE)) 16 0xffff)) as Ht'.
  { rw /switched list_lookup_alter_eq Ht //. }
  split; [split; [split|..]|..]; rewrite ?Hg' ?Hr' ?Ht'; try apply Hr; try (by eexists); try (by eexists _, _); try done.
  - cbn [switched h_mach]. rewrite Ei. apply Hr.
  - exists (popped (pushed c)). cbn [switched h_mach]. split; [exact (set_cpu_lookup me _ _ _ Hc)|]. rw /if_off En Ef. done.
Qed.

(** ** The processor on a CPU that runs a process *)

Lemma gate_ready s vec : cpu_ready s → 0 ≤ vec < 256 → gate idt_addr me s vec = Some (kernel_gate vec).
Proof using Type.
  intros Hr Hv. destruct (cr_regs _ Hr) as (r&Er&_&Ei). rw /gate Er /= Ei bool_decide_true //.
  cbn [andb]. rewrite (cr_idt _ Hr) list_lookup_fmap /range lookup_seqZ_lt; [lia|].
  cbn [fmap option_fmap option_map]. rewrite Z2Nat.id; [lia|]. rewrite Z.add_0_l. cbn [snd]. by destruct (Z.leb_spec (vec * 8 + 7) 2047); [|lia].
Qed.
Lemma kernel_gate_fields vec : let g := kernel_gate vec in
  seg_type g = (if vec =? T_SYSCALL then STS_TG32 else STS_IG32) ∧ seg_s g = 0 ∧
  seg_dpl g = (if vec =? T_SYSCALL then 3 else 0) ∧ seg_p g = 1 ∧ gate_sel g = 8 ∧ gate_off g = vectors vec.
Proof using Hvec. cbv zeta. rw /kernel_gate. destruct (vec =? T_SYSCALL); apply gate_fields; auto; rw /DPL_USER; lia. Qed.

Lemma descriptor_ready s d0 d5 n : cpu_ready s → h_gdt s !! me = Some (gdt_with d0 d5) → 0 ≤ n < 6 →
  descriptor gdt_addr me s (8 * n) = gdt_with d0 d5 !! Z.to_nat n.
Proof using Type.
  intros Hr Hg Hn. destruct (cr_regs _ Hr) as (r&Er&Eg&_). rw /descriptor Er /mbind /option_bind Hg Eg bool_decide_true //.
  rewrite (Z.mul_comm 8 n) Z.div_mul //. cbn [fst snd]. by destruct (Z.leb_spec (n * 8 + 7) 47); [|lia].
Qed.

Lemma task_ready p s : runs_proc p s →
  task gdt_addr ts_addr me s = Some (tss 11 (ts_addr me), Ts (u32 (p_kstack p + KSTACKSIZE)) 16 0xffff).
Proof using Hts.
  intros [Hr [d0 Hg] Ht (r&Er&Etr&_)]. rw /task Er /mbind /option_bind Etr (descriptor_ready s _ _ 5 Hr Hg) // Ht.
  change (gdt_with d0 (tss 11 (ts_addr me)) !! Z.to_nat 5) with (Some (tss 11 (ts_addr me))).
  destruct (tss_fields 11 (ts_addr me)) as (->&->&->&->&_); [lia|done|]. by rewrite !Z.eqb_refl.
Qed.

Definition kernel_entry (vec : Z) (stack : option (Z * Z)) : delivery :=
  Enter (Entry 0 8 (vectors vec) stack (vec =? T_SYSCALL)).

Lemma deliver_ready p s soft vec cpl : runs_proc p s → 0 ≤ vec < 256 → cpl = 0 ∨ cpl = 3 →
  deliver gdt_addr ts_addr idt_addr me s cpl soft vec =
    if soft && (cpl =? 3) && negb (vec =? T_SYSCALL) then Fault T_GPFLT
    else kernel_entry vec (if cpl =? 3 then Some (16, u32 (p_kstack p + KSTACKSIZE)) else None).
Proof using Hts Hvec.
  intros Hp Hv Hc. rw /deliver (gate_ready s vec (rp_ready _ _ Hp) Hv). pose proof (kernel_gate_fields vec) as (->&->&->&->&->&->).
  destruct (rp_gdt _ _ Hp) as [d0 Hg]. rewrite (descriptor_ready s _ _ 1 (rp_ready _ _ Hp) Hg) //.
  change (gdt_with d0 (tss 11 (ts_addr me)) !! Z.to_nat 1) with (Some (flat 10 0)).
  destruct (flat_fields 10 0) as (->&->&->&->&->&_&_); [auto..|]. rewrite (task_ready p s Hp).
  rewrite (descriptor_ready s _ _ 2 (rp_ready _ _ Hp) Hg) //.
  change (gdt_with d0 (tss 11 (ts_addr me)) !! Z.to_nat 2) with (Some (flat 2 0)).
  destruct (flat_fields 2 0) as (->&->&->&->&_&_&_); [auto..|].
  rw /kernel_entry. destruct Hc as [-> | ->], soft, (vec =? T_SYSCALL); reflexivity.
Qed.

Lemma no_ports p s iopl bitmap port : runs_proc p s → iopl < 3 → 0 ≤ port → io_allowed gdt_addr ts_addr me s 3 iopl bitmap port = false.
Proof using Hts.
  intros Hp Hi H0. rw /io_allowed (task_ready p s Hp). destruct (Z.leb_spec 3 iopl); [lia|]. cbn [iomb].
  destruct (tss_fields 11 (ts_addr me)) as (_&_&_&_&->); [lia|done|].
  destruct (Z.leb_spec (65535 + port / 8 + 1) 103) as [Hle|]; [|done]. pose proof (Z.div_pos port 8). lia.
Qed.
End Ready.

(** ** All CPUs *)

Section Machine.
Variables (gdt_addr ts_addr : nat → Z) (idt_addr : Z) (vectors : Z → Z).

(** What main, startothers, mpenter and mpmain do to these tables on [n] CPUs: the first CPU fills the
    gates, each of the others comes up, the first one loads the table last. *)
Definition startup (n : nat) : K hw unit :=
  _ ← seginit gdt_addr 0;
  _ ← tvinit vectors;
  _ ← for_each (seq 1 (n - 1)) (λ j, _ ← switchkvm j; _ ← seginit gdt_addr j; idtinit idt_addr j);
  idtinit idt_addr 0.

(** Switches of the scheduler: CPU [x.1] to a process or to the kernel's page directory. *)
Definition switch_to (x : nat * option proc) : K hw unit :=
  match x.2 with
  | Some p => switchuvm gdt_addr ts_addr x.1 (Some p)
  | None => switchkvm x.1
  end.
(** The last switch of CPU [j]. *)
Definition last_switch (j : nat) (l : list (nat * option proc)) : option (option proc) :=
  last (omap (λ x, if decide (x.1 = j) then Some x.2 else None) l).

Lemma last_switch_snoc j l x : last_switch j (l ++ [x]) = if decide (x.1 = j) then Some x.2 else last_switch j l.
Proof. rw /last_switch omap_app /=. case_decide; [by rewrite last_snoc|by rewrite app_nil_r]. Qed.

Definition fits : Prop := 0 ≤ idt_addr < 2 ^ 32 ∧ (∀ i, 0 ≤ vectors i < 2 ^ 32) ∧
  ∀ j, 0 ≤ gdt_addr j < 2 ^ 32 ∧ 0 ≤ ts_addr j < 2 ^ 32.
Hypothesis Hfits : fits.

Notation ready := (cpu_ready gdt_addr idt_addr vectors).
Notation runp := (runs_proc gdt_addr ts_addr idt_addr vectors).

Lemma only_there me j s s' : only me s s' → me ≠ j → cpu_there j s → cpu_there j s'.
Proof. intros [A B C D E F] Hj [H1 H2 H3 H4 H5 H6]. split; rewrite ?F ?A // ?B // ?C // ?D // ?E //. Qed.
Lemma only_ready me j s s' : only me s s' → me ≠ j → ready j s → ready j s'.
Proof.
  intros O Hj [H1 H2 H3 H4]. split; [exact (only_there _ _ _ _ O Hj H1)|..]; rewrite ?(on_gdt _ _ _ O) // ?(on_idt _ _ _ O) // ?(on_regs _ _ _ O) //.
Qed.
Lemma only_runs me j p s s' : only me s s' → me ≠ j → runp j p s → runp j p s'.
Proof.
  intros O Hj [H1 H2 H3 H4]. split; [exact (only_ready _ _ _ _ O Hj H1)|..]; rewrite ?(on_gdt _ _ _ O) // ?(on_ts _ _ _ O) // ?(on_regs _ _ _ O) //.
Qed.

(** A CPU that waits to be started: interrupts off. *)
Definition waiting (j : nat) (s : hw) : Prop := cpu_there j s ∧ ∃ c, cpus (h_mach s) !! j = Some c ∧ if_off c.
Lemma only_waiting me j s s' : only me s s' → me ≠ j → waiting j s → waiting j s'.
Proof. intros O Hj [H1 H2]. split; [exact (only_there _ _ _ _ O Hj H1)|]. by rewrite (on_cpus _ _ _ O). Qed.

Definition gates_set (s : hw) : Prop := h_idt s = kernel_gate vectors <$> range 0 256.

Lemma other_up j s : waiting j s → gates_set s →
  wp (_ ← switchkvm j; _ ← seginit gdt_addr j; idtinit idt_addr j) s (λ _ s', only j s s' ∧ ready j s').
Proof.
  intros [Ht (c&Hc&Ho)] Hg. destruct Hfits as (Hi&Hv&Ha). apply wp_bind. refine (wp_mono _ _ _ _ (switchkvm_wp j s Ht) _).
  intros _ s1 (O1&M1&T1&_). refine (wp_mono _ _ _ _ (enter_wp gdt_addr idt_addr vectors j _ _ s1 c T1 _ Ho _) _); try done.
  - apply Ha.
  - by rewrite M1.
  - by rewrite /gates_set (on_idt _ _ _ O1).
  - intros _ s2 (O2&_&R2). split; [exact (only_trans _ _ _ _ O1 O2)|done].
Qed.

(** While the first CPU starts the others: the ones before [k] are ready, the others wait. *)
Definition coming_up (n k : nat) (s : hw) : Prop :=
  gates_set s ∧ (∀ j, (1 ≤ j < k)%nat → ready j s) ∧ (∀ j, (k ≤ j < n)%nat → waiting j s).

Lemma others_up n k s m : (1 ≤ k)%nat → (k + m = n)%nat → coming_up n k s →
  wp (for_each (seq k m) (λ j, _ ← switchkvm j; _ ← seginit gdt_addr j; idtinit idt_addr j)) s (λ _ s',
    coming_up n n s' ∧ (∀ j, (j < k)%nat → (ready j s → ready j s') ∧ (cpu_there j s → cpu_there j s') ∧
      h_gdt s' !! j = h_gdt s !! j ∧ h_regs s' !! j = h_regs s !! j)).
Proof.
  revert k s. induction m as [|m IH]; intros k s Hk Hn (Hg&Hr&Hw); cbn [seq for_each].
  { apply wp_ret. assert (k = n) as -> by lia. split; [by split|]. intros j Hj. split; [auto|split; [auto|done]]. }
  apply wp_bind. refine (wp_mono _ _ _ _ (other_up k s (Hw k ltac:(lia)) Hg) _). intros _ s1 (O1&R1).
  refine (wp_mono _ _ _ _ (IH (S k) s1 ltac:(lia) ltac:(lia) _) _).
  - split; [by rewrite /gates_set (on_idt _ _ _ O1)|]. split; intros j Hj.
    + destruct (decide (j = k)) as [->|]; [done|]. apply (only_ready k j s s1 O1); [lia|]. apply Hr. lia.
    + apply (only_waiting k j s s1 O1); [lia|]. apply Hw. lia.
  - intros _ s2 (H2&F2). split; [done|]. intros j Hj. destruct (F2 j ltac:(lia)) as (A&B&C&D).
    assert (k ≠ j) as Hne by lia. rewrite C D (on_gdt _ _ _ O1) // (on_regs _ _ _ O1) //.
    split; [intros H; by apply A, (only_ready k j s s1 O1)|]. split; [|done]. intros H. by apply B, (only_there k j s s1 O1).
Qed.

Lemma startup_wp n s : (1 ≤ n)%nat → (∀ j, (j < n)%nat → waiting j s) →
  wp (startup n) s (λ _ s', ∀ j, (j < n)%nat → ready j s').
Proof.
  intros Hn Hw. destruct Hfits as (Hi&Hv&Ha). destruct (Hw 0%nat ltac:(lia)) as [Ht (c&Hc&Ho)]. apply wp_bind.
  refine (wp_mono _ _ _ _ (seginit_wp gdt_addr 0 (proj1 (Ha 0%nat)) s c Ht Hc Ho) _).
  intros _ s1 (O1&M1&T1&(d0&d5&G1)&r&_&R1). destruct (tvinit_run vectors s1 (ct_idt _ _ T1)) as [lk E].
  apply wp_bind, (wp_intro _ _ _ _ _ E). set (s2 := with_idt _ _). apply wp_bind.
  assert (length (kernel_gate vectors <$> range 0 256) = 256%nat) as L2 by by rewrite length_fmap.
  assert (∀ j, cpu_there j s1 → cpu_there j s2) as F2. { intros j [A B C D _ F]. by split. }
  refine (wp_mono _ _ _ _ (others_up n 1 s2 (n - 1) ltac:(lia) ltac:(lia) _) _).
  - split; [done|]. split; intros j Hj; [lia|]. destruct (only_waiting 0 j s s1 O1 ltac:(lia) (Hw j ltac:(lia))) as [A B].
    split; [by apply F2|done].
  - intros _ s3 ((Hg&Hr&_)&H0). destruct (H0 0%nat ltac:(lia)) as (_&T3&G3&R3). specialize (T3 (F2 _ T1)).
    refine (wp_mono _ _ _ _ (idtinit_wp idt_addr 0 Hi s3 T3) _). intros _ s4 (O4&M4&T4&G4&r4&E4&R4) j Hj.
    destruct (decide (j = 0%nat)) as [->|]; [|apply (only_ready 0 j s3 s4 O4); [lia|apply Hr; lia]].
    change (h_regs s2) with (h_regs s1) in R3. rewrite R3 R1 in E4. injection E4 as <-. change (h_gdt s2) with (h_gdt s1) in G3.
    split; [done|exists d0, d5; by rewrite G4 G3|by rewrite (on_idt _ _ _ O4)|]. eexists. by split; [exact R4|].
Qed.

(** After the switches [l]: CPU [j] runs what it switched to last. *)
Lemma switches_wp n s l : (∀ j, (j < n)%nat → ready j s) →
  Forall (λ x, (x.1 < n)%nat ∧ ∀ p, x.2 = Some p → p_kstack p ≠ 0 ∧ p_pgdir p ≠ 0) l →
  wp (for_each l switch_to) s (λ _ s', ∀ j p, last_switch j l = Some (Some p) → runp j p s').
Proof.
  intros Hr Hl. destruct Hfits as (Hi&Hv&Ha). apply (wp_for_each _ _ (λ pre s', (∀ j, (j < n)%nat → ready j s') ∧
    ∀ j p, last_switch j pre = Some (Some p) → runp j p s')); [by split| |by intros s' [_ H]].
  intros pre [i o] post s1 -> (R1&P1). apply Forall_app in Hl as [_ [[Hi1 Hp] _]%Forall_cons]. cbn [fst snd] in *.
  assert (∀ s2, only i s1 s2 → ready i s2 → (∀ p, o = Some p → runp i p s2) →
    (∀ j, (j < n)%nat → ready j s2) ∧ ∀ j p, last_switch j (pre ++ [(i, o)]) = Some (Some p) → runp j p s2) as Hgo.
  { intros s2 O2 R2 P2. split; intros j.
    - intros Hj. destruct (decide (i = j)) as [<-|]; [done|]. apply (only_ready i j s1 s2 O2); auto.
    - intros p. rewrite last_switch_snoc. cbn [fst snd]. case_decide as E; [intros [= ->]; rewrite -E; auto|].
      intros H. apply (only_runs i j p s1 s2 O2); auto. }
  rw /switch_to. cbn [fst snd]. destruct o as [p|].
  - destruct (Hp p eq_refl) as [Hk Hd]. destruct (Ha i) as [Hg Ht].
    refine (wp_mono _ _ _ _ (switchuvm_wp gdt_addr ts_addr idt_addr vectors i Ht s1 p (R1 i Hi1) Hk Hd) _).
    intros _ s2 [O2 P2]. apply Hgo; [done|apply P2|]. intros p' [= <-]. done.
  - refine (wp_mono _ _ _ _ (switchkvm_wp i s1 (cr_there _ _ _ _ _ (R1 i Hi1))) _).
    intros _ s2 (O2&M2&T2&G2&r&E2&R2). apply Hgo; [done| |done]. destruct (R1 i Hi1) as [_ B C (r'&E'&F1&F2)]. simplify_eq.
    split; [done|by rewrite G2|by rewrite (on_idt _ _ _ O2)|]. eexists. split; [exact R2|done].
Qed.
End Machine.

(** ** The theorem *)

(** C11: User code enters the kernel only where the kernel wants it.  After the tables have been set up on
    all CPUs and the CPUs have switched between processes in any order, on a CPU whose last switch was to process [p]: user code can raise vector 64
    with an [int] instruction and any other vector faults; vector 64, and every interrupt and exception, starts the code of its vector at privilege 0
    on the top of the kernel stack of [p], with interrupts off except for vector 64; in the
    kernel the stack stays; no port is open to user code; and the page directory is the one of [p]. *)
Theorem user_entry_guarded gdt_addr ts_addr idt_addr vectors n s l
    (Hfits : fits gdt_addr ts_addr idt_addr vectors) (Hn : (1 ≤ n)%nat) (Hs : ∀ j, (j < n)%nat → waiting j s)
    (Hl : Forall (λ x, (x.1 < n)%nat ∧ ∀ p, x.2 = Some p → p_kstack p ≠ 0 ∧ p_pgdir p ≠ 0) l) :
  wp (_ ← startup gdt_addr idt_addr vectors n; for_each l (switch_to gdt_addr ts_addr)) s (λ _ s', ∀ j p,
    last_switch j l = Some (Some p) →
    let stack := Some (16, u32 (p_kstack p + KSTACKSIZE)) in
    let raise := deliver gdt_addr ts_addr idt_addr j s' in
    (∀ vec, 0 ≤ vec < 256 →
      raise 3 true vec = (if vec =? T_SYSCALL then kernel_entry vectors vec stack else Fault T_GPFLT) ∧
      raise 3 false vec = kernel_entry vectors vec stack ∧
      raise 0 false vec = kernel_entry vectors vec None) ∧
    (∀ bitmap port, 0 ≤ port → io_allowed gdt_addr ts_addr j s' 3 0 bitmap port = false) ∧
    ∃ r, h_regs s' !! j = Some r ∧ cr3 r = V2P (p_pgdir p)).
Proof.
  pose proof Hfits as (_&Hv&Ha). apply wp_bind. refine (wp_mono _ _ _ _ (startup_wp _ _ _ _ Hfits n s Hn Hs) _).
  intros _ s1 R1. refine (wp_mono _ _ _ _ (switches_wp _ _ _ _ Hfits n s1 l R1 Hl) _).
  intros _ s2 H j p Hj. cbv zeta. pose proof (H j p Hj) as Hp. destruct (Ha j) as [_ Ht].
  split; [|split].
  - intros vec Hvec. rewrite !(deliver_ready gdt_addr ts_addr idt_addr vectors j Ht Hv p) //; auto. by destruct (vec =? T_SYSCALL).
  - intros bitmap port Hport. by apply (no_ports gdt_addr ts_addr idt_addr vectors j Ht p).
  - destruct (rp_regs _ _ _ _ _ _ _ Hp) as (r&Hr&_&Hc). by exists r.
Qed.

(** ** Witness *)

(** Two CPUs before [main]; CPU 1 runs a process, then the scheduler, then another process. *)
Definition off_machine : machine := Machine [Cpu 0 0 0 0; Cpu 1 0 0 0] ∅.
Definition cold : hw :=
  Hw off_machine (replicate 2 (replicate 6 0)) (replicate 2 (Ts 0 0 0)) (replicate 256 0)
    (replicate 2 (Cregs (0, 0) (0, 0) 0 0)) 0x80200000 (Kmem ∅ 0 false []).
Definition a_proc (kstack pgdir : Z) : proc := set_kstack kstack (set_pgdir pgdir proc0).
Definition some_switches : list (nat * option proc) :=
  [(1%nat, Some (a_proc 0x80300000 0x80301000)); (0%nat, None); (1%nat, None); (1%nat, Some (a_proc 0x80400000 0x80401000))].

Lemma cold_waiting j : (j < 2)%nat → waiting j cold.
Proof.
  intros Hj. assert (NoDup (apicid <$> cpus off_machine)) as Hnd by (apply (bool_decide_unpack _); vm_compute; exact I).
  destruct j as [|[|j]]; [..|lia].
  - split; [split; [done|exists (Cpu 0 0 0 0); done|by exists (replicate 6 0)|by eexists|done|by eexists]|by exists (Cpu 0 0 0 0)].
  - split; [split; [done|exists (Cpu 1 0 0 0); done|by exists (replicate 6 0)|by eexists|done|by eexists]|by exists (Cpu 1 0 0 0)].
Qed.

Definition demo_gdt (j : nat) : Z := 0x80110000 + 200 * (Z.of_nat j mod 8).
Definition demo_ts (j : nat) : Z := 0x80110060 + 200 * (Z.of_nat j mod 8).
Definition demo_vec (i : Z) : Z := 0x80105000 + 9 * (i mod 256).
Lemma demo_fits : fits demo_gdt demo_ts 0x80114000 demo_vec.
Proof.
  split; [lia|]. split; [intros i|intros j].
  - rw /demo_vec. pose proof (Z.mod_pos_bound i 256). lia.
  - rw /demo_gdt /demo_ts. pose proof (Z.mod_pos_bound (Z.of_nat j) 8). lia.
Qed.

Lemma some_switches_ok : Forall (λ x, (x.1 < 2)%nat ∧ ∀ p, x.2 = Some p → p_kstack p ≠ 0 ∧ p_pgdir p ≠ 0) some_switches.
Proof. rw /some_switches !Forall_cons Forall_nil. cbn [fst snd]. split_and!; try lia; try done; by intros p [= <-]. Qed.

Lemma user_entry_guarded_witness :
  wp (_ ← startup demo_gdt 0x80114000 demo_vec 2; for_each some_switches (switch_to demo_gdt demo_ts)) cold (λ _ s',
    deliver demo_gdt demo_ts 0x80114000 1 s' 3 true 64 =
      Enter (Entry 0 8 (0x80105000 + 9 * 64) (Some (16, 0x80401000)) true) ∧
    deliver demo_gdt demo_ts 0x80114000 1 s' 3 true 14 = Fault 13).
Proof.
  refine (wp_mono _ _ _ _ (user_entry_guarded demo_gdt demo_ts 0x80114000 demo_vec 2 cold some_switches demo_fits _ cold_waiting _) _).
  - lia.
  - exact some_switches_ok.
  - intros _ s' H. destruct (H 1%nat (a_proc 0x80400000 0x80401000) eq_refl) as [Hv _].
    split; [exact (proj1 (Hv 64 ltac:(lia)))|exact (proj1 (Hv 14 ltac:(lia)))].
Defined.
