(* ===== verification/Trapasm.v ===== *)
(** * Trap entry and exit, and the context switch (xv6/trapasm.S, vectors.pl, swtch.S, x86.h).

    The assembly code as functions on the registers and the memory of the kernel.  [interrupt] is
    what the processor pushes when it goes through a gate ([entry] of [Seg]); [vector] is the code
    vectors.pl generates, [alltraps] and [trapret] are trapasm.S, [swtch] is swtch.S.  The theorems:
    a trap handler that leaves the frame alone, but for the result register, returns to exactly the interrupted
    registers, from user level and from the kernel, and finds them at the offsets of [struct trapframe];
    a thread that was switched away continues where it was with its registers; and
    a process fresh from allocproc starts in forkret and leaves through trapret with its trap frame. *)
From S2P Require Import Prelude CMem Str Spinlock Kalloc Vm Proc Seg.
Local Open Scope Z_scope.

Record regs := Regs {
  r_eax : Z; r_ecx : Z; r_edx : Z; r_ebx : Z; r_esp : Z; r_ebp : Z; r_esi : Z; r_edi : Z;
  r_eip : Z; r_eflags : Z;
  r_cs : Z; r_ss : Z; r_ds : Z; r_es : Z; r_fs : Z; r_gs : Z
}.

Definition set_eax (v : Z) (r : regs) : regs :=
  Regs v (r_ecx r) (r_edx r) (r_ebx r) (r_esp r) (r_ebp r) (r_esi r) (r_edi r) (r_eip r) (r_eflags r) (r_cs r) (r_ss r) (r_ds r) (r_es r) (r_fs r) (r_gs r).
Definition set_edx (v : Z) (r : regs) : regs :=
  Regs (r_eax r) (r_ecx r) v (r_ebx r) (r_esp r) (r_ebp r) (r_esi r) (r_edi r) (r_eip r) (r_eflags r) (r_cs r) (r_ss r) (r_ds r) (r_es r) (r_fs r) (r_gs r).
Definition set_esp (v : Z) (r : regs) : regs :=
  Regs (r_eax r) (r_ecx r) (r_edx r) (r_ebx r) v (r_ebp r) (r_esi r) (r_edi r) (r_eip r) (r_eflags r) (r_cs r) (r_ss r) (r_ds r) (r_es r) (r_fs r) (r_gs r).
Definition set_callee (edi esi ebx ebp : Z) (r : regs) : regs :=
  Regs (r_eax r) (r_ecx r) (r_edx r) ebx (r_esp r) ebp esi edi (r_eip r) (r_eflags r) (r_cs r) (r_ss r) (r_ds r) (r_es r) (r_fs r) (r_gs r).
Definition set_eip (v : Z) (r : regs) : regs :=
  Regs (r_eax r) (r_ecx r) (r_edx r) (r_ebx r) (r_esp r) (r_ebp r) (r_esi r) (r_edi r) v (r_eflags r) (r_cs r) (r_ss r) (r_ds r) (r_es r) (r_fs r) (r_gs r).
Definition set_data_segs (v : Z) (r : regs) : regs :=
  Regs (r_eax r) (r_ecx r) (r_edx r) (r_ebx r) (r_esp r) (r_ebp r) (r_esi r) (r_edi r) (r_eip r) (r_eflags r) (r_cs r) (r_ss r) v v (r_fs r) (r_gs r).

Definition cpu_mem : Type := regs * mem.

(** [pushl] of the values of a list, the first one first. *)
Fixpoint push (vs : list Z) (x : cpu_mem) : cpu_mem :=
  match vs with
  | [] => x
  | v :: vs => let sp := u32 (r_esp x.1 - 4) in push vs (set_esp sp x.1, st32 sp v x.2)
  end.
(** [popl] of [n] values. *)
Fixpoint pop (n : nat) (x : cpu_mem) : list Z * cpu_mem :=
  match n with
  | O => ([], x)
  | S n =>
      let r := pop n (set_esp (u32 (r_esp x.1 + 4)) x.1, x.2) in
      (ld32 x.2 (r_esp x.1) :: r.1, r.2)
  end.

(** ** The processor enters a handler and comes back *)

(** Through a gate; [err] is the error code of the exceptions that push one. *)
Definition interrupt (e : entry) (err : option Z) (x : cpu_mem) : cpu_mem :=
  let r := x.1 in
  let x := match e_stack e with
           | Some (ss, esp) => push [r_ss r; r_esp r] (set_esp esp r, x.2)
           | None => x
           end in
  let x := push ([r_eflags r; r_cs r; r_eip r] ++ match err with Some v => [v] | None => [] end) x in
  let q := x.1 in
  (Regs (r_eax q) (r_ecx q) (r_edx q) (r_ebx q) (r_esp q) (r_ebp q) (r_esi q) (r_edi q) (e_eip e)
     (if e_keep_if e then r_eflags r else Z.land (r_eflags r) (Z.lnot FL_IF)) (e_cs e)
     (match e_stack e with Some (ss, _) => ss | None => r_ss r end) (r_ds q) (r_es q) (r_fs q) (r_gs q), x.2).

Definition iret (x : cpu_mem) : cpu_mem :=
  match pop 3 x with
  | ([eip; cs; eflags], (q, m)) =>
      let out esp ss := (Regs (r_eax q) (r_ecx q) (r_edx q) (r_ebx q) esp (r_ebp q) (r_esi q) (r_edi q) eip eflags (u16 cs) ss
                           (r_ds q) (r_es q) (r_fs q) (r_gs q), m) in
      if Z.land (r_cs q) 3 <? Z.land (u16 cs) 3 then out (ld32 m (r_esp q)) (u16 (ld32 m (u32 (r_esp q + 4))))
      else out (r_esp q) (r_ss q)
  | _ => x
  end.

(** ** vectors.pl and trapasm.S *)

(** The exceptions for which the processor pushes an error code. *)
Definition has_err (i : Z) : bool := (i =? 8) || ((10 <=? i) && (i <=? 14)) || (i =? 17).

Definition vector (i : Z) (x : cpu_mem) : cpu_mem := push ((if negb (has_err i) then [0] else []) ++ [i]) x.

Definition push_segs (x : cpu_mem) : cpu_mem := push [r_ds x.1; r_es x.1; r_fs x.1; r_gs x.1] x.
Definition pushal (x : cpu_mem) : cpu_mem :=
  push [r_eax x.1; r_ecx x.1; r_edx x.1; r_ebx x.1; r_esp x.1; r_ebp x.1; r_esi x.1; r_edi x.1] x.
(** [movw] sets the low half of eax. *)
Definition kernel_segs (x : cpu_mem) : cpu_mem :=
  (set_data_segs (Z.shiftl SEG_KDATA 3) (set_eax (r_eax x.1 - u16 (r_eax x.1) + Z.shiftl SEG_KDATA 3) x.1), x.2).
(** [pushl %esp; call trap]: the argument and the return address. *)
Definition call_trap (ret : Z) (x : cpu_mem) : cpu_mem := push [r_esp x.1; ret] x.
Definition alltraps (ret : Z) (x : cpu_mem) : cpu_mem := call_trap ret (kernel_segs (pushal (push_segs x))).

Definition trapret (x : cpu_mem) : cpu_mem :=
  match pop 12 x with
  | ([edi; esi; ebp; _; ebx; edx; ecx; eax; gs; fs; es; ds], (q, m)) =>
      iret (Regs eax ecx edx ebx (u32 (r_esp q + 8)) ebp esi edi (r_eip q) (r_eflags q) (r_cs q) (r_ss q) (u16 ds) (u16 es) (u16 fs) (u16 gs), m)
  | _ => x
  end.
(** [trap] returned: its argument is dropped. *)
Definition trap_return (x : cpu_mem) : cpu_mem := trapret (set_esp (u32 (r_esp x.1 + 4)) x.1, x.2).

(** ** swtch.S *)

Definition swtch (x : cpu_mem) : cpu_mem :=
  let x := (set_eax (ld32 x.2 (u32 (r_esp x.1 + 4))) x.1, x.2) in
  let x := (set_edx (ld32 x.2 (u32 (r_esp x.1 + 8))) x.1, x.2) in
  let x := push [r_ebp x.1; r_ebx x.1; r_esi x.1; r_edi x.1] x in
  let x := (x.1, st32 (r_eax x.1) (r_esp x.1) x.2) in
  let x := (set_esp (r_edx x.1) x.1, x.2) in
  match pop 5 x with
  | ([edi; esi; ebx; ebp; eip], (q, m)) => (set_eip eip (set_callee edi esi ebx ebp q), m)
  | _ => x
  end.
(** [ret] *)
Definition ret (x : cpu_mem) : cpu_mem :=
  match pop 1 x with
  | ([eip], (q, m)) => (set_eip eip q, m)
  | _ => x
  end.

(** ** The stack *)

Fixpoint stack_mem (sp : Z) (vs : list Z) (m : mem) : mem :=
  match vs with
  | [] => m
  | v :: vs => stack_mem (sp - 4) vs (st32 (sp - 4) v m)
  end.
Notation bytes_of vs := (4 * Z.of_nat (length vs)).

Lemma set_esp_id r : set_esp (r_esp r) r = r.
Proof. by destruct r. Qed.

Lemma push_eq vs r m : bytes_of vs ≤ r_esp r < 2 ^ 32 →
  push vs (r, m) = (set_esp (r_esp r - bytes_of vs) r, stack_mem (r_esp r) vs m).
Proof.
  revert r m. induction vs as [|v vs IH]; intros r m Hs; cbn [push stack_mem length].
  - by rewrite Z.sub_0_r set_esp_id.
  - cbn [length] in Hs. cbn [fst snd]. rewrite u32_small; [lia|]. rewrite IH; [cbn [set_esp r_esp]; lia|].
    cbn [set_esp r_esp]. f_equal. rw /set_esp. cbn. f_equal. lia.
Qed.

Lemma stack_mem_app sp vs ws m : stack_mem sp (vs ++ ws) m = stack_mem (sp - bytes_of vs) ws (stack_mem sp vs m).
Proof.
  revert sp m. induction vs as [|v vs IH]; intros sp m; cbn [app stack_mem length]; [f_equal; lia|]. rewrite IH. f_equal. lia.
Qed.
Lemma stack_mem_other sp vs m a : a < sp - bytes_of vs ∨ sp ≤ a → ld8 (stack_mem sp vs m) a = ld8 m a.
Proof.
  revert sp m. induction vs as [|v vs IH]; intros sp m Ha; cbn [stack_mem length] in *; [done|].
  rewrite IH; [lia|]. apply ld8_st32_ne. lia.
Qed.
Lemma ld32_ext m m' a : (∀ b, a ≤ b < a + 4 → ld8 m' b = ld8 m b) → ld32 m' a = ld32 m a.
Proof. intros H. rw /ld32 !H //; lia. Qed.
Lemma stack_mem_word sp vs m k v : vs !! k = Some v → 0 ≤ v < 2 ^ 32 → ld32 (stack_mem sp vs m) (sp - 4 * (Z.of_nat k + 1)) = v.
Proof.
  revert sp m k. induction vs as [|w vs IH]; intros sp m k Hk Hv; [done|]. destruct k as [|k]; cbn [stack_mem] in *.
  - injection Hk as ->. rewrite (ld32_ext (st32 (sp - 4) v m)); [|by rewrite ld32_st32_eq].
    intros b Hb. apply stack_mem_other. lia.
  - rewrite -(IH (sp - 4) (st32 (sp - 4) w m) k Hk Hv). f_equal. lia.
Qed.

Lemma pop_eq n r m : 0 ≤ r_esp r → r_esp r + 4 * Z.of_nat n < 2 ^ 32 →
  pop n (r, m) = ((λ k, ld32 m (r_esp r + 4 * Z.of_nat k)) <$> seq 0 n, (set_esp (r_esp r + 4 * Z.of_nat n) r, m)).
Proof.
  revert r. induction n as [|n IH]; intros r H0 Hn; cbn [pop fst snd].
  - by rewrite Z.add_0_r set_esp_id.
  - rewrite u32_small; [lia|]. rewrite IH; [cbn [set_esp r_esp]; lia..|]. cbn [set_esp r_esp fst snd seq fmap list_fmap].
    rewrite Z.add_0_r -fmap_S_seq -list_fmap_compose.
    rewrite (list_fmap_ext (λ k, ld32 m (r_esp r + 4 + 4 * Z.of_nat k)) ((λ k, ld32 m (r_esp r + 4 * Z.of_nat k)) ∘ S)).
    { intros i k _. cbn. f_equal. lia. }
    replace (r_esp r + 4 + 4 * Z.of_nat n) with (r_esp r + 4 * Z.of_nat (S n)) by lia. done.
Qed.

(** ** The trap frame *)

Definition stack_top (e : entry) (r : regs) : Z := match e_stack e with Some (_, esp) => esp | None => r_esp r end.
(** What crossing the privilege level adds. *)
Definition outer (e : entry) (r : regs) : list Z := match e_stack e with Some _ => [r_ss r; r_esp r] | None => [] end.
(** Everything pushed before the call of trap, in order. *)
Definition frame (e : entry) (vec : Z) (err : option Z) (r : regs) : list Z :=
  outer e r ++
  [r_eflags r; r_cs r; r_eip r; default 0 err; vec; r_ds r; r_es r; r_fs r; r_gs r; r_eax r; r_ecx r; r_edx r; r_ebx r;
   stack_top e r - 4 * (Z.of_nat (length (outer e r)) + 9); r_ebp r; r_esi r; r_edi r].
Definition frame_addr (e : entry) (r : regs) : Z := stack_top e r - 4 * (Z.of_nat (length (outer e r)) + 17).

(** The processor pushes an error code for the exceptions that have one. *)
Definition err_ok (vec : Z) (err : option Z) : Prop := match err with Some v => has_err vec = true ∧ 0 ≤ v < 2 ^ 32 | None => has_err vec = false end.

Definition pushed_by_cpu (err : option Z) (r : regs) : list Z :=
  [r_eflags r; r_cs r; r_eip r] ++ match err with Some v => [v] | None => [] end.

Lemma interrupt_eq e err r m : 84 ≤ stack_top e r < 2 ^ 32 →
  interrupt e err (r, m) =
    (Regs (r_eax r) (r_ecx r) (r_edx r) (r_ebx r) (stack_top e r - bytes_of (outer e r ++ pushed_by_cpu err r)) (r_ebp r) (r_esi r) (r_edi r)
       (e_eip e) (if e_keep_if e then r_eflags r else Z.land (r_eflags r) (Z.lnot FL_IF)) (e_cs e)
       (match e_stack e with Some (ss, _) => ss | None => r_ss r end) (r_ds r) (r_es r) (r_fs r) (r_gs r),
     stack_mem (stack_top e r) (outer e r ++ pushed_by_cpu err r) m).
Proof.
  rw /stack_top /outer /interrupt. cbn [fst snd]. fold (pushed_by_cpu err r).
  assert (length (pushed_by_cpu err r) ≤ 4)%nat as Hl by (destruct err; cbn; lia).
  destruct (e_stack e) as [[ss top]|]; intros Ht.
  - rewrite push_eq; [cbn; lia|]. cbn [set_esp r_esp length]. rewrite push_eq; [cbn [set_esp r_esp]; lia|].
    cbn [set_esp r_esp r_eax r_ecx r_edx r_ebx r_ebp r_esi r_edi r_ds r_es r_fs r_gs fst snd].
    rewrite length_app. cbn [length]. f_equal; [f_equal; lia|]. rewrite stack_mem_app. cbn [length]. f_equal.
  - cbn [app]. rewrite push_eq; [lia|]. cbn [set_esp r_esp r_eax r_ecx r_edx r_ebx r_ebp r_esi r_edi r_ds r_es r_fs r_gs fst snd]. done.
Qed.

Lemma push_segs_eq r m : 16 ≤ r_esp r < 2 ^ 32 →
  push_segs (r, m) = (set_esp (r_esp r - 16) r, stack_mem (r_esp r) [r_ds r; r_es r; r_fs r; r_gs r] m).
Proof. intros Hs. rw /push_segs. rewrite push_eq //. Qed.
Lemma pushal_eq r m : 32 ≤ r_esp r < 2 ^ 32 →
  pushal (r, m) = (set_esp (r_esp r - 32) r, stack_mem (r_esp r) [r_eax r; r_ecx r; r_edx r; r_ebx r; r_esp r; r_ebp r; r_esi r; r_edi r] m).
Proof. intros Hs. rw /pushal. rewrite push_eq //. Qed.
Lemma call_trap_eq retaddr r m : 8 ≤ r_esp r < 2 ^ 32 →
  call_trap retaddr (r, m) = (set_esp (r_esp r - 8) r, stack_mem (r_esp r) [r_esp r; retaddr] m).
Proof. intros Hs. rw /call_trap. rewrite push_eq //. Qed.

Lemma alltraps_eq retaddr r m : 56 ≤ r_esp r < 2 ^ 32 →
  ∃ q, alltraps retaddr (r, m) =
         (q, stack_mem (r_esp r)
               ([r_ds r; r_es r; r_fs r; r_gs r] ++ [r_eax r; r_ecx r; r_edx r; r_ebx r; r_esp r - 16; r_ebp r; r_esi r; r_edi r] ++
                [r_esp r - 48; retaddr]) m) ∧
       r_esp q = r_esp r - 56.
Proof.
  intros Hs. rw /alltraps. rewrite push_segs_eq; [lia|]. rewrite pushal_eq; [cbn [r_esp set_esp]; lia|].
  cbn [r_esp set_esp r_eax r_ecx r_edx r_ebx r_ebp r_esi r_edi]. rw /kernel_segs. cbn [fst snd].
  set (q := set_data_segs _ _). assert (r_esp q = r_esp r - 48) as E by (cbn; lia). clearbody q.
  exists (set_esp (r_esp q - 8) q). rewrite call_trap_eq; [lia|]. rewrite E. split; [|cbn [r_esp set_esp]; lia].
  rewrite !stack_mem_app. cbn [length]. f_equal. f_equal. lia.
Qed.

Lemma entered e vec err r m retaddr : err_ok vec err → 84 ≤ stack_top e r < 2 ^ 32 →
  ∃ q, alltraps retaddr (vector vec (interrupt e err (r, m))) =
         (q, stack_mem (stack_top e r) (frame e vec err r ++ [frame_addr e r; retaddr]) m) ∧ r_esp q = frame_addr e r - 8.
Proof.
  intros He Ht. rewrite interrupt_eq //. rw /vector.
  assert ((if negb (has_err vec) then [0] else []) ++ [vec] = match err with Some _ => [] | None => [0] end ++ [vec]) as ->.
  { rw /err_ok in He. destruct err as [v|]; [by destruct He as [-> _]|by rewrite He]. }
  set (ws := match err with Some _ => [] | None => [0] end ++ [vec]).
  assert (length (outer e r ++ pushed_by_cpu err r) + length ws = length (outer e r) + 5)%nat as Hl.
  { rewrite length_app. subst ws. destruct err; cbn; lia. }
  assert (length (outer e r) ≤ 2)%nat as Ho by (rw /outer; destruct (e_stack e); cbn; lia).
  rewrite push_eq; [cbn [r_esp]; lia|]. cbn [r_esp]. rewrite -stack_mem_app.
  set (q1 := set_esp _ _). assert (r_esp q1 = stack_top e r - bytes_of ((outer e r ++ pushed_by_cpu err r) ++ ws)) as E1.
  { cbn [q1 set_esp r_esp]. rewrite (length_app _ ws). lia. }
  assert (r_ds q1 = r_ds r ∧ r_es q1 = r_es r ∧ r_fs q1 = r_fs r ∧ r_gs q1 = r_gs r ∧ r_eax q1 = r_eax r ∧ r_ecx q1 = r_ecx r ∧
    r_edx q1 = r_edx r ∧ r_ebx q1 = r_ebx r ∧ r_ebp q1 = r_ebp r ∧ r_esi q1 = r_esi r ∧ r_edi q1 = r_edi r)
    as (A1&A2&A3&A4&A5&A6&A7&A8&A9&A10&A11) by done. clearbody q1.
  assert (r_esp q1 = stack_top e r - 4 * (Z.of_nat (length (outer e r)) + 5)) as E2 by (rewrite E1 (length_app _ ws); lia).
  destruct (alltraps_eq retaddr q1 (stack_mem (stack_top e r) ((outer e r ++ pushed_by_cpu err r) ++ ws) m)) as (q&E&Eq); [lia|].
  exists q. split; [|rewrite Eq E2 /frame_addr; lia]. rewrite E E1 -stack_mem_app -E1 E2 A1 A2 A3 A4 A5 A6 A7 A8 A9 A10 A11.
  f_equal. f_equal. rw /frame /frame_addr. rewrite -!app_assoc. f_equal. subst ws.
  replace (stack_top e r - 4 * (Z.of_nat (length (outer e r)) + 5) - 16) with (stack_top e r - 4 * (Z.of_nat (length (outer e r)) + 9)) by lia.
  replace (stack_top e r - 4 * (Z.of_nat (length (outer e r)) + 5) - 48) with (stack_top e r - 4 * (Z.of_nat (length (outer e r)) + 17)) by lia.
  by destruct err.
Qed.

(** Registers hold what fits them. *)
Definition word (v : Z) : Prop := 0 ≤ v < 2 ^ 32.
Definition half (v : Z) : Prop := 0 ≤ v < 2 ^ 16.
Record regs_ok (r : regs) : Prop := {
  ok_words : Forall word [r_eax r; r_ecx r; r_edx r; r_ebx r; r_esp r; r_ebp r; r_esi r; r_edi r; r_eip r; r_eflags r];
  ok_segs : Forall half [r_cs r; r_ss r; r_ds r; r_es r; r_fs r; r_gs r]
}.

(** The words of the frame from its address up. *)
Definition frame_up (e : entry) (vec : Z) (err : option Z) (r : regs) : list Z :=
  [r_edi r; r_esi r; r_ebp r; stack_top e r - 4 * (Z.of_nat (length (outer e r)) + 9); r_ebx r; r_edx r; r_ecx r; r_eax r;
   r_gs r; r_fs r; r_es r; r_ds r; vec; default 0 err; r_eip r; r_cs r; r_eflags r] ++ reverse (outer e r).

Lemma frame_reverse e vec err r : reverse (frame e vec err r) = frame_up e vec err r.
Proof. rw /frame /frame_up. by rewrite reverse_app. Qed.

Lemma frame_words e vec err r : err_ok vec err → regs_ok r → 0 ≤ vec < 256 → 84 ≤ stack_top e r < 2 ^ 32 → Forall word (frame_up e vec err r).
Proof.
  intros He [Hw Hh] Hv Ht. assert (∀ v, half v → word v) as Hhw by (rw /half /word; lia).
  apply (Forall_impl _ word) in Hh; [|done]. rewrite !Forall_cons in Hw, Hh. destruct Hw as (?&?&?&?&?&?&?&?&?&?&_), Hh as (?&?&?&?&?&?&_).
  assert (length (outer e r) ≤ 2)%nat as Ho by (rw /outer; destruct (e_stack e); cbn; lia).
  assert (word (default 0 err)) by (rw /err_ok in He; destruct err; [by destruct He|done]).
  assert (word vec) by (rw /word; lia). assert (word (stack_top e r - 4 * (Z.of_nat (length (outer e r)) + 9))) by (rw /word; lia).
  rw /frame_up. apply Forall_app. split; [repeat (constructor; [done|]); constructor|].
  apply Forall_reverse. rw /outer. destruct (e_stack e); repeat (constructor; [done|]); constructor.
Qed.

Lemma trapframe_at e vec err r m retaddr k v : err_ok vec err → regs_ok r → 0 ≤ vec < 256 → 84 ≤ stack_top e r < 2 ^ 32 →
  frame_up e vec err r !! k = Some v →
  ld32 (stack_mem (stack_top e r) (frame e vec err r ++ [frame_addr e r; retaddr]) m) (frame_addr e r + 4 * Z.of_nat k) = v.
Proof.
  intros He Hr Hv Ht Hk. pose proof (frame_words e vec err r He Hr Hv Ht) as Hw. pose proof (Forall_lookup_1 _ _ _ _ Hw Hk) as Hwv.
  assert (length (frame e vec err r) = length (outer e r) + 17)%nat as Hl by by rewrite length_app.
  rewrite -frame_reverse in Hk. pose proof (lookup_lt_Some _ _ _ Hk) as Hlt. rewrite length_reverse Hl in Hlt.
  apply reverse_lookup_Some in Hk as [Hk _]. 
  rewrite -(stack_mem_word (stack_top e r) (frame e vec err r ++ [frame_addr e r; retaddr]) m (length (frame e vec err r) - S k) v).
  - by apply lookup_app_l_Some.
  - exact Hwv.
  - f_equal. rw /frame_addr. rewrite Hl. lia.
Qed.

Lemma trapret_eq q m : 0 ≤ r_esp q → r_esp q + 56 < 2 ^ 32 →
  let w k := ld32 m (r_esp q + 4 * Z.of_nat k) in
  trapret (q, m) = iret (Regs (w 7%nat) (w 6%nat) (w 5%nat) (w 4%nat) (r_esp q + 56) (w 2%nat) (w 1%nat) (w 0%nat) (r_eip q) (r_eflags q) (r_cs q) (r_ss q)
    (u16 (w 11%nat)) (u16 (w 10%nat)) (u16 (w 9%nat)) (u16 (w 8%nat)), m).
Proof.
  intros H0 H1 w. rw /trapret. rewrite pop_eq; [lia..|]. cbn [seq fmap list_fmap set_esp r_esp]. fold (w 0%nat).
  rewrite u32_small; [lia|]. do 2 f_equal. f_equal. lia.
Qed.

Lemma iret_eq q m : 0 ≤ r_esp q → r_esp q + 12 < 2 ^ 32 → Z.land (r_cs q) 3 = 0 →
  let w k := ld32 m (r_esp q + 4 * Z.of_nat k) in
  let out esp ss := Regs (r_eax q) (r_ecx q) (r_edx q) (r_ebx q) esp (r_ebp q) (r_esi q) (r_edi q) (w 0%nat) (w 2%nat) (u16 (w 1%nat)) ss
                      (r_ds q) (r_es q) (r_fs q) (r_gs q) in
  iret (q, m) = (if 0 <? Z.land (u16 (w 1%nat)) 3 then out (w 3%nat) (u16 (ld32 m (u32 (r_esp q + 16)))) else out (r_esp q + 12) (r_ss q), m).
Proof.
  intros H0 H1 Hc w out. rw /iret. rewrite pop_eq; [lia..|]. cbn [seq fmap list_fmap set_esp r_esp r_cs r_ss].
  fold (w 1%nat). rewrite Hc. change (4 * Z.of_nat 3) with 12. rw /out. destruct (0 <? Z.land (u16 (w 1%nat)) 3); [|done].
  by replace (r_esp q + 12 + 4) with (r_esp q + 16) by lia.
Qed.

(** What a handler may do: anything outside the frame, and the result register inside. *)
Definition frame_kept (tf top : Z) (m m' : mem) : Prop :=
  ∀ a, tf ≤ a < top → ¬ (tf + tf_eax ≤ a < tf + tf_eax + 4) → ld8 m' a = ld8 m a.

(** Whether the gate changes the stack agrees with the privilege of the interrupted code. *)
Definition crosses (e : entry) (r : regs) : Prop :=
  Z.land (e_cs e) 3 = 0 ∧ match e_stack e with Some _ => Z.land (r_cs r) 3 = 3 | None => Z.land (r_cs r) 3 = 0 end.

Lemma u16_half v : half v → u16 v = v.
Proof. rw /half /u16. intros. by apply Z.mod_small. Qed.

Lemma restored e vec err r m1 m2 q :
  err_ok vec err → regs_ok r → 0 ≤ vec < 256 → 84 ≤ stack_top e r → stack_top e r + 4 < 2 ^ 32 → crosses e r →
  (∀ k v, frame_up e vec err r !! k = Some v → ld32 m1 (frame_addr e r + 4 * Z.of_nat k) = v) →
  frame_kept (frame_addr e r) (stack_top e r) m1 m2 →
  r_esp q = frame_addr e r - 4 → r_cs q = e_cs e → (e_stack e = None → r_ss q = r_ss r) →
  trap_return (q, m2) = (set_eax (ld32 m2 (frame_addr e r + tf_eax)) r, m2).
Proof.
  intros He Hr Hv Ht Ht2 [Hc0 Hc] Hf Hk Hs Hcs Hss. set (tf := frame_addr e r) in *.
  assert (length (outer e r) ≤ 2)%nat as Ho by (rw /outer; destruct (e_stack e); cbn; lia).
  assert (tf = stack_top e r - 4 * (Z.of_nat (length (outer e r)) + 17)) as Etf by done.
  assert (∀ k v, frame_up e vec err r !! k = Some v → k ≠ 7%nat → ld32 m2 (tf + 4 * Z.of_nat k) = v) as Hf2.
  { intros k v Hkv Hk7. rewrite -(Hf k v Hkv). apply ld32_ext. intros b Hb. apply lookup_lt_Some in Hkv.
    rw /frame_up in Hkv. rewrite length_app length_reverse /= in Hkv. apply Hk; rw /tf_eax; lia. }
  rw /trap_return. cbn [fst snd]. rewrite Hs. replace (tf - 4 + 4) with tf by lia. rewrite u32_small; [lia|].
  rewrite trapret_eq; [cbn [set_esp r_esp]; lia..|]. rewrite iret_eq; [cbn [set_esp r_esp r_cs]; try lia; by rewrite Hcs..|].
  cbn [set_esp r_esp r_eax r_ecx r_edx r_ebx r_ebp r_esi r_edi r_ds r_es r_fs r_gs r_cs r_ss].
  rewrite (_ : tf + 56 + 4 * Z.of_nat 1 = tf + 4 * Z.of_nat 15); [lia|]. rewrite (_ : tf + 56 + 4 * Z.of_nat 0 = tf + 4 * Z.of_nat 14); [lia|].
  rewrite (_ : tf + 56 + 4 * Z.of_nat 2 = tf + 4 * Z.of_nat 16); [lia|]. rewrite (_ : tf + 56 + 4 * Z.of_nat 3 = tf + 4 * Z.of_nat 17); [lia|].
  rewrite (Hf2 0%nat _ eq_refl) // (Hf2 1%nat _ eq_refl) // (Hf2 2%nat _ eq_refl) // (Hf2 4%nat _ eq_refl) // (Hf2 5%nat _ eq_refl) //.
  rewrite (Hf2 6%nat _ eq_refl) // (Hf2 8%nat _ eq_refl) // (Hf2 9%nat _ eq_refl) // (Hf2 10%nat _ eq_refl) // (Hf2 11%nat _ eq_refl) //.
  rewrite (Hf2 14%nat _ eq_refl) // (Hf2 15%nat _ eq_refl) // (Hf2 16%nat _ eq_refl) //.
  pose proof (ok_segs _ Hr) as Hseg. rewrite !Forall_cons in Hseg. destruct Hseg as (Scs&Sss&Sds&Ses&Sfs&Sgs&_).
  rewrite (u16_half (r_cs r)) // (u16_half (r_ds r)) // (u16_half (r_es r)) // (u16_half (r_fs r)) // (u16_half (r_gs r)) //. change (4 * Z.of_nat 7) with tf_eax. f_equal. revert Ht Ht2 Hc Hss Hf2 Etf. rw /outer /frame_up /outer /stack_top.
  destruct (e_stack e) as [[ss top]|]; intros Ht Ht2 -> Hss Hf2 Etf; cbn [Z.ltb Z.compare].
  - rewrite (Hf2 17%nat _ eq_refl) //. cbn [length] in Etf. rewrite u32_small; [lia|].
    rewrite (_ : tf + 56 + 16 = tf + 4 * Z.of_nat 18); [lia|]. rewrite (Hf2 18%nat _ eq_refl) // u16_half //.
  - rewrite Hss //. rw /set_eax. f_equal. cbn [length] in Etf. lia.
Qed.

(** ** Switching threads *)

(** The saved registers at the address of a context ([struct context]), and the registers a [swtch] to it loads. *)
Definition context_at (m : mem) (c : Z) : list Z := (λ k, ld32 m (c + 4 * Z.of_nat k)) <$> seq 0 5.
Definition thread_regs (r : regs) : list Z := [r_edi r; r_esi r; r_ebx r; r_ebp r; r_eip r].

(** The stack pointer and the two arguments of a call of swtch. *)
Record swtch_call (x : cpu_mem) (old new : Z) : Prop := {
  sc_esp : 16 ≤ r_esp x.1 ∧ r_esp x.1 + 8 < 2 ^ 32;
  sc_old : ld32 x.2 (r_esp x.1 + 4) = old;
  sc_new : ld32 x.2 (r_esp x.1 + 8) = new;
  sc_apart : old + 4 ≤ r_esp x.1 - 16 ∨ r_esp x.1 + 4 ≤ old;
  sc_words : Forall word [r_edi x.1; r_esi x.1; r_ebx x.1; r_ebp x.1]
}.

Lemma swtch_eq r m old new : swtch_call (r, m) old new → 0 ≤ new → new + 20 < 2 ^ 32 →
  ∃ q m', swtch (r, m) = (q, m') ∧ thread_regs q = context_at m' new ∧ r_esp q = new + 20 ∧
    m' = st32 old (r_esp r - 16) (stack_mem (r_esp r) [r_ebp r; r_ebx r; r_esi r; r_edi r] m).
Proof.
  intros [[H1 H2] Ho Hn _ _] H0 Hc. cbn [fst snd] in *. rw /swtch. cbn [fst snd]. rewrite !u32_small; [cbn [set_eax r_esp]; lia..|].
  cbn [set_eax r_esp]. rewrite Ho Hn. set (q1 := set_edx new _). 
  assert (r_ebp q1 = r_ebp r ∧ r_ebx q1 = r_ebx r ∧ r_esi q1 = r_esi r ∧ r_edi q1 = r_edi r ∧ r_esp q1 = r_esp r ∧ r_eax q1 = old ∧ r_edx q1 = new)
    as (E1&E2&E3&E4&E5&E6&E7) by done. clearbody q1.
  rewrite push_eq; [rewrite E5; cbn [length]; lia|]. cbn [fst snd length set_esp r_esp r_eax r_edx]. rewrite E1 E2 E3 E4 E5 E6 E7.
  change (4 * Z.of_nat 4) with 16. set (m' := st32 _ _ _). rewrite pop_eq; [cbn [set_esp r_esp]; lia..|].
  cbn [seq fmap list_fmap set_esp r_esp]. eexists _, m'. split; [reflexivity|]. split; [done|]. split; [cbn; lia|done].
Qed.

(** A [swtch] leaves the registers of the thread it suspends in a context, whose address it stores. *)
Lemma swtch_saved r m old : swtch_call (r, m) old (ld32 m (r_esp r + 8)) → word (r_esp r - 16) →
  let m' := st32 old (r_esp r - 16) (stack_mem (r_esp r) [r_ebp r; r_ebx r; r_esi r; r_edi r] m) in
  ld32 m' old = r_esp r - 16 ∧ context_at m' (r_esp r - 16) = [r_edi r; r_esi r; r_ebx r; r_ebp r; ld32 m (r_esp r)].
Proof.
  intros [[H1 H2] _ _ Ha Hw] Hsp m'. cbn [fst snd] in *. split; [by apply ld32_st32_eq|].
  rewrite !Forall_cons in Hw. destruct Hw as (W1&W2&W3&W4&_).
  assert (∀ k v, [r_ebp r; r_ebx r; r_esi r; r_edi r] !! k = Some v → word v → ld32 m' (r_esp r - 4 * (Z.of_nat k + 1)) = v) as Hk.
  { intros k v Hk Hv. assert (k < 4)%nat by (by apply lookup_lt_Some in Hk). rw /m' ld32_st32_ne; [lia|]. by apply stack_mem_word. }
  rw /context_at. cbn [seq fmap list_fmap].
  rewrite (_ : r_esp r - 16 + 4 * Z.of_nat 0 = r_esp r - 4 * (Z.of_nat 3 + 1)); [lia|]. rewrite (Hk 3%nat _ eq_refl) //.
  rewrite (_ : r_esp r - 16 + 4 * Z.of_nat 1 = r_esp r - 4 * (Z.of_nat 2 + 1)); [lia|]. rewrite (Hk 2%nat _ eq_refl) //.
  rewrite (_ : r_esp r - 16 + 4 * Z.of_nat 2 = r_esp r - 4 * (Z.of_nat 1 + 1)); [lia|]. rewrite (Hk 1%nat _ eq_refl) //.
  rewrite (_ : r_esp r - 16 + 4 * Z.of_nat 3 = r_esp r - 4 * (Z.of_nat 0 + 1)); [lia|]. rewrite (Hk 0%nat _ eq_refl) //.
  rewrite (_ : r_esp r - 16 + 4 * Z.of_nat 4 = r_esp r); [lia|]. do 5 f_equal.
  rw /m' ld32_st32_ne; [lia|]. apply ld32_ext. intros b Hb. apply stack_mem_other. cbn [length]. lia.
Qed.

Lemma context_at_ext m m' c : (∀ b, c ≤ b < c + 20 → ld8 m' b = ld8 m b) → context_at m' c = context_at m c.
Proof.
  intros H. apply list_fmap_ext. intros i k Hk. apply lookup_seq in Hk as [-> Hk]. apply ld32_ext. intros b Hb. apply H. lia.
Qed.

(** The call's own stores stay out of a range of addresses. *)
Definition stores_apart (x : cpu_mem) (old lo hi : Z) : Prop :=
  (r_esp x.1 ≤ lo ∨ hi ≤ r_esp x.1 - 16) ∧ (old + 4 ≤ lo ∨ hi ≤ old).
Lemma swtch_other r m old v lo hi b : stores_apart (r, m) old lo hi → lo ≤ b < hi →
  ld8 (st32 old v (stack_mem (r_esp r) [r_ebp r; r_ebx r; r_esi r; r_edi r] m)) b = ld8 m b.
Proof. intros [H1 H2] Hb. cbn [fst] in *. rewrite ld8_st32_ne; [lia|]. apply stack_mem_other. cbn [length]. lia. Qed.

(** ** A new process *)

Section New.
Context {F : Type} (kend forkret_addr trapret_addr : Z).
Implicit Types s : kern F.

Definition kmem_view s : kmem_state := Kmem (km_mem (phys s)) (km_freelist (phys s)) (km_use_lock (phys s)) (khold s).
Lemma in_kmem_Ret {A} (m : K kmem_state A) s a k : m (kmem_view s) = Ret a k → in_kmem m s = Ret a (set_khold (km_held k) (set_phys k s)).
Proof. intros E. rw /in_kmem /blocked_in /zoom. by rw /kmem_view in E; rewrite E. Qed.

(** The top of the kernel stack allocproc prepares: the context, the return address, the frame. *)
Record fresh_stack (m : mem) (p : proc) (k : Z) : Prop := {
  fs_kstack : p_kstack p = k;
  fs_tf : p_tf p = k + 4020;
  fs_context : p_context p = k + 3996;
  fs_saved : context_at m (k + 3996) = [0; 0; 0; 0; forkret_addr];
  fs_ret : ld32 m (k + 4016) = trapret_addr
}.

Lemma fresh_mem m k : word forkret_addr → word trapret_addr →
  let m' := st32 (k + 4012) forkret_addr (memset (k + 3996) 0 20 (st32 (k + 4016) trapret_addr m)) in
  context_at m' (k + 3996) = [0; 0; 0; 0; forkret_addr] ∧ ld32 m' (k + 4016) = trapret_addr.
Proof.
  intros Hf Ht m'. split.
  - rw /context_at. cbn [seq fmap list_fmap]. rewrite (_ : k + 3996 + 4 * Z.of_nat 4 = k + 4012); [lia|]. rw /m' ld32_st32_eq //.
    rewrite !ld32_st32_ne; try lia. by rewrite !ld32_memset0; try lia.
  - rw /m' ld32_st32_ne; [lia|]. rewrite ld32_memset; [lia..|]. by apply ld32_st32_eq.
Qed.

Lemma allocproc_wp s i p0 k l : word forkret_addr → word trapret_addr →
  list_find (λ p, p_state p = UNUSED) (procs s) = Some (i, p0) → "ptable" ∉ khold s → free_pages kend (kmem_view s) (k :: l) →
  wp (allocproc forkret_addr trapret_addr) s (λ o s', o = Some i ∧ ∃ p, procs s' !! i = Some p ∧ p_state p = EMBRYO ∧
    p_pid p = nextpid s ∧ fresh_stack (km_mem (phys s')) p k).
Proof.
  intros Hf Ht Hi Hlk Hfp. pose proof Hi as (Hp0&_&_)%list_find_Some. destruct (kalloc_pops kend _ _ _ Hfp) as [Ek _].
  assert (k ≠ 0) as Hk0. { pose proof (fp_ok _ _ _ Hfp) as Hok. apply Forall_cons in Hok as [(_&_&Hk) _]. rw /KERNBASE in Hk. lia. }
  rw /allocproc. apply wp_bind, wp_lock_acquire; [done|]. apply wp_bind, wp_gets. cbn [procs set_held kern_HasLocks set_khold]. rewrite Hi.
  apply wp_bind, wp_modify, wp_bind, wp_gets, wp_bind, wp_modify, wp_bind, wp_modify, wp_bind, (wp_lock_release _ (khold s)); [done|done|].
  set (s1 := set_held _ _). assert (kmem_view s1 = kmem_view s) as Ev by done.
  apply wp_bind. refine (wp_intro _ _ _ _ _ (in_kmem_Ret _ s1 _ _ _) _); [rewrite Ev; exact Ek|].
  apply wp_bind, wp_modify. destruct (Z.eqb_spec k 0); [done|]. cbv zeta.
  do 2 (apply wp_bind; first [apply wp_modify|refine (wp_intro _ _ _ _ _ (in_kmem_Ret _ _ _ _ eq_refl) _)]).
  do 3 (apply wp_bind; first [apply wp_modify|refine (wp_intro _ _ _ _ _ (in_kmem_Ret _ _ _ _ eq_refl) _)]).
  apply wp_ret. split; [done|]. cbn [procs set_khold set_phys set_procs phys km_mem set_mem].
  assert (procs s1 !! i = Some (set_pid (nextpid s) (set_state EMBRYO p0))) as Hp1.
  { cbn [s1 procs set_held kern_HasLocks set_khold set_nextpid set_procs nextpid]. by rewrite !list_lookup_alter_eq Hp0. }
  assert (km_mem (phys s1) = km_mem (phys s)) as Em by done. clearbody s1.
  rewrite !list_lookup_alter_eq Hp1. eexists. split; [reflexivity|]. split; [done|]. split; [done|].
  assert (k + KSTACKSIZE - sizeof_trapframe = k + 4020) as E1 by (rw /KSTACKSIZE /sizeof_trapframe; lia). rewrite E1.
  assert (k + 4020 - 4 - sizeof_context = k + 3996) as E2 by (rw /sizeof_context; lia). rewrite E2.
  assert (k + 3996 + ctx_eip = k + 4012) as E3 by (rw /ctx_eip; lia). rewrite E3. rewrite (_ : k + 4020 - 4 = k + 4016); [lia|].
  split; [done..| |]; by apply fresh_mem.
Qed.
End New.

(** ** Theorems *)

(** C12: A trap is transparent.  When an interrupt or exception goes through a gate, from user level to the kernel stack or
    inside the kernel on the same stack, the trap frame that [trap] gets has the interrupted registers, the vector and the error
    code at the offsets of [struct trapframe]; and when [trap] returns having kept the frame, but for the
    result register in it, trapret and iret bring back exactly the interrupted registers, with that result. *)
Theorem trap_restores_registers e vec err r m retaddr
    (Hr : regs_ok r) (He : err_ok vec err) (Hv : 0 ≤ vec < 256) (Ht : 84 ≤ stack_top e r ∧ stack_top e r + 4 < 2 ^ 32) (Hc : crosses e r) :
  ∃ q m1, alltraps retaddr (vector vec (interrupt e err (r, m))) = (q, m1) ∧
    let tf := frame_addr e r in
    ld32 m1 (r_esp q + 4) = tf ∧
    (∀ k v, frame_up e vec err r !! k = Some v → ld32 m1 (tf + 4 * Z.of_nat k) = v) ∧
    (∀ a, a < tf - 8 ∨ stack_top e r ≤ a → ld8 m1 a = ld8 m a) ∧
    ∀ q2 m2, r_esp q2 = tf - 4 → r_cs q2 = e_cs e → (e_stack e = None → r_ss q2 = r_ss r) →
      frame_kept tf (stack_top e r) m1 m2 →
      trap_return (q2, m2) = (set_eax (ld32 m2 (tf + tf_eax)) r, m2).
Proof.
  assert (84 ≤ stack_top e r < 2 ^ 32) as Ht' by lia.
  destruct (entered e vec err r m retaddr He Ht') as (q&E&Eq). exists q. eexists. split; [exact E|]. cbv zeta.
  assert (length (outer e r) ≤ 2)%nat as Ho by (rw /outer; destruct (e_stack e); cbn; lia).
  assert (length (frame e vec err r) = length (outer e r) + 17)%nat as Hl by by rewrite length_app.
  split; [|split; [|split]].
  - rewrite Eq. rewrite -{3}(stack_mem_word (stack_top e r) (frame e vec err r ++ [frame_addr e r; retaddr]) m (length (frame e vec err r)) (frame_addr e r)).
    + by rewrite lookup_app_r // Nat.sub_diag.
    + rw /frame_addr. lia.
    + f_equal. rewrite Hl. rw /frame_addr. lia.
  - intros k v Hk. by apply trapframe_at.
  - intros a Ha. apply stack_mem_other. rewrite length_app Hl. cbn [length]. rw /frame_addr in Ha. lia.
  - intros q2 m2 H1 H2 H3 H4. refine (restored e vec err r _ m2 q2 He Hr Hv _ _ Hc _ H4 H1 H2 H3); [lia|lia|]. intros k v Hk. by apply trapframe_at.
Qed.

(** C26: A thread that was switched away continues where it was.  After [swtch(old, new)] the word [*old] is the address of a context, and a later
    [swtch] of any thread to that context, the context having been kept, returns from the first call:
    to its return address, with its stack pointer and its callee-saved registers. *)
Theorem swtch_resumes_thread r m old new r2 m2 old2
    (Hs : swtch_call (r, m) old new) (Hn : 0 ≤ new ∧ new + 20 < 2 ^ 32) :
  ∃ q m1, swtch (r, m) = (q, m1) ∧ thread_regs q = context_at m1 new ∧ r_esp q = new + 20 ∧
    let c := ld32 m1 old in
    (swtch_call (r2, m2) old2 c → stores_apart (r2, m2) old2 c (c + 20) → (∀ b, c ≤ b < c + 20 → ld8 m2 b = ld8 m1 b) →
     ∃ q2 m3, swtch (r2, m2) = (q2, m3) ∧
       thread_regs q2 = [r_edi r; r_esi r; r_ebx r; r_ebp r; ld32 m (r_esp r)] ∧ r_esp q2 = r_esp r + 4).
Proof.
  destruct (swtch_eq r m old new Hs) as (q&m1&E&Et&Eq&Em); [lia..|]. exists q, m1. split; [done|]. split; [done|]. split; [done|]. cbv zeta.
  pose proof (sc_esp _ _ _ Hs) as [Hlo Hhi]. cbn [fst] in Hlo, Hhi.
  destruct (swtch_saved r m old) as [Ec Ex]; [by rewrite (sc_new _ _ _ Hs)|rw /word; lia|]. rewrite -Em in Ec, Ex. rewrite Ec.
  intros Hs2 Ha Hk. destruct (swtch_eq r2 m2 old2 _ Hs2) as (q2&m3&E2&Et2&Eq2&Em2); [lia..|].
  exists q2, m3. split; [done|]. split; [|lia]. rewrite Et2 -Ex. apply context_at_ext. intros b Hb.
  rewrite Em2 (swtch_other _ _ _ _ _ _ b Ha Hb). by apply Hk.
Qed.

(** C27: A new process starts in forkret and leaves for user space.  allocproc takes the first unused slot, and a [swtch] of the scheduler to the context it made,
    the stores of which stay off the new stack, goes to forkret; when forkret returns, control is in trapret with the stack
    pointer on the trap frame of the process. *)
Theorem new_process_starts {F} kend forkret_addr trapret_addr (s : kern F) i p0 k l
    (Hf : word forkret_addr) (Ht : word trapret_addr) (Hi : list_find (λ p, p_state p = UNUSED) (procs s) = Some (i, p0))
    (Hlk : "ptable" ∉ khold s) (Hfp : free_pages kend (kmem_view s) (k :: l)) :
  wp (allocproc forkret_addr trapret_addr) s (λ o s', o = Some i ∧ ∃ p, procs s' !! i = Some p ∧ p_state p = EMBRYO ∧
    ∀ r m old, swtch_call (r, m) old (p_context p) → stores_apart (r, m) old (p_kstack p) (p_kstack p + KSTACKSIZE) →
      (∀ b, p_kstack p ≤ b < p_kstack p + KSTACKSIZE → ld8 m b = ld8 (km_mem (phys s')) b) →
      ∃ q m1, swtch (r, m) = (q, m1) ∧ r_eip q = forkret_addr ∧
        ∀ q2, r_esp q2 = r_esp q → ∃ q3, ret (q2, m1) = (q3, m1) ∧ r_eip q3 = trapret_addr ∧ r_esp q3 = p_tf p).
Proof.
  refine (wp_mono _ _ _ _ (allocproc_wp kend _ _ s i p0 k l Hf Ht Hi Hlk Hfp) _).
  intros o s' (->&p&Hp&Hst&_&[Ek Etf Ec Esv Er]). split; [done|]. exists p. split; [done|]. split; [done|].
  pose proof (fp_ok _ _ _ Hfp) as Hok. apply Forall_cons in Hok as [(_&_&Hk) _]. rw /KERNBASE /PHYSTOP in Hk.
  rewrite Ek Ec Etf. rw /KSTACKSIZE. intros r m old Hs Ha Hm. destruct (swtch_eq r m old _ Hs) as (q&m1&E&Et&Eq&Em); [lia..|].
  assert (∀ b, k ≤ b < k + 4096 → ld8 m1 b = ld8 (km_mem (phys s')) b) as Hb.
  { intros b Hb. rewrite Em (swtch_other _ _ _ _ _ _ b Ha Hb). by apply Hm. }
  exists q, m1. split; [done|]. split.
  - rewrite (context_at_ext (km_mem (phys s'))) in Et; [intros b Hbb; apply Hb; lia|]. rewrite Esv in Et. by injection Et.
  - intros q2 E2. rw /ret. rewrite pop_eq; [lia..|]. eexists. split; [reflexivity|].
    cbn [set_eip set_esp r_eip r_esp]. rewrite E2 Eq. split; [|lia]. rewrite -Er. rewrite (_ : k + 3996 + 20 + 4 * Z.of_nat 0 = k + 4016); [lia|].
    apply ld32_ext. intros b Hbb. apply Hb. lia.
Qed.

(** ** Witnesses *)

(** A system call from user code at 0x100 with its stack below 0x3000. *)
Definition user_regs : regs := Regs 5 2 3 4 0x2ff0 0x2ff8 6 7 0x100 0x202 0x1b 0x23 0x23 0x23 0 0.
Definition syscall_entry : entry := Entry 0 8 0x80105240 (Some (16, 0x80401000)) true.

Lemma trap_restores_registers_witness :
  ∃ q m1, alltraps 0x80105099 (vector 64 (interrupt syscall_entry None (user_regs, ∅))) = (q, m1) ∧
    ld32 m1 (0x80400fb4 + tf_eip) = 0x100 ∧ ld32 m1 (0x80400fb4 + tf_esp) = 0x2ff0.
Proof.
  destruct (trap_restores_registers syscall_entry 64 None user_regs ∅ 0x80105099) as (q&m1&E&_&Hf&_).
  - split; repeat constructor; cbn; lia.
  - reflexivity.
  - lia.
  - cbn. lia.
  - split; reflexivity.
  - exists q, m1. split; [exact E|]. split; [exact (Hf 14%nat _ eq_refl)|exact (Hf 17%nat _ eq_refl)].
Defined.

(** A thread calls [swtch(0x80112000, 0x80402f00)]. *)
Definition a_thread : regs := Regs 0 0 0 11 0x80401f00 12 13 14 0x80103000 0x2 8 16 16 16 0 0.
Definition a_stack : mem := st32 0x80401f00 0x80103010 (st32 0x80401f04 0x80112000 (st32 0x80401f08 0x80402f00 ∅)).

Lemma swtch_resumes_thread_witness :
  ∃ q m1, swtch (a_thread, a_stack) = (q, m1) ∧ thread_regs q = context_at m1 0x80402f00 ∧ r_esp q = 0x80402f14.
Proof.
  destruct (swtch_resumes_thread a_thread a_stack 0x80112000 0x80402f00 a_thread a_stack 0) as (q&m1&E&E1&E2&_).
  - split; cbn [fst snd].
    + cbn. lia.
    + vm_compute. reflexivity.
    + vm_compute. reflexivity.
    + cbn. lia.
    + repeat constructor; cbn; lia.
  - lia.
  - exists q, m1. split; [exact E|]. split; [exact E1|exact E2].
Defined.

(** A process table with a free slot and one free page. *)
Definition one_page : kern unit :=
  Kern [set_state RUNNING proc0; proc0] 7 (Some 0%nat) [Some 0%nat] (Kmem ∅ 0x80400000 true []) [] tt.
Lemma one_page_free : free_pages KERNLINK (kmem_view one_page) [0x80400000].
Proof.
  split.
  - split; [reflexivity|vm_compute; reflexivity].
  - apply NoDup_singleton.
  - repeat constructor; vm_compute; congruence.
  - apply not_elem_of_nil.
Qed.

Lemma new_process_starts_witness :
  wp (allocproc 0x80103a00 0x80105500) one_page (λ o s', o = Some 1%nat ∧ ∃ p, procs s' !! 1%nat = Some p ∧ p_state p = EMBRYO).
Proof.
  refine (wp_mono _ _ _ _ (new_process_starts KERNLINK 0x80103a00 0x80105500 one_page 1 proc0 0x80400000 [] _ _ _ _ one_page_free) _).
  - rw /word. lia.
  - rw /word. lia.
  - reflexivity.
  - apply not_elem_of_nil.
  - intros o s' (E&p&Hp&Hs&_). split; [exact E|]. exists p. split; [exact Hp|exact Hs].
Defined.
