(* ===== verification/Mp.v ===== *)
(** * The search for the processors (xv6/mp.c, mp.h).

    The tables the BIOS leaves in low memory, found by signature and checksum, and the walk over the entries of the configuration table that fills
    [cpus], [ncpu], [ioapicid] and [lapic].  The loop of [mpinit] runs on fuel, and
    running out of it is undefined here.  The theorems: [mpsearch1] finds the first structure; on a
    table of known entries [mpinit] takes the processors in order, at most [NCPU] of them; and on a table with an entry of another
    type the walk never ends, so the panic that should report such a machine is not reached. *)
From S2P Require Import Prelude CMem Str Spinlock Kalloc.
Local Open Scope Z_scope.

(** ** mp.h *)

Definition MPPROC : Z := 0x00.
Definition MPBUS : Z := 0x01.
Definition MPIOAPIC : Z := 0x02.
Definition MPIOINTR : Z := 0x03.
Definition MPLINTR : Z := 0x04.
Definition NCPU : Z := 8.

(** Sizes and offsets of the structures. *)
Definition sizeof_mp : Z := 16.
Definition mp_physaddr : Z := 4.
Definition mp_imcrp : Z := 12.
Definition sizeof_mpconf : Z := 44.
Definition conf_length : Z := 4.
Definition conf_version : Z := 6.
Definition conf_lapicaddr : Z := 36.
Definition sizeof_mpproc : Z := 20.
Definition sizeof_mpioapic : Z := 8.

(** ** State *)

Record mps := Mps {
  m_mem : mem;
  ncpu : Z;
  m_apicid : list Z;             (* cpus[i].apicid *)
  ioapicid : Z;
  lapic : Z;
  m_imcr : Z;                    (* what port 0x23 reads *)
  m_out : list (Z * Z)           (* port writes *)
}.
Local Notation M := (K mps).

Definition add_cpu (a : Z) : M unit :=
  modify (λ s, Mps (m_mem s) (ncpu s + 1) (<[Z.to_nat (ncpu s) := a]> (m_apicid s)) (ioapicid s) (lapic s) (m_imcr s) (m_out s)).
Definition set_ioapicid (a : Z) : M unit :=
  modify (λ s, Mps (m_mem s) (ncpu s) (m_apicid s) a (lapic s) (m_imcr s) (m_out s)).
Definition set_lapic (a : Z) : M unit :=
  modify (λ s, Mps (m_mem s) (ncpu s) (m_apicid s) (ioapicid s) a (m_imcr s) (m_out s)).
Definition outb (port v : Z) : M unit :=
  modify (λ s, Mps (m_mem s) (ncpu s) (m_apicid s) (ioapicid s) (lapic s) (m_imcr s) (m_out s ++ [(port, u8 v)])).

(** ** mp.c *)

Definition ld16 (m : mem) (a : Z) : Z := ld8 m a + 2 ^ 8 * ld8 m (a + 1).

Definition sum (m : mem) (addr len : Z) : Z := u8 (foldl Z.add 0 (bytes m addr (Z.to_nat len))).

(** [memcmp(p, sig, 4) == 0] with the bytes of the literal. *)
Definition has_sig (m : mem) (p : Z) (sig : list Z) : bool := bool_decide (bytes m p 4 = sig).
Definition MP_SIG : list Z := [95; 77; 80; 95].
Definition PCMP_SIG : list Z := [80; 67; 77; 80].

Definition mp_here (m : mem) (p : Z) : bool := has_sig m p MP_SIG && (sum m p sizeof_mp =? 0).

(** The pointers [addr], [addr + 16], ... below [addr + len]. *)
Definition mpsearch1 (m : mem) (a len : Z) : option Z :=
  let addr := P2V a in
  snd <$> list_find (λ p, mp_here m p = true) ((λ i, addr + sizeof_mp * i) <$> range 0 ((len + sizeof_mp - 1) / sizeof_mp)).

Definition mpsearch (m : mem) : option Z :=
  let bda := P2V 0x400 in
  let p := Z.shiftl (Z.lor (Z.shiftl (ld8 m (bda + 0x0F)) 8) (ld8 m (bda + 0x0E))) 4 in
  let first :=
    if negb (p =? 0) then mpsearch1 m p 1024
    else
      let p := Z.lor (Z.shiftl (ld8 m (bda + 0x14)) 8) (ld8 m (bda + 0x13)) * 1024 in
      mpsearch1 m (u32 (p - 1024)) 1024 in
  match first with
  | Some mp => Some mp
  | None => mpsearch1 m 0xF0000 0x10000
  end.

(** The floating structure and the configuration table. *)
Definition mpconfig (m : mem) : option (Z * Z) :=
  mp ← mpsearch m;
  let phys := ld32 m (mp + mp_physaddr) in
  if phys =? 0 then None
  else
    let conf := P2V phys in
    if negb (has_sig m conf PCMP_SIG) then None
    else if negb (ld8 m (conf + conf_version) =? 1) && negb (ld8 m (conf + conf_version) =? 4) then None
    else if negb (sum m conf (ld16 m (conf + conf_length)) =? 0) then None
    else Some (mp, conf).

(** The loop over the entries at [p], below [e]; [break] leaves the switch only. *)
Fixpoint mpinit_loop (fuel : nat) (p e : Z) (ismp : bool) : M bool :=
  match fuel with
  | O => undef "mpinit: loop"
  | S fuel =>
      if e <=? p then mret ismp
      else
        s ← get;
        let t := ld8 (m_mem s) p in
        if t =? MPPROC then
          _ ← when (ncpu s <? NCPU) (add_cpu (ld8 (m_mem s) (p + 1)));
          mpinit_loop fuel (p + sizeof_mpproc) e ismp
        else if t =? MPIOAPIC then
          _ ← set_ioapicid (ld8 (m_mem s) (p + 1));
          mpinit_loop fuel (p + sizeof_mpioapic) e ismp
        else if (t =? MPBUS) || (t =? MPIOINTR) || (t =? MPLINTR) then mpinit_loop fuel (p + 8) e ismp
        else mpinit_loop fuel p e false
  end.

Definition mpinit (fuel : nat) : M unit :=
  m ← gets m_mem;
  match mpconfig m with
  | None => panic "Expect to run on an SMP"
  | Some (mp, conf) =>
      _ ← set_lapic (ld32 m (conf + conf_lapicaddr));
      ismp ← mpinit_loop fuel (conf + sizeof_mpconf) (conf + ld16 m (conf + conf_length)) true;
      if negb ismp then panic "Didn't find a suitable machine"
      else
        when (negb (ld8 m (mp + mp_imcrp) =? 0))
          (_ ← outb 0x22 0x70;
           v ← gets m_imcr;
           outb 0x23 (Z.lor v 1))
  end.

(** ** Tables *)

(** An entry of the table with the bytes that are skipped. *)
Inductive mpentry :=
| EProc (apicid : Z) (rest : list Z)
| EIoapic (apicno : Z) (rest : list Z)
| EOther (type : Z) (rest : list Z).

Definition encode (x : mpentry) : list Z :=
  match x with
  | EProc a rest => MPPROC :: a :: rest
  | EIoapic n rest => MPIOAPIC :: n :: rest
  | EOther t rest => t :: rest
  end.
Definition entry_ok (x : mpentry) : Prop :=
  match x with
  | EProc _ rest => length rest = 18%nat
  | EIoapic _ rest => length rest = 6%nat
  | EOther t rest => (t = MPBUS ∨ t = MPIOINTR ∨ t = MPLINTR) ∧ length rest = 7%nat
  end.

(** What the entries say. *)
Definition proc_ids (es : list mpentry) : list Z := omap (λ x, match x with EProc a _ => Some a | _ => None end) es.
Definition ioapic_ids (es : list mpentry) : list Z := omap (λ x, match x with EIoapic n _ => Some n | _ => None end) es.

(** The bytes [l] are at address [a]. *)
Definition at_addr (m : mem) (a : Z) (l : list Z) : Prop := ∀ k b, l !! k = Some b → ld8 m (a + Z.of_nat k) = b.
Lemma at_addr_app m a l1 l2 : at_addr m a (l1 ++ l2) → at_addr m a l1 ∧ at_addr m (a + Z.of_nat (length l1)) l2.
Proof.
  intros H. split; intros k b Hk.
  - apply H. by apply lookup_app_l_Some.
  - rewrite -(H (length l1 + k)%nat b); [|f_equal; lia]. rewrite lookup_app_r; [lia|]. by rewrite Nat.add_comm Nat.add_sub.
Qed.

(** The fields the walk sets, after taking the processors [ids] and the I/O APICs [ios]. *)
Definition took (ids ios : list Z) (s : mps) : mps :=
  let n := Z.min (Z.of_nat (length ids)) (NCPU - ncpu s) in
  Mps (m_mem s) (ncpu s + n) (take (Z.to_nat (ncpu s)) (m_apicid s) ++ take (Z.to_nat n) ids ++ drop (Z.to_nat (ncpu s + n)) (m_apicid s))
    (List.last ios (ioapicid s)) (lapic s) (m_imcr s) (m_out s).
Definition cpus_ok (s : mps) : Prop := 0 ≤ ncpu s ≤ NCPU ∧ length (m_apicid s) = Z.to_nat NCPU.

Definition take_entry (s : mps) (x : mpentry) : mps :=
  match x with
  | EProc a _ => if ncpu s <? NCPU then state_of (add_cpu a) s else s
  | EIoapic n _ => state_of (set_ioapicid n) s
  | EOther _ _ => s
  end.

Lemma take_entry_mem s x : m_mem (take_entry s x) = m_mem s.
Proof. destruct x; cbn; [by destruct (ncpu s <? NCPU)|done..]. Qed.
Lemma length_encode x : entry_ok x → length (encode x) = match x with EProc _ _ => 20 | _ => 8 end%nat.
Proof. destruct x as [a r|n r|t r]; cbn; [lia..|]. intros [_ ->]. done. Qed.

(** One round of the loop at an entry. *)
Lemma loop_step fuel s p e b x : entry_ok x → p < e → at_addr (m_mem s) p (encode x) →
  mpinit_loop (S fuel) p e b s = mpinit_loop fuel (p + Z.of_nat (length (encode x))) e b (take_entry s x).
Proof.
  intros Hx He Ha. cbn [mpinit_loop]. destruct (Z.leb_spec e p); [lia|]. rw /mbind /K_bind. cbn [get].
  assert (ld8 (m_mem s) p = hd 0 (encode x)) as Et. { rewrite -(Z.add_0_r p). destruct x; apply (Ha 0%nat); done. }
  rewrite Et (length_encode x Hx). destruct x as [a r|n r|t r]; cbn [encode hd take_entry].
  - rewrite Z.eqb_refl (Ha 1%nat a) //. by destruct (ncpu s <? NCPU).
  - change (MPIOAPIC =? MPPROC) with false. rewrite Z.eqb_refl (Ha 1%nat n) //.
  - destruct Hx as [[-> | [-> | ->]] _]; done.
Qed.

Lemma loop_run es : ∀ fuel s p b, Forall entry_ok es → at_addr (m_mem s) p (concat (encode <$> es)) → (length es < fuel)%nat →
  mpinit_loop fuel p (p + Z.of_nat (length (concat (encode <$> es)))) b s = Ret b (foldl take_entry s es).
Proof.
  induction es as [|x es IH]; intros [|fuel] s p b Hok Ha Hf; cbn [length] in Hf; try lia.
  - cbn [fmap list_fmap concat length mpinit_loop foldl]. rewrite Z.add_0_r Z.leb_refl. done.
  - apply Forall_cons in Hok as [Hx Hok]. cbn [fmap list_fmap concat] in Ha |- *. apply at_addr_app in Ha as [Ha1 Ha2].
    rewrite length_app. pose proof (length_encode x Hx). rewrite (loop_step _ s p _ b x Hx) //; [destruct x; lia|]. cbn [foldl].
    replace (p + Z.of_nat (length (encode x) + length (concat (encode <$> es)))) with
      (p + Z.of_nat (length (encode x)) + Z.of_nat (length (concat (encode <$> es)))) by lia.
    apply IH; [done|by rewrite take_entry_mem|lia].
Qed.

Lemma took_nil s : cpus_ok s → took [] [] s = s.
Proof.
  intros [Hn Hl]. destruct s. rw /took. cbn in *. rewrite Z.min_l; [lia|]. rewrite Z.add_0_r. cbn [app]. rewrite take_drop //.
Qed.
Lemma took_proc a ids ios s : cpus_ok s → took ids ios (take_entry s (EProc a [])) = took (a :: ids) ios s.
Proof.
  intros [Hn Hl]. cbn [take_entry]. destruct (Z.ltb_spec (ncpu s) NCPU) as [Hlt|Hge].
  - rw /took /state_of /add_cpu /modify. cbn [m_mem ncpu m_apicid ioapicid lapic m_imcr m_out length].
    set (n := Z.min (Z.of_nat (length ids)) (NCPU - (ncpu s + 1))).
    assert (Z.min (Z.of_nat (S (length ids))) (NCPU - ncpu s) = n + 1) as -> by lia. f_equal; [lia|].
    replace (ncpu s + (n + 1)) with (ncpu s + 1 + n) by lia. replace (Z.to_nat (ncpu s + 1)) with (S (Z.to_nat (ncpu s))) by lia.
    rewrite (take_S_r _ _ a); [apply list_lookup_insert_eq; lia|]. rewrite take_insert_ge; [lia|]. rewrite drop_insert_lt; [lia|].
    replace (Z.to_nat (n + 1)) with (S (Z.to_nat n)) by lia. cbn [take]. by rewrite -!app_assoc.
  - rw /took. assert (ncpu s = NCPU) as E by lia. rewrite E. rewrite !Z.min_r; [lia..|]. done.
Qed.
Lemma take_entry_ok s x : cpus_ok s → cpus_ok (take_entry s x).
Proof.
  intros [Hn Hl]. destruct x; cbn; [|done..]. destruct (Z.ltb_spec (ncpu s) NCPU); [|done].
  split; cbn; [lia|]. by rewrite length_insert.
Qed.

Lemma walk_took es s : cpus_ok s → foldl take_entry s es = took (proc_ids es) (ioapic_ids es) s.
Proof.
  revert s. induction es as [|x es IH]; intros s Hs; cbn [foldl]; [symmetry; exact (took_nil s Hs)|]. rewrite IH; [by apply take_entry_ok|].
  destruct x as [a r|n r|t r]; [by apply (took_proc a)| |done].
  change (ioapic_ids (EIoapic n r :: es)) with (n :: ioapic_ids es). change (proc_ids (EIoapic n r :: es)) with (proc_ids es).
  rw /took. cbn [take_entry state_of set_ioapicid modify m_mem ncpu m_apicid ioapicid lapic m_imcr m_out]. f_equal.
  generalize (ioapic_ids es). intros l. revert n. induction l as [|k l IHl]; intros n; [done|]. cbn. destruct l; [done|]. exact (IHl n).
Qed.

(** A table with an entry the switch has no case for: the walk stays there. *)
Lemma loop_stuck t fuel : ∀ s p e b, p < e → ld8 (m_mem s) p = t → 4 < t → mpinit_loop fuel p e b s = Undef "mpinit: loop".
Proof.
  induction fuel as [|fuel IH]; intros s p e b He Ht H4; [done|]. cbn [mpinit_loop]. destruct (Z.leb_spec e p); [lia|].
  rw /mbind /K_bind. cbn [get]. rewrite Ht. rw /MPPROC /MPIOAPIC /MPBUS /MPIOINTR /MPLINTR.
  rewrite !(proj2 (Z.eqb_neq t _)); [lia..|]. by apply IH.
Qed.

Lemma loop_unknown es : ∀ fuel s p e b t, Forall entry_ok es → at_addr (m_mem s) p (concat (encode <$> es) ++ [t]) → 4 < t →
  p + Z.of_nat (length (concat (encode <$> es))) < e → mpinit_loop fuel p e b s = Undef "mpinit: loop".
Proof.
  induction es as [|x es IH]; intros fuel s p e b t Hok Ha Ht He.
  - apply (loop_stuck t); [cbn in He; lia| |done]. rewrite -(Z.add_0_r p). by apply (Ha 0%nat).
  - destruct fuel as [|fuel]; [done|]. apply Forall_cons in Hok as [Hx Hok]. cbn [fmap list_fmap concat] in Ha, He. rewrite -app_assoc in Ha.
    apply at_addr_app in Ha as [Ha1 Ha2]. rewrite length_app in He. rewrite (loop_step _ s p _ b x Hx) //; [lia|].
    apply (IH _ _ _ _ _ t); [done|by rewrite take_entry_mem|done|lia].
Qed.

(** ** Theorems *)

(** The first structure with the signature and a zero checksum, at a multiple of 16 bytes from the start. *)
Theorem mpsearch1_first m a len p :
  mpsearch1 m a len = Some p ↔
  ∃ i, 0 ≤ i < (len + 15) / 16 ∧ p = P2V a + 16 * i ∧ mp_here m p = true ∧ ∀ j, 0 ≤ j < i → mp_here m (P2V a + 16 * j) = false.
Proof.
  rw /mpsearch1 /sizeof_mp. replace (len + 16 - 1) with (len + 15) by lia. set (n := (len + 15) / 16). split.
  - destruct (list_find _ _) as [[k q]|] eqn:E; [|done]. cbn. intros [= <-]. apply list_find_Some in E as (Hk&Hq&Hj).
    rewrite list_lookup_fmap in Hk. apply fmap_Some in Hk as (z&Hz&->). apply lookup_seqZ in Hz as [-> Hlt].
    exists (Z.of_nat k). split; [lia|]. split; [f_equal; lia|]. split; [done|]. intros j Hjk.
    destruct (mp_here m (P2V a + 16 * j)) eqn:Ej; [|done]. exfalso. apply (Hj (Z.to_nat j) (P2V a + 16 * j)); [|lia|done].
    rewrite list_lookup_fmap /range lookup_seqZ_lt; [lia|]. cbn. do 3 f_equal. lia.
  - intros (i&Hi&->&Hh&Hj). destruct (list_find _ _) as [[k q]|] eqn:E.
    + apply list_find_Some in E as (Hk&Hq&Hjk). rewrite list_lookup_fmap in Hk. apply fmap_Some in Hk as (z&Hz&->).
      apply lookup_seqZ in Hz as [-> Hlt]. cbn. do 2 f_equal. destruct (decide (Z.of_nat k < i)) as [Hki|Hki].
      { rewrite (Hj (Z.of_nat k)) in Hq; [lia|]. done. }
      destruct (decide (i < Z.of_nat k)) as [Hik|Hik]; [|lia]. exfalso. apply (Hjk (Z.to_nat i) (P2V a + 16 * i)); [|lia|done].
      rewrite list_lookup_fmap /range lookup_seqZ_lt; [lia|]. cbn. do 3 f_equal. lia.
    + apply list_find_None in E. rewrite Forall_forall in E. exfalso. apply (E (P2V a + 16 * i)); [|done]. apply list_elem_of_fmap. exists i. split; [done|].
      by apply elem_of_range.
Qed.

(** The processors of a well-formed table are found.  When the BIOS left a valid configuration table of known entries, [mpinit] returns with [ncpu] the number of its
    processors, at most [NCPU]; the first entries of [cpus] have their APIC ids in the order of the table and the rest of
    [cpus] is unchanged; [ioapicid] is the one of the last I/O APIC, [lapic] the table's address; and the mask register is written exactly
    when the table asks for it. *)
Theorem mpinit_takes_processors fuel s es mp conf
    (Hc : mpconfig (m_mem s) = Some (mp, conf)) (Hes : Forall entry_ok es) (Ha : at_addr (m_mem s) (conf + sizeof_mpconf) (concat (encode <$> es)))
    (Hl : ld16 (m_mem s) (conf + conf_length) = sizeof_mpconf + Z.of_nat (length (concat (encode <$> es))))
    (H0 : ncpu s = 0) (H8 : length (m_apicid s) = Z.to_nat NCPU) (Hf : (length es < fuel)%nat) :
  ∃ s', mpinit fuel s = Ret tt s' ∧ ncpu s' = Z.min NCPU (Z.of_nat (length (proc_ids es))) ∧
    m_apicid s' = take (Z.to_nat (ncpu s')) (proc_ids es) ++ drop (Z.to_nat (ncpu s')) (m_apicid s) ∧
    ioapicid s' = List.last (ioapic_ids es) (ioapicid s) ∧ lapic s' = ld32 (m_mem s) (conf + conf_lapicaddr) ∧
    m_out s' = m_out s ++ (if ld8 (m_mem s) (mp + mp_imcrp) =? 0 then [] else [(0x22, 0x70); (0x23, u8 (Z.lor (m_imcr s) 1))]).
Proof.
  set (s1 := state_of (set_lapic (ld32 (m_mem s) (conf + conf_lapicaddr))) s).
  assert (cpus_ok s1) as Hok by (split; [cbn; rewrite H0; done|exact H8]).
  rw /mpinit. erewrite bind_Ret; [|reflexivity]. rewrite Hc. rewrite (bind_Ret _ _ s tt s1) //. rewrite Hl.
  erewrite bind_Ret.
  2:{ rewrite Z.add_assoc. apply loop_run; [done|exact Ha|done]. }
  rewrite walk_took //. cbn [negb]. rw /took. change (ncpu s1) with (ncpu s). rewrite H0 Z.sub_0_r Z.add_0_l Z.min_comm.
  destruct (ld8 (m_mem s) (mp + mp_imcrp) =? 0); cbn [negb when]; (eexists; split; [reflexivity|]); cbn.
  - by rewrite app_nil_r.
  - by rewrite -app_assoc.
Qed.

(** A machine with an entry of another type hangs the kernel.  When such an entry, of a type above 4, stands in the table after known ones, the loop of [mpinit] does not end: no
    number of rounds is enough, and the panic after the loop is never reached. *)
Theorem mpinit_hangs_on_unknown fuel s es t mp conf
    (Hc : mpconfig (m_mem s) = Some (mp, conf)) (Hes : Forall entry_ok es) (Ht : 4 < t)
    (Ha : at_addr (m_mem s) (conf + sizeof_mpconf) (concat (encode <$> es) ++ [t]))
    (Hl : sizeof_mpconf + Z.of_nat (length (concat (encode <$> es))) < ld16 (m_mem s) (conf + conf_length)) :
  mpinit fuel s = Undef "mpinit: loop".
Proof.
  set (s1 := state_of (set_lapic (ld32 (m_mem s) (conf + conf_lapicaddr))) s).
  rw /mpinit. erewrite bind_Ret; [|reflexivity]. rewrite Hc. rewrite (bind_Ret _ _ s tt s1) //.
  rw /mbind /K_bind. rewrite (loop_unknown es _ s1 _ _ _ t Hes Ha Ht) //. lia.
Qed.

(** ** Witnesses *)

(** [l] with the byte at [k] such that the bytes add up to 0. *)
Definition checksummed (k : nat) (l : list Z) : list Z := <[k := u8 (- foldl Z.add 0 l)]> l.
Definition store_list (a : Z) (l : list Z) (m : mem) : mem := foldl (λ m x, st8 (a + Z.of_nat x.1) x.2 m) m (imap pair l).

(** The BIOS data area points at 0x9fc00, where the structure is; the table is at 0x9fd00. *)
Definition bios_mp : list Z := checksummed 10 (MP_SIG ++ [0x00; 0xfd; 0x09; 0x00] ++ [1; 4; 0; 0; 0x80; 0; 0; 0]).
Definition bios_conf (entries : list Z) : list Z :=
  checksummed 7 (PCMP_SIG ++ [Z.of_nat (44 + length entries); 0; 4; 0] ++ replicate 28 0 ++ [0; 0; 0xe0; 0xfe] ++ replicate 4 0 ++ entries).
Definition bios (entries : list Z) : mem :=
  store_list (P2V 0x9fd00) (bios_conf entries) (store_list (P2V 0x9fc00) bios_mp (store_list (P2V 0x40e) [0xc0; 0x9f] ∅)).
Definition before_mpinit (entries : list Z) : mps := Mps (bios entries) 0 (replicate 8 0) 0 0 0 [].
Definition two_cpus : list mpentry :=
  [EProc 3 (replicate 18 0); EProc 5 (replicate 18 0); EOther MPBUS (replicate 7 0); EIoapic 2 (replicate 6 0)].

(** Checking that bytes are in memory. *)
Definition at_addrb (m : mem) (a : Z) (l : list Z) : bool := bool_decide (bytes m a (length l) = l).
Lemma at_addrb_ok m a l : at_addrb m a l = true → at_addr m a l.
Proof.
  rw /at_addrb bool_decide_eq_true. intros E k b Hk. pose proof (lookup_lt_Some _ _ _ Hk) as Hlt.
  rewrite -E lookup_bytes // in Hk. by injection Hk.
Qed.

Lemma mpinit_takes_processors_witness :
  ∃ s', mpinit 9 (before_mpinit (concat (encode <$> two_cpus))) = Ret tt s' ∧ ncpu s' = 2 ∧ ioapicid s' = 2.
Proof.
  destruct (mpinit_takes_processors 9 (before_mpinit (concat (encode <$> two_cpus))) two_cpus (P2V 0x9fc00) (P2V 0x9fd00)) as (s'&E&En&_&Ei&_).
  - vm_compute. reflexivity.
  - repeat constructor.
  - apply at_addrb_ok. vm_compute. reflexivity.
  - vm_compute. reflexivity.
  - reflexivity.
  - reflexivity.
  - cbn. lia.
  - exists s'. split; [exact E|]. split; [exact En|exact Ei].
Defined.

Lemma mpinit_hangs_on_unknown_witness :
  mpinit 1000 (before_mpinit (concat (encode <$> two_cpus) ++ [0x80; 0; 0; 0])) = Undef "mpinit: loop".
Proof.
  apply (mpinit_hangs_on_unknown 1000 _ two_cpus 0x80 (P2V 0x9fc00) (P2V 0x9fd00)).
  - vm_compute. reflexivity.
  - repeat constructor.
  - lia.
  - apply at_addrb_ok. vm_compute. reflexivity.
  - vm_compute. reflexivity.
Defined.
