(* ===== verification/Apic.v ===== *)
(** * The interrupt controllers and the clock (xv6/lapic.c, ioapic.c, picirq.c, date.h).

    Registers are maps from indices to the value last written, and commands to other processors are
    kept in order.  The real-time clock is an argument: the date at each read of a port, which a read never moves back.
    The theorems: [ioapicinit] and any [ioapicenable]s leave exactly the enabled lines routed, each to its own vector and CPU;
    [lapicstartap] sends the start-up sequence to the processor named; [cmostime] returns a date the clock showed
    during the call, whatever the mode of the clock, and does return once the clock stands still. *)
From S2P Require Import Prelude CMem Str Spinlock Kalloc.
Local Open Scope Z_scope.

(** ** Constants of lapic.c, ioapic.c and traps.h *)

Definition ID : Z := 0x0020 / 4.
Definition VER : Z := 0x0030 / 4.
Definition TPR : Z := 0x0080 / 4.
Definition EOI : Z := 0x00B0 / 4.
Definition SVR : Z := 0x00F0 / 4.
Definition ENABLE : Z := 0x00000100.
Definition ESR : Z := 0x0280 / 4.
Definition ICRLO : Z := 0x0300 / 4.
Definition INIT : Z := 0x00000500.
Definition STARTUP : Z := 0x00000600.
Definition DELIVS : Z := 0x00001000.
Definition ASSERT : Z := 0x00004000.
Definition LEVEL : Z := 0x00008000.
Definition BCAST : Z := 0x00080000.
Definition ICRHI : Z := 0x0310 / 4.
Definition TIMER : Z := 0x0320 / 4.
Definition X1 : Z := 0x0000000B.
Definition PERIODIC : Z := 0x00020000.
Definition PCINT : Z := 0x0340 / 4.
Definition LINT0 : Z := 0x0350 / 4.
Definition LINT1 : Z := 0x0360 / 4.
Definition ERROR : Z := 0x0370 / 4.
Definition MASKED : Z := 0x00010000.
Definition TICR : Z := 0x0380 / 4.
Definition TDCR : Z := 0x03E0 / 4.

Definition T_IRQ0 : Z := 32.
Definition IRQ_TIMER : Z := 0.
Definition IRQ_ERROR : Z := 19.
Definition IRQ_SPURIOUS : Z := 31.

Definition REG_ID : Z := 0x00.
Definition REG_VER : Z := 0x01.
Definition REG_TABLE : Z := 0x10.
Definition INT_DISABLED : Z := 0x00010000.

Definition IO_PIC1 : Z := 0x20.
Definition IO_PIC2 : Z := 0xA0.
Definition CMOS_PORT : Z := 0x70.

(** ** State *)

(** [l_there]: the pointer [lapic] is not null; [l_icr]: the interrupt commands, newest last, as the pair of ICRHI and ICRLO;
    [io_sel]: the register ioapic->reg selects; [ports]: port writes. *)
Record apic := Apic {
  l_there : bool;
  l_regs : gmap Z Z;
  l_icr : list (Z * Z);
  io_sel : Z;
  io_regs : gmap Z Z;
  said : list string;
  ports : list (Z * Z);
  a_mem : mem
}.
Local Notation M := (K apic).

Definition lreg (s : apic) (r : Z) : Z := default 0 (l_regs s !! r).
Definition outb (port v : Z) : M unit :=
  modify (λ s, Apic (l_there s) (l_regs s) (l_icr s) (io_sel s) (io_regs s) (said s) (ports s ++ [(port, u8 v)]) (a_mem s)).

(** ** lapic.c *)

(** A write of ICRLO sends the command at once: DELIVS reads as 0. *)
Definition lapicw (index value : Z) : M unit :=
  modify (λ s,
    let icr := if index =? ICRLO then l_icr s ++ [(lreg s ICRHI, u32 value)] else l_icr s in
    Apic (l_there s) (<[index := u32 value]> (l_regs s)) icr (io_sel s) (io_regs s) (said s) (ports s) (a_mem s)).

Definition lapicinit : M unit :=
  s ← get;
  if negb (l_there s) then mret tt
  else
    _ ← lapicw SVR (Z.lor ENABLE (T_IRQ0 + IRQ_SPURIOUS));
    _ ← lapicw TDCR X1;
    _ ← lapicw TIMER (Z.lor PERIODIC (T_IRQ0 + IRQ_TIMER));
    _ ← lapicw TICR 10000000;
    _ ← lapicw LINT0 MASKED;
    _ ← lapicw LINT1 MASKED;
    s ← get;
    _ ← when (4 <=? Z.land (Z.shiftr (lreg s VER) 16) 0xFF) (lapicw PCINT MASKED);
    _ ← lapicw ERROR (T_IRQ0 + IRQ_ERROR);
    _ ← lapicw ESR 0;
    _ ← lapicw ESR 0;
    _ ← lapicw EOI 0;
    _ ← lapicw ICRHI 0;
    _ ← lapicw ICRLO (Z.lor (Z.lor BCAST INIT) LEVEL);
    s ← get;
    if negb (Z.land (lreg s ICRLO) DELIVS =? 0) then sleeps "lapicinit"
    else lapicw TPR 0.

Definition lapicid : M Z := gets (λ s, if negb (l_there s) then 0 else Z.shiftr (lreg s ID) 24).

Definition lapiceoi : M unit := s ← get; when (l_there s) (lapicw EOI 0).

(** Address 40:67, the warm reset vector. *)
Definition wrv : Z := P2V (Z.lor (Z.shiftl 0x40 4) 0x67).
Definition st16 (a v : Z) (m : mem) : mem := st8 (a + 1) (v / 2 ^ 8) (st8 a v m).
Definition upd_mem (f : mem → mem) : M unit :=
  modify (λ s, Apic (l_there s) (l_regs s) (l_icr s) (io_sel s) (io_regs s) (said s) (ports s) (f (a_mem s))).

(** [microdelay] does nothing. *)
Definition lapicstartap (apicid addr : Z) : M unit :=
  _ ← outb CMOS_PORT 0xF;
  _ ← outb (CMOS_PORT + 1) 0x0A;
  _ ← upd_mem (st16 wrv 0);
  _ ← upd_mem (st16 (wrv + 2) (u16 (Z.shiftr addr 4)));
  _ ← lapicw ICRHI (Z.shiftl apicid 24);
  _ ← lapicw ICRLO (Z.lor (Z.lor INIT LEVEL) ASSERT);
  _ ← lapicw ICRLO (Z.lor INIT LEVEL);
  for_each (range 0 2) (λ _,
    _ ← lapicw ICRHI (Z.shiftl apicid 24);
    lapicw ICRLO (Z.lor STARTUP (Z.shiftr addr 12))).

(** ** ioapic.c *)

Definition select (r : Z) : M unit :=
  modify (λ s, Apic (l_there s) (l_regs s) (l_icr s) r (io_regs s) (said s) (ports s) (a_mem s)).
Definition ioapicread (r : Z) : M Z := _ ← select r; gets (λ s, default 0 (io_regs s !! io_sel s)).
Definition ioapicwrite (r data : Z) : M unit :=
  _ ← select r;
  modify (λ s, Apic (l_there s) (l_regs s) (l_icr s) (io_sel s) (<[io_sel s := u32 data]> (io_regs s)) (said s) (ports s) (a_mem s)).
Definition cprintf (t : string) : M unit :=
  modify (λ s, Apic (l_there s) (l_regs s) (l_icr s) (io_sel s) (io_regs s) (said s ++ [t]) (ports s) (a_mem s)).

Definition ioapicinit (ioapicid : Z) : M unit :=
  v ← ioapicread REG_VER;
  let maxintr := Z.land (Z.shiftr v 16) 0xFF in
  w ← ioapicread REG_ID;
  let id := Z.shiftr w 24 in
  _ ← when (negb (id =? ioapicid)) (cprintf "ioapicinit: id isn't equal to ioapicid; not a MP");
  for_each (range 0 (maxintr + 1)) (λ i,
    _ ← ioapicwrite (REG_TABLE + 2 * i) (Z.lor INT_DISABLED (T_IRQ0 + i));
    ioapicwrite (REG_TABLE + 2 * i + 1) 0).

Definition ioapicenable (irq cpunum : Z) : M unit :=
  _ ← ioapicwrite (REG_TABLE + 2 * irq) (T_IRQ0 + irq);
  ioapicwrite (REG_TABLE + 2 * irq + 1) (Z.shiftl cpunum 24).

(** ** picirq.c *)

Definition picinit : M unit :=
  _ ← outb (IO_PIC1 + 1) 0xFF;
  outb (IO_PIC2 + 1) 0xFF.

(** ** The clock *)

Definition CMOS_STATA : Z := 0x0a.
Definition CMOS_STATB : Z := 0x0b.
Definition CMOS_UIP : Z := Z.shiftl 1 7.
Definition SECS : Z := 0x00.
Definition MINS : Z := 0x02.
Definition HOURS : Z := 0x04.
Definition DAY : Z := 0x07.
Definition MONTH : Z := 0x08.
Definition YEAR : Z := 0x09.

(** date.h *)
Record rtcdate := Date { second : Z; minute : Z; hour : Z; day : Z; month : Z; year : Z }.
#[global] Instance rtcdate_eq_dec : EqDecision rtcdate.
Proof. solve_decision. Defined.

Section Clock.
(** The hardware: the time in seconds and whether an update is in progress at the [n]-th read of the
    data port, the date registers as functions of the time, and status register B. *)
Variables (now : nat → Z) (uip : nat → bool) (field : Z → Z → Z) (statb : Z).

Definition bcd_mode : bool := Z.land statb (Z.shiftl 1 2) =? 0.
Definition to_bcd (x : Z) : Z := 16 * (x / 10) + x mod 10.
Definition shown (r t : Z) : Z := if bcd_mode then to_bcd (field r t) else field r t.

(** The state is the number of reads so far. *)
Definition cmos_read (r : Z) : K nat Z := λ n,
  Ret (if r =? CMOS_STATB then statb else if r =? CMOS_STATA then (if uip n then CMOS_UIP else 0) else shown r (now n)) (S n).

Definition fill_rtcdate : K nat rtcdate :=
  s ← cmos_read SECS;
  m ← cmos_read MINS;
  h ← cmos_read HOURS;
  d ← cmos_read DAY;
  mo ← cmos_read MONTH;
  y ← cmos_read YEAR;
  mret (Date s m h d mo y).

(** The loop; [fuel] bounds its rounds. *)
Fixpoint cmostime_loop (fuel : nat) : K nat rtcdate :=
  match fuel with
  | O => undef "cmostime: loop"
  | S fuel =>
      t1 ← fill_rtcdate;
      a ← cmos_read CMOS_STATA;
      if negb (Z.land a CMOS_UIP =? 0) then cmostime_loop fuel
      else
        t2 ← fill_rtcdate;
        if bool_decide (t1 = t2) then mret t1 else cmostime_loop fuel
  end.

Definition CONV (x : Z) : Z := Z.shiftr x 4 * 10 + Z.land x 0xf.

Definition cmostime (fuel : nat) : K nat rtcdate :=
  sb ← cmos_read CMOS_STATB;
  let bcd := Z.land sb (Z.shiftl 1 2) =? 0 in
  t1 ← cmostime_loop fuel;
  let t1 := if bcd then Date (CONV (second t1)) (CONV (minute t1)) (CONV (hour t1)) (CONV (day t1)) (CONV (month t1)) (CONV (year t1)) else t1 in
  mret (Date (second t1) (minute t1) (hour t1) (day t1) (month t1) (year t1 + 2000)).

(** ** Proofs about the clock *)

Hypothesis Hmono : ∀ n, now n ≤ now (S n).
Hypothesis Hsecs : ∀ t, field SECS t = t mod 60.
Hypothesis Hrange : ∀ r t, 0 ≤ field r t < 100.

Lemma now_le i j : (i ≤ j)%nat → now i ≤ now j.
Proof. induction 1 as [|j _ IH]; [lia|]. pose proof (Hmono j). lia. Qed.

Lemma conv_all : forallb (λ x, CONV (to_bcd x) =? x) (range 0 100) = true.
Proof. vm_compute. reflexivity. Qed.
Lemma conv_bcd x : 0 ≤ x < 100 → CONV (to_bcd x) = x.
Proof.
  intros Hx. apply Z.eqb_eq. apply (proj1 (forallb_forall _ _) conv_all). by apply list_elem_of_In, elem_of_range.
Qed.

(** The registers at the reads from the [n]-th on. *)
Definition read_from (n : nat) : rtcdate :=
  Date (shown SECS (now n)) (shown MINS (now (n + 1)%nat)) (shown HOURS (now (n + 2)%nat)) (shown DAY (now (n + 3)%nat))
    (shown MONTH (now (n + 4)%nat)) (shown YEAR (now (n + 5)%nat)).
Lemma fill_run n : fill_rtcdate n = Ret (read_from n) (n + 6)%nat.
Proof. rw /fill_rtcdate /mbind /K_bind /read_from. cbn. by rewrite !Nat.add_succ_r Nat.add_0_r. Qed.

(** Two equal fills in less than a minute: the clock stood still. *)
Lemma same_second n : now (n + 7)%nat - now n < 60 → read_from n = read_from (n + 7) → now (n + 7)%nat = now n.
Proof.
  intros He E. injection E as E _ _ _ _ _. pose proof (now_le n (n + 7) ltac:(lia)) as Hle.
  assert (field SECS (now n) = field SECS (now (n + 7)%nat)) as Ef.
  { rw /shown in E. destruct bcd_mode; [|done]. rewrite -(conv_bcd (field SECS (now n))) // E conv_bcd //. }
  rewrite !Hsecs in Ef. Z.div_mod_to_equations. lia.
Qed.

(** What the registers show at time [t]. *)
Definition showing (t : Z) : rtcdate := Date (shown SECS t) (shown MINS t) (shown HOURS t) (shown DAY t) (shown MONTH t) (shown YEAR t).
Lemma read_still n k : now (n + k)%nat = now n → (5 ≤ k)%nat → read_from n = showing (now n).
Proof.
  intros E Hk. assert (∀ j, (j ≤ k)%nat → now (n + j)%nat = now n) as H.
  { intros j Hj. pose proof (now_le n (n + j) ltac:(lia)). pose proof (now_le (n + j) (n + k) ltac:(lia)). lia. }
  rw /read_from !H //; lia.
Qed.

Lemma cmostime_loop_wp n1 fuel : ∀ n, (∀ k, (n1 ≤ k < n1 + 26)%nat → now k = now n1 ∧ uip k = false) →
  now (n1 + 26)%nat - now n < 60 → (n < n1 + 13)%nat → (n1 - n < fuel)%nat →
  wp (cmostime_loop fuel) n (λ d n', ∃ k, (n ≤ k < n')%nat ∧ d = showing (now k)).
Proof.
  induction fuel as [|fuel IH]; intros n Hq He Hn Hf; [lia|]. cbn [cmostime_loop].
  assert (∀ j, (n < j ≤ n + 13)%nat → (n < n1)%nat → wp (cmostime_loop fuel) j (λ d n', ∃ k, (n ≤ k < n')%nat ∧ d = showing (now k))) as Hnext.
  { intros j Hj Hne. refine (wp_mono _ _ _ _ (IH j Hq _ _ _) _); [|lia|lia|].
    - pose proof (now_le n j ltac:(lia)). lia.
    - intros d n' (k&Hk&->). exists k. split; [lia|done]. }
  apply wp_bind, (wp_intro _ _ _ _ _ (fill_run n)), wp_bind. apply (wp_intro _ _ _ _ _ eq_refl). cbn [Z.eqb Pos.eqb CMOS_STATB CMOS_STATA].
  destruct (uip (n + 6)%nat) eqn:Eu.
  { apply Hnext; [lia|]. destruct (decide (n < n1)%nat); [done|]. destruct (Hq (n + 6)%nat ltac:(lia)) as [_ Hu]. congruence. }
  cbn. apply wp_bind, (wp_intro _ _ _ _ _ (fill_run (S (n + 6)))). rewrite (_ : S (n + 6) = n + 7)%nat; [lia|].
  case_bool_decide as Et.
  - apply wp_ret. exists n. split; [lia|]. apply (read_still n 7); [|lia]. apply same_second; [|done].
    pose proof (now_le (n + 7) (n1 + 26) ltac:(lia)). lia.
  - apply Hnext; [lia|]. destruct (decide (n < n1)%nat); [done|]. exfalso. apply Et.
    assert (∀ j, (j ≤ 12)%nat → now (n + j)%nat = now n) as H.
    { intros j Hj. destruct (Hq (n + j)%nat ltac:(lia)) as [-> _]. by destruct (Hq n ltac:(lia)) as [-> _]. }
    assert (now (n + 7 + 5)%nat = now (n + 7)%nat) as H' by (rewrite -Nat.add_assoc !H //; lia).
    rewrite (read_still n 7 (H 7%nat ltac:(lia)) ltac:(lia)) (read_still (n + 7) 5 H' ltac:(lia)) H //. lia.
Qed.

(** The date [t] is: what the registers stand for, the year in full. *)
Definition date_at (t : Z) : rtcdate := Date (field SECS t) (field MINS t) (field HOURS t) (field DAY t) (field MONTH t) (field YEAR t + 2000).

(** [cmostime] returns a date the clock really showed at one moment during the call (all six
    fields of that one moment, the century added), whether the clock counts in BCD or in binary, provided less than a
    minute passes; and it does return, as soon as the clock lets 26 reads pass without a tick or an update. *)
Theorem cmostime_reads_clock n0 n1 fuel : (∀ k, (n1 ≤ k < n1 + 26)%nat → now k = now n1 ∧ uip k = false) →
  now (n1 + 26)%nat - now n0 < 60 → (n0 ≤ n1)%nat → (n1 - n0 < fuel)%nat →
  wp (cmostime fuel) n0 (λ d n', ∃ k, (n0 < k < n')%nat ∧ d = date_at (now k)).
Proof.
  intros Hq He Hn Hf. apply wp_bind, (wp_intro _ _ _ _ _ eq_refl), wp_bind. cbn [Z.eqb Pos.eqb CMOS_STATB].
  refine (wp_mono _ _ _ _ (cmostime_loop_wp n1 fuel (S n0) Hq _ _ _) _); [|lia|lia|].
  { pose proof (Hmono n0). lia. }
  intros d n' (k&Hk&->). apply wp_ret. exists k. split; [lia|]. fold bcd_mode. rw /date_at /showing /shown.
  destruct bcd_mode; [|done]. cbn. by rewrite !conv_bcd.
Qed.
End Clock.

(** A BCD clock that ticks every 40 reads and announces each update one read before it. *)
Definition tick40 (n : nat) : Z := 58 + Z.of_nat n / 40.
Definition uip40 (n : nat) : bool := Nat.eqb (n mod 40) 39.
Definition field40 (r t : Z) : Z := if r =? SECS then t mod 60 else (t / 60 + r) mod 100.
Lemma cmostime_reads_clock_witness :
  wp (cmostime tick40 uip40 field40 2 20) 30%nat (λ d n', ∃ k, (30 < k < n')%nat ∧ d = date_at field40 (tick40 k)).
Proof.
  apply (cmostime_reads_clock tick40 uip40 field40 2) with (n1 := 40%nat).
  - intros n. rw /tick40. Z.div_mod_to_equations. lia.
  - intros t. reflexivity.
  - intros r t. rw /field40. destruct (r =? SECS); Z.div_mod_to_equations; lia.
  - intros k Hk. rw /tick40 /uip40. split; [Z.div_mod_to_equations; lia|]. apply Nat.eqb_neq.
    pose proof (Nat.div_mod_eq k 40). lia.
  - vm_compute. reflexivity.
  - lia.
  - lia.
Defined.

(** ** Proofs about the I/O APIC *)

(** What the redirection entry of line [i] makes of an interrupt there: nothing while masked, else the vector and the CPU. *)
Definition delivers (regs : gmap Z Z) (i : Z) : option (Z * Z) :=
  let lo := default 0 (regs !! (REG_TABLE + 2 * i)) in
  let hi := default 0 (regs !! (REG_TABLE + 2 * i + 1)) in
  if Z.testbit lo 16 then None else Some (Z.land lo 0xff, Z.shiftr hi 24).

(** The device initialisations of main.c: each enables its line, in turn. *)
Definition enable_all (es : list (Z * Z)) : M unit := for_each es (λ e, ioapicenable e.1 e.2).

(** The CPU line [i] was last enabled for. *)
Definition routed (es : list (Z * Z)) (i : Z) : option Z := snd <$> last (filter (λ e, e.1 = i) es).

Definition set_entry (i lo hi : Z) (regs : gmap Z Z) : gmap Z Z :=
  <[REG_TABLE + 2 * i + 1 := u32 hi]> (<[REG_TABLE + 2 * i := u32 lo]> regs).
Lemma write_entry i lo hi s (Q : unit → apic → Prop) :
  (∀ s', io_regs s' = set_entry i lo hi (io_regs s) → Q tt s') →
  wp (_ ← ioapicwrite (REG_TABLE + 2 * i) lo; ioapicwrite (REG_TABLE + 2 * i + 1) hi) s Q.
Proof. intros H. apply wp_bind, (wp_intro _ _ _ _ _ eq_refl), (wp_intro _ _ _ _ _ eq_refl), H. reflexivity. Qed.

Lemma delivers_entry i lo hi regs :
  delivers (set_entry i lo hi regs) i = (if Z.testbit (u32 lo) 16 then None else Some (Z.land (u32 lo) 0xff, Z.shiftr (u32 hi) 24)).
Proof. rw /delivers /set_entry lookup_insert_eq lookup_insert_ne; [lia|]. by rewrite lookup_insert_eq. Qed.
Lemma delivers_other i j lo hi regs : i ≠ j → delivers (set_entry i lo hi regs) j = delivers regs j.
Proof. intros H. rw /delivers /set_entry !lookup_insert_ne //; lia. Qed.

Lemma low_masked : forallb (λ i, Z.testbit (u32 (Z.lor INT_DISABLED (T_IRQ0 + i))) 16) (range 0 256) = true.
Proof. vm_compute. reflexivity. Qed.
Lemma low_enabled : forallb (λ i, negb (Z.testbit (u32 (T_IRQ0 + i)) 16) && (Z.land (u32 (T_IRQ0 + i)) 0xff =? T_IRQ0 + i)) (range 0 224) = true.
Proof. vm_compute. reflexivity. Qed.
Lemma range_forallb (f : Z → bool) lo hi i : forallb f (range lo hi) = true → lo ≤ i < hi → f i = true.
Proof. intros H Hi. apply (proj1 (forallb_forall _ _) H). by apply list_elem_of_In, elem_of_range. Qed.

Definition maxintr_of (s : apic) : Z := Z.land (Z.shiftr (default 0 (io_regs s !! REG_VER)) 16) 0xFF.

Lemma ioapicinit_masks ioapicid s : wp (ioapicinit ioapicid) s (λ _ s', ∀ i, 0 ≤ i ≤ maxintr_of s → delivers (io_regs s') i = None).
Proof.
  assert (maxintr_of s < 256) as Hm.
  { rw /maxintr_of. change 0xFF with (Z.ones 8). rewrite Z.land_ones; [lia|]. apply Z.mod_pos_bound. lia. }
  apply wp_bind, (wp_intro _ _ _ _ _ eq_refl), wp_bind, (wp_intro _ _ _ _ _ eq_refl), wp_bind.
  cbn [io_regs io_sel default]. fold (maxintr_of s).
  assert (∀ s0 : apic, wp (for_each (range 0 (maxintr_of s + 1)) (λ i, _ ← ioapicwrite (REG_TABLE + 2 * i) (Z.lor INT_DISABLED (T_IRQ0 + i));
     ioapicwrite (REG_TABLE + 2 * i + 1) 0)) s0 (λ _ s', ∀ i, 0 ≤ i ≤ maxintr_of s → delivers (io_regs s') i = None)) as Hloop.
  { intros s0. apply (wp_for_each _ _ (λ pre s', ∀ i, i ∈ pre → delivers (io_regs s') i = None)).
    - intros i Hi. by apply not_elem_of_nil in Hi.
    - intros pre i post s1 Hl HJ. apply write_entry. intros s2 ->. intros j Hj.
      assert (0 ≤ i < 256) as Hi. { assert (i ∈ range 0 (maxintr_of s + 1)) as Hi by (rewrite Hl; set_solver). apply elem_of_range in Hi. lia. }
      destruct (decide (i = j)) as [->|Hij].
      + rewrite delivers_entry (range_forallb _ _ _ j low_masked) //.
      + rewrite delivers_other //. apply HJ. set_solver.
    - intros s1 HJ i Hi. apply HJ, elem_of_range. lia. }
  destruct (negb _); [rewrite /when; eapply (wp_intro _ _ _ _ _ eq_refl), Hloop|apply wp_ret, Hloop].
Qed.

Lemma enable_all_routes n es : ∀ s pre, 0 ≤ n ≤ 224 → Forall (λ e, 0 ≤ e.1 < n ∧ 0 ≤ e.2 < 256) es →
  (∀ i, 0 ≤ i < n → delivers (io_regs s) i = (T_IRQ0 + i,.) <$> routed pre i) →
  wp (enable_all es) s (λ _ s', ∀ i, 0 ≤ i < n → delivers (io_regs s') i = (T_IRQ0 + i,.) <$> routed (pre ++ es) i).
Proof.
  induction es as [|[j c] es IH]; intros s pre Hn Hes Hpre.
  { apply wp_ret. by rewrite app_nil_r. }
  apply Forall_cons in Hes as [[Hj Hc] Hes]. cbn [fst snd] in Hj, Hc. apply wp_bind, write_entry. intros s' Es'.
  rewrite (_ : pre ++ (j, c) :: es = (pre ++ [(j, c)]) ++ es); [by rewrite -app_assoc|]. apply IH; [done|done|].
  intros i Hi. rewrite Es'. rw /routed filter_app. destruct (decide (j = i)) as [->|Hji].
  - pose proof (range_forallb _ _ _ i low_enabled ltac:(lia)) as [H1 H2%Z.eqb_eq]%andb_prop.
    rewrite delivers_entry (filter_cons_True _ (i, c)) // filter_nil last_snoc H2. apply negb_true_iff in H1. rewrite H1. cbn. do 2 f_equal.
    rewrite Z.shiftl_mul_pow2 ?Z.shiftr_div_pow2; [lia|lia|]. rw /u32 Z.mod_small; [lia|]. by apply Z.div_mul.
  - rewrite delivers_other // (filter_cons_False _ (j, c)) // filter_nil app_nil_r. by apply Hpre.
Qed.

(** After [ioapicinit] and any sequence of [ioapicenable]s, an interrupt on a line reaches exactly the CPU the line was last
    enabled for, with the line's own vector T_IRQ0+irq, and lines never enabled are masked. *)
Theorem ioapic_routes ioapicid es s : maxintr_of s < 224 → Forall (λ e, 0 ≤ e.1 ≤ maxintr_of s ∧ 0 ≤ e.2 < 256) es →
  wp (_ ← ioapicinit ioapicid; enable_all es) s (λ _ s', ∀ i, 0 ≤ i ≤ maxintr_of s →
    delivers (io_regs s') i = (T_IRQ0 + i,.) <$> routed es i).
Proof.
  intros Hm Hes. apply wp_bind. refine (wp_mono _ _ _ _ (ioapicinit_masks ioapicid s) _). intros _ s1 H1.
  refine (wp_mono _ _ _ _ (enable_all_routes (maxintr_of s + 1) es s1 [] _ _ _) _).
  - assert (0 ≤ maxintr_of s); [|lia]. apply Z.land_nonneg. right. lia.
  - eapply Forall_impl; [exact Hes|]. cbn. lia.
  - intros i Hi. apply H1. lia.
  - intros _ s2 H2 i Hi. apply H2. lia.
Qed.

(** main.c, ide.c and console.c on two CPUs: the keyboard on CPU 0, the disk on the last. *)
Definition apic0 : apic := Apic true ∅ [] 0 {[REG_VER := 0x170011]} [] [] ∅.
Lemma ioapic_routes_witness : wp (_ ← ioapicinit 0; enable_all [(1, 0); (14, 1)]) apic0 (λ _ s', ∀ i, 0 ≤ i ≤ maxintr_of apic0 →
    delivers (io_regs s') i = (T_IRQ0 + i,.) <$> routed [(1, 0); (14, 1)] i).
Proof.
  apply (ioapic_routes 0 [(1, 0); (14, 1)] apic0).
  - vm_compute. reflexivity.
  - change (maxintr_of apic0) with 23. repeat constructor; cbn; lia.
Defined.

(** ** Proofs about the start of another processor *)

Lemma startup_command addr : 0 ≤ addr < 2 ^ 20 → u32 (Z.lor STARTUP (Z.shiftr addr 12)) = STARTUP + addr / 4096.
Proof.
  intros Ha. rewrite Z.shiftr_div_pow2; [lia|]. apply Z.eqb_eq.
  apply (range_forallb (λ p, u32 (Z.lor STARTUP p) =? STARTUP + p) 0 256); [vm_compute; reflexivity|]. Z.div_mod_to_equations; lia.
Qed.

(** A write of ICRHI names the processor, one of ICRLO sends it a command. *)
Lemma icrhi_wp hi s (Q : unit → apic → Prop) :
  (∀ s', l_icr s' = l_icr s → lreg s' ICRHI = u32 hi → a_mem s' = a_mem s → Q tt s') → wp (lapicw ICRHI hi) s Q.
Proof. intros H. apply (wp_intro _ _ _ _ _ eq_refl), H; [done| |done]. rw /lreg. cbn [l_regs]. by rewrite lookup_insert_eq. Qed.
Lemma icr_wp lo s (Q : unit → apic → Prop) :
  (∀ s', l_icr s' = l_icr s ++ [(lreg s ICRHI, u32 lo)] → lreg s' ICRHI = lreg s ICRHI → a_mem s' = a_mem s → Q tt s') → wp (lapicw ICRLO lo) s Q.
Proof. intros H. apply (wp_intro _ _ _ _ _ eq_refl), H; [done| |done]. rw /lreg. cbn [l_regs]. by rewrite lookup_insert_ne. Qed.

(** The warm reset vector after both halves are written. *)
Lemma wrv_vector v m : 0 ≤ v < 2 ^ 16 →
  let m' := st16 (wrv + 2) v (st16 wrv 0 m) in
  ld8 m' wrv = 0 ∧ ld8 m' (wrv + 1) = 0 ∧ ld8 m' (wrv + 2) + 256 * ld8 m' (wrv + 3) = v.
Proof.
  intros Hv. cbn. generalize wrv. intros w. rw /st16 (_ : w + 2 + 1 = w + 3); [lia|].
  repeat split.
  - do 3 (rewrite ld8_st8_ne; [lia|]). by rewrite ld8_st8_eq.
  - do 2 (rewrite ld8_st8_ne; [lia|]). by rewrite ld8_st8_eq.
  - rewrite ld8_st8_eq ld8_st8_ne; [lia|]. rewrite ld8_st8_eq. rw /u8. Z.div_mod_to_equations. lia.
Qed.

(** [lapicstartap] sends exactly the four commands of the universal start-up algorithm, all to the processor named: INIT
    asserted, INIT released, and twice START-UP with the page of the code; the warm reset vector holds the code's segment. *)
Theorem lapicstartap_sequence apicid addr s : 0 ≤ apicid < 256 → 0 ≤ addr < 2 ^ 20 → addr mod 4096 = 0 →
  wp (lapicstartap apicid addr) s (λ _ s',
    l_icr s' = l_icr s ++ map (λ c, (apicid * 2 ^ 24, c))
      [Z.lor (Z.lor INIT LEVEL) ASSERT; Z.lor INIT LEVEL; STARTUP + addr / 4096; STARTUP + addr / 4096] ∧
    ld8 (a_mem s') wrv = 0 ∧ ld8 (a_mem s') (wrv + 1) = 0 ∧
    (ld8 (a_mem s') (wrv + 2) + 256 * ld8 (a_mem s') (wrv + 3)) * 16 = addr).
Proof.
  intros Hid Ha Hal. assert (u32 (Z.shiftl apicid 24) = apicid * 2 ^ 24) as Ei.
  { rewrite Z.shiftl_mul_pow2; [lia|]. rw /u32 Z.mod_small; lia. }
  assert (u16 (Z.shiftr addr 4) = addr / 16 ∧ addr / 16 * 16 = addr ∧ 0 ≤ addr / 16 < 2 ^ 16) as (Ev&Ev2&Hv).
  { rewrite Z.shiftr_div_pow2; [lia|]. rw /u16. Z.div_mod_to_equations. lia. }
  do 4 apply wp_bind, wp_modify.
  apply wp_bind, icrhi_wp. intros s1 I1 R1 M1. apply wp_bind, icr_wp. intros s2 I2 R2 M2. apply wp_bind, icr_wp. intros s3 I3 _ M3.
  change (range 0 2) with [0; 1]. cbn [for_each].
  do 2 apply wp_bind. apply icrhi_wp. intros s4 I4 R4 M4. apply icr_wp. intros s5 I5 _ M5.
  do 2 apply wp_bind. apply icrhi_wp. intros s6 I6 R6 M6. apply icr_wp. intros s7 I7 _ M7. apply wp_ret.
  rewrite Ei in R1, R4, R6. rewrite startup_command // in I5, I7. rewrite R4 in I5. rewrite R6 in I7. rewrite R2 R1 in I3. rewrite R1 in I2.
  split; [by rewrite I7 I6 I5 I4 I3 I2 I1 -!app_assoc|]. rewrite M7 M6 M5 M4 M3 M2 M1. cbn [a_mem]. rewrite Ev.
  destruct (wrv_vector (addr / 16) (a_mem s) Hv) as (H1&H2&H3). split; [exact H1|]. split; [exact H2|]. rewrite H3. exact Ev2.
Qed.

(** The second CPU, started at 0x7000. *)
Lemma lapicstartap_sequence_witness : wp (lapicstartap 1 0x7000) apic0 (λ _ s',
    l_icr s' = l_icr apic0 ++ map (λ c, (1 * 2 ^ 24, c))
      [Z.lor (Z.lor INIT LEVEL) ASSERT; Z.lor INIT LEVEL; STARTUP + 0x7000 / 4096; STARTUP + 0x7000 / 4096] ∧
    ld8 (a_mem s') wrv = 0 ∧ ld8 (a_mem s') (wrv + 1) = 0 ∧
    (ld8 (a_mem s') (wrv + 2) + 256 * ld8 (a_mem s') (wrv + 3)) * 16 = 0x7000).
Proof. apply (lapicstartap_sequence 1 0x7000 apic0); [lia|lia|reflexivity]. Defined.
