(* ===== verification/Umalloc.v ===== *)
(** * The user allocator (xv6/umalloc.c).

    Headers of eight bytes live in the memory of the process: the address of the next free block and
    the size of the block in headers.  The free blocks form a ring in address order that starts at
    the static header [base].  [heap_ok u F A]: the ring of [u] holds the blocks [F], never two adjacent ones,
    and the blocks [A] are in use; all of them are apart.  The theorems: [malloc] hands out a block apart from all blocks in use,
    large enough for the request, and [free] takes any of them back; neither touches a byte of the other
    blocks in use.  A request of two gigabytes breaks this: the product in
    [morecore] does not fit an int. *)
From stdpp Require Import sorting.
From S2P Require Import Prelude CMem Spinlock.
Local Open Scope Z_scope.

(** ** State and operations *)

Record heap := Heap { h_mem : mem; h_freep : Z; h_brk : Z }.

(** sizeof(Header) *)
Definition HDR : Z := 8.
Definition hadd (p n : Z) : Z := u32 (p + HDR * n).

Definition ptr (p : Z) : K heap Z := gets (λ u, ld32 (h_mem u) p).
Definition sizeof (p : Z) : K heap Z := gets (λ u, ld32 (h_mem u) (p + 4)).
Definition store (a v : Z) : K heap unit := modify (λ u, Heap (st32 a v (h_mem u)) (h_freep u) (h_brk u)).
Definition set_ptr (p v : Z) : K heap unit := store p v.
Definition set_sizeof (p v : Z) : K heap unit := store (p + 4) v.
Definition set_freep (p : Z) : K heap unit := modify (λ u, Heap (h_mem u) p (h_brk u)).

Section Umalloc.
(** Address of the static header; whether the kernel finds the pages to grow a process between two sizes. *)
Context (base : Z) (grants : Z → Z → bool).

(** What growproc makes of the size of the process. *)
Definition grow (sz n : Z) : option Z :=
  let new := u32 (sz + n) in
  let nz r := if r =? 0 then None else Some r in
  if 0 <? n then
    if KERNBASE <=? new then None
    else if new <? sz then nz sz
    else if grants sz new then nz new else None
  else if n <? 0 then nz (if sz <=? new then sz else new)
  else Some sz.

(** The system call; its argument is an int. *)
Definition sbrk (n : Z) : K heap Z :=
  b ← gets h_brk;
  match grow b (s32 n) with
  | None => mret (u32 (-1))
  | Some b' => _ ← modify (λ u, Heap (h_mem u) (h_freep u) b'); mret b
  end.

(** Headers that fit below the break: a bound for the blocks of the ring. *)
Definition headers (u : heap) : nat := S (S (Z.to_nat (h_brk u / HDR))).

(** The search of [free] for the free block before [bp]. *)
Fixpoint free_loop (fuel : nat) (bp p : Z) : K heap Z :=
  match fuel with
  | O => undef "free: loop"
  | S k =>
      nx ← ptr p;
      if (p <? bp) && (bp <? nx) then mret p
      else if (nx <=? p) && ((p <? bp) || (bp <? nx)) then mret p
      else free_loop k bp nx
  end.

Definition free (ap : Z) : K heap unit :=
  let bp := u32 (ap - HDR) in
  fuel ← gets headers;
  fp ← gets h_freep;
  p ← free_loop fuel bp fp;
  bs ← sizeof bp;
  nx ← ptr p;
  _ ← (if hadd bp bs =? nx then
         ns ← sizeof nx;
         _ ← set_sizeof bp (u32 (bs + ns));
         nx ← ptr p;
         nn ← ptr nx;
         set_ptr bp nn
       else set_ptr bp nx);
  ps ← sizeof p;
  _ ← (if hadd p ps =? bp then
         bs ← sizeof bp;
         _ ← set_sizeof p (u32 (ps + bs));
         bn ← ptr bp;
         set_ptr p bn
       else set_ptr p bp);
  set_freep p.

Definition morecore (nu : Z) : K heap Z :=
  let nu := if nu <? 4096 then 4096 else nu in
  p ← sbrk (u32 (nu * HDR));
  if p =? u32 (-1) then mret 0
  else
    _ ← set_sizeof p nu;
    _ ← free (hadd p 1);
    gets h_freep.

(** The search of [malloc]. *)
Fixpoint malloc_loop (fuel : nat) (nunits prevp p : Z) : K heap Z :=
  match fuel with
  | O => undef "malloc: loop"
  | S k =>
      ps ← sizeof p;
      if nunits <=? ps then
        p ← (if ps =? nunits then
               nx ← ptr p;
               _ ← set_ptr prevp nx;
               mret p
             else
               _ ← set_sizeof p (u32 (ps - nunits));
               ps ← sizeof p;
               let p := hadd p ps in
               _ ← set_sizeof p nunits;
               mret p);
        _ ← set_freep prevp;
        mret (hadd p 1)
      else
        fp ← gets h_freep;
        if p =? fp then
          p ← morecore nunits;
          if p =? 0 then mret 0
          else nx ← ptr p; malloc_loop k nunits p nx
        else nx ← ptr p; malloc_loop k nunits p nx
  end.

Definition malloc (nbytes : Z) : K heap Z :=
  let nunits := u32 (u32 (nbytes + HDR - 1) / HDR + 1) in
  fp ← gets h_freep;
  prevp ← (if fp =? 0 then
             _ ← set_freep base;
             _ ← set_ptr base base;
             _ ← set_sizeof base 0;
             mret base
           else mret fp);
  p ← ptr prevp;
  n ← gets headers;
  malloc_loop (2 * n + 3) nunits prevp p.

End Umalloc.

(** ** Blocks and the ring *)

(** A block: its address and its size in headers. *)
Notation blk := (Z * Z)%type.
Definition fin (b : blk) : Z := b.1 + HDR * b.2.
Definition within (b : blk) (x : Z) : Prop := b.1 ≤ x < fin b.
Definition cover (l : list blk) (x : Z) : Prop := ∃ b, b ∈ l ∧ within b x.
Definition hd_addr (l : list blk) (e : Z) : Z := match l with [] => e | b :: _ => b.1 end.

(** The headers of [l] in memory, linked in order; the last one points to [e]. *)
Fixpoint seg (m : mem) (l : list blk) (e : Z) : Prop :=
  match l with
  | [] => True
  | b :: l' => ld32 m b.1 = hd_addr l' e ∧ ld32 m (b.1 + 4) = b.2 ∧ seg m l' e
  end.

(** Blocks in address order with a gap between them. *)
Definition gap (b c : blk) : Prop := fin b < c.1.
Definition spaced (lo : Z) (l : list blk) : Prop := Forall (λ b, lo ≤ b.1 ∧ 1 ≤ b.2) l ∧ StronglySorted gap l.
Definition lower (b c : blk) : Prop := b.1 + HDR ≤ c.1.

(** The bytes outside [lo, hi) are the same. *)
Definition same_out (lo hi : Z) (m m' : mem) : Prop := ∀ x, x < lo ∨ hi ≤ x → ld8 m' x = ld8 m x.

Lemma cover_app l1 l2 x : cover (l1 ++ l2) x ↔ cover l1 x ∨ cover l2 x.
Proof. rw /cover. setoid_rewrite elem_of_app. naive_solver. Qed.
Lemma cover_cons b l x : cover (b :: l) x ↔ within b x ∨ cover l x.
Proof. rw /cover. setoid_rewrite elem_of_cons. naive_solver. Qed.
Lemma cover_nil x : ¬ cover [] x.
Proof. intros (b&Hb&_). by apply elem_of_nil in Hb. Qed.

Lemma ld32_same m m' a : (∀ x, a ≤ x < a + 4 → ld8 m' x = ld8 m x) → ld32 m' a = ld32 m a.
Proof. intros H. rw /ld32 !H //; lia. Qed.

Lemma seg_same m m' l e :
  (∀ b x, b ∈ l → b.1 ≤ x < b.1 + HDR → ld8 m' x = ld8 m x) → seg m l e → seg m' l e.
Proof.
  change HDR with 8. induction l as [|b l IH]; intros H; [done|]. intros (H1&H2&H3). cbn [seg].
  rewrite -H1 -H2. split_and!; [apply ld32_same; intros x Hx; apply (H b); [by left|lia]..|].
  apply IH; [|done]. intros c x Hc. apply H. by right.
Qed.

Lemma seg_app m l1 l2 e : seg m (l1 ++ l2) e ↔ seg m l1 (hd_addr l2 e) ∧ seg m l2 e.
Proof.
  induction l1 as [|b l1 IH]; cbn [seg app]; [naive_solver|]. rw IH. destruct l1; naive_solver.
Qed.

Lemma seg_lookup m l e k b :
  seg m l e → l !! k = Some b → ld32 m b.1 = hd_addr (drop (S k) l) e ∧ ld32 m (b.1 + 4) = b.2.
Proof.
  intros H Hk. rewrite -(take_drop_middle l k b Hk) in H. apply seg_app in H as [_ (H1&H2&_)]. done.
Qed.

Lemma same_out_trans lo hi m1 m2 m3 : same_out lo hi m1 m2 → same_out lo hi m2 m3 → same_out lo hi m1 m3.
Proof. intros H1 H2 x Hx. by rewrite H2 // H1. Qed.
Lemma same_out_st lo hi m a v : lo ≤ a → a + 4 ≤ hi → same_out lo hi m (st32 a v m).
Proof. intros H1 H2 x Hx. apply ld8_st32_ne. lia. Qed.

(** *** The ring *)

(** Position after [k] in a ring of [n] blocks, and the steps from one to another. *)
Definition after (n k : nat) : nat := if decide (S k < n)%nat then S k else 0%nat.
Definition dist (n k i : nat) : nat := if decide (k ≤ i)%nat then (i - k)%nat else (n - k + i)%nat.

Lemma after_dist n k i : (k < n → i < n → k ≠ i → dist n k i = S (dist n (after n k) i))%nat.
Proof. intros Hk Hi Hne. rw /after /dist. repeat case_decide; lia. Qed.
Lemma after_lt n k : (k < n → after n k < n)%nat.
Proof. intros. rw /after. case_decide; lia. Qed.

Lemma seg_after m l k b c :
  seg m l (hd_addr l 0) → l !! k = Some b → l !! after (length l) k = Some c →
  ld32 m b.1 = c.1 ∧ ld32 m (b.1 + 4) = b.2.
Proof.
  intros H Hk Hc. destruct (seg_lookup m l _ k b H Hk) as [-> ->]. split; [|done]. rw /after in Hc. case_decide as Hd.
  - by rewrite (drop_S l c (S k) Hc).
  - rewrite drop_ge /=; [lia|]. destruct l; [done|]. simpl in Hc. by simplify_eq.
Qed.

Lemma sorted_lookup (l : list blk) i j b c :
  StronglySorted lower l → (i < j)%nat → l !! i = Some b → l !! j = Some c → b.1 + HDR ≤ c.1.
Proof.
  intros H Hij Hi Hj. rewrite -(take_drop_middle l i b Hi) in H. apply StronglySorted_app_1_r in H.
  apply StronglySorted_inv in H as [_ H]. rewrite Forall_forall in H. apply (H c).
  apply list_elem_of_lookup_2 with (j - S i)%nat. rewrite lookup_drop. by replace (S i + (j - S i))%nat with j by lia.
Qed.

(** The search of [free] ends at the last block below [bp]. *)
Lemma free_loop_wp u W i p bp fuel : ∀ k b (Q : Z → heap → Prop),
  seg (h_mem u) W (hd_addr W 0) → StronglySorted lower W → W !! i = Some p → hd_addr W 0 ≤ bp →
  (∀ j c, W !! j = Some c → if decide (j ≤ i)%nat then c.1 < bp else bp < c.1) →
  W !! k = Some b → (dist (length W) k i < fuel)%nat → Q p.1 u → wp (free_loop fuel bp b.1) u Q.
Proof.
  induction fuel as [|fuel IH]; intros k b Q Hseg Hso Hi Hlo Hbp Hk Hf HQ; [lia|]. cbn [free_loop].
  pose proof (lookup_lt_Some _ _ _ Hk) as Hkl. pose proof (lookup_lt_Some _ _ _ Hi) as Hil.
  destruct (lookup_lt_is_Some_2 W (after (length W) k) (after_lt _ _ Hkl)) as [c Hc].
  destruct (seg_after _ _ _ _ _ Hseg Hk Hc) as [Enx _]. apply wp_bind, wp_gets. rewrite Enx.
  pose proof (Hbp _ _ Hk) as Hb. pose proof (Hbp _ _ Hc) as Hcb.
  destruct (decide (k = i)) as [->|Hne].
  - rewrite Hi in Hk. simplify_eq. rewrite decide_True in Hb; [lia|]. rewrite (proj2 (Z.ltb_lt _ _) Hb). rw /after in Hc, Hcb. destruct (decide (S i < length W)%nat) as [Hlast|Hlast].
    + rewrite decide_False in Hcb; [lia|]. rewrite (proj2 (Z.ltb_lt _ _) Hcb). by apply wp_ret.
    + destruct W as [|w W]; [done|]. simpl in Hc, Hlo. simplify_eq. rewrite (proj2 (Z.ltb_ge _ _) Hlo). cbn [andb orb].
      assert (c.1 ≤ b.1) as Hle; [|rewrite (proj2 (Z.leb_le _ _) Hle); by apply wp_ret].
      destruct i as [|i]; [simpl in Hi; simplify_eq; lia|]. pose proof (sorted_lookup _ 0 (S i) c b Hso ltac:(lia) eq_refl Hi). change HDR with 8 in *. lia.
  - assert (wp (free_loop fuel bp c.1) u Q) as Hrec.
    { apply (IH (after (length W) k) c); try done. rewrite (after_dist _ _ _ Hkl Hil Hne) in Hf. lia. }
    assert ((b.1 <? bp) && (bp <? c.1) = false ∧ (c.1 <=? b.1) && ((b.1 <? bp) || (bp <? c.1)) = false) as [-> ->]; [|done].
    rw /after in Hc, Hcb. destruct (decide (S k < length W)%nat) as [Hlast|Hlast].
    + pose proof (sorted_lookup _ k (S k) b c Hso ltac:(lia) Hk Hc) as Hbc. change HDR with 8 in *. destruct (Z.leb_spec c.1 b.1); [lia|]. split; [|done].
      repeat case_decide; destruct (Z.ltb_spec b.1 bp), (Z.ltb_spec bp c.1); done || lia.
    + destruct W as [|w W]; [done|]. simpl in Hc, Hlo. simplify_eq. rewrite decide_False in Hb; [lia|].
      destruct (Z.ltb_spec b.1 bp), (Z.ltb_spec bp c.1); lia.
Qed.

(** *** Joining blocks *)

(** A released block and the free blocks above it, joined when they touch. *)
Definition join (b : blk) (H : list blk) : list blk :=
  match H with
  | c :: H' => if fin b =? c.1 then (b.1, b.2 + c.2) :: H' else b :: H
  | [] => [b]
  end.

Definition with_mem (m : mem) (u : heap) : heap := Heap m (h_freep u) (h_brk u).

Section Joins.
Context (e : Z).

Lemma hadd_fin b : 0 ≤ b.1 → fin b < 2 ^ 32 → 0 ≤ b.2 → hadd b.1 b.2 = fin b.
Proof. intros H0 H1 H2. rw /hadd /fin. change HDR with 8 in *. apply u32_small. rw /fin in H1. change HDR with 8 in *. lia. Qed.

Definition size_ok (H : list blk) : Prop := Forall (λ c, 0 ≤ c.1 ∧ 1 ≤ c.2 ∧ fin c < 2 ^ 32) H.

(** The block above. *)
Lemma join_up_wp {X} u p b H (k : K heap X) (Q : X → heap → Prop) :
  ld32 (h_mem u) p = hd_addr H e → ld32 (h_mem u) (b.1 + 4) = b.2 → seg (h_mem u) H e →
  size_ok (b :: H) → p + HDR ≤ b.1 → Forall (λ c, fin b ≤ c.1) H → 0 ≤ e < b.1 →
  (∀ m, same_out b.1 (b.1 + HDR) (h_mem u) m → seg m (join b H) e → wp k (with_mem m u) Q) →
  wp (nx ← ptr p;
      _ ← (if hadd b.1 b.2 =? nx then
             ns ← sizeof nx; _ ← set_sizeof b.1 (u32 (b.2 + ns)); nx ← ptr p; nn ← ptr nx; set_ptr b.1 nn
           else set_ptr b.1 nx);
      k) u Q.
Proof.
  intros Hp Hb Hseg [[Hb0 [Hb1 Hb2]] HH]%Forall_cons Hpb Hab He HQ. change HDR with 8 in *. assert (fin b = b.1 + 8 * b.2) as Hfb by done. apply wp_bind, wp_gets. rewrite Hp hadd_fin //; [lia|]. apply wp_bind.
  assert (∀ m, same_out b.1 (b.1 + 8) (h_mem u) m → ∀ H', incl H' H → seg (h_mem u) H' e → seg m H' e) as Hkeep.
  { intros m Hm H' Hi. apply seg_same. intros c x Hc Hx. apply Hm. rewrite Forall_forall in Hab.
    specialize (Hab c). rw /fin in Hab. change HDR with 8 in *. apply list_elem_of_In, Hi, list_elem_of_In, Hab in Hc. lia. }
  destruct H as [|c H]; cbn [hd_addr join] in *.
  - destruct (Z.eqb_spec (fin b) e) as [E|_]; [rw /fin in E; change HDR with 8 in *; lia|]. apply wp_modify, HQ.
    + apply same_out_st; lia.
    + cbn [seg hd_addr h_mem]. split_and!; [|rewrite ld32_st32_ne //; lia|done]. apply ld32_st32_eq. lia.
  - apply Forall_cons in Hab as [Hbc Hab]. apply Forall_cons in HH as [[Hc0 [Hc1 Hc2]] HH]. destruct Hseg as (S1&S2&S3). pose proof (ld32_range (h_mem u) c.1).
    destruct (Z.eqb_spec (fin b) c.1) as [E|Hne].
    + apply wp_bind, wp_gets. rewrite S2. apply wp_bind, wp_modify. apply wp_bind, wp_gets. cbn [h_mem]. rewrite ld32_st32_ne; [lia|].
      rewrite Hp. apply wp_bind, wp_gets. cbn [h_mem]. rewrite ld32_st32_ne; [rw /fin in E; change HDR with 8 in *; lia|]. rewrite S1.
      assert (fin (b.1, b.2 + c.2) = fin c) as E2 by (rw /fin /= in E |- *; change HDR with 8 in *; lia).
      rewrite u32_small; [rw /fin /= in E2, Hc2; change HDR with 8 in *; lia|].
      assert (same_out b.1 (b.1 + 8) (h_mem u) (st32 b.1 (hd_addr H e) (st32 (b.1 + 4) (b.2 + c.2) (h_mem u)))) as Hm.
      { eapply same_out_trans; apply same_out_st; lia. }
      apply wp_modify, HQ; [exact Hm|]. cbn [seg h_mem fst snd]. split_and!.
      * apply ld32_st32_eq. rewrite -S1. lia.
      * rewrite ld32_st32_ne; [lia|]. apply ld32_st32_eq. rw /fin /= in E2, Hc2. change HDR with 8 in *. lia.
      * apply (Hkeep _ Hm); [|done]. by apply incl_tl, incl_refl.
    + assert (same_out b.1 (b.1 + 8) (h_mem u) (st32 b.1 c.1 (h_mem u))) as Hm by (apply same_out_st; lia).
      apply wp_modify, HQ; [exact Hm|]. change (seg ?m (b :: c :: H) e) with (ld32 m b.1 = c.1 ∧ ld32 m (b.1 + 4) = b.2 ∧ seg m (c :: H) e).
      split; [|split].
      * apply ld32_st32_eq. rw /fin in Hc2. change HDR with 8 in *. lia.
      * rewrite ld32_st32_ne //. lia.
      * by apply (Hkeep _ Hm (c :: H)); [apply incl_refl|].
Qed.

(** The block below; [G] are the blocks further down. *)
Lemma join_down_wp {X} u p G b H (k : K heap X) (Q : X → heap → Prop) :
  seg (h_mem u) (b :: H) e → seg (h_mem u) G p.1 → ld32 (h_mem u) (p.1 + 4) = p.2 →
  size_ok (b :: H) → 0 ≤ p.1 → 0 ≤ p.2 → fin p < 2 ^ 32 → 0 ≤ e < 2 ^ 32 →
  Forall (λ c, p.1 + HDR ≤ c.1) (b :: H) → Forall (λ c, c.1 + HDR ≤ p.1) G →
  (∀ m, same_out p.1 (p.1 + HDR) (h_mem u) m → seg m (G ++ join p (b :: H)) e → wp k (with_mem m u) Q) →
  wp (ps ← sizeof p.1;
      _ ← (if hadd p.1 ps =? b.1 then
             bs ← sizeof b.1; _ ← set_sizeof p.1 (u32 (ps + bs)); bn ← ptr b.1; set_ptr p.1 bn
           else set_ptr p.1 b.1);
      k) u Q.
Proof.
  intros Hseg HG Hps [[Hb0 [Hb1 Hb2]] HH]%Forall_cons Hp0 Hp1 Hp2 He Hup Hlow HQ. change HDR with 8 in *.
  assert (fin p = p.1 + 8 * p.2) as Hfp by done. assert (fin b = b.1 + 8 * b.2) as Hfb by done.
  apply wp_bind, wp_gets. rewrite Hps hadd_fin //. apply wp_bind.
  assert (∀ m, same_out p.1 (p.1 + 8) (h_mem u) m → seg m G p.1 ∧ seg m (b :: H) e) as Hkeep.
  { intros m Hm. rewrite -> Forall_forall in Hup, Hlow. split; (eapply seg_same; [|eassumption]); intros c x Hc Hx; apply Hm; change HDR with 8 in *.
    - specialize (Hlow c Hc). lia.
    - specialize (Hup c Hc). simpl in Hup. lia. }
  apply Forall_cons in Hup as [Hpb _]. destruct Hseg as (S1&S2&S3). pose proof (ld32_range (h_mem u) b.1). rw /join in HQ.
  destruct (Z.eqb_spec (fin p) b.1) as [E|Hne].
  - apply wp_bind, wp_gets. rewrite S2. apply wp_bind, wp_modify. apply wp_bind, wp_gets. cbn [h_mem]. rewrite ld32_st32_ne; [lia|]. rewrite S1.
    assert (same_out p.1 (p.1 + 8) (h_mem u) (st32 p.1 (hd_addr H e) (st32 (p.1 + 4) (u32 (p.2 + b.2)) (h_mem u)))) as Hm.
    { eapply same_out_trans; apply same_out_st; lia. }
    destruct (Hkeep _ Hm) as [K1 (_&_&K2)]. apply wp_modify, HQ; [exact Hm|]. apply seg_app. split; [exact K1|]. cbn [seg fst snd h_mem]. split_and!.
    + apply ld32_st32_eq. rewrite -S1. lia.
    + rewrite u32_small; [lia|]. rewrite ld32_st32_ne; [lia|]. apply ld32_st32_eq. lia.
    + exact K2.
  - assert (same_out p.1 (p.1 + 8) (h_mem u) (st32 p.1 b.1 (h_mem u))) as Hm by (apply same_out_st; lia).
    destruct (Hkeep _ Hm) as [K1 K2]. apply wp_modify, HQ; [exact Hm|]. apply seg_app. split; [exact K1|]. split; [|split].
    + apply ld32_st32_eq. simpl. lia.
    + cbn [h_mem]. rewrite ld32_st32_ne //. lia.
    + exact K2.
Qed.
End Joins.

(** *** Order *)

Lemma fin_ge c : 1 ≤ c.2 → c.1 + HDR ≤ fin c.
Proof. rw /fin. change HDR with 8. lia. Qed.

Lemma spaced_nil lo : spaced lo [].
Proof. split; constructor. Qed.

Lemma spaced_app lo l1 l2 :
  spaced lo (l1 ++ l2) ↔ spaced lo l1 ∧ spaced lo l2 ∧ (∀ b c, b ∈ l1 → c ∈ l2 → gap b c).
Proof. rw /spaced Forall_app StronglySorted_app. naive_solver. Qed.

Lemma spaced_cons lo b l :
  spaced lo (b :: l) ↔ (lo ≤ b.1 ∧ 1 ≤ b.2) ∧ spaced lo l ∧ Forall (gap b) l.
Proof.
  rw /spaced Forall_cons. split.
  - intros [[Hb Hl] [Hs Hf]%StronglySorted_inv]. done.
  - intros (Hb&[Hl Hs]&Hf). split; [done|]. by constructor.
Qed.

Lemma spaced_sizes lo l b : spaced lo l → b ∈ l → lo ≤ b.1 ∧ 1 ≤ b.2.
Proof. intros [H _] Hb. rewrite Forall_forall in H. by apply H. Qed.

Lemma join_hd b H : ∃ n J, join b H = (b.1, n) :: J.
Proof. destruct b as [a n], H as [|c H]; cbn [join]; [by eauto|]. destruct (_ =? _); eauto. Qed.

Lemma join_from b H c : Forall (λ d, b.1 ≤ d.1) H → c ∈ join b H → b.1 ≤ c.1.
Proof.
  intros Hf. destruct H as [|d H]; cbn [join].
  - intros ->%list_elem_of_singleton. lia.
  - apply Forall_cons in Hf as [Hd Hf]. rewrite Forall_forall in Hf. destruct (_ =? _); intros [->|Hc]%elem_of_cons; simpl; [lia|by apply Hf|lia|].
    apply elem_of_cons in Hc as [->|Hc]; [done|by apply Hf].
Qed.

Lemma join_spaced lo b H :
  lo ≤ b.1 → 1 ≤ b.2 → Forall (λ c, fin b ≤ c.1) H → spaced lo H → spaced lo (join b H).
Proof.
  intros Hlo Hb Hab Hs. destruct H as [|c H]; cbn [join]; [apply spaced_cons; split_and!; [done|done|apply spaced_nil|by constructor]|].
  pose proof Hs as Hs0. apply spaced_cons in Hs as ((Hc1&Hc2)&Hs&Hg). apply Forall_cons in Hab as [Hbc Hab].
  destruct (Z.eqb_spec (fin b) c.1) as [E|Hne]; apply spaced_cons; simpl; split_and!; try done; [lia| |].
  - eapply Forall_impl; [exact Hg|]. intros d. rw /gap /fin /= in E |- *. lia.
  - apply Forall_cons. split; [rw /gap; lia|]. eapply Forall_impl; [exact Hg|]. intros d. pose proof (fin_ge c Hc2). change HDR with 8 in *. rw /gap. lia.
Qed.

Lemma join_cover b H x : 0 ≤ b.2 → Forall (λ c, 0 ≤ c.2) H → cover (join b H) x ↔ within b x ∨ cover H x.
Proof.
  intros Hb HH. destruct H as [|c H]; cbn [join]; [rewrite cover_cons; naive_solver|]. apply Forall_cons in HH as [Hc _].
  destruct (Z.eqb_spec (fin b) c.1) as [E|]; rewrite !cover_cons; [|done].
  assert (within (b.1, b.2 + c.2) x ↔ within b x ∨ within c x) as ->; [|naive_solver].
  rw /within /fin /= in E |- *. change HDR with 8 in *. lia.
Qed.

Lemma join_top top b H : fin b ≤ top → Forall (λ c, fin c ≤ top) H → Forall (λ c, fin c ≤ top) (join b H).
Proof.
  intros Hb HH. destruct H as [|c H]; cbn [join]; [by constructor|]. pose proof HH as [Hc HH']%Forall_cons.
  destruct (Z.eqb_spec (fin b) c.1) as [E|]; constructor; try done. rw /fin /= in E, Hc |- *. change HDR with 8 in *. lia.
Qed.

Lemma join_length b H : (length (join b H) ≤ S (length H))%nat.
Proof. destruct H as [|c H]; cbn [join]; [done|]. destruct (_ =? _); simpl; lia. Qed.

(** The blocks below and above one that overlaps none of them. *)
Lemma split_at lo l b :
  spaced lo l → 1 ≤ b.2 → (∀ x, within b x → ¬ cover l x) →
  ∃ l1 l2, l = l1 ++ l2 ∧ Forall (λ c, fin c ≤ b.1) l1 ∧ Forall (λ c, fin b ≤ c.1) l2.
Proof.
  intros Hs Hb. induction l as [|c l IH]; intros Hd; [by exists [], []|]. apply spaced_cons in Hs as ((Hc1&Hc2)&Hs&Hg).
  assert (fin c ≤ b.1 ∨ fin b ≤ c.1) as [Hlo|Hhi].
  { destruct (Z.leb_spec (fin c) b.1); [by left|]. destruct (Z.leb_spec (fin b) c.1); [by right|].
    pose proof (fin_ge b Hb). pose proof (fin_ge c Hc2). change HDR with 8 in *. destruct (Hd (Z.max b.1 c.1)); [|apply cover_cons; left]; rw /within; lia. }
  - destruct IH as (l1&l2&->&H1&H2); [done|intros x Hx Hcx; apply (Hd x Hx), cover_cons; by right|].
    exists (c :: l1), l2. split_and!; [done|by constructor|done].
  - exists [], (c :: l). split_and!; [done|constructor|]. constructor; [done|]. eapply Forall_impl; [exact Hg|]. intros d Hd'.
    pose proof (fin_ge c Hc2). rw /gap in Hd'. change HDR with 8 in *. lia.
Qed.

(** ** The invariant *)

Fixpoint apart_all (A : list blk) : Prop :=
  match A with
  | [] => True
  | b :: A' => (∀ x, within b x → ¬ cover A' x) ∧ apart_all A'
  end.

#[global] Instance cover_perm : Proper ((≡ₚ) ==> eq ==> iff) cover.
Proof. intros A A' HA x ? <-. rw /cover. by setoid_rewrite HA. Qed.
#[global] Instance apart_all_perm : Proper ((≡ₚ) ==> iff) apart_all.
Proof.
  intros A A' HA. induction HA as [|b A A' HA IH|b c A|A A' A'' _ IH1 _ IH2]; cbn [apart_all]; [done| | |by rw IH1].
  - rw IH. by setoid_rewrite HA.
  - setoid_rewrite cover_cons. naive_solver.
Qed.

Section Heap.
Context (base : Z).
Notation ring F := ((base, 0) :: F).

Definition live (u : heap) (b : blk) : Prop :=
  ld32 (h_mem u) (b.1 + 4) = b.2 ∧ 1 ≤ b.2 ∧ base + HDR ≤ b.1 ∧ fin b ≤ h_brk u.

Record heap_ok (u : heap) (F A : list blk) : Prop := {
  ho_base : 0 < base;
  ho_brk : base + HDR ≤ h_brk u ≤ KERNBASE;
  ho_seg : seg (h_mem u) (ring F) base;
  ho_spaced : spaced (base + HDR) F;
  ho_freep : ∃ n, (h_freep u, n) ∈ ring F;
  ho_top : Forall (λ b, fin b ≤ h_brk u) F;
  ho_live : Forall (live u) A;
  ho_free : ∀ x, cover A x → ¬ cover F x;
  ho_apart : apart_all A
}.

Lemma heap_ok_perm u F A A' : A ≡ₚ A' → heap_ok u F A → heap_ok u F A'.
Proof.
  intros HA [H1 H2 H3 H4 H5 H6 H7 H8 H9]. split; try done.
  - by rewrite -HA.
  - intros x. rewrite -HA. apply H8.
  - by rewrite -HA.
Qed.

Lemma ring_sorted F : spaced (base + HDR) F → StronglySorted lower (ring F).
Proof.
  intros [Hf Hs]. constructor.
  - induction Hs as [|b l Hs IH Hb]; [constructor|]. apply Forall_cons in Hf as [[Hb1 Hb2] Hf]. constructor; [by apply IH|].
    eapply Forall_impl; [exact Hb|]. intros c Hc. pose proof (fin_ge b Hb2). rw /gap in Hc. rw /lower. lia.
  - eapply Forall_impl; [exact Hf|]. intros c [Hc _]. exact Hc.
Qed.

(** The place of a block in the ring. *)
Lemma ring_split F b :
  spaced (base + HDR) F → base + HDR ≤ b.1 → 1 ≤ b.2 → (∀ x, within b x → ¬ cover F x) →
  ∃ G p H, ring F = G ++ p :: H ∧ Forall (λ c, fin c ≤ b.1 ∧ c.1 + HDR ≤ b.1) (G ++ [p]) ∧ Forall (λ c, fin b ≤ c.1) H.
Proof.
  intros Hs Hb0 Hb Hd. destruct (split_at _ F b Hs Hb Hd) as (l1&H&->&Hlo&Hhi).
  destruct (exists_last (l := ring l1)) as (G&p&E); [done|]. exists G, p, H. split_and!; [|rewrite -E|done].
  - rewrite -[ring (l1 ++ H)]/(ring l1 ++ H) E -app_assoc. done.
  - constructor; [simpl; rw /fin /=; change HDR with 8 in *; lia|]. apply spaced_app in Hs as [[Hs _] _].
    rewrite !Forall_forall in Hlo, Hs |- *. intros c Hc. specialize (Hlo c Hc). destruct (Hs c Hc) as [_ Hc2]. pose proof (fin_ge c Hc2). lia.
Qed.

(** The ring with the block added. *)
Lemma ring_add F b G p H top :
  spaced (base + HDR) F → base + HDR ≤ b.1 → 1 ≤ b.2 → ring F = G ++ p :: H →
  Forall (λ c, fin c ≤ b.1 ∧ c.1 + HDR ≤ b.1) (G ++ [p]) → Forall (λ c, fin b ≤ c.1) H →
  Forall (λ c, fin c ≤ top) F → fin b ≤ top →
  ∃ F', ring F' = G ++ join p (join b H) ∧ spaced (base + HDR) F' ∧ (∀ x, cover F' x ↔ cover F x ∨ within b x) ∧
    Forall (λ c, fin c ≤ top) F' ∧ (length F' ≤ S (length F))%nat ∧ ∃ n, (p.1, n) ∈ ring F'.
Proof.
  intros Hs Hb0 Hb E Hlo Hhi Ht Htb.
  assert (Forall (λ d, b.1 ≤ d.1) H) as Hhi'.
  { eapply Forall_impl; [exact Hhi|]. intros d Hd. pose proof (fin_ge b Hb). simpl in Hd. change HDR with 8 in *. lia. }
  destruct G as [|g G].
  - simpl in E. simplify_eq. exists (join b H). pose proof (join_length b H).
    assert (join (base, 0) (join b H) = (base, 0) :: join b H) as Ej.
    { destruct (join_hd b H) as (n&J&->). cbn [join fst]. destruct (Z.eqb_spec (fin (base, 0)) b.1) as [E|]; [|done].
      rw /fin /= in E. change HDR with 8 in *. lia. }
    rewrite Ej. split_and!; [done|by apply join_spaced| |by apply join_top|done|].
    + intros x. rewrite join_cover; [lia|eapply Forall_impl; [exact (proj1 Hs)|simpl; lia]|]. tauto.
    + exists 0. by left.
  - simpl in E. injection E as <- EF. subst F. pose proof Hs as (HG&Hs2&HGg)%spaced_app. apply spaced_cons in Hs2 as ((Hp1&Hp2)&HH&Hpg).
    apply Forall_app in Ht as [HtG [Htp HtH]%Forall_cons]. cbn [app] in Hlo. apply Forall_cons in Hlo as [_ Hlo]. apply Forall_app in Hlo as [_ [[Hlo1 Hlo2] _]%Forall_cons].
    assert (Forall (λ d, p.1 ≤ d.1) (join b H)) as Hpj.
    { rewrite Forall_forall. intros d Hd. pose proof (join_from b H d Hhi' Hd). change HDR with 8 in *. lia. }
    assert (Forall (λ c, fin p ≤ c.1) (join b H)) as Hpj2.
    { rewrite Forall_forall. intros d Hd. pose proof (join_from b H d Hhi' Hd). lia. }
    exists (G ++ join p (join b H)). split_and!; [done| | | | |].
    + apply spaced_app. split_and!; [done|by apply join_spaced; [..|by apply join_spaced]|]. intros c d Hc Hd.
      pose proof (join_from p _ d Hpj Hd). specialize (HGg c p Hc ltac:(by left)). rw /gap in HGg |- *. lia.
    + intros x. rewrite !cover_app cover_cons join_cover; [lia| |].
      { eapply Forall_impl; [exact (proj1 (join_spaced _ _ _ Hb0 Hb Hhi HH))|simpl; lia]. }
      rewrite join_cover; [lia|eapply Forall_impl; [exact (proj1 HH)|simpl; lia]|]. tauto.
    + apply Forall_app. split; [done|]. apply join_top; [done|by apply join_top].
    + rewrite !length_app /=. pose proof (join_length p (join b H)). pose proof (join_length b H). 
      assert (length (join p (join b H)) ≤ S (S (length H)))%nat by lia. lia.
    + destruct (join_hd p (join b H)) as (n&J&->). exists n. right. apply elem_of_app. right. by left.
Qed.

(** Bytes changed only in free blocks, in [b] and in [base]. *)
Definition kept (A : list blk) (m m' : mem) : Prop := ∀ x, cover A x → ld8 m' x = ld8 m x.

Lemma live_kept u u' A : Forall (live u) A → kept A (h_mem u) (h_mem u') → h_brk u ≤ h_brk u' → Forall (live u') A.
Proof.
  intros Hl Hk Hb. rewrite !Forall_forall in Hl |- *. intros b HbA. destruct (Hl b HbA) as (H1&H2&H3&H4). split_and!; [|done..|lia].
  rewrite -H1. apply ld32_same. intros x Hx. apply Hk. exists b. split; [done|]. rw /within. pose proof (fin_ge b H2). change HDR with 8 in *. lia.
Qed.

Lemma ring_sizes u F A : heap_ok u F A → size_ok F.
Proof.
  intros H. pose proof (ho_base _ _ _ H). destruct (ho_brk _ _ _ H) as [_ Hb]. pose proof (ho_top _ _ _ H) as Ht. destruct (ho_spaced _ _ _ H) as [Hs _].
  rewrite !Forall_forall in Hs, Ht. apply Forall_forall. intros c Hc. specialize (Hs c Hc). specialize (Ht c Hc). simpl in Ht. change KERNBASE with (2 ^ 31) in Hb. change HDR with 8 in *. lia.
Qed.

Lemma live_above u A x : Forall (live u) A → cover A x → base + HDR ≤ x.
Proof.
  intros Hl (b&Hb&Hx). rewrite Forall_forall in Hl. destruct (Hl b Hb) as (_&_&?&_). rw /within in Hx. lia.
Qed.

(** A header of the ring is [base] or in a free block. *)
Lemma ring_header F p x :
  spaced (base + HDR) F → p ∈ ring F → p.1 ≤ x < p.1 + HDR → base ≤ x < base + HDR ∨ cover F x.
Proof.
  intros Hs [->|Hp]%elem_of_cons Hx; [by left|]. right. exists p. split; [done|]. destruct (spaced_sizes _ _ _ Hs Hp) as [_ Hp2].
  rw /within. pose proof (fin_ge p Hp2). lia.
Qed.

(** *** free *)

Lemma free_place (G H : list blk) p b j c :
  Forall (λ c, fin c ≤ b.1 ∧ c.1 + HDR ≤ b.1) (G ++ [p]) → Forall (λ c, fin b ≤ c.1) H → 1 ≤ b.2 →
  (G ++ p :: H) !! j = Some c → if decide (j ≤ length G)%nat then c.1 < b.1 else b.1 < c.1.
Proof.
  intros Hlo Hhi Hb Hj. pose proof (fin_ge b Hb). rewrite (cons_middle p G H) app_assoc in Hj. change HDR with 8 in *. case_decide as Hd.
  - rewrite lookup_app_l in Hj; [rewrite length_app /=; lia|]. apply (Forall_lookup_1 _ _ _ _ Hlo) in Hj. change HDR with 8 in *. lia.
  - rewrite lookup_app_r in Hj; [rewrite length_app /=; lia|]. apply (Forall_lookup_1 _ _ _ _ Hhi) in Hj. simpl in Hj. lia.
Qed.

Lemma ring_tail F G p H : ring F = G ++ p :: H → H = drop (length G) F.
Proof.
  intros E. change F with (tail (ring F)). rewrite E. destruct G as [|g G]; [done|]. cbn [app tail length].
  rewrite (cons_middle p G H) app_assoc drop_app_length' //. rewrite length_app /=. lia.
Qed.

(** The two joins of [free]. *)
Lemma free_links {X} u F b G p H (k : K heap X) (Q : X → heap → Prop) :
  0 < base → ring F = G ++ p :: H → seg (h_mem u) (ring F) base → spaced (base + HDR) F → Forall (λ c, fin c ≤ 2 ^ 31) F →
  ld32 (h_mem u) (b.1 + 4) = b.2 → base + HDR ≤ b.1 → 1 ≤ b.2 → fin b ≤ 2 ^ 31 →
  Forall (λ c, fin c ≤ b.1 ∧ c.1 + HDR ≤ b.1) (G ++ [p]) → Forall (λ c, fin b ≤ c.1) H →
  (∀ m, (∀ x, ¬ (b.1 ≤ x < b.1 + HDR) → ¬ (p.1 ≤ x < p.1 + HDR) → ld8 m x = ld8 (h_mem u) x) →
    seg m (G ++ join p (join b H)) base → wp k (with_mem m u) Q) →
  wp (nx ← ptr p.1;
      _ ← (if hadd b.1 b.2 =? nx then
             ns ← sizeof nx; _ ← set_sizeof b.1 (u32 (b.2 + ns)); nx ← ptr p.1; nn ← ptr nx; set_ptr b.1 nn
           else set_ptr b.1 nx);
      ps ← sizeof p.1;
      _ ← (if hadd p.1 ps =? b.1 then
             bs ← sizeof b.1; _ ← set_sizeof p.1 (u32 (ps + bs)); bn ← ptr b.1; set_ptr p.1 bn
           else set_ptr p.1 b.1);
      k) u Q.
Proof.
  intros H0 EW Hseg Hsp Htop Hb1 Hb3 Hb2 Hb4 Hlo Hhi HQ. pose proof (ring_tail F G p H EW) as EH. pose proof (ring_sorted F Hsp) as Hso.
  rewrite EW in Hseg, Hso. apply seg_app in Hseg as [HG (P1&P2&HH)].
  apply StronglySorted_app in Hso as (Hso&_&_). 
  assert (spaced (base + HDR) H) as HspH by (rewrite EH; rewrite -(take_drop (length G) F) in Hsp; by apply spaced_app in Hsp as (_&?&_)).
  assert (Forall (λ c, fin c ≤ 2 ^ 31) H) as HtH by (rewrite EH; by apply Forall_drop).
  assert (size_ok (b :: H) ∧ size_ok (join b H)) as [Hs1 Hs2].
  { assert (∀ l, spaced (base + HDR) l → Forall (λ c, fin c ≤ 2 ^ 31) l → size_ok l) as Hz.
    { intros l [Hl _] Hl'. rw /size_ok. rewrite !Forall_forall in Hl, Hl' |- *. intros c Hc. specialize (Hl c Hc). specialize (Hl' c Hc). simpl in Hl'. change HDR with 8 in *. lia. }
    split; [constructor; [change HDR with 8 in *; lia|by apply Hz]|]. apply Hz; [by apply join_spaced|by apply join_top]. }
  apply Forall_app in Hlo as [HloG [[Hp1 Hp2] _]%Forall_cons]. pose proof (fin_ge b Hb2) as Hfb. change HDR with 8 in *.
  assert (0 ≤ p.1 ∧ 0 ≤ p.2) as [Hp3 Hp4].
  { destruct G as [|g G]; simpl in EW; [simplify_eq; simpl; lia|]. injection EW as <- ->. apply spaced_app in Hsp as (_&[Hx Hy]%spaced_cons&_). lia. }
  apply (join_up_wp base u p.1 b H); try done; [lia|]. intros m1 Hm1 S1. destruct (join_hd b H) as (n&J&EJ). rewrite EJ in S1, Hs2.
  change b.1 with ((b.1, n).1). apply (join_down_wp base _ p G (b.1, n) J); try done; cbn [fst snd with_mem h_mem].
  - eapply seg_same; [|exact HG]. intros c x Hc Hx. apply Hm1. rewrite Forall_forall in HloG. specialize (HloG c Hc). change HDR with 8 in *. lia.
  - rewrite -P2. apply ld32_same. intros x Hx. apply Hm1. lia.
  - lia.
  - lia.
  - rewrite -EJ. apply Forall_forall. intros c Hc. assert (b.1 ≤ c.1); [|change HDR with 8; lia].
    apply (join_from b H); [|done]. eapply Forall_impl; [exact Hhi|]. simpl. lia.
  - apply Forall_forall. intros c Hc. apply (Hso c p Hc). by left.
  - intros m2 Hm2 S2. rewrite -EJ in S2. apply (HQ m2); [|done]. intros x Hx1 Hx2. change HDR with 8 in *. rewrite Hm2; [lia|]. apply Hm1. lia.
Qed.

Lemma ring_headers u F A : heap_ok u F A → (S (length F) < headers u)%nat.
Proof.
  intros Hh. pose proof (ho_base _ _ _ Hh) as H0. pose proof (ho_brk _ _ _ Hh) as Hb. pose proof (ho_spaced _ _ _ Hh) as Hs. pose proof (ho_top _ _ _ Hh) as Ht.
  assert (∀ l lo, spaced lo l → Forall (λ b, fin b ≤ h_brk u) l → lo ≤ h_brk u → lo + 8 * Z.of_nat (length l) ≤ h_brk u) as Hlen.
  { clear. induction l as [|b l IH]; intros lo Hs Ht Hlo; [simpl; lia|]. apply spaced_cons in Hs as ((H1&H2)&[Hf Hs]&Hg). apply Forall_cons in Ht as [Htb Ht].
    pose proof (fin_ge b H2). change HDR with 8 in *. cbn [length]. rewrite Nat2Z.inj_succ.
    assert (fin b + 8 * Z.of_nat (length l) ≤ h_brk u); [|lia]. apply IH; [|done|done]. split; [|done].
    rewrite !Forall_forall in Hf, Hg |- *. intros d Hd. specialize (Hg d Hd). specialize (Hf d Hd). rw /gap in Hg. lia. }
  specialize (Hlen F _ Hs Ht ltac:(lia)). rw /headers. change HDR with 8 in *.
  assert (Z.of_nat (length F) ≤ h_brk u / 8) by (apply Z.div_le_lower_bound; lia). lia.
Qed.

Lemma free_wp u F A b A' (Q : unit → heap → Prop) :
  heap_ok u F A → A ≡ₚ b :: A' →
  (∀ u' F', heap_ok u' F' A' → (∀ x, cover F' x ↔ cover F x ∨ within b x) → kept A' (h_mem u) (h_mem u') →
    h_brk u' = h_brk u → (length F' ≤ S (length F))%nat → Q tt u') →
  wp (free (hadd b.1 1)) u Q.
Proof.
  intros H HA HQ. pose proof (ring_headers u F A H) as Hf. apply (heap_ok_perm u F A _ HA) in H. pose proof (ring_sizes u F _ H) as Hsz.
  destruct H as [Hbase Hbrk Hseg Hsp [fn Hfp] Htop Hlive Hfree Hap].
  apply Forall_cons in Hlive as [(Hb1&Hb2&Hb3&Hb4) Hlive]. destruct Hap as [Hb5 Hap]. change KERNBASE with (2 ^ 31) in Hbrk.
  pose proof (fin_ge b Hb2) as Hfb. change HDR with 8 in *.
  assert (∀ x, within b x → ¬ cover F x) as Hbf by (intros x Hx; apply Hfree, cover_cons; by left).
  destruct (ring_split F b Hsp Hb3 Hb2 Hbf) as (G&p&H&EW&Hlo&Hhi).
  destruct (ring_add F b G p H (h_brk u) Hsp Hb3 Hb2 EW Hlo Hhi Htop Hb4) as (F'&EW'&Hsp'&Hcov&Htop'&Hlen&Hp').
  rw /free. assert (u32 (hadd b.1 1 - HDR) = b.1) as ->.
  { rw /hadd. change HDR with 8. rewrite (u32_small (b.1 + 8 * 1)); [lia|]. rewrite u32_small; lia. }
  apply wp_bind, wp_gets. apply wp_bind, wp_gets. pose proof (ring_sorted F Hsp) as Hso.
  apply list_elem_of_lookup in Hfp as [k Hk]. change (h_freep u) with ((h_freep u, fn).1).
  assert (length (ring F) = (length G + S (length H))%nat) as Hlw by (rewrite EW length_app //).
  apply wp_bind, (free_loop_wp u (ring F) (length G) p b.1 (headers u) k (h_freep u, fn)); try done.
  - rewrite EW. by apply list_lookup_middle.
  - simpl. lia.
  - intros j c Hj. rewrite EW in Hj. by apply (free_place G H p b).
  - simpl. simpl in Hlw. pose proof (lookup_lt_Some _ _ _ Hk). simpl in *. rw /dist. case_decide; lia.
  - apply wp_bind, wp_gets. rewrite Hb1. apply (free_links u F b G p H); try done; [eapply Forall_impl; [exact Htop|simpl; lia]|lia|].
    intros m Hm Hsm. apply wp_modify.
    assert (kept A' (h_mem u) m) as Hkept.
    { intros x Hx. apply Hm; change HDR with 8.
      - intros Hxb. apply (Hb5 x); [|done]. rw /within. lia.
      - intros Hxp. destruct (ring_header F p x Hsp) as [Hx0|Hx0]; [rewrite EW; apply elem_of_app; right; by left|done| |].
        + pose proof (live_above u A' x Hlive Hx). change HDR with 8 in *. lia.
        + apply (Hfree x); [apply cover_cons; by right|done]. }
    apply (HQ _ F'); [|done|done|done|done]. rewrite -EW' in Hsm. split; try done.
    + apply (live_kept u); [done|done|simpl; lia].
    + intros x Hx Hx'. apply Hcov in Hx' as [Hx'|Hx']; [|by apply (Hb5 x)]. apply (Hfree x); [|done]. apply cover_cons. by right.
Qed.

(** *** Taking a block *)

(** [b] leaves the free blocks. *)
Lemma heap_take u F A F' b m pv :
  heap_ok u F A → seg m (ring F') base → spaced (base + HDR) F' → Forall (λ c, fin c ≤ h_brk u) F' →
  (∀ x, cover F x ↔ cover F' x ∨ within b x) → (∀ x, within b x → ¬ cover F' x) → kept A (h_mem u) m →
  live (Heap m pv (h_brk u)) b → (∃ n, (pv, n) ∈ ring F') → heap_ok (Heap m pv (h_brk u)) F' (b :: A).
Proof.
  intros [Hbase Hbrk Hseg Hsp Hfp Htop Hlive Hfree Hap] Hs' Hsp' Ht' Hcov Hd Hk Hb Hpv. split; try done.
  - constructor; [done|]. by apply (live_kept u); [..|simpl; lia].
  - intros x [Hx|Hx]%cover_cons; [by apply Hd|]. intros Hx'. apply (Hfree x Hx), Hcov. by left.
  - split; [|done]. intros x Hx Hx'. apply (Hfree x Hx'), Hcov. by right.
Qed.

Lemma ring_middle F G pv p H : ring F = G ++ pv :: p :: H → ∃ F1, F = F1 ++ p :: H ∧ ring F1 = G ++ [pv].
Proof.
  destruct G as [|g G]; simpl; intros E; simplify_eq; [by exists []|]. exists (G ++ [pv]). by rewrite -app_assoc.
Qed.

(** Stores in free blocks and in [base] keep the blocks in use. *)
Lemma kept_free u F A m :
  heap_ok u F A → (∀ x, ¬ (base ≤ x < base + HDR) → ¬ cover F x → ld8 m x = ld8 (h_mem u) x) → kept A (h_mem u) m.
Proof.
  intros H Hm x Hx. apply Hm; [|by apply (ho_free _ _ _ H)]. pose proof (live_above u A x (ho_live _ _ _ H) Hx). lia.
Qed.

Lemma take_all u F A G pv p H m :
  heap_ok u F A → ring F = G ++ pv :: p :: H → m = st32 pv.1 (hd_addr H base) (h_mem u) →
  ∃ F', heap_ok (Heap m pv.1 (h_brk u)) F' (p :: A) ∧ (∀ x, cover F x ↔ cover F' x ∨ within p x) ∧ kept A (h_mem u) m.
Proof.
  intros Hh EW ->. pose proof (ring_sizes u F A Hh) as Hsz. pose proof (ring_sorted F (ho_spaced _ _ _ Hh)) as Hso.
  pose proof (ho_base _ _ _ Hh) as H0. pose proof (ho_brk _ _ _ Hh) as Hbrk.
  destruct (ring_middle F G pv p H EW) as (F1&EF&E1). pose proof (ho_spaced _ _ _ Hh) as Hsp. rewrite EF in Hsp.
  pose proof Hsp as (HF1&HpH&Hg1)%spaced_app. apply spaced_cons in HpH as ((Hp1&Hp2)&HH&Hg2).
  pose proof (ho_seg _ _ _ Hh) as Hseg. rewrite EW in Hseg, Hso. apply seg_app in Hseg as [HG (V1&V2&P1&P2&SH)].
  apply StronglySorted_app in Hso as (Hso1&_&[Hso2 Hpv]%StronglySorted_inv). rewrite Forall_forall in Hpv.
  assert (∀ x, cover F x ↔ cover (F1 ++ H) x ∨ within p x) as Hcov by (intros x; rewrite EF !cover_app cover_cons; tauto).
  assert (∀ x, within p x → ¬ cover (F1 ++ H) x) as Hd.
  { intros x Hx Hx'. rw /within in Hx. apply cover_app in Hx' as [(c&Hc&Hx')|(c&Hc&Hx')]; rw /within in Hx'.
    - specialize (Hg1 c p Hc ltac:(by left)). rw /gap in Hg1. lia.
    - rewrite Forall_forall in Hg2. specialize (Hg2 c Hc). rw /gap in Hg2. lia. }
  assert (kept A (h_mem u) (st32 pv.1 (hd_addr H base) (h_mem u))) as Hk.
  { apply (kept_free u F A _ Hh). intros x Hx1 Hx2. apply ld8_st32_ne. destruct (decide (pv.1 ≤ x < pv.1 + 4)) as [Hx|]; [|lia].
    destruct (ring_header F pv x) as [|]; [apply Hh|rewrite EW; apply elem_of_app; right; by left|change HDR with 8; lia|done..]. }
  exists (F1 ++ H). split_and!; [|done|done]. apply (heap_take u F A); try done.
  - rewrite -[ring (F1 ++ H)]/(ring F1 ++ H) E1 -app_assoc. apply seg_app. split; [|split; [|split]].
    + eapply seg_same; [|exact HG]. intros c x Hc Hx. apply ld8_st32_ne. specialize (Hso1 c pv Hc ltac:(by left)). rw /lower in Hso1. lia.
    + apply ld32_st32_eq. destruct H as [|c H]; simpl; [change KERNBASE with (2 ^ 31) in Hbrk; change HDR with 8 in *; lia|].
      rw /size_ok EF in Hsz. rewrite Forall_app !Forall_cons in Hsz. destruct Hsz as (_&_&(?&?&?)&_). pose proof (fin_ge c). change HDR with 8 in *. lia.
    + rewrite ld32_st32_ne //. lia.
    + eapply seg_same; [|exact SH]. intros c x Hc Hx. apply ld8_st32_ne. specialize (Hpv c ltac:(by right)). rw /lower in Hpv. change HDR with 8 in *. lia.
  - apply spaced_app. split_and!; [done|done|]. intros b c Hb Hc. apply Hg1; [done|by right].
  - pose proof (ho_top _ _ _ Hh) as Ht. rewrite EF in Ht. apply Forall_app in Ht as [? [_ ?]%Forall_cons]. by apply Forall_app.
  - split_and!; [|done|done|].
    + simpl. rewrite ld32_st32_ne //. specialize (Hpv p ltac:(by left)). rw /lower in Hpv. change HDR with 8 in *. lia.
    + pose proof (ho_top _ _ _ Hh) as Ht. rewrite EF in Ht. by apply Forall_app in Ht as [_ [? _]%Forall_cons].
  - exists pv.2. rewrite -surjective_pairing -[ring (F1 ++ H)]/(ring F1 ++ H) E1. apply elem_of_app. left. apply elem_of_app. right. by left.
Qed.

(** The tail of a block is cut off. *)
Lemma take_part u F A G pv p H n r m :
  heap_ok u F A → ring F = G ++ pv :: p :: H → 1 ≤ n < p.2 → r = p.1 + HDR * (p.2 - n) →
  m = st32 (r + 4) n (st32 (p.1 + 4) (p.2 - n) (h_mem u)) →
  ∃ F', heap_ok (Heap m pv.1 (h_brk u)) F' ((r, n) :: A) ∧ (∀ x, cover F x ↔ cover F' x ∨ within (r, n) x) ∧ kept A (h_mem u) m.
Proof.
  intros Hh EW Hn Er ->. pose proof (ring_sizes u F A Hh) as Hsz. pose proof (ring_sorted F (ho_spaced _ _ _ Hh)) as Hso.
  destruct (ring_middle F G pv p H EW) as (F1&EF&E1). pose proof (ho_spaced _ _ _ Hh) as Hsp. rewrite EF in Hsp.
  pose proof Hsp as (HF1&HpH&Hg1)%spaced_app. apply spaced_cons in HpH as ((Hp1&Hp2)&HH&Hg2).
  rw /size_ok EF in Hsz. apply Forall_app in Hsz as [_ [(_&_&Hfp) _]%Forall_cons]. assert (fin p = p.1 + 8 * p.2) as Efp by done.
  pose proof (ho_seg _ _ _ Hh) as Hseg. rewrite EF -[ring (F1 ++ p :: H)]/(ring F1 ++ p :: H) in Hseg, Hso.
  apply seg_app in Hseg as [SG (P1&P2&SH)]. apply StronglySorted_app in Hso as (Hso&_&_).
  pose proof (ho_top _ _ _ Hh) as Ht. rewrite EF in Ht. apply Forall_app in Ht as [Ht1 [Htp HtH]%Forall_cons].
  pose proof (ho_base _ _ _ Hh) as H0. set (q := (p.1, p.2 - n)). assert (fin q = r ∧ fin (r, n) = fin p) as [Efq Efr].
  { subst r. rw /fin /=. change HDR with 8. lia. }
  change HDR with 8 in *. set (m := st32 (r + 4) n _).
  assert (same_out p.1 (fin p) (h_mem u) m) as Hm by (eapply same_out_trans; apply same_out_st; lia).
  assert (∀ x, cover F x ↔ cover (F1 ++ q :: H) x ∨ within (r, n) x) as Hcov.
  { intros x. rewrite EF !cover_app !cover_cons. assert (within p x ↔ within q x ∨ within (r, n) x) as ->; [|tauto].
    rw /within Efq Efr /=. lia. }
  assert (∀ x, within (r, n) x → ¬ cover (F1 ++ q :: H) x) as Hd.
  { intros x Hx Hx'. rw /within Efr /= in Hx. rewrite cover_app cover_cons in Hx'. rewrite Forall_forall in Hg2.
    destruct Hx' as [(c&Hc&Hx')|[Hx'|(c&Hc&Hx')]]; rw /within in Hx'; [|rewrite Efq in Hx'; lia|].
    - specialize (Hg1 c p Hc ltac:(by left)). rw /gap in Hg1. lia.
    - specialize (Hg2 c Hc). rw /gap in Hg2. lia. }
  assert (kept A (h_mem u) m) as Hk.
  { apply (kept_free u F A _ Hh). intros x _ Hx2. apply Hm. destruct (decide (p.1 ≤ x < fin p)) as [Hx|]; [|lia].
    destruct Hx2. exists p. rewrite EF. split; [|done]. apply elem_of_app. right. by left. }
  exists (F1 ++ q :: H). split_and!; [|done|done]. apply (heap_take u F A); try done.
  - rewrite -[ring (F1 ++ q :: H)]/(ring F1 ++ q :: H). apply seg_app. split; [|split; [|split]].
    + eapply seg_same; [|exact SG]. intros c x Hc Hx. apply Hm. specialize (Hso c p Hc ltac:(by left)). rw /lower in Hso. lia.
    + cbn [q fst]. rewrite /m !ld32_st32_ne; [lia..|exact P1].
    + simpl. rewrite /m ld32_st32_ne; [lia|]. apply ld32_st32_eq. lia.
    + eapply seg_same; [|exact SH]. intros c x Hc Hx. apply Hm. rewrite Forall_forall in Hg2. specialize (Hg2 c Hc). rw /gap in Hg2. lia.
  - apply spaced_app. split_and!; [done| |].
    + apply spaced_cons. change HDR with 8. split_and!; [simpl; lia|simpl; lia|done|]. eapply Forall_impl; [exact Hg2|]. intros c. rw /gap Efq. lia.
    + intros b c Hb [->|Hc]%elem_of_cons; [|apply Hg1; [done|by right]]. exact (Hg1 b p Hb ltac:(by left)).
  - apply Forall_app. split; [done|]. constructor; [rewrite Efq; simpl in Htp; lia|done].
  - split_and!; [|simpl; change HDR with 8; lia..|rewrite Efr; exact Htp]. simpl. rewrite /m. apply ld32_st32_eq. lia.
  - exists pv.2. rewrite -surjective_pairing -[ring (F1 ++ q :: H)]/(ring F1 ++ q :: H) E1. apply elem_of_app. left. apply elem_of_app. right. by left.
Qed.

(** *** malloc *)

(** Block [(r, n)] was free and is now in use. *)
Definition taken (u : heap) (F A : list blk) (n r : Z) (u' : heap) : Prop :=
  ∃ F', heap_ok u' F' ((r, n) :: A) ∧ (∀ x, cover F x ↔ cover F' x ∨ within (r, n) x) ∧
    kept A (h_mem u) (h_mem u') ∧ h_brk u' = h_brk u.

Lemma take_wp u F A G pv p H n (Q : Z → heap → Prop) :
  heap_ok u F A → ring F = G ++ pv :: p :: H → 1 ≤ n ≤ p.2 →
  (∀ r u', taken u F A n r u' → Q (hadd r 1) u') →
  wp (q ← (if p.2 =? n then nx ← ptr p.1; _ ← set_ptr pv.1 nx; mret p.1
           else _ ← set_sizeof p.1 (u32 (p.2 - n)); ps ← sizeof p.1; let q := hadd p.1 ps in _ ← set_sizeof q n; mret q);
      _ ← set_freep pv.1; mret (hadd q 1)) u Q.
Proof.
  intros Hh EW Hn HQ. pose proof (ring_sizes u F A Hh) as Hsz. destruct (ring_middle F G pv p H EW) as (F1&EF&_).
  rw /size_ok EF in Hsz. apply Forall_app in Hsz as [_ [(Hp0&_&Hfp) _]%Forall_cons]. assert (fin p = p.1 + 8 * p.2) as Efp by done.
  pose proof (ho_seg _ _ _ Hh) as Hseg. rewrite EF -[ring (F1 ++ p :: H)]/(ring F1 ++ p :: H) in Hseg. apply seg_app in Hseg as [_ (P1&P2&_)].
  apply wp_bind. destruct (Z.eqb_spec p.2 n) as [E|Hne].
  - apply wp_bind, wp_gets. rewrite P1. apply wp_bind, wp_modify, wp_ret. apply wp_bind, wp_modify, wp_ret.
    destruct (take_all u F A G pv p H _ Hh EW eq_refl) as (F'&H1&H2&H3). apply (HQ p.1). exists F'. rewrite -E -surjective_pairing. done.
  - apply wp_bind, wp_modify. apply wp_bind, wp_gets. cbn [h_mem]. rewrite u32_small; [lia|]. rewrite ld32_st32_eq; [lia|].
    cbv zeta. assert (hadd p.1 (p.2 - n) = p.1 + HDR * (p.2 - n)) as Er by (rw /hadd; change HDR with 8; apply u32_small; lia).
    apply wp_bind, wp_modify, wp_ret. apply wp_bind, wp_modify, wp_ret. cbn [h_mem h_freep h_brk].
    destruct (take_part u F A G pv p H n _ _ Hh EW ltac:(lia) Er eq_refl) as (F'&H1&H2&H3). apply HQ. by exists F'.
Qed.

Lemma ring_at F k pv p :
  ring F !! k = Some pv → ring F !! after (length (ring F)) k = Some p → 1 ≤ p.2 → ∃ G H, ring F = G ++ pv :: p :: H.
Proof.
  intros Hk Hp Hp2. rw /after in Hp. destruct (decide (S k < length (ring F))%nat).
  - exists (take k (ring F)), (drop (S (S k)) (ring F)). by rewrite -(drop_S (ring F) p (S k)) // (take_drop_middle (ring F) k pv).
  - simpl in Hp. simplify_eq. simpl in Hp2. lia.
Qed.

Section Grants.
Context (grants : Z → Z → bool).

(** The search, until it finds a block or is back at its start. *)
Lemma scan_wp u F A n f fp rest : ∀ fuel k pv p (Q : Z → heap → Prop),
  heap_ok u F A → 1 ≤ n → ring F !! f = Some fp → fp.1 = h_freep u →
  ring F !! k = Some pv → ring F !! after (length (ring F)) k = Some p →
  (∀ j c, ring F !! j = Some c → n ≤ c.2 →
    (dist (length (ring F)) (after (length (ring F)) k) j ≤ dist (length (ring F)) (after (length (ring F)) k) f)%nat) →
  (dist (length (ring F)) (after (length (ring F)) k) f + rest < fuel)%nat →
  (∀ r u', taken u F A n r u' → Q (hadd r 1) u') →
  (Forall (λ c, c.2 < n) (ring F) → ∀ m, (rest ≤ m)%nat →
    wp (p ← morecore grants n; if p =? 0 then mret 0 else nx ← ptr p; malloc_loop grants m n p nx) u Q) →
  wp (malloc_loop grants fuel n pv.1 p.1) u Q.
Proof.
  induction fuel as [|fuel IH]; intros k pv p Q Hh Hn Hf Efp Hk Hp Hrem Hfuel HQ Hend; [lia|]. cbn [malloc_loop].
  set (L := length (ring F)) in *. pose proof (lookup_lt_Some _ _ _ Hk) as Hkl. pose proof (lookup_lt_Some _ _ _ Hf) as Hfl. fold L in Hkl, Hfl.
  set (j := after L k) in *. pose proof (after_lt L k Hkl) as Hjl. fold j in Hjl.
  destruct (lookup_lt_is_Some_2 (ring F) (after L j) (after_lt L j Hjl)) as [p' Hp'].
  destruct (seg_after _ _ _ _ _ (ho_seg _ _ _ Hh : seg _ (ring F) (hd_addr (ring F) 0)) Hp Hp') as [P1 P2].
  apply wp_bind, wp_gets. rewrite P2. destruct (Z.leb_spec n p.2) as [Hfit|Hsmall].
  - destruct (ring_at F k pv p Hk Hp ltac:(lia)) as (G&H&EW). by apply (take_wp u F A G pv p H).
  - apply wp_bind, wp_gets. rewrite -Efp. destruct (decide (j = f)) as [E|Hne].
    + rewrite -E Hp in Hf. injection Hf as <-. rewrite Z.eqb_refl. apply Hend; [|lia]. apply Forall_lookup. intros i c Hi.
      destruct (Z.ltb_spec c.2 n) as [|Hc]; [done|]. specialize (Hrem i c Hi Hc). pose proof (lookup_lt_Some _ _ _ Hi) as Hil. fold L in Hil.
      rw E /dist in Hrem. assert (i = f) as ->; [|rewrite -E Hp in Hi; simplify_eq; lia]. repeat case_decide; lia.
    + assert (p.1 ≠ fp.1) as Hpf.
      { intros E. apply Hne. pose proof (ring_sorted F (ho_spaced _ _ _ Hh)) as Hso. change HDR with 8 in *. destruct (Nat.lt_trichotomy j f) as [Hlt|[|Hlt]]; [|done|].
        - pose proof (sorted_lookup _ _ _ _ _ Hso Hlt Hp Hf). change HDR with 8 in *. lia.
        - pose proof (sorted_lookup _ _ _ _ _ Hso Hlt Hf Hp). change HDR with 8 in *. lia. }
      destruct (Z.eqb_spec p.1 fp.1); [done|]. apply wp_bind, wp_gets. rewrite P1.
      rewrite (after_dist L j f Hjl Hfl Hne) in Hrem, Hfuel. apply (IH j p p'); try done; [|lia].
      intros i c Hi Hc. specialize (Hrem i c Hi Hc). pose proof (lookup_lt_Some _ _ _ Hi) as Hil. fold L in Hil.
      assert (j ≠ i) as Hji by (intros <-; rewrite Hp in Hi; simplify_eq; lia). rewrite (after_dist L j i Hjl Hil Hji) in Hrem. lia.
Qed.

(** A covered block lies in one free block. *)
Lemma covered_block lo F b :
  spaced lo F → 1 ≤ b.2 → (∀ x, within b x → cover F x) → ∃ c, c ∈ F ∧ b.2 ≤ c.2.
Proof.
  intros Hs Hb Hcov. pose proof (fin_ge b Hb) as Hfb. change HDR with 8 in *. destruct (Hcov b.1) as (c&Hc&Hx); [rw /within; lia|].
  exists c. split; [done|]. rw /within in Hx. destruct (Z.leb_spec (fin b) (fin c)) as [|Hlt].
  { assert (fin b = b.1 + 8 * b.2 ∧ fin c = c.1 + 8 * c.2) as [??] by done. lia. }
  destruct (Hcov (fin c)) as (d&Hd&Hx'); [rw /within; lia|]. rw /within in Hx'. exfalso.
  apply list_elem_of_lookup in Hc as [i Hi], Hd as [j Hj]. destruct Hs as [_ Hs].
  assert (∀ i j c d, F !! i = Some c → F !! j = Some d → (i < j)%nat → gap c d) as Hlt'.
  { clear - Hs. intros i j c d Hi Hj Hij. rewrite -(take_drop_middle F i c Hi) in Hs. apply StronglySorted_app_1_r, StronglySorted_inv in Hs as [_ Hs].
    rewrite Forall_forall in Hs. apply Hs, list_elem_of_lookup_2 with (j - S i)%nat. rewrite lookup_drop. by replace (S i + (j - S i))%nat with j by lia. }
  destruct (Nat.lt_trichotomy i j) as [Hij|[->|Hij]].
  - specialize (Hlt' _ _ _ _ Hi Hj Hij). rw /gap in Hlt'. lia.
  - simplify_eq. lia.
  - specialize (Hlt' _ _ _ _ Hj Hi Hij). rw /gap in Hlt'. lia.
Qed.

Lemma heap_extend u F A n b' :
  heap_ok u F A → 1 ≤ n < 2 ^ 32 → b' = h_brk u + HDR * n → b' ≤ KERNBASE →
  heap_ok (Heap (st32 (h_brk u + 4) n (h_mem u)) (h_freep u) b') F ((h_brk u, n) :: A) ∧
  kept A (h_mem u) (st32 (h_brk u + 4) n (h_mem u)).
Proof.
  intros Hh Hn -> Hk. pose proof (ring_sizes u F A Hh) as Hsz. destruct Hh as [Hbase Hbrk Hseg Hsp Hfp Htop Hlive Hfree Hap]. change HDR with 8 in *.
  assert (∀ x, cover F x → x < h_brk u) as HF.
  { intros x (c&Hc&Hx). rewrite Forall_forall in Htop. specialize (Htop c Hc). rw /within in Hx. simpl in Htop. lia. }
  assert (∀ x, cover A x → x < h_brk u) as HA.
  { intros x (c&Hc&Hx). rewrite Forall_forall in Hlive. destruct (Hlive c Hc) as (_&_&_&?). rw /within in Hx. lia. }
  assert (kept A (h_mem u) (st32 (h_brk u + 4) n (h_mem u))) as Hkept by (intros x Hx; specialize (HA x Hx); apply ld8_st32_ne; lia).
  split; [|done]. split; cbn [h_mem h_brk h_freep]; try done.
  - change HDR with 8. lia.
  - apply (seg_same (h_mem u)); [|done]. intros c x Hc Hx. apply ld8_st32_ne. left. destruct (ring_header F c x Hsp Hc Hx) as [H|H]; [change HDR with 8 in *; lia|].
    specialize (HF x H). lia.
  - eapply Forall_impl; [exact Htop|]. simpl. lia.
  - constructor; [|apply (live_kept u); [done|done|simpl; lia]]. split_and!; simpl; [by apply ld32_st32_eq; lia|lia|change HDR with 8; lia|].
    rw /fin /=. change HDR with 8. lia.
  - intros x [Hx|Hx]%cover_cons Hx'; [|by apply (Hfree x)]. specialize (HF x Hx'). rw /within /= in Hx. lia.
  - split; [|done]. intros x Hx Hx'. specialize (HA x Hx'). rw /within /= in Hx. lia.
Qed.

Lemma morecore_wp u F A n (Q : Z → heap → Prop) :
  heap_ok u F A → 1 ≤ n < 2 ^ 28 → Q 0 u →
  (∀ u' F', heap_ok u' F' A → kept A (h_mem u) (h_mem u') → h_brk u ≤ h_brk u' → (length F' ≤ S (length F))%nat →
    (∃ c, c ∈ F' ∧ n ≤ c.2) → (∀ x, cover F x → cover F' x) → (∀ x, cover F' x → cover F x ∨ h_brk u ≤ x) →
    Q (h_freep u') u') →
  wp (morecore grants n) u Q.
Proof.
  intros Hh Hn H0 HQ. rw /morecore. cbv zeta. set (nu := if n <? 4096 then 4096 else n).
  assert (n ≤ nu < 2 ^ 28) as Hnu by (rw /nu; destruct (Z.ltb_spec n 4096); lia). clearbody nu.
  pose proof (ho_brk _ _ _ Hh) as Hbrk. pose proof (ho_base _ _ _ Hh) as Hbase. change KERNBASE with (2 ^ 31) in *. change HDR with 8 in *.
  apply wp_bind. rw /sbrk. apply wp_bind, wp_gets. rewrite (u32_small (nu * 8)); [lia|]. rewrite s32_small; [lia|].
  rw /grow. cbv zeta. change KERNBASE with (2 ^ 31). rewrite u32_small; [lia|]. destruct (Z.ltb_spec 0 (nu * 8)); [|lia].
  assert (wp (if u32 (-1) =? u32 (-1) then mret 0 else _ ← set_sizeof (u32 (-1)) nu; _ ← free (hadd (u32 (-1)) 1); gets h_freep) u Q) as Hfail by exact H0.
  destruct (Z.leb_spec (2 ^ 31) (h_brk u + nu * 8)); [exact Hfail|]. destruct (Z.ltb_spec (h_brk u + nu * 8) (h_brk u)); [lia|].
  destruct (grants _ _); [|exact Hfail]. destruct (Z.eqb_spec (h_brk u + nu * 8) 0); [lia|]. apply wp_bind, wp_modify, wp_ret.
  destruct (Z.eqb_spec (h_brk u) (u32 (-1))) as [E|_]; [change (u32 (-1)) with 4294967295 in E; lia|].
  destruct (heap_extend u F A nu (h_brk u + nu * 8) Hh) as [Hh' Hk]; [lia|change HDR with 8; lia|change KERNBASE with (2 ^ 31); lia|].
  apply wp_bind, wp_modify. cbn [h_mem h_freep h_brk].
  apply wp_bind. change (h_brk u) with ((h_brk u, nu).1) at 2.
  apply (free_wp _ F _ (h_brk u, nu) A _ Hh'); [done|]. intros u' F' Hh2 Hcov Hk2 Eb Hlen. apply wp_gets.
  apply (HQ u' F'); try done.
  - intros x Hx. rewrite Hk2 //. by apply Hk.
  - rewrite Eb /=. lia.
  - destruct (covered_block _ F' (h_brk u, nu) (ho_spaced _ _ _ Hh2)) as (c&Hc&Hc2); [simpl; lia|intros x Hx; apply Hcov; by right|].
    exists c. simpl in Hc2. split; [done|lia].
  - intros x Hx. apply Hcov. by left.
  - intros x Hx. apply Hcov in Hx as [Hx|Hx]; [by left|]. right. rw /within /= in Hx. lia.
Qed.

Lemma freep_pos u F A : heap_ok u F A → h_freep u ≠ 0.
Proof.
  intros [Hbase _ _ [Hs _] [n Hn] _ _ _ _]. apply elem_of_cons in Hn as [E|Hn]; [by simplify_eq; lia|].
  rewrite Forall_forall in Hs. specialize (Hs _ Hn). simpl in Hs. change HDR with 8 in Hs. lia.
Qed.

(** What [malloc] returns: 0, or the block after its header. *)
Definition malloced (u : heap) (F A : list blk) (n r : Z) (u' : heap) : Prop :=
  r = 0 ∧ u' = u ∨
  ∃ b F', r = b + HDR ∧ heap_ok u' F' ((b, n) :: A) ∧ (∀ x, within (b, n) x → cover F x ∨ h_brk u ≤ x) ∧
    kept A (h_mem u) (h_mem u') ∧ h_brk u ≤ h_brk u'.

Lemma taken_malloced u0 F0 u F A n r u' :
  heap_ok u F A → 1 ≤ n → taken u F A n r u' → kept A (h_mem u0) (h_mem u) → h_brk u0 ≤ h_brk u →
  (∀ x, cover F x → cover F0 x ∨ h_brk u0 ≤ x) → malloced u0 F0 A n (hadd r 1) u'.
Proof.
  intros Hh Hn (F'&H1&H2&H3&H4) Hk Hb Hc. right. exists r, F'. pose proof (ho_live _ _ _ H1) as [(_&_&L1&L2) _]%Forall_cons.
  pose proof (ho_brk _ _ _ H1) as Hbrk. pose proof (ho_base _ _ _ H1). change KERNBASE with (2 ^ 31) in Hbrk. rw /fin in L2. simpl in L1, L2. change HDR with 8 in *. split_and!; try done.
  - rw /hadd. change HDR with 8. rewrite u32_small; lia.
  - intros x Hx. apply Hc, H2. by right.
  - intros x Hx. rewrite H3 //. by apply Hk.
  - lia.
Qed.

Lemma malloc_run u F A n fuel fp pv p f k :
  heap_ok u F A → 1 ≤ n < 2 ^ 28 → (2 * length F + 5 ≤ fuel)%nat →
  ring F !! f = Some fp → fp.1 = h_freep u → k = f → ring F !! k = Some pv → ring F !! after (length (ring F)) k = Some p →
  wp (malloc_loop grants fuel n pv.1 p.1) u (malloced u F A n).
Proof.
  intros Hh Hn Hfuel Hf Efp -> Hk Hp. set (L := length (ring F)). assert (L = S (length F)) as HL by done.
  assert (∀ L f j, (f < L → j < L → dist L (after L f) j ≤ dist L (after L f) f)%nat) as Hround.
  { intros L' f' j' Hf' Hj'. rw /after /dist. repeat case_decide; lia. }
  assert (∀ L f, (f < L → dist L (after L f) f < L)%nat) as Hd by (intros L' f' Hf'; rw /after /dist; repeat case_decide; lia).
  pose proof (lookup_lt_Some _ _ _ Hf) as Hfl. fold L in Hfl.
  apply (scan_wp u F A n f fp (S (S L)) fuel f pv p); try done; [lia|intros j c Hj _; apply Hround; [done|exact (lookup_lt_Some _ _ _ Hj)]|fold L; specialize (Hd L f Hfl); lia| |].
  { intros r u' Ht. apply (taken_malloced u F u F A); try done; [lia|lia|by left]. }
  intros Hsmall m Hm. apply wp_bind, (morecore_wp u F A n); [done|done|by left|].
  intros u' F' Hh' Hk' Hb Hlen (c&Hc&Hcn) _ Hcov. destruct (ho_freep _ _ _ Hh') as [fn Hfp'].
  apply list_elem_of_lookup in Hfp' as [f' Hf']. pose proof (lookup_lt_Some _ _ _ Hf') as Hfl'.
  destruct (lookup_lt_is_Some_2 (ring F') (after (length (ring F')) f') (after_lt _ _ Hfl')) as [p' Hp'].
  destruct (seg_after _ _ _ _ _ (ho_seg _ _ _ Hh' : seg _ (ring F') (hd_addr (ring F') 0)) Hf' Hp') as [P1 _]. cbn [fst] in P1.
  pose proof (freep_pos u' F' A Hh') as Hne.
  destruct (Z.eqb_spec (h_freep u') 0); [done|]. apply wp_bind, wp_gets. rewrite P1. change (h_freep u') with ((h_freep u', fn).1).
  apply (scan_wp u' F' A n f' (h_freep u', fn) 0 m f' (h_freep u', fn) p'); try done; [lia|intros j d Hj _; apply Hround; [done|exact (lookup_lt_Some _ _ _ Hj)]| | |].
  - specialize (Hd _ _ Hfl'). simpl in *. lia.
  - intros r u2 Ht. apply (taken_malloced u F u' F' A); try done. lia.
  - intros Hall. rewrite Forall_forall in Hall. specialize (Hall c ltac:(by right)). simpl in Hall. lia.
Qed.

(** Before the first call the ring is not there yet. *)
Definition heap_new (u : heap) : Prop := h_freep u = 0 ∧ 0 < base ∧ base + HDR ≤ h_brk u ≤ KERNBASE.
Definition heap_inv (u : heap) (F A : list blk) : Prop := heap_ok u F A ∨ heap_new u ∧ F = [] ∧ A = [].

Definition units (nbytes : Z) : Z := (nbytes + HDR - 1) / HDR + 1.

Lemma heap_first u : heap_new u → heap_ok (Heap (st32 (base + 4) 0 (st32 base base (h_mem u))) base (h_brk u)) [] [].
Proof.
  intros (Hf&H0&Hb). change KERNBASE with (2 ^ 31) in *. change HDR with 8 in *. split; try done.
  - cbn [seg fst snd hd_addr h_mem]. split_and!; [rewrite ld32_st32_ne; [lia|]; apply ld32_st32_eq; lia|by apply ld32_st32_eq|done].
  - apply spaced_nil.
  - exists 0. by left.
  - intros x Hx. by destruct (cover_nil x).
Qed.

Lemma malloc_ring u F A n :
  heap_ok u F A → 1 ≤ n < 2 ^ 28 →
  wp (p ← ptr (h_freep u); k ← gets headers; malloc_loop grants (2 * k + 3) n (h_freep u) p) u (malloced u F A n).
Proof.
  intros Hh Hn. destruct (ho_freep _ _ _ Hh) as [fn Hfp]. apply list_elem_of_lookup in Hfp as [f Hf].
  destruct (lookup_lt_is_Some_2 (ring F) (after (length (ring F)) f) (after_lt _ _ (lookup_lt_Some _ _ _ Hf))) as [p Hp].
  destruct (seg_after _ _ _ _ _ (ho_seg _ _ _ Hh : seg _ (ring F) (hd_addr (ring F) 0)) Hf Hp) as [P1 _]. cbn [fst] in P1.
  apply wp_bind, wp_gets. rewrite P1. apply wp_bind, wp_gets. pose proof (ring_headers u F A Hh).
  apply (malloc_run u F A n _ (h_freep u, fn) (h_freep u, fn) p f f); try done. lia.
Qed.
End Grants.
End Heap.

(** ** Theorems *)

Section Claims.
Context (base : Z) (grants : Z → Z → bool).

(** What a call of [malloc] for [nbytes] bytes does: it fails and the blocks are as before, or the block of the result was
    free or above the break, and is now in use. *)
Definition allocated (u : heap) (F A : list blk) (nbytes r : Z) (u' : heap) : Prop :=
  kept A (h_mem u) (h_mem u') ∧
  (r = 0 ∧ heap_inv base u' F A ∧ h_brk u' = h_brk u ∨
   ∃ b F', r = b + HDR ∧ r + nbytes ≤ fin (b, units nbytes) ∧ heap_inv base u' F' ((b, units nbytes) :: A) ∧
     (∀ x, within (b, units nbytes) x → cover F x ∨ h_brk u ≤ x) ∧ h_brk u ≤ h_brk u').

Lemma malloc_wp u F A nbytes :
  heap_inv base u F A → 0 ≤ nbytes ≤ 2 ^ 31 - 16 → wp (malloc base grants nbytes) u (allocated u F A nbytes).
Proof.
  intros Hu Hn. assert (u32 (u32 (nbytes + HDR - 1) / HDR + 1) = units nbytes ∧ 1 ≤ units nbytes < 2 ^ 28 ∧ nbytes ≤ HDR * (units nbytes - 1)) as (Eu&Hu1&Hu2).
  { rw /units. change HDR with 8. rewrite (u32_small (nbytes + 8 - 1)); [lia|]. rewrite u32_small; Z.div_mod_to_equations; lia. }
  assert (∀ u1 r u', kept A (h_mem u) (h_mem u1) → h_brk u1 = h_brk u → heap_ok base u1 F A → malloced base u1 F A (units nbytes) r u' → allocated u F A nbytes r u') as Hend.
  { intros u1 r u' Hk Eb Hh [[-> ->]|(b&F'&->&H1&H2&H3&H4)].
    - split; [done|]. left. split_and!; [done|by left|done].
    - split; [intros x Hx; rewrite H3 //; by apply Hk|]. right. exists b, F'. rewrite Eb in H2, H4. split_and!; [done| |by left|done|done].
      rw /fin /=. change HDR with 8 in *. lia. }
  rw /malloc. rewrite Eu. apply wp_bind, wp_gets. destruct Hu as [Hh|(Hnew&->&->)].
  - pose proof (freep_pos base u F A Hh). destruct (Z.eqb_spec (h_freep u) 0); [done|]. apply wp_bind, wp_ret.
    eapply wp_mono; [by apply (malloc_ring base grants u F A)|]. intros r u'. apply Hend; [done|done|done].
  - pose proof (heap_first base u Hnew) as Hh. destruct Hnew as (->&_). rewrite Z.eqb_refl. apply wp_bind. do 3 apply wp_bind, wp_modify. apply wp_ret.
    eapply wp_mono; [by apply (malloc_ring base grants _ [] [] _ Hh)|]. intros r u'. apply Hend; [|done|done]. intros x Hx. by destruct (cover_nil x).
Qed.

Definition released (u : heap) (F A' : list blk) (b : blk) (u' : heap) : Prop :=
  ∃ F', heap_inv base u' F' A' ∧ (∀ x, cover F' x ↔ cover F x ∨ within b x) ∧ kept A' (h_mem u) (h_mem u') ∧ h_brk u' = h_brk u.

Lemma release_wp u F A A' b n :
  heap_inv base u F A → A ≡ₚ (b, n) :: A' → wp (free (b + HDR)) u (λ _, released u F A' (b, n)).
Proof.
  intros Hu HA. destruct Hu as [Hh|(_&_&->)]; [|by apply Permutation_nil_l in HA].
  pose proof (ho_live _ _ _ _ (heap_ok_perm base u F A _ HA Hh)) as [(_&L1&L2&L3) _]%Forall_cons.
  pose proof (ho_brk _ _ _ _ Hh) as Hb. pose proof (ho_base _ _ _ _ Hh). change KERNBASE with (2 ^ 31) in Hb. rw /fin in L3. simpl in *. change HDR with 8 in *.
  assert (b + 8 = hadd b 1) as -> by (rw /hadd; change HDR with 8; rewrite u32_small; lia).
  apply (free_wp base u F A (b, n) A'); [done|done|]. intros u' F' H1 H2 H3 H4 _. exists F'. split_and!; [by left|done..].
Qed.

(** A client: it allocates, releases blocks it has, and writes the bytes it was given. *)
Inductive client : heap * list blk → heap * list blk → Prop :=
| client_malloc u A nbytes r u' :
    0 ≤ nbytes ≤ 2 ^ 31 - 16 → malloc base grants nbytes u = Ret r u' →
    client (u, A) (u', if r =? 0 then A else (r - HDR, units nbytes) :: A)
| client_free u A b n A' u' :
    A ≡ₚ (b, n) :: A' → free (b + HDR) u = Ret tt u' → client (u, A) (u', A')
| client_write u A b x v :
    b ∈ A → b.1 + HDR ≤ x < fin b → client (u, A) (with_mem (st8 x v (h_mem u)) u, A).

Lemma apart_same A b c x : apart_all A → b ∈ A → c ∈ A → within b x → within c x → b = c.
Proof.
  induction A as [|d A IH]; [by intros _ ?%elem_of_nil|]. intros [Hd Ha] [->|Hb]%elem_of_cons [->|Hc]%elem_of_cons Wb Wc; [done| | |by apply IH].
  - destruct (Hd x Wb). by exists c.
  - destruct (Hd x Wc). by exists b.
Qed.

Lemma heap_write_inv u F A b x v :
  b ∈ A → b.1 + HDR ≤ x < fin b → heap_inv base u F A → heap_inv base (with_mem (st8 x v (h_mem u)) u) F A.
Proof.
  intros Hb Hx [Hh|(_&_&->)]; [|by apply elem_of_nil in Hb]. left. destruct Hh as [Hbase Hbrk Hseg Hsp Hfp Htop Hlive Hfree Hap].
  pose proof Hlive as Hl. rewrite Forall_forall in Hl. destruct (Hl b Hb) as (_&Hb2&Hb3&_).
  assert (cover A x) as HxA by (exists b; split; [done|]; rw /within; change HDR with 8 in *; lia).
  change HDR with 8 in *. split; try done; cbn [with_mem h_mem].
  - apply (seg_same (h_mem u)); [|done]. intros c y Hc Hy. apply ld8_st8_ne. intros ->.
    destruct (ring_header base F c y Hsp Hc Hy); [change HDR with 8 in *; lia|by apply (Hfree y)].
  - apply Forall_forall. intros c Hc. destruct (Hl c Hc) as (C1&C2&C3&C4). split_and!; try done. cbn [h_mem]. rewrite -C1. apply ld32_same.
    intros y Hy. apply ld8_st8_ne. intros ->. pose proof (fin_ge c C2). change HDR with 8 in *. assert (within b y ∧ within c y) as [Wb Wc] by (rw /within; lia).
    pose proof (apart_same A b c y Hap Hb Hc Wb Wc) as ->. lia.
Qed.

(** [malloc] of less than two gigabytes returns, whatever the kernel answers.  The block it hands out is free before, apart
    from all blocks in use and large enough; when it returns 0 the kernel gave no memory and the blocks are as
    before.  No byte of a block in use changes and the ring of free blocks stays in order. *)
Theorem malloc_allocates u F A nbytes (Hu : heap_inv base u F A) (Hn : 0 ≤ nbytes ≤ 2 ^ 31 - 16) :
  wp (malloc base grants nbytes) u (allocated u F A nbytes).
Proof. by apply malloc_wp. Qed.

(** [free] of a block in use returns.  Its bytes are free afterwards, joined with the free blocks they touch, and
    no byte of the other blocks in use changes. *)
Theorem free_releases u F A A' b n (Hu : heap_inv base u F A) (HA : A ≡ₚ (b, n) :: A') :
  wp (free (b + HDR)) u (λ _, released u F A' (b, n)).
Proof. by apply (release_wp u F A). Qed.

End Claims.

(** ** Witnesses *)

Notation um_start := (Heap ∅ 0 16384).
Notation um_yes := (λ _ _ : Z, true).

Lemma um_new : heap_new 4096 um_start.
Proof. split_and!; vm_compute; congruence. Qed.

Lemma malloc_allocates_witness : wp (malloc 4096 um_yes 20) um_start (allocated 4096 um_start [] [] 20).
Proof. apply malloc_allocates; [right; split; [exact um_new|done]|lia]. Defined.

Lemma um_used : ∃ F, heap_inv 4096 (state_of (malloc 4096 um_yes 20) um_start) F [(49120, 4)].
Proof.
  pose proof (malloc_wp 4096 um_yes um_start [] [] 20 ltac:(right; split; [exact um_new|done]) ltac:(lia)) as H.
  assert (malloc 4096 um_yes 20 um_start = Ret 49128 (state_of (malloc 4096 um_yes 20) um_start)) as E by (vm_compute; reflexivity).
  destruct (wp_result _ _ _ _ _ H E) as [_ [(H'&_)|(b&F'&Hb&_&H1&_)]]; [discriminate H'|]. exists F'. change HDR with 8 in Hb. assert (b = 49120) as Eb by lia. rewrite -Eb. exact H1.
Qed.

Lemma free_releases_witness : ∃ F,
  wp (free (49120 + HDR)) (state_of (malloc 4096 um_yes 20) um_start)
    (λ _, released 4096 (state_of (malloc 4096 um_yes 20) um_start) F [] (49120, 4)).
Proof. destruct um_used as [F HF]. exists F. exact (free_releases 4096 _ F _ [] 49120 4 HF ltac:(reflexivity)). Defined.


(** A request of two gigabytes succeeds whatever memory the kernel has: the size in bytes does not fit the int
    [sbrk] takes, the break stays where it is, and the result is a block above it. *)
Theorem malloc_unbacked grants :
  match malloc 4096 grants (2 ^ 31) um_start with
  | Ret r u => r = 16392 ∧ h_brk u = 16384
  | _ => False
  end.
Proof. vm_compute. split; reflexivity. Qed.
