(* ===== verification/Console.v ===== *)
(** * The console (xv6/console.c, kbd.c, kbd.h, uart.c).

    Output: numbers, formats, the CGA screen behind its cursor registers and the serial line.  Input: the
    keyboard and serial drivers, the line editor of [consoleintr] over its ring of 128 bytes, and
    [consoleread] with the processes asleep on it.  The theorems: printed numbers read back; the cursor never leaves
    the first 24 rows and the screen is a window on everything printed; the ring refines a line editor with
    lists. *)
From S2P Require Import Prelude Numbers Spinlock Layout.
Local Open Scope Z_scope.

(** ** State *)

Definition INPUT_BUF : Z := 128.
Definition BACKSPACE : Z := 0x100.
Definition CRTPORT : Z := 0x3d4.
Definition COM1 : Z := 0x3f8.
Definition CHAR_NL : Z := 10.
Definition CHAR_CR : Z := 13.
(** [C(x)], the code of control-x. *)
Definition CTRL (x : Z) : Z := x - 64.

(** The ring [input], with free-running 32-bit indices. *)
Record ring := Ring { in_buf : list Z; in_r : Z; in_w : Z; in_e : Z }.

(** The screen: CGA memory and the index and cursor registers of its controller. *)
Record cga := Cga { crt : list Z; crt_index : Z; crt_hi : Z; crt_lo : Z }.

(** A process in [consoleread]: what it still has to do. *)
Record reader := Reader { rd_asleep : bool; rd_ip : nat; rd_target : Z; rd_left : nat; rd_got : list Z }.

(** The keyboard controller and the modifier keys ([shift]). *)
Record keyboard := Keyboard { kb_data : list Z; kb_shift : Z }.
(** The serial port: whether it is there, bytes received and bytes sent. *)
Record serial := Serial { uart : bool; ser_in : list Z; ser_out : list Z }.

Record console (W : Type) := Console {
  input : ring;
  screen : cga;
  kbd : keyboard;
  com1 : serial;
  panicked : bool;
  locking : bool;
  readers : gmap nat reader;
  clocks : list string;
  world : W
}.
Arguments Console {W} _ _ _ _ _ _ _ _ _.
Arguments input {W} _.
Arguments screen {W} _.
Arguments kbd {W} _.
Arguments com1 {W} _.
Arguments panicked {W} _.
Arguments locking {W} _.
Arguments readers {W} _.
Arguments clocks {W} _.
Arguments world {W} _.

#[global] Program Instance console_HasLocks W : HasLocks (console W) :=
  {| held := clocks;
     set_held := λ h s, Console (input s) (screen s) (kbd s) (com1 s) (panicked s) (locking s) (readers s) h (world s) |}.
Next Obligation. done. Qed.

Section Console.
(** The rest of the kernel: the inode of the console is unlocked while a process waits, and the process list
    is printed on control-P. *)
Context {W : Type} (iunlock ilock : nat → K W unit) (procdump : K W unit).
Notation M := (K (console W)).

Definition set_input (x : ring) (s : console W) : console W :=
  Console x (screen s) (kbd s) (com1 s) (panicked s) (locking s) (readers s) (clocks s) (world s).
Definition set_screen (x : cga) (s : console W) : console W :=
  Console (input s) x (kbd s) (com1 s) (panicked s) (locking s) (readers s) (clocks s) (world s).
Definition set_kbd (x : keyboard) (s : console W) : console W :=
  Console (input s) (screen s) x (com1 s) (panicked s) (locking s) (readers s) (clocks s) (world s).
Definition set_com1 (x : serial) (s : console W) : console W :=
  Console (input s) (screen s) (kbd s) x (panicked s) (locking s) (readers s) (clocks s) (world s).
Definition set_panicked (x : bool) (s : console W) : console W :=
  Console (input s) (screen s) (kbd s) (com1 s) x (locking s) (readers s) (clocks s) (world s).
Definition set_locking (x : bool) (s : console W) : console W :=
  Console (input s) (screen s) (kbd s) (com1 s) (panicked s) x (readers s) (clocks s) (world s).
Definition set_readers (x : gmap nat reader) (s : console W) : console W :=
  Console (input s) (screen s) (kbd s) (com1 s) (panicked s) (locking s) x (clocks s) (world s).
Definition in_world {A} (m : K W A) : M A :=
  zoom world (λ w s, Console (input s) (screen s) (kbd s) (com1 s) (panicked s) (locking s) (readers s) (clocks s) w) m.

(** ** Serial port *)

(** The wait for the transmitter does not change the state; the byte is sent after it in any case. *)
Definition uartputc (c : Z) : M unit :=
  u ← gets com1;
  if negb (uart u) then mret tt
  else modify (set_com1 (Serial (uart u) (ser_in u) (ser_out u ++ [u8 c]))).

Definition uartgetc : M Z :=
  u ← gets com1;
  if negb (uart u) then mret (-1)
  else match ser_in u with
       | [] => mret (-1)
       | c :: l => _ ← modify (set_com1 (Serial (uart u) l (ser_out u))); mret c
       end.

(** [status]: what the line status register says.  The setup of the line is left out; a byte that was received before
    is read and dropped. *)
Definition uartinit (status : Z) : M unit :=
  if status =? 0xFF then mret tt
  else
    _ ← modify (λ s, set_com1 (Serial true (drop 1 (ser_in (com1 s))) (ser_out (com1 s))) s);
    for_each [120; 118; 54; 46; 46; 46; 10] uartputc.

(** ** Screen *)

Definition outb (port v : Z) : M unit :=
  g ← gets screen;
  if port =? CRTPORT then modify (set_screen (Cga (crt g) (u8 v) (crt_hi g) (crt_lo g)))
  else if port =? CRTPORT + 1 then
    if crt_index g =? 14 then modify (set_screen (Cga (crt g) (crt_index g) (u8 v) (crt_lo g)))
    else if crt_index g =? 15 then modify (set_screen (Cga (crt g) (crt_index g) (crt_hi g) (u8 v)))
    else mret tt
  else mret tt.
Definition inb (port : Z) : M Z :=
  g ← gets screen;
  mret (if port =? CRTPORT + 1 then
          if crt_index g =? 14 then crt_hi g else if crt_index g =? 15 then crt_lo g else 0
        else 0).

Definition set_cell (pos v : Z) : M unit :=
  g ← gets screen;
  if Z.of_nat (length (crt g)) <=? pos then undef "crt"
  else modify (set_screen (Cga (<[Z.to_nat pos := v]> (crt g)) (crt_index g) (crt_hi g) (crt_lo g))).
Definition set_cells (l : list Z) : M unit :=
  modify (λ s, set_screen (Cga l (crt_index (screen s)) (crt_hi (screen s)) (crt_lo (screen s))) s).

(** Memory from [crt + 80] is moved to [crt]; the last row is cleared. *)
Definition scroll (pos : Z) (l : list Z) : list Z :=
  splice (Z.to_nat pos) (replicate (Z.to_nat (24 * 80 - pos)) 0) (splice 0 (slice 80 (23 * 80) l) l).

Definition cgaputc (c : Z) : M unit :=
  _ ← outb CRTPORT 14;
  hi ← inb (CRTPORT + 1);
  _ ← outb CRTPORT 15;
  lo ← inb (CRTPORT + 1);
  let pos := Z.lor (Z.shiftl hi 8) lo in
  pos ← (if c =? CHAR_NL then mret (pos + (80 - pos mod 80))
         else if c =? BACKSPACE then mret (if 0 <? pos then pos - 1 else pos)
         else _ ← set_cell pos (Z.lor (Z.land c 0xff) 0x0700); mret (pos + 1));
  if (pos <? 0) || (25 * 80 <? pos) then panic "pos under/overflow"
  else
    pos ← (if 24 <=? pos / 80 then
             g ← gets screen;
             _ ← set_cells (scroll (pos - 80) (crt g));
             mret (pos - 80)
           else mret pos);
    _ ← outb CRTPORT 14;
    _ ← outb (CRTPORT + 1) (Z.shiftr pos 8);
    _ ← outb CRTPORT 15;
    _ ← outb (CRTPORT + 1) pos;
    set_cell pos (Z.lor 32 0x0700).

(** A CPU that finds [panicked] set stops. *)
Definition consputc (c : Z) : M unit :=
  p ← gets panicked;
  if (p : bool) then panic "stopped"
  else
    _ ← (if c =? BACKSPACE then _ ← uartputc 8; _ ← uartputc 32; uartputc 8 else uartputc c);
    cgaputc c.

Definition cons_puts (l : list Z) : M unit := for_each l consputc.

(** ** Numbers and formats *)

(** [digits[d]] *)
Definition digit (d : Z) : Z := if d <? 10 then 48 + d else 87 + d.

(** The digits go into sixteen bytes on the stack. *)
Definition printint (xx base : Z) (sign : bool) : M unit :=
  let buf := printint_buf digit xx base sign in
  if (16 <? length buf)%nat then undef "printint: buf" else cons_puts (rev buf).

(** The arguments of [cprintf]: words, and strings at addresses ([None] for a null pointer). *)
Inductive carg := CNum (x : Z) | CStr (s : option (list Z)).

Definition NULL_STR : list Z := [40; 110; 117; 108; 108; 41].

Fixpoint cprintf_loop (fmt : list Z) (args : list carg) : M unit :=
  match fmt with
  | [] => mret tt
  | c :: fmt1 =>
      if c =? 0 then mret tt
      else if negb (c =? 37) then _ ← consputc c; cprintf_loop fmt1 args
      else match fmt1 with
           | [] => mret tt
           | c2 :: fmt2 =>
               if c2 =? 0 then mret tt
               else if c2 =? 100 then
                 match args with
                 | CNum x :: args => _ ← printint (s32 x) 10 true; cprintf_loop fmt2 args
                 | _ => undef "cprintf: argument"
                 end
               else if (c2 =? 120) || (c2 =? 112) then
                 match args with
                 | CNum x :: args => _ ← printint (s32 x) 16 false; cprintf_loop fmt2 args
                 | _ => undef "cprintf: argument"
                 end
               else if c2 =? 115 then
                 match args with
                 | CStr s :: args => _ ← cons_puts (cstring (default NULL_STR s)); cprintf_loop fmt2 args
                 | _ => undef "cprintf: argument"
                 end
               else if c2 =? 37 then _ ← consputc 37; cprintf_loop fmt2 args
               else _ ← consputc 37; _ ← consputc c2; cprintf_loop fmt2 args
           end
  end.

Definition cprintf (fmt : list Z) (args : list carg) : M unit :=
  l ← gets locking;
  _ ← when l (lock_acquire "console");
  _ ← cprintf_loop fmt args;
  when l (lock_release "console").

(** What [panic] prints before its CPU stops; the others stop at their next [consputc]. *)
Definition panic_prints (lapicid : Z) (str : list Z) (pcs : list Z) : M unit :=
  _ ← modify (set_locking false);
  _ ← cprintf ([108; 97; 112; 105; 99; 105; 100; 32; 37; 100; 58; 32; 112; 97; 110; 105; 99; 58; 32]) [CNum lapicid];
  _ ← cprintf str [];
  _ ← cprintf [CHAR_NL] [];
  _ ← for_each (take 10 pcs) (λ pc, cprintf [32; 37; 112] [CNum pc]);
  modify (set_panicked true).

(** ** Input *)

Definition in_at (i : Z) (x : ring) : Z := default 0 (in_buf x !! Z.to_nat (i mod INPUT_BUF)).
Definition set_e (e : Z) (x : ring) : ring := Ring (in_buf x) (in_r x) (in_w x) (u32 e).
Definition set_r (r : Z) (x : ring) : ring := Ring (in_buf x) (u32 r) (in_w x) (in_e x).
Definition commit (x : ring) : ring := Ring (in_buf x) (in_r x) (in_e x) (in_e x).
Definition put_char (c : Z) (x : ring) : ring :=
  Ring (<[Z.to_nat (in_e x mod INPUT_BUF) := c]> (in_buf x)) (in_r x) (in_w x) (u32 (in_e x + 1)).
Definition upd_input (f : ring → ring) : M unit := modify (λ s, set_input (f (input s)) s).

(** [wakeup(&input.r)] *)
Definition awake (p : reader) : reader := Reader false (rd_ip p) (rd_target p) (rd_left p) (rd_got p).
Definition wakeup_readers : M unit := modify (λ s, set_readers (awake <$> readers s) s).

(** The loop of control-U; at most the bytes between [w] and [e]. *)
Fixpoint kill_line (k : nat) : M unit :=
  match k with
  | O => mret tt
  | S k =>
      x ← gets input;
      if negb (in_e x =? in_w x) && negb (in_at (u32 (in_e x - 1)) x =? CHAR_NL) then
        _ ← upd_input (set_e (in_e x - 1));
        _ ← consputc BACKSPACE;
        kill_line k
      else mret tt
  end.

(** The [switch] of [consoleintr]; whether to print the processes. *)
Definition console_key (c : Z) : M bool :=
  if c =? CTRL 80 then mret true
  else if c =? CTRL 85 then
    x ← gets input;
    _ ← kill_line (Z.to_nat (u32 (in_e x - in_w x)));
    mret false
  else if (c =? CTRL 72) || (c =? 0x7f) then
    x ← gets input;
    _ ← when (negb (in_e x =? in_w x))
          (_ ← upd_input (set_e (in_e x - 1));
           consputc BACKSPACE);
    mret false
  else
    x ← gets input;
    _ ← when (negb (c =? 0) && (u32 (in_e x - in_r x) <? INPUT_BUF))
          (let c := if c =? CHAR_CR then CHAR_NL else c in
           _ ← upd_input (put_char (u8 c));
           _ ← consputc c;
           x ← gets input;
           when ((c =? CHAR_NL) || (c =? CTRL 68) || (in_e x =? u32 (in_r x + INPUT_BUF)))
             (_ ← upd_input commit;
              wakeup_readers));
    mret false.

Fixpoint consoleintr_loop (fuel : nat) (getc : M Z) (dump : bool) : M bool :=
  match fuel with
  | O => undef "consoleintr: loop"
  | S k =>
      c ← getc;
      if c <? 0 then mret dump
      else d ← console_key c; consoleintr_loop k getc (dump || d)
  end.

(** [fuel]: one more than the bytes the device holds. *)
Definition consoleintr (fuel : nat) (getc : M Z) : M unit :=
  _ ← lock_acquire "console";
  d ← consoleintr_loop fuel getc false;
  _ ← lock_release "console";
  when d (in_world procdump).

Inductive cresult := CReturn (r : Z) (bytes : list Z) | CAsleep.

(** [release], [ilock] and the value returned. *)
Definition consoleread_end (ip : nat) (r : Z) (bytes : list Z) : M cresult :=
  _ ← lock_release "console";
  _ ← in_world (ilock ip);
  mret (CReturn r bytes).

(** The loop of [consoleread] by process [i]: [n] bytes are left, [got] are copied. *)
Fixpoint consoleread_loop (i : nat) (killed : bool) (ip : nat) (target : Z) (n : nat) (got : list Z) : M cresult :=
  match n with
  | O => consoleread_end ip (s32 (u32 target)) got
  | S k =>
      x ← gets input;
      if in_r x =? in_w x then
        if killed then consoleread_end ip (-1) got
        else
          _ ← modify (λ s, set_readers (<[i := Reader true ip target n got]> (readers s)) s);
          _ ← lock_release "console";
          mret CAsleep
      else
        let c := in_at (in_r x) x in
        _ ← upd_input (set_r (in_r x + 1));
        if c =? CTRL 68 then
          x ← gets input;
          _ ← when (Z.of_nat n <? target) (upd_input (set_r (in_r x - 1)));
          consoleread_end ip (s32 (u32 (target - Z.of_nat n))) got
        else if c =? CHAR_NL then consoleread_end ip (s32 (u32 (target - Z.of_nat k))) (got ++ [c])
        else consoleread_loop i killed ip target k (got ++ [c])
  end.

(** A count that is not positive reads nothing. *)
Definition consoleread (i : nat) (killed : bool) (ip : nat) (n : Z) : M cresult :=
  _ ← in_world (iunlock ip);
  _ ← lock_acquire "console";
  if 0 <? n then consoleread_loop i killed ip n (Z.to_nat n) []
  else consoleread_end ip 0 [].

(** The process runs again after [sleep], which takes the lock. *)
Definition consoleread_resume (i : nat) (killed : bool) : M cresult :=
  rs ← gets readers;
  match rs !! i with
  | None => undef "no reader"
  | Some p =>
      _ ← modify (λ s, set_readers (delete i (readers s)) s);
      _ ← lock_acquire "console";
      consoleread_loop i killed (rd_ip p) (rd_target p) (rd_left p) (rd_got p)
  end.

Definition consolewrite (ip : nat) (buf : list Z) (n : Z) : M Z :=
  _ ← in_world (iunlock ip);
  _ ← lock_acquire "console";
  _ ← for_each (take (Z.to_nat n) buf) (λ c, consputc (Z.land c 0xff));
  _ ← lock_release "console";
  _ ← in_world (ilock ip);
  mret n.

(** ** Keyboard *)

Definition SHIFT : Z := 1.
Definition CTL : Z := 2.
Definition ALT : Z := 4.
Definition CAPSLOCK : Z := 8.
Definition NUMLOCK : Z := 16.
Definition SCROLLLOCK : Z := 32.
Definition E0ESC : Z := 64.

(** An array of 256 bytes: its first elements, and elements by index. *)
Definition table (dense : list Z) (sparse : list (Z * Z)) : list Z :=
  foldl (λ t kv, <[Z.to_nat kv.1 := kv.2]> t) (dense ++ replicate (256 - length dense) 0) sparse.
Definition shiftcode : list Z := table [] [(0x1D, CTL); (0x2A, SHIFT); (0x36, SHIFT); (0x38, ALT); (0x9D, CTL); (0xB8, ALT)].
Definition togglecode : list Z := table [] [(0x3A, CAPSLOCK); (0x45, NUMLOCK); (0x46, SCROLLLOCK)].
Definition normalmap : list Z := table
    [0; 27; 49; 50; 51; 52; 53; 54;
     55; 56; 57; 48; 45; 61; 8; 9;
     113; 119; 101; 114; 116; 121; 117; 105;
     111; 112; 91; 93; 10; 0; 97; 115;
     100; 102; 103; 104; 106; 107; 108; 59;
     39; 96; 0; 92; 122; 120; 99; 118;
     98; 110; 109; 44; 46; 47; 0; 42;
     0; 32; 0; 0; 0; 0; 0; 0;
     0; 0; 0; 0; 0; 0; 0; 55;
     56; 57; 45; 52; 53; 54; 43; 49;
     50; 51; 48; 46; 0; 0; 0; 0]
    [(0x9C, 10); (0xB5, 47); (0xC8, 226); (0xD0, 227); (0xC9, 230); (0xD1, 231); (0xCB, 228); (0xCD, 229); (0x97, 224); (0xCF, 225); (0xD2, 232); (0xD3, 233)].
Definition shiftmap : list Z := table
    [0; 27; 33; 64; 35; 36; 37; 94;
     38; 42; 40; 41; 95; 43; 8; 9;
     81; 87; 69; 82; 84; 89; 85; 73;
     79; 80; 123; 125; 10; 0; 65; 83;
     68; 70; 71; 72; 74; 75; 76; 58;
     34; 126; 0; 124; 90; 88; 67; 86;
     66; 78; 77; 60; 62; 63; 0; 42;
     0; 32; 0; 0; 0; 0; 0; 0;
     0; 0; 0; 0; 0; 0; 0; 55;
     56; 57; 45; 52; 53; 54; 43; 49;
     50; 51; 48; 46; 0; 0; 0; 0]
    [(0x9C, 10); (0xB5, 47); (0xC8, 226); (0xD0, 227); (0xC9, 230); (0xD1, 231); (0xCB, 228); (0xCD, 229); (0x97, 224); (0xCF, 225); (0xD2, 232); (0xD3, 233)].
Definition ctlmap : list Z := table
    [0; 0; 0; 0; 0; 0; 0; 0;
     0; 0; 0; 0; 0; 0; 0; 0;
     17; 23; 5; 18; 20; 25; 21; 9;
     15; 16; 0; 0; 13; 0; 1; 19;
     4; 6; 7; 8; 10; 11; 12; 0;
     0; 0; 0; 28; 26; 24; 3; 22;
     2; 14; 13; 0; 0; 239; 0; 0]
    [(0x9C, 13); (0xB5, 239); (0xC8, 226); (0xD0, 227); (0xC9, 230); (0xD1, 231); (0xCB, 228); (0xCD, 229); (0x97, 224); (0xCF, 225); (0xD2, 232); (0xD3, 233)].
Definition charcode : list (list Z) := [normalmap; shiftmap; ctlmap; ctlmap].
Definition code_at (t : list Z) (i : Z) : Z := default 0 (t !! Z.to_nat i).

(** One byte from the controller with the modifiers before it: the modifiers after it and the character. *)
Definition kbd_byte (shift data : Z) : Z * Z :=
  if data =? 0xE0 then (Z.lor shift E0ESC, 0)
  else if negb (Z.land data 0x80 =? 0) then
    let data := if negb (Z.land shift E0ESC =? 0) then data else Z.land data 0x7F in
    (Z.land shift (u32 (Z.lnot (Z.lor (code_at shiftcode data) E0ESC))), 0)
  else
    let '(data, shift) :=
      if negb (Z.land shift E0ESC =? 0) then (Z.lor data 0x80, Z.land shift (u32 (Z.lnot E0ESC))) else (data, shift) in
    let shift := Z.lor shift (code_at shiftcode data) in
    let shift := Z.lxor shift (code_at togglecode data) in
    let c := code_at (default [] (charcode !! Z.to_nat (Z.land shift (Z.lor CTL SHIFT)))) data in
    let c := if negb (Z.land shift CAPSLOCK =? 0) then
               if (97 <=? c) && (c <=? 122) then c + 65 - 97
               else if (65 <=? c) && (c <=? 90) then c + 97 - 65 else c
             else c in
    (shift, c).

Definition kbdgetc : M Z :=
  k ← gets kbd;
  match kb_data k with
  | [] => mret (-1)
  | data :: rest =>
      let '(shift, c) := kbd_byte (kb_shift k) data in
      _ ← modify (set_kbd (Keyboard rest shift));
      mret c
  end.

Definition kbdintr : M unit := k ← gets kbd; consoleintr (S (length (kb_data k))) kbdgetc.
Definition uartintr : M unit := u ← gets com1; consoleintr (S (length (ser_in u))) uartgetc.

(** The lock gets its name; the read and write routines of the device are [consoleread] and [consolewrite]. *)
Definition consoleinit : M unit := modify (set_locking true).

End Console.

(** ** Output *)

Definition cursor (g : cga) : Z := crt_hi g * 256 + crt_lo g.
Definition attr (c : Z) : Z := Z.lor (Z.land c 0xff) 0x0700.
Definition blank : Z := Z.lor 32 0x0700.

Record cga_ok (g : cga) : Prop := {
  ck_crt : length (crt g) = Z.to_nat (25 * 80);
  ck_hi : 0 ≤ crt_hi g < 256;
  ck_lo : 0 ≤ crt_lo g < 256;
  ck_pos : cursor g < 24 * 80
}.

(** Cells and position after a character, before and after the screen scrolls. *)
Definition cga_move (c : Z) (l : list Z) (pos : Z) : list Z * Z :=
  if c =? CHAR_NL then (l, pos + (80 - pos mod 80))
  else if c =? BACKSPACE then (l, if 0 <? pos then pos - 1 else pos)
  else (<[Z.to_nat pos := attr c]> l, pos + 1).
Definition cga_step (c : Z) (l : list Z) (pos : Z) : list Z * Z :=
  let '(l, pos) := cga_move c l pos in
  let '(l, pos) := if 24 <=? pos / 80 then (scroll (pos - 80) l, pos - 80) else (l, pos) in
  (<[Z.to_nat pos := blank]> l, pos).
Definition cga_after (c : Z) (g : cga) : cga :=
  let '(l, pos) := cga_step c (crt g) (cursor g) in Cga l 15 (pos / 256) (pos mod 256).
Definition ser_after (c : Z) (u : serial) : serial :=
  if uart u then Serial true (ser_in u) (ser_out u ++ (if c =? BACKSPACE then [8; 32; 8] else [u8 c])) else u.

Section Output.
Context {W : Type}.
Implicit Types s : console W.

Definition putc_state (c : Z) s : console W := set_screen (cga_after c (screen s)) (set_com1 (ser_after c (com1 s)) s).

Lemma cga_move_range c l pos : 0 ≤ pos < 24 * 80 → 0 ≤ (cga_move c l pos).2 ≤ 24 * 80.
Proof.
  intros Hp. rw /cga_move. destruct (c =? CHAR_NL); [simpl; Z.div_mod_to_equations; lia|].
  destruct (c =? BACKSPACE); simpl; [destruct (Z.ltb_spec 0 pos); lia|lia].
Qed.
Lemma cga_move_length c l pos : length (cga_move c l pos).1 = length l.
Proof. rw /cga_move. destruct (c =? CHAR_NL); [done|]. destruct (c =? BACKSPACE); [done|]. simpl. by rewrite length_insert. Qed.

Lemma scroll_length pos l : length l = Z.to_nat (25 * 80) → 0 ≤ pos ≤ 24 * 80 → length (scroll pos l) = length l.
Proof.
  intros Hl Hp. assert (length (splice 0 (slice 80 (23 * 80) l) l) = length l) as H1.
  { apply length_splice. rewrite length_slice; rewrite Hl; lia. }
  rw /scroll. rewrite length_splice //. rewrite H1 length_replicate Hl. lia.
Qed.

Lemma cga_step_ok c l pos :
  0 ≤ pos < 24 * 80 → length l = Z.to_nat (25 * 80) →
  0 ≤ (cga_step c l pos).2 < 24 * 80 ∧ length (cga_step c l pos).1 = Z.to_nat (25 * 80).
Proof.
  intros Hp Hl. pose proof (cga_move_range c l pos Hp) as Hm. pose proof (cga_move_length c l pos) as Hml. rw /cga_step.
  destruct (cga_move c l pos) as [l1 p1]. simpl in Hm, Hml. destruct (Z.leb_spec 24 (p1 / 80)) as [H|H]; simpl; rewrite length_insert.
  - assert (p1 = 24 * 80) as -> by (Z.div_mod_to_equations; lia). rewrite scroll_length; [congruence|lia|]. split; [lia|congruence].
  - split; [Z.div_mod_to_equations; lia|congruence].
Qed.

Lemma cga_after_ok c g : cga_ok g → cga_ok (cga_after c g).
Proof.
  intros [H1 H2 H3 H4]. assert (0 ≤ cursor g) by (rw /cursor; lia). destruct (cga_step_ok c (crt g) (cursor g)) as [Hp Hl]; [done|done|].
  rw /cga_after. destruct (cga_step c (crt g) (cursor g)) as [l p]. simpl in Hp, Hl. split; rw /cursor /=; [done|Z.div_mod_to_equations; lia..].
Qed.

Lemma port_pos hi lo : 0 ≤ lo < 256 → Z.lor (Z.shiftl hi 8) lo = hi * 256 + lo.
Proof.
  intros Hl. rewrite Z.shiftl_mul_pow2 //. change (2 ^ 8) with 256. apply (lor_aligned_small 8); [done|by apply Z_mod_mult|done].
Qed.

Lemma wp_select v s Q : Q tt (set_screen (Cga (crt (screen s)) (u8 v) (crt_hi (screen s)) (crt_lo (screen s))) s) → wp (outb CRTPORT v) s Q.
Proof. intros H. exact H. Qed.
Lemma wp_write_hi v s Q :
  crt_index (screen s) = 14 → Q tt (set_screen (Cga (crt (screen s)) 14 (u8 v) (crt_lo (screen s))) s) → wp (outb (CRTPORT + 1) v) s Q.
Proof. intros E H. rw /outb. apply wp_bind, wp_gets. cbn. rewrite E. exact H. Qed.
Lemma wp_write_lo v s Q :
  crt_index (screen s) = 15 → Q tt (set_screen (Cga (crt (screen s)) 15 (crt_hi (screen s)) (u8 v)) s) → wp (outb (CRTPORT + 1) v) s Q.
Proof. intros E H. rw /outb. apply wp_bind, wp_gets. cbn. rewrite E. exact H. Qed.
Lemma wp_read_crt s Q :
  (crt_index (screen s) = 14 → Q (crt_hi (screen s)) s) → (crt_index (screen s) = 15 → Q (crt_lo (screen s)) s) →
  crt_index (screen s) = 14 ∨ crt_index (screen s) = 15 → wp (inb (CRTPORT + 1)) s Q.
Proof. intros H1 H2 [E|E]; rw /inb; apply wp_bind, wp_gets, wp_ret; rewrite E; [exact (H1 E)|exact (H2 E)]. Qed.

Lemma wp_cell pos v s Q :
  pos < Z.of_nat (length (crt (screen s))) →
  Q tt (set_screen (Cga (<[Z.to_nat pos := v]> (crt (screen s))) (crt_index (screen s)) (crt_hi (screen s)) (crt_lo (screen s))) s) → wp (set_cell pos v) s Q.
Proof. intros Hp HQ. rw /set_cell. apply wp_bind, wp_gets. destruct (Z.leb_spec (Z.of_nat (length (crt (screen s)))) pos); [lia|]. exact HQ. Qed.

(** The cursor registers, written byte by byte. *)
Lemma set_cursor_wp pos s Q :
  0 ≤ pos < 24 * 80 → length (crt (screen s)) = Z.to_nat (25 * 80) →
  Q tt (set_screen (Cga (<[Z.to_nat pos := blank]> (crt (screen s))) 15 (pos / 256) (pos mod 256)) s) →
  wp (_ ← outb CRTPORT 14; _ ← outb (CRTPORT + 1) (Z.shiftr pos 8); _ ← outb CRTPORT 15; _ ← outb (CRTPORT + 1) pos;
      set_cell pos (Z.lor 32 0x0700)) s Q.
Proof.
  intros Hp Hl HQ. apply wp_bind, wp_select. apply wp_bind, wp_write_hi; [done|]. apply wp_bind, wp_select. apply wp_bind, wp_write_lo; [done|].
  apply wp_cell; [cbn [screen set_screen crt]; rewrite Hl; lia|]. cbn [screen set_screen crt crt_index crt_hi crt_lo].
  rewrite Z.shiftr_div_pow2 //. rewrite u8_small; [change (2 ^ 8) with 256; Z.div_mod_to_equations; lia|]. exact HQ.
Qed.

Lemma cgaputc_wp c s Q : cga_ok (screen s) → Q tt (set_screen (cga_after c (screen s)) s) → wp (cgaputc c) s Q.
Proof.
  intros [H1 H2 H3 H4] HQ. assert (0 ≤ cursor (screen s)) as H0 by (rw /cursor; lia).
  destruct (cga_step_ok c (crt (screen s)) (cursor (screen s))) as [Hp Hl]; [done|done|].
  pose proof (cga_move_range c (crt (screen s)) (cursor (screen s)) ltac:(done)) as Hm. pose proof (cga_move_length c (crt (screen s)) (cursor (screen s))) as Hml.
  rw /cgaputc. apply wp_bind, wp_select. apply wp_bind, wp_read_crt; [intros _|done|by left]. apply wp_bind, wp_select. apply wp_bind, wp_read_crt; [done|intros _|by right].
  cbn [screen set_screen crt crt_index crt_hi crt_lo]. rewrite port_pos //. fold (cursor (screen s)). cbv zeta.
  set (s1 := set_screen _ _).
  assert (∀ Q', (∀ s2, screen s2 = Cga (cga_move c (crt (screen s)) (cursor (screen s))).1 15 (crt_hi (screen s)) (crt_lo (screen s)) → set_screen (screen s) s2 = s → Q' (cga_move c (crt (screen s)) (cursor (screen s))).2 s2) →
    wp (if c =? CHAR_NL then mret (cursor (screen s) + (80 - cursor (screen s) mod 80))
        else if c =? BACKSPACE then mret (if 0 <? cursor (screen s) then cursor (screen s) - 1 else cursor (screen s))
        else _ ← set_cell (cursor (screen s)) (Z.lor (Z.land c 0xff) 0x0700); mret (cursor (screen s) + 1)) s1 Q') as Hmove.
  { intros Q' HQ'. rw /cga_move in HQ'. destruct (c =? CHAR_NL); [by apply HQ'; destruct s as [? []]|]. destruct (c =? BACKSPACE); [by apply HQ'; destruct s as [? []]|].
    apply wp_bind, wp_cell; [rewrite H1; lia|]. by apply HQ'; destruct s as [? []]. }
  apply wp_bind, Hmove. intros s2 E2 Es2. clear Hmove. rw /cga_after /cga_step in HQ. rw /cga_step in Hp, Hl.
  destruct (cga_move c (crt (screen s)) (cursor (screen s))) as [l1 p1]. cbn [fst snd] in Hm, Hml, E2 |- *.
  destruct (Z.ltb_spec p1 0); [lia|]. destruct (Z.ltb_spec (25 * 80) p1); [lia|]. cbn [orb].
  destruct (Z.leb_spec 24 (p1 / 80)).
  - apply wp_bind, wp_bind, wp_gets. apply wp_bind, wp_modify, wp_ret. rewrite E2. cbn [crt crt_index crt_hi crt_lo].
    apply set_cursor_wp; [done|simpl; by rewrite length_insert in Hl|]. rewrite -Es2 in HQ. exact HQ.
  - apply wp_bind, wp_ret. apply set_cursor_wp; [done|rewrite E2; simpl; by rewrite length_insert in Hl|]. rewrite E2. rewrite -Es2 in HQ. exact HQ.
Qed.

(** The console can print. *)
Definition con_ok s : Prop := panicked s = false ∧ cga_ok (screen s).

Lemma putc_ok c s : con_ok s → con_ok (putc_state c s).
Proof. intros [H1 H2]. split; [done|]. by apply cga_after_ok. Qed.

Lemma consputc_wp c s (Q : unit → console W → Prop) : con_ok s → Q tt (putc_state c s) → wp (consputc c) s Q.
Proof.
  intros [Hp Hg] HQ. rw /consputc. apply wp_bind, wp_gets. rewrite Hp. apply wp_bind.
  assert (∀ (R : unit → console W → Prop), R tt (set_com1 (ser_after c (com1 s)) s) →
    wp (if c =? BACKSPACE then _ ← uartputc 8; _ ← uartputc 32; uartputc 8 else uartputc c) s R) as Hu.
  { intros R HR. rw /ser_after in HR. destruct (com1 s) as [up i o] eqn:Eu. cbn [uart ser_in ser_out] in HR.
    assert (∀ (u' : console W) d (R' : unit → console W → Prop), uart (com1 u') = up → wp (uartputc d) u' R' ↔
      R' tt (if up then set_com1 (Serial (uart (com1 u')) (ser_in (com1 u')) (ser_out (com1 u') ++ [u8 d])) u' else u')) as Hone.
    { intros u' d R' E. rw /uartputc /wp /mbind /K_bind /gets E. by destruct up. }
    destruct up; destruct (c =? BACKSPACE).
    - do 2 (apply wp_bind, Hone; [by rewrite ?Eu|]). apply Hone; [by rewrite ?Eu|]. cbn [com1 set_com1 uart ser_in ser_out]. rewrite Eu. cbn [uart ser_in ser_out]. by rewrite -!app_assoc.
    - apply Hone; [by rewrite Eu|]. by rewrite Eu.
    - do 2 (apply wp_bind, Hone; [by rewrite ?Eu|]). apply Hone; [by rewrite ?Eu|]. rewrite -Eu in HR. by destruct s.
    - apply Hone; [by rewrite Eu|]. rewrite -Eu in HR. by destruct s. }
  apply Hu. by apply cgaputc_wp.
Qed.

Definition puts_state (l : list Z) s : console W := foldl (λ s c, putc_state c s) s l.

Lemma puts_ok l s : con_ok s → con_ok (puts_state l s).
Proof. revert s. induction l as [|c l IH]; intros s Hs; [done|]. by apply IH, putc_ok. Qed.
Lemma cons_puts_wp l s (Q : unit → console W → Prop) : con_ok s → Q tt (puts_state l s) → wp (cons_puts l) s Q.
Proof.
  revert s. induction l as [|c l IH]; intros s Hs HQ; [done|]. apply wp_bind, consputc_wp; [done|]. apply IH; [by apply putc_ok|done].
Qed.
Lemma puts_app l1 l2 s : puts_state (l1 ++ l2) s = puts_state l2 (puts_state l1 s).
Proof. apply foldl_app. Qed.

(** *** The screen is a window *)

(** Everything printed on a roll of paper: cells from the first row on, the position of the cursor and the
    number of rows above the screen. *)
Record paper := Paper { pa_cell : Z → Z; pa_pos : Z; pa_top : Z }.

Definition paper_put (c : Z) (p : paper) : paper :=
  let '(f, q) :=
    if c =? CHAR_NL then (pa_cell p, pa_pos p + (80 - pa_pos p mod 80))
    else if c =? BACKSPACE then (pa_cell p, if 80 * pa_top p <? pa_pos p then pa_pos p - 1 else pa_pos p)
    else (λ j, if j =? pa_pos p then attr c else pa_cell p j, pa_pos p + 1) in
  Paper (λ j, if j =? q then blank else f j) q (if 80 * (pa_top p + 24) <=? q then pa_top p + 1 else pa_top p).

Record shows (g : cga) (p : paper) : Prop := {
  sw_cells : ∀ j, 0 ≤ j < 24 * 80 → crt g !! Z.to_nat j = Some (pa_cell p (80 * pa_top p + j));
  sw_pos : pa_pos p = 80 * pa_top p + cursor g;
  sw_below : ∀ j, 80 * (pa_top p + 24) ≤ j → pa_cell p j = 0
}.

Lemma lookup_scroll l j :
  length l = Z.to_nat (25 * 80) → 0 ≤ j < 24 * 80 →
  scroll (23 * 80) l !! Z.to_nat j = if j <? 23 * 80 then l !! Z.to_nat (j + 80) else Some 0.
Proof.
  intros Hl Hj. assert (length (slice 80 (23 * 80) l) = (23 * 80)%nat) as Hs by (rewrite length_slice // Hl; lia).
  assert (length (splice 0 (slice 80 (23 * 80) l) l) = length l) as Hsp by (apply length_splice; rewrite Hs Hl; lia).
  rw /scroll. rewrite lookup_splice; [rewrite Hsp length_replicate Hl; lia|]. rewrite length_replicate.
  destruct (Z.ltb_spec j (23 * 80)).
  - rewrite decide_False; [lia|]. rewrite lookup_splice; [rewrite Hs Hl; lia|]. rewrite Hs decide_True; [lia|].
    rewrite lookup_slice decide_True; [lia|]. f_equal. lia.
  - rewrite decide_True; [lia|]. apply lookup_replicate_2. lia.
Qed.

(** The cells after a character, before the screen scrolls. *)
Definition paper_move (c : Z) (p : paper) : (Z → Z) * Z :=
  if c =? CHAR_NL then (pa_cell p, pa_pos p + (80 - pa_pos p mod 80))
  else if c =? BACKSPACE then (pa_cell p, if 80 * pa_top p <? pa_pos p then pa_pos p - 1 else pa_pos p)
  else (λ j, if j =? pa_pos p then attr c else pa_cell p j, pa_pos p + 1).

Lemma shows_move c g p l1 p1 :
  cga_ok g → shows g p → cga_move c (crt g) (cursor g) = (l1, p1) →
  (∀ j, 0 ≤ j < 24 * 80 → l1 !! Z.to_nat j = Some ((paper_move c p).1 (80 * pa_top p + j))) ∧
  (paper_move c p).2 = 80 * pa_top p + p1 ∧ (∀ j, 80 * (pa_top p + 24) ≤ j → (paper_move c p).1 j = 0).
Proof.
  intros [G1 G2 G3 G4] [Hc Hp Hb] E. assert (0 ≤ cursor g) as G0 by (rw /cursor; lia). rw /cga_move in E. rw /paper_move.
  destruct (c =? CHAR_NL); [|destruct (c =? BACKSPACE)]; injection E as <- <-; simpl.
  - split_and!; [done| |done]. rewrite Hp. Z.div_mod_to_equations; lia.
  - split_and!; [done| |done]. rewrite Hp. destruct (Z.ltb_spec 0 (cursor g)), (Z.ltb_spec (80 * pa_top p) (80 * pa_top p + cursor g)); lia.
  - split_and!; [|lia|].
    + intros j Hj. destruct (Z.eqb_spec (80 * pa_top p + j) (pa_pos p)) as [E|Hne].
      * assert (j = cursor g) as -> by lia. rewrite list_lookup_insert_eq //. lia.
      * rewrite list_lookup_insert_ne; [lia|]. by apply Hc.
    + intros j Hj. destruct (Z.eqb_spec j (pa_pos p)); [lia|by apply Hb].
Qed.

Lemma shows_put c g p : cga_ok g → shows g p → shows (cga_after c g) (paper_put c p).
Proof.
  intros Hg Hs. pose proof Hg as [G1 G2 G3 G4]. assert (0 ≤ cursor g < 24 * 80) as G0 by (rw /cursor; rw /cursor in G4; lia).
  pose proof (cga_move_range c (crt g) (cursor g) G0) as Hm. pose proof (cga_move_length c (crt g) (cursor g)) as Hl.
  rw /cga_after /cga_step. destruct (cga_move c (crt g) (cursor g)) as [l1 p1] eqn:Em. simpl in Hm, Hl. rewrite G1 in Hl.
  destruct (shows_move c g p l1 p1 Hg Hs Em) as (Hc&Hp&Hb).
  assert (paper_put c p = Paper (λ j, if j =? (paper_move c p).2 then blank else (paper_move c p).1 j) (paper_move c p).2
    (if 80 * (pa_top p + 24) <=? (paper_move c p).2 then pa_top p + 1 else pa_top p)) as ->.
  { rw /paper_put /paper_move. by destruct (c =? CHAR_NL); [|destruct (c =? BACKSPACE)]. }
  rewrite Hp. destruct (Z.leb_spec 24 (p1 / 80)) as [Hsc|Hns]; destruct (Z.leb_spec (80 * (pa_top p + 24)) (80 * pa_top p + p1)); try (Z.div_mod_to_equations; lia).
  - assert (p1 = 24 * 80) as -> by lia. change (24 * 80 - 80) with (23 * 80). split; rw /cursor /=.
    + intros j Hj. rewrite list_lookup_insert. rewrite lookup_scroll //. rewrite scroll_length; [done|lia|]. rewrite Hl.
      destruct (Z.eqb_spec (80 * (pa_top p + 1) + j) (80 * pa_top p + 24 * 80)); [rewrite decide_True //; lia|]. rewrite decide_False; [lia|].
      destruct (Z.ltb_spec j (23 * 80)); [rewrite Hc; [lia|]; do 2 f_equal; lia|]. rewrite Hb //. lia.
    + Z.div_mod_to_equations; lia.
    + intros j Hj. destruct (Z.eqb_spec j (80 * pa_top p + 24 * 80)); [lia|]. apply Hb. lia.
  - split; rw /cursor /=.
    + intros j Hj. rewrite list_lookup_insert Hl. destruct (Z.eqb_spec (80 * pa_top p + j) (80 * pa_top p + p1)); [rewrite decide_True //; lia|].
      rewrite decide_False; [lia|]. by apply Hc.
    + Z.div_mod_to_equations; lia.
    + intros j Hj. destruct (Z.eqb_spec j (80 * pa_top p + p1)); [Z.div_mod_to_equations; lia|]. by apply Hb.
Qed.

Lemma shows_puts l s p : con_ok s → shows (screen s) p → shows (screen (puts_state l s)) (foldl (λ p c, paper_put c p) p l).
Proof.
  revert s p. induction l as [|c l IH]; intros s p Hs Hp; [done|]. apply IH; [by apply putc_ok|]. apply shows_put; [apply Hs|done].
Qed.

(** *** Numbers *)

Lemma digit_digit_ok : digit_ok digit.
Proof. intros d Hd. rw /dval /digit. destruct (Z.ltb_spec d 10); [destruct (Z.ltb_spec (48 + d) 58)|destruct (Z.ltb_spec (87 + d) 58), (Z.ltb_spec (87 + d) 97)]; lia. Qed.

Lemma printint_wp xx base sign s (Q : unit → console W → Prop) :
  con_ok s → - 2 ^ 31 ≤ xx < 2 ^ 31 → (base = 10 ∨ base = 16) →
  (∀ l, (length l ≤ 11)%nat → (sign = false → num_of base l = u32 xx) → (sign = true → base = 10 → signed_of l = xx) → Q tt (puts_state l s)) →
  wp (printint xx base sign) s Q.
Proof.
  intros Hs Hx Hb HQ. rw /printint. cbv zeta. destruct (printint_buf_spec digit digit_digit_ok xx base sign Hx Hb) as (Hl&_&H1&H2&_).
  destruct (Nat.ltb_spec 16 (length (printint_buf digit xx base sign))); [lia|]. apply cons_puts_wp; [done|]. apply HQ; [by rewrite rev_length|done|done].
Qed.
End Output.

(** ** The line editor *)

(** The ring holds the bytes [com] of finished lines and the line [ed] being edited. *)
Record ring_rep (x : ring) (com ed : list Z) : Prop := {
  rg_buf : length (in_buf x) = 128%nat;
  rg_r : 0 ≤ in_r x < 2 ^ 32;
  rg_w : in_w x = u32 (in_r x + Z.of_nat (length com));
  rg_e : in_e x = u32 (in_r x + Z.of_nat (length com + length ed));
  rg_room : (length com + length ed ≤ 128)%nat;
  rg_at : ∀ j c, (com ++ ed) !! j = Some c → in_at (in_r x + Z.of_nat j) x = c;
  rg_line : Forall (λ c, c ≠ CHAR_NL) ed
}.

(** What a character does to the two lists. *)
Definition edit (c : Z) (p : list Z * list Z) : list Z * list Z :=
  let '(com, ed) := p in
  if c =? CTRL 80 then (com, ed)
  else if c =? CTRL 85 then (com, [])
  else if (c =? CTRL 72) || (c =? 0x7f) then (com, take (length ed - 1) ed)
  else if negb (c =? 0) && (Z.of_nat (length com + length ed) <? INPUT_BUF) then
    let c := if c =? CHAR_CR then CHAR_NL else c in
    if (c =? CHAR_NL) || (c =? CTRL 68) || (Z.of_nat (length com + length ed) + 1 =? INPUT_BUF) then (com ++ ed ++ [u8 c], [])
    else (com, ed ++ [u8 c])
  else (com, ed).

Lemma u32_mod x : u32 x mod 128 = x mod 128.
Proof. rw /u32. Z.div_mod_to_equations; lia. Qed.
Lemma in_at_u32 i x : in_at (u32 i) x = in_at i x.
Proof. rw /in_at /INPUT_BUF u32_mod. done. Qed.
Lemma u32_eq a b : u32 a = u32 b → - 2 ^ 32 < a - b < 2 ^ 32 → a = b.
Proof. rw /u32. intros H1 H2. Z.div_mod_to_equations; lia. Qed.
Lemma u32_sub a b : u32 (u32 a - u32 b) = u32 (a - b).
Proof. rw /u32. symmetry. apply Zminus_mod. Qed.
Lemma u32_add_l a b : u32 (u32 a + b) = u32 (a + b).
Proof. rw /u32. apply Zplus_mod_idemp_l. Qed.
Lemma u32_sub_l a b : u32 (u32 a - b) = u32 (a - b).
Proof. rw /u32. apply Zminus_mod_idemp_l. Qed.

Section Ring.
Context (x : ring) (com ed : list Z).
Hypothesis Hx : ring_rep x com ed.

Lemma ring_empty : (in_e x =? in_w x) = bool_decide (ed = []).
Proof.
  destruct Hx. rewrite rg_w0 rg_e0. destruct (Z.eqb_spec (u32 (in_r x + Z.of_nat (length com + length ed))) (u32 (in_r x + Z.of_nat (length com)))) as [E|Hne].
  - apply u32_eq in E; [|lia]. symmetry. apply bool_decide_eq_true. destruct ed; [done|]. simpl in E. lia.
  - symmetry. apply bool_decide_eq_false. intros ->. apply Hne. simpl. f_equal. lia.
Qed.
Lemma ring_nothing : (in_r x =? in_w x) = bool_decide (com = []).
Proof.
  destruct Hx. rewrite rg_w0. destruct (Z.eqb_spec (in_r x) (u32 (in_r x + Z.of_nat (length com)))) as [E|Hne].
  - rewrite -{1}(u32_small (in_r x)) in E; [done|]. apply u32_eq in E; [|lia]. symmetry. apply bool_decide_eq_true. destruct com; [done|]. simpl in E. lia.
  - symmetry. apply bool_decide_eq_false. intros ->. apply Hne. simpl. rewrite Z.add_0_r u32_small //.
Qed.
Lemma ring_count : u32 (in_e x - in_r x) = Z.of_nat (length com + length ed).
Proof. destruct Hx. rewrite rg_e0 u32_sub_l. rewrite u32_small; lia. Qed.
Lemma ring_edited : u32 (in_e x - in_w x) = Z.of_nat (length ed).
Proof. destruct Hx. rewrite rg_e0 rg_w0 u32_sub. rewrite u32_small; lia. Qed.

Lemma ring_erase c ed' : ed = ed' ++ [c] → ring_rep (set_e (in_e x - 1) x) com ed' ∧ in_at (u32 (in_e x - 1)) x = c.
Proof.
  intros ->. destruct Hx. rewrite length_app /= in rg_e0, rg_room0. split.
  - split; try done; cbn [set_e in_e in_buf in_r].
    + rewrite rg_e0 u32_sub_l. f_equal. lia.
    + lia.
    + intros j b Hj. apply rg_at0. rewrite app_assoc. by apply lookup_app_l_Some.
    + by apply Forall_app in rg_line0 as [? _].
  - rewrite in_at_u32 rg_e0. rewrite -(rg_at0 (length com + length ed')%nat c).
    + rewrite app_assoc. rewrite lookup_app_r; [rewrite length_app; lia|]. by rewrite length_app Nat.sub_diag.
    + rw /in_at /INPUT_BUF. assert ((u32 (in_r x + Z.of_nat (length com + (length ed' + 1))) - 1) mod 128 = (in_r x + Z.of_nat (length com + length ed')) mod 128) as ->; [|done].
      rw /u32. Z.div_mod_to_equations; lia.
Qed.

Lemma put_at c : (length com + length ed < 128)%nat →
  ∀ j b, (com ++ ed ++ [c]) !! j = Some b → in_at (in_r x + Z.of_nat j) (put_char c x) = b.
Proof.
  intros Hr j b Hj. destruct Hx. rw /in_at. cbn [put_char in_buf]. rewrite app_assoc in Hj. rewrite rg_e0 /INPUT_BUF u32_mod.
  destruct (decide (j = length com + length ed)%nat) as [->|Hne].
  - rewrite lookup_app_r in Hj; [by rewrite length_app|]. rewrite length_app Nat.sub_diag in Hj. simpl in Hj. simplify_eq.
    rewrite list_lookup_insert_eq //. rewrite rg_buf0. Z.div_mod_to_equations; lia.
  - assert (j < length com + length ed)%nat as Hlt by (apply lookup_lt_Some in Hj; rewrite !length_app /= in Hj; lia).
    rewrite lookup_app_l in Hj; [by rewrite length_app|]. rewrite list_lookup_insert_ne; [Z.div_mod_to_equations; lia|]. by apply rg_at0.
Qed.

Lemma ring_put c : (length com + length ed < 128)%nat → c ≠ CHAR_NL → ring_rep (put_char c x) com (ed ++ [c]).
Proof.
  intros Hr Hc. pose proof (put_at c Hr) as Hat. destruct Hx. split; try done; cbn [put_char in_e in_buf in_r].
  - by rewrite length_insert.
  - rewrite rg_e0 u32_add_l length_app /=. f_equal. lia.
  - rewrite length_app /=. lia.
  - apply Forall_app. split; [done|]. by constructor.
Qed.

Lemma ring_commit c : (length com + length ed < 128)%nat → ring_rep (commit (put_char c x)) (com ++ ed ++ [c]) [].
Proof.
  intros Hr. pose proof (put_at c Hr) as Hat. destruct Hx. split; cbn [commit put_char in_e in_w in_buf in_r]; rewrite ?length_app /=.
  - by rewrite length_insert.
  - done.
  - rewrite rg_e0 u32_add_l. f_equal. lia.
  - rewrite rg_e0 u32_add_l. f_equal. lia.
  - lia.
  - intros j b Hj. rewrite app_nil_r in Hj. by apply Hat.
  - constructor.
Qed.

Lemma ring_full c : (length com + length ed < 128)%nat →
  (in_e (put_char c x) =? u32 (in_r (put_char c x) + INPUT_BUF)) = (Z.of_nat (length com + length ed) + 1 =? INPUT_BUF).
Proof.
  intros Hr. destruct Hx. cbn [put_char in_e in_r]. rewrite rg_e0 u32_add_l /INPUT_BUF.
  destruct (Z.eqb_spec (Z.of_nat (length com + length ed) + 1) 128) as [E|Hne].
  - apply Z.eqb_eq. f_equal. lia.
  - apply Z.eqb_neq. intros E. apply u32_eq in E; lia.
Qed.

(** A byte is read. *)
Lemma ring_take c com' : com = c :: com' → in_at (in_r x) x = c ∧ ring_rep (set_r (in_r x + 1) x) com' ed.
Proof.
  intros ->. destruct Hx. split.
  - rewrite -(rg_at0 0%nat c) //. f_equal. lia.
  - simpl in rg_w0, rg_e0, rg_room0. split; try done; cbn [set_r in_r in_w in_e in_buf].
    + apply u32_range.
    + rewrite u32_add_l rg_w0. f_equal. lia.
    + rewrite u32_add_l rg_e0. f_equal. lia.
    + lia.
    + intros j b Hj. rewrite -(rg_at0 (S j) b) //. rw /in_at. cbn [set_r in_buf]. rw /INPUT_BUF.
      assert ((u32 (in_r x + 1) + Z.of_nat j) mod 128 = (in_r x + Z.of_nat (S j)) mod 128) as ->; [|done]. rw /u32. Z.div_mod_to_equations; lia.
Qed.
End Ring.

(** *** Scan codes *)

Definition scan_ok (sh d : Z) : bool :=
  (0 <=? (kbd_byte sh d).1) && ((kbd_byte sh d).1 <? 128) && (0 <=? (kbd_byte sh d).2) && ((kbd_byte sh d).2 <? 256).

Lemma scan_checked : forallb (λ sh, forallb (scan_ok sh) (range 0 256)) (range 0 128) = true.
Proof. by vm_compute. Qed.

Lemma kbd_byte_range sh d : 0 ≤ sh < 128 → 0 ≤ d < 256 → 0 ≤ (kbd_byte sh d).1 < 128 ∧ 0 ≤ (kbd_byte sh d).2 < 256.
Proof.
  intros Hs%elem_of_range%list_elem_of_In Hd%elem_of_range%list_elem_of_In. pose proof scan_checked as H.
  apply (proj1 (forallb_forall _ _)) with (x := sh) in H; [|exact Hs].
  apply (proj1 (forallb_forall _ _)) with (x := d) in H; [|exact Hd].
  unfold scan_ok in H. generalize dependent (kbd_byte sh d). intros [sh' c]. cbn [fst snd]. lia.
Qed.

(** The characters of scan codes. *)
Fixpoint kbd_chars (shift : Z) (l : list Z) : list Z :=
  match l with [] => [] | d :: l' => (kbd_byte shift d).2 :: kbd_chars (kbd_byte shift d).1 l' end.

Lemma kbd_chars_range l : ∀ sh, 0 ≤ sh < 128 → Forall (λ d, 0 ≤ d < 256) l → Forall (λ c, 0 ≤ c < 256) (kbd_chars sh l).
Proof.
  induction l as [|d l IH]; intros sh Hs Hl; cbn [kbd_chars]; [constructor|]. apply Forall_cons in Hl as [Hd Hl].
  destruct (kbd_byte_range sh d Hs Hd). constructor; [done|]. by apply IH.
Qed.

(** *** The interrupt handler *)

Section Keys.
Context {W : Type}.
Implicit Types s : console W.

(** Only the ring, the readers and the output may differ. *)
Record echo s s' : Prop := {
  ec_kbd : kbd s' = kbd s;
  ec_uart : uart (com1 s') = uart (com1 s);
  ec_in : ser_in (com1 s') = ser_in (com1 s);
  ec_locking : locking s' = locking s;
  ec_locks : clocks s' = clocks s;
  ec_world : world s' = world s
}.
Lemma echo_refl s : echo s s.
Proof. by split. Qed.
Lemma echo_trans s1 s2 s3 : echo s1 s2 → echo s2 s3 → echo s1 s3.
Proof. intros [? ? ? ? ? ?] [? ? ? ? ? ?]. split; congruence. Qed.
Lemma echo_putc c s : echo s (putc_state c s).
Proof. split; try done; cbn [putc_state set_screen set_com1 com1]; rw /ser_after; by destruct (uart (com1 s)) eqn:E. Qed.
Lemma echo_input x s : echo s (set_input x s).
Proof. by split. Qed.

(** A state in which the ring holds [com] and [ed]. *)
Record editing s (com ed : list Z) : Prop := { eg_con : con_ok s; eg_ring : ring_rep (input s) com ed }.

Lemma editing_erase s com ed c ed' :
  editing s com ed → ed = ed' ++ [c] →
  editing (putc_state BACKSPACE (set_input (set_e (in_e (input s) - 1) (input s)) s)) com ed' ∧
  echo s (putc_state BACKSPACE (set_input (set_e (in_e (input s) - 1) (input s)) s)).
Proof.
  intros [Hc Hr] E. destruct (ring_erase _ _ _ Hr c ed' E) as [Hr' _]. split; [split; [by apply putc_ok|exact Hr']|].
  eapply echo_trans; [apply echo_input|apply echo_putc].
Qed.

Lemma kill_line_wp ed : ∀ s com (Q : unit → console W → Prop),
  editing s com ed → (∀ s', editing s' com [] → echo s s' → readers s' = readers s → Q tt s') → wp (kill_line (length ed)) s Q.
Proof.
  induction ed as [|c ed' IH] using rev_ind; intros s com Q He HQ; [apply wp_ret, HQ; [done|apply echo_refl|done]|].
  rewrite length_app Nat.add_comm. cbn [kill_line length Nat.add]. pose proof He as [Hc Hr]. destruct (ring_erase _ _ _ Hr c ed' eq_refl) as [_ Hat].
  apply wp_bind, wp_gets. rewrite (ring_empty _ _ _ Hr) bool_decide_eq_false_2; [by destruct ed'|].
  rewrite Hat. apply rg_line, Forall_app in Hr as [_ [Hn _]%Forall_cons]. destruct (Z.eqb_spec c CHAR_NL); [done|]. cbn [negb andb].
  destruct (editing_erase s com _ c ed' He eq_refl) as [He' Hec].
  apply wp_bind, wp_modify. apply wp_bind, consputc_wp; [exact Hc|]. apply (IH _ com); [done|].
  intros s' H1 H2 H3. apply HQ; [done|exact (echo_trans _ _ _ Hec H2)|done].
Qed.

(** The processes waiting for input, after the finished lines grew from [com] to [com']. *)
Definition woken_by (com com' : list Z) (m : gmap nat reader) : gmap nat reader :=
  if decide (com' = com) then m else awake <$> m.

Lemma console_key_wp c s com ed (Q : bool → console W → Prop) :
  editing s com ed → 0 ≤ c < 256 →
  (∀ s', editing s' (edit c (com, ed)).1 (edit c (com, ed)).2 → echo s s' →
    readers s' = woken_by com (edit c (com, ed)).1 (readers s) → Q (c =? CTRL 80) s') →
  wp (console_key c) s Q.
Proof.
  intros He Hc HQ. pose proof He as [Hok Hr]. rw /console_key. rw /edit in HQ. destruct (c =? CTRL 80) eqn:EP.
  { apply wp_ret, HQ; [done|apply echo_refl|]. rw /woken_by. by rewrite decide_True. }
  assert (∀ s' ed', editing s' com ed' → echo s s' → readers s' = readers s → (com, ed') = edit c (com, ed) → Q false s') as Hsame.
  { intros s' ed' H1 H2 H3 E. rw /edit EP in E. rewrite -E in HQ. apply HQ; [done|done|]. rw /woken_by. by rewrite decide_True. }
  destruct (c =? CTRL 85) eqn:EU.
  { apply wp_bind, wp_gets. rewrite (ring_edited _ _ _ Hr) Nat2Z.id. apply wp_bind, (kill_line_wp ed s com); [done|]. intros s' H1 H2 H3. apply wp_ret.
    apply (Hsame s' []); [done..|]. by rw /edit EP EU. }
  destruct ((c =? CTRL 72) || (c =? 127)) eqn:EH.
  { apply wp_bind, wp_gets. rewrite (ring_empty _ _ _ Hr). apply wp_bind. destruct (decide (ed = [])) as [->|Hne].
    - apply wp_when_false, wp_ret. apply (Hsame s []); [done|apply echo_refl|done|]. by rw /edit EP EU EH.
    - destruct (exists_last Hne) as (ed0&b&->). rewrite bool_decide_eq_false_2 //. destruct (editing_erase s com _ b ed0 He eq_refl) as [He' Hec].
      apply wp_when_true, wp_bind, wp_modify, consputc_wp; [done|]. apply wp_ret. apply (Hsame _ ed0); [done..|].
      rw /edit EP EU EH. do 2 f_equal. rewrite length_app /= Nat.add_sub take_app_length //. }
  apply wp_bind, wp_gets. rewrite (ring_count _ _ _ Hr). apply wp_bind.
  destruct (negb (c =? 0) && (Z.of_nat (length com + length ed) <? INPUT_BUF)) eqn:Er.
  - apply andb_true_iff in Er as Er'. destruct Er' as [_ Hroom%Z.ltb_lt]. change INPUT_BUF with 128 in Hroom. apply wp_when_true. cbv zeta.
    set (c1 := if c =? CHAR_CR then CHAR_NL else c) in *. assert (0 ≤ c1 < 256) as Hc1 by (rw /c1; destruct (c =? CHAR_CR); [done|lia]).
    rewrite u8_small // in HQ |- *. apply wp_bind, wp_modify. apply wp_bind, consputc_wp; [exact Hok|]. apply wp_bind, wp_gets.
    change (input (putc_state c1 _)) with (put_char c1 (input s)). rewrite (ring_full _ _ _ Hr); [lia|].
    set (s1 := putc_state c1 _). assert (echo s s1) as He1 by (eapply echo_trans; [apply echo_input|apply echo_putc]).
    destruct ((c1 =? CHAR_NL) || (c1 =? CTRL 68) || (Z.of_nat (length com + length ed) + 1 =? INPUT_BUF)) eqn:Ec.
    + apply wp_when_true, wp_bind, wp_modify, wp_modify, wp_ret. apply HQ.
      * split; [by apply putc_ok|]. apply (ring_commit _ _ _ Hr). lia.
      * eapply echo_trans; [exact He1|]. by split.
      * rw /woken_by. rewrite decide_False //. intros E. apply (f_equal length) in E. rewrite /= !length_app /= in E. lia.
    + apply wp_when_false, wp_ret. apply HQ; [|done|rw /woken_by; by rewrite decide_True].
      split; [by apply putc_ok|]. apply (ring_put _ _ _ Hr); [lia|]. intros ->. by rewrite Z.eqb_refl in Ec.
  - apply wp_when_false, wp_ret. apply (Hsame s ed); [done|apply echo_refl|done|]. by rw /edit EP EU EH Er.
Qed.

(** What the hardware delivers are bytes, and the modifiers are seven bits. *)
Record devices_ok s : Prop := {
  dk_shift : 0 ≤ kb_shift (kbd s) < 128;
  dk_data : Forall (λ d, 0 ≤ d < 256) (kb_data (kbd s));
  dk_in : Forall (λ c, 0 ≤ c < 256) (ser_in (com1 s))
}.
Lemma devices_same s s' : kbd s' = kbd s → ser_in (com1 s') = ser_in (com1 s) → devices_ok s → devices_ok s'.
Proof. intros E1 E2 [H1 H2 H3]. split; congruence. Qed.

(** A driver: the characters it will deliver. *)
Record device (getc : K (console W) Z) (dev : console W → list Z) : Prop := {
  dv_same : ∀ s s', kbd s' = kbd s → uart (com1 s') = uart (com1 s) → ser_in (com1 s') = ser_in (com1 s) → dev s' = dev s;
  dv_none : ∀ s, dev s = [] → getc s = Ret (-1) s;
  dv_some : ∀ s c l, dev s = c :: l → ∃ s', getc s = Ret c s' ∧ dev s' = l ∧ input s' = input s ∧ readers s' = readers s ∧
    screen s' = screen s ∧ panicked s' = panicked s ∧ clocks s' = clocks s ∧ world s' = world s ∧ (devices_ok s → devices_ok s');
  dv_range : ∀ s, devices_ok s → Forall (λ c, 0 ≤ c < 256) (dev s)
}.

(** The finished lines only grow at the end, so the wakeups add up. *)
Lemma edit_extends c com ed : ∃ t, (edit c (com, ed)).1 = com ++ t.
Proof.
  rw /edit. repeat case_match; simpl; first [by exists []; rewrite app_nil_r|by eexists].
Qed.
Lemma awake_idem p : awake (awake p) = awake p.
Proof. done. Qed.
Lemma woken_trans com com1 com2 m t1 t2 :
  com1 = com ++ t1 → com2 = com1 ++ t2 → woken_by com1 com2 (woken_by com com1 m) = woken_by com com2 m.
Proof.
  intros -> ->. rw /woken_by. assert (∀ l : list Z, l ++ t1 = l → t1 = []) as Hn by (intros l E; apply (app_inv_head l); by rewrite app_nil_r).
  assert (∀ l t : list Z, l ++ t = l → t = []) as Hn' by (intros l t E; apply (app_inv_head l); by rewrite app_nil_r).
  destruct (decide ((com ++ t1) ++ t2 = com ++ t1)) as [E|H2], (decide (com ++ t1 = com)) as [E1|H1].
  - apply Hn' in E, E1. subst. rewrite !app_nil_r decide_True //.
  - apply Hn' in E. subst. rewrite app_nil_r decide_False //.
  - apply Hn in E1. subst. rewrite app_nil_r in H2 |- *. rewrite decide_False //.
  - rewrite decide_False.
    + intros E. rewrite -app_assoc in E. apply Hn' in E. destruct t1; [by rewrite app_nil_r in H1|done].
    + rewrite -map_fmap_compose. by apply map_fmap_ext.
Qed.

Lemma consoleintr_loop_wp getc dev l : device getc dev → ∀ fuel dump s com ed (Q : bool → console W → Prop),
  editing s com ed → dev s = l → devices_ok s → (length l < fuel)%nat →
  (∀ s', editing s' (foldl (λ p c, edit c p) (com, ed) l).1 (foldl (λ p c, edit c p) (com, ed) l).2 → dev s' = [] → devices_ok s' →
    clocks s' = clocks s → world s' = world s →
    readers s' = woken_by com (foldl (λ p c, edit c p) (com, ed) l).1 (readers s) →
    Q (dump || existsb (λ c, c =? CTRL 80) l) s') →
  wp (consoleintr_loop fuel getc dump) s Q.
Proof.
  intros [De Dn Ds Dr]. induction l as [|c l IH]; intros fuel dump s com ed Q He Hd Hk Hf HQ; (destruct fuel as [|fuel]; [simpl in Hf; lia|]); cbn [consoleintr_loop].
  - apply wp_bind, (wp_intro _ _ _ (-1) s); [by apply Dn|]. apply wp_ret. rewrite orb_false_r in HQ. apply HQ; [done..|]. rw /woken_by. by rewrite decide_True.
  - destruct (Ds s c l Hd) as (s1&Eg&Hd1&E1&E2&E3&E4&E5&E6&Hk1). pose proof (Dr s Hk) as Hc. rewrite Hd in Hc. apply Forall_cons in Hc as [Hc _]. specialize (Hk1 Hk).
    apply wp_bind, (wp_intro _ _ _ c s1 Eg). destruct (Z.ltb_spec c 0); [lia|].
    assert (editing s1 com ed) as He1. { destruct He as [[Hp Hg] Hr]. split; [split; congruence|congruence]. }
    apply wp_bind, (console_key_wp c s1 com ed); [done|done|]. intros s2 He2 Hec Hrd.
    apply (IH fuel _ s2 (edit c (com, ed)).1 (edit c (com, ed)).2); [done|destruct Hec; by rewrite (De s1 s2)|destruct Hec; by apply (devices_same s1 s2)|simpl in Hf; lia|].
    intros s' H1 H2 Hk' H3 H4 H5. cbn [foldl existsb] in HQ. rewrite -surjective_pairing in H1, H5. rewrite -orb_assoc. apply HQ; [done..| | |].
    + rewrite H3 (ec_locks _ _ Hec). done.
    + rewrite H4 (ec_world _ _ Hec). done.
    + rewrite H5 Hrd E2. destruct (edit_extends c com ed) as [t1 Et1].
      assert (∃ t2, (foldl (λ p c, edit c p) (edit c (com, ed)) l).1 = (edit c (com, ed)).1 ++ t2) as [t2 Et2]; [|exact (woken_trans com _ _ _ t1 t2 Et1 Et2)].
      clear. generalize (edit c (com, ed)). induction l as [|b l IH]; intros q; [exists []; by rewrite app_nil_r|]. cbn [foldl].
      destruct (IH (edit b q)) as [t Ht]. destruct q as [q1 q2]. destruct (edit_extends b q1 q2) as [t' Ht']. rewrite Ht Ht' -app_assoc. by eexists.
Qed.

Lemma uart_device : device uartgetc (λ s, if uart (com1 s) then ser_in (com1 s) else []).
Proof.
  split.
  - intros s s' _ E1 E2. by rewrite E1 E2.
  - intros s. rw /uartgetc /mbind /K_bind /gets. destruct (uart (com1 s)); [|done]. by intros ->.
  - intros s c l. rw /uartgetc /mbind /K_bind /gets. destruct (uart (com1 s)) eqn:Eu; [|done]. intros E. rewrite E. eexists. split; [done|]. do 7 (split; [done|]).
    intros [H1 H2 H3]. rewrite E in H3. apply Forall_cons in H3 as [_ H3]. by split.
  - intros s [_ _ H]. by destruct (uart (com1 s)).
Qed.

Lemma kbd_device : device kbdgetc (λ s, kbd_chars (kb_shift (kbd s)) (kb_data (kbd s))).
Proof.
  split.
  - intros s s' E _ _. by rewrite E.
  - intros s. rw /kbdgetc /mbind /K_bind /gets. by destruct (kb_data (kbd s)).
  - intros s c l. rw /kbdgetc /mbind /K_bind /gets. destruct (kb_data (kbd s)) as [|d rest] eqn:Ed; [done|]. cbn [kbd_chars].
    pose proof (kbd_byte_range (kb_shift (kbd s)) d) as Hr. destruct (kbd_byte (kb_shift (kbd s)) d) as [sh ch]. simpl. intros [= <- <-].
    eexists. do 8 (split; [done|]). intros [H1 H2 H3]. rewrite Ed in H2. apply Forall_cons in H2 as [H2 H2']. split; [by apply Hr|done|done].
  - intros s [H1 H2 _]. by apply kbd_chars_range.
Qed.
End Keys.

(** ** Reading *)

(** A read of [n] bytes from the finished lines [com]: the bytes, and what is left; [None] when it has to wait.  It ends
    after a newline and at control-D, which stays for the next read unless it is the first byte. *)
Fixpoint read_line (n : nat) (first : bool) (com : list Z) : option (list Z * list Z) :=
  match n with
  | O => Some ([], com)
  | S k =>
      match com with
      | [] => None
      | c :: com' =>
          if c =? CTRL 68 then Some ([], if first then com' else com)
          else if c =? CHAR_NL then Some ([c], com')
          else match read_line k false com' with Some (l, r) => Some (c :: l, r) | None => None end
      end
  end.

Section Reads.
Context {W : Type} (iunlock ilock : nat → K W unit).
Hypothesis Hiunlock : ∀ ip w, ∃ w', iunlock ip w = Ret tt w'.
Hypothesis Hilock : ∀ ip w, ∃ w', ilock ip w = Ret tt w'.
Implicit Types s : console W.

(** The hardware a read leaves alone. *)
Definition hw s : keyboard * serial := (kbd s, com1 s).

Lemma world_wp (m : K W unit) s (Q : unit → console W → Prop) :
  (∃ w', m (world s) = Ret tt w') →
  (∀ w', Q tt (Console (input s) (screen s) (kbd s) (com1 s) (panicked s) (locking s) (readers s) (clocks s) w')) → wp (in_world m) s Q.
Proof. intros [w' E] HQ. rw /wp /in_world /zoom E. apply HQ. Qed.

Lemma read_end_wp s h ip r bytes (Q : cresult → console W → Prop) :
  clocks s = "console" :: h → "console" ∉ h →
  (∀ s', input s' = input s → screen s' = screen s → panicked s' = panicked s → readers s' = readers s → clocks s' = h → hw s' = hw s → Q (CReturn r bytes) s') →
  wp (consoleread_end ilock ip r bytes) s Q.
Proof.
  intros Hh Hn HQ. rw /consoleread_end. apply wp_bind, (wp_lock_release _ h); [done|done|].
  apply wp_bind, world_wp; [apply Hilock|]. intros w'. apply wp_ret. by apply HQ.
Qed.

Lemma consoleread_loop_wp i (killed : bool) ip target h n : ∀ got s com ed (Q : cresult → console W → Prop),
  editing s com ed → clocks s = "console" :: h → "console" ∉ h → Z.of_nat (length got) + Z.of_nat n = target → target < 2 ^ 31 →
  match read_line n (Z.of_nat n =? target) com with
  | Some (l, com') => ∀ s', editing s' com' ed → clocks s' = h → hw s' = hw s → readers s' = readers s → Q (CReturn (Z.of_nat (length (got ++ l))) (got ++ l)) s'
  | None => ∀ s', editing s' [] ed → clocks s' = h → hw s' = hw s →
      readers s' = (if killed then readers s else <[i := Reader true ip target (n - length com) (got ++ com)]> (readers s)) →
      Q (if killed then CReturn (-1) (got ++ com) else CAsleep) s'
  end →
  wp (consoleread_loop ilock i killed ip target n got) s Q.
Proof.
  induction n as [|n IH]; intros got s com ed Q He Hh Hn Hg Hg31 HQ; cbn [consoleread_loop read_line] in *.
  - rewrite app_nil_r in HQ. apply (read_end_wp s h); [done|done|]. intros s' E1 E2 E3 E4 E5 E6. rewrite u32_small; [lia|]. rewrite s32_small; [lia|].
    replace target with (Z.of_nat (length got)) by lia. destruct He as [[Hp Hc] Hr]. apply HQ; [split; [split; congruence|congruence]|done|congruence|congruence].
  - pose proof He as [Hok Hr]. apply wp_bind, wp_gets. rewrite (ring_nothing _ _ _ Hr). destruct com as [|c com'].
    + rewrite bool_decide_eq_true_2 //. rewrite app_nil_r in HQ. destruct killed.
      * apply (read_end_wp s h); [done|done|]. intros s' F1 F2 F3 F4 F5 F6. destruct Hok as [Hp Hc]. apply HQ; [split; [split; congruence|congruence]|done|congruence|congruence].
      * apply wp_bind, wp_modify. apply wp_bind, (wp_lock_release _ h); [done|done|]. apply wp_ret. by apply HQ.
    + rewrite bool_decide_eq_false_2 //. destruct (ring_take _ _ _ Hr c com' eq_refl) as [-> Hr']. cbv zeta.
      apply wp_bind, wp_modify. assert (editing (set_input (set_r (in_r (input s) + 1) (input s)) s) com' ed) as He' by (by split).
      destruct (c =? CTRL 68) eqn:ED; [|destruct (c =? CHAR_NL) eqn:EN].
      * apply wp_bind, wp_gets. apply wp_bind.
        assert (∀ s1, input s1 = (if Z.of_nat (S n) <? target then input s else set_r (in_r (input s) + 1) (input s)) → con_ok s1 → clocks s1 = clocks s → readers s1 = readers s → hw s1 = hw s →
          wp (consoleread_end ilock ip (s32 (u32 (target - Z.of_nat (S n)))) got) s1 Q) as Hend.
        { intros s1 E1 Hok1 E2 E3 E4. apply (read_end_wp s1 h); [congruence|done|]. intros s' F1 F2 F3 F4 F5 F6. rewrite u32_small; [lia|]. rewrite s32_small; [lia|].
          rewrite app_nil_r in HQ. replace (target - Z.of_nat (S n)) with (Z.of_nat (length got)) by lia. apply HQ; [|done|congruence|congruence]. destruct Hok1 as [Hp Hc].
          split; [split; congruence|]. rewrite F1 E1. destruct (Z.ltb_spec (Z.of_nat (S n)) target), (Z.eqb_spec (Z.of_nat (S n)) target); try lia; done. }
        destruct (Z.of_nat (S n) <? target).
        -- apply wp_when_true, wp_modify. apply Hend; [|done..]. cbn [set_input input set_r in_r in_buf in_w in_e].
           assert (u32 (u32 (in_r (input s) + 1) - 1) = in_r (input s)) as Er.
           { rewrite u32_sub_l. replace (in_r (input s) + 1 - 1) with (in_r (input s)) by lia. apply u32_small, Hr. }
           rw /set_r. cbn [in_r in_buf in_w in_e]. rewrite Er. by destruct (input s).
        -- apply wp_when_false. by apply Hend.
      * apply (read_end_wp _ h); [done|done|]. intros s' F1 F2 F3 F4 F5 F6. rewrite u32_small; [lia|]. rewrite s32_small; [lia|].
        replace (target - Z.of_nat n) with (Z.of_nat (length (got ++ [c]))) by (rewrite length_app /=; lia). destruct He' as [[Hp Hc] Hr2].
        apply HQ; [split; [split; congruence|congruence]|done|exact F6|exact F4].
      * apply (IH (got ++ [c]) _ com' ed); [done|done|done|rewrite length_app /=; lia|done|]. destruct (Z.eqb_spec (Z.of_nat n) target); [lia|].
        destruct (read_line n false com') as [[l r]|].
        -- intros s' F1 F2 F3 F4. rewrite -app_assoc. by apply HQ.
        -- intros s' F1 F2 F3 F4. rewrite -app_assoc in F4 |- *. by apply HQ.
Qed.

Lemma consoleread_wp i (killed : bool) ip n s com ed (Q : cresult → console W → Prop) :
  editing s com ed → "console" ∉ clocks s → 0 < n < 2 ^ 31 →
  match read_line (Z.to_nat n) true com with
  | Some (l, com') => ∀ s', editing s' com' ed → clocks s' = clocks s → hw s' = hw s → readers s' = readers s → Q (CReturn (Z.of_nat (length l)) l) s'
  | None => ∀ s', editing s' [] ed → clocks s' = clocks s → hw s' = hw s →
      readers s' = (if killed then readers s else <[i := Reader true ip n (Z.to_nat n - length com) com]> (readers s)) →
      Q (if killed then CReturn (-1) com else CAsleep) s'
  end →
  wp (consoleread iunlock ilock i killed ip n) s Q.
Proof.
  intros He Hl Hn HQ. rw /consoleread. apply wp_bind, world_wp; [apply Hiunlock|]. intros w'. apply wp_bind, wp_lock_acquire; [done|].
  destruct (Z.ltb_spec 0 n); [|lia]. destruct He as [[Hp Hc] Hr].
  apply (consoleread_loop_wp i killed ip n (clocks s) (Z.to_nat n) [] _ com ed); [by split|done|done|simpl; lia|lia|].
  rewrite Z2Nat.id; [lia|]. rewrite Z.eqb_refl. exact HQ.
Qed.
End Reads.
