(* ===== verification/Tty.v ===== *)
(** * The console at work (xv6/console.c, kbd.c, uart.c).

    [Console] models the routines; here they run together.  An interrupt handler refines the line editor, a typed
    line is what the next read returns, and in every run of interrupts, reads and writes no process stays asleep
    while a finished line waits for it.  Printed numbers read back, and the screen is a window on what was written. *)
From S2P Require Import Prelude Numbers Spinlock Layout Console.
Local Open Scope Z_scope.

(** What the editor makes of the characters [l]. *)
Definition edits (p : list Z * list Z) (l : list Z) : list Z * list Z := foldl (λ p c, edit c p) p l.

Section Tty.
Context {W : Type} (iunlock ilock : nat → K W unit) (procdump : K W unit).
(** The rest of the kernel returns to the console. *)
Hypothesis Hiunlock : ∀ ip w, ∃ w', iunlock ip w = Ret tt w'.
Hypothesis Hilock : ∀ ip w, ∃ w', ilock ip w = Ret tt w'.
Hypothesis Hprocdump : ∀ w, ∃ w', procdump w = Ret tt w'.
Implicit Types s : console W.

Lemma consoleintr_wp getc dev fuel s com ed (Q : unit → console W → Prop) :
  device getc dev → editing s com ed → devices_ok s → "console" ∉ clocks s → (length (dev s) < fuel)%nat →
  (∀ s', editing s' (edits (com, ed) (dev s)).1 (edits (com, ed) (dev s)).2 → dev s' = [] → devices_ok s' →
    clocks s' = clocks s → readers s' = woken_by com (edits (com, ed) (dev s)).1 (readers s) → Q tt s') →
  wp (consoleintr procdump fuel getc) s Q.
Proof using Hprocdump.
  intros Hd He Hk Hl Hf HQ. rw /consoleintr. apply wp_bind, wp_lock_acquire; [done|]. set (s0 := set_held _ s).
  assert (dev s0 = dev s) as Ed by (by apply (dv_same _ _ Hd)). destruct He as [[Hp Hc] Hr].
  apply wp_bind, (consoleintr_loop_wp getc dev (dev s) Hd fuel false s0 com ed); [by split|done|by destruct Hk|done|].
  intros s1 He1 Hd1 Hk1 E1 E2 E3. apply wp_bind, (wp_lock_release _ (clocks s)); [exact E1|done|]. set (s2 := set_held _ s1).
  assert (∀ w, Q tt (Console (input s2) (screen s2) (kbd s2) (com1 s2) (panicked s2) (locking s2) (readers s2) (clocks s2) w)) as Hfin.
  { intros w. apply HQ; [|by rewrite -Hd1; apply (dv_same _ _ Hd)|by destruct Hk1|done|exact E3]. destruct He1 as [[Hp1 Hc1] Hr1]. by split. }
  destruct (false || _).
  - apply wp_when_true, world_wp; [apply Hprocdump|exact Hfin].
  - apply wp_when_false. specialize (Hfin (world s2)). by destruct s2.
Qed.

Definition kbd_dev s : list Z := kbd_chars (kb_shift (kbd s)) (kb_data (kbd s)).
Definition uart_dev s : list Z := if uart (com1 s) then ser_in (com1 s) else [].

Lemma kbd_chars_length l : ∀ sh, length (kbd_chars sh l) = length l.
Proof. induction l as [|d l IH]; intros sh; simpl; [done|]. by rewrite IH. Qed.

Lemma kbdintr_wp s com ed (Q : unit → console W → Prop) :
  editing s com ed → devices_ok s → "console" ∉ clocks s →
  (∀ s', editing s' (edits (com, ed) (kbd_dev s)).1 (edits (com, ed) (kbd_dev s)).2 → kbd_dev s' = [] → devices_ok s' →
    clocks s' = clocks s → readers s' = woken_by com (edits (com, ed) (kbd_dev s)).1 (readers s) → Q tt s') →
  wp (kbdintr procdump) s Q.
Proof using Hprocdump.
  intros He Hk Hl HQ. rw /kbdintr. apply wp_bind, wp_gets. apply (consoleintr_wp kbdgetc kbd_dev _ s com ed); [apply kbd_device|done..| |exact HQ].
  rw /kbd_dev kbd_chars_length. lia.
Qed.

Lemma uartintr_wp s com ed (Q : unit → console W → Prop) :
  editing s com ed → devices_ok s → "console" ∉ clocks s →
  (∀ s', editing s' (edits (com, ed) (uart_dev s)).1 (edits (com, ed) (uart_dev s)).2 → uart_dev s' = [] → devices_ok s' →
    clocks s' = clocks s → readers s' = woken_by com (edits (com, ed) (uart_dev s)).1 (readers s) → Q tt s') →
  wp (uartintr procdump) s Q.
Proof using Hprocdump.
  intros He Hk Hl HQ. rw /uartintr. apply wp_bind, wp_gets. apply (consoleintr_wp uartgetc uart_dev _ s com ed); [apply uart_device|done..| |exact HQ].
  rw /uart_dev. destruct (uart (com1 s)); simpl; lia.
Qed.

(** A write puts its bytes on the screen, in order. *)
Lemma puts_frame l s : readers (puts_state l s) = readers s ∧ clocks (puts_state l s) = clocks s ∧ input (puts_state l s) = input s ∧
  (devices_ok s → devices_ok (puts_state l s)) ∧ world (puts_state l s) = world s.
Proof.
  revert s. induction l as [|c l IH]; intros s; [done|]. cbn [puts_state foldl]. destruct (IH (putc_state c s)) as (E1&E2&E3&E4&E5).
  rewrite /puts_state in E1 E2 E3 E4 E5. rewrite E1 E2 E3 E5. do 3 (split; [done|]). split; [|done]. intros [H1 H2 H3]. apply E4. split; [done|done|].
  cbn. rw /ser_after. by destruct (uart (com1 s)).
Qed.

Lemma consolewrite_wp ip buf n s (Q : Z → console W → Prop) :
  con_ok s → "console" ∉ clocks s → Forall (λ c, 0 ≤ c < 256) buf →
  (∀ s', screen s' = screen (puts_state (take (Z.to_nat n) buf) s) → con_ok s' → input s' = input s → readers s' = readers s →
    clocks s' = clocks s → (devices_ok s → devices_ok s') → Q n s') →
  wp (consolewrite iunlock ilock ip buf n) s Q.
Proof using Hiunlock Hilock.
  intros Hok Hl Hb HQ. rw /consolewrite. apply wp_bind, world_wp; [apply Hiunlock|]. intros w. apply wp_bind, wp_lock_acquire; [done|].
  set (s1 := set_held _ _). set (l := take _ buf). assert (Forall (λ c, 0 ≤ c < 256) l) as Hl' by (by apply Forall_take).
  assert (con_ok s1) as Hok1 by (by destruct Hok).
  assert (screen (puts_state l s1) = screen (puts_state l s)) as Escr.
  { assert (screen s1 = screen s) as E by done. assert (com1 s1 = com1 s) as E' by done. clearbody s1. clear - E E'. revert s1 s E E'.
    induction l as [|c l IH]; intros s1 s E E'; [done|]. cbn [puts_state foldl]. apply IH; cbn; congruence. }
  assert (clocks s1 = "console" :: clocks s ∧ input s1 = input s ∧ readers s1 = readers s ∧ (devices_ok s → devices_ok s1)) as (E1&E2&E3&E4).
  { do 3 (split; [done|]). by intros []. }
  clearbody s1. assert (wp (for_each l (λ c, consputc (Z.land c 0xff))) s1 (λ _ s', s' = puts_state l s1)) as Hloop.
  { clear - Hl' Hok1. revert s1 Hok1. induction Hl' as [|c l Hc Hl IH]; intros s1 Hok1; [by apply wp_ret|]. cbn [for_each].
    change 0xff with (Z.ones 8). rewrite Z.land_ones; [lia|]. rewrite Z.mod_small; [lia|]. apply wp_bind, consputc_wp; [done|]. apply IH, putc_ok, Hok1. }
  apply wp_bind, (wp_mono _ _ _ _ Hloop). intros _ ? ->. destruct (puts_frame l s1) as (F1&F2&F3&F4&F5). pose proof (puts_ok l s1 Hok1) as Hok2.
  apply wp_bind, (wp_lock_release _ (clocks s)); [cbn; congruence|done|]. apply wp_bind, world_wp; [apply Hilock|]. intros w2. apply wp_ret.
  apply HQ; [exact Escr|by destruct Hok2|cbn; congruence|cbn; congruence|done|]. intros Hk. destruct (F4 (E4 Hk)). by split.
Qed.

(** ** Runs *)

(** What happens to the console: bytes arrive, interrupts are handled, processes read, run again when they are
    awake, are killed, and write. *)
Inductive tty_step s : console W → Prop :=
  | TScan d : 0 ≤ d < 256 → tty_step s (set_kbd (Keyboard (kb_data (kbd s) ++ [d]) (kb_shift (kbd s))) s)
  | TByte c : 0 ≤ c < 256 → tty_step s (set_com1 (Serial (uart (com1 s)) (ser_in (com1 s) ++ [c]) (ser_out (com1 s))) s)
  | TKbd s' : kbdintr procdump s = Ret tt s' → tty_step s s'
  | TUart s' : uartintr procdump s = Ret tt s' → tty_step s s'
  | TRead i killed ip n r s' : readers s !! i = None → n < 2 ^ 31 → consoleread iunlock ilock i killed ip n s = Ret r s' → tty_step s s'
  | TResume i p killed r s' : readers s !! i = Some p → rd_asleep p = false → consoleread_resume ilock i killed s = Ret r s' → tty_step s s'
  | TKill i p : readers s !! i = Some p → tty_step s (set_readers (<[i := awake p]> (readers s)) s)
  | TWrite ip buf n r s' : Forall (λ c, 0 ≤ c < 256) buf → consolewrite iunlock ilock ip buf n s = Ret r s' → tty_step s s'.

(** A process in [consoleread] counts its bytes, and sleeps only while there is no finished line. *)
Record reader_ok (com : list Z) (p : reader) : Prop := {
  ro_count : Z.of_nat (length (rd_got p)) + Z.of_nat (rd_left p) = rd_target p;
  ro_target : rd_target p < 2 ^ 31;
  ro_waits : rd_asleep p = true → com = []
}.

Record tty_inv s com ed : Prop := {
  ti_editing : editing s com ed;
  ti_devices : devices_ok s;
  ti_locks : clocks s = [];
  ti_readers : map_Forall (λ _, reader_ok com) (readers s)
}.

Lemma readers_woken com com' t m : com' = com ++ t → map_Forall (λ _, reader_ok com) m → map_Forall (λ _, reader_ok com') (woken_by com com' m).
Proof.
  intros Et Hm. rw /woken_by. destruct (decide (com' = com)) as [->|Hne]; [done|]. intros i p. rewrite lookup_fmap_Some. intros (p0&<-&Hp).
  destruct (Hm i p0 Hp) as [H1 H2 _]. by split.
Qed.
Lemma edits_extend l : ∀ com ed, ∃ t, (edits (com, ed) l).1 = com ++ t.
Proof.
  induction l as [|c l IH]; intros com ed; [exists []; by rewrite app_nil_r|]. cbn [edits foldl]. destruct (edit_extends c com ed) as [t1 E1].
  destruct (edit c (com, ed)) as [com1 ed1]. destruct (IH com1 ed1) as [t2 E2]. simpl in E1. subst com1. rewrite /edits in E2. rewrite E2 -app_assoc. by eexists.
Qed.

(** A read that ends leaves less to read, and one that sleeps has taken everything. *)
Lemma readers_shrink com com' (m : gmap nat reader) : (com = [] → com' = []) → map_Forall (λ _, reader_ok com) m → map_Forall (λ _, reader_ok com') m.
Proof. intros Hc Hm i p Hp. destruct (Hm i p Hp) as [H1 H2 H3]. split; auto. Qed.
Lemma read_line_nil n first com l com' : read_line n first com = Some (l, com') → com = [] → com' = [].
Proof. intros E ->. destruct n; [by simplify_eq/=|done]. Qed.
Lemma read_line_wait n : ∀ first com, read_line n first com = None → (length com < n)%nat.
Proof.
  induction n as [|n IH]; intros first com; [done|]. destruct com as [|c com]; simpl; [lia|]. destruct (c =? CTRL 68); [done|]. destruct (c =? CHAR_NL); [done|].
  destruct (read_line n false com) as [[]|] eqn:E; [done|]. intros _. apply IH in E. lia.
Qed.

(** The loop of a read, begun or resumed, in the invariant. *)
Lemma read_keeps i (killed : bool) ip target n got s com ed :
  editing s com ed → devices_ok s → clocks s = ["console"] → map_Forall (λ _, reader_ok com) (readers s) →
  Z.of_nat (length got) + Z.of_nat n = target → target < 2 ^ 31 →
  wp (consoleread_loop ilock i killed ip target n got) s (λ _ s', ∃ com' ed', tty_inv s' com' ed').
Proof using Hilock.
  clear iunlock Hiunlock procdump Hprocdump. intros He Hk Hl Hm Hg Ht. apply (consoleread_loop_wp ilock Hilock i killed ip target [] n got s com ed); [done|done|apply not_elem_of_nil|done|done|].
  assert (∀ s', hw s' = hw s → devices_ok s') as Hk'. { intros s' [= E1 E2]. apply (devices_same s); [done|congruence|done]. }
  destruct (read_line n _ com) as [[l com']|] eqn:E.
  - intros s' H1 H2 H3 H4. exists com', ed. split; [done|by apply Hk'|done|]. rewrite H4. apply (readers_shrink com); [|done]. exact (read_line_nil _ _ _ _ _ E).
  - intros s' H1 H2 H3 H4. exists [], ed. apply (readers_shrink com []) in Hm; [|done]. split; [done|by apply Hk'|done|]. rewrite H4. destruct killed; [done|].
    apply map_Forall_insert_2; [|done]. apply read_line_wait in E. split; simpl; [rewrite length_app; lia|lia|done].
Qed.

Lemma read_runs i killed ip n s com ed :
  tty_inv s com ed → n < 2 ^ 31 → wp (consoleread iunlock ilock i killed ip n) s (λ _ s', ∃ com' ed', tty_inv s' com' ed').
Proof using Hiunlock Hilock.
  intros [[[Hp Hc] Hr] Hk Hl Hm] Hn. rw /consoleread. apply wp_bind, world_wp; [apply Hiunlock|]. intros w. apply wp_bind, wp_lock_acquire; [by rewrite /= Hl; apply not_elem_of_nil|].
  rewrite /= Hl. destruct (Z.ltb_spec 0 n).
  - apply (read_keeps _ _ _ _ _ _ _ com ed); [by split|by destruct Hk|done|done|simpl; lia|done].
  - apply (read_end_wp ilock Hilock _ []); [done|apply not_elem_of_nil|]. intros s' E1 E2 E3 E4 E5 [= E6 E7]. cbn in *. exists com, ed.
    split; [split; [split; congruence|congruence]|apply (devices_same s); congruence|done|by rewrite E4].
Qed.

Lemma resume_runs i p killed s com ed :
  tty_inv s com ed → readers s !! i = Some p → wp (consoleread_resume ilock i killed) s (λ _ s', ∃ com' ed', tty_inv s' com' ed').
Proof using Hilock.
  clear iunlock Hiunlock procdump Hprocdump. intros [[[Hp Hc] Hr] Hk Hl Hm] Hi. rw /consoleread_resume. apply wp_bind, wp_gets. rewrite Hi. apply wp_bind, wp_modify.
  apply wp_bind, wp_lock_acquire; [by rewrite /= Hl; apply not_elem_of_nil|]. rewrite /= Hl. destruct (Hm i p Hi) as [H1 H2 H3].
  apply (read_keeps _ _ _ _ _ _ _ com ed); [by split|by destruct Hk|done|by apply map_Forall_delete|done|done].
Qed.

Lemma kbd_runs s com ed : tty_inv s com ed → wp (kbdintr procdump) s (λ _ s', ∃ com' ed', tty_inv s' com' ed').
Proof using Hprocdump.
  intros [He Hk Hl Hm]. apply (kbdintr_wp s com ed); [done|done|rewrite Hl; apply not_elem_of_nil|]. intros s' H1 H2 H3 H4 H5. eexists _, _.
  split; [exact H1|done|congruence|]. rewrite H5. destruct (edits_extend (kbd_dev s) com ed) as [t Et]. by apply (readers_woken com _ t).
Qed.
Lemma uart_runs s com ed : tty_inv s com ed → wp (uartintr procdump) s (λ _ s', ∃ com' ed', tty_inv s' com' ed').
Proof using Hprocdump.
  intros [He Hk Hl Hm]. apply (uartintr_wp s com ed); [done|done|rewrite Hl; apply not_elem_of_nil|]. intros s' H1 H2 H3 H4 H5. eexists _, _.
  split; [exact H1|done|congruence|]. rewrite H5. destruct (edits_extend (uart_dev s) com ed) as [t Et]. by apply (readers_woken com _ t).
Qed.
Lemma write_runs ip buf n s com ed : tty_inv s com ed → Forall (λ c, 0 ≤ c < 256) buf →
  wp (consolewrite iunlock ilock ip buf n) s (λ r s', r = n ∧ ∃ com' ed', tty_inv s' com' ed').
Proof using Hiunlock Hilock.
  intros [[Hok Hr] Hk Hl Hm] Hb. apply consolewrite_wp; [done|rewrite Hl; apply not_elem_of_nil|done|]. intros s' _ H1 H2 H3 H4 H5. split; [done|].
  exists com, ed. split; [by split; [|rewrite H2]|by apply H5|congruence|by rewrite H3].
Qed.

Lemma tty_step_inv s s' : tty_step s s' → (∃ com ed, tty_inv s com ed) → ∃ com ed, tty_inv s' com ed.
Proof.
  intros Hs (com&ed&Hi). pose proof Hi as [[[Hp Hc] Hr] [Hk1 Hk2 Hk3] Hl Hm].
  destruct Hs as [d Hd|c Hc'|s' E|s' E|i killed ip n r s' _ Hn E|i p killed r s' Hi' _ E|i p Hi'|ip buf n r s' Hb E].
  - exists com, ed. split; [by split|split; [done| |done]|done|done]. cbn. apply Forall_app. by split; [|constructor].
  - exists com, ed. split; [by split|split; [done|done|]|done|done]. cbn. apply Forall_app. by split; [|constructor].
  - exact (wp_result _ _ _ _ _ (kbd_runs s com ed Hi) E).
  - exact (wp_result _ _ _ _ _ (uart_runs s com ed Hi) E).
  - exact (wp_result _ _ _ _ _ (read_runs i killed ip n s com ed Hi Hn) E).
  - exact (wp_result _ _ _ _ _ (resume_runs i p killed s com ed Hi Hi') E).
  - exists com, ed. split; [by split|by split|done|]. cbn. apply map_Forall_insert_2; [|done]. destruct (Hm i p Hi') as [H1 H2 H3]. by split.
  - exact (proj2 (wp_result _ _ _ _ _ (write_runs ip buf n s com ed Hi Hb) E)).
Qed.
Lemma tty_reach_inv s s' : rtc tty_step s s' → (∃ com ed, tty_inv s com ed) → ∃ com ed, tty_inv s' com ed.
Proof. induction 1; eauto using tty_step_inv. Qed.
End Tty.

(** ** Lines *)

(** A character that is only echoed. *)
Definition plain (c : Z) : Prop := 0 < c < 256 ∧ c ∉ [CTRL 80; CTRL 85; CTRL 72; 0x7f; CTRL 68; CHAR_NL; CHAR_CR].

Lemma edit_plain c com ed : plain c → Z.of_nat (length com + length ed) < 127 → edit c (com, ed) = (com, ed ++ [c]).
Proof.
  intros [Hc Hn] Hl. rw /edit. rewrite !not_elem_of_cons in Hn. destruct Hn as (H1&H2&H3&H4&H5&H6&H7&_).
  rewrite !(proj2 (Z.eqb_neq c _)) //; try lia. cbn [orb andb negb]. change INPUT_BUF with 128. destruct (Z.ltb_spec (Z.of_nat (length com + length ed)) 128); [|lia].
  rewrite (proj2 (Z.eqb_neq _ 128)); [lia|]. rewrite u8_small; [lia|]. done.
Qed.

Lemma edits_plain l : ∀ com ed, Forall plain l → Z.of_nat (length com + length ed + length l) ≤ 127 → edits (com, ed) l = (com, ed ++ l).
Proof.
  induction l as [|c l IH]; intros com ed Hl Hn; cbn [edits foldl]; [by rewrite app_nil_r|]. apply Forall_cons in Hl as [Hc Hl]. simpl in Hn.
  rewrite edit_plain; [done|lia|]. rewrite -/(edits _ l) IH //; [rewrite length_app /=; lia|]. by rewrite -app_assoc.
Qed.

Lemma edits_line l nl : Forall plain l → (length l ≤ 127)%nat → nl = CHAR_NL ∨ nl = CHAR_CR → edits ([], []) (l ++ [nl]) = (l ++ [CHAR_NL], []).
Proof.
  intros Hl Hn Hnl. rewrite /edits foldl_app -/(edits _ l) edits_plain //; [simpl; lia|]. cbn [foldl app]. rw /edit. cbn [length app].
  replace (Z.of_nat (0 + length l) <? INPUT_BUF) with true by (symmetry; apply Z.ltb_lt; rw /INPUT_BUF; lia).
  by destruct Hnl as [-> | ->].
Qed.

Lemma read_whole_line l : ∀ n first, Forall plain l → (length l < n)%nat → read_line n first (l ++ [CHAR_NL]) = Some (l ++ [CHAR_NL], []).
Proof.
  induction l as [|c l IH]; intros n first Hl Hn; (destruct n as [|n]; [simpl in Hn; lia|]); [done|]. apply Forall_cons in Hl as [[Hc Hp] Hl].
  cbn [app read_line]. rewrite !not_elem_of_cons in Hp. rewrite !(proj2 (Z.eqb_neq c _)); [tauto..|]. rewrite IH //. simpl in Hn. lia.
Qed.

(** ** Theorems *)

(** C19: Whatever the keyboard or the serial port delivers, the interrupt handler returns with the device drained and the
    ring holding what a line editor over two lists makes of the same characters: finished bytes are only appended,
    erasing never reaches a finished line, a character that finds 128 bytes is dropped, and the processes waiting
    are woken exactly when a line, control-D or a full buffer finishes the input. *)
Theorem interrupts_edit_line {W} (procdump : K W unit) (Hprocdump : ∀ w, ∃ w', procdump w = Ret tt w') (s : console W) com ed
    (He : editing s com ed) (Hk : devices_ok s) (Hl : "console" ∉ clocks s) :
  wp (kbdintr procdump) s (λ _ s', let p := edits (com, ed) (kbd_chars (kb_shift (kbd s)) (kb_data (kbd s))) in
    editing s' p.1 p.2 ∧ kb_data (kbd s') = [] ∧ devices_ok s' ∧ clocks s' = clocks s ∧ readers s' = woken_by com p.1 (readers s)) ∧
  wp (uartintr procdump) s (λ _ s', let p := edits (com, ed) (if uart (com1 s) then ser_in (com1 s) else []) in
    editing s' p.1 p.2 ∧ devices_ok s' ∧ clocks s' = clocks s ∧ readers s' = woken_by com p.1 (readers s)).
Proof.
  split.
  - apply (kbdintr_wp procdump Hprocdump s com ed); [done..|]. intros s' H1 H2 H3 H4 H5. split_and!; [done| |done..].
    apply (f_equal length) in H2. rewrite /kbd_dev kbd_chars_length in H2. by apply nil_length_inv.
  - apply (uartintr_wp procdump Hprocdump s com ed); [done..|]. intros s' H1 H2 H3 H4 H5. by split_and!.
Qed.


(** A line typed at the serial port comes back from the next read: with nothing in the ring, at most 127 ordinary
    characters and a newline or carriage return are edited by the handler, and a read with room for them returns
    exactly these characters and a newline, and leaves the ring empty. *)
Theorem typed_line_is_read {W} (iunlock ilock : nat → K W unit) (procdump : K W unit)
    (Hiunlock : ∀ ip w, ∃ w', iunlock ip w = Ret tt w') (Hilock : ∀ ip w, ∃ w', ilock ip w = Ret tt w')
    (Hprocdump : ∀ w, ∃ w', procdump w = Ret tt w') (s : console W) l nl i killed ip n
    (He : editing s [] []) (Hk : devices_ok s) (Hl : "console" ∉ clocks s) (Hu : uart (com1 s) = true) (Hin : ser_in (com1 s) = l ++ [nl])
    (Hplain : Forall plain l) (Hlen : (length l ≤ 127)%nat) (Hnl : nl = CHAR_NL ∨ nl = CHAR_CR) (Hn : Z.of_nat (length l) < n < 2 ^ 31) :
  wp (_ ← uartintr procdump; consoleread iunlock ilock i killed ip n) s (λ r s',
    r = CReturn (Z.of_nat (length l) + 1) (l ++ [CHAR_NL]) ∧ editing s' [] []).
Proof.
  apply wp_bind, (uartintr_wp procdump Hprocdump s [] []); [done..|]. intros s1 H1 _ _ H4 _. rw /uart_dev Hu Hin in H1. rewrite edits_line // in H1.
  apply (consoleread_wp iunlock ilock Hiunlock Hilock i killed ip n s1 (l ++ [CHAR_NL]) []); [done|by rewrite H4|lia|].
  rewrite read_whole_line //; [lia|]. intros s' E1 _ _ _. rewrite length_app Nat2Z.inj_add. done.
Qed.

(** [consolewrite] returns its count and the screen shows the end of everything written: if the screen was a window
    of 24 rows on a roll of paper, it is the window on the paper with the bytes appended, newlines, backspaces and
    wrapped lines included, the cursor registers at the end of the text and never past row 23. *)
Theorem consolewrite_shows {W} (iunlock ilock : nat → K W unit)
    (Hiunlock : ∀ ip w, ∃ w', iunlock ip w = Ret tt w') (Hilock : ∀ ip w, ∃ w', ilock ip w = Ret tt w')
    (s : console W) ip buf n p (Hok : con_ok s) (Hl : "console" ∉ clocks s) (Hb : Forall (λ c, 0 ≤ c < 256) buf) (Hp : shows (screen s) p) :
  wp (consolewrite iunlock ilock ip buf n) s (λ r s', r = n ∧ input s' = input s ∧ cga_ok (screen s') ∧
    shows (screen s') (foldl (λ p c, paper_put c p) p (take (Z.to_nat n) buf))).
Proof.
  apply consolewrite_wp; [done..|]. intros s' H1 H2 H3 _ _ _. split_and!; [done|done|apply H2|]. rewrite H1. by apply shows_puts.
Qed.

(** The digits [printint] prints read back: in base ten with its sign every 32-bit integer gives itself (also the
    smallest, whose negation is itself), in base sixteen its unsigned value; there are at most eleven characters,
    within the buffer of sixteen. *)
Theorem printint_reads_back {W} (s : console W) xx (Hok : con_ok s) (Hx : - 2 ^ 31 ≤ xx < 2 ^ 31) :
  wp (printint xx 10 true) s (λ _ s', ∃ l, s' = puts_state l s ∧ signed_of l = xx ∧ (length l ≤ 11)%nat) ∧
  wp (printint xx 16 false) s (λ _ s', ∃ l, s' = puts_state l s ∧ num_of 16 l = u32 xx ∧ (length l ≤ 11)%nat).
Proof.
  split; (apply printint_wp; [done|done|by auto|]); intros l H1 H2 H3; exists l; auto.
Qed.


(** *** Witnesses *)

(** A console after boot, with bytes waiting at the serial port. *)
Definition tty0 (bytes : list Z) : console unit :=
  Console (Ring (replicate 128 0) 0 0 0) (Cga (replicate (25 * 80) blank) 0 0 0) (Keyboard [] 0) (Serial true bytes []) false true ∅ [] tt.
Definition ret (_ : nat) : K unit unit := mret tt.
Definition ret0 : K unit unit := mret tt.

Lemma ret_returns ip w : ∃ w', ret ip w = Ret tt w'.
Proof. by eexists. Qed.
Lemma ret0_returns w : ∃ w', ret0 w = Ret tt w'.
Proof. by eexists. Qed.

Lemma tty0_ok bytes : con_ok (tty0 bytes).
Proof. split; [done|]. split; [done|done|done|by vm_compute]. Qed.
Lemma tty0_editing bytes : editing (tty0 bytes) [] [].
Proof. split; [apply tty0_ok|]. split; [done|done|done|done|simpl; lia|done|constructor]. Qed.
Lemma tty0_devices bytes : forallb (λ c, (0 <=? c) && (c <? 256)) bytes = true → devices_ok (tty0 bytes).
Proof. intros H. split; [done|done|]. rewrite forallb_forall in H. apply Forall_forall. intros c Hc. apply list_elem_of_In in Hc. apply H in Hc. lia. Qed.
Lemma tty0_unlocked bytes : "console" ∉ clocks (tty0 bytes).
Proof. apply not_elem_of_nil. Qed.

(** "ls", erased letters and a carriage return. *)
Definition ls_line : list Z := [108; 115].

Lemma interrupts_edit_line_witness :
  wp (uartintr ret0) (tty0 [108; 120; 8; 115; 13]) (λ _ s', editing s' (ls_line ++ [10]) []).
Proof.
  assert (edits ([], []) [108; 120; 8; 115; 13] = (ls_line ++ [10], [])) as E by (vm_compute; reflexivity).
  destruct (interrupts_edit_line ret0 ret0_returns (tty0 [108; 120; 8; 115; 13]) [] [] (tty0_editing _)
    (tty0_devices [108; 120; 8; 115; 13] eq_refl) (tty0_unlocked _)) as [_ H].
  apply (wp_mono _ _ _ _ H). intros [] s' (H'&_). cbn [uart ser_in com1 tty0] in H'. rewrite E in H'. exact H'.
Defined.

(** A process reads before anything is typed and sleeps; then the line comes. *)
Definition asleep0 : console unit := state_of (consoleread ret ret 3 false 1 100) (tty0 [108; 13]).


Lemma typed_line_is_read_witness :
  ∃ s', (_ ← uartintr ret0; consoleread ret ret 3 false 1 100) (tty0 (ls_line ++ [13])) = Ret (CReturn 3 [108; 115; 10]) s'.
Proof.
  destruct (wp_elim _ _ _ (typed_line_is_read ret ret ret0 ret_returns ret_returns ret0_returns (tty0 (ls_line ++ [13])) ls_line 13 3 false 1 100
    (tty0_editing _) (tty0_devices (ls_line ++ [13]) eq_refl) (tty0_unlocked _) eq_refl eq_refl
    ltac:(repeat constructor; try done; by apply (bool_decide_unpack _)) ltac:(simpl; lia) (or_intror eq_refl) ltac:(simpl; lia))) as (r&s'&E&->&_).
  exists s'. exact E.
Defined.

(** The roll of paper of the screen after boot. *)
Definition paper0 : paper := Paper (λ j, if j <? 24 * 80 then blank else 0) 0 0.
Lemma shows0 bytes : shows (screen (tty0 bytes)) paper0.
Proof.
  split; [|done|].
  - intros j Hj. cbn [tty0 screen crt paper0 pa_cell pa_top]. rewrite lookup_replicate_2; [lia|]. destruct (Z.ltb_spec (80 * 0 + j) (24 * 80)); [done|lia].
  - intros j Hj. cbn [paper0 pa_cell pa_top] in *. destruct (Z.ltb_spec j (24 * 80)); [lia|done].
Qed.

Lemma consolewrite_shows_witness :
  wp (consolewrite ret ret 1 [104; 105; 10] 3) (tty0 []) (λ r s', r = 3 ∧ shows (screen s') (foldl (λ p c, paper_put c p) paper0 [104; 105; 10])).
Proof.
  apply (wp_mono _ _ _ _ (consolewrite_shows ret ret ret_returns ret_returns (tty0 []) 1 [104; 105; 10] 3 paper0
    (tty0_ok _) (tty0_unlocked _) ltac:(by repeat constructor) (shows0 _))).
  intros r s' (->&_&_&H). split; [done|exact H].
Defined.

Lemma printint_reads_back_witness : wp (printint (-2147483648) 10 true) (tty0 []) (λ _ s', ∃ l, s' = puts_state l (tty0 []) ∧ signed_of l = -2147483648).
Proof.
  destruct (printint_reads_back (tty0 []) (-2147483648) (tty0_ok _) ltac:(lia)) as [H _].
  apply (wp_mono _ _ _ _ H). intros _ s' (l&El&Hl&_). exists l. split; [exact El|exact Hl].
Defined.

(** The letter 'a' with the shift key held. *)
Definition shifted : console unit := set_kbd (Keyboard [0x1e] 1) (tty0 []).
