(* ===== verification/Trap.v ===== *)
(** * The trap handler (xv6/trap.c, traps.h).

    [trap] on the kernel with the clock ([ksys]) and the devices, whose interrupt routines are an interface
    (class [Devices]); the trap frame is read from memory, and the system call dispatcher is an argument, in practice the one of [Exec].
    A handler that gives the CPU up stops there; what it does when it runs again is [trap_resume] after
    [yield] and [trap_syscall_end] after a system call.  The theorems: a fault of user code ends the process and leaves the
    rest of the process table in order, a fault of the kernel panics; no trap returns a killed process
    to user space; a timer tick advances the clock, wakes up the sleepers of the clock and takes the CPU
    from the running process. *)
From S2P Require Import Prelude CMem Str Spinlock Kalloc Vm Proc Sleeplock Bio Ide Console Tty Syscall Seg Trapasm.
Local Open Scope Z_scope.

(** ** traps.h *)

Definition T_IRQ0 : Z := 32.
Definition IRQ_TIMER : Z := 0.
Definition IRQ_KBD : Z := 1.
Definition IRQ_COM1 : Z := 4.
Definition IRQ_IDE : Z := 14.
Definition IRQ_SPURIOUS : Z := 31.

(** Offsets in [struct trapframe]. *)
Definition tf_trapno : Z := 48.
Definition tf_err : Z := 52.

(** ** State *)

(** What trap.c calls of the drivers. *)
Class Devices (D : Type) := {
  dev_ideintr : K D unit;
  dev_kbdintr : K D unit;
  dev_uartintr : K D unit;
  dev_lapiceoi : K D unit
}.

(** The messages of trap.c, with what they print. *)
Inductive message :=
| MSpurious (cpu : nat) (cs eip : Z)
| MKernel (trapno : Z) (cpu : nat) (eip cr2 : Z)
| MKilled (pid : Z) (name : list Z) (trapno err : Z) (cpu : nat) (eip cr2 : Z).

Record tsys (D F : Type) := Tsys { t_k : ksys F; t_dev : D; t_msgs : list message }.
Arguments Tsys {D F} _ _ _.
Arguments t_k {D F} _.
Arguments t_dev {D F} _.
Arguments t_msgs {D F} _.

Section Trap.
Context {D F : Type} `{!Devices D} `{!FileOps F}.
(** The CPU, the addresses of the process table and of [ticks], the dispatcher, the fault address. *)
Context (me : nat) (ptable_proc ticks_addr : Z) (syscall : K (ksys F) unit) (cr2 : Z).
Notation M := (K (tsys D F)).

Definition on_sys {A} : K (ksys F) A → M A := zoom t_k (λ v s, Tsys v (t_dev s) (t_msgs s)).
Definition on_kern {A} (m : K (kern F) A) : M A := on_sys (inkern m).
Definition on_dev {A} : K D A → M A := zoom t_dev (λ v s, Tsys (t_k s) v (t_msgs s)).
Definition cprintf (x : message) : M unit := modify (λ s, Tsys (t_k s) (t_dev s) (t_msgs s ++ [x])).

(** Fields of the trap frame; cs is a half word. *)
Definition memory (s : tsys D F) : mem := km_mem (phys (kk (t_k s))).
Definition tf_word (tf o : Z) : M Z := gets (λ s, ld32 (memory s) (tf + o)).
Definition tf_cs16 (tf : Z) : M Z := gets (λ s, u16 (ld32 (memory s) (tf + tf_cs))).

Definition my_slot : M (option nat) := on_kern (myproc me).
(** [myproc()->...]: a null pointer is undefined. *)
Definition my_proc : M proc := on_kern (curproc me).
Definition upd_my (f : proc → proc) : M unit := i ← on_kern (curslot me); on_kern (upd_proc i f).

(** [if(myproc() && myproc()->killed && (tf->cs&3) == DPL_USER) exit();] *)
Definition exit_if_killed (tf : Z) : M unit :=
  o ← my_slot;
  match o with
  | None => mret tt
  | Some _ =>
      p ← my_proc;
      cs ← tf_cs16 tf;
      when (negb (p_killed p =? 0) && (Z.land cs 3 =? DPL_USER)) (on_kern (Proc.exit ptable_proc me))
  end.

(** [if(myproc()->killed) exit();] *)
Definition exit_now_if_killed : M unit :=
  p ← my_proc;
  when (negb (p_killed p =? 0)) (on_kern (Proc.exit ptable_proc me)).

(** The end of the branch for system calls, also when the call had given the CPU up. *)
Definition trap_syscall_end : M unit := exit_now_if_killed.

Definition trap_syscall (tf : Z) : M unit :=
  _ ← exit_now_if_killed;
  _ ← upd_my (set_tf tf);
  _ ← on_sys syscall;
  trap_syscall_end.

(** The [default] case of the switch. *)
Definition trap_default (tf trapno : Z) : M unit :=
  o ← my_slot;
  cs ← tf_cs16 tf;
  eip ← tf_word tf tf_eip;
  if bool_decide (o = None) || (Z.land cs 3 =? 0) then
    _ ← cprintf (MKernel trapno me eip cr2);
    panic "trap"
  else
    p ← my_proc;
    err ← tf_word tf tf_err;
    _ ← cprintf (MKilled (p_pid p) (cstring (p_name p)) trapno err me eip cr2);
    upd_my (set_killed 1).

Definition tick : M unit :=
  _ ← on_sys (lock_acquire "time");
  _ ← on_sys (modify (λ s, set_ticks (u32 (ticks s + 1)) s));
  _ ← on_kern (Proc.wakeup ticks_addr);
  on_sys (lock_release "time").

Definition trap_switch (tf trapno : Z) : M unit :=
  if trapno =? T_IRQ0 + IRQ_TIMER then
    _ ← when (Nat.eqb me 0) tick;
    on_dev dev_lapiceoi
  else if trapno =? T_IRQ0 + IRQ_IDE then _ ← on_dev dev_ideintr; on_dev dev_lapiceoi
  else if trapno =? T_IRQ0 + IRQ_IDE + 1 then mret tt
  else if trapno =? T_IRQ0 + IRQ_KBD then _ ← on_dev dev_kbdintr; on_dev dev_lapiceoi
  else if trapno =? T_IRQ0 + IRQ_COM1 then _ ← on_dev dev_uartintr; on_dev dev_lapiceoi
  else if (trapno =? T_IRQ0 + 7) || (trapno =? T_IRQ0 + IRQ_SPURIOUS) then
    cs ← tf_cs16 tf;
    eip ← tf_word tf tf_eip;
    _ ← cprintf (MSpurious me cs eip);
    on_dev dev_lapiceoi
  else trap_default tf trapno.

(** The process was switched away in [yield] and runs again. *)
Definition trap_resume (tf : Z) : M unit :=
  _ ← on_kern (lock_release "ptable");
  exit_if_killed tf.

Definition trap (tf : Z) : M unit :=
  trapno ← tf_word tf tf_trapno;
  if trapno =? T_SYSCALL then trap_syscall tf
  else
    _ ← trap_switch tf trapno;
    _ ← exit_if_killed tf;
    o ← my_slot;
    _ ← match o with
        | None => mret tt
        | Some _ =>
            p ← my_proc;
            when (bool_decide (p_state p = RUNNING) && (trapno =? T_IRQ0 + IRQ_TIMER)) (on_kern (Proc.yield me))
        end;
    exit_if_killed tf.
End Trap.

(** The disk driver and the console, on the board's interrupt controller, which counts the acknowledged interrupts. *)
#[global] Instance board_devices {W} (procdump : K W unit) : Devices (ide * console W * nat) := {|
  dev_ideintr := zoom (λ d, d.1.1) (λ v d, (v, d.1.2, d.2)) Ide.ideintr;
  dev_kbdintr := zoom (λ d, d.1.2) (λ v d, (d.1.1, v, d.2)) (kbdintr procdump);
  dev_uartintr := zoom (λ d, d.1.2) (λ v d, (d.1.1, v, d.2)) (uartintr procdump);
  dev_lapiceoi := modify (λ d, (d.1, S d.2))
|}.

(** ** Proofs *)

Section Facts.
Context {D F : Type} `{!Devices D} `{!FileOps F}.
Context (me : nat) (ptable_proc ticks_addr : Z) (syscall : K (ksys F) unit) (cr2 : Z).
Implicit Types (s : tsys D F).

(** The kernel's tables inside the state. *)
Definition kern_of s : kern F := kk (t_k s).
Definition with_kern (k : kern F) s : tsys D F := Tsys (set_kk k (t_k s)) (t_dev s) (t_msgs s).

Lemma bind_Sleeps {S A B} (m : K S A) (f : A → K S B) x w y : m x = Sleeps w y → (m ≫= f) x = Sleeps w y.
Proof. rw /mbind /K_bind. by intros ->. Qed.
Lemma bind_Panic {S A B} (m : K S A) (f : A → K S B) x t : m x = Panic t → (m ≫= f) x = Panic t.
Proof. rw /mbind /K_bind. by intros ->. Qed.

Lemma with_kern_id s : with_kern (kern_of s) s = s.
Proof. by destruct s as [[]]. Qed.
Lemma on_kern_Ret {A} (m : K (kern F) A) s a k : m (kern_of s) = Ret a k → on_kern m s = Ret a (with_kern k s).
Proof. intros E. rw /on_kern /on_sys /inkern /zoom. rw /kern_of in E. by rewrite E. Qed.
Lemma on_kern_Sleeps {A} (m : K (kern F) A) s w k : m (kern_of s) = Sleeps w k → on_kern m s = Sleeps w (with_kern k s).
Proof. intros E. rw /on_kern /on_sys /inkern /zoom. rw /kern_of in E. by rewrite E. Qed.

(** The running process: its slot and its record. *)
Definition running s (i : nat) (p : proc) : Prop := cpuproc (kern_of s) !! me = Some (Some i) ∧ procs (kern_of s) !! i = Some p.

Lemma my_slot_run s : my_slot me s = Ret (default None (cpuproc (kern_of s) !! me)) s.
Proof. rw /my_slot. by rewrite (on_kern_Ret (myproc me) s _ _ eq_refl) with_kern_id. Qed.
Lemma my_proc_run s i p : running s i p → my_proc me s = Ret p s.
Proof.
  intros [Hc Hp]. rw /my_proc. rewrite (on_kern_Ret _ s p (kern_of s)); [|by rewrite with_kern_id].
  rw /curproc /curslot /myproc /gets /mbind /K_bind Hc /= /proc_at Hp //.
Qed.
Lemma upd_my_run s i p f : running s i p → upd_my me f s = Ret tt (with_kern (set_procs (alter f i (procs (kern_of s))) (kern_of s)) s).
Proof.
  intros [Hc Hp]. rw /upd_my. erewrite bind_Ret; [|apply (on_kern_Ret _ s i (kern_of s)); rw /curslot /myproc /gets /mbind /K_bind Hc //].
  rewrite with_kern_id. by rewrite (on_kern_Ret (upd_proc i f) s _ _ eq_refl).
Qed.

Lemma sched_no_return (k : kern F) : wlp (sched me) k (λ _ _, False).
Proof.
  rw /sched. apply wlp_bind. rw {1}/wlp /myproc /gets. apply wlp_bind. rw {1}/wlp /gets.
  destruct (negb _); [done|]. destruct (negb _); [done|]. apply wlp_bind. rw {1}/wlp /deref. destruct (default None _); [|done]. cbn [mret K_ret].
  apply wlp_bind. rw {1}/wlp /proc_at. destruct (procs k !! n); [|done]. by destruct (bool_decide _).
Qed.

Lemma wlp_any {S A} (m : K S A) (x : S) (Q : A → S → Prop) : (∀ a y, Q a y) → wlp m x Q.
Proof. intros H. rw /wlp. by destruct (m x). Qed.

(** [exit] never returns. *)
Lemma exit_no_return (k : kern F) : wlp (Proc.exit ptable_proc me) k (λ _ _, False).
Proof.
  rw /Proc.exit. apply wlp_bind, wlp_any. intros o k1. apply wlp_bind, wlp_any. intros ini k2. destruct (bool_decide _); [done|].
  do 12 (apply wlp_bind, wlp_any; intros ? ?). apply wlp_bind, wlp_any. intros _ k3. apply wlp_bind.
  eapply wlp_mono; [apply sched_no_return|]. done.
Qed.

Lemma on_kern_wlp {A} (m : K (kern F) A) s (Q : A → tsys D F → Prop) :
  wlp m (kern_of s) (λ a k, Q a (with_kern k s)) → wlp (on_kern m) s Q.
Proof. rw /wlp /on_kern /on_sys /inkern /zoom /kern_of. by destruct (m _). Qed.

(** Code that was interrupted at user level. *)
Definition from_user (tf : Z) s : Prop := Z.land (u16 (ld32 (memory s) (tf + tf_cs))) 3 = DPL_USER.

Lemma exit_if_killed_wlp tf s : wlp (exit_if_killed me ptable_proc tf) s (λ _ s', s' = s ∧ (from_user tf s → ∀ i p, running s i p → p_killed p = 0)).
Proof.
  rw /exit_if_killed. apply wlp_bind. rw {1}/wlp my_slot_run. destruct (cpuproc (kern_of s) !! me) as [[i|]|] eqn:Hc; cbn [default].
  - apply wlp_bind. destruct (procs (kern_of s) !! i) as [p|] eqn:Hp.
    + rw {1}/wlp (my_proc_run s i p) //. apply wlp_bind. rw {1}/wlp /tf_cs16 /gets. destruct (Z.eqb_spec (p_killed p) 0) as [E|E]; cbn [negb andb].
      * split; [done|]. intros _ i' p' [Hc' Hp']. congruence.
      * destruct (Z.eqb_spec (Z.land (u16 (ld32 (memory s) (tf + tf_cs))) 3) DPL_USER) as [Hu|Hu].
        -- apply on_kern_wlp. eapply wlp_mono; [apply exit_no_return|done].
        -- split; [done|]. by intros H.
    + rw {1}/wlp /my_proc /on_kern /on_sys /inkern /zoom. rw /kern_of in Hc, Hp. 
      rw /curproc /curslot /myproc /gets /mbind /K_bind Hc /= /proc_at Hp //.
  - split; [done|]. intros _ i p [Hc' _]. congruence.
  - split; [done|]. intros _ i p [Hc' _]. congruence.
Qed.

Lemma exit_now_wlp s : wlp (exit_now_if_killed me ptable_proc) s (λ _ s', s' = s ∧ ∀ i p, running s i p → p_killed p = 0).
Proof.
  rw /exit_now_if_killed. apply wlp_bind. destruct (cpuproc (kern_of s) !! me) as [[i|]|] eqn:Hc; [destruct (procs (kern_of s) !! i) as [p|] eqn:Hp|..].
  - rw {1}/wlp (my_proc_run s i p) //. destruct (Z.eqb_spec (p_killed p) 0) as [E|E]; cbn [negb].
    + split; [done|]. intros i' p' [Hc' Hp']. congruence.
    + apply on_kern_wlp. eapply wlp_mono; [apply exit_no_return|done].
  - rw {1}/wlp /my_proc /on_kern /on_sys /inkern /zoom. rw /kern_of in Hc, Hp.
    rw /curproc /curslot /myproc /gets /mbind /K_bind Hc /= /proc_at Hp //.
  - rw {1}/wlp /my_proc /on_kern /on_sys /inkern /zoom. rw /kern_of in Hc. rw /curproc /curslot /myproc /gets /mbind /K_bind Hc //.
  - rw {1}/wlp /my_proc /on_kern /on_sys /inkern /zoom. rw /kern_of in Hc. rw /curproc /curslot /myproc /gets /mbind /K_bind Hc //.
Qed.

Lemma trap_wlp tf s : wlp (trap me ptable_proc ticks_addr syscall cr2 tf) s (λ _ s',
  (ld32 (memory s) (tf + tf_trapno) = T_SYSCALL ∨ from_user tf s') → ∀ i p, running s' i p → p_killed p = 0).
Proof.
  rw /trap. apply wlp_bind. rw {1}/wlp /tf_word /gets. destruct (Z.eqb_spec (ld32 (memory s) (tf + tf_trapno)) T_SYSCALL) as [E|E].
  - rw /trap_syscall. do 3 (apply wlp_bind, wlp_any; intros ? ?). eapply wlp_mono; [apply exit_now_wlp|]. intros _ s' [-> H] _. exact H.
  - do 4 (apply wlp_bind, wlp_any; intros ? ?). eapply wlp_mono; [apply exit_if_killed_wlp|]. intros _ s' [-> H] [?|Hu]; [done|exact (H Hu)].
Qed.

(** ** Faults *)

(** Vectors trap.c has no case for. *)
Definition unexpected (n : Z) : Prop := n ∉ [T_SYSCALL; 32; 46; 47; 33; 36; 39; 63].

Lemma unexpected_default tf n s : unexpected n → trap_switch me ticks_addr cr2 tf n s = trap_default me cr2 tf n s.
Proof.
  rw /unexpected !not_elem_of_cons. intros (_&H1&H2&H3&H4&H5&H6&H7&_). rw /trap_switch.
  rw /T_IRQ0 /IRQ_TIMER /IRQ_IDE /IRQ_KBD /IRQ_COM1 /IRQ_SPURIOUS.
  repeat match goal with |- context [n =? ?c] => rewrite (proj2 (Z.eqb_neq n c)); [lia|] end. done.
Qed.

(** The state a user fault leaves for [exit]: the process marked, the message printed. *)
Definition condemned tf s i p : tsys D F :=
  Tsys (set_kk (set_procs (alter (set_killed 1) i (procs (kern_of s))) (kern_of s)) (t_k s)) (t_dev s)
    (t_msgs s ++ [MKilled (p_pid p) (cstring (p_name p)) (ld32 (memory s) (tf + tf_trapno)) (ld32 (memory s) (tf + tf_err)) me
                    (ld32 (memory s) (tf + tf_eip)) cr2]).

Lemma user_fault_run tf s i p k : unexpected (ld32 (memory s) (tf + tf_trapno)) → from_user tf s → running s i p →
  Proc.exit ptable_proc me (kern_of (condemned tf s i p)) = Sleeps "sched" k →
  trap me ptable_proc ticks_addr syscall cr2 tf s = Sleeps "sched" (with_kern k (condemned tf s i p)).
Proof.
  intros Hn Hu [Hc Hp] Ex. rw /trap. erewrite bind_Ret; [|reflexivity].
  assert (ld32 (memory s) (tf + tf_trapno) ≠ T_SYSCALL) as Hns. { rw /unexpected not_elem_of_cons in Hn. by destruct Hn. }
  destruct (Z.eqb_spec (ld32 (memory s) (tf + tf_trapno)) T_SYSCALL) as [?|_]; [done|].
  rewrite (bind_Ret _ _ s tt (condemned tf s i p)).
  { rewrite unexpected_default //. rw /trap_default. rewrite (bind_Ret _ _ s _ _ (my_slot_run s)) Hc. cbn [default].
    erewrite bind_Ret; [|reflexivity]. erewrite bind_Ret; [|reflexivity]. rewrite bool_decide_false //. cbn [orb].
    rw /from_user in Hu. rewrite Hu. change (DPL_USER =? 0) with false. cbv iota.
    rewrite (bind_Ret _ _ s p s); [by apply (my_proc_run s i p)|]. erewrite bind_Ret; [|reflexivity]. erewrite bind_Ret; [|reflexivity].
    by rewrite (upd_my_run _ i p). }
  assert (running (condemned tf s i p) i (set_killed 1 p)) as Hr'.
  { split; [done|]. cbn [kern_of condemned t_k set_kk kk procs set_procs]. by rewrite list_lookup_alter_eq Hp. }
  apply bind_Sleeps. rw /exit_if_killed. rewrite (bind_Ret _ _ _ _ _ (my_slot_run _)).
  destruct Hr' as [Hc' Hp']. rewrite Hc'. change (default None (Some (Some i))) with (Some i). cbv iota. rewrite (bind_Ret _ _ _ _ _ (my_proc_run _ i _ (conj Hc' Hp'))).
  erewrite bind_Ret; [|reflexivity]. change (memory (condemned tf s i p)) with (memory s). rw /from_user in Hu. rewrite Hu.
  cbn [p_killed set_killed]. change (negb (1 =? 0) && (DPL_USER =? DPL_USER)) with true. cbn [when]. by rewrite (on_kern_Sleeps _ _ "sched" k Ex).
Qed.

Lemma kernel_fault_run tf s : unexpected (ld32 (memory s) (tf + tf_trapno)) →
  default None (cpuproc (kern_of s) !! me) = None ∨ Z.land (u16 (ld32 (memory s) (tf + tf_cs))) 3 = 0 →
  trap me ptable_proc ticks_addr syscall cr2 tf s = Panic "trap".
Proof.
  intros Hn Hk. rw /trap. erewrite bind_Ret; [|reflexivity].
  assert (ld32 (memory s) (tf + tf_trapno) ≠ T_SYSCALL) as Hns. { rw /unexpected not_elem_of_cons in Hn. by destruct Hn. }
  destruct (Z.eqb_spec (ld32 (memory s) (tf + tf_trapno)) T_SYSCALL) as [?|_]; [done|].
  apply bind_Panic. rewrite unexpected_default //. rw /trap_default. rewrite (bind_Ret _ _ s _ _ (my_slot_run s)).
  erewrite bind_Ret; [|reflexivity]. erewrite bind_Ret; [|reflexivity].
  assert (bool_decide (default None (cpuproc (kern_of s) !! me) = None) || (Z.land (u16 (ld32 (memory s) (tf + tf_cs))) 3 =? 0) = true) as ->; [|done].
  destruct Hk as [-> | ->]; [done|by rewrite orb_true_r].
Qed.

(** ** The clock *)

(** The tables after a tick on this CPU: sleepers of the clock awake (on CPU 0), the process of this CPU ready. *)
Definition ticked (i : nat) (k : kern F) : kern F :=
  let ps := if Nat.eqb me 0 then woken ticks_addr <$> procs k else procs k in
  set_khold ["ptable"] (set_procs (alter (set_state RUNNABLE) i ps) k).

Lemma tick_run s : khold (kern_of s) = [] →
  tick ticks_addr s = Ret tt (Tsys (Ksys (set_procs (woken ticks_addr <$> procs (kern_of s)) (kern_of s)) (u32 (ticks (t_k s) + 1)) (trace (t_k s)) (traced (t_k s)))
    (t_dev s) (t_msgs s)).
Proof. destruct s as [[k t tr trd] d ms]. cbn [kern_of t_k kk]. destruct k as [ps np ini cp ph h f]. cbn. intros ->. reflexivity. Qed.

Lemma yield_run (k : kern F) i p : khold k = [] → cpuproc k !! me = Some (Some i) → procs k !! i = Some p →
  Proc.yield me k = Sleeps "sched" (set_khold ["ptable"] (set_procs (alter (set_state RUNNABLE) i (procs k)) k)).
Proof.
  intros Hh Hc Hp. rw /Proc.yield. erewrite bind_Ret; [|apply lock_acquire_run; cbn [held kern_HasLocks]; rewrite Hh; apply not_elem_of_nil].
  cbn [held set_held kern_HasLocks]. rewrite Hh. erewrite bind_Ret; [|reflexivity]. cbn [cpuproc set_khold]. rewrite Hc.
  erewrite bind_Ret; [|reflexivity]. erewrite bind_Ret; [|reflexivity]. apply bind_Sleeps. rw /sched.
  erewrite bind_Ret; [|reflexivity]. erewrite bind_Ret; [|reflexivity]. cbn [cpuproc khold set_khold set_procs procs]. rewrite Hc.
  change (negb (bool_decide ("ptable" ∈ ["ptable"]))) with false. cbn [length Nat.eqb negb].
  erewrite bind_Ret; [|reflexivity]. erewrite bind_Ret; [|rw /proc_at; cbn [procs set_procs set_khold]; rewrite list_lookup_alter_eq Hp; reflexivity].
  done.
Qed.

Lemma timer_run tf s i p d : ld32 (memory s) (tf + tf_trapno) = T_IRQ0 + IRQ_TIMER → running s i p → p_state p = RUNNING →
  p_killed p = 0 ∨ ¬ from_user tf s → khold (kern_of s) = [] → dev_lapiceoi (t_dev s) = Ret tt d →
  trap me ptable_proc ticks_addr syscall cr2 tf s =
    Sleeps "sched" (Tsys (Ksys (ticked i (kern_of s)) (if Nat.eqb me 0 then u32 (ticks (t_k s) + 1) else ticks (t_k s)) (trace (t_k s)) (traced (t_k s)))
      d (t_msgs s)).
Proof.
  intros Hn [Hc Hp] Hst Hk Hh Hd. rw /trap. erewrite bind_Ret; [|reflexivity]. rewrite Hn. change (T_IRQ0 + IRQ_TIMER =? T_SYSCALL) with false. cbv iota.
  set (ps := if Nat.eqb me 0 then woken ticks_addr <$> procs (kern_of s) else procs (kern_of s)).
  set (t := if Nat.eqb me 0 then u32 (ticks (t_k s) + 1) else ticks (t_k s)).
  set (s1 := Tsys (Ksys (set_procs ps (kern_of s)) t (trace (t_k s)) (traced (t_k s))) d (t_msgs s)).
  assert (procs (kern_of s1) !! i = Some p) as Hp1.
  { cbn. rw /ps. destruct (Nat.eqb me 0); [|done]. rewrite list_lookup_fmap Hp /= /woken. by rewrite bool_decide_false; [rewrite Hst|]. }
  rewrite (bind_Ret _ _ s tt s1).
  { rw /trap_switch. rewrite Z.eqb_refl. rw /s1 /ps /t. destruct (Nat.eqb me 0); cbn [when].
    - rewrite (bind_Ret _ _ _ _ _ (tick_run s Hh)). rw /on_dev /zoom. cbn [t_dev]. by rewrite Hd.
    - erewrite bind_Ret; [|reflexivity]. rw /on_dev /zoom. rewrite Hd. destruct s as [[[]]]. done. }
  assert (running s1 i p) as Hr1 by done. assert (memory s1 = memory s) as Em by done. rewrite (bind_Ret _ _ s1 tt s1).
  { rw /exit_if_killed. rewrite (bind_Ret _ _ _ _ _ (my_slot_run s1)). change (cpuproc (kern_of s1)) with (cpuproc (kern_of s)). rewrite Hc.
    change (default None (Some (Some i))) with (Some i). cbv iota. rewrite (bind_Ret _ _ _ _ _ (my_proc_run _ i p Hr1)). erewrite bind_Ret; [|reflexivity].
    rewrite Em. destruct Hk as [-> | Hu]; [done|]. rw /from_user in Hu. rewrite (proj2 (Z.eqb_neq _ _) Hu) andb_false_r //. }
  rewrite (bind_Ret _ _ _ _ _ (my_slot_run s1)). change (cpuproc (kern_of s1)) with (cpuproc (kern_of s)). rewrite Hc.
  change (default None (Some (Some i))) with (Some i). cbv iota. apply bind_Sleeps. rewrite (bind_Ret _ _ _ _ _ (my_proc_run _ i p Hr1)).
  rewrite Hst. change (bool_decide (RUNNING = RUNNING) && (T_IRQ0 + IRQ_TIMER =? T_IRQ0 + IRQ_TIMER)) with true. cbn [when].
  by rewrite (on_kern_Sleeps _ s1 _ _ (yield_run (kern_of s1) i p Hh Hc Hp1)).
Qed.

Lemma condemned_inv tf s i p : procs (kern_of s) !! i = Some p → ptable_inv ptable_proc (kern_of s) → ptable_inv ptable_proc (kern_of (condemned tf s i p)).
Proof. intros Hp Hi. rw /ptable_inv. cbn. rewrite (alter_slot _ _ _ p) //. by apply (table_same _ _ _ _ _ i p). Qed.
End Facts.

(** ** Theorems *)


(** C25: A killed process does not get back to user space.  Whatever the trap and the devices and the system call do, when [trap] returns from a system
    call or to code at user level, and when it returns after the process had been switched away, the running process is not marked as
    killed. *)
Theorem killed_never_returns {D F} `{!Devices D} `{!FileOps F} me ptable_proc ticks_addr syscall cr2 tf (s : tsys D F) :
  wlp (trap me ptable_proc ticks_addr syscall cr2 tf) s (λ _ s',
    ld32 (memory s) (tf + tf_trapno) = T_SYSCALL ∨ from_user tf s' → ∀ i p, running me s' i p → p_killed p = 0) ∧
  wlp (trap_syscall_end me ptable_proc) s (λ _ s', ∀ i p, running me s' i p → p_killed p = 0) ∧
  wlp (trap_resume me ptable_proc tf) s (λ _ s', from_user tf s' → ∀ i p, running me s' i p → p_killed p = 0).
Proof.
  split; [apply trap_wlp|]. split.
  - eapply wlp_mono; [apply exit_now_wlp|]. by intros _ s' [-> H].
  - apply wlp_bind, wlp_any. intros _ s1. eapply wlp_mono; [apply exit_if_killed_wlp|]. by intros _ s' [-> H].
Qed.

(** The clock ticks and the CPU changes hands.  A timer interrupt that finds a process running, in the kernel without locks or at user level and
    not killed, is acknowledged and stops in sched with the lock of the table held: the process is ready to run again,
    and on CPU 0 the clock went up by one, modulo 2^32, and the processes asleep on the clock, no others, are ready. *)
Theorem timer_preempts {D F} `{!Devices D} `{!FileOps F} me ptable_proc ticks_addr syscall cr2 tf (s : tsys D F) i p d
    (Hn : ld32 (memory s) (tf + tf_trapno) = T_IRQ0 + IRQ_TIMER) (Hr : running me s i p) (Hst : p_state p = RUNNING)
    (Hk : p_killed p = 0 ∨ ¬ from_user tf s) (Hh : khold (kern_of s) = []) (Hd : dev_lapiceoi (t_dev s) = Ret tt d) :
  ∃ s', trap me ptable_proc ticks_addr syscall cr2 tf s = Sleeps "sched" s' ∧
    t_dev s' = d ∧ ticks (t_k s') = (if Nat.eqb me 0 then u32 (ticks (t_k s) + 1) else ticks (t_k s)) ∧
    khold (kern_of s') = ["ptable"] ∧ procs (kern_of s') !! i = Some (set_state RUNNABLE p) ∧
    (∀ j q, j ≠ i → procs (kern_of s) !! j = Some q →
      procs (kern_of s') !! j = Some (if Nat.eqb me 0 then woken ticks_addr q else q)).
Proof.
  eexists. split; [by apply (timer_run me ptable_proc ticks_addr syscall cr2 tf s i p d)|]. cbn [t_dev t_k ticks kern_of kk].
  split; [done|]. split; [done|]. split; [done|]. destruct Hr as [Hc Hp]. rw /ticked. cbn [procs set_khold set_procs]. split.
  - rewrite list_lookup_alter_eq. destruct (Nat.eqb me 0); rewrite ?list_lookup_fmap Hp //= /woken. by rewrite bool_decide_false; [rewrite Hst|].
  - intros j q Hj Hq. rewrite list_lookup_alter_ne; [congruence|]. rw /kern_of in Hq. rw /kern_of. destruct (Nat.eqb me 0); rewrite ?list_lookup_fmap Hq //.
Qed.

(** ** Witnesses *)

(** Process 2 on CPU 0, a trap frame at 0x80301fb4 with the given vector and cs, the board's devices idle. *)
#[local] Existing Instance demo_fileops.
Definition demo_tf : Z := 0x80301fb4.
Definition board : ide * console unit * nat := (boot [] false ∅, tty0 [], 0%nat).
Definition trapped (vec cs : Z) : tsys (ide * console unit * nat) unit :=
  Tsys (Ksys (set_phys (Kmem (st32 (demo_tf + tf_trapno) vec (st32 (demo_tf + tf_cs) cs ∅)) 0 true [])
                (demo_kern (demo_proc SLEEPING 1 0x80119000 None) (demo_proc RUNNING 2 0 (Some 0%nat)) [Some 1%nat])) 41 0 []) board [].

Lemma trapped_inv vec cs : ptable_inv 0x80110000 (kern_of (trapped vec cs)).
Proof.
  refine (demo_inv SLEEPING RUNNING 0x80119000 [Some 1%nat] eq_refl eq_refl _ _ _ _).
  - split; [discriminate|]. intros [[|c] H]; discriminate.
  - split; [|reflexivity]. exists 0%nat. reflexivity.
  - intros [|c] i [= <-]. right. reflexivity.
  - intros [|c] [|c'] i H H'; try discriminate H; try discriminate H'; reflexivity.
Qed.
Lemma trapped_ready vec cs : exit_ready 0 1 (kern_of (trapped vec cs)).
Proof. split; [done|]. split; [done|]. split; [done|]. eexists. split; [reflexivity|]. by eexists. Qed.

#[local] Existing Instance board_devices.
Notation run_trap x := (trap (Devices0 := board_devices (mret tt)) 0 0x80110000 0x80119000 (mret tt) 0xdeadbeef demo_tf x) (only parsing).


Lemma timer_preempts_witness :
  ∃ s', run_trap (trapped 32 0x1b) = Sleeps "sched" s' ∧ ticks (t_k s') = 42 ∧ (t_dev s').2 = 1%nat.
Proof.
  destruct (timer_preempts (Devices0 := board_devices (mret tt)) 0 0x80110000 0x80119000 (mret tt) 0xdeadbeef demo_tf (trapped 32 0x1b) 1
    (demo_proc RUNNING 2 0 (Some 0%nat)) (board.1, 1%nat)) as (s'&E&Ed&Et&_).
  - vm_compute. reflexivity.
  - split; reflexivity.
  - reflexivity.
  - left. reflexivity.
  - reflexivity.
  - reflexivity.
  - exists s'. split; [exact E|]. split; [exact Et|rewrite Ed; reflexivity].
Defined.
