(* ===== verification/Ulib.v ===== *)
(** * The C library of the user programs (xv6/ulib.c).

    The string and memory routines over the bytes of the process; loops that end at a zero byte have fuel.  They
    differ from the kernel's: [strcmp] has no bound, [strcpy] trusts its buffer and [memmove] always copies upwards,
    so it moves overlapping areas only towards lower addresses. *)
From S2P Require Import Prelude CMem Str.
Local Open Scope Z_scope.

Fixpoint strcpy_loop (s t : Z) (fuel : nat) (m : mem) : option mem :=
  match fuel with
  | O => None
  | S k =>
      let c := ld8 m t in
      let m := st8 s c m in
      if c =? 0 then Some m else strcpy_loop (s + 1) (t + 1) k m
  end.
Definition strcpy (s t : Z) (fuel : nat) (m : mem) : option mem := strcpy_loop s t fuel m.

Fixpoint strcmp (m : mem) (p q : Z) (fuel : nat) : option Z :=
  match fuel with
  | O => None
  | S k =>
      if negb (ld8 m p =? 0) && (ld8 m p =? ld8 m q) then strcmp m (p + 1) (q + 1) k
      else Some (ld8 m p - ld8 m q)
  end.

Fixpoint ustrlen_loop (m : mem) (s n : Z) (fuel : nat) : option Z :=
  match fuel with
  | O => None
  | S k => if ld8 m (s + n) =? 0 then Some n else ustrlen_loop m s (n + 1) k
  end.
Definition ustrlen (m : mem) (s : Z) (fuel : nat) : option Z := ustrlen_loop m s 0 fuel.

Definition umemset (dst c n : Z) (m : mem) : mem := stosb dst c (Z.to_nat n) m.

(** The address, or 0. *)
Fixpoint ustrchr (m : mem) (s c : Z) (fuel : nat) : option Z :=
  match fuel with
  | O => None
  | S k => if ld8 m s =? 0 then Some 0 else if ld8 m s =? c then Some s else ustrchr m (s + 1) c k
  end.

Fixpoint umemmove_loop (dst src : Z) (n : nat) (m : mem) : mem :=
  match n with
  | O => m
  | S k => umemmove_loop (dst + 1) (src + 1) k (st8 dst (ld8 m src) m)
  end.
Definition umemmove (dst src n : Z) (m : mem) : mem := umemmove_loop dst src (Z.to_nat n) m.

(** ** Specifications *)

(** The C string [l] is at [p]. *)
Definition str_at (m : mem) (p : Z) (l : list Z) : Prop :=
  Forall (λ c, 0 < c < 256) l ∧ (∀ i c, l !! i = Some c → ld8 m (p + Z.of_nat i) = c) ∧ ld8 m (p + Z.of_nat (length l)) = 0.

Lemma str_at_cons m p c l : str_at m p (c :: l) ↔ 0 < c < 256 ∧ ld8 m p = c ∧ str_at m (p + 1) l.
Proof.
  rw /str_at. rewrite Forall_cons. cbn [length]. replace (p + Z.of_nat (S (length l))) with (p + 1 + Z.of_nat (length l)) by lia. split.
  - intros ([Hc Hl]&Hb&Hz). split; [done|]. split; [specialize (Hb 0%nat c eq_refl); by rewrite Z.add_0_r in Hb|]. split; [done|]. split; [|done].
    intros i d Hi. rewrite -(Hb (S i) d Hi). f_equal. lia.
  - intros (Hc&Hp&Hl&Hb&Hz). split; [done|]. split; [|done]. intros [|i] d Hi; [simplify_eq/=; by rewrite Z.add_0_r|].
    rewrite -(Hb i d Hi). f_equal. lia.
Qed.
Lemma str_at_nil m p : str_at m p [] ↔ ld8 m p = 0.
Proof. rw /str_at /=. rewrite Z.add_0_r. split; [by intros (_&_&?)|]. intros H. split_and!; [constructor|done|done]. Qed.

Lemma strcmp_spec fuel : ∀ m p q l1 l2, str_at m p l1 → str_at m q l2 → (length l1 < fuel)%nat → strcmp m p q fuel = Some (lexdiff l1 l2).
Proof.
  induction fuel as [|fuel IH]; intros m p q l1 l2 H1 H2 Hf; [lia|]. cbn [strcmp].
  destruct l1 as [|c l1], l2 as [|d l2]; rewrite ?str_at_cons ?str_at_nil in H1 H2.
  - by rewrite H1 H2.
  - destruct H2 as (Hd&->&_). rewrite H1 /=. f_equal; lia.
  - destruct H1 as (Hc&->&_). rewrite H2. destruct (Z.eqb_spec c 0); [lia|]. simpl. f_equal; lia.
  - destruct H1 as (Hc&->&H1), H2 as (Hd&->&H2). destruct (Z.eqb_spec c 0); [lia|]. cbn [negb andb lexdiff]. destruct (c =? d); [|done]. apply IH; [done|done|simpl in Hf; lia].
Qed.

Lemma ustrlen_spec m p l fuel : str_at m p l → (length l < fuel)%nat → ustrlen m p fuel = Some (Z.of_nat (length l)).
Proof.
  intros (Hl&Hb&Hz) Hf.
  enough (∀ fuel n, n ≤ Z.of_nat (length l) → 0 ≤ n → (length l < Z.to_nat n + fuel)%nat → ustrlen_loop m p n fuel = Some (Z.of_nat (length l))) as H by (apply H; lia).
  clear fuel Hf. induction fuel as [|fuel IH]; intros n Hn H0 Hf; [lia|]. cbn [ustrlen_loop]. destruct (decide (n = Z.of_nat (length l))) as [->|Hne]; [by rewrite Hz|].
  destruct (lookup_lt_is_Some_2 l (Z.to_nat n)) as [c Hc]; [lia|]. pose proof (Hb _ _ Hc) as Hv. rewrite Z2Nat.id // in Hv. rewrite Hv.
  rewrite Forall_lookup in Hl. specialize (Hl _ _ Hc). destruct (Z.eqb_spec c 0); [lia|]. apply IH; lia.
Qed.

(** The copy is the string, and only its bytes change; the source must not overlap the copy. *)
Lemma strcpy_spec fuel : ∀ m s t l, str_at m t l → (length l < fuel)%nat → s + Z.of_nat (length l) < t ∨ t + Z.of_nat (length l) < s →
  ∃ m', strcpy s t fuel m = Some m' ∧ str_at m' s l ∧ ∀ b, b < s ∨ s + Z.of_nat (length l) < b → ld8 m' b = ld8 m b.
Proof.
  rw /strcpy. induction fuel as [|fuel IH]; intros m s t l Hl Hf Hap; [lia|]. cbn [strcpy_loop]. destruct l as [|c l].
  - rewrite str_at_nil in Hl. rewrite Hl. exists (st8 s 0 m). split_and!; [done|by rewrite str_at_nil ld8_st8_eq|]. intros b Hb. simpl in Hb. apply ld8_st8_ne. lia.
  - rewrite str_at_cons in Hl. destruct Hl as (Hc&Hv&Hl). rewrite Hv. destruct (Z.eqb_spec c 0); [lia|]. cbn [length] in *.
    assert (str_at (st8 s c m) (t + 1) l) as Hl'.
    { destruct Hl as (H1&H2&H3). split_and!; [done| |rewrite ld8_st8_ne; [lia|done]]. intros i d Hi. rewrite ld8_st8_ne; [|by apply H2]. apply lookup_lt_Some in Hi. lia. }
    destruct (IH (st8 s c m) (s + 1) (t + 1) l Hl' ltac:(lia) ltac:(lia)) as (m'&E&Hs&Hother). exists m'. split_and!; [done| |].
    + rewrite str_at_cons. split_and!; [lia|lia| |done]. rewrite Hother; [lia|]. rewrite ld8_st8_eq u8_small //. lia.
    + intros b Hb. rewrite Hother; [lia|]. apply ld8_st8_ne. lia.
Qed.

(** Towards lower addresses, or between areas that do not overlap, the copy is exact. *)
Lemma umemmove_spec dst src n m b : 0 ≤ n → dst ≤ src ∨ src + n ≤ dst →
  ld8 (umemmove dst src n m) b = if decide (dst ≤ b < dst + n) then ld8 m (src + (b - dst)) else ld8 m b.
Proof.
  intros Hn Hd. rw /umemmove. assert (∀ k d s m', umemmove_loop d s k m' = copy_fwd d s k m') as -> by (induction k; intros; simpl; auto).
  rewrite ld8_copy_fwd; [lia|]. by rewrite Z2Nat.id.
Qed.

(** Towards higher addresses it repeats the first bytes. *)
Lemma umemmove_overlap : bytes (umemmove 101 100 3 (st8 100 1 (st8 101 2 (st8 102 3 ∅)))) 100 4 = [1; 1; 1; 1].
Proof. vm_compute. reflexivity. Qed.
