(* ===== verification/User.v ===== *)
(** * User programs (xv6/printf.c, ulib.c, cat.c, wc.c, echo.c, ls.c, rm.c, mkdir.c, ln.c, kill.c).

    The programs run on a process with files, descriptors and the bytes it wrote; a descriptor open for reading is
    the chunks in which its bytes arrive (one chunk for a file, one per line for the console), so that theorems
    hold for every way reads can be cut short.  [printf] writes exactly the bytes of its format; [cat] copies its
    input, [wc] counts it and [echo] prints its arguments, whatever the chunks; [ls] pads names and lists the
    entries of a directory in order. *)
From S2P Require Import Prelude Numbers Layout.
Local Open Scope Z_scope.

(** ** The process *)

(** A descriptor open for reading or for writing. *)
Inductive ufd := Src (chunks : list (list Z)) | Sink.
(** System calls of which only the answer matters here. *)
Inductive ucall := Unlink (path : list Z) | Mkdir (path : list Z) | Link (old new : list Z) | Kill (pid : Z).
Record ustat := UStat { st_type : Z; st_ino : Z; st_size : Z }.

Record uworld := UWorld {
  ufiles : gmap (list Z) (ustat * list Z);
  ufds : gmap Z (list Z * ufd);
  uwrites : list (Z * list Z);
  ucalls : list ucall
}.

Definition NOFILES : Z := 16.
Definition U := K uworld.

Definition set_fds (x : gmap Z (list Z * ufd)) (w : uworld) : uworld := UWorld (ufiles w) x (uwrites w) (ucalls w).

(** The bytes the next read of at most [n] returns, and what is left. *)
Definition read_chunks (n : nat) (l : list (list Z)) : list Z * list (list Z) :=
  match l with
  | [] => ([], [])
  | c :: l' => if (length c <=? n)%nat then (c, l') else (take n c, drop n c :: l')
  end.

(** [None] stands for -1. *)
Definition read (fd n : Z) : U (option (list Z)) :=
  m ← gets ufds;
  match m !! fd with
  | Some (path, Src l) =>
      let '(b, l') := read_chunks (Z.to_nat n) l in
      _ ← modify (set_fds (<[fd := (path, Src l')]> m));
      mret (Some b)
  | _ => mret None
  end.

Definition write (fd : Z) (b : list Z) : U Z :=
  m ← gets ufds;
  match m !! fd with
  | Some (_, Sink) =>
      _ ← modify (λ w, UWorld (ufiles w) (ufds w) (uwrites w ++ [(fd, b)]) (ucalls w));
      mret (Z.of_nat (length b))
  | _ => mret (-1)
  end.

(** A file arrives in one piece. *)
Definition file_chunks (b : list Z) : list (list Z) := match b with [] => [] | _ => [b] end.
(** [open(path, O_RDONLY)]: the least free descriptor. *)
Definition open (path : list Z) : U Z :=
  w ← get;
  match ufiles w !! path, list_find (λ fd, ufds w !! fd = None) (range 0 NOFILES) with
  | Some (_, b), Some (_, fd) => _ ← put (set_fds (<[fd := (path, Src (file_chunks b))]> (ufds w)) w); mret fd
  | _, _ => mret (-1)
  end.

Definition close (fd : Z) : U unit := modify (λ w, set_fds (delete fd (ufds w)) w).

Section User.
(** What the kernel answers to a call after the ones before it. *)
Context (answer : list ucall → ucall → Z).

Definition call (c : ucall) : U Z :=
  w ← get;
  _ ← put (UWorld (ufiles w) (ufds w) (uwrites w) (ucalls w ++ [c]));
  mret (answer (ucalls w) c).

(** [stat] of ulib.c and [fstat]. *)
Definition fstat (fd : Z) : U (option ustat) :=
  w ← get;
  match ufds w !! fd with
  | Some (path, Src _) => mret (fst <$> ufiles w !! path)
  | _ => mret None
  end.
Definition stat (path : list Z) : U (option ustat) :=
  fd ← open path;
  if fd <? 0 then mret None
  else
    r ← fstat fd;
    _ ← close fd;
    mret r.

(** ** Formatted output *)

Definition putc (fd c : Z) : U unit := _ ← write fd [u8 c]; mret tt.
Definition putcs (fd : Z) (l : list Z) : U unit := for_each l (putc fd).

(** [digits[d]] *)
Definition udigit (d : Z) : Z := if d <? 10 then 48 + d else 55 + d.

Definition uprintint (fd xx base : Z) (sgn : bool) : U unit :=
  let buf := printint_buf udigit xx base sgn in
  if (16 <? length buf)%nat then undef "printint: buf" else putcs fd (rev buf).

(** The words after the format: numbers, and pointers to strings. *)
Inductive uarg := UNum (x : Z) | UStr (s : option (list Z)).
Definition NULL_TEXT : list Z := [40; 110; 117; 108; 108; 41].

(** [pct]: whether [state] is a percent sign. *)
Fixpoint printf_loop (fd : Z) (fmt : list Z) (pct : bool) (ap : list uarg) : U unit :=
  match fmt with
  | [] => mret tt
  | c :: fmt' =>
      if c =? 0 then mret tt
      else if negb pct then
        if c =? 37 then printf_loop fd fmt' true ap
        else _ ← putc fd c; printf_loop fd fmt' false ap
      else if c =? 100 then
        match ap with
        | UNum x :: ap => _ ← uprintint fd (s32 x) 10 true; printf_loop fd fmt' false ap
        | _ => undef "printf: argument"
        end
      else if (c =? 120) || (c =? 112) then
        match ap with
        | UNum x :: ap => _ ← uprintint fd (s32 x) 16 false; printf_loop fd fmt' false ap
        | _ => undef "printf: argument"
        end
      else if c =? 115 then
        match ap with
        | UStr s :: ap => _ ← putcs fd (cstring (default NULL_TEXT s)); printf_loop fd fmt' false ap
        | _ => undef "printf: argument"
        end
      else if c =? 99 then
        match ap with
        | UNum x :: ap => _ ← putc fd x; printf_loop fd fmt' false ap
        | _ => undef "printf: argument"
        end
      else if c =? 37 then _ ← putc fd c; printf_loop fd fmt' false ap
      else _ ← putc fd 37; _ ← putc fd c; printf_loop fd fmt' false ap
  end.
Definition printf (fd : Z) (fmt : list Z) (ap : list uarg) : U unit := printf_loop fd fmt false ap.

(** Strings of the programs. *)
Definition txt (s : string) : list Z := (λ a, Z.of_N (Ascii.N_of_ascii a)) <$> String.list_ascii_of_string s.
Definition NL : Z := 10.

(** ** cat, wc, echo *)

(** The bytes a descriptor still has. *)
Definition pending (fd : Z) (w : uworld) : nat :=
  match ufds w !! fd with Some (_, Src l) => (length (concat l) + length l)%nat | _ => 0%nat end.

(** The result: whether the program goes on. *)
Fixpoint cat_loop (fuel : nat) (fd : Z) : U bool :=
  match fuel with
  | O => undef "cat: loop"
  | S k =>
      r ← read fd 512;
      match r with
      | None => _ ← printf 1 (txt "cat: read error" ++ [NL]) []; mret false
      | Some [] => mret true
      | Some b =>
          n ← write 1 b;
          if n =? Z.of_nat (length b) then cat_loop k fd
          else _ ← printf 1 (txt "cat: write error" ++ [NL]) []; mret false
      end
  end.
Definition cat (fd : Z) : U bool := n ← gets (pending fd); cat_loop (S n) fd.

(** The loop over the arguments that [cat], [wc] and [grep] share: the file is opened, worked on and closed. *)
Fixpoint over_files (cannot : list Z) (work : Z → list Z → U bool) (args : list (list Z)) : U unit :=
  match args with
  | [] => mret tt
  | a :: args' =>
      fd ← open a;
      if fd <? 0 then printf 1 (cannot ++ txt " %s" ++ [NL]) [UStr (Some a)]
      else
        b ← work fd a;
        if negb (b : bool) then mret tt
        else _ ← close fd; over_files cannot work args'
  end.

Definition cat_main (argv : list (list Z)) : U unit :=
  match argv with
  | [] | [_] => _ ← cat 0; mret tt
  | _ :: args => over_files (txt "cat: cannot open") (λ fd _, cat fd) args
  end.

Definition is_space (c : Z) : bool := bool_decide (c ∈ [32; 13; 9; 10; 11]).

(** Lines, words and characters, and whether the last byte was in a word. *)
Record wcount := WC { wc_l : Z; wc_w : Z; wc_c : Z; wc_in : bool }.
Definition wc_byte (x : wcount) (b : Z) : wcount :=
  let c := s32 (wc_c x + 1) in
  let l := if b =? NL then s32 (wc_l x + 1) else wc_l x in
  if is_space b then WC l (wc_w x) c false
  else if negb (wc_in x) then WC l (s32 (wc_w x + 1)) c true
  else WC l (wc_w x) c true.

Fixpoint wc_loop (fuel : nat) (fd : Z) (x : wcount) : U (option wcount) :=
  match fuel with
  | O => undef "wc: loop"
  | S k =>
      r ← read fd 512;
      match r with
      | None => mret None
      | Some [] => mret (Some x)
      | Some b => wc_loop k fd (foldl wc_byte x b)
      end
  end.
Definition wc (fd : Z) (name : list Z) : U bool :=
  n ← gets (pending fd);
  r ← wc_loop (S n) fd (WC 0 0 0 false);
  match r with
  | None => _ ← printf 1 (txt "wc: read error" ++ [NL]) []; mret false
  | Some x =>
      _ ← printf 1 (txt "%d %d %d %s" ++ [NL]) [UNum (wc_l x); UNum (wc_w x); UNum (wc_c x); UStr (Some name)];
      mret true
  end.

Definition wc_main (argv : list (list Z)) : U unit :=
  match argv with
  | [] | [_] => _ ← wc 0 []; mret tt
  | _ :: args => over_files (txt "wc: cannot open") wc args
  end.

Fixpoint echo_loop (args : list (list Z)) : U unit :=
  match args with
  | [] => mret tt
  | a :: args' => _ ← printf 1 (txt "%s%s") [UStr (Some a); UStr (Some (if args' is [] then [NL] else [32]))]; echo_loop args'
  end.
Definition echo_main (argv : list (list Z)) : U unit := echo_loop (drop 1 argv).

(** ** ls *)

(** The pointer after the last slash. *)
Fixpoint last_elem (path : list Z) : list Z :=
  match path with
  | [] => []
  | c :: path' => if bool_decide (47 ∈ path') then last_elem path' else if c =? 47 then path' else path
  end.

Definition fmtname (path : list Z) : list Z :=
  let p := last_elem path in
  if (Z.to_nat DIRSIZ <=? length p)%nat then p
  else p ++ replicate (Z.to_nat DIRSIZ - length p) 32.

Definition print_entry (name : list Z) (st : ustat) : U unit :=
  printf 1 (txt "%s %d %d %d" ++ [NL]) [UStr (Some name); UNum (st_type st); UNum (st_ino st); UNum (st_size st)].

Fixpoint ls_entries (fuel : nat) (fd : Z) (path : list Z) : U unit :=
  match fuel with
  | O => undef "ls: loop"
  | S k =>
      r ← read fd DIRENT;
      match r with
      | Some b =>
          if negb (Z.of_nat (length b) =? DIRENT) then mret tt
          else
            let de := get_dirent b in
            if de_inum de =? 0 then ls_entries k fd path
            else
              let buf := path ++ [47] ++ cstring (de_name de) in
              st ← stat buf;
              match st with
              | None => _ ← printf 1 (txt "ls: cannot stat %s" ++ [NL]) [UStr (Some buf)]; ls_entries k fd path
              | Some st => _ ← print_entry (fmtname buf) st; ls_entries k fd path
              end
      | None => mret tt
      end
  end.

Definition ls (path : list Z) : U unit :=
  fd ← open path;
  if fd <? 0 then printf 2 (txt "ls: cannot open %s" ++ [NL]) [UStr (Some path)]
  else
    st ← fstat fd;
    match st with
    | None => _ ← printf 2 (txt "ls: cannot stat %s" ++ [NL]) [UStr (Some path)]; close fd
    | Some st =>
        _ ← (if st_type st =? 2 then print_entry (fmtname path) st
             else if st_type st =? 1 then
               if 512 <? Z.of_nat (length path) + 1 + DIRSIZ + 1 then printf 1 (txt "ls: path too long" ++ [NL]) []
               else n ← gets (pending fd); ls_entries (S n) fd path
             else mret tt);
        close fd
    end.
Definition ls_main (argv : list (list Z)) : U unit :=
  match argv with
  | [] | [_] => ls [46]
  | _ :: args => for_each args ls
  end.

(** ** rm, mkdir, ln, kill *)

(** Calls on the arguments up to the first that fails. *)
Fixpoint each_until (c : list Z → ucall) (failed : list Z → U unit) (args : list (list Z)) : U unit :=
  match args with
  | [] => mret tt
  | a :: args' => r ← call (c a); if r <? 0 then failed a else each_until c failed args'
  end.
Definition rm_main (argv : list (list Z)) : U unit :=
  match argv with
  | [] | [_] => printf 2 (txt "Usage: rm files..." ++ [NL]) []
  | _ :: args => each_until Unlink (λ a, printf 2 (txt "rm: %s failed to delete" ++ [NL]) [UStr (Some a)]) args
  end.
Definition mkdir_main (argv : list (list Z)) : U unit :=
  match argv with
  | [] | [_] => printf 2 (txt "Usage: mkdir files..." ++ [NL]) []
  | _ :: args => each_until Mkdir (λ a, printf 2 (txt "mkdir: %s failed to create" ++ [NL]) [UStr (Some a)]) args
  end.
Definition ln_main (argv : list (list Z)) : U unit :=
  match argv with
  | [_; a; b] =>
      r ← call (Link a b);
      if r <? 0 then printf 2 (txt "link %s %s: failed" ++ [NL]) [UStr (Some a); UStr (Some b)] else mret tt
  | _ => printf 2 (txt "Usage: ln old new" ++ [NL]) []
  end.
Definition kill_main (argv : list (list Z)) : U unit :=
  match argv with
  | [] | [_] => printf 2 (txt "usage: kill pid..." ++ [NL]) []
  | _ :: args => for_each args (λ a, _ ← call (Kill (atoi a)); mret tt)
  end.
End User.

(** ** What was written *)

Definition output (fd : Z) (w : uworld) : list Z := concat (snd <$> filter (λ p, p.1 = fd) (uwrites w)).

(** The world with more writes. *)
Definition wrote (l : list (Z * list Z)) (w : uworld) : uworld := UWorld (ufiles w) (ufds w) (uwrites w ++ l) (ucalls w).
(** The writes of [putc]: one byte each. *)
Definition bytewise (fd : Z) (l : list Z) : list (Z * list Z) := (λ c, (fd, [c])) <$> l.
Definition is_sink (fd : Z) (w : uworld) : Prop := ∃ p, ufds w !! fd = Some (p, Sink).

Lemma uwrote_nil w : wrote [] w = w.
Proof. destruct w. rw /wrote. by rewrite app_nil_r. Qed.
Lemma uwrote_app l1 l2 w : wrote l2 (wrote l1 w) = wrote (l1 ++ l2) w.
Proof. rw /wrote. cbn [ufiles ufds uwrites ucalls]. by rewrite app_assoc. Qed.

Lemma output_wrote fd l w : output fd (wrote l w) = output fd w ++ concat (snd <$> filter (λ p, p.1 = fd) l).
Proof. rw /output /wrote. cbn [uwrites]. by rewrite filter_app fmap_app concat_app. Qed.
Lemma output_bytewise fd l w : output fd (wrote (bytewise fd l) w) = output fd w ++ l.
Proof.
  rewrite output_wrote. f_equal. induction l as [|c l IH]; [done|]. cbn [bytewise fmap list_fmap]. rewrite filter_cons_True // fmap_cons. cbn [concat snd app]. by f_equal.
Qed.
Lemma output_other fd fd' l w : fd ≠ fd' → output fd (wrote (bytewise fd' l) w) = output fd w.
Proof.
  intros Hne. rewrite output_wrote. rewrite -[in RHS](app_nil_r (output fd w)). f_equal. induction l as [|c l IH]; [done|]. cbn [bytewise fmap list_fmap]. rewrite filter_cons_False; [simpl; congruence|exact IH].
Qed.

Lemma write_wp fd b w (Q : Z → uworld → Prop) : is_sink fd w → Q (Z.of_nat (length b)) (wrote [(fd, b)] w) → wp (write fd b) w Q.
Proof. intros [p Hp] HQ. rw /write. apply wp_bind, wp_gets. rewrite Hp. by apply wp_bind, wp_modify, wp_ret. Qed.

Lemma putc_wp fd c w (Q : unit → uworld → Prop) : is_sink fd w → Q tt (wrote (bytewise fd [u8 c]) w) → wp (putc fd c) w Q.
Proof. intros Hs HQ. rw /putc. apply wp_bind, write_wp; [done|]. by apply wp_ret. Qed.

Lemma putcs_wp fd l : ∀ w (Q : unit → uworld → Prop), is_sink fd w → Forall (λ c, 0 ≤ c < 256) l → Q tt (wrote (bytewise fd l) w) → wp (putcs fd l) w Q.
Proof.
  induction l as [|c l IH]; intros w Q Hs Hl HQ; [rw uwrote_nil in HQ; by apply wp_ret|]. apply Forall_cons in Hl as [Hc Hl].
  apply wp_bind, putc_wp; [done|]. rewrite u8_small //. apply IH; [done|done|]. by rewrite uwrote_app.
Qed.

(** ** printf *)

(** A format, read: characters and directives. *)
Inductive piece := Lit (c : Z) | Dec | Hex | Str | Chr.
Definition directive (c : Z) : list piece :=
  if c =? 100 then [Dec] else if (c =? 120) || (c =? 112) then [Hex] else if c =? 115 then [Str] else if c =? 99 then [Chr]
  else if c =? 37 then [Lit 37] else [Lit 37; Lit c].
Fixpoint pieces (fmt : list Z) : list piece :=
  match fmt with
  | [] => []
  | c :: fmt1 => if c =? 37 then match fmt1 with [] => [] | d :: fmt2 => directive d ++ pieces fmt2 end else Lit c :: pieces fmt1
  end.
(** The text of a number. *)
Definition dec (x : Z) : list Z := rev (printint_buf udigit (s32 x) 10 true).
Definition hex (x : Z) : list Z := rev (printint_buf udigit (s32 x) 16 false).
Fixpoint render (l : list piece) (ap : list uarg) : option (list Z) :=
  match l, ap with
  | [], _ => Some []
  | Lit c :: l, ap => (c ::.) <$> render l ap
  | Dec :: l, UNum x :: ap => (dec x ++.) <$> render l ap
  | Hex :: l, UNum x :: ap => (hex x ++.) <$> render l ap
  | Str :: l, UStr s :: ap => (default NULL_TEXT s ++.) <$> render l ap
  | Chr :: l, UNum x :: ap => (u8 x ::.) <$> render l ap
  | _, _ => None
  end.

Definition text (l : list Z) : Prop := Forall (λ c, 0 < c < 256) l.
Definition arg_ok (a : uarg) : Prop := match a with UStr (Some s) => text s | _ => True end.

Lemma cstring_text l : text l → cstring l = l.
Proof. induction 1 as [|c l Hc Hl IH]; [done|]. cbn [cstring]. destruct (Z.eqb_spec c 0); [lia|]. by rewrite IH. Qed.
Lemma text_bytes l : text l → Forall (λ c, 0 ≤ c < 256) l.
Proof. intros H. eapply Forall_impl; [exact H|]. simpl. lia. Qed.
Lemma text_of l : forallb (λ c, (0 <? c) && (c <? 256)) l = true → text l.
Proof. intros H. rewrite forallb_forall in H. apply Forall_forall. intros c Hc. apply list_elem_of_In, H in Hc. lia. Qed.
Lemma null_text : text NULL_TEXT.
Proof. by repeat constructor. Qed.
Lemma udigit_ok : digit_ok udigit.
Proof. intros d Hd. rw /dval /udigit. destruct (Z.ltb_spec d 10); [destruct (Z.ltb_spec (48 + d) 58)|destruct (Z.ltb_spec (55 + d) 58), (Z.ltb_spec (55 + d) 97)]; lia. Qed.

Lemma uprintint_wp fd x base sgn w (Q : unit → uworld → Prop) :
  is_sink fd w → base = 10 ∨ base = 16 → Q tt (wrote (bytewise fd (rev (printint_buf udigit (s32 x) base sgn))) w) → wp (uprintint fd (s32 x) base sgn) w Q.
Proof.
  intros Hs Hb HQ. rw /uprintint. cbv zeta. pose proof (s32_range x) as Hx. destruct (printint_buf_spec udigit udigit_ok (s32 x) base sgn Hx Hb) as (Hl&Hc&_).
  destruct (Nat.ltb_spec 16 (length (printint_buf udigit (s32 x) base sgn))); [lia|]. apply putcs_wp; [done| |done].
  apply Forall_rev. eapply Forall_impl; [exact Hc|]. simpl. lia.
Qed.

(** What one directive writes: the state machine of [printf] against the pieces of the format. *)
Lemma printf_wp fd fmt : ∀ ap l w (Q : unit → uworld → Prop),
  is_sink fd w → text fmt → Forall arg_ok ap → render (pieces fmt) ap = Some l → Q tt (wrote (bytewise fd l) w) → wp (printf fd fmt ap) w Q.
Proof.
  rw /printf. remember (length fmt) as n eqn:En. revert fmt En. induction (lt_wf n) as [n _ IH]. intros fmt -> ap l w Q Hs Hf Ha Hr HQ.
  destruct fmt as [|c fmt]; [simplify_eq/=; rw uwrote_nil in HQ; by apply wp_ret|]. apply Forall_cons in Hf as [Hc Hf]. cbn [printf_loop].
  destruct (Z.eqb_spec c 0); [lia|]. cbn [negb].
  (* the rest of the format after a piece *)
  assert (∀ fmt' ap' l1 l2, (length fmt' < length (c :: fmt))%nat → text fmt' → Forall arg_ok ap' → render (pieces fmt') ap' = Some l2 → l = l1 ++ l2 →
    wp (printf_loop fd fmt' false ap') (wrote (bytewise fd l1) w) Q) as Hrest.
  { intros fmt' ap' l1 l2 Hlen Ht Ha' Hr' ->. apply (IH (length fmt') Hlen fmt' eq_refl ap' l2); [done..|]. rewrite uwrote_app /bytewise -fmap_app. exact HQ. }
  cbn [pieces] in Hr. destruct (Z.eqb_spec c 37) as [->|Hne].
  2: { cbn [render] in Hr. apply fmap_Some in Hr as (l2&Hr&->). apply wp_bind, putc_wp; [done|]. rewrite u8_small; [lia|]. by apply (Hrest fmt ap [c] l2); [simpl; lia|..]. }
  destruct fmt as [|d fmt]; [simplify_eq/=; rw uwrote_nil in HQ; by apply wp_ret|]. apply Forall_cons in Hf as [Hd Hf]. cbn [printf_loop].
  destruct (Z.eqb_spec d 0); [lia|]. cbn [negb]. rw /directive in Hr.
  assert (length fmt < length (37%Z :: d :: fmt))%nat as Hlen by (simpl; lia).
  destruct (d =? 100); [|destruct ((d =? 120) || (d =? 112)); [|destruct (d =? 115); [|destruct (d =? 99); [|destruct (Z.eqb_spec d 37) as [->|]]]]];
    cbn [app render] in Hr.
  - destruct ap as [|[x|] ap]; try done. apply Forall_cons in Ha as [_ Ha]. apply fmap_Some in Hr as (l2&Hr&->).
    apply wp_bind, uprintint_wp; [done|by left|]. by apply (Hrest fmt ap (dec x) l2).
  - destruct ap as [|[x|] ap]; try done. apply Forall_cons in Ha as [_ Ha]. apply fmap_Some in Hr as (l2&Hr&->).
    apply wp_bind, uprintint_wp; [done|by right|]. by apply (Hrest fmt ap (hex x) l2).
  - destruct ap as [|[|s] ap]; try done. apply Forall_cons in Ha as [Hs' Ha]. apply fmap_Some in Hr as (l2&Hr&->).
    assert (text (default NULL_TEXT s)) as Ht by (destruct s; [done|apply null_text]).
    rewrite cstring_text //. apply wp_bind, putcs_wp; [done|by apply text_bytes|]. by apply (Hrest fmt ap (default NULL_TEXT s) l2).
  - destruct ap as [|[x|] ap]; try done. apply Forall_cons in Ha as [_ Ha]. apply fmap_Some in Hr as (l2&Hr&->).
    apply wp_bind, putc_wp; [done|]. by apply (Hrest fmt ap [u8 x] l2).
  - apply fmap_Some in Hr as (l2&Hr&->). apply wp_bind, putc_wp; [done|]. by apply (Hrest fmt ap [37] l2).
  - apply fmap_Some in Hr as (l2&Hr&->). apply fmap_Some in Hr as (l3&Hr&->). apply wp_bind, putc_wp; [done|].
    apply wp_bind, putc_wp; [done|]. rewrite uwrote_app (u8_small d); [lia|]. by apply (Hrest fmt ap [37; d] l3).
Qed.

(** ** Reading to the end *)

(** Only files, calls and descriptors other than [fd] are the same; what was written to descriptor 1 grew by [out]. *)
Record emits (w w' : uworld) (out : list Z) : Prop := {
  em_files : ufiles w' = ufiles w;
  em_calls : ucalls w' = ucalls w;
  em_out : ∀ fd, output fd w' = if decide (fd = 1) then output 1 w ++ out else output fd w
}.

Lemma emits_refl w : emits w w [].
Proof. split; [done|done|]. intros fd. rewrite app_nil_r. by case_decide; subst. Qed.
Lemma emits_trans w1 w2 w3 o1 o2 : emits w1 w2 o1 → emits w2 w3 o2 → emits w1 w3 (o1 ++ o2).
Proof.
  intros [E1 E2 E3] [F1 F2 F3]. split; [congruence..|]. intros fd. rewrite F3. specialize (E3 1) as E1'. simpl in E1'.
  rewrite E1' E3. case_decide; [|done]. by rewrite app_assoc.
Qed.
Lemma emits_fds m w : emits w (set_fds m w) [].
Proof. split; [done|done|]. intros fd. rewrite app_nil_r. rw /output /=. by case_decide; subst. Qed.
Lemma emits_write b w : emits w (wrote [(1, b)] w) b.
Proof.
  split; [done|done|]. intros fd. rewrite output_wrote. case_decide as H; subst.
  - rewrite filter_cons_True //. cbn [fmap list_fmap concat snd filter]. by rewrite app_nil_r.
  - rewrite filter_cons_False; [simpl; congruence|]. by rewrite app_nil_r.
Qed.
Lemma emits_print l w : emits w (wrote (bytewise 1 l) w) l.
Proof. split; [done|done|]. intros fd. case_decide; subst; [apply output_bytewise|by apply output_other]. Qed.

Lemma read_chunks_spec n l b l' :
  (0 < n)%nat → Forall (λ c, c ≠ []) l → read_chunks n l = (b, l') →
  concat l = b ++ concat l' ∧ Forall (λ c, c ≠ []) l' ∧ (b = [] → l = [] ∧ l' = []) ∧ (length b ≤ n)%nat ∧
  (b ≠ [] → length (concat l') + length l' < length (concat l) + length l)%nat.
Proof.
  intros Hn Hl E. destruct Hl as [|c l Hc Hl]; simpl in E; [simplify_eq; simpl; split_and!; try done; lia|].
  assert (0 < length c)%nat as Hlc by (destruct c; [done|simpl; lia]).
  destruct (Nat.leb_spec (length c) n); simplify_eq; cbn [concat].
  - split_and!; [done|done|done|lia|]. intros _. rewrite length_app. simpl. lia.
  - split_and!.
    + by rewrite app_assoc take_drop.
    + constructor; [|done]. intros E. apply (f_equal length) in E. rewrite length_drop in E. simpl in E. lia.
    + intros E. apply (f_equal length) in E. rewrite length_take in E. simpl in E. lia.
    + rewrite length_take. lia.
    + intros _. rewrite !length_app length_drop. simpl. lia.
Qed.

Lemma read_wp fd n w path l b l' (Q : option (list Z) → uworld → Prop) :
  ufds w !! fd = Some (path, Src l) → read_chunks (Z.to_nat n) l = (b, l') → Q (Some b) (set_fds (<[fd := (path, Src l')]> (ufds w)) w) → wp (read fd n) w Q.
Proof. intros Hfd E HQ. rw /read. apply wp_bind, wp_gets. rewrite Hfd E. by apply wp_bind, wp_modify, wp_ret. Qed.

Lemma sink_insert w fd fd' x : is_sink fd w → fd' ≠ fd → is_sink fd (set_fds (<[fd' := x]> (ufds w)) w).
Proof. intros [p Hp] Hne. exists p. cbn. by rewrite lookup_insert_ne. Qed.

(** The descriptor at its end. *)
Definition drained (fd : Z) (path : list Z) (w w' : uworld) : Prop := ufds w' = <[fd := (path, Src [])]> (ufds w).

Lemma cat_loop_wp fd path fuel : ∀ l w (Q : bool → uworld → Prop),
  ufds w !! fd = Some (path, Src l) → is_sink 1 w → Forall (λ c, c ≠ []) l → (length (concat l) + length l < fuel)%nat →
  (∀ w', emits w w' (concat l) → drained fd path w w' → Q true w') → wp (cat_loop fuel fd) w Q.
Proof.
  induction fuel as [|fuel IH]; intros l w Q Hfd Hs Hl Hf HQ; [lia|]. cbn [cat_loop].
  destruct (read_chunks (Z.to_nat 512) l) as [b l'] eqn:E. apply wp_bind, (read_wp fd 512 w path l b l'); [done|done|].
  destruct (read_chunks_spec (Z.to_nat 512) l b l' ltac:(lia) Hl E) as (Ec&Hl'&Hnil&_&Hlt).
  assert (fd ≠ 1) as Hne by (destruct Hs as [p Hp]; congruence). set (w1 := set_fds _ w). assert (is_sink 1 w1) as Hs1 by (by apply sink_insert).
  destruct b as [|c b].
  - destruct (Hnil eq_refl) as [-> ->]. apply wp_ret, HQ; [apply emits_fds|done].
  - apply wp_bind, write_wp; [done|]. rewrite Z.eqb_refl. apply (IH l'); [by rewrite lookup_insert_eq|done|done|specialize (Hlt ltac:(done)); lia|].
    intros w' He Hd. apply HQ.
    + rewrite Ec -(app_nil_l (_ ++ _)). apply (emits_trans w w1); [apply emits_fds|]. by eapply emits_trans; [apply emits_write|].
    + rewrite /drained Hd /=. by rewrite insert_insert_eq.
Qed.

Lemma cat_wp fd path l w (Q : bool → uworld → Prop) :
  ufds w !! fd = Some (path, Src l) → is_sink 1 w → Forall (λ c, c ≠ []) l →
  (∀ w', emits w w' (concat l) → drained fd path w w' → Q true w') → wp (cat fd) w Q.
Proof. intros Hfd Hs Hl HQ. rw /cat. apply wp_bind, wp_gets. apply (cat_loop_wp fd path _ l); [done..| |done]. rw /pending Hfd. lia. Qed.

(** ** Files one after the other *)

Definition has_free (w : uworld) : Prop := ∃ fd, 0 ≤ fd < NOFILES ∧ ufds w !! fd = None.

Lemma file_chunks_ok b : Forall (λ c, c ≠ []) (file_chunks b) ∧ concat (file_chunks b) = b.
Proof. destruct b; [by split; [constructor|]|]. split; [by repeat constructor|]. apply app_nil_r. Qed.

Lemma open_wp path w (Q : Z → uworld → Prop) :
  has_free w →
  match ufiles w !! path with
  | Some (_, b) => ∀ fd, 0 ≤ fd → ufds w !! fd = None → Q fd (set_fds (<[fd := (path, Src (file_chunks b))]> (ufds w)) w)
  | None => Q (-1) w
  end → wp (open path) w Q.
Proof.
  intros (fd0&Hr&Hfree) HQ. rw /open. apply wp_bind, wp_get. destruct (ufiles w !! path) as [[st b]|]; [|by apply wp_ret].
  destruct (list_find (λ fd, ufds w !! fd = None) (range 0 NOFILES)) as [[i fd]|] eqn:E.
  - apply list_find_Some in E as (Ei&Hn&_). apply wp_bind, wp_put, wp_ret. apply HQ; [|done]. apply list_elem_of_lookup_2, elem_of_range in Ei. lia.
  - apply list_find_None in E. rewrite Forall_forall in E. exfalso. apply (E fd0); [by apply elem_of_range|done].
Qed.

(** What the loop over the arguments prints, [out] being what one file gives. *)
Fixpoint expected (cannot : list Z) (out : list Z → list Z → list Z) (files : gmap (list Z) (ustat * list Z)) (args : list (list Z)) : list Z :=
  match args with
  | [] => []
  | a :: args' =>
      match files !! a with
      | Some (_, b) => out a b ++ expected cannot out files args'
      | None => cannot ++ [32] ++ a ++ [NL]
      end
  end.

Section OverFiles.
Context (cannot : list Z) (work : Z → list Z → U bool) (out : list Z → list Z → list Z) (ok : list Z → Prop).
Hypothesis Htext : text cannot.
Hypothesis Hmsg : ∀ a, render (pieces (cannot ++ txt " %s" ++ [NL])) [UStr (Some a)] = Some (cannot ++ [32] ++ a ++ [NL]).
(** One file is worked on to its end. *)
Hypothesis Hwork : ∀ fd a b w (Q : bool → uworld → Prop),
  ufds w !! fd = Some (a, Src (file_chunks b)) → is_sink 1 w → text a → ok b →
  (∀ w', emits w w' (out a b) → drained fd a w w' → Q true w') → wp (work fd a) w Q.

Lemma over_files_wp args : ∀ w (Q : unit → uworld → Prop),
  is_sink 1 w → has_free w → Forall text args → (∀ a st b, a ∈ args → ufiles w !! a = Some (st, b) → ok b) →
  (∀ w', emits w w' (expected cannot out (ufiles w) args) → ufds w' = ufds w → Q tt w') → wp (over_files cannot work args) w Q.
Proof.
  induction args as [|a args IH]; intros w Q Hs Hfree Ht Hok HQ; cbn [over_files expected] in *; [by apply wp_ret, HQ; [apply emits_refl|]|].
  apply Forall_cons in Ht as [Ha Ht]. apply wp_bind, open_wp; [done|]. destruct (ufiles w !! a) as [[st b]|] eqn:Ef.
  - intros fd H0 Hnone. destruct (Z.ltb_spec fd 0); [lia|]. assert (fd ≠ 1) as Hne by (destruct Hs as [p Hp]; congruence).
    apply wp_bind, (Hwork fd a b); [apply lookup_insert_eq|by apply sink_insert|done|exact (Hok a st b (list_elem_of_here _ _) Ef)|].
    intros w1 He Hd. cbn [negb]. apply wp_bind, wp_modify.
    assert (ufds (set_fds (delete fd (ufds w1)) w1) = ufds w) as Ew by (cbn; rewrite Hd /= insert_insert_eq delete_insert_id //).
    assert (emits w (set_fds (delete fd (ufds w1)) w1) (out a b)) as He1.
    { rewrite -(app_nil_r (out a b)) -(app_nil_l (out a b ++ [])). eapply emits_trans; [apply emits_fds|]. eapply emits_trans; [exact He|apply emits_fds]. }
    apply IH.
    + destruct Hs as [p Hp]. exists p. by rewrite Ew.
    + destruct Hfree as (fd0&Hr&Hn). exists fd0. by rewrite Ew.
    + done.
    + intros a' st' b' Hin. rewrite (em_files _ _ _ He1). intros E'. apply (Hok a' st' b'); [by apply list_elem_of_further|done].
    + intros w' He' Ew'. apply HQ; [|congruence]. rewrite (em_files _ _ _ He1) in He'. exact (emits_trans _ _ _ _ _ He1 He').
  - apply (printf_wp 1 _ [UStr (Some a)] (cannot ++ [32] ++ a ++ [NL])); [done| |by constructor; [exact Ha|constructor]|apply Hmsg|].
    + apply Forall_app. split; [done|by repeat constructor].
    + apply HQ; [apply emits_print|done].
Qed.
End OverFiles.

(** ** Counting *)

(** The fields of a text between spaces; the words are those that are not empty. *)
Fixpoint fields (l : list Z) : list (list Z) :=
  match l with
  | [] => [[]]
  | c :: l' => if is_space c then [] :: fields l' else match fields l' with f :: fs => (c :: f) :: fs | [] => [[c]] end
  end.
Definition words (l : list Z) : nat := length (filter (λ f, f ≠ []) (fields l)).
Definition lines (l : list Z) : nat := length (filter (λ c, c = NL) l).

Lemma fields_cons l : ∃ f fs, fields l = f :: fs.
Proof. induction l as [|c l (f&fs&IH)]; [by eexists _, _|]. cbn [fields]. rewrite IH. destruct (is_space c); by eexists _, _. Qed.

(** Words that start in [l]; the first field goes on with a word when [inw]. *)
Definition started (inw : bool) (l : list Z) : nat :=
  match fields l with
  | f :: fs => ((if inw then 0 else if decide (f = []) then 0 else 1) + length (filter (λ f, f ≠ []) fs))%nat
  | [] => 0%nat
  end.

Lemma started_words l : started false l = words l.
Proof. rw /started /words. destruct (fields_cons l) as (f&fs&->). rewrite filter_cons. repeat case_decide; naive_solver. Qed.
Lemma started_cons inw c l :
  started inw (c :: l) = (if is_space c then started false l else (if inw then 0 else 1) + started true l)%nat.
Proof.
  rw /started. cbn [fields]. destruct (fields_cons l) as (f&fs&->). destruct (is_space c).
  - rewrite filter_cons. repeat case_decide; try done; destruct inw; simpl; naive_solver.
  - by destruct inw.
Qed.

Lemma wc_fold b : ∀ x, 0 ≤ wc_l x ≤ wc_c x → 0 ≤ wc_w x ≤ wc_c x → wc_c x + Z.of_nat (length b) < 2 ^ 31 →
  foldl wc_byte x b = WC (wc_l x + Z.of_nat (lines b)) (wc_w x + Z.of_nat (started (wc_in x) b)) (wc_c x + Z.of_nat (length b)) (wc_in (foldl wc_byte x b)).
Proof.
  induction b as [|c b IH]; intros x Hl Hw Hc; cbn [foldl].
  - destruct x as [l w n [|]]; rw /started /lines /=; f_equal; lia.
  - cbn [length] in Hc. assert (wc_l (wc_byte x c) = wc_l x + (if decide (c = NL) then 1 else 0) ∧ wc_c (wc_byte x c) = wc_c x + 1 ∧
      wc_w (wc_byte x c) = wc_w x + (if is_space c then 0 else if wc_in x then 0 else 1) ∧ wc_in (wc_byte x c) = negb (is_space c)) as (E1&E2&E3&E4).
    { rw /wc_byte. rewrite (s32_small (wc_c x + 1)); [lia|]. rewrite (s32_small (wc_l x + 1)); [lia|]. rewrite (s32_small (wc_w x + 1)); [lia|].
      destruct (Z.eqb_spec c NL), (decide (c = NL)); try done; destruct (is_space c), (wc_in x); simpl; split_and!; lia || done. }
    rewrite IH; [rewrite E1 E2; case_decide; lia|rewrite E3 E2; destruct (is_space c), (wc_in x); lia|rewrite E2; lia|].
    rewrite E1 E2 E3 E4 started_cons /lines filter_cons. f_equal.
    + case_decide; cbn [length]; lia.
    + destruct (is_space c), (wc_in x); cbn [negb]; lia.
    + cbn [length]. lia.
Qed.

(** The line [wc] prints. *)
Definition wc_line (b name : list Z) : list Z :=
  dec (Z.of_nat (lines b)) ++ [32] ++ dec (Z.of_nat (words b)) ++ [32] ++ dec (Z.of_nat (length b)) ++ [32] ++ name ++ [NL].

Lemma wc_loop_wp fd path fuel : ∀ l x w (Q : option wcount → uworld → Prop),
  ufds w !! fd = Some (path, Src l) → Forall (λ c, c ≠ []) l → (length (concat l) + length l < fuel)%nat →
  (∀ w', emits w w' [] → drained fd path w w' → Q (Some (foldl wc_byte x (concat l))) w') → wp (wc_loop fuel fd x) w Q.
Proof.
  induction fuel as [|fuel IH]; intros l x w Q Hfd Hl Hf HQ; [lia|]. cbn [wc_loop].
  destruct (read_chunks (Z.to_nat 512) l) as [b l'] eqn:E. apply wp_bind, (read_wp fd 512 w path l b l'); [done|done|].
  destruct (read_chunks_spec (Z.to_nat 512) l b l' ltac:(lia) Hl E) as (Ec&Hl'&Hnil&_&Hlt). destruct b as [|c b].
  - destruct (Hnil eq_refl) as [-> ->]. apply wp_ret, HQ; [apply emits_fds|done].
  - apply (IH l'); [by rewrite lookup_insert_eq|done|specialize (Hlt ltac:(done)); lia|]. intros w' He Hd. rewrite -foldl_app -Ec. apply HQ.
    + exact (emits_trans _ _ _ [] [] (emits_fds _ _) He).
    + rewrite /drained Hd /=. by rewrite insert_insert_eq.
Qed.

Lemma wc_wp fd path l name w (Q : bool → uworld → Prop) :
  ufds w !! fd = Some (path, Src l) → is_sink 1 w → Forall (λ c, c ≠ []) l → text name → Z.of_nat (length (concat l)) < 2 ^ 31 →
  (∀ w', emits w w' (wc_line (concat l) name) → drained fd path w w' → Q true w') → wp (wc fd name) w Q.
Proof.
  intros Hfd Hs Hl Hn Hlen HQ. rw /wc. apply wp_bind, wp_gets. apply wp_bind, (wc_loop_wp fd path _ l); [done|done|rw /pending Hfd; lia|].
  intros w1 He Hd. rewrite wc_fold; [done|done|simpl; lia|]. cbn [wc_l wc_w wc_c wc_in]. rewrite !Z.add_0_l started_words.
  assert (fd ≠ 1) as Hne by (destruct Hs as [p Hp]; congruence).
  assert (is_sink 1 w1) as Hs1. { destruct Hs as [p Hp]. exists p. by rewrite Hd lookup_insert_ne. }
  apply wp_bind, (printf_wp 1 _ _ (wc_line (concat l) name)); [done|by repeat constructor|by repeat constructor|done|].
  apply wp_ret, HQ; [|done]. rewrite -(app_nil_l (wc_line _ _)). by eapply emits_trans; [|apply emits_print].
Qed.

(** ** Theorems *)

(** [cat] without arguments copies its standard input to its output, in whatever pieces it arrives; with arguments
    it prints the contents of the files one after the other and leaves the descriptors as they were, and at the
    first file that does not exist it prints a message and stops. *)
Theorem cat_concatenates (w : uworld) name args (Hs : is_sink 1 w) (Hfree : has_free w) (Hargs : Forall text args) :
  (args ≠ [] → wp (cat_main (name :: args)) w (λ _ w',
    emits w w' (expected (txt "cat: cannot open") (λ _ b, b) (ufiles w) args) ∧ ufds w' = ufds w)) ∧
  (∀ path l, ufds w !! 0 = Some (path, Src l) → Forall (λ c, c ≠ []) l →
    wp (cat_main [name]) w (λ _ w', emits w w' (concat l))).
Proof.
  split.
  - intros Hne. destruct args as [|a args]; [done|]. cbn [cat_main].
    apply (over_files_wp _ _ (λ _ b, b) (λ _, True)); [by repeat constructor|done| |done..|intros w' H1 H2; by split].
    intros fd a' b w1 Q Hfd Hs1 _ _ HQ. destruct (file_chunks_ok b) as [H1 H2]. apply (cat_wp fd a' (file_chunks b)); [done..|]. by rewrite H2.
  - intros path l Hfd Hl. cbn [cat_main]. apply wp_bind, (cat_wp 0 path l); [done..|]. intros w' He _. by apply wp_ret.
Qed.

(** [wc] prints the number of newlines, of maximal runs of bytes that are not spaces and of bytes, however reads cut
    the input: a word across two reads counts once.  Files of 2 GB or more are out of the range of its counters. *)
Theorem wc_counts (w : uworld) name args (Hs : is_sink 1 w) (Hfree : has_free w) (Hargs : Forall text args)
    (Hsize : ∀ a st b, ufiles w !! a = Some (st, b) → Z.of_nat (length b) < 2 ^ 31) :
  (args ≠ [] → wp (wc_main (name :: args)) w (λ _ w',
    emits w w' (expected (txt "wc: cannot open") (λ a b, wc_line b a) (ufiles w) args) ∧ ufds w' = ufds w)) ∧
  (∀ path l, ufds w !! 0 = Some (path, Src l) → Forall (λ c, c ≠ []) l → Z.of_nat (length (concat l)) < 2 ^ 31 →
    wp (wc_main [name]) w (λ _ w', emits w w' (wc_line (concat l) []))).
Proof.
  split.
  - intros Hne. destruct args as [|a args]; [done|]. cbn [wc_main].
    apply (over_files_wp _ _ (λ a b, wc_line b a) (λ b, Z.of_nat (length b) < 2 ^ 31)); [by repeat constructor|done| |done..| |intros w' H1 H2; by split].
    + intros fd a' b w1 Q Hfd Hs1 Ha Hb HQ. destruct (file_chunks_ok b) as [H1 H2]. apply (wc_wp fd a' (file_chunks b)); [done..|by rewrite H2|]. by rewrite H2.
    + intros a' st b _ E. exact (Hsize a' st b E).
  - intros path l Hfd Hl Hlen. cbn [wc_main]. apply wp_bind, (wc_wp 0 path l); [done|done|done|constructor|done|]. intros w' He _. by apply wp_ret.
Qed.

(** What [printf] prints for "%d" is what [atoi] reads, for every number an int holds that is not negative, also when
    other characters follow; and [printf] writes exactly the bytes of its format, each with a write of its own. *)
Theorem printed_number_parses (w : uworld) fd x rest (Hs : is_sink fd w) (Hx : 0 ≤ x < 2 ^ 31) (Hrest : ∀ c, head rest = Some c → c < 48 ∨ 57 < c) :
  wp (printf fd (txt "%d") [UNum x]) w (λ _ w', ∃ l, uwrites w' = uwrites w ++ bytewise fd l ∧ output fd w' = output fd w ++ l ∧
    atoi (l ++ rest) = x ∧ (length l ≤ 11)%nat).
Proof.
  apply (printf_wp fd (txt "%d") [UNum x] (dec x)); [done|by apply text_of|by apply Forall_singleton|change (Some (dec x ++ []) = Some (dec x)); by rewrite app_nil_r|].
  destruct (printint_buf_spec udigit udigit_ok (s32 x) 10 true (s32_range x) (or_introl eq_refl)) as (H1&_&_&H3&H4).
  rewrite s32_small in H1, H3, H4; [lia|]. specialize (H3 eq_refl eq_refl). specialize (H4 ltac:(lia) eq_refl).
  exists (dec x). split_and!; [done|apply output_bytewise| |rw /dec; rewrite rev_length s32_small; [lia|done]].
  rw /dec s32_small; [lia|]. set (l := rev _) in *. assert (Forall (λ c, 48 ≤ c ≤ 57) l) as Hl by (by apply Forall_rev).
  rewrite signed_digits in H3; [eapply Forall_impl; [exact Hl|]; simpl; lia|]. rewrite atoi_spec //. lia.
Qed.

(** [echo] prints its arguments with spaces between them and a newline at the end. *)
Fixpoint joined (args : list (list Z)) : list Z :=
  match args with [] => [] | [a] => a ++ [NL] | a :: args' => a ++ [32] ++ joined args' end.
Lemma echo_prints args : ∀ w, is_sink 1 w → Forall text args → wp (echo_loop args) w (λ _ w', w' = wrote (bytewise 1 (joined args)) w).
Proof.
  induction args as [|a args IH]; intros w Hs Ha; cbn [echo_loop]; [apply wp_ret; by rewrite uwrote_nil|]. apply Forall_cons in Ha as [Ha Has].
  set (sep := if args is [] then [NL] else [32]).
  apply wp_bind, (printf_wp 1 (txt "%s%s") [UStr (Some a); UStr (Some sep)] (a ++ sep ++ [])); [done|by apply text_of| |done|].
  { apply Forall_cons. split; [done|]. apply Forall_singleton. destruct args; by apply text_of. }
  eapply wp_mono; [apply IH; [done|done]|]. intros _ w' ->. rewrite uwrote_app /bytewise -fmap_app app_nil_r. do 2 f_equal.
  rw /sep. destruct args; [by rewrite app_nil_r|]. cbn [joined]. by rewrite -app_assoc.
Qed.

(** *** Witnesses *)

(** A process with its three descriptors and a file. *)
Definition uw0 : uworld :=
  UWorld {[ txt "a" := (UStat 2 5 9, txt "hi there" ++ [NL]) ]}
         (<[0 := ([], Src [txt "one"; txt " two" ++ [NL]])]> (<[1 := ([], Sink)]> {[ 2 := ([], Sink) ]})) [] [].
Lemma uw0_sink : is_sink 1 uw0.
Proof. by eexists. Qed.
Lemma uw0_free : has_free uw0.
Proof. by exists 3. Qed.
Lemma a_text : Forall text [txt "a"].
Proof. apply Forall_singleton. by apply text_of. Qed.

Lemma cat_concatenates_witness :
  wp (cat_main [txt "cat"; txt "a"]) uw0 (λ _ w', output 1 w' = txt "hi there" ++ [NL]) ∧
  wp (cat_main [txt "cat"]) uw0 (λ _ w', output 1 w' = txt "one two" ++ [NL]).
Proof.
  destruct (cat_concatenates uw0 (txt "cat") [txt "a"] uw0_sink uw0_free a_text) as [H1 H2]. split.
  - eapply wp_mono; [by apply H1|]. intros _ w' [He _]. rewrite (em_out _ _ _ He 1). vm_compute. reflexivity.
  - eapply wp_mono; [eapply H2; [reflexivity|by repeat constructor]|]. intros ? w' He. rewrite (em_out _ _ _ He 1). vm_compute. reflexivity.
Defined.

Lemma wc_counts_witness : wp (wc_main [txt "wc"]) uw0 (λ _ w', output 1 w' = txt "1 2 8 " ++ [NL]).
Proof.
  destruct (wc_counts uw0 (txt "wc") [txt "a"] uw0_sink uw0_free a_text) as [_ H2].
  - intros a st b E. cbn [uw0 ufiles] in E. apply lookup_singleton_Some in E as [_ [= _ <-]]. done.
  - eapply wp_mono; [eapply H2; [reflexivity|by repeat constructor|done]|]. intros ? w' He. rewrite (em_out _ _ _ He 1). vm_compute. reflexivity.
Defined.

Lemma printed_number_parses_witness :
  wp (printf 1 (txt "%d") [UNum 2147483647]) uw0 (λ _ w', ∃ l, output 1 w' = l ∧ atoi (l ++ [NL]) = 2147483647).
Proof.
  eapply wp_mono; [apply (printed_number_parses uw0 1 2147483647 [NL] uw0_sink); [lia|intros c [= <-]; left; done]|].
  intros _ w' (l&_&E&H&_). exists l. split; [rewrite E; reflexivity|exact H].
Defined.
