(* ===== verification/Grep.v ===== *)
(** * Searching (xv6/grep.c).

    The matcher of regular expressions and the loop that reads a file through a buffer of 1024 bytes.  The matcher
    decides the language of the expression, and on a file whose lines fit the buffer [grep] prints exactly the
    lines that match, in order.  A line that arrives in two reads loses its first part. *)
From S2P Require Import Prelude Numbers Layout User.
Local Open Scope Z_scope.

(** ** The matcher *)

Definition CARET : Z := 94.
Definition DOLLAR : Z := 36.
Definition STAR : Z := 42.
Definition DOT : Z := 46.

(** Strings are the bytes before the zero; [here] is [matchhere(re, -)]. *)
Fixpoint matchstar (here : list Z → bool) (c : Z) (text : list Z) : bool :=
  if here text then true
  else match text with
       | [] => false
       | t :: text' => if (t =? c) || (c =? DOT) then matchstar here c text' else false
       end.

Fixpoint matchhere (re : list Z) (text : list Z) : bool :=
  match re with
  | [] => true
  | c :: re1 =>
      let one :=
        if (c =? DOLLAR) && bool_decide (re1 = []) then bool_decide (text = [])
        else match text with
             | t :: text' => if (c =? DOT) || (c =? t) then matchhere re1 text' else false
             | [] => false
             end in
      match re1 with
      | s :: re2 => if s =? STAR then matchstar (matchhere re2) c text else one
      | [] => one
      end
  end.

Fixpoint match_any (re text : list Z) : bool :=
  if matchhere re text then true
  else match text with [] => false | _ :: text' => match_any re text' end.

Definition matches_re (re text : list Z) : bool :=
  match re with
  | c :: re1 => if c =? CARET then matchhere re1 text else match_any re text
  | [] => match_any re text
  end.

(** ** The loop *)

Fixpoint strchr (s : list Z) (c : Z) : option nat :=
  match s with
  | [] => None
  | x :: s' => if x =? 0 then None else if x =? c then Some O else S <$> strchr s' c
  end.

Section Grep.
Context (pattern : list Z).

(** The lines of the buffer from [p] on; at most one round per byte. *)
Fixpoint grep_lines (fuel : nat) (buf : list Z) (p : nat) : U (list Z * nat) :=
  match fuel with
  | O => undef "grep: lines"
  | S k =>
      match strchr (drop p buf) NL with
      | None => mret (buf, p)
      | Some i =>
          let q := (p + i)%nat in
          let buf := <[q := 0]> buf in
          if matches_re pattern (cstring (drop p buf)) then
            let buf := <[q := NL]> buf in
            _ ← write 1 (slice p (q + 1 - p) buf);
            grep_lines k buf (q + 1)
          else grep_lines k buf (q + 1)
      end
  end.

Fixpoint grep_loop (fuel : nat) (fd : Z) (buf : list Z) (m : nat) : U unit :=
  match fuel with
  | O => undef "grep: loop"
  | S k =>
      r ← read fd (1024 - Z.of_nat m - 1);
      match r with
      | None | Some [] => mret tt
      | Some b =>
          let m := (m + length b)%nat in
          let buf := <[m := 0]> (splice (m - length b) b buf) in
          x ← grep_lines (S (length buf)) buf 0;
          let '(buf, p) := x in
          let m := if (p =? 0)%nat then O else m in
          if (0 <? m)%nat then grep_loop k fd (splice 0 (slice p (m - p) buf) buf) (m - p)
          else grep_loop k fd buf m
      end
  end.

(** [buf]: what the buffer holds before. *)
Definition grep (buf : list Z) (fd : Z) : U unit := n ← gets (pending fd); grep_loop (S n) fd buf 0.
End Grep.

(** [bufs]: what the buffer holds when a file is begun. *)
Definition grep_main (bufs : list Z → list Z) (argv : list (list Z)) : U unit :=
  match argv with
  | [] | [_] => printf 2 (txt "usage: grep pattern [file ...]" ++ [NL]) []
  | [_; pattern] => grep pattern (bufs []) 0
  | _ :: pattern :: args => over_files (txt "grep: cannot open") (λ fd a, _ ← grep pattern (bufs a) fd; mret true) args
  end.

(** ** Languages *)

(** An expression: a repeated or a single character, with the end of the line required or not. *)
Fixpoint parse_re (re : list Z) : list (Z * bool) * bool :=
  match re with
  | [] => ([], false)
  | c :: re1 =>
      let one := if (c =? DOLLAR) && bool_decide (re1 = []) then ([], true) else let '(l, e) := parse_re re1 in ((c, false) :: l, e) in
      match re1 with
      | s :: re2 => if s =? STAR then let '(l, e) := parse_re re2 in ((c, true) :: l, e) else one
      | [] => one
      end
  end.

Definition fits (c t : Z) : Prop := c = DOT ∨ c = t.

(** The strings of the language of an expression. *)
Fixpoint lang (l : list (Z * bool)) (s : list Z) : Prop :=
  match l with
  | [] => s = []
  | (c, false) :: l' => ∃ t s', s = t :: s' ∧ fits c t ∧ lang l' s'
  | (c, true) :: l' => ∃ s1 s2, s = s1 ++ s2 ∧ Forall (fits c) s1 ∧ lang l' s2
  end.

(** A prefix in the language, up to the end if that is required. *)
Definition prefix_in (p : list (Z * bool) * bool) (text : list Z) : Prop :=
  ∃ s rest, text = s ++ rest ∧ lang p.1 s ∧ (p.2 = true → rest = []).

Lemma matchstar_spec here (P : list Z → Prop) c : (∀ t, here t = true ↔ P t) →
  ∀ text, matchstar here c text = true ↔ ∃ s1 s2, text = s1 ++ s2 ∧ Forall (fits c) s1 ∧ P s2.
Proof.
  intros Hh. induction text as [|t text IH]; cbn [matchstar].
  - destruct (here []) eqn:E; [|rewrite -E Hh]; split; try done.
    + intros _. exists [], []. split_and!; [done|constructor|by apply Hh].
    + intros HP. by exists [], [].
    + intros (s1&s2&E'&_&HP). symmetry in E'. apply app_eq_nil in E' as [-> ->]. done.
  - destruct (here (t :: text)) eqn:E.
    + split; [|done]. intros _. exists [], (t :: text). split_and!; [done|constructor|by apply Hh].
    + destruct ((t =? c) || (c =? DOT)) eqn:Ec.
      * rewrite IH. split.
        -- intros (s1&s2&->&Hs1&HP). exists (t :: s1), s2. split_and!; [done| |done]. constructor; [rw /fits; lia|done].
        -- intros (s1&s2&E'&Hs1&HP). destruct Hs1 as [|x s1 Hx Hs1]; simplify_eq/=; [apply Hh in HP; congruence|by exists s1, s2].
      * split; [done|]. intros (s1&s2&E'&Hs1&HP). destruct Hs1 as [|x s1 Hx Hs1]; simplify_eq/=; [apply Hh in HP; congruence|]. rw /fits in Hx. lia.
Qed.

Lemma prefix_star c l e text :
  prefix_in ((c, true) :: l, e) text ↔ ∃ s1 s2, text = s1 ++ s2 ∧ Forall (fits c) s1 ∧ prefix_in (l, e) s2.
Proof.
  split.
  - intros (s&rest&->&(s1&s2&->&H1&H2)&He). exists s1, (s2 ++ rest). rewrite app_assoc. split_and!; [done|done|]. by exists s2, rest.
  - intros (s1&s2&->&H1&(s&rest&->&H2&He)). exists (s1 ++ s), rest. rewrite app_assoc. split_and!; [done| |done]. by exists s1, s.
Qed.
Lemma prefix_one c l e text :
  prefix_in ((c, false) :: l, e) text ↔ ∃ t text', text = t :: text' ∧ fits c t ∧ prefix_in (l, e) text'.
Proof.
  split.
  - intros (s&rest&->&(t&s'&->&H1&H2)&He). exists t, (s' ++ rest). split_and!; [done|done|]. by exists s', rest.
  - intros (t&text'&->&H1&(s&rest&->&H2&He)). exists (t :: s), rest. split_and!; [done| |done]. by exists t, s.
Qed.

Lemma matchhere_spec re : ∀ text, matchhere re text = true ↔ prefix_in (parse_re re) text.
Proof.
  remember (length re) as n eqn:En. revert re En. induction (lt_wf n) as [n _ IH]. intros re -> text. destruct re as [|c re1]; cbn [matchhere parse_re].
  { split; [|done]. intros _. by exists [], text. }
  set (one := if (c =? DOLLAR) && _ then bool_decide (text = []) else _). set (pone := if (c =? DOLLAR) && _ then _ else _).
  assert (one = true ↔ prefix_in pone text) as Hone.
  { subst one pone. destruct ((c =? DOLLAR) && bool_decide (re1 = [])).
    - rewrite bool_decide_eq_true. split; [intros ->; by exists [], []|]. intros (s&rest&->&E&He). simpl in E. subst s. by apply He.
    - destruct (parse_re re1) as [l e] eqn:Ep. rewrite prefix_one. destruct text as [|t text]; [naive_solver|]. destruct ((c =? DOT) || (c =? t)) eqn:Ec.
      + rewrite (IH (length re1)) //. rewrite Ep. split; [intros H; exists t, text; split_and!; [done|rw /fits; lia|done]|]. by intros (t'&text'&[= <- <-]&_&H).
      + split; [done|]. intros (t'&text'&[= <- <-]&H&_). rw /fits in H. lia. }
  destruct re1 as [|s re2]; [exact Hone|]. destruct (s =? STAR); [|exact Hone]. destruct (parse_re re2) as [l e] eqn:Ep.
  rewrite prefix_star. apply matchstar_spec. intros t. rewrite -Ep. apply (IH (length re2)); [simpl; lia|done].
Qed.

Lemma match_any_spec re text : match_any re text = true ↔ ∃ pre mid, text = pre ++ mid ∧ prefix_in (parse_re re) mid.
Proof.
  induction text as [|t text IH]; cbn [match_any].
  - destruct (matchhere re []) eqn:E; [|rewrite -E matchhere_spec]; split; try done.
    + intros _. exists [], []. split; [done|by apply matchhere_spec].
    + intros H. by exists [], [].
    + intros (pre&mid&E'&H). symmetry in E'. apply app_eq_nil in E' as [-> ->]. done.
  - destruct (matchhere re (t :: text)) eqn:E.
    + split; [|done]. intros _. exists [], (t :: text). split; [done|by apply matchhere_spec].
    + rewrite IH. split; [intros (pre&mid&->&H); by exists (t :: pre), mid|]. intros (pre&mid&E'&H). destruct pre as [|x pre]; simplify_eq/=; [apply matchhere_spec in H; congruence|by exists pre, mid].
Qed.

(** ** Lines *)

(** The lines that end with a newline, and what follows the last one. *)
Fixpoint split_lines (l : list Z) : list (list Z) * list Z :=
  match l with
  | [] => ([], [])
  | c :: l' =>
      let '(ls, r) := split_lines l' in
      if c =? NL then ([] :: ls, r) else match ls with [] => ([], c :: r) | x :: ls' => ((c :: x) :: ls', r) end
  end.
Definition matching (pattern l : list Z) : list Z := concat ((λ x, x ++ [NL]) <$> filter (λ x, matches_re pattern x = true) (split_lines l).1).

Lemma split_none l : NL ∉ l → split_lines l = ([], l).
Proof.
  induction l as [|c l IH]; intros H; [done|]. apply not_elem_of_cons in H as [Hc H]. cbn [split_lines]. rewrite IH //. destruct (Z.eqb_spec c NL); [congruence|done].
Qed.
Lemma split_first x l : NL ∉ x → split_lines (x ++ NL :: l) = (x :: (split_lines l).1, (split_lines l).2).
Proof.
  induction x as [|c x IH]; intros H; cbn [app split_lines].
  - by destruct (split_lines l).
  - apply not_elem_of_cons in H as [Hc H]. rewrite IH //. destruct (Z.eqb_spec c NL); [congruence|done].
Qed.
Lemma split_app l1 l2 : split_lines (l1 ++ l2) = ((split_lines l1).1 ++ (split_lines ((split_lines l1).2 ++ l2)).1, (split_lines ((split_lines l1).2 ++ l2)).2).
Proof.
  induction l1 as [|c l1 IH]; cbn [app split_lines]; [by rewrite /= -surjective_pairing|]. destruct (split_lines l1) as [ls r]. cbn [fst snd] in *. rewrite IH.
  destruct (Z.eqb_spec c NL) as [->|Hne]; [done|]. destruct ls as [|x ls]; [|done]. cbn [app fst snd split_lines].
  destruct (split_lines (r ++ l2)) as [ls2 r2]. destruct (Z.eqb_spec c NL); [congruence|]. by destruct ls2.
Qed.
Lemma split_rest l : NL ∉ (split_lines l).2.
Proof.
  induction l as [|c l IH]; cbn [split_lines]; [apply not_elem_of_nil|]. destruct (split_lines l) as [ls r]. cbn [fst snd] in *.
  destruct (Z.eqb_spec c NL); [done|]. destruct ls; [|done]. apply not_elem_of_cons. split; [congruence|done].
Qed.
Lemma first_newline l : NL ∉ l ∨ ∃ x l', l = x ++ NL :: l' ∧ NL ∉ x.
Proof.
  induction l as [|c l IH]; [left; apply not_elem_of_nil|]. destruct (decide (c = NL)) as [->|Hne]; [right; exists [], l; split; [done|apply not_elem_of_nil]|].
  destruct IH as [IH|(x&l'&->&Hx)]; [left; apply not_elem_of_cons; split; [congruence|done]|]. right. exists (c :: x), l'. split; [done|]. apply not_elem_of_cons. split; [congruence|done].
Qed.
Lemma split_suffix l : ∃ pre, l = pre ++ (split_lines l).2.
Proof.
  induction l as [|c l [pre IH]]; cbn [split_lines]; [by exists []|]. destruct (split_lines l) as [ls r] eqn:E. cbn [fst snd] in *.
  destruct (c =? NL); [exists (c :: pre); by rewrite IH|]. destruct ls as [|x ls]; [|exists (c :: pre); by rewrite IH].
  exists []. destruct (first_newline l) as [H|(y&l'&->&Hy)]; [rewrite split_none // in E; by injection E as <-|by rewrite split_first in E].
Qed.
Lemma split_length l : (length (split_lines l).2 ≤ length l)%nat ∧ ((split_lines l).1 ≠ [] → length (split_lines l).2 < length l)%nat.
Proof.
  induction l as [|c l IH]; cbn [split_lines]; [by split|]. destruct (split_lines l) as [ls r]. cbn [fst snd length] in *.
  destruct (Z.eqb_spec c NL); [split; simpl; lia|]. destruct ls; cbn [fst snd length]; [split; [lia|done]|]. destruct IH as [_ IH]. specialize (IH ltac:(done)). split; lia.
Qed.
Lemma matching_app pattern l1 l2 : matching pattern (l1 ++ l2) = matching pattern l1 ++ matching pattern ((split_lines l1).2 ++ l2).
Proof. rw /matching split_app. cbn [fst]. by rewrite filter_app fmap_app concat_app. Qed.
Lemma matching_none pattern l : NL ∉ l → matching pattern l = [].
Proof. intros H. rw /matching split_none //. Qed.

(** ** The buffer *)

Lemma strchr_none d rest : NL ∉ d → Forall (λ c, c ≠ 0) d → strchr (d ++ 0 :: rest) NL = None.
Proof.
  intros Hn Hz. induction Hz as [|c d Hc Hz IH]; [done|]. apply not_elem_of_cons in Hn as [Hne Hn]. cbn [app strchr].
  destruct (Z.eqb_spec c 0); [done|]. destruct (Z.eqb_spec c NL); [congruence|]. by rewrite IH.
Qed.
Lemma strchr_some x rest : NL ∉ x → Forall (λ c, c ≠ 0) x → strchr (x ++ NL :: rest) NL = Some (length x).
Proof.
  intros Hn Hz. induction Hz as [|c d Hc Hz IH]; [done|]. apply not_elem_of_cons in Hn as [Hne Hn]. cbn [app strchr].
  destruct (Z.eqb_spec c 0); [done|]. destruct (Z.eqb_spec c NL); [congruence|]. by rewrite IH.
Qed.
Lemma cstring_app x rest : Forall (λ c, c ≠ 0) x → cstring (x ++ 0 :: rest) = x.
Proof. induction 1 as [|c x Hc Hx IH]; [done|]. cbn [app cstring]. destruct (Z.eqb_spec c 0); [done|]. by rewrite IH. Qed.

(** A byte of the text after [p] replaced. *)
Lemma drop_insert_mid p x (a b : Z) rest buf : drop p buf = x ++ a :: rest → drop p (<[(p + length x)%nat := b]> buf) = x ++ b :: rest.
Proof. intros E. rewrite drop_insert_ge; [lia|]. rewrite E. replace (p + length x - p)%nat with (length x + 0)%nat by lia. by rewrite insert_app_r. Qed.
Lemma drop_past p x (a : Z) rest buf : drop p buf = x ++ a :: rest → drop (p + length x + 1) buf = rest.
Proof.
  intros E. rewrite -Nat.add_assoc -drop_drop E. rewrite cons_middle app_assoc drop_app_length' //. rewrite length_app. simpl. lia.
Qed.

Lemma matching_first pattern x l : NL ∉ x → matching pattern (x ++ NL :: l) = (if matches_re pattern x then x ++ [NL] else []) ++ matching pattern l.
Proof.
  intros Hx. rw /matching split_first //. cbn [fst]. rewrite filter_cons. destruct (matches_re pattern x) eqn:E; case_decide; done.
Qed.

Lemma grep_lines_wp pattern fuel : ∀ buf p d rest w (Q : list Z * nat → uworld → Prop),
  drop p buf = d ++ 0 :: rest → Forall (λ c, c ≠ 0) d → (length d < fuel)%nat → is_sink 1 w →
  (∀ buf' w', emits w w' (matching pattern d) → ufds w' = ufds w → length buf' = length buf →
    drop (p + (length d - length (split_lines d).2)) buf' = (split_lines d).2 ++ 0 :: rest →
    Q (buf', p + (length d - length (split_lines d).2))%nat w') →
  wp (grep_lines pattern fuel buf p) w Q.
Proof.
  induction fuel as [|fuel IH]; intros buf p d rest w Q Eb Hz Hf Hs HQ; [lia|]. cbn [grep_lines]. rewrite Eb.
  destruct (first_newline d) as [Hn|(x&d'&->&Hx)].
  { rewrite strchr_none //. rewrite (split_none d Hn) /= Nat.sub_diag Nat.add_0_r (matching_none _ _ Hn) in HQ. by apply wp_ret, HQ; [apply emits_refl|..]. }
  apply Forall_app in Hz as [Hzx Hz]. apply Forall_cons in Hz as [_ Hz]. rewrite -app_assoc -app_comm_cons in Eb |- *. rewrite strchr_some //. cbv zeta.
  rewrite matching_first // split_first // in HQ. cbn [fst snd] in HQ. set (q := (p + length x)%nat).
  pose proof (drop_insert_mid p x NL 0 (d' ++ 0 :: rest) buf Eb) as E0. rewrite E0 cstring_app //.
  pose proof (drop_insert_mid p x 0 NL (d' ++ 0 :: rest) _ E0) as E1. rewrite length_app /= in Hf HQ.
  assert (∀ buf1 w1 o, length buf1 = length buf → drop (q + 1) buf1 = d' ++ 0 :: rest → emits w w1 o → ufds w1 = ufds w →
    o = (if matches_re pattern x then x ++ [NL] else []) → wp (grep_lines pattern fuel buf1 (q + 1)) w1 Q) as Hnext.
  { intros buf1 w1 o Hl Hd He Hw ->. apply (IH buf1 (q + 1)%nat d' rest); [done|done|lia|destruct Hs as [f Hf']; exists f; congruence|].
    intros buf' w' He' Hw' Hl' Hd'. destruct (split_length d') as [Hle _].
    replace (q + 1 + (length d' - length (split_lines d').2))%nat with (p + (length x + S (length d') - length (split_lines d').2))%nat in Hd' |- * by lia.
    apply HQ; [exact (emits_trans _ _ _ _ _ He He')|congruence|congruence|done]. }
  destruct (matches_re pattern x) eqn:Em.
  - apply wp_bind, write_wp; [done|]. assert (slice p (q + 1 - p) (<[q := NL]> (<[q := 0]> buf)) = x ++ [NL]) as ->.
    { rw /slice E1. replace (q + 1 - p)%nat with (length (x ++ [NL])) by (rewrite length_app /=; lia). rewrite (app_assoc x [NL] (d' ++ 0 :: rest)) take_app_length //. }
    apply (Hnext _ _ (x ++ [NL])); [by rewrite !length_insert|by apply (drop_past p x NL)|apply emits_write|done|done].
  - apply (Hnext _ _ []); [by rewrite length_insert|by apply (drop_past p x 0)|apply emits_refl|done|done].
Qed.

Lemma read_file n f : (0 < n)%nat → read_chunks n (file_chunks f) = (take n f, file_chunks (drop n f)).
Proof.
  intros Hn. destruct f as [|c f]; [by destruct n|]. cbn [file_chunks read_chunks]. destruct (Nat.leb_spec (length (c :: f)) n) as [Hle|Hlt].
  - rewrite take_ge // drop_ge //.
  - destruct (drop n (c :: f)) eqn:E; [|done]. apply (f_equal length) in E. rewrite length_drop /= in E. simpl in Hlt. lia.
Qed.

(** Lines that fit the buffer with their newline. *)
Definition short_lines (l : list Z) : Prop := Forall (λ x, (length x ≤ 1022)%nat) (split_lines l).1.

Lemma short_rest d f : short_lines (d ++ f) → short_lines ((split_lines d).2 ++ f).
Proof. rw /short_lines split_app. cbn [fst]. intros H. by apply Forall_app in H as [_ H]. Qed.

(** Text without a newline that fills the buffer is not the beginning of a line. *)
Lemma full_no_line d f : (1023 ≤ length d)%nat → NL ∉ d → short_lines (d ++ f) → NL ∉ f.
Proof.
  intros Hl Hd Hs. destruct (first_newline f) as [Hf|(x&f'&->&Hx)]; [done|]. exfalso. rw /short_lines in Hs. rewrite app_assoc split_first in Hs.
  { rewrite elem_of_app. by intros [?|?]. }
  cbn [fst] in Hs. apply Forall_cons in Hs as [Hs _]. rewrite length_app in Hs. lia.
Qed.

(** The buffer after the bytes of a read and the zero. *)
Lemma fill_buffer buf m b : length buf = 1024%nat → (m + length b < 1024)%nat →
  ∃ rest, <[(m + length b)%nat := 0]> (splice m b buf) = take m buf ++ b ++ 0 :: rest ∧ length (take m buf ++ b ++ 0 :: rest) = 1024%nat.
Proof.
  intros Hl Hm. destruct (drop (m + length b) buf) as [|y rest] eqn:E.
  { apply (f_equal length) in E. rewrite length_drop /= in E. lia. }
  exists rest. assert (<[(m + length b)%nat := 0]> (splice m b buf) = take m buf ++ b ++ 0 :: rest) as E'.
  { rw /splice E app_assoc. replace (m + length b)%nat with (length (take m buf ++ b) + 0)%nat by (rewrite length_app length_take; lia). by rewrite insert_app_r -app_assoc. }
  split; [done|]. rewrite -E' length_insert /splice !length_app length_take length_drop. lia.
Qed.

Lemma grep_loop_wp pattern fd path fuel : ∀ buf lo f w (Q : unit → uworld → Prop),
  ufds w !! fd = Some (path, Src (file_chunks f)) → is_sink 1 w → length buf = 1024%nat → take (length lo) buf = lo → (length lo ≤ 1022)%nat →
  NL ∉ lo → Forall (λ c, c ≠ 0) (lo ++ f) → short_lines (lo ++ f) → (length f < fuel)%nat →
  (∀ w', emits w w' (matching pattern (lo ++ f)) → drained fd path w w' → Q tt w') → wp (grep_loop pattern fuel fd buf (length lo)) w Q.
Proof.
  induction fuel as [|fuel IH]; intros buf lo f w Q Hfd Hs Hlb Htk Hlo Hn Hz Hsh Hf HQ; [lia|]. cbn [grep_loop].
  assert (fd ≠ 1) as Hne by (destruct Hs as [p Hp]; congruence). set (n := Z.to_nat (1024 - Z.of_nat (length lo) - 1)).
  apply wp_bind, (read_wp fd _ w path (file_chunks f) (take n f) (file_chunks (drop n f))); [done|by apply read_file; lia|]. set (w1 := set_fds _ w).
  assert (is_sink 1 w1) as Hs1 by (by apply sink_insert).
  destruct (take n f) as [|c b0] eqn:Etk.
  { assert (f = []) as -> by (destruct f; [done|]; destruct n eqn:En; [lia|done]). rewrite app_nil_r matching_none // in HQ. subst w1.
    apply wp_ret, HQ; [apply emits_fds|]. by rewrite drop_nil. }
  assert (c :: b0 ≠ []) as Hb by done. set (b := c :: b0) in *. clearbody b. assert (f = b ++ drop n f) as Ef by (by rewrite -Etk take_drop).
  assert (length b ≤ n)%nat as Hbn by (rewrite -Etk length_take; lia). assert (length (drop n f) < length f)%nat as Hlt by (rewrite [in X in (_ < X)%nat]Ef length_app; destruct b; [done|simpl; lia]).
  set (f' := drop n f) in *. rewrite Ef app_assoc in Hz, Hsh, HQ. set (d := lo ++ b) in *. apply Forall_app in Hz as [Hzd Hzf].
  cbv zeta. rewrite Nat.add_sub. destruct (fill_buffer buf (length lo) b Hlb ltac:(lia)) as (rest&E1&El). rewrite E1. rewrite Htk app_assoc -/d in El |- *.
  apply wp_bind, (grep_lines_wp pattern _ _ 0 d rest w1); [done|done|rewrite length_app /=; lia|done|]. intros buf2 w2 He Hw Hl2 Hd2. cbn [Nat.add] in Hd2 |- *.
  set (r := (split_lines d).2) in *. destruct (split_length d) as [Hr1 Hr2]. rewrite -/r in Hr1 Hr2. assert (length d = length lo + length b)%nat as Hld by apply length_app.
  assert (is_sink 1 w2) as Hs2 by (destruct Hs1 as [p Hp]; exists p; congruence).
  assert (ufds w2 !! fd = Some (path, Src (file_chunks f'))) as Hfd2 by (rewrite Hw; apply lookup_insert_eq).
  assert (∀ w', drained fd path w2 w' → drained fd path w w') as Hdr by (intros w' H; rewrite /drained H Hw /= insert_insert_eq //).
  assert (∀ w' o, emits w2 w' o → emits w w' (matching pattern d ++ o)) as Hem.
  { intros w' o H. apply (emits_trans w w1 w' [] _ (emits_fds _ _)). exact (emits_trans _ _ _ _ _ He H). }
  destruct (decide ((split_lines d).1 = [])) as [Enil|Hnn].
  - assert (NL ∉ d) as Hnd by (destruct (first_newline d) as [H|(x&d'&E&Hx)]; [done|]; by rewrite E split_first in Enil).
    assert (r = d) as -> by (rw /r split_none //). rewrite Nat.sub_diag /=.
    assert (NL ∉ f') as Hnf. { destruct (decide (1023 ≤ length d)%nat); [by apply (full_no_line d)|]. subst f'. rewrite drop_ge; [|apply not_elem_of_nil]. apply (f_equal length) in Etk. rewrite length_take in Etk. lia. }
    apply (IH buf2 [] f'); [done|done|congruence|done|simpl; lia|apply not_elem_of_nil|done| |lia|].
    + rw /short_lines split_none //.
    + intros w' H1 H2. apply HQ; [|by apply Hdr]. 
      assert (NL ∉ d ++ f') as Hdf by (rewrite elem_of_app; by intros [?|?]). specialize (Hem w' _ H1).
      by rewrite (matching_none _ d) // (matching_none _ ([] ++ f')) // (matching_none _ (d ++ f')) in Hem |- *.
  - specialize (Hr2 Hnn). destruct (Nat.eqb_spec (length d - length r) 0); [lia|]. rewrite -Hld. destruct (Nat.ltb_spec 0 (length d)); [|lia].
    replace (length d - (length d - length r))%nat with (length r) by lia.
    assert (slice (length d - length r) (length r) buf2 = r) as -> by (rw /slice Hd2 take_app_length //).
    apply (IH _ r f'); [done|done| | | |apply split_rest| |by apply short_rest|lia|].
    + rw /splice. rewrite !length_app length_take length_drop. lia.
    + rw /splice /=. by rewrite take_app_length.
    + lia.
    + apply Forall_app. split; [|done]. destruct (split_suffix d) as [pre Ed]. rewrite Ed in Hzd. by apply Forall_app in Hzd as [_ Hzd].
    + intros w' H1 H2. apply HQ; [|by apply Hdr]. rewrite matching_app -/r. by apply Hem.
Qed.

(** ** Theorems *)

Definition anchored (re : list Z) : bool := bool_decide (head re = Some CARET).
Definition body (re : list Z) : list Z := if anchored re then drop 1 re else re.

(** C39: [match] terminates and decides the language of its expression: it answers 1 exactly when some part of the text is
    in the language of the expression, a part at the beginning if the expression starts with a caret and at the
    end if it ends with a dollar; a dot fits any character and a star any number of its character, none included. *)
Theorem match_decides_language re text :
  matches_re re text = true ↔ ∃ pre s post, text = pre ++ s ++ post ∧ lang (parse_re (body re)).1 s ∧
    (anchored re = true → pre = []) ∧ ((parse_re (body re)).2 = true → post = []).
Proof.
  assert (matches_re re text = if anchored re then matchhere (body re) text else match_any (body re) text) as ->.
  { rw /matches_re /body /anchored. destruct re as [|c re]; [done|]. cbn [head]. destruct (Z.eqb_spec c CARET) as [->|Hne]; [done|].
    rewrite bool_decide_eq_false_2 //. by intros [= ->]. }
  destruct (anchored re); [rewrite matchhere_spec|rewrite match_any_spec].
  - split; [intros (s&rest&->&H&He); by exists [], s, rest|]. intros (pre&s&post&->&H&Hp&He). specialize (Hp eq_refl). subst pre. by exists s, post.
  - split; [intros (pre&mid&->&(s&rest&->&H&He)); by exists pre, s, rest|]. intros (pre&s&post&->&H&_&He). exists pre, (s ++ post). split; [done|]. by exists s, post.
Qed.

Lemma grep_wp pattern fd path f buf w (Q : unit → uworld → Prop) :
  ufds w !! fd = Some (path, Src (file_chunks f)) → is_sink 1 w → length buf = 1024%nat → Forall (λ c, c ≠ 0) f → short_lines f →
  (∀ w', emits w w' (matching pattern f) → drained fd path w w' → Q tt w') → wp (grep pattern buf fd) w Q.
Proof.
  intros Hfd Hs Hb Hz Hsh HQ. rw /grep. apply wp_bind, wp_gets. apply (grep_loop_wp pattern fd path _ buf [] f); [done..|simpl; lia|apply not_elem_of_nil|done|done| |done].
  rw /pending Hfd. destruct (file_chunks_ok f) as [_ ->]. lia.
Qed.


(** The standard input in two reads. *)
Definition uw_split : uworld := UWorld ∅ (<[0 := ([], Src [txt "ab"; txt "c" ++ [NL]])]> {[ 1 := ([], Sink) ]}) [] [].

(** A line that comes in two reads without a newline in the first is not searched: the buffer is emptied when it holds no
    newline, and [grep abc] prints nothing although its input is the line "abc". *)
Theorem grep_loses_split_line :
  matching (txt "abc") (txt "abc" ++ [NL]) = txt "abc" ++ [NL] ∧
  wp (grep_main (λ _, replicate 1024 0) [txt "grep"; txt "abc"]) uw_split (λ _ w', output 1 w' = []).
Proof. split; vm_compute; reflexivity. Qed.

(** *** Witness *)

Definition uw_file : uworld :=
  UWorld {[ txt "a" := (UStat 2 5 14, txt "abc" ++ [NL] ++ txt "xyz" ++ [NL] ++ txt "aXc" ++ [NL] ++ txt "a") ]} {[ 1 := ([], Sink) ]} [] [].

