(* ===== verification/Uthread.v ===== *)
(** * User-level threads (xv6/uthreadlib.c, uthread_switch.S, uthread.c).

    The table of eight threads, the scheduler and the switch, and the program that runs threads that yield in turn.
    While there are at least two threads the library implements a first-in first-out queue of runnable threads, and
    the program runs every thread to its end; a thread left alone is abandoned at its first yield, and with the
    table full a new thread is created outside it. *)
From S2P Require Import Prelude Numbers User.
Local Open Scope Z_scope.

(** ** State *)

Inductive tstate := FREE | RUNNING | RUNNABLE.
#[global] Instance tstate_eq_dec : EqDecision tstate.
Proof. solve_decision. Defined.

Definition MAX_THREAD : nat := 8.
Definition STACK_SIZE : Z := 8192.

(** Where a thread continues when it is switched to: at its function, or after the yield of a round. *)
Inductive point := Entry | Yielded (i : Z).
Record thread := Thread { t_sp : Z; t_state : tstate; t_point : point }.

Inductive event := Started (t : nat) | Round (t : nat) (i : Z) | Ended (t : nat) | NoRunnable | AllEnded.

(** [esp] is the stack pointer of the running thread. *)
Record uth := Uth { all_thread : list thread; current_thread : nat; next_thread : option nat; last_index : nat; esp : Z; trace : list event }.

Section Uthread.
(** The address of the table. *)
Context (base : Z).
Notation M := (K uth).

(** [&all_thread[i]] and the top of its stack; [sp], the stack and the state are 4, 8192 and 4 bytes. *)
Definition thread_addr (i : nat) : Z := base + (STACK_SIZE + 8) * Z.of_nat i.
Definition stack_top (i : nat) : Z := thread_addr i + 4 + STACK_SIZE.

Definition upd_thread (i : nat) (f : thread → thread) : M unit :=
  s ← get;
  match all_thread s !! i with
  | None => undef "all_thread"
  | Some t => put (Uth (<[i := f t]> (all_thread s)) (current_thread s) (next_thread s) (last_index s) (esp s) (trace s))
  end.
Definition set_state (x : tstate) (t : thread) : thread := Thread (t_sp t) x (t_point t).
Definition set_current (i : nat) : M unit :=
  modify (λ s, Uth (all_thread s) i (next_thread s) (last_index s) (esp s) (trace s)).
Definition set_next (i : option nat) : M unit :=
  modify (λ s, Uth (all_thread s) (current_thread s) i (last_index s) (esp s) (trace s)).
Definition set_last (i : nat) : M unit :=
  modify (λ s, Uth (all_thread s) (current_thread s) (next_thread s) i (esp s) (trace s)).
Definition set_esp (x : Z) : M unit :=
  modify (λ s, Uth (all_thread s) (current_thread s) (next_thread s) (last_index s) x (trace s)).
Definition emit (e : event) : M unit :=
  modify (λ s, Uth (all_thread s) (current_thread s) (next_thread s) (last_index s) (esp s) (trace s ++ [e])).

(** ** The library *)

Definition thread_init : M unit :=
  _ ← set_current 0;
  upd_thread 0 (set_state RUNNING).

(** The registers go to the stack of the thread that leaves and come from the stack of the next one; [p] is where the
    thread that leaves continues.  [pusha] takes 32 bytes, the return address 4. *)
Definition thread_switch (p : point) : M unit :=
  s ← get;
  match next_thread s with
  | None => undef "next_thread"
  | Some n =>
      _ ← upd_thread (current_thread s) (λ t, Thread (esp s - 32) (t_state t) p);
      l ← gets all_thread;
      match l !! n with
      | None => undef "next_thread"
      | Some t =>
          _ ← set_esp (t_sp t + 32 + 4);
          _ ← set_current n;
          set_next None
      end
  end.

Definition state_at (s : uth) (i : nat) : option tstate := t_state <$> all_thread s !! i.

(** The last index the loop looks at is inside the table, so the test of [t] after it never holds. *)
Definition thread_schedule (p : point) : M unit :=
  _ ← set_next None;
  _ ← for_break (seq 1 (MAX_THREAD - 1)) (λ i,
        s ← get;
        let indice := ((last_index s + i) mod MAX_THREAD)%nat in
        if bool_decide (state_at s indice = Some RUNNABLE) && negb (indice =? current_thread s)%nat then
          _ ← set_next (Some indice);
          _ ← set_last indice;
          mret (Some tt)
        else mret None);
  s ← get;
  _ ← (match next_thread s with
       | None => _ ← emit NoRunnable; set_next (Some 0%nat)
       | Some _ => mret tt
       end);
  s ← get;
  match next_thread s with
  | None => undef "next_thread"
  | Some n =>
      if negb (current_thread s =? n)%nat then
        _ ← upd_thread n (set_state RUNNING);
        thread_switch p
      else set_next None
  end.

(** The first thread that is free, or the one after the table. *)
Definition free_slot (l : list thread) : nat := default MAX_THREAD (fst <$> list_find (λ t, t_state t = FREE) l).
Definition thread_create : M unit :=
  l ← gets all_thread;
  let i := free_slot l in
  upd_thread i (λ _, Thread (stack_top i - 4 - 32) RUNNABLE Entry).

Definition thread_yield (p : point) : M unit :=
  c ← gets current_thread;
  _ ← upd_thread c (set_state RUNNABLE);
  thread_schedule p.
Definition thread_exit : M unit :=
  c ← gets current_thread;
  _ ← upd_thread c (set_state FREE);
  thread_schedule Entry.

(** ** The program *)

Section Program.
Context (numexecs : Z).

(** [mythread] from round [i] to its next call of the scheduler. *)
Definition mythread_from (i : Z) : M unit :=
  c ← gets current_thread;
  if i <? numexecs then
    _ ← emit (Round c i);
    thread_yield (Yielded i)
  else
    _ ← emit (Ended c);
    thread_exit.

(** The running thread continues; thread 0 is [main], after its call of the scheduler. *)
Fixpoint run (fuel : nat) : M unit :=
  match fuel with
  | O => undef "run"
  | S k =>
      s ← get;
      match current_thread s, all_thread s !! current_thread s with
      | O, _ => emit AllEnded
      | c, Some t =>
          _ ← match t_point t with
              | Entry => _ ← emit (Started c); mythread_from 0
              | Yielded i => mythread_from (i + 1)
              end;
          run k
      | _, None => undef "current_thread"
      end
  end.

(** A thread is switched to at most once for each round and once more. *)
Definition main (numthreads : Z) : M unit :=
  _ ← thread_init;
  _ ← for_each (range 0 numthreads) (λ _, thread_create);
  _ ← thread_schedule Entry;
  run (S (Z.to_nat (numthreads * (numexecs + 1)))).
End Program.
End Uthread.

Definition uth0 : uth := Uth (replicate MAX_THREAD (Thread 0 FREE Entry)) 0 None 0 0 [].

(** ** The queue of runnable threads *)

(** Indices after [c] in the order the scheduler looks at them. *)
Definition ring_after (c : nat) : list nat := (λ i, (c + i) mod MAX_THREAD)%nat <$> seq 1 (MAX_THREAD - 1).
Definition bits (l : list thread) : list bool := (λ t, bool_decide (t_state t = RUNNABLE)) <$> l.
(** The runnable threads, in that order. *)
Definition queued (c : nat) (bs : list bool) : list nat := filter (λ i, bs !! i = Some true) (ring_after c).

Fixpoint all_bits (n : nat) : list (list bool) :=
  match n with O => [[]] | S k => (cons true <$> all_bits k) ++ (cons false <$> all_bits k) end.
Lemma all_bits_complete bs : bs ∈ all_bits (length bs).
Proof.
  induction bs as [|b bs IH]; cbn [length all_bits]; [by apply list_elem_of_singleton|]. apply elem_of_app. destruct b; [left|right]; by apply list_elem_of_fmap_2.
Qed.

(** Taking the head of the queue: its thread is no longer runnable, and the one that leaves goes to the end if it is. *)
Definition advance_ok (c : nat) (bs : list bool) : bool :=
  match queued c bs with
  | [] => true
  | n :: rest => bool_decide (queued n (<[n := false]> bs) = rest ++ (if decide (bs !! c = Some true) then [c] else []) ∧ n ≠ c ∧ (n < 8)%nat ∧ bs !! n = Some true)
  end.
Lemma advance_checked : forallb (λ c, forallb (advance_ok c) (all_bits 8)) (seq 0 8) = true.
Proof. vm_compute. reflexivity. Qed.

Lemma advance c bs n rest : (c < 8)%nat → length bs = 8%nat → queued c bs = n :: rest →
  queued n (<[n := false]> bs) = rest ++ (if decide (bs !! c = Some true) then [c] else []) ∧ n ≠ c ∧ (n < 8)%nat ∧ bs !! n = Some true.
Proof.
  intros Hc Hl Hq. pose proof advance_checked as H. rewrite forallb_forall in H. specialize (H c ltac:(apply in_seq; lia)). rewrite forallb_forall in H.
  pose proof (all_bits_complete bs) as Hin. rewrite Hl in Hin. specialize (H bs ltac:(by apply list_elem_of_In)). rw /advance_ok Hq in H. by apply bool_decide_eq_true in H.
Qed.

Lemma ring_ne c : (c < 8)%nat → Forall (λ i, ((c + i) mod MAX_THREAD)%nat ≠ c) (seq 1 (MAX_THREAD - 1)).
Proof.
  intros Hc. apply Forall_forall. intros i Hi. apply list_elem_of_In, in_seq in Hi. rw /MAX_THREAD in Hi |- *.
  pose proof (Nat.div_mod_eq (c + i) 8). pose proof (Nat.mod_upper_bound (c + i) 8). lia.
Qed.

Lemma queued_self c bs b : (c < 8)%nat → queued c (<[c := b]> bs) = queued c bs.
Proof.
  intros Hc. rw /queued. assert (Forall (λ i, i ≠ c) (ring_after c)) as Hr by (rw /ring_after; apply Forall_fmap, ring_ne, Hc).
  induction Hr as [|i l Hi Hr IH]; [done|]. rewrite !filter_cons IH list_lookup_insert_ne; [congruence|done].
Qed.

(** ** The scheduler *)

Section Sched.
Context (base : Z).
Implicit Types s : uth.

Definition with_threads (l : list thread) s : uth := Uth l (current_thread s) (next_thread s) (last_index s) (esp s) (trace s).

Lemma upd_thread_wp i f s t (Q : unit → uth → Prop) : all_thread s !! i = Some t → Q tt (with_threads (<[i := f t]> (all_thread s)) s) → wp (upd_thread i f) s Q.
Proof. intros Ht HQ. rw /upd_thread. apply wp_bind, wp_get. rewrite Ht. by apply wp_put. Qed.

Lemma bits_lookup l i t : l !! i = Some t → bits l !! i = Some (bool_decide (t_state t = RUNNABLE)).
Proof. intros H. by rewrite /bits list_lookup_fmap H. Qed.
Lemma state_bits s i : bool_decide (state_at s i = Some RUNNABLE) = bool_decide (bits (all_thread s) !! i = Some true).
Proof.
  rw /state_at /bits list_lookup_fmap. destruct (all_thread s !! i) as [t|]; [|done]. cbn [fmap option_fmap option_map].
  destruct (decide (t_state t = RUNNABLE)) as [E|E]; [rewrite !bool_decide_eq_true_2 //; congruence|]. rewrite !bool_decide_eq_false_2 //; congruence.
Qed.

(** The search: the head of the queue, which is also remembered. *)
Definition found s (q : list nat) : uth :=
  match q with [] => s | n :: _ => Uth (all_thread s) (current_thread s) (Some n) n (esp s) (trace s) end.

Lemma search_wp l s : last_index s = current_thread s → Forall (λ i, ((current_thread s + i) mod MAX_THREAD)%nat ≠ current_thread s) l →
  wp (for_break l (λ i,
        s ← get;
        let indice := ((last_index s + i) mod MAX_THREAD)%nat in
        if bool_decide (state_at s indice = Some RUNNABLE) && negb (indice =? current_thread s)%nat then
          _ ← set_next (Some indice);
          _ ← set_last indice;
          mret (Some tt)
        else mret None)) s
     (λ _ s', s' = found s (filter (λ i, bits (all_thread s) !! i = Some true) ((λ i, (current_thread s + i) mod MAX_THREAD)%nat <$> l))).
Proof.
  intros Hl Hne. induction Hne as [|i l Hi Hne IH]; [by apply wp_ret|]. cbn [for_break fmap list_fmap]. apply wp_bind, wp_bind, wp_get. cbv zeta. rewrite Hl state_bits.
  destruct (Nat.eqb_spec ((current_thread s + i) mod MAX_THREAD) (current_thread s)); [done|]. rewrite andb_true_r filter_cons.
  destruct (decide (bits (all_thread s) !! ((current_thread s + i) mod MAX_THREAD)%nat = Some true)) as [E|E].
  - by rewrite bool_decide_eq_true_2.
  - rewrite bool_decide_eq_false_2 //.
Qed.

(** A queue that is not empty: its head runs, and the thread that leaves keeps its place in its stack. *)
Lemma schedule_wp p s c n rest t tn (Q : unit → uth → Prop) :
  current_thread s = c → last_index s = c → (c < 8)%nat → length (all_thread s) = 8%nat → queued c (bits (all_thread s)) = n :: rest →
  all_thread s !! c = Some t → all_thread s !! n = Some tn →
  Q tt (Uth (<[c := Thread (esp s - 32) (t_state t) p]> (<[n := set_state RUNNING tn]> (all_thread s))) n None n (t_sp tn + 32 + 4) (trace s)) →
  wp (thread_schedule p) s Q.
Proof.
  intros Hc Hl H8 Hlen Hq Ht Htn HQ. destruct (advance c (bits (all_thread s)) n rest H8) as (_&Hne&Hn8&_); [by rewrite /bits length_fmap|done|].
  rw /thread_schedule. apply wp_bind, wp_modify. set (s0 := Uth _ _ _ _ _ _).
  assert (Forall (λ i, ((current_thread s0 + i) mod MAX_THREAD)%nat ≠ current_thread s0) (seq 1 (MAX_THREAD - 1))) as Hr.
  { cbn [s0 current_thread]. rewrite Hc. apply ring_ne. lia. }
  apply wp_bind. eapply wp_mono; [apply (search_wp _ s0); [cbn; congruence|exact Hr]|]. intros _ s' ->.
  change (filter _ _) with (queued (current_thread s) (bits (all_thread s))). rewrite Hc Hq. cbn [found s0 all_thread current_thread esp trace].
  apply wp_bind, wp_get. cbn [next_thread]. apply wp_bind, wp_ret, wp_bind, wp_get. cbn [next_thread current_thread]. rewrite Hc.
  destruct (Nat.eqb_spec c n); [congruence|]. cbn [negb]. apply wp_bind, (upd_thread_wp n _ _ tn); [done|].
  rw /thread_switch. apply wp_bind, wp_get. cbn [next_thread with_threads current_thread all_thread].
  apply wp_bind, (upd_thread_wp c _ _ t); [cbn; by rewrite list_lookup_insert_ne|]. apply wp_bind, wp_gets. cbn [with_threads all_thread].
  rewrite list_lookup_insert_ne; [done|]. rewrite list_lookup_insert_eq; [by apply lookup_lt_Some in Htn|].
  apply wp_bind, wp_modify, wp_bind, wp_modify, wp_modify. exact HQ.
Qed.

(** An empty queue: back to thread 0, whatever the state of the thread that leaves. *)
Lemma schedule_none_wp p s c t t0 (Q : unit → uth → Prop) :
  current_thread s = c → last_index s = c → (0 < c < 8)%nat → length (all_thread s) = 8%nat → queued c (bits (all_thread s)) = [] →
  all_thread s !! c = Some t → all_thread s !! 0%nat = Some t0 →
  (∀ s', current_thread s' = 0%nat → trace s' = trace s ++ [NoRunnable] → Q tt s') → wp (thread_schedule p) s Q.
Proof.
  intros Hc Hl H8 Hlen Hq Ht Ht0 HQ. rw /thread_schedule. apply wp_bind, wp_modify. set (s0 := Uth _ _ _ _ _ _).
  assert (Forall (λ i, ((current_thread s0 + i) mod MAX_THREAD)%nat ≠ current_thread s0) (seq 1 (MAX_THREAD - 1))) as Hr.
  { cbn [s0 current_thread]. rewrite Hc. apply ring_ne. lia. }
  apply wp_bind. eapply wp_mono; [apply (search_wp _ s0); [cbn; congruence|exact Hr]|]. intros _ s' ->.
  change (filter _ _) with (queued (current_thread s) (bits (all_thread s))). rewrite Hc Hq. cbn [found].
  apply wp_bind, wp_get. cbn [s0 next_thread]. apply wp_bind, wp_bind, wp_modify, wp_modify, wp_bind, wp_get. cbn [next_thread current_thread]. rewrite Hc.
  destruct (Nat.eqb_spec c 0); [lia|]. cbn [negb]. apply wp_bind, (upd_thread_wp 0 _ _ t0); [done|].
  rw /thread_switch. apply wp_bind, wp_get. cbn [next_thread with_threads current_thread all_thread].
  apply wp_bind, (upd_thread_wp c _ _ t); [cbn; rewrite list_lookup_insert_ne; [lia|done]|]. apply wp_bind, wp_gets. cbn [with_threads all_thread].
  rewrite list_lookup_insert_ne; [lia|]. rewrite list_lookup_insert_eq; [by apply lookup_lt_Some in Ht0|].
  apply wp_bind, wp_modify, wp_bind, wp_modify, wp_modify. by apply HQ.
Qed.
End Sched.

(** ** Turns of the program *)

Lemma bits_insert l i t : bits (<[i := t]> l) = <[i := bool_decide (t_state t = RUNNABLE)]> (bits l).
Proof. rw /bits. by rewrite list_fmap_insert. Qed.

(** Where a thread that has finished [j] rounds continues. *)
Definition at_round (j : Z) : point := if j =? 0 then Entry else Yielded (j - 1).

(** Thread [c] runs and [q] waits, in this order; [ix] counts finished rounds. *)
Record turn_of (s : uth) (c : nat) (q : list nat) (ix : nat → Z) : Prop := {
  to_current : current_thread s = c;
  to_last : last_index s = c;
  to_range : (0 < c < 8)%nat;
  to_length : length (all_thread s) = 8%nat;
  to_queue : queued c (bits (all_thread s)) = q;
  to_main : 0%nat ∉ q;
  to_points : ∀ t, t ∈ c :: q → 0 ≤ ix t ∧ ∃ th, all_thread s !! t = Some th ∧ t_point th = at_round (ix t)
}.

Section Turns.
Context (numexecs : Z).
Implicit Types s : uth.

Definition start_event (c : nat) (j : Z) : list event := if j =? 0 then [Started c] else [].

(** What a thread does from the point where it was left to the scheduler. *)
Lemma turn_wp f s c q ix (Q : unit → uth → Prop) :
  turn_of s c q ix →
  (let s1 := Uth (all_thread s) c (next_thread s) c (esp s) (trace s ++ start_event c (ix c)) in
   wp (mythread_from numexecs (ix c)) s1 (λ _ s2, wp (run numexecs f) s2 Q)) →
  wp (run numexecs (S f)) s Q.
Proof.
  intros [Hc Hl Hr Hlen Hq Hm Hp] HQ. destruct (Hp c (list_elem_of_here _ _)) as (H0&th&Hth&Hpt). cbn [run]. apply wp_bind, wp_get. rewrite Hc Hth.
  destruct c as [|c']; [lia|]. set (c := S c') in *. rewrite Hpt. apply wp_bind. rw /at_round /start_event in HQ |- *. destruct (Z.eqb_spec (ix c) 0) as [E|Hne].
  - apply wp_bind, wp_modify. rewrite E in HQ. destruct s; simpl in *; subst. exact HQ.
  - rewrite Z.sub_add. rewrite app_nil_r in HQ. destruct s; simpl in *; subst. exact HQ.
Qed.

Lemma queue_ne c l q t : (c < 8)%nat → queued c (bits l) = q → t ∈ q → t ≠ c.
Proof.
  intros Hc <- Ht ->. rw /queued in Ht. apply list_elem_of_filter in Ht as [_ Ht]. rw /ring_after in Ht. apply list_elem_of_fmap in Ht as (i&E&Hi).
  pose proof (ring_ne c Hc) as Hr. rewrite Forall_forall in Hr. by apply (Hr i Hi).
Qed.

(** A turn that yields: the thread goes to the end of the queue. *)
Lemma turn_yields f s c n q ix (Q : unit → uth → Prop) :
  turn_of s c (n :: q) ix → ix c < numexecs →
  (∀ s', turn_of s' n (q ++ [c]) (λ t, if decide (t = c) then ix c + 1 else ix t) →
    trace s' = trace s ++ start_event c (ix c) ++ [Round c (ix c)] → wp (run numexecs f) s' Q) →
  wp (run numexecs (S f)) s Q.
Proof.
  intros Ht Hk HQ. apply (turn_wp f s c (n :: q) ix); [done|]. destruct Ht as [Hc Hl Hr Hlen Hq Hm Hp].
  destruct (Hp c (list_elem_of_here _ _)) as (H0&th&Hth&Hpt). destruct (Hp n ltac:(set_solver)) as (Hn0&tn&Htn&Hnt).
  pose proof (queue_ne c _ _ n ltac:(lia) Hq (list_elem_of_here _ _)) as Hne.
  cbv zeta. rw /mythread_from. apply wp_bind, wp_gets. cbn [current_thread]. destruct (Z.ltb_spec (ix c) numexecs); [|lia].
  apply wp_bind, wp_modify. cbn [all_thread current_thread next_thread last_index esp trace]. rw /thread_yield. apply wp_bind, wp_gets. cbn [current_thread].
  apply wp_bind, (upd_thread_wp c _ _ th); [done|]. set (l1 := <[c := set_state RUNNABLE th]> (all_thread s)).
  assert (bits l1 = <[c := true]> (bits (all_thread s))) as Eb1 by (rw /l1 bits_insert; by rewrite bool_decide_eq_true_2).
  assert (queued c (bits l1) = n :: q) as Hq1 by (rewrite Eb1 queued_self //; lia).
  assert (l1 !! c = Some (set_state RUNNABLE th)) as Hl1c by (apply list_lookup_insert_eq; lia).
  assert (l1 !! n = Some tn) as Hl1n by (rw /l1; rewrite list_lookup_insert_ne; [congruence|done]).
  assert (length l1 = 8%nat) as Hlen1 by (rw /l1; by rewrite length_insert).
  apply (schedule_wp _ _ c n q (set_state RUNNABLE th) tn); [done|done|lia|exact Hlen1|exact Hq1|exact Hl1c|exact Hl1n|].
  cbn [with_threads all_thread esp trace]. destruct (advance c (bits l1) n q ltac:(lia)) as (Hadv&_&Hn8&_); [by rewrite /bits length_fmap|done|].
  rewrite Eb1 list_lookup_insert_eq ?decide_True // in Hadv; [rewrite /bits length_fmap; lia|]. apply HQ; [|by rewrite -app_assoc].
  assert (0%nat ∉ q ∧ n ≠ 0%nat) as [Hm1 Hm2] by (apply not_elem_of_cons in Hm; naive_solver).
  split; cbn [current_thread last_index all_thread]; [done|done|lia|by rewrite !length_insert| | |].
  - rewrite bits_insert bits_insert Eb1. rewrite bool_decide_eq_true_2 //. rewrite bool_decide_eq_false_2 //. rewrite list_insert_insert_ne; [congruence|]. rewrite list_insert_insert_eq. exact Hadv.
  - rewrite elem_of_app list_elem_of_singleton. intros [?|?]; [done|lia].
  - intros t Hin. destruct (decide (t = c)) as [->|Htc].
    + split; [lia|]. eexists. rewrite list_lookup_insert_eq; [rewrite !length_insert; lia|]. split; [done|]. cbn. rw /at_round. destruct (Z.eqb_spec (ix c + 1) 0); [lia|]. f_equal. lia.
    + destruct (Hp t) as (Ht0&th'&Hth'&Hpt'); [set_solver|]. split; [done|]. rewrite list_lookup_insert_ne; [congruence|]. destruct (decide (t = n)) as [->|Htn'].
      * eexists. rewrite list_lookup_insert_eq; [rewrite length_insert; lia|]. split; [done|]. cbn. congruence.
      * rewrite list_lookup_insert_ne; [congruence|]. rw /l1. rewrite list_lookup_insert_ne; [congruence|]. by exists th'.
Qed.

(** A turn that ends the thread: the next one in the queue runs. *)
Lemma turn_ends f s c n q ix (Q : unit → uth → Prop) :
  turn_of s c (n :: q) ix → numexecs ≤ ix c →
  (∀ s', turn_of s' n q ix → trace s' = trace s ++ start_event c (ix c) ++ [Ended c] → wp (run numexecs f) s' Q) →
  wp (run numexecs (S f)) s Q.
Proof.
  intros Ht Hk HQ. apply (turn_wp f s c (n :: q) ix); [done|]. destruct Ht as [Hc Hl Hr Hlen Hq Hm Hp].
  destruct (Hp c (list_elem_of_here _ _)) as (H0&th&Hth&Hpt). destruct (Hp n ltac:(set_solver)) as (Hn0&tn&Htn&Hnt).
  pose proof (queue_ne c _ _ n ltac:(lia) Hq (list_elem_of_here _ _)) as Hne.
  cbv zeta. rw /mythread_from. apply wp_bind, wp_gets. cbn [current_thread]. destruct (Z.ltb_spec (ix c) numexecs); [lia|].
  apply wp_bind, wp_modify. cbn [all_thread current_thread next_thread last_index esp trace]. rw /thread_exit. apply wp_bind, wp_gets. cbn [current_thread].
  apply wp_bind, (upd_thread_wp c _ _ th); [done|]. set (l1 := <[c := set_state FREE th]> (all_thread s)).
  assert (bits l1 = <[c := false]> (bits (all_thread s))) as Eb1 by (rw /l1 bits_insert; by rewrite bool_decide_eq_false_2).
  assert (queued c (bits l1) = n :: q) as Hq1 by (rewrite Eb1 queued_self //; lia).
  assert (l1 !! c = Some (set_state FREE th)) as Hl1c by (apply list_lookup_insert_eq; lia).
  assert (l1 !! n = Some tn) as Hl1n by (rw /l1; rewrite list_lookup_insert_ne; [congruence|done]).
  assert (length l1 = 8%nat) as Hlen1 by (rw /l1; by rewrite length_insert).
  apply (schedule_wp _ _ c n q (set_state FREE th) tn); [done|done|lia|exact Hlen1|exact Hq1|exact Hl1c|exact Hl1n|].
  cbn [with_threads all_thread esp trace]. destruct (advance c (bits l1) n q ltac:(lia)) as (Hadv&_&Hn8&_); [by rewrite /bits length_fmap|done|].
  rewrite Eb1 list_lookup_insert_eq in Hadv; [rewrite /bits length_fmap; lia|]. change (if decide (Some false = Some true) then [c] else []) with (@nil nat) in Hadv. rewrite app_nil_r in Hadv. apply HQ; [|by rewrite -app_assoc].
  apply not_elem_of_cons in Hm as [Hm1 Hm2].
  split; cbn [current_thread last_index all_thread]; [done|done|lia|by rewrite !length_insert| |done|].
  - rewrite bits_insert bits_insert Eb1. rewrite bool_decide_eq_false_2 //. rewrite bool_decide_eq_false_2 //. rewrite list_insert_insert_ne; [congruence|]. rewrite list_insert_insert_eq. exact Hadv.
  - intros t Hin. assert (t ≠ c) as Htc by (apply (queue_ne c _ _ t ltac:(lia) Hq); set_solver).
    destruct (Hp t) as (Ht0&th'&Hth'&Hpt'); [set_solver|]. split; [done|]. rewrite list_lookup_insert_ne; [congruence|]. destruct (decide (t = n)) as [->|Htn'].
    + eexists. rewrite list_lookup_insert_eq; [rewrite length_insert; lia|]. split; [done|]. cbn. congruence.
    + rewrite list_lookup_insert_ne; [congruence|]. rw /l1. rewrite list_lookup_insert_ne; [congruence|]. by exists th'.
Qed.

(** The last thread: whatever it does, [main] goes on. *)
Lemma turn_last f s c ix (Q : unit → uth → Prop) :
  turn_of s c [] ix →
  (∀ s', trace s' = trace s ++ start_event c (ix c) ++ [if ix c <? numexecs then Round c (ix c) else Ended c; NoRunnable; AllEnded] → Q tt s') →
  wp (run numexecs (S (S f))) s Q.
Proof.
  intros Ht HQ. apply (turn_wp (S f) s c [] ix); [done|]. destruct Ht as [Hc Hl Hr Hlen Hq Hm Hp].
  destruct (Hp c (list_elem_of_here _ _)) as (H0&th&Hth&Hpt). destruct (lookup_lt_is_Some_2 (all_thread s) 0%nat) as [t0 Ht0]; [lia|].
  cbv zeta. rw /mythread_from. apply wp_bind, wp_gets. cbn [current_thread].
  assert (∀ x e p, x = RUNNABLE ∧ ix c < numexecs ∨ x = FREE ∧ numexecs ≤ ix c → e = (if ix c <? numexecs then Round c (ix c) else Ended c) →
    wp (_ ← upd_thread c (set_state x); thread_schedule p)
      (Uth (all_thread s) c (next_thread s) c (esp s) ((trace s ++ start_event c (ix c)) ++ [e])) (λ _ s2, wp (run numexecs (S f)) s2 Q)) as Hgo.
  { intros x e p Hx ->. apply wp_bind, (upd_thread_wp c _ _ th); [done|].
    apply (schedule_none_wp _ _ c (set_state x th) t0); cbn [with_threads current_thread last_index all_thread trace].
    - done.
    - done.
    - done.
    - by rewrite length_insert.
    - rewrite bits_insert queued_self //. lia.
    - apply list_lookup_insert_eq. lia.
    - rewrite list_lookup_insert_ne; [lia|done].
    - intros s' E1 E2. cbn [run]. apply wp_bind, wp_get. rewrite E1. apply wp_modify, HQ. cbn [trace]. rewrite E2 -!app_assoc //. }
  destruct (Z.ltb_spec (ix c) numexecs).
  - apply wp_bind, wp_modify. rw /thread_yield. apply wp_bind, wp_gets. apply (Hgo RUNNABLE); [by left|done].
  - apply wp_bind, wp_modify. rw /thread_exit. apply wp_bind, wp_gets. apply (Hgo FREE); [by right|done].
Qed.

(** What a round prints, and the end. *)
Definition round_events (ts : list nat) (j : Z) : list event := concat ((λ t, start_event t j ++ [Round t j]) <$> ts).
Definition end_events (ts : list nat) : list event := concat ((λ t, start_event t numexecs ++ [Ended t]) <$> ts) ++ [NoRunnable; AllEnded].

(** The rest of a round: [c] and [todo] have it before them, [fin] behind them. *)
Lemma round_rest j f : j < numexecs → ∀ todo c fin s ix (Q : unit → uth → Prop),
  turn_of s c (todo ++ fin) ix → todo ++ fin ≠ [] → (∀ t, t ∈ c :: todo → ix t = j) → (∀ t, t ∈ fin → ix t = j + 1) →
  (∀ s' n q ix', n :: q = fin ++ c :: todo → turn_of s' n q ix' → (∀ t, t ∈ n :: q → ix' t = j + 1) →
    trace s' = trace s ++ round_events (c :: todo) j → wp (run numexecs f) s' Q) →
  wp (run numexecs (length (c :: todo) + f)) s Q.
Proof.
  intros Hj. induction todo as [|d todo IH]; intros c fin s ix Q Ht Hne H1 H2 HQ; cbn [length Nat.add app] in *.
  - destruct fin as [|n q]; [done|]. pose proof (H1 c (list_elem_of_here _ _)) as Hc. pose proof (queue_ne c _ _ n ltac:(destruct Ht; lia) (to_queue _ _ _ _ Ht) (list_elem_of_here _ _)) as Hnc.
    apply (turn_yields f s c n q ix); [done|lia|]. intros s' Ht' Etr. refine (HQ s' n (q ++ [c]) _ eq_refl Ht' _ _).
    + intros t Hin. destruct (decide (t = c)); [lia|]. apply H2. set_solver.
    + rewrite Etr Hc /round_events. cbn [fmap list_fmap concat]. by rewrite app_nil_r.
  - pose proof (H1 c (list_elem_of_here _ _)) as Hc. apply (turn_yields _ s c d (todo ++ fin) ix); [done|lia|]. intros s' Ht' Etr. rewrite -app_assoc in Ht'.
    assert (∀ t, t ∈ d :: todo ++ fin → t ≠ c) as Hd by (intros t Hin; apply (queue_ne c _ _ t ltac:(destruct Ht; lia) (to_queue _ _ _ _ Ht) Hin)).
    apply (IH d (fin ++ [c]) s' _ Q Ht').
    + intros E. apply app_eq_nil in E as [_ E]. by apply app_eq_nil in E as [_ E].
    + intros t Hin. rewrite decide_False; [apply Hd; set_solver|apply H1; set_solver].
    + intros t Hin. destruct (decide (t = c)); [lia|]. apply H2. set_solver.
    + intros s2 n q ix' E Ht2 H2' Etr2. apply (HQ s2 n q ix'); [rewrite E -app_assoc //|done|done|]. rewrite Etr2 Etr Hc /round_events. cbn [fmap list_fmap concat]. by rewrite -!app_assoc.
Qed.

(** All rounds from [j] on. *)
Lemma rounds_wp f m : ∀ j c q s ix (Q : unit → uth → Prop),
  numexecs = j + Z.of_nat m → turn_of s c q ix → q ≠ [] → (∀ t, t ∈ c :: q → ix t = j) →
  (∀ s' ix', turn_of s' c q ix' → (∀ t, t ∈ c :: q → ix' t = numexecs) →
    trace s' = trace s ++ concat (round_events (c :: q) <$> range j numexecs) → wp (run numexecs f) s' Q) →
  wp (run numexecs (m * length (c :: q) + f)) s Q.
Proof.
  induction m as [|m IH]; intros j c q s ix Q Ek Ht Hne Hix HQ.
  - replace j with numexecs in Hix, HQ by lia. cbn [Nat.mul Nat.add]. apply (HQ s ix); [done|done|]. assert (range numexecs numexecs = []) as -> by (rw /range Z.sub_diag //). by rewrite app_nil_r.
  - assert (range j numexecs = j :: range (j + 1) numexecs) as Er. { rw /range. rewrite seqZ_cons; [lia|]. do 2 f_equal; lia. }
    rewrite Er in HQ. replace (S m * length (c :: q) + f)%nat with (length (c :: q) + (m * length (c :: q) + f))%nat by lia.
    apply (round_rest j _ ltac:(lia) q c [] s ix); [by rewrite app_nil_r|by rewrite app_nil_r|done|set_solver|]. intros s' n q' ix' [= -> ->] Ht' Hix' Etr.
    apply (IH (j + 1) c q s' ix'); [lia|done|done|done|]. intros s2 ix2 Ht2 Hix2 Etr2. apply (HQ s2 ix2); [done|done|]. rewrite Etr2 Etr. cbn [fmap list_fmap concat]. by rewrite app_assoc.
Qed.

(** Everyone has done all rounds: the threads end in order. *)
Lemma finish_wp f q : ∀ c s ix (Q : unit → uth → Prop),
  turn_of s c q ix → (∀ t, t ∈ c :: q → ix t = numexecs) → (∀ s', trace s' = trace s ++ end_events (c :: q) → Q tt s') →
  wp (run numexecs (S (length (c :: q)) + f)) s Q.
Proof.
  induction q as [|n q IH]; intros c s ix Q Ht Hix HQ; pose proof (Hix c (list_elem_of_here _ _)) as Hc; cbn [length Nat.add] in *.
  - apply (turn_last f s c ix); [done|]. intros s' Etr. apply HQ. rewrite Etr Hc Z.ltb_irrefl /end_events. cbn [fmap list_fmap concat]. by rewrite app_nil_r -app_assoc.
  - apply (turn_ends _ s c n q ix); [done|lia|]. intros s' Ht' Etr. apply (IH n s' ix); [done|intros t Hin; apply Hix; set_solver|]. intros s2 Etr2. apply HQ.
    rewrite Etr2 Etr Hc /end_events. cbn [fmap list_fmap concat]. by rewrite -!app_assoc.
Qed.
End Turns.

(** ** Creating the threads *)

Definition created base (n : Z) : K uth unit :=
  _ ← thread_init;
  _ ← for_each (range 0 n) (λ _, thread_create base);
  thread_schedule Entry.

Lemma main_created base numexecs n s (Q : unit → uth → Prop) :
  wp (created base n ≫= λ _, run numexecs (S (Z.to_nat (n * (numexecs + 1))))) s Q → wp (main base numexecs n) s Q.
Proof.
  rw /main /created /wp /mbind /K_bind. destruct (thread_init s) as [[] s1| | |]; try done.
  by destruct (for_each (range 0 n) (λ _, thread_create base) s1).
Qed.

(** The first thread runs, the others wait in order, and none has started. *)
Definition created_ok (m : nat) (r : outcome uth unit) : bool :=
  match r with
  | Ret _ s =>
      bool_decide (current_thread s = 1%nat ∧ last_index s = 1%nat ∧ length (all_thread s) = 8%nat ∧ queued 1 (bits (all_thread s)) = seq 2 (m - 1)) &&
      forallb (λ t, match all_thread s !! t with Some th => match t_point th with Entry => true | _ => false end | None => false end) (seq 1 m) &&
      match trace s with [] => true | _ => false end
  | _ => false
  end.

Lemma created_checked base m : (1 ≤ m ≤ 7)%nat → created_ok m (created base (Z.of_nat m) uth0) = true.
Proof.
  intros Hm. assert (m = 1 ∨ m = 2 ∨ m = 3 ∨ m = 4 ∨ m = 5 ∨ m = 6 ∨ m = 7)%nat as Hcases by lia.
  destruct Hcases as [->|[->|[->|[->|[->|[->| ->]]]]]]; vm_compute; reflexivity.
Qed.

Lemma created_wp base m (Q : unit → uth → Prop) : (1 ≤ m ≤ 7)%nat →
  (∀ s, turn_of s 1 (seq 2 (m - 1)) (λ _, 0) → trace s = [] → Q tt s) → wp (created base (Z.of_nat m)) uth0 Q.
Proof.
  intros Hm HQ. pose proof (created_checked base m Hm) as H. rw /wp. destruct (created base (Z.of_nat m) uth0) as [[] s| | |]; try done. cbn [created_ok] in H.
  apply andb_prop in H as [[H1%bool_decide_eq_true H2]%andb_prop H3]. destruct H1 as (E1&E2&E3&E4). destruct (trace s) eqn:Etr; [|done]. apply HQ; [|done].
  rewrite forallb_forall in H2. split; [done|done|lia|done|done| |].
  - rewrite elem_of_seq. lia.
  - intros t Ht. split; [done|]. assert (t ∈ seq 1 m) as Hin by (rewrite elem_of_cons !elem_of_seq in Ht |- *; lia). apply list_elem_of_In, H2 in Hin.
    destruct (all_thread s !! t) as [th|]; [|done]. exists th. split; [done|]. by destruct (t_point th).
Qed.

(** ** Theorems *)


(** A thread that is alone does not get past its first yield: [thread_schedule] finds no other runnable thread, takes
    thread 0 instead of the thread that yields, and [main] ends the program with the work of the thread undone. *)
Theorem lone_thread_abandoned base numexecs (Hk : 0 < numexecs) :
  wp (main base numexecs 1) uth0 (λ _ s', trace s' = [Started 1; Round 1 0; NoRunnable; AllEnded]).
Proof.
  apply main_created.
  apply wp_bind, (created_wp base 1); [lia|]. intros s Ht Etr. replace (S (Z.to_nat (1 * (numexecs + 1)))) with (S (S (Z.to_nat numexecs))) by lia.
  apply (turn_last numexecs _ s 1 (λ _, 0)); [done|]. intros s' Etr'. rewrite Etr' Etr. destruct (Z.ltb_spec 0 numexecs); [done|lia].
Qed.

(** The table has room for seven threads beside [main]; [thread_create] does not look for its end, and the eighth
    thread is written after the table. *)
Theorem eighth_thread_overflows base numexecs : main base numexecs 8 uth0 = Undef "all_thread".
Proof. vm_compute. reflexivity. Qed.

Lemma lone_thread_abandoned_witness : wp (main 0 5 1) uth0 (λ _ s', trace s' = [Started 1; Round 1 0; NoRunnable; AllEnded]).
Proof. exact (lone_thread_abandoned 0 5 ltac:(lia)). Defined.
