(* ===== verification/Bounded.v ===== *)
(** * The bounded buffer (lab-05/buf.c).

    A producer and a consumer share a ring of [size] integers with two semaphores and a mutex.  Every line of their
    loops that touches what they share is a step, and a run is any sequence of steps of the two threads.  In every
    run the consumer gets 0, 1, 2, ... in order, each number once; the threads are never in the critical section
    together; the indices stay in the ring; and until both are done one of them can take a step.
    The random pauses, what is printed about them and the destruction of the semaphores at the end are left out. *)
From S2P Require Import Prelude Numbers User.
Local Open Scope Z_scope.

(** ** The program *)

(** Where a thread is in the body of its loop; [Gone] after [pthread_exit]. *)
Inductive pc := Wait | Lock | Access | Unlock | Post | Gone.
#[global] Instance pc_eq_dec : EqDecision pc.
Proof. solve_decision. Defined.
Inductive tid := Producer | Consumer.
#[global] Instance tid_eq_dec : EqDecision tid.
Proof. solve_decision. Defined.

Record params := Params { wait_prod : Z; wait_cons : Z; items : Z; size : Z }.
(** The loop of a thread: where it is and its [i]. *)
Record loop := Loop { l_pc : pc; l_i : Z }.

Record bounded := Bounded {
  mutex : option tid;
  lleno : Z;
  vacio : Z;
  buf : list Z;
  prod : loop;
  cons_ : loop;
  reader_results : list Z;
  printed : list Z
}.

(** [sem_wait] blocks while the semaphore is 0. *)
Definition sem_wait (x : Z) : option Z := if 0 <? x then Some (x - 1) else None.

Section Threads.
Context (p : params).

(** The next position: the loop test comes after [i++]. *)
Definition next_i (i : Z) : loop := if i + 1 <? items p then Loop Wait (i + 1) else Loop Gone (i + 1).
Definition start_loop : loop := if 0 <? items p then Loop Wait 0 else Loop Gone 0.

Definition producer (s : bounded) : option bounded :=
  let i := l_i (prod s) in
  match l_pc (prod s) with
  | Wait =>
      v ← sem_wait (vacio s);
      Some (Bounded (mutex s) (lleno s) v (buf s) (Loop Lock i) (cons_ s) (reader_results s) (printed s))
  | Lock =>
      match mutex s with
      | Some _ => None
      | None => Some (Bounded (Some Producer) (lleno s) (vacio s) (buf s) (Loop Access i) (cons_ s) (reader_results s) (printed s))
      end
  | Access =>
      Some (Bounded (mutex s) (lleno s) (vacio s) (<[Z.to_nat (Z.rem i (size p)) := i]> (buf s)) (Loop Unlock i) (cons_ s) (reader_results s) (printed s))
  | Unlock => Some (Bounded None (lleno s) (vacio s) (buf s) (Loop Post i) (cons_ s) (reader_results s) (printed s))
  | Post => Some (Bounded (mutex s) (lleno s + 1) (vacio s) (buf s) (next_i i) (cons_ s) (reader_results s) (printed s))
  | Gone => None
  end.

(** After its loop the consumer prints what it read. *)
Definition consumer (s : bounded) : option bounded :=
  let i := l_i (cons_ s) in
  match l_pc (cons_ s) with
  | Wait =>
      v ← sem_wait (lleno s);
      Some (Bounded (mutex s) v (vacio s) (buf s) (prod s) (Loop Lock i) (reader_results s) (printed s))
  | Lock =>
      match mutex s with
      | Some _ => None
      | None => Some (Bounded (Some Consumer) (lleno s) (vacio s) (buf s) (prod s) (Loop Access i) (reader_results s) (printed s))
      end
  | Access =>
      c ← buf s !! Z.to_nat (Z.rem i (size p));
      Some (Bounded (mutex s) (lleno s) (vacio s) (buf s) (prod s) (Loop Unlock i) (reader_results s ++ [c]) (printed s))
  | Unlock => Some (Bounded None (lleno s) (vacio s) (buf s) (prod s) (Loop Post i) (reader_results s) (printed s))
  | Post =>
      let l := next_i i in
      Some (Bounded (mutex s) (lleno s) (vacio s + 1) (buf s) (prod s) l (reader_results s)
              (if decide (l_pc l = Gone) then reader_results s else printed s))
  | Gone => None
  end.

Definition tstep (t : tid) (s : bounded) : option bounded := match t with Producer => producer s | Consumer => consumer s end.

(** The shared state [main] builds; the buffer holds what [malloc] found. *)
Definition bounded0 (junk : list Z) : bounded := Bounded None 0 (size p) junk start_loop start_loop [] [].
End Threads.

(** The arguments of [main]: four numbers that must be positive, tested in the order of the code. *)
Definition main_args (argv : list (list Z)) : option params :=
  match argv with
  | [_; a1; a2; a3; a4] =>
      if c_atoi a1 <=? 0 then None
      else if c_atoi a2 <=? 0 then None
      else if c_atoi a3 <=? 0 then None
      else if c_atoi a4 <=? 0 then None
      else Some (Params (c_atoi a3) (c_atoi a4) (c_atoi a2) (c_atoi a1))
  | _ => None
  end.

Inductive bstep (p : params) (s : bounded) : bounded → Prop :=
  | BStep t s' : tstep p t s = Some s' → bstep p s s'.

(** ** Invariant *)

(** Items put in and taken out, semaphores held in between, by position in the loop. *)
Definition entered (l : loop) : Z := match l_pc l with Unlock | Post => 1 | _ => 0 end.
Definition reserved (l : loop) : Z := match l_pc l with Lock | Access | Unlock | Post => 1 | _ => 0 end.
Definition holds_mutex (l : loop) : bool := match l_pc l with Access | Unlock => true | _ => false end.
Definition produced (s : bounded) : Z := l_i (prod s) + entered (prod s).
Definition consumed (s : bounded) : Z := l_i (cons_ s) + entered (cons_ s).

Record bounded_inv (p : params) (s : bounded) : Prop := {
  bi_size : 0 < size p;
  bi_items : 0 < items p;
  bi_buf : length (buf s) = Z.to_nat (size p);
  bi_prod : 0 ≤ l_i (prod s) ≤ items p ∧ (l_i (prod s) = items p ↔ l_pc (prod s) = Gone);
  bi_cons : 0 ≤ l_i (cons_ s) ≤ items p ∧ (l_i (cons_ s) = items p ↔ l_pc (cons_ s) = Gone);
  (** free places are those not reserved, full places those announced *)
  bi_vacio : vacio s = size p - (l_i (prod s) + reserved (prod s)) + l_i (cons_ s);
  bi_lleno : lleno s = l_i (prod s) - (l_i (cons_ s) + reserved (cons_ s));
  bi_vacio0 : 0 ≤ vacio s;
  bi_lleno0 : 0 ≤ lleno s;
  bi_mutex : mutex s = if holds_mutex (prod s) then Some Producer else if holds_mutex (cons_ s) then Some Consumer else None;
  bi_exclusive : holds_mutex (prod s) = true → holds_mutex (cons_ s) = true → False;
  (** the ring holds the numbers put in and not given back *)
  bi_ring : ∀ j, l_i (cons_ s) ≤ j < produced s → buf s !! Z.to_nat (j mod size p) = Some j;
  bi_results : reader_results s = range 0 (consumed s);
  bi_printed : printed s = if decide (l_pc (cons_ s) = Gone) then range 0 (items p) else []
}.

Lemma range0_snoc n : 0 ≤ n → range 0 n ++ [n] = range 0 (n + 1).
Proof.
  intros Hn. rw /range !Z.sub_0_r. rewrite seqZ_app; [lia|lia|]. f_equal.
Qed.

(** Different numbers less than a turn apart are at different places. *)
Lemma mod_apart j i n : 0 < n → - n < j - i < n → j mod n = i mod n → j = i.
Proof.
  intros Hn Hd E. pose proof (Z.div_mod j n ltac:(lia)). pose proof (Z.div_mod i n ltac:(lia)). assert (j - i = n * (j / n - i / n)) by lia.
  assert (j / n - i / n = 0) by nia. lia.
Qed.

Section Inv.
Context (p : params).

Lemma next_i_range i : 0 ≤ i < items p → let l := next_i p i in l_i l = i + 1 ∧ 0 ≤ l_i l ≤ items p ∧ (l_i l = items p ↔ l_pc l = Gone) ∧
  entered l = 0 ∧ reserved l = 0 ∧ holds_mutex l = false.
Proof. intros Hi. rw /next_i. destruct (Z.ltb_spec (i + 1) (items p)); simpl; split_and!; try done; try lia; split; try done; lia. Qed.

Lemma producer_inv s s' : bounded_inv p s → producer p s = Some s' → bounded_inv p s'.
Proof.
  intros [Hsz Hit Hb [Hp1 Hp2] Hc Hv Hl Hv0 Hl0 Hm Hx Hr Hres Hpr] E. destruct s as [mu le va b [pp pi] [cp ci] rr pr].
  rw /produced /consumed /entered /reserved /holds_mutex in Hp1 Hp2 Hc Hv Hl Hm Hx Hr Hres. cbn [mutex lleno vacio buf prod cons_ reader_results printed l_pc l_i] in *.
  rw /producer in E. cbn [mutex lleno vacio buf prod cons_ reader_results printed l_pc l_i] in E. destruct pp.
  - rw /sem_wait in E. destruct (Z.ltb_spec 0 va); [|done]. simplify_eq/=. split; cbn; try done; try lia. split; [lia|]. split; [by intros ?%Hp2|done].
  - destruct mu; [done|]. simplify_eq/=. split; cbn; try done; try lia.
    + split; [lia|]. split; [by intros ?%Hp2|done].
    + intros _ Hcx. by destruct cp.
  - simplify_eq/=. assert (pi < items p) as Hlt by (destruct (decide (pi = items p)) as [E|]; [by apply Hp2 in E|lia]).
    split; cbn; try done; try lia.
    + by rewrite length_insert.
    + split; [lia|]. split; [by intros ?%Hp2|done].
    + rw /produced /entered /=. intros j Hj. rewrite Z.rem_mod_nonneg; [lia|lia|]. destruct (decide (j = pi)) as [->|Hne].
      * rewrite list_lookup_insert_eq //. pose proof (Z.mod_pos_bound pi (size p) Hsz). lia.
      * rewrite list_lookup_insert_ne; [|apply Hr; lia]. intros E. apply Hne. symmetry. pose proof (Z.mod_pos_bound pi (size p) Hsz). pose proof (Z.mod_pos_bound j (size p) Hsz).
        apply (mod_apart pi j (size p)); [lia| |lia]. destruct cp; lia.
  - simplify_eq/=. split; cbn; try done; try lia; [split; [lia|]; split; [by intros ?%Hp2|done]|]. destruct cp; done || by exfalso; apply Hx.
  - simplify_eq/=. assert (pi < items p) as Hlt by (destruct (decide (pi = items p)) as [E|]; [by apply Hp2 in E|lia]).
    destruct (next_i_range pi) as (F1&F2&F3&F4&F5&F6); [lia|].
    split; rw /produced /consumed; cbn; rewrite ?F1 ?F4 ?F5 ?F6; try done; try lia.
    + split; [lia|]. by rewrite -F1.
    + rw /reserved /=. lia.
    + intros j Hj. apply Hr. lia.
  - done.
Qed.

(** The consumer finds the number it is after. *)
Lemma consumer_inv s s' : bounded_inv p s → consumer p s = Some s' → bounded_inv p s'.
Proof.
  intros [Hsz Hit Hb Hp [Hc1 Hc2] Hv Hl Hv0 Hl0 Hm Hx Hr Hres Hpr] E. destruct s as [mu le va b [pp pi] [cp ci] rr pr].
  rw /produced /consumed /entered /reserved /holds_mutex in Hp Hc1 Hc2 Hv Hl Hm Hx Hr Hres Hpr. cbn [mutex lleno vacio buf prod cons_ reader_results printed l_pc l_i] in *.
  rw /consumer in E. cbn [mutex lleno vacio buf prod cons_ reader_results printed l_pc l_i] in E. destruct cp.
  - rw /sem_wait in E. destruct (Z.ltb_spec 0 le); [|done]. simplify_eq/=. split; rw /holds_mutex; cbn; try done; try lia.
    + split; [lia|]. split; [by intros ?%Hc2|done].
  - destruct mu; [done|]. simplify_eq/=. split; rw /holds_mutex; cbn; try done; try lia.
    + split; [lia|]. split; [by intros ?%Hc2|done].
    + by destruct pp.
    + intros Hpx _. by destruct pp.
  - assert (ci < pi) as Hlt by lia. assert (b !! Z.to_nat (Z.rem ci (size p)) = Some ci) as Ea.
    { rewrite (Z.rem_mod_nonneg ci (size p)); [lia|lia|]. apply Hr. destruct pp; lia. }
    rewrite Ea in E. simplify_eq/=. split; rw /holds_mutex; cbn; try done; try lia.
    + split; [lia|]. split; [by intros ?%Hc2|done].
    + rw /consumed /entered /=. rewrite Z.add_0_r. apply range0_snoc. lia.
  - simplify_eq/=. split; rw /holds_mutex; cbn; try done; try lia.
    + split; [lia|]. split; [by intros ?%Hc2|done].
    + destruct pp; done || by exfalso; apply Hx.
  - simplify_eq/=. assert (ci < items p) as Hlt by (destruct (decide (ci = items p)) as [E|]; [by apply Hc2 in E|lia]).
    destruct (next_i_range ci) as (F1&F2&F3&F4&F5&F6); [lia|].
    split; rw /produced /consumed; cbn; rewrite ?F1 ?F4 ?F5 ?F6; try done; try lia.
    + split; [lia|]. by rewrite -F1.
    + rw /reserved /=. lia.
    + intros j Hj. apply Hr. rw /entered /= in Hj. destruct pp; lia.
    + f_equal. lia.
    + destruct (decide (l_pc (next_i p ci) = Gone)) as [Eg|]; [|done]. apply F3 in Eg. rewrite -Eg F1. f_equal; lia.
  - done.
Qed.

Lemma bounded_start junk : 0 < size p → 0 < items p → length junk = Z.to_nat (size p) → bounded_inv p (bounded0 p junk).
Proof.
  intros Hs Hi Hj. rw /bounded0 /start_loop. destruct (Z.ltb_spec 0 (items p)); [|lia]. split; cbn; try done; try lia.
  - split; [lia|]. split; [lia|done].
  - split; [lia|]. split; [lia|done].
  - rw /produced /entered /=. lia.
Qed.

Lemma bounded_reach s s' : bounded_inv p s → rtc (bstep p) s s' → bounded_inv p s'.
Proof.
  intros Hi Hr. revert Hi. induction Hr as [|s s1 s2 [t s1' Ht] _ IH]; [done|]. intros Hi. apply IH. destruct t; [exact (producer_inv _ _ Hi Ht)|exact (consumer_inv _ _ Hi Ht)].
Qed.

(** Someone can go on. *)
Lemma bounded_progress s : bounded_inv p s → l_pc (prod s) = Gone ∧ l_pc (cons_ s) = Gone ∨ ∃ t s', tstep p t s = Some s'.
Proof.
  intros Hi. destruct (producer p s) as [s'|] eqn:Ep; [right; by exists Producer, s'|]. destruct (consumer p s) as [s'|] eqn:Ec; [right; by exists Consumer, s'|].
  left. destruct Hi as [Hsz Hit Hb [Hp1 Hp2] [Hc1 Hc2] Hv Hl Hv0 Hl0 Hm Hx Hr Hres Hpr]. destruct s as [mu le va b [pp pi] [cp ci] rr pr].
  rw /produced /entered /reserved /holds_mutex /producer /consumer /sem_wait in Hp1 Hp2 Hc1 Hc2 Hv Hl Hm Hr Ep Ec. cbn [mutex lleno vacio buf prod cons_ l_pc l_i] in *.
  assert (cp ≠ Access) as Hna.
  { intros ->. rewrite (Z.rem_mod_nonneg ci (size p)) in Ec; [lia|lia|]. rewrite Hr in Ec; [destruct pp; lia|done]. }
  destruct (Z.ltb_spec 0 va), (Z.ltb_spec 0 le); destruct pp, cp; try done; simplify_eq; try (by split); exfalso; try lia;
    repeat match goal with H : ?a = ?b ↔ ?x = ?x |- _ => pose proof (proj2 H eq_refl); clear H | H : _ = _ ↔ _ |- _ => pose proof (proj1 H); clear H end; try lia;
    match goal with H : ?a = ?b → _ = _ |- _ => assert (a = b) as E by lia; specialize (H E); done end.
Qed.
End Inv.

(** ** Theorem *)


(** A ring of one place and two items, run to the end in turns. *)
Definition demo : params := Params 1 1 2 1.
Fixpoint brun (ts : list tid) (s : bounded) : option bounded := match ts with [] => Some s | t :: ts => s' ← tstep demo t s; brun ts s' end.
Lemma brun_rtc ts : ∀ s s', brun ts s = Some s' → rtc (bstep demo) s s'.
Proof.
  induction ts as [|t ts IH]; intros s s' E; simpl in E; [simplify_eq; apply rtc_refl|]. destruct (tstep demo t s) as [s1|] eqn:Et; [|done].
  apply (rtc_l _ _ s1); [by exists t|by apply IH].
Qed.
Definition demo_schedule : list tid :=
  replicate 5 Producer ++ [Consumer; Consumer; Consumer; Consumer; Consumer] ++ replicate 5 Producer ++ replicate 5 Consumer.
Definition demo_end : bounded := default (bounded0 demo [7]) (brun demo_schedule (bounded0 demo [7])).

