(* ===== verification/WordStack.v ===== *)
(** * A stack of words in shared memory (lab-05/wordstack.c).

    Every run of the program works on a segment shared by name: it pushes a word, pops one, prints the stack, creates or
    removes it.  The steps between which other processes can run are the semaphore and mutex operations and the first
    look at [free]; a run of several processes is a sequence of such steps.  In every run the counters, the
    semaphores and the mutex agree and the heap is written inside its bounds; run one after the other, the calls
    implement a stack.  [pop] chooses its place before it waits, so with calls that overlap a word can be lost.
    Of the usage message only the first word is kept. *)
From S2P Require Import Prelude Numbers Layout User.
Local Open Scope Z_scope.

Definition ITEMS : Z := 3.
Definition MAX_WORD : Z := 50.
Definition BLANK : Z := 32.

(** [max_word] is never used.  [ws_locked] is the mutex. *)
Record wordstack := WordStack { ws_free : Z; ws_items : Z; ws_locked : bool; ws_full : Z; ws_empty : Z; ws_heap : list Z }.

(** [heap[r][i]], the rows one after the other. *)
Definition at_heap (r i : Z) : nat := Z.to_nat (r * MAX_WORD + i).

(** ** Steps *)

(** Where a process is. *)
Inductive wpc :=
  | PWait (word : list Z) | PLock (word : list Z) | PWrite (word : list Z) | PUnlock | PPost
  | RIndex | RWait (i : Z) | RLock (i : Z) | RTake (i : Z) | RUnlock (word : list Z) | RPost (word : list Z)
  | Done (word : option (list Z)).

(** The bytes of the word, without a zero; they run on into the next row when the word is longer than a row. *)
Definition write_word (word : list Z) (s : wordstack) : option wordstack :=
  if Z.of_nat (length (ws_heap s)) <? ws_free s * MAX_WORD + Z.of_nat (length word) then None
  else Some (WordStack (ws_free s + 1) (ws_items s + 1) (ws_locked s) (ws_full s) (ws_empty s) (splice (at_heap (ws_free s) 0) word (ws_heap s))).

(** The row is copied and blanked.  The zero goes into the byte after the array [word]. *)
Definition take_word (i : Z) (s : wordstack) : option (list Z * wordstack) :=
  let word := slice (at_heap i 0) (Z.to_nat MAX_WORD) (ws_heap s) in
  if negb (Z.of_nat (length word) =? MAX_WORD) then None
  else Some (word, WordStack (ws_free s - 1) (ws_items s - 1) (ws_locked s) (ws_full s) (ws_empty s)
                     (splice (at_heap i 0) (replicate (Z.to_nat MAX_WORD) BLANK) (ws_heap s))).

Definition with_sems (full empty : Z) (s : wordstack) : wordstack := WordStack (ws_free s) (ws_items s) (ws_locked s) full empty (ws_heap s).
Definition with_lock (b : bool) (s : wordstack) : wordstack := WordStack (ws_free s) (ws_items s) b (ws_full s) (ws_empty s) (ws_heap s).

(** One step of a process: [None] when it has to wait (or is done). *)
Definition wstep (c : wpc) (s : wordstack) : option (wpc * wordstack) :=
  match c with
  | PWait w => if 0 <? ws_empty s then Some (PLock w, with_sems (ws_full s) (ws_empty s - 1) s) else None
  | PLock w => if ws_locked s then None else Some (PWrite w, with_lock true s)
  | PWrite w => s' ← write_word w s; Some (PUnlock, s')
  | PUnlock => Some (PPost, with_lock false s)
  | PPost => Some (Done None, with_sems (ws_full s + 1) (ws_empty s) s)
  | RIndex => let i := ws_free s - 1 in Some (RWait (if i =? -1 then 0 else i), s)
  | RWait i => if 0 <? ws_full s then Some (RLock i, with_sems (ws_full s - 1) (ws_empty s) s) else None
  | RLock i => if ws_locked s then None else Some (RTake i, with_lock true s)
  | RTake i => '(w, s') ← take_word i s; Some (RUnlock w, s')
  | RUnlock w => Some (RPost w, with_lock false s)
  | RPost w => Some (Done (Some w), with_sems (ws_full s) (ws_empty s + 1) s)
  | Done _ => None
  end.

(** A process alone, until it is done or has to wait. *)
Fixpoint alone (fuel : nat) (c : wpc) (s : wordstack) : wpc * wordstack :=
  match fuel with
  | O => (c, s)
  | S k => match wstep c s with Some (c', s') => alone k c' s' | None => (c, s) end
  end.

(** What [-c] leaves in the segment, which the system clears. *)
Definition create : wordstack := WordStack 0 0 false 0 ITEMS (replicate (Z.to_nat (ITEMS * MAX_WORD)) 0).

(** ** The program *)

Record shm := Shm { segments : gmap (list Z) wordstack; console_out : list (list Z) }.
Definition say (l : list Z) : K shm unit := modify (λ w, Shm (segments w) (console_out w ++ [l])).
Definition set_segment (name : list Z) (s : wordstack) : K shm unit := modify (λ w, Shm (<[name := s]> (segments w)) (console_out w)).

(** A process that waits for a semaphore or the mutex stops there. *)
Definition run_alone (name : list Z) (c : wpc) : K shm (option (list Z)) :=
  w ← get;
  match segments w !! name with
  | None => undef "mmap"
  | Some s =>
      let '(c', s') := alone 7 c s in
      _ ← set_segment name s';
      match c' with
      | Done r => mret r
      | PWait _ | PLock _ | RWait _ | RLock _ => sleeps "wordstack"
      | _ => undef "heap"
      end
  end.

(** The rows from [free] to 0; the row [free] is the one after the top. *)
Fixpoint print_rows (k : nat) (s : wordstack) : option (list (list Z)) :=
  let row := slice (at_heap (Z.of_nat k) 0) (Z.to_nat MAX_WORD) (ws_heap s) in
  if negb (Z.of_nat (length row) =? MAX_WORD) then None
  else match k with
       | O => Some [row; []]
       | S k' => (row ::.) <$> print_rows k' s
       end.

(** The exit status. *)
Definition main (argv : list (list Z)) : K shm Z :=
  match argv with
  | _ :: opt :: args =>
      if negb (bool_decide (opt !! 0%nat = Some 45)) then _ ← say (txt "Uso"); mret 1
      else
        let option := default 0 (opt !! 1%nat) in
        w ← get;
        if option =? 119 then
          match args with
          | name :: word :: _ =>
              if bool_decide (segments w !! name = None) then _ ← say (txt "Error al abrir segmento de memoria compartida."); mret 1
              else
                _ ← run_alone name (PWait word);
                _ ← say (txt "Palabra " ++ word ++ txt " agregada a la pila " ++ name ++ txt ".");
                mret 0
          | _ => undef "argv"
          end
        else if option =? 114 then
          match args with
          | name :: _ =>
              r ← run_alone name RIndex;
              _ ← say (txt "Palabra eliminada de la pila " ++ name ++ txt ". La palabra era: " ++ cstring (default [] r));
              mret 0
          | _ => undef "argv"
          end
        else if option =? 112 then
          match args with
          | name :: _ =>
              match segments w !! name with
              | None => undef "mmap"
              | Some s =>
                  if ws_items s =? 0 then _ ← say (txt "Pila vacia."); mret 0
                  else match print_rows (Z.to_nat (ws_free s)) s with
                       | None => undef "heap"
                       | Some rows => _ ← for_each rows say; mret 0
                       end
              end
          | _ => undef "argv"
          end
        else if option =? 99 then
          match args with
          | name :: _ =>
              _ ← set_segment name (match segments w !! name with
                                    | Some s => WordStack 0 0 false 0 ITEMS (ws_heap s)
                                    | None => create
                                    end);
              _ ← say (txt "Memoria compartida " ++ name ++ txt " creada con exito.");
              mret 0
          | _ => undef "argv"
          end
        else if option =? 100 then
          match args with
          | name :: _ =>
              if bool_decide (segments w !! name = None) then undef "mmap"
              else
                _ ← modify (λ w, Shm (delete name (segments w)) (console_out w));
                _ ← say (txt "Memoria compartida " ++ name ++ txt " borrada con exito.");
                mret 0
          | _ => undef "argv"
          end
        else if option =? 104 then _ ← say (txt "Uso"); mret 0
        else _ ← say (txt "opcion desconocida"); mret 1
  | _ => _ ← say (txt "Uso"); mret 1
  end.

(** ** Several processes *)

(** The segment and the processes that use it. *)
Record wsys := WSys { w_stack : wordstack; w_procs : list wpc }.
Inductive wsys_step (y : wsys) : wsys → Prop :=
  | WSys_step i c c' s' : w_procs y !! i = Some c → wstep c (w_stack y) = Some (c', s') → wsys_step y (WSys s' (<[i := c']> (w_procs y))).

Definition total (f : wpc → Z) (l : list wpc) : Z := foldr (λ c a, f c + a) 0 l.

Lemma total_insert f l i c c' : l !! i = Some c → total f (<[i := c']> l) = total f l - f c + f c'.
Proof.
  revert i. induction l as [|d l IH]; intros [|i] H; simplify_eq/=; [lia|]. rewrite (IH i) //. lia.
Qed.
Lemma total_nonneg f l : (∀ c, 0 ≤ f c) → 0 ≤ total f l.
Proof. intros Hf. induction l as [|c l IH]; simpl; [lia|]. specialize (Hf c). lia. Qed.
Lemma total_one f l i c : (∀ c, 0 ≤ f c) → l !! i = Some c → f c ≤ total f l.
Proof.
  intros Hf. revert i. induction l as [|d l IH]; intros [|i] H; simplify_eq/=; [pose proof (total_nonneg f l Hf); lia|]. specialize (IH i H). specialize (Hf d). lia.
Qed.

(** Places reserved by a push and not yet filled, filled and not yet announced; the same for pops; the mutex. *)
Definition filling (c : wpc) : Z := match c with PLock _ | PWrite _ => 1 | _ => 0 end.
Definition filled (c : wpc) : Z := match c with PUnlock | PPost => 1 | _ => 0 end.
Definition taking (c : wpc) : Z := match c with RLock _ | RTake _ => 1 | _ => 0 end.
Definition taken (c : wpc) : Z := match c with RUnlock _ | RPost _ => 1 | _ => 0 end.
Definition locking (c : wpc) : Z := match c with PWrite _ | PUnlock | RTake _ | RUnlock _ => 1 | _ => 0 end.

Definition wpc_ok (c : wpc) : Prop :=
  match c with
  | PWait w | PLock w | PWrite w => Z.of_nat (length w) ≤ MAX_WORD
  | RWait i | RLock i | RTake i => 0 ≤ i < ITEMS
  | _ => True
  end.

Record wsys_inv (y : wsys) : Prop := {
  wi_heap : length (ws_heap (w_stack y)) = 150%nat;
  wi_items : ws_items (w_stack y) = ws_free (w_stack y);
  wi_empty : ws_empty (w_stack y) = ITEMS - ws_free (w_stack y) - total filling (w_procs y) - total taken (w_procs y);
  wi_full : ws_full (w_stack y) = ws_free (w_stack y) - total filled (w_procs y) - total taking (w_procs y);
  wi_empty0 : 0 ≤ ws_empty (w_stack y);
  wi_full0 : 0 ≤ ws_full (w_stack y);
  wi_lock : total locking (w_procs y) = if ws_locked (w_stack y) then 1 else 0;
  wi_procs : Forall wpc_ok (w_procs y)
}.

Lemma counts_nonneg c : 0 ≤ filling c ∧ 0 ≤ filled c ∧ 0 ≤ taking c ∧ 0 ≤ taken c ∧ 0 ≤ locking c.
Proof. by destruct c. Qed.

Lemma wsys_bounds y : wsys_inv y → 0 ≤ ws_free (w_stack y) ≤ ITEMS.
Proof.
  intros [H1 H2 H3 H4 H5 H6 H7 H8]. pose proof (total_nonneg filling (w_procs y) ltac:(apply counts_nonneg)). pose proof (total_nonneg filled (w_procs y) ltac:(apply counts_nonneg)).
  pose proof (total_nonneg taking (w_procs y) ltac:(apply counts_nonneg)). pose proof (total_nonneg taken (w_procs y) ltac:(apply counts_nonneg)). lia.
Qed.

(** Inside the critical section the place is free, or there is one to take. *)
Lemma write_in_bounds y i w : wsys_inv y → w_procs y !! i = Some (PWrite w) → Z.of_nat (length w) ≤ MAX_WORD ∧ 0 ≤ ws_free (w_stack y) < ITEMS.
Proof.
  intros Hi Hp. pose proof (wsys_bounds y Hi). destruct Hi as [H1 H2 H3 H4 H5 H6 H7 H8]. rewrite Forall_lookup in H8. specialize (H8 i _ Hp). split; [done|].
  pose proof (total_one filling (w_procs y) i _ ltac:(apply counts_nonneg) Hp) as Ho. simpl in Ho. pose proof (total_nonneg taken (w_procs y) ltac:(apply counts_nonneg)). lia.
Qed.
Lemma take_in_bounds y i j : wsys_inv y → w_procs y !! i = Some (RTake j) → 0 ≤ j < ITEMS ∧ 0 < ws_free (w_stack y).
Proof.
  intros Hi Hp. pose proof (wsys_bounds y Hi). destruct Hi as [H1 H2 H3 H4 H5 H6 H7 H8]. rewrite Forall_lookup in H8. specialize (H8 i _ Hp). split; [done|].
  pose proof (total_one taking (w_procs y) i _ ltac:(apply counts_nonneg) Hp) as Ho. simpl in Ho. pose proof (total_nonneg filled (w_procs y) ltac:(apply counts_nonneg)). lia.
Qed.

Lemma write_word_some w s : length (ws_heap s) = 150%nat → Z.of_nat (length w) ≤ MAX_WORD → 0 ≤ ws_free s < ITEMS →
  write_word w s = Some (WordStack (ws_free s + 1) (ws_items s + 1) (ws_locked s) (ws_full s) (ws_empty s) (splice (at_heap (ws_free s) 0) w (ws_heap s))) ∧
  length (splice (at_heap (ws_free s) 0) w (ws_heap s)) = 150%nat.
Proof.
  intros Hl Hw Hf. rw /MAX_WORD /ITEMS in Hw Hf. rw /write_word /MAX_WORD. destruct (Z.ltb_spec (Z.of_nat (length (ws_heap s))) (ws_free s * 50 + Z.of_nat (length w))); [lia|].
  split; [done|]. rewrite length_splice //. rw /at_heap /MAX_WORD. lia.
Qed.
Lemma take_word_some j s : length (ws_heap s) = 150%nat → 0 ≤ j < ITEMS →
  take_word j s = Some (slice (at_heap j 0) 50 (ws_heap s), WordStack (ws_free s - 1) (ws_items s - 1) (ws_locked s) (ws_full s) (ws_empty s)
    (splice (at_heap j 0) (replicate 50 BLANK) (ws_heap s))) ∧ length (splice (at_heap j 0) (replicate 50 BLANK) (ws_heap s)) = 150%nat.
Proof.
  intros Hl Hj. rw /ITEMS in Hj. rw /take_word. change (Z.to_nat MAX_WORD) with 50%nat. rewrite length_slice; [rw /at_heap /MAX_WORD; lia|]. cbn [negb].
  split; [done|]. rewrite length_splice //. rewrite length_replicate. rw /at_heap /MAX_WORD. lia.
Qed.

Lemma wsys_step_inv y y' : wsys_step y y' → wsys_inv y → wsys_inv y'.
Proof.
  intros [i c c' s' Hi Hs] Hinv. pose proof Hinv as [H1 H2 H3 H4 H5 H6 H7 H8]. pose proof (wsys_bounds y Hinv) as Hb.
  pose proof (λ f, total_insert f (w_procs y) i c c' Hi) as Ht. rewrite Forall_lookup in H8. pose proof (H8 i c Hi) as Hc.
  assert (∀ st, wpc_ok c' → length (ws_heap st) = 150%nat → ws_items st = ws_free st →
    ws_empty st = ITEMS - ws_free st - (total filling (w_procs y) - filling c + filling c') - (total taken (w_procs y) - taken c + taken c') →
    ws_full st = ws_free st - (total filled (w_procs y) - filled c + filled c') - (total taking (w_procs y) - taking c + taking c') →
    0 ≤ ws_empty st → 0 ≤ ws_full st → total locking (w_procs y) - locking c + locking c' = (if ws_locked st then 1 else 0) → wsys_inv (WSys st (<[i := c']> (w_procs y)))) as Hmk.
  { intros st K1 K2 K3 K4 K5 K6 K7 K8. split; cbn [w_stack w_procs]; rewrite ?Ht //. apply Forall_insert; [apply Forall_lookup; exact H8|done]. }
  destruct c; cbn [wstep] in Hs.
  - destruct (Z.ltb_spec 0 (ws_empty (w_stack y))); simplify_eq. apply Hmk; cbn; try done; lia.
  - destruct (ws_locked (w_stack y)) eqn:El; simplify_eq. apply Hmk; cbn; try done; lia.
  - destruct (write_in_bounds y i word Hinv Hi) as [Hw Hf]. destruct (write_word_some word (w_stack y) H1 Hw Hf) as [E El]. rewrite E in Hs. simplify_eq/=. apply Hmk; cbn; try done; lia.
  - simplify_eq. pose proof (total_one locking (w_procs y) i _ ltac:(apply counts_nonneg) Hi) as Ho. apply Hmk; cbn in *; try done; destruct (ws_locked (w_stack y)); lia.
  - simplify_eq. apply Hmk; cbn; try done; lia.
  - simplify_eq. apply Hmk; cbn; try done; try lia. rw /ITEMS in Hb |- *. destruct (Z.eqb_spec (ws_free (w_stack y) - 1) (-1)); lia.
  - destruct (Z.ltb_spec 0 (ws_full (w_stack y))); simplify_eq. apply Hmk; cbn; try done; lia.
  - destruct (ws_locked (w_stack y)) eqn:El; simplify_eq. apply Hmk; cbn; try done; lia.
  - destruct (take_in_bounds y i i0 Hinv Hi) as [Hw Hf]. destruct (take_word_some i0 (w_stack y) H1 Hw) as [E El]. rewrite E in Hs. simplify_eq/=. apply Hmk; cbn; try done; lia.
  - simplify_eq. pose proof (total_one locking (w_procs y) i _ ltac:(apply counts_nonneg) Hi) as Ho. apply Hmk; cbn in *; try done; destruct (ws_locked (w_stack y)); lia.
  - simplify_eq. apply Hmk; cbn; try done; lia.
  - done.
Qed.

Lemma wsys_reach y y' : rtc wsys_step y y' → wsys_inv y → wsys_inv y'.
Proof. induction 1; eauto using wsys_step_inv. Qed.

(** A new stack and processes about to push words that fit, or to pop. *)
Definition beginning (c : wpc) : Prop := match c with PWait w => Z.of_nat (length w) ≤ MAX_WORD | RIndex => True | _ => False end.
Lemma wsys_start l : Forall beginning l → wsys_inv (WSys create l).
Proof.
  intros Hl. assert (∀ f, (∀ c, beginning c → f c = 0) → total f l = 0) as Ht.
  { intros f Hf. induction Hl as [|c l Hc Hl IH]; [done|]. simpl. rewrite Hf // IH //. }
  assert (total filling l = 0 ∧ total taken l = 0 ∧ total filled l = 0 ∧ total taking l = 0 ∧ total locking l = 0) as (E1&E2&E3&E4&E5)
    by (split_and!; apply Ht; intros []; simpl; done).
  split; cbn [w_stack w_procs create ws_heap ws_items ws_free ws_empty ws_full ws_locked]; rewrite ?E1 ?E2 ?E3 ?E4 ?E5; try done.
  eapply Forall_impl; [exact Hl|]. intros []; simpl; done.
Qed.

(** ** One call after the other *)

(** No call is going on and [n] words are in the stack. *)
Record idle (s : wordstack) (n : nat) : Prop := {
  id_free : ws_free s = Z.of_nat n;
  id_items : ws_items s = Z.of_nat n;
  id_locked : ws_locked s = false;
  id_full : ws_full s = Z.of_nat n;
  id_empty : ws_empty s = ITEMS - Z.of_nat n;
  id_bound : (n ≤ 3)%nat;
  id_heap : length (ws_heap s) = 150%nat
}.

Definition row (h : list Z) (i : nat) : list Z := slice (50 * i) 50 h.
(** The rows of the stack, the top first. *)
Fixpoint rows (h : list Z) (n : nat) : list (list Z) := match n with O => [] | S k => row h k :: rows h k end.

Lemma row_splice_ne h i j v : (length v ≤ 50)%nat → (50 * S i ≤ length h)%nat → j ≠ i → row (splice (50 * i) v h) j = row h j.
Proof.
  intros Hv Hh Hne. rw /row /slice /splice. apply list_eq. intros k. destruct (decide (k < 50)%nat); [|rewrite !lookup_take_ge; lia || done].
  rewrite !lookup_take_lt // !lookup_drop. destruct (decide (j < i)%nat).
  - rewrite lookup_app_l; [rewrite length_take; lia|]. rewrite lookup_take_lt //. lia.
  - rewrite lookup_app_r; [rewrite length_take; lia|]. rewrite length_take lookup_app_r; [lia|]. rewrite lookup_drop. f_equal. lia.
Qed.
Lemma rows_splice h i n v : (length v ≤ 50)%nat → (50 * S i ≤ length h)%nat → (n ≤ i)%nat → rows (splice (50 * i) v h) n = rows h n.
Proof. intros Hv Hh. induction n as [|n IH]; intros Hn; [done|]. cbn [rows]. rewrite row_splice_ne //; [lia|]. rewrite IH //. lia. Qed.
Lemma row_splice_eq h i v : (length v ≤ 50)%nat → (50 * S i ≤ length h)%nat → row (splice (50 * i) v h) i = v ++ drop (length v) (row h i).
Proof.
  intros Hv Hh. rw /row /slice /splice. rewrite drop_app_length'; [rewrite length_take; lia|]. rewrite take_app. rewrite (take_ge v); [lia|]. f_equal.
  rewrite skipn_firstn_comm drop_drop. f_equal.
Qed.

Lemma at_heap_row n : at_heap (Z.of_nat n) 0 = (50 * n)%nat.
Proof. rw /at_heap /MAX_WORD. lia. Qed.

Lemma alone_S k c s c' s' : wstep c s = Some (c', s') → alone (S k) c s = alone k c' s'.
Proof. intros E. cbn [alone]. by rewrite E. Qed.

(** A push alone: it waits when the stack is full, and otherwise writes the row after the top. *)
Lemma push_alone s n w : idle s n → Z.of_nat (length w) ≤ MAX_WORD →
  alone 7 (PWait w) s = if (n <? 3)%nat then
    (Done None, WordStack (Z.of_nat n + 1) (Z.of_nat n + 1) false (Z.of_nat n + 1) (ITEMS - Z.of_nat n - 1) (splice (50 * n) w (ws_heap s)))
  else (PWait w, s).
Proof.
  intros [H1 H2 H3 H4 H5 H6 H7] Hw. rw /ITEMS in H5 |- *. destruct (Nat.ltb_spec n 3) as [Hlt|Hge].
  - erewrite alone_S; [|cbn [wstep]; rewrite H5; destruct (Z.ltb_spec 0 (3 - Z.of_nat n)); [reflexivity|lia]].
    erewrite alone_S; [|cbn [wstep with_sems ws_locked]; rewrite H3; reflexivity]. set (s1 := with_lock _ _).
    destruct (write_word_some w s1 H7 Hw ltac:(cbn; rw /ITEMS; lia)) as [E _].
    erewrite alone_S; [|cbn [wstep]; rewrite E; reflexivity]. erewrite alone_S; [|reflexivity]. erewrite alone_S; [|reflexivity].
    cbn [alone wstep s1 with_lock with_sems ws_free ws_items ws_locked ws_full ws_empty ws_heap]. rewrite H1 H2 H4 at_heap_row. done.
  - cbn [alone wstep]. rewrite H5. destruct (Z.ltb_spec 0 (3 - Z.of_nat n)); [lia|done].
Qed.

Lemma pop_alone s n : idle s n →
  alone 7 RIndex s = match n with
    | O => (RWait 0, s)
    | S k => (Done (Some (row (ws_heap s) k)), WordStack (Z.of_nat k) (Z.of_nat k) false (Z.of_nat k) (ITEMS - Z.of_nat k) (splice (50 * k) (replicate 50 BLANK) (ws_heap s)))
    end.
Proof.
  intros [H1 H2 H3 H4 H5 H6 H7]. erewrite alone_S; [|reflexivity]. rewrite H1. destruct n as [|k]; [cbn [alone wstep]; by rewrite H4|].
  destruct (Z.eqb_spec (Z.of_nat (S k) - 1) (-1)); [lia|]. replace (Z.of_nat (S k) - 1) with (Z.of_nat k) by lia.
  erewrite alone_S; [|cbn [wstep]; rewrite H4; destruct (Z.ltb_spec 0 (Z.of_nat (S k))); [reflexivity|lia]].
  erewrite alone_S; [|cbn [wstep with_sems ws_locked]; rewrite H3; reflexivity]. set (s1 := with_lock _ _).
  destruct (take_word_some (Z.of_nat k) s1 H7 ltac:(rw /ITEMS; lia)) as [E _].
  erewrite alone_S; [|cbn [wstep]; rewrite E; reflexivity]. erewrite alone_S; [|reflexivity]. erewrite alone_S; [|reflexivity].
  cbn [alone wstep s1 with_lock with_sems ws_free ws_items ws_locked ws_full ws_empty ws_heap]. rewrite H1 H2 H5 at_heap_row.
  rw /with_sems /with_lock. cbn [ws_free ws_items ws_locked ws_full ws_empty ws_heap]. f_equal. f_equal; lia.
Qed.

(** ** Theorems *)

(** In every interleaving of processes that push words of at most fifty bytes and pop, on a new stack: the number of
    items is [free], between 0 and three; at most one process is between lock and unlock, and exactly one when the
    mutex is taken; and a process there never leaves the heap: its next step is defined. *)
Theorem wordstack_consistent l y (Hl : Forall beginning l) (Hrun : rtc wsys_step (WSys create l) y) :
  ws_items (w_stack y) = ws_free (w_stack y) ∧ 0 ≤ ws_free (w_stack y) ≤ ITEMS ∧ 0 ≤ ws_empty (w_stack y) ∧ 0 ≤ ws_full (w_stack y) ∧
  total locking (w_procs y) = (if ws_locked (w_stack y) then 1 else 0) ∧ length (ws_heap (w_stack y)) = 150%nat ∧
  (∀ i c, w_procs y !! i = Some c → locking c = 1 → is_Some (wstep c (w_stack y))).
Proof.
  pose proof (wsys_reach _ _ Hrun (wsys_start l Hl)) as Hi. pose proof (wsys_bounds y Hi) as Hb. split_and!; [apply Hi|lia|lia|apply Hi|apply Hi|apply Hi|apply Hi|].
  intros i c Hc Hlk. destruct c; try done; cbn [wstep].
  - destruct (write_in_bounds y i word Hi Hc) as [Hw Hf]. destruct (write_word_some word (w_stack y) (wi_heap _ Hi) Hw Hf) as [-> _]. by eexists.
  - destruct (take_in_bounds y i i0 Hi Hc) as [Hw Hf]. destruct (take_word_some i0 (w_stack y) (wi_heap _ Hi) Hw) as [-> _]. by eexists.
Qed.

(** C38: Calls that run one after the other implement a stack of three rows: a push puts its word at the front of the row
    after the top and the rest of that row stays as it was, a pop returns the row on top, and they wait when the
    stack is full or empty, without a change. *)
Theorem calls_implement_stack s n w (Hidle : idle s n) (Hw : Z.of_nat (length w) ≤ MAX_WORD) :
  (if (n <? 3)%nat
   then ∃ s', alone 7 (PWait w) s = (Done None, s') ∧ idle s' (S n) ∧
          rows (ws_heap s') (S n) = (w ++ drop (length w) (row (ws_heap s) n)) :: rows (ws_heap s) n
   else alone 7 (PWait w) s = (PWait w, s)) ∧
  match n with
  | O => alone 7 RIndex s = (RWait 0, s)
  | S k => ∃ s', alone 7 RIndex s = (Done (Some (row (ws_heap s) k)), s') ∧ idle s' k ∧
             rows (ws_heap s) (S k) = row (ws_heap s) k :: rows (ws_heap s') k
  end.
Proof.
  pose proof (push_alone s n w Hidle Hw) as Epush. pose proof (pop_alone s n Hidle) as Epop. destruct Hidle as [H1 H2 H3 H4 H5 H6 H7]. rw /MAX_WORD in Hw. split.
  - destruct (Nat.ltb_spec n 3); [|done]. eexists. split; [exact Epush|]. split.
    + split; cbn [ws_free ws_items ws_locked ws_full ws_empty ws_heap]; try done; try lia. rewrite length_splice; lia.
    + cbn [rows ws_heap]. rewrite row_splice_eq; [lia|lia|]. rewrite rows_splice //; lia.
  - destruct n as [|k]; [done|]. eexists. split; [exact Epop|]. split.
    + split; cbn [ws_free ws_items ws_locked ws_full ws_empty ws_heap]; try done; try lia. rewrite length_splice ?length_replicate; lia.
    + cbn [rows ws_heap]. by rewrite rows_splice ?length_replicate //; lia.
Qed.

(** Two words in the stack and two pops. *)
Definition two_words : wordstack := (alone 7 (PWait [98]) (alone 7 (PWait [97]) create).2).2.
Definition overlap : list nat := [0; 1; 0; 0; 0; 0; 0; 1; 1; 1; 1; 1]%nat.
Fixpoint wrun (ts : list nat) (y : wsys) : option wsys :=
  match ts with
  | [] => Some y
  | i :: ts => c ← w_procs y !! i; '(c', s') ← wstep c (w_stack y); wrun ts (WSys s' (<[i := c']> (w_procs y)))
  end.

(** Two pops that overlap can lose a word: both look at [free] before they wait, the first takes the top, and the second
    returns the row the first has blanked; the stack is empty then and the other word was never returned. *)
Theorem overlapping_pops_lose_word :
  ∃ y w1 w2, wrun overlap (WSys two_words [RIndex; RIndex]) = Some y ∧ w_procs y = [Done (Some w1); Done (Some w2)] ∧
    cstring w1 = [98] ∧ w2 = replicate 50 BLANK ∧ ws_items (w_stack y) = 0 ∧ row (ws_heap (w_stack y)) 0 = 97 :: replicate 49 0.
Proof. eexists _, _, _. vm_compute. split_and!; reflexivity. Qed.

(** A full stack cannot be printed: the loop begins at the row [free], which is after the heap. *)
Theorem full_stack_print_overruns s (Hidle : idle s 3) : print_rows (Z.to_nat (ws_free s)) s = None.
Proof.
  destruct Hidle as [H1 _ _ _ _ _ H7]. rewrite H1. change (Z.to_nat (Z.of_nat 3)) with 3%nat. cbn [print_rows]. rewrite at_heap_row.
  rw /slice. rewrite drop_ge; [rewrite H7; lia|]. done.
Qed.

Lemma create_idle : idle create 0.
Proof. split; done || (simpl; lia). Qed.

Lemma wordstack_consistent_witness : ∃ y, rtc wsys_step (WSys create [PWait [97]; RIndex]) y ∧ ws_free (w_stack y) = 1 ∧ 0 ≤ ws_free (w_stack y) ≤ ITEMS.
Proof.
  assert (∀ ts y y', wrun ts y = Some y' → rtc wsys_step y y') as Hw.
  { induction ts as [|i ts IH]; intros y y' E; simpl in E; [simplify_eq; apply rtc_refl|]. destruct (w_procs y !! i) as [c|] eqn:Ei; [|done]. simpl in E.
    destruct (wstep c (w_stack y)) as [[c' s']|] eqn:Es; [|done]. simpl in E. eapply rtc_l; [by apply (WSys_step y i c c' s')|by apply IH]. }
  destruct (wrun (replicate 5 0%nat) (WSys create [PWait [97]; RIndex])) as [y|] eqn:E; [|by vm_compute in E].
  exists y. assert (rtc wsys_step (WSys create [PWait [97]; RIndex]) y) as Hr by exact (Hw _ _ _ E). split; [exact Hr|].
  split; [vm_compute in E; by injection E as <-|]. apply (wordstack_consistent [PWait [97]; RIndex] y); [|exact Hr]. by repeat constructor.
Defined.
Lemma calls_implement_stack_witness : ∃ s', alone 7 (PWait [97]) create = (Done None, s') ∧ idle s' 1.
Proof. destruct (calls_implement_stack create 0 [97] create_idle ltac:(done)) as [(s'&E&Hi&_) _]. exists s'. split; [exact E|exact Hi]. Defined.

Definition three_words : wordstack := (alone 7 (PWait [99]) two_words).2.
Lemma full_stack_print_overruns_witness : idle three_words 3 ∧ print_rows 3 three_words = None.
Proof.
  assert (idle three_words 3) as H by (split; vm_compute; congruence || reflexivity || lia). split; [exact H|]. exact (full_stack_print_overruns three_words H).
Defined.
