(* ===== verification/MsgBox.v ===== *)
(** * Message queues and a canvas in shared memory (lab-05/msgbox.c, canvas.c).

    The programs work on queues and segments that the system keeps by name.  Messages come out in the order they went in,
    with the name of the sender and the text intact; what is written on the canvas is what is printed, and nothing
    else on it changes.  Of the usage messages only the first word is kept. *)
From S2P Require Import Prelude Numbers Layout User.
Local Open Scope Z_scope.

(** ** msgbox.c *)

Definition USERNAME_MAXSIZE : Z := 15.
Definition TXT_SIZE : Z := 100.
Definition MAX_MSG : Z := 10.

(** A queue: the messages in order; all have the same priority. *)
Record mqueue := MQueue { mq_maxmsg : Z; mq_msgsize : Z; mq_msgs : list (list Z) }.
Record mbox := MBox { queues : gmap (list Z) mqueue; said : list (list Z) }.

Definition tell (l : list Z) : K mbox unit := modify (λ w, MBox (queues w) (said w ++ [l])).
Definition set_queue (name : list Z) (q : mqueue) : K mbox unit := modify (λ w, MBox (<[name := q]> (queues w)) (said w)).

(** [mq_send] waits while the queue is full. *)
Definition mq_send (name : list Z) (m : list Z) : K mbox unit :=
  w ← get;
  match queues w !! name with
  | None => undef "mq_send"
  | Some q =>
      if mq_maxmsg q <=? Z.of_nat (length (mq_msgs q)) then sleeps "mq_send"
      else set_queue name (MQueue (mq_maxmsg q) (mq_msgsize q) (mq_msgs q ++ [m]))
  end.
(** [None]: there is no message, for a queue opened with [O_NONBLOCK]. *)
Definition mq_receive (name : list Z) (nonblock : bool) : K mbox (option (list Z)) :=
  w ← get;
  match queues w !! name with
  | None => undef "mq_receive"
  | Some q =>
      match mq_msgs q with
      | [] => if nonblock then mret None else sleeps "mq_receive"
      | m :: l => _ ← set_queue name (MQueue (mq_maxmsg q) (mq_msgsize q) l); mret (Some m)
      end
  end.

Section MsgBox.
(** The name of the user, and what the stack holds where the message is built. *)
Context (login : list Z) (junk : list Z).

(** The fields [sender] and [text], each with its zero; the bytes after them are whatever was there. *)
Definition build (text : list Z) : option (list Z) :=
  if (Z.to_nat USERNAME_MAXSIZE <=? length login)%nat || (Z.to_nat TXT_SIZE <=? length text)%nat then None
  else Some (splice (Z.to_nat USERNAME_MAXSIZE) (text ++ [0]) (splice 0 (login ++ [0]) junk)).
Definition show (m : list Z) : list Z :=
  cstring (take (Z.to_nat USERNAME_MAXSIZE) m) ++ txt ": " ++ cstring (drop (Z.to_nat USERNAME_MAXSIZE) m).

Fixpoint receive_all (name : list Z) (n : nat) : K mbox unit :=
  match n with
  | O => mret tt
  | S k =>
      r ← mq_receive name false;
      _ ← tell (show (default [] r));
      receive_all name k
  end.

(** The exit status.  Option [-l] receives for ever: [rounds] messages of it. *)
Definition msgbox_main (rounds : nat) (argv : list (list Z)) : K mbox Z :=
  match argv with
  | _ :: opt :: args =>
      if negb (bool_decide (opt !! 0%nat = Some 45)) then _ ← tell (txt "Uso"); mret 1
      else
        let option := default 0 (opt !! 1%nat) in
        w ← get;
        match args with
        | name :: args =>
            if option =? 115 then
              match args with
              | text :: _ =>
                  _ ← tell (txt "Enviar " ++ text ++ txt " a la cola " ++ name);
                  match build text with
                  | None => undef "message"
                  | Some m => _ ← mq_send name m; mret 0
                  end
              | [] => undef "argv"
              end
            else if option =? 114 then
              _ ← tell (txt "Recibe el primer mensaje en " ++ name);
              r ← mq_receive name true;
              match r with
              | None => _ ← tell (txt "No hay mensajes."); mret 0
              | Some m => _ ← tell (show m); mret 0
              end
            else if option =? 97 then
              _ ← tell (txt "Imprimer todos los mensajes en " ++ name);
              match queues w !! name with
              | None => undef "mq_getattr"
              | Some q =>
                  if bool_decide (mq_msgs q = []) then _ ← tell (txt "No hay mensajes."); mret 0
                  else _ ← receive_all name (length (mq_msgs q)); mret 0
              end
            else if option =? 108 then
              _ ← tell (txt "Escucha indefinidamente por mensajes");
              _ ← receive_all name rounds;
              mret 0
            else if option =? 99 then
              _ ← tell (txt "Crea la cola de mensajes " ++ name);
              _ ← when (bool_decide (queues w !! name = None)) (set_queue name (MQueue MAX_MSG (USERNAME_MAXSIZE + TXT_SIZE) []));
              mret 0
            else if option =? 100 then
              _ ← tell (txt "Borra la cola de mensajes " ++ name);
              if bool_decide (queues w !! name = None) then _ ← tell (txt "Error al eliminar la cola de mensajes."); mret 1
              else _ ← modify (λ w, MBox (delete name (queues w)) (said w)); mret 0
            else if option =? 105 then
              match queues w !! name with
              | None => undef "mq_getattr"
              | Some q =>
                  _ ← tell (txt "Max number of messages: " ++ dec (mq_maxmsg q));
                  _ ← tell (txt "Max message size: " ++ dec (mq_msgsize q));
                  _ ← tell (txt "Current number of messages in queue: " ++ dec (Z.of_nat (length (mq_msgs q))));
                  mret 0
              end
            else if option =? 104 then _ ← tell (txt "Uso"); mret 0
            else _ ← tell (txt "Comando desconocido: " ++ opt); mret 1
        | [] =>
            if option =? 104 then _ ← tell (txt "Uso"); mret 0
            else if bool_decide (option ∈ [115; 114; 97; 108; 99; 100; 105]) then undef "argv"
            else _ ← tell (txt "Comando desconocido: " ++ opt); mret 1
        end
  | _ => _ ← tell (txt "Uso"); mret 1
  end.
End MsgBox.

(** ** canvas.c *)

Definition HEIGHT : Z := 25.
Definition WIDTH : Z := 25.
Record canvases := Canvases { segs : gmap (list Z) (list Z); shown : list (list Z) }.
Definition display (l : list Z) : K canvases unit := modify (λ w, Canvases (segs w) (shown w ++ [l])).

(** One character at a time; a place before the canvas is outside it. *)
Fixpoint draw (pos : Z) (text : list Z) (c : list Z) : option (list Z) :=
  match text with
  | [] => Some c
  | t :: text' =>
      let i := Z.rem pos (HEIGHT * WIDTH) in
      if i <? 0 then None else draw (pos + 1) text' (<[Z.to_nat i := t]> c)
  end.

Definition canvas_row (c : list Z) (i : nat) : list Z := (λ b, if b =? 0 then 32 else b) <$> slice (25 * i) 25 c.

Definition canvas_main (argv : list (list Z)) : K canvases Z :=
  match argv with
  | _ :: opt :: args =>
      if negb (bool_decide (opt !! 0%nat = Some 45)) then _ ← display (txt "Uso"); mret 1
      else
        let option := default 0 (opt !! 1%nat) in
        w ← get;
        match args with
        | name :: args =>
            if option =? 119 then
              match args with
              | text :: x :: y :: _ =>
                  _ ← display (txt "Escribe " ++ text ++ txt " en el canvas " ++ name ++ txt " en la posicion (" ++ dec (c_atoi x) ++ txt ", " ++ dec (c_atoi y) ++ txt ").");
                  match segs w !! name with
                  | None => _ ← display (txt "Error al abrir segmento de memoria compartida."); mret 1
                  | Some c =>
                      match draw (s32 (HEIGHT * c_atoi x + c_atoi y)) text c with
                      | None => undef "canvas"
                      | Some c' => _ ← modify (λ w, Canvases (<[name := c']> (segs w)) (shown w)); mret 0
                      end
                  end
              | _ => undef "argv"
              end
            else if option =? 112 then
              _ ← display (txt "Imprime canvas.");
              match segs w !! name with
              | None => undef "mmap"
              | Some c => _ ← for_each (seq 0 25) (λ i, display (canvas_row c i)); _ ← display []; mret 0
              end
            else if option =? 99 then
              _ ← display (txt "Crea canvas " ++ name ++ txt ".");
              _ ← when (bool_decide (segs w !! name = None)) (modify (λ w, Canvases (<[name := replicate 625 0]> (segs w)) (shown w)));
              mret 0
            else if option =? 100 then
              _ ← display (txt "Borra canvas " ++ name ++ txt ".");
              if bool_decide (segs w !! name = None) then _ ← display (txt "Error al eliminar el segmento de memoria compartida."); mret 1
              else _ ← modify (λ w, Canvases (delete name (segs w)) (shown w)); mret 0
            else if option =? 104 then _ ← display (txt "Uso"); mret 0
            else _ ← display (txt "Comando desconocido"); mret 1
        | [] =>
            if option =? 104 then _ ← display (txt "Uso"); mret 0
            else if bool_decide (option ∈ [119; 112; 99; 100]) then undef "argv"
            else _ ← display (txt "Comando desconocido"); mret 1
        end
  | _ => _ ← display (txt "Uso"); mret 1
  end.

(** ** Messages *)

Section Messages.
Context (login junk : list Z).
Hypothesis Hlogin : text login.
Hypothesis Hll : (length login < 15)%nat.
Hypothesis Hjunk : length junk = 115%nat.

Definition sendable (t : list Z) : Prop := text t ∧ (length t < 100)%nat.

Lemma build_shows t : sendable t → ∃ m, build login junk t = Some m ∧ show m = login ++ txt ": " ++ t.
Proof.
  intros [Ht Hl]. rw /build. change (Z.to_nat USERNAME_MAXSIZE) with 15%nat. change (Z.to_nat TXT_SIZE) with 100%nat.
  destruct (Nat.leb_spec 15 (length login)); [lia|]. destruct (Nat.leb_spec 100 (length t)); [lia|]. eexists. split; [done|].
  rw /show. change (Z.to_nat USERNAME_MAXSIZE) with 15%nat. set (m0 := splice 0 (login ++ [0]) junk).
  assert (length m0 = 115%nat) as Hm0 by (rw /m0; rewrite length_splice; [rewrite length_app /=; lia|done]).
  assert (take 15 (splice 15 (t ++ [0]) m0) = take 15 m0) as ->.
  { rw /splice. rewrite take_app_le; [rewrite length_take; lia|]. rewrite take_take. done. }
  assert (drop 15 (splice 15 (t ++ [0]) m0) = t ++ 0 :: drop (15 + length (t ++ [0])) m0) as ->.
  { rw /splice. rewrite drop_app_length'; [rewrite length_take; lia|]. by rewrite -app_assoc. }
  assert (∃ r, take 15 m0 = login ++ 0 :: r) as [r ->].
  { rw /m0 /splice. change (take 0 junk ++ ?l) with l. rewrite -app_assoc take_app. rewrite (take_ge login); [lia|]. destruct (15 - length login)%nat as [|k] eqn:E; [lia|]. exists (take k (drop (0 + length (login ++ [0])) junk)). done. }
  assert (∀ l r, text l → cstring (l ++ 0 :: r) = l) as Hc.
  { intros l r0 Hl0. induction Hl0 as [|c l Hc Hl' IH]; [done|]. cbn [app cstring]. destruct (Z.eqb_spec c 0); [lia|]. by rewrite IH. }
  by rewrite !Hc.
Qed.

Lemma send_wp name t w q (Q : Z → mbox → Prop) :
  queues w !! name = Some q → sendable t → Z.of_nat (length (mq_msgs q)) < mq_maxmsg q →
  (∀ m, show m = login ++ txt ": " ++ t →
    Q 0 (MBox (<[name := MQueue (mq_maxmsg q) (mq_msgsize q) (mq_msgs q ++ [m])]> (queues w)) (said w ++ [txt "Enviar " ++ t ++ txt " a la cola " ++ name]))) →
  wp (msgbox_main login junk 0 [txt "msgbox"; txt "-s"; name; t]) w Q.
Proof.
  intros Hq Ht Hl HQ. destruct (build_shows t Ht) as (m&Em&Hm). rw /msgbox_main. cbn [negb]. apply wp_bind, wp_get.
  change (default 0 (txt "-s" !! 1%nat)) with 115. cbn [Z.eqb]. apply wp_bind, wp_modify. rewrite Em.
  apply wp_bind. rw /mq_send. apply wp_bind, wp_get. cbn [queues]. rewrite Hq. destruct (Z.leb_spec (mq_maxmsg q) (Z.of_nat (length (mq_msgs q)))); [lia|].
  apply wp_modify, wp_ret. by apply HQ.
Qed.

Lemma receive_all_wp name : ∀ l w q (Q : unit → mbox → Prop),
  queues w !! name = Some q → mq_msgs q = l →
  Q tt (MBox (<[name := MQueue (mq_maxmsg q) (mq_msgsize q) []]> (queues w)) (said w ++ (show <$> l))) → wp (receive_all name (length l)) w Q.
Proof.
  induction l as [|m l IH]; intros w q Q Hq El HQ; cbn [length receive_all].
  - apply wp_ret. destruct w as [qs sd], q as [a b c]. cbn in *. subst. rewrite app_nil_r insert_id // in HQ.
  - apply wp_bind. rw /mq_receive. apply wp_bind, wp_get. rewrite Hq El. apply wp_bind, wp_modify, wp_ret, wp_bind, wp_modify. cbn [default queues said].
    apply (IH _ (MQueue (mq_maxmsg q) (mq_msgsize q) l)); [by rewrite lookup_insert_eq|done|]. cbn [queues said mq_maxmsg mq_msgsize]. rewrite insert_insert_eq -app_assoc. exact HQ.
Qed.
End Messages.

(** Messages come out of a queue in the order they went in, each with the name of its sender and its text whole: up to
    ten texts of less than a hundred characters sent one after the other to a new queue are printed by [-a] in this
    order, whatever was on the stack where they were built, and the queue is empty again. *)
Theorem messages_in_order login junk name texts w (Hlogin : text login) (Hll : (length login < 15)%nat) (Hjunk : length junk = 115%nat)
    (Hnew : queues w !! name = Some (MQueue MAX_MSG (USERNAME_MAXSIZE + TXT_SIZE) [])) (Htexts : Forall sendable texts) (Hten : (0 < length texts ≤ 10)%nat) :
  wp (_ ← for_each texts (λ t, _ ← msgbox_main login junk 0 [txt "msgbox"; txt "-s"; name; t]; mret tt);
      msgbox_main login junk 0 [txt "msgbox"; txt "-a"; name]) w (λ r w',
    r = 0 ∧ (∃ before, said w' = before ++ ((λ t, login ++ txt ": " ++ t) <$> texts)) ∧
    queues w' !! name = Some (MQueue MAX_MSG (USERNAME_MAXSIZE + TXT_SIZE) [])).
Proof.
  apply wp_bind, (wp_for_each _ _ (λ pre w1, ∃ l, queues w1 !! name = Some (MQueue MAX_MSG (USERNAME_MAXSIZE + TXT_SIZE) l) ∧ show <$> l = (λ t, login ++ txt ": " ++ t) <$> pre)).
  - by exists [].
  - intros pre t post w1 Et (l&Hq&El). assert (length l = length pre) as Hlen by (apply (f_equal length) in El; by rewrite !length_fmap in El).
    apply wp_bind, (send_wp login junk Hlogin Hll Hjunk name t w1 _ _ Hq); [by rewrite Et Forall_app Forall_cons in Htexts; naive_solver| |].
    + cbn. rewrite Hlen. rewrite Et length_app /= in Hten. rw /MAX_MSG. lia.
    + intros m Hm. apply wp_ret. exists (l ++ [m]). cbn [queues]. rewrite lookup_insert_eq. split; [done|]. by rewrite !fmap_app El /= Hm.
  - intros w1 (l&Hq&El). assert (length l = length texts) as Hlen by (apply (f_equal length) in El; by rewrite !length_fmap in El).
    rw /msgbox_main. cbn [negb]. apply wp_bind, wp_get. change (default 0 (txt "-a" !! 1%nat)) with 97. cbn [Z.eqb Pos.eqb]. apply wp_bind, wp_modify. rewrite Hq. cbn [mq_msgs].
    rewrite bool_decide_eq_false_2; [destruct l; [simpl in Hlen; lia|done]|].
    apply wp_bind, (receive_all_wp name l _ (MQueue MAX_MSG (USERNAME_MAXSIZE + TXT_SIZE) l)); [done|done|]. apply wp_ret. cbn [queues said]. split_and!; [done| |by rewrite lookup_insert_eq].
    rewrite El. by eexists.
Qed.

(** ** The canvas *)

Lemma draw_spec text : ∀ pos c, 0 ≤ pos → pos + Z.of_nat (length text) ≤ 625 → length c = 625%nat → draw pos text c = Some (splice (Z.to_nat pos) text c).
Proof.
  induction text as [|t text IH]; intros pos c H0 H1 Hl; cbn [draw length] in *.
  - rw /splice. cbn [length app]. by rewrite Nat.add_0_r take_drop.
  - change (HEIGHT * WIDTH) with 625. rewrite Z.rem_small; [lia|]. destruct (Z.ltb_spec pos 0); [lia|]. rewrite IH; [lia|lia|by rewrite length_insert|]. f_equal.
    apply list_eq. intros i. rewrite (lookup_splice (Z.to_nat (pos + 1))); [rewrite length_insert; lia|]. rewrite (lookup_splice (Z.to_nat pos) (t :: text)); [simpl; lia|]. cbn [length].
    destruct (decide (i = Z.to_nat pos)) as [->|Hne].
    + rewrite decide_False; [lia|]. rewrite decide_True; [lia|]. rewrite list_lookup_insert_eq; [lia|]. by rewrite Nat.sub_diag.
    + rewrite list_lookup_insert_ne; [congruence|]. repeat case_decide; try lia; [|done]. replace (i - Z.to_nat pos)%nat with (S (i - Z.to_nat (pos + 1))) by lia. done.
Qed.

(** A text written at row [x] and column [y] of the canvas that fits the row is printed there, the rest of the row and
    every other row as before; zero bytes are printed as spaces. *)
Theorem canvas_shows_text x y t c (Hx : 0 ≤ x < HEIGHT) (Hy : 0 ≤ y) (Ht : y + Z.of_nat (length t) ≤ WIDTH) (Hc : length c = 625%nat) (Htext : text t) :
  ∃ c', draw (s32 (HEIGHT * x + y)) t c = Some c' ∧ length c' = 625%nat ∧
    canvas_row c' (Z.to_nat x) = splice (Z.to_nat y) t (canvas_row c (Z.to_nat x)) ∧
    ∀ i, (i < 25)%nat → i ≠ Z.to_nat x → canvas_row c' i = canvas_row c i.
Proof.
  rw /HEIGHT in Hx. rw /WIDTH in Ht. rw /HEIGHT. rewrite s32_small; [lia|]. rewrite draw_spec; [lia|lia|done|]. eexists. split; [done|].
  set (p := Z.to_nat (25 * x + y)). assert (p = 25 * Z.to_nat x + Z.to_nat y)%nat as Hp by lia. split; [rewrite length_splice; lia|]. split.
  - rw /canvas_row. apply list_eq. intros k. rewrite list_lookup_fmap lookup_splice; [rewrite length_fmap length_slice; lia|]. rewrite list_lookup_fmap.
    rw /slice. destruct (decide (k < 25)%nat) as [Hk|Hk].
    + rewrite !lookup_take_lt // !lookup_drop lookup_splice; [lia|]. destruct (decide (Z.to_nat y ≤ k < Z.to_nat y + length t)%nat).
      * rewrite decide_True; [lia|]. replace (25 * Z.to_nat x + k - p)%nat with (k - Z.to_nat y)%nat by lia.
        destruct (t !! (k - Z.to_nat y)%nat) as [b|] eqn:E; [|done]. rw /text Forall_lookup in Htext. specialize (Htext _ _ E). simpl. destruct (Z.eqb_spec b 0); [lia|done].
      * rewrite decide_False; [lia|]. done.
    + rewrite !lookup_take_ge; [lia..|]. rewrite decide_False; [lia|done].
  - intros i Hi Hne. rw /canvas_row slice_splice_ne //; lia.
Qed.

(** *** Witnesses *)

Definition box0 : mbox := MBox {[ txt "q" := MQueue MAX_MSG (USERNAME_MAXSIZE + TXT_SIZE) [] ]} [].
Lemma messages_in_order_witness :
  wp (_ ← for_each [txt "hola"; txt "chau"] (λ t, _ ← msgbox_main (txt "ana") (replicate 115 7) 0 [txt "msgbox"; txt "-s"; txt "q"; t]; mret tt);
      msgbox_main (txt "ana") (replicate 115 7) 0 [txt "msgbox"; txt "-a"; txt "q"]) box0
     (λ r w', ∃ before, said w' = before ++ [txt "ana: hola"; txt "ana: chau"]).
Proof.
  eapply wp_mono; [apply (messages_in_order (txt "ana") (replicate 115 7) (txt "q") [txt "hola"; txt "chau"] box0)|].
  - by apply text_of.
  - vm_compute. lia.
  - done.
  - done.
  - repeat constructor; try (by apply text_of); vm_compute; lia.
  - simpl. lia.
  - intros r w' (_&[b E]&_). exists b. exact E.
Defined.

Lemma canvas_shows_text_witness : ∃ c', draw (s32 (HEIGHT * 2 + 3)) (txt "hi") (replicate 625 0) = Some c' ∧ canvas_row c' 2 = replicate 3 32 ++ txt "hi" ++ replicate 20 32.
Proof.
  destruct (canvas_shows_text 2 3 (txt "hi") (replicate 625 0)) as (c'&E&_&Er&_); [done|done|done|done|by apply text_of|].
  exists c'. split; [exact E|]. change (Z.to_nat 2) with 2%nat in Er. rewrite Er. vm_compute. reflexivity.
Defined.
